(* ===== verification/_CoqProject ===== *)
-Q . S2P
Prelude.v
Numeric.v
QuorumSet.v
ScpTypes.v
LocalNode.v
Ballots.v
Slot.v
BallotProtocol.v
BallotVotes.v
BallotSpec.v
BallotRefine.v
Nomination.v
SlotProcess.v
NominationSpec.v
Leaders.v
SlotSafety.v
Examples.v
Events.v
Agreement.v
ScpSafety.v
Exchange.v
LedgerEntries.v
Balances.v
Sponsorship.v
LedgerState.v
CrossOffers.v
Holders.v
Reserves.v
CrossSafety.v
Book.v
LedgerExamples.v
ConvertSafety.v
SponsoredCreation.v
QuorumIntersection.v
QicTarjan.v
QicSlices.v
QicSearch.v
QicNetwork.v
QicCritical.v
BitSets.v
QuorumTracker.v
TrackedNetwork.v
Buckets.v
BucketMerge.v
BucketChain.v
BucketList.v
BucketLevels.v
BucketSizes.v
BucketListSafety.v
BucketApply.v
HistoryArchive.v
ApplyBuckets.v
BucketCheck.v
CatchupSafety.v
Catchup.v
BucketExamples.v
BucketTheorems.v
OfferOrder.v
LedgerTxn.v
LedgerTxnBook.v
LedgerTxnBest.v
LedgerTxnInv.v
LedgerTxnSpec.v
LedgerTxnRefine.v
LedgerTxnOffers.v
LedgerTxnSeal.v
LedgerTxnCommit.v
LedgerTxnRun.v
LedgerClose.v
LedgerCloseSafety.v
LedgerNode.v
LedgerTheorems.v
LedgerBook.v
RandomEvictionCache.v
LedgerTables.v
LedgerTxnRoot.v
LedgerRootOffers.v
LedgerRootCommit.v
LedgerRootSafety.v
LedgerRootTheorems.v
