(* ===== verification/Prelude.v ===== *)
(** * DigitalBits-core: a verification development

    DigitalBits-core is a node of a replicated ledger.  Nodes agree on each
    ledger with the Stellar Consensus Protocol; the application around it
    validates values, transports messages, closes ledgers, applies transactions
    and publishes the history from which other nodes catch up.  This development
    models these parts of it and proves them correct: the consensus library, the
    analysis of quorums, the exchange of offers with the reserves and sponsorships
    it depends on, ledger transactions and the closing of ledgers, the bucket list,
    and catching up from an archive.

    ** The parts and how they interact

    Consensus (src/scp).  An object [SCP] (SCP.cpp) owns a map of [Slot]s, one for
    each ledger.  A [Slot] (Slot.cpp) runs two protocols: nomination
    (NominationProtocol.cpp), which produces a value to propose, and the ballot
    protocol (BallotProtocol.cpp), which commits to one.  Both decide with
    federated voting over the latest statements of the nodes, which is computed by
    the quorum predicates of [LocalNode] (LocalNode.cpp) on the nested quorum sets
    that QuorumSetUtils.cpp validates and normalises.  A protocol that changes its
    state sends the new statement to itself through [Slot::processEnvelope]: the
    handlers are mutually recursive.  The application is reached through the
    virtual class [SCPDriver].

    Quorums (src/herder).  The safety of consensus rests on the intersection of
    quorums.  [QuorumTracker] explores the nodes that the local node depends on;
    [QuorumIntersectionCheckerImpl] decides whether any two quorums of them
    intersect, on the bit sets of util/BitSet.h.

    Offers (src/transactions).  An agreed ledger applies transactions.
    OfferExchange.cpp crosses the offers of the order book, with the arithmetic of
    util/numeric.cpp, on accounts and trust lines whose balances, liabilities and
    reserves TransactionUtils.cpp keeps; SponsorshipUtils.cpp says who pays a
    reserve.

    Ledger transactions (src/ledger).  Everything that changes the ledger works in
    a [LedgerTxn]: it records the entries that it has loaded or changed, asks its
    parent for the others, down to the database, and indexes the offers it has
    recorded by price.  Transactions nest; a child is committed to its parent or
    rolled back.  A ledger is closed (LedgerManagerImpl.cpp) by committing the
    outermost one to the database and giving its entries to the bucket list.

    Buckets (src/bucket).  The entries that a ledger changed go into the bucket
    list: levels of sorted files that are merged in the background on a schedule
    that depends on the ledger number alone, so that all nodes have the same list
    and its hash can be agreed on.

    Catching up (src/history, src/catchup).  A node publishes its list as a
    history archive state; another one, new or behind, applies the buckets that
    differ from its own, with a check of each of them (src/invariant), and takes
    over the list.

    ** Files

    Shared:
    - Prelude: machine integers, three-way comparisons, ordered sets and maps as
      sorted lists ([std::set], [std::map]), the state and error monad, its
      weakest precondition [wp] and tactics, [intLexicographicalCompare].
    - Numeric: util/numeric.cpp.

    Consensus:
    - QuorumSet: scp/QuorumSetUtils.cpp; [sat] is the meaning of a quorum set.
    - ScpTypes: the messages of DigitalBits-SCP.x, the driver and the local node as
      classes.
    - LocalNode: scp/LocalNode.cpp.
    - Ballots: the functions of scp/BallotProtocol.cpp on ballots and statements.
    - Slot: the state of a slot, the ways it can fail, federated voting and the
      queries of scp/Slot.cpp.
    - BallotProtocol: the methods of class [BallotProtocol].  They take
      [Slot::processEnvelope] as an argument, and [SlotProcess] ties the knot.
    - BallotVotes, BallotSpec: what a federated vote means, the abstract ballot
      protocol [istep] and its invariant.
    - BallotRefine: every method of BallotProtocol.v keeps the invariant and
      performs abstract steps.
    - Nomination, NominationSpec, Leaders: the same for the nomination protocol,
      and the election of round leaders.
    - SlotProcess, SlotSafety: the slot, the SCP object, and the composition of
      the two protocols.
    - Examples: a network of two nodes used by the witnesses.
    - Events: a slot as a state machine driven by messages, timers and commands.
    - Agreement: a network of slots with faulty nodes.
    - ScpSafety: the map of slots, restoring a state, the quorum report.

    Offers:
    - Exchange: the arithmetic of transactions/OfferExchange.cpp.
    - LedgerEntries, Balances: the entries of DigitalBits-ledger-entries.x, and
      TransactionUtils.cpp and TrustLineWrapper.cpp on single entries.
    - Sponsorship: transactions/SponsorshipUtils.cpp.
    - LedgerState: the ledger as a monad [LM], with the functions of
      TransactionUtils.cpp that load and change entries.
    - CrossOffers: [crossOfferV10], [convertWithOffers] and what they call.
    - Holders, Reserves, CrossSafety, Book, ConvertSafety: the invariant of the
      order book and that crossing keeps it.
    - SponsoredCreation: creating and removing an entry under a sponsor.
    - LedgerExamples: a small ledger used by the witnesses.

    Ledger transactions:
    - OfferOrder: [isBetterOffer] of ledger/LedgerTxnOfferSQL.cpp on the doubles of
      prices.
    - LedgerTxn: ledger/LedgerTxn.cpp, LedgerTxnEntry.cpp, LedgerTxnHeader.cpp.
    - LedgerTxnBook, LedgerTxnBest, LedgerTxnInv: the index of offers, the best
      offer of all the entries that are shown, the invariant of a chain of
      transactions.
    - LedgerTxnSpec: the contract, in which a transaction is a copy of a map.
    - LedgerTxnRefine, LedgerTxnOffers, LedgerTxnSeal, LedgerTxnCommit,
      LedgerTxnRun: each operation keeps the contract, and so do runs.
    - LedgerClose: [LedgerManagerImpl::closeLedger], [ledgerClosed], the first two
      ledgers, and the snapshot of bucket/BucketManagerImpl.cpp.
    - LedgerCloseSafety, LedgerNode: the entries of a closed ledger are a batch for
      the bucket list, and the invariant of a node.
    - LedgerTheorems: the theorems, with examples.
    - LedgerBook: the interface [OrderBook] of trades is implemented by the order of
      the ledger transaction.
    - RandomEvictionCache: util/RandomEvictionCache.h.
    - LedgerTables: the SQL of ledger/LedgerTxn*SQL.cpp on tables, and
      that tables of legal entries are a map from ledger keys to entries.
    - LedgerTxnRoot: [LedgerTxnRoot::Impl] of ledger/LedgerTxn.cpp in Module [RootImpl].
    - LedgerRootOffers, LedgerRootCommit, LedgerRootSafety: the cached offers, the
      commit in batches, the invariant of the root.
    - LedgerRootTheorems: the root refines the one of LedgerTxn.v.

    Quorums:
    - QuorumIntersection: herder/QuorumIntersectionCheckerImpl.cpp on ascending
      lists of bits.
    - QicTarjan, QicSlices, QicSearch, QicNetwork, QicCritical: strongly connected
      components, slices and quorums on indices, the branch-and-bound search, the
      verdict on a network, critical groups.
    - BitSets: util/BitSet.h and lib/util/cbitset on words.
    - QuorumTracker, TrackedNetwork: herder/QuorumTracker.cpp, and its map given to
      the checker.

    Buckets and catching up:
    - Buckets: bucket/Bucket.cpp, LedgerCmp.h, the iterators and the applicator.
    - BucketMerge, BucketChain: what a merge computes, and what it leaves of the
      history of a key.
    - BucketList: bucket/BucketList.cpp and FutureBucket.cpp.
    - BucketLevels, BucketSizes: the schedule of the levels, and the ledgers that a
      bucket spans, as arithmetic.
    - BucketListSafety: the invariant of the list through ledgers and restarts.
    - BucketApply, BucketCheck: applying buckets in order, and the check of
      invariant/BucketListIsConsistentWithDatabase.cpp after each.
    - HistoryArchive: history/HistoryArchive.cpp.
    - ApplyBuckets: catchup/ApplyBucketsWork.cpp with the invariant, and
      [BucketManagerImpl::assumeState].
    - CatchupSafety, Catchup: the work succeeds on the state that a node publishes.
    - BucketExamples, BucketTheorems: a history of three ledgers, and the theorems.

    ** Correspondence

    A method of the code is a definition of the same name.  Methods of a slot are
    in the monad [SM A := Slot -> outcome Failure (A * Slot)], functions on the
    ledger in [LM], functions on buckets in [BE A := outcome BucketError A].
    [Fail] is a [dbgAssert] or [assert] that does not hold, an exception, undefined
    behaviour, or the dereference of a null pointer.  Members of the C++ classes
    are fields of the same name; [std::map] and [std::set] are sorted lists where
    the order of iteration matters and finite maps elsewhere.  Integers are [Z]
    with the wrap-around written where the code can wrap.  Node identities and
    hashes are [Z], only compared; values are byte strings.

    Calls to the SCP driver that return nothing are appended to [mDriverCalls].
    The functions on offers and sponsorships work on the contract of a [LedgerTxn]:
    the finite map of the entries it shows; a nested one that is not committed
    leaves its parent's.  The best offer of the book is a class of CrossOffers.v,
    with an instance in LedgerBook.v.  In LedgerTxn.v the chain of transactions is a
    value with the innermost one outside, [LT A := outcome LtxError A]; the hash
    tables of the code are finite maps whose order of iteration is an oracle, a
    permutation that each event brings along.  What a client does is a list of
    events, [step] runs the code and [sstep] the contract.  An exception ends a run.
    The root of LedgerTxn.v is a map of entries; LedgerTxnRoot.v has the code with its
    tables and caches, and [root_refines] relates the two call by call.
    A closed ledger is what happens to the transaction between [openEvents] and
    [finishLedger].  The random choices of
    the intersection checker are an oracle.  A bucket is the list of the records
    of its file; its hash and size, and the lookup of buckets by hash, are
    parameters.  A merge in the background is the outcome of the merge, looked at
    when the future is resolved; which merges are ready at a time is an oracle.

    ** What the theorems show

    - Quorum sets: [isQuorumSetSane] is its declarative meaning, normalisation
      keeps the meaning and is canonical, [isQuorumSlice], [isVBlocking],
      [isQuorum] and [findClosestVBlocking] compute slices, blocking sets, the
      greatest quorum and a smallest blocking repair, node weights are within
      bounds.
    - The slot: every event of a reachable slot keeps the invariant, either
      completes or fails in one of the named ways, and refines the abstract
      protocols; phases and ballots only move forward; the application is told
      one value once; what the node commits to never changes; nominated values
      are valid and backed by a federated vote; a restart repeats what was said.
    - The network: if any two quorums share a correct node, no two correct
      nodes externalize different values for a slot.
    - Quorum analysis: the tracker finds exactly the nodes that the local node
      depends on, with distances and closest validators; the checker's verdict is
      that of the definition of quorum intersection, a reported split is one, and
      critical groups are those whose fickleness breaks intersection.
    - Arithmetic: the 128-bit divisions are exact or report overflow.
    - Offers: the result of an exchange favours the offer that stays and respects
      the limits of both parties within the price error; crossing the book ends,
      keeps liabilities equal to the offers and reserves covered, and moves
      exactly what the trail says; sponsored reserves come back on removal.
    - Ledger transactions: whatever a client does, it gets the replies and errors of
      the contract; the states are well-formed; the best offer is found and is the
      best; a roll-back leaves no trace; the reported changes lead from the parent's
      entries to the committed ones.
    - Root: whatever its caches have kept, evicted or prefetched, the root answers as the
      map of entries; the search for the best offer ends; committing in batches by type
      is committing row by row.
    - Closing: a node closes every ledger that its contract lets through, and after
      it the newest entries of the bucket list are the database, with the hash in
      the header, through restarts; the slots of the skip list.
    - Buckets: a merge shows a reader the same state; the list never fails, shows
      the ledger, and depends on the batches alone, through restarts; each bucket
      holds the ledgers of the span that the code computes for it.
    - Catching up: a published state is valid and has the hash of the list; a new
      node, and one that is behind, reaches the ledger and list of the publisher
      without failing a check.
    - Failures: a CONFIRM with zero counters and a timeout at the last ballot
      counter trip assertions; a valid offer can be removed untraded by the second
      adjustment of [crossOfferV10]; the intersection checker aborts on 65 nodes;
      comparisons of bit sets of different lengths ignore the tail.

    ** Fuel and bounds

    The recursion through [Slot::processEnvelope] is bounded by
    MAX_ADVANCE_SLOT_RECURSION in the ballot protocol and, in the nomination
    protocol, by the number of values that can still be promoted
    ([nominationFuel]); the loop of [attemptBump] runs at most three times
    ([bumpFuel]).  [event_completes] proves that no event runs out of fuel.
    [updateRoundLeaders] draws hashes until a new leader appears: its [fuel] is a
    number of rounds, and [updateRoundLeaders_first_new] says that it returns when
    some round within the fuel has a new leader.

    The loop over the book has one step for each offer and one more.  Tarjan's
    recursion and the contraction to a quorum are given the number of nodes and
    one more, the search for a split the size of the component and one more; a
    rebuild of the tracker takes one step for each mention of a node in a quorum set
    ([enough]).  The search for the best offer is given three steps and the number of
    entries shown for each transaction of the chain ([bookFuel]); the loop over the
    batches of offers of the root one more than the rows of the database.
    A merge is given the number of records of its inputs.  The sizes of levels
    recurse over the levels and halves, 44 steps are enough for eleven levels.
    The work of catching up runs a number of steps whose existence the theorems
    state.  The theorems on these functions prove that the fuel is enough.

    The theorems on bucket lists are about protocols from 12 on
    ([FIRST_PROTOCOL_SHADOWS_REMOVED]); the merge itself is covered with its
    shadows.  Catching up is proved for ledger numbers below 2^31, because
    [countObjects] casts them to [int].

    ** Not modelled

    - Text, logs and JSON renderings, metrics ([getJsonInfo], [envToStr],
      [toJson]).
    - [LocalNode::updateQuorumSet]: the local quorum set is fixed during a run.
    - The driver (src/herder) is a parameter: what the protocol relies on is the
      class [DriverOk] of SlotSafety.v; hashes of nomination are arbitrary.
    - Signatures are checked by the application before an envelope reaches SCP.
    - The transaction frames and operations other than what OfferExchange.cpp,
      TransactionUtils.cpp and SponsorshipUtils.cpp do for them: in a closed ledger
      they are events of a client.
    - Of [LedgerTxn] and its root the states after an exception, the inflation winners
      and the encoding of columns.  A trust line that its account issues is rejected by a
      query but found missing after a prefetch; [root_refines] is about callers that do
      not ask for one.
    - Of the ledger manager the stored history and metadata, the queue of
      checkpoints to publish, and the states of syncing with the network.
    - The files of buckets, their garbage collection and the sharing of equal
      merges; the works that download, verify and publish files.
    - Overlay, database, process and command line: input and output on asio,
      SOCI and the operating system.  Cryptography wraps libsodium.  XDR
      marshalling is generated at build time. *)

From stdpp Require Import prelude list sorting.
From Stdlib Require Import ZArith Lia.

#[global] Set Default Goal Selector "!".
Local Open Scope Z_scope.

(** ** Machine integers

    The source uses [uint32], [uint64], [int32] and [int64].  They are [Z] here;
    every operation of the code that can wrap is followed by the truncation
    it performs. *)

Definition UINT32_MAX : Z := 4294967295.
Definition UINT64_MAX : Z := 18446744073709551615.
Definition INT64_MAX : Z := 9223372036854775807.
Definition INT64_MIN : Z := -9223372036854775808.

Definition u32 (z : Z) : Z := z `mod` 4294967296.
Definition u64 (z : Z) : Z := z `mod` 18446744073709551616.
Definition s32 (z : Z) : Z := (z + 2147483648) `mod` 4294967296 - 2147483648.
Definition s64 (z : Z) : Z :=
  (z + 9223372036854775808) `mod` 18446744073709551616 - 9223372036854775808.

#[global] Arguments u32 : simpl never.
#[global] Arguments u64 : simpl never.
#[global] Arguments s32 : simpl never.
#[global] Arguments s64 : simpl never.

Definition in_u32 (z : Z) : Prop := 0 ≤ z ≤ UINT32_MAX.
Definition in_u64 (z : Z) : Prop := 0 ≤ z ≤ UINT64_MAX.
Definition in_s64 (z : Z) : Prop := INT64_MIN ≤ z ≤ INT64_MAX.

(** [word] unfolds the widths and leaves a linear goal. *)
Ltac word :=
  unfold in_u32, in_u64, in_s64, UINT32_MAX, UINT64_MAX, INT64_MAX, INT64_MIN,
    u32, u64, s32, s64 in *; try lia.

(** [zcases] splits on every integer test of the goal. *)
Ltac zcases :=
  repeat match goal with
  | |- context [?a =? ?b] => destruct (Z.eqb_spec a b); simpl
  | |- context [?a <? ?b] => destruct (Z.ltb_spec a b); simpl
  | |- context [?a <=? ?b] => destruct (Z.leb_spec a b); simpl
  end.

Section Machine.

Lemma u32_small z : in_u32 z → u32 z = z.
Proof. intros H. unfold u32. apply Z.mod_small. word. Qed.

Lemma u64_small z : in_u64 z → u64 z = z.
Proof. intros H. unfold u64. apply Z.mod_small. word. Qed.

Lemma s32_small z : -2147483648 ≤ z < 2147483648 → s32 z = z.
Proof. intros H. unfold s32. rewrite Z.mod_small; lia. Qed.

Lemma s64_small z : in_s64 z → s64 z = z.
Proof. intros H. unfold s64. rewrite Z.mod_small; word. Qed.

Lemma u32_range z : in_u32 (u32 z).
Proof. unfold u32. pose proof (Z.mod_pos_bound z 4294967296). word. Qed.
End Machine.

(** ** Three-way comparisons

    The C++ code compares with functions returning a negative, null or
    positive [int].  [CmpOk] is what every such function promises to the ordered
    containers ([std::set], [std::map], [std::sort]) built on it. *)

Class CmpOk {A} (cmp : A → A → Z) : Prop := {
  cmp_eq : ∀ x y, cmp x y = 0 ↔ x = y;
  cmp_opp : ∀ x y, cmp y x = - cmp x y;
  cmp_lt_trans : ∀ x y z, cmp x y < 0 → cmp y z < 0 → cmp x z < 0
}.
Arguments cmp_eq {A} cmp {_} x y.
Arguments cmp_opp {A} cmp {_} x y.
Arguments cmp_lt_trans {A} cmp {_} x y z.

Definition Zcmp (x y : Z) : Z :=
  if x <? y then -1 else if y <? x then 1 else 0.

#[global] Arguments Zcmp : simpl never.

#[export] Instance Zcmp_ok : CmpOk Zcmp.
Proof.
  split; unfold Zcmp; intros.
  - destruct (Z.ltb_spec x y), (Z.ltb_spec y x); lia.
  - destruct (Z.ltb_spec x y), (Z.ltb_spec y x); lia.
  - destruct (Z.ltb_spec x y), (Z.ltb_spec y x), (Z.ltb_spec y z),
      (Z.ltb_spec z y), (Z.ltb_spec x z), (Z.ltb_spec z x); lia.
Qed.

Section Cmp.
Context {A : Type} (cmp : A → A → Z) {OK : CmpOk cmp}.

Lemma cmp_refl x : cmp x x = 0.
Proof. by apply (cmp_eq cmp). Qed.

Lemma cmp_flip x y : cmp x y < 0 ↔ 0 < cmp y x.
Proof. rewrite (cmp_opp cmp x y). lia. Qed.

Lemma cmp_le_flip x y : cmp x y ≤ 0 ↔ 0 ≤ cmp y x.
Proof. rewrite (cmp_opp cmp x y). lia. Qed.

Lemma cmp_nlt x y : ¬ cmp x y < 0 ↔ cmp y x ≤ 0.
Proof. rewrite (cmp_opp cmp x y). lia. Qed.

Lemma cmp_le_trans x y z : cmp x y ≤ 0 → cmp y z ≤ 0 → cmp x z ≤ 0.
Proof.
  intros H1 H2.
  destruct (decide (cmp x y = 0)) as [->%(cmp_eq cmp)|]; [done|].
  destruct (decide (cmp y z = 0)) as [<-%(cmp_eq cmp)|]; [done|].
  apply Z.lt_le_incl, (cmp_lt_trans cmp _ y); lia.
Qed.

Lemma cmp_lt_le_trans x y z : cmp x y < 0 → cmp y z ≤ 0 → cmp x z < 0.
Proof.
  intros H1 H2. destruct (decide (cmp y z = 0)) as [<-%(cmp_eq cmp)|]; [done|].
  apply (cmp_lt_trans cmp _ y); lia.
Qed.

Lemma cmp_le_lt_trans x y z : cmp x y ≤ 0 → cmp y z < 0 → cmp x z < 0.
Proof.
  intros H1 H2. destruct (decide (cmp x y = 0)) as [->%(cmp_eq cmp)|]; [done|].
  apply (cmp_lt_trans cmp _ y); lia.
Qed.

Lemma cmp_le_antisym x y : cmp x y ≤ 0 → cmp y x ≤ 0 → x = y.
Proof. intros H1 H2%cmp_nlt. apply (cmp_eq cmp). lia. Qed.
End Cmp.

(** [intLexicographicalCompare] of QuorumSetUtils.cpp, which is also the
    order [std::vector] gives to opaque values. *)
Fixpoint intLexicographicalCompare {A} (comp : A → A → Z) (l1 l2 : list A) : Z :=
  match l1, l2 with
  | [], [] => 0
  | [], _ :: _ => -1
  | _ :: _, [] => 1
  | x :: l1', y :: l2' =>
      let c := comp x y in
      if c =? 0 then intLexicographicalCompare comp l1' l2' else c
  end.

Section Lex.
Context {A : Type} (cmp : A → A → Z).
Notation lex := (intLexicographicalCompare cmp).

(** The three laws are stated element-wise so that they also serve
    comparisons defined by recursion on nested data. *)
Lemma lex_eq l1 :
  Forall (λ x, ∀ y, cmp x y = 0 ↔ x = y) l1 → ∀ l2, lex l1 l2 = 0 ↔ l1 = l2.
Proof.
  induction 1 as [|x l1 Hx _ IH]; intros [|y l2]; simpl; try (split; done).
  destruct (Z.eqb_spec (cmp x y) 0) as [E|E].
  - apply Hx in E as ->. rewrite IH. split; congruence.
  - split; [done|]. intros [= -> ->]. destruct E. by apply Hx.
Qed.

Lemma lex_opp l1 :
  Forall (λ x, ∀ y, cmp y x = - cmp x y) l1 → ∀ l2, lex l2 l1 = - lex l1 l2.
Proof.
  induction 1 as [|x l1 Hx _ IH]; intros [|y l2]; simpl; try done.
  rewrite Hx. destruct (Z.eqb_spec (cmp x y) 0) as [->|]; [apply IH|].
  case_match; [lia|done].
Qed.

Lemma lex_lt_trans l1 :
  (∀ x y, cmp x y = 0 ↔ x = y) →
  Forall (λ x, ∀ y z, cmp x y < 0 → cmp y z < 0 → cmp x z < 0) l1 →
  ∀ l2 l3, lex l1 l2 < 0 → lex l2 l3 < 0 → lex l1 l3 < 0.
Proof.
  intros Heq. induction 1 as [|x l1 Hx _ IH]; intros [|y l2] [|z l3]; simpl; try done.
  destruct (Z.eqb_spec (cmp x y) 0) as [E1|E1];
    destruct (Z.eqb_spec (cmp y z) 0) as [E2|E2].
  - apply Heq in E1 as ->. destruct (Z.eqb_spec (cmp y z) 0); [|done]. apply IH.
  - apply Heq in E1 as ->. by destruct (Z.eqb_spec (cmp y z) 0).
  - apply Heq in E2 as ->. by destruct (Z.eqb_spec (cmp x z) 0).
  - intros H1 H2. specialize (Hx y z H1 H2). destruct (Z.eqb_spec (cmp x z) 0); lia.
Qed.

#[export] Instance lex_ok `{!CmpOk cmp} : CmpOk lex.
Proof.
  split; intros.
  - apply lex_eq. apply Forall_true. intros; apply (cmp_eq cmp).
  - apply lex_opp, Forall_true. intros; apply (cmp_opp cmp).
  - eapply lex_lt_trans; eauto; [apply (cmp_eq cmp)|].
    apply Forall_true. intros; eapply (cmp_lt_trans cmp); eauto.
Qed.
End Lex.

(** Products and options of ordered types. *)
Definition pairCmp {A B} (ca : A → A → Z) (cb : B → B → Z) (x y : A * B) : Z :=
  if ca x.1 y.1 =? 0 then cb x.2 y.2 else ca x.1 y.1.

Definition optionCmp {A} (ca : A → A → Z) (x y : option A) : Z :=
  match x, y with
  | Some x, Some y => ca x y
  | Some _, None => 1
  | None, Some _ => -1
  | None, None => 0
  end.

#[export] Instance pairCmp_ok {A B} (ca : A → A → Z) (cb : B → B → Z) :
  CmpOk ca → CmpOk cb → CmpOk (pairCmp ca cb).
Proof.
  intros Ha Hb. unfold pairCmp. split.
  - intros [x1 x2] [y1 y2]; simpl.
    pose proof (cmp_eq ca x1 y1). pose proof (cmp_eq cb x2 y2).
    destruct (Z.eqb_spec (ca x1 y1) 0); split; naive_solver.
  - intros [x1 x2] [y1 y2]; simpl. rewrite (cmp_opp ca x1 y1), (cmp_opp cb x2 y2).
    zcases; lia.
  - intros [x1 x2] [y1 y2] [z1 z2]; simpl.
    destruct (Z.eqb_spec (ca x1 y1) 0) as [->%(cmp_eq ca)|];
      destruct (Z.eqb_spec (ca y1 z1) 0) as [E%(cmp_eq ca)|]; subst.
    + apply (cmp_lt_trans cb).
    + done.
    + by destruct (Z.eqb_spec (ca x1 z1) 0).
    + intros H1 H2. pose proof (cmp_lt_trans ca _ _ _ H1 H2). zcases; lia.
Qed.

#[export] Instance optionCmp_ok {A} (ca : A → A → Z) : CmpOk ca → CmpOk (optionCmp ca).
Proof.
  intros Ha. unfold optionCmp. split.
  - intros [x|] [y|]; try done. rewrite (cmp_eq ca). split; congruence.
  - intros [x|] [y|]; try done. apply (cmp_opp ca).
  - intros [x|] [y|] [z|]; try done. apply (cmp_lt_trans ca).
Qed.

(** ** Ordered containers

    [std::set] as a strictly increasing list, [std::map] with integer keys as
    an association list in key order, [std::sort] as insertion sort. *)

Section Ordered.
Context {A : Type} (cmp : A → A → Z).

Fixpoint set_insert (x : A) (s : list A) : list A :=
  match s with
  | [] => [x]
  | y :: s' =>
      if cmp x y <? 0 then x :: s
      else if cmp x y =? 0 then s
      else y :: set_insert x s'
  end.

Definition set_inserts (xs : list A) (s : list A) : list A :=
  foldl (λ s x, set_insert x s) s xs.

Fixpoint sort_insert (x : A) (l : list A) : list A :=
  match l with
  | [] => [x]
  | y :: l' => if cmp x y <=? 0 then x :: l else y :: sort_insert x l'
  end.

Definition std_sort (l : list A) : list A := foldr sort_insert [] l.

Context {OK : CmpOk cmp}.

Lemma elem_of_set_insert x y s : y ∈ set_insert x s ↔ y = x ∨ y ∈ s.
Proof.
  induction s as [|z s IH]; simpl; [set_solver|].
  destruct (Z.ltb_spec (cmp x z) 0); [set_solver|].
  destruct (Z.eqb_spec (cmp x z) 0) as [->%(cmp_eq cmp)|]; set_solver.
Qed.

Lemma elem_of_set_inserts xs y s : y ∈ set_inserts xs s ↔ y ∈ xs ∨ y ∈ s.
Proof.
  revert s. induction xs as [|x xs IH]; intros s; simpl; [set_solver|].
  unfold set_inserts in *; simpl. rewrite IH, elem_of_set_insert. set_solver.
Qed.

Definition strictly_sorted : list A → Prop := StronglySorted (λ x y, cmp x y < 0).
Definition weakly_sorted : list A → Prop := StronglySorted (λ x y, cmp x y ≤ 0).

Lemma strictly_weakly_sorted l : strictly_sorted l → weakly_sorted l.
Proof.
  induction 1 as [|x l Hl IH Hx]; constructor; [done|]. eapply Forall_impl; [exact Hx|]. simpl. lia.
Qed.

Lemma set_insert_sorted x s : strictly_sorted s → strictly_sorted (set_insert x s).
Proof.
  unfold strictly_sorted. induction 1 as [|z s Hs IH Hz]; simpl.
  { repeat constructor. }
  destruct (Z.ltb_spec (cmp x z) 0).
  - constructor; [by constructor|]. constructor; [done|].
    eapply Forall_impl; [exact Hz|]. intros. by eapply (cmp_lt_trans cmp).
  - destruct (Z.eqb_spec (cmp x z) 0); [by constructor|].
    constructor; [done|]. apply Forall_forall. intros y [->|Hy]%elem_of_set_insert.
    + apply (cmp_flip cmp). lia.
    + by eapply Forall_forall in Hz.
Qed.

Lemma set_insert_id x s : strictly_sorted s → x ∈ s → set_insert x s = s.
Proof.
  unfold strictly_sorted. induction 1 as [|z s Hs IH Hz]; simpl; [by intros ?%elem_of_nil|].
  intros [->|Hx]%elem_of_cons; [by rewrite (cmp_refl cmp)|].
  eapply Forall_forall in Hz; [|exact Hx]. pose proof (proj1 (cmp_flip cmp z x) Hz).
  rewrite (proj2 (Z.ltb_ge _ _)) by lia. rewrite (proj2 (Z.eqb_neq _ _)) by lia. f_equal. auto.
Qed.

Lemma set_inserts_id xs s : strictly_sorted s → xs ⊆ s → set_inserts xs s = s.
Proof.
  intros Hs. unfold set_inserts. induction xs as [|x xs IH]; intros Hx; simpl; [done|].
  rewrite set_insert_id by set_solver. apply IH. set_solver.
Qed.

Lemma set_insert_length x s : (length s ≤ length (set_insert x s))%nat.
Proof. induction s as [|z s IH]; simpl; [lia|]. zcases; simpl; lia. Qed.

Lemma set_insert_length_old x s : length (set_insert x s) = length s → x ∈ s.
Proof.
  induction s as [|z s IH]; simpl; [done|]. destruct (cmp x z <? 0); [simpl; lia|].
  destruct (Z.eqb_spec (cmp x z) 0) as [->%(cmp_eq cmp)|]; [left|]. simpl. intros [= E]. right. auto.
Qed.

(** Insertions keep the size exactly when nothing is new. *)
Lemma set_inserts_length xs s :
  strictly_sorted s → length (set_inserts xs s) = length s ↔ xs ⊆ s.
Proof.
  intros Hs. split; [|intros; by rewrite set_inserts_id].
  assert (∀ xs s, (length s ≤ length (set_inserts xs s))%nat) as Hle.
  { intros ys. unfold set_inserts. induction ys as [|y ys IH]; intros s'; simpl; [done|].
    etrans; [apply (set_insert_length y)|apply IH]. }
  unfold set_inserts in *. induction xs as [|x xs IH]; intros E; simpl in *; [by intros ? ?%elem_of_nil|].
  assert (x ∈ s) as Hx.
  { apply set_insert_length_old. specialize (Hle xs (set_insert x s)).
    pose proof (set_insert_length x s). lia. }
  rewrite set_insert_id in E by done. specialize (IH E). set_solver.
Qed.

Lemma set_inserts_sorted xs s : strictly_sorted s → strictly_sorted (set_inserts xs s).
Proof.
  revert s. induction xs as [|x xs IH]; intros s Hs; simpl; [done|].
  apply IH, set_insert_sorted, Hs.
Qed.

Lemma sort_insert_perm x l : sort_insert x l ≡ₚ x :: l.
Proof.
  induction l as [|y l IH]; simpl; [done|].
  case_match; [done|]. rewrite IH. by constructor.
Qed.

Lemma std_sort_perm l : std_sort l ≡ₚ l.
Proof. induction l as [|x l IH]; simpl; [done|]. by rewrite sort_insert_perm, IH. Qed.

Lemma sort_insert_sorted x l : weakly_sorted l → weakly_sorted (sort_insert x l).
Proof.
  unfold weakly_sorted. induction 1 as [|y l Hl IH Hy]; simpl.
  { repeat constructor. }
  destruct (Z.leb_spec (cmp x y) 0).
  - constructor; [by constructor|]. constructor; [done|].
    eapply Forall_impl; [exact Hy|]. intros. by eapply (cmp_le_trans cmp).
  - constructor; [done|]. rewrite sort_insert_perm. constructor; [|done].
    apply (cmp_le_flip cmp). lia.
Qed.

Lemma std_sort_sorted l : weakly_sorted (std_sort l).
Proof.
  induction l; simpl; [constructor|]. by apply sort_insert_sorted.
Qed.

Lemma sorted_perm_unique l1 l2 :
  weakly_sorted l1 → weakly_sorted l2 → l1 ≡ₚ l2 → l1 = l2.
Proof.
  intros H1. revert l2. induction H1 as [|x l1 H1 IH Hx]; intros l2 H2 Hp.
  { by apply Permutation_nil in Hp as ->. }
  destruct H2 as [|y l2 H2 Hy]; [by symmetry in Hp; apply Permutation_nil_cons in Hp|].
  assert (x = y) as ->.
  { assert (x ∈ y :: l2) as Hxin by (rewrite <- Hp; left).
    assert (y ∈ x :: l1) as Hyin by (rewrite Hp; left).
    apply elem_of_cons in Hxin as [->|Hxin]; [done|].
    apply elem_of_cons in Hyin as [->|Hyin]; [done|].
    eapply (cmp_le_antisym cmp).
    - by eapply (Forall_forall _ l1) in Hx.
    - by eapply (Forall_forall _ l2) in Hy. }
  f_equal. apply IH; [done|]. by apply Permutation_cons_inv in Hp.
Qed.

Lemma std_sort_unique l l' : l ≡ₚ l' → std_sort l = std_sort l'.
Proof.
  intros Hp. apply sorted_perm_unique; try apply std_sort_sorted.
  by rewrite !std_sort_perm.
Qed.

Lemma std_sort_id l : weakly_sorted l → std_sort l = l.
Proof.
  intros H. apply sorted_perm_unique; [apply std_sort_sorted|done|].
  apply std_sort_perm.
Qed.
End Ordered.

Section OrderedMap.
Context {V : Type}.

Fixpoint map_find (k : Z) (m : list (Z * V)) : option V :=
  match m with
  | [] => None
  | (k', v) :: m' => if k =? k' then Some v else map_find k m'
  end.

Fixpoint map_insert (k : Z) (v : V) (m : list (Z * V)) : list (Z * V) :=
  match m with
  | [] => [(k, v)]
  | (k', v') :: m' =>
      if k <? k' then (k, v) :: m
      else if k =? k' then (k, v) :: m'
      else (k', v') :: map_insert k v m'
  end.

Definition map_sorted (m : list (Z * V)) : Prop :=
  StronglySorted (λ p q, p.1 < q.1) m.

Lemma elem_of_map_insert k v m p :
  p ∈ map_insert k v m → p = (k, v) ∨ p ∈ m.
Proof.
  induction m as [|[k' v'] m IH]; simpl; [set_solver|].
  repeat case_match; set_solver.
Qed.

Lemma map_insert_sorted k v m : map_sorted m → map_sorted (map_insert k v m).
Proof.
  unfold map_sorted. induction 1 as [|[k' v'] m Hm IH Hk]; simpl.
  { repeat constructor. }
  destruct (Z.ltb_spec k k').
  { constructor; [by constructor|]. constructor; [done|].
    eapply Forall_impl; [exact Hk|]. simpl. lia. }
  destruct (Z.eqb_spec k k') as [->|].
  { by constructor. }
  constructor; [done|]. apply Forall_forall.
  intros p [->|Hp]%elem_of_map_insert; simpl; [lia|].
  by eapply Forall_forall in Hk.
Qed.

Lemma map_find_insert_eq k v m : map_find k (map_insert k v m) = Some v.
Proof.
  induction m as [|[k' v'] m IH]; simpl; [by rewrite Z.eqb_refl|].
  destruct (Z.ltb_spec k k'); simpl; [by rewrite Z.eqb_refl|].
  destruct (Z.eqb_spec k k'); simpl; [by rewrite Z.eqb_refl|].
  by destruct (Z.eqb_spec k k').
Qed.

Lemma map_find_insert_ne k k2 v m :
  k ≠ k2 → map_find k2 (map_insert k v m) = map_find k2 m.
Proof.
  intros Hne. induction m as [|[k' v'] m IH]; simpl.
  { by destruct (Z.eqb_spec k2 k). }
  destruct (Z.ltb_spec k k'); simpl.
  { by destruct (Z.eqb_spec k2 k). }
  destruct (Z.eqb_spec k k') as [->|]; simpl.
  { by destruct (Z.eqb_spec k2 k'). }
  by rewrite IH.
Qed.

Lemma map_find_Some_elem k v m : map_find k m = Some v → (k, v) ∈ m.
Proof.
  induction m as [|[k' v'] m IH]; simpl; [done|].
  destruct (Z.eqb_spec k k') as [->|]; [intros [= ->]; left|right; auto].
Qed.

Lemma map_find_elem k v m : map_sorted m → (k, v) ∈ m → map_find k m = Some v.
Proof.
  induction 1 as [|[k' v'] m Hm IH Hk]; simpl; [by intros ?%not_elem_of_nil|].
  intros [[= -> ->]|Hin]%elem_of_cons; [by rewrite Z.eqb_refl|].
  destruct (Z.eqb_spec k k') as [->|]; [|auto].
  eapply Forall_forall in Hk; [|exact Hin]. simpl in Hk. lia.
Qed.

Lemma map_sorted_NoDup m : map_sorted m → NoDup m.*1.
Proof.
  induction 1 as [|[k v] m Hm IH Hk]; simpl; [constructor|].
  constructor; [|done]. intros [[k' v'] [-> Hin]]%list_elem_of_fmap.
  eapply Forall_forall in Hk; [|exact Hin]. simpl in Hk. lia.
Qed.
End OrderedMap.

(** ** Counting loops

    LocalNode.cpp counts a threshold down while it scans a list and leaves the
    function as soon as the counter is not positive: [None] is that early
    exit, [Some left] the counter at the end of the scan. *)

Fixpoint countdown {A} (hit : A → bool) (dec : Z → Z) (l : list A) (left : Z)
  : option Z :=
  match l with
  | [] => Some left
  | x :: l' =>
      if hit x
      then let left := dec left in
           if left <=? 0 then None else countdown hit dec l' left
      else countdown hit dec l' left
  end.

Definition countZ {A} (hit : A → bool) (l : list A) : Z :=
  Z.of_nat (length (List.filter hit l)).

Lemma countZ_cons {A} (hit : A → bool) x l :
  countZ hit (x :: l) = (if hit x then 1 else 0) + countZ hit l.
Proof. unfold countZ; simpl. destruct (hit x); simpl; lia. Qed.

Lemma countZ_nonneg {A} (hit : A → bool) l : 0 ≤ countZ hit l.
Proof. unfold countZ. lia. Qed.

Lemma countZ_le {A} (hit : A → bool) l : countZ hit l ≤ Z.of_nat (length l).
Proof. unfold countZ. pose proof (List.filter_length_le hit l). lia. Qed.

Lemma countZ_ext {A} (f g : A → bool) l :
  (∀ x, x ∈ l → f x = g x) → countZ f l = countZ g l.
Proof.
  induction l as [|x l IH]; intros H; [done|].
  rewrite !countZ_cons, H, IH by set_solver. done.
Qed.

Lemma countZ_mono {A} (f g : A → bool) l :
  (∀ x, x ∈ l → f x = true → g x = true) → countZ f l ≤ countZ g l.
Proof.
  induction l as [|x l IH]; intros H; [done|].
  rewrite !countZ_cons. assert (countZ f l ≤ countZ g l) by (apply IH; set_solver).
  destruct (f x) eqn:Ef; [rewrite (H x) by set_solver; lia|]. destruct (g x); lia.
Qed.

Lemma countZ_compl {A} (f g : A → bool) l :
  (∀ x, x ∈ l → g x = negb (f x)) → countZ f l + countZ g l = Z.of_nat (length l).
Proof.
  induction l as [|x l IH]; intros H; [done|].
  rewrite !countZ_cons, H by set_solver. simpl.
  specialize (IH ltac:(set_solver)). destruct (f x); simpl; lia.
Qed.

Lemma countZ_perm {A} (f : A → bool) l l' : l ≡ₚ l' → countZ f l = countZ f l'.
Proof.
  induction 1 as [| | |l1 l2 l3 ? IH1 ? IH2];
    rewrite ?countZ_cons; [done|lia|lia|]. by rewrite IH1.
Qed.

Lemma countZ_app {A} (f : A → bool) l l' : countZ f (l ++ l') = countZ f l + countZ f l'.
Proof. unfold countZ. rewrite List.filter_app, length_app. lia. Qed.

Lemma countZ_map {A B} (f : A → B) (g : B → bool) l :
  countZ g (map f l) = countZ (λ x, g (f x)) l.
Proof. induction l; simpl; [done|]. rewrite !countZ_cons. lia. Qed.

(** The loop counts the hits, and leaves early exactly when they reach the
    counter. *)
Lemma countdown_spec {A} (hit : A → bool) (dec : Z → Z) l left :
  (∀ z, 0 < z ≤ left → dec z = z - 1) → 0 < left →
  countdown hit dec l left =
    if left <=? countZ hit l then None else Some (left - countZ hit l).
Proof.
  revert left. induction l as [|x l IH]; intros left Hdec Hl.
  { simpl. destruct (Z.leb_spec left (countZ hit [])) as [H|H];
      unfold countZ in *; simpl in *; [lia|f_equal; lia]. }
  simpl. rewrite countZ_cons. pose proof (countZ_nonneg hit l). destruct (hit x).
  - rewrite Hdec by lia. destruct (Z.leb_spec (left - 1) 0).
    + destruct (Z.leb_spec left (1 + countZ hit l)); [done|lia].
    + rewrite IH by (try lia; intros; apply Hdec; lia).
      destruct (Z.leb_spec (left - 1) (countZ hit l)),
        (Z.leb_spec left (1 + countZ hit l)); try lia; [done|f_equal; lia].
  - by rewrite IH by done.
Qed.

(** ** Stateful code that can fail

    A handler takes the state and either returns a value with the new state or
    fails: an exception, a failed assertion or a dereferenced null pointer. *)

Inductive outcome (F A : Type) : Type :=
| Ok (a : A)
| Fail (f : F).
Arguments Ok {F A} a.
Arguments Fail {F A} f.

Definition M (S F A : Type) : Type := S → outcome F (A * S).

Section Monad.
Context {S F : Type}.

Definition ret {A} (a : A) : M S F A := λ s, Ok (a, s).
Definition bind {A B} (m : M S F A) (k : A → M S F B) : M S F B :=
  λ s, match m s with Ok (a, s') => k a s' | Fail f => Fail f end.
Definition gets {A} (f : S → A) : M S F A := λ s, Ok (f s, s).
Definition modify (f : S → S) : M S F unit := λ s, Ok (tt, f s).
Definition fail {A} (f : F) : M S F A := λ _, Fail f.
Definition check (b : bool) (f : F) : M S F unit := if b then ret tt else fail f.

(** [wp m s Q E]: run from [s], [m] ends in a state satisfying [Q], or in a
    failure satisfying [E]. *)
Definition wp {A} (m : M S F A) (s : S) (Q : A → S → Prop) (E : F → Prop) : Prop :=
  match m s with Ok (a, s') => Q a s' | Fail f => E f end.

Lemma wp_ret {A} (a : A) s (Q : A → S → Prop) (E : F → Prop) : Q a s → wp (ret a) s Q E.
Proof. done. Qed.

Lemma wp_bind {A B} (m : M S F A) (k : A → M S F B) s (Q : B → S → Prop) (E : F → Prop) :
  wp m s (λ a s', wp (k a) s' Q E) E → wp (bind m k) s Q E.
Proof. unfold wp, bind. by destruct (m s) as [[a s']|f]. Qed.

Lemma wp_gets {A} (f : S → A) s (Q : A → S → Prop) (E : F → Prop) :
  Q (f s) s → wp (gets f) s Q E.
Proof. done. Qed.

Lemma wp_modify (f : S → S) s (Q : unit → S → Prop) (E : F → Prop) :
  Q tt (f s) → wp (modify f) s Q E.
Proof. done. Qed.

Lemma wp_fail {A} f s (Q : A → S → Prop) (E : F → Prop) : E f → wp (fail f) s Q E.
Proof. done. Qed.

Lemma wp_check b f s (Q : unit → S → Prop) (E : F → Prop) :
  (b = true → Q tt s) → (b = false → E f) → wp (check b f) s Q E.
Proof. destruct b; intros H1 H2; [apply wp_ret|apply wp_fail]; auto. Qed.

Lemma wp_mono {A} (m : M S F A) s (Q Q' : A → S → Prop) (E E' : F → Prop) :
  wp m s Q E → (∀ a s', Q a s' → Q' a s') → (∀ f, E f → E' f) → wp m s Q' E'.
Proof. unfold wp. destruct (m s) as [[a s']|f]; auto. Qed.
End Monad.

(** The same for code without state: an exception monad. *)
Definition obind {F A B} (m : outcome F A) (k : A → outcome F B) : outcome F B :=
  match m with Ok a => k a | Fail f => Fail f end.

Definition ofail {F G A} (g : F → G) (m : outcome F A) : outcome G A :=
  match m with Ok a => Ok a | Fail f => Fail (g f) end.

Notation "'let!' x := m 'in' k" := (bind m (λ x, k))
  (at level 200, x binder, m at level 100, k at level 200, right associativity).
Notation "m ;; k" := (bind m (λ _, k))
  (at level 100, k at level 200, right associativity).
Notation "'let?' x := m 'in' k" := (obind m (λ x, k))
  (at level 200, x binder, m at level 100, k at level 200, right associativity).
