(* ===== verification/Numeric.v ===== *)
(** * Wide multiplication and division (src/util/numeric.cpp)

    [A * B / C] with a 128-bit intermediate product, rounded down or up.  The
    overloads of [bigDivide] and [bigMultiply] get one definition each.  [assert]
    is live in every build of the program, so a failed assertion is a result. *)

From stdpp Require Import prelude.
From Stdlib Require Import ZArith Lia.
From S2P Require Import Prelude.
Local Open Scope Z_scope.

Inductive Rounding : Type := ROUND_DOWN | ROUND_UP.

Inductive NumError : Type := AssertFailure | OverflowError.

Definition UINT128_MAX : Z := 340282366920938463463374607431768211455.
Definition u128 (z : Z) : Z := z `mod` 340282366920938463463374607431768211456.

(** [bool bigDivide(uint64_t& result, uint64_t A, uint64_t B, uint64_t C, Rounding)]:
    the value left in [result], and the value returned. *)
Definition bigDivideU64 (A B C : Z) (rounding : Rounding) : Z * bool :=
  let x := match rounding with
           | ROUND_DOWN => u128 (A * B) `div` C
           | ROUND_UP => u128 (u128 (u128 (A * B) + C) - 1) `div` C
           end in
  (u64 x, x <=? UINT64_MAX).

(** [bool bigDivide(int64_t& result, int64_t A, int64_t B, int64_t C, Rounding)]:
    [Some result] when it returns true. *)
Definition bigDivideS64 (A B C : Z) (rounding : Rounding) : outcome NumError (option Z) :=
  if (0 <=? A) && (0 <=? B) && (0 <? C) then
    let '(r2, res) := bigDivideU64 (u64 A) (u64 B) (u64 C) rounding in
    Ok (if res && (r2 <=? INT64_MAX) then Some (s64 r2) else None)
  else Fail AssertFailure.

(** [int64_t bigDivide(int64_t A, int64_t B, int64_t C, Rounding)] *)
Definition bigDivide (A B C : Z) (rounding : Rounding) : outcome NumError Z :=
  match bigDivideS64 A B C rounding with
  | Fail e => Fail e
  | Ok None => Fail OverflowError
  | Ok (Some res) => Ok res
  end.

(** [bool bigDivide(uint64_t& result, uint128_t a, uint64_t B, Rounding)] *)
Definition bigDivide128U (a B : Z) (rounding : Rounding) : outcome NumError (option Z) :=
  if B =? 0 then Fail AssertFailure
  else
    match rounding with
    | ROUND_UP =>
        if UINT128_MAX - (B - 1) <? a then Ok None
        else let x := u128 (a + B - 1) `div` B in
             Ok (if x <=? UINT64_MAX then Some (u64 x) else None)
    | ROUND_DOWN =>
        let x := a `div` B in
        Ok (if x <=? UINT64_MAX then Some (u64 x) else None)
    end.

(** [bool bigDivide(int64_t& result, uint128_t a, int64_t B, Rounding)] *)
Definition bigDivide128S (a B : Z) (rounding : Rounding) : outcome NumError (option Z) :=
  if 0 <? B then
    match bigDivide128U a (u64 B) rounding with
    | Fail e => Fail e
    | Ok None => Ok None
    | Ok (Some r2) => Ok (if r2 <=? INT64_MAX then Some (s64 r2) else None)
    end
  else Fail AssertFailure.

(** [int64_t bigDivide(uint128_t a, int64_t B, Rounding)] *)
Definition bigDivide128 (a B : Z) (rounding : Rounding) : outcome NumError Z :=
  match bigDivide128S a B rounding with
  | Fail e => Fail e
  | Ok None => Fail OverflowError
  | Ok (Some res) => Ok res
  end.

(** [uint128_t bigMultiply(uint64_t a, uint64_t b)] *)
Definition bigMultiplyU (a b : Z) : Z := u128 (a * b).

(** [uint128_t bigMultiply(int64_t a, int64_t b)] *)
Definition bigMultiply (a b : Z) : outcome NumError Z :=
  if (0 <=? a) && (0 <=? b) then Ok (bigMultiplyU (u64 a) (u64 b)) else Fail AssertFailure.

(** ** Reference: exact division with the requested rounding *)

Definition divRound (x y : Z) (rounding : Rounding) : Z :=
  match rounding with
  | ROUND_DOWN => x `div` y
  | ROUND_UP => (x + y - 1) `div` y
  end.

Definition in_u128 (z : Z) : Prop := 0 ≤ z ≤ UINT128_MAX.

Ltac word128 := unfold in_u128, UINT128_MAX, u128 in *; word.

Lemma u128_small z : in_u128 z → u128 z = z.
Proof. intros H. unfold u128. apply Z.mod_small. word128. Qed.

Lemma divRound_down_spec x y : 0 < y → divRound x y ROUND_DOWN * y ≤ x < (divRound x y ROUND_DOWN + 1) * y.
Proof.
  intros H. simpl. pose proof (Z.div_mod x y). pose proof (Z.mod_pos_bound x y). nia.
Qed.

Lemma divRound_up_spec x y : 0 < y → (divRound x y ROUND_UP - 1) * y < x ≤ divRound x y ROUND_UP * y.
Proof.
  intros H. simpl. pose proof (Z.div_mod (x + y - 1) y).
  pose proof (Z.mod_pos_bound (x + y - 1) y). nia.
Qed.

Lemma divRound_nonneg x y r : 0 ≤ x → 0 < y → 0 ≤ divRound x y r.
Proof. intros. destruct r; apply Z.div_pos; lia. Qed.

Lemma mul_u64_u128 a b : in_u64 a → in_u64 b → in_u128 (a * b + UINT64_MAX).
Proof. intros. word128. nia. Qed.

Lemma bigDivideU64_eq A B C r :
  in_u64 A → in_u64 B → in_u64 C → 0 < C →
  bigDivideU64 A B C r =
    (u64 (divRound (A * B) C r), divRound (A * B) C r <=? UINT64_MAX).
Proof.
  intros HA HB HC HC0. pose proof (mul_u64_u128 A B HA HB) as Hm.
  unfold bigDivideU64. destruct r; simpl.
  - by rewrite u128_small by (word128; nia).
  - rewrite (u128_small (A * B)) by (word128; nia).
    rewrite (u128_small (A * B + C)) by (word128; nia).
    by rewrite u128_small by (word128; nia).
Qed.

Lemma bigDivideS64_eq A B C r :
  0 ≤ A ≤ INT64_MAX → 0 ≤ B ≤ INT64_MAX → 0 < C ≤ INT64_MAX →
  bigDivideS64 A B C r =
    Ok (if divRound (A * B) C r <=? INT64_MAX then Some (divRound (A * B) C r) else None).
Proof.
  intros HA HB HC. unfold bigDivideS64.
  rewrite !(proj2 (Z.leb_le 0 _)) by lia. rewrite (proj2 (Z.ltb_lt 0 C)) by lia. cbn [andb].
  rewrite !u64_small by word. rewrite bigDivideU64_eq by (try lia; word).
  pose proof (divRound_nonneg (A * B) C r ltac:(nia) ltac:(lia)) as H0.
  set (q := divRound (A * B) C r) in *. f_equal.
  destruct (Z.leb_spec q UINT64_MAX); simpl.
  - rewrite u64_small by (unfold in_u64; lia). destruct (Z.leb_spec q INT64_MAX); [|done].
    rewrite s64_small by word. done.
  - destruct (Z.leb_spec q INT64_MAX); [word|done].
Qed.

Lemma bigDivide_eq A B C r :
  0 ≤ A ≤ INT64_MAX → 0 ≤ B ≤ INT64_MAX → 0 < C ≤ INT64_MAX →
  bigDivide A B C r =
    if divRound (A * B) C r <=? INT64_MAX then Ok (divRound (A * B) C r)
    else Fail OverflowError.
Proof.
  intros. unfold bigDivide. rewrite bigDivideS64_eq by done. by destruct (_ <=? _).
Qed.

Lemma bigDivide128U_eq a B r :
  in_u128 a → 0 < B ≤ UINT64_MAX →
  bigDivide128U a B r =
    Ok (if divRound a B r <=? UINT64_MAX then Some (divRound a B r) else None).
Proof.
  intros Ha HB. unfold bigDivide128U. destruct (Z.eqb_spec B 0); [lia|].
  assert (∀ x, 0 ≤ x → (if x <=? UINT64_MAX then Some (u64 x) else None) =
    (if x <=? UINT64_MAX then Some x else None)) as Hx.
  { intros x Hx. destruct (Z.leb_spec x UINT64_MAX); [|done]. rewrite u64_small; [done|word]. }
  destruct r; [rewrite Hx; [done|by apply Z.div_pos; word128]|].
  destruct (Z.ltb_spec (UINT128_MAX - (B - 1)) a) as [Ho|Ho].
  - pose proof (divRound_up_spec a B ltac:(lia)) as Hs.
    destruct (Z.leb_spec (divRound a B ROUND_UP) UINT64_MAX); [|done]. word128. nia.
  - rewrite u128_small by word128. apply f_equal, Hx, Z.div_pos; word128.
Qed.

Lemma bigDivide128_eq a B r :
  in_u128 a → 0 < B ≤ INT64_MAX →
  bigDivide128 a B r =
    if divRound a B r <=? INT64_MAX then Ok (divRound a B r) else Fail OverflowError.
Proof.
  intros Ha HB. unfold bigDivide128, bigDivide128S.
  rewrite (proj2 (Z.ltb_lt 0 B)), (u64_small B) by word.
  rewrite bigDivide128U_eq by (try done; word).
  pose proof (divRound_nonneg a B r ltac:(word128) ltac:(lia)).
  destruct (Z.leb_spec (divRound a B r) UINT64_MAX).
  - destruct (Z.leb_spec (divRound a B r) INT64_MAX); [|done].
    rewrite s64_small; [done|word].
  - destruct (Z.leb_spec (divRound a B r) INT64_MAX); [word|done].
Qed.

Lemma bigMultiply_eq a b :
  0 ≤ a ≤ INT64_MAX → 0 ≤ b ≤ INT64_MAX → bigMultiply a b = Ok (a * b).
Proof.
  intros. unfold bigMultiply, bigMultiplyU. rewrite !(proj2 (Z.leb_le 0 _)) by lia. simpl.
  rewrite !u64_small by word. rewrite u128_small; [done|]. word128. nia.
Qed.

(** ** Properties *)

(** [bigDivide] on non-negative [int64_t] operands returns the exact quotient of
    the full product, rounded as asked, or reports that it does not fit. *)
Theorem bigDivide_exact A B C r :
  0 ≤ A ≤ INT64_MAX → 0 ≤ B ≤ INT64_MAX → 0 < C ≤ INT64_MAX →
  match bigDivide A B C r with
  | Ok q => q ≤ INT64_MAX ∧
      match r with
      | ROUND_DOWN => q * C ≤ A * B < (q + 1) * C
      | ROUND_UP => (q - 1) * C < A * B ≤ q * C
      end
  | Fail e => e = OverflowError ∧ INT64_MAX < divRound (A * B) C r
  end.
Proof.
  intros HA HB HC. rewrite bigDivide_eq by done.
  destruct (Z.leb_spec (divRound (A * B) C r) INT64_MAX); [split; [done|]|by split].
  destruct r; [apply divRound_down_spec; lia|apply divRound_up_spec; lia].
Qed.

Lemma bigDivide_exact_witness :
  bigDivide 7000000000000000000 3 10000000000 ROUND_UP = Ok 2100000000 ∧
  (2100000000 - 1) * 10000000000 < 7000000000000000000 * 3 ≤ 2100000000 * 10000000000.
Proof.
  assert (bigDivide 7000000000000000000 3 10000000000 ROUND_UP = Ok 2100000000) as E
    by (vm_compute; reflexivity).
  split; [exact E|].
  assert (0 ≤ 7000000000000000000 ≤ INT64_MAX) as HA by (unfold INT64_MAX; lia).
  assert (0 ≤ 3 ≤ INT64_MAX) as HB by (unfold INT64_MAX; lia).
  assert (0 < 10000000000 ≤ INT64_MAX) as HC by (unfold INT64_MAX; lia).
  pose proof (bigDivide_exact _ _ _ ROUND_UP HA HB HC) as H. rewrite E in H. exact (proj2 H).
Defined.

(** The 128-bit division of a product of two amounts is the division of the
    exact product. *)
Theorem bigMultiply_divide a b c r :
  0 ≤ a ≤ INT64_MAX → 0 ≤ b ≤ INT64_MAX → 0 < c ≤ INT64_MAX →
  ∃ p, bigMultiply a b = Ok p ∧ bigDivide128 p c r = bigDivide a b c r.
Proof.
  intros Ha Hb Hc. exists (a * b). split; [by apply bigMultiply_eq|].
  rewrite bigDivide128_eq, bigDivide_eq; try done. word128. nia.
Qed.

Lemma bigMultiply_divide_witness :
  ∃ p, bigMultiply 9000000000000000000 5 = Ok p ∧
    bigDivide128 p 11 ROUND_DOWN = bigDivide 9000000000000000000 5 11 ROUND_DOWN.
Proof. apply bigMultiply_divide; unfold INT64_MAX; lia. Defined.
