(* ===== verification/QuorumSet.v ===== *)
(** * Quorum sets (src/scp/QuorumSetUtils.cpp)

    The recursive type [SCPQuorumSet], the sanity checker that guards every
    statement entering the protocol, and the normal form under which quorum sets
    are hashed and compared.  [sat] is the reference meaning of a quorum set: the
    sets of nodes that contain a slice. *)

From stdpp Require Import prelude list sorting.
From Stdlib Require Import ZArith Lia.
From S2P Require Import Prelude.
Local Open Scope Z_scope.

(** A 256-bit public key, as the integer its big-endian bytes denote: the order
    of keys is then the order of integers. *)
Notation NodeID := Z (only parsing).
Notation Hash := Z (only parsing).

(** [SCPQuorumSet] of DigitalBits-SCP.x. *)
Inductive SCPQuorumSet : Type :=
  QSet (qs_threshold : Z) (qs_validators : list NodeID) (qs_innerSets : list SCPQuorumSet).

Definition threshold (q : SCPQuorumSet) : Z := let 'QSet t _ _ := q in t.
Definition validators (q : SCPQuorumSet) : list NodeID := let 'QSet _ v _ := q in v.
Definition innerSets (q : SCPQuorumSet) : list SCPQuorumSet := let 'QSet _ _ i := q in i.

Definition MAXIMUM_QUORUM_NESTING_LEVEL : Z := 4.

(** ** QuorumSetSanityChecker *)

Inductive QSetError : Type :=
| MaxNestingExceeded
| ThresholdZero
| ThresholdTooHigh
| ThresholdTooLow
| DuplicateNode
| BadNodeCount.

(** The members of the checker object that the recursion mutates. *)
Record QuorumSetSanityChecker : Type := {
  mKnownNodes : list NodeID;
  mCount : Z
}.

(** [mKnownNodes.insert(n)] over the validators; [None] is a duplicate. *)
Fixpoint insertKnown (known : list NodeID) (v : list NodeID) : option (list NodeID) :=
  match v with
  | [] => Some known
  | n :: v' => if bool_decide (n ∈ known) then None else insertKnown (n :: known) v'
  end.

(** The loop over the inner sets stops at the first one that is not sane. *)
Definition checkInner
  (f : SCPQuorumSet → QuorumSetSanityChecker → QSetError + QuorumSetSanityChecker) :=
  fix go (i : list SCPQuorumSet) (c : QuorumSetSanityChecker) :
    QSetError + QuorumSetSanityChecker :=
    match i with
    | [] => inr c
    | iSet :: i' => match f iSet c with inl e => inl e | inr c' => go i' c' end
    end.

Fixpoint checkSanity (extraChecks : bool) (qSet : SCPQuorumSet) (depth : Z)
  (c : QuorumSetSanityChecker) : QSetError + QuorumSetSanityChecker :=
  let 'QSet threshold v i := qSet in
  if MAXIMUM_QUORUM_NESTING_LEVEL <? depth then inl MaxNestingExceeded
  else if threshold <? 1 then inl ThresholdZero
  else
    let totEntries := Z.of_nat (length v) + Z.of_nat (length i) in
    let vBlockingSize := totEntries - threshold + 1 in
    let count := mCount c + Z.of_nat (length v) in
    if totEntries <? threshold then inl ThresholdTooHigh
    else if extraChecks && (threshold <? vBlockingSize) then inl ThresholdTooLow
    else
      match insertKnown (mKnownNodes c) v with
      | None => inl DuplicateNode
      | Some known =>
          checkInner (λ iSet c, checkSanity extraChecks iSet (depth + 1) c) i
            {| mKnownNodes := known; mCount := count |}
      end.

Definition qSetSanity (qSet : SCPQuorumSet) (extraChecks : bool) : QSetError + unit :=
  match checkSanity extraChecks qSet 0 {| mKnownNodes := []; mCount := 0 |} with
  | inl e => inl e
  | inr c => if (mCount c <? 1) || (1000 <? mCount c) then inl BadNodeCount else inr tt
  end.

Definition isQuorumSetSane (qSet : SCPQuorumSet) (extraChecks : bool) : bool :=
  match qSetSanity qSet extraChecks with inr _ => true | inl _ => false end.

(** ** Normalisation *)

(** [it->threshold == 1 && it->validators.size() == 1 && it->innerSets.size() == 0] *)
Definition singletonOf (q : SCPQuorumSet) : option NodeID :=
  match q with
  | QSet t [x] [] => if t =? 1 then Some x else None
  | _ => None
  end.

(** The [while] loop over the inner sets: singletons move to the validators. *)
Definition mergeSingletons (f : SCPQuorumSet → SCPQuorumSet) :=
  fix go (i : list SCPQuorumSet) (v : list NodeID) : list NodeID * list SCPQuorumSet :=
    match i with
    | [] => (v, [])
    | iSet :: i' =>
        let iSet' := f iSet in
        match singletonOf iSet' with
        | Some x => go i' (v ++ [x])
        | None => let '(v', rest) := go i' v in (v', iSet' :: rest)
        end
    end.

(** [std::remove_if] and [erase]: the remaining validators, and the threshold
    reduced by the number removed. *)
Definition removeNode (idToRemove : option NodeID) (t : Z) (v : list NodeID)
  : Z * list NodeID :=
  match idToRemove with
  | Some id =>
      let v' := List.filter (λ n, negb (n =? id)) v in
      (u32 (t - u32 (Z.of_nat (length v) - Z.of_nat (length v'))), v')
  | None => (t, v)
  end.

Fixpoint normalizeQSetSimplify (idToRemove : option NodeID) (qSet : SCPQuorumSet)
  : SCPQuorumSet :=
  let 'QSet t0 v0 i0 := qSet in
  let '(t, v1) := removeNode idToRemove t0 v0 in
  let '(v, i) := mergeSingletons (normalizeQSetSimplify idToRemove) i0 v1 in
  match v, i with
  | [], [q] => if t =? 1 then q else QSet t v i
  | _, _ => QSet t v i
  end.

Fixpoint qSetCompareInt (l r : SCPQuorumSet) : Z :=
  let 'QSet lt lvals li := l in
  let 'QSet rt rvals ri := r in
  let res := intLexicographicalCompare Zcmp lvals rvals in
  if negb (res =? 0) then res
  else
    let res := intLexicographicalCompare qSetCompareInt li ri in
    if negb (res =? 0) then res
    else if lt <? rt then -1 else if lt =? rt then 0 else 1.

Fixpoint normalizeQuorumSetReorder (qset : SCPQuorumSet) : SCPQuorumSet :=
  let 'QSet t v i := qset in
  QSet t (std_sort Zcmp v) (std_sort qSetCompareInt (map normalizeQuorumSetReorder i)).

Definition normalizeQSet (qSet : SCPQuorumSet) (idToRemove : option NodeID) : SCPQuorumSet :=
  normalizeQuorumSetReorder (normalizeQSetSimplify idToRemove qSet).

(** ** Reference definitions *)

(** [q] is satisfied by the set of nodes [S]: at least [threshold] of its entries
    are in [S], or satisfied by it. *)
Fixpoint sat (S : NodeID → bool) (q : SCPQuorumSet) : bool :=
  let 'QSet t v i := q in t <=? countZ S v + countZ (sat S) i.

(** Every node the set mentions, in the order of [LocalNode::forAllNodes]. *)
Fixpoint qset_nodes (q : SCPQuorumSet) : list NodeID :=
  let 'QSet _ v i := q in v ++ concat (map qset_nodes i).

Definition all_in {A} (P : A → Prop) (l : list A) : Prop :=
  foldr (λ x acc, P x ∧ acc) True l.

Lemma all_in_Forall {A} (P : A → Prop) l : all_in P l ↔ Forall P l.
Proof. induction l; simpl; [split; auto|]. rewrite Forall_cons. tauto. Qed.

(** [P] holds of the threshold and the number of entries at every level. *)
Fixpoint at_levels (P : Z → Z → Prop) (q : SCPQuorumSet) : Prop :=
  let 'QSet t v i := q in
  P t (Z.of_nat (length v) + Z.of_nat (length i)) ∧ all_in (at_levels P) i.

Fixpoint nesting_ok (depth : Z) (q : SCPQuorumSet) : Prop :=
  let 'QSet _ _ i := q in
  depth ≤ MAXIMUM_QUORUM_NESTING_LEVEL ∧ all_in (nesting_ok (depth + 1)) i.

Section QSetInd.
Variable P : SCPQuorumSet → Prop.
Hypothesis Hstep : ∀ t v i, Forall P i → P (QSet t v i).

Fixpoint qset_ind (q : SCPQuorumSet) : P q :=
  match q with
  | QSet t v i =>
      Hstep t v i
        ((fix go (i : list SCPQuorumSet) : Forall P i :=
            match i with
            | [] => List.Forall_nil P
            | q :: i' => List.Forall_cons P q i' (qset_ind q) (go i')
            end) i)
  end.
End QSetInd.

Lemma countZ_Forall {A} (f g : A → bool) l :
  Forall (λ x, f x = g x) l → countZ f l = countZ g l.
Proof. intros H. apply countZ_ext. by apply Forall_forall. Qed.

Lemma elem_of_inner_nodes n i :
  n ∈ concat (map qset_nodes i) ↔ ∃ q, q ∈ i ∧ n ∈ qset_nodes q.
Proof.
  induction i as [|q i IH]; simpl; [set_solver|].
  rewrite elem_of_app, IH. setoid_rewrite elem_of_cons. naive_solver.
Qed.

Lemma sat_ext (S S' : NodeID → bool) q :
  (∀ n, n ∈ qset_nodes q → S n = S' n) → sat S q = sat S' q.
Proof.
  induction q as [t v i IH] using qset_ind; simpl; intros H.
  rewrite (countZ_ext S S' v) by set_solver.
  rewrite (countZ_ext (sat S) (sat S') i); [done|].
  intros q Hq. eapply Forall_forall in IH; [|exact Hq]. apply IH.
  intros n Hn. apply H, elem_of_app. right. apply elem_of_inner_nodes. eauto.
Qed.

Lemma sat_mono (S S' : NodeID → bool) q :
  (∀ n, S n = true → S' n = true) → sat S q = true → sat S' q = true.
Proof.
  intros H. induction q as [t v i IH] using qset_ind; simpl.
  rewrite !Z.leb_le. rewrite Forall_forall in IH.
  pose proof (countZ_mono S S' v ltac:(auto)).
  pose proof (countZ_mono (sat S) (sat S') i IH). lia.
Qed.

(** ** The sanity checker *)

Definition level_ok (extraChecks : bool) (t n : Z) : Prop :=
  1 ≤ t ≤ n ∧ (extraChecks = true → n - t + 1 ≤ t).

Lemma insertKnown_Some known v known' :
  insertKnown known v = Some known' →
  NoDup known → NoDup known' ∧ known' ≡ₚ v ++ known.
Proof.
  revert known. induction v as [|n v IH]; intros known; simpl; [naive_solver|].
  case_bool_decide as Hn; [done|]. intros H Hnd.
  destruct (IH _ H) as [Hnd' Hp]; [by constructor|].
  split; [done|]. rewrite Hp. by rewrite Permutation_middle.
Qed.

Lemma insertKnown_total known v :
  NoDup (v ++ known) → is_Some (insertKnown known v).
Proof.
  revert known. induction v as [|n v IH]; intros known; simpl; [eauto|].
  intros [Hn Hnd]%NoDup_cons. rewrite bool_decide_eq_false_2 by set_solver.
  apply IH. rewrite <- Permutation_middle. by constructor.
Qed.

(** What a successful run of [checkSanity] establishes, and when it succeeds. *)
Lemma checkSanity_sound ex q : ∀ depth c c',
  checkSanity ex q depth c = inr c' → NoDup (mKnownNodes c) →
  at_levels (level_ok ex) q ∧ nesting_ok depth q ∧
  NoDup (mKnownNodes c') ∧ mKnownNodes c' ≡ₚ qset_nodes q ++ mKnownNodes c ∧
  mCount c' = mCount c + Z.of_nat (length (qset_nodes q)).
Proof.
  induction q as [t v i IH] using qset_ind. intros depth c c'; simpl.
  destruct (Z.ltb_spec MAXIMUM_QUORUM_NESTING_LEVEL depth); [done|].
  destruct (Z.ltb_spec t 1); [done|].
  destruct (Z.ltb_spec (Z.of_nat (length v) + Z.of_nat (length i)) t); [done|].
  destruct (ex && _) eqn:Hex; [done|].
  destruct (insertKnown _ v) as [known|] eqn:Hk; [|done]. intros Hi Hnd.
  destruct (insertKnown_Some _ _ _ Hk Hnd) as [Hnd1 Hp1].
  assert (level_ok ex t (Z.of_nat (length v) + Z.of_nat (length i))) as Hl.
  { split; [lia|]. intros ->. simpl in Hex. apply Z.ltb_ge in Hex. lia. }
  clear Hex Hk.
  enough (Forall (at_levels (level_ok ex)) i ∧ Forall (nesting_ok (depth + 1)) i ∧
    NoDup (mKnownNodes c') ∧
    mKnownNodes c' ≡ₚ concat (map qset_nodes i) ++ known ∧
    mCount c' = mCount c + Z.of_nat (length v) +
      Z.of_nat (length (concat (map qset_nodes i)))) as (Ha & Hb & Hc & Hd & He).
  { rewrite !all_in_Forall, length_app. repeat split; try done; try apply Hl; [|lia].
    rewrite Hd, Hp1. solve_Permutation. }
  clear Hl Hp1. change (mCount c + _) with
    (mCount {| mKnownNodes := known; mCount := mCount c + Z.of_nat (length v) |}).
  change known with (mKnownNodes
    {| mKnownNodes := known; mCount := mCount c + Z.of_nat (length v) |}) in Hnd1 |- * at 1.
  generalize dependent {| mKnownNodes := known; mCount := mCount c + Z.of_nat (length v) |}.
  clear -IH. induction IH as [|q i Hq _ IHi]; intros c0 Hi Hnd; simpl in *.
  { injection Hi as <-. repeat split; try done; [constructor..|lia]. }
  destruct (checkSanity ex q (depth + 1) c0) as [|c1] eqn:E1; [done|].
  destruct (Hq _ _ _ E1 Hnd) as (Hq1 & Hq2 & Hq3 & Hq4 & Hq5).
  destruct (IHi _ Hi Hq3) as (Hi1 & Hi2 & Hi3 & Hi4 & Hi5).
  repeat split; try done; [by constructor..| |].
  - rewrite Hi4, Hq4. solve_Permutation.
  - rewrite length_app. lia.
Qed.

Lemma checkSanity_complete ex q : ∀ depth c,
  at_levels (level_ok ex) q → nesting_ok depth q →
  NoDup (qset_nodes q ++ mKnownNodes c) →
  ∃ c', checkSanity ex q depth c = inr c'.
Proof.
  induction q as [t v i IH] using qset_ind. intros depth c; simpl.
  intros [[Ht Hex] Hlv] [Hd Hn] Hnd. rewrite all_in_Forall in Hlv, Hn.
  destruct (Z.ltb_spec MAXIMUM_QUORUM_NESTING_LEVEL depth); [lia|].
  destruct (Z.ltb_spec t 1); [lia|].
  destruct (Z.ltb_spec (Z.of_nat (length v) + Z.of_nat (length i)) t); [lia|].
  destruct (ex && _) eqn:E.
  { apply andb_true_iff in E as [-> E]. apply Z.ltb_lt in E. specialize (Hex eq_refl). lia. }
  destruct (insertKnown_total (mKnownNodes c) v) as [known Hk].
  { rewrite <- (assoc_L (++)) in Hnd. apply NoDup_app in Hnd as (Hv & Hd1 & Hr).
    apply NoDup_app in Hr as (_ & _ & Hc). apply NoDup_app. split_and!; [done| |done].
    set_solver. }
  rewrite Hk. destruct (insertKnown_Some _ _ _ Hk) as [Hnd1 Hp1].
  { apply NoDup_app in Hnd. tauto. }
  assert (NoDup (concat (map qset_nodes i) ++ known)) as Hnd2.
  { rewrite Hp1. eapply NoDup_Permutation_proper; [|exact Hnd]. solve_Permutation. }
  generalize (mCount c + Z.of_nat (length v)). clear Hk Hp1 Hnd1. revert known Hnd2.
  clear - IH Hlv Hn.
  induction i as [|q i IHi]; intros known Hnd n; simpl; [eauto|].
  apply Forall_cons in IH as [IHq IH]. apply Forall_cons in Hlv as [Hlq Hlv].
  apply Forall_cons in Hn as [Hnq Hn]. simpl in Hnd.
  destruct (IHq (depth + 1) {| mKnownNodes := known; mCount := n |}) as [c1 Hc1]; [done..| |].
  { simpl. rewrite <- (assoc_L (++)) in Hnd. rewrite Permutation_app_swap_app in Hnd.
    by apply NoDup_app in Hnd as (_ & _ & ?). }
  rewrite Hc1. apply checkSanity_sound in Hc1 as (_ & _ & Hk1 & Hk2 & _).
  - destruct c1 as [known1 n1]. apply IHi; [done..|]. simpl in *.
    rewrite Hk2. eapply NoDup_Permutation_proper; [|exact Hnd]. solve_Permutation.
  - simpl. by apply NoDup_app in Hnd as (_ & _ & ?).
Qed.

(** The specification of [isQuorumSetSane]. *)
Definition qset_sane (ex : bool) (q : SCPQuorumSet) : Prop :=
  at_levels (level_ok ex) q ∧ nesting_ok 0 q ∧ NoDup (qset_nodes q) ∧
  1 ≤ Z.of_nat (length (qset_nodes q)) ≤ 1000.

Lemma isQuorumSetSane_iff q ex : isQuorumSetSane q ex = true ↔ qset_sane ex q.
Proof.
  unfold isQuorumSetSane, qSetSanity, qset_sane. split.
  - destruct (checkSanity _ _ _ _) as [|c] eqn:E; [done|].
    apply checkSanity_sound in E as (H1 & H2 & H3 & H4 & H5); [|constructor].
    simpl in *. rewrite app_nil_r in H4.
    destruct (Z.ltb_spec (mCount c) 1); [done|].
    destruct (Z.ltb_spec 1000 (mCount c)); [done|]. intros _.
    split_and!; try done; try lia. by rewrite <- H4.
  - intros (H1 & H2 & H3 & H4).
    destruct (checkSanity_complete ex q 0 {| mKnownNodes := []; mCount := 0 |})
      as [c E]; [done..|by rewrite app_nil_r|].
    rewrite E. apply checkSanity_sound in E as (_ & _ & _ & _ & H5); [|constructor].
    simpl in H5. rewrite Z.add_0_l in H5. rewrite H5.
    destruct (Z.ltb_spec (Z.of_nat (length (qset_nodes q))) 1); [lia|].
    destruct (Z.ltb_spec 1000 (Z.of_nat (length (qset_nodes q)))); [lia|done].
Qed.

(** ** The order of quorum sets *)

#[export] Instance qSetCompareInt_ok : CmpOk qSetCompareInt.
Proof.
  assert (∀ x y, qSetCompareInt x y = 0 ↔ x = y) as Heq.
  { induction x as [t v i IH] using qset_ind. intros [t' v' i']; simpl.
    pose proof (cmp_eq (intLexicographicalCompare Zcmp) v v') as Hv.
    pose proof (lex_eq qSetCompareInt i IH i') as Hi.
    zcases; split; intros; simplify_eq; try lia; try tauto.
    f_equal; tauto. }
  split; [done| |].
  - induction x as [t v i IH] using qset_ind. intros [t' v' i']; simpl.
    rewrite (cmp_opp (intLexicographicalCompare Zcmp) v v').
    rewrite (lex_opp qSetCompareInt i IH i').
    zcases; lia.
  - induction x as [t v i IH] using qset_ind. intros [t2 v2 i2] [t3 v3 i3]; simpl.
    pose proof (cmp_eq (intLexicographicalCompare Zcmp) v v2) as E1.
    pose proof (cmp_eq (intLexicographicalCompare Zcmp) v2 v3) as E2.
    pose proof (cmp_lt_trans (intLexicographicalCompare Zcmp) v v2 v3) as T1.
    assert (∀ i i', intLexicographicalCompare qSetCompareInt i i' = 0 ↔ i = i') as Hl.
    { intros. apply lex_eq, Forall_true. auto. }
    pose proof (lex_lt_trans qSetCompareInt i Heq IH i2 i3) as T2.
    destruct (Z.eqb_spec (intLexicographicalCompare Zcmp v v2) 0) as [Ev|Nv];
      [apply E1 in Ev as ->|];
    destruct (Z.eqb_spec (intLexicographicalCompare Zcmp v2 v3) 0) as [Ev'|Nv'];
      [apply E2 in Ev' as ->| |apply E2 in Ev' as ->|]; simpl.
    + destruct (Z.eqb_spec (intLexicographicalCompare qSetCompareInt i i2) 0) as [Ei|Ni];
        [apply Hl in Ei as ->|];
      destruct (Z.eqb_spec (intLexicographicalCompare qSetCompareInt i2 i3) 0) as [Ei'|Ni'];
        [apply Hl in Ei' as ->| |apply Hl in Ei' as ->|]; simpl.
      * zcases; lia.
      * zcases; lia.
      * zcases; lia.
      * intros H1 H2. specialize (T2 H1 H2). zcases; lia.
    + zcases; lia.
    + zcases; lia.
    + intros H1 H2. specialize (T1 H1 H2). zcases; lia.
Qed.

(** ** Normalisation preserves the meaning of a quorum set *)

Lemma singletonOf_Some q x : singletonOf q = Some x → q = QSet 1 [x] [].
Proof.
  destruct q as [t [|y [|]] [|]]; simpl; try done.
  destruct (Z.eqb_spec t 1) as [->|]; [|done]. by intros [= ->].
Qed.

Lemma sat_singleton S x : sat S (QSet 1 [x] []) = S x.
Proof. simpl. rewrite countZ_cons. unfold countZ; simpl. by destruct (S x). Qed.

Lemma mergeSingletons_count f (S : NodeID → bool) i v :
  let '(v', i') := mergeSingletons f i v in
  countZ S v' + countZ (sat S) i' = countZ S v + countZ (sat S) (map f i).
Proof.
  revert v. induction i as [|q i IH]; intros v; simpl; [done|].
  rewrite countZ_cons. destruct (singletonOf (f q)) as [x|] eqn:E.
  - apply singletonOf_Some in E as ->. specialize (IH (v ++ [x])).
    destruct (mergeSingletons f i (v ++ [x])) as [v' i'].
    rewrite IH, countZ_app, sat_singleton, countZ_cons. unfold countZ at 2; simpl. lia.
  - specialize (IH v). destruct (mergeSingletons f i v) as [v' i'].
    rewrite countZ_cons. lia.
Qed.

(** [S] together with the removed node. *)
Definition withNode (id : option NodeID) (S : NodeID → bool) (n : NodeID) : bool :=
  S n || bool_decide (id = Some n).

(** At every level the node occurs at most [threshold] times. *)
Fixpoint removable (id : NodeID) (q : SCPQuorumSet) : Prop :=
  let 'QSet t v i := q in
  countZ (λ n, n =? id) v ≤ t ∧ in_u32 t ∧ all_in (removable id) i.

Lemma removable_QSet id t v i :
  removable id (QSet t v i) ↔
  countZ (λ n, n =? id) v ≤ t ∧ in_u32 t ∧ Forall (removable id) i.
Proof. simpl. by rewrite all_in_Forall. Qed.

Lemma removeNode_count id (S : NodeID → bool) t v t' v' k :
  (∀ n, id = Some n → countZ (λ m, m =? n) v ≤ t ∧ in_u32 t) →
  removeNode id t v = (t', v') →
  (t' <=? countZ S v' + k) = (t <=? countZ (withNode id S) v + k).
Proof.
  intros H. destruct id as [n|]; simpl.
  - destruct (H n eq_refl) as [H1 H2]. intros [= <- <-].
    set (p := λ m, negb (m =? n)).
    assert (countZ p v + countZ (λ m, m =? n) v = Z.of_nat (length v)) as Hc.
    { apply countZ_compl. intros. unfold p. by rewrite negb_involutive. }
    assert (countZ (withNode (Some n) S) v =
      countZ S (List.filter p v) + countZ (λ m, m =? n) v) as ->.
    { clear. induction v as [|m v IH]; simpl; [done|].
      rewrite !countZ_cons, IH. unfold p, withNode at 1.
      destruct (Z.eqb_spec m n) as [->|Hne]; simpl.
      - rewrite bool_decide_eq_true_2, orb_true_r by done. lia.
      - rewrite bool_decide_eq_false_2, orb_false_r by congruence.
        rewrite countZ_cons. lia. }
    fold (countZ p v). replace (Z.of_nat (length v) - countZ p v)
      with (countZ (λ m, m =? n) v) by lia.
    pose proof (countZ_nonneg (λ m, m =? n) v).
    rewrite (u32_small (countZ _ _)) by word. rewrite u32_small by word.
    destruct (Z.leb_spec (t - countZ (λ m, m =? n) v) (countZ S (List.filter p v) + k)),
      (Z.leb_spec t (countZ S (List.filter p v) + countZ (λ m, m =? n) v + k)); lia.
  - intros [= <- <-]. rewrite (countZ_ext (withNode None S) S); [done|].
    intros. unfold withNode. rewrite bool_decide_eq_false_2 by done. apply orb_false_r.
Qed.

Lemma sat_simplify id (S : NodeID → bool) q :
  (∀ n, id = Some n → removable n q) →
  sat S (normalizeQSetSimplify id q) = sat (withNode id S) q.
Proof.
  induction q as [t v i IH] using qset_ind. intros Hr; simpl.
  destruct (removeNode id t v) as [t1 v1] eqn:E1.
  pose proof (mergeSingletons_count (normalizeQSetSimplify id) S i v1) as Hm.
  destruct (mergeSingletons _ i v1) as [v2 i2].
  assert (countZ (sat S) (map (normalizeQSetSimplify id) i) =
    countZ (sat (withNode id S)) i) as Hi.
  { assert (∀ q, q ∈ i → ∀ n, id = Some n → removable n q) as Hr'.
    { intros q Hq n Hn. apply Hr, removable_QSet in Hn as (_ & _ & Ha).
      rewrite Forall_forall in Ha. auto. }
    clear -IH Hr'. induction i as [|q i IHi]; [done|]. simpl. rewrite !countZ_cons.
    apply Forall_cons in IH as [Hq IH]. rewrite Hq by (apply Hr'; set_solver).
    rewrite IHi; [done|done|]. intros q' Hq'. apply Hr'. by right. }
  rewrite <- (removeNode_count id S t v t1 v1 (countZ (sat (withNode id S)) i));
    [|intros n ->; destruct (Hr n eq_refl) as (? & ? & _); done|done].
  rewrite <- Hi, <- Hm. destruct v2 as [|y v2]; [|done].
  destruct i2 as [|q [|]]; [done| |done].
  destruct (Z.eqb_spec t1 1) as [->|]; [|done].
  rewrite countZ_cons. unfold countZ; simpl. by destruct (sat S q).
Qed.

Lemma sat_reorder (S : NodeID → bool) q : sat S (normalizeQuorumSetReorder q) = sat S q.
Proof.
  induction q as [t v i IH] using qset_ind. simpl.
  rewrite (countZ_perm S (std_sort Zcmp v) v) by apply std_sort_perm.
  rewrite (countZ_perm _ (std_sort qSetCompareInt _) _ (std_sort_perm _ _)).
  f_equal. f_equal. induction IH as [|q i Hq _ IHi]; [done|]. simpl.
  by rewrite !countZ_cons, Hq, IHi.
Qed.

(** ** Normal forms *)

(** No inner set is a singleton, and the set is not a wrapper of one inner set. *)
Fixpoint simplified (q : SCPQuorumSet) : Prop :=
  let 'QSet t v i := q in
  ¬ (t = 1 ∧ v = [] ∧ length i = 1%nat) ∧
  all_in (λ q', simplified q' ∧ singletonOf q' = None) i.

Lemma simplified_QSet t v i :
  simplified (QSet t v i) ↔
  ¬ (t = 1 ∧ v = [] ∧ length i = 1%nat) ∧
  Forall (λ q', simplified q' ∧ singletonOf q' = None) i.
Proof. simpl. by rewrite all_in_Forall. Qed.

Lemma mergeSingletons_simplified f i v :
  Forall (λ q, simplified (f q)) i →
  Forall (λ q, simplified q ∧ singletonOf q = None) (mergeSingletons f i v).2.
Proof.
  intros H. revert v. induction H as [|q i Hq _ IH]; intros v; simpl; [constructor|].
  destruct (singletonOf (f q)) eqn:E; [apply IH|].
  specialize (IH v). destruct (mergeSingletons f i v) as [v' i']. by constructor.
Qed.

Lemma simplify_simplified id q : simplified (normalizeQSetSimplify id q).
Proof.
  induction q as [t v i IH] using qset_ind. simpl.
  destruct (removeNode id t v) as [t1 v1].
  pose proof (mergeSingletons_simplified _ _ v1 IH) as Hs.
  destruct (mergeSingletons _ i v1) as [v2 i2]; simpl in Hs.
  destruct v2 as [|y v2]; [|apply simplified_QSet; naive_solver].
  destruct i2 as [|q [|q' i2]]; try (apply simplified_QSet; naive_solver).
  destruct (Z.eqb_spec t1 1); [by apply Forall_singleton in Hs as [? _]|].
  apply simplified_QSet. naive_solver.
Qed.

Lemma mergeSingletons_id f i v :
  Forall (λ q, f q = q ∧ singletonOf q = None) i → mergeSingletons f i v = (v, i).
Proof.
  intros H. revert v. induction H as [|q i [Hf Hq] _ IH]; intros v; simpl; [done|].
  by rewrite Hf, Hq, IH.
Qed.

Lemma simplify_id q : simplified q → normalizeQSetSimplify None q = q.
Proof.
  induction q as [t v i IH] using qset_ind. rewrite simplified_QSet. intros [Hn Hi].
  simpl. rewrite mergeSingletons_id.
  { destruct v as [|y v]; [|done]. destruct i as [|q [|q' i]]; try done.
    destruct (Z.eqb_spec t 1); [|done]. destruct Hn. done. }
  rewrite Forall_forall in *. naive_solver.
Qed.

Lemma singletonOf_reorder q : singletonOf (normalizeQuorumSetReorder q) = singletonOf q.
Proof.
  destruct q as [t v i]; simpl.
  pose proof (Permutation_length (std_sort_perm Zcmp v)) as Hv.
  pose proof (Permutation_length (std_sort_perm qSetCompareInt
    (map normalizeQuorumSetReorder i))) as Hi. rewrite length_map in Hi.
  destruct v as [|x [|y v]]; [done| |].
  - simpl. destruct i as [|q i]; [done|].
    by destruct (std_sort qSetCompareInt _).
  - by destruct (std_sort Zcmp (x :: y :: v)) as [|a [|b l]].
Qed.

Lemma reorder_simplified q : simplified q → simplified (normalizeQuorumSetReorder q).
Proof.
  induction q as [t v i IH] using qset_ind. intros [Hn Hi]%simplified_QSet.
  simpl normalizeQuorumSetReorder. apply simplified_QSet. split.
  - pose proof (Permutation_length (std_sort_perm qSetCompareInt
      (map normalizeQuorumSetReorder i))) as Hl. rewrite length_map in Hl.
    intros (Ht & Hv & Hlen). apply Hn. split_and!; [done| |congruence].
    apply Permutation_nil. by rewrite <- (std_sort_perm Zcmp v), Hv.
  - rewrite std_sort_perm. apply Forall_map. rewrite Forall_forall in *.
    intros q Hq. simpl. rewrite singletonOf_reorder. naive_solver.
Qed.

Lemma reorder_idem q :
  normalizeQuorumSetReorder (normalizeQuorumSetReorder q) = normalizeQuorumSetReorder q.
Proof.
  induction q as [t v i IH] using qset_ind. simpl.
  rewrite (std_sort_id Zcmp _ (std_sort_sorted Zcmp v)). f_equal.
  assert (∀ l, Forall (λ q, normalizeQuorumSetReorder q = q) l →
    map normalizeQuorumSetReorder l = l) as Hid.
  { induction 1; simpl; congruence. }
  rewrite Hid; [apply std_sort_id; [apply _|apply std_sort_sorted; apply _]|].
  rewrite std_sort_perm. by apply Forall_map.
Qed.

(** Reorderings of the validators and of the inner sets, at every level. *)
Inductive qperm : SCPQuorumSet → SCPQuorumSet → Prop :=
  qperm_intro t v v' i i' i'' :
    v ≡ₚ v' → Forall2 qperm i i' → i' ≡ₚ i'' →
    qperm (QSet t v i) (QSet t v' i'').

Lemma reorder_qperm_eq q : ∀ q',
  qperm q q' → normalizeQuorumSetReorder q = normalizeQuorumSetReorder q'.
Proof.
  induction q as [t v i IH] using qset_ind. intros q' Hq.
  inversion Hq as [? ? v' ? i' i'' Hv Hi Hp]; subst. simpl. f_equal.
  { by apply std_sort_unique; [apply _|]. }
  apply std_sort_unique; [apply _|]. rewrite <- Hp. clear Hp Hq.
  induction Hi as [|q q' i i' Hq Hi IHi]; [done|].
  apply Forall_cons in IH as [IHq IH]. simpl. by rewrite (IHq _ Hq), IHi.
Qed.

Lemma reorder_qperm q : qperm q (normalizeQuorumSetReorder q).
Proof.
  induction q as [t v i IH] using qset_ind. simpl. econstructor.
  - by rewrite std_sort_perm.
  - instantiate (1 := map normalizeQuorumSetReorder i).
    induction IH; simpl; by constructor.
  - by rewrite std_sort_perm.
Qed.

Lemma sane_removable id q :
  isQuorumSetSane q false = true → at_levels (λ t _, in_u32 t) q → removable id q.
Proof.
  rewrite isQuorumSetSane_iff. intros (Hl & _ & Hnd & _) Ht. clear -Hl Hnd Ht.
  induction q as [t v i IH] using qset_ind. apply removable_QSet. simpl in *.
  rewrite all_in_Forall in Hl, Ht. destruct Hl as [[Hlt _] Hl], Ht as [Htt Ht].
  apply NoDup_app in Hnd as (Hv & _ & Hi). split_and!; [|done|].
  - enough (countZ (λ n, n =? id) v ≤ 1) by lia. clear -Hv.
    induction Hv as [|n v Hn Hv IHv]; [done|]. rewrite countZ_cons.
    destruct (Z.eqb_spec n id) as [->|]; [|lia].
    rewrite (countZ_ext _ (λ _, false)).
    + unfold countZ. clear. induction v; simpl in *; [done|]. lia.
    + intros m Hm. apply Z.eqb_neq. congruence.
  - clear -IH Hi Hl Ht. induction i as [|q i IHi]; [constructor|].
    apply Forall_cons in IH as [IHq IH], Hl as [Hlq Hl], Ht as [Htq Ht].
    simpl in Hi. apply NoDup_app in Hi as (Hq & _ & Hi). constructor; auto.
Qed.

(** ** Properties *)

(** [isQuorumSetSane] accepts exactly the quorum sets whose thresholds are
    between one and the number of entries (and a strict majority when the extra
    checks are on) at every level, nested at most four deep, that mention no
    node twice and between one and a thousand nodes in all. *)
Theorem isQuorumSetSane_spec q extraChecks :
  isQuorumSetSane q extraChecks = true ↔ qset_sane extraChecks q.
Proof. apply isQuorumSetSane_iff. Qed.

(** C39: normalising a sane quorum set, removing a node [id] or not, keeps its
    meaning: the result is satisfied by a set of nodes exactly when the original
    is satisfied by that set with [id] added. *)
Theorem normalizeQSet_meaning q id (S : NodeID → bool) :
  isQuorumSetSane q false = true → at_levels (λ t _, in_u32 t) q →
  sat S (normalizeQSet q id) = sat (withNode id S) q.
Proof.
  intros Hs Ht. unfold normalizeQSet. rewrite sat_reorder. apply sat_simplify.
  intros n _. by apply sane_removable.
Qed.

Definition example_qset : SCPQuorumSet :=
  QSet 2 [3; 1] [QSet 1 [7] []; QSet 2 [5; 9] [QSet 1 [2; 4] []]].

Lemma normalizeQSet_meaning_witness :
  normalizeQSet example_qset (Some 1) = QSet 1 [3; 7] [QSet 2 [5; 9] [QSet 1 [2; 4] []]] ∧
  sat (λ n, n =? 7) (normalizeQSet example_qset (Some 1)) =
  sat (withNode (Some 1) (λ n, n =? 7)) example_qset.
Proof.
  split; [vm_compute; reflexivity|].
  apply normalizeQSet_meaning; [vm_compute; reflexivity|].
  repeat split; vm_compute; congruence.
Defined.

(** [normalizeQSet] computes a normal form: the result has no singleton inner
    set left and no wrapper, normalising it again changes nothing, and every
    reordering of it is brought back to it by [normalizeQuorumSetReorder]. *)
Theorem normalizeQSet_normal_form q id q' :
  qperm (normalizeQSet q id) q' →
  simplified (normalizeQSet q id) ∧
  normalizeQSet (normalizeQSet q id) None = normalizeQSet q id ∧
  normalizeQuorumSetReorder q' = normalizeQSet q id.
Proof.
  intros Hp. assert (simplified (normalizeQSet q id)) as Hs.
  { apply reorder_simplified, simplify_simplified. }
  split_and!; [done| |].
  - unfold normalizeQSet at 1. rewrite (simplify_id _ Hs). apply reorder_idem.
  - rewrite <- (reorder_qperm_eq _ _ Hp). apply reorder_idem.
Qed.

Lemma normalizeQSet_normal_form_witness :
  normalizeQuorumSetReorder (QSet 2 [7; 1; 3] [QSet 2 [9; 5] [QSet 1 [4; 2] []]]) =
  normalizeQSet example_qset None.
Proof.
  apply (normalizeQSet_normal_form example_qset None).
  change (normalizeQSet example_qset None) with
    (QSet 2 [1; 3; 7] [QSet 2 [5; 9] [QSet 1 [2; 4] []]]).
  econstructor; [solve_Permutation| |reflexivity].
  constructor; [|constructor].
  econstructor; [solve_Permutation| |reflexivity].
  constructor; [|constructor].
  econstructor; [solve_Permutation|constructor|reflexivity].
Defined.
