(* ===== verification/ScpTypes.v ===== *)
(** * Messages of the consensus protocol (src/xdr/DigitalBits-SCP.x, src/scp/SCPDriver.h)

    Values, ballots, statements and envelopes, with decidable equality, and the
    interface [SCPDriver] through which the protocol sees the application. *)

From stdpp Require Import prelude list.
From Stdlib Require Import ZArith Lia.
From S2P Require Import Prelude QuorumSet.
Local Open Scope Z_scope.

(** [typedef opaque Value<>]: a sequence of bytes. *)
Notation Value := (list Z) (only parsing).
Notation Signature := Z (only parsing).

Record SCPBallot : Type := mkBallot { counter : Z; value : Value }.

(** The value-initialised ballot [SCPBallot()]. *)
Definition nullBallot : SCPBallot := mkBallot 0 [].

Record SCPPrepare : Type := {
  p_quorumSetHash : Hash;
  p_ballot : SCPBallot;
  p_prepared : option SCPBallot;
  p_preparedPrime : option SCPBallot;
  p_nC : Z;
  p_nH : Z
}.

Record SCPConfirm : Type := {
  c_ballot : SCPBallot;
  c_nPrepared : Z;
  c_nCommit : Z;
  c_nH : Z;
  c_quorumSetHash : Hash
}.

Record SCPExternalize : Type := {
  e_commit : SCPBallot;
  e_nH : Z;
  e_commitQuorumSetHash : Hash
}.

Record SCPNomination : Type := {
  n_quorumSetHash : Hash;
  n_votes : list Value;
  n_accepted : list Value
}.

Inductive SCPPledges : Type :=
| ST_PREPARE (p : SCPPrepare)
| ST_CONFIRM (c : SCPConfirm)
| ST_EXTERNALIZE (e : SCPExternalize)
| ST_NOMINATE (n : SCPNomination).

Inductive SCPStatementType : Type :=
| SCP_ST_PREPARE | SCP_ST_CONFIRM | SCP_ST_EXTERNALIZE | SCP_ST_NOMINATE.

Definition pledges_type (pl : SCPPledges) : SCPStatementType :=
  match pl with
  | ST_PREPARE _ => SCP_ST_PREPARE
  | ST_CONFIRM _ => SCP_ST_CONFIRM
  | ST_EXTERNALIZE _ => SCP_ST_EXTERNALIZE
  | ST_NOMINATE _ => SCP_ST_NOMINATE
  end.

(** The numeric value of the enum, which [isNewerStatement] compares. *)
Definition type_index (t : SCPStatementType) : Z :=
  match t with
  | SCP_ST_PREPARE => 0 | SCP_ST_CONFIRM => 1
  | SCP_ST_EXTERNALIZE => 2 | SCP_ST_NOMINATE => 3
  end.

Record SCPStatement : Type := {
  nodeID : NodeID;
  slotIndex : Z;
  pledges : SCPPledges
}.

Record SCPEnvelope : Type := {
  statement : SCPStatement;
  signature : Signature
}.

(** [SCPEnvelopeWrapper] objects are compared by address: [wrapId] is the
    identity of the object. *)
Record SCPEnvelopeWrapper : Type := {
  wrapId : Z;
  getEnvelope : SCPEnvelope
}.
Definition getStatement (w : SCPEnvelopeWrapper) : SCPStatement := statement (getEnvelope w).

#[export] Instance SCPBallot_eq_dec : EqDecision SCPBallot.
Proof. solve_decision. Defined.
#[export] Instance SCPPrepare_eq_dec : EqDecision SCPPrepare.
Proof. solve_decision. Defined.
#[export] Instance SCPConfirm_eq_dec : EqDecision SCPConfirm.
Proof. solve_decision. Defined.
#[export] Instance SCPExternalize_eq_dec : EqDecision SCPExternalize.
Proof. solve_decision. Defined.
#[export] Instance SCPNomination_eq_dec : EqDecision SCPNomination.
Proof. solve_decision. Defined.
#[export] Instance SCPPledges_eq_dec : EqDecision SCPPledges.
Proof. solve_decision. Defined.
#[export] Instance SCPStatementType_eq_dec : EqDecision SCPStatementType.
Proof. solve_decision. Defined.
#[export] Instance SCPStatement_eq_dec : EqDecision SCPStatement.
Proof. solve_decision. Defined.
#[export] Instance SCPEnvelope_eq_dec : EqDecision SCPEnvelope.
Proof. solve_decision. Defined.

(** [SCPDriver::ValidationLevel], in the order the code compares. *)
Inductive ValidationLevel : Type :=
| kInvalidValue | kMaybeValidValue | kFullyValidatedValue.

#[export] Instance ValidationLevel_eq_dec : EqDecision ValidationLevel.
Proof. solve_decision. Defined.

Definition level_min (a b : ValidationLevel) : ValidationLevel :=
  match a, b with
  | kInvalidValue, _ | _, kInvalidValue => kInvalidValue
  | kMaybeValidValue, _ | _, kMaybeValidValue => kMaybeValidValue
  | _, _ => kFullyValidatedValue
  end.

(** What the protocol asks of the application (the virtual methods of
    [SCPDriver] that return something): the quorum sets it knows by hash, its
    judgement of values, its signature, the hashes that randomise nomination and
    the combination of candidates. *)
Class SCPDriver : Type := {
  getQSet : Hash → option SCPQuorumSet;
  validateValue : Z → Value → bool → ValidationLevel;
  signEnvelope : SCPStatement → Signature;
  extractValidValue : Z → Value → option Value;
  computeHashNode : Z → Value → bool → Z → NodeID → Z;
  computeValueHash : Z → Value → Z → Value → Z;
  combineCandidates : Z → list Value → Value
}.

(** The local node: identity, validator flag, quorum set and its hash
    (LocalNode.h). *)
Class LocalNode : Type := {
  localNodeID : NodeID;
  isValidator : bool;
  localQuorumSet : SCPQuorumSet;
  localQuorumSetHash : Hash
}.

(** [SCP::EnvelopeState] *)
Inductive EnvelopeState : Type := INVALID | VALID.

#[export] Instance EnvelopeState_eq_dec : EqDecision EnvelopeState.
Proof. solve_decision. Defined.
