(* ===== verification/LocalNode.v ===== *)
(** * Quorum slices, blocking sets and quorums (src/scp/LocalNode.cpp)

    The scans of [LocalNode] are translated with their counters and early
    returns; the theorems relate them to the reference meaning [sat] of a quorum
    set: slices by counting, blocking sets by duality, quorums as the greatest
    fixpoint of "every member has a slice inside". *)

From stdpp Require Import prelude list.
From Stdlib Require Import ZArith Lia.
From S2P Require Import Prelude Numeric QuorumSet ScpTypes.
Local Open Scope Z_scope.

Definition buildSingletonQSet (nodeID : NodeID) : SCPQuorumSet := QSet 1 [nodeID] [].

Definition getSingletonQSet (nodeID : NodeID) : SCPQuorumSet := buildSingletonQSet nodeID.

(** The loop over inner sets of [forAllNodes] with an accumulator for what the
    callback [proc] changes; [false] stops the walk. *)
Definition forAll_loop {A X} (f : A → X → X * bool) :=
  fix go (l : list A) (x : X) : X * bool :=
    match l with
    | [] => (x, true)
    | a :: l' => let '(x', b) := f a x in if b then go l' x' else (x', false)
    end.

Fixpoint forAllNodes {X} (qset : SCPQuorumSet) (proc : NodeID → X → X * bool) (x : X)
  : X * bool :=
  let 'QSet _ v i := qset in
  let '(x1, b) := forAll_loop proc v x in
  if b then forAll_loop (λ q x, forAllNodes q proc x) i x1 else (x1, false).

(** ** Slices and blocking sets *)

Definition inNodes (nodeSet : list NodeID) (n : NodeID) : bool := bool_decide (n ∈ nodeSet).

Fixpoint isQuorumSliceInternal (qset : SCPQuorumSet) (nodeSet : list NodeID) : bool :=
  let 'QSet threshold validators innerSets := qset in
  match countdown (inNodes nodeSet) (λ z, u32 (z - 1)) validators threshold with
  | None => true
  | Some thresholdLeft =>
      match countdown (λ inner, isQuorumSliceInternal inner nodeSet) (λ z, u32 (z - 1))
              innerSets thresholdLeft with
      | None => true
      | Some _ => false
      end
  end.

Definition isQuorumSlice (qSet : SCPQuorumSet) (nodeSet : list NodeID) : bool :=
  isQuorumSliceInternal qSet nodeSet.

Fixpoint isVBlockingInternal (qset : SCPQuorumSet) (nodeSet : list NodeID) : bool :=
  let 'QSet threshold validators innerSets := qset in
  (* There is no v-blocking set for {\empty} *)
  if threshold =? 0 then false
  else
    let leftTillBlock :=
      s32 (u64 (1 + Z.of_nat (length validators) + Z.of_nat (length innerSets) - threshold)) in
    match countdown (inNodes nodeSet) (λ z, z - 1) validators leftTillBlock with
    | None => true
    | Some leftTillBlock =>
        match countdown (λ inner, isVBlockingInternal inner nodeSet) (λ z, z - 1)
                innerSets leftTillBlock with
        | None => true
        | Some _ => false
        end
    end.

Definition isVBlocking (qSet : SCPQuorumSet) (nodeSet : list NodeID) : bool :=
  isVBlockingInternal qSet nodeSet.

(** [std::map<NodeID, SCPEnvelopeWrapperPtr>] *)
Notation EnvMap := (list (NodeID * SCPEnvelopeWrapper)) (only parsing).

(** The nodes of the map whose statement satisfies [filter]. *)
Definition filterNodes (map : EnvMap) (filter : SCPStatement → bool) : list NodeID :=
  (List.filter (λ it, filter (getStatement it.2)) map).*1.

Definition isVBlockingMap (qSet : SCPQuorumSet) (map : EnvMap)
  (filter : SCPStatement → bool) : bool :=
  isVBlocking qSet (filterNodes map filter).

(** ** Quorums *)

Definition quorumFilter (map : EnvMap) (qfun : SCPStatement → option SCPQuorumSet)
  (pNodes : list NodeID) (nodeID : NodeID) : bool :=
  match map_find nodeID map with
  | Some w =>
      match qfun (getStatement w) with
      | Some qSet => isQuorumSlice qSet pNodes
      | None => false
      end
  | None => false
  end.

(** The [do ... while (count != pNodes.size())] loop.  [fuel] bounds the number
    of iterations; one more than the number of nodes is always enough
    ([isQuorum_loop_stable]). *)
Fixpoint isQuorum_loop (fuel : nat) (map : EnvMap)
  (qfun : SCPStatement → option SCPQuorumSet) (pNodes : list NodeID) : list NodeID :=
  match fuel with
  | O => pNodes
  | S fuel =>
      let count := length pNodes in
      let fNodes := List.filter (quorumFilter map qfun pNodes) pNodes in
      if bool_decide (count = length fNodes) then fNodes
      else isQuorum_loop fuel map qfun fNodes
  end.

Definition isQuorum (qSet : SCPQuorumSet) (map : EnvMap)
  (qfun : SCPStatement → option SCPQuorumSet) (filter : SCPStatement → bool) : bool :=
  let pNodes := filterNodes map filter in
  isQuorumSlice qSet (isQuorum_loop (S (length pNodes)) map qfun pNodes).

(** ** Node weights *)

Definition computeWeight (m total threshold : Z) : outcome NumError Z :=
  if threshold <=? total then Ok (bigDivideU64 m threshold total ROUND_UP).1
  else Fail AssertFailure.

(** The loop over inner sets: the first one giving the node a weight decides. *)
Definition weight_inner (f : SCPQuorumSet → outcome NumError Z) (d n : Z) :=
  fix go (i : list SCPQuorumSet) : outcome NumError Z :=
    match i with
    | [] => Ok 0
    | q :: i' =>
        match f q with
        | Fail e => Fail e
        | Ok leafW => if negb (leafW =? 0) then computeWeight leafW d n else go i'
        end
    end.

Fixpoint getNodeWeight (nodeID : NodeID) (qset : SCPQuorumSet) : outcome NumError Z :=
  let 'QSet n v i := qset in
  let d := Z.of_nat (length i) + Z.of_nat (length v) in
  if bool_decide (nodeID ∈ v) then computeWeight UINT64_MAX d n
  else weight_inner (getNodeWeight nodeID) d n i.

(** ** The closest blocking set *)

(** First loop: validators that are not in [nodes] are already failed; the others
    are kept as candidates.  [None] is the early return "already blocked". *)
Fixpoint closest_validators (nodes : list NodeID) (excluded : option NodeID)
  (v : list NodeID) (leftTillBlock : Z) (res : list NodeID) : option (Z * list NodeID) :=
  match v with
  | [] => Some (leftTillBlock, res)
  | validator :: v' =>
      if bool_decide (excluded = Some validator)
      then closest_validators nodes excluded v' leftTillBlock res
      else if bool_decide (validator ∈ nodes)
      then closest_validators nodes excluded v' leftTillBlock (res ++ [validator])
      else
        let leftTillBlock := u64 (leftTillBlock - 1) in
        if leftTillBlock =? 0 then None
        else closest_validators nodes excluded v' leftTillBlock res
  end.

(** [std::multiset<std::vector<NodeID>, orderBySize>::emplace] *)
Fixpoint multiset_emplace (v : list NodeID) (s : list (list NodeID)) : list (list NodeID) :=
  match s with
  | [] => [v]
  | w :: s' =>
      if bool_decide (length v < length w)%nat then v :: s else w :: multiset_emplace v s'
  end.

Definition closest_inner (f : SCPQuorumSet → list NodeID) :=
  fix go (i : list SCPQuorumSet) (leftTillBlock : Z) (resInternals : list (list NodeID))
    : option (Z * list (list NodeID)) :=
    match i with
    | [] => Some (leftTillBlock, resInternals)
    | inner :: i' =>
        let v := f inner in
        if bool_decide (length v = 0%nat) then
          let leftTillBlock := u64 (leftTillBlock - 1) in
          if leftTillBlock =? 0 then None else go i' leftTillBlock resInternals
        else go i' leftTillBlock (multiset_emplace v resInternals)
    end.

(** Last loop: whole inner results, smallest first. *)
Fixpoint closest_take (leftTillBlock : Z) (resInternals : list (list NodeID))
  (res : list NodeID) : list NodeID :=
  match resInternals with
  | [] => res
  | v :: rest =>
      if leftTillBlock =? 0 then res
      else closest_take (u64 (leftTillBlock - 1)) rest (res ++ v)
  end.

Fixpoint findClosestVBlocking (nodes : list NodeID) (excluded : option NodeID)
  (qset : SCPQuorumSet) : list NodeID :=
  let 'QSet threshold v i := qset in
  let leftTillBlock :=
    u64 (1 + Z.of_nat (length v) + Z.of_nat (length i) - threshold) in
  match closest_validators nodes excluded v leftTillBlock [] with
  | None => []
  | Some (leftTillBlock, res) =>
      match closest_inner (findClosestVBlocking nodes excluded) i leftTillBlock [] with
      | None => []
      | Some (leftTillBlock, resInternals) =>
          let res := if leftTillBlock <? Z.of_nat (length res)
                     then take (Z.to_nat leftTillBlock) res else res in
          closest_take (u64 (leftTillBlock - Z.of_nat (length res))) resInternals res
      end
  end.

Definition findClosestVBlockingMap (qset : SCPQuorumSet) (map : EnvMap)
  (filter : SCPStatement → bool) (excluded : option NodeID) : list NodeID :=
  findClosestVBlocking (filterNodes map filter) excluded qset.

(** * Theorems *)

(** Thresholds between one and the number of entries, at every level, with
    fewer entries than a C++ [int] counts. *)
Definition slice_ok (t n : Z) : Prop := 1 ≤ t ≤ n ∧ n < 2147483648.

Lemma at_levels_QSet P t v i :
  at_levels P (QSet t v i) ↔
  P t (Z.of_nat (length v) + Z.of_nat (length i)) ∧ Forall (at_levels P) i.
Proof. simpl. by rewrite all_in_Forall. Qed.

Lemma u32_dec z : 0 < z ≤ UINT32_MAX → u32 (z - 1) = z - 1.
Proof. intros. apply u32_small. word. Qed.

(** The scan with its counter computes [sat]. *)
Lemma isQuorumSlice_sat q nodes :
  at_levels slice_ok q → isQuorumSlice q nodes = sat (inNodes nodes) q.
Proof.
  unfold isQuorumSlice. induction q as [t v i IH] using qset_ind.
  intros [[Ht Hn] Hi]%at_levels_QSet. simpl.
  rewrite countdown_spec; [|intros; apply u32_dec; word|lia].
  pose proof (countZ_nonneg (sat (inNodes nodes)) i) as Hp.
  assert (countZ (λ inner, isQuorumSliceInternal inner nodes) i =
    countZ (sat (inNodes nodes)) i) as Hc.
  { apply countZ_ext. intros q Hq. rewrite Forall_forall in IH, Hi. auto. }
  destruct (Z.leb_spec t (countZ (inNodes nodes) v)).
  { symmetry. apply Z.leb_le. lia. }
  pose proof (countZ_nonneg (inNodes nodes) v).
  rewrite countdown_spec; [|intros; apply u32_dec; word|lia]. rewrite Hc.
  zcases; lia || done.
Qed.

(** Blocking sets: enough entries are members, or blocked in turn. *)
Fixpoint blocked (S : NodeID → bool) (q : SCPQuorumSet) : bool :=
  let 'QSet t v i := q in
  Z.of_nat (length v) + Z.of_nat (length i) - t + 1 <=? countZ S v + countZ (blocked S) i.

Lemma isVBlocking_blocked q nodes :
  at_levels slice_ok q → isVBlocking q nodes = blocked (inNodes nodes) q.
Proof.
  unfold isVBlocking. induction q as [t v i IH] using qset_ind.
  intros [[Ht Hn] Hi]%at_levels_QSet. simpl.
  destruct (Z.eqb_spec t 0); [lia|].
  rewrite u64_small, s32_small by word.
  rewrite countdown_spec by lia.
  pose proof (countZ_nonneg (blocked (inNodes nodes)) i) as Hp.
  assert (countZ (λ inner, isVBlockingInternal inner nodes) i =
    countZ (blocked (inNodes nodes)) i) as Hc.
  { apply countZ_ext. intros q Hq. rewrite Forall_forall in IH, Hi. auto. }
  destruct (Z.leb_spec (1 + Z.of_nat (length v) + Z.of_nat (length i) - t)
    (countZ (inNodes nodes) v)).
  { symmetry. apply Z.leb_le. lia. }
  pose proof (countZ_nonneg (inNodes nodes) v).
  rewrite countdown_spec by lia. rewrite Hc. zcases; lia || done.
Qed.

(** A set blocks [q] exactly when its complement does not satisfy [q]. *)
Lemma blocked_compl (S S' : NodeID → bool) q :
  (∀ n, n ∈ qset_nodes q → S' n = negb (S n)) → blocked S q = negb (sat S' q).
Proof.
  induction q as [t v i IH] using qset_ind. simpl. intros H.
  assert (countZ S v + countZ S' v = Z.of_nat (length v)).
  { apply countZ_compl. set_solver. }
  assert (countZ (blocked S) i + countZ (sat S') i = Z.of_nat (length i)).
  { apply countZ_compl. intros q Hq. eapply Forall_forall in IH; [|exact Hq].
    rewrite IH, negb_involutive; [done|]. intros n Hn. apply H, elem_of_app. right.
    apply elem_of_inner_nodes. eauto. }
  destruct (Z.leb_spec (Z.of_nat (length v) + Z.of_nat (length i) - t + 1)
    (countZ S v + countZ (blocked S) i)),
    (Z.leb_spec t (countZ S' v + countZ (sat S') i)); simpl; lia || done.
Qed.

(** ** Unrestricted thresholds

    A threshold of zero wraps on the first hit, so it behaves as [2^32]: such a
    set is never satisfied.  With that reading the scan is monotone for every
    quorum set whose thresholds are [uint32]. *)

Definition effT (t : Z) : Z := if t =? 0 then 4294967296 else t.

Fixpoint satE (S : NodeID → bool) (q : SCPQuorumSet) : bool :=
  let 'QSet t v i := q in effT t <=? countZ S v + countZ (satE S) i.

Definition qset_typed : SCPQuorumSet → Prop := at_levels (λ t _, in_u32 t).

Lemma countdown_u32 {A} (hit : A → bool) l z :
  in_u32 z →
  countdown hit (λ z, u32 (z - 1)) l z =
    if effT z <=? countZ hit l then None else Some (u32 (effT z - countZ hit l)).
Proof.
  revert z. induction l as [|x l IH]; intros z Hz.
  { simpl. unfold countZ, effT; simpl. destruct (Z.eqb_spec z 0) as [->|]; [done|].
    rewrite (proj2 (Z.leb_gt _ _)) by word. rewrite Z.sub_0_r, u32_small by done. done. }
  simpl. rewrite countZ_cons. pose proof (countZ_nonneg hit l). destruct (hit x).
  - rewrite IH by apply u32_range.
    assert (u32 (z - 1) = effT z - 1) as ->.
    { unfold effT. destruct (Z.eqb_spec z 0) as [->|]; [done|]. apply u32_small. word. }
    replace (effT z - (1 + countZ hit l)) with (effT z - 1 - countZ hit l) by lia.
    assert (0 < effT z) by (unfold effT; destruct (Z.eqb_spec z 0); word).
    unfold effT at 2 4. zcases; try lia; done.
  - rewrite IH by done. by rewrite Z.add_0_l.
Qed.

Lemma effT_u32 x : 0 < x ≤ 4294967296 → effT (u32 x) = x.
Proof.
  intros H. unfold effT. destruct (decide (x = 4294967296)) as [->|]; [done|].
  rewrite u32_small by word. destruct (Z.eqb_spec x 0); lia.
Qed.

Lemma isQuorumSlice_satE q nodes :
  qset_typed q → isQuorumSlice q nodes = satE (inNodes nodes) q.
Proof.
  unfold isQuorumSlice, qset_typed. induction q as [t v i IH] using qset_ind.
  intros [Ht Hi]%at_levels_QSet. simpl.
  rewrite countdown_u32 by done.
  pose proof (countZ_nonneg (satE (inNodes nodes)) i).
  pose proof (countZ_nonneg (inNodes nodes) v).
  assert (0 < effT t ≤ 4294967296) by (unfold effT; destruct (Z.eqb_spec t 0); word).
  assert (countZ (λ inner, isQuorumSliceInternal inner nodes) i =
    countZ (satE (inNodes nodes)) i) as Hc.
  { apply countZ_ext. intros q Hq. rewrite Forall_forall in IH, Hi. auto. }
  destruct (Z.leb_spec (effT t) (countZ (inNodes nodes) v)).
  { symmetry. apply Z.leb_le. lia. }
  rewrite countdown_u32 by apply u32_range. rewrite Hc, effT_u32 by lia.
  zcases; lia || done.
Qed.

Lemma satE_mono (S S' : NodeID → bool) q :
  (∀ n, S n = true → S' n = true) → satE S q = true → satE S' q = true.
Proof.
  intros H. induction q as [t v i IH] using qset_ind; simpl.
  rewrite !Z.leb_le. rewrite Forall_forall in IH.
  pose proof (countZ_mono S S' v ltac:(auto)).
  pose proof (countZ_mono (satE S) (satE S') i IH). lia.
Qed.

Lemma isQuorumSlice_mono q nodes nodes' :
  qset_typed q → nodes ⊆ nodes' → isQuorumSlice q nodes = true → isQuorumSlice q nodes' = true.
Proof.
  intros Ht Hs. rewrite !isQuorumSlice_satE by done. apply satE_mono.
  unfold inNodes. intros n. rewrite !bool_decide_eq_true. auto.
Qed.

(** ** Quorums as a greatest fixpoint *)

Section Quorum.
Context (map : EnvMap) (qfun : SCPStatement → option SCPQuorumSet).
Hypothesis Hqfun : ∀ st q, qfun st = Some q → qset_typed q.

(** Every member of [U] has a slice inside [U]. *)
Definition closed_under_slices (U : list NodeID) : Prop :=
  ∀ n, n ∈ U → quorumFilter map qfun U n = true.

Lemma quorumFilter_mono U V n :
  U ⊆ V → quorumFilter map qfun U n = true → quorumFilter map qfun V n = true.
Proof.
  intros HUV. unfold quorumFilter. destruct (map_find n map); [|done].
  destruct (qfun _) eqn:E; [|done]. apply isQuorumSlice_mono; eauto.
Qed.

Lemma filter_same_length {A} (f : A → bool) l :
  length l = length (List.filter f l) → List.filter f l = l.
Proof.
  induction l as [|x l IH]; simpl; [done|]. destruct (f x); simpl; intros H.
  - f_equal. apply IH. lia.
  - pose proof (List.filter_length_le f l). lia.
Qed.

Lemma elem_of_filterb {A} (f : A → bool) l x : x ∈ List.filter f l ↔ x ∈ l ∧ f x = true.
Proof. by rewrite !list_elem_of_In, List.filter_In. Qed.

Lemma isQuorum_loop_sub fuel p : isQuorum_loop fuel map qfun p ⊆ p.
Proof.
  revert p. induction fuel as [|fuel IH]; intros p; simpl; [done|].
  assert (List.filter (quorumFilter map qfun p) p ⊆ p).
  { intros n. rewrite elem_of_filterb. tauto. }
  case_bool_decide; [done|]. etrans; [apply IH|done].
Qed.

(** With fuel above the number of nodes the loop ends by its own test. *)
Lemma isQuorum_loop_stable fuel p :
  (length p < fuel)%nat → closed_under_slices (isQuorum_loop fuel map qfun p).
Proof.
  revert p. induction fuel as [|fuel IH]; intros p Hf; simpl; [lia|].
  case_bool_decide as Hl.
  - rewrite (filter_same_length _ _ Hl) at 1. intros n Hn.
    rewrite <- (filter_same_length _ _ Hl), elem_of_filterb in Hn. tauto.
  - apply IH. pose proof (List.filter_length_le (quorumFilter map qfun p) p). lia.
Qed.

Lemma isQuorum_loop_greatest fuel p U :
  closed_under_slices U → U ⊆ p → U ⊆ isQuorum_loop fuel map qfun p.
Proof.
  intros HU. revert p. induction fuel as [|fuel IH]; intros p Hp; simpl; [done|].
  assert (U ⊆ List.filter (quorumFilter map qfun p) p).
  { intros n Hn. apply elem_of_filterb. split; [by apply Hp|].
    eapply quorumFilter_mono; [exact Hp|auto]. }
  case_bool_decide; [done|]. by apply IH.
Qed.

Lemma elem_of_filterNodes n filter :
  n ∈ filterNodes map filter ↔ ∃ w, (n, w) ∈ map ∧ filter (getStatement w) = true.
Proof.
  unfold filterNodes. rewrite list_elem_of_fmap. setoid_rewrite elem_of_filterb. split.
  - intros [[n' w] [-> [H1 H2]]]. eauto.
  - intros (w & H1 & H2). by exists (n, w).
Qed.

Lemma isQuorum_iff qSet filter :
  qset_typed qSet →
  isQuorum qSet map qfun filter = true ↔
  ∃ U, U ⊆ filterNodes map filter ∧ closed_under_slices U ∧ isQuorumSlice qSet U = true.
Proof.
  intros Hq. unfold isQuorum. split.
  - intros H. eexists. split_and!; [|apply isQuorum_loop_stable|exact H].
    + apply isQuorum_loop_sub.
    + lia.
  - intros (U & H1 & H2 & H3). eapply isQuorumSlice_mono; [done| |exact H3].
    by apply isQuorum_loop_greatest.
Qed.
End Quorum.

(** ** Sane quorum sets *)

Lemma level_ok_nodes ex q : at_levels (level_ok ex) q → (1 ≤ length (qset_nodes q))%nat.
Proof.
  induction q as [t v i IH] using qset_ind. intros [[Ht _] Hi]%at_levels_QSet. simpl.
  rewrite length_app. destruct v as [|x v]; simpl in *; [|lia].
  destruct i as [|q i]; simpl in *; [lia|]. rewrite length_app.
  apply Forall_cons in IH as [IH _], Hi as [Hi _]. specialize (IH Hi). lia.
Qed.

Lemma level_ok_inner_length ex i :
  Forall (at_levels (level_ok ex)) i → (length i ≤ length (concat (map qset_nodes i)))%nat.
Proof.
  induction 1 as [|q i Hq _ IH]; simpl; [lia|]. rewrite length_app.
  pose proof (level_ok_nodes ex q Hq). lia.
Qed.

Lemma inner_nodes_length q i :
  q ∈ i → (length (qset_nodes q) ≤ length (concat (map qset_nodes i)))%nat.
Proof.
  induction i as [|q' i IH]; [by intros ?%not_elem_of_nil|]. simpl. rewrite length_app.
  intros [->|Hq]%elem_of_cons; [lia|]. specialize (IH Hq). lia.
Qed.

Lemma sane_slice_ok ex q : qset_sane ex q → at_levels slice_ok q.
Proof.
  intros (Hl & _ & _ & _ & Hc).
  assert (Z.of_nat (length (qset_nodes q)) ≤ 1000) as Hn by done. clear Hc.
  induction q as [t v i IH] using qset_ind. apply at_levels_QSet in Hl as [[Ht _] Hi].
  simpl in Hn. rewrite length_app in Hn. pose proof (level_ok_inner_length ex i Hi) as Hlen.
  apply at_levels_QSet. split; [split; lia|].
  rewrite Forall_forall in *. intros q Hq. apply IH; [done|auto|].
  pose proof (inner_nodes_length q i Hq). lia.
Qed.

Lemma at_levels_impl (P Q : Z → Z → Prop) q :
  (∀ t n, P t n → Q t n) → at_levels P q → at_levels Q q.
Proof.
  intros HPQ. induction q as [t v i IH] using qset_ind. rewrite !at_levels_QSet.
  rewrite !Forall_forall in *. naive_solver.
Qed.

Lemma slice_ok_typed q : at_levels slice_ok q → qset_typed q.
Proof. apply at_levels_impl. unfold slice_ok. intros; word. Qed.

(** ** The closest blocking set *)

Section Closest.
Context (nodes : list NodeID).

(** The nodes left once [R] has failed. *)
Definition without (R : list NodeID) (n : NodeID) : bool :=
  bool_decide (n ∈ nodes) && negb (bool_decide (n ∈ R)).

Lemma without_nil n : without [] n = inNodes nodes n.
Proof. unfold without, inNodes. rewrite (bool_decide_eq_false_2 (n ∈ [])); [|set_solver]. apply andb_true_r. Qed.

(** The result of the first loop, on the count of available validators. *)
Lemma closest_validators_spec v lft res :
  0 < lft ≤ UINT64_MAX →
  closest_validators nodes None v lft res =
    if lft <=? Z.of_nat (length v) - countZ (inNodes nodes) v then None
    else Some (lft - (Z.of_nat (length v) - countZ (inNodes nodes) v),
               res ++ List.filter (inNodes nodes) v).
Proof.
  revert lft res. induction v as [|x v IH]; intros lft res Hl.
  { simpl. unfold countZ; simpl. rewrite (proj2 (Z.leb_gt _ _)) by lia.
    rewrite app_nil_r. repeat f_equal. lia. }
  simpl. rewrite countZ_cons. change (inNodes nodes x) with (bool_decide (x ∈ nodes)).
  pose proof (countZ_le (inNodes nodes) v).
  case_bool_decide as Hx; simpl.
  - rewrite IH by done. rewrite <- (assoc_L (++)). simpl.
    replace (Z.of_nat (S (length v)) - (1 + countZ (inNodes nodes) v))
      with (Z.of_nat (length v) - countZ (inNodes nodes) v) by lia. done.
  - rewrite u64_small by word. destruct (Z.eqb_spec (lft - 1) 0).
    + rewrite (proj2 (Z.leb_le _ _)) by lia. done.
    + rewrite IH by lia.
      replace (Z.of_nat (S (length v)) - (0 + countZ (inNodes nodes) v))
        with (1 + (Z.of_nat (length v) - countZ (inNodes nodes) v)) by lia.
      zcases; try lia; try done. do 2 f_equal. lia.
Qed.

Definition nonempty (l : list NodeID) : bool := negb (bool_decide (length l = 0%nat)).

Lemma multiset_emplace_perm v s : multiset_emplace v s ≡ₚ v :: s.
Proof.
  induction s as [|w s IH]; simpl; [done|]. case_bool_decide; [done|].
  rewrite IH. by constructor.
Qed.

Lemma closest_inner_spec f i lft acc :
  0 < lft ≤ UINT64_MAX →
  match closest_inner f i lft acc with
  | None => lft ≤ Z.of_nat (length i) - countZ (λ q, nonempty (f q)) i
  | Some (lft', acc') =>
      lft' = lft - (Z.of_nat (length i) - countZ (λ q, nonempty (f q)) i) ∧ 0 < lft' ∧
      acc' ≡ₚ List.filter nonempty (map f i) ++ acc
  end.
Proof.
  revert lft acc. induction i as [|q i IH]; intros lft acc Hl; simpl.
  { unfold countZ; simpl. split_and!; [lia..|done]. }
  rewrite countZ_cons. cbv beta.
  change (nonempty (f q)) with (negb (bool_decide (length (f q) = 0%nat))).
  pose proof (countZ_le (λ q, nonempty (f q)) i).
  case_bool_decide as Hq; simpl.
  - rewrite u64_small by word. destruct (Z.eqb_spec (lft - 1) 0); [lia|].
    specialize (IH (lft - 1) acc ltac:(lia)).
    destruct (closest_inner f i (lft - 1) acc) as [[lft' acc']|]; [|lia].
    destruct IH as (-> & ? & ?). split_and!; [lia|lia|done].
  - specialize (IH lft (multiset_emplace (f q) acc) Hl).
    destruct (closest_inner f i lft _) as [[lft' acc']|]; [|lia].
    destruct IH as (-> & ? & Hp). split_and!; [lia|lia|].
    rewrite Hp, multiset_emplace_perm. by rewrite Permutation_middle.
Qed.

Lemma closest_take_spec k l res :
  0 ≤ k ≤ UINT64_MAX →
  closest_take k l res = res ++ concat (take (Z.to_nat k) l).
Proof.
  revert k res. induction l as [|v l IH]; intros k res Hk; simpl.
  { destruct (Z.to_nat k); simpl; by rewrite app_nil_r. }
  destruct (Z.eqb_spec k 0) as [->|]; [simpl; by rewrite app_nil_r|].
  rewrite u64_small by word. rewrite IH by lia.
  replace (Z.to_nat k) with (S (Z.to_nat (k - 1))) by lia. simpl.
  by rewrite (assoc_L (++)).
Qed.

Lemma countZ_filter {A} (p g : A → bool) l :
  countZ g (List.filter p l) = countZ (λ x, p x && g x) l.
Proof.
  induction l as [|x l IH]; simpl; [done|]. rewrite countZ_cons.
  destruct (p x); simpl; [rewrite countZ_cons|]; lia.
Qed.

(** Dropping the members of a prefix drops at least its length. *)
Lemma countZ_not_in_take {A} `{EqDecision A} (l : list A) k :
  countZ (λ x, negb (bool_decide (x ∈ take k l))) l ≤
  Z.of_nat (length l) - Z.of_nat (length (take k l)).
Proof.
  set (p := λ x, negb (bool_decide (x ∈ take k l))).
  assert (countZ p l = countZ p (take k l) + countZ p (drop k l)) as ->.
  { by rewrite <- countZ_app, take_drop. }
  assert (length l = length (take k l) + length (drop k l))%nat.
  { by rewrite <- length_app, take_drop. }
  assert (countZ p (take k l) = 0) as ->.
  { rewrite (countZ_ext _ (λ _, false)).
    - unfold countZ. generalize (take k l) as l'. by induction l'.
    - intros x Hx. unfold p. by rewrite bool_decide_eq_true_2. }
  pose proof (countZ_le p (drop k l)). lia.
Qed.

Lemma without_sub R R' n : R' ⊆ R → without R n = true → without R' n = true.
Proof.
  unfold without. rewrite !andb_true_iff, !negb_true_iff, !bool_decide_eq_false.
  set_solver.
Qed.

Definition closest_ok (q : SCPQuorumSet) (R : list NodeID) : Prop :=
  nonempty R = sat (inNodes nodes) q ∧ sat (without R) q = false ∧
  (∀ n, n ∈ R → n ∈ nodes ∧ n ∈ qset_nodes q).

(** Failing [take k] of the available validators. *)
Lemma validators_left v k R :
  take k (List.filter (inNodes nodes) v) ⊆ R →
  countZ (without R) v ≤
  countZ (inNodes nodes) v - Z.of_nat (length (take k (List.filter (inNodes nodes) v))).
Proof.
  intros Hs. etrans; [apply (countZ_mono _ (λ n, inNodes nodes n &&
    negb (bool_decide (n ∈ take k (List.filter (inNodes nodes) v)))))|].
  - intros n _ Hn. eapply without_sub in Hn; [|exact Hs]. done.
  - rewrite <- countZ_filter. apply countZ_not_in_take.
Qed.

Lemma elem_of_concat_sub (w : list NodeID) ls : w ∈ ls → w ⊆ concat ls.
Proof. induction 1; simpl; set_solver. Qed.

(** Failing the inner results [take k] of the multiset. *)
Lemma inner_left f i internals k R :
  Forall (λ q, closest_ok q (f q)) i →
  internals ≡ₚ List.filter nonempty (map f i) →
  concat (take k internals) ⊆ R →
  countZ (sat (without R)) i ≤
  Z.of_nat (length internals) - Z.of_nat (length (take k internals)).
Proof.
  intros Hi Hp HR.
  etrans; [|apply countZ_not_in_take]. rewrite (countZ_perm _ _ _ Hp), countZ_filter, countZ_map.
  apply countZ_mono. intros q Hq Hs. rewrite Forall_forall in Hi.
  destruct (Hi q Hq) as (H1 & H2 & _). apply andb_true_iff; split.
  - rewrite H1. eapply sat_mono; [|exact Hs]. intros n Hn.
    rewrite <- without_nil. eapply without_sub; [|exact Hn]. set_solver.
  - apply negb_true_iff, bool_decide_eq_false. intros Hin.
    enough (sat (without (f q)) q = true) by congruence.
    eapply sat_mono; [|exact Hs]. intros n. apply without_sub.
    etrans; [|exact HR]. by apply elem_of_concat_sub.
Qed.

Lemma nonempty_app_l l l' : (1 ≤ length l)%nat → nonempty (l ++ l') = true.
Proof.
  intros. unfold nonempty. rewrite bool_decide_eq_false_2; [done|]. rewrite length_app. lia.
Qed.

Lemma findClosest_ok q :
  at_levels slice_ok q → closest_ok q (findClosestVBlocking nodes None q).
Proof.
  induction q as [t v i IH] using qset_ind. intros [[Ht Hn] Hi]%at_levels_QSet.
  assert (Forall (λ q, closest_ok q (findClosestVBlocking nodes None q)) i) as Hok.
  { rewrite Forall_forall in *. auto. }
  set (f := findClosestVBlocking nodes None) in *.
  assert (countZ (λ q, nonempty (f q)) i = countZ (sat (inNodes nodes)) i) as Hb.
  { apply countZ_ext. intros q Hq. rewrite Forall_forall in Hok. by destruct (Hok q Hq). }
  set (a := countZ (inNodes nodes) v). set (b := countZ (sat (inNodes nodes)) i) in *.
  pose proof (countZ_nonneg (inNodes nodes) v : 0 ≤ a).
  pose proof (countZ_le (inNodes nodes) v : a ≤ _).
  pose proof (countZ_nonneg (sat (inNodes nodes)) i : 0 ≤ b).
  pose proof (countZ_le (sat (inNodes nodes)) i : b ≤ _).
  assert (a + b < t → closest_ok (QSet t v i) []) as Hnil.
  { intros Hlt. unfold closest_ok. simpl sat.
    rewrite (proj2 (Z.leb_gt t (countZ (inNodes nodes) v + _))) by (fold a b; lia).
    split_and!; [done| |set_solver]. apply Z.leb_gt.
    rewrite (countZ_ext (without []) (inNodes nodes)) by (intros; apply without_nil).
    rewrite (countZ_ext (sat (without [])) (sat (inNodes nodes))); [done|].
    intros. apply sat_ext. intros. apply without_nil. }
  unfold f at 1. simpl findClosestVBlocking.
  rewrite u64_small by word. rewrite closest_validators_spec by word.
  fold a. destruct (Z.leb_spec (1 + Z.of_nat (length v) + Z.of_nat (length i) - t)
    (Z.of_nat (length v) - a)); [apply Hnil; lia|].
  fold f. pose proof (closest_inner_spec f i (1 + Z.of_nat (length v) + Z.of_nat (length i) - t
    - (Z.of_nat (length v) - a)) [] ltac:(word)) as Hin.
  rewrite Hb in Hin. destruct (closest_inner f i _ []) as [[lft acc]|]; [|apply Hnil; lia].
  destruct Hin as (Hlft & Hpos & Hp). rewrite app_nil_r in Hp. simpl app.
  clear Hnil. fold b in Hlft. set (res := List.filter (inNodes nodes) v).
  assert (Z.of_nat (length res) = a) as Hres by done.
  assert (Z.of_nat (length acc) = b) as Hacc.
  { rewrite (Permutation_length Hp), <- Hb. unfold countZ.
    clear. induction i as [|q i IH]; simpl; [done|].
    destruct (nonempty (f q)); simpl; lia. }
  set (res' := if lft <? Z.of_nat (length res) then _ else _).
  assert (∃ k, res' = take k res ∧ Z.of_nat (length res') = Z.min lft a) as (k & Hk & Hlen).
  { unfold res'. destruct (Z.ltb_spec lft (Z.of_nat (length res))).
    - exists (Z.to_nat lft). split; [done|]. rewrite length_take. lia.
    - exists (length res). split; [by rewrite firstn_all|]. lia. }
  clearbody res'. rewrite u64_small by word. rewrite closest_take_spec by word.
  set (k' := Z.to_nat (lft - Z.of_nat (length res'))).
  set (R := res' ++ concat (take k' acc)).
  assert (Z.of_nat (length (take k' acc)) = Z.max 0 (lft - a)) as Hk'.
  { rewrite length_take. unfold k'. lia. }
  pose proof (validators_left v k R ltac:(fold res; rewrite <- Hk; set_solver)) as Hv.
  pose proof (inner_left f i acc k' R Hok Hp ltac:(set_solver)) as Hi'.
  fold res a in Hv. rewrite <- Hk in Hv.
  split_and!.
  - simpl. fold a b. rewrite (proj2 (Z.leb_le t (a + b))) by lia. unfold R.
    destruct (decide (lft - a ≤ 0)); [apply nonempty_app_l; lia|].
    destruct (take k' acc) as [|w l] eqn:Etk; [simpl in Hk'; lia|].
    assert (nonempty w = true) as Hw.
    { assert (w ∈ acc) as Hw by (apply (subseteq_take k'); rewrite Etk; left).
      rewrite Hp, elem_of_filterb in Hw. tauto. }
    simpl. rewrite (assoc_L (++)). apply nonempty_app_l. rewrite length_app.
    unfold nonempty in Hw. rewrite negb_true_iff, bool_decide_eq_false in Hw. lia.
  - simpl. apply Z.leb_gt. lia.
  - intros n. unfold R. rewrite elem_of_app. intros [Hr|Hr].
    + rewrite Hk in Hr. apply subseteq_take in Hr. unfold res in Hr.
      rewrite elem_of_filterb in Hr. unfold inNodes in Hr. rewrite bool_decide_eq_true in Hr.
      simpl. set_solver.
    + assert (∃ w, w ∈ acc ∧ n ∈ w) as (w & Hw & Hnw).
      { assert (concat (take k' acc) ⊆ concat acc) as Hs.
        { rewrite <- (take_drop k' acc) at 2. rewrite concat_app. set_solver. }
        apply Hs in Hr. clear -Hr. induction acc as [|w acc IH]; simpl in Hr; set_solver. }
      rewrite Hp, elem_of_filterb, list_elem_of_fmap in Hw.
      destruct Hw as [(q & -> & Hq) _]. rewrite Forall_forall in Hok.
      destruct (Hok q Hq) as (_ & _ & Hs). destruct (Hs n Hnw). split; [done|].
      simpl. apply elem_of_app. right. apply elem_of_inner_nodes. eauto.
Qed.
End Closest.

(** ** Weights *)

Lemma computeWeight_spec m total threshold :
  0 < m ≤ UINT64_MAX → 1 ≤ threshold ≤ total → total ≤ UINT64_MAX →
  ∃ w, computeWeight m total threshold = Ok w ∧ 0 < w ≤ m ∧
    (w - 1) * total < m * threshold ≤ w * total.
Proof.
  intros Hm Ht Htot. unfold computeWeight. rewrite (proj2 (Z.leb_le _ _)) by lia.
  rewrite bigDivideU64_eq by word. cbn [fst].
  pose proof (divRound_up_spec (m * threshold) total ltac:(lia)) as Hw.
  set (w := divRound (m * threshold) total ROUND_UP) in *.
  assert (0 < w ≤ m) by nia.
  exists w. rewrite u64_small by word. done.
Qed.

Lemma getNodeWeight_spec q n :
  at_levels slice_ok q →
  ∃ w, getNodeWeight n q = Ok w ∧ in_u64 w ∧ (0 < w ↔ n ∈ qset_nodes q).
Proof.
  induction q as [t v i IH] using qset_ind. intros [[Ht Hn] Hi]%at_levels_QSet.
  simpl. case_bool_decide as Hv.
  { destruct (computeWeight_spec UINT64_MAX (Z.of_nat (length i) + Z.of_nat (length v)) t)
      as (w & -> & Hw & _); [word..|].
    exists w. split_and!; [done|word|]. set_solver by lia. }
  assert (1 ≤ t) as Ht1 by lia.
  assert (t ≤ Z.of_nat (length i) + Z.of_nat (length v) ≤ UINT64_MAX) as Hd by word.
  generalize dependent (Z.of_nat (length i) + Z.of_nat (length v)). intros d Hd. clear Ht Hn.
  assert (∀ P, (n ∈ v ++ concat (map qset_nodes i) ↔ P) ↔
    (n ∈ concat (map qset_nodes i) ↔ P)) as Hnv by (intros; rewrite elem_of_app; tauto).
  enough (∃ w, weight_inner (getNodeWeight n) d t i = Ok w ∧ in_u64 w ∧
    (n ∈ concat (map qset_nodes i) ↔ 0 < w)) as (w & H1 & H2 & H3).
  { exists w. split_and!; [done..|]. symmetry. by apply Hnv. }
  clear Hnv Hv. induction i as [|q i IHi]; simpl.
  { exists 0. split_and!; [done|word|]. rewrite elem_of_nil. lia. }
  apply Forall_cons in IH as [IHq IH], Hi as [Hiq Hi].
  destruct (IHq Hiq) as (w & -> & Hw & Hiff).
  destruct (Z.eqb_spec w 0) as [->|Hw0]; simpl.
  - destruct (IHi IH Hi) as (w' & -> & Hw' & Hiff').
    exists w'. split_and!; [done..|]. rewrite elem_of_app, <- Hiff, Hiff'. lia.
  - destruct (computeWeight_spec w d t) as (w' & -> & Hw' & _); [word|lia..|].
    exists w'. split_and!; [done|word|]. rewrite elem_of_app, <- Hiff. word.
Qed.

(** A callback that never stops sees every node, in the order of [qset_nodes]. *)
Lemma forAllNodes_fold {X} (q : SCPQuorumSet) (f : NodeID → X → X) x :
  forAllNodes q (λ n x, (f n x, true)) x = (foldl (λ x n, f n x) x (qset_nodes q), true).
Proof.
  revert x. induction q as [t v i IH] using qset_ind. intros x. simpl.
  assert (∀ l x, forAll_loop (λ n x, (f n x, true)) l x = (foldl (λ x n, f n x) x l, true)) as ->.
  { intros l. induction l as [|n l IHl]; intros y; simpl; [done|]. by rewrite IHl. }
  rewrite foldl_app. generalize (foldl (λ x n, f n x) x v). clear x v.
  induction IH as [|q i Hq _ IHi]; intros x; simpl; [done|]. by rewrite Hq, IHi, foldl_app.
Qed.

(** ** Properties *)

(** On a sane quorum set, the scan of [isQuorumSlice] with its counter and its
    early returns answers whether at least [threshold] entries are members of
    the node set, or are themselves satisfied by it. *)
Theorem isQuorumSlice_spec q nodes :
  isQuorumSetSane q false = true → isQuorumSlice q nodes = sat (inNodes nodes) q.
Proof.
  intros H%isQuorumSetSane_iff%sane_slice_ok. by apply isQuorumSlice_sat.
Qed.

Lemma isQuorumSlice_spec_witness :
  isQuorumSlice example_qset [9; 3; 7; 8] = sat (inNodes [9; 3; 7; 8]) example_qset.
Proof. apply isQuorumSlice_spec. vm_compute. reflexivity. Defined.

(** C38: duality of blocking sets: [isVBlocking] accepts a set of nodes exactly
    when the set meets every slice of the quorum set. *)
Theorem isVBlocking_meets_every_slice q nodes :
  isQuorumSetSane q false = true →
  isVBlocking q nodes = true ↔
  ∀ slice, isQuorumSlice q slice = true → ∃ n, n ∈ slice ∧ n ∈ nodes.
Proof.
  intros Hs%isQuorumSetSane_iff%sane_slice_ok.
  rewrite isVBlocking_blocked by done.
  set (rest := List.filter (λ n, negb (inNodes nodes n)) (qset_nodes q)).
  rewrite (blocked_compl _ (inNodes rest)).
  2:{ intros n Hn. unfold inNodes at 1, rest.
      destruct (inNodes nodes n) eqn:E; simpl.
      - apply bool_decide_eq_false. rewrite elem_of_filterb, E. naive_solver.
      - apply bool_decide_eq_true. rewrite elem_of_filterb, E. naive_solver. }
  rewrite negb_true_iff. split.
  - intros Hr slice Hsl. rewrite isQuorumSlice_sat in Hsl by done.
    destruct (decide (Exists (λ n, n ∈ nodes) slice)) as [(n & ? & ?)%Exists_exists|Hno].
    { eauto. }
    exfalso. enough (sat (inNodes rest) q = true) by congruence.
    rewrite (sat_ext _ (λ n, inNodes slice n && inNodes (qset_nodes q) n)) in Hsl.
    + eapply sat_mono; [|exact Hsl]. intros n [H1 H2]%andb_true_iff.
      unfold inNodes in *. rewrite !bool_decide_eq_true in *.
      unfold rest. apply elem_of_filterb. split; [done|].
      apply negb_true_iff, bool_decide_eq_false. intros ?. apply Hno, Exists_exists. eauto.
    + intros n Hn. unfold inNodes at 3. rewrite (bool_decide_eq_true_2 (n ∈ _)) by done.
      by rewrite andb_true_r.
  - intros H. destruct (sat (inNodes rest) q) eqn:E; [|done].
    destruct (H rest) as (n & H1 & H2); [by rewrite isQuorumSlice_sat|].
    unfold rest in H1. rewrite elem_of_filterb in H1. destruct H1 as [_ H1].
    rewrite negb_true_iff in H1. unfold inNodes in H1. by rewrite bool_decide_eq_false in H1.
Qed.

Lemma isVBlocking_meets_every_slice_witness :
  isVBlocking (QSet 3 [1; 2; 3; 4] []) [2; 4] = true ↔
  ∀ slice, isQuorumSlice (QSet 3 [1; 2; 3; 4] []) slice = true → ∃ n, n ∈ slice ∧ n ∈ [2; 4].
Proof. apply isVBlocking_meets_every_slice. vm_compute. reflexivity. Defined.

(** C2: [isQuorum] answers whether the nodes whose statement passes the filter
    contain a quorum: a set every member of which announces a quorum set with a
    slice inside the set, and that satisfies the local quorum set.  The
    fixpoint loop always finds it when it exists. *)
Theorem isQuorum_spec qSet (map : EnvMap) qfun filter :
  qset_typed qSet → (∀ st q, qfun st = Some q → qset_typed q) →
  isQuorum qSet map qfun filter = true ↔
  ∃ U, U ⊆ filterNodes map filter ∧
       (∀ n, n ∈ U → ∃ w q, map_find n map = Some w ∧ qfun (getStatement w) = Some q ∧
                            isQuorumSlice q U = true) ∧
       isQuorumSlice qSet U = true.
Proof.
  intros Ht Hq. rewrite isQuorum_iff by done. unfold closed_under_slices, quorumFilter.
  split; intros (U & H1 & H2 & H3); exists U; split_and!; try done; intros n Hn;
    specialize (H2 n Hn).
  - destruct (map_find n map) as [w|]; [|done].
    destruct (qfun (getStatement w)) eqn:E; [|done]. eauto.
  - by destruct H2 as (w & q & -> & -> & ?).
Qed.

Definition example_env (n : NodeID) : SCPEnvelopeWrapper :=
  {| wrapId := n; getEnvelope := {| statement := {| nodeID := n; slotIndex := 1;
       pledges := ST_EXTERNALIZE {| e_commit := mkBallot 1 [n]; e_nH := 1;
                                    e_commitQuorumSetHash := 0 |} |}; signature := 0 |} |}.

Lemma isQuorum_spec_witness :
  isQuorum (QSet 2 [1; 2; 3] []) [(1, example_env 1); (2, example_env 2); (3, example_env 3)]
    (λ _, Some (QSet 2 [1; 2] [])) (λ st, nodeID st <? 3) = true ∧
  ∃ U, U ⊆ filterNodes [(1, example_env 1); (2, example_env 2); (3, example_env 3)]
             (λ st, nodeID st <? 3) ∧
       (∀ n, n ∈ U → ∃ w q,
          map_find n [(1, example_env 1); (2, example_env 2); (3, example_env 3)] = Some w ∧
          Some (QSet 2 [1; 2] []) = Some q ∧ isQuorumSlice q U = true) ∧
       isQuorumSlice (QSet 2 [1; 2; 3] []) U = true.
Proof.
  split; [vm_compute; reflexivity|].
  apply (isQuorum_spec (QSet 2 [1; 2; 3] [])
    [(1, example_env 1); (2, example_env 2); (3, example_env 3)]
    (λ _, Some (QSet 2 [1; 2] [])) (λ st, nodeID st <? 3)).
  - repeat split; vm_compute; congruence.
  - intros st q [= <-]. repeat split; vm_compute; congruence.
  - vm_compute. reflexivity.
Defined.

(** [findClosestVBlocking] on the nodes still available returns the empty set
    exactly when they no longer satisfy the quorum set, and otherwise
    available nodes of the quorum set whose failure leaves it unsatisfied. *)
Theorem findClosestVBlocking_blocks q nodes :
  isQuorumSetSane q false = true →
  (findClosestVBlocking nodes None q = [] ↔ isQuorumSlice q nodes = false) ∧
  isQuorumSlice q (List.filter
    (λ n, negb (inNodes (findClosestVBlocking nodes None q) n)) nodes) = false ∧
  (∀ n, n ∈ findClosestVBlocking nodes None q → n ∈ nodes ∧ n ∈ qset_nodes q).
Proof.
  intros Hs%isQuorumSetSane_iff%sane_slice_ok.
  destruct (findClosest_ok nodes q Hs) as (H1 & H2 & H3). split_and!; [|..|done].
  - rewrite isQuorumSlice_sat, <- H1 by done. unfold nonempty.
    rewrite negb_false_iff, bool_decide_eq_true. by rewrite length_zero_iff_nil.
  - rewrite isQuorumSlice_sat by done. rewrite <- H2. apply sat_ext. intros n _.
    unfold without, inNodes at 1.
    apply eq_bool_prop_intro. rewrite andb_True, negb_True, !bool_decide_spec, elem_of_filterb.
    unfold inNodes. rewrite negb_true_iff, bool_decide_eq_false. done.
Qed.

Lemma findClosestVBlocking_blocks_witness :
  findClosestVBlocking [1; 2; 3; 7] None example_qset = [3; 1] ∧
  isQuorumSlice example_qset (List.filter
    (λ n, negb (inNodes (findClosestVBlocking [1; 2; 3; 7] None example_qset) n))
    [1; 2; 3; 7]) = false.
Proof.
  split; [vm_compute; reflexivity|].
  apply findClosestVBlocking_blocks. vm_compute. reflexivity.
Defined.

(** In a sane quorum set [getNodeWeight] never trips its assertion and never
    overflows, and a node has a positive weight exactly when the set mentions it. *)
Theorem getNodeWeight_positive q n :
  isQuorumSetSane q false = true →
  ∃ w, getNodeWeight n q = Ok w ∧ 0 ≤ w ≤ UINT64_MAX ∧ (0 < w ↔ n ∈ qset_nodes q).
Proof.
  intros H%isQuorumSetSane_iff%sane_slice_ok. by apply getNodeWeight_spec.
Qed.

Lemma getNodeWeight_positive_witness :
  ∃ w, getNodeWeight 4 example_qset = Ok w ∧ 0 ≤ w ≤ UINT64_MAX ∧
    (0 < w ↔ 4 ∈ qset_nodes example_qset).
Proof. apply getNodeWeight_positive. vm_compute. reflexivity. Defined.
