(* ===== verification/Ballots.v ===== *)
(** * Ballots and ballot statements (the static helpers of src/scp/BallotProtocol.cpp)

    The order of ballots and of statements, the predicates that statements are
    counted by, and the sanity rules.  In the source, the [default] branch of a
    switch over the statement type aborts: it is reached only by a nomination,
    which [Slot::processEnvelope] never passes to this code. *)

From stdpp Require Import prelude list.
From Stdlib Require Import ZArith Lia.
From S2P Require Import Prelude QuorumSet ScpTypes LocalNode.
Local Open Scope Z_scope.

(** The order of opaque values, [std::vector::operator<]. *)
Definition compareValues (v1 v2 : Value) : Z := intLexicographicalCompare Zcmp v1 v2.

Definition compareBallots (b1 b2 : SCPBallot) : Z :=
  if counter b1 <? counter b2 then -1
  else if counter b2 <? counter b1 then 1
  (* ballots are also strictly ordered by value *)
  else if compareValues (value b1) (value b2) <? 0 then -1
  else if compareValues (value b2) (value b1) <? 0 then 1
  else 0.

(** The overload on [std::unique_ptr<SCPBallot>]. *)
Definition compareBallotPtrs (b1 b2 : option SCPBallot) : Z :=
  match b1, b2 with
  | Some b1, Some b2 => compareBallots b1 b2
  | Some _, None => 1
  | None, Some _ => -1
  | None, None => 0
  end.

Definition areBallotsCompatible (b1 b2 : SCPBallot) : bool :=
  bool_decide (value b1 = value b2).

Definition areBallotsLessAndIncompatible (b1 b2 : SCPBallot) : bool :=
  (compareBallots b1 b2 <=? 0) && negb (areBallotsCompatible b1 b2).

Definition areBallotsLessAndCompatible (b1 b2 : SCPBallot) : bool :=
  (compareBallots b1 b2 <=? 0) && areBallotsCompatible b1 b2.

(** ** The order of statements *)

Definition isNewerStatement (oldst st : SCPStatement) : bool :=
  let t := pledges_type (pledges st) in
  let oldt := pledges_type (pledges oldst) in
  (* statement type (PREPARE < CONFIRM < EXTERNALIZE) *)
  if bool_decide (oldt ≠ t) then type_index oldt <? type_index t
  else
    match pledges oldst, pledges st with
    (* can't have duplicate EXTERNALIZE statements *)
    | ST_EXTERNALIZE _, ST_EXTERNALIZE _ => false
    | ST_CONFIRM oldC, ST_CONFIRM c =>
        (* sorted by (b, p, p', h) (p' = 0 implicitely) *)
        let compBallot := compareBallots (c_ballot oldC) (c_ballot c) in
        if compBallot <? 0 then true
        else if compBallot =? 0 then
          if c_nPrepared oldC =? c_nPrepared c then c_nH oldC <? c_nH c
          else c_nPrepared oldC <? c_nPrepared c
        else false
    | ST_PREPARE oldPrep, ST_PREPARE prep =>
        (* Lexicographical order between PREPARE statements: (b, p, p', h) *)
        let compBallot := compareBallots (p_ballot oldPrep) (p_ballot prep) in
        if compBallot <? 0 then true
        else if compBallot =? 0 then
          let compBallot := compareBallotPtrs (p_prepared oldPrep) (p_prepared prep) in
          if compBallot <? 0 then true
          else if compBallot =? 0 then
            let compBallot :=
              compareBallotPtrs (p_preparedPrime oldPrep) (p_preparedPrime prep) in
            if compBallot <? 0 then true
            else if compBallot =? 0 then p_nH oldPrep <? p_nH prep
            else false
          else false
        else false
    | _, _ => false (* nominations: not ballot statements *)
    end.

(** ** Statement predicates *)

Definition hasPreparedBallot (ballot : SCPBallot) (st : SCPStatement) : bool :=
  match pledges st with
  | ST_PREPARE p =>
      (match p_prepared p with
       | Some prepared => areBallotsLessAndCompatible ballot prepared
       | None => false
       end) ||
      (match p_preparedPrime p with
       | Some preparedPrime => areBallotsLessAndCompatible ballot preparedPrime
       | None => false
       end)
  | ST_CONFIRM c =>
      areBallotsLessAndCompatible ballot (mkBallot (c_nPrepared c) (value (c_ballot c)))
  | ST_EXTERNALIZE e => areBallotsCompatible ballot (e_commit e)
  | ST_NOMINATE _ => false
  end.

(** The first lambda of [attemptAcceptPrepared]: is the node voting for the
    ballot? *)
Definition votesForPrepared (ballot : SCPBallot) (st : SCPStatement) : bool :=
  match pledges st with
  | ST_PREPARE p => areBallotsLessAndCompatible ballot (p_ballot p)
  | ST_CONFIRM c => areBallotsCompatible ballot (c_ballot c)
  | ST_EXTERNALIZE e => areBallotsCompatible ballot (e_commit e)
  | ST_NOMINATE _ => false
  end.

(** [Interval]: the pair of a low and a high counter. *)
Notation Interval := (Z * Z)%type (only parsing).

(** The lambda of [attemptAcceptCommit]: does the node vote to commit? *)
Definition votesForCommit (ballot : SCPBallot) (cur : Interval) (st : SCPStatement) : bool :=
  match pledges st with
  | ST_PREPARE p =>
      if areBallotsCompatible ballot (p_ballot p) then
        if negb (p_nC p =? 0) then (p_nC p <=? cur.1) && (cur.2 <=? p_nH p) else false
      else false
  | ST_CONFIRM c =>
      if areBallotsCompatible ballot (c_ballot c) then c_nCommit c <=? cur.1 else false
  | ST_EXTERNALIZE e =>
      if areBallotsCompatible ballot (e_commit e) then counter (e_commit e) <=? cur.1
      else false
  | ST_NOMINATE _ => false
  end.

Definition commitPredicate (ballot : SCPBallot) (check : Interval) (st : SCPStatement) : bool :=
  match pledges st with
  | ST_PREPARE _ => false
  | ST_CONFIRM c =>
      if areBallotsCompatible ballot (c_ballot c)
      then (c_nCommit c <=? check.1) && (check.2 <=? c_nH c) else false
  | ST_EXTERNALIZE e =>
      if areBallotsCompatible ballot (e_commit e)
      then counter (e_commit e) <=? check.1 else false
  | ST_NOMINATE _ => false
  end.

Definition getWorkingBallot (st : SCPStatement) : SCPBallot :=
  match pledges st with
  | ST_PREPARE p => p_ballot p
  | ST_CONFIRM c => mkBallot (c_nCommit c) (value (c_ballot c))
  | ST_EXTERNALIZE e => e_commit e
  | ST_NOMINATE _ => nullBallot
  end.

Definition statementBallotCounter (st : SCPStatement) : Z :=
  match pledges st with
  | ST_PREPARE p => counter (p_ballot p)
  | ST_CONFIRM c => counter (c_ballot c)
  | ST_EXTERNALIZE _ => UINT32_MAX
  | ST_NOMINATE _ => 0
  end.

(** [std::set<Value> getStatementValues(SCPStatement const& st)] *)
Definition getStatementValues (st : SCPStatement) : list Value :=
  match pledges st with
  | ST_PREPARE p =>
      let s := if negb (counter (p_ballot p) =? 0)
               then set_insert compareValues (value (p_ballot p)) [] else [] in
      let s := match p_prepared p with
               | Some b => set_insert compareValues (value b) s
               | None => s end in
      match p_preparedPrime p with
      | Some b => set_insert compareValues (value b) s
      | None => s
      end
  | ST_CONFIRM c => [value (c_ballot c)]
  | ST_EXTERNALIZE e => [value (e_commit e)]
  | ST_NOMINATE _ => []
  end.

Definition getCompanionQuorumSetHashFromStatement (st : SCPStatement) : Hash :=
  match pledges st with
  | ST_PREPARE p => p_quorumSetHash p
  | ST_CONFIRM c => c_quorumSetHash c
  | ST_EXTERNALIZE e => e_commitQuorumSetHash e
  | ST_NOMINATE n => n_quorumSetHash n
  end.

(** [Slot::getQuorumSetFromStatement] *)
Definition getQuorumSetFromStatement {D : SCPDriver} (st : SCPStatement)
  : option SCPQuorumSet :=
  match pledges st with
  | ST_EXTERNALIZE _ => Some (getSingletonQSet (nodeID st))
  | ST_PREPARE p => getQSet (p_quorumSetHash p)
  | ST_CONFIRM c => getQSet (c_quorumSetHash c)
  | ST_NOMINATE n => getQSet (n_quorumSetHash n)
  end.

Definition optb {A} (o : option A) : bool := match o with Some _ => true | None => false end.

Definition isStatementSane {D : SCPDriver} (st : SCPStatement) (self : bool) : bool :=
  match getQuorumSetFromStatement st with
  | None => false
  | Some qSet =>
      if negb (isQuorumSetSane qSet false) then false
      else
        match pledges st with
        | ST_PREPARE p =>
            (* self is allowed to have b = 0 (as long as it never gets emitted) *)
            (self || (0 <? counter (p_ballot p))) &&
            (match p_preparedPrime p, p_prepared p with
             | Some p', Some p => areBallotsLessAndIncompatible p' p
             | _, _ => true
             end) &&
            ((p_nH p =? 0) ||
             match p_prepared p with
             | Some prepared => p_nH p <=? counter prepared
             | None => false
             end) &&
            (* c != 0 -> c <= h <= b *)
            ((p_nC p =? 0) ||
             (negb (p_nH p =? 0) && (p_nH p <=? counter (p_ballot p)) && (p_nC p <=? p_nH p)))
        | ST_CONFIRM c =>
            (* c <= h <= b *)
            (0 <? counter (c_ballot c)) && (c_nH c <=? counter (c_ballot c)) &&
            (c_nCommit c <=? c_nH c)
        | ST_EXTERNALIZE e =>
            (0 <? counter (e_commit e)) && (counter (e_commit e) <=? e_nH e)
        | ST_NOMINATE _ => false
        end
  end.

(** * Theorems *)

#[export] Instance compareValues_ok : CmpOk compareValues.
Proof. exact (lex_ok Zcmp). Qed.

#[export] Instance compareBallots_ok : CmpOk compareBallots.
Proof.
  assert (∀ b1 b2, compareBallots b1 b2 < 0 ↔
    counter b1 < counter b2 ∨
    counter b1 = counter b2 ∧ compareValues (value b1) (value b2) < 0) as Hlt.
  { intros. unfold compareBallots. zcases; lia. }
  assert (∀ b1 b2, compareBallots b2 b1 = - compareBallots b1 b2) as Hopp.
  { intros. unfold compareBallots.
    pose proof (cmp_flip compareValues (value b1) (value b2)). zcases; lia. }
  split; [|done|].
  - intros [c1 v1] [c2 v2].
    pose proof (Hlt (mkBallot c1 v1) (mkBallot c2 v2)) as L1.
    pose proof (Hlt (mkBallot c2 v2) (mkBallot c1 v1)) as L2.
    rewrite (Hopp (mkBallot c1 v1)) in L2. simpl in *.
    pose proof (cmp_opp compareValues v1 v2) as O.
    split.
    + intros H. assert (c1 = c2) as -> by lia. f_equal. apply (cmp_eq compareValues). lia.
    + intros [= -> ->]. pose proof (cmp_refl compareValues v2). lia.
  - intros b1 b2 b3. rewrite !Hlt.
    pose proof (cmp_lt_trans compareValues (value b1) (value b2) (value b3)). lia.
Qed.

Lemma compareBallots_counter b1 b2 : compareBallots b1 b2 ≤ 0 → counter b1 ≤ counter b2.
Proof. unfold compareBallots. zcases; lia. Qed.

Lemma compareBallots_lt_counter b1 b2 : counter b1 < counter b2 → compareBallots b1 b2 < 0.
Proof. intros. unfold compareBallots. zcases; lia. Qed.

Lemma compareBallots_same_value b1 b2 :
  value b1 = value b2 → (compareBallots b1 b2 ≤ 0 ↔ counter b1 ≤ counter b2).
Proof.
  intros E. unfold compareBallots. rewrite E.
  pose proof (cmp_refl compareValues (value b2)). zcases; lia.
Qed.

Lemma compatible_iff b1 b2 : areBallotsCompatible b1 b2 = true ↔ value b1 = value b2.
Proof. apply bool_decide_eq_true. Qed.

Lemma lessCompatible_iff b1 b2 :
  areBallotsLessAndCompatible b1 b2 = true ↔
  value b1 = value b2 ∧ counter b1 ≤ counter b2.
Proof.
  unfold areBallotsLessAndCompatible. rewrite andb_true_iff, compatible_iff, Z.leb_le.
  split; intros [H1 H2]; split; try done; by apply compareBallots_same_value.
Qed.

Lemma lessIncompatible_iff b1 b2 :
  areBallotsLessAndIncompatible b1 b2 = true ↔
  value b1 ≠ value b2 ∧ compareBallots b1 b2 < 0.
Proof.
  unfold areBallotsLessAndIncompatible, areBallotsCompatible.
  rewrite andb_true_iff, negb_true_iff, bool_decide_eq_false, Z.leb_le.
  split; intros [H1 H2]; split; try done; [|lia].
  destruct (decide (compareBallots b1 b2 = 0)) as [->%(cmp_eq compareBallots)|]; [done|lia].
Qed.

(** ** [isNewerStatement] is a strict order

    Ballot statements are ordered by this key, lexicographically. *)

Definition is_ballot_statement (st : SCPStatement) : Prop :=
  pledges_type (pledges st) ≠ SCP_ST_NOMINATE.

Definition statement_key (st : SCPStatement) :
  Z * (SCPBallot * (option SCPBallot * (option SCPBallot * Z))) :=
  (type_index (pledges_type (pledges st)),
   match pledges st with
   | ST_PREPARE p => (p_ballot p, (p_prepared p, (p_preparedPrime p, p_nH p)))
   | ST_CONFIRM c => (c_ballot c, (Some (mkBallot (c_nPrepared c) []), (None, c_nH c)))
   | _ => (nullBallot, (None, (None, 0)))
   end).

Definition compareKeys :=
  pairCmp Zcmp (pairCmp compareBallots
    (pairCmp (optionCmp compareBallots) (pairCmp (optionCmp compareBallots) Zcmp))).

#[export] Instance compareKeys_ok : CmpOk compareKeys.
Proof. unfold compareKeys. apply _. Qed.

Lemma Zcmp_lt x y : Zcmp x y < 0 ↔ x < y.
Proof. unfold Zcmp. zcases; lia. Qed.

Lemma ltb_Zcmp x y : (x <? y) = (Zcmp x y <? 0).
Proof.
  unfold Zcmp. destruct (Z.ltb_spec x y), (Z.ltb_spec y x); done || lia.
Qed.

Lemma eqb_Zcmp x y : (x =? y) = (Zcmp x y =? 0).
Proof.
  unfold Zcmp. destruct (Z.ltb_spec x y), (Z.ltb_spec y x), (Z.eqb_spec x y); done || lia.
Qed.

Lemma isNewerStatement_key oldst st :
  is_ballot_statement oldst →
  isNewerStatement oldst st = (compareKeys (statement_key oldst) (statement_key st) <? 0).
Proof.
  unfold isNewerStatement, compareKeys, pairCmp, statement_key, is_ballot_statement.
  intros Hb. change compareBallotPtrs with (@optionCmp SCPBallot compareBallots).
  destruct (pledges oldst) as [p|c|e|n], (pledges st) as [p'|c'|e'|n']; simpl in *; try done.
  - rewrite (ltb_Zcmp (p_nH p)). zcases; done || lia.
  - assert (∀ m n, compareBallots (mkBallot m []) (mkBallot n []) = Zcmp m n) as ->
      by (intros; reflexivity).
    rewrite (ltb_Zcmp (c_nH c)), (ltb_Zcmp (c_nPrepared c)), (eqb_Zcmp (c_nPrepared c)).
    zcases; done || lia.
Qed.

Lemma isNewerStatement_irrefl st : isNewerStatement st st = false.
Proof.
  destruct (pledges st) as [p|c|e|n] eqn:E;
    try (rewrite isNewerStatement_key by (unfold is_ballot_statement; by rewrite E);
         by rewrite (cmp_refl compareKeys)).
  unfold isNewerStatement. rewrite bool_decide_eq_false_2 by tauto. by rewrite E.
Qed.

(** ** Properties *)

(** [isNewerStatement] is a strict weak order on ballot statements: nothing is
    newer than itself, the order is transitive, and two statements of which
    neither is newer have the same type and the same fields that count. *)
Theorem isNewerStatement_strict_order st1 st2 st3 :
  is_ballot_statement st1 → is_ballot_statement st2 →
  isNewerStatement st1 st1 = false ∧
  (isNewerStatement st1 st2 = true → isNewerStatement st2 st3 = true →
     isNewerStatement st1 st3 = true) ∧
  (isNewerStatement st1 st2 = true → isNewerStatement st2 st1 = false) ∧
  (isNewerStatement st1 st2 = false → isNewerStatement st2 st1 = false →
     statement_key st1 = statement_key st2).
Proof.
  intros H1 H2. split; [apply isNewerStatement_irrefl|].
  rewrite !isNewerStatement_key by done. rewrite !Z.ltb_lt, !Z.ltb_ge. split_and!.
  - apply (cmp_lt_trans compareKeys).
  - intros ?%(cmp_flip compareKeys). lia.
  - intros Ha Hb. apply (cmp_eq compareKeys). pose proof (cmp_opp compareKeys (statement_key st1) (statement_key st2)). lia.
Qed.

Lemma isNewerStatement_strict_order_witness :
  let st n b := {| nodeID := 1; slotIndex := 1; pledges := ST_PREPARE
    {| p_quorumSetHash := 0; p_ballot := mkBallot n [b]; p_prepared := None;
       p_preparedPrime := None; p_nC := 0; p_nH := 0 |} |} in
  isNewerStatement (st 1 4) (st 2 3) = true ∧ isNewerStatement (st 2 3) (st 1 4) = false.
Proof.
  intros st. split; [vm_compute; reflexivity|].
  apply (isNewerStatement_strict_order (st 1 4) (st 2 3) (st 1 4)); vm_compute; congruence.
Defined.
