(* ===== verification/Slot.v ===== *)
(** * Slot state and federated voting (src/scp/Slot.cpp, the members of BallotProtocol.h
    and NominationProtocol.h)

    A [Slot] owns the ballot protocol, the nomination protocol and the record of
    statements.  Calls to the driver that only inform the application are kept in
    order in [mDriverCalls].  The handlers of the two protocols run in the monad
    [Slot -> outcome]; this file holds the state and the operations both
    protocols share. *)

From stdpp Require Import prelude list.
From Stdlib Require Import ZArith Lia.
From S2P Require Import Prelude QuorumSet ScpTypes LocalNode Ballots.
Local Open Scope Z_scope.

Inductive SCPPhase : Type :=
| SCP_PHASE_PREPARE | SCP_PHASE_CONFIRM | SCP_PHASE_EXTERNALIZE.

#[export] Instance SCPPhase_eq_dec : EqDecision SCPPhase.
Proof. solve_decision. Defined.

(** The members of class [BallotProtocol].  A ballot wrapper holds the ballot
    and its value twice; [option SCPBallot] keeps it once. *)
Record BallotProtocol : Type := {
  mHeardFromQuorum : bool;
  mCurrentBallot : option SCPBallot;
  mPrepared : option SCPBallot;
  mPreparedPrime : option SCPBallot;
  mHighBallot : option SCPBallot;
  mCommit : option SCPBallot;
  mLatestEnvelopes : EnvMap;
  mPhase : SCPPhase;
  mValueOverride : option Value;
  mCurrentMessageLevel : Z;
  mLastEnvelope : option SCPEnvelopeWrapper;
  mLastEnvelopeEmit : option SCPEnvelopeWrapper
}.

(** The members of class [NominationProtocol]; [mLastNomination] is its
    [mLastEnvelope]. *)
Record NominationProtocol : Type := {
  mRoundNumber : Z;
  mVotes : list Value;
  mAccepted : list Value;
  mCandidates : list Value;
  mLatestNominations : EnvMap;
  mLastNomination : option SCPEnvelopeWrapper;
  mRoundLeaders : list NodeID;
  mNominationStarted : bool;
  mLatestCompositeCandidate : option Value;
  mPreviousValue : Value
}.

(** Timers of [Slot::timerIDs]. *)
Inductive TimerID : Type := NOMINATION_TIMER | BALLOT_PROTOCOL_TIMER.

(** What the application is told.  [setupTimer] carries the timeout in seconds,
    or [None] when the timer is cancelled. *)
Inductive DriverCall : Type :=
| emitEnvelope (e : SCPEnvelope)
| startedBallotProtocol (b : SCPBallot)
| acceptedBallotPrepared (b : SCPBallot)
| confirmedBallotPrepared (b : SCPBallot)
| acceptedCommit (b : SCPBallot)
| valueExternalized (v : Value)
| ballotDidHearFromQuorum (b : SCPBallot)
| nominatingValue (v : Value)
| updatedCandidateValue (v : Value)
| setupTimer (id : TimerID) (timeout : option Z).

(** The members of class [Slot], with the calls made to the driver and the
    number of envelope wrappers allocated so far. *)
Record Slot : Type := {
  mSlotIndex : Z;
  mBallotProtocol : BallotProtocol;
  mNominationProtocol : NominationProtocol;
  mStatementsHistory : list (SCPStatement * bool);
  mFullyValidated : bool;
  mGotVBlocking : bool;
  mDriverCalls : list DriverCall;
  mWrapCount : Z
}.

(** Assignment to each member. *)
Definition set_mHeardFromQuorum (x : bool) (r : BallotProtocol) : BallotProtocol :=
  {|
     mHeardFromQuorum := x; mCurrentBallot := mCurrentBallot r; mPrepared :=
     mPrepared r; mPreparedPrime := mPreparedPrime r; mHighBallot := mHighBallot r;
     mCommit := mCommit r; mLatestEnvelopes := mLatestEnvelopes r; mPhase := mPhase
     r; mValueOverride := mValueOverride r; mCurrentMessageLevel :=
     mCurrentMessageLevel r; mLastEnvelope := mLastEnvelope r; mLastEnvelopeEmit :=
     mLastEnvelopeEmit r
  |}.
Definition set_mCurrentBallot (x : option SCPBallot) (r : BallotProtocol) : BallotProtocol :=
  {|
     mHeardFromQuorum := mHeardFromQuorum r; mCurrentBallot := x; mPrepared :=
     mPrepared r; mPreparedPrime := mPreparedPrime r; mHighBallot := mHighBallot r;
     mCommit := mCommit r; mLatestEnvelopes := mLatestEnvelopes r; mPhase := mPhase
     r; mValueOverride := mValueOverride r; mCurrentMessageLevel :=
     mCurrentMessageLevel r; mLastEnvelope := mLastEnvelope r; mLastEnvelopeEmit :=
     mLastEnvelopeEmit r
  |}.
Definition set_mPrepared (x : option SCPBallot) (r : BallotProtocol) : BallotProtocol :=
  {|
     mHeardFromQuorum := mHeardFromQuorum r; mCurrentBallot := mCurrentBallot r;
     mPrepared := x; mPreparedPrime := mPreparedPrime r; mHighBallot := mHighBallot
     r; mCommit := mCommit r; mLatestEnvelopes := mLatestEnvelopes r; mPhase :=
     mPhase r; mValueOverride := mValueOverride r; mCurrentMessageLevel :=
     mCurrentMessageLevel r; mLastEnvelope := mLastEnvelope r; mLastEnvelopeEmit :=
     mLastEnvelopeEmit r
  |}.
Definition set_mPreparedPrime (x : option SCPBallot) (r : BallotProtocol) : BallotProtocol :=
  {|
     mHeardFromQuorum := mHeardFromQuorum r; mCurrentBallot := mCurrentBallot r;
     mPrepared := mPrepared r; mPreparedPrime := x; mHighBallot := mHighBallot r;
     mCommit := mCommit r; mLatestEnvelopes := mLatestEnvelopes r; mPhase := mPhase
     r; mValueOverride := mValueOverride r; mCurrentMessageLevel :=
     mCurrentMessageLevel r; mLastEnvelope := mLastEnvelope r; mLastEnvelopeEmit :=
     mLastEnvelopeEmit r
  |}.
Definition set_mHighBallot (x : option SCPBallot) (r : BallotProtocol) : BallotProtocol :=
  {|
     mHeardFromQuorum := mHeardFromQuorum r; mCurrentBallot := mCurrentBallot r;
     mPrepared := mPrepared r; mPreparedPrime := mPreparedPrime r; mHighBallot := x;
     mCommit := mCommit r; mLatestEnvelopes := mLatestEnvelopes r; mPhase := mPhase
     r; mValueOverride := mValueOverride r; mCurrentMessageLevel :=
     mCurrentMessageLevel r; mLastEnvelope := mLastEnvelope r; mLastEnvelopeEmit :=
     mLastEnvelopeEmit r
  |}.
Definition set_mCommit (x : option SCPBallot) (r : BallotProtocol) : BallotProtocol :=
  {|
     mHeardFromQuorum := mHeardFromQuorum r; mCurrentBallot := mCurrentBallot r;
     mPrepared := mPrepared r; mPreparedPrime := mPreparedPrime r; mHighBallot :=
     mHighBallot r; mCommit := x; mLatestEnvelopes := mLatestEnvelopes r; mPhase :=
     mPhase r; mValueOverride := mValueOverride r; mCurrentMessageLevel :=
     mCurrentMessageLevel r; mLastEnvelope := mLastEnvelope r; mLastEnvelopeEmit :=
     mLastEnvelopeEmit r
  |}.
Definition set_mLatestEnvelopes (x : EnvMap) (r : BallotProtocol) : BallotProtocol :=
  {|
     mHeardFromQuorum := mHeardFromQuorum r; mCurrentBallot := mCurrentBallot r;
     mPrepared := mPrepared r; mPreparedPrime := mPreparedPrime r; mHighBallot :=
     mHighBallot r; mCommit := mCommit r; mLatestEnvelopes := x; mPhase := mPhase r;
     mValueOverride := mValueOverride r; mCurrentMessageLevel :=
     mCurrentMessageLevel r; mLastEnvelope := mLastEnvelope r; mLastEnvelopeEmit :=
     mLastEnvelopeEmit r
  |}.
Definition set_mPhase (x : SCPPhase) (r : BallotProtocol) : BallotProtocol :=
  {|
     mHeardFromQuorum := mHeardFromQuorum r; mCurrentBallot := mCurrentBallot r;
     mPrepared := mPrepared r; mPreparedPrime := mPreparedPrime r; mHighBallot :=
     mHighBallot r; mCommit := mCommit r; mLatestEnvelopes := mLatestEnvelopes r;
     mPhase := x; mValueOverride := mValueOverride r; mCurrentMessageLevel :=
     mCurrentMessageLevel r; mLastEnvelope := mLastEnvelope r; mLastEnvelopeEmit :=
     mLastEnvelopeEmit r
  |}.
Definition set_mValueOverride (x : option Value) (r : BallotProtocol) : BallotProtocol :=
  {|
     mHeardFromQuorum := mHeardFromQuorum r; mCurrentBallot := mCurrentBallot r;
     mPrepared := mPrepared r; mPreparedPrime := mPreparedPrime r; mHighBallot :=
     mHighBallot r; mCommit := mCommit r; mLatestEnvelopes := mLatestEnvelopes r;
     mPhase := mPhase r; mValueOverride := x; mCurrentMessageLevel :=
     mCurrentMessageLevel r; mLastEnvelope := mLastEnvelope r; mLastEnvelopeEmit :=
     mLastEnvelopeEmit r
  |}.
Definition set_mCurrentMessageLevel (x : Z) (r : BallotProtocol) : BallotProtocol :=
  {|
     mHeardFromQuorum := mHeardFromQuorum r; mCurrentBallot := mCurrentBallot r;
     mPrepared := mPrepared r; mPreparedPrime := mPreparedPrime r; mHighBallot :=
     mHighBallot r; mCommit := mCommit r; mLatestEnvelopes := mLatestEnvelopes r;
     mPhase := mPhase r; mValueOverride := mValueOverride r; mCurrentMessageLevel :=
     x; mLastEnvelope := mLastEnvelope r; mLastEnvelopeEmit := mLastEnvelopeEmit r
  |}.
Definition set_mLastEnvelope (x : option SCPEnvelopeWrapper) (r : BallotProtocol) : BallotProtocol :=
  {|
     mHeardFromQuorum := mHeardFromQuorum r; mCurrentBallot := mCurrentBallot r;
     mPrepared := mPrepared r; mPreparedPrime := mPreparedPrime r; mHighBallot :=
     mHighBallot r; mCommit := mCommit r; mLatestEnvelopes := mLatestEnvelopes r;
     mPhase := mPhase r; mValueOverride := mValueOverride r; mCurrentMessageLevel :=
     mCurrentMessageLevel r; mLastEnvelope := x; mLastEnvelopeEmit :=
     mLastEnvelopeEmit r
  |}.
Definition set_mLastEnvelopeEmit (x : option SCPEnvelopeWrapper) (r : BallotProtocol) : BallotProtocol :=
  {|
     mHeardFromQuorum := mHeardFromQuorum r; mCurrentBallot := mCurrentBallot r;
     mPrepared := mPrepared r; mPreparedPrime := mPreparedPrime r; mHighBallot :=
     mHighBallot r; mCommit := mCommit r; mLatestEnvelopes := mLatestEnvelopes r;
     mPhase := mPhase r; mValueOverride := mValueOverride r; mCurrentMessageLevel :=
     mCurrentMessageLevel r; mLastEnvelope := mLastEnvelope r; mLastEnvelopeEmit :=
     x
  |}.

Definition set_mRoundNumber (x : Z) (r : NominationProtocol) : NominationProtocol :=
  {|
     mRoundNumber := x; mVotes := mVotes r; mAccepted := mAccepted r; mCandidates :=
     mCandidates r; mLatestNominations := mLatestNominations r; mLastNomination :=
     mLastNomination r; mRoundLeaders := mRoundLeaders r; mNominationStarted :=
     mNominationStarted r; mLatestCompositeCandidate := mLatestCompositeCandidate r;
     mPreviousValue := mPreviousValue r
  |}.
Definition set_mVotes (x : list Value) (r : NominationProtocol) : NominationProtocol :=
  {|
     mRoundNumber := mRoundNumber r; mVotes := x; mAccepted := mAccepted r;
     mCandidates := mCandidates r; mLatestNominations := mLatestNominations r;
     mLastNomination := mLastNomination r; mRoundLeaders := mRoundLeaders r;
     mNominationStarted := mNominationStarted r; mLatestCompositeCandidate :=
     mLatestCompositeCandidate r; mPreviousValue := mPreviousValue r
  |}.
Definition set_mAccepted (x : list Value) (r : NominationProtocol) : NominationProtocol :=
  {|
     mRoundNumber := mRoundNumber r; mVotes := mVotes r; mAccepted := x; mCandidates
     := mCandidates r; mLatestNominations := mLatestNominations r; mLastNomination
     := mLastNomination r; mRoundLeaders := mRoundLeaders r; mNominationStarted :=
     mNominationStarted r; mLatestCompositeCandidate := mLatestCompositeCandidate r;
     mPreviousValue := mPreviousValue r
  |}.
Definition set_mCandidates (x : list Value) (r : NominationProtocol) : NominationProtocol :=
  {|
     mRoundNumber := mRoundNumber r; mVotes := mVotes r; mAccepted := mAccepted r;
     mCandidates := x; mLatestNominations := mLatestNominations r; mLastNomination
     := mLastNomination r; mRoundLeaders := mRoundLeaders r; mNominationStarted :=
     mNominationStarted r; mLatestCompositeCandidate := mLatestCompositeCandidate r;
     mPreviousValue := mPreviousValue r
  |}.
Definition set_mLatestNominations (x : EnvMap) (r : NominationProtocol) : NominationProtocol :=
  {|
     mRoundNumber := mRoundNumber r; mVotes := mVotes r; mAccepted := mAccepted r;
     mCandidates := mCandidates r; mLatestNominations := x; mLastNomination :=
     mLastNomination r; mRoundLeaders := mRoundLeaders r; mNominationStarted :=
     mNominationStarted r; mLatestCompositeCandidate := mLatestCompositeCandidate r;
     mPreviousValue := mPreviousValue r
  |}.
Definition set_mLastNomination (x : option SCPEnvelopeWrapper) (r : NominationProtocol) : NominationProtocol :=
  {|
     mRoundNumber := mRoundNumber r; mVotes := mVotes r; mAccepted := mAccepted r;
     mCandidates := mCandidates r; mLatestNominations := mLatestNominations r;
     mLastNomination := x; mRoundLeaders := mRoundLeaders r; mNominationStarted :=
     mNominationStarted r; mLatestCompositeCandidate := mLatestCompositeCandidate r;
     mPreviousValue := mPreviousValue r
  |}.
Definition set_mRoundLeaders (x : list NodeID) (r : NominationProtocol) : NominationProtocol :=
  {|
     mRoundNumber := mRoundNumber r; mVotes := mVotes r; mAccepted := mAccepted r;
     mCandidates := mCandidates r; mLatestNominations := mLatestNominations r;
     mLastNomination := mLastNomination r; mRoundLeaders := x; mNominationStarted :=
     mNominationStarted r; mLatestCompositeCandidate := mLatestCompositeCandidate r;
     mPreviousValue := mPreviousValue r
  |}.
Definition set_mNominationStarted (x : bool) (r : NominationProtocol) : NominationProtocol :=
  {|
     mRoundNumber := mRoundNumber r; mVotes := mVotes r; mAccepted := mAccepted r;
     mCandidates := mCandidates r; mLatestNominations := mLatestNominations r;
     mLastNomination := mLastNomination r; mRoundLeaders := mRoundLeaders r;
     mNominationStarted := x; mLatestCompositeCandidate := mLatestCompositeCandidate
     r; mPreviousValue := mPreviousValue r
  |}.
Definition set_mLatestCompositeCandidate (x : option Value) (r : NominationProtocol) : NominationProtocol :=
  {|
     mRoundNumber := mRoundNumber r; mVotes := mVotes r; mAccepted := mAccepted r;
     mCandidates := mCandidates r; mLatestNominations := mLatestNominations r;
     mLastNomination := mLastNomination r; mRoundLeaders := mRoundLeaders r;
     mNominationStarted := mNominationStarted r; mLatestCompositeCandidate := x;
     mPreviousValue := mPreviousValue r
  |}.
Definition set_mPreviousValue (x : Value) (r : NominationProtocol) : NominationProtocol :=
  {|
     mRoundNumber := mRoundNumber r; mVotes := mVotes r; mAccepted := mAccepted r;
     mCandidates := mCandidates r; mLatestNominations := mLatestNominations r;
     mLastNomination := mLastNomination r; mRoundLeaders := mRoundLeaders r;
     mNominationStarted := mNominationStarted r; mLatestCompositeCandidate :=
     mLatestCompositeCandidate r; mPreviousValue := x
  |}.

Definition set_mBallotProtocol (x : BallotProtocol) (r : Slot) : Slot :=
  {|
     mSlotIndex := mSlotIndex r; mBallotProtocol := x; mNominationProtocol :=
     mNominationProtocol r; mStatementsHistory := mStatementsHistory r;
     mFullyValidated := mFullyValidated r; mGotVBlocking := mGotVBlocking r;
     mDriverCalls := mDriverCalls r; mWrapCount := mWrapCount r
  |}.
Definition set_mNominationProtocol (x : NominationProtocol) (r : Slot) : Slot :=
  {|
     mSlotIndex := mSlotIndex r; mBallotProtocol := mBallotProtocol r;
     mNominationProtocol := x; mStatementsHistory := mStatementsHistory r;
     mFullyValidated := mFullyValidated r; mGotVBlocking := mGotVBlocking r;
     mDriverCalls := mDriverCalls r; mWrapCount := mWrapCount r
  |}.
Definition set_mStatementsHistory (x : list (SCPStatement * bool)) (r : Slot) : Slot :=
  {|
     mSlotIndex := mSlotIndex r; mBallotProtocol := mBallotProtocol r;
     mNominationProtocol := mNominationProtocol r; mStatementsHistory := x;
     mFullyValidated := mFullyValidated r; mGotVBlocking := mGotVBlocking r;
     mDriverCalls := mDriverCalls r; mWrapCount := mWrapCount r
  |}.
Definition set_mFullyValidated (x : bool) (r : Slot) : Slot :=
  {|
     mSlotIndex := mSlotIndex r; mBallotProtocol := mBallotProtocol r;
     mNominationProtocol := mNominationProtocol r; mStatementsHistory :=
     mStatementsHistory r; mFullyValidated := x; mGotVBlocking := mGotVBlocking r;
     mDriverCalls := mDriverCalls r; mWrapCount := mWrapCount r
  |}.
Definition set_mGotVBlocking (x : bool) (r : Slot) : Slot :=
  {|
     mSlotIndex := mSlotIndex r; mBallotProtocol := mBallotProtocol r;
     mNominationProtocol := mNominationProtocol r; mStatementsHistory :=
     mStatementsHistory r; mFullyValidated := mFullyValidated r; mGotVBlocking := x;
     mDriverCalls := mDriverCalls r; mWrapCount := mWrapCount r
  |}.
Definition set_mDriverCalls (x : list DriverCall) (r : Slot) : Slot :=
  {|
     mSlotIndex := mSlotIndex r; mBallotProtocol := mBallotProtocol r;
     mNominationProtocol := mNominationProtocol r; mStatementsHistory :=
     mStatementsHistory r; mFullyValidated := mFullyValidated r; mGotVBlocking :=
     mGotVBlocking r; mDriverCalls := x; mWrapCount := mWrapCount r
  |}.
Definition set_mWrapCount (x : Z) (r : Slot) : Slot :=
  {|
     mSlotIndex := mSlotIndex r; mBallotProtocol := mBallotProtocol r;
     mNominationProtocol := mNominationProtocol r; mStatementsHistory :=
     mStatementsHistory r; mFullyValidated := mFullyValidated r; mGotVBlocking :=
     mGotVBlocking r; mDriverCalls := mDriverCalls r; mWrapCount := x
  |}.

(** ** Failures *)

(** The [dbgAssert]s of the protocol, which abort the process. *)
Inductive AssertSite : Type :=
| Assert_slotIndex
| Assert_bumpToBallot_phase
| Assert_bumpToBallot_monotone
| Assert_updateCurrentValue_monotone
| Assert_inv_currentCounter
| Assert_inv_preparedPrime
| Assert_inv_highHasCurrent
| Assert_inv_highLessCurrent
| Assert_inv_commitHasCurrent
| Assert_inv_commitLessHigh
| Assert_inv_confirmHasCommit
| Assert_inv_externalizeHasCommit
| Assert_inv_externalizeHasHigh
| Assert_acceptPrepared_commitCompatible
| Assert_setAcceptPrepared_phase
| Assert_setConfirmPrepared_noCommit
| Assert_hashNode_previousValue
| Assert_statementType
| Assert_nominate_isValidator.

(** [std::runtime_error] exceptions. *)
Inductive Exception : Type :=
| MaxTransitionsReached
| MovedToBadState
| CannotSetState
| MovedToBadStateNomination
| CannotSetStateNomination.

Inductive Failure : Type :=
| Throw (e : Exception)
| DbgAssert (a : AssertSite)
| NullDeref
| NumericAssert
| OutOfFuel.

Notation SM := (M Slot Failure).

(** Reading and assigning members of the two protocols. *)
Definition getB {A} (f : BallotProtocol → A) : SM A := gets (λ s, f (mBallotProtocol s)).
Definition modB (f : BallotProtocol → BallotProtocol) : SM unit :=
  modify (λ s, set_mBallotProtocol (f (mBallotProtocol s)) s).
Definition getN {A} (f : NominationProtocol → A) : SM A := gets (λ s, f (mNominationProtocol s)).
Definition modN (f : NominationProtocol → NominationProtocol) : SM unit :=
  modify (λ s, set_mNominationProtocol (f (mNominationProtocol s)) s).
Definition driver (c : DriverCall) : SM unit :=
  modify (λ s, set_mDriverCalls (mDriverCalls s ++ [c]) s).
Definition dbgAssert (b : bool) (a : AssertSite) : SM unit := check b (DbgAssert a).
Definition deref {A} (o : option A) : SM A :=
  match o with Some a => ret a | None => fail NullDeref end.
Definition whenM (b : bool) (m : SM unit) : SM unit := if b then m else ret tt.

(** ** Operations shared by the two protocols *)

Section SlotOps.
Context {D : SCPDriver} {L : LocalNode}.

Definition federatedAccept (voted accepted : SCPStatement → bool) (envs : EnvMap) : bool :=
  (* Checks if the nodes that claimed to accept the statement form a v-blocking set *)
  if isVBlockingMap localQuorumSet envs accepted then true
  (* Checks if the set of nodes that accepted or voted for it form a quorum *)
  else
    let ratifyFilter := λ st, accepted st || voted st in
    if isQuorum localQuorumSet envs getQuorumSetFromStatement ratifyFilter then true
    else false.

Definition federatedRatify (voted : SCPStatement → bool) (envs : EnvMap) : bool :=
  isQuorum localQuorumSet envs getQuorumSetFromStatement voted.

(** The record keeps the time too, which nothing reads. *)
Definition recordStatement (st : SCPStatement) : SM unit :=
  modify (λ s, set_mStatementsHistory (mStatementsHistory s ++ [(st, mFullyValidated s)]) s).

Definition createEnvelope (pl : SCPPledges) : SM SCPEnvelope :=
  let! i := gets mSlotIndex in
  let mySt := {| nodeID := localNodeID; slotIndex := i; pledges := pl |} in
  ret {| statement := mySt; signature := signEnvelope mySt |}.

(** [SCPDriver::wrapEnvelope]: a new wrapper object. *)
Definition wrapEnvelope (e : SCPEnvelope) : SM SCPEnvelopeWrapper :=
  let! n := gets mWrapCount in
  modify (set_mWrapCount (n + 1)) ;;
  ret {| wrapId := n; getEnvelope := e |}.

Definition getLatestMessageB (id : NodeID) (b : BallotProtocol) : option SCPEnvelope :=
  getEnvelope <$> map_find id (mLatestEnvelopes b).

Definition getLatestMessageN (id : NodeID) (n : NominationProtocol) : option SCPEnvelope :=
  getEnvelope <$> map_find id (mLatestNominations n).

Definition getLatestMessage (id : NodeID) (s : Slot) : option SCPEnvelope :=
  match getLatestMessageB id (mBallotProtocol s) with
  | Some m => Some m
  | None => getLatestMessageN id (mNominationProtocol s)
  end.

Definition maybeSetGotVBlocking : SM unit :=
  let! got := gets mGotVBlocking in
  if got then ret tt (* was already set *)
  else
    let! s := gets id in
    let nodes := (forAllNodes localQuorumSet
      (λ n nodes, (if optb (getLatestMessage n s) then nodes ++ [n] else nodes, true)) []).1 in
    modify (set_mGotVBlocking (isVBlocking localQuorumSet nodes)).

(** [Slot::processEnvelope]; [nomination] and [ballot] are the handlers of the two
    protocols.  The source logs an exception and throws it again. *)
Definition slotDispatch (nomination : SCPEnvelopeWrapper → SM EnvelopeState)
  (ballot : SCPEnvelopeWrapper → bool → SM EnvelopeState)
  (envelope : SCPEnvelopeWrapper) (self : bool) : SM EnvelopeState :=
  let st := getStatement envelope in
  let! i := gets mSlotIndex in
  dbgAssert (slotIndex st =? i) Assert_slotIndex ;;
  let! prev := gets (λ s, optb (getLatestMessage (nodeID st) s)) in
  let! res :=
    (if bool_decide (pledges_type (pledges st) = SCP_ST_NOMINATE)
     then nomination envelope else ballot envelope self) in
  (if negb prev && bool_decide (res = VALID) then maybeSetGotVBlocking else ret tt) ;;
  ret res.

(** [processCurrentState] of either protocol: [f] sees the envelopes in order
    until it answers [false]. *)
Definition processCurrentStateOf {X} (envs : EnvMap) (fullyValidated forceSelf : bool)
  (f : SCPEnvelope → X → X * bool) (x : X) : X * bool :=
  forAll_loop (λ (n : NodeID * SCPEnvelopeWrapper) x,
    (* only return messages for self if the slot is fully validated *)
    if forceSelf || negb (n.1 =? localNodeID) || fullyValidated
    then f (getEnvelope n.2) x else (x, true)) envs x.

Definition processCurrentState {X} (s : Slot) (forceSelf : bool)
  (f : SCPEnvelope → X → X * bool) (x : X) : X :=
  let '(x, go) := processCurrentStateOf (mLatestNominations (mNominationProtocol s))
                    (mFullyValidated s) forceSelf f x in
  if go then (processCurrentStateOf (mLatestEnvelopes (mBallotProtocol s))
                (mFullyValidated s) forceSelf f x).1
  else x.

Definition getEntireCurrentState (s : Slot) : list SCPEnvelope :=
  processCurrentState s true (λ e res, (res ++ [e], true)) [].

Definition getLatestMessagesSend (s : Slot) : list SCPEnvelope :=
  if mFullyValidated s then
    match mLastNomination (mNominationProtocol s) with
    | Some w => [getEnvelope w] | None => [] end ++
    match mLastEnvelopeEmit (mBallotProtocol s) with
    | Some w => [getEnvelope w] | None => [] end
  else [].
End SlotOps.

(** [SCPDriver::computeTimeout], in seconds. *)
Definition MAX_TIMEOUT_SECONDS : Z := 30 * 60.
Definition computeTimeout (roundNumber : Z) : Z :=
  if MAX_TIMEOUT_SECONDS <? roundNumber then MAX_TIMEOUT_SECONDS else roundNumber.
