(* ===== verification/BallotProtocol.v ===== *)
(** * The ballot protocol (src/scp/BallotProtocol.cpp)

    Every handler of the class, as a computation on the [Slot].  The code is
    recursive: emitting a statement feeds it back through
    [Slot::processEnvelope], which calls [advanceSlot] again, up to
    [MAX_ADVANCE_SLOT_RECURSION] levels.  The handlers are therefore written
    over [slotProcessEnvelope], the call back into the slot; [processBallot] ties
    the knot with a fuel that the source's own recursion bound makes
    sufficient. *)

From stdpp Require Import prelude list.
From Stdlib Require Import ZArith Lia.
From S2P Require Import Prelude QuorumSet ScpTypes LocalNode Ballots Slot.
Local Open Scope Z_scope.

Definition MAX_ADVANCE_SLOT_RECURSION : Z := 50.

(** The state after the constructor. *)
Definition newBallotProtocol : BallotProtocol :=
  {| mHeardFromQuorum := false; mCurrentBallot := None; mPrepared := None;
     mPreparedPrime := None; mHighBallot := None; mCommit := None;
     mLatestEnvelopes := []; mPhase := SCP_PHASE_PREPARE; mValueOverride := None;
     mCurrentMessageLevel := 0; mLastEnvelope := None; mLastEnvelopeEmit := None |}.

(** [isNewerStatement(NodeID const&, SCPStatement const&)] *)
Definition isNewerStatementFor (b : BallotProtocol) (id : NodeID) (st : SCPStatement) : bool :=
  match map_find id (mLatestEnvelopes b) with
  | None => true
  | Some oldp => isNewerStatement (getStatement oldp) st
  end.

(** Tests on optional ballots. *)
Definition optTest (o : option SCPBallot) (f : SCPBallot → bool) : bool :=
  match o with Some b => f b | None => false end.

Section Ballot.
Context {D : SCPDriver} {L : LocalNode}.

Definition recordEnvelope (env : SCPEnvelopeWrapper) : SM unit :=
  let st := getStatement env in
  modB (λ b, set_mLatestEnvelopes (map_insert (nodeID st) env (mLatestEnvelopes b)) b) ;;
  recordStatement st.

Definition checkInvariants : SM unit :=
  let! b := getB id in
  match mCurrentBallot b with
  | Some cur => dbgAssert (negb (counter cur =? 0)) Assert_inv_currentCounter
  | None => ret tt
  end ;;
  match mPrepared b, mPreparedPrime b with
  | Some p, Some p' => dbgAssert (areBallotsLessAndIncompatible p' p) Assert_inv_preparedPrime
  | _, _ => ret tt
  end ;;
  match mHighBallot b with
  | Some h =>
      dbgAssert (optb (mCurrentBallot b)) Assert_inv_highHasCurrent ;;
      let! cur := deref (mCurrentBallot b) in
      dbgAssert (areBallotsLessAndCompatible h cur) Assert_inv_highLessCurrent
  | None => ret tt
  end ;;
  match mCommit b with
  | Some c =>
      dbgAssert (optb (mCurrentBallot b)) Assert_inv_commitHasCurrent ;;
      let! h := deref (mHighBallot b) in
      dbgAssert (areBallotsLessAndCompatible c h) Assert_inv_commitLessHigh ;;
      let! cur := deref (mCurrentBallot b) in
      dbgAssert (areBallotsLessAndCompatible h cur) Assert_inv_highLessCurrent
  | None => ret tt
  end ;;
  match mPhase b with
  | SCP_PHASE_PREPARE => ret tt
  | SCP_PHASE_CONFIRM => dbgAssert (optb (mCommit b)) Assert_inv_confirmHasCommit
  | SCP_PHASE_EXTERNALIZE =>
      dbgAssert (optb (mCommit b)) Assert_inv_externalizeHasCommit ;;
      dbgAssert (optb (mHighBallot b)) Assert_inv_externalizeHasHigh
  end.

Definition bumpToBallot (ballot : SCPBallot) (check : bool) : SM unit :=
  let! b := getB id in
  (* `bumpToBallot` should be never called once we committed. *)
  dbgAssert (bool_decide (mPhase b ≠ SCP_PHASE_EXTERNALIZE)) Assert_bumpToBallot_phase ;;
  (if check then
     (* We should move mCurrentBallot monotonically only *)
     dbgAssert (negb (optb (mCurrentBallot b)) ||
                optTest (mCurrentBallot b) (λ cur, 0 <=? compareBallots ballot cur))
       Assert_bumpToBallot_monotone
   else ret tt) ;;
  let gotBumped := negb (optb (mCurrentBallot b)) ||
    optTest (mCurrentBallot b) (λ cur, negb (counter cur =? counter ballot)) in
  (if optb (mCurrentBallot b) then ret tt else driver (startedBallotProtocol ballot)) ;;
  modB (set_mCurrentBallot (Some ballot)) ;;
  (* invariant: h.value = b.value *)
  (if optTest (mHighBallot b) (λ h, negb (areBallotsCompatible ballot h))
   then modB (λ b, set_mCommit None (set_mHighBallot None b)) else ret tt) ;;
  if gotBumped then modB (set_mHeardFromQuorum false) else ret tt.

(** Step (8): [b] follows [h]. *)
Definition updateCurrentIfNeeded (h : SCPBallot) : SM bool :=
  let! cur := getB mCurrentBallot in
  if negb (optb cur) || optTest cur (λ c, compareBallots c h <? 0)
  then bumpToBallot h true ;; ret true
  else ret false.

(** Timers.  The timeout of [startBallotProtocolTimer] follows the counter. *)
Definition startBallotProtocolTimer : SM unit :=
  let! cur := getB mCurrentBallot in
  let! b := deref cur in
  driver (setupTimer BALLOT_PROTOCOL_TIMER (Some (computeTimeout (counter b)))).

Definition stopBallotProtocolTimer : SM unit :=
  driver (setupTimer BALLOT_PROTOCOL_TIMER None).

Definition heardFilter (cur : SCPBallot) (st : SCPStatement) : bool :=
  match pledges st with
  | ST_PREPARE p => counter cur <=? counter (p_ballot p)
  | _ => true
  end.

Definition checkHeardFromQuorum : SM unit :=
  let! b := getB id in
  match mCurrentBallot b with
  | None => ret tt
  | Some cur =>
      if isQuorum localQuorumSet (mLatestEnvelopes b) getQuorumSetFromStatement (heardFilter cur)
      then
        modB (set_mHeardFromQuorum true) ;;
        (if negb (mHeardFromQuorum b) then
           (* if we transition from not heard -> heard, we start the timer *)
           driver (ballotDidHearFromQuorum cur) ;;
           (if bool_decide (mPhase b ≠ SCP_PHASE_EXTERNALIZE)
            then startBallotProtocolTimer else ret tt)
         else ret tt) ;;
        (if bool_decide (mPhase b = SCP_PHASE_EXTERNALIZE)
         then stopBallotProtocolTimer else ret tt)
      else
        modB (set_mHeardFromQuorum false) ;;
        stopBallotProtocolTimer
  end.

Definition createStatement (type : SCPStatementType) : SM SCPPledges :=
  checkInvariants ;;
  let! b := getB id in
  match type with
  | SCP_ST_PREPARE =>
      ret (ST_PREPARE {|
        p_quorumSetHash := localQuorumSetHash;
        p_ballot := default nullBallot (mCurrentBallot b);
        p_prepared := mPrepared b;
        p_preparedPrime := mPreparedPrime b;
        p_nC := match mCommit b with Some c => counter c | None => 0 end;
        p_nH := match mHighBallot b with Some h => counter h | None => 0 end |})
  | SCP_ST_CONFIRM =>
      let! cur := deref (mCurrentBallot b) in
      let! p := deref (mPrepared b) in
      let! c := deref (mCommit b) in
      let! h := deref (mHighBallot b) in
      ret (ST_CONFIRM {|
        c_ballot := cur; c_nPrepared := counter p; c_nCommit := counter c;
        c_nH := counter h; c_quorumSetHash := localQuorumSetHash |})
  | SCP_ST_EXTERNALIZE =>
      let! c := deref (mCommit b) in
      let! h := deref (mHighBallot b) in
      ret (ST_EXTERNALIZE {|
        e_commit := c; e_nH := counter h; e_commitQuorumSetHash := localQuorumSetHash |})
  | SCP_ST_NOMINATE => fail (DbgAssert Assert_statementType)
  end.

(** emit current envelope if needed; the wrappers are compared by address *)
Definition sendLatestEnvelope : SM unit :=
  let! b := getB id in
  let! validated := gets mFullyValidated in
  match mLastEnvelope b with
  | Some w =>
      if (mCurrentMessageLevel b =? 0) && validated &&
         match mLastEnvelopeEmit b with
         | None => true
         | Some w' => negb (wrapId w =? wrapId w')
         end
      then modB (set_mLastEnvelopeEmit (Some w)) ;; driver (emitEnvelope (getEnvelope w))
      else ret tt
  | None => ret tt
  end.

(** ** Voting *)

(** The ballots a hint makes interesting. *)
Definition hintBallots (hint : SCPStatement) : list SCPBallot :=
  match pledges hint with
  | ST_PREPARE prep =>
      let s := set_insert compareBallots (p_ballot prep) [] in
      let s := match p_prepared prep with
               | Some b => set_insert compareBallots b s | None => s end in
      match p_preparedPrime prep with
      | Some b => set_insert compareBallots b s | None => s end
  | ST_CONFIRM con =>
      set_inserts compareBallots
        [mkBallot (c_nPrepared con) (value (c_ballot con));
         mkBallot UINT32_MAX (value (c_ballot con))] []
  | ST_EXTERNALIZE ext => [mkBallot UINT32_MAX (value (e_commit ext))]
  | ST_NOMINATE _ => []
  end.

(** Ballots that may have been prepared according to one statement, below a
    [topVote]. *)
Definition statementCandidates (topVote : SCPBallot) (st : SCPStatement) : list SCPBallot :=
  match pledges st with
  | ST_PREPARE prep =>
      (if areBallotsLessAndCompatible (p_ballot prep) topVote then [p_ballot prep] else []) ++
      (match p_prepared prep with
       | Some b => if areBallotsLessAndCompatible b topVote then [b] else []
       | None => [] end) ++
      (match p_preparedPrime prep with
       | Some b => if areBallotsLessAndCompatible b topVote then [b] else []
       | None => [] end)
  | ST_CONFIRM con =>
      if areBallotsCompatible topVote (c_ballot con) then
        topVote ::
        (if c_nPrepared con <? counter topVote
         then [mkBallot (c_nPrepared con) (value topVote)] else [])
      else []
  | ST_EXTERNALIZE ext => if areBallotsCompatible topVote (e_commit ext) then [topVote] else []
  | ST_NOMINATE _ => []
  end.

(** [std::set<SCPBallot> getPrepareCandidates(SCPStatement const& hint)], in
    increasing order; the hints are taken from the highest. *)
Definition getPrepareCandidates (envs : EnvMap) (hint : SCPStatement) : list SCPBallot :=
  foldl (λ candidates topVote,
    foldl (λ candidates e,
      set_inserts compareBallots (statementCandidates topVote (getStatement e.2)) candidates)
      candidates envs)
    [] (rev (hintBallots hint)).

Definition setPrepared (ballot : SCPBallot) : SM bool :=
  let! b := getB id in
  (* p and p' are the two higest prepared and incompatible ballots *)
  match mPrepared b with
  | Some p =>
      let comp := compareBallots p ballot in
      if comp <? 0 then
        (* as we're replacing p, we see if we should also replace p' *)
        (if negb (areBallotsCompatible p ballot)
         then modB (set_mPreparedPrime (Some p)) else ret tt) ;;
        modB (set_mPrepared (Some ballot)) ;;
        ret true
      else if 0 <? comp then
        if negb (optb (mPreparedPrime b)) ||
           optTest (mPreparedPrime b) (λ p', (compareBallots p' ballot <? 0) &&
                                             negb (areBallotsCompatible p ballot))
        then modB (set_mPreparedPrime (Some ballot)) ;; ret true
        else ret false
      else ret false
  | None => modB (set_mPrepared (Some ballot)) ;; ret true
  end.

(** The predicate of one statement for [findExtendedInterval]'s boundaries. *)
Definition commitBoundaries (ballot : SCPBallot) (st : SCPStatement) : list Z :=
  match pledges st with
  | ST_PREPARE p =>
      if areBallotsCompatible ballot (p_ballot p) then
        if negb (p_nC p =? 0) then [p_nC p; p_nH p] else []
      else []
  | ST_CONFIRM c =>
      if areBallotsCompatible ballot (c_ballot c) then [c_nCommit c; c_nH c] else []
  | ST_EXTERNALIZE e =>
      if areBallotsCompatible ballot (e_commit e)
      then [counter (e_commit e); e_nH e; UINT32_MAX] else []
  | ST_NOMINATE _ => []
  end.

(** [std::set<uint32> getCommitBoundariesFromStatements(SCPBallot const& ballot)] *)
Definition getCommitBoundariesFromStatements (envs : EnvMap) (ballot : SCPBallot) : list Z :=
  foldl (λ res env, set_inserts Zcmp (commitBoundaries ballot (getStatement env.2)) res) [] envs.

(** One pass over the boundaries, from the top; [break] ends it. *)
Fixpoint extendInterval (candidate : Interval) (boundaries : list Z)
  (pred : Interval → bool) : Interval :=
  match boundaries with
  | [] => candidate
  | b :: rest =>
      if candidate.1 =? 0 then
        (* first, find the high bound *)
        if pred (b, b) then extendInterval (b, b) rest pred
        else extendInterval candidate rest pred
      else if candidate.2 <? b then extendInterval candidate rest pred (* invalid *)
      else
        let cur := (b, candidate.2) in
        if pred cur then extendInterval cur rest pred
        else candidate (* could not extend further *)
  end.

Definition findExtendedInterval (candidate : Interval) (boundaries : list Z)
  (pred : Interval → bool) : Interval :=
  extendInterval candidate (rev boundaries) pred.

(** The value a hint wants to commit, with a counter used for logging only. *)
Definition commitHint (hint : SCPStatement) : option SCPBallot :=
  match pledges hint with
  | ST_PREPARE prep =>
      if negb (p_nC prep =? 0) then Some (mkBallot (p_nH prep) (value (p_ballot prep)))
      else None
  | ST_CONFIRM con => Some (mkBallot (c_nH con) (value (c_ballot con)))
  | ST_EXTERNALIZE ext => Some (mkBallot (e_nH ext) (value (e_commit ext)))
  | ST_NOMINATE _ => None
  end.

Definition hasVBlockingSubsetStrictlyAheadOf (envs : EnvMap) (n : Z) : bool :=
  isVBlockingMap localQuorumSet envs (λ st, n <? statementBallotCounter st).

(** [validateValues]: the lowest level among the values of the statement. *)
Definition validateValues (slotIndex : Z) (st : SCPStatement) : ValidationLevel :=
  match getStatementValues st with
  | [] => kInvalidValue (* This shouldn't happen *)
  | values =>
      foldl (λ lv v,
        match lv with
        | kInvalidValue => lv
        | _ => level_min (validateValue slotIndex v false) lv
        end) kFullyValidatedValue values
  end.

(** ** Handlers that emit statements *)

Section Knot.
(** [mSlot.processEnvelope(envW, self)] *)
Variable slotProcessEnvelope : SCPEnvelopeWrapper → bool → SM EnvelopeState.

Definition emitCurrentStateStatement : SM unit :=
  let! phase := getB mPhase in
  let t := match phase with
           | SCP_PHASE_PREPARE => SCP_ST_PREPARE
           | SCP_PHASE_CONFIRM => SCP_ST_CONFIRM
           | SCP_PHASE_EXTERNALIZE => SCP_ST_EXTERNALIZE
           end in
  let! pl := createStatement t in
  let! envelope := createEnvelope pl in
  let! cur := getB mCurrentBallot in
  let canEmit := optb cur in
  (* if we generate the same envelope, don't process it again *)
  let! envs := getB mLatestEnvelopes in
  if match map_find localNodeID envs with
     | None => true
     | Some lastEnv => negb (bool_decide (getEnvelope lastEnv = envelope))
     end
  then
    let! envW := wrapEnvelope envelope in
    let! st := slotProcessEnvelope envW true in
    match st with
    | VALID =>
        let! last := getB mLastEnvelope in
        if canEmit && match last with
                      | None => true
                      | Some l => isNewerStatement (getStatement l) (statement envelope)
                      end
        then modB (set_mLastEnvelope (Some envW)) ;; sendLatestEnvelope
        else ret tt
    | INVALID =>
        (* there is a bug in the application if it queued up
           a statement for itself that it considers invalid *)
        fail (Throw MovedToBadState)
    end
  else ret tt.

(** enforces invariants; [ballot] is more recent than the current one *)
Definition updateCurrentValue (ballot : SCPBallot) : SM bool :=
  let! b := getB id in
  if bool_decide (mPhase b = SCP_PHASE_EXTERNALIZE) then ret false
  else
    match mCurrentBallot b with
    | None =>
        bumpToBallot ballot true ;;
        checkInvariants ;;
        ret true
    | Some cur =>
        dbgAssert (compareBallots cur ballot <=? 0) Assert_updateCurrentValue_monotone ;;
        if optTest (mCommit b) (λ c, negb (areBallotsCompatible c ballot)) then ret false
        else
          let comp := compareBallots cur ballot in
          if comp <? 0 then
            bumpToBallot ballot true ;;
            checkInvariants ;;
            ret true
          else if 0 <? comp then ret false
          else checkInvariants ;; ret false
    end.

(** [bumpState(Value const& value, uint32 n)] *)
Definition bumpStateTo (v : Value) (n : Z) : SM bool :=
  let! b := getB id in
  if bool_decide (mPhase b = SCP_PHASE_EXTERNALIZE) then ret false
  else
    (* we use the value that we saw confirmed prepared
       or that we at least voted to commit to *)
    let newb := mkBallot n (default v (mValueOverride b)) in
    let! updated := updateCurrentValue newb in
    (if updated then emitCurrentStateStatement ;; checkHeardFromQuorum else ret tt) ;;
    ret updated.

(** [bumpState(Value const& value, bool force)] *)
Definition bumpState (v : Value) (force : bool) : SM bool :=
  let! cur := getB mCurrentBallot in
  if negb force && optb cur then ret false
  else
    let n := match cur with Some b => u32 (counter b + 1) | None => 1 end in
    bumpStateTo v n.

Definition nonEmptyValue (v : option Value) : option Value :=
  match v with Some (x :: v') => Some (x :: v') | _ => None end.

Definition abandonBallot (n : Z) : SM bool :=
  let! candidate := getN mLatestCompositeCandidate in
  let! cur := getB mCurrentBallot in
  let v := match nonEmptyValue candidate with
           | Some v => Some v
           | None => match cur with Some b => Some (value b) | None => candidate end
           end in
  match nonEmptyValue v with
  | Some v => if n =? 0 then bumpState v true else bumpStateTo v n
  | None => ret false
  end.

Definition ballotProtocolTimerExpired : SM unit :=
  abandonBallot 0 ;; ret tt.

Definition setAcceptPrepared (ballot : SCPBallot) : SM bool :=
  (* update our state *)
  let! didWork := setPrepared ballot in
  (* check if we also need to clear 'c' *)
  let! b := getB id in
  let! didWork :=
    match mCommit b, mHighBallot b with
    | Some _, Some h =>
        if optTest (mPrepared b) (areBallotsLessAndIncompatible h) ||
           optTest (mPreparedPrime b) (areBallotsLessAndIncompatible h)
        then
          dbgAssert (bool_decide (mPhase b = SCP_PHASE_PREPARE)) Assert_setAcceptPrepared_phase ;;
          modB (set_mCommit None) ;;
          ret true
        else ret didWork
    | _, _ => ret didWork
    end in
  (if didWork
   then driver (acceptedBallotPrepared ballot) ;; emitCurrentStateStatement
   else ret tt) ;;
  ret didWork.

(** The loop of [attemptAcceptPrepared], over the candidates from the highest. *)
Fixpoint acceptPrepared_loop (candidates : list SCPBallot) : SM bool :=
  match candidates with
  | [] => ret false
  | ballot :: rest =>
      let! b := getB id in
      let! skip :=
        (if bool_decide (mPhase b = SCP_PHASE_CONFIRM) then
           (* only consider the ballot if it may help us increase p *)
           let! p := deref (mPrepared b) in
           if negb (areBallotsLessAndCompatible p ballot) then ret true
           else
             let! c := deref (mCommit b) in
             dbgAssert (areBallotsCompatible c ballot) Assert_acceptPrepared_commitCompatible ;;
             ret false
         else ret false) in
      if skip ||
         (* if ballot <= p' ballot is neither a candidate for p nor p' *)
         optTest (mPreparedPrime b) (λ p', compareBallots ballot p' <=? 0) ||
         (* if ballot is already covered by p, skip *)
         optTest (mPrepared b) (λ p, areBallotsLessAndCompatible ballot p)
      then acceptPrepared_loop rest
      else
        let accepted := federatedAccept (votesForPrepared ballot) (hasPreparedBallot ballot)
                          (mLatestEnvelopes b) in
        if accepted then setAcceptPrepared ballot else acceptPrepared_loop rest
  end.

Definition attemptAcceptPrepared (hint : SCPStatement) : SM bool :=
  let! b := getB id in
  if bool_decide (mPhase b = SCP_PHASE_EXTERNALIZE) then ret false
  else acceptPrepared_loop (rev (getPrepareCandidates (mLatestEnvelopes b) hint)).

Definition setConfirmPrepared (newC newH : SCPBallot) : SM bool :=
  (* remember newH's value *)
  modB (set_mValueOverride (Some (value newH))) ;;
  let! b := getB id in
  (* we don't set c/h if we're not on a compatible ballot *)
  let! didWork :=
    (if negb (optb (mCurrentBallot b)) ||
        optTest (mCurrentBallot b) (λ cur, areBallotsCompatible cur newH)
     then
       let! didWork :=
         (if negb (optb (mHighBallot b)) ||
             optTest (mHighBallot b) (λ h, 0 <? compareBallots newH h)
          then modB (set_mHighBallot (Some newH)) ;; ret true
          else ret false) in
       let! didWork :=
         (if negb (counter newC =? 0) then
            dbgAssert (negb (optb (mCommit b))) Assert_setConfirmPrepared_noCommit ;;
            modB (set_mCommit (Some newC)) ;;
            ret true
          else ret didWork) in
       (if didWork then driver (confirmedBallotPrepared newH) else ret tt) ;;
       ret didWork
     else ret false) in
  (* always perform step (8) with the computed value of h *)
  let! updated := updateCurrentIfNeeded newH in
  let didWork := updated || didWork in
  (if didWork then emitCurrentStateStatement else ret tt) ;;
  ret didWork.

(** First loop of [attemptConfirmPrepared]: the highest candidate above [h] that
    is confirmed prepared, with the candidates from it on. *)
Fixpoint confirmPrepared_newH (b : BallotProtocol) (candidates : list SCPBallot)
  : option (SCPBallot * list SCPBallot) :=
  match candidates with
  | [] => None
  | ballot :: rest =>
      (* only consider it if we can potentially raise h *)
      if optTest (mHighBallot b) (λ h, 0 <=? compareBallots h ballot) then None
      else if federatedRatify (hasPreparedBallot ballot) (mLatestEnvelopes b)
      then Some (ballot, candidates)
      else confirmPrepared_newH b rest
  end.

(** Second loop: the lowest ballot [newC] to vote to commit. *)
Fixpoint confirmPrepared_newC (b : BallotProtocol) (cur newH : SCPBallot)
  (candidates : list SCPBallot) (newC : SCPBallot) : SCPBallot :=
  match candidates with
  | [] => newC
  | ballot :: rest =>
      if compareBallots ballot cur <? 0 then newC
      (* c and h must be compatible *)
      else if negb (areBallotsLessAndCompatible ballot newH)
      then confirmPrepared_newC b cur newH rest newC
      else if federatedRatify (hasPreparedBallot ballot) (mLatestEnvelopes b)
      then confirmPrepared_newC b cur newH rest ballot
      else newC
  end.

Definition attemptConfirmPrepared (hint : SCPStatement) : SM bool :=
  let! b := getB id in
  if bool_decide (mPhase b ≠ SCP_PHASE_PREPARE) then ret false
  (* check if we could accept this ballot as prepared *)
  else if negb (optb (mPrepared b)) then ret false
  else
    match confirmPrepared_newH b (rev (getPrepareCandidates (mLatestEnvelopes b) hint)) with
    | None => ret false
    | Some (newH, cur) =>
        (* now, look for newC (left as 0 if no update): step (3) from the paper *)
        let newC :=
          if negb (optb (mCommit b)) &&
             negb (optTest (mPrepared b) (areBallotsLessAndIncompatible newH)) &&
             negb (optTest (mPreparedPrime b) (areBallotsLessAndIncompatible newH))
          then confirmPrepared_newC b (default nullBallot (mCurrentBallot b)) newH cur nullBallot
          else nullBallot in
        setConfirmPrepared newC newH
    end.

Definition setAcceptCommit (c h : SCPBallot) : SM bool :=
  (* remember h's value *)
  modB (set_mValueOverride (Some (value h))) ;;
  let! b := getB id in
  let! didWork :=
    (if negb (optb (mHighBallot b)) || negb (optb (mCommit b)) ||
        optTest (mHighBallot b) (λ h0, negb (compareBallots h0 h =? 0)) ||
        optTest (mCommit b) (λ c0, negb (compareBallots c0 c =? 0))
     then modB (λ b, set_mHighBallot (Some h) (set_mCommit (Some c) b)) ;; ret true
     else ret false) in
  let! didWork :=
    (if bool_decide (mPhase b = SCP_PHASE_PREPARE) then
       modB (set_mPhase SCP_PHASE_CONFIRM) ;;
       (if optTest (mCurrentBallot b) (λ cur, negb (areBallotsLessAndCompatible h cur))
        then bumpToBallot h false else ret tt) ;;
       modB (set_mPreparedPrime None) ;;
       ret true
     else ret didWork) in
  (if didWork then
     let! h0 := getB mHighBallot in
     let! h0 := deref h0 in
     updateCurrentIfNeeded h0 ;;
     driver (acceptedCommit h) ;;
     emitCurrentStateStatement
   else ret tt) ;;
  ret didWork.

Definition attemptAcceptCommit (hint : SCPStatement) : SM bool :=
  let! b := getB id in
  if bool_decide (mPhase b = SCP_PHASE_EXTERNALIZE) then ret false
  else
    match commitHint hint with
    | None => ret false
    | Some ballot =>
        let! incompatible :=
          (if bool_decide (mPhase b = SCP_PHASE_CONFIRM) then
             let! h := deref (mHighBallot b) in
             ret (negb (areBallotsCompatible ballot h))
           else ret false) in
        if incompatible then ret false
        else
          let pred := λ cur,
            federatedAccept (votesForCommit ballot cur) (commitPredicate ballot cur)
              (mLatestEnvelopes b) in
          (* build the boundaries to scan *)
          match getCommitBoundariesFromStatements (mLatestEnvelopes b) ballot with
          | [] => ret false
          | boundaries =>
              (* now, look for the high interval *)
              let candidate := findExtendedInterval (0, 0) boundaries pred in
              if negb (candidate.1 =? 0) then
                let! raises :=
                  (if bool_decide (mPhase b ≠ SCP_PHASE_CONFIRM) then ret true
                   else let! h := deref (mHighBallot b) in
                        ret (counter h <? candidate.2)) in
                if raises then
                  setAcceptCommit (mkBallot candidate.1 (value ballot))
                                  (mkBallot candidate.2 (value ballot))
                else ret false
              else ret false
          end
    end.

Definition setConfirmCommit (c h : SCPBallot) : SM bool :=
  modB (λ b, set_mHighBallot (Some h) (set_mCommit (Some c) b)) ;;
  updateCurrentIfNeeded h ;;
  modB (set_mPhase SCP_PHASE_EXTERNALIZE) ;;
  emitCurrentStateStatement ;;
  (* mSlot.stopNomination() *)
  modN (set_mNominationStarted false) ;;
  let! commit := getB mCommit in
  let! commit := deref commit in
  driver (valueExternalized (value commit)) ;;
  ret true.

Definition attemptConfirmCommit (hint : SCPStatement) : SM bool :=
  let! b := getB id in
  if bool_decide (mPhase b ≠ SCP_PHASE_CONFIRM) then ret false
  else
    match mHighBallot b, mCommit b with
    | Some _, Some commit =>
        match pledges hint with
        | ST_CONFIRM _ | ST_EXTERNALIZE _ =>
            match commitHint hint with
            | None => ret false
            | Some ballot =>
                if negb (areBallotsCompatible ballot commit) then ret false
                else
                  let boundaries :=
                    getCommitBoundariesFromStatements (mLatestEnvelopes b) ballot in
                  let pred := λ cur,
                    federatedRatify (commitPredicate ballot cur) (mLatestEnvelopes b) in
                  let candidate := findExtendedInterval (0, 0) boundaries pred in
                  if negb (candidate.1 =? 0) then
                    setConfirmCommit (mkBallot candidate.1 (value ballot))
                                     (mkBallot candidate.2 (value ballot))
                  else ret false
            end
        | _ => ret false
        end
    | _, _ => ret false
    end.

(** Step 9: the counters to try, in increasing order. *)
Fixpoint bump_candidates (envs : EnvMap) (counters : list Z) : option Z :=
  match counters with
  | [] => None
  | n :: rest =>
      if negb (hasVBlockingSubsetStrictlyAheadOf envs n) then Some n
      else bump_candidates envs rest
  end.

Definition attemptBump : SM bool :=
  let! b := getB id in
  if bool_decide (mPhase b = SCP_PHASE_EXTERNALIZE) then ret false
  else
    let envs := mLatestEnvelopes b in
    let localCounter := match mCurrentBallot b with Some c => counter c | None => 0 end in
    if negb (hasVBlockingSubsetStrictlyAheadOf envs localCounter) then ret false
    else
      (* Collect all possible counters we might need to advance to. *)
      let allCounters :=
        foldl (λ s e, let c := statementBallotCounter (getStatement e.2) in
                      if localCounter <? c then set_insert Zcmp c s else s) [] envs in
      match bump_candidates envs allCounters with
      | Some n => abandonBallot n (* Move to n. *)
      | None => ret false
      end.

(** [do { didBump = attemptBump(); didWork = didBump || didWork; } while (didBump)] *)
Fixpoint bump_loop (fuel : nat) (didWork : bool) : SM bool :=
  match fuel with
  | O => fail OutOfFuel
  | S fuel =>
      let! didBump := attemptBump in
      if didBump then bump_loop fuel true else ret didWork
  end.

(** After a bump no blocking set is ahead in the same phase, and the phase
    changes at most twice: three tries are enough (BallotRefine.v). *)
Definition bumpFuel : nat := 3.

Definition advanceSlot (hint : SCPStatement) : SM unit :=
  modB (λ b, set_mCurrentMessageLevel (mCurrentMessageLevel b + 1) b) ;;
  let! level := getB mCurrentMessageLevel in
  (if MAX_ADVANCE_SLOT_RECURSION <=? level
   then fail (Throw MaxTransitionsReached) else ret tt) ;;
  (* attempt* methods will queue up messages, causing advanceSlot to be called recursively *)
  let! w1 := attemptAcceptPrepared hint in
  let! w2 := attemptConfirmPrepared hint in
  let! w3 := attemptAcceptCommit hint in
  let! w4 := attemptConfirmCommit hint in
  let didWork := w1 || w2 || w3 || w4 in
  (* only bump after we're done with everything else *)
  let! level := getB mCurrentMessageLevel in
  let! didWork :=
    (if level =? 1 then
       let! didWork := bump_loop bumpFuel didWork in
       checkHeardFromQuorum ;;
       ret didWork
     else ret didWork) in
  modB (λ b, set_mCurrentMessageLevel (mCurrentMessageLevel b - 1) b) ;;
  if didWork then sendLatestEnvelope else ret tt.

(** [BallotProtocol::processEnvelope] *)
Definition processEnvelope (envelope : SCPEnvelopeWrapper) (self : bool) : SM EnvelopeState :=
  let st := getStatement envelope in
  let! i := gets mSlotIndex in
  dbgAssert (slotIndex st =? i) Assert_slotIndex ;;
  let! b := getB id in
  if negb (isStatementSane st self) then ret INVALID
  else if negb (isNewerStatementFor b (nodeID st) st) then ret INVALID
  else
    match validateValues i st with
    | kInvalidValue => ret INVALID (* If the value is not valid, we just ignore it. *)
    | validationRes =>
        if bool_decide (mPhase b ≠ SCP_PHASE_EXTERNALIZE) then
          (if bool_decide (validationRes = kMaybeValidValue)
           then modify (set_mFullyValidated false) else ret tt) ;;
          recordEnvelope envelope ;;
          advanceSlot st ;;
          ret VALID
        else
          (* note: this handles also our own messages,
             in particular our final EXTERNALIZE message *)
          let! commit := deref (mCommit b) in
          if bool_decide (value commit = value (getWorkingBallot st))
          then recordEnvelope envelope ;; ret VALID
          else ret INVALID
    end.
End Knot.

(** ** Restoring and reporting the state *)

(** Restores the state from the node's own last envelope, after a restart. *)
Definition setStateFromEnvelope (e : SCPEnvelopeWrapper) : SM unit :=
  let! cur := getB mCurrentBallot in
  (if optb cur then fail (Throw CannotSetState) else ret tt) ;;
  recordEnvelope e ;;
  modB (λ b, set_mLastEnvelopeEmit (Some e) (set_mLastEnvelope (Some e) b)) ;;
  match pledges (getStatement e) with
  | ST_PREPARE prep =>
      let b := p_ballot prep in
      bumpToBallot b true ;;
      (if optb (p_prepared prep) then modB (set_mPrepared (p_prepared prep)) else ret tt) ;;
      (if optb (p_preparedPrime prep)
       then modB (set_mPreparedPrime (p_preparedPrime prep)) else ret tt) ;;
      (if negb (p_nH prep =? 0)
       then modB (set_mHighBallot (Some (mkBallot (p_nH prep) (value b)))) else ret tt) ;;
      (if negb (p_nC prep =? 0)
       then modB (set_mCommit (Some (mkBallot (p_nC prep) (value b)))) else ret tt) ;;
      modB (set_mPhase SCP_PHASE_PREPARE)
  | ST_CONFIRM c =>
      let v := value (c_ballot c) in
      bumpToBallot (c_ballot c) true ;;
      modB (set_mPrepared (Some (mkBallot (c_nPrepared c) v))) ;;
      modB (set_mHighBallot (Some (mkBallot (c_nH c) v))) ;;
      modB (set_mCommit (Some (mkBallot (c_nCommit c) v))) ;;
      modB (set_mPhase SCP_PHASE_CONFIRM)
  | ST_EXTERNALIZE ext =>
      let v := value (e_commit ext) in
      bumpToBallot (mkBallot UINT32_MAX v) true ;;
      modB (set_mPrepared (Some (mkBallot UINT32_MAX v))) ;;
      modB (set_mHighBallot (Some (mkBallot (e_nH ext) v))) ;;
      modB (set_mCommit (Some (e_commit ext))) ;;
      modB (set_mPhase SCP_PHASE_EXTERNALIZE)
  | ST_NOMINATE _ => fail (DbgAssert Assert_statementType)
  end.

(** [getExternalizingState]: the statements on the externalized value. *)
Definition getExternalizingState (s : Slot) : outcome Failure (list SCPEnvelope) :=
  let b := mBallotProtocol s in
  match mPhase b with
  | SCP_PHASE_EXTERNALIZE =>
      foldl (λ res n,
        match res with
        | Fail f => Fail f
        | Ok res =>
            if negb (n.1 =? localNodeID) then
              match mCommit b with
              | None => Fail NullDeref
              | Some commit =>
                  if areBallotsCompatible (getWorkingBallot (getStatement n.2)) commit
                  then Ok (res ++ [getEnvelope n.2]) else Ok res
              end
            else if mFullyValidated s then Ok (res ++ [getEnvelope n.2])
            else Ok res
        end) (Ok []) (mLatestEnvelopes b)
  | _ => Ok []
  end.

(** [getJsonQuorumInfo]: what a node [id] reports of its quorum set.  The lists
    hold the nodes the source prints. *)
Inductive ReportPhase : Type :=
| phase_unknown | phase_PREPARE | phase_CONFIRM | phase_EXTERNALIZE | phase_expired.

Record QuorumInfo : Type := {
  qi_phase : ReportPhase;
  qi_missing : list NodeID;
  qi_disagree : list NodeID;
  qi_delayed : list NodeID;
  qi_agree : Z;
  qi_fail_with : list NodeID;
  qi_hash : option Hash
}.

(** The lambda run on every node of the quorum set: the new counts. *)
Definition quorumInfo_node (envs : EnvMap) (b : SCPBallot) (n : NodeID) (r : QuorumInfo)
  : QuorumInfo * bool :=
  (match map_find n envs with
   | None =>
       {| qi_phase := qi_phase r; qi_missing := qi_missing r ++ [n]; qi_disagree := qi_disagree r;
          qi_delayed := qi_delayed r; qi_agree := qi_agree r; qi_fail_with := qi_fail_with r;
          qi_hash := qi_hash r |}
   | Some w =>
       let st := getStatement w in
       if areBallotsCompatible (getWorkingBallot st) b then
         let settled := match pledges st with
                        | ST_EXTERNALIZE _ => true
                        | ST_CONFIRM c => counter (c_ballot c) =? UINT32_MAX
                        | _ => false end in
         {| qi_phase := qi_phase r; qi_missing := qi_missing r; qi_disagree := qi_disagree r;
            qi_delayed := if negb settled then qi_delayed r ++ [n] else qi_delayed r;
            qi_agree := qi_agree r + 1; qi_fail_with := qi_fail_with r; qi_hash := qi_hash r |}
       else
         {| qi_phase := qi_phase r; qi_missing := qi_missing r;
            qi_disagree := qi_disagree r ++ [n]; qi_delayed := qi_delayed r;
            qi_agree := qi_agree r; qi_fail_with := qi_fail_with r; qi_hash := qi_hash r |}
   end, true).

Definition emptyInfo (phase : ReportPhase) : QuorumInfo :=
  {| qi_phase := phase; qi_missing := []; qi_disagree := []; qi_delayed := [];
     qi_agree := 0; qi_fail_with := []; qi_hash := None |}.

(** [nullHash] is the value-initialised [Hash]. *)
Definition getJsonQuorumInfo (nullHash : Hash) (id : NodeID) (bp : BallotProtocol)
  : outcome Failure QuorumInfo :=
  let envs := mLatestEnvelopes bp in
  let found :=
    match map_find id envs with
    | None => Ok (phase_unknown, nullBallot,
                  if id =? localNodeID then localQuorumSetHash else nullHash)
    | Some w =>
        let st := getStatement w in
        let h := getCompanionQuorumSetHashFromStatement st in
        match pledges st with
        | ST_PREPARE p => Ok (phase_PREPARE, p_ballot p, h)
        | ST_CONFIRM c => Ok (phase_CONFIRM, c_ballot c, h)
        | ST_EXTERNALIZE e => Ok (phase_EXTERNALIZE, e_commit e, h)
        | ST_NOMINATE _ => Fail (DbgAssert Assert_statementType)
        end
    end in
  match found with
  | Fail f => Fail f
  | Ok (phase, b, qSetHash) =>
      match getQSet qSetHash with
      | None => Ok (emptyInfo phase_expired)
      | Some qSet =>
          let r := (forAllNodes qSet (quorumInfo_node envs b) (emptyInfo phase)).1 in
          let f := findClosestVBlockingMap qSet envs
            (λ st, areBallotsCompatible (getWorkingBallot st) b) (Some id) in
          Ok {| qi_phase := qi_phase r; qi_missing := qi_missing r;
                qi_disagree := qi_disagree r; qi_delayed := qi_delayed r;
                qi_agree := qi_agree r; qi_fail_with := f; qi_hash := Some qSetHash |}
      end
  end.
End Ballot.
