(* ===== verification/BallotVotes.v ===== *)
(** * Candidates and votes of the ballot protocol

    What the pure parts of BallotProtocol.v compute: the ballots proposed by
    [getPrepareCandidates], the interval found by [findExtendedInterval], the
    ballots picked by [attemptConfirmPrepared], and monotonicity of federated
    voting in the set of statements that vote. *)

From stdpp Require Import prelude list.
From Stdlib Require Import ZArith Lia.
From S2P Require Import Prelude QuorumSet ScpTypes LocalNode Ballots Slot BallotProtocol.
Local Open Scope Z_scope.

(** ** Candidates *)

Lemma elem_of_fold_inserts {A X} (cmp : A → A → Z) `{!CmpOk cmp} (f : X → list A) xs acc y :
  y ∈ foldl (λ s x, set_inserts cmp (f x) s) acc xs ↔ y ∈ acc ∨ ∃ x, x ∈ xs ∧ y ∈ f x.
Proof.
  revert acc. induction xs as [|x xs IH]; intros acc; simpl.
  { split; [by left|]. intros [?|(? & ?%elem_of_nil & _)]; done. }
  rewrite IH, elem_of_set_inserts by done. setoid_rewrite elem_of_cons. naive_solver.
Qed.

Lemma elem_of_rev {A} (x : A) l : x ∈ rev l ↔ x ∈ l.
Proof. by rewrite !list_elem_of_In, <- in_rev. Qed.

Lemma elem_of_getPrepareCandidates envs hint b :
  b ∈ getPrepareCandidates envs hint ↔
  ∃ topVote e, topVote ∈ hintBallots hint ∧ e ∈ envs ∧
    b ∈ statementCandidates topVote (getStatement e.2).
Proof.
  unfold getPrepareCandidates.
  assert (∀ tops acc, b ∈ foldl (λ candidates topVote,
      foldl (λ candidates e, set_inserts compareBallots
        (statementCandidates topVote (getStatement e.2)) candidates) candidates envs) acc tops ↔
    b ∈ acc ∨ ∃ topVote e, topVote ∈ tops ∧ e ∈ envs ∧
      b ∈ statementCandidates topVote (getStatement e.2)) as H.
  { induction tops as [|t tops IH]; intros acc; simpl.
    - split; [by left|]. intros [?|(? & ? & ?%elem_of_nil & _)]; done.
    - rewrite IH, (elem_of_fold_inserts compareBallots
        (λ e, statementCandidates t (getStatement e.2))).
      setoid_rewrite elem_of_cons. naive_solver. }
  rewrite H. setoid_rewrite elem_of_rev. split; [intros [?%elem_of_nil|]; done|by right].
Qed.

(** A candidate is below its [topVote], with the same value. *)
Lemma statementCandidates_below topVote st b :
  b ∈ statementCandidates topVote st → value b = value topVote ∧ counter b ≤ counter topVote.
Proof.
  unfold statementCandidates. destruct (pledges st) as [p|c|e|n].
  - rewrite !elem_of_app. intros [H|[H|H]]; repeat (case_match; try by apply elem_of_nil in H);
      apply list_elem_of_singleton in H as ->; by apply lessCompatible_iff.
  - destruct (areBallotsCompatible _ _); [|by intros ?%elem_of_nil].
    intros [->|H]%elem_of_cons; [done|]. destruct (Z.ltb_spec (c_nPrepared c) (counter topVote));
      [|by apply elem_of_nil in H]. apply list_elem_of_singleton in H as ->. simpl. split; [done|lia].
  - destruct (areBallotsCompatible _ _); [|by intros ?%elem_of_nil].
    by intros ->%list_elem_of_singleton.
  - by intros ?%elem_of_nil.
Qed.

Lemma exists_min {A} (f : A → Z) l :
  l ≠ [] → ∃ x, x ∈ l ∧ ∀ y, y ∈ l → f x ≤ f y.
Proof.
  induction l as [|x l IH]; [done|]. intros _. destruct l as [|y l].
  { exists x. split; [by left|]. by intros ? ->%list_elem_of_singleton. }
  destruct IH as (m & Hm & Hle); [done|]. destruct (Z.le_ge_cases (f x) (f m)).
  - exists x. split; [by left|]. intros z [->|Hz]%elem_of_cons; [done|]. specialize (Hle z Hz). lia.
  - exists m. split; [by right|]. intros z [->|Hz]%elem_of_cons; [done|auto].
Qed.

(** The hint proposes a [topVote] on the value it wants to commit, and is itself
    a candidate's source. *)
Lemma commitHint_topVote hint ballot :
  commitHint hint = Some ballot →
  ∃ topVote, topVote ∈ hintBallots hint ∧ value topVote = value ballot ∧
    statementCandidates topVote hint ≠ [].
Proof.
  unfold commitHint, hintBallots, statementCandidates.
  destruct (pledges hint) as [p|c|e|n]; [case_match|..]; intros [= <-]; cbn [value].
  - exists (p_ballot p). split_and!; [|done|].
    + destruct (p_preparedPrime p), (p_prepared p);
        rewrite ?(elem_of_set_insert compareBallots), ?elem_of_nil; tauto.
    + rewrite (proj2 (lessCompatible_iff _ _)) by done. done.
  - exists (mkBallot UINT32_MAX (value (c_ballot c))). split_and!; [|done|].
    + apply (elem_of_set_inserts compareBallots). left. set_solver.
    + by rewrite (proj2 (compatible_iff _ _)).
  - exists (mkBallot UINT32_MAX (value (e_commit e))). split_and!; [by left|done|].
    by rewrite (proj2 (compatible_iff _ _)).
Qed.

(** Statements whose working value is [v]. *)
Definition worksOn (v : Value) (st : SCPStatement) : Prop :=
  match pledges st with
  | ST_PREPARE p => value (p_ballot p) = v
  | ST_CONFIRM c => value (c_ballot c) = v
  | ST_EXTERNALIZE e => value (e_commit e) = v
  | ST_NOMINATE _ => False
  end.

(** Some candidate is voted or accepted as prepared by every statement on the
    value of the hint. *)
Lemma least_candidate envs hint ballot e0 :
  commitHint hint = Some ballot → e0 ∈ envs → getStatement e0.2 = hint →
  ∃ b, b ∈ getPrepareCandidates envs hint ∧
    ∀ e, e ∈ envs → worksOn (value ballot) (getStatement e.2) →
      match pledges (getStatement e.2) with
      | ST_PREPARE _ => votesForPrepared b (getStatement e.2) = true
      | _ => hasPreparedBallot b (getStatement e.2) = true
      end.
Proof.
  intros Hc He0 Eh. destruct (commitHint_topVote _ _ Hc) as (top & Htop & Hv & Hne).
  set (cands := concat (map (λ e, statementCandidates top (getStatement e.2)) envs)).
  assert (∀ b, b ∈ cands ↔ ∃ e, e ∈ envs ∧ b ∈ statementCandidates top (getStatement e.2)) as Hin.
  { intros b. unfold cands. rewrite list_elem_of_In, in_concat.
    setoid_rewrite in_map_iff. setoid_rewrite <- list_elem_of_In. naive_solver. }
  destruct (exists_min counter cands) as (b & Hb & Hmin).
  { intros Enil. destruct (statementCandidates top hint) as [|x l] eqn:E; [done|].
    assert (x ∈ cands) as Hx by (apply Hin; exists e0; rewrite Eh, E; split; [done|left]).
    rewrite Enil in Hx. by apply elem_of_nil in Hx. }
  pose proof Hb as (e1 & He1 & Hbe)%Hin. destruct (statementCandidates_below _ _ _ Hbe) as [Hvb Hcb].
  exists b. split; [apply elem_of_getPrepareCandidates; eauto|].
  intros e He. assert (∀ x, x ∈ statementCandidates top (getStatement e.2) → counter b ≤ counter x)
    as Hle by (intros; apply Hmin, Hin; eauto).
  clear Hmin Hin Hb Hbe. unfold worksOn, votesForPrepared, hasPreparedBallot.
  unfold statementCandidates in Hle. destruct (pledges (getStatement e.2)) as [p|c|x|n];
    intros Hw; [| | |done]; try apply lessCompatible_iff; try apply compatible_iff; simpl.
  - split; [congruence|]. destruct (areBallotsLessAndCompatible (p_ballot p) top) eqn:El.
    + apply Hle. set_solver.
    + apply not_true_iff_false in El. rewrite lessCompatible_iff in El.
      destruct (Z.le_gt_cases (counter (p_ballot p)) (counter top)); [|lia].
      destruct El. split; [congruence|done].
  - split; [congruence|]. rewrite (proj2 (compatible_iff top (c_ballot c))) in Hle by congruence.
    destruct (Z.ltb_spec (c_nPrepared c) (counter top)); [|lia].
    apply (Hle (mkBallot (c_nPrepared c) (value top))). set_solver.
  - congruence.
Qed.

(** ** The interval of ballots to commit *)

Lemma elem_of_commitBoundaries envs ballot n :
  n ∈ getCommitBoundariesFromStatements envs ballot ↔
  ∃ e, e ∈ envs ∧ n ∈ commitBoundaries ballot (getStatement e.2).
Proof.
  unfold getCommitBoundariesFromStatements.
  rewrite (elem_of_fold_inserts Zcmp (λ e, commitBoundaries ballot (getStatement e.2))).
  split; [intros [?%elem_of_nil|]; done|by right].
Qed.

(** A candidate whose low end is not zero is between two boundaries and
    satisfies the predicate. *)
Definition interval_ok (pred : Interval → bool) (bs : list Z) (c : Interval) : Prop :=
  c.1 ≠ 0 → pred c = true ∧ c.1 ≤ c.2 ∧ c.1 ∈ bs ∧ c.2 ∈ bs.

Lemma extendInterval_ok pred bs rest c :
  rest ⊆ bs → interval_ok pred bs c → interval_ok pred bs (extendInterval c rest pred).
Proof.
  revert c. induction rest as [|b rest IH]; intros c Hs Hc; simpl; [done|].
  assert (rest ⊆ bs) as Hr by set_solver.
  destruct (Z.eqb_spec c.1 0) as [E0|Hne].
  - destruct (pred (b, b)) eqn:Ep; apply IH; try done. intros _. set_solver by lia.
  - destruct (Z.ltb_spec c.2 b); [by apply IH|].
    destruct (pred (b, c.2)) eqn:Ep; [apply IH; [done|]|done].
    intros _. simpl. destruct (Hc Hne) as (_ & _ & _ & ?). set_solver by lia.
Qed.

Lemma findExtendedInterval_ok pred bs :
  interval_ok pred bs (findExtendedInterval (0, 0) bs pred).
Proof.
  apply extendInterval_ok; [|done]. intros x. by rewrite elem_of_rev.
Qed.

(** ** The ballots confirmed prepared *)

Section Confirm.
Context {D : SCPDriver} {L : LocalNode}.

Lemma confirmPrepared_newH_ok b candidates newH rest :
  confirmPrepared_newH b candidates = Some (newH, rest) →
  newH ∈ candidates ∧ rest ⊆ candidates ∧
  federatedRatify (hasPreparedBallot newH) (mLatestEnvelopes b) = true ∧
  ∀ h, mHighBallot b = Some h → compareBallots h newH < 0.
Proof.
  induction candidates as [|x l IH]; simpl; [done|].
  destruct (mHighBallot b) as [h|] eqn:Eh; simpl.
  - destruct (Z.leb_spec 0 (compareBallots h x)) as [|Hlt]; [done|].
    destruct (federatedRatify (hasPreparedBallot x) _) eqn:Ef.
    + intros [= <- <-]. split_and!; [set_solver..|done|]. by intros ? [= <-].
    + intros H. destruct (IH H) as (? & ? & ? & ?). split_and!; set_solver.
  - destruct (federatedRatify (hasPreparedBallot x) _) eqn:Ef.
    + intros [= <- <-]. split_and!; [set_solver..|done|done].
    + intros H. destruct (IH H) as (? & ? & ? & ?). split_and!; set_solver.
Qed.

Definition newC_ok (b : BallotProtocol) (newH : SCPBallot) (candidates : list SCPBallot)
  (newC : SCPBallot) : Prop :=
  newC = nullBallot ∨
  newC ∈ candidates ∧ areBallotsLessAndCompatible newC newH = true ∧
  federatedRatify (hasPreparedBallot newC) (mLatestEnvelopes b) = true.

Lemma confirmPrepared_newC_ok b cur newH all candidates newC :
  candidates ⊆ all → newC_ok b newH all newC →
  newC_ok b newH all (confirmPrepared_newC b cur newH candidates newC).
Proof.
  revert newC. induction candidates as [|x l IH]; intros newC Hs Hok; simpl; [done|].
  assert (l ⊆ all) by set_solver. destruct (_ <? 0); [done|].
  destruct (areBallotsLessAndCompatible x newH) eqn:El; simpl; [|by apply IH].
  destruct (federatedRatify _ _) eqn:Ef; [|done]. apply IH; [done|].
  right. split_and!; [set_solver|done|done].
Qed.
End Confirm.

(** ** Federated voting grows with the statements that vote *)

Section Votes.
Context {D : SCPDriver} {L : LocalNode}.
Hypothesis Hlocal : at_levels slice_ok localQuorumSet.
Hypothesis Hqset : ∀ h q, getQSet h = Some q → qset_typed q.

Lemma getQuorumSet_typed st q : getQuorumSetFromStatement st = Some q → qset_typed q.
Proof.
  unfold getQuorumSetFromStatement. destruct (pledges st); try apply Hqset.
  intros [= <-]. apply at_levels_QSet. split; [word|constructor].
Qed.

Lemma blocked_mono (S S' : NodeID → bool) q :
  (∀ n, S n = true → S' n = true) → blocked S q = true → blocked S' q = true.
Proof.
  intros H. induction q as [t v i IH] using qset_ind; simpl.
  rewrite !Z.leb_le. rewrite Forall_forall in IH.
  pose proof (countZ_mono S S' v ltac:(auto)).
  pose proof (countZ_mono (blocked S) (blocked S') i IH). lia.
Qed.

Lemma isVBlocking_mono q nodes nodes' :
  at_levels slice_ok q → nodes ⊆ nodes' → isVBlocking q nodes = true → isVBlocking q nodes' = true.
Proof.
  intros Hq Hs. rewrite !isVBlocking_blocked by done. apply blocked_mono.
  unfold inNodes. intros n. rewrite !bool_decide_eq_true. auto.
Qed.

Lemma filterNodes_mono (envs : EnvMap) (f g : SCPStatement → bool) :
  (∀ e, e ∈ envs → f (getStatement e.2) = true → g (getStatement e.2) = true) →
  filterNodes envs f ⊆ filterNodes envs g.
Proof. intros H n. rewrite !elem_of_filterNodes. intros (w & Hw & Hf). exists w. split; [done|]. by apply (H (n, w)). Qed.

Lemma isQuorum_mono envs (f g : SCPStatement → bool) :
  (∀ e, e ∈ envs → f (getStatement e.2) = true → g (getStatement e.2) = true) →
  isQuorum localQuorumSet envs getQuorumSetFromStatement f = true →
  isQuorum localQuorumSet envs getQuorumSetFromStatement g = true.
Proof.
  intros H. pose proof (slice_ok_typed _ Hlocal) as Ht.
  rewrite !(isQuorum_iff _ _ getQuorumSet_typed) by done. intros (U & H1 & H2).
  exists U. split; [|done]. etrans; [exact H1|]. by apply filterNodes_mono.
Qed.

Lemma federatedAccept_mono envs (v a v' a' : SCPStatement → bool) :
  (∀ e, e ∈ envs → a (getStatement e.2) = true → a' (getStatement e.2) = true) →
  (∀ e, e ∈ envs → v (getStatement e.2) = true →
     a' (getStatement e.2) = true ∨ v' (getStatement e.2) = true) →
  federatedAccept v a envs = true → federatedAccept v' a' envs = true.
Proof.
  intros Ha Hv. unfold federatedAccept, isVBlockingMap.
  destruct (isVBlocking _ (filterNodes envs a)) eqn:Eb.
  - intros _. rewrite (isVBlocking_mono _ (filterNodes envs a) (filterNodes envs a') Hlocal); [done| |done].
    by apply filterNodes_mono.
  - destruct (isVBlocking _ (filterNodes envs a')); [done|].
    destruct (isQuorum _ _ _ (λ st, a st || v st)) eqn:Eq; [|done]. intros _.
    erewrite isQuorum_mono; [done| |exact Eq]. simpl. intros e He.
    rewrite !orb_true_iff. naive_solver.
Qed.

(** A commit cannot be accepted before some candidate is accepted prepared. *)
Lemma accept_commit_candidate envs hint ballot e0 cur :
  commitHint hint = Some ballot → e0 ∈ envs → getStatement e0.2 = hint →
  federatedAccept (votesForCommit ballot cur) (commitPredicate ballot cur) envs = true →
  ∃ b, b ∈ getPrepareCandidates envs hint ∧
    federatedAccept (votesForPrepared b) (hasPreparedBallot b) envs = true.
Proof.
  intros Hc He0 Eh Hacc.
  destruct (least_candidate envs hint ballot e0 Hc He0 Eh) as (b & Hb & Hall).
  exists b. split; [done|]. eapply federatedAccept_mono; [| |exact Hacc].
  - intros e He. specialize (Hall e He). unfold worksOn in Hall. unfold commitPredicate.
    destruct (pledges (getStatement e.2)); try done;
      (destruct (areBallotsCompatible _ _) eqn:Ec; [|done]); apply compatible_iff in Ec; auto.
  - intros e He. specialize (Hall e He). unfold worksOn in Hall. unfold votesForCommit.
    destruct (pledges (getStatement e.2)); try done;
      (destruct (areBallotsCompatible _ _) eqn:Ec; [|done]); apply compatible_iff in Ec; auto.
Qed.
End Votes.
