(* ===== verification/BallotSpec.v ===== *)
(** * Abstract specification of the ballot protocol

    The rules of federated Byzantine agreement as a step relation on the part of
    the ballot state they speak about: phase, ballots [b], [p], [p'], [h], [c] and
    the latest statements.  Each rule carries the federated vote that justifies
    it.  Safety is proved here, by induction on the rules; BallotRefine.v shows
    that every handler of BallotProtocol.v performs a sequence of these steps. *)

From stdpp Require Import prelude list relations.
From Stdlib Require Import ZArith Lia.
From S2P Require Import Prelude QuorumSet ScpTypes LocalNode Ballots Slot.
Local Open Scope Z_scope.

Record Core : Type := mkCore {
  kPhase : SCPPhase;
  kCur : option SCPBallot;
  kPrep : option SCPBallot;
  kPrime : option SCPBallot;
  kHigh : option SCPBallot;
  kCommit : option SCPBallot;
  kEnvs : EnvMap
}.

Definition core (b : BallotProtocol) : Core :=
  mkCore (mPhase b) (mCurrentBallot b) (mPrepared b) (mPreparedPrime b)
    (mHighBallot b) (mCommit b) (mLatestEnvelopes b).

(** ** Effects of the rules *)

Definition bumpCore (ballot : SCPBallot) (k : Core) : Core :=
  match kHigh k with
  | Some h =>
      if areBallotsCompatible ballot h
      then mkCore (kPhase k) (Some ballot) (kPrep k) (kPrime k) (kHigh k) (kCommit k) (kEnvs k)
      else mkCore (kPhase k) (Some ballot) (kPrep k) (kPrime k) None None (kEnvs k)
  | None => mkCore (kPhase k) (Some ballot) (kPrep k) (kPrime k) None (kCommit k) (kEnvs k)
  end.

(** [b] is raised to [h] when it is lower. *)
Definition followCore (h : SCPBallot) (k : Core) : Core :=
  match kCur k with
  | Some c => if compareBallots c h <? 0 then bumpCore h k else k
  | None => bumpCore h k
  end.

(** [p] and [p'] are the two highest accepted prepared ballots of different
    values. *)
Definition preparedCore (ballot : SCPBallot) (k : Core) : Core :=
  let upd p p' := mkCore (kPhase k) (kCur k) p p' (kHigh k) (kCommit k) (kEnvs k) in
  match kPrep k with
  | None => upd (Some ballot) (kPrime k)
  | Some p =>
      if compareBallots p ballot <? 0
      then upd (Some ballot) (if areBallotsCompatible p ballot then kPrime k else Some p)
      else if 0 <? compareBallots p ballot
      then upd (Some p)
             (match kPrime k with
              | None => Some ballot
              | Some p' => if (compareBallots p' ballot <? 0) &&
                              negb (areBallotsCompatible p ballot)
                           then Some ballot else Some p'
              end)
      else k
  end.

(** The vote to commit is withdrawn when [h] is aborted by [p] or [p']. *)
Definition aborted (k : Core) : bool :=
  match kCommit k, kHigh k with
  | Some _, Some h =>
      match kPrep k with Some p => areBallotsLessAndIncompatible h p | None => false end ||
      match kPrime k with Some p' => areBallotsLessAndIncompatible h p' | None => false end
  | _, _ => false
  end.

Definition withdrawCore (k : Core) : Core :=
  if aborted k
  then mkCore (kPhase k) (kCur k) (kPrep k) (kPrime k) (kHigh k) None (kEnvs k)
  else k.

Definition confirmPreparedCore (newC newH : SCPBallot) (k : Core) : Core :=
  let on_value := match kCur k with Some c => areBallotsCompatible c newH | None => true end in
  let k1 :=
    if on_value then
      mkCore (kPhase k) (kCur k) (kPrep k) (kPrime k)
        (match kHigh k with
         | Some h => if 0 <? compareBallots newH h then Some newH else Some h
         | None => Some newH end)
        (if counter newC =? 0 then kCommit k else Some newC) (kEnvs k)
    else k in
  followCore newH k1.

Definition acceptCommitCore (c h : SCPBallot) (k : Core) : Core :=
  match kPhase k with
  | SCP_PHASE_PREPARE =>
      let k1 := mkCore SCP_PHASE_CONFIRM (kCur k) (kPrep k) (kPrime k) (Some h) (Some c) (kEnvs k) in
      let k2 := match kCur k with
                | Some cur => if areBallotsLessAndCompatible h cur then k1 else bumpCore h k1
                | None => k1 end in
      followCore h (mkCore (kPhase k2) (kCur k2) (kPrep k2) None (kHigh k2) (kCommit k2) (kEnvs k2))
  | _ => followCore h (mkCore (kPhase k) (kCur k) (kPrep k) (kPrime k) (Some h) (Some c) (kEnvs k))
  end.

Definition confirmCommitCore (c h : SCPBallot) (k : Core) : Core :=
  let k1 := followCore h
    (mkCore (kPhase k) (kCur k) (kPrep k) (kPrime k) (Some h) (Some c) (kEnvs k)) in
  mkCore SCP_PHASE_EXTERNALIZE (kCur k1) (kPrep k1) (kPrime k1) (kHigh k1) (kCommit k1) (kEnvs k1).

Definition recordCore (w : SCPEnvelopeWrapper) (k : Core) : Core :=
  mkCore (kPhase k) (kCur k) (kPrep k) (kPrime k) (kHigh k) (kCommit k)
    (map_insert (nodeID (getStatement w)) w (kEnvs k)).

(** ** The rules

    Counters are [uint32] in the messages. *)

Definition typed_ballot (b : SCPBallot) : Prop := in_u32 (counter b).
Definition typed_opt (o : option SCPBallot) : Prop := ∀ b, o = Some b → typed_ballot b.

Definition typed_statement (st : SCPStatement) : Prop :=
  match pledges st with
  | ST_PREPARE p =>
      typed_ballot (p_ballot p) ∧ typed_opt (p_prepared p) ∧ typed_opt (p_preparedPrime p) ∧
      in_u32 (p_nC p) ∧ in_u32 (p_nH p)
  | ST_CONFIRM c =>
      typed_ballot (c_ballot c) ∧ in_u32 (c_nPrepared c) ∧ in_u32 (c_nCommit c) ∧ in_u32 (c_nH c)
  | ST_EXTERNALIZE e => typed_ballot (e_commit e) ∧ in_u32 (e_nH e)
  | ST_NOMINATE _ => True
  end.

Section Rules.
Context {D : SCPDriver} {L : LocalNode}.

(** A commit statement tells the state of its author: the value committed to,
    and the quorum set in use. *)
Definition said (k : Core) (st : SCPStatement) : Prop :=
  match pledges st with
  | ST_CONFIRM c =>
      kPhase k ≠ SCP_PHASE_PREPARE ∧ c_quorumSetHash c = localQuorumSetHash ∧
      ∃ b, kCommit k = Some b ∧ value b = value (c_ballot c)
  | ST_EXTERNALIZE e =>
      kPhase k = SCP_PHASE_EXTERNALIZE ∧ ∃ b, kCommit k = Some b ∧ value b = value (e_commit e)
  | _ => True
  end.

Inductive istep (k : Core) : Core → Prop :=
(* steps 1 and 5 of the paper: accept that a ballot is prepared *)
| step_acceptPrepared ballot :
    typed_ballot ballot →
    kPhase k ≠ SCP_PHASE_EXTERNALIZE →
    (kPhase k = SCP_PHASE_CONFIRM →
       ∃ p, kPrep k = Some p ∧ areBallotsLessAndCompatible p ballot = true) →
    (∀ p', kPrime k = Some p' → 0 < compareBallots ballot p') →
    (∀ p, kPrep k = Some p → areBallotsLessAndCompatible ballot p = false) →
    federatedAccept (votesForPrepared ballot) (hasPreparedBallot ballot) (kEnvs k) = true →
    (aborted (preparedCore ballot k) = true → kPhase k = SCP_PHASE_PREPARE) →
    istep k (withdrawCore (preparedCore ballot k))
(* steps 2, 3 and 8: confirm a ballot prepared, vote to commit *)
| step_confirmPrepared newC newH :
    typed_ballot newC ∧ typed_ballot newH →
    kPhase k = SCP_PHASE_PREPARE → kPrep k ≠ None →
    (∀ h, kHigh k = Some h → compareBallots h newH < 0) →
    federatedRatify (hasPreparedBallot newH) (kEnvs k) = true →
    (counter newC ≠ 0 →
       kCommit k = None ∧ areBallotsLessAndCompatible newC newH = true ∧
       federatedRatify (hasPreparedBallot newC) (kEnvs k) = true) →
    istep k (confirmPreparedCore newC newH k)
(* steps 4, 6 and 8: accept the commit of an interval of ballots *)
| step_acceptCommit c h :
    typed_ballot c ∧ typed_ballot h →
    kPhase k ≠ SCP_PHASE_EXTERNALIZE → kPrep k ≠ None →
    value c = value h → 0 < counter c → counter c ≤ counter h →
    (kPhase k = SCP_PHASE_CONFIRM →
       ∃ h0, kHigh k = Some h0 ∧ value h0 = value h ∧ counter h0 < counter h) →
    federatedAccept (votesForCommit h (counter c, counter h))
      (commitPredicate h (counter c, counter h)) (kEnvs k) = true →
    istep k (acceptCommitCore c h k)
(* steps 7 and 8: confirm the commit *)
| step_confirmCommit c h :
    typed_ballot c ∧ typed_ballot h →
    kPhase k = SCP_PHASE_CONFIRM →
    value c = value h → 0 < counter c → counter c ≤ counter h →
    (∃ c0, kCommit k = Some c0 ∧ value c0 = value h) →
    federatedRatify (commitPredicate h (counter c, counter h)) (kEnvs k) = true →
    istep k (confirmCommitCore c h k)
(* step 9 and timeouts: a higher ballot *)
| step_bump ballot :
    typed_ballot ballot →
    kPhase k ≠ SCP_PHASE_EXTERNALIZE →
    (∀ cur, kCur k = Some cur → compareBallots cur ballot < 0) →
    (∀ c, kCommit k = Some c → value c = value ballot) →
    istep k (bumpCore ballot k)
(* the node records its own statement *)
| step_own w :
    typed_statement (getStatement w) →
    nodeID (getStatement w) = localNodeID → is_ballot_statement (getStatement w) →
    said k (getStatement w) →
    istep k (recordCore w k).

Definition isteps : Core → Core → Prop := rtc istep.

(** ** The invariant *)

Record CoreInv (k : Core) : Prop := {
  ci_prime : ∀ p', kPrime k = Some p' →
    ∃ p, kPrep k = Some p ∧ value p' ≠ value p ∧ compareBallots p' p < 0;
  ci_high : ∀ h, kHigh k = Some h →
    ∃ cur, kCur k = Some cur ∧ value h = value cur ∧ counter h ≤ counter cur;
  ci_commit : ∀ c, kCommit k = Some c →
    ∃ h, kHigh k = Some h ∧ value c = value h ∧ counter c ≤ counter h;
  ci_confirm : kPhase k = SCP_PHASE_CONFIRM → kCommit k ≠ None ∧ kPrep k ≠ None;
  ci_externalize : kPhase k = SCP_PHASE_EXTERNALIZE → kCommit k ≠ None
}.

(** Everything but [ci_high], which the rules break before [b] follows [h]. *)
Record WeakInv (k : Core) : Prop := {
  wi_prime : ∀ p', kPrime k = Some p' →
    ∃ p, kPrep k = Some p ∧ value p' ≠ value p ∧ compareBallots p' p < 0;
  wi_commit : ∀ c, kCommit k = Some c →
    ∃ h, kHigh k = Some h ∧ value c = value h ∧ counter c ≤ counter h;
  wi_confirm : kPhase k = SCP_PHASE_CONFIRM → kCommit k ≠ None ∧ kPrep k ≠ None;
  wi_externalize : kPhase k = SCP_PHASE_EXTERNALIZE → kCommit k ≠ None
}.

Lemma CoreInv_weak k : CoreInv k → WeakInv k.
Proof. intros []. by split. Qed.

Lemma bumpCore_inv ballot k :
  WeakInv k →
  (∀ h, kHigh k = Some h → value ballot = value h → counter h ≤ counter ballot) →
  (kPhase k ≠ SCP_PHASE_PREPARE → ∃ h, kHigh k = Some h ∧ value ballot = value h) →
  CoreInv (bumpCore ballot k).
Proof.
  intros [Hp Hc Hcf He] Hh Hph. unfold bumpCore.
  destruct (kHigh k) as [h|] eqn:Eh; [destruct (areBallotsCompatible ballot h) eqn:Ec|].
  - apply compatible_iff in Ec. split; simpl; eauto.
    intros h' [= <-]. exists ballot. split_and!; eauto.
  - assert (kPhase k = SCP_PHASE_PREPARE) as HP.
    { destruct (decide (kPhase k = SCP_PHASE_PREPARE)); [done|].
      destruct Hph as (h' & [= <-] & Hv); [done|]. apply compatible_iff in Hv. congruence. }
    split; simpl; try done; eauto; by rewrite HP.
  - assert (kPhase k = SCP_PHASE_PREPARE) as HP.
    { destruct (decide (kPhase k = SCP_PHASE_PREPARE)); [done|].
      by destruct Hph as (h' & ? & Hv). }
    split; simpl; try done; eauto.
Qed.

Lemma followCore_inv h k :
  WeakInv k →
  (∀ h0, kHigh k = Some h0 →
     h0 = h ∨ ∃ cur, kCur k = Some cur ∧ value h0 = value cur ∧ counter h0 ≤ counter cur) →
  (∀ cur, kCur k = Some cur → kHigh k = Some h → value cur = value h) →
  (kPhase k ≠ SCP_PHASE_PREPARE → kHigh k = Some h) →
  CoreInv (followCore h k).
Proof.
  intros Hw Hh Hv Hph. unfold followCore.
  destruct (kCur k) as [cur|] eqn:Ec; [destruct (Z.ltb_spec (compareBallots cur h) 0) as [Hlt|Hge]|].
  - apply bumpCore_inv; [done| |].
    + intros h0 E0 Hv0. destruct (Hh h0 E0) as [->|(cur' & [= <-] & H1 & H2)]; [done|].
      pose proof (compareBallots_counter cur h). lia.
    + intros Hn. eauto.
  - destruct Hw as [Hp Hc Hcf He]. split; try done.
    intros h0 E0. rewrite Ec. destruct (Hh h0 E0) as [->|?]; [|done].
    exists cur. assert (value cur = value h) as Hvc by eauto. split_and!; [done..|].
    apply compareBallots_same_value; [done|]. apply (cmp_le_flip compareBallots). lia.
  - apply bumpCore_inv; [done| |].
    + intros h0 E0 _. by destruct (Hh h0 E0) as [->|(cur' & ? & _)].
    + intros Hn. eauto.
Qed.

Lemma preparedCore_frame ballot k :
  kPhase (preparedCore ballot k) = kPhase k ∧ kCur (preparedCore ballot k) = kCur k ∧
  kHigh (preparedCore ballot k) = kHigh k ∧ kCommit (preparedCore ballot k) = kCommit k ∧
  kEnvs (preparedCore ballot k) = kEnvs k.
Proof. unfold preparedCore. by destruct (kPrep k); [repeat case_match|]. Qed.

Lemma preparedCore_inv ballot k :
  CoreInv k →
  (∀ p', kPrime k = Some p' → 0 < compareBallots ballot p') →
  (∀ p, kPrep k = Some p → areBallotsLessAndCompatible ballot p = false) →
  CoreInv (preparedCore ballot k).
Proof.
  intros [Hp Hh Hc Hcf He] H1 H2.
  destruct (preparedCore_frame ballot k) as (E1 & E2 & E3 & E4 & _).
  assert (kPrep (preparedCore ballot k) ≠ None ∧
    ∀ p', kPrime (preparedCore ballot k) = Some p' →
    ∃ p, kPrep (preparedCore ballot k) = Some p ∧ value p' ≠ value p ∧
      compareBallots p' p < 0) as [Hne Hp'].
  { unfold preparedCore. destruct (kPrep k) as [p|] eqn:Ep; simpl.
    2:{ split; [done|]. intros p' E'. destruct (Hp p' E') as (? & ? & _). congruence. }
    specialize (H2 p eq_refl).
    assert (compareBallots ballot p ≤ 0 → value ballot ≠ value p) as Hinc.
    { intros Hle Hv. enough (areBallotsLessAndCompatible ballot p = true) by congruence.
      apply lessCompatible_iff. split; [done|]. by apply compareBallots_same_value. }
    destruct (Z.ltb_spec (compareBallots p ballot) 0) as [Hlt|]; simpl.
    - split; [done|]. destruct (areBallotsCompatible p ballot) eqn:Ec.
      + intros p' E'. destruct (Hp p' E') as (p0 & [= <-] & Hv & Hl).
        apply compatible_iff in Ec. exists ballot. split_and!; [done|congruence|].
        by eapply (cmp_lt_trans compareBallots).
      + intros p' [= <-]. exists ballot. split_and!; [done| |done].
        intros ?%compatible_iff. congruence.
    - destruct (Z.ltb_spec 0 (compareBallots p ballot)) as [Hgt|]; simpl.
      + split; [done|]. assert (compareBallots ballot p < 0) as Hlt
          by by apply (cmp_flip compareBallots).
        intros p' E'. exists p. split; [done|].
        destruct (kPrime k) as [q|] eqn:Eq.
        * destruct ((compareBallots q ballot <? 0) && _) eqn:Et.
          -- injection E' as <-. split; [apply Hinc; lia|done].
          -- injection E' as <-. destruct (Hp q eq_refl) as (? & [= <-] & ? & ?). done.
        * injection E' as <-. split; [apply Hinc; lia|done].
      + rewrite Ep. split; [done|]. intros p' E'.
        destruct (Hp p' E') as (p0 & [= <-] & ?). eauto. }
  split; [done|rewrite E2, E3; done|rewrite E3, E4; done|rewrite E1, E4|rewrite E1, E4; done].
  intros Hcp. destruct (Hcf Hcp). done.
Qed.

Lemma withdrawCore_inv k :
  CoreInv k → (aborted k = true → kPhase k = SCP_PHASE_PREPARE) → CoreInv (withdrawCore k).
Proof.
  intros [Hp Hh Hc Hcf He] H. unfold withdrawCore.
  destruct (aborted k) eqn:Ea; [|by split]. specialize (H eq_refl).
  split; simpl; try done; by rewrite H.
Qed.

Lemma confirmPreparedCore_inv newC newH k :
  CoreInv k → kPhase k = SCP_PHASE_PREPARE → 
  (∀ h, kHigh k = Some h → compareBallots h newH < 0) →
  (counter newC ≠ 0 → kCommit k = None ∧ areBallotsLessAndCompatible newC newH = true) →
  CoreInv (confirmPreparedCore newC newH k).
Proof.
  intros Hi Hph Hlt HC. pose proof (CoreInv_weak k Hi) as Hw.
  destruct Hi as [Hp Hh Hc Hcf He]. unfold confirmPreparedCore.
  set (on_value := match kCur k with Some c => areBallotsCompatible c newH | None => true end).
  destruct on_value eqn:Eo.
  - assert (match kHigh k with
            | Some h => if 0 <? compareBallots newH h then Some newH else Some h
            | None => Some newH end = Some newH) as ->.
    { destruct (kHigh k) as [h|]; [|done].
      pose proof (proj1 (cmp_flip compareBallots h newH) (Hlt h eq_refl)).
      by rewrite (proj2 (Z.ltb_lt _ _)). }
    apply followCore_inv; simpl.
    + split; simpl; try done; try (by rewrite Hph).
      intros c. destruct (Z.eqb_spec (counter newC) 0) as [_|Hne].
      * intros Ec. destruct (Hc c Ec) as (h & Eh & Hv & Hl). exists newH.
        destruct (Hh h Eh) as (cur & Ecur & Hv' & _).
        unfold on_value in Eo. rewrite Ecur in Eo. apply compatible_iff in Eo.
        split_and!; [done|congruence|].
        specialize (Hlt h Eh). pose proof (compareBallots_counter h newH). lia.
      * intros [= <-]. destruct (HC Hne) as [_ [? ?]%lessCompatible_iff]. eauto.
    + intros h0 [= <-]. by left.
    + intros cur Ecur _. unfold on_value in Eo. rewrite Ecur in Eo. by apply compatible_iff.
    + by rewrite Hph.
  - apply followCore_inv; [done| | |by rewrite Hph].
    + intros h0 E0. right. by apply Hh.
    + intros cur Ecur Eh. specialize (Hlt newH Eh). rewrite (cmp_refl compareBallots) in Hlt. lia.
Qed.

Lemma acceptCommitCore_inv c h k :
  CoreInv k → kPhase k ≠ SCP_PHASE_EXTERNALIZE → kPrep k ≠ None →
  value c = value h → counter c ≤ counter h →
  (kPhase k = SCP_PHASE_CONFIRM →
     ∃ h0, kHigh k = Some h0 ∧ value h0 = value h ∧ counter h0 < counter h) →
  CoreInv (acceptCommitCore c h k).
Proof.
  intros Hi Hph Hprep Hv Hl Hconf. destruct Hi as [Hp Hh Hc Hcf He].
  unfold acceptCommitCore. destruct (kPhase k) eqn:Eph; [| |done].
  - set (k1 := mkCore SCP_PHASE_CONFIRM (kCur k) (kPrep k) (kPrime k) (Some h) (Some c) (kEnvs k)).
    assert (WeakInv k1) as Hw.
    { split; simpl; try done. intros c' [= <-]. eauto. }
    set (k2 := match kCur k with Some cur => _ | None => _ end).
    assert (kHigh k2 = Some h ∧ kCommit k2 = Some c ∧ kPrep k2 = kPrep k ∧
      kPhase k2 = SCP_PHASE_CONFIRM ∧
      ∀ cur, kCur k2 = Some cur → value cur = value h) as (H1 & H2 & H3 & H4 & H5).
    { subst k2. destruct (kCur k) as [cur|] eqn:Ec; [|subst k1; split_and!; naive_solver].
      destruct (areBallotsLessAndCompatible h cur) eqn:El.
      - apply lessCompatible_iff in El as [? _]. subst k1; split_and!; naive_solver.
      - unfold bumpCore. simpl. rewrite (proj2 (compatible_iff h h)) by done. simpl.
        split_and!; naive_solver. }
    apply followCore_inv; simpl.
    + split; simpl; try done; rewrite ?H1, ?H2, ?H3, ?H4; try done.
      intros c' [= <-]. eauto.
    + rewrite H1. intros h0 [= <-]. by left.
    + intros cur Hcur _. auto.
    + by rewrite H1.
  - destruct (Hconf eq_refl) as (h0 & E0 & Hv0 & Hl0).
    destruct (Hh h0 E0) as (cur & Ecur & Hvc & _).
    apply followCore_inv; simpl; try done.
    + split; simpl; try done. intros c' [= <-]. eauto.
    + intros h1 [= <-]. by left.
    + rewrite Ecur. intros cur' [= <-] _. congruence.
Qed.

Lemma confirmCommitCore_inv c h k :
  CoreInv k → kPhase k = SCP_PHASE_CONFIRM →
  value c = value h → counter c ≤ counter h →
  (∃ c0, kCommit k = Some c0 ∧ value c0 = value h) →
  CoreInv (confirmCommitCore c h k).
Proof.
  intros Hi Hph Hv Hl (c0 & Ec0 & Hvc). destruct Hi as [Hp Hh Hc Hcf He].
  destruct (Hc c0 Ec0) as (h0 & Eh0 & Hv0 & _).
  destruct (Hh h0 Eh0) as (cur & Ecur & Hvcur & _).
  unfold confirmCommitCore. set (k1 := followCore h _).
  assert (CoreInv k1) as [? ? ? ? ?].
  { apply followCore_inv; simpl; try done.
    - split; simpl; [done|intros c' [= <-]; eauto|intros _; split; [done|by apply Hcf]|done].
    - intros h1 [= <-]. by left.
    - rewrite Ecur. intros cur' [= <-] _. congruence. }
  assert (kPhase k1 = SCP_PHASE_CONFIRM) as Hk1.
  { unfold k1, followCore, bumpCore; simpl. by repeat case_match. }
  split; simpl; try done. intros _. by apply ci_confirm0.
Qed.

Lemma istep_inv k k' : istep k k' → CoreInv k → CoreInv k'.
Proof.
  destruct 1 as [ballot ? ? ? ? ? ? Hab|newC newH ? ? ? ? ? HC|c h|c h|ballot ? Hph Hlt Hcc|w];
    intros Hi.
  - destruct (preparedCore_frame ballot k) as (E1 & _).
    apply withdrawCore_inv; [by apply preparedCore_inv|]. intros. rewrite E1. auto.
  - apply confirmPreparedCore_inv; try done. naive_solver.
  - by apply acceptCommitCore_inv.
  - by apply confirmCommitCore_inv.
  - apply bumpCore_inv; [by apply CoreInv_weak| |].
    + intros h Eh Hv. destruct (ci_high _ Hi h Eh) as (cur & Ec & _ & Hl).
      pose proof (compareBallots_counter cur ballot). specialize (Hlt cur Ec). lia.
    + intros Hn. assert (kCommit k ≠ None) as Hc.
      { destruct (kPhase k) eqn:E; [done| |done]. by apply (ci_confirm _ Hi). }
      destruct (kCommit k) as [c|] eqn:Ec; [|done].
      destruct (ci_commit _ Hi c Ec) as (h & Eh & Hv & _). exists h. split; [done|].
      rewrite <- Hv. symmetry. auto.
  - destruct Hi. by split.
Qed.

Lemma isteps_inv k k' : isteps k k' → CoreInv k → CoreInv k'.
Proof. induction 1; eauto using istep_inv. Qed.

(** ** Progress is monotone *)

Definition phase_index (p : SCPPhase) : Z :=
  match p with
  | SCP_PHASE_PREPARE => 0 | SCP_PHASE_CONFIRM => 1 | SCP_PHASE_EXTERNALIZE => 2
  end.

(** The statements of the other nodes. *)
Definition others (envs : EnvMap) : EnvMap :=
  List.filter (λ e, negb (e.1 =? localNodeID)) envs.

Lemma others_insert w envs : others (map_insert localNodeID w envs) = others envs.
Proof.
  unfold others. induction envs as [|[n w'] envs IH]; simpl; [by rewrite Z.eqb_refl|].
  destruct (Z.ltb_spec localNodeID n) as [Hlt|Hge]; simpl.
  { rewrite Z.eqb_refl. simpl. by destruct (Z.eqb_spec n localNodeID); [lia|]. }
  destruct (Z.eqb_spec localNodeID n) as [<-|Hne]; simpl.
  { by rewrite Z.eqb_refl. }
  destruct (Z.eqb_spec n localNodeID); [lia|]. simpl. by rewrite IH.
Qed.

Record Mono (k k' : Core) : Prop := {
  mo_phase : phase_index (kPhase k) ≤ phase_index (kPhase k');
  mo_ext : kPhase k = SCP_PHASE_EXTERNALIZE →
    kPhase k' = kPhase k ∧ kCur k' = kCur k ∧ kPrep k' = kPrep k ∧
    kPrime k' = kPrime k ∧ kHigh k' = kHigh k ∧ kCommit k' = kCommit k;
  mo_commit : kPhase k = SCP_PHASE_CONFIRM → ∀ c, kCommit k = Some c →
    ∃ c', kCommit k' = Some c' ∧ value c' = value c;
  mo_prep : optionCmp compareBallots (kPrep k) (kPrep k') ≤ 0;
  mo_cur : kPhase k = kPhase k' → optionCmp compareBallots (kCur k) (kCur k') ≤ 0;
  mo_others : others (kEnvs k') = others (kEnvs k)
}.

Lemma Mono_refl k : Mono k k.
Proof.
  pose proof (cmp_refl (optionCmp compareBallots)) as Hr.
  split; try done; eauto; intros; rewrite ?Hr; lia.
Qed.

Lemma Mono_trans k1 k2 k3 : Mono k1 k2 → Mono k2 k3 → Mono k1 k3.
Proof.
  intros [A1 A2 A3 A4 A5 A6] [B1 B2 B3 B4 B5 B6]. split.
  - lia.
  - intros E. destruct (A2 E) as (E1 & E2 & E3 & E4 & E5 & E6).
    rewrite <- E1, <- E2, <- E3, <- E4, <- E5, <- E6. apply B2. congruence.
  - intros E c Ec. destruct (A3 E c Ec) as (c2 & Ec2 & Hv2).
    destruct (kPhase k2) eqn:E2.
    + rewrite E in A1. simpl in A1. lia.
    + destruct (B3 eq_refl c2 Ec2) as (c3 & ? & ?). exists c3. split; [done|congruence].
    + destruct (B2 eq_refl) as (_ & _ & _ & _ & _ & ->). eauto.
  - by eapply (cmp_le_trans (optionCmp compareBallots)).
  - intros E. assert (kPhase k1 = kPhase k2) as E12.
    { rewrite <- E in B1. destruct (kPhase k1), (kPhase k2); simpl in *; done || lia. }
    eapply (cmp_le_trans (optionCmp compareBallots)); [by apply A5|]. apply B5. congruence.
  - congruence.
Qed.

Lemma bumpCore_frame b k :
  kPhase (bumpCore b k) = kPhase k ∧ kCur (bumpCore b k) = Some b ∧
  kPrep (bumpCore b k) = kPrep k ∧ kEnvs (bumpCore b k) = kEnvs k.
Proof. unfold bumpCore. by repeat case_match. Qed.

Lemma followCore_frame h k :
  kPhase (followCore h k) = kPhase k ∧ kPrep (followCore h k) = kPrep k ∧
  kEnvs (followCore h k) = kEnvs k ∧
  optionCmp compareBallots (kCur k) (kCur (followCore h k)) ≤ 0.
Proof.
  destruct (bumpCore_frame h k) as (E1 & E2 & E3 & E4). unfold followCore.
  destruct (kCur k) as [c|] eqn:Ec.
  - destruct (Z.ltb_spec (compareBallots c h) 0).
    + rewrite E2. simpl. split_and!; done || lia.
    + rewrite Ec. simpl. rewrite (cmp_refl compareBallots). by split_and!.
  - rewrite E2. split_and!; done || (simpl; lia).
Qed.

(** Following a compatible [h] keeps [h] and [c]. *)
Lemma followCore_keeps h k c :
  kHigh k = Some h → kCommit k = Some c →
  kHigh (followCore h k) = Some h ∧ kCommit (followCore h k) = Some c.
Proof.
  intros Eh Ec. assert (kHigh (bumpCore h k) = Some h ∧ kCommit (bumpCore h k) = Some c).
  { unfold bumpCore. rewrite Eh, (proj2 (compatible_iff h h)) by done. simpl. by rewrite Ec. }
  unfold followCore. by repeat case_match.
Qed.

Lemma preparedCore_prep_mono b k :
  optionCmp compareBallots (kPrep k) (kPrep (preparedCore b k)) ≤ 0.
Proof.
  unfold preparedCore. destruct (kPrep k) as [p|] eqn:Ep; simpl; [|lia].
  pose proof (cmp_refl compareBallots p).
  destruct (Z.ltb_spec (compareBallots p b) 0); simpl; [lia|].
  destruct (Z.ltb_spec 0 (compareBallots p b)); simpl; [lia|]. rewrite Ep. simpl. lia.
Qed.

Lemma withdrawCore_frame k :
  kPhase (withdrawCore k) = kPhase k ∧ kCur (withdrawCore k) = kCur k ∧
  kPrep (withdrawCore k) = kPrep k ∧ kHigh (withdrawCore k) = kHigh k ∧
  kEnvs (withdrawCore k) = kEnvs k ∧
  (aborted k = false → kCommit (withdrawCore k) = kCommit k).
Proof. unfold withdrawCore. by destruct (aborted k). Qed.

Lemma confirmPreparedCore_frame newC newH k :
  kPhase (confirmPreparedCore newC newH k) = kPhase k ∧
  kPrep (confirmPreparedCore newC newH k) = kPrep k ∧
  kEnvs (confirmPreparedCore newC newH k) = kEnvs k ∧
  optionCmp compareBallots (kCur k) (kCur (confirmPreparedCore newC newH k)) ≤ 0.
Proof.
  unfold confirmPreparedCore.
  destruct (match kCur k with Some c => areBallotsCompatible c newH | None => true end).
  - apply (followCore_frame newH (mkCore _ _ _ _ _ _ _)).
  - apply (followCore_frame newH k).
Qed.

Lemma acceptCommitCore_frame c h k :
  kPhase k ≠ SCP_PHASE_EXTERNALIZE →
  kPhase (acceptCommitCore c h k) = SCP_PHASE_CONFIRM ∧
  kPrep (acceptCommitCore c h k) = kPrep k ∧ kEnvs (acceptCommitCore c h k) = kEnvs k ∧
  kHigh (acceptCommitCore c h k) = Some h ∧ kCommit (acceptCommitCore c h k) = Some c ∧
  (kPhase k = SCP_PHASE_CONFIRM →
     optionCmp compareBallots (kCur k) (kCur (acceptCommitCore c h k)) ≤ 0).
Proof.
  intros Hp. unfold acceptCommitCore. destruct (kPhase k) eqn:E; [| |done].
  - set (k1 := mkCore SCP_PHASE_CONFIRM (kCur k) (kPrep k) (kPrime k) (Some h) (Some c) (kEnvs k)).
    set (k2 := match kCur k with Some cur => _ | None => _ end).
    assert (kPhase k2 = SCP_PHASE_CONFIRM ∧ kPrep k2 = kPrep k ∧ kEnvs k2 = kEnvs k ∧
      kHigh k2 = Some h ∧ kCommit k2 = Some c) as (H1 & H2 & H3 & H4 & H5).
    { subst k2 k1. destruct (kCur k); [|done]. case_match; [done|].
      unfold bumpCore; simpl. by rewrite (proj2 (compatible_iff h h)). }
    set (k3 := mkCore (kPhase k2) _ _ _ _ _ _).
    destruct (followCore_frame h k3) as (-> & -> & -> & _).
    destruct (followCore_keeps h k3 c) as [-> ->]; [done..|]. done.
  - set (k3 := mkCore _ _ _ _ _ _ _).
    destruct (followCore_frame h k3) as (-> & -> & -> & Hc).
    destruct (followCore_keeps h k3 c) as [-> ->]; [done..|]. done.
Qed.

Lemma confirmCommitCore_frame c h k :
  kPhase (confirmCommitCore c h k) = SCP_PHASE_EXTERNALIZE ∧
  kPrep (confirmCommitCore c h k) = kPrep k ∧ kEnvs (confirmCommitCore c h k) = kEnvs k ∧
  kHigh (confirmCommitCore c h k) = Some h ∧ kCommit (confirmCommitCore c h k) = Some c.
Proof.
  unfold confirmCommitCore. set (k1 := mkCore (kPhase k) _ _ _ _ _ _).
  destruct (followCore_frame h k1) as (_ & E2 & E3 & _).
  destruct (followCore_keeps h k1 c) as [E4 E5]; [done..|]. simpl.
  rewrite E2, E3, E4, E5. done.
Qed.

Lemma istep_mono k k' : istep k k' → CoreInv k → Mono k k'.
Proof.
  pose proof (cmp_refl (optionCmp compareBallots)) as Hrefl.
  destruct 1 as [ballot ? Hp1 Hp2 ? ? ? Hab|newC newH ? Hph|c h ? Hph Hpr Hv ? ? Hcf
    |c h ? Hph Hv ? ? Hcc|ballot ? Hph Hlt Hcc|w ? Hw];
    intros Hi.
  - destruct (withdrawCore_frame (preparedCore ballot k)) as (E1 & E2 & E3 & E4 & E5 & E6).
    destruct (preparedCore_frame ballot k) as (F1 & F2 & F3 & F4 & F5).
    pose proof (preparedCore_prep_mono ballot k).
    split; rewrite ?E1, ?E2, ?E3, ?E5, ?F1, ?F2, ?F5; try done.
    + intros Hc c Ec. rewrite E6; [rewrite F4; eauto|].
      destruct (aborted (preparedCore ballot k)); [|done].
      specialize (Hab eq_refl). congruence.
    + rewrite Hrefl. lia.
  - destruct (confirmPreparedCore_frame newC newH k) as (E1 & E2 & E3 & E4).
    split; rewrite ?E1, ?E2, ?E3; try done; try (by rewrite Hph). rewrite Hrefl. lia.
  - destruct (acceptCommitCore_frame c h k Hph) as (E1 & E2 & E3 & E4 & E5 & E6).
    split; rewrite ?E1, ?E2, ?E3, ?E5; try done.
    + destruct (kPhase k); simpl; try lia. done.
    + intros Hc c0 Ec0. destruct (ci_commit _ Hi c0 Ec0) as (h0 & Eh0 & Hv0 & _).
      destruct (Hcf Hc) as (h1 & Eh1 & Hv1 & _). exists c. split; [done|].
      assert (h0 = h1) as <- by congruence. congruence.
    + rewrite Hrefl. lia.
  - destruct (confirmCommitCore_frame c h k) as (E1 & E2 & E3 & E4 & E5).
    split; rewrite ?E1, ?E2, ?E3, ?E5, ?Hph; try done.
    + intros _ c0 Ec0. destruct Hcc as (c1 & Ec1 & Hv1). exists c. split; [done|].
      assert (c0 = c1) as <- by congruence. congruence.
    + rewrite Hrefl. lia.
  - destruct (bumpCore_frame ballot k) as (E1 & E2 & E3 & E4).
    split; rewrite ?E1, ?E2, ?E3, ?E4; try done.
    + intros Hc c Ec. destruct (ci_commit _ Hi c Ec) as (h & Eh & Hv & _).
      unfold bumpCore. rewrite Eh, (proj2 (compatible_iff ballot h)).
      * simpl. eauto.
      * rewrite <- Hv. symmetry. auto.
    + rewrite Hrefl. lia.
    + intros _. destruct (kCur k) as [cur|]; simpl; [|lia]. specialize (Hlt cur eq_refl). lia.
  - destruct (Mono_refl k). split; try done. simpl. rewrite Hw. apply others_insert.
Qed.

Lemma isteps_mono k k' : isteps k k' → CoreInv k → Mono k k'.
Proof.
  induction 1 as [|k1 k2 k3 H12 H23 IH]; intros Hi; [apply Mono_refl|].
  eapply Mono_trans; [by apply istep_mono|]. apply IH. by eapply istep_inv.
Qed.

(** What a node said stays true of its state. *)
Lemma said_mono k k' st : Mono k k' → said k st → said k' st.
Proof.
  intros [M1 M2 M3 _ _ _]. unfold said. destruct (pledges st) as [p|c|e|n]; try done.
  - intros (Hp & Hq & b & Eb & Hv). destruct (kPhase k) eqn:Ep; [done| |].
    + split_and!; [by intros Ep'; rewrite Ep' in M1|done|].
      destruct (M3 eq_refl b Eb) as (b' & Eb' & Hv'). exists b'. split; [done|congruence].
    + destruct (M2 eq_refl) as (-> & _ & _ & _ & _ & ->). eauto.
  - intros (Hp & b & Eb & Hv). destruct (M2 Hp) as (-> & _ & _ & _ & _ & ->). eauto.
Qed.

(** The node's own recorded statement tells its state. *)
Definition OwnOk (k : Core) : Prop :=
  ∀ w, (localNodeID, w) ∈ kEnvs k → said k (getStatement w).

Lemma istep_envs k k' :
  istep k k' →
  kEnvs k' = kEnvs k ∨ ∃ w, said k (getStatement w) ∧ k' = recordCore w k.
Proof.
  destruct 1 as [b|c h|c h ? Hp|c h|b|w]; [left..|right; eauto].
  - destruct (withdrawCore_frame (preparedCore b k)) as (_ & _ & _ & _ & -> & _).
    apply preparedCore_frame.
  - apply confirmPreparedCore_frame.
  - by apply acceptCommitCore_frame.
  - apply confirmCommitCore_frame.
  - apply bumpCore_frame.
Qed.

Lemma isteps_own k k' : isteps k k' → CoreInv k → OwnOk k → OwnOk k'.
Proof.
  induction 1 as [|k1 k2 k3 H1 _ IH]; [done|]. intros Hi Ho. apply IH; [by eapply istep_inv|].
  destruct (istep_envs _ _ H1) as [E|(w & Hs & ->)].
  - intros w Hw. rewrite E in Hw. eapply said_mono; [by apply istep_mono|auto].
  - intros w' [[= _ ->]|Hw']%elem_of_map_insert; [exact Hs|by apply Ho].
Qed.

(** The step that externalizes. *)
Lemma isteps_externalize k k' :
  isteps k k' → kPhase k ≠ SCP_PHASE_EXTERNALIZE → kPhase k' = SCP_PHASE_EXTERNALIZE →
  ∃ k1 c h, isteps k k1 ∧ isteps (confirmCommitCore c h k1) k' ∧
    istep k1 (confirmCommitCore c h k1) ∧ kPhase k1 = SCP_PHASE_CONFIRM ∧
    value c = value h ∧ 0 < counter c ≤ counter h ∧
    federatedRatify (commitPredicate h (counter c, counter h)) (kEnvs k1) = true.
Proof.
  induction 1 as [k|k1 k2 k3 H1 H2 IH]; intros Hn He; [done|].
  destruct (decide (kPhase k2 = SCP_PHASE_EXTERNALIZE)) as [E2|E2].
  - assert (∃ c h, k2 = confirmCommitCore c h k1 ∧ kPhase k1 = SCP_PHASE_CONFIRM ∧
      value c = value h ∧ 0 < counter c ≤ counter h ∧
      federatedRatify (commitPredicate h (counter c, counter h)) (kEnvs k1) = true) as (c & h & -> & ?).
    { clear H2 IH. revert E2. destruct H1 as [b|c h|c h|c h|b|w]; intros E2; [exfalso..| |exfalso|exfalso].
      - destruct (withdrawCore_frame (preparedCore b k1)) as (E & _).
        destruct (preparedCore_frame b k1) as (E' & _). congruence.
      - destruct (confirmPreparedCore_frame c h k1) as (E & _). congruence.
      - destruct (acceptCommitCore_frame c h k1 Hn) as (E & _). congruence.
      - exists c, h. by split_and!.
      - destruct (bumpCore_frame b k1) as (E & _). congruence.
      - done. }
    exists k1, c, h. split; [apply rtc_refl|done].
  - destruct (IH E2 He) as (k4 & c & h & ? & ?). exists k4, c, h. split; [by eapply rtc_l|done].
Qed.

(** ** Types of the state *)

Record Typed (k : Core) : Prop := {
  ty_cur : typed_opt (kCur k);
  ty_prep : typed_opt (kPrep k);
  ty_prime : typed_opt (kPrime k);
  ty_high : typed_opt (kHigh k);
  ty_commit : typed_opt (kCommit k);
  ty_envs : ∀ n w, (n, w) ∈ kEnvs k →
    nodeID (getStatement w) = n ∧ is_ballot_statement (getStatement w) ∧
    typed_statement (getStatement w);
  ty_sorted : map_sorted (kEnvs k)
}.

Lemma typed_opt_Some b : typed_ballot b → typed_opt (Some b).
Proof. by intros ? ? [= <-]. Qed.

Lemma typed_opt_None : typed_opt None.
Proof. done. Qed.
#[local] Hint Resolve typed_opt_Some typed_opt_None : core.

Lemma bumpCore_typed b k : typed_ballot b → Typed k → Typed (bumpCore b k).
Proof.
  intros Hb []. unfold bumpCore. destruct (kHigh k) eqn:E; [case_match|]; split; simpl;
    auto; by rewrite E.
Qed.

Lemma followCore_typed h k : typed_ballot h → Typed k → Typed (followCore h k).
Proof. intros. unfold followCore. repeat case_match; auto using bumpCore_typed. Qed.

Lemma preparedCore_typed b k : typed_ballot b → Typed k → Typed (preparedCore b k).
Proof.
  intros Hb []. unfold preparedCore. destruct (kPrep k) as [p|] eqn:E.
  - assert (typed_opt (Some p)) by done.
    destruct (compareBallots p b <? 0); [|destruct (0 <? compareBallots p b); [|by split; rewrite ?E]].
    + split; simpl; auto. by destruct (areBallotsCompatible p b).
    + split; simpl; auto. destruct (kPrime k); [|auto]. case_match; auto.
  - split; simpl; auto.
Qed.

Lemma withdrawCore_typed k : Typed k → Typed (withdrawCore k).
Proof. intros []. unfold withdrawCore. case_match; split; simpl; auto. Qed.

Lemma recordCore_typed w k :
  typed_statement (getStatement w) → is_ballot_statement (getStatement w) →
  Typed k → Typed (recordCore w k).
Proof.
  intros Hw Hb []. split; simpl; auto; [|by apply map_insert_sorted].
  intros n w' [[= -> ->]|?]%elem_of_map_insert; [done|auto].
Qed.

Lemma confirmPreparedCore_typed newC newH k :
  typed_ballot newC → typed_ballot newH → Typed k → Typed (confirmPreparedCore newC newH k).
Proof.
  intros HC HH HT. unfold confirmPreparedCore. apply followCore_typed; [done|].
  destruct (match kCur k with Some c => areBallotsCompatible c newH | None => true end);
    [|done]. destruct HT. split; simpl; auto.
  - destruct (kHigh k) eqn:E; [|auto]. case_match; auto.
  - case_match; auto.
Qed.

Lemma acceptCommitCore_typed c h k :
  typed_ballot c → typed_ballot h → Typed k → Typed (acceptCommitCore c h k).
Proof.
  intros Hc Hh []. unfold acceptCommitCore.
  assert (Typed (mkCore SCP_PHASE_CONFIRM (kCur k) (kPrep k) (kPrime k) (Some h) (Some c) (kEnvs k)))
    as H1 by (split; simpl; auto).
  destruct (kPhase k); apply followCore_typed; try done; try (by split; simpl; auto).
  destruct (kCur k) as [cur|] eqn:E.
  - destruct (areBallotsLessAndCompatible h cur); [by destruct H1; split; simpl; auto|].
    apply (bumpCore_typed h) in H1 as []; [|done]. by split; simpl; auto.
  - by destruct H1; split; simpl; auto.
Qed.

Lemma confirmCommitCore_typed c h k :
  typed_ballot c → typed_ballot h → Typed k → Typed (confirmCommitCore c h k).
Proof.
  intros Hc Hh []. unfold confirmCommitCore. set (k1 := mkCore (kPhase k) _ _ _ _ _ _).
  assert (Typed (followCore h k1)) as []; [apply followCore_typed; [done|]|]; by split; simpl; auto.
Qed.

Lemma istep_typed k k' : istep k k' → Typed k → Typed k'.
Proof.
  destruct 1; intros; destruct_and?;
    auto using withdrawCore_typed, preparedCore_typed, confirmPreparedCore_typed,
      acceptCommitCore_typed, confirmCommitCore_typed, bumpCore_typed, recordCore_typed.
Qed.

Lemma isteps_typed k k' : isteps k k' → Typed k → Typed k'.
Proof. induction 1; eauto using istep_typed. Qed.
End Rules.
