(* ===== verification/BallotRefine.v ===== *)
(** * The ballot protocol implements its specification

    Every handler of BallotProtocol.v performs a sequence of the steps of
    BallotSpec.v on the ballot state, never dereferences a null pointer, never
    runs out of fuel and fails only by the exceptions and assertions listed in
    [okFail]. *)

From stdpp Require Import prelude list relations.
From Stdlib Require Import ZArith Lia.
From S2P Require Import Prelude QuorumSet ScpTypes LocalNode Ballots Slot BallotProtocol.
From S2P Require Import BallotVotes BallotSpec.
Local Open Scope Z_scope.

(** ** Reasoning about handlers *)

Section Wp.
Context {A : Type}.
Implicit Types (Q : A → Slot → Prop) (E : Failure → Prop).

Lemma wp_getB (f : BallotProtocol → A) s Q E :
  Q (f (mBallotProtocol s)) s → wp (getB f) s Q E.
Proof. done. Qed.

Lemma wp_getN (f : NominationProtocol → A) s Q E :
  Q (f (mNominationProtocol s)) s → wp (getN f) s Q E.
Proof. done. Qed.

Lemma wp_modB f s (Q : unit → Slot → Prop) E :
  Q tt (set_mBallotProtocol (f (mBallotProtocol s)) s) → wp (modB f) s Q E.
Proof. done. Qed.

Lemma wp_modN f s (Q : unit → Slot → Prop) E :
  Q tt (set_mNominationProtocol (f (mNominationProtocol s)) s) → wp (modN f) s Q E.
Proof. done. Qed.

Lemma wp_driver c s (Q : unit → Slot → Prop) E :
  Q tt (set_mDriverCalls (mDriverCalls s ++ [c]) s) → wp (driver c) s Q E.
Proof. done. Qed.

Lemma wp_dbgAssert b a s (Q : unit → Slot → Prop) E :
  (b = true → Q tt s) → (b = false → E (DbgAssert a)) → wp (dbgAssert b a) s Q E.
Proof. apply wp_check. Qed.

Lemma wp_deref (a : A) s Q E : Q a s → wp (deref (Some a)) s Q E.
Proof. done. Qed.
End Wp.

(** [wps] runs the straight-line part of a handler. *)
Ltac wp_prim :=
  lazymatch goal with
  | |- wp (ret _) _ _ _ => apply wp_ret
  | |- wp (getB _) _ _ _ => apply wp_getB
  | |- wp (getN _) _ _ _ => apply wp_getN
  | |- wp (gets _) _ _ _ => apply wp_gets
  | |- wp (modB _) _ _ _ => apply wp_modB
  | |- wp (modN _) _ _ _ => apply wp_modN
  | |- wp (modify _) _ _ _ => apply wp_modify
  | |- wp (driver _) _ _ _ => apply wp_driver
  | |- wp (deref (Some _)) _ _ _ => apply wp_deref
  end.
Ltac wp1 :=
  first [wp_prim | lazymatch goal with |- wp (bind _ _) _ _ _ => apply wp_bind; wp1 end].
Ltac wps := repeat (wp1; cbv beta delta [id]).

(** The part of the state the specification speaks about. *)
Definition ck (s : Slot) : Core := core (mBallotProtocol s).
Definition level (s : Slot) : Z := mCurrentMessageLevel (mBallotProtocol s).

(** The members of the class, named by the specification. *)
Ltac to_core s :=
  try change (mPhase (mBallotProtocol s)) with (kPhase (ck s));
  try change (mCurrentBallot (mBallotProtocol s)) with (kCur (ck s));
  try change (mPrepared (mBallotProtocol s)) with (kPrep (ck s));
  try change (mPreparedPrime (mBallotProtocol s)) with (kPrime (ck s));
  try change (mHighBallot (mBallotProtocol s)) with (kHigh (ck s));
  try change (mCommit (mBallotProtocol s)) with (kCommit (ck s));
  try change (mLatestEnvelopes (mBallotProtocol s)) with (kEnvs (ck s)).

(** The values the application was told are agreed on, in order. *)
Definition ext_calls (s : Slot) : list Value :=
  omap (λ c, match c with valueExternalized v => Some v | _ => None end) (mDriverCalls s).

Definition externalized (k : Core) : list Value :=
  match kPhase k, kCommit k with
  | SCP_PHASE_EXTERNALIZE, Some c => [value c]
  | _, _ => []
  end.

(** The statements handed to the network, or about to be. *)
Definition emitted (s : Slot) : list SCPStatement :=
  omap (λ c, match c with emitEnvelope e => Some (statement e) | _ => None end) (mDriverCalls s).
Definition outbox (s : Slot) : list SCPStatement :=
  emitted s ++
  match mLastEnvelope (mBallotProtocol s) with Some w => [getStatement w] | None => [] end.

(** The nomination protocol up to the flag that stops it. *)
Definition nom (s : Slot) : NominationProtocol :=
  set_mNominationStarted false (mNominationProtocol s).

Definition started (s : Slot) : bool := mNominationStarted (mNominationProtocol s).

(** What stays the same when a handler works on the ballot state. *)
Record Frame (s s' : Slot) : Prop := {
  fr_level : level s' = level s;
  fr_index : mSlotIndex s' = mSlotIndex s;
  fr_ext : ext_calls s' = ext_calls s;
  fr_nom : nom s' = nom s;
  fr_started : started s' = true → started s = true;
  fr_outbox : outbox s' ⊆ outbox s
}.

Lemma Frame_refl s : Frame s s.
Proof. done. Qed.

Lemma Frame_trans s1 s2 s3 : Frame s1 s2 → Frame s2 s3 → Frame s1 s3.
Proof. intros [] []. split; [congruence..|auto|by etrans]. Qed.

Lemma ext_calls_driver c s :
  ext_calls (set_mDriverCalls (mDriverCalls s ++ [c]) s) =
  ext_calls s ++ match c with valueExternalized v => [v] | _ => [] end.
Proof. unfold ext_calls. simpl. rewrite omap_app. simpl. by destruct c. Qed.

Lemma outbox_driver c s :
  outbox (set_mDriverCalls (mDriverCalls s ++ [c]) s) ⊆
  outbox s ++ match c with emitEnvelope e => [statement e] | _ => [] end.
Proof. unfold outbox, emitted. simpl. rewrite omap_app. destruct c; simpl; set_solver. Qed.

Ltac frame :=
  split; simpl; try done; unfold ext_calls, outbox, emitted; simpl; rewrite ?omap_app; simpl;
  rewrite ?app_nil_r; try done.

Section Refine.
Context {D : SCPDriver} {L : LocalNode}.

(** The failures a handler may end in: the two exceptions of the ballot protocol,
    and three assertions that other nodes can violate. *)
Definition okFail (f : Failure) : Prop :=
  match f with
  | Throw MaxTransitionsReached | Throw MovedToBadState => True
  | DbgAssert a =>
      a = Assert_inv_currentCounter ∨ a = Assert_acceptPrepared_commitCompatible ∨
      a = Assert_setAcceptPrepared_phase
  | _ => False
  end.

Definition Good (s : Slot) : Prop := CoreInv (ck s) ∧ Typed (ck s).

(** ** Operations that only touch the ballots *)

(** A test that leaves the state alone. *)
Lemma wp_pass (m : SM unit) {B} (k : SM B) s Q (E : Failure → Prop) :
  wp m s (λ _ s', s' = s) E → wp k s Q E → wp (m ;; k) s Q E.
Proof.
  intros Hm Hk. apply wp_bind. eapply wp_mono; [exact Hm|..]; [|done].
  by intros _ s' ->.
Qed.

Lemma assert_pass b a s (E : Failure → Prop) :
  b = true → wp (dbgAssert b a) s (λ _ s', s' = s) E.
Proof. by intros ->. Qed.

Lemma checkInvariants_gen s (E : Failure → Prop) :
  CoreInv (ck s) →
  (∀ b, kCur (ck s) = Some b → counter b = 0 → E (DbgAssert Assert_inv_currentCounter)) →
  wp checkInvariants s (λ _ s', s' = s) E.
Proof.
  intros [Hp Hh Hc Hcf He] HE. unfold checkInvariants. wps. unfold ck, core in *. simpl in *.
  set (b := mBallotProtocol s) in *.
  assert (∀ h cur, mHighBallot b = Some h → mCurrentBallot b = Some cur →
    areBallotsLessAndCompatible h cur = true) as H2.
  { intros h cur Eh Ec. destruct (Hh h Eh) as (? & Ec' & ?).
    apply lessCompatible_iff. naive_solver. }
  assert (∀ c h, mCommit b = Some c → mHighBallot b = Some h →
    areBallotsLessAndCompatible c h = true) as H3.
  { intros c h Ec Eh. destruct (Hc c Ec) as (? & ? & ?). apply lessCompatible_iff. naive_solver. }
  repeat apply wp_pass.
  - destruct (mCurrentBallot b) as [cur|]; [|done]. unfold wp, dbgAssert, check.
    destruct (Z.eqb_spec (counter cur) 0); [by eapply HE|done].
  - destruct (mPrepared b) as [p|]; [|done]. destruct (mPreparedPrime b) as [p'|]; [|done].
    destruct (Hp p' eq_refl) as (? & [= <-] & Hv). by apply assert_pass, lessIncompatible_iff.
  - destruct (mHighBallot b) as [h|]; [|done].
    destruct (Hh h eq_refl) as (cur & Ec & _). rewrite Ec. wps. by apply assert_pass, H2.
  - destruct (mCommit b) as [c|]; [|done].
    destruct (Hc c eq_refl) as (h & Eh & _). destruct (Hh h Eh) as (cur & Ec & _).
    rewrite Ec, Eh. apply wp_pass; [done|]. wps. apply wp_bind.
    rewrite H3 by done. wps. by apply assert_pass, H2.
  - destruct (mPhase b); [done| |].
    + apply assert_pass. destruct (Hcf eq_refl) as [? _]. by destruct (mCommit b).
    + specialize (He eq_refl). destruct (mCommit b) as [c|]; [|done].
      by destruct (Hc c eq_refl) as (h & -> & _).
Qed.

Lemma checkInvariants_wp s :
  CoreInv (ck s) → wp checkInvariants s (λ _ s', s' = s) okFail.
Proof. intros Hi. apply checkInvariants_gen; [done|]. by left. Qed.

(** [b] is set, and [h] and [c] are reset if they are incompatible. *)
Lemma bumpToBallot_wp ballot chk s (E : Failure → Prop) :
  kPhase (ck s) ≠ SCP_PHASE_EXTERNALIZE →
  (chk = true → optionCmp compareBallots (kCur (ck s)) (Some ballot) ≤ 0) →
  wp (bumpToBallot ballot chk) s
    (λ _ s', ck s' = bumpCore ballot (ck s) ∧ Frame s s') E.
Proof.
  unfold bumpToBallot, ck. simpl. intros Hph Hchk. wps. set (b := mBallotProtocol s) in *.
  apply wp_pass; [by apply assert_pass, bool_decide_eq_true|]. apply wp_pass.
  { destruct chk; [|done]. apply assert_pass. destruct (mCurrentBallot b) as [cur|]; [|done].
    simpl. apply Z.leb_le, (cmp_le_flip compareBallots). by apply Hchk. }
  apply wp_bind.
  assert (∀ Q : unit → Slot → Prop,
    (∀ s1, Frame s s1 → mBallotProtocol s1 = b → Q tt s1) →
    wp (if optb (mCurrentBallot b) then ret tt else driver (startedBallotProtocol ballot))
      s Q E) as H1.
  { intros Q HQ. destruct (optb _); wps; apply HQ; done || by frame. }
  apply H1. intros s1 [F1 F2 F3 F4 F5 F6] Eb. wps. unfold core, bumpCore; simpl.
  destruct (mHighBallot b) as [h|] eqn:Eh; simpl;
    [destruct (areBallotsCompatible ballot h) eqn:Ec; simpl|]; wps;
    destruct (negb _ || _); wps; (split; [simpl; by rewrite Eb, ?Eh|by split]).
Qed.

Lemma updateCurrentIfNeeded_wp h s :
  kPhase (ck s) ≠ SCP_PHASE_EXTERNALIZE →
  wp (updateCurrentIfNeeded h) s
    (λ r s', ck s' = followCore h (ck s) ∧ Frame s s' ∧ (r = false → ck s' = ck s)) okFail.
Proof.
  intros Hph. unfold updateCurrentIfNeeded. wps. unfold followCore.
  change (kCur (ck s)) with (mCurrentBallot (mBallotProtocol s)).
  destruct (mCurrentBallot (mBallotProtocol s)) as [cur|] eqn:Ec; simpl;
    [destruct (Z.ltb_spec (compareBallots cur h) 0) as [Hlt|Hge]; [|by wps]|].
  all: apply wp_bind; eapply wp_mono; [apply bumpToBallot_wp; [done|]|intros ? ? []; by wps|done].
  all: intros _; change (kCur (ck s)) with (mCurrentBallot (mBallotProtocol s)); rewrite Ec.
  - simpl. lia.
  - simpl. lia.
Qed.

Lemma checkHeardFromQuorum_wp s :
  wp checkHeardFromQuorum s (λ _ s', ck s' = ck s ∧ Frame s s') okFail.
Proof.
  unfold checkHeardFromQuorum. wps.
  destruct (mCurrentBallot (mBallotProtocol s)) as [cur|] eqn:Ec; [|by wps].
  unfold startBallotProtocolTimer, stopBallotProtocolTimer.
  destruct (isQuorum _ _ _ _); [|wps; split; [done|by frame]].
  wps. apply wp_bind. destruct (negb (mHeardFromQuorum (mBallotProtocol s)));
    [wps; destruct (bool_decide (_ ≠ _))|]; wps; simpl; rewrite ?Ec; wps; simpl;
    destruct (bool_decide (_ = _)); wps; (split; [done|by frame]).
Qed.

Lemma sendLatestEnvelope_wp s :
  wp sendLatestEnvelope s (λ _ s', ck s' = ck s ∧ Frame s s') okFail.
Proof.
  unfold sendLatestEnvelope. wps.
  destruct (mLastEnvelope (mBallotProtocol s)) as [w|] eqn:Ew; [|by wps].
  destruct (_ && _); wps; [|done]. split; [done|]. frame. rewrite Ew. set_solver.
Qed.

Lemma maybeSetGotVBlocking_wp s :
  wp maybeSetGotVBlocking s (λ _ s', ck s' = ck s ∧ Frame s s') okFail.
Proof. unfold maybeSetGotVBlocking. wps. destruct (mGotVBlocking s); by wps. Qed.

Lemma setPrepared_wp ballot s :
  wp (setPrepared ballot) s (λ _ s', ck s' = preparedCore ballot (ck s) ∧ Frame s s') okFail.
Proof.
  unfold setPrepared, preparedCore. wps. unfold ck, core; simpl.
  destruct (mPrepared (mBallotProtocol s)) as [p|] eqn:Ep; [|by wps].
  destruct (compareBallots p ballot <? 0).
  { destruct (areBallotsCompatible p ballot); simpl; by wps. }
  destruct (0 <? compareBallots p ballot); [|wps; simpl; by rewrite ?Ep].
  destruct (mPreparedPrime (mBallotProtocol s)) as [p'|] eqn:Ep'; simpl;
    [|wps; simpl; by rewrite ?Ep].
  destruct ((compareBallots p' ballot <? 0) && _); wps; simpl; by rewrite ?Ep, ?Ep'.
Qed.

(** ** Counters of candidates *)

Lemma hintBallots_typed hint b : typed_statement hint → b ∈ hintBallots hint → typed_ballot b.
Proof.
  unfold typed_statement, hintBallots, typed_ballot.
  destruct (pledges hint) as [p|c|e|n].
  - intros (H1 & H2 & H3 & _). assert (b ∈ set_insert compareBallots (p_ballot p) [] → in_u32 (counter b)) as Hp.
    { intros [->|?%elem_of_nil]%(elem_of_set_insert compareBallots); done. }
    destruct (p_preparedPrime p) as [b'|], (p_prepared p) as [b''|];
      rewrite ?(elem_of_set_insert compareBallots b'), ?(elem_of_set_insert compareBallots b'');
      unfold typed_opt, typed_ballot in *; intros; destruct_or?; subst; eauto.
  - intros (H1 & H2 & _). rewrite (elem_of_set_inserts compareBallots), !elem_of_cons, elem_of_nil.
    intros [[->|[->|[]]]|[]]; simpl; [done|word].
  - intros _ ->%list_elem_of_singleton. simpl. word.
  - by intros _ ?%elem_of_nil.
Qed.

Lemma statementCandidates_typed topVote st b :
  typed_ballot topVote → typed_statement st → b ∈ statementCandidates topVote st → typed_ballot b.
Proof.
  unfold typed_statement, statementCandidates, typed_ballot. intros Ht.
  destruct (pledges st) as [p|c|e|n].
  - intros (H1 & H2 & H3 & _). rewrite !elem_of_app.
    intros [H|[H|H]]; repeat (case_match; try by apply elem_of_nil in H);
      apply list_elem_of_singleton in H as ->; eauto; [by apply H2|by apply H3].
  - intros (H1 & H2 & _). destruct (areBallotsCompatible _ _); [|by intros ?%elem_of_nil].
    case_match; rewrite ?elem_of_cons, elem_of_nil; naive_solver.
  - intros _. destruct (areBallotsCompatible _ _); [|by intros ?%elem_of_nil].
    by intros ->%list_elem_of_singleton.
  - by intros _ ?%elem_of_nil.
Qed.

Lemma candidates_typed k hint :
  Typed k → typed_statement hint → Forall typed_ballot (rev (getPrepareCandidates (kEnvs k) hint)).
Proof.
  intros HT Hh. apply Forall_forall. intros b. rewrite elem_of_rev.
  intros (top & [n w] & H1 & H2 & H3)%elem_of_getPrepareCandidates.
  destruct (ty_envs _ HT n w H2) as (_ & _ & Hw).
  eapply statementCandidates_typed; eauto using hintBallots_typed.
Qed.

Lemma boundaries_typed k ballot n :
  Typed k → n ∈ getCommitBoundariesFromStatements (kEnvs k) ballot → in_u32 n.
Proof.
  intros HT ([m w] & H1 & H2)%elem_of_commitBoundaries.
  destruct (ty_envs _ HT m w H1) as (_ & _ & Hw). revert H2 Hw.
  unfold commitBoundaries, typed_statement, typed_ballot. simpl.
  destruct (pledges (getStatement w)) as [p|c|e|x]; repeat case_match;
    rewrite ?elem_of_cons, ?elem_of_nil; intros; destruct_and?; try tauto.
  all: destruct_or?; subst; try tauto; word.
Qed.

(** ** Runs of handlers *)

Record Run (s s' : Slot) : Prop := {
  run_steps : isteps (ck s) (ck s');
  run_level : level s' = level s;
  run_index : mSlotIndex s' = mSlotIndex s;
  run_nom : nom s' = nom s;
  run_ext : ext_calls s' =
    ext_calls s ++ (if decide (kPhase (ck s) = SCP_PHASE_EXTERNALIZE) then []
                    else externalized (ck s'));
  run_started : started s' = true → started s = true;
  run_outbox : ∀ st, st ∈ outbox s' → st ∈ outbox s ∨ said (ck s') st
}.

Lemma externalized_nil k : kPhase k ≠ SCP_PHASE_EXTERNALIZE → externalized k = [].
Proof. unfold externalized. by destruct (kPhase k). Qed.

Lemma Run_frame s s' :
  Frame s s' → isteps (ck s) (ck s') →
  (kPhase (ck s) ≠ SCP_PHASE_EXTERNALIZE → kPhase (ck s') ≠ SCP_PHASE_EXTERNALIZE) →
  Run s s'.
Proof.
  intros [] Hs Hp. split; try done; [case_decide; [by rewrite app_nil_r|]|].
  - rewrite externalized_nil by auto. by rewrite app_nil_r.
  - intros st Hst. left. auto.
Qed.

Lemma Run_same s s' : Frame s s' → ck s' = ck s → Run s s'.
Proof. intros HF E. apply Run_frame; rewrite ?E; done. Qed.

Lemma Run_refl s : Run s s.
Proof. by apply Run_same. Qed.

Lemma Run_trans s1 s2 s3 : CoreInv (ck s1) → Run s1 s2 → Run s2 s3 → Run s1 s3.
Proof.
  intros Hi [A1 A2 A3 A4 A5 A6 A7] [B1 B2 B3 B4 B5 B6 B7].
  pose proof (isteps_inv _ _ A1 Hi) as Hi2.
  split; try congruence; [by etrans| |auto|].
  2: { intros st [Hst|Hst]%B7; [|by right]. apply A7 in Hst as [Hst|Hst]; [by left|right].
       eapply said_mono; [by apply isteps_mono|done]. }
  rewrite B5, A5, <- app_assoc. f_equal.
  destruct (isteps_mono _ _ A1 Hi) as [M1 M2 _ _ _ _].
  destruct (isteps_mono _ _ B1 Hi2) as [_ N2 _ _ _ _].
  destruct (decide (kPhase (ck s1) = _)) as [E1|E1].
  - destruct (M2 E1) as (-> & _). by rewrite decide_True.
  - case_decide as E2; [|by rewrite externalized_nil].
    rewrite app_nil_r. destruct (N2 E2) as (E & _ & _ & _ & _ & E').
    unfold externalized. by rewrite E, E'.
Qed.

Lemma Run_good s s' : Good s → Run s s' → Good s'.
Proof. intros [] []. split; eauto using isteps_inv, isteps_typed. Qed.

(** A run after bookkeeping that does not touch the ballots. *)
Lemma Run_frame_r s1 s2 s3 : CoreInv (ck s1) → Run s1 s2 → Frame s2 s3 → ck s3 = ck s2 → Run s1 s3.
Proof. intros Hi H1 H2 H3. eapply Run_trans; [done..|]. by apply Run_same. Qed.

Definition localCounter (k : Core) : Z :=
  match kCur k with Some c => counter c | None => 0 end.

(** The node's own recorded statement is not ahead of its ballot. *)
Definition synced (k : Core) : Prop :=
  kPhase k = SCP_PHASE_EXTERNALIZE ∨
  ∀ w, (localNodeID, w) ∈ kEnvs k → statementBallotCounter (getStatement w) ≤ localCounter k.

(** An envelope of the node for its current state. *)
Definition ownStatement (s : Slot) (st : SCPStatement) : Prop :=
  nodeID st = localNodeID ∧ slotIndex st = mSlotIndex s ∧ is_ballot_statement st ∧
  typed_statement st ∧ said (ck s) st ∧
  (kPhase (ck s) = SCP_PHASE_EXTERNALIZE ∨ statementBallotCounter st ≤ localCounter (ck s)).

(** The statement type follows the phase. *)
Definition phase_type (p : SCPPhase) : SCPStatementType :=
  match p with
  | SCP_PHASE_PREPARE => SCP_ST_PREPARE
  | SCP_PHASE_CONFIRM => SCP_ST_CONFIRM
  | SCP_PHASE_EXTERNALIZE => SCP_ST_EXTERNALIZE
  end.

Lemma typed_counter o : typed_opt o → in_u32 (match o with Some b => counter b | None => 0 end).
Proof. destruct o as [b|]; [intros H; by apply H|intros _; word]. Qed.

Lemma createStatement_wp s :
  Good s →
  wp (createStatement (phase_type (mPhase (mBallotProtocol s)))) s
    (λ pl s', s' = s ∧
       ownStatement s {| nodeID := localNodeID; slotIndex := mSlotIndex s; pledges := pl |}) okFail.
Proof.
  intros [Hi HT]. unfold createStatement. apply wp_bind.
  eapply wp_mono; [by apply checkInvariants_wp| |done]. intros _ s' ->. wps.
  destruct HT as [T1 T2 T3 T4 T5 _ _], Hi as [_ Hh Hc Hcf He].
  unfold ck, core in *; simpl in *. set (b := mBallotProtocol s) in *.
  destruct (mPhase b) eqn:Eph; simpl.
  - wps. split; [done|]. unfold ownStatement, is_ballot_statement, typed_statement; simpl.
    split_and!; try done; auto using typed_counter.
    + pose proof (typed_counter _ T1) as H. unfold typed_ballot.
      by destruct (mCurrentBallot b); simpl in *.
    + right. unfold localCounter, statementBallotCounter; simpl. fold b.
      by destruct (mCurrentBallot b).
  - destruct (Hcf eq_refl) as [Hc1 Hp1].
    destruct (mCommit b) as [c|] eqn:Ecm; [|done]. destruct (Hc c eq_refl) as (h & Eh & _).
    destruct (Hh h Eh) as (cur & Ecur & _). destruct (mPrepared b) as [p|]; [|done].
    rewrite Eh in *. rewrite Ecur in *. wps. split; [done|].
    unfold ownStatement, is_ballot_statement, typed_statement; simpl.
    split_and!; try done; [by apply T1|by apply T2|by apply T5|by apply T4| |].
    { unfold said; simpl. fold b. rewrite Eph. split_and!; try done. exists c. split; [done|].
      destruct (Hc c eq_refl) as (h' & Eh' & Hv & _). destruct (Hh h' Eh') as (cur' & Ecur' & Hv' & _).
      congruence. }
    right. unfold localCounter, statementBallotCounter; simpl. fold b. by rewrite Ecur.
  - specialize (He eq_refl). destruct (mCommit b) as [c|] eqn:Ecm; [|done].
    destruct (Hc c eq_refl) as (h & Eh & _). rewrite Eh in *. wps. split; [done|].
    unfold ownStatement, is_ballot_statement, typed_statement; simpl.
    split_and!; try done; [by apply T5|by apply T4| |by left].
    unfold said; simpl. fold b. rewrite Eph. eauto.
Qed.

(** ** Handlers, over a call back into the slot that behaves *)

Section Handlers.
Context (knot : SCPEnvelopeWrapper → bool → SM EnvelopeState) (lo : Z).

Definition LevelOk (s : Slot) : Prop := lo ≤ level s < MAX_ADVANCE_SLOT_RECURSION.

Hypothesis Hlocal : at_levels slice_ok localQuorumSet.
Hypothesis Hqset : ∀ h q, getQSet h = Some q → qset_typed q.
Hypothesis Hknot : ∀ w s,
  Good s → LevelOk s → ownStatement s (getStatement w) →
  wp (knot w true) s (λ r s', Run s s' ∧ (r = VALID → synced (ck s'))) okFail.

Lemma same_statement_synced s w :
  Good s → map_find localNodeID (kEnvs (ck s)) = Some w → ownStatement s (getStatement w) →
  synced (ck s).
Proof.
  intros [_ HT] Hw (_ & _ & _ & _ & _ & [H|H]); [by left|right]. intros w' Hw'.
  rewrite (map_find_elem _ _ _ (ty_sorted _ HT) Hw') in Hw. by injection Hw as ->.
Qed.

(** The envelope to send is replaced by one for the state the run started from. *)
Lemma Run_send w s s2 s3 :
  CoreInv (ck s) → Run s s2 → said (ck s) (getStatement w) →
  Frame (set_mBallotProtocol (set_mLastEnvelope (Some w) (mBallotProtocol s2)) s2) s3 →
  ck s3 = ck s2 → Run s s3.
Proof.
  intros Hi [A1 A2 A3 A4 A5 A6 A7] Hs [B1 B2 B3 B4 B5 B6] E3. split; rewrite ?E3; try done.
  - by rewrite B1.
  - by rewrite B2.
  - by rewrite B4.
  - by rewrite B3.
  - auto.
  - intros st Hst%B6. apply elem_of_app in Hst as [Hst|Hst].
    + apply A7, elem_of_app. by left.
    + simpl in Hst. apply list_elem_of_singleton in Hst as ->. right.
      eapply said_mono; [by apply isteps_mono|done].
Qed.

Lemma emit_wp s :
  Good s → LevelOk s →
  wp (emitCurrentStateStatement knot) s (λ _ s', Run s s' ∧ synced (ck s')) okFail.
Proof.
  intros HG HL. unfold emitCurrentStateStatement. wps.
  apply wp_bind. eapply wp_mono; [exact (createStatement_wp s HG)| |done].
  intros pl s' [-> Hown]. unfold createEnvelope. wps.
  set (st := {| nodeID := localNodeID; slotIndex := mSlotIndex s; pledges := pl |}) in *.
  set (isnew := match map_find localNodeID (mLatestEnvelopes (mBallotProtocol s)) with
                | Some _ => _ | None => _ end).
  assert (isnew = false → Run s s ∧ synced (ck s)) as Hsame.
  { unfold isnew. destruct (map_find localNodeID _) as [w|] eqn:Ew; [|done].
    rewrite negb_false_iff, bool_decide_eq_true. intros Ee. split; [apply Run_refl|].
    eapply same_statement_synced; [done|exact Ew|]. unfold getStatement. by rewrite Ee. }
  destruct isnew; [|wps; auto]. unfold wrapEnvelope. wps.
  set (s1 := set_mWrapCount _ s). set (w := {| wrapId := _ |}).
  apply wp_bind. eapply wp_mono; [by apply (Hknot w s1)| |done].
  intros [] s2 [HR Hsync]; [done|].
  assert (Run s s2) as HR2 by (destruct HR; by split).
  wps. set (cond := _ && _). destruct cond; [|wps; auto]. wps.
  eapply wp_mono; [apply sendLatestEnvelope_wp| |done].
  intros _ s3 [E3 F3]. rewrite E3. split; [|by apply Hsync].
  eapply Run_send; [apply HG|exact HR2| |exact F3|done]. apply Hown.
Qed.

(** The result of an attempt: nothing happened, or a run that leaves the node's
    own statement up to date. *)
Definition Attempt (s s' : Slot) : Prop := Run s s' ∧ (synced (ck s) → synced (ck s')).

Lemma Attempt_refl s : Attempt s s.
Proof. split; [apply Run_refl|done]. Qed.

(** One rule of the specification, then the new statement goes out. *)
Lemma step_then_emit s s1 :
  Good s → LevelOk s → Run s s1 →
  wp (emitCurrentStateStatement knot) s1 (λ _ s', Run s s' ∧ Run s1 s' ∧ synced (ck s')) okFail.
Proof.
  intros HG HL HR. eapply wp_mono; [apply emit_wp| |done].
  - by eapply Run_good.
  - unfold LevelOk. by rewrite (run_level _ _ HR).
  - intros _ s2 [HR2 Hs]. split; [|done]. eapply Run_trans; [apply HG|done..].
Qed.

Lemma Run_istep s s1 :
  istep (ck s) (ck s1) → Frame s s1 → kPhase (ck s1) ≠ SCP_PHASE_EXTERNALIZE → Run s s1.
Proof. intros Hs HF Hp. apply Run_frame; [done|by apply rtc_once|done]. Qed.

Lemma withdraw_wp didWork s :
  let b := mBallotProtocol s in
  wp (match mCommit b, mHighBallot b with
      | Some _, Some h =>
          if optTest (mPrepared b) (areBallotsLessAndIncompatible h) ||
             optTest (mPreparedPrime b) (areBallotsLessAndIncompatible h)
          then
            dbgAssert (bool_decide (mPhase b = SCP_PHASE_PREPARE)) Assert_setAcceptPrepared_phase ;;
            modB (set_mCommit None) ;; ret true
          else ret didWork
      | _, _ => ret didWork
      end) s
    (λ _ s', ck s' = withdrawCore (ck s) ∧ Frame s s' ∧
       (aborted (ck s) = true → kPhase (ck s) = SCP_PHASE_PREPARE)) okFail.
Proof.
  intros b. unfold withdrawCore, aborted, ck, core; simpl. fold b.
  destruct (mCommit b) as [c|] eqn:Ec; [|wps; fold b; by rewrite Ec].
  destruct (mHighBallot b) as [h|] eqn:Eh; [|wps; fold b; by rewrite Ec, Eh].
  change (optTest (mPrepared b) (areBallotsLessAndIncompatible h)) with
    (match mPrepared b with Some p => areBallotsLessAndIncompatible h p | None => false end).
  change (optTest (mPreparedPrime b) (areBallotsLessAndIncompatible h)) with
    (match mPreparedPrime b with Some p => areBallotsLessAndIncompatible h p | None => false end).
  destruct (_ || _); [|wps; fold b; by rewrite Ec, Eh]. apply wp_bind, wp_dbgAssert.
  - intros Hp%bool_decide_eq_true. wps. simpl. fold b. by rewrite Eh.
  - right. by right.
Qed.

Lemma preparedCore_some ballot k : kPrep (preparedCore ballot k) ≠ None.
Proof. unfold preparedCore. destruct (kPrep k) eqn:E; [|done]. repeat case_match; simpl; congruence. Qed.

Lemma Run_prep s s' : Good s → Run s s' → kPrep (ck s) ≠ None → kPrep (ck s') ≠ None.
Proof.
  intros [Hi _] [Hs _ _ _ _ _] Hn. destruct (isteps_mono _ _ Hs Hi) as [_ _ _ Hp _ _].
  by destruct (kPrep (ck s)), (kPrep (ck s')).
Qed.

Lemma synced_frame k k' :
  kPhase k' = kPhase k → kCur k' = kCur k → kEnvs k' = kEnvs k → synced k → synced k'.
Proof. unfold synced, localCounter. by intros -> -> ->. Qed.

Lemma setAcceptPrepared_wp ballot s :
  Good s → LevelOk s →
  (∀ s1, ck s1 = withdrawCore (preparedCore ballot (ck s)) → Frame s s1 →
     (aborted (preparedCore ballot (ck s)) = true → kPhase (ck s) = SCP_PHASE_PREPARE) →
     Run s s1) →
  wp (setAcceptPrepared knot ballot) s
    (λ _ s', Attempt s s' ∧ kPrep (ck s') ≠ None) okFail.
Proof.
  intros HG HL Hstep. unfold setAcceptPrepared. apply wp_bind.
  eapply wp_mono; [apply setPrepared_wp| |done]. intros didWork s1 [E1 F1]. wps.
  apply wp_bind. eapply wp_mono; [apply withdraw_wp| |done].
  intros didWork' s2 (E2 & F2 & Hab). rewrite E1 in *.
  destruct (preparedCore_frame ballot (ck s)) as (P1 & P2 & _ & _ & P5).
  destruct (withdrawCore_frame (preparedCore ballot (ck s))) as (W1 & W2 & W3 & _ & W5 & _).
  rewrite P1 in Hab. assert (Run s s2) as HR by eauto using Frame_trans.
  assert (kPrep (ck s2) ≠ None) by (rewrite E2, W3; apply preparedCore_some).
  destruct didWork'.
  - wps. eapply wp_mono; [apply (step_then_emit s)| |done]; [done..| |].
    + eapply Run_frame_r; [apply HG|exact HR|by frame|done].
    + intros _ s3 (HR3 & HR23 & Hsync). wps. split; [done|].
      eapply Run_prep; [|exact HR23|done]. eapply Run_good; [exact HG|].
      eapply Run_frame_r; [apply HG|exact HR|by frame|done].
  - wps. split; [split; [done|]|done]. apply synced_frame; rewrite E2; congruence.
Qed.

(** In the CONFIRM phase only ballots that raise [p] are considered. *)
Lemma acceptPrepared_skip_wp ballot s (Q : bool → Slot → Prop) :
  let b := mBallotProtocol s in
  Good s →
  (∀ skip, (skip = true → kPrep (ck s) ≠ None) →
     (skip = false → kPhase (ck s) = SCP_PHASE_CONFIRM →
        ∃ p, kPrep (ck s) = Some p ∧ areBallotsLessAndCompatible p ballot = true) →
     Q skip s) →
  wp (if bool_decide (mPhase b = SCP_PHASE_CONFIRM) then
        let! p := deref (mPrepared b) in
        if negb (areBallotsLessAndCompatible p ballot) then ret true
        else
          let! c := deref (mCommit b) in
          dbgAssert (areBallotsCompatible c ballot) Assert_acceptPrepared_commitCompatible ;;
          ret false
      else ret false) s Q okFail.
Proof.
  intros b HG HQ. case_bool_decide as Hc; [|wps; apply HQ; [done|by intros _ ?; destruct Hc]].
  destruct HG as [[_ _ _ Hcf _] _]. destruct (Hcf Hc) as [Hcm Hpr].
  unfold ck, core in Hcm, Hpr, HQ; simpl in Hcm, Hpr, HQ; fold b in Hcm, Hpr, HQ.
  destruct (mPrepared b) as [p|] eqn:Ep; [|done]. destruct (mCommit b) as [c|]; [|done]. wps.
  destruct (areBallotsLessAndCompatible p ballot) eqn:El; simpl; wps; [|by apply HQ].
  apply wp_bind, wp_dbgAssert; [intros _; wps; apply HQ; eauto|right; by left].
Qed.

Definition acceptsPrepared (k : Core) (ballot : SCPBallot) : bool :=
  federatedAccept (votesForPrepared ballot) (hasPreparedBallot ballot) (kEnvs k).

(** The candidates are tried from the highest; the first accepted one is set. *)
Lemma acceptPrepared_loop_wp candidates s :
  Good s → LevelOk s → kPhase (ck s) ≠ SCP_PHASE_EXTERNALIZE →
  Forall typed_ballot candidates →
  wp (acceptPrepared_loop knot candidates) s
    (λ _ s', (s' = s ∧ (kPrep (ck s) = None →
                Forall (λ ballot, acceptsPrepared (ck s) ballot = false) candidates)) ∨
             Attempt s s' ∧ kPrep (ck s') ≠ None) okFail.
Proof.
  intros HG HL Hph. induction 1 as [|ballot rest Hb _ IH]; simpl; [wps; by left|].
  wps. apply wp_bind, acceptPrepared_skip_wp; [done|]. intros skip Hs1 Hs2.
  set (cond := skip || _ || _).
  assert (cond = true → kPrep (ck s) ≠ None) as Hcond.
  { unfold cond. rewrite !orb_true_iff. intros [[H|H]|H]; [by auto| |].
    - destruct (mPreparedPrime (mBallotProtocol s)) as [p'|] eqn:Ep'; [|done].
      destruct (ci_prime _ (proj1 HG) p' Ep') as (p & -> & _). done.
    - unfold ck, core; simpl. by destruct (mPrepared (mBallotProtocol s)). }
  destruct cond eqn:Ecd.
  { eapply wp_mono; [apply IH| |done]. intros _ s' [[-> _]|?]; [left|by right].
    split; [done|]. intros E. by destruct Hcond. }
  change (federatedAccept _ _ _) with (acceptsPrepared (ck s) ballot).
  destruct (acceptsPrepared (ck s) ballot) eqn:Eacc.
  2:{ eapply wp_mono; [apply IH| |done]. intros _ s' [[-> H]|?]; [left|by right]. auto. }
  unfold cond in Ecd. rewrite !orb_false_iff in Ecd. destruct Ecd as [[-> Hpp] Hp].
  eapply wp_mono; [apply setAcceptPrepared_wp; [done..|]|by auto|done].
  intros s1 E1 F1 Hab. apply Run_istep; [|done|].
  - rewrite E1. apply step_acceptPrepared; auto.
    + intros p' Ep'. change (kPrime (ck s)) with (mPreparedPrime (mBallotProtocol s)) in Ep'.
      rewrite Ep' in Hpp. simpl in Hpp. by apply Z.leb_gt.
    + intros p Ep. change (kPrep (ck s)) with (mPrepared (mBallotProtocol s)) in Ep.
      by rewrite Ep in Hp.
  - rewrite E1. destruct (withdrawCore_frame (preparedCore ballot (ck s))) as (-> & _).
    by destruct (preparedCore_frame ballot (ck s)) as (-> & _).
Qed.

(** The hint of [advanceSlot] is among the latest statements. *)
Definition Hint (k : Core) (hint : SCPStatement) : Prop :=
  ∃ n w, (n, w) ∈ kEnvs k ∧ getStatement w = hint.

Lemma Hint_typed k hint : Typed k → Hint k hint → typed_statement hint.
Proof. intros HT (n & w & Hin & <-). by apply (ty_envs _ HT n w). Qed.

Lemma attemptAcceptPrepared_wp hint s :
  Good s → LevelOk s → typed_statement hint →
  wp (attemptAcceptPrepared knot hint) s
    (λ _ s', (s' = s ∧
        (kPrep (ck s) = None → kPhase (ck s) ≠ SCP_PHASE_EXTERNALIZE →
         ∀ b, b ∈ getPrepareCandidates (kEnvs (ck s)) hint → acceptsPrepared (ck s) b = false)) ∨
        Attempt s s' ∧ kPrep (ck s') ≠ None) okFail.
Proof.
  intros HG HL Hh. unfold attemptAcceptPrepared. wps. case_bool_decide as Hp; [wps; by left|].
  eapply wp_mono; [apply acceptPrepared_loop_wp; try done| |done].
  - by apply (candidates_typed (ck s)); [apply HG|].
  - intros _ s' [[-> H]|H]; [left|by right]. split; [done|]. intros E _ b Hb.
    specialize (H E). rewrite Forall_forall in H. apply H. by apply elem_of_rev.
Qed.

Lemma confirmPrepared_tail newH didWork s s1 :
  Good s → LevelOk s → Frame s s1 → kPhase (ck s) = SCP_PHASE_PREPARE →
  istep (ck s) (followCore newH (ck s1)) → kPhase (ck s1) = SCP_PHASE_PREPARE →
  (didWork = false → ck s1 = ck s) →
  wp (let! updated := updateCurrentIfNeeded newH in
      let didWork := updated || didWork in
      (if didWork then emitCurrentStateStatement knot else ret tt) ;; ret didWork) s1
    (λ _ s', Attempt s s') okFail.
Proof.
  intros HG HL F1 Hph Hstep Hph1 Hd. apply wp_bind.
  eapply wp_mono; [apply updateCurrentIfNeeded_wp; by rewrite Hph1| |done].
  intros updated s2 (E2 & F2 & Hu). apply wp_bind. destruct (updated || didWork) eqn:Eor.
  - eapply wp_mono; [apply (step_then_emit s); [done..|]| |done].
    + apply Run_istep; [by rewrite E2|by eapply Frame_trans|].
      rewrite E2. destruct (followCore_frame newH (ck s1)) as (-> & _). by rewrite Hph1.
    + intros _ s3 (HR & _ & Hs). wps. split; [done|by intros _].
  - apply orb_false_iff in Eor as [-> ->]. wps. rewrite Hd in Hu by done.
    assert (ck s2 = ck s) as E by auto. split; [|by rewrite E].
    apply Run_same; [by eapply Frame_trans|done].
Qed.

Lemma setConfirmPrepared_wp newC newH s :
  Good s → LevelOk s → kPhase (ck s) = SCP_PHASE_PREPARE →
  (counter newC ≠ 0 → kCommit (ck s) = None) →
  istep (ck s) (confirmPreparedCore newC newH (ck s)) →
  wp (setConfirmPrepared knot newC newH) s (λ _ s', Attempt s s') okFail.
Proof.
  intros HG HL Hph HC Hstep. unfold setConfirmPrepared. wps. simpl.
  set (s0 := set_mBallotProtocol _ s).
  assert (∀ didWork s1,
    Frame s s1 → kPhase (ck s1) = SCP_PHASE_PREPARE → (didWork = false → ck s1 = ck s) →
    followCore newH (ck s1) = confirmPreparedCore newC newH (ck s) →
    wp (let! updated := updateCurrentIfNeeded newH in
        (if updated || didWork then emitCurrentStateStatement knot else ret tt) ;;
        ret (updated || didWork)) s1 (λ _ s', Attempt s s') okFail) as Htail.
  { intros didWork s1 ? ? ? E. apply (confirmPrepared_tail _ _ s s1); try done. by rewrite E. }
  clear Hstep. revert HC Htail. unfold confirmPreparedCore. to_core s.
  assert (Frame s s0) by done. assert (ck s0 = ck s) as E0 by done.
  set (on := match kCur (ck s) with Some c => areBallotsCompatible c newH | None => true end).
  assert (negb (optb (kCur (ck s))) ||
    optTest (kCur (ck s)) (λ cur, areBallotsCompatible cur newH) = on) as ->
    by (unfold on; by destruct (kCur (ck s))).
  destruct on; intros HC Htail; [|wps; by apply (Htail false s0)].
  set (up := match kHigh (ck s) with Some h => 0 <? compareBallots newH h | None => true end).
  assert (negb (optb (kHigh (ck s))) || optTest (kHigh (ck s)) (λ h, 0 <? compareBallots newH h) = up)
    as -> by (unfold up; by destruct (kHigh (ck s))).
  assert (match kHigh (ck s) with
    | Some h => if 0 <? compareBallots newH h then Some newH else Some h
    | None => Some newH end = if up then Some newH else kHigh (ck s)) as Eup
    by (unfold up; by destruct (kHigh (ck s))).
  rewrite Eup in Htail. clearbody up.
  destruct (Z.eqb_spec (counter newC) 0) as [E|E]; cbn [negb].
  - destruct up; wps; apply Htail; done || by frame.
  - rewrite (HC E). cbn [optb negb]. destruct up; wps; apply wp_bind; wps; apply Htail; done || by frame.
Qed.

Lemma attemptConfirmPrepared_wp hint s :
  Good s → LevelOk s → typed_statement hint →
  wp (attemptConfirmPrepared knot hint) s
    (λ _ s', Attempt s s' ∧ (kPrep (ck s) = None → s' = s)) okFail.
Proof.
  intros HG HL Hh. unfold attemptConfirmPrepared. wps. pose proof (Attempt_refl s). to_core s.
  case_bool_decide as Hph; [by wps|].
  destruct (kPrep (ck s)) as [p|] eqn:Ep; cbn [optb negb]; [|by wps].
  set (cands := rev (getPrepareCandidates (kEnvs (ck s)) hint)).
  assert (Forall typed_ballot cands) as Hty by by apply candidates_typed; [apply HG|].
  rewrite Forall_forall in Hty.
  destruct (confirmPrepared_newH _ cands) as [[newH rest]|] eqn:EH; [|by wps].
  apply confirmPrepared_newH_ok in EH as (H1 & H2 & H3 & H4).
  set (newC := if _ && _ then _ else nullBallot).
  assert (newC_ok (mBallotProtocol s) newH cands newC ∧
    (counter newC ≠ 0 → kCommit (ck s) = None)) as [Hok HC].
  { unfold newC. destruct (kCommit (ck s)); cbn [optb negb andb]; [by split; [left|]|].
    destruct (_ && _); [|by split; [left|]]. split; [|done].
    apply confirmPrepared_newC_ok; [done|by left]. }
  eapply wp_mono; [apply setConfirmPrepared_wp; try done|by split|done].
  apply step_confirmPrepared; try done.
  - split; [|auto]. destruct Hok as [->|[? _]]; [unfold typed_ballot; simpl; word|auto].
  - by rewrite Ep.
  - intros Hne. split; [auto|]. destruct Hok as [E|(_ & ? & ?)]; [by rewrite E in Hne|done].
Qed.

(** The end of [setAcceptCommit]: [b] follows [h] and the statement goes out. *)
Lemma acceptCommit_tail h s s1 :
  Good s → LevelOk s → Frame s s1 →
  istep (ck s) (followCore h (ck s1)) → kPhase (ck s1) = SCP_PHASE_CONFIRM →
  wp (updateCurrentIfNeeded h ;;
      driver (acceptedCommit h) ;;
      emitCurrentStateStatement knot) s1
    (λ _ s', Attempt s s') okFail.
Proof.
  intros HG HL F1 Hstep Hph. apply wp_bind.
  eapply wp_mono; [apply updateCurrentIfNeeded_wp; by rewrite Hph| |done].
  intros _ s2 (E2 & F2 & _). wps.
  eapply wp_mono; [apply (step_then_emit s); [done..|]| |done].
  - apply (Run_frame_r s s2); [apply HG| |by frame|done].
    apply Run_istep; [by rewrite E2|by eapply Frame_trans|].
    rewrite E2. destruct (followCore_frame h (ck s1)) as (-> & _). by rewrite Hph.
  - intros _ s3 (HR & _ & Hs). split; [done|by intros _].
Qed.

Lemma setAcceptCommit_wp c h s :
  Good s → LevelOk s → kPhase (ck s) ≠ SCP_PHASE_EXTERNALIZE →
  (kPhase (ck s) = SCP_PHASE_CONFIRM → ∃ h0, kHigh (ck s) = Some h0 ∧ counter h0 < counter h) →
  istep (ck s) (acceptCommitCore c h (ck s)) →
  wp (setAcceptCommit knot c h) s (λ _ s', Attempt s s') okFail.
Proof.
  intros HG HL Hph Hcf Hstep. unfold setAcceptCommit. wps. simpl. to_core s.
  set (s0 := set_mBallotProtocol _ s). set (differs := _ || _ || _ || _).
  set (k1 := mkCore (kPhase (ck s)) (kCur (ck s)) (kPrep (ck s)) (kPrime (ck s)) (Some h) (Some c)
    (kEnvs (ck s))).
  apply wp_bind.
  assert (wp (if differs
     then modB (λ b, set_mHighBallot (Some h) (set_mCommit (Some c) b)) ;; ret true
     else ret false) s0 (λ w s1, w = differs ∧ ck s1 = k1 ∧ Frame s s1) okFail) as H1.
  { destruct differs eqn:Ed; wps; [done|]. split_and!; [done| |done].
    unfold differs in Ed. rewrite !orb_false_iff in Ed. destruct Ed as [[[A B] C] E].
    unfold k1. destruct (kHigh (ck s)) as [h0|] eqn:Eh0; [|done].
    destruct (kCommit (ck s)) as [c0|] eqn:Ec0; [|done]. simpl in C, E.
    apply negb_false_iff, Z.eqb_eq, (cmp_eq compareBallots) in C, E. subst h0 c0.
    rewrite <- Eh0, <- Ec0. done. }
  eapply wp_mono; [exact H1| |done]. intros w s1 (-> & E1 & F1). clear H1.
  case_bool_decide as Hp.
  - wps. simpl. set (s2 := set_mBallotProtocol _ s1).
    assert (ck s2 = mkCore SCP_PHASE_CONFIRM (kCur (ck s1)) (kPrep (ck s1)) (kPrime (ck s1))
      (kHigh (ck s1)) (kCommit (ck s1)) (kEnvs (ck s1))) as E2 by done.
    rewrite E1 in E2. unfold k1 in E2. cbn [kCur kPrep kPrime kHigh kCommit kEnvs] in E2.
    set (k2 := match kCur (ck s) with
               | Some cur => if areBallotsLessAndCompatible h cur then ck s2 else bumpCore h (ck s2)
               | None => ck s2 end).
    apply wp_bind. assert (wp (if optTest (kCur (ck s)) (λ cur, negb (areBallotsLessAndCompatible h cur))
      then bumpToBallot h false else ret tt) s2 (λ _ s3, ck s3 = k2 ∧ Frame s s3) okFail) as H3.
    { assert (Frame s s2) by by destruct F1.
      unfold k2. destruct (kCur (ck s)); simpl; [|by wps].
      destruct (areBallotsLessAndCompatible h _); simpl; [by wps|].
      eapply wp_mono; [apply bumpToBallot_wp; by rewrite ?E2| |done].
      intros _ t [-> F3]. split; [done|by eapply Frame_trans]. }
    eapply wp_mono; [exact H3| |done]. intros _ s3 [E3 F3]. clear H3. wps. simpl.
    set (s4 := set_mBallotProtocol _ s3).
    assert (ck s4 = mkCore (kPhase k2) (kCur k2) (kPrep k2) None (kHigh k2) (kCommit k2) (kEnvs k2))
      as E4 by (rewrite <- E3; done).
    assert (kPhase k2 = SCP_PHASE_CONFIRM ∧ kHigh k2 = Some h) as [E5 E6].
    { unfold k2. rewrite E2. destruct (kCur (ck s)); [|done]. case_match; [done|].
      unfold bumpCore; simpl. by rewrite (proj2 (compatible_iff h h)). }
    change (mHighBallot (mBallotProtocol s3)) with (kHigh (ck s4)). rewrite E4. simpl.
    rewrite E6. wps.
    eapply wp_mono; [apply (acceptCommit_tail h s s4)|by intros; wps|done]; try done.
    + by destruct F3.
    + replace (followCore h (ck s4)) with (acceptCommitCore c h (ck s)); [done|].
      unfold acceptCommitCore. rewrite Hp, E4. unfold k2. by rewrite E2.
    + by rewrite E4.
  - assert (kPhase (ck s) = SCP_PHASE_CONFIRM) as Hc by by destruct (kPhase (ck s)).
    destruct (Hcf Hc) as (h0 & Eh0 & Hlt).
    assert (differs = true) as ->.
    { unfold differs. rewrite Eh0. simpl. apply orb_true_iff. left. apply orb_true_iff. right.
      apply negb_true_iff, Z.eqb_neq. intros ->%(cmp_eq compareBallots). lia. }
    wps. to_core s1. rewrite E1. simpl. wps.
    eapply wp_mono; [apply (acceptCommit_tail h s s1)|by intros; wps|done]; try done.
    + replace (followCore h (ck s1)) with (acceptCommitCore c h (ck s)); [done|].
      unfold acceptCommitCore. rewrite E1. unfold k1. by rewrite Hc.
    + by rewrite E1.
Qed.

(** The interval found, as ballots on the hint's value. *)
Lemma interval_ballots k ballot pred lw hi :
  Typed k →
  findExtendedInterval (0, 0) (getCommitBoundariesFromStatements (kEnvs k) ballot) pred = (lw, hi) →
  lw ≠ 0 → pred (lw, hi) = true ∧ 0 < lw ≤ hi ∧ in_u32 lw ∧ in_u32 hi.
Proof.
  intros HT E Hlw.
  pose proof (findExtendedInterval_ok pred (getCommitBoundariesFromStatements (kEnvs k) ballot)) as H.
  rewrite E in H. destruct (H Hlw) as (H1 & H2 & H3 & H4). simpl in *.
  apply (boundaries_typed k) in H3, H4; try done. split_and!; try done; word.
Qed.

Lemma attemptAcceptCommit_wp hint s :
  Good s → LevelOk s →
  (kPrep (ck s) = None → kPhase (ck s) ≠ SCP_PHASE_EXTERNALIZE → Hint (ck s) hint ∧
   ∀ b, b ∈ getPrepareCandidates (kEnvs (ck s)) hint → acceptsPrepared (ck s) b = false) →
  wp (attemptAcceptCommit knot hint) s (λ _ s', Attempt s s') okFail.
Proof.
  intros HG HL Hprep. unfold attemptAcceptCommit. wps. to_core s.
  pose proof (Attempt_refl s) as Hrefl.
  case_bool_decide as Hph; [by wps|]. destruct (commitHint hint) as [ballot|] eqn:Ehint; [|by wps].
  apply wp_bind.
  assert (wp (if bool_decide (kPhase (ck s) = SCP_PHASE_CONFIRM) then
      let! h := deref (kHigh (ck s)) in ret (negb (areBallotsCompatible ballot h)) else ret false) s
    (λ inc s', s' = s ∧ (inc = false → kPhase (ck s) = SCP_PHASE_CONFIRM →
       ∃ h0, kHigh (ck s) = Some h0 ∧ value h0 = value ballot)) okFail) as H1.
  { case_bool_decide as Hc; [|by wps]. destruct (ci_confirm _ (proj1 HG) Hc) as [Hcm _].
    destruct (kCommit (ck s)) as [c|] eqn:Ec; [|done].
    destruct (ci_commit _ (proj1 HG) c Ec) as (h0 & Eh0 & _). rewrite Eh0. wps. split; [done|].
    rewrite negb_false_iff, compatible_iff. intros Hv _. eauto. }
  eapply wp_mono; [exact H1| |done]. intros [] s' [-> Hcomp]; [by wps|]. clear H1.
  set (pred := λ cur, federatedAccept _ _ _).
  destruct (getCommitBoundariesFromStatements (kEnvs (ck s)) ballot) as [|x bs] eqn:Ebs; [by wps|].
  rewrite <- Ebs. destruct (findExtendedInterval _ _ _) as [lw hi] eqn:Ef. cbn [fst snd].
  destruct (Z.eqb_spec lw 0) as [|Hlw]; cbn [negb]; [by wps|].
  destruct (interval_ballots _ _ _ _ _ (proj2 HG) Ef Hlw) as (Hpred & Hle & Hul & Huh).
  apply wp_bind.
  assert (wp (if bool_decide (kPhase (ck s) ≠ SCP_PHASE_CONFIRM) then ret true
      else let! h := deref (kHigh (ck s)) in ret (counter h <? hi)) s
    (λ r s', s' = s ∧ (r = true → kPhase (ck s) = SCP_PHASE_CONFIRM →
       ∃ h0, kHigh (ck s) = Some h0 ∧ value h0 = value ballot ∧ counter h0 < hi)) okFail) as H2.
  { case_bool_decide as Hc; [by wps|].
    destruct (Hcomp eq_refl Hc) as (h0 & Eh0 & Hv). rewrite Eh0. wps. split; [done|].
    intros Hlt%Z.ltb_lt _. eauto. }
  eapply wp_mono; [exact H2| |done]. intros [] s' [-> Hraise]; [|by wps]. clear H2.
  specialize (Hraise eq_refl). apply setAcceptCommit_wp; try done.
  { intros Hc. destruct (Hraise Hc) as (h0 & ? & _ & ?). eauto. }
  apply step_acceptCommit; simpl; try done; try lia.
  intros Enone. destruct (Hprep Enone Hph) as [(n0 & w0 & Hin & Eh) Hnone].
  destruct (accept_commit_candidate Hlocal Hqset (kEnvs (ck s)) hint ballot (n0, w0)
    (lw, hi) Ehint Hin Eh Hpred) as (b & Hb & Hacc).
  specialize (Hnone b Hb). unfold acceptsPrepared in Hnone. congruence.
Qed.

Lemma setConfirmCommit_wp c h s :
  Good s → LevelOk s → kPhase (ck s) = SCP_PHASE_CONFIRM →
  istep (ck s) (confirmCommitCore c h (ck s)) →
  wp (setConfirmCommit knot c h) s (λ _ s', Attempt s s') okFail.
Proof.
  intros HG HL Hph Hstep. unfold setConfirmCommit. wps. set (s1 := set_mBallotProtocol _ s).
  assert (ck s1 = mkCore (kPhase (ck s)) (kCur (ck s)) (kPrep (ck s)) (kPrime (ck s)) (Some h)
    (Some c) (kEnvs (ck s))) as E1 by done.
  apply wp_bind. eapply wp_mono; [apply updateCurrentIfNeeded_wp; by rewrite E1; cbn [kPhase]; rewrite Hph| |done].
  intros _ s2 (E2 & F2 & _). rewrite E1 in E2. wps. set (s3 := set_mBallotProtocol _ s2).
  assert (ck s3 = confirmCommitCore c h (ck s)) as E3.
  { unfold confirmCommitCore. rewrite <- E2. done. }
  assert (Frame s s3) as F3 by by destruct F2.
  destruct (confirmCommitCore_frame c h (ck s)) as (C1 & _ & _ & _ & C5).
  assert (Good s3) as HG3.
  { destruct HG. split; rewrite E3; [by eapply istep_inv|by eapply istep_typed]. }
  apply wp_bind. eapply wp_mono; [apply emit_wp; [done|]| |done].
  { unfold LevelOk. by rewrite (fr_level _ _ F3). }
  intros _ s4 [HR4 Hs4]. wps. simpl. to_core s4.
  destruct (isteps_mono _ _ (run_steps _ _ HR4) (proj1 HG3)) as [_ M _ _ _ _].
  destruct M as (M1 & _ & _ & _ & _ & M6); [by rewrite E3|].
  rewrite M6, E3, C5. wps. set (s5 := set_mDriverCalls _ _).
  assert (ck s5 = ck s4) as E5 by done. split; [|by rewrite E5].
  destruct HR4 as [A1 A2 A3 A4 A5 A6 A7], F3 as [B1 B2 B3 B4 B5 B6]. split.
  - rewrite E5. eapply rtc_l; [exact Hstep|]. by rewrite <- E3.
  - by rewrite <- B1, <- A2.
  - by rewrite <- B2, <- A3.
  - by rewrite <- B4, <- A4.
  - rewrite decide_False by (rewrite Hph; done). unfold s5. rewrite ext_calls_driver.
    change (ext_calls (set_mNominationProtocol _ s4)) with (ext_calls s4).
    rewrite A5, decide_True, app_nil_r, B3 by (by rewrite E3). f_equal.
    change (ck (set_mDriverCalls _ _)) with (ck s4).
    unfold externalized. by rewrite M6, M1, E3, C1, C5.
  - done.
  - intros st Hst. apply outbox_driver in Hst. rewrite app_nil_r in Hst.
    apply A7 in Hst as [Hst|Hst]; [left; auto|by right].
Qed.

Lemma attemptConfirmCommit_wp hint s :
  Good s → LevelOk s → wp (attemptConfirmCommit knot hint) s (λ _ s', Attempt s s') okFail.
Proof.
  intros HG HL. unfold attemptConfirmCommit. wps. to_core s. pose proof (Attempt_refl s).
  case_bool_decide as Hph; [by wps|].
  destruct (kHigh (ck s)) as [h0|] eqn:Eh; [|by wps].
  destruct (kCommit (ck s)) as [c0|] eqn:Ec; [|by wps].
  assert (∀ ballot, wp (if negb (areBallotsCompatible ballot c0) then ret false else
      let boundaries := getCommitBoundariesFromStatements (kEnvs (ck s)) ballot in
      let pred := λ cur, federatedRatify (commitPredicate ballot cur) (kEnvs (ck s)) in
      let candidate := findExtendedInterval (0, 0) boundaries pred in
      if negb (candidate.1 =? 0) then
        setConfirmCommit knot (mkBallot candidate.1 (value ballot)) (mkBallot candidate.2 (value ballot))
      else ret false) s (λ _ s', Attempt s s') okFail) as Hmain.
  { intros ballot. destruct (areBallotsCompatible ballot c0) eqn:Ecomp; cbn [negb]; [|by wps].
    apply compatible_iff in Ecomp. cbv zeta.
    destruct (findExtendedInterval _ _ _) as [lw hi] eqn:Ef. cbn [fst snd].
    destruct (Z.eqb_spec lw 0) as [|Hlw]; cbn [negb]; [by wps|].
    destruct (interval_ballots _ _ _ _ _ (proj2 HG) Ef Hlw) as (Hpred & Hle & Hul & Huh).
    apply setConfirmCommit_wp; try done.
    apply step_confirmCommit; simpl; try done; try lia. eauto. }
  destruct (pledges hint); try (by wps); (destruct (commitHint hint); [apply Hmain|by wps]).
Qed.

(** ** Raising the ballot *)

(** [updateCurrentValue] asserts that the new ballot is not lower. *)
Definition bumpFail (k : Core) (n : Z) (f : Failure) : Prop :=
  okFail f ∨
  f = DbgAssert Assert_updateCurrentValue_monotone ∧ ∃ cur, kCur k = Some cur ∧ n ≤ counter cur.

Lemma bump_checked ballot s (Q : bool → Slot → Prop) E :
  Good s → istep (ck s) (bumpCore ballot (ck s)) → kPhase (ck s) ≠ SCP_PHASE_EXTERNALIZE →
  optionCmp compareBallots (kCur (ck s)) (Some ballot) ≤ 0 → (∀ f, okFail f → E f) →
  (∀ s1, ck s1 = bumpCore ballot (ck s) → Run s s1 → Q true s1) →
  wp (bumpToBallot ballot true ;; checkInvariants ;; ret true) s Q E.
Proof.
  intros HG Hstep Hph Hle HE HQ. apply wp_bind.
  eapply wp_mono; [by apply bumpToBallot_wp| |done]. intros _ s1 [E1 F1]. apply wp_bind.
  eapply wp_mono; [apply checkInvariants_wp| |done].
  - rewrite E1. eapply istep_inv; [done|apply HG].
  - intros _ s' ->. wps. apply HQ; [done|]. apply Run_istep; [by rewrite E1|done|].
    rewrite E1. by destruct (bumpCore_frame ballot (ck s)) as (-> & _).
Qed.

Lemma updateCurrentValue_wp ballot s :
  Good s → typed_ballot ballot →
  wp (updateCurrentValue ballot) s
    (λ r s', if r then ck s' = bumpCore ballot (ck s) ∧ Run s s' else s' = s)
    (bumpFail (ck s) (counter ballot)).
Proof.
  intros HG Ht. unfold updateCurrentValue. wps. to_core s.
  case_bool_decide as Hph; [by wps|].
  destruct (kCur (ck s)) as [cur|] eqn:Ec.
  - apply wp_bind, wp_dbgAssert.
    2:{ intros Hlt%Z.leb_gt. right. split; [done|]. exists cur. split; [done|].
        apply compareBallots_counter. apply Z.lt_le_incl. by apply (cmp_flip compareBallots). }
    intros Hle%Z.leb_le. destruct (optTest _ _) eqn:Ecm; [by wps|].
    destruct (Z.ltb_spec (compareBallots cur ballot) 0) as [Hlt|Hge].
    + apply bump_checked; try done; [|rewrite Ec; simpl; lia|by left].
      apply step_bump; try done; [rewrite Ec; by intros ? [= <-]|].
      intros c Ecc. rewrite Ecc in Ecm. simpl in Ecm. by apply negb_false_iff, compatible_iff in Ecm.
    + destruct (0 <? _); [by wps|]. apply wp_bind.
      eapply wp_mono; [apply checkInvariants_wp, HG| |by left]. intros _ s' ->. by wps.
  - apply bump_checked; try done; [|rewrite Ec; simpl; lia|by left].
    apply step_bump; try done; [by rewrite Ec|]. intros c Ecc.
    destruct (ci_commit _ (proj1 HG) c Ecc) as (h & Eh & _).
    destruct (ci_high _ (proj1 HG) h Eh) as (? & ? & _). congruence.
Qed.

Lemma bumpStateTo_wp v n s :
  Good s → LevelOk s → in_u32 n →
  wp (bumpStateTo knot v n) s
    (λ r s', if r then Run s s' ∧ synced (ck s') ∧
                       (kPhase (ck s') = kPhase (ck s) → n ≤ localCounter (ck s'))
             else s' = s)
    (bumpFail (ck s) n).
Proof.
  intros HG HL Hn. unfold bumpStateTo. wps. case_bool_decide; [by wps|].
  set (newb := mkBallot n _). apply wp_bind.
  eapply wp_mono; [by apply (updateCurrentValue_wp newb)| |done]. intros [] s1 H1; [|by wps].
  destruct H1 as [E1 HR1]. apply wp_bind, wp_bind.
  eapply wp_mono; [by apply (step_then_emit s)| |by left]. intros _ s2 (HR & HR12 & Hs).
  eapply wp_mono; [apply checkHeardFromQuorum_wp| |by left].
  intros _ s3 [E3 F3]. wps. rewrite E3. split_and!; [|done|].
  - by eapply Run_frame_r; [apply HG|..].
  - intros Hp. destruct (bumpCore_frame newb (ck s)) as (B1 & B2 & _).
    assert (CoreInv (ck s1)) as Hi1 by by eapply Run_good in HR1 as [? _].
    destruct (isteps_mono _ _ (run_steps _ _ HR12) Hi1) as [_ _ _ _ Hm _].
    rewrite E1, B1, B2 in Hm. specialize (Hm (eq_sym Hp)). unfold localCounter.
    destruct (kCur (ck s2)) as [c|]; simpl in Hm; [|lia].
    by apply compareBallots_counter in Hm.
Qed.

(** A blocking set is ahead of the local ballot. *)
Definition ahead (k : Core) (n : Z) : bool := hasVBlockingSubsetStrictlyAheadOf (kEnvs k) n.

Lemma ahead_after k k' n :
  others (kEnvs k') = others (kEnvs k) → synced k' → kPhase k' ≠ SCP_PHASE_EXTERNALIZE →
  n ≤ localCounter k' → ahead k n = false → ahead k' (localCounter k') = false.
Proof.
  intros Ho [?|Hs] Hp Hn; [done|]. rewrite <- !not_true_iff_false. intros Hk Hk'. apply Hk.
  eapply (isVBlocking_mono _ _ _ Hlocal); [|exact Hk']. intros m.
  rewrite !elem_of_filterNodes. intros (w & Hw & Hlt%Z.ltb_lt).
  assert ((m, w) ∈ others (kEnvs k)) as [Hin _]%elem_of_filterb.
  { rewrite <- Ho. apply elem_of_filterb. split; [done|]. simpl. apply negb_true_iff, Z.eqb_neq.
    intros ->. specialize (Hs w Hw). lia. }
  exists w. split; [done|]. apply Z.ltb_lt. lia.
Qed.

Lemma bump_candidates_ok envs counters n :
  bump_candidates envs counters = Some n →
  n ∈ counters ∧ hasVBlockingSubsetStrictlyAheadOf envs n = false.
Proof.
  induction counters as [|c l IH]; simpl; [done|].
  destruct (hasVBlockingSubsetStrictlyAheadOf envs c) eqn:E; simpl.
  - intros [? ?]%IH. split; [by right|done].
  - intros [= <-]. split; [by left|done].
Qed.

Lemma allCounters_ok (m : Z) (envs : EnvMap) n :
  n ∈ foldl (λ s e, let c := statementBallotCounter (getStatement e.2) in
                    if m <? c then set_insert Zcmp c s else s) [] envs →
  m < n ∧ ∃ e, e ∈ envs ∧ n = statementBallotCounter (getStatement e.2).
Proof.
  assert (∀ acc, n ∈ foldl (λ s e, let c := statementBallotCounter (getStatement e.2) in
        if m <? c then set_insert Zcmp c s else s) acc envs →
    n ∈ acc ∨ m < n ∧ ∃ e, e ∈ envs ∧ n = statementBallotCounter (getStatement e.2)) as H.
  { induction envs as [|e envs IH]; intros acc; simpl; [by left|].
    intros [Hin|(Hlt & e' & ? & ?)]%IH; [|right; split; [done|]; exists e'; set_solver].
    destruct (Z.ltb_spec m (statementBallotCounter (getStatement e.2))); [|by left].
    apply (elem_of_set_insert Zcmp) in Hin as [->|?]; [|by left].
    right. split; [done|]. exists e. set_solver. }
  intros [?%elem_of_nil|?]%H; done.
Qed.

Lemma counter_typed st : typed_statement st → in_u32 (statementBallotCounter st).
Proof.
  unfold typed_statement, statementBallotCounter, typed_ballot.
  destruct (pledges st); [tauto..|word|word].
Qed.

Lemma localCounter_typed k : Typed k → in_u32 (localCounter k).
Proof. intros HT. apply typed_counter, HT. Qed.

Lemma attemptBump_wp s :
  Good s → LevelOk s →
  wp (attemptBump knot) s
    (λ r s', if r then Run s s' ∧ synced (ck s') ∧ kPhase (ck s) ≠ SCP_PHASE_EXTERNALIZE ∧
                ahead (ck s) (localCounter (ck s)) = true ∧
                (kPhase (ck s') = kPhase (ck s) → ahead (ck s') (localCounter (ck s')) = false)
             else s' = s) okFail.
Proof.
  intros HG HL. unfold attemptBump. wps. to_core s. case_bool_decide as Hph; [by wps|].
  change (match kCur (ck s) with Some c => counter c | None => 0 end) with (localCounter (ck s)).
  change (hasVBlockingSubsetStrictlyAheadOf (kEnvs (ck s)) ?n) with (ahead (ck s) n).
  destruct (ahead (ck s) (localCounter (ck s))) eqn:Ea; cbn [negb]; [|by wps].
  destruct (bump_candidates _ _) as [n|] eqn:Eb; [|by wps].
  apply bump_candidates_ok in Eb as [[Hlt ([m w] & Hin & En)]%allCounters_ok Hn]. simpl in En.
  pose proof (localCounter_typed _ (proj2 HG)) as Hu.
  assert (in_u32 n) as Hun.
  { rewrite En. by apply counter_typed, (ty_envs _ (proj2 HG) m w). }
  unfold abandonBallot. wps. destruct (nonEmptyValue _) as [v|]; [|by wps].
  destruct (Z.eqb_spec n 0); [word|].
  eapply wp_mono; [by apply bumpStateTo_wp| |].
  - intros [] s' H; [|done]. destruct H as (HR & Hs & Hc). split_and!; try done.
    intros Hp. apply (ahead_after (ck s) _ n); try done; [|by rewrite Hp|auto].
    by apply (isteps_mono _ _ (run_steps _ _ HR) (proj1 HG)).
  - intros f [?|(_ & cur & Ecur & Hle)]; [done|]. unfold localCounter in Hlt.
    rewrite Ecur in Hlt. lia.
Qed.

(** The loop of bumps ends: in one phase a second bump finds no blocking set
    ahead. *)
Lemma bump_loop_wp fuel didWork s :
  Good s → LevelOk s →
  3 - phase_index (kPhase (ck s)) ≤ Z.of_nat fuel ∨
  (1 ≤ fuel)%nat ∧ ahead (ck s) (localCounter (ck s)) = false →
  wp (bump_loop knot fuel didWork) s (λ _ s', Attempt s s') okFail.
Proof.
  revert didWork s. induction fuel as [|fuel IH]; intros didWork s HG HL Hf.
  { destruct Hf as [Hf|[? _]]; [|lia]. destruct (kPhase (ck s)); simpl in Hf; lia. }
  simpl. apply wp_bind. eapply wp_mono; [by apply attemptBump_wp| |done].
  intros [] s1 H1; [|wps; subst; apply Attempt_refl].
  destruct H1 as (HR & Hs & Hph & Ha & Hsame).
  eapply wp_mono; [apply (IH true s1)| |done].
  - by eapply Run_good.
  - unfold LevelOk. by rewrite (run_level _ _ HR).
  - destruct Hf as [Hf|[_ ?]]; [|congruence].
    destruct (isteps_mono _ _ (run_steps _ _ HR) (proj1 HG)) as [Hm _ _ _ _ _].
    destruct (decide (kPhase (ck s1) = kPhase (ck s))) as [E|E].
    + right. split; [|auto]. destruct (kPhase (ck s)); simpl in Hf; try done; lia.
    + left. destruct (kPhase (ck s)), (kPhase (ck s1)); simpl in *; done || lia.
  - intros _ s2 [HR2 Hs2]. split; [eapply Run_trans; [apply HG|done..]|auto].
Qed.

(** The counter of the ballot is exhausted. *)
Definition exhausted (k : Core) : Prop := ∃ cur, kCur k = Some cur ∧ counter cur = UINT32_MAX.

Definition bumpStateFail (k : Core) (f : Failure) : Prop :=
  okFail f ∨ f = DbgAssert Assert_updateCurrentValue_monotone ∧ exhausted k.

Lemma bumpState_wp v force s :
  Good s → LevelOk s →
  wp (bumpState knot v force) s (λ _ s', Attempt s s') (bumpStateFail (ck s)).
Proof.
  intros HG HL. unfold bumpState. wps. to_core s.
  destruct (negb force && optb (kCur (ck s))); [wps; apply Attempt_refl|].
  set (n := match kCur (ck s) with Some b => _ | None => 1 end).
  eapply wp_mono; [apply (bumpStateTo_wp v n); try done| |].
  - unfold n. destruct (kCur (ck s)); [apply u32_range|word].
  - intros [] s'; [|by intros ->; apply Attempt_refl]. intros (HR & Hs & _). by split.
  - intros f [?|(-> & cur & Ec & Hle)]; [by left|right]. split; [done|]. exists cur.
    split; [done|]. unfold n in Hle. rewrite Ec in Hle.
    pose proof (ty_cur _ (proj2 HG) cur Ec) as Hu. unfold typed_ballot in Hu.
    destruct (decide (counter cur = UINT32_MAX)); [done|]. rewrite u32_small in Hle by word. lia.
Qed.

(** Without [force] the ballot protocol is only started. *)
Lemma bumpState_start_wp v s :
  Good s → LevelOk s → wp (bumpState knot v false) s (λ _ s', Attempt s s') okFail.
Proof.
  intros HG HL. unfold bumpState. wps. to_core s.
  destruct (kCur (ck s)) as [cur|] eqn:Ec; cbn [optb negb andb]; [wps; apply Attempt_refl|].
  eapply wp_mono; [apply (bumpStateTo_wp v 1); try done; word| |].
  - intros [] s'; [|by intros ->; apply Attempt_refl]. intros (HR & Hs & _). by split.
  - intros f [?|(-> & cur & Ec' & _)]; [done|congruence].
Qed.

Lemma abandonBallot0_wp s :
  Good s → LevelOk s →
  wp (abandonBallot knot 0) s (λ _ s', Attempt s s') (bumpStateFail (ck s)).
Proof.
  intros HG HL. unfold abandonBallot. wps.
  destruct (nonEmptyValue _); [by apply bumpState_wp|]. wps. apply Attempt_refl.
Qed.

(** ** [advanceSlot] *)

Lemma Attempt_trans s1 s2 s3 : Good s1 → Attempt s1 s2 → Attempt s2 s3 → Attempt s1 s3.
Proof.
  intros [Hi _] [H1 H2] [H3 H4]. split; [by eapply Run_trans|auto].
Qed.

Lemma Attempt_next s s' :
  Good s → LevelOk s → Attempt s s' → Good s' ∧ LevelOk s'.
Proof.
  intros HG HL [HR _]. split; [by eapply Run_good|]. unfold LevelOk.
  by rewrite (run_level _ _ HR).
Qed.

(** The four attempts of [advanceSlot]. *)
Lemma attempts_wp {B} (k : bool → SM B) hint s (Q : B → Slot → Prop) :
  Good s → LevelOk s → Hint (ck s) hint →
  (∀ w s', Attempt s s' → wp (k w) s' Q okFail) →
  wp (let! w1 := attemptAcceptPrepared knot hint in
      let! w2 := attemptConfirmPrepared knot hint in
      let! w3 := attemptAcceptCommit knot hint in
      let! w4 := attemptConfirmCommit knot hint in
      k (w1 || w2 || w3 || w4)) s Q okFail.
Proof.
  intros HG HL HH HQ. pose proof (Hint_typed _ _ (proj2 HG) HH) as Ht.
  apply wp_bind. eapply wp_mono; [by apply attemptAcceptPrepared_wp| |done]. intros w1 s1 H1.
  assert (Attempt s s1) as A1 by (destruct H1 as [[-> _]|[? _]]; [apply Attempt_refl|done]).
  destruct (Attempt_next _ _ HG HL A1) as [HG1 HL1].
  apply wp_bind. eapply wp_mono; [by apply attemptConfirmPrepared_wp| |done].
  intros w2 s2 [A2 Hsame]. destruct (Attempt_next _ _ HG1 HL1 A2) as [HG2 HL2].
  apply wp_bind. eapply wp_mono; [apply attemptAcceptCommit_wp; [done..|]| |done].
  { intros Hnone Hph. destruct H1 as [[-> Hc]|[_ Hp]].
    - assert (kPrep (ck s) = None) as E.
      { destruct (kPrep (ck s)) eqn:E; [|done]. exfalso. revert Hnone.
        eapply Run_prep; [exact HG|apply A2|by rewrite E]. }
      rewrite (Hsame E) in Hph |- *. auto.
    - exfalso. revert Hnone. by eapply Run_prep; [exact HG1|apply A2|]. }
  intros w3 s3 A3. destruct (Attempt_next _ _ HG2 HL2 A3) as [HG3 HL3].
  apply wp_bind. eapply wp_mono; [by apply attemptConfirmCommit_wp| |done].
  intros w4 s4 A4. apply HQ.
  eapply Attempt_trans; [done|exact A1|]. eapply Attempt_trans; [done|exact A2|].
  exact (Attempt_trans _ _ _ HG2 A3 A4).
Qed.
End Handlers.

(** [level] moves by one inside [advanceSlot]. *)
Definition shift (d : Z) (s : Slot) : Slot :=
  set_mBallotProtocol (set_mCurrentMessageLevel (level s + d) (mBallotProtocol s)) s.

Lemma Run_shift d s s' : Run (shift d s) s' → Run s (shift (-d) s').
Proof.
  intros [A1 A2 A3 A4 A5 A6]. split; try done. unfold shift, level in *; simpl in *. lia.
Qed.

Section Advance.
Context (knot : SCPEnvelopeWrapper → bool → SM EnvelopeState) (lo : Z).
Hypothesis Hlocal : at_levels slice_ok localQuorumSet.
Hypothesis Hqset : ∀ h q, getQSet h = Some q → qset_typed q.
Hypothesis Hknot : ∀ w s,
  Good s → LevelOk lo s → ownStatement s (getStatement w) →
  wp (knot w true) s (λ r s', Run s s' ∧ (r = VALID → synced (ck s'))) okFail.

Lemma advanceSlot_wp hint s :
  Good s → lo - 1 ≤ level s → Hint (ck s) hint →
  wp (advanceSlot knot hint) s (λ _ s', Attempt s s') okFail.
Proof.
  intros HG HL HH. unfold advanceSlot. wps. fold (level s).
  change (set_mBallotProtocol (set_mCurrentMessageLevel (level s + 1) _) s) with (shift 1 s).
  apply wp_bind. change (mCurrentMessageLevel (mBallotProtocol (shift 1 s))) with (level s + 1).
  destruct (Z.leb_spec MAX_ADVANCE_SLOT_RECURSION (level s + 1)); [done|]. wps.
  assert (Good (shift 1 s)) as HG1 by done.
  assert (LevelOk lo (shift 1 s)) as HL1 by (unfold LevelOk, shift, level in *; simpl; lia).
  apply (attempts_wp knot lo Hlocal Hqset Hknot (λ w,
    let! level := getB mCurrentMessageLevel in
    let! didWork :=
      (if level =? 1 then
         let! didWork := bump_loop knot bumpFuel w in checkHeardFromQuorum ;; ret didWork
       else ret w) in
    modB (λ b, set_mCurrentMessageLevel (mCurrentMessageLevel b - 1) b) ;;
    if didWork then sendLatestEnvelope else ret tt)); [done..|]. intros w s1 A1.
  destruct (Attempt_next lo _ _ HG1 HL1 A1) as [HG2 HL2]. wps. apply wp_bind.
  assert (wp (if mCurrentMessageLevel (mBallotProtocol s1) =? 1 then
      let! didWork := bump_loop knot bumpFuel w in checkHeardFromQuorum ;; ret didWork
    else ret w) s1 (λ _ s', Attempt (shift 1 s) s') okFail) as H2.
  { destruct (_ =? 1); [|by wps]. apply wp_bind.
    eapply wp_mono; [apply (bump_loop_wp knot lo Hlocal Hqset Hknot); [done..|]| |done].
    - left. unfold bumpFuel. destruct (kPhase (ck s1)); simpl; lia.
    - intros d s2 A2. apply wp_bind. eapply wp_mono; [apply checkHeardFromQuorum_wp| |done].
      intros _ s3 [E3 F3]. wps. eapply Attempt_trans; [done|exact A1|].
      destruct A2 as [R2 S2]. split; [|by rewrite E3].
      by eapply Run_frame_r; [apply HG2|..]. }
  eapply wp_mono; [exact H2| |done]. intros d s2 [R2 S2]. wps. fold (level s2).
  change (set_mBallotProtocol (set_mCurrentMessageLevel (level s2 - 1) _) s2) with (shift (-1) s2).
  apply Run_shift in R2. change (-(1)) with (-1) in R2.
  assert (Attempt s (shift (-1) s2)) as A3 by done.
  destruct d; [|by wps]. eapply wp_mono; [apply sendLatestEnvelope_wp| |done].
  intros _ s3 [E3 F3]. split; [|rewrite E3; apply A3].
  by eapply Run_frame_r; [apply HG|..].
Qed.

Lemma recordCore_good w k :
  typed_statement (getStatement w) → is_ballot_statement (getStatement w) →
  CoreInv k ∧ Typed k → CoreInv (recordCore w k) ∧ Typed (recordCore w k).
Proof.
  intros Hw Hb [[] HT]. split; [by split|by apply recordCore_typed].
Qed.

Lemma recordEnvelope_wp w s :
  wp (recordEnvelope w) s (λ _ s', ck s' = recordCore w (ck s) ∧ Frame s s') okFail.
Proof. unfold recordEnvelope, recordStatement. by wps. Qed.

(** An envelope is rejected without effect, or recorded and followed by steps. *)
Definition Processed (w : SCPEnvelopeWrapper) (s : Slot) (r : EnvelopeState) (s' : Slot) : Prop :=
  match r with
  | INVALID => s' = s
  | VALID => ∃ s1, ck s1 = recordCore w (ck s) ∧ Frame s s1 ∧ Attempt s1 s'
  end.

Lemma processEnvelope_wp w self s :
  Good s → lo - 1 ≤ level s → slotIndex (getStatement w) = mSlotIndex s →
  is_ballot_statement (getStatement w) → typed_statement (getStatement w) →
  wp (processEnvelope knot w self) s (Processed w s) okFail.
Proof.
  intros HG HL Hidx Hb Ht. unfold processEnvelope. wps.
  apply wp_pass; [by apply assert_pass, Z.eqb_eq|]. wps.
  destruct (negb (isStatementSane (getStatement w) self)); [by wps|].
  destruct (negb (isNewerStatementFor (mBallotProtocol s) (nodeID (getStatement w)) _)); [by wps|].
  assert (∀ s0, ck s0 = ck s → Frame s s0 →
    wp (recordEnvelope w ;; advanceSlot knot (getStatement w) ;; ret VALID) s0
       (Processed w s) okFail) as Hmain.
  { intros s0 E0 F0. apply wp_bind. eapply wp_mono; [apply recordEnvelope_wp| |done].
    intros _ s1 [E1 F1]. rewrite E0 in E1. apply wp_bind.
    eapply wp_mono; [apply advanceSlot_wp| |done].
    - unfold Good. rewrite E1. by apply recordCore_good.
    - by rewrite (fr_level _ _ F1), (fr_level _ _ F0).
    - rewrite E1. exists (nodeID (getStatement w)), w. split; [|done].
      apply map_find_Some_elem, map_find_insert_eq.
    - intros ? s2 A. wps. exists s1. split_and!; [done|by eapply Frame_trans|done]. }
  assert (wp (if bool_decide (mPhase (mBallotProtocol s) ≠ SCP_PHASE_EXTERNALIZE) then
      (recordEnvelope w ;; advanceSlot knot (getStatement w) ;; ret VALID)
    else
      let! commit := deref (mCommit (mBallotProtocol s)) in
      if bool_decide (value commit = value (getWorkingBallot (getStatement w)))
      then recordEnvelope w ;; ret VALID else ret INVALID) s (Processed w s) okFail) as H1.
  { case_bool_decide as Hph; [by apply Hmain|]. 
    assert (kCommit (ck s) ≠ None) as Hc.
    { apply (ci_externalize _ (proj1 HG)). destruct (decide (kPhase (ck s) = SCP_PHASE_EXTERNALIZE)); done. }
    to_core s. destruct (kCommit (ck s)) as [c|]; [|done]. wps. case_bool_decide; [|by wps].
    apply wp_bind. eapply wp_mono; [apply recordEnvelope_wp| |done].
    intros _ s1 [E1 F1]. wps. exists s1. split_and!; [done..|apply Attempt_refl]. }
  destruct (validateValues _ _); [by wps| |].
  - case_bool_decide; [|done]. apply wp_bind. rewrite bool_decide_eq_true_2 by done. wps.
    by apply Hmain.
  - case_bool_decide; [|done]. apply wp_bind. rewrite bool_decide_eq_false_2 by done. wps.
    by apply Hmain.
Qed.

Lemma slotDispatch_wp nomination w self s :
  Good s → lo - 1 ≤ level s → slotIndex (getStatement w) = mSlotIndex s →
  is_ballot_statement (getStatement w) → typed_statement (getStatement w) →
  wp (slotDispatch nomination (processEnvelope knot) w self) s (Processed w s) okFail.
Proof.
  intros HG HL Hidx Hb Ht. unfold slotDispatch. wps.
  apply wp_pass; [by apply assert_pass, Z.eqb_eq|]. wps.
  rewrite (bool_decide_eq_false_2 (pledges_type _ = _)) by done. apply wp_bind.
  eapply wp_mono; [by apply processEnvelope_wp| |done]. intros r s1 HP.
  apply wp_bind. destruct r; [rewrite andb_false_r; by wps|].
  assert (∀ s2, ck s2 = ck s1 → Frame s1 s2 → Processed w s VALID s2) as Hdone.
  { intros s2 E2 F2. destruct HP as (s0 & E0 & F0 & R0 & S0). exists s0.
    split_and!; [done..|]. split; [|by rewrite E2]. eapply Run_frame_r; [|done..].
    rewrite E0. by apply recordCore_good. }
  destruct (_ && _); [|wps; by apply Hdone].
  eapply wp_mono; [apply maybeSetGotVBlocking_wp| |done]. intros _ s2 [E2 F2]. wps. by apply Hdone.
Qed.

(** The node's own statement keeps the specification of the call back. *)
Lemma own_Processed w s r s' :
  Good s → ownStatement s (getStatement w) → Processed w s r s' →
  Run s s' ∧ (r = VALID → synced (ck s')).
Proof.
  intros HG (Hn & _ & Hb & Ht & Hsaid & Hc). destruct r; simpl; [intros ->; by split; [apply Run_refl|]|].
  intros (s1 & E1 & F1 & R1 & S1). split.
  - eapply Run_trans; [apply HG| |exact R1]. apply Run_frame; [done| |by rewrite E1].
    rewrite E1. apply rtc_once. by apply step_own.
  - intros _. apply S1. rewrite E1. destruct Hc as [Hc|Hc]; [by left|right].
    intros w' Hw'. simpl in Hw'. rewrite Hn in Hw'.
    assert (w' = w) as ->; [|done].
    apply (map_find_elem _ _ _ (map_insert_sorted _ w _ (ty_sorted _ (proj2 HG)))) in Hw'.
    rewrite map_find_insert_eq in Hw'. congruence.
Qed.
End Advance.

End Refine.
