(* ===== verification/Nomination.v ===== *)
(** * The nomination protocol (src/scp/NominationProtocol.cpp)

    Votes, accepted values and candidates of a slot.  Values are kept in sets
    ordered by value ([ValueWrapperPtrSet]).  As for ballots, emitting a statement
    feeds it back through [Slot::processEnvelope], the parameter of the
    handlers. *)

From stdpp Require Import prelude list.
From Stdlib Require Import ZArith Lia.
From S2P Require Import Prelude Numeric QuorumSet ScpTypes LocalNode Ballots Slot.
From S2P Require Import BallotProtocol.
Local Open Scope Z_scope.

(** The state after the constructor. *)
Definition newNominationProtocol : NominationProtocol :=
  {| mRoundNumber := 0; mVotes := []; mAccepted := []; mCandidates := [];
     mLatestNominations := []; mLastNomination := None; mRoundLeaders := [];
     mNominationStarted := false; mLatestCompositeCandidate := None; mPreviousValue := [] |}.

Definition ltValue (l r : Value) : bool := compareValues l r <? 0.

(** [std::includes(v.begin(), v.end(), p.begin(), p.end())] *)
Fixpoint includes (v p : list Value) : bool :=
  match p with
  | [] => true
  | y :: p' =>
      match v with
      | [] => false
      | x :: v' =>
          if ltValue y x then false
          else if negb (ltValue x y) then includes v' p' else includes v' p
      end
  end.

(** The result and the output parameter [notEqual]. *)
Definition isSubsetHelper (p v : list Value) : bool * bool :=
  if bool_decide (length p ≤ length v)%nat then
    let res := includes v p in
    (res, if res then bool_decide (length p ≠ length v) else true)
  else (false, true).

Definition isNewerNomination (oldst st : SCPNomination) : bool :=
  let '(sub, grows) := isSubsetHelper (n_votes oldst) (n_votes st) in
  if sub then
    let '(sub, g) := isSubsetHelper (n_accepted oldst) (n_accepted st) in
    if sub then grows || g (* true only if one of the sets grew *) else false
  else false.

(** [std::adjacent_find] with [!(l < r)] finds nothing. *)
Fixpoint adjacentIncreasing (l : list Value) : bool :=
  match l with
  | x :: (y :: _) as l' => ltValue x y && adjacentIncreasing l'
  | _ => true
  end.

Definition isSaneNomination (nom : SCPNomination) : bool :=
  negb (bool_decide (length (n_votes nom) + length (n_accepted nom) = 0)%nat) &&
  adjacentIncreasing (n_votes nom) && adjacentIncreasing (n_accepted nom).

(** The nomination of a statement; the slot passes only nominations here. *)
Definition nominate_of (st : SCPStatement) : SCPNomination :=
  match pledges st with
  | ST_NOMINATE n => n
  | _ => {| n_quorumSetHash := 0; n_votes := []; n_accepted := [] |}
  end.

Definition isNewerNominationFor (n : NominationProtocol) (id : NodeID) (st : SCPNomination) : bool :=
  match map_find id (mLatestNominations n) with
  | None => true
  | Some oldp => isNewerNomination (nominate_of (getStatement oldp)) st
  end.

Definition acceptPredicate (v : Value) (st : SCPStatement) : bool :=
  bool_decide (v ∈ n_accepted (nominate_of st)).

(** The first lambda of [processEnvelope]. *)
Definition votesForValue (v : Value) (st : SCPStatement) : bool :=
  bool_decide (v ∈ n_votes (nominate_of st)).

(** [applyAll]: the values in the order they are processed. *)
Definition applyAll (nom : SCPNomination) : list Value :=
  n_votes nom ++
  (* NB: "accepted" should be a subset of "votes", so this should no-op *)
  List.filter (λ a, negb (bool_decide (a ∈ n_votes nom))) (n_accepted nom).

(** [getStatementValues] *)
Definition getNominationValues (st : SCPStatement) : list Value := applyAll (nominate_of st).

(** Loops over a list that can fail. *)
Fixpoint foldM {A X} (f : X → A → SM X) (l : list A) (x : X) : SM X :=
  match l with
  | [] => ret x
  | a :: l' => let! x' := f x a in foldM f l' x'
  end.

Section Nomination.
Context {D : SCPDriver} {L : LocalNode}.

Definition recordNomination (env : SCPEnvelopeWrapper) : SM unit :=
  let st := getStatement env in
  modN (λ n, set_mLatestNominations (map_insert (nodeID st) env (mLatestNominations n)) n) ;;
  recordStatement st.

(** ** Leaders *)

Definition hashNode (isPriority : bool) (nodeID : NodeID) : SM Z :=
  let! n := getN id in
  let! i := gets mSlotIndex in
  dbgAssert (negb (bool_decide (mPreviousValue n = []))) Assert_hashNode_previousValue ;;
  ret (computeHashNode i (mPreviousValue n) isPriority (mRoundNumber n) nodeID).

Definition hashValue (v : Value) : SM Z :=
  let! n := getN id in
  let! i := gets mSlotIndex in
  dbgAssert (negb (bool_decide (mPreviousValue n = []))) Assert_hashNode_previousValue ;;
  ret (computeValueHash i (mPreviousValue n) (mRoundNumber n) v).

Definition getNodePriority (nodeID : NodeID) (qset : SCPQuorumSet) : SM Z :=
  let! w :=
    (if nodeID =? localNodeID
     then ret UINT64_MAX (* local node is in all quorum sets *)
     else match getNodeWeight nodeID qset with
          | Ok w => ret w
          | Fail _ => fail NumericAssert
          end) in
  (* if w > 0; w is inclusive here as 0 <= hashNode <= UINT64_MAX *)
  if 0 <? w then
    let! h := hashNode false nodeID in
    if h <=? w then hashNode true nodeID else ret 0
  else ret 0.

(** The nodes [forAllNodes] visits, in order. *)
Definition visited (qset : SCPQuorumSet) : list NodeID :=
  (forAllNodes qset (λ n acc, (acc ++ [n], true)) []).1.

(** One round: the nodes with the top priority. *)
Definition newRoundLeaders (myQSet : SCPQuorumSet) : SM (list NodeID) :=
  (* initialize priority with value derived from self *)
  let! topPriority := getNodePriority localNodeID myQSet in
  let! res :=
    foldM (λ (acc : Z * list NodeID) cur,
      let '(topPriority, leaders) := acc in
      let! w := getNodePriority cur myQSet in
      let '(topPriority, leaders) :=
        if topPriority <? w then (w, []) else (topPriority, leaders) in
      ret (topPriority,
           if (w =? topPriority) && (0 <? w) then set_insert Zcmp cur leaders else leaders))
      (visited myQSet) (topPriority, set_insert Zcmp localNodeID []) in
  ret res.2.

(** The [while] loop.  Each turn adds a leader and returns, or moves to the next
    round; how many rounds that takes depends on the driver's hash, so the fuel is
    the number of rounds tried. *)
Fixpoint updateRoundLeaders_loop (fuel : nat) (myQSet : SCPQuorumSet) (maxLeaderCount : Z) : SM unit :=
  match fuel with
  | O => fail OutOfFuel
  | S fuel =>
      let! leaders := getN mRoundLeaders in
      if Z.of_nat (length leaders) <? maxLeaderCount then
        let! new := newRoundLeaders myQSet in
        (* expand mRoundLeaders with the newly computed leaders *)
        let leaders' := set_inserts Zcmp new leaders in
        modN (set_mRoundLeaders leaders') ;;
        if negb (bool_decide (length leaders = length leaders')) then ret tt
        else
          modN (λ n, set_mRoundNumber (s32 (mRoundNumber n + 1)) n) ;;
          updateRoundLeaders_loop fuel myQSet maxLeaderCount
      else ret tt
  end.

Definition updateRoundLeaders (fuel : nat) : SM unit :=
  let myQSet := normalizeQSet localQuorumSet (Some localNodeID) in (* excludes self *)
  let maxLeaderCount :=
    (forAllNodes myQSet (λ _ (c : Z), (u64 (c + 1), true)) 1).1 (* includes self *) in
  updateRoundLeaders_loop fuel myQSet maxLeaderCount.

(** ** Values *)

(** pick the highest value we don't have from the leader, sorted using [hashValue] *)
Definition getNewValueFromNomination (nom : SCPNomination) : SM (option Value) :=
  let! i := gets mSlotIndex in
  let! votes := getN mVotes in
  let! res :=
    foldM (λ (acc : option Value * Z) v,
      let '(newVote, newHash) := acc in
      let valueToNominate :=
        match validateValue i v true with
        | kFullyValidatedValue => Some v
        | _ => extractValidValue i v
        end in
      match valueToNominate with
      | Some w =>
          if negb (bool_decide (w ∈ votes)) then
            let! curHash := hashValue w in
            if newHash <=? curHash then ret (Some w, curHash) else ret (newVote, newHash)
          else ret (newVote, newHash)
      | None => ret (newVote, newHash)
      end) (applyAll nom) (None, 0) in
  ret res.1.

Definition addVote (v : Value) : SM unit :=
  modN (λ n, set_mVotes (set_insert compareValues v (mVotes n)) n).

(** The loop that promotes votes to accepted; returns [modified]. *)
Definition promoteVotes (nom : SCPNomination) (modified : bool) : SM bool :=
  let! i := gets mSlotIndex in
  foldM (λ modified v,
    let! n := getN id in
    if bool_decide (v ∈ mAccepted n) then ret modified (* v is already accepted *)
    else if federatedAccept (votesForValue v) (acceptPredicate v) (mLatestNominations n) then
      match validateValue i v true with
      | kFullyValidatedValue =>
          modN (λ n, set_mAccepted (set_insert compareValues v (mAccepted n)) n) ;;
          addVote v ;;
          ret true
      | _ =>
          (* the value made it pretty far: see if we can vote for a variation that
             we consider valid *)
          match extractValidValue i v with
          | Some toVote =>
              if bool_decide (toVote ∈ mVotes n) then ret modified
              else addVote toVote ;; ret true
          | None => ret modified
          end
      end
    else ret modified) (n_votes nom) modified.

(** The loop that promotes accepted values to candidates; returns
    [newCandidates]. *)
Definition promoteAccepted : SM bool :=
  let! accepted := getN mAccepted in
  foldM (λ newCandidates a,
    let! n := getN id in
    if bool_decide (a ∈ mCandidates n) then ret newCandidates
    else if federatedRatify (acceptPredicate a) (mLatestNominations n) then
      modN (λ n, set_mCandidates (set_insert compareValues a (mCandidates n)) n) ;;
      ret true
    else ret newCandidates) accepted false.

Section Knot.
(** [mSlot.processEnvelope(envW, self)] *)
Variable slotProcessEnvelope : SCPEnvelopeWrapper → bool → SM EnvelopeState.

Definition emitNomination : SM unit :=
  let! n := getN id in
  let nom := {| n_quorumSetHash := localQuorumSetHash; n_votes := mVotes n;
                n_accepted := mAccepted n |} in
  let! envelope := createEnvelope (ST_NOMINATE nom) in
  let! envW := wrapEnvelope envelope in
  let! st := slotProcessEnvelope envW true in
  match st with
  | VALID =>
      let! last := getN mLastNomination in
      if match last with
         | None => true
         | Some l => isNewerNomination (nominate_of (getStatement l)) nom
         end
      then
        modN (set_mLastNomination (Some envW)) ;;
        let! validated := gets mFullyValidated in
        if validated then driver (emitEnvelope envelope) else ret tt
      else ret tt
  | INVALID =>
      (* there is a bug in the application if it queued up
         a statement for itself that it considers invalid *)
      fail (Throw MovedToBadStateNomination)
  end.

(** [NominationProtocol::processEnvelope] *)
Definition processNomination (envelope : SCPEnvelopeWrapper) : SM EnvelopeState :=
  let st := getStatement envelope in
  let nom := nominate_of st in
  let! n := getN id in
  if negb (isNewerNominationFor n (nodeID st) nom) then ret INVALID
  else if negb (isSaneNomination nom) then ret INVALID
  else
    recordNomination envelope ;;
    (if mNominationStarted n then
       (* attempts to promote some of the votes to accepted *)
       let! modified := promoteVotes nom false in
       (* attempts to promote accepted values to candidates *)
       let! newCandidates := promoteAccepted in
       let! n := getN id in
       (* only take round leader votes if we're still looking for candidates *)
       let! modified :=
         (if bool_decide (mCandidates n = []) && bool_decide (nodeID st ∈ mRoundLeaders n) then
            let! newVote := getNewValueFromNomination nom in
            match newVote with
            | Some v => addVote v ;; driver (nominatingValue v) ;; ret true
            | None => ret modified
            end
          else ret modified) in
       (if modified then emitNomination else ret tt) ;;
       (if newCandidates then
          let! i := gets mSlotIndex in
          let! candidates := getN mCandidates in
          let composite := combineCandidates i candidates in
          modN (set_mLatestCompositeCandidate (Some composite)) ;;
          driver (updatedCandidateValue composite) ;;
          let! latest := getN mLatestCompositeCandidate in
          let! latest := deref latest in
          bumpState slotProcessEnvelope latest false ;;
          ret tt
        else ret tt)
     else ret tt) ;;
    ret VALID.

(** attempts to nominate a value for consensus *)
Definition nominate (fuel : nat) (v previousValue : Value) (timedout : bool) : SM bool :=
  let! started := getN mNominationStarted in
  if timedout && negb started then ret false
  else
    modN (set_mNominationStarted true) ;;
    modN (set_mPreviousValue previousValue) ;;
    modN (λ n, set_mRoundNumber (s32 (mRoundNumber n + 1)) n) ;;
    updateRoundLeaders fuel ;;
    let! n := getN id in
    let timeout := computeTimeout (u32 (mRoundNumber n)) in
    (* if we're leader, add our value *)
    let! updated :=
      (if bool_decide (localNodeID ∈ mRoundLeaders n) && negb (bool_decide (v ∈ mVotes n))
       then addVote v ;; driver (nominatingValue v) ;; ret true
       else ret false) in
    (* add a few more values from other leaders *)
    let! updated :=
      foldM (λ updated leader,
        match map_find leader (mLatestNominations n) with
        | Some it =>
            let! lnmV := getNewValueFromNomination (nominate_of (getStatement it)) in
            match lnmV with
            | Some w => addVote w ;; driver (nominatingValue w) ;; ret true
            | None => ret updated
            end
        | None => ret updated
        end) (mRoundLeaders n) updated in
    driver (setupTimer NOMINATION_TIMER (Some timeout)) ;;
    (if updated then emitNomination else ret tt) ;;
    ret updated.
End Knot.

Definition stopNomination : SM unit := modN (set_mNominationStarted false).

(** [NominationProtocol::setStateFromEnvelope] *)
Definition setNominationFromEnvelope (e : SCPEnvelopeWrapper) : SM unit :=
  let! started := getN mNominationStarted in
  (if started then fail (Throw CannotSetStateNomination) else ret tt) ;;
  recordNomination e ;;
  let nom := nominate_of (getStatement e) in
  modN (λ n, set_mAccepted (set_inserts compareValues (n_accepted nom) (mAccepted n)) n) ;;
  modN (λ n, set_mVotes (set_inserts compareValues (n_votes nom) (mVotes n)) n) ;;
  modN (set_mLastNomination (Some e)).
End Nomination.
