(* ===== verification/SlotProcess.v ===== *)
(** * The slot and the SCP object (src/scp/Slot.cpp, src/scp/SCP.cpp)

    Ties the two protocols together: [slotProcessEnvelope] is the recursion
    through [Slot::processEnvelope], with the entry points of class [Slot] and the
    map of slots of class [SCP]. *)

From stdpp Require Import prelude list.
From Stdlib Require Import ZArith Lia.
From S2P Require Import Prelude QuorumSet ScpTypes LocalNode Ballots Slot BallotProtocol.
From S2P Require Import Nomination.
Local Open Scope Z_scope.

Section SlotProcess.
Context {D : SCPDriver} {L : LocalNode}.

(** [Slot::processEnvelope].  [fuel] bounds the nesting of the calls a handler
    makes back into the slot. *)
Fixpoint slotProcessEnvelope (fuel : nat) (envelope : SCPEnvelopeWrapper) (self : bool)
  : SM EnvelopeState :=
  match fuel with
  | O => fail OutOfFuel
  | S fuel =>
      slotDispatch (processNomination (slotProcessEnvelope fuel))
        (processEnvelope (slotProcessEnvelope fuel)) envelope self
  end.

(** A ballot statement nests at most [MAX_ADVANCE_SLOT_RECURSION] times.  A
    nomination nests once for each value that can become voted or accepted: a
    value of the state or of the message, or one extracted from it. *)
Definition ballotFuel : nat := Z.to_nat MAX_ADVANCE_SLOT_RECURSION.

Definition nominationFuel (values : list Value) : nat := (4 * length values + ballotFuel + 1)%nat.

Definition slotFuel (s : Slot) (envelope : SCPEnvelopeWrapper) : nat :=
  nominationFuel (mVotes (mNominationProtocol s) ++ applyAll (nominate_of (getStatement envelope))).

Definition Slot_processEnvelope (envelope : SCPEnvelopeWrapper) (self : bool) : SM EnvelopeState :=
  λ s, slotProcessEnvelope (slotFuel s envelope) envelope self s.

(** The constructor. *)
Definition newSlot (slotIndex : Z) : Slot :=
  {| mSlotIndex := slotIndex; mBallotProtocol := newBallotProtocol;
     mNominationProtocol := newNominationProtocol; mStatementsHistory := [];
     mFullyValidated := isValidator; mGotVBlocking := false; mDriverCalls := []; mWrapCount := 0 |}.

Definition Slot_abandonBallot : SM bool := abandonBallot (slotProcessEnvelope ballotFuel) 0.

Definition Slot_bumpState (v : Value) (force : bool) : SM bool :=
  bumpState (slotProcessEnvelope ballotFuel) v force.

(** The callback of the ballot timer. *)
Definition Slot_ballotTimer : SM unit :=
  ballotProtocolTimerExpired (slotProcessEnvelope ballotFuel).

(** [rounds] bounds the rounds [updateRoundLeaders] tries. *)
Definition nominateFuel (s : Slot) (v : Value) : nat :=
  nominationFuel (v :: mVotes (mNominationProtocol s) ++
    concat (map (λ e, applyAll (nominate_of (getStatement e.2)))
              (mLatestNominations (mNominationProtocol s)))).

Definition Slot_nominate (rounds : nat) (v previousValue : Value) (timedout : bool) : SM bool :=
  λ s, nominate (slotProcessEnvelope (nominateFuel s v)) rounds v previousValue timedout s.

Definition setFullyValidated (fullyValidated : bool) : SM unit :=
  modify (set_mFullyValidated fullyValidated).

Definition Slot_setStateFromEnvelope (env : SCPEnvelopeWrapper) : SM unit :=
  let st := getStatement env in
  let! i := gets mSlotIndex in
  if (nodeID st =? localNodeID) && (slotIndex st =? i) then
    let! prev := gets (λ s, optb (getLatestMessage (nodeID st) s)) in
    (if bool_decide (pledges_type (pledges st) = SCP_ST_NOMINATE)
     then setNominationFromEnvelope env else setStateFromEnvelope env) ;;
    if negb prev then maybeSetGotVBlocking else ret tt
  else ret tt.

(** [Slot::getStatementValues] *)
Definition Slot_getStatementValues (st : SCPStatement) : list Value :=
  match pledges st with
  | ST_NOMINATE _ => getNominationValues st
  | _ => getStatementValues st
  end.
End SlotProcess.

(** ** Class [SCP] *)

Record SCP : Type := { mKnownSlots : list (Z * Slot) }.

Section SCPClass.
Context {D : SCPDriver} {L : LocalNode}.

(** [getSlot(slotIndex, create)]: the slot, created and stored if asked. *)
Definition getSlot (slotIndex : Z) (create : bool) (scp : SCP) : option Slot * SCP :=
  match map_find slotIndex (mKnownSlots scp) with
  | Some s => (Some s, scp)
  | None =>
      if create then
        let res := newSlot slotIndex in
        (Some res, {| mKnownSlots := map_insert slotIndex res (mKnownSlots scp) |})
      else (None, scp)
  end.

(** A method of the slot runs on the shared object, so its effect is seen in the
    map. *)
Definition onSlot {A} (slotIndex : Z) (m : SM A) : M SCP Failure A := λ scp,
  match getSlot slotIndex true scp with
  | (Some s, scp) =>
      match m s with
      | Ok (a, s') => Ok (a, {| mKnownSlots := map_insert slotIndex s' (mKnownSlots scp) |})
      | Fail f => Fail f
      end
  | (None, _) => Fail NullDeref
  end.

Definition receiveEnvelope (envelope : SCPEnvelopeWrapper) : M SCP Failure EnvelopeState :=
  onSlot (slotIndex (getStatement envelope)) (Slot_processEnvelope envelope false).

Definition SCP_nominate (rounds : nat) (slotIndex : Z) (v previousValue : Value)
  : M SCP Failure bool :=
  check isValidator (DbgAssert Assert_nominate_isValidator) ;;
  onSlot slotIndex (Slot_nominate rounds v previousValue false).

Definition SCP_stopNomination (slotIndex : Z) : M SCP Failure unit := λ scp,
  match getSlot slotIndex false scp with
  | (Some _, scp) => onSlot slotIndex stopNomination scp
  | (None, scp) => Ok (tt, scp)
  end.

Definition SCP_setStateFromEnvelope (slotIndex : Z) (e : SCPEnvelopeWrapper) : M SCP Failure unit :=
  onSlot slotIndex (Slot_setStateFromEnvelope e).

(** The loop erases from the lowest index on. *)
Fixpoint purge (maxSlotIndex : Z) (slots : list (Z * Slot)) : list (Z * Slot) :=
  match slots with
  | (i, s) :: rest => if i <? maxSlotIndex then purge maxSlotIndex rest else slots
  | [] => []
  end.

Definition purgeSlots (maxSlotIndex : Z) (scp : SCP) : SCP :=
  {| mKnownSlots := purge maxSlotIndex (mKnownSlots scp) |}.

Definition isSlotFullyValidated (slotIndex : Z) (scp : SCP) : bool :=
  match (getSlot slotIndex false scp).1 with Some s => mFullyValidated s | None => false end.

Definition gotVBlocking (slotIndex : Z) (scp : SCP) : bool :=
  match (getSlot slotIndex false scp).1 with Some s => mGotVBlocking s | None => false end.

Definition getKnownSlotsCount (scp : SCP) : Z := Z.of_nat (length (mKnownSlots scp)).

Definition getCumulativeStatemtCount (scp : SCP) : Z :=
  foldl (λ c s, u64 (c + Z.of_nat (length (mStatementsHistory s.2)))) 0 (mKnownSlots scp).

Definition SCP_getLatestMessagesSend (slotIndex : Z) (scp : SCP) : list SCPEnvelope :=
  match (getSlot slotIndex false scp).1 with Some s => getLatestMessagesSend s | None => [] end.

Definition SCP_empty (scp : SCP) : bool := bool_decide (length (mKnownSlots scp) = 0%nat).

Definition SCP_processCurrentState {X} (slotIndex : Z) (f : SCPEnvelope → X → X * bool)
  (forceSelf : bool) (x : X) (scp : SCP) : X :=
  match (getSlot slotIndex false scp).1 with
  | Some s => processCurrentState s forceSelf f x
  | None => x
  end.

(** [lower_bound] and [upper_bound] on the ordered map. *)
Definition processSlotsAscendingFrom {X} (startingSlot : Z) (f : Z → X → X * bool) (x : X)
  (scp : SCP) : X :=
  (forAll_loop (λ (it : Z * Slot) x, f it.1 x)
     (List.filter (λ it, startingSlot <=? it.1) (mKnownSlots scp)) x).1.

Definition processSlotsDescendingFrom {X} (startingSlot : Z) (f : Z → X → X * bool) (x : X)
  (scp : SCP) : X :=
  (forAll_loop (λ (it : Z * Slot) x, f it.1 x)
     (rev (List.filter (λ it, it.1 <=? startingSlot) (mKnownSlots scp))) x).1.

(** The latest message of a node, from the highest slot down. *)
Fixpoint latestMessage (id : NodeID) (slots : list (Z * Slot)) : option SCPEnvelope :=
  match slots with
  | [] => None
  | (_, s) :: rest =>
      match getLatestMessage id s with
      | Some m => Some m
      | None => latestMessage id rest
      end
  end.

Definition SCP_getLatestMessage (id : NodeID) (scp : SCP) : option SCPEnvelope :=
  latestMessage id (rev (mKnownSlots scp)).

Definition SCP_getExternalizingState (slotIndex : Z) (scp : SCP) : outcome Failure (list SCPEnvelope) :=
  match (getSlot slotIndex false scp).1 with
  | Some s => getExternalizingState s
  | None => Ok []
  end.
End SCPClass.
