(* ===== verification/NominationSpec.v ===== *)
(** * Correctness of the nomination protocol

    Nomination statements are ordered by inclusion; votes, accepted values and
    candidates only grow, each by a federated vote; the node never refuses its own
    statement; and processing a nomination terminates. *)

From stdpp Require Import prelude list relations sorting.
From Stdlib Require Import ZArith Lia.
From S2P Require Import Prelude Numeric QuorumSet ScpTypes LocalNode Ballots Slot.
From S2P Require Import BallotProtocol BallotVotes BallotSpec BallotRefine Nomination.
Local Open Scope Z_scope.

Notation vsorted := (strictly_sorted compareValues).

(** ** Sets of values *)

Lemma ltValue_true x y : ltValue x y = true ↔ compareValues x y < 0.
Proof. apply Z.ltb_lt. Qed.

Lemma ltValue_false x y : ltValue x y = false ↔ compareValues y x ≤ 0.
Proof.
  unfold ltValue. rewrite Z.ltb_ge, (cmp_le_flip compareValues y x). done.
Qed.

Lemma adjacentIncreasing_iff l : adjacentIncreasing l = true ↔ vsorted l.
Proof.
  unfold strictly_sorted. split.
  - intros H. apply Sorted_StronglySorted.
    { intros x y z. apply (cmp_lt_trans compareValues). }
    induction l as [|x [|y l] IH]; [constructor|repeat constructor|].
    simpl in H. apply andb_true_iff in H as [H1%ltValue_true H2].
    constructor; [by apply IH|by constructor].
  - intros H. apply StronglySorted_Sorted in H.
    induction l as [|x [|y l] IH]; [done..|]. inversion H as [|? ? Hs Hr]; subst. simpl.
    apply andb_true_iff. split; [|by apply IH]. inversion Hr; subst. by apply ltValue_true.
Qed.

(** On sorted sequences [std::includes] decides inclusion. *)
Lemma includes_spec v p : vsorted v → vsorted p → includes v p = true ↔ p ⊆ v.
Proof.
  unfold strictly_sorted. intros Hv. revert p.
  induction Hv as [|x v Hv IH Hx]; intros p Hp; (destruct Hp as [|y p Hp Hy]; [split; set_solver|]); simpl.
  - split; [done|]. intros H. specialize (H y). set_solver.
  - rewrite Forall_forall in Hx, Hy. destruct (ltValue y x) eqn:Eyx.
    { apply ltValue_true in Eyx. split; [done|]. intros H.
      assert (y ∈ x :: v) as [->|Hin]%elem_of_cons by (apply H; left).
      - rewrite (cmp_refl compareValues) in Eyx. lia.
      - specialize (Hx y Hin). pose proof (cmp_lt_trans compareValues _ _ _ Eyx Hx) as H'.
        rewrite (cmp_refl compareValues) in H'. lia. }
    apply ltValue_false in Eyx. destruct (ltValue x y) eqn:Exy; simpl.
    + apply ltValue_true in Exy. rewrite IH; [|by constructor; [|apply Forall_forall]].
      split; [set_solver|]. intros H z Hz. assert (z ∈ x :: v) as [->|?]%elem_of_cons by auto; [|done].
      apply elem_of_cons in Hz as [->|Hz]; [rewrite (cmp_refl compareValues) in Exy; lia|].
      specialize (Hy x Hz). pose proof (cmp_lt_trans compareValues _ _ _ Exy Hy) as H'.
      rewrite (cmp_refl compareValues) in H'. lia.
    + apply ltValue_false in Exy. assert (x = y) as <- by by apply (cmp_le_antisym compareValues).
      rewrite IH by done. split; [set_solver|]. intros H z Hz.
      assert (z ∈ x :: v) as [->|?]%elem_of_cons by (apply H; by right); [|done].
      specialize (Hy x Hz). rewrite (cmp_refl compareValues) in Hy. lia.
Qed.

Lemma vsorted_NoDup l : vsorted l → NoDup l.
Proof.
  induction 1 as [|x l Hl IH Hx]; constructor; [|done]. intros Hin.
  rewrite Forall_forall in Hx. specialize (Hx x Hin). rewrite (cmp_refl compareValues) in Hx. lia.
Qed.

Lemma vsorted_eq l1 l2 : vsorted l1 → vsorted l2 → l1 ⊆ l2 → l2 ⊆ l1 → l1 = l2.
Proof.
  intros H1 H2 Ha Hb. apply (sorted_perm_unique compareValues).
  - by apply strictly_weakly_sorted.
  - by apply strictly_weakly_sorted.
  - apply NoDup_Permutation; try by apply vsorted_NoDup. set_solver.
Qed.

(** ** The order of nominations *)

Definition nomination_le (n1 n2 : SCPNomination) : Prop :=
  n_votes n1 ⊆ n_votes n2 ∧ n_accepted n1 ⊆ n_accepted n2.

Definition nomination_sorted (n : SCPNomination) : Prop :=
  vsorted (n_votes n) ∧ vsorted (n_accepted n).

Lemma isSaneNomination_sorted n : isSaneNomination n = true → nomination_sorted n.
Proof.
  unfold isSaneNomination. rewrite !andb_true_iff, !adjacentIncreasing_iff. by intros [[_ ?] ?].
Qed.

Lemma isSubsetHelper_spec p v :
  vsorted p → vsorted v →
  isSubsetHelper p v = (bool_decide (p ⊆ v), bool_decide (p ≠ v)).
Proof.
  intros Hp Hv. unfold isSubsetHelper. pose proof (includes_spec v p Hv Hp) as Hi.
  case_bool_decide as Hl.
  - destruct (includes v p) eqn:E.
    + assert (p ⊆ v) as Hs by by apply Hi. rewrite (bool_decide_eq_true_2 (p ⊆ v)) by done. f_equal.
      apply bool_decide_ext. split; intros Hn E'; apply Hn; [by subst|].
      apply vsorted_eq; try done. 
      assert (p ⊆+ v) as Hsub by (apply NoDup_submseteq; [by apply vsorted_NoDup|set_solver]).
      apply submseteq_length_Permutation in Hsub; [|lia]. intros x Hx. by rewrite Hsub.
    + assert (¬ p ⊆ v) as Hs by (intros Hs; apply Hi in Hs; congruence).
      rewrite (bool_decide_eq_false_2 (p ⊆ v)) by done. f_equal. symmetry.
      apply bool_decide_eq_true. intros ->. by apply Hs.
  - assert (¬ p ⊆ v) as Hs.
    { intros Hs. apply Hl. apply submseteq_length, NoDup_submseteq; [by apply vsorted_NoDup|set_solver]. }
    rewrite bool_decide_eq_false_2 by done. f_equal. symmetry. apply bool_decide_eq_true.
    intros ->. by apply Hs.
Qed.

(** A nomination is newer when both sets include the old ones and one grew. *)
Lemma isNewerNomination_spec n1 n2 :
  nomination_sorted n1 → nomination_sorted n2 →
  isNewerNomination n1 n2 = true ↔
  nomination_le n1 n2 ∧ (n_votes n1 ≠ n_votes n2 ∨ n_accepted n1 ≠ n_accepted n2).
Proof.
  intros [Hv1 Ha1] [Hv2 Ha2]. unfold isNewerNomination, nomination_le.
  rewrite !isSubsetHelper_spec by done.
  repeat case_bool_decide; simpl; split; try done; tauto.
Qed.

(** ** Abstract nomination *)

Record NCore : Type := mkNCore {
  nVotes : list Value;
  nAccepted : list Value;
  nCandidates : list Value;
  nNoms : EnvMap
}.

Definition ncore (n : NominationProtocol) : NCore :=
  mkNCore (mVotes n) (mAccepted n) (mCandidates n) (mLatestNominations n).

Definition is_nomination (st : SCPStatement) : Prop :=
  pledges_type (pledges st) = SCP_ST_NOMINATE.

Section Steps.
Context {D : SCPDriver} {L : LocalNode}.

Definition voteStep (v : Value) (k : NCore) : NCore :=
  mkNCore (set_insert compareValues v (nVotes k)) (nAccepted k) (nCandidates k) (nNoms k).
Definition acceptStep (v : Value) (k : NCore) : NCore :=
  mkNCore (set_insert compareValues v (nVotes k)) (set_insert compareValues v (nAccepted k))
    (nCandidates k) (nNoms k).
Definition candidateStep (v : Value) (k : NCore) : NCore :=
  mkNCore (nVotes k) (nAccepted k) (set_insert compareValues v (nCandidates k)) (nNoms k).
Definition recordStep (w : SCPEnvelopeWrapper) (k : NCore) : NCore :=
  mkNCore (nVotes k) (nAccepted k) (nCandidates k)
    (map_insert (nodeID (getStatement w)) w (nNoms k)).

(** A value the node may vote for: its own proposal, a valid value, or one
    extracted from an invalid value. *)
Inductive nstep (i : Z) (k : NCore) : NCore → Prop :=
| nstep_vote v :
    validateValue i v true = kFullyValidatedValue ∨ (∃ u, extractValidValue i u = Some v) →
    nstep i k (voteStep v k)
| nstep_accept v :
    validateValue i v true = kFullyValidatedValue →
    federatedAccept (votesForValue v) (acceptPredicate v) (nNoms k) = true →
    nstep i k (acceptStep v k)
| nstep_candidate v :
    v ∈ nAccepted k → federatedRatify (acceptPredicate v) (nNoms k) = true →
    nstep i k (candidateStep v k)
| nstep_own w :
    nodeID (getStatement w) = localNodeID → is_nomination (getStatement w) →
    n_votes (nominate_of (getStatement w)) = nVotes k →
    n_accepted (nominate_of (getStatement w)) = nAccepted k →
    nstep i k (recordStep w k).

Definition nsteps (i : Z) : NCore → NCore → Prop := rtc (nstep i).

Record NInv (k : NCore) : Prop := {
  ni_votes : vsorted (nVotes k);
  ni_accepted : vsorted (nAccepted k);
  ni_candidates : vsorted (nCandidates k);
  ni_acc_votes : nAccepted k ⊆ nVotes k;
  ni_cand_acc : nCandidates k ⊆ nAccepted k;
  ni_sorted : map_sorted (nNoms k);
  ni_noms : ∀ n w, (n, w) ∈ nNoms k →
    nodeID (getStatement w) = n ∧ is_nomination (getStatement w) ∧
    nomination_sorted (nominate_of (getStatement w));
  (* the node's own statement never says more than its state *)
  ni_own : ∀ w, (localNodeID, w) ∈ nNoms k →
    n_votes (nominate_of (getStatement w)) ⊆ nVotes k ∧
    n_accepted (nominate_of (getStatement w)) ⊆ nAccepted k
}.

Record NMono (k k' : NCore) : Prop := {
  nm_votes : nVotes k ⊆ nVotes k';
  nm_accepted : nAccepted k ⊆ nAccepted k';
  nm_candidates : nCandidates k ⊆ nCandidates k';
  nm_others : others (nNoms k') = others (nNoms k)
}.

Lemma elem_of_vinsert v w (s : list Value) : w ∈ set_insert compareValues v s ↔ w = v ∨ w ∈ s.
Proof. apply (elem_of_set_insert compareValues). Qed.

Lemma vinsert_subseteq v (s t : list Value) : s ⊆ t → s ⊆ set_insert compareValues v t.
Proof. intros H x Hx. apply elem_of_vinsert. auto. Qed.

Lemma vinsert_sub_mono v (s t : list Value) :
  s ⊆ t → set_insert compareValues v s ⊆ set_insert compareValues v t.
Proof. intros H x [->|?]%elem_of_vinsert; apply elem_of_vinsert; auto. Qed.

Lemma nstep_mono i k k' : nstep i k k' → NMono k k'.
Proof.
  destruct 1 as [| | |w Hw]; split; simpl; try done; try by apply vinsert_subseteq.
  rewrite Hw. apply others_insert.
Qed.

Lemma nsteps_mono i k k' : nsteps i k k' → NMono k k'.
Proof.
  induction 1 as [|k1 k2 k3 [A1 A2 A3 A4]%nstep_mono _ [B1 B2 B3 B4]]; [done|].
  split; by etrans.
Qed.

(** Recording a statement of another node, or an own statement within the
    state. *)
Lemma recordStep_inv w k :
  NInv k → is_nomination (getStatement w) → nomination_sorted (nominate_of (getStatement w)) →
  (nodeID (getStatement w) = localNodeID →
     n_votes (nominate_of (getStatement w)) ⊆ nVotes k ∧
     n_accepted (nominate_of (getStatement w)) ⊆ nAccepted k) →
  NInv (recordStep w k).
Proof.
  intros [] Hn Hs Ho. split; simpl; try done; [by apply map_insert_sorted| |].
  - intros n w' [[= -> ->]|?]%elem_of_map_insert; [done|auto].
  - intros w' [[= E ->]|?]%elem_of_map_insert; auto.
Qed.

Lemma voteStep_inv v k : NInv k → NInv (voteStep v k).
Proof.
  intros [? ? ? ? ? ? ? Hown]. split; simpl; try done.
  - by apply (set_insert_sorted compareValues).
  - by apply vinsert_subseteq.
  - intros w Hw. destruct (Hown w Hw). split; [by apply vinsert_subseteq|done].
Qed.

Lemma nstep_inv i k k' : nstep i k k' → NInv k → NInv k'.
Proof.
  destruct 1 as [v Hv|v Hv Ha|v Hin Hr|w Hid Hn Ev Ea]; intros HI.
  - by apply voteStep_inv.
  - destruct HI. split; simpl; try done.
    + by apply (set_insert_sorted compareValues).
    + by apply (set_insert_sorted compareValues).
    + by apply vinsert_sub_mono.
    + by apply vinsert_subseteq.
    + intros w Hw. destruct (ni_own0 w Hw). split; by apply vinsert_subseteq.
  - destruct HI. split; simpl; try done.
    + by apply (set_insert_sorted compareValues).
    + intros x [->|?]%elem_of_vinsert; auto.
  - apply recordStep_inv; try done.
    + destruct HI. split; by rewrite ?Ev, ?Ea.
    + by rewrite Ev, Ea.
Qed.

Lemma nsteps_inv i k k' : nsteps i k k' → NInv k → NInv k'.
Proof. induction 1; eauto using nstep_inv. Qed.

(** A value is accepted by a federated vote, and only if the node agrees to it. *)
Lemma nsteps_accepted i k k' v :
  nsteps i k k' → v ∈ nAccepted k' → v ∉ nAccepted k →
  ∃ k1, others (nNoms k1) = others (nNoms k') ∧
    validateValue i v true = kFullyValidatedValue ∧
    federatedAccept (votesForValue v) (acceptPredicate v) (nNoms k1) = true.
Proof.
  induction 1 as [k|k1 k2 k3 H1 H2 IH]; intros Hin Hn; [done|].
  destruct (decide (v ∈ nAccepted k2)) as [H|H]; [|by apply IH].
  pose proof (nm_others _ _ (nsteps_mono _ _ _ H2)) as Eo.
  destruct H1 as [u Hu|u Hu Ha|u Hu Ha|w Hw]; simpl in *; try done.
  apply elem_of_vinsert in H as [->|H]; [|done]. by exists k1.
Qed.

(** A value becomes a candidate by a federated vote on its acceptance. *)
Lemma nsteps_candidate i k k' v :
  nsteps i k k' → v ∈ nCandidates k' → v ∉ nCandidates k →
  ∃ k1, others (nNoms k1) = others (nNoms k') ∧
    federatedRatify (acceptPredicate v) (nNoms k1) = true.
Proof.
  induction 1 as [k|k1 k2 k3 H1 H2 IH]; intros Hin Hn; [done|].
  destruct (decide (v ∈ nCandidates k2)) as [H|H]; [|by apply IH].
  pose proof (nm_others _ _ (nsteps_mono _ _ _ H2)) as Eo.
  destruct H1 as [u Hu|u Hu Ha|u Hu Ha|w Hw]; simpl in *; try done.
  apply elem_of_vinsert in H as [->|H]; [|done]. by exists k1.
Qed.
End Steps.

(** ** Handlers *)

Section Handlers.
Context {D : SCPDriver} {L : LocalNode}.

Definition nk (s : Slot) : NCore := ncore (mNominationProtocol s).

(** Loops. *)
Lemma wp_foldM {A X} (f : X → A → SM X) l x s (I : X → Slot → Prop) E :
  (∀ x a s, a ∈ l → I x s → wp (f x a) s I E) → I x s → wp (foldM f l x) s I E.
Proof.
  revert x s. induction l as [|a l IH]; intros x s Hf HI; simpl; [by wps|].
  apply wp_bind. eapply wp_mono; [apply Hf; [left|done]| |done].
  intros x' s' HI'. apply IH; [|done]. intros. apply Hf; [by right|done].
Qed.

(** What an operation of the nomination protocol leaves alone. *)
Record NFrame (s s' : Slot) : Prop := {
  nf_ballot : mBallotProtocol s' = mBallotProtocol s;
  nf_index : mSlotIndex s' = mSlotIndex s;
  nf_ext : ext_calls s' = ext_calls s;
  nf_started : started s' = started s;
  nf_prev : mPreviousValue (mNominationProtocol s') = mPreviousValue (mNominationProtocol s);
  nf_leaders : mRoundLeaders (mNominationProtocol s') = mRoundLeaders (mNominationProtocol s);
  nf_outbox : outbox s' ⊆ outbox s
}.

Lemma NFrame_trans s1 s2 s3 : NFrame s1 s2 → NFrame s2 s3 → NFrame s1 s3.
Proof. intros [] []. split; [congruence..|by etrans]. Qed.

(** A closed set of values: votes extracted from its invalid members stay in
    it. *)
Definition closedValues (i : Z) (W : list Value) : Prop :=
  ∀ v v', v ∈ W → validateValue i v true ≠ kFullyValidatedValue →
    extractValidValue i v = Some v' → v' ∈ W.

Definition grew (k k' : NCore) : Prop :=
  ∃ v, (v ∈ nVotes k' ∧ v ∉ nVotes k) ∨ (v ∈ nAccepted k' ∧ v ∉ nAccepted k).

Lemma grew_mono_l k1 k2 k3 : NMono k1 k2 → grew k2 k3 → grew k1 k3.
Proof. intros [] (v & Hv). exists v. set_solver. Qed.

Lemma grew_mono_r k1 k2 k3 : NMono k2 k3 → grew k1 k2 → grew k1 k3.
Proof. intros [] (v & Hv). exists v. set_solver. Qed.

(** Progress of a phase of [processEnvelope]. *)
Record NProg (W : list Value) (m0 : bool) (s : Slot) (r : bool) (s' : Slot) : Prop := {
  np_frame : NFrame s s';
  np_steps : nsteps (mSlotIndex s) (nk s) (nk s');
  np_noms : nNoms (nk s') = nNoms (nk s);
  np_in : nVotes (nk s') ⊆ W;
  np_grew : r = true → m0 = true ∨ grew (nk s) (nk s')
}.

Lemma NProg_refl W m s : nVotes (nk s) ⊆ W → NProg W m s m s.
Proof. intros H. split; try done. by left. Qed.

(** One more step inside a loop. *)
Lemma NProg_step W m0 s r s1 s2 :
  NProg W m0 s r s1 → NFrame s1 s2 → nstep (mSlotIndex s) (nk s1) (nk s2) →
  nNoms (nk s2) = nNoms (nk s1) → nVotes (nk s2) ⊆ W → grew (nk s1) (nk s2) →
  NProg W m0 s true s2.
Proof.
  intros [A1 A2 A3 A4 A5] B1 B2 B3 B4 B5. split; try done.
  - by eapply NFrame_trans.
  - by eapply rtc_r.
  - congruence.
  - intros _. right. eapply grew_mono_l; [by eapply nsteps_mono|done].
Qed.

Lemma promoteVotes_wp W nom m0 s :
  nVotes (nk s) ⊆ W → n_votes nom ⊆ W → closedValues (mSlotIndex s) W →
  wp (promoteVotes nom m0) s (NProg W m0 s) okFail.
Proof.
  intros Hin Hnom Hcl. unfold promoteVotes. wps.
  apply wp_foldM; [|by apply NProg_refl]. intros r v s1 Hv HP. wps. 
  case_bool_decide as Hacc; [by wps|].
  destruct (federatedAccept _ _ _) eqn:Efa; [|by wps].
  assert (v ∈ W) as HvW by auto. pose proof (np_in _ _ _ _ _ HP) as Hin1.
  assert (∀ vl, vl ≠ kFullyValidatedValue → validateValue (mSlotIndex s) v true = vl →
    wp (match extractValidValue (mSlotIndex s) v with
        | Some toVote =>
            if bool_decide (toVote ∈ mVotes (mNominationProtocol s1)) then ret r
            else addVote toVote ;; ret true
        | None => ret r
        end) s1 (NProg W m0 s) okFail) as Hextract.
  { intros vl Hne Hvl. destruct (extractValidValue _ v) as [t|] eqn:Et; [|by wps].
    case_bool_decide as Ht; [by wps|]. unfold addVote. wps.
    eapply NProg_step; [exact HP|done| | | |].
    - refine (nstep_vote _ (nk s1) t _). right. eauto.
    - done.
    - intros x [->|?]%elem_of_vinsert; [|auto]. eapply Hcl; [exact HvW|congruence|done].
    - exists t. left. split; [|done]. by apply elem_of_vinsert; left. }
  destruct (validateValue _ v true) eqn:Ev;
    [by apply (Hextract kInvalidValue)|by apply (Hextract kMaybeValidValue)|]. unfold addVote. wps.
  eapply NProg_step; [exact HP|done| | | |].
  - by refine (nstep_accept _ (nk s1) v _ _).
  - done.
  - intros x [->|?]%elem_of_vinsert; auto.
  - exists v. right. split; [|done]. by apply elem_of_vinsert; left.
Qed.

Lemma promoteAccepted_wp s :
  wp promoteAccepted s
    (λ _ s', NFrame s s' ∧ nsteps (mSlotIndex s) (nk s) (nk s') ∧
       nNoms (nk s') = nNoms (nk s) ∧ nVotes (nk s') = nVotes (nk s) ∧
       nAccepted (nk s') = nAccepted (nk s)) okFail.
Proof.
  unfold promoteAccepted. wps. apply wp_foldM; [|by split_and!].
  intros r a s1 Ha (A1 & A2 & A3 & A4 & A5). wps.
  case_bool_decide; [by wps|]. destruct (federatedRatify _ _) eqn:Er; [|by wps]. wps.
  split_and!; try done.
  - by destruct A1.
  - eapply rtc_r; [exact A2|]. refine (nstep_candidate _ (nk s1) a _ _); [by rewrite A5|done].
Qed.

(** The value picked from a leader's nomination is new and votable. *)
Definition pickOk (i : Z) (votes W : list Value) (o : option Value) : Prop :=
  ∀ w, o = Some w → w ∉ votes ∧ w ∈ W ∧
    (validateValue i w true = kFullyValidatedValue ∨ ∃ u, extractValidValue i u = Some w).

Lemma getNewValue_wp W nom s :
  mPreviousValue (mNominationProtocol s) ≠ [] → applyAll nom ⊆ W → closedValues (mSlotIndex s) W →
  wp (getNewValueFromNomination nom) s
    (λ o s', s' = s ∧ pickOk (mSlotIndex s) (nVotes (nk s)) W o) okFail.
Proof.
  intros Hprev Hall Hcl. unfold getNewValueFromNomination. wps. apply wp_bind.
  eapply (wp_mono _ _ (λ acc s', s' = s ∧ pickOk (mSlotIndex s) (nVotes (nk s)) W acc.1));
    [|by intros [o h] s' [-> ?]; wps|done].
  apply wp_foldM; [|by split].
  intros [o h] v s1 Hv [-> Ho]. simpl in Ho.
  set (t := match validateValue _ v true with kFullyValidatedValue => _ | _ => _ end).
  assert (∀ w, t = Some w → w ∈ W ∧ (validateValue (mSlotIndex s) w true = kFullyValidatedValue ∨
    ∃ u, extractValidValue (mSlotIndex s) u = Some w)) as Ht.
  { intros w Hw. unfold t in Hw. specialize (Hall v Hv).
    destruct (validateValue _ v true) eqn:Ev; [..|injection Hw as <-; by auto];
      (split; [eapply Hcl; [exact Hall|congruence|done]|eauto]). }
  destruct t as [w|]; [|by wps]. case_bool_decide as Hin; simpl; [by wps|].
  unfold hashValue. wps. rewrite bool_decide_eq_false_2 by done. simpl. apply wp_bind. wps.
  case_match; wps; (split; [done|]); [|done]. intros w' [= <-]. destruct (Ht w eq_refl). done.
Qed.

(** The state between two events of the slot. *)
Record SGood (s : Slot) : Prop := {
  sg_ballot : Good s;
  sg_nom : NInv (nk s);
  sg_level : level s = 0;
  sg_prev : started s = true → mPreviousValue (mNominationProtocol s) ≠ [];
  sg_leaders : strictly_sorted Zcmp (mRoundLeaders (mNominationProtocol s))
}.

(** Steps of both protocols. *)
Record NRun (s s' : Slot) : Prop := {
  nr_steps : isteps (ck s) (ck s');
  nr_level : level s' = level s;
  nr_index : mSlotIndex s' = mSlotIndex s;
  nr_ext : ext_calls s' =
    ext_calls s ++ (if decide (kPhase (ck s) = SCP_PHASE_EXTERNALIZE) then []
                    else externalized (ck s'));
  nr_nom : nsteps (mSlotIndex s) (nk s) (nk s');
  nr_prev : mPreviousValue (mNominationProtocol s') = mPreviousValue (mNominationProtocol s);
  nr_started : started s' = true → started s = true;
  nr_leaders : mRoundLeaders (mNominationProtocol s') = mRoundLeaders (mNominationProtocol s);
  nr_outbox : ∀ st, st ∈ outbox s' → st ∈ outbox s ∨ said (ck s') st
}.

(** A slot whose nomination protocol is replaced. *)
Definition withNom (s s' : Slot) : Slot := set_mNominationProtocol (mNominationProtocol s) s'.

Lemma NRun_trans s1 s2 s3 : SGood s1 → NRun s1 s2 → NRun s2 s3 → NRun s1 s3.
Proof.
  intros HG [A1 A2 A3 A4 A5 A6 A7 A8 A9] [B1 B2 B3 B4 B5 B6 B7 B8 B9].
  assert (Run s1 (withNom s1 s2)) as R1 by done.
  assert (Run (withNom s1 s2) (withNom s1 s3)) as R2 by done.
  destruct (Run_trans _ _ _ (proj1 (sg_ballot _ HG)) R1 R2) as [C1 C2 C3 _ C5 _ C7].
  split; try done; [etrans; [exact A5|by rewrite <- A3]|congruence|auto|congruence].
Qed.

Lemma Run_NRun s s' : Run s s' → NRun s s'.
Proof.
  intros [A1 A2 A3 A4 A5 A6 A7].
  assert (nk s' = nk s) as Ek by (change (ncore (nom s') = ncore (nom s)); by rewrite A4).
  split; try done; [by rewrite Ek| |].
  - change (mPreviousValue (nom s') = mPreviousValue (nom s)). by rewrite A4.
  - change (mRoundLeaders (nom s') = mRoundLeaders (nom s)). by rewrite A4.
Qed.

Lemma NRun_good s s' : SGood s → NRun s s' → SGood s'.
Proof.
  intros [[Hi Ht] Hn Hl Hp Hs] [A1 A2 A3 A4 A5 A6 A7 A8 A9]. split.
  - split; [by eapply isteps_inv|by eapply isteps_typed].
  - by eapply nsteps_inv.
  - congruence.
  - intros Hst. rewrite A6. auto.
  - by rewrite A8.
Qed.

(** Steps of the nomination protocol alone. *)
Lemma NFrame_run s s' :
  NFrame s s' → nsteps (mSlotIndex s) (nk s) (nk s') → NRun s s'.
Proof.
  intros [A1 A2 A3 A4 A5 A6 A7] Hn. assert (ck s' = ck s) as E by (unfold ck; by rewrite A1).
  split; try done; [..|intros st Hst; left; auto].
  - by rewrite E.
  - unfold level. by rewrite A1.
  - rewrite A3, E. case_decide; [by rewrite app_nil_r|].
    rewrite externalized_nil by done. by rewrite app_nil_r.
  - by rewrite A4.
Qed.

(** ** Progress measure: values of [W] not yet voted for or accepted *)

Definition missing (W l : list Value) : nat := length (List.filter (λ v, negb (bool_decide (v ∈ l))) W).
Definition measure (W : list Value) (k : NCore) : nat :=
  missing W (nVotes k) + missing W (nAccepted k).

Lemma missing_mono W l l' : l ⊆ l' → (missing W l' ≤ missing W l)%nat.
Proof.
  intros H. unfold missing. induction W as [|x W IH]; simpl; [done|].
  destruct (decide (x ∈ l)) as [Hl|Hl].
  - rewrite !(bool_decide_eq_true_2 (x ∈ _)) by auto. done.
  - rewrite (bool_decide_eq_false_2 (x ∈ l)) by done. case_bool_decide; simpl; lia.
Qed.

Lemma missing_lt W l l' v : l ⊆ l' → v ∈ W → v ∈ l' → v ∉ l → (missing W l' < missing W l)%nat.
Proof.
  intros H HW Hl' Hl. unfold missing. induction W as [|x W IH]; [by apply elem_of_nil in HW|]. simpl.
  pose proof (missing_mono W l l' H) as Hm. unfold missing in Hm.
  destruct (decide (x = v)) as [->|Hne].
  - rewrite (bool_decide_eq_true_2 (v ∈ l')), (bool_decide_eq_false_2 (v ∈ l)) by done. simpl. lia.
  - assert (v ∈ W) as HW' by set_solver. specialize (IH HW').
    destruct (decide (x ∈ l)) as [Hx|Hx].
    + rewrite !(bool_decide_eq_true_2 (x ∈ _)) by auto. done.
    + rewrite (bool_decide_eq_false_2 (x ∈ l)) by done. case_bool_decide; simpl; lia.
Qed.

Lemma measure_mono W k k' : NMono k k' → (measure W k' ≤ measure W k)%nat.
Proof.
  intros []. unfold measure. pose proof (missing_mono W (nVotes k) (nVotes k') ltac:(done)).
  pose proof (missing_mono W (nAccepted k) (nAccepted k') ltac:(done)). lia.
Qed.

Lemma measure_grew W k k' :
  NMono k k' → grew k k' → NInv k' → nVotes k' ⊆ W → (measure W k' < measure W k)%nat.
Proof.
  intros [Hv Ha _ _] (v & Hg) Hi HW. unfold measure.
  pose proof (missing_mono W _ _ Hv). pose proof (missing_mono W _ _ Ha).
  destruct Hg as [[H1 H2]|[H1 H2]].
  - pose proof (missing_lt W (nVotes k) (nVotes k') v Hv (HW v H1) H1 H2). lia.
  - assert (v ∈ W) as HvW by by apply HW, (ni_acc_votes _ Hi).
    pose proof (missing_lt W (nAccepted k) (nAccepted k') v Ha HvW H1 H2). lia.
Qed.

(** ** The node's own nominations are never refused *)

Definition ownNomination (s : Slot) (st : SCPStatement) : Prop :=
  nodeID st = localNodeID ∧ slotIndex st = mSlotIndex s ∧ is_nomination st ∧
  n_votes (nominate_of st) = nVotes (nk s) ∧ n_accepted (nominate_of st) = nAccepted (nk s) ∧
  nVotes (nk s) ≠ [] ∧
  isNewerNominationFor (mNominationProtocol s) localNodeID (nominate_of st) = true.

Lemma newer_of_grew n k0 nom :
  NInv k0 → NInv (ncore n) → NMono k0 (ncore n) → grew k0 (ncore n) →
  mLatestNominations n = nNoms k0 → n_votes nom = mVotes n → n_accepted nom = mAccepted n →
  isNewerNominationFor n localNodeID nom = true.
Proof.
  intros H0 H1 [Mv Ma _ _] (v & Hg) En Ev Ea. unfold isNewerNominationFor. rewrite En.
  destruct (map_find localNodeID (nNoms k0)) as [w|] eqn:Ew; [|done].
  apply map_find_Some_elem in Ew. destruct (ni_own _ H0 w Ew) as [Ov Oa].
  destruct (ni_noms _ H0 _ w Ew) as (_ & _ & Hs). simpl in *.
  apply isNewerNomination_spec; [done| |].
  { split; rewrite ?Ev, ?Ea; [apply (ni_votes _ H1)|apply (ni_accepted _ H1)]. }
  unfold nomination_le. rewrite Ev, Ea. split; [split; by etrans|].
  destruct Hg as [[Hin Hn]|[Hin Hn]]; [left|right]; intros E; apply Hn.
  - apply Ov. rewrite E. done.
  - apply Oa. rewrite E. done.
Qed.

Section Knot.
Context (knot : SCPEnvelopeWrapper → bool → SM EnvelopeState) (W : list Value) (m : nat).
Hypothesis Hlocal : at_levels slice_ok localQuorumSet.
Hypothesis Hqset : ∀ h q, getQSet h = Some q → qset_typed q.
Hypothesis Hballot : ∀ w s,
  Good s → LevelOk 0 s → ownStatement s (getStatement w) →
  wp (knot w true) s (λ r s', Run s s' ∧ (r = VALID → synced (ck s'))) okFail.
Hypothesis Hnom : ∀ w s,
  SGood s → ownNomination s (getStatement w) → nVotes (nk s) ⊆ W →
  closedValues (mSlotIndex s) W → (measure W (nk s) < m)%nat →
  wp (knot w true) s (λ r s', r = VALID ∧ NRun s s') okFail.

Lemma emitNomination_wp k0 s :
  SGood s → nVotes (nk s) ⊆ W → closedValues (mSlotIndex s) W →
  NInv k0 → NMono k0 (nk s) → grew k0 (nk s) → nNoms (nk s) = nNoms k0 →
  (measure W k0 ≤ m)%nat →
  wp (emitNomination knot) s (λ _ s', NRun s s') okFail.
Proof.
  intros HG HW Hcl Hi0 Hm Hg En Hms. unfold emitNomination, createEnvelope, wrapEnvelope. wps.
  set (nom := {| n_quorumSetHash := _ |}). set (w := {| wrapId := _ |}).
  set (s1 := set_mWrapCount _ s). apply wp_bind.
  eapply wp_mono; [apply (Hnom w s1); try done| |done].
  - by destruct HG; split.
  - unfold ownNomination. split_and!; try done.
    + destruct Hg as (v & [[Hv _]|[Hv _]]); intros E; [|apply (ni_acc_votes _ (sg_nom _ HG)) in Hv];
        change (nk s1) with (nk s) in E; rewrite E in Hv; by apply elem_of_nil in Hv.
    + by apply (newer_of_grew _ k0); try apply (sg_nom _ HG).
  - pose proof (measure_grew W k0 (nk s) Hm Hg (sg_nom _ HG) HW).
    change (nk s1) with (nk s). lia.
  - intros [] s2 [Hr HR]; [done|]. assert (NRun s s2) as HR2 by (destruct HR; by split). wps.
    destruct (match mLastNomination _ with Some l => _ | None => _ end); [|by wps]. wps.
    assert (∀ s3, NFrame s2 s3 → nk s3 = nk s2 → NRun s s3) as Hd.
    { intros s3 F3 E3. eapply NRun_trans; [done|exact HR2|]. apply NFrame_run; [done|by rewrite E3]. }
    destruct (mFullyValidated _); wps; [|by apply Hd]. set (s3 := set_mDriverCalls _ _).
    assert (NRun s (set_mDriverCalls (mDriverCalls s2) s3)) as [R1 R2 R3 R4 R5 R6 R7 R8 R9] by by apply Hd.
    split; try done; [by unfold s3; rewrite ext_calls_driver, app_nil_r|].
    intros st Hst%outbox_driver. apply elem_of_app in Hst as [Hst|Hst]; [by apply R9|].
    apply list_elem_of_singleton in Hst as ->. by right.
Qed.

(** A nomination is rejected without effect, or recorded and followed by
    steps. *)
Definition NProcessed (w : SCPEnvelopeWrapper) (s : Slot) (r : EnvelopeState) (s' : Slot) : Prop :=
  match r with
  | INVALID =>
      s' = s ∧
      (isNewerNominationFor (mNominationProtocol s) (nodeID (getStatement w))
         (nominate_of (getStatement w)) = false ∨
       isSaneNomination (nominate_of (getStatement w)) = false)
  | VALID => ∃ s1, nk s1 = recordStep w (nk s) ∧ NFrame s s1 ∧ SGood s1 ∧ NRun s1 s'
  end.

Lemma NProg_candidates W' m0 s1 r s2 s3 :
  NProg W' m0 s1 r s2 → NFrame s2 s3 → nsteps (mSlotIndex s2) (nk s2) (nk s3) →
  nNoms (nk s3) = nNoms (nk s2) → nVotes (nk s3) = nVotes (nk s2) →
  nAccepted (nk s3) = nAccepted (nk s2) → NProg W' m0 s1 r s3.
Proof.
  intros [A1 A2 A3 A4 A5] F3 N3 En Ev Ea. rewrite (nf_index _ _ A1) in N3. split.
  - by eapply NFrame_trans.
  - by etrans.
  - congruence.
  - by rewrite Ev.
  - intros Hr. destruct (A5 Hr) as [?|Hg]; [by left|right].
    eapply grew_mono_r; [by eapply nsteps_mono|done].
Qed.

(** The part of [processEnvelope] that follows the new candidates. *)
Lemma newCandidates_wp s :
  SGood s →
  wp (let! i := gets mSlotIndex in
      let! candidates := getN mCandidates in
      let composite := combineCandidates i candidates in
      modN (set_mLatestCompositeCandidate (Some composite)) ;;
      driver (updatedCandidateValue composite) ;;
      let! latest := getN mLatestCompositeCandidate in
      let! latest := deref latest in
      bumpState knot latest false ;; ret tt) s (λ _ s', NRun s s') okFail.
Proof.
  intros HG. wps. cbv zeta. wps. set (s1 := set_mDriverCalls _ _).
  change (mLatestCompositeCandidate (mNominationProtocol s1)) with
    (Some (combineCandidates (mSlotIndex s) (mCandidates (mNominationProtocol s)))). wps.
  assert (NRun s s1) as HR1 by (apply NFrame_run; [by frame|done]).
  pose proof (NRun_good _ _ HG HR1) as HG1. apply wp_bind.
  eapply wp_mono; [apply (bumpState_start_wp knot 0 Hballot)| |done].
  - apply HG1.
  - unfold LevelOk. by rewrite (sg_level _ HG1).
  - intros _ s2 [HR2 _]. wps. eapply NRun_trans; [done|exact HR1|]. by apply Run_NRun.
Qed.

(** The part that votes for a value of a leader. *)
Lemma leaderVote_wp W' nom b m0 s1 s :
  SGood s → started s = true → NProg W' b s1 m0 s → applyAll nom ⊆ W' →
  closedValues (mSlotIndex s) W' →
  wp (let! newVote := getNewValueFromNomination nom in
      match newVote with
      | Some v => addVote v ;; driver (nominatingValue v) ;; ret true
      | None => ret m0
      end) s (NProg W' b s1) okFail.
Proof.
  intros HG Hst HP Hall Hcl. apply wp_bind.
  eapply wp_mono; [apply (getNewValue_wp W'); try done; by apply (sg_prev _ HG)| |done].
  intros [v|] s' [-> Hpick]; [|by wps]. destruct (Hpick v eq_refl) as (Hnot & HW' & Hok).
  unfold addVote. wps. eapply NProg_step; [exact HP|by frame| | | |].
  - rewrite <- (nf_index _ _ (np_frame _ _ _ _ _ HP)). by refine (nstep_vote _ (nk s) v _).
  - done.
  - intros x [->|?]%elem_of_vinsert; [done|]. by apply (np_in _ _ _ _ _ HP).
  - exists v. left. split; [by apply elem_of_vinsert; left|done].
Qed.

Lemma processNomination_wp w s :
  SGood s → is_nomination (getStatement w) →
  (nodeID (getStatement w) = localNodeID →
     n_votes (nominate_of (getStatement w)) ⊆ nVotes (nk s) ∧
     n_accepted (nominate_of (getStatement w)) ⊆ nAccepted (nk s)) →
  applyAll (nominate_of (getStatement w)) ⊆ W → nVotes (nk s) ⊆ W →
  closedValues (mSlotIndex s) W → (measure W (nk s) ≤ m)%nat →
  wp (processNomination knot w) s (NProcessed w s) okFail.
Proof.
  intros HG Hn Hown Hall HW Hcl Hm. unfold processNomination. wps.
  set (st := getStatement w) in *. set (nom := nominate_of st) in *.
  destruct (isNewerNominationFor _ _ nom) eqn:Enew; cbn [negb]; [|wps; split; [done|by left]].
  destruct (isSaneNomination nom) eqn:Esane; cbn [negb]; [|wps; split; [done|by right]].
  unfold recordNomination, recordStatement. wps. set (s1 := set_mStatementsHistory _ _).
  assert (nk s1 = recordStep w (nk s)) as E1 by done. assert (NFrame s s1) as F1 by done.
  assert (SGood s1) as HG1.
  { destruct HG. split; try done. rewrite E1. apply recordStep_inv; try done.
    by apply isSaneNomination_sorted. }
  match goal with |- wp (bind ?body _) _ _ _ =>
    enough (wp body s1 (λ _ s', NRun s1 s') okFail) as H end.
  { apply wp_bind. eapply wp_mono; [exact H| |done]. intros ? s2 HR. wps. by exists s1. }
  destruct (mNominationStarted (mNominationProtocol s)) eqn:Est; [|wps; by apply NFrame_run].
  apply wp_bind. eapply wp_mono; [apply (promoteVotes_wp W)| |done]; try done.
  { intros v Hv. apply Hall, elem_of_app. by left. }
  intros m1 s2 HP2. apply wp_bind.
  eapply wp_mono; [apply promoteAccepted_wp| |done]. intros nc s3 (F3 & N3 & En3 & Ev3 & Ea3).
  assert (NProg W false s1 m1 s3) as HP3 by by apply (NProg_candidates _ _ _ _ s2). clear HP2 F3 N3 En3 Ev3 Ea3.
  pose proof (NRun_good _ _ HG1 (NFrame_run _ _ (np_frame _ _ _ _ _ HP3) (np_steps _ _ _ _ _ HP3))) as HG3.
  wps. apply wp_bind.
  assert (wp (if bool_decide (mCandidates (mNominationProtocol s3) = []) &&
      bool_decide (nodeID st ∈ mRoundLeaders (mNominationProtocol s3)) then
      let! newVote := getNewValueFromNomination nom in
      match newVote with
      | Some v => addVote v ;; driver (nominatingValue v) ;; ret true
      | None => ret m1 end else ret m1) s3 (NProg W false s1) okFail) as H4.
  { destruct (_ && _); [|by wps]. apply leaderVote_wp; try done.
    - by rewrite (nf_started _ _ (np_frame _ _ _ _ _ HP3)).
    - by rewrite (nf_index _ _ (np_frame _ _ _ _ _ HP3)). }
  eapply wp_mono; [exact H4| |done]. intros m4 s4 HP4. clear H4 HP3 HG3.
  pose proof (NFrame_run _ _ (np_frame _ _ _ _ _ HP4) (np_steps _ _ _ _ _ HP4)) as HR4.
  pose proof (NRun_good _ _ HG1 HR4) as HG4. apply wp_bind.
  assert (wp (if m4 then emitNomination knot else ret tt) s4 (λ _ s', NRun s4 s') okFail) as H5.
  { destruct m4; [|wps; by apply NFrame_run].
    destruct (np_grew _ _ _ _ _ HP4 eq_refl) as [?|Hg]; [done|].
    pose proof (nsteps_mono _ _ _ (np_steps _ _ _ _ _ HP4)).
    apply (emitNomination_wp (nk s1)); try done.
    - apply (np_in _ _ _ _ _ HP4).
    - by rewrite (nf_index _ _ (np_frame _ _ _ _ _ HP4)).
    - apply HG1.
    - apply (np_noms _ _ _ _ _ HP4). }
  eapply wp_mono; [exact H5| |done]. intros ? s5 HR5.
  assert (NRun s1 s5) as HR15 by by eapply NRun_trans.
  destruct nc; [|by wps].
  eapply wp_mono; [apply newCandidates_wp; by eapply NRun_good| |done].
  intros ? s6 HR6. by eapply NRun_trans.
Qed.
End Knot.
End Handlers.

(** ** Properties *)

(** On sane nominations [isNewerNomination] is strict inclusion: the newer one
    has all the votes and accepted values of the older one, and more. *)
Theorem isNewerNomination_strict_inclusion n1 n2 :
  isSaneNomination n1 = true → isSaneNomination n2 = true →
  isNewerNomination n1 n2 = true ↔
  (n_votes n1 ⊆ n_votes n2 ∧ n_accepted n1 ⊆ n_accepted n2) ∧
  ¬ (n_votes n2 ⊆ n_votes n1 ∧ n_accepted n2 ⊆ n_accepted n1).
Proof.
  intros H1%isSaneNomination_sorted H2%isSaneNomination_sorted.
  rewrite isNewerNomination_spec by done. destruct H1 as [V1 A1], H2 as [V2 A2].
  unfold nomination_le. split; intros [[Hv Ha] Hn]; (split; [done|]).
  - intros [Hv' Ha']. destruct Hn as [Hn|Hn]; apply Hn; by apply vsorted_eq.
  - destruct (decide (n_votes n1 = n_votes n2)) as [E1|]; [|by left].
    destruct (decide (n_accepted n1 = n_accepted n2)) as [E2|]; [|by right].
    destruct Hn. by rewrite E1, E2.
Qed.

Lemma isNewerNomination_strict_inclusion_witness :
  let n1 := {| n_quorumSetHash := 0; n_votes := [[1]; [3]]; n_accepted := [] |} in
  let n2 := {| n_quorumSetHash := 0; n_votes := [[1]; [2]; [3]]; n_accepted := [[3]] |} in
  n_votes n1 ⊆ n_votes n2 ∧ n_accepted n1 ⊆ n_accepted n2.
Proof.
  intros n1 n2. apply (isNewerNomination_strict_inclusion n1 n2); vm_compute; reflexivity.
Defined.
