(* ===== verification/Leaders.v ===== *)
(** * Nomination leaders (updateRoundLeaders in src/scp/NominationProtocol.cpp)

    The leaders of a round are the nodes of top priority.  The computation never
    trips an assertion when the local quorum set is sane; the loop over rounds ends
    with the first round that has a new leader. *)

From stdpp Require Import prelude list relations.
From Stdlib Require Import ZArith Lia.
From S2P Require Import Prelude Numeric QuorumSet ScpTypes LocalNode Ballots Slot.
From S2P Require Import BallotProtocol BallotSpec BallotRefine Nomination NominationSpec.
Local Open Scope Z_scope.

(** ** Weights in a normalised quorum set *)

Definition weight_ok (t n : Z) : Prop := 0 ≤ t ≤ n ∧ n < 2147483648.

Lemma mergeSingletons_shape f (P : SCPQuorumSet → Prop) i v :
  Forall (λ q, P (f q)) i →
  (length (mergeSingletons f i v).1 + length (mergeSingletons f i v).2 = length v + length i)%nat ∧
  Forall P (mergeSingletons f i v).2.
Proof.
  intros H. revert v. induction H as [|q i Hq _ IH]; intros v; simpl; [by split; [lia|constructor]|].
  destruct (singletonOf (f q)) as [x|].
  - destruct (IH (v ++ [x])) as [H1 H2]. rewrite length_app in H1. simpl in H1. split; [lia|done].
  - destruct (IH v) as [H1 H2]. destruct (mergeSingletons f i v) as [v' i']. simpl in *.
    split; [lia|by constructor].
Qed.

Lemma removeNode_ok id t v t' v' k :
  countZ (λ n, n =? id) v ≤ t → in_u32 t → t ≤ Z.of_nat (length v) + k → 0 ≤ k →
  removeNode (Some id) t v = (t', v') →
  0 ≤ t' ≤ Z.of_nat (length v') + k ∧ (length v' ≤ length v)%nat.
Proof.
  intros H1 H2 H3 Hk [= <- <-]. set (p := λ n, negb (n =? id)).
  assert (countZ p v + countZ (λ m, m =? id) v = Z.of_nat (length v)) as Hc.
  { apply countZ_compl. intros. unfold p. by rewrite negb_involutive. }
  unfold countZ in Hc at 1. pose proof (countZ_nonneg (λ m, m =? id) v).
  pose proof (List.filter_length_le p v).
  fold p in Hc |- *. set (l := List.filter p v) in *.
  assert (u32 (Z.of_nat (length v) - Z.of_nat (length l)) = countZ (λ m, m =? id) v) as ->.
  { rewrite u32_small; [lia|]. unfold in_u32 in *. lia. }
  rewrite u32_small; [lia|]. unfold in_u32 in *. lia.
Qed.

Lemma simplify_weight_ok id q :
  at_levels slice_ok q → removable id q → at_levels weight_ok (normalizeQSetSimplify (Some id) q).
Proof.
  induction q as [t v i IH] using qset_ind.
  intros [[Ht Hn] Hi]%at_levels_QSet (Hc & Hu & Hr)%removable_QSet.
  cbn [normalizeQSetSimplify]. destruct (removeNode (Some id) t v) as [t1 v1] eqn:E1.
  destruct (removeNode_ok id t v t1 v1 (Z.of_nat (length i))) as [Ht1 Hl1]; [unfold in_u32 in *; lia|done|lia|lia|done|].
  assert (Forall (λ q, at_levels weight_ok (normalizeQSetSimplify (Some id) q)) i) as Hok.
  { rewrite Forall_forall in *. auto. }
  destruct (mergeSingletons_shape _ _ i v1 Hok) as [Hlen Hin].
  destruct (mergeSingletons _ i v1) as [v2 i2]. simpl in Hlen, Hin.
  assert (at_levels weight_ok (QSet t1 v2 i2)) as Hres.
  { apply at_levels_QSet. split; [split; lia|done]. }
  destruct v2; [|done]. destruct i2 as [|q [|]]; try done.
  destruct (t1 =? 1); [|done]. by inversion Hin.
Qed.

Lemma reorder_weight_ok q : at_levels weight_ok q → at_levels weight_ok (normalizeQuorumSetReorder q).
Proof.
  induction q as [t v i IH] using qset_ind. intros [Ht Hi]%at_levels_QSet.
  cbn [normalizeQuorumSetReorder]. apply at_levels_QSet.
  rewrite (Permutation_length (std_sort_perm _ v)), (Permutation_length (std_sort_perm _ (map _ i))),
    length_map. split; [done|].
  rewrite std_sort_perm, Forall_map. rewrite Forall_forall in *. auto.
Qed.

Lemma getNodeWeight_total q n :
  at_levels weight_ok q → ∃ w, getNodeWeight n q = Ok w.
Proof.
  induction q as [t v i IH] using qset_ind. intros [[Ht Hn] Hi]%at_levels_QSet. simpl.
  assert (∀ m, ∃ w, computeWeight m (Z.of_nat (length i) + Z.of_nat (length v)) t = Ok w) as Hc.
  { intros m. unfold computeWeight. rewrite (proj2 (Z.leb_le _ _)) by lia. eauto. }
  case_bool_decide; [apply Hc|]. clear Ht Hn.
  generalize dependent (Z.of_nat (length i) + Z.of_nat (length v)). intros d Hc.
  induction i as [|q i IHi]; simpl; [eauto|].
  apply Forall_cons in IH as [IHq IH], Hi as [Hiq Hi].
  destruct (IHq Hiq) as [w ->]. destruct (negb (w =? 0)); [apply Hc|auto].
Qed.

(** ** Nodes of a normalised quorum set *)

Lemma mergeSingletons_nodes f i v :
  (mergeSingletons f i v).1 ++ concat (map qset_nodes (mergeSingletons f i v).2) ≡ₚ
  v ++ concat (map (λ q, qset_nodes (f q)) i).
Proof.
  revert v. induction i as [|q i IH]; intros v; simpl; [done|].
  destruct (singletonOf (f q)) as [x|] eqn:Ex.
  - rewrite IH. destruct (f q) as [t [|y [|]] [|]]; simplify_eq/=.
    destruct (t =? 1); simplify_eq/=. by rewrite <- app_assoc.
  - specialize (IH v). destruct (mergeSingletons f i v) as [v' i']. simpl in *.
    rewrite (Permutation_app_comm (qset_nodes (f q)) (concat (map qset_nodes i'))), app_assoc, IH.
    rewrite <- app_assoc. f_equiv. apply Permutation_app_comm.
Qed.

Lemma simplify_nodes id q :
  qset_nodes (normalizeQSetSimplify (Some id) q) ≡ₚ
  List.filter (λ n, negb (n =? id)) (qset_nodes q).
Proof.
  induction q as [t v i IH] using qset_ind. cbn [normalizeQSetSimplify].
  destruct (removeNode (Some id) t v) as [t1 v1] eqn:E1. injection E1 as _ E1.
  pose proof (mergeSingletons_nodes (normalizeQSetSimplify (Some id)) i v1) as Hm.
  assert (concat (map (λ q, qset_nodes (normalizeQSetSimplify (Some id) q)) i) ≡ₚ
    List.filter (λ n, negb (n =? id)) (concat (map qset_nodes i))) as Hi.
  { clear -IH. induction IH as [|q i Hq _ IHi]; simpl; [done|]. by rewrite List.filter_app, Hq, IHi. }
  rewrite Hi in Hm. simpl qset_nodes at 2. rewrite List.filter_app, E1, <- Hm.
  destruct (mergeSingletons _ i v1) as [v2 i2]. simpl fst. simpl snd.
  destruct v2; [|done]. destruct i2 as [|q [|]]; try done. destruct (t1 =? 1); [|done].
  simpl. by rewrite app_nil_r.
Qed.

Lemma reorder_nodes q : qset_nodes (normalizeQuorumSetReorder q) ≡ₚ qset_nodes q.
Proof.
  induction q as [t v i IH] using qset_ind. simpl. rewrite std_sort_perm. f_equiv.
  assert (∀ l l' : list SCPQuorumSet, l ≡ₚ l' →
    concat (map qset_nodes l) ≡ₚ concat (map qset_nodes l')) as Hc.
  { induction 1; simpl; try done; [by f_equiv| |by etrans].
    rewrite !app_assoc. f_equiv. apply Permutation_app_comm. }
  rewrite (Hc _ _ (std_sort_perm _ _)). induction IH as [|q i Hq _ IHi]; simpl; [done|].
  by rewrite Hq, IHi.
Qed.

(** ** The nodes visited *)

Lemma visited_nodes q : visited q = qset_nodes q.
Proof.
  unfold visited. rewrite forAllNodes_fold. simpl.
  assert (∀ l acc : list NodeID, foldl (λ x n, x ++ [n]) acc l = acc ++ l) as ->; [|done].
  intros l. induction l as [|n l IH]; intros acc; simpl; [by rewrite app_nil_r|].
  by rewrite IH, <- app_assoc.
Qed.

Lemma forAllNodes_count q c :
  0 ≤ c → c + Z.of_nat (length (qset_nodes q)) < 18446744073709551616 →
  (forAllNodes q (λ _ (c : Z), (u64 (c + 1), true)) c).1 = c + Z.of_nat (length (qset_nodes q)).
Proof.
  rewrite forAllNodes_fold. simpl. generalize (qset_nodes q) as l. intros l. revert c.
  induction l as [|n l IH]; intros c Hc Hb; simpl in *; [lia|].
  rewrite u64_small by word. rewrite IH; lia.
Qed.

Section Leaders.
Context {D : SCPDriver} {L : LocalNode}.

(** ** Priorities *)

(** The priority of a node in a round: a hash, for the nodes another hash selects
    in proportion to their weight, and 0 for the others. *)
Definition priority (i : Z) (prev : Value) (round : Z) (q : SCPQuorumSet) (n : NodeID) : Z :=
  let w := if n =? localNodeID then UINT64_MAX
           else match getNodeWeight n q with Ok w => w | Fail _ => 0 end in
  if (0 <? w) && (computeHashNode i prev false round n <=? w)
  then computeHashNode i prev true round n else 0.

(** A leader of a round: no node has a higher priority.  The local node is a
    leader even when every priority is 0; another node is not. *)
Definition isLeader (i : Z) (prev : Value) (round : Z) (q : SCPQuorumSet) (n : NodeID) : Prop :=
  (n = localNodeID ∨ (n ∈ qset_nodes q ∧ 0 < priority i prev round q n)) ∧
  ∀ m, m = localNodeID ∨ m ∈ qset_nodes q → priority i prev round q m ≤ priority i prev round q n.

Definition slotPriority (s : Slot) (q : SCPQuorumSet) (n : NodeID) : Z :=
  priority (mSlotIndex s) (mPreviousValue (mNominationProtocol s)) (mRoundNumber (mNominationProtocol s)) q n.

Lemma getNodePriority_wp n q s E :
  at_levels weight_ok q → mPreviousValue (mNominationProtocol s) ≠ [] →
  wp (getNodePriority n q) s (λ p s', s' = s ∧ p = slotPriority s q n) E.
Proof.
  intros Hq Hprev. unfold getNodePriority, slotPriority, priority.
  destruct (getNodeWeight_total q n Hq) as [w Hw]. rewrite Hw.
  assert (∀ b, wp (hashNode b n) s (λ h s', s' = s ∧
    h = computeHashNode (mSlotIndex s) (mPreviousValue (mNominationProtocol s)) b (mRoundNumber (mNominationProtocol s)) n) E) as Hh.
  { intros b. unfold hashNode. wps. rewrite bool_decide_eq_false_2 by done. simpl. apply wp_bind. by wps. }
  assert (∀ w, wp (if 0 <? w then let! h := hashNode false n in
      if h <=? w then hashNode true n else ret 0 else ret 0) s
    (λ p s', s' = s ∧ p = if (0 <? w) &&
       (computeHashNode (mSlotIndex s) (mPreviousValue (mNominationProtocol s)) false (mRoundNumber (mNominationProtocol s)) n <=? w)
       then computeHashNode (mSlotIndex s) (mPreviousValue (mNominationProtocol s)) true (mRoundNumber (mNominationProtocol s)) n else 0) E) as H.
  { intros w'. destruct (0 <? w'); cbn [andb]; [|by wps]. apply wp_bind.
    eapply wp_mono; [apply (Hh false)| |done]. intros ? ? [-> ->]. case_match; [apply (Hh true)|by wps]. }
  apply wp_bind. destruct (n =? localNodeID); wps; apply H.
Qed.

(** What the loop over the nodes has found after the nodes [seen]. *)
Definition topOf (prio : NodeID → Z) (seen : list NodeID) (acc : Z * list NodeID) : Prop :=
  (∀ m, m = localNodeID ∨ m ∈ seen → prio m ≤ acc.1) ∧
  (acc.1 = prio localNodeID ∨ ∃ m, m ∈ seen ∧ acc.1 = prio m) ∧
  (∀ n, n ∈ acc.2 ↔ (n = localNodeID ∨ (n ∈ seen ∧ 0 < prio n)) ∧ prio n = acc.1).

Lemma topOf_step prio seen top leaders cur :
  topOf prio seen (top, leaders) →
  let w := prio cur in
  let '(top', leaders') := if top <? w then (w, []) else (top, leaders) in
  topOf prio (seen ++ [cur])
    (top', if (w =? top') && (0 <? w) then set_insert Zcmp cur leaders' else leaders').
Proof.
  intros (H1 & H2 & H3) w. unfold topOf in *. cbn [fst snd] in *.
  assert (∀ m, m ∈ seen ++ [cur] ↔ m ∈ seen ∨ m = cur) as Hs.
  { intros m. by rewrite elem_of_app, list_elem_of_singleton. }
  destruct (Z.ltb_spec top w) as [Hlt|Hge]; cbn [fst snd].
  - rewrite Z.eqb_refl. simpl. split_and!.
    + intros m Hm. rewrite Hs in Hm. destruct Hm as [->|[Hm| ->]]; [| |done].
      * specialize (H1 localNodeID (or_introl eq_refl)). lia.
      * specialize (H1 m (or_intror Hm)). lia.
    + right. exists cur. rewrite Hs. auto.
    + intros n. assert (n ∈ (if 0 <? w then set_insert Zcmp cur [] else []) ↔ n = cur ∧ 0 < w) as ->.
      { destruct (Z.ltb_spec 0 w) as [Hw|Hw]; [rewrite (elem_of_set_insert Zcmp)|];
          rewrite elem_of_nil; intuition lia. }
      rewrite Hs. split; [intros [-> Hw]; auto|].
      intros [[->|[[Hm| ->] Hp]] E]; [| |done].
      * specialize (H1 localNodeID (or_introl eq_refl)). lia.
      * specialize (H1 n (or_intror Hm)). lia.
  - split_and!.
    + intros m Hm. rewrite Hs in Hm. destruct Hm as [->|[Hm| ->]]; [auto|auto|done].
    + destruct H2 as [?|(m & Hm & ?)]; [by left|right]. exists m. rewrite Hs. auto.
    + intros n. rewrite Hs. destruct (Z.eqb_spec w top) as [E|E], (Z.ltb_spec 0 w) as [Hw|Hw]; simpl;
        rewrite ?(elem_of_set_insert Zcmp), H3; unfold w in *;
        (split; [intuition (subst; auto; lia)|]);
        intros [[->|[[Hm| ->] Hp]] E']; auto; try lia.
Qed.

(** ** One round *)

Lemma wp_foldM_prefix {A X} (f : X → A → SM X) l x s (I : list A → X → Slot → Prop) E :
  (∀ seen x a s, I seen x s → wp (f x a) s (I (seen ++ [a])) E) →
  I [] x s → wp (foldM f l x) s (I l) E.
Proof.
  intros Hf. change l with ([] ++ l) at 2. generalize (@nil A). revert x s.
  induction l as [|a l IH]; intros x s seen HI; simpl.
  - rewrite app_nil_r. by wps.
  - apply wp_bind. eapply wp_mono; [by apply Hf| |done]. intros x' s' HI'.
    rewrite cons_middle, app_assoc. by apply IH.
Qed.

Definition slotLeader (s : Slot) (q : SCPQuorumSet) (n : NodeID) : Prop :=
  isLeader (mSlotIndex s) (mPreviousValue (mNominationProtocol s)) (mRoundNumber (mNominationProtocol s)) q n.

Lemma topOf_leader s q acc n :
  topOf (slotPriority s q) (qset_nodes q) acc → n ∈ acc.2 ↔ slotLeader s q n.
Proof.
  intros (H1 & H2 & H3). rewrite H3. unfold slotLeader, isLeader. fold (slotPriority s q).
  split.
  - intros [Hn E]. split; [done|]. intros m Hm. fold (slotPriority s q m) (slotPriority s q n).
    rewrite E. auto.
  - intros [Hn Hmax]. split; [done|]. fold (slotPriority s q n).
    apply Z.le_antisymm; [apply H1; tauto|].
    destruct H2 as [->|(m & Hm & ->)]; apply Hmax; auto.
Qed.

Lemma newRoundLeaders_wp q s E :
  at_levels weight_ok q → mPreviousValue (mNominationProtocol s) ≠ [] →
  wp (newRoundLeaders q) s (λ r s', s' = s ∧ ∀ n, n ∈ r ↔ slotLeader s q n) E.
Proof.
  intros Hq Hp. unfold newRoundLeaders. apply wp_bind.
  eapply wp_mono; [by apply getNodePriority_wp| |done]. intros ? ? [-> ->]. apply wp_bind.
  eapply (wp_mono _ _ (λ acc s', s' = s ∧ topOf (slotPriority s q) (qset_nodes q) acc));
    [|intros acc s' [-> Ht]; wps; split; [done|]; intros n; by apply topOf_leader|done].
  rewrite visited_nodes.
  apply (wp_foldM_prefix _ _ _ _ (λ seen acc s', s' = s ∧ topOf (slotPriority s q) seen acc)).
  - intros seen [top leaders] a s1 [-> Ht]. apply wp_bind.
    eapply wp_mono; [by apply getNodePriority_wp| |done]. intros ? ? [-> ->].
    pose proof (topOf_step _ _ _ _ a Ht) as Hs. cbv zeta in Hs.
    destruct (if top <? _ then _ else _) as [top' leaders']. by wps.
  - split; [done|]. split_and!; simpl.
    + intros m [->|Hm]; [done|]. by apply elem_of_nil in Hm.
    + by left.
    + intros n. rewrite elem_of_nil, list_elem_of_singleton. intuition congruence.
Qed.

(** ** The loop over rounds *)

(** [mRoundNumber++], [k] times. *)
Definition nextRounds (k : nat) (round : Z) : Z := Nat.iter k (λ r, s32 (r + 1)) round.

(** The slot [k] rounds later, with the given leaders. *)
Definition atRound (k : nat) (leaders : list NodeID) (s : Slot) : Slot :=
  set_mNominationProtocol
    (set_mRoundLeaders leaders (set_mRoundNumber (nextRounds k (mRoundNumber (mNominationProtocol s))) (mNominationProtocol s))) s.

(** Every leader of that round is known already. *)
Definition noNewLeader (q : SCPQuorumSet) (s : Slot) : Prop :=
  ∀ n, slotLeader s q n → n ∈ mRoundLeaders (mNominationProtocol s).

Definition later (k : nat) (s : Slot) : Slot := atRound k (mRoundLeaders (mNominationProtocol s)) s.

(** What the loop does when the leaders are not complete: it adds the leaders of
    the first round that has a new one. *)
Definition leadersFound (fuel : nat) (q : SCPQuorumSet) (s s' : Slot) : Prop :=
  ∃ k leaders, (k < fuel)%nat ∧ (∀ j, (j < k)%nat → noNewLeader q (later j s)) ∧
    ¬ noNewLeader q (later k s) ∧ s' = atRound k leaders s ∧
    strictly_sorted Zcmp leaders ∧
    ∀ n, n ∈ leaders ↔ n ∈ mRoundLeaders (mNominationProtocol s) ∨ slotLeader (later k s) q n.

Lemma atRound_S k leaders s : atRound k leaders (later 1 s) = atRound (S k) leaders s.
Proof.
  unfold atRound. assert (∀ r, nextRounds k (nextRounds 1 r) = nextRounds (S k) r) as Hr.
  { intros r. symmetry. apply Nat.iter_succ_r. }
  change (mRoundNumber (mNominationProtocol (later 1 s))) with (nextRounds 1 (mRoundNumber (mNominationProtocol s))). by rewrite Hr.
Qed.

Lemma later_S k s : later k (later 1 s) = later (S k) s.
Proof. apply atRound_S. Qed.

Lemma later_0 s : later 0 s = s.
Proof. destruct s as [? ? n]. by destruct n. Qed.

Lemma updateRoundLeaders_loop_wp fuel q max s :
  at_levels weight_ok q → mPreviousValue (mNominationProtocol s) ≠ [] → strictly_sorted Zcmp (mRoundLeaders (mNominationProtocol s)) →
  Z.of_nat (length (mRoundLeaders (mNominationProtocol s))) < max →
  wp (updateRoundLeaders_loop fuel q max) s (λ _ s', leadersFound fuel q s s')
    (λ f, f = OutOfFuel ∧ ∀ j, (j < fuel)%nat → noNewLeader q (later j s)).
Proof.
  intros Hq. revert s. induction fuel as [|fuel IH]; intros s Hp Hs Hmax; simpl.
  { split; [done|]. lia. }
  wps. rewrite (proj2 (Z.ltb_lt _ _)) by done. apply wp_bind.
  eapply wp_mono; [by apply (newRoundLeaders_wp _ _ (λ _, False))| |done]. intros new s1 [-> Hnew]. cbv zeta.
  set (ls := mRoundLeaders (mNominationProtocol s)) in *. wps.
  pose proof (set_inserts_length Zcmp new ls Hs) as Hlen.
  case_bool_decide as Hl; cbn [negb].
  - assert (new ⊆ ls) as Hsub by (apply Hlen; congruence). rewrite set_inserts_id by (done || apply _). wps.
    match goal with |- wp _ ?s2 _ _ => change s2 with (later 1 s) end.
    assert (noNewLeader q (later 0 s)) as H0.
    { rewrite later_0. intros n Hn%Hnew. by apply Hsub. }
    eapply wp_mono; [by apply IH| |].
    + intros _ s' (k & leaders & Hk & Hno & Hyes & E & Hsl & Hin). exists (S k), leaders.
      rewrite <- later_S. split_and!; try done; [lia| |].
      * intros [|j] Hj; [done|]. rewrite <- later_S. apply Hno. lia.
      * by rewrite E, atRound_S.
    + intros f [-> Hno]. split; [done|]. intros [|j] Hj; [done|]. rewrite <- later_S. apply Hno. lia.
  - wps. exists 0%nat, (set_inserts Zcmp new ls). split_and!; [lia|lia| |done| |].
    + rewrite later_0. intros Hno. apply Hl. symmetry. apply Hlen. intros n Hn. by apply Hno, Hnew.
    + by apply set_inserts_sorted; [apply _|].
    + intros n. rewrite later_0, (elem_of_set_inserts Zcmp), Hnew. tauto.
Qed.

(** ** The quorum set without the local node *)

(** The quorum set the leaders are chosen from: the local one without the local
    node. *)
Definition leaderQSet : SCPQuorumSet := normalizeQSet localQuorumSet (Some localNodeID).

Context (Hsane : isQuorumSetSane localQuorumSet false = true).
Context (Htyped : qset_typed localQuorumSet).

Lemma leaderQSet_weight_ok : at_levels weight_ok leaderQSet.
Proof.
  unfold leaderQSet, normalizeQSet. apply reorder_weight_ok, simplify_weight_ok.
  - by apply isQuorumSetSane_iff, sane_slice_ok in Hsane.
  - by apply sane_removable.
Qed.

(** Its nodes are the other nodes of the local quorum set, each once. *)
Lemma leaderQSet_nodes :
  qset_nodes leaderQSet ≡ₚ List.filter (λ n, negb (n =? localNodeID)) (qset_nodes localQuorumSet).
Proof. unfold leaderQSet, normalizeQSet. rewrite reorder_nodes. apply simplify_nodes. Qed.

Lemma leaderQSet_count :
  Z.of_nat (length (qset_nodes leaderQSet)) ≤ 1000.
Proof.
  rewrite leaderQSet_nodes. apply isQuorumSetSane_iff in Hsane as (_ & _ & _ & _ & H).
  pose proof (List.filter_length_le (λ n, negb (n =? localNodeID)) (qset_nodes localQuorumSet)). lia.
Qed.

(** The leaders are complete: no node is left. *)
Definition leadersComplete (s : Slot) : Prop :=
  1 + Z.of_nat (length (qset_nodes leaderQSet)) ≤ Z.of_nat (length (mRoundLeaders (mNominationProtocol s))).

Lemma updateRoundLeaders_wp fuel s :
  mPreviousValue (mNominationProtocol s) ≠ [] →
  strictly_sorted Zcmp (mRoundLeaders (mNominationProtocol s)) →
  wp (updateRoundLeaders (S fuel)) s
    (λ _ s', (leadersComplete s ∧ s' = s) ∨ leadersFound (S fuel) leaderQSet s s')
    (λ f, f = OutOfFuel ∧ ∀ j, (j < S fuel)%nat → noNewLeader leaderQSet (later j s)).
Proof.
  intros Hp Hs. unfold updateRoundLeaders. fold leaderQSet. pose proof leaderQSet_count.
  rewrite forAllNodes_count by lia.
  destruct (decide (leadersComplete s)) as [Hc|Hc].
  - unfold leadersComplete in Hc. simpl. wps. rewrite (proj2 (Z.ltb_ge _ _)) by lia. wps. by left.
  - eapply wp_mono; [apply updateRoundLeaders_loop_wp; try done| |done].
    + apply leaderQSet_weight_ok.
    + unfold leadersComplete in Hc. lia.
    + intros ? ? ?. by right.
Qed.
End Leaders.

(** ** Properties *)

(** With a sane local quorum set, the leaders of a round are exactly the
    nodes of top priority among the local node and the other nodes of the quorum
    set, and computing them trips no assertion and changes nothing. *)
Theorem newRoundLeaders_top_priority {D : SCPDriver} {L : LocalNode} s :
  isQuorumSetSane localQuorumSet false = true → qset_typed localQuorumSet →
  mPreviousValue (mNominationProtocol s) ≠ [] →
  (∀ n, n ∈ qset_nodes leaderQSet ↔ n ∈ qset_nodes localQuorumSet ∧ n ≠ localNodeID) ∧
  ∃ leaders, newRoundLeaders leaderQSet s = Ok (leaders, s) ∧
    ∀ n, n ∈ leaders ↔
      isLeader (mSlotIndex s) (mPreviousValue (mNominationProtocol s))
        (mRoundNumber (mNominationProtocol s)) leaderQSet n.
Proof.
  intros Hs Ht Hp. split.
  - intros n. rewrite leaderQSet_nodes, elem_of_filterb, negb_true_iff, Z.eqb_neq. done.
  - pose proof (newRoundLeaders_wp leaderQSet s (λ _, False) (leaderQSet_weight_ok Hs Ht) Hp) as H.
    unfold wp in H. destruct (newRoundLeaders leaderQSet s) as [[r s']|]; [|done].
    destruct H as [-> H]. eauto.
Qed.

(** [updateRoundLeaders] adds the leaders of the first round, from the current
    one on, in which a node that is not yet a leader has top priority; it returns
    as soon as there is such a round among the first [fuel] ones, and leaves the
    leaders alone when every node is one. *)
Theorem updateRoundLeaders_first_new {D : SCPDriver} {L : LocalNode} fuel s j :
  isQuorumSetSane localQuorumSet false = true → qset_typed localQuorumSet →
  mPreviousValue (mNominationProtocol s) ≠ [] →
  strictly_sorted Zcmp (mRoundLeaders (mNominationProtocol s)) →
  (j < fuel)%nat → ¬ noNewLeader leaderQSet (later j s) →
  ∃ s', updateRoundLeaders fuel s = Ok (tt, s') ∧
    ((leadersComplete s ∧ s' = s) ∨ leadersFound fuel leaderQSet s s').
Proof.
  intros Hs Ht Hp Hl Hj Hn. destruct fuel as [|fuel]; [lia|].
  pose proof (updateRoundLeaders_wp Hs Ht fuel s Hp Hl) as H. unfold wp in H.
  destruct (updateRoundLeaders (S fuel) s) as [[[] s']|f]; [eauto|].
  destruct H as [_ H]. by destruct Hn; apply H.
Qed.
