(* ===== verification/SlotSafety.v ===== *)
(** * Safety of a slot

    The recursion of [Slot::processEnvelope] terminates, and every event of a slot
    performs steps of the two protocols: the state stays well formed, the phase
    moves forward, at most one value is ever externalized and it was ratified by a
    quorum. *)

From stdpp Require Import prelude list relations.
From Stdlib Require Import ZArith Lia.
From S2P Require Import Prelude Numeric QuorumSet ScpTypes LocalNode Ballots Slot.
From S2P Require Import BallotProtocol BallotVotes BallotSpec BallotRefine Nomination.
From S2P Require Import NominationSpec SlotProcess Leaders.
Local Open Scope Z_scope.

(** What the protocol relies on: the local quorum set is sane, quorum sets have
    [uint32] thresholds (they are XDR values), and [extractValidValue] returns
    values the node agrees to, as documented in SCPDriver.h. *)
Class DriverOk {D : SCPDriver} {L : LocalNode} : Prop := {
  local_sane : isQuorumSetSane localQuorumSet false = true;
  local_typed : qset_typed localQuorumSet;
  getQSet_typed : ∀ h q, getQSet h = Some q → qset_typed q;
  extract_valid : ∀ i v v', extractValidValue i v = Some v' →
    validateValue i v' true = kFullyValidatedValue
}.

Section Slot.
Context {D : SCPDriver} {L : LocalNode} {OK : DriverOk}.

Lemma local_ok : at_levels slice_ok localQuorumSet.
Proof. pose proof local_sane as H. by apply isQuorumSetSane_iff, sane_slice_ok in H. Qed.

(** ** Termination *)

Lemma slotProcess_ballot fuel w self s :
  Good s → MAX_ADVANCE_SLOT_RECURSION - Z.of_nat fuel ≤ level s < MAX_ADVANCE_SLOT_RECURSION →
  slotIndex (getStatement w) = mSlotIndex s →
  is_ballot_statement (getStatement w) → typed_statement (getStatement w) →
  wp (slotProcessEnvelope fuel w self) s (Processed w s) okFail.
Proof.
  revert w self s. induction fuel as [|fuel IH]; intros w self s HG HL Hidx Hb Ht; [lia|].
  simpl. apply (slotDispatch_wp _ (MAX_ADVANCE_SLOT_RECURSION - Z.of_nat fuel) local_ok getQSet_typed);
    try done; [|lia].
  intros w' s' HG' HL' Hown. eapply wp_mono; [apply IH; try done; apply Hown| |done].
  intros r s2. by apply own_Processed.
Qed.

Lemma slotProcess_own fuel lo w s :
  Good s → LevelOk lo s → MAX_ADVANCE_SLOT_RECURSION - Z.of_nat fuel ≤ lo →
  ownStatement s (getStatement w) →
  wp (slotProcessEnvelope fuel w true) s (λ r s', Run s s' ∧ (r = VALID → synced (ck s'))) okFail.
Proof.
  intros HG HL Hf Hown. unfold LevelOk in HL.
  eapply wp_mono; [apply slotProcess_ballot; try done; try apply Hown; lia| |done].
  intros r s2. by apply own_Processed.
Qed.

(** The dispatch of a nomination. *)
Lemma dispatch_nomination knot ballot w self s :
  SGood s → slotIndex (getStatement w) = mSlotIndex s → is_nomination (getStatement w) →
  wp (processNomination knot w) s (NProcessed w s) okFail →
  wp (slotDispatch (processNomination knot) ballot w self) s (NProcessed w s) okFail.
Proof.
  intros HG Hidx Hn Hp. unfold slotDispatch. wps.
  apply wp_pass; [by apply assert_pass, Z.eqb_eq|]. wps.
  rewrite bool_decide_eq_true_2 by done. apply wp_bind.
  eapply wp_mono; [exact Hp| |done]. intros [] s2 HP; apply wp_bind.
  { rewrite andb_false_r. wps. by wps. }
  destruct HP as (s1 & E1 & F1 & HG1 & R1).
  destruct (_ && _); [|wps; wps; by exists s1].
  eapply wp_mono; [apply maybeSetGotVBlocking_wp| |done]. intros _ s3 [E3 F3]. wps.
  exists s1. split_and!; [done..|]. eapply NRun_trans; [exact HG1|exact R1|].
  by apply Run_NRun, Run_same.
Qed.

(** The values a nomination can lead to. *)
Definition universe (i : Z) (base : list Value) : list Value :=
  base ++ omap (extractValidValue i) base.

Lemma universe_closed i base : closedValues i (universe i base).
Proof.
  intros v v' [Hv|Hv]%elem_of_app Hinv He.
  - apply elem_of_app. right. apply list_elem_of_omap. eauto.
  - apply list_elem_of_omap in Hv as (u & _ & Hu). by apply extract_valid in Hu.
Qed.

Lemma measure_universe i base k : (measure (universe i base) k ≤ 4 * length base)%nat.
Proof.
  assert (length (universe i base) ≤ 2 * length base)%nat as H.
  { unfold universe. rewrite length_app.
    assert (length (omap (extractValidValue i) base) ≤ length base)%nat; [|lia].
    clear OK. induction base as [|v base IH]; csimpl; [done|]. destruct (extractValidValue i v); csimpl; lia. }
  unfold measure, missing.
  pose proof (List.filter_length_le (λ v, negb (bool_decide (v ∈ nVotes k))) (universe i base)).
  pose proof (List.filter_length_le (λ v, negb (bool_decide (v ∈ nAccepted k))) (universe i base)). lia.
Qed.

Lemma slotProcess_ownNomination W fuel w s :
  SGood s → ownNomination s (getStatement w) → nVotes (nk s) ⊆ W →
  closedValues (mSlotIndex s) W → (measure W (nk s) + ballotFuel + 1 ≤ fuel)%nat →
  wp (slotProcessEnvelope fuel w true) s (λ r s', r = VALID ∧ NRun s s') okFail.
Proof.
  revert w s. induction fuel as [|fuel IH]; intros w s HG Hown HW Hcl Hf; [lia|]. simpl.
  destruct Hown as (Hid & Hidx & Hn & Ev & Ea & Hne & Hnew).
  assert (nomination_sorted (nominate_of (getStatement w))) as Hs.
  { destruct (sg_nom _ HG). split; by rewrite ?Ev, ?Ea. }
  eapply wp_mono; [apply dispatch_nomination; try done| |done].
  - apply (processNomination_wp _ W (measure W (nk s))); try done.
    + intros w' s' HG' HL' Ho. apply (slotProcess_own fuel 0); try done.
      unfold ballotFuel, MAX_ADVANCE_SLOT_RECURSION in *. lia.
    + intros w' s' HG' Ho HW' Hcl' Hm. apply IH; try done. lia.
    + intros _. by rewrite Ev, Ea.
    + unfold applyAll. rewrite Ev, Ea. intros v [Hv|[Hv _]%elem_of_filterb]%elem_of_app; [auto|].
      by apply HW, (ni_acc_votes _ (sg_nom _ HG)).
  - intros [] s' HP.
    + destruct HP as [_ [Hf'|Hf']]; [by rewrite Hid, Hnew in Hf'|].
      unfold isSaneNomination in Hf'. destruct Hs as [Hs1%adjacentIncreasing_iff Hs2%adjacentIncreasing_iff].
      rewrite Hs1, Hs2, !andb_true_r, negb_false_iff, bool_decide_eq_true, Ev in Hf'.
      destruct (nVotes (nk s)); [done|simpl in Hf'; lia].
    + destruct HP as (s1 & E1 & F1 & _ & R1). split; [done|].
      eapply NRun_trans; [done| |exact R1]. apply NFrame_run; [done|].
      rewrite E1. apply rtc_once. by apply nstep_own.
Qed.

(** ** Events of a slot *)

(** A message of the network for this slot.  The node's own statements, which
    it signed, do not exceed its state. *)
Definition envelopeOk (s : Slot) (w : SCPEnvelopeWrapper) : Prop :=
  slotIndex (getStatement w) = mSlotIndex s ∧ typed_statement (getStatement w) ∧
  (is_nomination (getStatement w) → nodeID (getStatement w) = localNodeID →
     n_votes (nominate_of (getStatement w)) ⊆ nVotes (nk s) ∧
     n_accepted (nominate_of (getStatement w)) ⊆ nAccepted (nk s)) ∧
  (nodeID (getStatement w) = localNodeID → said (ck s) (getStatement w)).

(** Recording a message, then steps of both protocols. *)
Inductive received (w : SCPEnvelopeWrapper) (s s1 : Slot) : Prop :=
| received_ballot :
    is_ballot_statement (getStatement w) → ck s1 = recordCore w (ck s) → Frame s s1 →
    received w s s1
| received_nomination :
    is_nomination (getStatement w) → nk s1 = recordStep w (nk s) → NFrame s s1 →
    received w s s1.

Lemma ballot_recorded_good w s s1 :
  SGood s → typed_statement (getStatement w) → is_ballot_statement (getStatement w) →
  ck s1 = recordCore w (ck s) → Frame s s1 → SGood s1.
Proof.
  intros [HG Hn Hl Hp Hs] Ht Hb E1 [F1 F2 F3 F4 F5 F6].
  assert (nk s1 = nk s) as En by (change (ncore (nom s1) = ncore (nom s)); by rewrite F4).
  split.
  - unfold Good. rewrite E1. by apply recordCore_good.
  - by rewrite En.
  - congruence.
  - intros ?. change (mPreviousValue (nom s1) ≠ []). rewrite F4. auto.
  - change (strictly_sorted Zcmp (mRoundLeaders (nom s1))). by rewrite F4.
Qed.

Lemma Slot_processEnvelope_wp w self s :
  SGood s → envelopeOk s w →
  wp (Slot_processEnvelope w self) s
    (λ r s', match r with
             | INVALID => s' = s
             | VALID => ∃ s1, received w s s1 ∧ SGood s1 ∧ NRun s1 s'
             end) okFail.
Proof.
  intros HG (Hidx & Ht & Hown & _). change (wp (Slot_processEnvelope w self) s) with
    (wp (slotProcessEnvelope (slotFuel s w) w self) s).
  destruct (decide (pledges_type (pledges (getStatement w)) = SCP_ST_NOMINATE)) as [Hn|Hb].
  - set (base := mVotes (mNominationProtocol s) ++ applyAll (nominate_of (getStatement w))).
    set (W := universe (mSlotIndex s) base).
    assert (base ⊆ W) as Hbase by (intros v Hv; apply elem_of_app; by left).
    pose proof (measure_universe (mSlotIndex s) base (nk s)) as Hm. fold W in Hm.
    assert (slotFuel s w = S (4 * length base + ballotFuel)) as -> 
      by (unfold slotFuel, nominationFuel; fold base; lia).
    simpl slotProcessEnvelope. eapply wp_mono; [apply dispatch_nomination; try done| |done].
    + apply (processNomination_wp _ W (measure W (nk s))); try done; auto.
      * intros w' s' HG' HL' Ho. apply (slotProcess_own _ 0); try done.
        unfold ballotFuel, MAX_ADVANCE_SLOT_RECURSION. lia.
      * intros w' s' HG' Ho HW' Hcl' Hm'. apply (slotProcess_ownNomination W); try done. lia.
      * intros v Hv. apply Hbase, elem_of_app. by right.
      * intros v Hv. apply Hbase, elem_of_app. by left.
      * apply universe_closed.
    + intros [] s' HP; [apply HP|]. destruct HP as (s1 & E1 & F1 & HG1 & R1).
      exists s1. split_and!; [by apply received_nomination|done..].
  - eapply wp_mono; [apply slotProcess_ballot; try done; try apply HG| |done].
    + rewrite (sg_level _ HG). unfold slotFuel, nominationFuel, ballotFuel, MAX_ADVANCE_SLOT_RECURSION. lia.
    + intros [] s' HP; [done|]. destruct HP as (s1 & E1 & F1 & R1 & _). exists s1.
      split_and!; [by apply received_ballot| |by apply Run_NRun].
      by eapply ballot_recorded_good.
Qed.

(** ** Nominating a value *)

(** [nominate] opens a round: *)
Definition startRound (previousValue : Value) (s : Slot) : Slot :=
  set_mNominationProtocol
    (set_mRoundNumber (s32 (mRoundNumber (mNominationProtocol s) + 1))
       (set_mPreviousValue previousValue
          (set_mNominationStarted true (mNominationProtocol s)))) s.

(** What [nominate] does before it looks at the nominations of the leaders: the
    leaders of the round are known, and a leader votes for its own value. *)
Record nominated (v previousValue : Value) (s s1 : Slot) : Prop := {
  no_ballot : mBallotProtocol s1 = mBallotProtocol s;
  no_index : mSlotIndex s1 = mSlotIndex s;
  no_ext : ext_calls s1 = ext_calls s;
  no_outbox : outbox s1 ⊆ outbox s;
  no_started : started s1 = true;
  no_prev : mPreviousValue (mNominationProtocol s1) = previousValue;
  no_leaders : ∀ n, n ∈ mRoundLeaders (mNominationProtocol s) → n ∈ mRoundLeaders (mNominationProtocol s1);
  no_vote : nk s1 =
    if bool_decide (localNodeID ∈ mRoundLeaders (mNominationProtocol s1)) then voteStep v (nk s) else nk s
}.

Lemma nominated_good v prev s s1 :
  SGood s → prev ≠ [] → nominated v prev s s1 →
  strictly_sorted Zcmp (mRoundLeaders (mNominationProtocol s1)) → SGood s1.
Proof.
  intros [HG Hn Hl Hp Hs] Hprev [A1 A2 A3 _ A4 A5 A6 A7] Hs1.
  assert (ck s1 = ck s) as E by (unfold ck; by rewrite A1). split; try done.
  - unfold Good. by rewrite E.
  - rewrite A7. case_bool_decide; [by apply voteStep_inv|done].
  - unfold level. by rewrite A1.
  - by rewrite A5.
Qed.

(** The votes for values of other leaders, and the message that tells the
    network. *)
Section Round.
Context (W : list Value) (knot : SCPEnvelopeWrapper → bool → SM EnvelopeState).

Lemma leaderVotes_wp b leaders s1 s :
  SGood s1 → started s1 = true → NProg W b s1 b s →
  closedValues (mSlotIndex s1) W →
  (∀ n w, (n, w) ∈ nNoms (nk s1) → applyAll (nominate_of (getStatement w)) ⊆ W) →
  wp (foldM (λ updated leader,
        match map_find leader (nNoms (nk s1)) with
        | Some it =>
            let! lnmV := getNewValueFromNomination (nominate_of (getStatement it)) in
            match lnmV with
            | Some w => addVote w ;; driver (nominatingValue w) ;; ret true
            | None => ret updated
            end
        | None => ret updated
        end) leaders b) s (NProg W b s1) okFail.
Proof.
  intros HG Hst HP Hcl Hin. apply wp_foldM; [|done]. intros r leader s2 _ HP2.
  destruct (map_find leader _) as [it|] eqn:Eit; [|by wps].
  apply map_find_Some_elem in Eit. pose proof (np_frame _ _ _ _ _ HP2) as F2. apply leaderVote_wp.
  - eapply NRun_good; [exact HG|]. apply NFrame_run; [done|]. apply HP2.
  - by rewrite (nf_started _ _ F2).
  - done.
  - by eapply Hin.
  - by rewrite (nf_index _ _ F2).
Qed.
End Round.

(** The state once the leaders of the round are known. *)
Lemma leaders_known fuel s s1 :
  strictly_sorted Zcmp (mRoundLeaders (mNominationProtocol s)) →
  (leadersComplete s ∧ s1 = s) ∨ leadersFound fuel leaderQSet s s1 →
  (∃ k leaders, s1 = atRound k leaders s ∧ strictly_sorted Zcmp leaders ∧
     ∀ n, n ∈ mRoundLeaders (mNominationProtocol s) → n ∈ leaders).
Proof.
  intros Hs [[_ ->]|(k & leaders & _ & _ & _ & -> & Hl & Hin)].
  - exists 0%nat, (mRoundLeaders (mNominationProtocol s)). split_and!; try done.
    symmetry. apply later_0.
  - exists k, leaders. split_and!; try done. intros n Hn. apply Hin. by left.
Qed.

Definition nominateFail (rounds : nat) (previousValue : Value) (s : Slot) (f : Failure) : Prop :=
  okFail f ∨
  (f = OutOfFuel ∧ ∀ j, (j < rounds)%nat → noNewLeader leaderQSet (later j (startRound previousValue s))).

Definition nominateBase (s : Slot) (v : Value) : list Value :=
  v :: mVotes (mNominationProtocol s) ++
    concat (map (λ e, applyAll (nominate_of (getStatement e.2)))
              (mLatestNominations (mNominationProtocol s))).

Lemma nominateBase_noms s v n w :
  (n, w) ∈ nNoms (nk s) → applyAll (nominate_of (getStatement w)) ⊆ nominateBase s v.
Proof.
  intros Hin x Hx. right. apply elem_of_app. right. apply list_elem_of_In, in_concat.
  exists (applyAll (nominate_of (getStatement w))). split; [|by apply list_elem_of_In].
  apply (in_map (λ e, applyAll (nominate_of (getStatement e.2)))) with (x := (n, w)).
  by apply list_elem_of_In.
Qed.

(** The message that tells the network about the new votes. *)
Lemma nominate_emit_wp v prev b s s1 r s2 :
  SGood s → SGood s1 → nominated v prev s s1 → (b = true → grew (nk s) (nk s1)) →
  NProg (universe (mSlotIndex s) (nominateBase s v)) b s1 r s2 →
  wp (if r then emitNomination (slotProcessEnvelope (nominateFuel s v)) else ret tt) s2
    (λ _ s', NRun s2 s') okFail.
Proof.
  intros HG HG1 Hno Hb HP. set (W := universe _ _) in *.
  pose proof (NFrame_run _ _ (np_frame _ _ _ _ _ HP) (np_steps _ _ _ _ _ HP)) as HR.
  assert (NMono (nk s) (nk s1)) as Hm1.
  { rewrite (no_vote _ _ _ _ Hno). case_bool_decide; [|done]. split; simpl; try done. by apply vinsert_subseteq. }
  assert (NMono (nk s) (nk s2)) as Hm.
  { destruct Hm1 as [A1 A2 A3 A4], (nsteps_mono _ _ _ (np_steps _ _ _ _ _ HP)) as [B1 B2 B3 B4].
    split; by etrans. }
  destruct r; [|wps; by apply NFrame_run].
  pose proof (measure_universe (mSlotIndex s) (nominateBase s v) (nk s)) as Hlen. fold W in Hlen.
  assert (nominateFuel s v = 4 * length (nominateBase s v) + ballotFuel + 1)%nat as Ef by done.
  apply (emitNomination_wp _ W (measure W (nk s))) with (k0 := nk s).
  - intros w s' HG' Ho HW' Hcl' Hlt. apply (slotProcess_ownNomination W); try done. lia.
  - by eapply NRun_good.
  - apply HP.
  - rewrite (nf_index _ _ (np_frame _ _ _ _ _ HP)), (no_index _ _ _ _ Hno). apply universe_closed.
  - apply HG.
  - done.
  - destruct (np_grew _ _ _ _ _ HP eq_refl) as [Hbt|Hg].
    + eapply grew_mono_r; [by eapply nsteps_mono, HP|auto].
    + eapply grew_mono_l; [exact Hm1|done].
  - rewrite (np_noms _ _ _ _ _ HP), (no_vote _ _ _ _ Hno). by case_bool_decide.
  - done.
Qed.

(** The local node's own value. *)
Lemma nominate_own_wp v prev s s1 :
  SGood s → prev ≠ [] →
  (∃ k leaders, s1 = atRound k leaders (startRound prev s) ∧ strictly_sorted Zcmp leaders ∧
     ∀ n, n ∈ mRoundLeaders (mNominationProtocol s) → n ∈ leaders) →
  wp (if bool_decide (localNodeID ∈ mRoundLeaders (mNominationProtocol s1)) &&
         negb (bool_decide (v ∈ mVotes (mNominationProtocol s1)))
      then addVote v ;; driver (nominatingValue v) ;; ret true else ret false) s1
    (λ b s2, nominated v prev s s2 ∧ SGood s2 ∧ (b = true → grew (nk s) (nk s2)) ∧
       nNoms (nk s2) = nNoms (nk s1) ∧
       mRoundLeaders (mNominationProtocol s2) = mRoundLeaders (mNominationProtocol s1)) okFail.
Proof.
  intros HG Hprev (k & leaders & -> & Hsl & Hin).
  set (s1 := atRound _ _ _). assert (∀ s2, nominated v prev s s2 →
    mRoundLeaders (mNominationProtocol s2) = leaders → SGood s2) as Hgood.
  { intros s2 Hno El. eapply nominated_good; try done. by rewrite El. }
  change (mRoundLeaders (mNominationProtocol s1)) with leaders.
  change (mVotes (mNominationProtocol s1)) with (nVotes (nk s)).
  destruct (decide (localNodeID ∈ leaders)) as [Hl|Hl].
  - rewrite (bool_decide_eq_true_2 (localNodeID ∈ leaders)) by done.
    case_bool_decide as Hv; cbn [andb negb].
    + wps. assert (nominated v prev s s1) as Hno.
      { split; try done. simpl. rewrite bool_decide_eq_true_2 by done. unfold voteStep.
        rewrite set_insert_id; [|apply _|apply (ni_votes _ (sg_nom _ HG))|done]. done. }
      split_and!; try done. by apply Hgood.
    + unfold addVote. wps. set (s2 := set_mDriverCalls _ _).
      assert (nominated v prev s s2) as Hno.
      { split; try done.
        - unfold s2. by rewrite ext_calls_driver, app_nil_r.
        - intros st Hst%outbox_driver. by rewrite app_nil_r in Hst.
        - simpl. by rewrite bool_decide_eq_true_2. }
      split_and!; try done; [by apply Hgood|]. intros _. exists v. left.
      split; [by apply elem_of_vinsert; left|done].
  - rewrite bool_decide_eq_false_2 by done. cbn [andb]. wps.
    assert (nominated v prev s s1) as Hno.
    { split; try done. simpl. by rewrite bool_decide_eq_false_2. }
    split_and!; try done. by apply Hgood.
Qed.

(** From the leaders to the end of [nominate]. *)
Lemma nominate_votes_wp v prev b timeout s s2 :
  SGood s → SGood s2 → nominated v prev s s2 → (b = true → grew (nk s) (nk s2)) →
  wp (let! updated :=
        foldM (λ updated leader,
          match map_find leader (nNoms (nk s2)) with
          | Some it =>
              let! lnmV := getNewValueFromNomination (nominate_of (getStatement it)) in
              match lnmV with
              | Some w => addVote w ;; driver (nominatingValue w) ;; ret true
              | None => ret updated
              end
          | None => ret updated
          end) (mRoundLeaders (mNominationProtocol s2)) b in
      driver (setupTimer NOMINATION_TIMER (Some timeout)) ;;
      (if updated then emitNomination (slotProcessEnvelope (nominateFuel s v)) else ret tt) ;;
      ret updated) s2 (λ _ s', NRun s2 s') okFail.
Proof.
  intros HG HG2 Hno Hb. set (W := universe (mSlotIndex s) (nominateBase s v)).
  assert (nominateBase s v ⊆ W) as Hbase by (intros x Hx; apply elem_of_app; by left).
  assert (nNoms (nk s2) = nNoms (nk s)) as En.
  { rewrite (no_vote _ _ _ _ Hno). by case_bool_decide. }
  apply wp_bind. eapply wp_mono; [apply (leaderVotes_wp W b _ s2); try done| |done].
  - apply Hno.
  - apply NProg_refl. rewrite (no_vote _ _ _ _ Hno). intros x Hx. apply Hbase. revert Hx.
    case_bool_decide; [intros [->|Hx]%elem_of_vinsert|intros Hx]; [by left|right; apply elem_of_app; by left..].
  - rewrite (no_index _ _ _ _ Hno). apply universe_closed.
  - intros n w. rewrite En. intros Hw x Hx. apply Hbase. by eapply nominateBase_noms.
  - intros r s3 HP. wps. set (s4 := set_mDriverCalls _ s3).
    assert (NFrame s3 s4) as F4 by by frame.
    assert (NProg W b s2 r s4) as HP4.
    { destruct HP as [A1 A2 A3 A4 A5]. split; try done. by eapply NFrame_trans. }
    apply wp_bind. eapply wp_mono; [by apply (nominate_emit_wp v prev b s s2)| |done].
    intros ? s5 HR5. wps. eapply NRun_trans; [done| |exact HR5].
    apply NFrame_run; apply HP4.
Qed.

Lemma nominate_wp rounds v previousValue timedout s :
  SGood s → previousValue ≠ [] →
  wp (nominate (slotProcessEnvelope (nominateFuel s v)) (S rounds) v previousValue timedout) s
    (λ r s', if timedout && negb (started s) then r = false ∧ s' = s
             else ∃ s1, nominated v previousValue s s1 ∧ SGood s1 ∧ NRun s1 s')
    (nominateFail (S rounds) previousValue s).
Proof.
  intros HG Hprev. unfold nominate. wps. fold (started s).
  destruct (timedout && negb (started s)); [by wps|]. wps.
  apply wp_bind.
  eapply wp_mono; [apply (updateRoundLeaders_wp local_sane local_typed); [exact Hprev|apply HG]| |].
  2: { intros f Hf. by right. }
  intros _ s1 Hs1%leaders_known; [|apply HG]. wps. cbv zeta. unfold id.
  apply wp_bind.
  eapply wp_mono; [apply (nominate_own_wp v previousValue s s1 HG Hprev Hs1)| |by left].
  intros b s2 (Hno & HG2 & Hb & En & El).
  change (mLatestNominations (mNominationProtocol s1)) with (nNoms (nk s1)). rewrite <- En, <- El.
  eapply wp_mono; [by apply (nominate_votes_wp v previousValue b _ s s2)| |by left].
  intros ? s3 HR. by exists s2.
Qed.

(** A computation that depends on the state it starts from. *)
Lemma wp_own_state {A} (m : Slot → SM A) s Q (E : Failure → Prop) :
  wp (m s) s Q E → wp (λ s, m s s) s Q E.
Proof. done. Qed.

Lemma Slot_nominate_wp rounds v previousValue timedout s :
  SGood s → previousValue ≠ [] →
  wp (Slot_nominate (S rounds) v previousValue timedout) s
    (λ r s', if timedout && negb (started s) then r = false ∧ s' = s
             else ∃ s1, nominated v previousValue s s1 ∧ SGood s1 ∧ NRun s1 s')
    (nominateFail (S rounds) previousValue s).
Proof.
  intros HG Hp. unfold Slot_nominate.
  apply (wp_own_state (λ s, nominate (slotProcessEnvelope (nominateFuel s v)) (S rounds) v
    previousValue timedout)).
  exact (nominate_wp rounds v previousValue timedout s HG Hp).
Qed.

(** ** The ballot timer and the commands of the application *)

Lemma slot_bump_wp (m : (SCPEnvelopeWrapper → bool → SM EnvelopeState) → SM bool) s :
  (∀ knot, (∀ w s, Good s → LevelOk 0 s → ownStatement s (getStatement w) →
      wp (knot w true) s (λ r s', Run s s' ∧ (r = VALID → synced (ck s'))) okFail) →
    wp (m knot) s (λ _ s', Attempt s s') (bumpStateFail (ck s))) →
  wp (m (slotProcessEnvelope ballotFuel)) s (λ _ s', NRun s s') (bumpStateFail (ck s)).
Proof.
  intros H. eapply wp_mono; [apply H| |done].
  - intros w s' HG HL Ho. by apply (slotProcess_own _ 0).
  - intros _ s' [HR _]. by apply Run_NRun.
Qed.

Lemma Slot_bumpState_wp v force s :
  SGood s → wp (Slot_bumpState v force) s (λ _ s', NRun s s') (bumpStateFail (ck s)).
Proof.
  intros HG. apply (slot_bump_wp (λ knot, bumpState knot v force)). intros knot Hk.
  apply (bumpState_wp knot 0 Hk); [apply HG|]. unfold LevelOk. by rewrite (sg_level _ HG).
Qed.

Lemma Slot_abandonBallot_wp s :
  SGood s → wp Slot_abandonBallot s (λ _ s', NRun s s') (bumpStateFail (ck s)).
Proof.
  intros HG. apply (slot_bump_wp (λ knot, abandonBallot knot 0)). intros knot Hk.
  apply (abandonBallot0_wp knot 0 Hk); [apply HG|]. unfold LevelOk. by rewrite (sg_level _ HG).
Qed.

Lemma Slot_ballotTimer_wp s :
  SGood s → wp Slot_ballotTimer s (λ _ s', NRun s s') (bumpStateFail (ck s)).
Proof.
  intros HG. unfold Slot_ballotTimer, ballotProtocolTimerExpired. apply wp_bind.
  eapply wp_mono; [by apply Slot_abandonBallot_wp| |done]. intros ? s' HR. by wps.
Qed.
End Slot.
