(* ===== verification/Examples.v ===== *)
(** * A small network

    Two nodes whose quorum set needs both of them, with an application that accepts
    every value.  The theorems about slots and networks are applied to runs of these
    nodes. *)

From stdpp Require Import prelude list relations.
From Stdlib Require Import ZArith Lia.
From S2P Require Import Prelude Numeric QuorumSet ScpTypes LocalNode Ballots Slot.
From S2P Require Import BallotProtocol BallotVotes BallotSpec BallotRefine Nomination.
From S2P Require Import NominationSpec SlotProcess Leaders SlotSafety.
Local Open Scope Z_scope.

Definition pairQSet : SCPQuorumSet := QSet 2 [1; 2] [].

Definition pairDriver : SCPDriver := {|
  getQSet := λ h, if h =? 7 then Some pairQSet else None;
  validateValue := λ _ _ _, kFullyValidatedValue;
  signEnvelope := λ st, nodeID st;
  extractValidValue := λ _ _, None;
  computeHashNode := λ _ _ isPriority round n, if isPriority then n + round else 0;
  computeValueHash := λ _ _ _ v, Z.of_nat (length v);
  combineCandidates := λ _ values, default [] (head values)
|}.

Definition pairNode (n : NodeID) : LocalNode := {|
  localNodeID := n; isValidator := true; localQuorumSet := pairQSet; localQuorumSetHash := 7
|}.

Lemma pairQSet_typed : qset_typed pairQSet.
Proof. repeat split; vm_compute; congruence. Qed.

Lemma pairOk n : @DriverOk pairDriver (pairNode n).
Proof.
  split.
  - vm_compute. reflexivity.
  - apply pairQSet_typed.
  - intros h q. simpl. destruct (h =? 7); [|done]. intros [= <-]. apply pairQSet_typed.
  - done.
Qed.

(** The state a computation of node [n] ends in. *)
Definition after {A} (m : SM A) (s : Slot) : Slot :=
  match m s with Ok (_, s') => s' | Fail _ => s end.

(** The last message a node sent, as its peer receives it. *)
Definition lastMessage (s : Slot) : SCPEnvelopeWrapper :=
  {| wrapId := -1;
     getEnvelope := List.last
       (omap (λ c, match c with emitEnvelope e => Some e | _ => None end) (mDriverCalls s))
       {| statement := {| nodeID := 0; slotIndex := 0; pledges := ST_NOMINATE
            {| n_quorumSetHash := 0; n_votes := []; n_accepted := [] |} |}; signature := 0 |} |}.

(** The counters of a message, as a test. *)
Definition u32b (z : Z) : bool := (0 <=? z) && (z <=? UINT32_MAX).
Definition ballotb (o : option SCPBallot) : bool :=
  match o with Some b => u32b (counter b) | None => true end.
Definition typedb (st : SCPStatement) : bool :=
  match pledges st with
  | ST_PREPARE p =>
      u32b (counter (p_ballot p)) && ballotb (p_prepared p) && ballotb (p_preparedPrime p) &&
      u32b (p_nC p) && u32b (p_nH p)
  | ST_CONFIRM c =>
      u32b (counter (c_ballot c)) && u32b (c_nPrepared c) && u32b (c_nCommit c) && u32b (c_nH c)
  | ST_EXTERNALIZE e => u32b (counter (e_commit e)) && u32b (e_nH e)
  | ST_NOMINATE _ => true
  end.

Lemma typedb_sound st : typedb st = true → typed_statement st.
Proof.
  assert (∀ z, u32b z = true → in_u32 z) as Hz.
  { intros z [H1%Z.leb_le H2%Z.leb_le]%andb_true_iff. word. }
  assert (∀ o, ballotb o = true → typed_opt o) as Ho.
  { intros [b|] H; [by apply typed_opt_Some, Hz|apply typed_opt_None]. }
  unfold typedb, typed_statement, typed_ballot. destruct (pledges st); try done;
    rewrite !andb_true_iff; intros; destruct_and?; split_and!; auto.
Qed.

(** A slot whose nomination is in its second round with no leader yet. *)
Definition roundSlot : Slot :=
  let n := newNominationProtocol in
  set_mNominationProtocol (set_mRoundNumber 2 (set_mPreviousValue [1] n)) (@newSlot (pairNode 1) 3).

Lemma newRoundLeaders_top_priority_witness :
  @newRoundLeaders pairDriver (pairNode 1) (@leaderQSet (pairNode 1)) roundSlot = Ok ([2], roundSlot) ∧
  (∀ n, n ∈ qset_nodes (@leaderQSet (pairNode 1)) ↔ n ∈ qset_nodes pairQSet ∧ n ≠ 1).
Proof.
  split; [vm_compute; reflexivity|].
  apply (@newRoundLeaders_top_priority pairDriver (pairNode 1) roundSlot);
    [vm_compute; reflexivity|apply pairQSet_typed|vm_compute; congruence].
Defined.

Lemma updateRoundLeaders_first_new_witness :
  ∃ s', @updateRoundLeaders pairDriver (pairNode 1) 1 roundSlot = Ok (tt, s') ∧
    (@leadersComplete (pairNode 1) roundSlot ∧ s' = roundSlot ∨
     @leadersFound pairDriver (pairNode 1) 1 (@leaderQSet (pairNode 1)) roundSlot s').
Proof.
  apply (@updateRoundLeaders_first_new pairDriver (pairNode 1) 1 roundSlot 0);
    [vm_compute; reflexivity|apply pairQSet_typed|vm_compute; congruence|constructor|lia|].
  intros H. specialize (H 2). rewrite later_0 in H. apply (elem_of_nil 2), H.
  split; [right; split; [vm_compute; left|vm_compute; reflexivity]|].
  intros m [->|Hm]; [vm_compute; congruence|]. vm_compute in Hm.
  by apply list_elem_of_singleton in Hm as ->.
Defined.
