(* ===== verification/Events.v ===== *)
(** * Histories of a slot

    The events that reach a slot, the states they lead to from a new slot, and what
    holds of all of them: the state stays well formed, the phase moves forward, the
    application is told at most one value, a quorum stands behind it, and the
    commit statements the node sends all name the same value. *)

From stdpp Require Import prelude list relations.
From Stdlib Require Import ZArith Lia.
From S2P Require Import Prelude Numeric QuorumSet ScpTypes LocalNode Ballots Slot.
From S2P Require Import BallotProtocol BallotVotes BallotSpec BallotRefine Nomination.
From S2P Require Import NominationSpec SlotProcess Leaders SlotSafety Examples.
Local Open Scope Z_scope.

Inductive Event : Type :=
| ReceiveEnvelope (w : SCPEnvelopeWrapper)
| BumpState (v : Value) (force : bool)
| BallotTimer
| AbandonBallot
| Nominate (rounds : nat) (v previousValue : Value) (timedout : bool)
| StopNomination.

Section Events.
Context {D : SCPDriver} {L : LocalNode}.

Definition runEvent (e : Event) : SM unit :=
  match e with
  | ReceiveEnvelope w => Slot_processEnvelope w false ;; ret tt
  | BumpState v force => Slot_bumpState v force ;; ret tt
  | BallotTimer => Slot_ballotTimer
  | AbandonBallot => Slot_abandonBallot ;; ret tt
  | Nominate rounds v previousValue timedout =>
      Slot_nominate (S rounds) v previousValue timedout ;; ret tt
  | StopNomination => stopNomination
  end.

Definition eventOk (s : Slot) (e : Event) : Prop :=
  match e with
  | ReceiveEnvelope w => envelopeOk s w
  | Nominate _ _ previousValue _ => previousValue ≠ []
  | _ => True
  end.

(** How an event may abort. *)
Definition eventFail (e : Event) (s : Slot) (f : Failure) : Prop :=
  match e with
  | ReceiveEnvelope _ => okFail f
  | BumpState _ _ | BallotTimer | AbandonBallot => bumpStateFail (ck s) f
  | Nominate rounds _ previousValue _ => nominateFail (S rounds) previousValue s f
  | StopNomination => False
  end.

(** The part of an event that is not a step of the protocols: the message is
    recorded, the round starts, the nomination stops. *)
Inductive arrived (e : Event) (s s1 : Slot) : Prop :=
| arrived_none : s1 = s → arrived e s s1
| arrived_message w : e = ReceiveEnvelope w → received w s s1 → arrived e s s1
| arrived_nominate rounds v previousValue timedout :
    e = Nominate rounds v previousValue timedout → nominated v previousValue s s1 → arrived e s s1
| arrived_stop :
    e = StopNomination →
    s1 = set_mNominationProtocol (set_mNominationStarted false (mNominationProtocol s)) s →
    arrived e s s1.

(** The invariant of a slot between events. *)
Record SlotInv (s : Slot) : Prop := {
  si_good : SGood s;
  si_own : OwnOk (ck s);
  si_outbox : ∀ st, st ∈ outbox s → said (ck s) st;
  si_ext : ext_calls s = externalized (ck s)
}.

Lemma SlotInv_core s : SlotInv s → CoreInv (ck s).
Proof. intros [HG _ _ _]. apply HG. Qed.

Lemma NRun_inv s s' : SlotInv s → NRun s s' → SlotInv s'.
Proof.
  intros [HG Ho Hs He] HR. pose proof (proj1 (sg_ballot _ HG)) as Hi.
  pose proof (isteps_mono _ _ (nr_steps _ _ HR) Hi) as HM. split.
  - by eapply NRun_good.
  - by eapply isteps_own; [apply HR|..].
  - intros st [Hst|?]%(nr_outbox _ _ HR); [|done]. eapply said_mono; [done|auto].
  - rewrite (nr_ext _ _ HR), He. case_decide as Hp.
    + destruct (mo_ext _ _ HM Hp) as (E1 & _ & _ & _ & _ & E2).
      rewrite app_nil_r. unfold externalized. by rewrite E1, E2.
    + by rewrite externalized_nil.
Qed.

(** What an arrival leaves alone: everything of the ballot state but the
    statements received. *)
Record sameBallots (s s1 : Slot) : Prop := {
  sb_phase : kPhase (ck s1) = kPhase (ck s);
  sb_cur : kCur (ck s1) = kCur (ck s);
  sb_prep : kPrep (ck s1) = kPrep (ck s);
  sb_prime : kPrime (ck s1) = kPrime (ck s);
  sb_high : kHigh (ck s1) = kHigh (ck s);
  sb_commit : kCommit (ck s1) = kCommit (ck s);
  sb_index : mSlotIndex s1 = mSlotIndex s;
  sb_ext : ext_calls s1 = ext_calls s;
  sb_outbox : outbox s1 ⊆ outbox s
}.

Lemma sameBallots_core s s1 :
  ck s1 = ck s → mSlotIndex s1 = mSlotIndex s → ext_calls s1 = ext_calls s →
  outbox s1 ⊆ outbox s → sameBallots s s1.
Proof. intros E ? ? ?. split; by rewrite ?E. Qed.

Lemma arrived_same e s s1 : arrived e s s1 → sameBallots s s1.
Proof.
  destruct 1 as [->|w -> [_ E F|_ E F]|r v p t -> Hn| -> ->].
  - by split.
  - destruct F. by split; rewrite ?E.
  - destruct F as [Fb Fi Fe _ _ _ Fo]. apply sameBallots_core; try done. unfold ck. by rewrite Fb.
  - destruct Hn as [Nb Ni Ne No _ _ _ _]. apply sameBallots_core; try done. unfold ck. by rewrite Nb.
  - by split.
Qed.

Lemma said_same s s1 st : sameBallots s s1 → said (ck s) st → said (ck s1) st.
Proof. intros []. unfold said. destruct (pledges st); by rewrite ?sb_phase0, ?sb_commit0. Qed.

Lemma arrived_envs e s s1 :
  arrived e s s1 →
  kEnvs (ck s1) = kEnvs (ck s) ∨
  ∃ w, e = ReceiveEnvelope w ∧ kEnvs (ck s1) = map_insert (nodeID (getStatement w)) w (kEnvs (ck s)).
Proof.
  destruct 1 as [->|w -> [_ E F|_ E F]|r v p t -> Hn| -> ->]; [by left| |left..|by left].
  - right. exists w. by rewrite E.
  - unfold ck. by rewrite (nf_ballot _ _ F).
  - unfold ck. by rewrite (no_ballot _ _ _ _ Hn).
Qed.

Lemma arrived_nom e s s1 :
  arrived e s s1 →
  nAccepted (nk s1) = mAccepted (mNominationProtocol s) ∧
  nCandidates (nk s1) = mCandidates (mNominationProtocol s).
Proof.
  destruct 1 as [->|w -> [_ E F|_ E F]|r v p t -> Hn| -> ->]; try done.
  - assert (nk s1 = nk s) as -> by (change (ncore (nom s1) = ncore (nom s)); by rewrite (fr_nom _ _ F)).
    done.
  - by rewrite E.
  - rewrite (no_vote _ _ _ _ Hn). by case_bool_decide.
Qed.

Lemma arrived_inv e s s1 : SlotInv s → eventOk s e → arrived e s s1 → SGood s1 → SlotInv s1.
Proof.
  intros [HG Ho Hs He] Hok Ha HG1. pose proof (arrived_same _ _ _ Ha) as Hb. split; [done|..].
  - intros w Hw. apply (said_same s); [done|].
    destruct (arrived_envs _ _ _ Ha) as [E|(w0 & -> & E)]; rewrite E in Hw; [auto|].
    apply elem_of_map_insert in Hw as [[= En ->]|Hw]; [|auto]. apply Hok. done.
  - intros st Hst%(sb_outbox _ _ Hb). apply (said_same s); auto.
  - rewrite (sb_ext _ _ Hb), He. unfold externalized. by rewrite (sb_phase _ _ Hb), (sb_commit _ _ Hb).
Qed.

Lemma stop_good s :
  SGood s →
  SGood (set_mNominationProtocol (set_mNominationStarted false (mNominationProtocol s)) s).
Proof. intros []. by split. Qed.
End Events.

Section Reachable.
Context {D : SCPDriver} {L : LocalNode} {OK : DriverOk}.

Lemma NRun_refl s : NRun s s.
Proof. by apply NFrame_run. Qed.

(** Every event is an arrival followed by steps of the protocols. *)
Lemma runEvent_wp e s :
  SlotInv s → eventOk s e →
  wp (runEvent e) s (λ _ s', ∃ s1, arrived e s s1 ∧ SlotInv s1 ∧ NRun s1 s') (eventFail e s).
Proof.
  intros HI Hok. pose proof (si_good _ HI) as HG.
  assert (∀ s', NRun s s' → ∃ s1, arrived e s s1 ∧ SlotInv s1 ∧ NRun s1 s') as Hrun.
  { intros s' HR. exists s. split; [by apply arrived_none|done]. }
  assert (∀ s1 s', arrived e s s1 → SGood s1 → NRun s1 s' →
    ∃ s1, arrived e s s1 ∧ SlotInv s1 ∧ NRun s1 s') as Harr.
  { intros s1 s' Ha HG1 HR. exists s1. split_and!; try done. by eapply arrived_inv. }
  destruct e as [w|v force| | |rounds v p t|]; cbn [runEvent eventFail].
  - apply wp_bind. eapply wp_mono; [by apply Slot_processEnvelope_wp| |done]. intros [] s' H; wps.
    + subst. apply Hrun, NRun_refl.
    + destruct H as (s1 & Hr & HG1 & HR). eapply Harr; [|done..]. by eapply arrived_message.
  - apply wp_bind. eapply wp_mono; [by apply Slot_bumpState_wp| |done]. intros ? s' H. wps. auto.
  - eapply wp_mono; [by apply Slot_ballotTimer_wp| |done]. intros ? s' H. auto.
  - apply wp_bind. eapply wp_mono; [by apply Slot_abandonBallot_wp| |done]. intros ? s' H. wps. auto.
  - apply wp_bind. eapply wp_mono; [by apply Slot_nominate_wp| |done]. intros r s'.
    destruct (t && negb (started s)).
    + intros [_ ->]. wps. apply Hrun, NRun_refl.
    + intros (s1 & Hn & HG1 & HR). wps. eapply Harr; [|done..]. by eapply arrived_nominate.
  - unfold stopNomination. wps. eapply Harr; [by apply arrived_stop|by apply stop_good|apply NRun_refl].
Qed.

Inductive reachable (i : Z) : Slot → Prop :=
| reachable_new : reachable i (newSlot i)
| reachable_event s e s' :
    reachable i s → eventOk s e → runEvent e s = Ok (tt, s') → reachable i s'.

Lemma newSlot_inv i : SlotInv (newSlot i).
Proof.
  split; [|by intros w ?%elem_of_nil|by intros st ?%elem_of_nil|done].
  split; [split|..]; try done.
  - split; try done; by intros ? ? ?%elem_of_nil || constructor.
  - split; try done; [constructor..| |].
    + by intros ? ? ?%elem_of_nil.
    + by intros ? ?%elem_of_nil.
  - constructor.
Qed.

Lemma reachable_inv i s : reachable i s → SlotInv s.
Proof.
  induction 1 as [|s e s' _ IH Hok Hrun]; [apply newSlot_inv|].
  pose proof (runEvent_wp e s IH Hok) as H. unfold wp in H. rewrite Hrun in H.
  destruct H as (s1 & _ & HI1 & HR). by eapply NRun_inv.
Qed.

(** One event of a reachable slot. *)
Lemma event_steps i s e s' :
  reachable i s → eventOk s e → runEvent e s = Ok (tt, s') →
  ∃ s1, arrived e s s1 ∧ SlotInv s1 ∧ NRun s1 s'.
Proof.
  intros Hr%reachable_inv Hok Hrun. pose proof (runEvent_wp e s Hr Hok) as H.
  unfold wp in H. by rewrite Hrun in H.
Qed.

(** ** What an event changes *)

(** The ballot state moves forward. *)
Record Forward (s s' : Slot) : Prop := {
  fw_phase : phase_index (kPhase (ck s)) ≤ phase_index (kPhase (ck s'));
  fw_ext : kPhase (ck s) = SCP_PHASE_EXTERNALIZE →
    kPhase (ck s') = SCP_PHASE_EXTERNALIZE ∧ kCur (ck s') = kCur (ck s) ∧
    kPrep (ck s') = kPrep (ck s) ∧ kPrime (ck s') = kPrime (ck s) ∧
    kHigh (ck s') = kHigh (ck s) ∧ kCommit (ck s') = kCommit (ck s);
  fw_commit : kPhase (ck s) = SCP_PHASE_CONFIRM → ∀ c, kCommit (ck s) = Some c →
    ∃ c', kCommit (ck s') = Some c' ∧ value c' = value c;
  fw_prep : optionCmp compareBallots (kPrep (ck s)) (kPrep (ck s')) ≤ 0;
  fw_cur : kPhase (ck s) = kPhase (ck s') →
    optionCmp compareBallots (kCur (ck s)) (kCur (ck s')) ≤ 0
}.

Lemma Forward_refl s : Forward s s.
Proof.
  pose proof (cmp_refl (optionCmp compareBallots)) as Hr.
  split; try done; eauto; intros; rewrite ?Hr; lia.
Qed.

Lemma Forward_trans s1 s2 s3 : Forward s1 s2 → Forward s2 s3 → Forward s1 s3.
Proof.
  intros [A1 A2 A3 A4 A5] [B1 B2 B3 B4 B5]. split.
  - lia.
  - intros E. destruct (A2 E) as (E1 & E2 & E3 & E4 & E5 & E6).
    destruct (B2 E1) as (F1 & F2 & F3 & F4 & F5 & F6). split_and!; congruence.
  - intros E c Ec. destruct (A3 E c Ec) as (c' & Ec' & Hv). destruct (kPhase (ck s2)) eqn:E2.
    + rewrite E in A1. by simpl in A1.
    + destruct (B3 eq_refl c' Ec') as (c'' & ? & ?). exists c''. split; [done|congruence].
    + destruct (B2 eq_refl) as (_ & _ & _ & _ & _ & ->). eauto.
  - by eapply (cmp_le_trans (optionCmp compareBallots)).
  - intros E. assert (kPhase (ck s1) = kPhase (ck s2)) as E12.
    { rewrite <- E in B1. assert (phase_index (kPhase (ck s1)) = phase_index (kPhase (ck s2))) as Ei by lia.
      revert Ei. by destruct (kPhase (ck s1)), (kPhase (ck s2)). }
    eapply (cmp_le_trans (optionCmp compareBallots)); [by apply A5|]. apply B5. congruence.
Qed.

Lemma event_forward i s e s' :
  reachable i s → eventOk s e → runEvent e s = Ok (tt, s') → Forward s s'.
Proof.
  intros Hr Hok Hrun. destruct (event_steps _ _ _ _ Hr Hok Hrun) as (s1 & Ha & HI1 & HR).
  destruct (arrived_same _ _ _ Ha) as [E1 E2 E3 E4 E5 E6 _ _ _].
  destruct (isteps_mono _ _ (nr_steps _ _ HR) (SlotInv_core _ HI1)) as [M1 M2 M3 M4 M5 _].
  rewrite E1, E2, E3, E4, E5, E6 in *. split; try done.
  intros E. destruct (M2 E) as (-> & ?). done.
Qed.

(** A sequence of events. *)
Inductive history (i : Z) : Slot → Slot → Prop :=
| history_nil s : history i s s
| history_event s e s1 s2 :
    eventOk s e → runEvent e s = Ok (tt, s1) → history i s1 s2 → history i s s2.

Lemma history_forward i s s' : history i s s' → reachable i s → reachable i s' ∧ Forward s s'.
Proof.
  induction 1 as [|s e s1 s2 Hok Hrun _ IH]; intros Hr; [split; [done|apply Forward_refl]|].
  destruct IH as [Hr2 HF]; [by eapply reachable_event|]. split; [done|].
  eapply Forward_trans; [by eapply event_forward|done].
Qed.

Lemma reachable_index i s : reachable i s → mSlotIndex s = i.
Proof.
  induction 1 as [|s e s' Hr IH Hok Hrun]; [done|].
  destruct (event_steps _ _ _ _ Hr Hok Hrun) as (s1 & Ha & _ & HR).
  by rewrite (nr_index _ _ HR), (sb_index _ _ (arrived_same _ _ _ Ha)).
Qed.

(** ** Evidence *)

(** A statement that commits to [v]. *)
Definition commitsTo (v : Value) (st : SCPStatement) : Prop :=
  match pledges st with
  | ST_CONFIRM c => value (c_ballot c) = v
  | ST_EXTERNALIZE e => value (e_commit e) = v
  | _ => False
  end.

Lemma said_commits k st v :
  said k st → commitsTo v st →
  kPhase k ≠ SCP_PHASE_PREPARE ∧ ∃ b, kCommit k = Some b ∧ value b = v.
Proof.
  unfold said, commitsTo. destruct (pledges st) as [p|c|e|x]; try done.
  - intros (Hp & _ & b & Eb & Hv) <-. split; [done|]. eauto.
  - intros (Hp & b & Eb & Hv) <-. split; [by rewrite Hp|]. eauto.
Qed.

Lemma commitPredicate_commits ballot check st :
  commitPredicate ballot check st = true → commitsTo (value ballot) st.
Proof.
  unfold commitPredicate, commitsTo. destruct (pledges st) as [p|c|e|n]; try done.
  - destruct (areBallotsCompatible ballot (c_ballot c)) eqn:E; [|done].
    by apply compatible_iff in E.
  - destruct (areBallotsCompatible ballot (e_commit e)) eqn:E; [|done].
    by apply compatible_iff in E.
Qed.

(** A quorum of statements of [envs] that commit to [v]. *)
Definition commitQuorum (envs : EnvMap) (v : Value) (U : list NodeID) : Prop :=
  isQuorumSlice localQuorumSet U = true ∧
  ∀ n, n ∈ U → ∃ w q, map_find n envs = Some w ∧ commitsTo v (getStatement w) ∧
    getQuorumSetFromStatement (getStatement w) = Some q ∧ isQuorumSlice q U = true.

Lemma ratify_commitQuorum envs ballot check :
  map_sorted envs → federatedRatify (commitPredicate ballot check) envs = true →
  ∃ U, commitQuorum envs (value ballot) U.
Proof.
  intros Hs H. unfold federatedRatify in H.
  apply (isQuorum_iff envs getQuorumSetFromStatement (getQuorumSet_typed getQSet_typed)) in H;
    [|apply local_typed].
  destruct H as (U & H1 & H2 & H3). exists U. split; [done|]. intros n Hn.
  specialize (H1 n Hn). specialize (H2 n Hn). unfold quorumFilter in H2.
  unfold filterNodes in H1. apply list_elem_of_fmap in H1 as ([n' w] & -> & Hin).
  apply elem_of_filterb in Hin as [Hin Hp]. simpl in *.
  rewrite (map_find_elem _ _ _ Hs Hin) in *.
  destruct (getQuorumSetFromStatement (getStatement w)) as [q|] eqn:Eq; [|done].
  exists w, q. split_and!; try done. by eapply commitPredicate_commits.
Qed.

(** The evidence for an externalized value: a state of the run whose statements of
    other nodes are the current ones. *)
Lemma externalize_evidence i s e s' :
  reachable i s → eventOk s e → runEvent e s = Ok (tt, s') →
  kPhase (ck s) ≠ SCP_PHASE_EXTERNALIZE → kPhase (ck s') = SCP_PHASE_EXTERNALIZE →
  ∃ k c U, Mono k (ck s') ∧ OwnOk k ∧ kPhase k = SCP_PHASE_CONFIRM ∧
    kCommit (ck s') = Some c ∧ commitQuorum (kEnvs k) (value c) U.
Proof.
  intros Hr Hok Hrun Hn He. destruct (event_steps _ _ _ _ Hr Hok Hrun) as (s1 & Ha & HI1 & HR).
  rewrite <- (sb_phase _ _ (arrived_same _ _ _ Ha)) in Hn.
  destruct (isteps_externalize _ _ (nr_steps _ _ HR) Hn He) as (k & c & h & R1 & R2 & R3 & Hp & Hv & _ & Hq).
  pose proof (SlotInv_core _ HI1) as Hi1. pose proof (isteps_inv _ _ R1 Hi1) as Hik.
  pose proof (istep_inv _ _ R3 Hik) as Hik2. pose proof (isteps_mono _ _ R2 Hik2) as HM2.
  assert (Typed k) as HT by (eapply isteps_typed; [exact R1|apply (si_good _ HI1)]).
  destruct (ratify_commitQuorum _ _ _ (ty_sorted _ HT) Hq) as [U HU].
  destruct (confirmCommitCore_frame c h k) as (C1 & _ & _ & _ & C5).
  destruct (mo_ext _ _ HM2 C1) as (_ & _ & _ & _ & _ & Ec).
  exists k, c, U. split_and!.
  - eapply Mono_trans; [by apply istep_mono|done].
  - eapply isteps_own; [exact R1|done|apply HI1].
  - done.
  - by rewrite Ec, C5.
  - by rewrite Hv.
Qed.
End Reachable.

(** ** Runs of the example nodes *)

Definition pairRun (n : NodeID) (e : Event) (s : Slot) : Slot :=
  after (@runEvent pairDriver (pairNode n) e) s.

(** Both nodes propose a value, then they send each other their last message. *)
Definition pairNew (n : NodeID) : Slot := @newSlot (pairNode n) 3.
Definition propose : Event := BumpState [5] false.
Definition from (s : Slot) : Event := ReceiveEnvelope (lastMessage s).

Definition a1 : Slot := Eval vm_compute in pairRun 1 propose (pairNew 1).
Definition b1 : Slot := Eval vm_compute in pairRun 2 propose (pairNew 2).
Definition b2 : Slot := Eval vm_compute in pairRun 2 (from a1) b1.
Definition a2 : Slot := Eval vm_compute in pairRun 1 (from b2) a1.
Definition b3 : Slot := Eval vm_compute in pairRun 2 (from a2) b2.
Definition a3 : Slot := Eval vm_compute in pairRun 1 (from b3) a2.
Definition b4 : Slot := Eval vm_compute in pairRun 2 (from a3) b3.

(** Both nodes nominate; node 2 is the leader, node 1 takes its value. *)
Definition d1 : Slot := Eval vm_compute in pairRun 2 (Nominate 0 [9] [1] false) (pairNew 2).
Definition c1 : Slot := Eval vm_compute in pairRun 1 (Nominate 0 [8] [1] false) (pairNew 1).
Definition c2 : Slot := Eval vm_compute in pairRun 1 (from d1) c1.
Definition d2 : Slot := Eval vm_compute in pairRun 2 (from c2) d1.

(** A message of the peer is acceptable. *)
Lemma pair_eventOk n s s0 :
  nodeID (getStatement (lastMessage s0)) ≠ n →
  slotIndex (getStatement (lastMessage s0)) = mSlotIndex s →
  typedb (getStatement (lastMessage s0)) = true → @eventOk (pairNode n) s (from s0).
Proof. intros Hn Hi Ht. split_and!; [done|by apply typedb_sound|done..]. Qed.

Ltac pair_ok := apply pair_eventOk; vm_compute; congruence || reflexivity.
Ltac pair_reach H e :=
  apply (reachable_event 3 _ e _ H); [first [done|pair_ok]|vm_compute; reflexivity].

Lemma a1_reachable : @reachable pairDriver (pairNode 1) 3 a1.
Proof. pair_reach (@reachable_new pairDriver (pairNode 1) 3) propose. Qed.

Lemma a2_reachable : @reachable pairDriver (pairNode 1) 3 a2.
Proof. pair_reach a1_reachable (from b2). Qed.

Lemma a3_reachable : @reachable pairDriver (pairNode 1) 3 a3.
Proof. pair_reach a2_reachable (from b3). Qed.

Lemma d1_reachable : @reachable pairDriver (pairNode 2) 3 d1.
Proof. pair_reach (@reachable_new pairDriver (pairNode 2) 3) (Nominate 0 [9] [1] false). Qed.

Section Properties.
Context {D : SCPDriver} {L : LocalNode} {OK : DriverOk}.



(** C4: refinement.  An event that completes records its message (or starts a
    round, or stops the nomination) and then performs steps of the two abstract
    protocols, in which every acceptance and confirmation is licensed by a
    federated vote over the recorded statements. *)
Theorem event_refines i s e s' :
  reachable i s → eventOk s e → runEvent e s = Ok (tt, s') →
  ∃ s1, arrived e s s1 ∧ isteps (ck s1) (ck s') ∧ nsteps i (nk s1) (nk s').
Proof.
  intros Hr Hok Hrun. destruct (event_steps _ _ _ _ Hr Hok Hrun) as (s1 & Ha & HI1 & HR).
  exists s1. split_and!; [done|apply HR|].
  rewrite <- (reachable_index _ _ Hr), <- (sb_index _ _ (arrived_same _ _ _ Ha)). apply HR.
Qed.

(** C7: along any history the phase never moves back, an externalized slot keeps
    all its ballots, a slot in CONFIRM keeps the value it committed to, [p] never
    decreases, and [b] never decreases within a phase. *)
Theorem history_moves_forward i s s' : reachable i s → history i s s' → Forward s s'.
Proof. intros Hr Hh. by apply (history_forward i s s' Hh Hr). Qed.

(** The application is told exactly the externalized value: nothing before
    the EXTERNALIZE phase, and then the value of the commit, once. *)
Theorem externalizes_once i s :
  reachable i s →
  ext_calls s = match kPhase (ck s), kCommit (ck s) with
                | SCP_PHASE_EXTERNALIZE, Some c => [value c]
                | _, _ => []
                end.
Proof. intros Hr%reachable_inv. apply Hr. Qed.

(** C6: a value is externalized only with a quorum behind it: the event that
    externalizes [c] has seen statements of a set of nodes that satisfies the
    local quorum set, each committing to the value of [c] and announcing a quorum
    set satisfied by the set; those of other nodes are the recorded ones. *)
Theorem externalize_has_quorum i s e s' :
  reachable i s → eventOk s e → runEvent e s = Ok (tt, s') →
  kPhase (ck s) ≠ SCP_PHASE_EXTERNALIZE → kPhase (ck s') = SCP_PHASE_EXTERNALIZE →
  ∃ c envs U, kCommit (ck s') = Some c ∧ others envs = others (mLatestEnvelopes (mBallotProtocol s')) ∧
    commitQuorum envs (value c) U.
Proof.
  intros Hr Hok Hrun Hn He.
  destruct (externalize_evidence _ _ _ _ Hr Hok Hrun Hn He) as (k & c & U & HM & _ & _ & Hc & HU).
  exists c, (kEnvs k), U. split_and!; [done| |done]. symmetry. apply (mo_others _ _ HM).
Qed.

(** The node never contradicts itself: the CONFIRM and EXTERNALIZE statements
    it sends for a slot all commit to the same value. *)
Theorem commit_statements_agree i s st1 st2 v1 v2 :
  reachable i s → st1 ∈ emitted s → st2 ∈ emitted s →
  commitsTo v1 st1 → commitsTo v2 st2 → v1 = v2.
Proof.
  intros Hr%reachable_inv H1 H2 C1 C2.
  assert (∀ st, st ∈ emitted s → said (ck s) st) as Hs.
  { intros st Hst. apply (si_outbox _ Hr), elem_of_app. by left. }
  destruct (said_commits _ _ _ (Hs _ H1) C1) as (_ & b1 & E1 & <-).
  destruct (said_commits _ _ _ (Hs _ H2) C2) as (_ & b2 & E2 & <-). congruence.
Qed.

(** C8: a value is nominated as accepted only if the application validates it and
    a blocking set accepted it or a quorum voted for or accepted it; it becomes a
    candidate only when a quorum accepted it. *)
Theorem nomination_justified i s e s' v :
  reachable i s → eventOk s e → runEvent e s = Ok (tt, s') →
  let noms := mLatestNominations (mNominationProtocol s') in
  (v ∈ mAccepted (mNominationProtocol s') → v ∉ mAccepted (mNominationProtocol s) →
     validateValue i v true = kFullyValidatedValue ∧
     ∃ envs, others envs = others noms ∧
       federatedAccept (votesForValue v) (acceptPredicate v) envs = true) ∧
  (v ∈ mCandidates (mNominationProtocol s') → v ∉ mCandidates (mNominationProtocol s) →
     ∃ envs, others envs = others noms ∧ federatedRatify (acceptPredicate v) envs = true).
Proof.
  intros Hr Hok Hrun noms. destruct (event_steps _ _ _ _ Hr Hok Hrun) as (s1 & Ha & HI1 & HR).
  destruct (arrived_nom _ _ _ Ha) as [Ea Ec]. pose proof (nr_nom _ _ HR) as Hn.
  rewrite (sb_index _ _ (arrived_same _ _ _ Ha)), (reachable_index _ _ Hr) in Hn. split.
  - intros H1 H2. rewrite <- Ea in H2.
    destruct (nsteps_accepted _ _ _ _ Hn H1 H2) as (k1 & Eo & Hv & Hf). eauto.
  - intros H1 H2. rewrite <- Ec in H2.
    destruct (nsteps_candidate _ _ _ _ Hn H1 H2) as (k1 & Eo & Hf). eauto.
Qed.
End Properties.



Lemma event_refines_witness :
  ∃ s1, @arrived (pairNode 1) (from b3) a2 s1 ∧
    @isteps pairDriver (pairNode 1) (ck s1) (ck a3) ∧ @nsteps pairDriver (pairNode 1) 3 (nk s1) (nk a3).
Proof.
  apply (@event_refines pairDriver (pairNode 1) (pairOk 1) 3 a2 (from b3) a3);
    [apply a2_reachable|pair_ok|vm_compute; reflexivity].
Defined.

Lemma history_moves_forward_witness : Forward a1 a3.
Proof.
  apply (@history_moves_forward pairDriver (pairNode 1) (pairOk 1) 3 a1 a3); [apply a1_reachable|].
  eapply (history_event 3 _ (from b2) a2); [pair_ok|vm_compute; reflexivity|].
  eapply (history_event 3 _ (from b3) a3); [pair_ok|vm_compute; reflexivity|]. apply history_nil.
Defined.

Lemma externalizes_once_witness : ext_calls a3 = [[5]].
Proof. apply (@externalizes_once pairDriver (pairNode 1) (pairOk 1) 3 a3), a3_reachable. Defined.

Lemma externalize_has_quorum_witness :
  ∃ c envs U, kCommit (ck a3) = Some c ∧
    @others (pairNode 1) envs = @others (pairNode 1) (mLatestEnvelopes (mBallotProtocol a3)) ∧
    @commitQuorum pairDriver (pairNode 1) envs (value c) U.
Proof.
  apply (@externalize_has_quorum pairDriver (pairNode 1) (pairOk 1) 3 a2 (from b3) a3);
    [apply a2_reachable|pair_ok|vm_compute; reflexivity|vm_compute; congruence|vm_compute; reflexivity].
Defined.

Lemma commit_statements_agree_witness : [5] = [5].
Proof.
  apply (@commit_statements_agree pairDriver (pairNode 1) (pairOk 1) 3 a3
    (getStatement (lastMessage a3)) (getStatement (lastMessage a3)));
    [apply a3_reachable|vm_compute; repeat first [left|right]..|vm_compute; reflexivity|
     vm_compute; reflexivity].
Defined.

Lemma nomination_justified_witness :
  mAccepted (mNominationProtocol d2) = [[9]] ∧
  ∃ envs, @others (pairNode 2) envs =
      @others (pairNode 2) (mLatestNominations (mNominationProtocol d2)) ∧
    @federatedAccept pairDriver (pairNode 2) (votesForValue [9]) (acceptPredicate [9]) envs = true.
Proof.
  split; [vm_compute; reflexivity|].
  apply (@nomination_justified pairDriver (pairNode 2) (pairOk 2) 3 d1 (from c2) d2 [9]);
    [apply d1_reachable|pair_ok|vm_compute; reflexivity|vm_compute; left|].
  vm_compute. by intros ?%elem_of_nil.
Defined.

(** ** Messages that abort the node *)

Definition peerSays (pl : SCPPledges) : Event :=
  ReceiveEnvelope {| wrapId := -1; getEnvelope := {|
    statement := {| nodeID := 2; slotIndex := 3; pledges := pl |}; signature := 2 |} |}.

(** A vote to prepare the last ballot of a value. *)
Definition lastBallot : SCPPledges :=
  ST_PREPARE {| p_quorumSetHash := 7; p_ballot := mkBallot UINT32_MAX [5]; p_prepared := None;
    p_preparedPrime := None; p_nC := 0; p_nH := 0 |}.

(** A statement that confirms counters 0. *)
Definition zeroConfirm : SCPPledges :=
  ST_CONFIRM {| c_ballot := mkBallot 1 [5]; c_nPrepared := 0; c_nCommit := 0; c_nH := 0;
    c_quorumSetHash := 7 |}.

Lemma peerSays_ok pl s :
  typedb {| nodeID := 2; slotIndex := 3; pledges := pl |} = true → mSlotIndex s = 3 →
  @eventOk (pairNode 1) s (peerSays pl).
Proof. intros Ht Hi. split_and!; [done|by apply typedb_sound|done..]. Qed.

(** A peer that blocks the node can make it move to the last ballot counter;
    the next timeout wraps the counter to 0 and trips the assertion of
    [updateCurrentValue] before the branch that handles a smaller ballot. *)
Theorem timeout_after_last_counter_aborts :
  ∃ s, @reachable pairDriver (pairNode 1) 3 s ∧
    mCurrentBallot (mBallotProtocol s) = Some (mkBallot UINT32_MAX [5]) ∧
    @runEvent pairDriver (pairNode 1) BallotTimer s =
      Fail (DbgAssert Assert_updateCurrentValue_monotone).
Proof.
  exists (pairRun 1 (peerSays lastBallot) a1). split; [|split; vm_compute; reflexivity].
  apply (reachable_event 3 a1 (peerSays lastBallot)); [apply a1_reachable| |vm_compute; reflexivity].
  by apply peerSays_ok.
Qed.

