(* ===== verification/Agreement.v ===== *)
(** * Agreement between nodes

    A network of nodes for one slot.  The correct nodes run the program; what they
    receive in the name of a correct node was sent by it, the other messages are
    arbitrary.  When any two quorums share a correct node, no two correct nodes
    externalize different values. *)

From stdpp Require Import prelude list relations.
From Stdlib Require Import ZArith Lia.
From S2P Require Import Prelude Numeric QuorumSet ScpTypes LocalNode Ballots Slot.
From S2P Require Import BallotProtocol BallotVotes BallotSpec BallotRefine Nomination.
From S2P Require Import NominationSpec SlotProcess Leaders SlotSafety Examples Events.
Local Open Scope Z_scope.

(** A correct node: its application and its configuration. *)
Record Node : Type := {
  nd_driver : SCPDriver;
  nd_local : LocalNode;
  nd_ok : @DriverOk nd_driver nd_local
}.
#[export] Existing Instance nd_ok.

Definition nd_qset (N : Node) : SCPQuorumSet := @localQuorumSet (nd_local N).

Section Network.
Context (i : Z) (nodes : NodeID → option Node).

Definition correct (n : NodeID) : Prop := is_Some (nodes n).

(** The slots of the correct nodes. *)
Definition GState : Type := NodeID → Slot.

Definition upd (g : GState) (n : NodeID) (s : Slot) : GState := λ m, if m =? n then s else g m.

(** A message in the name of another correct node was sent by it. *)
Definition authentic (g : GState) (n : NodeID) (e : Event) : Prop :=
  ∀ w, e = ReceiveEnvelope w → nodeID (getStatement w) ≠ n → correct (nodeID (getStatement w)) →
    getStatement w ∈ emitted (g (nodeID (getStatement w))).

Inductive gstep (g : GState) : GState → Prop :=
| gstep_event n N e s' :
    nodes n = Some N → @eventOk (nd_local N) (g n) e → authentic g n e →
    @runEvent (nd_driver N) (nd_local N) e (g n) = Ok (tt, s') →
    gstep g (upd g n s').

(** Every correct node starts with a new slot. *)
Definition ginit (g : GState) : Prop :=
  ∀ n N, nodes n = Some N → g n = @newSlot (nd_local N) i.

Definition greachable (g : GState) : Prop := ∃ g0, ginit g0 ∧ rtc gstep g0 g.

(** The identities are those of the network, and a quorum set hash identifies the
    quorum set. *)
Hypothesis Hid : ∀ n N, nodes n = Some N → @localNodeID (nd_local N) = n.
Hypothesis Hhash : ∀ n N m M q, nodes n = Some N → nodes m = Some M →
  @getQSet (nd_driver N) (@localQuorumSetHash (nd_local M)) = Some q → q = nd_qset M.

(** A quorum of the correct nodes' configurations that satisfies node [n]. *)
Definition gquorum (n : NodeID) (U : list NodeID) : Prop :=
  (∀ N, nodes n = Some N → isQuorumSlice (nd_qset N) U = true) ∧
  ∀ m M, m ∈ U → nodes m = Some M → isQuorumSlice (nd_qset M) U = true.

Definition committed (s : Slot) (v : Value) : Prop :=
  kPhase (ck s) ≠ SCP_PHASE_PREPARE ∧ ∃ c, kCommit (ck s) = Some c ∧ value c = v.

Lemma committed_forward s s' v : Forward s s' → committed s v → committed s' v.
Proof.
  intros [F1 F2 F3 _ _] (Hp & c & Ec & <-). unfold committed. destruct (kPhase (ck s)) eqn:Ep; [done| |].
  - split; [by intros E; rewrite E in F1|]. by apply F3.
  - destruct (F2 eq_refl) as (-> & _ & _ & _ & _ & ->). eauto.
Qed.

Lemma said_forward {L : LocalNode} s s' st : Forward s s' → said (ck s) st → said (ck s') st.
Proof.
  intros [F1 F2 F3 _ _]. unfold said. destruct (pledges st) as [p|c|e|x]; try done.
  - intros (Hp & Hq & b & Eb & Hv). destruct (kPhase (ck s)) eqn:Ep; [done| |].
    + split_and!; [by intros E; rewrite E in F1|done|].
      destruct (F3 eq_refl b Eb) as (b' & Eb' & Hv'). exists b'. split; [done|congruence].
    + destruct (F2 eq_refl) as (-> & _ & _ & _ & _ & ->). eauto.
  - intros (Hp & b & Eb & Hv). destruct (F2 Hp) as (-> & _ & _ & _ & _ & ->). eauto.
Qed.

(** The invariant: the statements a node holds from correct nodes tell the truth,
    and an externalized value has a quorum of correct nodes behind it. *)
Record GInv (g : GState) : Prop := {
  gi_reach : ∀ n N, nodes n = Some N → @reachable (nd_driver N) (nd_local N) i (g n);
  gi_heard : ∀ n N m M w, nodes n = Some N → nodes m = Some M →
    (m, w) ∈ kEnvs (ck (g n)) → @said (nd_local M) (ck (g m)) (getStatement w);
  gi_backed : ∀ n N c, nodes n = Some N →
    kPhase (ck (g n)) = SCP_PHASE_EXTERNALIZE → kCommit (ck (g n)) = Some c →
    ∃ U, gquorum n U ∧ ∀ m, m ∈ U → correct m → committed (g m) (value c)
}.

Lemma slice_mono m M U V :
  nodes m = Some M → U ⊆ V → isQuorumSlice (nd_qset M) U = true → isQuorumSlice (nd_qset M) V = true.
Proof. intros _ HU. apply isQuorumSlice_mono; [apply (@local_typed _ _ (nd_ok M))|done]. Qed.

Definition backs (g : GState) (v : Value) (U : list NodeID) : Prop :=
  ∀ m, m ∈ U → correct m → committed (g m) v.

(** The nodes of [l] have a slice in [U] or a quorum behind them: [U] extended with
    those quorums. *)
Lemma collect_quorums g v (U l : list NodeID) :
  (∀ m M, m ∈ l → nodes m = Some M →
     isQuorumSlice (nd_qset M) U = true ∨ ∃ V, gquorum m V ∧ backs g v V) →
  ∃ W, U ⊆ W ∧
    (∀ m M, m ∈ l → nodes m = Some M → isQuorumSlice (nd_qset M) W = true) ∧
    (∀ x X, x ∈ W → nodes x = Some X →
       x ∈ U ∨ (isQuorumSlice (nd_qset X) W = true ∧ committed (g x) v)).
Proof.
  induction l as [|m l IH]; intros Hl.
  { exists U. split_and!; [done|by intros ? ? ?%elem_of_nil|]. by left. }
  destruct IH as (W & H1 & H2 & H3); [intros; apply Hl; [by right|done]|].
  assert (∃ V, backs g v V ∧
    (∀ M, nodes m = Some M → isQuorumSlice (nd_qset M) (V ++ W) = true) ∧
    (∀ x X, x ∈ V → nodes x = Some X → isQuorumSlice (nd_qset X) V = true)) as (V & V1 & V2 & V3).
  { destruct (nodes m) as [M|] eqn:Em; [|by exists []; split_and!; [intros ? ?%elem_of_nil|..];
      try done; intros ? ? ?%elem_of_nil].
    destruct (Hl m M ltac:(left) Em) as [Hs|(V & [Q1 Q2] & Hb)].
    - exists []. split_and!; [by intros ? ?%elem_of_nil| |by intros ? ? ?%elem_of_nil].
      intros M' [= <-]. by apply (slice_mono m M U).
    - exists V. split_and!; try done. intros M' [= <-].
      apply (slice_mono m M V); [done|set_solver|by apply Q1]. }
  exists (V ++ W). split_and!.
  - set_solver.
  - intros m' M' [->|Hm']%elem_of_cons E'; [by apply V2|].
    apply (slice_mono m' M' W); [done|set_solver|by apply (H2 m')].
  - intros x X [Hx|Hx]%elem_of_app EX.
    + right. split; [|apply V1; [done|by exists X]].
      apply (slice_mono x X V); [done|set_solver|by apply (V3 x)].
    + destruct (H3 x X Hx EX) as [?|[? ?]]; [by left|right]. split; [|done].
      apply (slice_mono x X W); [done|set_solver|done].
Qed.

(** A quorum of statements that commit to [v], heard by a correct node, gives a
    quorum of correct nodes that have committed to [v]. *)
Lemma heard_backed g n N envs v U :
  nodes n = Some N →
  (∀ m M w, nodes m = Some M → (m, w) ∈ envs → @said (nd_local M) (ck (g m)) (getStatement w)) →
  (∀ m M w e b, nodes m = Some M → (m, w) ∈ envs → pledges (getStatement w) = ST_EXTERNALIZE e →
     kPhase (ck (g m)) = SCP_PHASE_EXTERNALIZE → kCommit (ck (g m)) = Some b →
     ∃ V, gquorum m V ∧ backs g (value b) V) →
  @commitQuorum (nd_driver N) (nd_local N) envs v U →
  ∃ W, gquorum n W ∧ backs g v W.
Proof.
  intros EN Hheard Hback [HU1 HU2].
  assert (∀ m M, m ∈ U → nodes m = Some M → committed (g m) v) as HUc.
  { intros m M Hm EM. destruct (HU2 m Hm) as (w & q & Hw & Hc & _).
    apply map_find_Some_elem in Hw. by eapply said_commits; [eapply Hheard|]. }
  destruct (collect_quorums g v U U) as (W & W1 & W2 & W3).
  - intros m M Hm EM. destruct (HU2 m Hm) as (w & q & Hw & Hc & Hq & Hs).
    apply map_find_Some_elem in Hw. specialize (Hheard m M w EM Hw).
    specialize (Hback m M w). unfold said, commitsTo, getQuorumSetFromStatement in *.
    destruct (pledges (getStatement w)) as [p|c|e|x]; try done.
    + left. destruct Hheard as (_ & Hh & _). rewrite Hh in Hq.
      by rewrite <- (Hhash n N m M q EN EM Hq).
    + right. destruct Hheard as (Hp & b & Eb & Hv).
      destruct (Hback e b EM Hw eq_refl Hp Eb) as (V & HV1 & HV2). exists V. split; [done|].
      by rewrite <- Hc, <- Hv.
  - exists W. split; [split|].
    + intros N' EN'. rewrite EN in EN'. injection EN' as <-. by apply (slice_mono n N U).
    + intros m M Hm EM. destruct (W3 m M Hm EM) as [?|[? _]]; [by eapply W2|done].
    + intros m Hm [M EM]. destruct (W3 m M Hm EM) as [?|[_ ?]]; [by eapply HUc|done].
Qed.

Section Step.
Context (g : GState) (n : NodeID) (N : Node) (e : Event) (s' : Slot).
Hypothesis HI : GInv g.
Hypothesis EN : nodes n = Some N.
Hypothesis Hok : @eventOk (nd_local N) (g n) e.
Hypothesis Hauth : authentic g n e.
Hypothesis Hrun : @runEvent (nd_driver N) (nd_local N) e (g n) = Ok (tt, s').

Lemma upd_forward m M : nodes m = Some M → Forward (g m) (upd g n s' m).
Proof.
  intros EM. unfold upd. destruct (Z.eqb_spec m n) as [->|_]; [|apply Forward_refl].
  apply (@event_forward _ _ (nd_ok N) i _ e); [by apply (gi_reach g HI)|done..].
Qed.

(** The statements of other correct nodes that [n] holds after the event. *)
Lemma upd_heard m M w :
  nodes m = Some M → m ≠ n → (m, w) ∈ kEnvs (ck s') → @said (nd_local M) (ck (g m)) (getStatement w).
Proof.
  intros EM Hm Hw.
  destruct (@event_steps _ _ (nd_ok N) i (g n) e s' (gi_reach g HI n N EN) Hok Hrun)
    as (s1 & Ha & HI1 & HR).
  pose proof (mo_others _ _ (isteps_mono _ _ (nr_steps _ _ HR) (SlotInv_core _ HI1))) as Eo.
  assert ((m, w) ∈ kEnvs (ck s1)) as Hw1.
  { assert ((m, w) ∈ @others (nd_local N) (kEnvs (ck s'))) as H.
    { apply elem_of_filterb. split; [done|]. simpl. rewrite (Hid n N EN). by rewrite (proj2 (Z.eqb_neq m n)). }
    rewrite Eo in H. by apply elem_of_filterb in H as [? _]. }
  destruct (arrived_envs _ _ _ Ha) as [E|(w0 & -> & E)]; rewrite E in Hw1.
  - by eapply (gi_heard g HI n N m M).
  - apply elem_of_map_insert in Hw1 as [[= E1 E2]|Hw1]; [|by eapply (gi_heard g HI n N m M)].
    subst w. assert (getStatement w0 ∈ emitted (g m)) as He.
    { rewrite E1. apply Hauth; [done|congruence|]. rewrite <- E1. by exists M. }
    apply (si_outbox _ (@reachable_inv _ _ (nd_ok M) _ _ (gi_reach g HI m M EM))). apply elem_of_app. by left.
Qed.
Lemma upd_eq : upd g n s' n = s'.
Proof. unfold upd. by rewrite Z.eqb_refl. Qed.

Lemma upd_ne m : m ≠ n → upd g n s' m = g m.
Proof. intros H. unfold upd. by rewrite (proj2 (Z.eqb_neq m n)). Qed.

Lemma upd_reach : @reachable (nd_driver N) (nd_local N) i s'.
Proof. eapply reachable_event; [by apply (gi_reach g HI)|done..]. Qed.

(** What [n] holds after the event is true of the other nodes, and of itself. *)
Lemma upd_said envs m M w k :
  nodes m = Some M → @OwnOk (nd_local N) k → @Mono (nd_local N) k (ck s') → kEnvs k = envs → (m, w) ∈ envs →
  (m ≠ n → (m, w) ∈ kEnvs (ck s')) →
  @said (nd_local M) (ck (upd g n s' m)) (getStatement w).
Proof.
  intros EM Ho HM <- Hw Hin. destruct (decide (m = n)) as [->|Hm].
  - rewrite upd_eq. rewrite EN in EM. injection EM as <-.
    eapply said_mono; [exact HM|]. apply Ho. by rewrite (Hid n N EN).
  - rewrite upd_ne by done. eapply upd_heard; auto.
Qed.

Lemma backs_upd v V : backs g v V → backs (upd g n s') v V.
Proof. intros Hb m Hm [M EM]. eapply committed_forward; [by eapply upd_forward|]. apply Hb; [done|by exists M]. Qed.

(** The node's new value has a quorum behind it. *)
Lemma upd_externalized c :
  kPhase (ck (g n)) ≠ SCP_PHASE_EXTERNALIZE → kPhase (ck s') = SCP_PHASE_EXTERNALIZE →
  kCommit (ck s') = Some c → ∃ W, gquorum n W ∧ backs (upd g n s') (value c) W.
Proof.
  intros Hn He Hc.
  destruct (@externalize_evidence _ _ (nd_ok N) i (g n) e s' (gi_reach g HI n N EN) Hok Hrun Hn He)
    as (k & c' & U & HM & Ho & Hp & Hc' & HU).
  assert (c' = c) as -> by congruence.
  assert (∀ m w, m ≠ n → (m, w) ∈ kEnvs k → (m, w) ∈ kEnvs (ck s')) as Hoth.
  { intros m w Hm Hw. assert ((m, w) ∈ @others (nd_local N) (kEnvs k)) as H.
    { apply elem_of_filterb. split; [done|]. simpl. rewrite (Hid n N EN). by rewrite (proj2 (Z.eqb_neq m n)). }
    rewrite <- (mo_others _ _ HM) in H. by apply elem_of_filterb in H as [? _]. }
  apply (heard_backed _ n N (kEnvs k) (value c) U EN); [| |done].
  - intros m M w EM Hw. by eapply upd_said; auto.
  - intros m M w x b EM Hw Hx Hpm Hb. destruct (decide (m = n)) as [->|Hm].
    + exfalso. assert (@said (nd_local N) k (getStatement w)) as Hs.
      { apply Ho. by rewrite (Hid n N EN). }
      unfold said in Hs. rewrite Hx, Hp in Hs. by destruct Hs.
    + rewrite upd_ne in Hpm, Hb by done.
      destruct (gi_backed g HI m M b EM Hpm Hb) as (V & HV1 & HV2). exists V. split; [done|].
      by apply backs_upd.
Qed.

Lemma upd_inv : GInv (upd g n s').
Proof.
  split.
  - intros m M EM. destruct (decide (m = n)) as [->|Hm].
    + rewrite upd_eq. rewrite EN in EM. injection EM as <-. apply upd_reach.
    + rewrite upd_ne by done. by apply (gi_reach g HI).
  - intros m M x X w EM EX Hw. destruct (decide (m = n)) as [->|Hm].
    + rewrite upd_eq in Hw. eapply (upd_said (kEnvs (ck s')) x X w (ck s')); try done.
      * apply (@reachable_inv _ _ (nd_ok N) _ _ upd_reach).
      * apply Mono_refl.
    + rewrite upd_ne in Hw by done. eapply said_forward; [by eapply upd_forward|].
      by eapply (gi_heard g HI m M).
  - intros m M c EM Hp Hc. destruct (decide (m = n)) as [->|Hm].
    + rewrite upd_eq in Hp, Hc. rewrite EN in EM. injection EM as <-.
      destruct (decide (kPhase (ck (g n)) = SCP_PHASE_EXTERNALIZE)) as [E0|E0];
        [|by apply upd_externalized].
      pose proof (upd_forward n N EN) as [_ F _ _ _]. rewrite upd_eq in F.
      destruct (F E0) as (_ & _ & _ & _ & _ & Ec). rewrite Ec in Hc.
      destruct (gi_backed g HI n N c EN E0 Hc) as (V & HV1 & HV2). exists V. split; [done|].
      by apply backs_upd.
    + rewrite upd_ne in Hp, Hc by done.
      destruct (gi_backed g HI m M c EM Hp Hc) as (V & HV1 & HV2). exists V. split; [done|].
      by apply backs_upd.
Qed.
End Step.

Lemma ginit_inv g : ginit g → GInv g.
Proof.
  intros H0. split.
  - intros n N EN. rewrite (H0 n N EN). constructor.
  - intros n N m M w EN EM Hw. rewrite (H0 n N EN) in Hw. by apply elem_of_nil in Hw.
  - intros n N c EN Hp. by rewrite (H0 n N EN) in Hp.
Qed.

Lemma greachable_inv g : greachable g → GInv g.
Proof.
  intros (g0 & H0 & Hs). apply ginit_inv in H0. induction Hs as [|g1 g2 g3 H1 _ IH]; [done|].
  apply IH. destruct H1 as [n N e s' EN Hok Ha Hrun]. by eapply upd_inv.
Qed.

Lemma externalized_backed g n v :
  GInv g → correct n → v ∈ ext_calls (g n) → ∃ U, gquorum n U ∧ backs g v U.
Proof.
  intros HI [N EN] Hv.
  rewrite (si_ext _ (@reachable_inv _ _ (nd_ok N) _ _ (gi_reach g HI n N EN))) in Hv.
  unfold externalized in Hv. destruct (kPhase (ck (g n))) eqn:Ep; [by apply elem_of_nil in Hv..|].
  destruct (kCommit (ck (g n))) as [c|] eqn:Ec; [|by apply elem_of_nil in Hv].
  apply list_elem_of_singleton in Hv as ->. by apply (gi_backed g HI n N).
Qed.
End Network.

(** ** Properties *)

(** C1: agreement.  In a network where any two quorums share a correct node, the
    values two correct nodes report as externalized for a slot are equal, whatever
    the other nodes send and in whatever order messages and timers arrive. *)
Theorem agreement i nodes g n m v w :
  (∀ n N, nodes n = Some N → @localNodeID (nd_local N) = n) →
  (∀ n N m M q, nodes n = Some N → nodes m = Some M →
     @getQSet (nd_driver N) (@localQuorumSetHash (nd_local M)) = Some q → q = nd_qset M) →
  (∀ n m U V, correct nodes n → correct nodes m → gquorum nodes n U → gquorum nodes m V →
     ∃ x, x ∈ U ∧ x ∈ V ∧ correct nodes x) →
  greachable i nodes g → correct nodes n → correct nodes m →
  v ∈ ext_calls (g n) → w ∈ ext_calls (g m) → v = w.
Proof.
  intros Hid Hhash Hint Hg Hn Hm Hv Hw. pose proof (greachable_inv i nodes Hid Hhash g Hg) as HI.
  destruct (externalized_backed i nodes g n v HI Hn Hv) as (U & HU & HUb).
  destruct (externalized_backed i nodes g m w HI Hm Hw) as (V & HV & HVb).
  destruct (Hint n m U V Hn Hm HU HV) as (x & Hx1 & Hx2 & Hxc).
  destruct (HUb x Hx1 Hxc) as (_ & c & Ec & <-). destruct (HVb x Hx2 Hxc) as (_ & c' & Ec' & <-).
  congruence.
Qed.

(** The network of [Examples]: both nodes are correct. *)
Definition pairNodes (n : NodeID) : option Node :=
  if (n =? 1) || (n =? 2)
  then Some {| nd_driver := pairDriver; nd_local := pairNode n; nd_ok := pairOk n |} else None.

Definition pairFinal : GState :=
  upd (upd (upd (upd (upd (upd (upd pairNew 1 a1) 2 b1) 2 b2) 1 a2) 2 b3) 1 a3) 2 b4.

Lemma pairNodes_inv n N :
  pairNodes n = Some N →
  (n = 1 ∨ n = 2) ∧ nd_driver N = pairDriver ∧ nd_local N = pairNode n.
Proof.
  unfold pairNodes. destruct (Z.eqb_spec n 1), (Z.eqb_spec n 2); simpl; try done; intros [= <-]; auto.
Qed.

Lemma pair_step n e (g : GState) s' :
  n = 1 ∨ n = 2 → @eventOk (pairNode n) (g n) e → authentic pairNodes g n e →
  @runEvent pairDriver (pairNode n) e (g n) = Ok (tt, s') → gstep pairNodes g (upd g n s').
Proof.
  intros Hn Hok Ha Hr. apply (gstep_event pairNodes g n
    {| nd_driver := pairDriver; nd_local := pairNode n; nd_ok := pairOk n |} e); try done.
  by destruct Hn as [->| ->].
Qed.

(** A message of the peer. *)
Lemma pair_receive n m (g : GState) s s' :
  n = 1 ∧ m = 2 ∨ n = 2 ∧ m = 1 → g m = s → nodeID (getStatement (lastMessage s)) = m →
  slotIndex (getStatement (lastMessage s)) = mSlotIndex (g n) →
  typed_statement (getStatement (lastMessage s)) → getStatement (lastMessage s) ∈ emitted s →
  @runEvent pairDriver (pairNode n) (from s) (g n) = Ok (tt, s') → gstep pairNodes g (upd g n s').
Proof.
  intros Hnm Eg Em Hidx Ht He Hr. apply (pair_step n (from s)); [tauto| | |done].
  - split_and!; try done; simpl; rewrite Em; intros; exfalso; naive_solver lia.
  - intros w [= <-] _ _. by rewrite Em, Eg.
Qed.

Ltac pair_receive n m s :=
  eapply rtc_r; [|apply (pair_receive n m _ s); [by auto|vm_compute; reflexivity..|
    apply typedb_sound; vm_compute; reflexivity|vm_compute; repeat first [left|right]|
    vm_compute; reflexivity]].

Lemma pairFinal_reachable : greachable 3 pairNodes pairFinal.
Proof.
  exists pairNew. split.
  { intros n N EN. destruct (pairNodes_inv n N EN) as (_ & _ & ->). done. }
  unfold pairFinal.
  pair_receive 2 1 a3. pair_receive 1 2 b3. pair_receive 2 1 a2. pair_receive 1 2 b2.
  pair_receive 2 1 a1.
  eapply rtc_r; [|apply (pair_step 2 propose); [by right|done|done|vm_compute; reflexivity]].
  eapply rtc_r; [|apply (pair_step 1 propose); [by left|done|done|vm_compute; reflexivity]].
  apply rtc_refl.
Qed.

Lemma pair_slice U : isQuorumSlice pairQSet U = true → 1 ∈ U ∧ 2 ∈ U.
Proof.
  rewrite isQuorumSlice_sat by (repeat split; vm_compute; congruence). simpl. unfold countZ. simpl.
  unfold inNodes. repeat case_bool_decide; simpl; try done; tauto.
Qed.

Lemma agreement_witness :
  ext_calls (pairFinal 1) = [[5]] ∧ ext_calls (pairFinal 2) = [[5]] ∧ [5] = [5].
Proof.
  split_and!; [vm_compute; reflexivity..|].
  apply (agreement 3 pairNodes pairFinal 1 2).
  - intros n N EN. destruct (pairNodes_inv n N EN) as (_ & _ & ->). done.
  - intros n N m M q EN EM. destruct (pairNodes_inv n N EN) as (_ & -> & _).
    unfold nd_qset. destruct (pairNodes_inv m M EM) as (_ & _ & ->). by intros [= <-].
  - intros n m U V [N EN] [M EM] [HU _] [HV _]. exists 1.
    pose proof (HU N EN) as HUN. pose proof (HV M EM) as HVM. unfold nd_qset in HUN, HVM.
    destruct (pairNodes_inv n N EN) as (_ & _ & EN'), (pairNodes_inv m M EM) as (_ & _ & EM').
    rewrite EN' in HUN. rewrite EM' in HVM. apply pair_slice in HUN, HVM.
    split_and!; [apply HUN|apply HVM|by eexists].
  - apply pairFinal_reachable.
  - by eexists.
  - by eexists.
  - vm_compute. left.
  - vm_compute. left.
Defined.
