(* ===== verification/ScpSafety.v ===== *)
(** * The SCP object: its slots, restarts and reports

    The map of slots keeps every slot in a reachable state and every operation to
    its own slot; a node restored from its last statement makes the same statement
    again; the report of a quorum set accounts for each of its nodes. *)

From stdpp Require Import prelude list relations.
From Stdlib Require Import ZArith Lia.
From S2P Require Import Prelude Numeric QuorumSet ScpTypes LocalNode Ballots Slot.
From S2P Require Import BallotProtocol BallotVotes BallotSpec BallotRefine Nomination.
From S2P Require Import NominationSpec SlotProcess Leaders SlotSafety Examples Events.
Local Open Scope Z_scope.

(** ** The map of slots *)

Section Slots.
Context {D : SCPDriver} {L : LocalNode}.

Definition slotOf (i : Z) (scp : SCP) : Slot := default (newSlot i) (map_find i (mKnownSlots scp)).

Definition ScpInv (scp : SCP) : Prop :=
  map_sorted (mKnownSlots scp) ∧ ∀ i s, map_find i (mKnownSlots scp) = Some s → reachable i s.

Lemma slotOf_reachable i scp : ScpInv scp → reachable i (slotOf i scp).
Proof.
  intros [_ H]. unfold slotOf. destruct (map_find i _) as [s|] eqn:E; [by apply H|constructor].
Qed.

(** A method called through the map runs on its slot alone. *)
Lemma onSlot_spec {A} i (m : SM A) scp a scp' :
  onSlot i m scp = Ok (a, scp') →
  ∃ s', m (slotOf i scp) = Ok (a, s') ∧ map_find i (mKnownSlots scp') = Some s' ∧
    (∀ j, j ≠ i → map_find j (mKnownSlots scp') = map_find j (mKnownSlots scp)) ∧
    (map_sorted (mKnownSlots scp) → map_sorted (mKnownSlots scp')).
Proof.
  unfold onSlot, getSlot, slotOf. destruct (map_find i (mKnownSlots scp)) as [s|] eqn:E; simpl.
  - destruct (m s) as [[a' s']|] eqn:Em; [|done]. intros [= <- <-]. exists s'. simpl. split_and!.
    + done.
    + apply map_find_insert_eq.
    + intros j Hj. by apply map_find_insert_ne.
    + apply map_insert_sorted.
  - destruct (m (newSlot i)) as [[a' s']|] eqn:Em; [|done]. intros [= <- <-]. exists s'. simpl. split_and!.
    + done.
    + apply map_find_insert_eq.
    + intros j Hj. by rewrite !map_find_insert_ne.
    + intros Hs. by do 2 apply map_insert_sorted.
Qed.

Lemma purge_find m slots i :
  map_sorted slots → map_find i (purge m slots) = if i <? m then None else map_find i slots.
Proof.
  induction 1 as [|[j s] slots Hs IH Hj]; simpl; [by destruct (i <? m)|].
  destruct (Z.ltb_spec j m) as [Hlt|Hge].
  - rewrite IH. destruct (Z.ltb_spec i m); [done|]. by destruct (Z.eqb_spec i j); [lia|].
  - simpl. destruct (Z.eqb_spec i j) as [->|Hne]; [by destruct (Z.ltb_spec j m); [lia|]|].
    destruct (Z.ltb_spec i m); [|done].
    destruct (map_find i slots) as [s'|] eqn:E; [|done]. apply map_find_Some_elem in E.
    eapply Forall_forall in Hj; [|exact E]. simpl in Hj. lia.
Qed.

Lemma purge_sorted m slots : map_sorted slots → map_sorted (purge m slots).
Proof.
  induction 1 as [|[j s] slots Hs IH Hj]; simpl; [constructor|]. destruct (j <? m); [done|by constructor].
Qed.
End Slots.

(** ** Reports *)

Section Report.
Context (envs : EnvMap) (b : SCPBallot).

Definition nodeMissing (n : NodeID) : bool := negb (optb (map_find n envs)).
Definition nodeAgrees (n : NodeID) : bool :=
  match map_find n envs with
  | Some w => areBallotsCompatible (getWorkingBallot (getStatement w)) b
  | None => false
  end.
Definition nodeSettled (n : NodeID) : bool :=
  match map_find n envs with
  | Some w => match pledges (getStatement w) with
              | ST_EXTERNALIZE _ => true
              | ST_CONFIRM c => counter (c_ballot c) =? UINT32_MAX
              | _ => false end
  | None => false
  end.

Lemma quorumInfo_fold l r :
  let r' := foldl (λ r n, (quorumInfo_node envs b n r).1) r l in
  qi_missing r' = qi_missing r ++ List.filter nodeMissing l ∧
  qi_disagree r' =
    qi_disagree r ++ List.filter (λ n, negb (nodeMissing n) && negb (nodeAgrees n)) l ∧
  qi_delayed r' = qi_delayed r ++ List.filter (λ n, nodeAgrees n && negb (nodeSettled n)) l ∧
  qi_agree r' = qi_agree r + countZ nodeAgrees l.
Proof.
  revert r. induction l as [|n l IH]; intros r.
  { simpl. rewrite !app_nil_r. split_and!; [done..|]. unfold countZ. simpl. lia. }
  cbn [foldl]. destruct (IH (quorumInfo_node envs b n r).1) as (-> & -> & -> & ->). clear IH.
  rewrite countZ_cons. unfold quorumInfo_node, nodeMissing, nodeAgrees, nodeSettled. simpl.
  destruct (map_find n envs) as [w|]; simpl; [|rewrite <- app_assoc; split_and!; [done..|lia]].
  destruct (areBallotsCompatible _ b); simpl; rewrite <- ?app_assoc; [|split_and!; [done..|lia]].
  destruct (match pledges (getStatement w) with ST_CONFIRM _ => _ | _ => _ end);
    simpl; rewrite <- ?app_assoc; split_and!; done || lia.
Qed.
End Report.

(** ** Restarts *)

Section Restart.
Context {D : SCPDriver} {L : LocalNode}.

Definition ballotOf (n : Z) (v : Value) : option SCPBallot :=
  if n =? 0 then None else Some (mkBallot n v).

(** The ballots that [setStateFromEnvelope] restores in a new slot. *)
Definition restored (e : SCPEnvelopeWrapper) : Core :=
  let envs := [(nodeID (getStatement e), e)] in
  match pledges (getStatement e) with
  | ST_PREPARE p =>
      let v := value (p_ballot p) in
      mkCore SCP_PHASE_PREPARE (Some (p_ballot p)) (p_prepared p) (p_preparedPrime p)
        (ballotOf (p_nH p) v) (ballotOf (p_nC p) v) envs
  | ST_CONFIRM c =>
      let v := value (c_ballot c) in
      mkCore SCP_PHASE_CONFIRM (Some (c_ballot c)) (Some (mkBallot (c_nPrepared c) v)) None
        (Some (mkBallot (c_nH c) v)) (Some (mkBallot (c_nCommit c) v)) envs
  | ST_EXTERNALIZE x =>
      let v := value (e_commit x) in
      mkCore SCP_PHASE_EXTERNALIZE (Some (mkBallot UINT32_MAX v)) (Some (mkBallot UINT32_MAX v)) None
        (Some (mkBallot (e_nH x) v)) (Some (e_commit x)) envs
  | ST_NOMINATE _ => ck (newSlot 0)
  end.

Lemma setState_wp e i :
  is_ballot_statement (getStatement e) →
  wp (setStateFromEnvelope e) (newSlot i) (λ _ s', ck s' = restored e ∧ mSlotIndex s' = i) (λ _, False).
Proof.
  intros Hb. unfold setStateFromEnvelope. wps.
  change (mCurrentBallot (mBallotProtocol (newSlot i))) with (@None SCPBallot). cbn [optb]. wps.
  unfold recordEnvelope, recordStatement. wps.
  set (s1 := set_mBallotProtocol _ _).
  assert (ck s1 = recordCore e (ck (newSlot i))) as E1 by done.
  assert (∀ b, wp (bumpToBallot b true) s1
    (λ _ s2, ck s2 = mkCore SCP_PHASE_PREPARE (Some b) None None None None
       [(nodeID (getStatement e), e)] ∧ mSlotIndex s2 = i) (λ _, False)) as Hbump.
  { intros b. eapply wp_mono; [apply (bumpToBallot_wp b true s1 (λ _, False))|by intros ? ? [? []]|done]; [by rewrite E1|].
    intros _. rewrite E1. simpl. lia. }
  unfold restored, is_ballot_statement in *.
  destruct (pledges (getStatement e)) as [p|c|x|n]; [| | |done].
  - apply wp_bind. eapply wp_mono; [apply Hbump| |done]. intros _ s2 [E2 I2].
    unfold ballotOf. destruct (p_prepared p), (p_preparedPrime p); cbn [optb]; wps;
      destruct (p_nH p =? 0), (p_nC p =? 0); cbn [negb]; wps; (split; [|done]);
      unfold ck, core in *; simpl in *; congruence.
  - apply wp_bind. eapply wp_mono; [apply Hbump| |done]. intros _ s2 [E2 I2]. wps.
    split; [|done]. unfold ck, core in *; simpl in *. congruence.
  - apply wp_bind. eapply wp_mono; [apply Hbump| |done]. intros _ s2 [E2 I2]. wps.
    split; [|done]. unfold ck, core in *; simpl in *. congruence.
Qed.

(** The statement a state makes. *)
Definition pledgesOf (k : Core) : SCPPledges :=
  match kPhase k with
  | SCP_PHASE_PREPARE =>
      ST_PREPARE {| p_quorumSetHash := localQuorumSetHash; p_ballot := default nullBallot (kCur k);
        p_prepared := kPrep k; p_preparedPrime := kPrime k;
        p_nC := match kCommit k with Some c => counter c | None => 0 end;
        p_nH := match kHigh k with Some h => counter h | None => 0 end |}
  | SCP_PHASE_CONFIRM =>
      ST_CONFIRM {| c_ballot := default nullBallot (kCur k);
        c_nPrepared := counter (default nullBallot (kPrep k));
        c_nCommit := counter (default nullBallot (kCommit k));
        c_nH := counter (default nullBallot (kHigh k)); c_quorumSetHash := localQuorumSetHash |}
  | SCP_PHASE_EXTERNALIZE =>
      ST_EXTERNALIZE {| e_commit := default nullBallot (kCommit k);
        e_nH := counter (default nullBallot (kHigh k)); e_commitQuorumSetHash := localQuorumSetHash |}
  end.

Lemma createStatement_eq s :
  CoreInv (ck s) → (∀ b, kCur (ck s) = Some b → counter b ≠ 0) →
  createStatement (phase_type (kPhase (ck s))) s = Ok (pledgesOf (ck s), s).
Proof.
  intros Hi Hc. enough (wp (createStatement (phase_type (kPhase (ck s)))) s
    (λ pl s', s' = s ∧ pl = pledgesOf (ck s)) (λ _, False)) as H.
  { unfold wp in H. destruct (createStatement _ s) as [[pl s']|]; [|done]. by destruct H as [-> ->]. }
  unfold createStatement. apply wp_bind.
  eapply wp_mono; [apply (checkInvariants_gen s (λ _, False)); [done|]; intros b Eb E0; by eapply Hc| |done].
  intros _ s' ->. wps. destruct Hi as [_ Hh Hcm Hcf He]. unfold pledgesOf. to_core s.
  destruct (kPhase (ck s)) eqn:Ep; simpl phase_type; cbn iota.
  - by wps.
  - destruct (Hcf eq_refl) as [Hc1 Hp1]. destruct (kCommit (ck s)) as [c|]; [|done].
    destruct (Hcm c eq_refl) as (h & Eh & _). destruct (Hh h Eh) as (cur & Ecur & _).
    destruct (kPrep (ck s)) as [p|]; [|done]. rewrite Eh, Ecur. by wps.
  - specialize (He eq_refl). destruct (kCommit (ck s)) as [c|]; [|done].
    destruct (Hcm c eq_refl) as (h & Eh & _). rewrite Eh. by wps.
Qed.

(** The restored ballots satisfy the invariant and make the same statement. *)
Lemma restored_prepare k e b :
  CoreInv k → Typed k → kPhase k = SCP_PHASE_PREPARE → kCur k = Some b →
  pledges (getStatement e) = pledgesOf k → CoreInv (restored e) ∧ pledgesOf (restored e) = pledgesOf k.
Proof.
  intros [Hp Hh Hc _ _] HT Ep Eb Epl. unfold restored. rewrite Epl. unfold pledgesOf. rewrite Ep, Eb. simpl.
  unfold ballotOf.
  assert (∀ c, kCommit k = Some c → counter c ≠ 0 → ∃ h, kHigh k = Some h ∧ counter h ≠ 0 ∧ counter c ≤ counter h) as Hch.
  { intros c Ec Hn. destruct (Hc c Ec) as (h & Eh & _ & Hle). exists h. split_and!; [done| |done].
    pose proof (ty_commit _ HT c Ec) as Htc. unfold typed_ballot in Htc. word. }
  split.
  - split; simpl; try done.
    + intros h. destruct (kHigh k) as [h0|] eqn:Eh; [|done].
      destruct (Z.eqb_spec (counter h0) 0); [done|]. intros [= <-].
      destruct (Hh h0 eq_refl) as (cur & Ecur & Hv & Hle). exists b. simpl.
      assert (cur = b) as -> by congruence. done.
    + intros c. destruct (kCommit k) as [c0|] eqn:Ec; [|done].
      destruct (Z.eqb_spec (counter c0) 0); [done|]. intros [= <-].
      destruct (Hch c0 eq_refl ltac:(done)) as (h & -> & Hn & Hle).
      rewrite (proj2 (Z.eqb_neq _ _)) by done. eexists. split; [done|]. simpl. done.
  - f_equal. f_equal.
    + destruct (kCommit k) as [c|]; [|done]. by destruct (Z.eqb_spec (counter c) 0).
    + destruct (kHigh k) as [h|]; [|done]. by destruct (Z.eqb_spec (counter h) 0).
Qed.

Lemma restored_same k e b :
  CoreInv k → Typed k → kCur k = Some b → pledges (getStatement e) = pledgesOf k →
  CoreInv (restored e) ∧ pledgesOf (restored e) = pledgesOf k ∧ kPhase (restored e) = kPhase k.
Proof.
  intros Hi HT Eb Epl. destruct (kPhase k) eqn:Ep.
  - destruct (restored_prepare k e b) as [H1 H2]; try done. split_and!; [done..|].
    unfold restored. rewrite Epl. unfold pledgesOf. by rewrite Ep.
  - destruct Hi as [_ Hh Hc Hcf _]. destruct (Hcf Ep) as [Hc1 Hp1].
    destruct (kCommit k) as [c|] eqn:Ec; [|done]. destruct (Hc c eq_refl) as (h & Eh & Hv & Hle).
    destruct (Hh h Eh) as (cur & Ecur & Hv' & Hle'). destruct (kPrep k) as [p|] eqn:Epr; [|done].
    unfold restored. rewrite Epl. unfold pledgesOf. rewrite Ep, Ecur, Ec, Eh, Epr. simpl.
    split_and!; [|done|done]. split; simpl; try done; [intros ? [= <-]|intros ? [= <-]]; eexists;
      (split; [done|]); simpl; done.
  - destruct Hi as [_ Hh Hc _ He]. specialize (He Ep).
    destruct (kCommit k) as [c|] eqn:Ec; [|done]. destruct (Hc c eq_refl) as (h & Eh & Hv & Hle).
    unfold restored. rewrite Epl. unfold pledgesOf. rewrite Ep, Ec, Eh. simpl.
    split_and!; [|done|done]. split; simpl; try done; [intros ? [= <-]|intros ? [= <-]]; eexists;
      (split; [done|]); simpl; [|done]. split; [done|]. pose proof (ty_high _ HT h Eh) as Hth. unfold typed_ballot in Hth. word.
Qed.
End Restart.

(** ** Properties *)

Section Properties.
Context {D : SCPDriver} {L : LocalNode}.

(** Receiving an envelope runs the slot it names, created on first use, and
    leaves every other slot alone; all slots stay reachable, so that what is proved
    of reachable slots holds of all the slots of the object. *)
Theorem receiveEnvelope_one_slot w scp r scp' :
  ScpInv scp → eventOk (slotOf (slotIndex (getStatement w)) scp) (ReceiveEnvelope w) →
  receiveEnvelope w scp = Ok (r, scp') →
  ScpInv scp' ∧
  Slot_processEnvelope w false (slotOf (slotIndex (getStatement w)) scp) =
    Ok (r, slotOf (slotIndex (getStatement w)) scp') ∧
  ∀ j, j ≠ slotIndex (getStatement w) → map_find j (mKnownSlots scp') = map_find j (mKnownSlots scp).
Proof.
  intros HI Hok (s' & Hm & Hf & Hne & Hs)%onSlot_spec. set (i := slotIndex (getStatement w)) in *.
  assert (slotOf i scp' = s') as -> by (unfold slotOf; by rewrite Hf). split_and!; [|done|done].
  split; [apply Hs, HI|]. intros j s Hj. destruct (decide (j = i)) as [->|Hj'].
  - assert (s = s') as -> by congruence.
    apply (reachable_event i (slotOf i scp) (ReceiveEnvelope w)); [by apply slotOf_reachable|done|].
    simpl. unfold bind. by rewrite Hm.
  - rewrite Hne in Hj by done. by apply HI.
Qed.

(** [purgeSlots] forgets exactly the slots below the index. *)
Theorem purgeSlots_exact m scp i :
  ScpInv scp →
  ScpInv (purgeSlots m scp) ∧
  map_find i (mKnownSlots (purgeSlots m scp)) =
    if i <? m then None else map_find i (mKnownSlots scp).
Proof.
  intros [Hs Hr]. split; [|by apply purge_find]. split; [by apply purge_sorted|].
  intros j s. simpl. rewrite purge_find by done. destruct (j <? m); [done|apply Hr].
Qed.

(** The report on the quorum set of a node accounts for every node of the set
    exactly once: it is missing, or it disagrees, or it is counted as agreeing; the
    delayed ones are those that agree without having settled. *)
Theorem getJsonQuorumInfo_accounts nullHash id bp r h :
  getJsonQuorumInfo nullHash id bp = Ok r → qi_hash r = Some h →
  ∃ q b, getQSet h = Some q ∧
    qi_missing r = List.filter (nodeMissing (mLatestEnvelopes bp)) (qset_nodes q) ∧
    qi_delayed r = List.filter (λ n, nodeAgrees (mLatestEnvelopes bp) b n &&
                                     negb (nodeSettled (mLatestEnvelopes bp) n)) (qset_nodes q) ∧
    qi_agree r = countZ (nodeAgrees (mLatestEnvelopes bp) b) (qset_nodes q) ∧
    Z.of_nat (length (qi_missing r)) + Z.of_nat (length (qi_disagree r)) + qi_agree r =
      Z.of_nat (length (qset_nodes q)).
Proof.
  unfold getJsonQuorumInfo. intros Hr Hh.
  match type of Hr with match ?f with _ => _ end = _ => destruct f as [[[phase b] h']|] end; [|done].
  destruct (getQSet h') as [q|] eqn:Eq; injection Hr as <-; [|done].
  injection Hh as ->. exists q, b. split; [done|].
  change (quorumInfo_node (mLatestEnvelopes bp) b) with
    (λ n r, ((quorumInfo_node (mLatestEnvelopes bp) b n r).1, true)).
  rewrite forAllNodes_fold. cbn [fst qi_missing qi_disagree qi_delayed qi_agree].
  destruct (quorumInfo_fold (mLatestEnvelopes bp) b (qset_nodes q) (emptyInfo phase)) as (-> & -> & -> & ->).
  simpl. split_and!; [done..|]. clear. induction (qset_nodes q) as [|n l IH]; [done|].
  rewrite countZ_cons. simpl. unfold nodeMissing, nodeAgrees in *.
  destruct (map_find n (mLatestEnvelopes bp)) as [w|]; simpl; [|lia].
  destruct (areBallotsCompatible _ b); simpl; lia.
Qed.

(** A restart loses nothing the node has said: a slot restored from the
    node's last statement is in the same phase and makes the same statement again. *)
Theorem restart_repeats_statement {OK : DriverOk} i s b :
  reachable i s → mCurrentBallot (mBallotProtocol s) = Some b → counter b ≠ 0 →
  ∃ pl, createStatement (phase_type (mPhase (mBallotProtocol s))) s = Ok (pl, s) ∧
  ∀ e, pledges (getStatement e) = pl →
    ∃ s', setStateFromEnvelope e (newSlot i) = Ok (tt, s') ∧
      mPhase (mBallotProtocol s') = mPhase (mBallotProtocol s) ∧
      createStatement (phase_type (mPhase (mBallotProtocol s))) s' = Ok (pl, s').
Proof.
  intros Hr%reachable_inv Eb Hb. pose proof (SlotInv_core _ Hr) as Hi.
  pose proof (proj2 (sg_ballot _ (si_good _ Hr))) as HT. to_core s. change (kCur (ck s) = Some b) in Eb.
  exists (pledgesOf (ck s)). split; [apply createStatement_eq; [done|]; intros b' Eb'; congruence|].
  intros e He. destruct (restored_same (ck s) e b Hi HT Eb He) as (R1 & R2 & R3).
  pose proof (setState_wp e i) as Hw. unfold wp in Hw.
  destruct (setStateFromEnvelope e (newSlot i)) as [[[] s']|];
    [|exfalso; apply Hw; unfold is_ballot_statement; rewrite He; unfold pledgesOf; by destruct (kPhase (ck s))].
  destruct Hw as [E _]; [unfold is_ballot_statement; rewrite He; unfold pledgesOf; by destruct (kPhase (ck s))|].
  exists s'. split; [done|]. to_core s'. rewrite E, R3. split; [done|].
  rewrite <- R3, <- E, createStatement_eq; rewrite E; [by rewrite R2|done|].
  intros b' Eb'. unfold restored in Eb'. rewrite He in Eb'. unfold pledgesOf in Eb'.
  destruct (kPhase (ck s)) eqn:Ep; simpl in Eb'; injection Eb' as <-; to_core s; rewrite ?Eb; simpl; [done|done|].
  unfold UINT32_MAX. lia.
Qed.
End Properties.

Lemma restart_repeats_statement_witness :
  ∃ pl, @createStatement (pairNode 1) SCP_ST_EXTERNALIZE a3 = Ok (pl, a3).
Proof.
  destruct (@restart_repeats_statement pairDriver (pairNode 1) (pairOk 1) 3 a3 (mkBallot 1 [5])
    a3_reachable) as (pl & H & _); [vm_compute; reflexivity|vm_compute; congruence|]. by exists pl.
Defined.

Lemma getJsonQuorumInfo_accounts_witness :
  ∃ r, @getJsonQuorumInfo pairDriver (pairNode 1) 0 1 (mBallotProtocol a1) = Ok r ∧
    Z.of_nat (length (qi_missing r)) + Z.of_nat (length (qi_disagree r)) + qi_agree r = 2.
Proof.
  eexists. split; [vm_compute; reflexivity|].
  edestruct (@getJsonQuorumInfo_accounts pairDriver (pairNode 1) 0 1 (mBallotProtocol a1))
    as (q & b & Hq & _ & _ & _ & H); [vm_compute; reflexivity|reflexivity|].
  vm_compute in Hq. injection Hq as <-. exact H.
Defined.

(** Slot 3 of node 1 has its proposal; slot 5 is new. *)
Definition pairScp : SCP := {| mKnownSlots := [(3, a1); (5, @newSlot (pairNode 1) 5)] |}.

Lemma pairScp_inv : @ScpInv pairDriver (pairNode 1) pairScp.
Proof.
  split; [repeat constructor|]. intros i s. simpl.
  destruct (Z.eqb_spec i 3) as [->|]; [intros [= <-]; apply a1_reachable|].
  destruct (Z.eqb_spec i 5) as [->|]; [intros [= <-]; constructor|done].
Qed.

Lemma receiveEnvelope_one_slot_witness :
  match @receiveEnvelope pairDriver (pairNode 1) (lastMessage b2) pairScp with
  | Ok (r, scp') => r = VALID ∧ map_find 3 (mKnownSlots scp') = Some a2 ∧
      @ScpInv pairDriver (pairNode 1) scp'
  | Fail _ => False
  end.
Proof.
  destruct (@receiveEnvelope pairDriver (pairNode 1) (lastMessage b2) pairScp) as [[r scp']|f] eqn:E;
    [|vm_compute in E; congruence].
  split; [vm_compute in E; congruence|].
  split; [vm_compute in E; injection E as _ <-; reflexivity|].
  refine (proj1 (@receiveEnvelope_one_slot pairDriver (pairNode 1) (lastMessage b2) pairScp r scp'
    pairScp_inv _ E)). pair_ok.
Defined.

Lemma purgeSlots_exact_witness :
  map_find 3 (mKnownSlots (purgeSlots 4 pairScp)) = None ∧
  map_find 5 (mKnownSlots (purgeSlots 4 pairScp)) = Some (@newSlot (pairNode 1) 5).
Proof.
  split; [apply (@purgeSlots_exact pairDriver (pairNode 1) 4 pairScp 3 pairScp_inv)|].
  apply (@purgeSlots_exact pairDriver (pairNode 1) 4 pairScp 5 pairScp_inv).
Defined.
