(* ===== verification/Exchange.v ===== *)
(** * Crossing two offers (src/transactions/OfferExchange.cpp)

    The arithmetic of the exchange: how much wheat and how much sheep change hands
    when a buyer of wheat meets an offer in the book.  [exchangeV2] and [exchangeV3]
    are the rules of the first protocol versions; [exchangeV10] is the current one,
    with its guarantees on limits, rounding and price error. *)

From stdpp Require Import prelude.
From Stdlib Require Import ZArith Lia.
From S2P Require Import Prelude Numeric.
Local Open Scope Z_scope.

(** [int32_t n, d] *)
Record Price : Type := mkPrice { price_n : Z; price_d : Z }.

Inductive RoundingType : Type :=
| NORMAL
| PATH_PAYMENT_STRICT_SEND
| PATH_PAYMENT_STRICT_RECEIVE.

#[export] Instance RoundingType_eq_dec : EqDecision RoundingType.
Proof. solve_decision. Defined.

Inductive ExchangeResultType : Type :=
| EXCHANGE_NORMAL
| EXCHANGE_REDUCED_TO_ZERO
| EXCHANGE_BOGUS.

Record ExchangeResult : Type := {
  x_numWheatReceived : Z;
  x_numSheepSend : Z;
  x_reduced : bool
}.

(** [ExchangeResult::type] *)
Definition exchangeResultType (r : ExchangeResult) : ExchangeResultType :=
  if negb (x_numWheatReceived r =? 0) && negb (x_numSheepSend r =? 0) then EXCHANGE_NORMAL
  else if x_reduced r then EXCHANGE_REDUCED_TO_ZERO else EXCHANGE_BOGUS.

Record ExchangeResultV10 : Type := mkExchangeV10 {
  numWheatReceived : Z;
  numSheepSend : Z;
  wheatStays : bool
}.

(** The exceptions of this file, and those of the divisions. *)
Inductive ExchangeError : Type :=
| Arithmetic (e : NumError)
| WheatReceiveOutOfBounds
| SheepSendOutOfBounds
| FavoredSheepWhenWheatStays
| FavoredWheatWhenSheepStays
| ExceededPriceErrorBound
| InvalidAmountOfSheepSent.

Notation num := (ofail Arithmetic).

(** [if (!bigDivide(x, A, B, C, r)) x = INT64_MAX;] *)
Definition divideOrMax (A B C : Z) (r : Rounding) : outcome ExchangeError (Z * bool) :=
  let? x := num (bigDivideS64 A B C r) in
  Ok (match x with Some x => (x, false) | None => (INT64_MAX, true) end).

Definition exchangeV2 (wheatReceived : Z) (price : Price) (maxWheatReceive maxSheepSend : Z)
  : outcome ExchangeError ExchangeResult :=
  let reduced := maxWheatReceive <? wheatReceived in
  let wheatReceived := Z.min wheatReceived maxWheatReceive in
  (* this guy can get X wheat to you. How many sheep does that get him? *)
  let? s := divideOrMax wheatReceived (price_n price) (price_d price) ROUND_DOWN in
  let reduced := reduced || (maxSheepSend <? s.1) in
  let numSheepSend := Z.min s.1 maxSheepSend in
  (* bias towards seller (this cannot overflow at this point) *)
  let? w := num (bigDivide numSheepSend (price_d price) (price_n price) ROUND_DOWN) in
  Ok {| x_numWheatReceived := w; x_numSheepSend := numSheepSend; x_reduced := reduced |}.

Definition exchangeV3 (wheatReceived : Z) (price : Price) (maxWheatReceive maxSheepSend : Z)
  : outcome ExchangeError ExchangeResult :=
  let reduced := maxWheatReceive <? wheatReceived in
  let numWheatReceived := Z.min wheatReceived maxWheatReceive in
  (* this guy can get X wheat to you. How many sheep does that get him?
     bias towards seller *)
  let? s := divideOrMax numWheatReceived (price_n price) (price_d price) ROUND_UP in
  let reduced := (reduced || s.2) || (maxSheepSend <? s.1) in
  let numSheepSend := Z.min s.1 maxSheepSend in
  let? w := divideOrMax numSheepSend (price_d price) (price_n price) ROUND_DOWN in
  Ok {| x_numWheatReceived := Z.min numWheatReceived w.1;
        x_numSheepSend := numSheepSend; x_reduced := reduced |}.

(** The relative error between the price and the effective price does not exceed
    1%; with [canFavorWheat] an error in favour of the wheat seller is
    unbounded. *)
Definition checkPriceErrorBound (price : Price) (wheatReceive sheepSend : Z)
  (canFavorWheat : bool) : outcome ExchangeError bool :=
  (* These never overflow since price.n and price.d are int32_t *)
  let errN := s64 (100 * price_n price) in
  let errD := s64 (100 * price_d price) in
  let? lhs := num (bigMultiply errN wheatReceive) in
  let? rhs := num (bigMultiply errD sheepSend) in
  if canFavorWheat && (lhs <? rhs) then Ok true
  else
    let absDiff := if rhs <? lhs then u128 (lhs - rhs) else u128 (rhs - lhs) in
    let? cap := num (bigMultiply (price_n price) wheatReceive) in
    Ok (absDiff <=? cap).

Definition calculateOfferValue (priceN priceD maxSend maxReceive : Z) : outcome ExchangeError Z :=
  let? sendValue := num (bigMultiply maxSend priceN) in
  let? receiveValue := num (bigMultiply maxReceive priceD) in
  Ok (Z.min sendValue receiveValue).

(** The amounts when wheat stays, from the value of the sheep offer. *)
Definition amountsWheatStays (price : Price) (sheepValue maxSheepSend maxSheepReceive : Z)
  (round : RoundingType) : outcome ExchangeError (Z * Z) :=
  let n := price_n price in
  let d := price_d price in
  match round with
  | PATH_PAYMENT_STRICT_SEND =>
      let? wheatReceive := num (bigDivide128 sheepValue n ROUND_DOWN) in
      Ok (wheatReceive, Z.min maxSheepSend maxSheepReceive)
  | _ =>
      if (d <? n) (* Wheat is more valuable *) ||
         (match round with PATH_PAYMENT_STRICT_RECEIVE => true | _ => false end)
      then
        let? wheatReceive := num (bigDivide128 sheepValue n ROUND_DOWN) in
        let? sheepSend := num (bigDivide wheatReceive n d ROUND_UP) in
        Ok (wheatReceive, sheepSend)
      else (* Sheep is more valuable *)
        let? sheepSend := num (bigDivide128 sheepValue d ROUND_DOWN) in
        let? wheatReceive := num (bigDivide sheepSend d n ROUND_DOWN) in
        Ok (wheatReceive, sheepSend)
  end.

(** The amounts when the wheat offer is taken, from its value. *)
Definition amountsWheatTaken (price : Price) (wheatValue : Z) : outcome ExchangeError (Z * Z) :=
  let n := price_n price in
  let d := price_d price in
  if d <? n (* Wheat is more valuable *) then
    let? wheatReceive := num (bigDivide128 wheatValue n ROUND_DOWN) in
    let? sheepSend := num (bigDivide wheatReceive n d ROUND_DOWN) in
    Ok (wheatReceive, sheepSend)
  else (* Sheep is more valuable *)
    let? sheepSend := num (bigDivide128 wheatValue d ROUND_DOWN) in
    let? wheatReceive := num (bigDivide sheepSend d n ROUND_UP) in
    Ok (wheatReceive, sheepSend).

Definition exchangeV10WithoutPriceErrorThresholds (price : Price)
  (maxWheatSend maxWheatReceive maxSheepSend maxSheepReceive : Z) (round : RoundingType)
  : outcome ExchangeError ExchangeResultV10 :=
  let? wheatValue :=
    calculateOfferValue (price_n price) (price_d price) maxWheatSend maxSheepReceive in
  let? sheepValue :=
    calculateOfferValue (price_d price) (price_n price) maxSheepSend maxWheatReceive in
  let wheatStays := sheepValue <? wheatValue in
  let? a :=
    (if wheatStays then amountsWheatStays price sheepValue maxSheepSend maxSheepReceive round
     else amountsWheatTaken price wheatValue) in
  let '(wheatReceive, sheepSend) := a in
  (* Neither of these should ever throw. *)
  if (wheatReceive <? 0) || (Z.min maxWheatReceive maxWheatSend <? wheatReceive)
  then Fail WheatReceiveOutOfBounds
  else if (sheepSend <? 0) || (Z.min maxSheepReceive maxSheepSend <? sheepSend)
  then Fail SheepSendOutOfBounds
  else Ok (mkExchangeV10 wheatReceive sheepSend wheatStays).

Definition applyPriceErrorThresholds (price : Price) (wheatReceive sheepSend : Z)
  (wheatStays : bool) (round : RoundingType) : outcome ExchangeError ExchangeResultV10 :=
  if (0 <? wheatReceive) && (0 <? sheepSend) then
    let? wheatReceiveValue := num (bigMultiply wheatReceive (price_n price)) in
    let? sheepSendValue := num (bigMultiply sheepSend (price_d price)) in
    (* if wheat stays then the wheat seller must be favored; similarly for sheep *)
    if wheatStays && (sheepSendValue <? wheatReceiveValue) then Fail FavoredSheepWhenWheatStays
    else if negb wheatStays && (wheatReceiveValue <? sheepSendValue)
    then Fail FavoredWheatWhenSheepStays
    else
      match round with
      | NORMAL =>
          (* Both sellers must get a price no more than 1% worse than the price
             crossed. Otherwise, no trade occurs. *)
          let? ok := checkPriceErrorBound price wheatReceive sheepSend false in
          if ok then Ok (mkExchangeV10 wheatReceive sheepSend wheatStays)
          else Ok (mkExchangeV10 0 0 wheatStays)
      | _ =>
          let? ok := checkPriceErrorBound price wheatReceive sheepSend true in
          if ok then Ok (mkExchangeV10 wheatReceive sheepSend wheatStays)
          else Fail ExceededPriceErrorBound
      end
  else
    match round with
    | PATH_PAYMENT_STRICT_SEND =>
        if sheepSend =? 0 then Fail InvalidAmountOfSheepSent
        else Ok (mkExchangeV10 wheatReceive sheepSend wheatStays)
    | _ => Ok (mkExchangeV10 0 0 wheatStays)
    end.

Definition exchangeV10 (price : Price)
  (maxWheatSend maxWheatReceive maxSheepSend maxSheepReceive : Z) (round : RoundingType)
  : outcome ExchangeError ExchangeResultV10 :=
  let? before :=
    exchangeV10WithoutPriceErrorThresholds price maxWheatSend maxWheatReceive maxSheepSend
      maxSheepReceive round in
  applyPriceErrorThresholds price (numWheatReceived before) (numSheepSend before)
    (wheatStays before) round.

(** [int64_t adjustOffer(Price const&, int64_t, int64_t)] *)
Definition adjustOffer (price : Price) (maxWheatSend maxSheepReceive : Z)
  : outcome ExchangeError Z :=
  let? res := exchangeV10 price maxWheatSend INT64_MAX INT64_MAX maxSheepReceive NORMAL in
  Ok (numWheatReceived res).

(** ** The amounts, in exact arithmetic *)

Definition amount (z : Z) : Prop := 0 ≤ z ≤ INT64_MAX.

Definition INT32_MAX : Z := 2147483647.

(** The prices of the ledger: both parts are positive [int32_t]. *)
Definition priceOk (p : Price) : Prop :=
  1 ≤ price_n p ≤ INT32_MAX ∧ 1 ≤ price_d p ≤ INT32_MAX.

Ltac amounts :=
  unfold amount, priceOk, INT32_MAX, INT64_MAX in *;
  repeat match goal with H : _ ∧ _ |- _ => destruct H end; simpl in *.

Definition takenPure (p : Price) (v : Z) : Z * Z :=
  if price_d p <? price_n p then
    let w := divRound v (price_n p) ROUND_DOWN in
    (w, divRound (w * price_n p) (price_d p) ROUND_DOWN)
  else
    let s := divRound v (price_d p) ROUND_DOWN in
    (divRound (s * price_d p) (price_n p) ROUND_UP, s).

(** What the wheat and sheep amounts of an exchange of value [v] satisfy: both
    respect every limit that is worth at least [v]. *)
Record Amounts (p : Price) (v w s : Z) : Prop := {
  am_wheat : 0 ≤ w;
  am_sheep : 0 ≤ s;
  am_wheat_limit W : v ≤ W * price_n p → w ≤ W;
  am_sheep_limit S : v ≤ S * price_d p → s ≤ S;
}.

Lemma mul_le_cancel a b k : 0 < k → a * k ≤ b * k → a ≤ b.
Proof. intros. apply (Z.mul_le_mono_pos_r a b k); lia. Qed.

(** Rounding down then converting at the price stays within the value; rounding up
    stays below any integral limit. *)
Lemma down_limit v k L : 0 < k → v ≤ L * k → divRound v k ROUND_DOWN ≤ L.
Proof. intros Hk HL. pose proof (divRound_down_spec v k Hk). apply (mul_le_cancel _ _ k); lia. Qed.

Lemma up_limit v k L : 0 < k → v ≤ L * k → divRound v k ROUND_UP ≤ L.
Proof.
  intros Hk HL. pose proof (divRound_up_spec v k Hk) as [H _].
  assert (divRound v k ROUND_UP - 1 < L); [|lia].
  apply (Z.mul_lt_mono_pos_r k); lia.
Qed.

Lemma convert_down v k j S :
  0 < k → 0 < j → v ≤ S * j → divRound (divRound v k ROUND_DOWN * k) j ROUND_DOWN ≤ S.
Proof. intros Hk Hj HS. apply down_limit; [done|]. pose proof (divRound_down_spec v k Hk). lia. Qed.

Lemma convert_up v k j S :
  0 < k → 0 < j → v ≤ S * j → divRound (divRound v k ROUND_DOWN * k) j ROUND_UP ≤ S.
Proof. intros Hk Hj HS. apply up_limit; [done|]. pose proof (divRound_down_spec v k Hk). lia. Qed.

Lemma takenPure_amounts p v : priceOk p → 0 ≤ v → Amounts p v (takenPure p v).1 (takenPure p v).2.
Proof.
  intros [[Hn _] [Hd _]] Hv. unfold takenPure.
  assert (0 ≤ divRound v (price_n p) ROUND_DOWN) by (apply divRound_nonneg; lia).
  assert (0 ≤ divRound v (price_d p) ROUND_DOWN) by (apply divRound_nonneg; lia).
  destruct (_ <? _); split; cbn [fst snd];
    try (apply divRound_nonneg; nia); try (intros; apply down_limit; lia);
    [intros; apply convert_down; lia|intros; apply convert_up; lia].
Qed.

(** The seller of sheep is favoured when the wheat offer is taken. *)
Lemma takenPure_favours p v :
  priceOk p → (takenPure p v).2 * price_d p ≤ (takenPure p v).1 * price_n p.
Proof.
  intros [[Hn _] [Hd _]]. unfold takenPure. destruct (_ <? _); cbn [fst snd].
  - apply divRound_down_spec. lia.
  - apply divRound_up_spec. lia.
Qed.

Lemma takenPure_zero p v : priceOk p → 0 ≤ v → (takenPure p v).1 = 0 ↔ (takenPure p v).2 = 0.
Proof.
  intros Hp Hv. pose proof (takenPure_amounts p v Hp Hv) as [Hw Hs _ _]. revert Hw Hs.
  destruct Hp as [[Hn _] [Hd _]]. unfold takenPure. destruct (Z.ltb_spec (price_d p) (price_n p));
    cbn [fst snd]; intros Hw Hs.
  - pose proof (divRound_down_spec (divRound v (price_n p) ROUND_DOWN * price_n p) (price_d p)
      ltac:(lia)). split; intros E; rewrite E in *; nia.
  - pose proof (divRound_up_spec (divRound v (price_d p) ROUND_DOWN * price_d p) (price_n p)
      ltac:(lia)). split; intros E; rewrite E in *; nia.
Qed.

Definition staysPure (p : Price) (v ss sr : Z) (round : RoundingType) : Z * Z :=
  match round with
  | PATH_PAYMENT_STRICT_SEND => (divRound v (price_n p) ROUND_DOWN, Z.min ss sr)
  | _ =>
      if (price_d p <? price_n p) ||
         (match round with PATH_PAYMENT_STRICT_RECEIVE => true | _ => false end)
      then
        let w := divRound v (price_n p) ROUND_DOWN in
        (w, divRound (w * price_n p) (price_d p) ROUND_UP)
      else
        let s := divRound v (price_d p) ROUND_DOWN in
        (divRound (s * price_d p) (price_n p) ROUND_DOWN, s)
  end.

Lemma staysPure_wheat p v ss sr round :
  priceOk p → 0 ≤ v →
  0 ≤ (staysPure p v ss sr round).1 ∧ ∀ W, v ≤ W * price_n p → (staysPure p v ss sr round).1 ≤ W.
Proof.
  intros [[Hn _] [Hd _]] Hv. unfold staysPure.
  assert (0 ≤ divRound v (price_d p) ROUND_DOWN) by (apply divRound_nonneg; lia).
  destruct round; try destruct (_ || _); cbn [fst];
    (split; [apply divRound_nonneg; nia|intros W HW]);
    solve [apply down_limit; lia|apply convert_down; lia].
Qed.

Lemma staysPure_sheep p v ss sr round :
  priceOk p → 0 ≤ v → 0 ≤ ss → 0 ≤ sr → v ≤ ss * price_d p → v ≤ sr * price_d p →
  0 ≤ (staysPure p v ss sr round).2 ≤ Z.min ss sr.
Proof.
  intros [[Hn _] [Hd _]] Hv ???. intros. unfold staysPure.
  assert (0 ≤ divRound v (price_n p) ROUND_DOWN) by (apply divRound_nonneg; lia).
  destruct round; try destruct (_ || _); cbn [snd]; try lia;
    (split; [apply divRound_nonneg; nia|apply Z.min_glb]);
    solve [apply down_limit; lia|apply convert_up; lia].
Qed.

(** The seller of wheat is favoured when the wheat offer stays. *)
Lemma staysPure_favours p v ss sr round :
  priceOk p → 0 ≤ v → v ≤ ss * price_d p → v ≤ sr * price_d p →
  (staysPure p v ss sr round).1 * price_n p ≤ (staysPure p v ss sr round).2 * price_d p.
Proof.
  intros [[Hn _] [Hd _]] Hv ??. unfold staysPure.
  pose proof (divRound_down_spec v (price_n p) ltac:(lia)).
  destruct round; try destruct (_ || _); cbn [fst snd].
  - apply divRound_up_spec. lia.
  - apply divRound_down_spec. lia.
  - destruct (Z.min_spec ss sr) as [[_ ->]|[_ ->]]; lia.
  - apply divRound_up_spec. lia.
  - apply divRound_down_spec. lia.
Qed.

(** ** The code computes these amounts *)

Lemma multiply_price a k : amount a → 1 ≤ k ≤ INT32_MAX → bigMultiply a k = Ok (a * k).
Proof. intros. apply bigMultiply_eq; amounts; lia. Qed.

Lemma value_in_u128 a k : amount a → 1 ≤ k ≤ INT32_MAX → in_u128 (a * k).
Proof. intros. amounts. unfold in_u128, UINT128_MAX. nia. Qed.

Lemma calculateOfferValue_eq a b j k :
  amount a → amount b → 1 ≤ j ≤ INT32_MAX → 1 ≤ k ≤ INT32_MAX →
  calculateOfferValue j k a b = Ok (Z.min (a * j) (b * k)).
Proof. intros. unfold calculateOfferValue. by rewrite !multiply_price by done. Qed.

Lemma divide128_fits v k r L :
  in_u128 v → 1 ≤ k ≤ INT32_MAX → amount L → divRound v k r ≤ L →
  bigDivide128 v k r = Ok (divRound v k r).
Proof.
  intros. rewrite bigDivide128_eq by (try done; amounts; lia).
  destruct (Z.leb_spec (divRound v k r) INT64_MAX); [done|amounts; lia].
Qed.

Lemma divide_fits a j k r L :
  amount a → 1 ≤ j ≤ INT32_MAX → 1 ≤ k ≤ INT32_MAX → amount L → divRound (a * j) k r ≤ L →
  bigDivide a j k r = Ok (divRound (a * j) k r).
Proof.
  intros. rewrite bigDivide_eq by (amounts; lia).
  destruct (Z.leb_spec (divRound (a * j) k r) INT64_MAX); [done|amounts; lia].
Qed.

Lemma amountsWheatTaken_eq p v W S :
  priceOk p → amount W → amount S → in_u128 v → v ≤ W * price_n p → v ≤ S * price_d p →
  amountsWheatTaken p v = Ok (takenPure p v).
Proof.
  intros Hp HW HS Hv HvW HvS. pose proof (takenPure_amounts p v Hp ltac:(apply Hv)) as Ha.
  destruct Hp as [Hn Hd]. revert Ha. unfold amountsWheatTaken, takenPure.
  destruct (_ <? _); cbn [fst snd]; intros [H1 H2 H3 H4];
    specialize (H3 W HvW); specialize (H4 S HvS).
  - rewrite (divide128_fits v _ _ W) by done. cbn [ofail obind].
    by rewrite (divide_fits _ _ _ _ S) by (try done; amounts; lia).
  - rewrite (divide128_fits v _ _ S) by done. cbn [ofail obind].
    by rewrite (divide_fits _ _ _ _ W) by (try done; amounts; lia).
Qed.

Lemma amountsWheatStays_eq p v W ss sr round :
  priceOk p → amount W → amount ss → amount sr → in_u128 v →
  v ≤ W * price_n p → v ≤ ss * price_d p → v ≤ sr * price_d p →
  amountsWheatStays p v ss sr round = Ok (staysPure p v ss sr round).
Proof.
  intros Hp HW Hss Hsr Hv HvW Hv1 Hv2.
  pose proof (staysPure_wheat p v ss sr round Hp ltac:(apply Hv)) as [H1 H2].
  pose proof (staysPure_sheep p v ss sr round Hp ltac:(apply Hv) (proj1 Hss) (proj1 Hsr) Hv1 Hv2)
    as H3.
  specialize (H2 W HvW). destruct Hp as [Hn Hd]. revert H1 H2 H3.
  unfold amountsWheatStays, staysPure.
  destruct round; try destruct (_ || _); cbn [fst snd]; intros.
  all: try rewrite (divide128_fits v (price_n p) _ W) by done.
  all: try rewrite (divide128_fits v (price_d p) _ ss) by (try done; lia).
  all: cbn [ofail obind]; try done.
  all: solve [rewrite (divide_fits _ _ _ _ ss) by (try done; amounts; lia); done
             |rewrite (divide_fits _ _ _ _ W) by (try done; amounts; lia); done].
Qed.

(** The values of the two offers, and which one stays. *)
Definition wheatValue (p : Price) (ws sr : Z) : Z := Z.min (ws * price_n p) (sr * price_d p).
Definition sheepValue (p : Price) (ss wr : Z) : Z := Z.min (ss * price_d p) (wr * price_n p).

Definition exchangePure (p : Price) (ws wr ss sr : Z) (round : RoundingType) : ExchangeResultV10 :=
  let wv := wheatValue p ws sr in
  let sv := sheepValue p ss wr in
  let a := if sv <? wv then staysPure p sv ss sr round else takenPure p wv in
  mkExchangeV10 a.1 a.2 (sv <? wv).

(** What an exchange guarantees: the limits of both parties, and that rounding
    favours the offer that stays in the book. *)
Record Exchanged (p : Price) (ws wr ss sr : Z) (r : ExchangeResultV10) : Prop := {
  ex_wheat : 0 ≤ numWheatReceived r ≤ Z.min wr ws;
  ex_sheep : 0 ≤ numSheepSend r ≤ Z.min sr ss;
  ex_favours :
    if wheatStays r then numWheatReceived r * price_n p ≤ numSheepSend r * price_d p
    else numSheepSend r * price_d p ≤ numWheatReceived r * price_n p
}.

Lemma exchangePure_ok p ws wr ss sr round :
  priceOk p → amount ws → amount wr → amount ss → amount sr →
  Exchanged p ws wr ss sr (exchangePure p ws wr ss sr round).
Proof.
  intros Hp Hws Hwr Hss Hsr. assert (0 < price_n p ∧ 0 < price_d p) as [Hn Hd] by (amounts; lia).
  unfold exchangePure, wheatValue, sheepValue.
  set (wv := Z.min (ws * price_n p) _). set (sv := Z.min (ss * price_d p) _).
  assert (0 ≤ wv ∧ 0 ≤ sv) as [? ?] by (unfold amount in *; split; apply Z.min_glb; nia).
  destruct (Z.ltb_spec sv wv).
  - pose proof (staysPure_wheat p sv ss sr round Hp ltac:(done)) as [Hw HW].
    pose proof (staysPure_sheep p sv ss sr round Hp ltac:(done) (proj1 Hss) (proj1 Hsr)
      ltac:(lia) ltac:(lia)) as Hs.
    pose proof (staysPure_favours p sv ss sr round Hp ltac:(done) ltac:(lia) ltac:(lia)).
    pose proof (HW wr ltac:(lia)). pose proof (HW ws ltac:(lia)).
    split; cbn [numWheatReceived numSheepSend wheatStays]; lia.
  - pose proof (takenPure_amounts p wv Hp ltac:(done)) as [Hw Hs HW HS].
    pose proof (takenPure_favours p wv Hp).
    pose proof (HW wr ltac:(lia)). pose proof (HW ws ltac:(lia)).
    pose proof (HS sr ltac:(lia)). pose proof (HS ss ltac:(lia)).
    split; cbn [numWheatReceived numSheepSend wheatStays]; lia.
Qed.

Lemma withoutThresholds_eq p ws wr ss sr round :
  priceOk p → amount ws → amount wr → amount ss → amount sr →
  exchangeV10WithoutPriceErrorThresholds p ws wr ss sr round =
    Ok (exchangePure p ws wr ss sr round).
Proof.
  intros Hp Hws Hwr Hss Hsr.
  pose proof (exchangePure_ok p ws wr ss sr round Hp Hws Hwr Hss Hsr) as [H1 H2 _].
  assert (1 ≤ price_n p ≤ INT32_MAX ∧ 1 ≤ price_d p ≤ INT32_MAX) as [Hn Hd] by done.
  unfold exchangeV10WithoutPriceErrorThresholds.
  rewrite !calculateOfferValue_eq by done. cbn [obind].
  change (Z.min (ws * price_n p) (sr * price_d p)) with (wheatValue p ws sr).
  change (Z.min (ss * price_d p) (wr * price_n p)) with (sheepValue p ss wr).
  assert (in_u128 (wheatValue p ws sr) ∧ in_u128 (sheepValue p ss wr)) as [Hwv Hsv].
  { pose proof (value_in_u128 ws _ Hws Hn). pose proof (value_in_u128 sr _ Hsr Hd).
    pose proof (value_in_u128 ss _ Hss Hd). pose proof (value_in_u128 wr _ Hwr Hn).
    unfold in_u128, wheatValue, sheepValue in *. lia. }
  assert ((if sheepValue p ss wr <? wheatValue p ws sr
           then amountsWheatStays p (sheepValue p ss wr) ss sr round
           else amountsWheatTaken p (wheatValue p ws sr)) =
          Ok (numWheatReceived (exchangePure p ws wr ss sr round),
              numSheepSend (exchangePure p ws wr ss sr round))) as ->.
  { unfold exchangePure. cbn [numWheatReceived numSheepSend].
    destruct (Z.ltb_spec (sheepValue p ss wr) (wheatValue p ws sr)).
    - rewrite (amountsWheatStays_eq p _ wr) by (try done; unfold sheepValue, wheatValue in *; lia).
      by destruct (staysPure _ _ _ _ _).
    - rewrite (amountsWheatTaken_eq p _ ws sr) by (try done; unfold wheatValue; lia).
      by destruct (takenPure _ _). }
  cbn [obind]. destruct (_ || _) eqn:E1.
  { apply orb_true_iff in E1 as [E|E]; apply Z.ltb_lt in E; lia. }
  clear E1. destruct (_ || _) eqn:E2; [|reflexivity].
  apply orb_true_iff in E2 as [E|E]; apply Z.ltb_lt in E; lia.
Qed.

(** The price error: [100 |n w - d s| <= n w]. *)
Definition withinError (p : Price) (w s : Z) : Prop :=
  100 * Z.abs (price_n p * w - price_d p * s) ≤ price_n p * w.

#[export] Instance withinError_dec p w s : Decision (withinError p w s).
Proof. unfold withinError. apply _. Defined.

Lemma multiply_hundred k a :
  1 ≤ k ≤ INT32_MAX → amount a → bigMultiply (s64 (100 * k)) a = Ok (100 * k * a).
Proof. intros. rewrite s64_small by (amounts; word). rewrite bigMultiply_eq; [done|amounts; lia..]. Qed.

Lemma checkPriceErrorBound_eq p w s fav :
  priceOk p → amount w → amount s →
  checkPriceErrorBound p w s fav =
    Ok ((fav && (price_n p * w <? price_d p * s)) || bool_decide (withinError p w s)).
Proof.
  intros [Hn Hd] Hw Hs. unfold checkPriceErrorBound. rewrite !multiply_hundred by done.
  rewrite (bigMultiply_eq (price_n p) w) by (amounts; lia). cbn [ofail obind].
  assert ((100 * price_n p * w <? 100 * price_d p * s) = (price_n p * w <? price_d p * s)) as ->.
  { destruct (Z.ltb_spec (price_n p * w) (price_d p * s)); [apply Z.ltb_lt|apply Z.ltb_ge]; lia. }
  destruct (fav && _) eqn:Ef; [done|]. cbn [orb]. f_equal.
  assert (∀ x, 0 ≤ x ≤ 100 * INT32_MAX * INT64_MAX → in_u128 x) as Hu.
  { unfold in_u128, UINT128_MAX, INT32_MAX, INT64_MAX. lia. }
  assert (0 ≤ 100 * price_n p * w ≤ 100 * INT32_MAX * INT64_MAX) by (amounts; nia).
  assert (0 ≤ 100 * price_d p * s ≤ 100 * INT32_MAX * INT64_MAX) by (amounts; nia).
  assert ((if 100 * price_d p * s <? 100 * price_n p * w
           then u128 (100 * price_n p * w - 100 * price_d p * s)
           else u128 (100 * price_d p * s - 100 * price_n p * w)) =
          100 * Z.abs (price_n p * w - price_d p * s)) as ->.
  { destruct (Z.ltb_spec (100 * price_d p * s) (100 * price_n p * w));
      rewrite u128_small by (apply Hu; lia); lia. }
  unfold withinError. destruct (Z.leb_spec (100 * Z.abs (price_n p * w - price_d p * s)) (price_n p * w));
    [by rewrite bool_decide_true by done|by rewrite bool_decide_false by lia].
Qed.

(** The threshold, on amounts that satisfy the guarantees of an exchange. *)
Definition thresholdPure (p : Price) (r : ExchangeResultV10) (round : RoundingType)
  : outcome ExchangeError ExchangeResultV10 :=
  let w := numWheatReceived r in
  let s := numSheepSend r in
  if (0 <? w) && (0 <? s) then
    match round with
    | NORMAL => Ok (if bool_decide (withinError p w s) then r else mkExchangeV10 0 0 (wheatStays r))
    | _ => if (price_n p * w <? price_d p * s) || bool_decide (withinError p w s) then Ok r
           else Fail ExceededPriceErrorBound
    end
  else
    match round with
    | PATH_PAYMENT_STRICT_SEND => if s =? 0 then Fail InvalidAmountOfSheepSent else Ok r
    | _ => Ok (mkExchangeV10 0 0 (wheatStays r))
    end.

Lemma applyPriceErrorThresholds_eq p ws wr ss sr r round :
  priceOk p → amount ws → amount wr → amount ss → amount sr → Exchanged p ws wr ss sr r →
  applyPriceErrorThresholds p (numWheatReceived r) (numSheepSend r) (wheatStays r) round =
    thresholdPure p r round.
Proof.
  intros Hp Hws Hwr Hss Hsr [Hw Hs Hf]. destruct r as [w s st].
  cbn [numWheatReceived numSheepSend wheatStays] in *.
  assert (amount w ∧ amount s) as [Hw' Hs'] by (unfold amount in *; lia).
  unfold applyPriceErrorThresholds, thresholdPure. cbn [numWheatReceived numSheepSend wheatStays].
  destruct (_ && _); [|done].
  rewrite (multiply_price w), (multiply_price s) by (done || apply Hp). cbn [ofail obind].
  assert (st && (s * price_d p <? w * price_n p) = false) as ->.
  { destruct st; [apply Z.ltb_ge; lia|done]. }
  assert (negb st && (w * price_n p <? s * price_d p) = false) as ->.
  { destruct st; [done|apply Z.ltb_ge; lia]. }
  destruct round; rewrite checkPriceErrorBound_eq by done; cbn [obind andb orb];
    repeat case_match; done.
Qed.

Lemma exchangeV10_eq p ws wr ss sr round :
  priceOk p → amount ws → amount wr → amount ss → amount sr →
  exchangeV10 p ws wr ss sr round = thresholdPure p (exchangePure p ws wr ss sr round) round.
Proof.
  intros. unfold exchangeV10. rewrite withoutThresholds_eq by done. cbn [obind].
  eapply applyPriceErrorThresholds_eq; [..|by apply exchangePure_ok]; done.
Qed.

(** ** Adjusted offers

    [adjustOffer] takes the whole offer with a buyer that has no limits. *)

Lemma max_amount : amount INT64_MAX.
Proof. amounts. lia. Qed.

Lemma unlimited_taken p ws sr :
  priceOk p → amount ws → amount sr →
  exchangePure p ws INT64_MAX INT64_MAX sr NORMAL =
    mkExchangeV10 (takenPure p (wheatValue p ws sr)).1 (takenPure p (wheatValue p ws sr)).2 false.
Proof.
  intros [Hn Hd] Hws Hsr. unfold exchangePure.
  assert (sheepValue p INT64_MAX INT64_MAX <? wheatValue p ws sr = false) as ->; [|done].
  apply Z.ltb_ge. unfold wheatValue, sheepValue. amounts. nia.
Qed.

(** The wheat and sheep of an offer that is taken in full by such a buyer. *)
Definition adjusted (p : Price) (ws sr : Z) : Z * Z :=
  let a := takenPure p (wheatValue p ws sr) in
  if (0 <? a.1) && (0 <? a.2) && bool_decide (withinError p a.1 a.2) then a else (0, 0).

Lemma adjustOffer_eq p ws sr :
  priceOk p → amount ws → amount sr → adjustOffer p ws sr = Ok (adjusted p ws sr).1.
Proof.
  intros Hp Hws Hsr. pose proof max_amount. unfold adjustOffer, adjusted.
  rewrite exchangeV10_eq, unlimited_taken by done. unfold thresholdPure.
  cbn [numWheatReceived numSheepSend wheatStays].
  destruct (_ && _); cbn [andb obind]; [|done]. by case_match.
Qed.

Lemma wheatValue_nonneg p ws sr : priceOk p → amount ws → amount sr → 0 ≤ wheatValue p ws sr.
Proof. intros [Hn Hd] Hws Hsr. unfold wheatValue. amounts. apply Z.min_glb; nia. Qed.

(** Replacing the amount of the offer by the wheat it would trade does not change
    the trade. *)
Lemma takenPure_stable p ws sr :
  priceOk p → amount ws → amount sr →
  takenPure p (wheatValue p (takenPure p (wheatValue p ws sr)).1 sr) =
    takenPure p (wheatValue p ws sr).
Proof.
  intros Hp Hws Hsr.
  pose proof (takenPure_amounts p _ Hp (wheatValue_nonneg p ws sr Hp Hws Hsr)) as [Hw Hs HW HS].
  pose proof (takenPure_favours p (wheatValue p ws sr) Hp) as Hf.
  specialize (HW ws ltac:(unfold wheatValue; lia)). destruct Hp as [[Hn _] [Hd _]].
  revert Hw Hs HW HS Hf. unfold takenPure. set (v := wheatValue p ws sr).
  destruct (_ <? _); cbn [fst snd]; intros.
  - pose proof (divRound_down_spec v (price_n p) ltac:(lia)).
    assert (wheatValue p (divRound v (price_n p) ROUND_DOWN) sr =
            divRound v (price_n p) ROUND_DOWN * price_n p) as ->
      by (unfold wheatValue at 1; unfold v, wheatValue in *; lia).
    set (w := divRound v (price_n p) ROUND_DOWN) in *.
    assert (divRound (w * price_n p) (price_n p) ROUND_DOWN = w) as -> by (apply Z.div_mul; lia). done.
  - set (s := divRound v (price_d p) ROUND_DOWN) in *.
    set (w := divRound (s * price_d p) (price_n p) ROUND_UP) in *.
    pose proof (divRound_down_spec v (price_d p) ltac:(lia)).
    assert (s * price_d p ≤ wheatValue p w sr ≤ v) as Hv'.
    { unfold wheatValue at 1 2. unfold v, wheatValue in *. nia. }
    pose proof (divRound_down_spec (wheatValue p w sr) (price_d p) ltac:(lia)) as Hq.
    assert (divRound (wheatValue p w sr) (price_d p) ROUND_DOWN = s) as ->; [|done].
    set (q := divRound (wheatValue p w sr) (price_d p) ROUND_DOWN) in *. fold s in H. nia.
Qed.

Lemma takenPure_0 p sr : priceOk p → 0 ≤ sr → takenPure p (wheatValue p 0 sr) = (0, 0).
Proof.
  intros [[Hn _] [Hd _]] Hsr. assert (wheatValue p 0 sr = 0) as -> by (unfold wheatValue; nia).
  assert (∀ k, 0 < k → divRound 0 k ROUND_DOWN = 0) as Hz by (intros; by apply Z.div_0_l; lia).
  unfold takenPure. cbv zeta.
  rewrite !Hz, ?Z.mul_0_l by lia.
  assert (divRound 0 (price_n p) ROUND_UP = 0) as -> by (apply Z.div_small; lia).
  by destruct (_ <? _).
Qed.

Lemma adjusted_stable p ws sr :
  priceOk p → amount ws → amount sr → adjusted p (adjusted p ws sr).1 sr = adjusted p ws sr.
Proof.
  intros Hp Hws Hsr. unfold adjusted at 2 3. destruct (_ && _ && _) eqn:E.
  - unfold adjusted. rewrite takenPure_stable by done. by rewrite E.
  - unfold adjusted. cbn [fst]. by rewrite takenPure_0 by (try done; apply Hsr).
Qed.

Lemma adjusted_bounds p ws sr :
  priceOk p → amount ws → amount sr →
  0 ≤ (adjusted p ws sr).1 ≤ ws ∧ 0 ≤ (adjusted p ws sr).2 ≤ sr.
Proof.
  intros Hp Hws Hsr.
  pose proof (takenPure_amounts p _ Hp (wheatValue_nonneg p ws sr Hp Hws Hsr)) as [Hw Hs HW HS].
  specialize (HW ws ltac:(unfold wheatValue; lia)). specialize (HS sr ltac:(unfold wheatValue; lia)).
  unfold adjusted. destruct (_ && _); cbn [fst snd]; unfold amount in *; lia.
Qed.

(** A positive adjusted offer trades its whole amount. *)
Lemma adjusted_full p a sr :
  priceOk p → amount a → amount sr → 0 < a → (adjusted p a sr).1 = a →
  adjusted p a sr = takenPure p (wheatValue p a sr) ∧
  0 < (adjusted p a sr).2 ∧ withinError p a (adjusted p a sr).2.
Proof.
  intros Hp Ha Hsr H0. unfold adjusted. destruct (_ && _ && _) eqn:E; cbn [fst snd]; [|lia].
  apply andb_prop in E as [[E1 E2]%andb_prop E3]. apply Z.ltb_lt in E2.
  apply bool_decide_eq_true in E3. intros Hfix. by rewrite Hfix in E3.
Qed.

(** The liabilities of an adjusted offer are those of its book limits: with the
    seller's own limit lifted, the same amounts are traded. *)
Lemma adjusted_liabilities p a sr :
  priceOk p → amount a → amount sr → 0 < a → (adjusted p a sr).1 = a →
  takenPure p (wheatValue p a INT64_MAX) = adjusted p a sr.
Proof.
  intros Hp Ha Hsr H0 Hfix. destruct (adjusted_full p a sr Hp Ha Hsr H0 Hfix) as [E _].
  rewrite E in Hfix |- *. clear E. pose proof (takenPure_favours p (wheatValue p a sr) Hp) as Hf.
  revert Hfix Hf. destruct Hp as [[Hn Hn'] [Hd Hd']]. unfold takenPure.
  destruct (Z.ltb_spec (price_d p) (price_n p)); cbn [fst snd].
  - intros Hfix _. rewrite Hfix.
    pose proof (divRound_down_spec (wheatValue p a sr) (price_n p) ltac:(lia)).
    assert (wheatValue p a INT64_MAX = a * price_n p) as ->.
    { unfold wheatValue in *. amounts. nia. }
    assert (divRound (a * price_n p) (price_n p) ROUND_DOWN = a) as -> by (apply Z.div_mul; lia).
    done.
  - intros Hfix Hf. set (s := divRound (wheatValue p a sr) (price_d p) ROUND_DOWN) in *.
    pose proof (divRound_up_spec (s * price_d p) (price_n p) ltac:(lia)) as Hu. rewrite Hfix in Hu, Hf |- *.
    assert (wheatValue p a INT64_MAX = a * price_n p) as -> by (unfold wheatValue; amounts; nia).
    pose proof (divRound_down_spec (a * price_n p) (price_d p) ltac:(lia)) as Hq.
    set (q := divRound (a * price_n p) (price_d p) ROUND_DOWN) in *.
    assert (q = s) as -> by nia. by rewrite Hfix.
Qed.

(** ** The rules before protocol version 10 *)

Lemma divideOrMax_spec A B C r :
  amount A → 1 ≤ B ≤ INT32_MAX → 1 ≤ C ≤ INT32_MAX →
  divideOrMax A B C r = Ok (Z.min (divRound (A * B) C r) INT64_MAX,
                            INT64_MAX <? divRound (A * B) C r).
Proof.
  intros HA HB HC. unfold divideOrMax. rewrite bigDivideS64_eq by (amounts; lia). cbn [ofail obind].
  destruct (Z.leb_spec (divRound (A * B) C r) INT64_MAX), (Z.ltb_spec INT64_MAX (divRound (A * B) C r));
    try lia; f_equal; f_equal; lia.
Qed.

(** What they guarantee: the limits, and that the seller in the book is
    favoured. *)
Definition oldExchanged (p : Price) (wheat maxWheat maxSheep : Z) (r : ExchangeResult) : Prop :=
  0 ≤ x_numWheatReceived r ≤ Z.min wheat maxWheat ∧
  0 ≤ x_numSheepSend r ≤ maxSheep ∧
  x_numWheatReceived r * price_n p ≤ x_numSheepSend r * price_d p.

Lemma exchangeV2_ok p wheat maxWheat maxSheep :
  priceOk p → amount wheat → amount maxWheat → amount maxSheep →
  ∃ r, exchangeV2 wheat p maxWheat maxSheep = Ok r ∧ oldExchanged p wheat maxWheat maxSheep r.
Proof.
  intros [Hn Hd] H1 H2 H3. unfold exchangeV2. set (w := Z.min wheat maxWheat).
  assert (amount w) as Hw by (unfold amount, w in *; lia).
  rewrite divideOrMax_spec by done. cbn [obind fst snd].
  set (q := divRound (w * price_n p) (price_d p) ROUND_DOWN).
  pose proof (divRound_down_spec (w * price_n p) (price_d p) ltac:(lia)) as Hq. fold q in Hq.
  assert (0 ≤ q) by (apply divRound_nonneg; unfold amount in *; nia).
  set (s := Z.min (Z.min q INT64_MAX) maxSheep).
  assert (amount s) as Hs by (unfold amount, s in *; lia).
  assert (s * price_d p ≤ w * price_n p) as Hsw.
  { assert (s ≤ q) by (unfold s; lia). nia. }
  rewrite (divide_fits s _ _ _ w) by (try done; apply down_limit; lia). cbn [ofail obind].
  pose proof (divRound_down_spec (s * price_d p) (price_n p) ltac:(lia)).
  eexists. split; [done|]. split; [|split]; cbn [x_numWheatReceived x_numSheepSend].
  - split; [apply divRound_nonneg; unfold amount in *; nia|apply down_limit; [lia|done]].
  - unfold amount, s in *. lia.
  - lia.
Qed.

Lemma exchangeV3_ok p wheat maxWheat maxSheep :
  priceOk p → amount wheat → amount maxWheat → amount maxSheep →
  ∃ r, exchangeV3 wheat p maxWheat maxSheep = Ok r ∧ oldExchanged p wheat maxWheat maxSheep r.
Proof.
  intros [Hn Hd] H1 H2 H3. unfold exchangeV3. set (w := Z.min wheat maxWheat).
  assert (amount w) as Hw by (unfold amount, w in *; lia).
  rewrite divideOrMax_spec by done. cbn [obind fst snd].
  assert (0 ≤ divRound (w * price_n p) (price_d p) ROUND_UP)
    by (apply divRound_nonneg; unfold amount in *; nia).
  set (s := Z.min (Z.min (divRound (w * price_n p) (price_d p) ROUND_UP) INT64_MAX) maxSheep).
  assert (amount s) as Hs by (unfold amount, s in *; lia).
  rewrite divideOrMax_spec by done. cbn [obind fst snd].
  pose proof (divRound_down_spec (s * price_d p) (price_n p) ltac:(lia)) as Hq.
  assert (0 ≤ divRound (s * price_d p) (price_n p) ROUND_DOWN)
    by (apply divRound_nonneg; unfold amount in *; nia).
  eexists. split; [done|]. split; [|split]; cbn [x_numWheatReceived x_numSheepSend].
  - unfold amount, w in *. lia.
  - unfold amount, s in *. lia.
  - set (q := divRound (s * price_d p) (price_n p) ROUND_DOWN) in *. nia.
Qed.

(** ** Properties *)

(** C32: for any valid price and limits, [exchangeV10] in mode NORMAL never throws;
    what changes hands respects the limits of both parties, rounding favours the
    offer that stays in the book, and either nothing is traded or both amounts
    are positive and the effective price is within 1% of the price. *)
Theorem exchangeV10_guarantees p ws wr ss sr :
  priceOk p → amount ws → amount wr → amount ss → amount sr →
  ∃ r, exchangeV10 p ws wr ss sr NORMAL = Ok r ∧ Exchanged p ws wr ss sr r ∧
    wheatStays r = (sheepValue p ss wr <? wheatValue p ws sr) ∧
    ((numWheatReceived r = 0 ∧ numSheepSend r = 0) ∨
     (0 < numWheatReceived r ∧ 0 < numSheepSend r ∧
      withinError p (numWheatReceived r) (numSheepSend r))).
Proof.
  intros Hp Hws Hwr Hss Hsr. rewrite exchangeV10_eq by done.
  pose proof (exchangePure_ok p ws wr ss sr NORMAL Hp Hws Hwr Hss Hsr) as He.
  assert (∀ st, Exchanged p ws wr ss sr (mkExchangeV10 0 0 st)) as H0.
  { intros st. split; cbn [numWheatReceived numSheepSend wheatStays];
      [unfold amount in *; lia..|by destruct st]. }
  unfold thresholdPure. destruct (_ && _) eqn:E; [|by eexists; eauto 6].
  apply andb_prop in E as [E1%Z.ltb_lt E2%Z.ltb_lt].
  destruct (decide (withinError p (numWheatReceived (exchangePure p ws wr ss sr NORMAL))
                      (numSheepSend (exchangePure p ws wr ss sr NORMAL)))) as [Hd|Hd].
  - rewrite bool_decide_true by done. eexists. split; [done|]. split; [done|]. split; [done|].
    by right.
  - rewrite bool_decide_false by done. eexists. split; [done|]. split; [done|]. split; [done|].
    by left.
Qed.

Lemma exchangeV10_guarantees_witness :
  ∃ r, exchangeV10 (mkPrice 2 3) 150 101 1000 1000 NORMAL = Ok r ∧
    Exchanged (mkPrice 2 3) 150 101 1000 1000 r.
Proof.
  destruct (exchangeV10_guarantees (mkPrice 2 3) 150 101 1000 1000) as (r & H1 & H2 & _);
    [by split; unfold INT32_MAX; simpl; lia|unfold amount, INT64_MAX; lia..|by exists r].
Defined.

(** Adjusting an adjusted offer changes nothing, [adjustOffer] never throws and
    never raises the amount. *)
Theorem adjustOffer_idempotent p ws sr :
  priceOk p → amount ws → amount sr →
  ∃ a, adjustOffer p ws sr = Ok a ∧ 0 ≤ a ≤ ws ∧ adjustOffer p a sr = Ok a.
Proof.
  intros Hp Hws Hsr. pose proof (adjusted_bounds p ws sr Hp Hws Hsr) as [Hb _].
  exists (adjusted p ws sr).1. split; [by apply adjustOffer_eq|]. split; [done|].
  rewrite adjustOffer_eq, adjusted_stable by (try done; unfold amount in *; lia). done.
Qed.

Lemma adjustOffer_idempotent_witness :
  ∃ a, adjustOffer (mkPrice 3 7) 1000 400 = Ok a ∧ 0 ≤ a ≤ 1000 ∧
    adjustOffer (mkPrice 3 7) a 400 = Ok a.
Proof.
  apply (adjustOffer_idempotent (mkPrice 3 7) 1000 400);
    [by split; unfold INT32_MAX; simpl; lia|unfold amount, INT64_MAX; lia..].
Defined.

(** When the rounding favours wheat the path payment check passes. *)
Lemma favoured_within p w s :
  priceOk p → 0 ≤ w → w * price_n p ≤ s * price_d p →
  (price_n p * w <? price_d p * s) || bool_decide (withinError p w s) = true.
Proof.
  intros [[Hn _] _] Hw Hf. destruct (Z.ltb_spec (price_n p * w) (price_d p * s)); [done|].
  apply bool_decide_eq_true. unfold withinError.
  assert (price_n p * w - price_d p * s = 0) as -> by lia.
  change (100 * Z.abs 0) with 0. apply Z.mul_nonneg_nonneg; lia.
Qed.

(** A path payment that leaves the wheat offer in the book passes the checks. *)
Lemma stays_threshold p ws wr ss sr round :
  priceOk p → amount ws → amount wr → amount ss → amount sr → 0 < ss → 0 < sr → round ≠ NORMAL →
  let r := exchangePure p ws wr ss sr round in
  wheatStays r = true → thresholdPure p r round = Ok r.
Proof.
  intros Hp Hws Hwr Hss Hsr H1 H2 Hround r Est.
  pose proof (exchangePure_ok p ws wr ss sr round Hp Hws Hwr Hss Hsr) as [Hw0 Hs0 Hf].
  fold r in Hw0, Hs0, Hf. rewrite Est in Hf. pose proof (favoured_within p _ _ Hp (proj1 Hw0) Hf) as Hb.
  unfold thresholdPure. destruct (Z.ltb_spec 0 (numWheatReceived r)) as [Hw|Hw];
    [destruct (Z.ltb_spec 0 (numSheepSend r)) as [Hs|Hs]|]; cbn [andb].
  - rewrite Hb. by destruct round.
  - exfalso. destruct Hp as [[? _] [? _]]. nia.
  - assert (numWheatReceived r = 0) as Hw1 by lia. clear Hw Hb Hf Hw0 Hs0.
    unfold r, exchangePure in Est, Hw1 |- *. cbn [numWheatReceived numSheepSend wheatStays] in *.
    rewrite Est in *. unfold staysPure in *. destruct round; [done| |]; cbn [fst snd] in *.
    + destruct (Z.eqb_spec (Z.min ss sr) 0); [lia|done].
    + rewrite orb_true_r in *. cbn [fst snd] in *. rewrite Hw1. do 2 f_equal.
      symmetry. apply Z.div_small. destruct Hp as [? [? _]]. lia.
Qed.

(** An adjusted offer that is taken is taken in full, at the price it was adjusted
    for, and so passes the checks in every mode. *)
Lemma taken_threshold p ws wr ss sr round :
  priceOk p → amount ws → amount sr → 0 < ws → (adjusted p ws sr).1 = ws →
  let r := exchangePure p ws wr ss sr round in
  wheatStays r = false → thresholdPure p r round = Ok r ∧ numWheatReceived r = ws.
Proof.
  intros Hp Hws Hsr H1 Hfix r Est.
  destruct (adjusted_full p ws sr Hp Hws Hsr H1 Hfix) as (Ht & Hs & Herr).
  assert (numWheatReceived r = ws ∧ numSheepSend r = (adjusted p ws sr).2) as [E1 E2].
  { unfold r, exchangePure in Est |- *. cbn [numWheatReceived numSheepSend wheatStays] in *.
    rewrite Est, <- Ht. by rewrite Hfix. }
  split; [|done]. unfold thresholdPure. rewrite E1, E2, !(proj2 (Z.ltb_lt _ _)) by done.
  cbn [andb]. rewrite (bool_decide_true (withinError _ _ _)), orb_true_r by done. by destruct round.
Qed.

(** What a path payment gets when the offer stays: with STRICT_RECEIVE all the
    wheat asked for, if there is sheep enough for it; with STRICT_SEND all the
    sheep is sent, and one more unit of wheat would be too cheap. *)
Definition pathPayment (p : Price) (wr ss sr : Z) (round : RoundingType) (w s : Z) : Prop :=
  match round with
  | NORMAL => True
  | PATH_PAYMENT_STRICT_RECEIVE => wr * price_n p ≤ ss * price_d p → w = wr
  | PATH_PAYMENT_STRICT_SEND =>
      s = Z.min ss sr ∧ (w < wr → s * price_d p < (w + 1) * price_n p)
  end.

Lemma stays_pathPayment p ws wr ss sr round :
  priceOk p → amount wr → amount ss → amount sr →
  let r := exchangePure p ws wr ss sr round in
  wheatStays r = true → pathPayment p wr ss sr round (numWheatReceived r) (numSheepSend r).
Proof.
  intros Hp Hwr Hss Hsr r Est. unfold r, exchangePure in Est |- *.
  cbn [numWheatReceived numSheepSend wheatStays] in *. rewrite Est. destruct Hp as [[Hn _] [Hd _]].
  pose proof (divRound_down_spec (sheepValue p ss wr) (price_n p) ltac:(lia)) as Hq.
  destruct round; cbn [pathPayment]; [done| |].
  - unfold staysPure. cbn [fst snd]. split; [done|]. intros Hw.
    set (q := divRound _ _ _) in *. unfold sheepValue in Hq.
    assert (ss * price_d p < (q + 1) * price_n p) by nia.
    assert (Z.min ss sr * price_d p ≤ ss * price_d p) by nia. lia.
  - intros Hle. unfold staysPure. rewrite orb_true_r. cbn [fst].
    assert (sheepValue p ss wr = wr * price_n p) as -> by (unfold sheepValue; lia).
    apply Z.div_mul. lia.
Qed.

(** An exchange with an adjusted offer never throws, in any mode: the offer is
    taken in full, or it stays and a path payment gets what its mode promises. *)
Theorem exchangeV10_adjusted p ws wr ss sr round :
  priceOk p → amount ws → amount wr → amount ss → amount sr → 0 < ws → 0 < wr → 0 < ss →
  adjustOffer p ws sr = Ok ws →
  ∃ r, exchangeV10 p ws wr ss sr round = Ok r ∧
    (if wheatStays r then pathPayment p wr ss sr round (numWheatReceived r) (numSheepSend r)
     else numWheatReceived r = ws).
Proof.
  intros Hp Hws Hwr Hss Hsr H1 H2 H3 Hadj. rewrite adjustOffer_eq in Hadj by done.
  injection Hadj as Hfix. rewrite exchangeV10_eq by done.
  assert (0 < sr) as Hsr0.
  { pose proof (adjusted_bounds p ws sr Hp Hws Hsr).
    pose proof (adjusted_full p ws sr Hp Hws Hsr H1 Hfix). lia. }
  destruct (wheatStays (exchangePure p ws wr ss sr round)) eqn:Est.
  - destruct (decide (round = NORMAL)) as [->|Hround].
    + unfold thresholdPure. destruct (_ && _); [destruct (bool_decide _)|]; eexists; (split; [done|]);
        cbn [wheatStays]; by rewrite Est.
    + eexists. split; [by apply stays_threshold|]. rewrite Est. by apply stays_pathPayment.
  - destruct (taken_threshold p ws wr ss sr round) as [E Hw]; try done.
    eexists. split; [exact E|]. by rewrite Est.
Qed.

Lemma exchangeV10_adjusted_witness :
  adjustOffer (mkPrice 2 3) 150 1000 = Ok 150 ∧
  ∃ r, exchangeV10 (mkPrice 2 3) 150 101 1000 1000 PATH_PAYMENT_STRICT_RECEIVE = Ok r ∧
    (if wheatStays r
     then pathPayment (mkPrice 2 3) 101 1000 1000 PATH_PAYMENT_STRICT_RECEIVE
            (numWheatReceived r) (numSheepSend r)
     else numWheatReceived r = 150).
Proof.
  split; [vm_compute; reflexivity|].
  apply (exchangeV10_adjusted (mkPrice 2 3) 150 101 1000 1000 PATH_PAYMENT_STRICT_RECEIVE);
    [by split; unfold INT32_MAX; simpl; lia|unfold amount, INT64_MAX; lia..|lia|lia|lia|].
  vm_compute; reflexivity.
Defined.
