(* ===== verification/LedgerEntries.v ===== *)
(** * Ledger entries (DigitalBits-ledger-entries.x, src/transactions/TransactionUtils.cpp)

    The entries of the ledger, their keys and extensions.  Account identities,
    signer keys and balance identities are only compared: they are [Z].  An
    optional extension of the XDR is an [option]. *)

From stdpp Require Import prelude list gmap countable.
From Stdlib Require Import ZArith Lia.
From S2P Require Import Prelude Numeric Exchange.
Local Open Scope Z_scope.

Notation AccountID := Z (only parsing).

(** ** Data *)

Inductive Asset : Type :=
| ASSET_TYPE_NATIVE
| ASSET_TYPE_CREDIT_ALPHANUM4 (assetCode : list Z) (issuer : AccountID)
| ASSET_TYPE_CREDIT_ALPHANUM12 (assetCode : list Z) (issuer : AccountID).

#[export] Instance Asset_eq_dec : EqDecision Asset.
Proof. solve_decision. Defined.

#[export] Instance Asset_countable : Countable Asset.
Proof.
  refine (inj_countable'
    (λ a, match a with
          | ASSET_TYPE_NATIVE => None
          | ASSET_TYPE_CREDIT_ALPHANUM4 c i => Some (false, c, i)
          | ASSET_TYPE_CREDIT_ALPHANUM12 c i => Some (true, c, i)
          end)
    (λ x, match x with
          | None => ASSET_TYPE_NATIVE
          | Some (false, c, i) => ASSET_TYPE_CREDIT_ALPHANUM4 c i
          | Some (true, c, i) => ASSET_TYPE_CREDIT_ALPHANUM12 c i
          end) _); by intros [].
Defined.

Definition isNative (a : Asset) : bool :=
  match a with ASSET_TYPE_NATIVE => true | _ => false end.

Record Liabilities : Type := { buying : Z; selling : Z }.

Record Signer : Type := { key : Z; weight : Z }.

Record AccountEntryExtensionV2 : Type := {
  numSponsored : Z;
  numSponsoring : Z;
  signerSponsoringIDs : list (option AccountID)
}.

Record AccountEntryExtensionV1 : Type := {
  a_liabilities : Liabilities;
  a_extV2 : option AccountEntryExtensionV2
}.

Record AccountEntry : Type := {
  a_accountID : AccountID;
  a_balance : Z;
  seqNum : Z;
  numSubEntries : Z;
  inflationDest : option AccountID;
  a_flags : Z;
  homeDomain : list Z;
  thresholds : list Z;
  signers : list Signer;
  a_extV1 : option AccountEntryExtensionV1
}.

Record TrustLineEntry : Type := {
  tl_accountID : AccountID;
  tl_asset : Asset;
  tl_balance : Z;
  limit : Z;
  tl_flags : Z;
  tl_extV1 : option Liabilities
}.

#[export] Instance Liabilities_eq_dec : EqDecision Liabilities.
Proof. solve_decision. Defined.
#[export] Instance Signer_eq_dec : EqDecision Signer.
Proof. solve_decision. Defined.
#[export] Instance AccountEntryExtensionV2_eq_dec : EqDecision AccountEntryExtensionV2.
Proof. solve_decision. Defined.
#[export] Instance AccountEntryExtensionV1_eq_dec : EqDecision AccountEntryExtensionV1.
Proof. solve_decision. Defined.
#[export] Instance AccountEntry_eq_dec : EqDecision AccountEntry.
Proof. solve_decision. Defined.

Record OfferEntry : Type := {
  o_sellerID : AccountID;
  o_offerID : Z;
  o_selling : Asset;
  o_buying : Asset;
  o_amount : Z;
  o_price : Price;
  o_flags : Z
}.

Record DataEntry : Type := {
  d_accountID : AccountID;
  dataName : list Z;
  dataValue : list Z
}.

Inductive ClaimPredicate : Type :=
| CLAIM_PREDICATE_UNCONDITIONAL
| CLAIM_PREDICATE_AND (andPredicates : list ClaimPredicate)
| CLAIM_PREDICATE_OR (orPredicates : list ClaimPredicate)
| CLAIM_PREDICATE_NOT (notPredicate : option ClaimPredicate)
| CLAIM_PREDICATE_BEFORE_ABSOLUTE_TIME (absBefore : Z)
| CLAIM_PREDICATE_BEFORE_RELATIVE_TIME (relBefore : Z).

Record Claimant : Type := {
  destination : AccountID;
  predicate : ClaimPredicate
}.

Record ClaimableBalanceEntry : Type := {
  balanceID : Z;
  claimants : list Claimant;
  cb_asset : Asset;
  cb_amount : Z
}.

Inductive LedgerEntryData : Type :=
| ACCOUNT (account : AccountEntry)
| TRUSTLINE (trustLine : TrustLineEntry)
| OFFER (offer : OfferEntry)
| DATA (data : DataEntry)
| CLAIMABLE_BALANCE (claimableBalance : ClaimableBalanceEntry).

(** [le_ext] is the extension V1 with its [sponsoringID]. *)
Record LedgerEntry : Type := {
  lastModifiedLedgerSeq : Z;
  data : LedgerEntryData;
  le_ext : option (option AccountID)
}.

#[export] Instance ClaimPredicate_eq_dec : EqDecision ClaimPredicate.
Proof.
  refine (fix go (x y : ClaimPredicate) {struct x} : Decision (x = y) :=
    let H : EqDecision ClaimPredicate := go in
    match x, y with
    | CLAIM_PREDICATE_UNCONDITIONAL, CLAIM_PREDICATE_UNCONDITIONAL => left eq_refl
    | CLAIM_PREDICATE_AND a, CLAIM_PREDICATE_AND b => cast_if (decide (a = b))
    | CLAIM_PREDICATE_OR a, CLAIM_PREDICATE_OR b => cast_if (decide (a = b))
    | CLAIM_PREDICATE_NOT a, CLAIM_PREDICATE_NOT b => cast_if (decide (a = b))
    | CLAIM_PREDICATE_BEFORE_ABSOLUTE_TIME a, CLAIM_PREDICATE_BEFORE_ABSOLUTE_TIME b => cast_if (decide (a = b))
    | CLAIM_PREDICATE_BEFORE_RELATIVE_TIME a, CLAIM_PREDICATE_BEFORE_RELATIVE_TIME b => cast_if (decide (a = b))
    | _, _ => right _
    end); congruence.
Defined.
#[export] Instance Claimant_eq_dec : EqDecision Claimant.
Proof. solve_decision. Defined.
#[export] Instance ClaimableBalanceEntry_eq_dec : EqDecision ClaimableBalanceEntry.
Proof. solve_decision. Defined.
#[export] Instance DataEntry_eq_dec : EqDecision DataEntry.
Proof. solve_decision. Defined.
#[export] Instance Price_eq_dec : EqDecision Price.
Proof. solve_decision. Defined.
#[export] Instance OfferEntry_eq_dec : EqDecision OfferEntry.
Proof. solve_decision. Defined.
#[export] Instance TrustLineEntry_eq_dec : EqDecision TrustLineEntry.
Proof. solve_decision. Defined.
#[export] Instance LedgerEntryData_eq_dec : EqDecision LedgerEntryData.
Proof. solve_decision. Defined.
#[export] Instance LedgerEntry_eq_dec : EqDecision LedgerEntry.
Proof. solve_decision. Defined.

Inductive LedgerKey : Type :=
| KEY_ACCOUNT (accountID : AccountID)
| KEY_TRUSTLINE (accountID : AccountID) (asset : Asset)
| KEY_OFFER (sellerID : AccountID) (offerID : Z)
| KEY_DATA (accountID : AccountID) (name : list Z)
| KEY_CLAIMABLE_BALANCE (id : Z).

#[export] Instance LedgerKey_eq_dec : EqDecision LedgerKey.
Proof. solve_decision. Defined.

#[export] Instance LedgerKey_countable : Countable LedgerKey.
Proof.
  refine (inj_countable'
    (λ k, match k with
          | KEY_ACCOUNT a => inl (inl (inl (inl a)))
          | KEY_TRUSTLINE a b => inl (inl (inl (inr (a, b))))
          | KEY_OFFER a b => inl (inl (inr (a, b)))
          | KEY_DATA a b => inl (inr (a, b))
          | KEY_CLAIMABLE_BALANCE a => inr a
          end)
    (λ x, match x with
          | inl (inl (inl (inl a))) => KEY_ACCOUNT a
          | inl (inl (inl (inr (a, b)))) => KEY_TRUSTLINE a b
          | inl (inl (inr (a, b))) => KEY_OFFER a b
          | inl (inr (a, b)) => KEY_DATA a b
          | inr a => KEY_CLAIMABLE_BALANCE a
          end) _); by intros [].
Defined.

(** [LedgerEntryKey] (util/types.cpp) *)
Definition LedgerEntryKey (e : LedgerEntry) : LedgerKey :=
  match data e with
  | ACCOUNT a => KEY_ACCOUNT (a_accountID a)
  | TRUSTLINE t => KEY_TRUSTLINE (tl_accountID t) (tl_asset t)
  | OFFER o => KEY_OFFER (o_sellerID o) (o_offerID o)
  | DATA d => KEY_DATA (d_accountID d) (dataName d)
  | CLAIMABLE_BALANCE c => KEY_CLAIMABLE_BALANCE (balanceID c)
  end.

(** The fields of [LedgerHeader] the modelled code reads or writes. *)
Record LedgerHeader : Type := {
  ledgerVersion : Z;
  ledgerSeq : Z;
  closeTime : Z;
  totalCoins : Z;
  feePool : Z;
  inflationSeq : Z;
  idPool : Z;
  baseFee : Z;
  baseReserve : Z;
  maxTxSetSize : Z;
  previousLedgerHash : Z;
  bucketListHash : Z;
  skipList : list Z
}.

(** [getIssuer] (util/types.cpp): reading the wrong arm of the union throws, which a
    native asset does. *)
Definition getIssuer (a : Asset) : option AccountID :=
  match a with
  | ASSET_TYPE_NATIVE => None
  | ASSET_TYPE_CREDIT_ALPHANUM4 _ i | ASSET_TYPE_CREDIT_ALPHANUM12 _ i => Some i
  end.

(** ** Updating a field of an entry *)

Definition set_a_balance (x : Z) (a : AccountEntry) : AccountEntry :=
  {| a_accountID := a_accountID a; a_balance := x; seqNum := seqNum a;
     numSubEntries := numSubEntries a; inflationDest := inflationDest a; a_flags := a_flags a;
     homeDomain := homeDomain a; thresholds := thresholds a; signers := signers a;
     a_extV1 := a_extV1 a |}.

Definition set_seqNum (x : Z) (a : AccountEntry) : AccountEntry :=
  {| a_accountID := a_accountID a; a_balance := a_balance a; seqNum := x;
     numSubEntries := numSubEntries a; inflationDest := inflationDest a; a_flags := a_flags a;
     homeDomain := homeDomain a; thresholds := thresholds a; signers := signers a;
     a_extV1 := a_extV1 a |}.

Definition set_numSubEntries (x : Z) (a : AccountEntry) : AccountEntry :=
  {| a_accountID := a_accountID a; a_balance := a_balance a; seqNum := seqNum a;
     numSubEntries := x; inflationDest := inflationDest a; a_flags := a_flags a;
     homeDomain := homeDomain a; thresholds := thresholds a; signers := signers a;
     a_extV1 := a_extV1 a |}.

Definition set_signers (x : list Signer) (a : AccountEntry) : AccountEntry :=
  {| a_accountID := a_accountID a; a_balance := a_balance a; seqNum := seqNum a;
     numSubEntries := numSubEntries a; inflationDest := inflationDest a; a_flags := a_flags a;
     homeDomain := homeDomain a; thresholds := thresholds a; signers := x;
     a_extV1 := a_extV1 a |}.

Definition set_a_extV1 (x : option AccountEntryExtensionV1) (a : AccountEntry) : AccountEntry :=
  {| a_accountID := a_accountID a; a_balance := a_balance a; seqNum := seqNum a;
     numSubEntries := numSubEntries a; inflationDest := inflationDest a; a_flags := a_flags a;
     homeDomain := homeDomain a; thresholds := thresholds a; signers := signers a;
     a_extV1 := x |}.

Definition set_tl_balance (x : Z) (t : TrustLineEntry) : TrustLineEntry :=
  {| tl_accountID := tl_accountID t; tl_asset := tl_asset t; tl_balance := x; limit := limit t;
     tl_flags := tl_flags t; tl_extV1 := tl_extV1 t |}.

Definition set_tl_flags (x : Z) (t : TrustLineEntry) : TrustLineEntry :=
  {| tl_accountID := tl_accountID t; tl_asset := tl_asset t; tl_balance := tl_balance t;
     limit := limit t; tl_flags := x; tl_extV1 := tl_extV1 t |}.

Definition set_tl_extV1 (x : option Liabilities) (t : TrustLineEntry) : TrustLineEntry :=
  {| tl_accountID := tl_accountID t; tl_asset := tl_asset t; tl_balance := tl_balance t;
     limit := limit t; tl_flags := tl_flags t; tl_extV1 := x |}.

Definition set_o_amount (x : Z) (o : OfferEntry) : OfferEntry :=
  {| o_sellerID := o_sellerID o; o_offerID := o_offerID o; o_selling := o_selling o;
     o_buying := o_buying o; o_amount := x; o_price := o_price o; o_flags := o_flags o |}.

Definition set_data (x : LedgerEntryData) (e : LedgerEntry) : LedgerEntry :=
  {| lastModifiedLedgerSeq := lastModifiedLedgerSeq e; data := x; le_ext := le_ext e |}.

Definition set_le_ext (x : option (option AccountID)) (e : LedgerEntry) : LedgerEntry :=
  {| lastModifiedLedgerSeq := lastModifiedLedgerSeq e; data := data e; le_ext := x |}.

(** ** Extensions (TransactionUtils.cpp) *)

(** The extension as it is after [prepareAccountEntryExtensionV1]. *)
Definition prepareAccountEntryExtensionV1 (ae : AccountEntry) : AccountEntryExtensionV1 :=
  match a_extV1 ae with
  | None => {| a_liabilities := {| buying := 0; selling := 0 |}; a_extV2 := None |}
  | Some v1 => v1
  end.

(** The extension V2 as it is after [prepareAccountEntryExtensionV2]. *)
Definition prepareAccountEntryExtensionV2 (ae : AccountEntry) : AccountEntryExtensionV2 :=
  match a_extV2 (prepareAccountEntryExtensionV1 ae) with
  | None => {| numSponsored := 0; numSponsoring := 0;
               signerSponsoringIDs := replicate (length (signers ae)) None |}
  | Some v2 => v2
  end.

Definition set_liabilities (l : Liabilities) (ae : AccountEntry) : AccountEntry :=
  set_a_extV1 (Some {| a_liabilities := l;
                       a_extV2 := a_extV2 (prepareAccountEntryExtensionV1 ae) |}) ae.

(** Stores the extension V2, creating V1 when it is missing. *)
Definition set_extV2 (v2 : AccountEntryExtensionV2) (ae : AccountEntry) : AccountEntry :=
  set_a_extV1 (Some {| a_liabilities := a_liabilities (prepareAccountEntryExtensionV1 ae);
                       a_extV2 := Some v2 |}) ae.

Definition prepareTrustLineEntryExtensionV1 (tl : TrustLineEntry) : Liabilities :=
  match tl_extV1 tl with
  | None => {| buying := 0; selling := 0 |}
  | Some l => l
  end.

Definition prepareLedgerEntryExtensionV1 (le : LedgerEntry) : option AccountID :=
  match le_ext le with
  | None => None
  | Some sponsoringID => sponsoringID
  end.

(** [hasAccountEntryExtV2], with the extension it finds. *)
Definition accountExtV2 (ae : AccountEntry) : option AccountEntryExtensionV2 :=
  match a_extV1 ae with
  | Some v1 => a_extV2 v1
  | None => None
  end.
