(* ===== verification/Balances.v ===== *)
(** * Balances and liabilities (src/transactions/TransactionUtils.cpp,
      src/ledger/TrustLineWrapper.cpp, src/util/types.cpp)

    What an account or a trust line can send, receive and promise.  Functions that
    modify an entry return the new one; [int64_t] operations that the compiler
    does not check are followed by their truncation. *)

From stdpp Require Import prelude list gmap.
From Stdlib Require Import ZArith Lia.
From S2P Require Import Prelude Numeric Exchange LedgerEntries.
Local Open Scope Z_scope.

(** The exceptions of the ledger code. *)
Inductive LedgerError : Type :=
| InExchange (e : ExchangeError)
| AssertionFailed
| WrongUnionArm
| UnknownLedgerEntryType
| InvalidAuthorization
| InvalidTrustLineFlag
| LiabilitiesBeforeVersion10
| OfferLiabilitiesBeforeVersion10
| UnexpectedSponsorshipState
| UnexpectedAccountState
| TrustLineWrapperNotActive
| TrustlineForNativeAsset
| SponsorshipDoesNotMatch
| ExpectedAccountEntryExtensionV2
| ExpectedLedgerEntryExtensionV1
| SponsorshipBeforeVersion14
| SponsoringSponsoredEntry
| RemovingSponsorshipOnUnsponsoredEntry
| TransferringSponsorshipOnUnsponsoredEntry
| BadSignerSponsorship
| SignerOutOfRange
| InsufficientNumSponsoring
| InsufficientNumSponsored
| InvalidAccountState
| InvalidSponsoringAccountState
| InvalidSponsoredAccountState
| InvalidSponsoredAccount
| SponsoringIDIsSourceAccount
| BuyingAndSellingSameAsset
| AccountDoesNotExist
| TrustlineDoesNotExist
| CouldNotAddBuyingLiabilities
| CouldNotAddSellingLiabilities
| OfferWithoutAccount
| OverflowedSheepBalance
| OverflowedWheatBalance
| NullEntry
| LoopFuelExhausted.

Notation LE := (outcome LedgerError).

(** [bool addBalance(int64_t& balance, int64_t delta, int64_t maxBalance)]: the new
    balance when it returns true. *)
Definition addBalance64 (balance delta maxBalance : Z) : LE (option Z) :=
  if negb (0 <=? balance) || negb (0 <=? maxBalance) then Fail AssertionFailed
  else if delta =? 0 then Ok (Some balance)
  else if delta <? - balance then Ok None
  else if maxBalance - balance <? delta then Ok None
  else Ok (Some (balance + delta)).

(** ** Authorization *)

Definition AUTHORIZED_FLAG : Z := 1.
Definition AUTHORIZED_TO_MAINTAIN_LIABILITIES_FLAG : Z := 2.
Definition MASK_TRUSTLINE_FLAGS : Z := 1.
Definition MASK_TRUSTLINE_FLAGS_V13 : Z := 3.

Definition isAuthorized (tl : TrustLineEntry) : bool :=
  negb (Z.land (tl_flags tl) AUTHORIZED_FLAG =? 0).

Definition isAuthorizedToMaintainLiabilities (tl : TrustLineEntry) : bool :=
  isAuthorized tl || negb (Z.land (tl_flags tl) AUTHORIZED_TO_MAINTAIN_LIABILITIES_FLAG =? 0).

(** [trustLineFlagIsValid(uint32_t flag, uint32_t ledgerVersion)] *)
Definition trustLineFlagIsValid (flag version : Z) : bool :=
  if version <? 13 then Z.land flag (Z.lxor MASK_TRUSTLINE_FLAGS UINT32_MAX) =? 0
  else
    let invalidAuthCombo := Z.lor AUTHORIZED_FLAG AUTHORIZED_TO_MAINTAIN_LIABILITIES_FLAG in
    (Z.land flag (Z.lxor MASK_TRUSTLINE_FLAGS_V13 UINT32_MAX) =? 0) &&
    negb (Z.land flag invalidAuthCombo =? invalidAuthCombo).

Definition checkAuthorization (h : LedgerHeader) (tl : TrustLineEntry) : LE bool :=
  if ledgerVersion h <? 10 then Ok (isAuthorized tl)
  else if negb (isAuthorizedToMaintainLiabilities tl) then Fail InvalidAuthorization
  else Ok true.

(** ** Reserve *)

(** [getMinBalance(LedgerHeader const&, uint32_t, uint32_t, uint32_t)] *)
Definition getMinBalanceOf (h : LedgerHeader) (numSubentries numSponsoring numSponsored : Z) : LE Z :=
  if (ledgerVersion h <? 14) && (negb (numSponsored =? 0) || negb (numSponsoring =? 0))
  then Fail UnexpectedSponsorshipState
  else if ledgerVersion h <=? 8 then Ok (u32 (u32 (2 + numSubentries) * baseReserve h))
  else
    let effEntries := 2 + numSubentries + numSponsoring - numSponsored in
    if effEntries <? 0 then Fail UnexpectedAccountState
    else Ok (s64 (effEntries * baseReserve h)).

(** [getMinBalance(LedgerHeader const&, AccountEntry const&)] *)
Definition getMinBalance (h : LedgerHeader) (acc : AccountEntry) : LE Z :=
  match (if 14 <=? ledgerVersion h then accountExtV2 acc else None) with
  | Some v2 => getMinBalanceOf h (numSubEntries acc) (numSponsoring v2) (numSponsored v2)
  | None => getMinBalanceOf h (numSubEntries acc) 0 0
  end.

(** ** Liabilities *)

Definition liabilitiesOf (le : LedgerEntry) : option Liabilities :=
  match data le with
  | ACCOUNT acc =>
      Some (match a_extV1 acc with
            | None => {| buying := 0; selling := 0 |}
            | Some v1 => a_liabilities v1
            end)
  | TRUSTLINE tl =>
      Some (match tl_extV1 tl with
            | None => {| buying := 0; selling := 0 |}
            | Some l => l
            end)
  | _ => None
  end.

Definition getBuyingLiabilities (h : LedgerHeader) (le : LedgerEntry) : LE Z :=
  if ledgerVersion h <? 10 then Fail LiabilitiesBeforeVersion10
  else match liabilitiesOf le with
       | Some l => Ok (buying l)
       | None => Fail UnknownLedgerEntryType
       end.

Definition getSellingLiabilities (h : LedgerHeader) (le : LedgerEntry) : LE Z :=
  if ledgerVersion h <? 10 then Fail LiabilitiesBeforeVersion10
  else match liabilitiesOf le with
       | Some l => Ok (selling l)
       | None => Fail UnknownLedgerEntryType
       end.

(** [addBuyingLiabilities(LedgerTxnHeader const&, LedgerTxnEntry&, int64_t)] *)
Definition addBuyingLiabilities (h : LedgerHeader) (le : LedgerEntry) (delta : Z)
  : LE (bool * LedgerEntry) :=
  let? buyingLiab := getBuyingLiabilities h le in
  (* Fast-succeed when not actually adding any liabilities *)
  if delta =? 0 then Ok (true, le)
  else
    match data le with
    | ACCOUNT acc =>
        let maxLiabilities := s64 (INT64_MAX - a_balance acc) in
        let? res := addBalance64 buyingLiab delta maxLiabilities in
        match res with
        | Some b =>
            let l := {| buying := b;
                        selling := selling (a_liabilities (prepareAccountEntryExtensionV1 acc)) |} in
            Ok (true, set_data (ACCOUNT (set_liabilities l acc)) le)
        | None => Ok (false, le)
        end
    | TRUSTLINE tl =>
        let? auth := checkAuthorization h tl in
        if negb auth then Ok (false, le)
        else
          let maxLiabilities := s64 (limit tl - tl_balance tl) in
          let? res := addBalance64 buyingLiab delta maxLiabilities in
          match res with
          | Some b =>
              let l := {| buying := b; selling := selling (prepareTrustLineEntryExtensionV1 tl) |} in
              Ok (true, set_data (TRUSTLINE (set_tl_extV1 (Some l) tl)) le)
          | None => Ok (false, le)
          end
    | _ => Fail UnknownLedgerEntryType
    end.

(** [addSellingLiabilities(LedgerTxnHeader const&, LedgerTxnEntry&, int64_t)] *)
Definition addSellingLiabilities (h : LedgerHeader) (le : LedgerEntry) (delta : Z)
  : LE (bool * LedgerEntry) :=
  let? sellingLiab := getSellingLiabilities h le in
  (* Fast-succeed when not actually adding any liabilities *)
  if delta =? 0 then Ok (true, le)
  else
    match data le with
    | ACCOUNT acc =>
        let? minBalance := getMinBalance h acc in
        let maxLiabilities := s64 (a_balance acc - minBalance) in
        if maxLiabilities <? 0 then Ok (false, le)
        else
          let? res := addBalance64 sellingLiab delta maxLiabilities in
          match res with
          | Some s =>
              let l := {| buying := buying (a_liabilities (prepareAccountEntryExtensionV1 acc));
                          selling := s |} in
              Ok (true, set_data (ACCOUNT (set_liabilities l acc)) le)
          | None => Ok (false, le)
          end
    | TRUSTLINE tl =>
        let? auth := checkAuthorization h tl in
        if negb auth then Ok (false, le)
        else
          let maxLiabilities := tl_balance tl in
          let? res := addBalance64 sellingLiab delta maxLiabilities in
          match res with
          | Some s =>
              let l := {| buying := buying (prepareTrustLineEntryExtensionV1 tl); selling := s |} in
              Ok (true, set_data (TRUSTLINE (set_tl_extV1 (Some l) tl)) le)
          | None => Ok (false, le)
          end
    | _ => Fail UnknownLedgerEntryType
    end.

(** ** Balances *)

(** [addBalance(LedgerTxnHeader const&, LedgerTxnEntry&, int64_t)] *)
Definition addBalance (h : LedgerHeader) (le : LedgerEntry) (delta : Z) : LE (bool * LedgerEntry) :=
  match data le with
  | ACCOUNT acc =>
      if delta =? 0 then Ok (true, le)
      else
        let? res := addBalance64 (a_balance acc) delta INT64_MAX in
        match res with
        | None => Ok (false, le)
        | Some newBalance =>
            let? ok :=
              (if 10 <=? ledgerVersion h then
                 let? minBalance := getMinBalance h acc in
                 let? sellingLiab := getSellingLiabilities h le in
                 let? buyingLiab := getBuyingLiabilities h le in
                 if (delta <? 0) && (s64 (newBalance - minBalance) <? sellingLiab) then Ok false
                 else Ok (negb (s64 (INT64_MAX - buyingLiab) <? newBalance))
               else Ok true) in
            if ok then Ok (true, set_data (ACCOUNT (set_a_balance newBalance acc)) le)
            else Ok (false, le)
        end
  | TRUSTLINE tl =>
      if delta =? 0 then Ok (true, le)
      else
        let? auth := checkAuthorization h tl in
        if negb auth then Ok (false, le)
        else
          let? res := addBalance64 (tl_balance tl) delta (limit tl) in
          match res with
          | None => Ok (false, le)
          | Some newBalance =>
              let? ok :=
                (if 10 <=? ledgerVersion h then
                   let? sellingLiab := getSellingLiabilities h le in
                   let? buyingLiab := getBuyingLiabilities h le in
                   if newBalance <? sellingLiab then Ok false
                   else Ok (negb (s64 (limit tl - buyingLiab) <? newBalance))
                 else Ok true) in
              if ok then Ok (true, set_data (TRUSTLINE (set_tl_balance newBalance tl)) le)
              else Ok (false, le)
          end
  | _ => Fail UnknownLedgerEntryType
  end.

(** [getAvailableBalance(LedgerHeader const&, LedgerEntry const&)] *)
Definition getAvailableBalance (h : LedgerHeader) (le : LedgerEntry) : LE Z :=
  let? avail :=
    (match data le with
     | ACCOUNT acc =>
         let? minBalance := getMinBalance h acc in
         Ok (s64 (a_balance acc - minBalance))
     | TRUSTLINE tl =>
         (* We only want to check auth starting from V10, so no need to look at
            the return value. This will throw if unauthorized *)
         let? _ := checkAuthorization h tl in
         Ok (tl_balance tl)
     | _ => Fail UnknownLedgerEntryType
     end) in
  if 10 <=? ledgerVersion h then
    let? sellingLiab := getSellingLiabilities h le in
    Ok (s64 (avail - sellingLiab))
  else Ok avail.

(** [getMaxAmountReceive(LedgerTxnHeader const&, LedgerEntry const&)] *)
Definition getMaxAmountReceive (h : LedgerHeader) (le : LedgerEntry) : LE Z :=
  match data le with
  | ACCOUNT acc =>
      if 10 <=? ledgerVersion h then
        let? buyingLiab := getBuyingLiabilities h le in
        Ok (s64 (INT64_MAX - s64 (a_balance acc + buyingLiab)))
      else Ok INT64_MAX
  | TRUSTLINE tl =>
      let? auth := checkAuthorization h tl in
      if negb auth then Ok 0
      else
        let amount := s64 (limit tl - tl_balance tl) in
        if 10 <=? ledgerVersion h then
          let? buyingLiab := getBuyingLiabilities h le in
          Ok (s64 (amount - buyingLiab))
        else Ok amount
  | _ => Fail UnknownLedgerEntryType
  end.

(** [getMinimumLimit(LedgerTxnHeader const&, LedgerEntry const&)] *)
Definition getMinimumLimit (h : LedgerHeader) (le : LedgerEntry) : LE Z :=
  match data le with
  | TRUSTLINE tl =>
      if 10 <=? ledgerVersion h then
        let? buyingLiab := getBuyingLiabilities h le in
        Ok (s64 (tl_balance tl + buyingLiab))
      else Ok (tl_balance tl)
  | _ => Fail WrongUnionArm
  end.

(** [setAuthorized]: the trust line with the flag set; an invalid flag throws. *)
Definition setAuthorized (h : LedgerHeader) (tl : TrustLineEntry) (authorized : Z)
  : LE TrustLineEntry :=
  if negb (trustLineFlagIsValid authorized (ledgerVersion h)) then Fail InvalidTrustLineFlag
  else Ok (set_tl_flags authorized tl).

(** [generateID] *)
Definition generateID (h : LedgerHeader) : Z := u64 (idPool h + 1).

(** [getStartingSequenceNumber(uint32_t)] *)
Definition getStartingSequenceNumber (seq : Z) : Z := u64 (Z.shiftl seq 32).

(** ** Trust lines as the operations see them (TrustLineWrapper.cpp)

    The issuer of an asset has no trust line to itself: it can send and receive
    without limit.  [NoTrustLine] is the wrapper that holds nothing. *)

Inductive TrustLineWrapper : Type :=
| NoTrustLine
| IssuerImpl
| NonIssuerImpl (mEntry : LedgerEntry).

(** [operator bool] *)
Definition lineExists (w : TrustLineWrapper) : bool :=
  match w with NoTrustLine => false | _ => true end.

Definition line_trustLine (le : LedgerEntry) : LE TrustLineEntry :=
  match data le with TRUSTLINE tl => Ok tl | _ => Fail WrongUnionArm end.

Definition line_getBalance (w : TrustLineWrapper) : LE Z :=
  match w with
  | NoTrustLine => Fail TrustLineWrapperNotActive
  | IssuerImpl => Ok INT64_MAX
  | NonIssuerImpl le => let? tl := line_trustLine le in Ok (tl_balance tl)
  end.

(** Lifts an operation on the entry; the issuer's wrapper ignores it. *)
Definition line_update (f : LedgerEntry → LE (bool * LedgerEntry)) (w : TrustLineWrapper)
  : LE (bool * TrustLineWrapper) :=
  match w with
  | NoTrustLine => Fail TrustLineWrapperNotActive
  | IssuerImpl => Ok (true, IssuerImpl)
  | NonIssuerImpl le => let? r := f le in Ok (r.1, NonIssuerImpl r.2)
  end.

Definition line_addBalance (h : LedgerHeader) (w : TrustLineWrapper) (delta : Z) :=
  line_update (λ le, addBalance h le delta) w.

Definition line_addBuyingLiabilities (h : LedgerHeader) (w : TrustLineWrapper) (delta : Z) :=
  line_update (λ le, addBuyingLiabilities h le delta) w.

Definition line_addSellingLiabilities (h : LedgerHeader) (w : TrustLineWrapper) (delta : Z) :=
  line_update (λ le, addSellingLiabilities h le delta) w.

Definition line_query (dflt : Z) (f : LedgerEntry → LE Z) (w : TrustLineWrapper) : LE Z :=
  match w with
  | NoTrustLine => Fail TrustLineWrapperNotActive
  | IssuerImpl => Ok dflt
  | NonIssuerImpl le => f le
  end.

Definition line_getBuyingLiabilities (h : LedgerHeader) := line_query 0 (getBuyingLiabilities h).
Definition line_getSellingLiabilities (h : LedgerHeader) := line_query 0 (getSellingLiabilities h).
Definition line_getAvailableBalance (h : LedgerHeader) :=
  line_query INT64_MAX (getAvailableBalance h).
Definition line_getMaxAmountReceive (h : LedgerHeader) :=
  line_query INT64_MAX (getMaxAmountReceive h).

Definition line_isAuthorized (w : TrustLineWrapper) : LE bool :=
  match w with
  | NoTrustLine => Fail TrustLineWrapperNotActive
  | IssuerImpl => Ok true
  | NonIssuerImpl le => let? tl := line_trustLine le in Ok (isAuthorized tl)
  end.

Definition line_isAuthorizedToMaintainLiabilities (w : TrustLineWrapper) : LE bool :=
  match w with
  | NoTrustLine => Fail TrustLineWrapperNotActive
  | IssuerImpl => Ok true
  | NonIssuerImpl le => let? tl := line_trustLine le in Ok (isAuthorizedToMaintainLiabilities tl)
  end.

(** ** Well-formed entries *)

(** What an account or trust line holds and promises: the balance, the liabilities,
    and the bounds they have to respect.  [floor] is the reserve of an account. *)
Record Holding : Type := {
  hd_balance : Z;
  hd_buying : Z;
  hd_selling : Z;
  hd_floor : Z;
  hd_limit : Z
}.

Definition holdingOk (x : Holding) : Prop :=
  0 ≤ hd_balance x ∧ 0 ≤ hd_buying x ∧ 0 ≤ hd_selling x ∧ 0 ≤ hd_floor x ≤ INT64_MAX ∧
  hd_selling x ≤ hd_balance x ∧ hd_balance x + hd_buying x ≤ hd_limit x ≤ INT64_MAX.

(** What can be sent, and what can be received. *)
Definition sendable (x : Holding) : Z := hd_balance x - hd_floor x - hd_selling x.
Definition receivable (x : Holding) : Z := hd_limit x - hd_balance x - hd_buying x.

(** The holding of an entry in a ledger of version 10 or later. *)
Inductive holds (h : LedgerHeader) (le : LedgerEntry) : Holding → Prop :=
| holds_account acc l m :
    data le = ACCOUNT acc → liabilitiesOf le = Some l → getMinBalance h acc = Ok m →
    holds h le {| hd_balance := a_balance acc; hd_buying := buying l; hd_selling := selling l;
                  hd_floor := m; hd_limit := INT64_MAX |}
| holds_line tl l :
    data le = TRUSTLINE tl → liabilitiesOf le = Some l →
    isAuthorizedToMaintainLiabilities tl = true →
    holds h le {| hd_balance := tl_balance tl; hd_buying := buying l; hd_selling := selling l;
                  hd_floor := 0; hd_limit := limit tl |}.

Definition with_balance (x : Holding) (b : Z) : Holding :=
  {| hd_balance := b; hd_buying := hd_buying x; hd_selling := hd_selling x;
     hd_floor := hd_floor x; hd_limit := hd_limit x |}.
Definition with_buying (x : Holding) (b : Z) : Holding :=
  {| hd_balance := hd_balance x; hd_buying := b; hd_selling := hd_selling x;
     hd_floor := hd_floor x; hd_limit := hd_limit x |}.
Definition with_selling (x : Holding) (b : Z) : Holding :=
  {| hd_balance := hd_balance x; hd_buying := hd_buying x; hd_selling := b;
     hd_floor := hd_floor x; hd_limit := hd_limit x |}.

Ltac holding :=
  unfold holdingOk, sendable, receivable, with_balance, with_buying, with_selling in *;
  cbn [hd_balance hd_buying hd_selling hd_floor hd_limit] in *.

(** ** What the operations compute *)

Definition setBalance (le : LedgerEntry) (b : Z) : LedgerEntry :=
  match data le with
  | ACCOUNT acc => set_data (ACCOUNT (set_a_balance b acc)) le
  | TRUSTLINE tl => set_data (TRUSTLINE (set_tl_balance b tl)) le
  | _ => le
  end.

Definition setLiabilities (le : LedgerEntry) (l : Liabilities) : LedgerEntry :=
  match data le with
  | ACCOUNT acc => set_data (ACCOUNT (set_liabilities l acc)) le
  | TRUSTLINE tl => set_data (TRUSTLINE (set_tl_extV1 (Some l) tl)) le
  | _ => le
  end.

(** A change of the balance is possible within what can be sent and received. *)
Definition canAdd (x : Holding) (delta : Z) : bool :=
  if delta <? 0 then - delta <=? sendable x else delta <=? receivable x.

(** Liabilities can be added within what is left, and released. *)
Definition canBuy (x : Holding) (delta : Z) : bool :=
  (- hd_buying x <=? delta) && (delta <=? receivable x).
Definition canSell (x : Holding) (delta : Z) : bool :=
  (- hd_selling x <=? delta) && (delta <=? sendable x).

Lemma getMinBalance_balance h acc b : getMinBalance h (set_a_balance b acc) = getMinBalance h acc.
Proof. done. Qed.

Lemma getMinBalance_liabilities h acc l : getMinBalance h (set_liabilities l acc) = getMinBalance h acc.
Proof.
  unfold getMinBalance, accountExtV2, set_liabilities, prepareAccountEntryExtensionV1. simpl.
  by destruct (a_extV1 acc).
Qed.

Lemma holds_setBalance h le x b : holds h le x → holds h (setBalance le b) (with_balance x b).
Proof.
  intros [acc l m Hd Hl Hm|tl l Hd Hl Ha]; unfold setBalance; rewrite Hd; unfold with_balance; simpl.
  - refine (holds_account h _ (set_a_balance b acc) l m _ _ _); [done| |done].
    unfold liabilitiesOf in *. rewrite Hd in Hl. done.
  - refine (holds_line h _ (set_tl_balance b tl) l _ _ _); [done| |done].
    unfold liabilitiesOf in *. rewrite Hd in Hl. done.
Qed.

Lemma holds_setLiabilities h le x l :
  holds h le x →
  holds h (setLiabilities le l) (with_selling (with_buying x (buying l)) (selling l)).
Proof.
  intros [acc l' m Hd Hl Hm|tl l' Hd Hl Ha]; unfold setLiabilities; rewrite Hd;
    unfold with_selling, with_buying; simpl.
  - refine (holds_account h _ (set_liabilities l acc) l m _ _ _); [done|done|].
    by rewrite getMinBalance_liabilities.
  - by refine (holds_line h _ (set_tl_extV1 (Some l) tl) l _ _ _).
Qed.

Lemma addBalance64_eq b d m :
  0 ≤ b ≤ m →
  addBalance64 b d m = Ok (if (- b <=? d) && (d <=? m - b) then Some (b + d) else None).
Proof.
  intros H. unfold addBalance64. rewrite !(proj2 (Z.leb_le 0 _)) by lia. cbn [negb orb].
  zcases; cbn [andb]; try done; try lia; try (f_equal; f_equal; lia);
    destruct (Z.leb_spec d (m - b)); try done; lia.
Qed.

Section Version10.
Context (h : LedgerHeader) (le : LedgerEntry) (x : Holding).
Hypothesis Hv : 10 ≤ ledgerVersion h.
Hypothesis Hx : holds h le x.
Hypothesis Hok : holdingOk x.

Lemma version_lt : ledgerVersion h <? 10 = false.
Proof. apply Z.ltb_ge. lia. Qed.

Lemma version_le : 10 <=? ledgerVersion h = true.
Proof. apply Z.leb_le. lia. Qed.

Lemma holds_liabilities : liabilitiesOf le = Some {| buying := hd_buying x; selling := hd_selling x |}.
Proof using Hx. clear Hok. destruct Hx as [acc [b s] m ? -> |tl [b s] ? ->]; done. Qed.

Lemma checkAuthorization_ok tl : isAuthorizedToMaintainLiabilities tl = true → checkAuthorization h tl = Ok true.
Proof using Hv. intros H. unfold checkAuthorization. by rewrite version_lt, H. Qed.

Lemma getBuyingLiabilities_eq : getBuyingLiabilities h le = Ok (hd_buying x).
Proof using Hv Hx. unfold getBuyingLiabilities. by rewrite version_lt, holds_liabilities. Qed.

Lemma getSellingLiabilities_eq : getSellingLiabilities h le = Ok (hd_selling x).
Proof using Hv Hx. unfold getSellingLiabilities. by rewrite version_lt, holds_liabilities. Qed.

Lemma getAvailableBalance_eq : getAvailableBalance h le = Ok (sendable x).
Proof using Hv Hx Hok.
  unfold getAvailableBalance. rewrite version_le, getSellingLiabilities_eq.
  destruct Hx as [acc l m Hd Hl Hm|tl l Hd Hl Ha]; rewrite Hd; holding.
  - rewrite Hm. cbn [obind]. rewrite (s64_small (a_balance acc - m)) by word.
    rewrite s64_small by word. done.
  - rewrite checkAuthorization_ok by done. cbn [obind]. rewrite s64_small by word.
    do 2 f_equal. lia.
Qed.

Lemma getMaxAmountReceive_eq : getMaxAmountReceive h le = Ok (receivable x).
Proof using Hv Hx Hok.
  unfold getMaxAmountReceive. rewrite version_le, getBuyingLiabilities_eq.
  destruct Hx as [acc l m Hd Hl Hm|tl l Hd Hl Ha]; rewrite Hd; holding.
  - cbn [obind]. rewrite (s64_small (_ + _)) by word. rewrite s64_small by word. f_equal. lia.
  - rewrite checkAuthorization_ok by done. cbn [obind negb].
    rewrite (s64_small (limit tl - tl_balance tl)) by word. rewrite s64_small by word. done.
Qed.

Lemma setBalance_id : setBalance le (hd_balance x) = le.
Proof using Hx.
  clear Hok. destruct Hx as [acc l m Hd Hl Hm|tl l Hd Hl Ha]; unfold setBalance; rewrite Hd;
    destruct le as [m' d e]; cbn [data] in Hd; subst d; [destruct acc|destruct tl]; done.
Qed.

Lemma addBalance_eq delta :
  addBalance h le delta =
    Ok (canAdd x delta, if canAdd x delta then setBalance le (hd_balance x + delta) else le).
Proof using Hv Hx Hok.
  unfold addBalance. rewrite version_le, getBuyingLiabilities_eq, getSellingLiabilities_eq.
  pose proof setBalance_id as Hid.
  destruct (Z.eqb_spec delta 0) as [->|Hne].
  { assert (canAdd x 0 = true) as -> by (unfold canAdd; simpl; apply Z.leb_le; holding; lia).
    rewrite Z.add_0_r, Hid. clear Hid Hok. by destruct Hx as [acc l m Hd|tl l Hd]; rewrite Hd. }
  clear Hid. unfold setBalance, canAdd.
  destruct Hx as [acc l m Hd Hl Hm|tl l Hd Hl Ha]; rewrite Hd; holding.
  - rewrite addBalance64_eq by lia. rewrite Hm. cbn [obind].
    destruct (Z.leb_spec (- a_balance acc) delta); cbn [andb];
      [|destruct (Z.ltb_spec delta 0); [|lia];
        destruct (Z.leb_spec (- delta) (a_balance acc - m - selling l)); [lia|done]].
    destruct (Z.leb_spec delta (INT64_MAX - a_balance acc)); cbn [obind];
      [|destruct (Z.ltb_spec delta 0); [lia|];
        destruct (Z.leb_spec delta (INT64_MAX - a_balance acc - buying l)); [lia|done]].
    rewrite !s64_small by word. zcases; cbn [andb negb obind]; try done; lia.
  - rewrite checkAuthorization_ok by done. cbn [obind negb]. rewrite addBalance64_eq by lia.
    cbn [obind]. destruct (Z.leb_spec (- tl_balance tl) delta); cbn [andb];
      [|destruct (Z.ltb_spec delta 0); [|lia];
        destruct (Z.leb_spec (- delta) (tl_balance tl - 0 - selling l)); [lia|done]].
    destruct (Z.leb_spec delta (limit tl - tl_balance tl)); cbn [obind];
      [|destruct (Z.ltb_spec delta 0); [lia|];
        destruct (Z.leb_spec delta (limit tl - tl_balance tl - buying l)); [lia|done]].
    rewrite !s64_small by word. zcases; cbn [andb negb obind]; try done; lia.
Qed.

Lemma addBuyingLiabilities_eq delta :
  addBuyingLiabilities h le delta =
    Ok (canBuy x delta,
        if canBuy x delta && negb (delta =? 0)
        then setLiabilities le {| buying := hd_buying x + delta; selling := hd_selling x |} else le).
Proof using Hv Hx Hok.
  unfold addBuyingLiabilities. rewrite getBuyingLiabilities_eq. cbn [obind].
  destruct (Z.eqb_spec delta 0) as [->|Hne]; cbn [negb].
  { rewrite andb_false_r. do 2 f_equal. symmetry. unfold canBuy.
    apply andb_true_intro. rewrite !Z.leb_le. clear Hx. holding. lia. }
  rewrite andb_true_r. pose proof holds_liabilities as HL. unfold setLiabilities, canBuy.
  destruct Hx as [acc l m Hd Hl Hm|tl l Hd Hl Ha]; rewrite Hd; holding.
  - rewrite s64_small by word. rewrite addBalance64_eq by lia. cbn [obind].
    destruct (_ && _); [|done]. do 4 f_equal. unfold liabilitiesOf in Hl. rewrite Hd in Hl.
    unfold prepareAccountEntryExtensionV1. destruct (a_extV1 acc); by simplify_eq.
  - rewrite checkAuthorization_ok by done. cbn [obind negb].
    rewrite s64_small by word. rewrite addBalance64_eq by lia. cbn [obind].
    destruct (_ && _); [|done]. do 4 f_equal. unfold liabilitiesOf in Hl. rewrite Hd in Hl.
    unfold prepareTrustLineEntryExtensionV1. destruct (tl_extV1 tl); by simplify_eq.
Qed.

Lemma addSellingLiabilities_eq delta :
  0 ≤ sendable x →
  addSellingLiabilities h le delta =
    Ok (canSell x delta,
        if canSell x delta && negb (delta =? 0)
        then setLiabilities le {| buying := hd_buying x; selling := hd_selling x + delta |} else le).
Proof using Hv Hx Hok.
  intros Hs. unfold addSellingLiabilities. rewrite getSellingLiabilities_eq. cbn [obind].
  destruct (Z.eqb_spec delta 0) as [->|Hne]; cbn [negb].
  { rewrite andb_false_r. do 2 f_equal. symmetry. unfold canSell.
    apply andb_true_intro. rewrite !Z.leb_le. clear Hx. holding. lia. }
  rewrite andb_true_r. unfold setLiabilities, canSell.
  destruct Hx as [acc l m Hd Hl Hm|tl l Hd Hl Ha]; rewrite Hd; holding.
  - rewrite Hm. cbn [obind]. rewrite s64_small by word.
    destruct (Z.ltb_spec (a_balance acc - m) 0); [lia|].
    rewrite addBalance64_eq by lia. cbn [obind].
    destruct (_ && _); [|done]. do 4 f_equal. unfold liabilitiesOf in Hl. rewrite Hd in Hl.
    unfold prepareAccountEntryExtensionV1. destruct (a_extV1 acc); by simplify_eq.
  - rewrite checkAuthorization_ok by done. cbn [obind negb].
    rewrite addBalance64_eq by lia. cbn [obind]. rewrite Z.sub_0_r.
    destruct (_ && _); [|done]. do 4 f_equal. unfold liabilitiesOf in Hl. rewrite Hd in Hl.
    unfold prepareTrustLineEntryExtensionV1. destruct (tl_extV1 tl); by simplify_eq.
Qed.
End Version10.

Lemma canAdd_ok x delta : holdingOk x → canAdd x delta = true → holdingOk (with_balance x (hd_balance x + delta)).
Proof. intros H. unfold canAdd. destruct (Z.ltb_spec delta 0); rewrite Z.leb_le; holding; lia. Qed.

Lemma canBuy_ok x delta : holdingOk x → canBuy x delta = true → holdingOk (with_buying x (hd_buying x + delta)).
Proof. intros H [H1 H2]%andb_prop. rewrite Z.leb_le in H1, H2. holding. lia. Qed.

Lemma canSell_ok x delta :
  holdingOk x → canSell x delta = true →
  holdingOk (with_selling x (hd_selling x + delta)) ∧
  0 ≤ sendable (with_selling x (hd_selling x + delta)).
Proof. intros H [H1 H2]%andb_prop. rewrite Z.leb_le in H1, H2. holding. lia. Qed.

(** ** Claims *)


