(* ===== verification/Sponsorship.v ===== *)
(** * Sponsored reserves (src/transactions/SponsorshipUtils.cpp)

    Every entry but an account costs its owner a reserve; another account can
    sponsor it.  The code passes references to the entry [le], to the sponsor and
    to the sponsored account; the last one may be [le] itself, which is explicit
    here ([SponsoredEntry]).  A signer iterator is the index it points to. *)

From stdpp Require Import prelude list gmap.
From Stdlib Require Import ZArith Lia.
From S2P Require Import Prelude Numeric Exchange LedgerEntries Balances.
Local Open Scope Z_scope.

Inductive SponsorshipResult : Type :=
| SUCCESS
| LOW_RESERVE
| TOO_MANY_SUBENTRIES
| TOO_MANY_SPONSORING
| TOO_MANY_SPONSORED.

#[export] Instance SponsorshipResult_eq_dec : EqDecision SponsorshipResult.
Proof. solve_decision. Defined.

Inductive IsSignerSponsoredResult : Type := DOES_NOT_EXIST | NOT_SPONSORED | SPONSORED.

Definition FIRST_PROTOCOL_SUPPORTING_OPERATION_LIMITS : Z := 11.
Definition ACCOUNT_SUBENTRY_LIMIT : Z := 1000.

(** [le.data.account()] *)
Definition accountOf (le : LedgerEntry) : LE AccountEntry :=
  match data le with ACCOUNT acc => Ok acc | _ => Fail WrongUnionArm end.

Definition setAccount (acc : AccountEntry) (le : LedgerEntry) : LedgerEntry :=
  set_data (ACCOUNT acc) le.

Definition isAccount (le : LedgerEntry) : bool :=
  match data le with ACCOUNT _ => true | _ => false end.

Definition isClaimableBalance (le : LedgerEntry) : bool :=
  match data le with CLAIMABLE_BALANCE _ => true | _ => false end.

(** [le.ext.v() == 1 ? le.ext.v1().sponsoringID : nullptr] *)
Definition sponsoringIDOf (le : LedgerEntry) : option AccountID :=
  match le_ext le with Some id => id | None => None end.

Definition accountIsSponsor (sponsoringID : option AccountID) (sponsoringAcc : LedgerEntry) : LE unit :=
  match sponsoringID with
  | None => Fail SponsorshipDoesNotMatch
  | Some id =>
      let? acc := accountOf sponsoringAcc in
      if id =? a_accountID acc then Ok tt else Fail SponsorshipDoesNotMatch
  end.

(** ** Getters *)

Definition getNumSponsored (le : LedgerEntry) : LE Z :=
  let? ae := accountOf le in
  Ok (match accountExtV2 ae with Some v2 => numSponsored v2 | None => 0 end).

Definition getNumSponsoring (le : LedgerEntry) : LE Z :=
  let? ae := accountOf le in
  Ok (match accountExtV2 ae with Some v2 => numSponsoring v2 | None => 0 end).

(** [signerSponsoringIDs.at(n)] *)
Definition signerSponsor (v2 : AccountEntryExtensionV2) (n : nat) : LE (option AccountID) :=
  match signerSponsoringIDs v2 !! n with
  | Some id => Ok id
  | None => Fail SignerOutOfRange
  end.

Definition isSignerSponsored (signerIt : nat) (sponsoringAcc sponsoredAcc : LedgerEntry)
  : LE IsSignerSponsoredResult :=
  let? ae := accountOf sponsoredAcc in
  if bool_decide (signerIt = length (signers ae)) then Ok DOES_NOT_EXIST
  else
    match accountExtV2 ae with
    | None => Ok NOT_SPONSORED
    | Some extV2 =>
        let? sponsoringID := signerSponsor extV2 signerIt in
        match sponsoringID with
        | None => Ok NOT_SPONSORED
        | Some _ =>
            let? _ := accountIsSponsor sponsoringID sponsoringAcc in
            Ok SPONSORED
        end
    end.

Definition computeMultiplier (le : LedgerEntry) : Z :=
  match data le with
  | ACCOUNT _ => 2
  | CLAIMABLE_BALANCE c => Z.of_nat (length (claimants c))
  | _ => 1
  end.

Definition isSubentry (le : LedgerEntry) : bool :=
  match data le with
  | ACCOUNT _ | CLAIMABLE_BALANCE _ => false
  | TRUSTLINE _ | OFFER _ | DATA _ => true
  end.

(** ** Can a sponsorship be established, removed, transferred *)

(** [UINT32_MAX - mult] in [uint32_t] *)
Definition canEstablishSponsorshipHelper (h : LedgerHeader) (sponsoringAcc : LedgerEntry)
  (sponsoredAcc : option LedgerEntry) (mult : Z) : LE SponsorshipResult :=
  let reserve := s64 (mult * baseReserve h) in
  let? avail := getAvailableBalance h sponsoringAcc in
  if avail <? reserve then Ok LOW_RESERVE
  else
    let? n := getNumSponsoring sponsoringAcc in
    if u32 (UINT32_MAX - mult) <? n then Ok TOO_MANY_SPONSORING
    else
      match sponsoredAcc with
      | Some acc =>
          let? n := getNumSponsored acc in
          if u32 (UINT32_MAX - mult) <? n then Ok TOO_MANY_SPONSORED else Ok SUCCESS
      | None => Ok SUCCESS
      end.

Definition canRemoveSponsorshipHelper (h : LedgerHeader) (sponsoringAcc : LedgerEntry)
  (sponsoredAcc : option LedgerEntry) (mult : Z) : LE SponsorshipResult :=
  let? n := getNumSponsoring sponsoringAcc in
  if n <? mult then Fail InsufficientNumSponsoring
  else
    match sponsoredAcc with
    | None => Ok SUCCESS
    | Some acc =>
        let? n := getNumSponsored acc in
        if n <? mult then Fail InsufficientNumSponsored
        else
          let reserve := s64 (mult * baseReserve h) in
          let? avail := getAvailableBalance h acc in
          if avail <? reserve then Ok LOW_RESERVE else Ok SUCCESS
    end.

Definition canTransferSponsorshipHelper (h : LedgerHeader)
  (oldSponsoringAcc newSponsoringAcc : LedgerEntry) (mult : Z) : LE SponsorshipResult :=
  let? removeRes := canRemoveSponsorshipHelper h oldSponsoringAcc None mult in
  match removeRes with
  | SUCCESS => canEstablishSponsorshipHelper h newSponsoringAcc None mult
  | _ => Ok removeRes
  end.

(** [if (lh.ledgerVersion < 14) throw] *)
Definition fromVersion14 {A} (h : LedgerHeader) (k : LE A) : LE A :=
  if ledgerVersion h <? 14 then Fail SponsorshipBeforeVersion14 else k.

Definition canEstablishEntrySponsorship (h : LedgerHeader) (le sponsoringAcc : LedgerEntry)
  (sponsoredAcc : option LedgerEntry) : LE SponsorshipResult :=
  fromVersion14 h
    (match sponsoringIDOf le with
     | Some _ => Fail SponsoringSponsoredEntry
     | None => canEstablishSponsorshipHelper h sponsoringAcc sponsoredAcc (computeMultiplier le)
     end).

Definition canRemoveEntrySponsorship (h : LedgerHeader) (le sponsoringAcc : LedgerEntry)
  (sponsoredAcc : option LedgerEntry) : LE SponsorshipResult :=
  fromVersion14 h
    (match sponsoringIDOf le with
     | None => Fail RemovingSponsorshipOnUnsponsoredEntry
     | Some id =>
         let? _ := accountIsSponsor (Some id) sponsoringAcc in
         canRemoveSponsorshipHelper h sponsoringAcc sponsoredAcc (computeMultiplier le)
     end).

Definition canTransferEntrySponsorship (h : LedgerHeader)
  (le oldSponsoringAcc newSponsoringAcc : LedgerEntry) : LE SponsorshipResult :=
  fromVersion14 h
    (match sponsoringIDOf le with
     | None => Fail TransferringSponsorshipOnUnsponsoredEntry
     | Some id =>
         let? _ := accountIsSponsor (Some id) oldSponsoringAcc in
         canTransferSponsorshipHelper h oldSponsoringAcc newSponsoringAcc (computeMultiplier le)
     end).

Definition canEstablishSignerSponsorship (h : LedgerHeader) (signerIt : nat)
  (sponsoringAcc sponsoredAcc : LedgerEntry) : LE SponsorshipResult :=
  fromVersion14 h
    (let? r := isSignerSponsored signerIt sponsoringAcc sponsoredAcc in
     match r with
     | NOT_SPONSORED => canEstablishSponsorshipHelper h sponsoringAcc (Some sponsoredAcc) 1
     | _ => Fail BadSignerSponsorship
     end).

Definition canRemoveSignerSponsorship (h : LedgerHeader) (signerIt : nat)
  (sponsoringAcc sponsoredAcc : LedgerEntry) : LE SponsorshipResult :=
  fromVersion14 h
    (let? r := isSignerSponsored signerIt sponsoringAcc sponsoredAcc in
     match r with
     | SPONSORED => canRemoveSponsorshipHelper h sponsoringAcc (Some sponsoredAcc) 1
     | _ => Fail BadSignerSponsorship
     end).

Definition canTransferSignerSponsorship (h : LedgerHeader) (signerIt : nat)
  (oldSponsoringAcc newSponsoringAcc sponsoredAcc : LedgerEntry) : LE SponsorshipResult :=
  fromVersion14 h
    (let? r := isSignerSponsored signerIt oldSponsoringAcc sponsoredAcc in
     match r with
     | SPONSORED => canTransferSponsorshipHelper h oldSponsoringAcc newSponsoringAcc 1
     | _ => Fail BadSignerSponsorship
     end).

(** ** Establishing, removing and transferring *)

(** The account [sponsoredAcc] points to: [le] itself, or another one. *)
Inductive SponsoredRef : Type :=
| SponsoredEntry
| SponsoredAccount (acc : LedgerEntry).

(** Applies a change to the account behind the reference. *)
Definition updateSponsored (f : AccountEntry → LE AccountEntry) (le : LedgerEntry)
  (r : option SponsoredRef) : LE (LedgerEntry * option SponsoredRef) :=
  match r with
  | None => Ok (le, None)
  | Some SponsoredEntry =>
      let? acc := accountOf le in
      let? acc := f acc in
      Ok (setAccount acc le, r)
  | Some (SponsoredAccount a) =>
      let? acc := accountOf a in
      let? acc := f acc in
      Ok (le, Some (SponsoredAccount (setAccount acc a)))
  end.

Definition updateAccount (f : AccountEntry → LE AccountEntry) (le : LedgerEntry) : LE LedgerEntry :=
  let? acc := accountOf le in
  let? acc := f acc in
  Ok (setAccount acc le).

(** [prepareAccountEntryExtensionV2(ae).numSponsoring += delta] and the like. *)
Definition addNumSponsoring (delta : Z) (ae : AccountEntry) : LE AccountEntry :=
  let v2 := prepareAccountEntryExtensionV2 ae in
  Ok (set_extV2 {| numSponsored := numSponsored v2; numSponsoring := u32 (numSponsoring v2 + delta);
                   signerSponsoringIDs := signerSponsoringIDs v2 |} ae).

Definition addNumSponsored (delta : Z) (ae : AccountEntry) : LE AccountEntry :=
  let v2 := prepareAccountEntryExtensionV2 ae in
  Ok (set_extV2 {| numSponsored := u32 (numSponsored v2 + delta); numSponsoring := numSponsoring v2;
                   signerSponsoringIDs := signerSponsoringIDs v2 |} ae).

(** [getAccountEntryExtensionV2] throws when the extension is missing. *)
Definition getAccountEntryExtensionV2 (ae : AccountEntry) : LE AccountEntryExtensionV2 :=
  match accountExtV2 ae with
  | Some v2 => Ok v2
  | None => Fail ExpectedAccountEntryExtensionV2
  end.

(** [getAccountEntryExtensionV2(ae).numSponsoring -= delta] and the like. *)
Definition subNumSponsoring (delta : Z) (ae : AccountEntry) : LE AccountEntry :=
  let? v2 := getAccountEntryExtensionV2 ae in
  Ok (set_extV2 {| numSponsored := numSponsored v2; numSponsoring := u32 (numSponsoring v2 - delta);
                   signerSponsoringIDs := signerSponsoringIDs v2 |} ae).

Definition subNumSponsored (delta : Z) (ae : AccountEntry) : LE AccountEntry :=
  let? v2 := getAccountEntryExtensionV2 ae in
  Ok (set_extV2 {| numSponsored := u32 (numSponsored v2 - delta); numSponsoring := numSponsoring v2;
                   signerSponsoringIDs := signerSponsoringIDs v2 |} ae).

(** [getLedgerEntryExtensionV1(le).sponsoringID] *)
Definition getSponsoringID (le : LedgerEntry) : LE (option AccountID) :=
  match le_ext le with
  | Some id => Ok id
  | None => Fail ExpectedLedgerEntryExtensionV1
  end.

Definition establishEntrySponsorship (le sponsoringAcc : LedgerEntry) (sponsoredAcc : option SponsoredRef)
  : LE (LedgerEntry * LedgerEntry * option SponsoredRef) :=
  let mult := computeMultiplier le in
  let? sponsor := accountOf sponsoringAcc in
  let le := set_le_ext (Some (Some (a_accountID sponsor))) le in
  let? sponsoringAcc := updateAccount (addNumSponsoring mult) sponsoringAcc in
  let? r := updateSponsored (addNumSponsored mult) le sponsoredAcc in
  Ok (r.1, sponsoringAcc, r.2).

Definition removeEntrySponsorship (le sponsoringAcc : LedgerEntry) (sponsoredAcc : option SponsoredRef)
  : LE (LedgerEntry * LedgerEntry * option SponsoredRef) :=
  let? sponsoringID := getSponsoringID le in
  let? _ := accountIsSponsor sponsoringID sponsoringAcc in
  let le := set_le_ext (Some None) le in
  let mult := computeMultiplier le in
  let? sponsoringAcc := updateAccount (subNumSponsoring mult) sponsoringAcc in
  let? r := updateSponsored (subNumSponsored mult) le sponsoredAcc in
  Ok (r.1, sponsoringAcc, r.2).

Definition transferEntrySponsorship (le oldSponsoringAcc newSponsoringAcc : LedgerEntry)
  : LE (LedgerEntry * LedgerEntry * LedgerEntry) :=
  let? sponsoringID := getSponsoringID le in
  let? _ := accountIsSponsor sponsoringID oldSponsoringAcc in
  let mult := computeMultiplier le in
  let? newSponsor := accountOf newSponsoringAcc in
  let le := set_le_ext (Some (Some (a_accountID newSponsor))) le in
  let? newSponsoringAcc := updateAccount (addNumSponsoring mult) newSponsoringAcc in
  let? oldSponsoringAcc := updateAccount (subNumSponsoring mult) oldSponsoringAcc in
  Ok (le, oldSponsoringAcc, newSponsoringAcc).

(** Sets the sponsor of a signer: [signerSponsoringIDs.at(n) = id]. *)
Definition setSignerSponsor (n : nat) (id : option AccountID) (v2 : AccountEntryExtensionV2)
  : LE AccountEntryExtensionV2 :=
  let? _ := signerSponsor v2 n in
  Ok {| numSponsored := numSponsored v2; numSponsoring := numSponsoring v2;
        signerSponsoringIDs := <[n := id]> (signerSponsoringIDs v2) |}.

Definition establishSignerSponsorship (signerIt : nat) (sponsoringAcc sponsoredAcc : LedgerEntry)
  : LE (LedgerEntry * LedgerEntry) :=
  let? sponsor := accountOf sponsoringAcc in
  let? sponsoredAcc :=
    updateAccount (λ ae,
      let? v2 := setSignerSponsor signerIt (Some (a_accountID sponsor))
                   (prepareAccountEntryExtensionV2 ae) in
      addNumSponsored 1 (set_extV2 v2 ae)) sponsoredAcc in
  let? sponsoringAcc := updateAccount (addNumSponsoring 1) sponsoringAcc in
  Ok (sponsoringAcc, sponsoredAcc).

Definition removeSignerSponsorship (signerIt : nat) (sponsoringAcc sponsoredAcc : LedgerEntry)
  : LE (LedgerEntry * LedgerEntry) :=
  let? sponsoredAcc :=
    updateAccount (λ ae,
      let? extV2 := getAccountEntryExtensionV2 ae in
      let? sponsoringID := signerSponsor extV2 signerIt in
      let? _ := accountIsSponsor sponsoringID sponsoringAcc in
      let? v2 := setSignerSponsor signerIt None extV2 in
      subNumSponsored 1 (set_extV2 v2 ae)) sponsoredAcc in
  let? sponsoringAcc := updateAccount (subNumSponsoring 1) sponsoringAcc in
  Ok (sponsoringAcc, sponsoredAcc).

Definition transferSignerSponsorship (signerIt : nat)
  (oldSponsoringAcc newSponsoringAcc sponsoredAcc : LedgerEntry)
  : LE (LedgerEntry * LedgerEntry * LedgerEntry) :=
  let? newSponsor := accountOf newSponsoringAcc in
  let? sponsoredAcc :=
    updateAccount (λ ae,
      let? extV2 := getAccountEntryExtensionV2 ae in
      let? sponsoringID := signerSponsor extV2 signerIt in
      let? _ := accountIsSponsor sponsoringID oldSponsoringAcc in
      let? v2 := setSignerSponsor signerIt (Some (a_accountID newSponsor)) extV2 in
      Ok (set_extV2 v2 ae)) sponsoredAcc in
  let? newSponsoringAcc := updateAccount (addNumSponsoring 1) newSponsoringAcc in
  let? oldSponsoringAcc := updateAccount (subNumSponsoring 1) oldSponsoringAcc in
  Ok (oldSponsoringAcc, newSponsoringAcc, sponsoredAcc).

(** ** Can an entry or a signer be created or removed *)

Definition canCreateEntryWithoutSponsorship (h : LedgerHeader) (le acc : LedgerEntry)
  : LE SponsorshipResult :=
  let? ae := accountOf acc in
  match data le with
  | ACCOUNT new =>
      let? minBalance := getMinBalance h ae in
      if a_balance new <? minBalance then Ok LOW_RESERVE else Ok SUCCESS
  | _ =>
      if (FIRST_PROTOCOL_SUPPORTING_OPERATION_LIMITS <=? ledgerVersion h) &&
         (ACCOUNT_SUBENTRY_LIMIT <=? numSubEntries ae)
      then Ok TOO_MANY_SUBENTRIES
      else
        let mult := computeMultiplier le in
        if ledgerVersion h <? 9 then
          (* This is needed to handle the overflow in getMinBalance which was
             corrected in protocol version 9 *)
          let accCopy := setAccount (set_numSubEntries (u32 (numSubEntries ae + mult)) ae) acc in
          let? avail := getAvailableBalance h accCopy in
          if avail <? 0 then Ok LOW_RESERVE else Ok SUCCESS
        else
          let reserve := s64 (mult * baseReserve h) in
          let? avail := getAvailableBalance h acc in
          if avail <? reserve then Ok LOW_RESERVE else Ok SUCCESS
  end.

Definition canCreateEntryWithSponsorship (h : LedgerHeader) (le sponsoringAcc : LedgerEntry)
  (sponsoredAcc : option LedgerEntry) : LE SponsorshipResult :=
  fromVersion14 h
    (let? tooMany :=
       (match sponsoredAcc with
        | Some a =>
            if isSubentry le then
              let? acc := accountOf a in Ok (ACCOUNT_SUBENTRY_LIMIT <=? numSubEntries acc)
            else Ok false
        | None => Ok false
        end) in
     if tooMany then Ok TOO_MANY_SUBENTRIES
     else canEstablishEntrySponsorship h le sponsoringAcc sponsoredAcc).

Definition canRemoveEntryWithoutSponsorship (h : LedgerHeader) (le acc : LedgerEntry) : LE unit :=
  if isAccount le then Ok tt
  else
    let? ae := accountOf acc in
    if numSubEntries ae <? computeMultiplier le then Fail InvalidAccountState else Ok tt.

(** [le == *sponsoredAcc], for an account [le] *)
Definition sameAccount (le a : LedgerEntry) : bool :=
  match data le, data a with
  | ACCOUNT x, ACCOUNT y =>
      bool_decide (lastModifiedLedgerSeq le = lastModifiedLedgerSeq a ∧ x = y ∧ le_ext le = le_ext a)
  | _, _ => false
  end.

Definition canRemoveEntryWithSponsorship (h : LedgerHeader) (le sponsoringAcc : LedgerEntry)
  (sponsoredAcc : option LedgerEntry) : LE unit :=
  fromVersion14 h
    (let mult := computeMultiplier le in
     let? n := getNumSponsoring sponsoringAcc in
     if n <? mult then Fail InvalidSponsoringAccountState
     else if isAccount le &&
             (match sponsoredAcc with None => true | Some a => negb (sameAccount le a) end)
     then Fail InvalidSponsoredAccount
     else
       match sponsoredAcc with
       | None => Ok tt
       | Some a =>
           let? acc := accountOf a in
           let? n := getNumSponsored a in
           if (negb (isAccount le) && (numSubEntries acc <? mult)) || (n <? mult)
           then Fail InvalidSponsoredAccountState else Ok tt
       end).

Definition canCreateSignerWithoutSponsorship (h : LedgerHeader) (acc : LedgerEntry)
  : LE SponsorshipResult :=
  let? ae := accountOf acc in
  if (FIRST_PROTOCOL_SUPPORTING_OPERATION_LIMITS <=? ledgerVersion h) &&
     (ACCOUNT_SUBENTRY_LIMIT <=? numSubEntries ae)
  then Ok TOO_MANY_SUBENTRIES
  else
    let? avail := getAvailableBalance h acc in
    if avail <? baseReserve h then Ok LOW_RESERVE else Ok SUCCESS.

Definition canCreateSignerWithSponsorship (h : LedgerHeader) (signerIt : nat)
  (sponsoringAcc sponsoredAcc : LedgerEntry) : LE SponsorshipResult :=
  fromVersion14 h
    (let? acc := accountOf sponsoredAcc in
     if ACCOUNT_SUBENTRY_LIMIT <=? numSubEntries acc then Ok TOO_MANY_SUBENTRIES
     else canEstablishSignerSponsorship h signerIt sponsoringAcc sponsoredAcc).

Definition canRemoveSignerWithoutSponsorship (acc : LedgerEntry) : LE unit :=
  let? ae := accountOf acc in
  if numSubEntries ae <? 1 then Fail InvalidAccountState else Ok tt.

Definition canRemoveSignerWithSponsorship (h : LedgerHeader) (sponsoringAcc sponsoredAcc : LedgerEntry)
  : LE unit :=
  fromVersion14 h
    (let? n := getNumSponsoring sponsoringAcc in
     if n <? 1 then Fail InvalidSponsoringAccountState
     else
       let? acc := accountOf sponsoredAcc in
       let? n := getNumSponsored sponsoredAcc in
       if (numSubEntries acc <? 1) || (n <? 1) then Fail InvalidSponsoredAccountState else Ok tt).

(** ** Creating and removing *)

Definition addNumSubEntries (delta : Z) (ae : AccountEntry) : LE AccountEntry :=
  Ok (set_numSubEntries (u32 (numSubEntries ae + delta)) ae).

(** [createEntryWithoutSponsorship] and [removeEntryWithoutSponsorship] on the
    account the reference points to. *)
Definition createEntryWithoutSponsorship (le : LedgerEntry) (acc : option SponsoredRef)
  : LE (LedgerEntry * option SponsoredRef) :=
  if isSubentry le then updateSponsored (addNumSubEntries 1) le acc else Ok (le, acc).

Definition removeEntryWithoutSponsorship (le : LedgerEntry) (acc : option SponsoredRef)
  : LE (LedgerEntry * option SponsoredRef) :=
  if isAccount le then Ok (le, acc) else updateSponsored (addNumSubEntries (-1)) le acc.

Definition createEntryWithSponsorship (le sponsoringAcc : LedgerEntry) (sponsoredAcc : option SponsoredRef)
  : LE (LedgerEntry * LedgerEntry * option SponsoredRef) :=
  let? r := createEntryWithoutSponsorship le sponsoredAcc in
  establishEntrySponsorship r.1 sponsoringAcc r.2.

Definition removeEntryWithSponsorship (le sponsoringAcc : LedgerEntry) (sponsoredAcc : option SponsoredRef)
  : LE (LedgerEntry * LedgerEntry * option SponsoredRef) :=
  let? r := removeEntryWithoutSponsorship le sponsoredAcc in
  removeEntrySponsorship r.1 sponsoringAcc r.2.

Definition createSignerWithoutSponsorship (acc : LedgerEntry) : LE LedgerEntry :=
  updateAccount (addNumSubEntries 1) acc.

Definition createSignerWithSponsorship (signerIt : nat) (sponsoringAcc sponsoredAcc : LedgerEntry)
  : LE (LedgerEntry * LedgerEntry) :=
  let? sponsoredAcc := createSignerWithoutSponsorship sponsoredAcc in
  establishSignerSponsorship signerIt sponsoringAcc sponsoredAcc.

(** Erases the signer and its sponsor descriptor. *)
Definition removeSignerWithoutSponsorship (signerIt : nat) (acc : LedgerEntry) : LE LedgerEntry :=
  updateAccount (λ ae,
    let ae := set_numSubEntries (u32 (numSubEntries ae - 1)) ae in
    let ae :=
      match accountExtV2 ae with
      | Some v2 =>
          set_extV2 {| numSponsored := numSponsored v2; numSponsoring := numSponsoring v2;
                       signerSponsoringIDs := delete signerIt (signerSponsoringIDs v2) |} ae
      | None => ae
      end in
    Ok (set_signers (delete signerIt (signers ae)) ae)) acc.

Definition removeSignerWithSponsorship (signerIt : nat) (sponsoringAcc sponsoredAcc : LedgerEntry)
  : LE (LedgerEntry * LedgerEntry) :=
  let? r := removeSignerSponsorship signerIt sponsoringAcc sponsoredAcc in
  let? sponsoredAcc := removeSignerWithoutSponsorship signerIt r.2 in
  Ok (r.1, sponsoredAcc).
