(* ===== verification/LedgerState.v ===== *)
(** * The ledger as the operations see it

    A [LedgerTxn] (src/ledger/LedgerTxn.cpp) is a view of the ledger: its header and
    its entries by key, with the sponsorships that are open in the transaction.  A
    nested [LedgerTxn] works on a copy that replaces the outer one if it is
    committed.  The wrappers of TransactionUtils.cpp and the functions of
    SponsorshipUtils.cpp that load entries are here, and the liabilities of offers. *)

From stdpp Require Import prelude list gmap.
From Stdlib Require Import ZArith Lia.
From S2P Require Import Prelude Numeric Exchange LedgerEntries Balances Sponsorship.
Local Open Scope Z_scope.

Record Ltx : Type := {
  l_header : LedgerHeader;
  l_entries : gmap LedgerKey LedgerEntry;
  l_sponsorships : gmap AccountID AccountID;
  l_sponsorshipCounters : gmap AccountID Z
}.

Definition set_l_header (x : LedgerHeader) (s : Ltx) : Ltx :=
  {| l_header := x; l_entries := l_entries s; l_sponsorships := l_sponsorships s;
     l_sponsorshipCounters := l_sponsorshipCounters s |}.
Definition set_l_entries (x : gmap LedgerKey LedgerEntry) (s : Ltx) : Ltx :=
  {| l_header := l_header s; l_entries := x; l_sponsorships := l_sponsorships s;
     l_sponsorshipCounters := l_sponsorshipCounters s |}.

Notation LM := (M Ltx LedgerError).

Definition lift {A} (m : LE A) : LM A := λ s,
  match m with Ok a => Ok (a, s) | Fail f => Fail f end.

(** ** Loading and storing *)

Definition loadHeader : LM LedgerHeader := gets l_header.

(** [ltx.load(key)] *)
Definition load (k : LedgerKey) : LM (option LedgerEntry) := gets (λ s, l_entries s !! k).

(** [entry.current()] of a loaded entry *)
Definition current (k : LedgerKey) : LM LedgerEntry :=
  let! e := load k in
  match e with Some e => ret e | None => fail NullEntry end.

(** Assignment through [entry.current()] *)
Definition store (k : LedgerKey) (e : LedgerEntry) : LM unit :=
  modify (λ s, set_l_entries (<[k := e]> (l_entries s)) s).

(** [entry.erase()] *)
Definition eraseEntry (k : LedgerKey) : LM unit :=
  modify (λ s, set_l_entries (delete k (l_entries s)) s).

(** [LedgerTxn inner(outer)]: the block says whether it commits. *)
Definition nested {A} (m : LM (A * bool)) : LM A := λ s,
  match m s with
  | Ok ((a, commit), s') => Ok (a, if commit then s' else s)
  | Fail f => Fail f
  end.

(** [loadTrustLine]: the constructor of [TrustLineWrapper] *)
Definition loadTrustLine (accountID : AccountID) (asset : Asset) : LM TrustLineWrapper :=
  match getIssuer asset with
  | None => fail TrustlineForNativeAsset
  | Some issuer =>
      if issuer =? accountID then ret IssuerImpl
      else
        let! e := load (KEY_TRUSTLINE accountID asset) in
        ret (match e with Some e => NonIssuerImpl e | None => NoTrustLine end)
  end.

Definition loadTrustLineIfNotNative (accountID : AccountID) (asset : Asset) : LM TrustLineWrapper :=
  if isNative asset then ret NoTrustLine else loadTrustLine accountID asset.

(** Writes back the entry a wrapper refers to. *)
Definition storeLine (accountID : AccountID) (asset : Asset) (w : TrustLineWrapper) : LM unit :=
  match w with
  | NonIssuerImpl e => store (KEY_TRUSTLINE accountID asset) e
  | _ => ret tt
  end.

Definition offerOf (le : LedgerEntry) : LE OfferEntry :=
  match data le with OFFER o => Ok o | _ => Fail WrongUnionArm end.

(** ** Sponsorship of loaded entries (SponsorshipUtils.cpp) *)

(** [le] is an account only when it is [acc] itself (account merge) or a new one;
    [acc] is empty when an account is created. *)
Definition currentOpt (acc : option LedgerKey) : LM LedgerEntry :=
  match acc with Some k => current k | None => fail NullEntry end.

Definition storeSponsored (acc : option LedgerKey) (r : option SponsoredRef) : LM unit :=
  match r, acc with
  | Some (SponsoredAccount a), Some k => store k a
  | _, _ => ret tt
  end.

Definition createEntryWithPossibleSponsorship (le : LedgerEntry) (acc : option LedgerKey)
  : LM (SponsorshipResult * LedgerEntry) :=
  let! h := loadHeader in
  let! owner := (if isAccount le then ret le else currentOpt acc) in
  let! ownerAcc := lift (accountOf owner) in
  let! sponsorship := gets (λ s, l_sponsorships s !! a_accountID ownerAcc) in
  (* claimable balances are not subentries, so the source account isn't sponsored *)
  let sponsoredAcc := if isClaimableBalance le then None else Some owner in
  let ref := if isClaimableBalance le then None
             else if isAccount le then Some SponsoredEntry else Some (SponsoredAccount owner) in
  match sponsorship with
  | Some sponsoringID =>
      let! sponsoringAcc := current (KEY_ACCOUNT sponsoringID) in
      let! res := lift (canCreateEntryWithSponsorship h le sponsoringAcc sponsoredAcc) in
      match res with
      | SUCCESS =>
          let! r := lift (createEntryWithSponsorship le sponsoringAcc ref) in
          let '(le, sponsoringAcc, ref) := r in
          store (KEY_ACCOUNT sponsoringID) sponsoringAcc ;;
          storeSponsored acc ref ;;
          ret (SUCCESS, le)
      | _ => ret (res, le)
      end
  | None =>
      match sponsoredAcc with
      | None =>
          let! res := lift (canCreateEntryWithSponsorship h le owner None) in
          match res with
          | SUCCESS =>
              let! r := lift (createEntryWithSponsorship le owner None) in
              let '(le, owner, _) := r in
              storeSponsored acc (Some (SponsoredAccount owner)) ;;
              ret (SUCCESS, le)
          | _ => ret (res, le)
          end
      | Some a =>
          let! res := lift (canCreateEntryWithoutSponsorship h le a) in
          match res with
          | SUCCESS =>
              let! r := lift (createEntryWithoutSponsorship le ref) in
              storeSponsored acc r.2 ;;
              ret (SUCCESS, r.1)
          | _ => ret (res, le)
          end
      end
  end.

(** Returns the entry without its sponsor; the caller erases it. *)
Definition removeEntryWithPossibleSponsorship (le : LedgerEntry) (acc : LedgerKey) : LM LedgerEntry :=
  let! h := loadHeader in
  let! accEntry := current acc in
  let! ae := lift (accountOf accEntry) in
  let ref := if isAccount le then SponsoredEntry else SponsoredAccount accEntry in
  match sponsoringIDOf le with
  | Some sponsoringID =>
      if a_accountID ae =? sponsoringID then
        if negb (isClaimableBalance le) then fail SponsoringIDIsSourceAccount
        else
          lift (canRemoveEntryWithSponsorship h le accEntry None) ;;
          let! r := lift (removeEntryWithSponsorship le accEntry None) in
          let '(le, accEntry, _) := r in
          store acc accEntry ;;
          ret le
      else
        let! sponsoringAcc := current (KEY_ACCOUNT sponsoringID) in
        let sponsored := if isClaimableBalance le then None else Some accEntry in
        lift (canRemoveEntryWithSponsorship h le sponsoringAcc sponsored) ;;
        let! r := lift (removeEntryWithSponsorship le sponsoringAcc
                          (if isClaimableBalance le then None else Some ref)) in
        let '(le, sponsoringAcc, ref) := r in
        store (KEY_ACCOUNT sponsoringID) sponsoringAcc ;;
        storeSponsored (Some acc) ref ;;
        ret le
  | None =>
      lift (canRemoveEntryWithoutSponsorship h le accEntry) ;;
      let! r := lift (removeEntryWithoutSponsorship le (Some ref)) in
      storeSponsored (Some acc) r.2 ;;
      ret r.1
  end.

Definition createSignerWithPossibleSponsorship (signerIt : nat) (acc : LedgerKey) : LM SponsorshipResult :=
  let! h := loadHeader in
  let! accEntry := current acc in
  let! ae := lift (accountOf accEntry) in
  let! sponsorship := gets (λ s, l_sponsorships s !! a_accountID ae) in
  match sponsorship with
  | Some sponsoringID =>
      let! sponsoringAcc := current (KEY_ACCOUNT sponsoringID) in
      let! res := lift (canCreateSignerWithSponsorship h signerIt sponsoringAcc accEntry) in
      match res with
      | SUCCESS =>
          let! r := lift (createSignerWithSponsorship signerIt sponsoringAcc accEntry) in
          store (KEY_ACCOUNT sponsoringID) r.1 ;;
          store acc r.2 ;;
          ret SUCCESS
      | _ => ret res
      end
  | None =>
      let! res := lift (canCreateSignerWithoutSponsorship h accEntry) in
      match res with
      | SUCCESS =>
          let! a := lift (createSignerWithoutSponsorship accEntry) in
          store acc a ;;
          ret SUCCESS
      | _ => ret res
      end
  end.

Definition removeSignerWithPossibleSponsorship (signerIt : nat) (acc : LedgerKey) : LM unit :=
  let! h := loadHeader in
  let! accEntry := current acc in
  let! ae := lift (accountOf accEntry) in
  let! sponsoringID :=
    (match accountExtV2 ae with
     | Some v2 => lift (signerSponsor v2 signerIt)
     | None => ret None
     end) in
  match sponsoringID with
  | Some id =>
      let! sponsoringAcc := current (KEY_ACCOUNT id) in
      lift (canRemoveSignerWithSponsorship h sponsoringAcc accEntry) ;;
      let! r := lift (removeSignerWithSponsorship signerIt sponsoringAcc accEntry) in
      store (KEY_ACCOUNT id) r.1 ;;
      store acc r.2
  | None =>
      lift (canRemoveSignerWithoutSponsorship accEntry) ;;
      let! a := lift (removeSignerWithoutSponsorship signerIt accEntry) in
      store acc a
  end.

(** ** Liabilities of offers (TransactionUtils.cpp) *)

Definition inExchange {A} (m : outcome ExchangeError A) : LE A := ofail InExchange m.

Definition getOfferBuyingLiabilities (h : LedgerHeader) (oe : OfferEntry) : LE Z :=
  if ledgerVersion h <? 10 then Fail OfferLiabilitiesBeforeVersion10
  else
    let? res := inExchange (exchangeV10WithoutPriceErrorThresholds (o_price oe) (o_amount oe)
                              INT64_MAX INT64_MAX INT64_MAX NORMAL) in
    Ok (numSheepSend res).

Definition getOfferSellingLiabilities (h : LedgerHeader) (oe : OfferEntry) : LE Z :=
  if ledgerVersion h <? 10 then Fail OfferLiabilitiesBeforeVersion10
  else
    let? res := inExchange (exchangeV10WithoutPriceErrorThresholds (o_price oe) (o_amount oe)
                              INT64_MAX INT64_MAX INT64_MAX NORMAL) in
    Ok (numWheatReceived res).

(** The account or trust line of [sellerID] that holds [asset] is loaded, validated,
    changed by [onAccount] or [onLine], and written back; returns what the change
    returns. *)
Definition changeHolder (sellerID : AccountID) (asset : Asset)
  (onEntry : LedgerEntry → LE (bool * LedgerEntry))
  (onLine : TrustLineWrapper → LE (bool * TrustLineWrapper)) : LM bool :=
  if isNative asset then
    let! account := load (KEY_ACCOUNT sellerID) in
    match account with
    | None => fail AccountDoesNotExist
    | Some account =>
        let! r := lift (onEntry account) in
        store (KEY_ACCOUNT sellerID) r.2 ;;
        ret r.1
    end
  else
    let! trust := loadTrustLine sellerID asset in
    if negb (lineExists trust) then fail TrustlineDoesNotExist
    else
      let! r := lift (onLine trust) in
      storeLine sellerID asset r.2 ;;
      ret r.1.

Definition acquireOrReleaseLiabilities (offer : OfferEntry) (isAcquire : bool) : LM unit :=
  let! h := loadHeader in
  (* This should never happen *)
  check (negb (bool_decide (o_buying offer = o_selling offer))) BuyingAndSellingSameAsset ;;
  let! b := lift (getOfferBuyingLiabilities h offer) in
  let buyingLiabilities := if isAcquire then b else - b in
  let! ok := changeHolder (o_sellerID offer) (o_buying offer)
               (λ e, addBuyingLiabilities h e buyingLiabilities)
               (λ w, line_addBuyingLiabilities h w buyingLiabilities) in
  check ok CouldNotAddBuyingLiabilities ;;
  let! s := lift (getOfferSellingLiabilities h offer) in
  let sellingLiabilities := if isAcquire then s else - s in
  let! ok := changeHolder (o_sellerID offer) (o_selling offer)
               (λ e, addSellingLiabilities h e sellingLiabilities)
               (λ w, line_addSellingLiabilities h w sellingLiabilities) in
  check ok CouldNotAddSellingLiabilities.

Definition acquireLiabilities (offer : OfferEntry) : LM unit := acquireOrReleaseLiabilities offer true.
Definition releaseLiabilities (offer : OfferEntry) : LM unit := acquireOrReleaseLiabilities offer false.
