(* ===== verification/CrossOffers.v ===== *)
(** * Crossing the offers of the book (src/transactions/OfferExchange.cpp)

    A buyer of wheat takes the best offers one after the other.  [crossOfferV10]
    crosses one offer: it releases the offer's liabilities, trades, and puts the
    rest back; [crossOffer] is the rule before protocol version 10.
    [convertWithOffers] is the loop.  A handle on a loaded entry is read again where
    the code dereferences it. *)

From stdpp Require Import prelude list gmap.
From Stdlib Require Import ZArith Lia.
From S2P Require Import Prelude Numeric Exchange LedgerEntries Balances Sponsorship LedgerState.
Local Open Scope Z_scope.

(** ** Limits of the seller *)

Definition canSellAtMostBasedOnSheep (h : LedgerHeader) (sheep : Asset) (sheepLine : TrustLineWrapper)
  (wheatPrice : Price) : LE Z :=
  if isNative sheep then Ok INT64_MAX
  else
    (* compute value based on what the account can receive *)
    let? sellerMaxSheep :=
      (if lineExists sheepLine then line_getMaxAmountReceive h sheepLine else Ok 0) in
    let? wheat := inExchange (divideOrMax sellerMaxSheep (price_d wheatPrice) (price_n wheatPrice)
                                ROUND_DOWN) in
    Ok wheat.1.

Definition canSellAtMost (h : LedgerHeader) (account : option LedgerEntry) (asset : Asset)
  (trustLine : TrustLineWrapper) : LE Z :=
  if isNative asset then
    match account with
    | Some account =>
        (* can only send above the minimum balance *)
        let? avail := getAvailableBalance h account in Ok (Z.max avail 0)
    | None => Fail NullEntry
    end
  else if lineExists trustLine then
    let? auth := line_isAuthorizedToMaintainLiabilities trustLine in
    if auth then let? avail := line_getAvailableBalance h trustLine in Ok (Z.max avail 0)
    else Ok 0
  else Ok 0.

Definition canBuyAtMost (h : LedgerHeader) (account : option LedgerEntry) (asset : Asset)
  (trustLine : TrustLineWrapper) : LE Z :=
  if isNative asset then
    match account with
    | Some account => let? r := getMaxAmountReceive h account in Ok (Z.max r 0)
    | None => Fail NullEntry
    end
  else if lineExists trustLine then
    let? r := line_getMaxAmountReceive h trustLine in Ok (Z.max r 0)
  else Ok 0.

(** [void adjustOffer(header, offer, account, wheat, wheatLine, sheep, sheepLine)]: the
    new amount of the offer *)
Definition adjustOfferEntry (h : LedgerHeader) (oe : OfferEntry) (account : option LedgerEntry)
  (wheatLine sheepLine : TrustLineWrapper) : LE OfferEntry :=
  let? sell := canSellAtMost h account (o_selling oe) wheatLine in
  let maxWheatSend := Z.min (o_amount oe) sell in
  let? maxSheepReceive := canBuyAtMost h account (o_buying oe) sheepLine in
  let? amount := inExchange (adjustOffer (o_price oe) maxWheatSend maxSheepReceive) in
  Ok (set_o_amount amount oe).

(** ** Crossing one offer *)

Inductive CrossOfferResult : Type := eOfferPartial | eOfferTaken | eOfferCantConvert.

Record ClaimOfferAtom : Type := {
  ca_sellerID : AccountID;
  ca_offerID : Z;
  ca_assetSold : Asset;
  ca_amountSold : Z;
  ca_assetBought : Asset;
  ca_amountBought : Z
}.

Record Crossing : Type := {
  cr_result : CrossOfferResult;
  cr_wheatReceived : Z;
  cr_sheepSend : Z;
  cr_wheatStays : bool;
  cr_atom : ClaimOfferAtom
}.

(** The account of the seller, loaded only when one of the assets is native. *)
Definition loadNativeAccount (accountID : AccountID) (a b : Asset) : LM (option LedgerEntry) :=
  if isNative a || isNative b then load (KEY_ACCOUNT accountID) else ret None.

(** [addBalance] on the account or the trust line that holds the asset *)
Definition addHolderBalance (h : LedgerHeader) (accountID : AccountID) (asset : Asset) (delta : Z)
  : LM bool :=
  if isNative asset then
    let! account := current (KEY_ACCOUNT accountID) in
    let! r := lift (addBalance h account delta) in
    store (KEY_ACCOUNT accountID) r.2 ;;
    ret r.1
  else
    let! line := loadTrustLine accountID asset in
    let! r := lift (line_addBalance h line delta) in
    storeLine accountID asset r.2 ;;
    ret r.1.

(** Loads the limits of the seller and adjusts the offer to them. *)
Definition adjustLoadedOffer (h : LedgerHeader) (k : LedgerKey) : LM OfferEntry :=
  let! le := current k in
  let! oe := lift (offerOf le) in
  let! accountB := loadNativeAccount (o_sellerID oe) (o_selling oe) (o_buying oe) in
  let! sheepLine := loadTrustLineIfNotNative (o_sellerID oe) (o_buying oe) in
  let! wheatLine := loadTrustLineIfNotNative (o_sellerID oe) (o_selling oe) in
  let! oe := lift (adjustOfferEntry h oe accountB wheatLine sheepLine) in
  store k (set_data (OFFER oe) le) ;;
  ret oe.

(** The exchange with the limits of the seller. *)
Definition exchangeWithOffer (h : LedgerHeader) (oe : OfferEntry) (maxWheatReceived maxSheepSend : Z)
  (round : RoundingType) : LM ExchangeResultV10 :=
  let! accountB := loadNativeAccount (o_sellerID oe) (o_selling oe) (o_buying oe) in
  let! sheepLine := loadTrustLineIfNotNative (o_sellerID oe) (o_buying oe) in
  let! wheatLine := loadTrustLineIfNotNative (o_sellerID oe) (o_selling oe) in
  let! maxWheatSend := lift (canSellAtMost h accountB (o_selling oe) wheatLine) in
  let maxWheatSend := Z.min (o_amount oe) maxWheatSend in
  let! maxSheepReceive := lift (canBuyAtMost h accountB (o_buying oe) sheepLine) in
  lift (inExchange (exchangeV10 (o_price oe) maxWheatSend maxWheatReceived maxSheepSend
                      maxSheepReceive round)).

Definition setOfferAmount (k : LedgerKey) (amount : Z) : LM unit :=
  let! le := current k in
  let! oe := lift (offerOf le) in
  store k (set_data (OFFER (set_o_amount amount oe)) le).

Definition crossOfferV10 (k : LedgerKey) (maxWheatReceived maxSheepSend : Z) (round : RoundingType)
  : LM Crossing :=
  check (0 <? maxWheatReceived) AssertionFailed ;;
  check (0 <? maxSheepSend) AssertionFailed ;;
  let! h := loadHeader in
  let! le := current k in
  let! offer := lift (offerOf le) in
  let sheep := o_buying offer in
  let wheat := o_selling offer in
  let accountBID := o_sellerID offer in
  let offerID := o_offerID offer in
  let! account := load (KEY_ACCOUNT accountBID) in
  check (match account with Some _ => true | None => false end) OfferWithoutAccount ;;
  (* Remove liabilities associated with the offer being crossed. Will throw if
     either asset is unauthorized *)
  releaseLiabilities offer ;;
  (* As of the protocol version 10, this call to adjustOffer should have no effect. *)
  let! offer := adjustLoadedOffer h k in
  let! r := exchangeWithOffer h offer maxWheatReceived maxSheepSend round in
  (* Adjust balances *)
  (if negb (numSheepSend r =? 0) then
     let! ok := addHolderBalance h accountBID sheep (numSheepSend r) in
     check ok OverflowedSheepBalance
   else ret tt) ;;
  (if negb (numWheatReceived r =? 0) then
     let! ok := addHolderBalance h accountBID wheat (- numWheatReceived r) in
     check ok OverflowedWheatBalance
   else ret tt) ;;
  let! amount :=
    (if wheatStays r then
       setOfferAmount k (s64 (o_amount offer - numWheatReceived r)) ;;
       let! offer := adjustLoadedOffer h k in
       ret (o_amount offer)
     else
       setOfferAmount k 0 ;;
       ret 0) in
  let res := if amount =? 0 then eOfferTaken else eOfferPartial in
  nested
    (let! le := current k in
     (match res with
      | eOfferTaken =>
          removeEntryWithPossibleSponsorship le (KEY_ACCOUNT accountBID) ;;
          eraseEntry k
      | _ =>
          let! offer := lift (offerOf le) in
          acquireLiabilities offer
      end) ;;
     ret (tt, true)) ;;
  ret {| cr_result := res; cr_wheatReceived := numWheatReceived r; cr_sheepSend := numSheepSend r;
         cr_wheatStays := wheatStays r;
         cr_atom := {| ca_sellerID := accountBID; ca_offerID := offerID; ca_assetSold := wheat;
                       ca_amountSold := numWheatReceived r; ca_assetBought := sheep;
                       ca_amountBought := numSheepSend r |} |}.

(** ** Before protocol version 10 *)

(** Returns [None] when the exchange is reduced to zero, and otherwise the wheat,
    the sheep and the new amount of the offer. *)
Definition performExchange (h : LedgerHeader) (offer : OfferEntry) (accountB : LedgerEntry)
  (wheatLine sheepLine : TrustLineWrapper) (maxWheatReceived maxSheepSend : Z)
  : LE (option (Z * Z * Z)) :=
  let price := o_price offer in
  let? a := canSellAtMostBasedOnSheep h (o_buying offer) sheepLine price in
  let? b := canSellAtMost h (Some accountB) (o_selling offer) wheatLine in
  let wheat := Z.min (Z.min a b) (o_amount offer) in
  if wheat <? 0 then Fail AssertionFailed
  else
    let newAmount := wheat in
    let? r := inExchange (if ledgerVersion h <? 3
                          then exchangeV2 wheat price maxWheatReceived maxSheepSend
                          else exchangeV3 wheat price maxWheatReceived maxSheepSend) in
    match exchangeResultType r with
    | EXCHANGE_REDUCED_TO_ZERO => Ok None
    | EXCHANGE_BOGUS =>
        (* force delete the offer as it represents a bogus offer *)
        Ok (Some (0, 0, 0))
    | EXCHANGE_NORMAL =>
        let w := x_numWheatReceived r in
        let offerTaken := o_amount offer <=? w in
        Ok (Some (w, x_numSheepSend r, if offerTaken then 0 else s64 (newAmount - w)))
    end.

Definition crossOffer (k : LedgerKey) (maxWheatReceived maxSheepSend : Z) : LM (option Crossing) :=
  check (0 <? maxWheatReceived) AssertionFailed ;;
  check (0 <? maxSheepSend) AssertionFailed ;;
  let! h := loadHeader in
  let! le := current k in
  let! offer := lift (offerOf le) in
  let sheep := o_buying offer in
  let wheat := o_selling offer in
  let accountBID := o_sellerID offer in
  let! accountB := load (KEY_ACCOUNT accountBID) in
  match accountB with
  | None => fail OfferWithoutAccount
  | Some accountB =>
      let! sheepLine := loadTrustLineIfNotNative accountBID sheep in
      let! wheatLine := loadTrustLineIfNotNative accountBID wheat in
      let! x := lift (performExchange h offer accountB wheatLine sheepLine maxWheatReceived
                        maxSheepSend) in
      match x with
      | None => ret None
      | Some (wheatReceived, sheepSend, newAmount) =>
          (* Note: No changes have been stored before this point. *)
          (if newAmount =? 0 then (* entire offer is taken *)
             removeEntryWithPossibleSponsorship le (KEY_ACCOUNT accountBID) ;;
             eraseEntry k
           else store k (set_data (OFFER (set_o_amount newAmount offer)) le)) ;;
          (* Adjust balances *)
          let! ok1 :=
            (if negb (sheepSend =? 0) then
               nested (let! ok := addHolderBalance h accountBID sheep sheepSend in ret (ok, ok))
             else ret true) in
          if negb ok1 then ret None
          else
            let! ok2 :=
              (if negb (wheatReceived =? 0) then
                 nested (let! ok := addHolderBalance h accountBID wheat (- wheatReceived) in
                         ret (ok, ok))
               else ret true) in
            if negb ok2 then ret None
            else
              ret (Some
                {| cr_result := if newAmount =? 0 then eOfferTaken else eOfferPartial;
                   cr_wheatReceived := wheatReceived; cr_sheepSend := sheepSend;
                   cr_wheatStays := false;
                   cr_atom := {| ca_sellerID := accountBID; ca_offerID := o_offerID offer;
                                 ca_assetSold := wheat; ca_amountSold := wheatReceived;
                                 ca_assetBought := sheep; ca_amountBought := sheepSend |} |})
      end
  end.

(** ** The loop *)

Inductive OfferFilterResult : Type := eKeep | eStop.

Inductive ConvertResult : Type := eOK | ePartial | eFilterStop | eCrossedTooMany.

#[export] Instance ConvertResult_eq_dec : EqDecision ConvertResult.
Proof. solve_decision. Defined.

(** [ltx.loadBestOffer(buying, selling)]: the best offer of the book, by the order of
    LedgerTxn.cpp. *)
Class OrderBook : Type := {
  bestOffer : Ltx → Asset → Asset → option LedgerKey
}.

(** The totals and the trail accumulated by the loop. *)
Record Converted : Type := {
  cv_sheepSend : Z;
  cv_wheatReceived : Z;
  cv_offerTrail : list ClaimOfferAtom
}.

Section Convert.
Context {B : OrderBook}.
Context (sheep wheat : Asset) (round : RoundingType).
Context (filter : option (LedgerEntry → OfferFilterResult)) (maxOffersToCross : Z).

(** One iteration: how the loop is left, if it is, and what is committed. *)
Inductive Iteration : Type :=
| NoOffer
| Stop (r : ConvertResult)
| Crossed (c : Crossing).

Definition convertStep (maxSheepSend maxWheatReceive : Z) (trail : list ClaimOfferAtom)
  : LM Iteration :=
  nested
    (let! best := gets (λ s, bestOffer s sheep wheat) in
     match best with
     | None => ret (NoOffer, false)
     | Some k =>
         let! wheatOffer := current k in
         if match filter with
            | Some f => match f wheatOffer with eStop => true | eKeep => false end
            | None => false
            end
         then ret (Stop eFilterStop, false)
         (* Note: maxOffersToCross == INT64_MAX before protocol version 11 *)
         else if u64 maxOffersToCross <=? Z.of_nat (length trail)
         then ret (Stop eCrossedTooMany, false)
         else
           let! h := loadHeader in
           let! x :=
             (if 10 <=? ledgerVersion h then
                let! c := crossOfferV10 k maxWheatReceive maxSheepSend round in ret (Some c)
              else crossOffer k maxWheatReceive maxSheepSend) in
           match x with
           | None => ret (Stop ePartial, false)
           | Some c =>
               check ((0 <=? cr_sheepSend c) && (cr_sheepSend c <=? maxSheepSend) &&
                      (0 <=? cr_wheatReceived c) && (cr_wheatReceived c <=? maxWheatReceive))
                 AssertionFailed ;;
               ret (Crossed c, true)
           end
     end).

Definition addCrossing (c : Crossing) (acc : Converted) : Converted :=
  {| cv_sheepSend := cv_sheepSend acc + cr_sheepSend c;
     cv_wheatReceived := cv_wheatReceived acc + cr_wheatReceived c;
     cv_offerTrail := cv_offerTrail acc ++ [cr_atom c] |}.

(** [needMore] is true at the head of the loop.  Each iteration that goes on takes an
    offer out of the book, so that the number of offers bounds the loop. *)
Fixpoint convertLoop (fuel : nat) (maxSheepSend maxWheatReceive : Z) (acc : Converted)
  : LM (ConvertResult * Converted) :=
  match fuel with
  | O => fail LoopFuelExhausted
  | S fuel =>
      let! it := convertStep maxSheepSend maxWheatReceive (cv_offerTrail acc) in
      match it with
      | NoOffer =>
          let! h := loadHeader in
          ret (if ledgerVersion h <? 10 then eOK else ePartial, acc)
      | Stop r => ret (r, acc)
      | Crossed c =>
          let acc := addCrossing c acc in
          let maxSheepSend := maxSheepSend - cr_sheepSend c in
          let maxWheatReceive := maxWheatReceive - cr_wheatReceived c in
          let needMore := negb (cr_wheatStays c) && ((0 <? maxWheatReceive) && (0 <? maxSheepSend)) in
          if negb needMore then ret (eOK, acc)
          else
            match cr_result c with
            | eOfferPartial => ret (ePartial, acc)
            | _ => convertLoop fuel maxSheepSend maxWheatReceive acc
            end
      end
  end.

(** The number of offers in the ledger, plus one for the last look at the book. *)
Definition offerCount (s : Ltx) : nat :=
  length (List.filter (λ kv, match data kv.2 with OFFER _ => true | _ => false end)
            (map_to_list (l_entries s))).

Definition convertWithOffers (maxSheepSend maxWheatReceive : Z) : LM (ConvertResult * Converted) :=
  λ s,
  let none := {| cv_sheepSend := 0; cv_wheatReceived := 0; cv_offerTrail := [] |} in
  if (0 <? maxWheatReceive) && (0 <? maxSheepSend)
  then convertLoop (S (offerCount s)) maxSheepSend maxWheatReceive none s
  else Ok ((eOK, none), s).
End Convert.
