(* ===== verification/Holders.v ===== *)
(** * Who holds an asset, and what one operation does to it

    An account holds the native asset, a trust line any other; the issuer of an
    asset is unlimited and nothing is recorded for it.  Each primitive operation
    (adding to a balance or to a liability) is described by the holding before and
    after it, and by what it changes in the whole ledger. *)

From stdpp Require Import prelude list gmap.
From Stdlib Require Import ZArith Lia.
From S2P Require Import Prelude Numeric Exchange LedgerEntries Balances Sponsorship LedgerState.
From S2P Require Import CrossOffers.
Local Open Scope Z_scope.

Lemma bind_ok {S F A B} (m : M S F A) (k : A → M S F B) s a s1 :
  m s = Ok (a, s1) → bind m k s = k a s1.
Proof. unfold bind. by intros ->. Qed.

(** [step H] runs the first statement by the equation [H]. *)
Ltac step H := rewrite (bind_ok _ _ _ _ _ H).

(** ** Who holds an asset *)

Definition holderKey (id : AccountID) (a : Asset) : LedgerKey :=
  if isNative a then KEY_ACCOUNT id else KEY_TRUSTLINE id a.

Lemma isNative_true a : isNative a = true → a = ASSET_TYPE_NATIVE.
Proof. by destruct a. Qed.

Lemma holderKey_inj id a b : holderKey id a = holderKey id b → a = b.
Proof.
  unfold holderKey. destruct (isNative a) eqn:Ea, (isNative b) eqn:Eb; try done.
  - by rewrite (isNative_true a Ea), (isNative_true b Eb).
  - by intros [= ->].
Qed.

Definition put (k : LedgerKey) (e : LedgerEntry) (s : Ltx) : Ltx :=
  set_l_entries (<[k := e]> (l_entries s)) s.

(** What [id] holds of an asset: nothing is recorded for its issuer, which is
    unlimited. *)
Inductive holder (s : Ltx) (id : AccountID) (a : Asset) : option (LedgerEntry * Holding) → Prop :=
| holder_issuer : getIssuer a = Some id → holder s id a None
| holder_entry e x :
    getIssuer a ≠ Some id → l_entries s !! holderKey id a = Some e →
    LedgerEntryKey e = holderKey id a → holds (l_header s) e x → holdingOk x →
    holder s id a (Some (e, x)).

Notation View := (option (LedgerEntry * Holding)).

Definition sendableOf (v : View) : Z := match v with Some (_, x) => sendable x | None => INT64_MAX end.
Definition receivableOf (v : View) : Z :=
  match v with Some (_, x) => receivable x | None => INT64_MAX end.

Lemma receivableOf_amount s id a v : holder s id a v → amount (receivableOf v).
Proof. intros [?|e x ? ? ? ? Hok]; unfold amount; simpl; [word|holding; lia]. Qed.

(** The state after the entry of the holder is replaced. *)
Definition putHolder (s : Ltx) (id : AccountID) (a : Asset) (v : View) : Ltx :=
  match v with Some (e, _) => put (holderKey id a) e s | None => s end.

Lemma holder_put_other s id a b v e :
  a ≠ b → holder s id a v → holder (put (holderKey id b) e s) id a v.
Proof.
  intros Hne [H|e' x Hi He Hk Hx Hok]; [by constructor|].
  apply holder_entry; [done| |done..]. unfold put. simpl.
  rewrite lookup_insert_ne; [done|]. intros E. apply Hne. symmetry. by apply (holderKey_inj id).
Qed.

Lemma holder_putHolder_other s id a b v w :
  a ≠ b → holder s id a v → holder (putHolder s id b w) id a v.
Proof. intros. destruct w as [[e x]|]; [by apply holder_put_other|done]. Qed.

Lemma holder_put s id a e x :
  getIssuer a ≠ Some id → LedgerEntryKey e = holderKey id a → holds (l_header s) e x → holdingOk x →
  holder (put (holderKey id a) e s) id a (Some (e, x)).
Proof. intros. apply holder_entry; [done| |done..]. unfold put. simpl. by simplify_map_eq. Qed.

Lemma holder_put_key s id a v k e :
  k ≠ holderKey id a → holder s id a v → holder (put k e s) id a v.
Proof.
  intros Hk [H|e' x Hi He Hk' Hx Hok]; [by constructor|].
  apply holder_entry; [done| |done..]. unfold put. simpl. by rewrite lookup_insert_ne.
Qed.

Lemma offer_not_holder i j id a : KEY_OFFER i j ≠ holderKey id a.
Proof. unfold holderKey. by destruct (isNative a). Qed.

Lemma putHolder_header s id a v : l_header (putHolder s id a v) = l_header s.
Proof. by destruct v as [[]|]. Qed.

(** ** The primitive operations on a holder *)

Lemma loadTrustLine_issuer s id a :
  getIssuer a = Some id → loadTrustLine id a s = Ok (IssuerImpl, s).
Proof. intros H. unfold loadTrustLine. rewrite H. by rewrite Z.eqb_refl. Qed.

Lemma loadTrustLine_entry s id a e :
  isNative a = false → getIssuer a ≠ Some id → l_entries s !! KEY_TRUSTLINE id a = Some e →
  loadTrustLine id a s = Ok (NonIssuerImpl e, s).
Proof.
  intros Hn Hi He. unfold loadTrustLine. destruct (getIssuer a) as [i|] eqn:E; [|by destruct a].
  destruct (Z.eqb_spec i id) as [->|]; [done|]. unfold load, bind, gets. by rewrite He.
Qed.

Lemma issuer_not_native a id : getIssuer a = Some id → isNative a = false.
Proof. by destruct a. Qed.

(** An operation on the holder runs on its entry; the issuer's always succeeds. *)
Lemma changeHolder_issuer s id a f g :
  getIssuer a = Some id → g IssuerImpl = Ok (true, IssuerImpl) →
  changeHolder id a f g s = Ok (true, s).
Proof.
  intros Hi Hg. unfold changeHolder. rewrite (issuer_not_native a id Hi).
  step (loadTrustLine_issuer s id a Hi). cbn [lineExists negb]. unfold lift. by rewrite Hg.
Qed.

Lemma changeHolder_entry s id a f e b e' :
  getIssuer a ≠ Some id → l_entries s !! holderKey id a = Some e → f e = Ok (b, e') →
  changeHolder id a f (line_update f) s = Ok (b, put (holderKey id a) e' s).
Proof.
  intros Hi He Hf. unfold changeHolder, holderKey in *. destruct (isNative a) eqn:En.
  - unfold load, lift, bind, gets. rewrite He, Hf. done.
  - step (loadTrustLine_entry s id a e En Hi He). cbn [lineExists negb line_update].
    unfold lift, bind. rewrite Hf. done.
Qed.

Lemma addHolderBalance_issuer h s id a d :
  getIssuer a = Some id → addHolderBalance h id a d s = Ok (true, s).
Proof.
  intros Hi. unfold addHolderBalance. rewrite (issuer_not_native a id Hi).
  by step (loadTrustLine_issuer s id a Hi).
Qed.

Lemma addHolderBalance_entry h s id a d e b e' :
  getIssuer a ≠ Some id → l_entries s !! holderKey id a = Some e → addBalance h e d = Ok (b, e') →
  addHolderBalance h id a d s = Ok (b, put (holderKey id a) e' s).
Proof.
  intros Hi He Hf. unfold addHolderBalance, holderKey in *. destruct (isNative a) eqn:En.
  - unfold current, load, lift, bind, gets. rewrite He. cbn. rewrite Hf. done.
  - step (loadTrustLine_entry s id a e En Hi He). unfold line_addBalance. cbn [line_update].
    unfold lift, bind. rewrite Hf. done.
Qed.

(** ** Views before and after an operation *)

(** Entries that differ in balance and liabilities only: the key, the sponsor, the
    offer, and the counters of an account are the same. *)
Definition offerIn (e : LedgerEntry) : option OfferEntry :=
  match data e with OFFER o => Some o | _ => None end.

Record Counters : Type := mkCounters {
  c_id : AccountID;
  c_subEntries : Z;
  c_v2 : option AccountEntryExtensionV2
}.

Definition countersOf (acc : AccountEntry) : Counters :=
  mkCounters (a_accountID acc) (numSubEntries acc) (accountExtV2 acc).

Definition accountIn (e : LedgerEntry) : option Counters :=
  match data e with ACCOUNT acc => Some (countersOf acc) | _ => None end.

Definition kin (e e' : LedgerEntry) : Prop :=
  LedgerEntryKey e' = LedgerEntryKey e ∧ le_ext e' = le_ext e ∧
  offerIn e' = offerIn e ∧ accountIn e' = accountIn e.

#[export] Instance kin_equiv : Equivalence kin.
Proof. split; [by intros ?|intros ?? (?&?&?&?)|intros ??? (?&?&?&?) (?&?&?&?)]; split_and!; congruence. Qed.

Lemma kin_setBalance e b : kin e (setBalance e b).
Proof.
  unfold setBalance, kin, LedgerEntryKey, offerIn, accountIn.
  by destruct (data e) as [x|x|x|x|x] eqn:E; cbn [data set_data le_ext]; try rewrite E.
Qed.

Lemma accountExtV2_set_liabilities l acc : accountExtV2 (set_liabilities l acc) = accountExtV2 acc.
Proof.
  unfold accountExtV2, set_liabilities, prepareAccountEntryExtensionV1. simpl.
  by destruct (a_extV1 acc).
Qed.

Lemma kin_setLiabilities e l : kin e (setLiabilities e l).
Proof.
  unfold setLiabilities, kin, LedgerEntryKey, offerIn, accountIn.
  destruct (data e) as [x|x|x|x|x] eqn:E; cbn [data set_data le_ext]; try rewrite E; (split_and!; try done).
  unfold countersOf. by rewrite accountExtV2_set_liabilities.
Qed.

Definition moved (f : Holding → Holding) (v v' : View) : Prop :=
  match v, v' with
  | None, None => True
  | Some (e, x), Some (e', x') => x' = f x ∧ kin e e'
  | _, _ => False
  end.

Definition viewOf {A} (f : Holding → A) (d : A) (v : View) : A :=
  match v with Some (_, x) => f x | None => d end.

Section Steps.
Context (s : Ltx) (id : AccountID) (a : Asset) (v : View).
Hypothesis Hv : 10 ≤ ledgerVersion (l_header s).
Hypothesis Hh : holder s id a v.

(** Any operation on the holder that succeeds on the entry of a view. *)
Lemma holder_op f (g : Holding → Holding) :
  (∀ e x, v = Some (e, x) → ∃ e', f e = Ok (true, e') ∧ holds (l_header s) e' (g x) ∧ kin e e' ∧
     holdingOk (g x)) →
  ∃ v', changeHolder id a f (line_update f) s = Ok (true, putHolder s id a v') ∧
    holder (putHolder s id a v') id a v' ∧ moved g v v'.
Proof using Hh.
  clear Hv. intros Hf. destruct Hh as [Hi|e x Hi He Hk Hx Hok].
  - exists None. split; [by apply changeHolder_issuer|]. by split; [constructor|].
  - destruct (Hf e x eq_refl) as (e' & E & Hx' & Hk' & Hok'). exists (Some (e', g x)).
    split; [by apply (changeHolder_entry s id a f e true e')|].
    split; [|done]. apply holder_put; [done| |done..]. by rewrite (proj1 Hk').
Qed.

Lemma buy_step d :
  viewOf (λ x, - hd_buying x ≤ d) True v → d ≤ receivableOf v →
  ∃ v', changeHolder id a (λ e, addBuyingLiabilities (l_header s) e d)
          (λ w, line_addBuyingLiabilities (l_header s) w d) s = Ok (true, putHolder s id a v') ∧
    holder (putHolder s id a v') id a v' ∧ moved (λ x, with_buying x (hd_buying x + d)) v v'.
Proof using Hv Hh.
  intros H1 H2. apply (holder_op (λ e, addBuyingLiabilities (l_header s) e d)).
  intros e x ->. inversion Hh as [|? ? Hi He Hk Hx Hok]; subst. simpl in H1, H2.
  rewrite (addBuyingLiabilities_eq _ _ x) by done.
  assert (canBuy x d = true) as E by (unfold canBuy; rewrite !(proj2 (Z.leb_le _ _)) by lia; done).
  rewrite E. cbn [andb]. eexists. split; [done|]. split; [|split; [|by apply canBuy_ok]].
  - destruct (Z.eqb_spec d 0) as [->|]; cbn [negb].
    + rewrite Z.add_0_r. by destruct x.
    + exact (holds_setLiabilities _ e x {| buying := hd_buying x + d; selling := hd_selling x |} Hx).
  - destruct (negb _); [apply kin_setLiabilities|reflexivity].
Qed.

Lemma sell_step d :
  0 ≤ sendableOf v → viewOf (λ x, - hd_selling x ≤ d) True v → d ≤ sendableOf v →
  ∃ v', changeHolder id a (λ e, addSellingLiabilities (l_header s) e d)
          (λ w, line_addSellingLiabilities (l_header s) w d) s = Ok (true, putHolder s id a v') ∧
    holder (putHolder s id a v') id a v' ∧ moved (λ x, with_selling x (hd_selling x + d)) v v'.
Proof using Hv Hh.
  intros H0 H1 H2. apply (holder_op (λ e, addSellingLiabilities (l_header s) e d)).
  intros e x ->. inversion Hh as [|? ? Hi He Hk Hx Hok]; subst. simpl in H0, H1, H2.
  rewrite (addSellingLiabilities_eq _ _ x) by done.
  assert (canSell x d = true) as E by (unfold canSell; rewrite !(proj2 (Z.leb_le _ _)) by lia; done).
  rewrite E. cbn [andb]. eexists. split; [done|]. split; [|split; [|by apply canSell_ok]].
  - destruct (Z.eqb_spec d 0) as [->|]; cbn [negb].
    + rewrite Z.add_0_r. by destruct x.
    + exact (holds_setLiabilities _ e x {| buying := hd_buying x; selling := hd_selling x + d |} Hx).
  - destruct (negb _); [apply kin_setLiabilities|reflexivity].
Qed.

Lemma balance_step d :
  (if d <? 0 then - d ≤ sendableOf v else d ≤ receivableOf v) →
  ∃ v', addHolderBalance (l_header s) id a d s = Ok (true, putHolder s id a v') ∧
    holder (putHolder s id a v') id a v' ∧ moved (λ x, with_balance x (hd_balance x + d)) v v'.
Proof using Hv Hh.
  intros Hd. inversion Hh as [Hi|e x Hi He Hk Hx Hok]; subst.
  - exists None. split; [by apply addHolderBalance_issuer|]. by split; [constructor|].
  - assert (canAdd x d = true) as E.
    { unfold canAdd. simpl in Hd. destruct (d <? 0); by apply Z.leb_le. }
    exists (Some (setBalance e (hd_balance x + d), with_balance x (hd_balance x + d))).
    split; [|split].
    + apply (addHolderBalance_entry _ _ _ _ _ e); [done..|].
      rewrite (addBalance_eq _ _ x) by done. by rewrite E.
    + apply holder_put; [done| |by apply holds_setBalance|by apply canAdd_ok].
      by rewrite (proj1 (kin_setBalance _ _)).
    + split; [done|apply kin_setBalance].
Qed.
End Steps.

(** ** The limits of the seller *)

Definition lineView (a : Asset) (v : View) : TrustLineWrapper :=
  if isNative a then NoTrustLine
  else match v with Some (e, _) => NonIssuerImpl e | None => IssuerImpl end.

Lemma loadLine_view s id a v :
  holder s id a v → loadTrustLineIfNotNative id a s = Ok (lineView a v, s).
Proof.
  intros Hh. unfold loadTrustLineIfNotNative, lineView. destruct (isNative a) eqn:En; [done|].
  destruct Hh as [Hi|e x Hi He Hk Hx Hok]; [by apply loadTrustLine_issuer|].
  apply loadTrustLine_entry; [done..|]. unfold holderKey in He. by rewrite En in He.
Qed.

(** [acc] is the account when the asset is native. *)
Definition accountFor (a : Asset) (v : View) (acc : option LedgerEntry) : Prop :=
  isNative a = true → ∃ e x, v = Some (e, x) ∧ acc = Some e.

Lemma loadAccount_view s id a b v w :
  holder s id a v → holder s id b w →
  ∃ acc, loadNativeAccount id a b s = Ok (acc, s) ∧ accountFor a v acc ∧ accountFor b w acc.
Proof.
  intros Ha Hb. unfold loadNativeAccount, accountFor, load, gets.
  assert (∀ c u, holder s id c u → isNative c = true →
    ∃ e x, u = Some (e, x) ∧ l_entries s !! KEY_ACCOUNT id = Some e) as Hn.
  { intros c u [Hi|e x Hi He Hk Hx Hok] Hc; [by rewrite (issuer_not_native c id Hi) in Hc|].
    exists e, x. unfold holderKey in He. by rewrite Hc in He. }
  destruct (isNative a) eqn:Ea; cbn [orb].
  - eexists. split; [done|]. split; [intros _; by apply (Hn a)|].
    intros Eb. by apply (Hn b).
  - destruct (isNative b) eqn:Eb.
    + eexists. split; [done|]. split; [done|]. intros _. by apply (Hn b).
    + by exists None.
Qed.

Section Limits.
Context (s : Ltx) (id : AccountID) (a : Asset) (v : View) (acc : option LedgerEntry).
Hypothesis Hv : 10 ≤ ledgerVersion (l_header s).
Hypothesis Hh : holder s id a v.
Hypothesis Hacc : accountFor a v acc.

Lemma holds_authorized e x :
  holds (l_header s) e x → isNative a = false → LedgerEntryKey e = KEY_TRUSTLINE id a →
  ∃ tl, data e = TRUSTLINE tl ∧ isAuthorizedToMaintainLiabilities tl = true.
Proof.
  intros [ac l m Hd Hl Hm|tl l Hd Hl Ha] _ Hk; [|by exists tl].
  unfold LedgerEntryKey in Hk. by rewrite Hd in Hk.
Qed.

Lemma canSellAtMost_view :
  canSellAtMost (l_header s) acc a (lineView a v) = Ok (Z.max (sendableOf v) 0).
Proof using Hv Hh Hacc.
  unfold canSellAtMost, lineView. destruct (isNative a) eqn:En.
  - destruct (Hacc En) as (e & x & -> & ->). inversion Hh as [|? ? Hi He Hk Hx Hok]; subst.
    by rewrite (getAvailableBalance_eq _ _ x) by done.
  - inversion Hh as [Hi|e x Hi He Hk Hx Hok]; subst; cbn [lineExists line_isAuthorizedToMaintainLiabilities]; [done|].
    unfold holderKey in Hk. rewrite En in Hk.
    destruct (holds_authorized e x Hx En Hk) as (tl & Hd & Ha).
    unfold line_trustLine. rewrite Hd. cbn [obind]. rewrite Ha.
    unfold line_getAvailableBalance. cbn [line_query]. by rewrite (getAvailableBalance_eq _ _ x) by done.
Qed.

Lemma canBuyAtMost_view :
  canBuyAtMost (l_header s) acc a (lineView a v) = Ok (receivableOf v).
Proof using Hv Hh Hacc.
  pose proof (receivableOf_amount _ _ _ _ Hh) as [Hr _].
  assert (Ok (Z.max (receivableOf v) 0) = Ok (receivableOf v) :> LE Z) as <- by (f_equal; lia). clear Hr.
  unfold canBuyAtMost, lineView. destruct (isNative a) eqn:En.
  - destruct (Hacc En) as (e & x & -> & ->). inversion Hh as [|? ? Hi He Hk Hx Hok]; subst.
    by rewrite (getMaxAmountReceive_eq _ _ x) by done.
  - inversion Hh as [Hi|e x Hi He Hk Hx Hok]; subst; cbn [lineExists]; [done|].
    unfold line_getMaxAmountReceive. cbn [line_query].
    by rewrite (getMaxAmountReceive_eq _ _ x) by done.
Qed.
End Limits.

(** ** Changes of the whole ledger *)

Inductive Quantity : Type := Balance | Buying | Selling.

#[export] Instance Quantity_eq_dec : EqDecision Quantity.
Proof. solve_decision. Defined.

Definition quantityOf (q : Quantity) (e : LedgerEntry) : option Z :=
  match q with
  | Balance =>
      match data e with
      | ACCOUNT acc => Some (a_balance acc)
      | TRUSTLINE tl => Some (tl_balance tl)
      | _ => None
      end
  | Buying => buying <$> liabilitiesOf e
  | Selling => selling <$> liabilitiesOf e
  end.

(** What [i] holds of [a] in the ledger. *)
Definition held (q : Quantity) (s : Ltx) (i : AccountID) (a : Asset) : option Z :=
  l_entries s !! holderKey i a ≫= quantityOf q.

Notation Change := (Quantity → AccountID → Asset → Z).

(** [s'] has the quantities of [s] changed by [δ], and the same holders. *)
Definition changed (δ : Change) (s s' : Ltx) : Prop :=
  ∀ q i a, held q s' i a = (λ z, z + δ q i a) <$> held q s i a.

Definition still : Change := λ q i a, 0.

Definition plus (δ1 δ2 : Change) : Change := λ q i a, δ1 q i a + δ2 q i a.

(** [b], [y] and [z] added to what a holder that is not the issuer has *)
Definition at_holder (id : AccountID) (a : Asset) (d : Quantity → Z) : Change := λ q i b,
  if bool_decide (i = id ∧ b = a ∧ getIssuer a ≠ Some id) then d q else 0.

Lemma changed_refl s : changed still s s.
Proof.
  intros q i a. destruct (held q s i a); simpl; [|done]. f_equal. unfold still. lia.
Qed.

Lemma changed_trans δ1 δ2 s1 s2 s3 :
  changed δ1 s1 s2 → changed δ2 s2 s3 → changed (plus δ1 δ2) s1 s3.
Proof.
  intros H1 H2 q i a. rewrite H2, H1. unfold plus.
  destruct (held q s1 i a); simpl; [|done]. f_equal. lia.
Qed.

Lemma changed_ext δ δ' s s' : (∀ q i a, δ q i a = δ' q i a) → changed δ s s' → changed δ' s s'.
Proof. intros Hd H q i a. rewrite H. by rewrite Hd. Qed.

Lemma holderKey_inj2 i a j b : holderKey i a = holderKey j b → i = j ∧ a = b.
Proof.
  unfold holderKey. destruct (isNative a) eqn:Ea, (isNative b) eqn:Eb; try done.
  - intros [= ->]. by rewrite (isNative_true a Ea), (isNative_true b Eb).
  - by intros [= -> ->].
Qed.

(** Entries under other keys than those of holders do not matter. *)
Lemma changed_other s s' :
  (∀ i a, l_entries s' !! holderKey i a = l_entries s !! holderKey i a) → changed still s s'.
Proof.
  intros H q i a. assert (held q s' i a = held q s i a) as -> by (unfold held; by rewrite H).
  apply changed_refl.
Qed.

(** Every holder still has a valid holding, and what it can send stays positive. *)
Definition evolves (s s' : Ltx) : Prop :=
  ∀ i a v, holder s i a v → ∃ v', holder s' i a v' ∧ (0 ≤ sendableOf v → 0 ≤ sendableOf v').

#[export] Instance evolves_preorder : PreOrder evolves.
Proof.
  split.
  - intros s i a v H. by exists v.
  - intros s1 s2 s3 H1 H2 i a v H. destruct (H1 i a v H) as (v' & H' & ?).
    destruct (H2 i a v' H') as (v'' & H'' & ?). exists v''. eauto.
Qed.

Record Step (δ : Change) (s s' : Ltx) : Prop := {
  st_header : l_header s' = l_header s;
  st_evolves : evolves s s';
  st_changed : changed δ s s';
  st_entries k : option_Forall2 kin (l_entries s !! k) (l_entries s' !! k)
}.

Lemma Step_refl s : Step still s s.
Proof. split; [done|done|apply changed_refl|done]. Qed.

Lemma Step_trans δ1 δ2 s1 s2 s3 : Step δ1 s1 s2 → Step δ2 s2 s3 → Step (plus δ1 δ2) s1 s3.
Proof.
  intros [H1 H2 H3 H4] [H1' H2' H3' H4']. split; [congruence|by etrans|by eapply changed_trans|].
  intros k. specialize (H4 k). specialize (H4' k).
  destruct H4; inversion H4'; subst; constructor. by etrans.
Qed.

Definition quantity (q : Quantity) (x : Holding) : Z :=
  match q with Balance => hd_balance x | Buying => hd_buying x | Selling => hd_selling x end.

Lemma holds_quantity h e x q : holds h e x → quantityOf q e = Some (quantity q x).
Proof.
  intros Hx. destruct q; cbn [quantityOf quantity].
  - by destruct Hx as [acc l m Hd|tl l Hd]; rewrite Hd.
  - by rewrite (holds_liabilities h e x Hx).
  - by rewrite (holds_liabilities h e x Hx).
Qed.

(** The step of one holder. *)
Lemma Step_putHolder s id a v v' (f : Holding → Holding) d :
  holder s id a v → holder (putHolder s id a v') id a v' → moved f v v' →
  (∀ x q, quantity q (f x) = quantity q x + d q) → (0 ≤ sendableOf v → 0 ≤ sendableOf v') →
  Step (at_holder id a d) s (putHolder s id a v').
Proof.
  intros Hh Hh' Hm Hf Hsend. split; [apply putHolder_header| | |].
  - intros i b w Hw. destruct (decide (holderKey i b = holderKey id a)) as [E|E].
    + apply holderKey_inj2 in E as [-> ->]. exists v'. split; [done|]. intros Hs. apply Hsend.
      assert (w = v) as ->; [|done]. clear -Hh Hw.
      destruct Hh as [|e x Hi He Hk Hx Hok], Hw as [|e' x' Hi' He' Hk' Hx' Hok']; simplify_eq; try done.
      do 2 f_equal. destruct Hx', Hx; congruence.
    + exists w. split; [|done]. destruct v' as [[e' x']|]; [|done].
      destruct Hw as [|e0 x0]; [by constructor|]. apply holder_entry; try done. unfold put. simpl.
      by rewrite lookup_insert_ne.
  - intros q i b. unfold at_holder. destruct v as [[e x]|], v' as [[e' x']|]; try done.
    + inversion Hh as [|? ? Hi He Hk Hx Hok]; subst. destruct Hm as [-> _].
      inversion Hh' as [|? ? _ He' _ Hx' _]; subst.
      destruct (decide (i = id ∧ b = a)) as [[-> ->]|Hne].
      * rewrite bool_decide_true by done. unfold held. rewrite He, He'. cbn [mbind option_bind].
        by rewrite (holds_quantity _ _ _ q Hx), (holds_quantity _ _ _ q Hx'), Hf.
      * rewrite bool_decide_false by naive_solver. unfold held, putHolder, put. simpl.
        rewrite lookup_insert_ne; [apply changed_refl|].
        intros E. apply Hne. symmetry in E. apply holderKey_inj2 in E as [-> ->]. done.
    + inversion Hh as [Hi|]; subst. rewrite bool_decide_false by naive_solver. apply changed_refl.
  - intros k. destruct v as [[e x]|], v' as [[e' x']|]; try done.
    destruct Hm as [_ Hkin]. inversion Hh as [|? ? Hi He Hk Hx Hok]; subst. unfold putHolder, put. simpl.
    destruct (decide (k = holderKey id a)) as [->|].
    + rewrite He. simplify_map_eq. by constructor.
    + by rewrite lookup_insert_ne by done.
Qed.

(** [d] on one quantity *)
Definition only (q : Quantity) (d : Z) : Quantity → Z := λ q', if decide (q' = q) then d else 0.

Section HolderStep.
Context (s : Ltx) (id : AccountID) (a : Asset) (v v' : View) (d : Z).
Hypothesis Hh : holder s id a v.
Hypothesis Hh' : holder (putHolder s id a v') id a v'.

Lemma Step_buy :
  moved (λ x, with_buying x (hd_buying x + d)) v v' →
  Step (at_holder id a (only Buying d)) s (putHolder s id a v').
Proof using Hh Hh'.
  intros Hm. eapply Step_putHolder; [done..| |].
  - intros x []; unfold only; simpl; lia.
  - destruct v as [[e x]|], v' as [[e' x']|]; try done. destruct Hm as [-> _]. simpl. clear Hh Hh'.
    holding. lia.
Qed.

Lemma Step_sell :
  moved (λ x, with_selling x (hd_selling x + d)) v v' → d ≤ sendableOf v →
  Step (at_holder id a (only Selling d)) s (putHolder s id a v').
Proof using Hh Hh'.
  intros Hm Hd. eapply Step_putHolder; [done..| |].
  - intros x []; unfold only; simpl; lia.
  - destruct v as [[e x]|], v' as [[e' x']|]; try done. destruct Hm as [-> _]. simpl in *. clear Hh Hh'.
    holding. lia.
Qed.

Lemma Step_balance :
  moved (λ x, with_balance x (hd_balance x + d)) v v' → (0 ≤ sendableOf v → - d ≤ sendableOf v) →
  Step (at_holder id a (only Balance d)) s (putHolder s id a v').
Proof using Hh Hh'.
  intros Hm Hd. eapply Step_putHolder; [done..| |].
  - intros x []; unfold only; simpl; lia.
  - destruct v as [[e x]|], v' as [[e' x']|]; try done. destruct Hm as [-> _]. simpl in *. clear Hh Hh'.
    holding. lia.
Qed.
End HolderStep.
