(* ===== verification/Reserves.v ===== *)
(** * Removing an offer, and the reserves it frees

    An offer is a subentry of its owner, and may have a sponsor.  Removing it takes
    it out of the counters of both accounts; the balance each must keep does not
    grow, and nothing else in the ledger changes. *)

From stdpp Require Import prelude list gmap.
From Stdlib Require Import ZArith Lia.
From S2P Require Import Prelude Numeric Exchange LedgerEntries Balances Sponsorship LedgerState.
From S2P Require Import CrossOffers Holders.
Local Open Scope Z_scope.

(** ** Counters of an account *)

Definition sponsoring (c : Counters) : Z :=
  match c_v2 c with Some v2 => numSponsoring v2 | None => 0 end.
Definition sponsored (c : Counters) : Z :=
  match c_v2 c with Some v2 => numSponsored v2 | None => 0 end.

(** The number of reserves the account must keep. *)
Definition effective (c : Counters) : Z := 2 + c_subEntries c + sponsoring c - sponsored c.

Definition countersOk (h : LedgerHeader) (c : Counters) : Prop :=
  0 ≤ c_subEntries c ≤ UINT32_MAX ∧ 0 ≤ sponsoring c ≤ UINT32_MAX ∧ 0 ≤ sponsored c ≤ UINT32_MAX ∧
  0 ≤ baseReserve h ∧ 0 ≤ effective c ∧ effective c * baseReserve h ≤ INT64_MAX ∧
  (ledgerVersion h < 14 → c_v2 c = None).

Lemma getMinBalance_eq h acc :
  10 ≤ ledgerVersion h → countersOk h (countersOf acc) →
  getMinBalance h acc = Ok (effective (countersOf acc) * baseReserve h).
Proof.
  intros Hv (Hs & Hg & Hd & Hr & He & Hm & Hv2). unfold getMinBalance, getMinBalanceOf.
  assert (in_s64 (effective (countersOf acc) * baseReserve h)) as Hin by (word; nia).
  unfold effective, sponsoring, sponsored in *. cbn [c_subEntries c_v2 countersOf] in *.
  destruct (Z.leb_spec 14 (ledgerVersion h)).
  - destruct (Z.ltb_spec (ledgerVersion h) 14); [lia|]. destruct (Z.leb_spec (ledgerVersion h) 8); [lia|].
    destruct (accountExtV2 acc) as [v2|]; cbn [andb].
    + destruct (Z.ltb_spec (2 + numSubEntries acc + numSponsoring v2 - numSponsored v2) 0); [lia|].
      by rewrite s64_small.
    + destruct (Z.ltb_spec (2 + numSubEntries acc + 0 - 0) 0); [lia|]. by rewrite s64_small.
  - rewrite Hv2 in * by lia. destruct (Z.ltb_spec (ledgerVersion h) 14); [|lia].
    destruct (Z.leb_spec (ledgerVersion h) 8); [lia|]. cbn [andb orb negb Z.eqb].
    destruct (Z.ltb_spec (2 + numSubEntries acc + 0 - 0) 0); [lia|]. by rewrite s64_small.
Qed.

(** ** Replacing an account *)

(** Every entry is stored under its key. *)
Definition keyed (s : Ltx) : Prop := ∀ k e, l_entries s !! k = Some e → LedgerEntryKey e = k.

Lemma accountIn_key e c : accountIn e = Some c → LedgerEntryKey e = KEY_ACCOUNT (c_id c).
Proof.
  unfold accountIn, LedgerEntryKey. by destruct (data e) as [x|x|x|x|x]; intros; simplify_eq.
Qed.

(** The accounts differ in their counters only, and the reserve does not grow. *)
Record recounted (h : LedgerHeader) (acc acc' : AccountEntry) : Prop := {
  rc_id : a_accountID acc' = a_accountID acc;
  rc_balance : a_balance acc' = a_balance acc;
  rc_liabilities : a_liabilities <$> a_extV1 acc' = a_liabilities <$> a_extV1 acc;
  rc_ok : countersOk h (countersOf acc);
  rc_ok' : countersOk h (countersOf acc');
  rc_effective : effective (countersOf acc') ≤ effective (countersOf acc)
}.

Section Recount.
Context (s : Ltx) (i : AccountID) (e : LedgerEntry) (acc acc' : AccountEntry).
Hypothesis Hv : 10 ≤ ledgerVersion (l_header s).
Hypothesis He : l_entries s !! KEY_ACCOUNT i = Some e.
Hypothesis Hd : data e = ACCOUNT acc.
Hypothesis Hr : recounted (l_header s) acc acc'.

Lemma recounted_liabilities : liabilitiesOf (setAccount acc' e) = liabilitiesOf e.
Proof using Hd Hr.
  destruct Hr as [_ _ Hl _ _ _]. unfold liabilitiesOf. rewrite Hd. simpl.
  destruct (a_extV1 acc), (a_extV1 acc'); simpl in Hl |- *; congruence.
Qed.

Lemma recounted_changed : changed still s (put (KEY_ACCOUNT i) (setAccount acc' e) s).
Proof using Hd He Hr.
  intros q j a. unfold held, put. simpl.
  destruct (decide (holderKey j a = KEY_ACCOUNT i)) as [E|E].
  - rewrite E, He. simplify_map_eq.
    assert (quantityOf q (setAccount acc' e) = quantityOf q e) as ->.
    { unfold quantityOf. rewrite recounted_liabilities, Hd. destruct q; try done. simpl.
      by rewrite (rc_balance _ _ _ Hr). }
    destruct (quantityOf q e); simpl; [|done]. f_equal. unfold still. lia.
  - rewrite lookup_insert_ne by done. apply changed_refl.
Qed.

Lemma recounted_holder a x :
  holder s i a (Some (e, x)) →
  ∃ x', holder (put (KEY_ACCOUNT i) (setAccount acc' e) s) i a (Some (setAccount acc' e, x')) ∧
    sendable x ≤ sendable x'.
Proof using Hv Hd He Hr.
  intros Hh. inversion Hh as [|e0 x0 Hi He0 Hk Hx Hok]; subst. pose proof recounted_liabilities as Hl.
  destruct Hx as [acc0 l m Hd0 Hl0 Hm|tl l Hd0]; [|congruence].
  rewrite Hd in Hd0. injection Hd0 as <-. destruct Hr as [Hid Hb _ Hc Hc' Heff].
  rewrite getMinBalance_eq in Hm by done. injection Hm as <-.
  destruct Hc as (_ & _ & _ & Hr0 & _ & Hmax & _), Hc' as (Hc1 & Hc2 & Hc3 & _ & He' & Hmax' & Hc4).
  set (m := effective (countersOf acc) * _) in *.
  set (m' := effective (countersOf acc') * baseReserve (l_header s)) in *.
  assert (0 ≤ m' ≤ m) as Hmm by (unfold m, m'; nia).
  exists {| hd_balance := a_balance acc; hd_buying := buying l; hd_selling := selling l;
            hd_floor := m'; hd_limit := INT64_MAX |}.
  split; [|unfold sendable; simpl; lia].
  assert (holderKey i a = KEY_ACCOUNT i) as E.
  { rewrite <- Hk. unfold LedgerEntryKey in Hk |- *. rewrite Hd in Hk |- *. unfold holderKey in Hk.
    destruct (isNative a); congruence. }
  apply holder_entry; [done| | | |].
  - rewrite E. unfold put. simpl. by simplify_map_eq.
  - rewrite <- Hk. unfold LedgerEntryKey. rewrite Hd. simpl. by rewrite Hid.
  - simpl. rewrite <- Hb. apply holds_account; [done|by rewrite Hl|]. by apply getMinBalance_eq.
  - holding. lia.
Qed.

Lemma recounted_evolves : evolves s (put (KEY_ACCOUNT i) (setAccount acc' e) s).
Proof using Hv Hd He Hr.
  intros j a v Hh. destruct (decide (holderKey j a = KEY_ACCOUNT i)) as [E|E].
  - inversion Hh as [Hi|e0 x0 Hi He0 Hk Hx Hok]; subst; [exists None; by split; [constructor|]|].
    assert (j = i) as -> by (unfold holderKey in E; by destruct (isNative a); simplify_eq).
    assert (e0 = e) as -> by (rewrite E, He in He0; by simplify_eq).
    destruct (recounted_holder a x0 Hh) as (x' & Hh' & Hs). eexists. split; [done|]. simpl. lia.
  - exists v. split; [|done]. apply holder_put_key; [by apply not_eq_sym|done].
Qed.
End Recount.

(** ** Taking an offer out of the counters *)

Definition ind (P : Prop) `{Decision P} : Z := if decide P then 1 else 0.

(** The counters after an offer of [id] with this sponsor is removed. *)
Definition released (id : AccountID) (sponsor : option AccountID) (c c' : Counters) : Prop :=
  c_id c' = c_id c ∧
  c_subEntries c' = c_subEntries c - ind (c_id c = id) ∧
  sponsored c' = sponsored c - ind (c_id c = id ∧ sponsor ≠ None) ∧
  sponsoring c' = sponsoring c - ind (sponsor = Some (c_id c)) ∧
  (c_v2 c = None → c_v2 c' = None).

Definition shrunk (id : AccountID) (sponsor : option AccountID) (e e' : LedgerEntry) : Prop :=
  LedgerEntryKey e' = LedgerEntryKey e ∧ le_ext e' = le_ext e ∧ offerIn e' = offerIn e ∧
  option_Forall2 (released id sponsor) (accountIn e) (accountIn e').

(** The account [i] and its counters *)
Definition account (s : Ltx) (i : AccountID) (c : Counters) : Prop :=
  ∃ e, l_entries s !! KEY_ACCOUNT i = Some e ∧ accountIn e = Some c ∧ c_id c = i ∧
    countersOk (l_header s) c.

(** The counters of the owner, and of the sponsor if there is one, count the offer. *)
Definition removable (s : Ltx) (id : AccountID) (sponsor : option AccountID) : Prop :=
  ∃ c, account s id c ∧ 1 ≤ c_subEntries c ∧
    match sponsor with
    | None => 1 ≤ effective c
    | Some i =>
        i ≠ id ∧ 14 ≤ ledgerVersion (l_header s) ∧ 1 ≤ sponsored c ∧
        ∃ c', account s i c' ∧ 1 ≤ sponsoring c' ∧ 1 ≤ effective c'
    end.

Record Removal (id : AccountID) (sponsor : option AccountID) (s s' : Ltx) : Prop := {
  rm_header : l_header s' = l_header s;
  rm_evolves : evolves s s';
  rm_changed : changed still s s';
  rm_entries k : option_Forall2 (shrunk id sponsor) (l_entries s !! k) (l_entries s' !! k)
}.

Lemma released_other id sponsor c : c_id c ≠ id → sponsor ≠ Some (c_id c) → released id sponsor c c.
Proof.
  intros H1 H2. unfold released, ind.
  rewrite !decide_False by naive_solver. split_and!; try done; lia.
Qed.

Lemma shrunk_other id sponsor k e :
  LedgerEntryKey e = k → k ≠ KEY_ACCOUNT id → (∀ i, sponsor = Some i → k ≠ KEY_ACCOUNT i) →
  shrunk id sponsor e e.
Proof.
  intros Hk H1 H2. split_and!; [done..|]. destruct (accountIn e) as [c|] eqn:E; constructor.
  pose proof (accountIn_key e c E) as Hc.
  apply released_other; [congruence|]. intros E'. eapply H2; [done|congruence].
Qed.

(** The three changes of an account. *)
Definition dropSub (acc : AccountEntry) : AccountEntry :=
  set_numSubEntries (u32 (numSubEntries acc + -1)) acc.

Definition dropSponsored (v2 : AccountEntryExtensionV2) (acc : AccountEntry) : AccountEntry :=
  set_extV2 {| numSponsored := u32 (numSponsored v2 - 1); numSponsoring := numSponsoring v2;
               signerSponsoringIDs := signerSponsoringIDs v2 |} acc.

Definition dropSponsoring (v2 : AccountEntryExtensionV2) (acc : AccountEntry) : AccountEntry :=
  set_extV2 {| numSponsored := numSponsored v2; numSponsoring := u32 (numSponsoring v2 - 1);
               signerSponsoringIDs := signerSponsoringIDs v2 |} acc.

Lemma set_extV2_liabilities v v2 acc :
  accountExtV2 acc = Some v → a_liabilities <$> a_extV1 (set_extV2 v2 acc) = a_liabilities <$> a_extV1 acc.
Proof.
  unfold accountExtV2, set_extV2, prepareAccountEntryExtensionV1. simpl. by destruct (a_extV1 acc).
Qed.

Lemma countersOk_less h c c' :
  countersOk h c → 0 ≤ c_subEntries c' ≤ c_subEntries c → 0 ≤ sponsoring c' ≤ sponsoring c →
  0 ≤ sponsored c' ≤ sponsored c → 0 ≤ effective c' ≤ effective c → (c_v2 c = None → c_v2 c' = None) →
  countersOk h c'.
Proof.
  intros (H1 & H2 & H3 & H4 & H5 & H6 & H7) ? ? ? ? ?. unfold countersOk. split_and!; try lia; [nia|auto].
Qed.

Section Drops.
Context (h : LedgerHeader) (acc : AccountEntry).
Hypothesis Hok : countersOk h (countersOf acc).

Ltac counters :=
  unfold effective, sponsored, sponsoring in *;
  cbn [c_id c_subEntries c_v2 countersOf numSponsored numSponsoring] in *.

Lemma dropSub_counters :
  1 ≤ numSubEntries acc →
  countersOf (dropSub acc) = mkCounters (a_accountID acc) (numSubEntries acc - 1) (accountExtV2 acc).
Proof using Hok.
  intros Hs. destruct Hok as (H1 & _). cbn in H1. unfold countersOf, dropSub. simpl.
  rewrite u32_small by word. f_equal.
Qed.

Lemma dropSub_recounted :
  1 ≤ numSubEntries acc → 1 ≤ effective (countersOf acc) → recounted h acc (dropSub acc).
Proof using Hok.
  intros Hs He. pose proof Hok as (H1 & H2 & H3 & H4 & H5 & H6 & H7).
  split; [done..| |]; rewrite dropSub_counters by done; [|counters; lia].
  apply (countersOk_less h _ _ Hok); counters; try done; lia.
Qed.

Lemma dropSponsored_counters v2 :
  accountExtV2 acc = Some v2 → 1 ≤ numSponsored v2 → 1 ≤ numSubEntries acc →
  countersOf (dropSponsored v2 (dropSub acc)) =
    mkCounters (a_accountID acc) (numSubEntries acc - 1)
      (Some {| numSponsored := numSponsored v2 - 1; numSponsoring := numSponsoring v2;
               signerSponsoringIDs := signerSponsoringIDs v2 |}).
Proof using Hok.
  intros E Hn Hs. destruct Hok as (H1 & _ & H3 & _). counters. rewrite E in H3.
  unfold countersOf, dropSponsored, dropSub. simpl. rewrite !u32_small by word. f_equal.
Qed.

Lemma dropOwner_recounted v2 :
  accountExtV2 acc = Some v2 → 1 ≤ numSubEntries acc → 1 ≤ numSponsored v2 →
  recounted h acc (dropSponsored v2 (dropSub acc)).
Proof using Hok.
  intros E Hs Hn. pose proof Hok as (H1 & H2 & H3 & H4 & H5 & H6 & H7).
  split; [done|done|exact (set_extV2_liabilities v2 _ (dropSub acc) E)|done| |];
    rewrite dropSponsored_counters by done; [|counters; rewrite E in *; lia].
  apply (countersOk_less h _ _ Hok); counters; rewrite ?E in *; try done; lia.
Qed.

Lemma dropSponsoring_counters v2 :
  accountExtV2 acc = Some v2 → 1 ≤ numSponsoring v2 →
  countersOf (dropSponsoring v2 acc) =
    mkCounters (a_accountID acc) (numSubEntries acc)
      (Some {| numSponsored := numSponsored v2; numSponsoring := numSponsoring v2 - 1;
               signerSponsoringIDs := signerSponsoringIDs v2 |}).
Proof using Hok.
  intros E Hn. destruct Hok as (_ & H3 & _). counters. rewrite E in H3.
  unfold countersOf, dropSponsoring. simpl. rewrite !u32_small by word. f_equal.
Qed.

Lemma dropSponsoring_recounted v2 :
  accountExtV2 acc = Some v2 → 1 ≤ numSponsoring v2 → 1 ≤ effective (countersOf acc) →
  recounted h acc (dropSponsoring v2 acc).
Proof using Hok.
  intros E Hn He. pose proof Hok as (H1 & H2 & H3 & H4 & H5 & H6 & H7).
  split; [done|done|exact (set_extV2_liabilities v2 _ acc E)|done| |];
    rewrite dropSponsoring_counters by done; [|counters; rewrite E in *; lia].
  apply (countersOk_less h _ _ Hok); counters; rewrite ?E in *; try done; lia.
Qed.
End Drops.

(** ** Removing the entry of an offer *)

Lemma remove_unsponsored s le o id e acc :
  data le = OFFER o → sponsoringIDOf le = None →
  l_entries s !! KEY_ACCOUNT id = Some e → data e = ACCOUNT acc → 1 ≤ numSubEntries acc →
  removeEntryWithPossibleSponsorship le (KEY_ACCOUNT id) s =
    Ok (le, put (KEY_ACCOUNT id) (setAccount (dropSub acc) e) s).
Proof.
  intros Hd Hsp He Ha Hn. unfold removeEntryWithPossibleSponsorship.
  assert (isAccount le = false) as Hia by (unfold isAccount; by rewrite Hd).
  rewrite (bind_ok loadHeader _ s (l_header s) s) by done.
  rewrite (bind_ok (current _) _ s e s) by (unfold current, load, bind, gets; by rewrite He).
  rewrite (bind_ok (lift (accountOf e)) _ s acc s) by (unfold lift, accountOf; by rewrite Ha).
  rewrite Hsp, Hia.
  rewrite (bind_ok (lift _) _ s tt s).
  2:{ unfold lift, canRemoveEntryWithoutSponsorship. rewrite Hia. unfold accountOf. rewrite Ha.
      cbn [obind]. unfold computeMultiplier. rewrite Hd.
      destruct (Z.ltb_spec (numSubEntries acc) 1); [lia|done]. }
  unfold removeEntryWithoutSponsorship, updateSponsored, accountOf. rewrite Hia, Ha. done.
Qed.

Lemma remove_sponsored s le o id i e acc v2 e' acc' v2' :
  data le = OFFER o → le_ext le = Some (Some i) → i ≠ id → 14 ≤ ledgerVersion (l_header s) →
  l_entries s !! KEY_ACCOUNT id = Some e → data e = ACCOUNT acc → a_accountID acc = id →
  1 ≤ numSubEntries acc → accountExtV2 acc = Some v2 → 1 ≤ numSponsored v2 →
  l_entries s !! KEY_ACCOUNT i = Some e' → data e' = ACCOUNT acc' → a_accountID acc' = i →
  accountExtV2 acc' = Some v2' → 1 ≤ numSponsoring v2' →
  ∃ le', removeEntryWithPossibleSponsorship le (KEY_ACCOUNT id) s =
    Ok (le', put (KEY_ACCOUNT id) (setAccount (dropSponsored v2 (dropSub acc)) e)
               (put (KEY_ACCOUNT i) (setAccount (dropSponsoring v2' acc') e') s)).
Proof.
  intros Hd Hsp Hne Hv He Ha Hid Hn Hv2 Hn2 He' Ha' Hid' Hv2' Hn2'.
  assert (isAccount le = false ∧ isClaimableBalance le = false) as [Hia Hic]
    by (unfold isAccount, isClaimableBalance; by rewrite Hd).
  assert (computeMultiplier le = 1) as Hm by (unfold computeMultiplier; by rewrite Hd).
  eexists. unfold removeEntryWithPossibleSponsorship.
  rewrite (bind_ok loadHeader _ s (l_header s) s) by done.
  rewrite (bind_ok (current _) _ s e s) by (unfold current, load, bind, gets; by rewrite He).
  rewrite (bind_ok (lift (accountOf e)) _ s acc s) by (unfold lift, accountOf; by rewrite Ha).
  unfold sponsoringIDOf. rewrite Hsp, Hia, Hic, Hid. destruct (Z.eqb_spec id i); [congruence|].
  rewrite (bind_ok (current _) _ s e' s) by (unfold current, load, bind, gets; by rewrite He').
  rewrite (bind_ok (lift _) _ s tt s).
  2:{ unfold lift, canRemoveEntryWithSponsorship, fromVersion14, getNumSponsoring, getNumSponsored,
        accountOf.
      rewrite (proj2 (Z.ltb_ge _ 14)) by lia. rewrite Hia, Ha, Ha', Hm. cbn [obind andb negb].
      rewrite Hv2, Hv2', !(proj2 (Z.ltb_ge _ 1)) by lia. done. }
  unfold removeEntryWithSponsorship, removeEntryWithoutSponsorship, updateSponsored, accountOf.
  rewrite Hia, Ha. cbn [obind addNumSubEntries fst snd].
  unfold removeEntrySponsorship, getSponsoringID. rewrite Hsp. cbn [obind accountIsSponsor].
  unfold accountOf. rewrite Ha'. cbn [obind]. rewrite Hid', Z.eqb_refl. cbn [obind].
  unfold updateAccount, accountOf, subNumSponsoring, getAccountEntryExtensionV2. rewrite Ha'.
  cbn [obind]. rewrite Hv2'. cbn [obind updateSponsored].
  unfold accountOf, setAccount, set_data at 1. cbn [data obind].
  unfold subNumSponsored, getAccountEntryExtensionV2.
  assert (accountExtV2 (set_numSubEntries (u32 (numSubEntries acc + -1)) acc) = Some v2) as -> by done.
  cbn [obind]. change (computeMultiplier (set_le_ext (Some None) le)) with (computeMultiplier le).
  rewrite Hm. reflexivity.
Qed.

Lemma accountIn_data e c : accountIn e = Some c → ∃ acc, data e = ACCOUNT acc ∧ c = countersOf acc.
Proof.
  unfold accountIn. destruct (data e) as [acc|?|?|?|?]; intros; simplify_eq. by exists acc.
Qed.

Lemma shrunk_account id sponsor e acc acc' :
  data e = ACCOUNT acc → a_accountID acc' = a_accountID acc →
  released id sponsor (countersOf acc) (countersOf acc') → shrunk id sponsor e (setAccount acc' e).
Proof.
  intros Hd Hid Hr. unfold shrunk, LedgerEntryKey, offerIn, accountIn. rewrite Hd. simpl. rewrite Hid.
  split_and!; [done..|by constructor].
Qed.

(** Entries other than the two accounts are the same. *)
Lemma shrunk_entries s id sponsor s' :
  keyed s →
  (∀ k, k ≠ KEY_ACCOUNT id → (∀ i, sponsor = Some i → k ≠ KEY_ACCOUNT i) →
     l_entries s' !! k = l_entries s !! k) →
  option_Forall2 (shrunk id sponsor) (l_entries s !! KEY_ACCOUNT id) (l_entries s' !! KEY_ACCOUNT id) →
  (∀ i, sponsor = Some i →
     option_Forall2 (shrunk id sponsor) (l_entries s !! KEY_ACCOUNT i) (l_entries s' !! KEY_ACCOUNT i)) →
  ∀ k, option_Forall2 (shrunk id sponsor) (l_entries s !! k) (l_entries s' !! k).
Proof.
  intros Hkey Hoth Hid Hsp k. destruct (decide (k = KEY_ACCOUNT id)) as [->|H1]; [done|].
  assert ((∃ i, sponsor = Some i ∧ k = KEY_ACCOUNT i) ∨ ∀ i, sponsor = Some i → k ≠ KEY_ACCOUNT i)
    as [(i & -> & ->)|H2].
  { destruct sponsor as [i|]; [|by right]. destruct (decide (k = KEY_ACCOUNT i)) as [->|]; [by left; exists i|].
    right. by intros ? [= <-]. }
  - by apply Hsp.
  - rewrite Hoth by done. destruct (_ !! k) as [e|] eqn:E; constructor.
    by apply (shrunk_other id sponsor k); [apply Hkey|..].
Qed.

Ltac releasedEq :=
  unfold released, ind, sponsored, sponsoring; cbn [c_id c_subEntries c_v2 countersOf];
  split_and!; try done; repeat (case_decide; try naive_solver lia).

Lemma Removal_unsponsored s id e acc :
  10 ≤ ledgerVersion (l_header s) → keyed s →
  l_entries s !! KEY_ACCOUNT id = Some e → data e = ACCOUNT acc → a_accountID acc = id →
  countersOk (l_header s) (countersOf acc) → 1 ≤ numSubEntries acc → 1 ≤ effective (countersOf acc) →
  Removal id None s (put (KEY_ACCOUNT id) (setAccount (dropSub acc) e) s).
Proof.
  intros Hv Hkey He Hd Hid Hok Hs Heff.
  pose proof (dropSub_recounted _ acc Hok Hs Heff) as Hr.
  split; [done|by eapply recounted_evolves|by eapply recounted_changed|].
  apply shrunk_entries; [done| | |done].
  - intros k Hk _. unfold put. simpl. by rewrite lookup_insert_ne.
  - unfold put. simpl. rewrite He. simplify_map_eq. constructor.
    eapply shrunk_account; [done..|]. rewrite (dropSub_counters _ acc Hok Hs). releasedEq.
Qed.

Lemma changed_still_trans s1 s2 s3 : changed still s1 s2 → changed still s2 s3 → changed still s1 s3.
Proof. intros H1 H2. eapply changed_ext; [|by eapply changed_trans]. done. Qed.

Lemma Removal_sponsored s id i e acc v2 e' acc' v2' :
  10 ≤ ledgerVersion (l_header s) → keyed s → i ≠ id →
  l_entries s !! KEY_ACCOUNT id = Some e → data e = ACCOUNT acc → a_accountID acc = id →
  countersOk (l_header s) (countersOf acc) → 1 ≤ numSubEntries acc →
  accountExtV2 acc = Some v2 → 1 ≤ numSponsored v2 →
  l_entries s !! KEY_ACCOUNT i = Some e' → data e' = ACCOUNT acc' → a_accountID acc' = i →
  countersOk (l_header s) (countersOf acc') → accountExtV2 acc' = Some v2' → 1 ≤ numSponsoring v2' →
  1 ≤ effective (countersOf acc') →
  Removal id (Some i) s
    (put (KEY_ACCOUNT id) (setAccount (dropSponsored v2 (dropSub acc)) e)
       (put (KEY_ACCOUNT i) (setAccount (dropSponsoring v2' acc') e') s)).
Proof.
  intros Hv Hkey Hne He Hd Hid Hok Hs E2 Hn He' Hd' Hid' Hok' E2' Hn' Heff.
  pose proof (dropOwner_recounted _ acc Hok v2 E2 Hs Hn) as Hr.
  pose proof (dropSponsoring_recounted _ acc' Hok' v2' E2' Hn' Heff) as Hr'.
  set (s1 := put (KEY_ACCOUNT i) _ s).
  assert (l_entries s1 !! KEY_ACCOUNT id = Some e) as He1.
  { unfold s1, put. simpl. by rewrite lookup_insert_ne by congruence. }
  assert (recounted (l_header s1) acc (dropSponsored v2 (dropSub acc))) as Hr1 by done.
  split; [done| | |].
  - transitivity s1; [by eapply recounted_evolves|by eapply recounted_evolves].
  - eapply changed_still_trans; [by eapply recounted_changed|by eapply (recounted_changed s1)].
  - apply shrunk_entries; [done| | |].
    + intros k Hk1 Hk2. unfold s1, put. simpl. rewrite !lookup_insert_ne; [done|..|done].
      intros E. by apply (Hk2 i).
    + unfold put. simpl. rewrite He. simplify_map_eq. constructor.
      eapply shrunk_account; [done..|]. rewrite (dropSponsored_counters _ acc Hok v2 E2 Hn Hs).
      releasedEq; cbn [numSponsored numSponsoring]; rewrite E2; (lia || done).
    + intros ? [= <-]. unfold put. simpl. rewrite He', lookup_insert_ne by congruence.
      unfold s1, put. simpl. simplify_map_eq. constructor.
      eapply shrunk_account; [done..|]. rewrite (dropSponsoring_counters _ acc' Hok' v2' E2' Hn').
      releasedEq; cbn [numSponsored numSponsoring]; rewrite E2'; (lia || done).
Qed.

Lemma remove_step s le o sponsor :
  10 ≤ ledgerVersion (l_header s) → keyed s →
  data le = OFFER o → sponsoringIDOf le = sponsor → removable s (o_sellerID o) sponsor →
  ∃ le' s', removeEntryWithPossibleSponsorship le (KEY_ACCOUNT (o_sellerID o)) s = Ok (le', s') ∧
    Removal (o_sellerID o) sponsor s s'.
Proof.
  intros Hv Hkey Hd Hsp (c & (e & He & Hc & Hid & Hok) & Hn & Hm).
  apply accountIn_data in Hc as (acc & Ha & ->). destruct sponsor as [i|].
  - destruct Hm as (Hne & Hv14 & Hn2 & c' & (e' & He' & Hc' & Hid' & Hok') & Hn' & Heff).
    apply accountIn_data in Hc' as (acc' & Ha' & ->). unfold sponsored, sponsoring in Hn2, Hn'.
    cbn [c_v2 countersOf] in Hn2, Hn'. destruct (accountExtV2 acc) as [v2|] eqn:E2; [|lia].
    destruct (accountExtV2 acc') as [v2'|] eqn:E2'; [|lia].
    assert (le_ext le = Some (Some i)) as Hext.
    { unfold sponsoringIDOf in Hsp. by destruct (le_ext le) as [[?|]|]; simplify_eq. }
    destruct (remove_sponsored s le o _ i e acc v2 e' acc' v2' Hd Hext Hne Hv14 He Ha Hid Hn E2 Hn2
      He' Ha' Hid' E2' Hn') as (le' & E).
    eexists _, _. split; [exact E|]. by apply Removal_sponsored.
  - eexists _, _. split; [by eapply remove_unsponsored|]. by apply Removal_unsponsored.
Qed.
