(* ===== verification/CrossSafety.v ===== *)
(** * Crossing an offer is safe

    In a ledger where the liabilities of an offer are accounted for, crossing it
    respects all limits, moves exactly the traded amounts between the balances of
    the seller, and leaves a ledger in which the rest of the offer is accounted
    for again. *)

From stdpp Require Import prelude list gmap.
From Stdlib Require Import ZArith Lia.
From S2P Require Import Prelude Numeric Exchange LedgerEntries Balances Sponsorship LedgerState.
From S2P Require Import CrossOffers Holders Reserves.
Local Open Scope Z_scope.

(** ** Offers and their liabilities *)

(** An offer of the book: valid price, positive amount, two assets, and adjusted. *)
Record offerOk (o : OfferEntry) : Prop := {
  oo_price : priceOk (o_price o);
  oo_amount : 0 < o_amount o ≤ INT64_MAX;
  oo_assets : o_buying o ≠ o_selling o;
  oo_adjusted : (adjusted (o_price o) (o_amount o) INT64_MAX).1 = o_amount o
}.

(** The sheep it buys when taken in full. *)
Definition buyLiab (o : OfferEntry) : Z := (adjusted (o_price o) (o_amount o) INT64_MAX).2.

Section OfferLiabilities.
Context (h : LedgerHeader) (o : OfferEntry).
Hypothesis Hv : 10 ≤ ledgerVersion h.
Hypothesis Ho : offerOk o.

Lemma offer_exchange :
  exchangeV10WithoutPriceErrorThresholds (o_price o) (o_amount o) INT64_MAX INT64_MAX INT64_MAX NORMAL =
    Ok (mkExchangeV10 (o_amount o) (buyLiab o) false).
Proof using Ho.
  destruct Ho as [Hp Ha _ Hadj]. pose proof max_amount as Hm.
  assert (amount (o_amount o)) as Ha' by (unfold amount; lia).
  destruct (adjusted_full _ _ _ Hp Ha' Hm (proj1 Ha) Hadj) as (E & _ & _).
  rewrite withoutThresholds_eq, unlimited_taken by done.
  rewrite <- E. unfold buyLiab. by rewrite Hadj.
Qed.

Lemma getOfferBuyingLiabilities_eq : getOfferBuyingLiabilities h o = Ok (buyLiab o).
Proof using Hv Ho.
  unfold getOfferBuyingLiabilities. rewrite version_lt by done. by rewrite offer_exchange.
Qed.

Lemma getOfferSellingLiabilities_eq : getOfferSellingLiabilities h o = Ok (o_amount o).
Proof using Hv Ho.
  unfold getOfferSellingLiabilities. rewrite version_lt by done. by rewrite offer_exchange.
Qed.

Lemma buyLiab_bounds : 0 ≤ buyLiab o ≤ INT64_MAX.
Proof using Ho.
  destruct Ho as [Hp Ha _ _]. unfold buyLiab.
  pose proof (adjusted_bounds (o_price o) (o_amount o) INT64_MAX Hp ltac:(unfold amount; lia) max_amount).
  lia.
Qed.
End OfferLiabilities.

(** The two views of a seller. *)
Definition seller (s : Ltx) (o : OfferEntry) (vB vS : View) : Prop :=
  holder s (o_sellerID o) (o_buying o) vB ∧ holder s (o_sellerID o) (o_selling o) vS.

(** The state in which both views are replaced. *)
Definition putSeller (s : Ltx) (o : OfferEntry) (vB vS : View) : Ltx :=
  putHolder (putHolder s (o_sellerID o) (o_buying o) vB) (o_sellerID o) (o_selling o) vS.

(** A change of what the seller holds of both assets. *)
Definition atSeller (o : OfferEntry) (dB dS : Quantity → Z) : Change :=
  plus (at_holder (o_sellerID o) (o_buying o) dB) (at_holder (o_sellerID o) (o_selling o) dS).

Lemma liabilities_step s o vB vS (isAcquire : bool) :
  let db := if isAcquire then buyLiab o else - buyLiab o in
  let ds := if isAcquire then o_amount o else - o_amount o in
  10 ≤ ledgerVersion (l_header s) → offerOk o → seller s o vB vS →
  viewOf (λ x, - hd_buying x ≤ db) True vB → db ≤ receivableOf vB →
  0 ≤ sendableOf vS → viewOf (λ x, - hd_selling x ≤ ds) True vS → ds ≤ sendableOf vS →
  ∃ vB' vS', acquireOrReleaseLiabilities o isAcquire s = Ok (tt, putSeller s o vB' vS') ∧
    seller (putSeller s o vB' vS') o vB' vS' ∧
    moved (λ x, with_buying x (hd_buying x + db)) vB vB' ∧
    moved (λ x, with_selling x (hd_selling x + ds)) vS vS' ∧
    Step (atSeller o (only Buying db) (only Selling ds)) s (putSeller s o vB' vS').
Proof.
  intros db ds Hv Ho [HB HS] Hb1 Hb2 Hs0 Hs1 Hs2.
  destruct (buy_step s _ _ vB Hv HB db Hb1 Hb2) as (vB' & Eb & HB' & Hmb).
  assert (holder (putHolder s (o_sellerID o) (o_buying o) vB') (o_sellerID o) (o_selling o) vS) as HS1.
  { apply holder_putHolder_other; [|done]. intros E. by apply (oo_assets o Ho). }
  assert (10 ≤ ledgerVersion (l_header (putHolder s (o_sellerID o) (o_buying o) vB'))) as Hv'
    by by rewrite putHolder_header.
  destruct (sell_step _ _ _ vS Hv' HS1 ds Hs0 Hs1 Hs2) as (vS' & Es & HS' & Hms).
  rewrite putHolder_header in Es.
  exists vB', vS'. split; [|split; [split|split_and!; [done..|]]].
  - unfold acquireOrReleaseLiabilities, loadHeader.
    rewrite (bind_ok (gets l_header) _ s (l_header s) s) by done.
    rewrite bool_decide_false by apply (oo_assets o Ho). cbn [negb].
    rewrite (bind_ok (check true _) _ s tt s) by done. unfold lift at 1.
    rewrite getOfferBuyingLiabilities_eq by done.
    rewrite (bind_ok _ _ s (buyLiab o) s) by done. fold db. step Eb.
    rewrite (bind_ok (check true _) _ _ tt (putHolder s (o_sellerID o) (o_buying o) vB')) by done.
    unfold lift at 1. rewrite getOfferSellingLiabilities_eq by done.
    rewrite (bind_ok _ _ _ (o_amount o) (putHolder s (o_sellerID o) (o_buying o) vB')) by done.
    fold ds. step Es. done.
  - apply holder_putHolder_other; [apply (oo_assets o Ho)|done].
  - done.
  - eapply Step_trans; [by eapply Step_buy|by eapply Step_sell].
Qed.

(** ** The steps of the crossing *)

(** The offer at [k], with the views of its seller. *)
Record atOffer (s : Ltx) (k : LedgerKey) (le : LedgerEntry) (o : OfferEntry) (vB vS : View) : Prop := {
  ao_entry : l_entries s !! k = Some le;
  ao_data : data le = OFFER o;
  ao_key : k = KEY_OFFER (o_sellerID o) (o_offerID o);
  ao_seller : seller s o vB vS
}.

Lemma atOffer_amount s k le o vB vS x :
  atOffer s k le o vB vS →
  atOffer (put k (set_data (OFFER (set_o_amount x o)) le) s) k (set_data (OFFER (set_o_amount x o)) le)
    (set_o_amount x o) vB vS.
Proof.
  intros [He Hd Hk [HB HS]]. split; [by unfold put; simpl; simplify_map_eq|done..|].
  subst k. by split; apply holder_put_key; try done; apply offer_not_holder.
Qed.

Definition sellLimit (o : OfferEntry) (vS : View) : Z := Z.min (o_amount o) (Z.max (sendableOf vS) 0).

Lemma adjust_step s k le o vB vS :
  10 ≤ ledgerVersion (l_header s) → atOffer s k le o vB vS →
  priceOk (o_price o) → amount (o_amount o) →
  let o' := set_o_amount (adjusted (o_price o) (sellLimit o vS) (receivableOf vB)).1 o in
  adjustLoadedOffer (l_header s) k s = Ok (o', put k (set_data (OFFER o') le) s).
Proof.
  intros Hv [He Hd Hk [HB HS]] Hp Ha o'.
  destruct (loadAccount_view s _ _ _ _ _ HS HB) as (acc & Eacc & HaS & HaB).
  unfold adjustLoadedOffer.
  rewrite (bind_ok (current k) _ s le s) by (unfold current, load, bind, gets; by rewrite He).
  rewrite (bind_ok (lift (offerOf le)) _ s o s) by (unfold lift, offerOf; by rewrite Hd).
  step Eacc. step (loadLine_view _ _ _ _ HB). step (loadLine_view _ _ _ _ HS).
  assert (adjustOfferEntry (l_header s) o acc (lineView (o_selling o) vS) (lineView (o_buying o) vB) =
    Ok o') as E.
  { unfold adjustOfferEntry.
    rewrite (canSellAtMost_view s _ _ vS acc) by done. cbn [obind].
    rewrite (canBuyAtMost_view s _ _ vB acc) by done. cbn [obind].
    rewrite adjustOffer_eq; [done|done|unfold amount in *; lia|by eapply receivableOf_amount]. }
  rewrite (bind_ok (lift _) _ s o' s) by (unfold lift; by rewrite E). done.
Qed.

Lemma exchange_step s k le o vB vS maxW maxS round r :
  10 ≤ ledgerVersion (l_header s) → atOffer s k le o vB vS →
  exchangeV10 (o_price o) (sellLimit o vS) maxW maxS (receivableOf vB) round = Ok r →
  exchangeWithOffer (l_header s) o maxW maxS round s = Ok (r, s).
Proof.
  intros Hv [He Hd Hk [HB HS]] Er.
  destruct (loadAccount_view s _ _ _ _ _ HS HB) as (acc & Eacc & HaS & HaB).
  unfold exchangeWithOffer. step Eacc. step (loadLine_view _ _ _ _ HB). step (loadLine_view _ _ _ _ HS).
  rewrite (bind_ok (lift (canSellAtMost _ _ _ _)) _ s (Z.max (sendableOf vS) 0) s)
    by (unfold lift; by rewrite (canSellAtMost_view s (o_sellerID o) _ vS acc)).
  rewrite (bind_ok (lift (canBuyAtMost _ _ _ _)) _ s (receivableOf vB) s)
    by (unfold lift; by rewrite (canBuyAtMost_view s (o_sellerID o) _ vB acc)).
  unfold lift, inExchange. unfold sellLimit in Er. by rewrite Er.
Qed.

Lemma setAmount_step s k le o vB vS x :
  atOffer s k le o vB vS →
  setOfferAmount k x s = Ok (tt, put k (set_data (OFFER (set_o_amount x o)) le) s).
Proof.
  intros [He Hd Hk _]. unfold setOfferAmount.
  rewrite (bind_ok (current k) _ s le s) by (unfold current, load, bind, gets; by rewrite He).
  rewrite (bind_ok (lift (offerOf le)) _ s o s) by (unfold lift, offerOf; by rewrite Hd). done.
Qed.

(** Changing the views of the seller keeps the offer. *)
Lemma atOffer_putSeller s k le o vB vS vB' vS' :
  atOffer s k le o vB vS → seller (putSeller s o vB' vS') o vB' vS' →
  atOffer (putSeller s o vB' vS') k le o vB' vS'.
Proof.
  intros [He Hd Hk _] Hs. split; [|done..]. unfold putSeller, putHolder, put. subst k.
  destruct vB' as [[e1 x1]|], vS' as [[e2 x2]|]; cbn [l_entries set_l_entries];
    rewrite ?lookup_insert_ne by (intros E; symmetry in E; by apply offer_not_holder in E); done.
Qed.

Lemma putHolder_id s id a v : holder s id a v → putHolder s id a v = s.
Proof.
  intros [?|e x Hi He Hk Hx Hok]; [done|]. unfold putHolder, put, set_l_entries.
  rewrite insert_id by done. by destruct s.
Qed.

Lemma with_balance_0 x : with_balance x (hd_balance x + 0) = x.
Proof. unfold with_balance. rewrite Z.add_0_r. by destruct x. Qed.

(** One side of the trade, skipped when nothing changes hands. *)
Definition credit (h : LedgerHeader) (id : AccountID) (a : Asset) (d : Z) (f : LedgerError) : LM unit :=
  if negb (d =? 0) then
    let! ok := addHolderBalance h id a d in
    check ok f
  else ret tt.

Lemma credit_step s id a v d f :
  10 ≤ ledgerVersion (l_header s) → holder s id a v →
  (if d <? 0 then - d ≤ sendableOf v else d ≤ receivableOf v) →
  ∃ v', credit (l_header s) id a d f s = Ok (tt, putHolder s id a v') ∧
    holder (putHolder s id a v') id a v' ∧ moved (λ x, with_balance x (hd_balance x + d)) v v'.
Proof.
  intros Hv Hh Hd. unfold credit. destruct (Z.eqb_spec d 0) as [->|Hne]; cbn [negb].
  - exists v. rewrite (putHolder_id s id a v Hh). split; [done|]. split; [done|].
    destruct v as [[e x]|]; [|done]. split; [by rewrite with_balance_0|reflexivity].
  - destruct (balance_step s id a v Hv Hh d Hd) as (v' & E & Hh' & Hm).
    exists v'. split; [by step E|done].
Qed.

(** The trade: the sheep is credited and the wheat is debited. *)
Lemma trade_step s k le o vB vS sheep wheat :
  10 ≤ ledgerVersion (l_header s) → atOffer s k le o vB vS → o_buying o ≠ o_selling o →
  0 ≤ sheep ≤ receivableOf vB → 0 ≤ wheat ≤ Z.max (sendableOf vS) 0 →
  ∃ vB' vS',
    (credit (l_header s) (o_sellerID o) (o_buying o) sheep OverflowedSheepBalance ;;
     credit (l_header s) (o_sellerID o) (o_selling o) (- wheat) OverflowedWheatBalance) s =
      Ok (tt, putSeller s o vB' vS') ∧
    seller (putSeller s o vB' vS') o vB' vS' ∧
    moved (λ x, with_balance x (hd_balance x + sheep)) vB vB' ∧
    moved (λ x, with_balance x (hd_balance x + - wheat)) vS vS' ∧
    Step (atSeller o (only Balance sheep) (only Balance (- wheat))) s (putSeller s o vB' vS').
Proof.
  intros Hv [He Hd Hk [HB HS]] Hne H1 H2.
  destruct (credit_step s _ _ vB sheep OverflowedSheepBalance Hv HB) as (vB' & E1 & HB' & M1).
  { destruct (Z.ltb_spec sheep 0); lia. }
  assert (holder (putHolder s (o_sellerID o) (o_buying o) vB') (o_sellerID o) (o_selling o) vS) as HS1.
  { apply holder_putHolder_other; [|done]. by intros ?. }
  destruct (credit_step _ _ _ vS (- wheat) OverflowedWheatBalance
    ltac:(by rewrite putHolder_header) HS1) as (vS' & E2 & HS' & M2).
  { pose proof (receivableOf_amount _ _ _ _ HS) as [Hr _].
    destruct (Z.ltb_spec (- wheat) 0); lia. }
  rewrite putHolder_header in E2. exists vB', vS'. split; [by step E1|].
  split; [split; [|done]|split_and!; [done..|]]; [by apply holder_putHolder_other|].
  eapply Step_trans; (eapply Step_balance; [done..|intros; lia]).
Qed.

(** ** Changes around the offer *)

(** A step, but for the entry at [k] *)
Record StepAt (k : LedgerKey) (δ : Change) (s s' : Ltx) : Prop := {
  sa_header : l_header s' = l_header s;
  sa_evolves : evolves s s';
  sa_changed : changed δ s s';
  sa_entries k' : k' ≠ k → option_Forall2 kin (l_entries s !! k') (l_entries s' !! k')
}.

Lemma Step_at k δ s s' : Step δ s s' → StepAt k δ s s'.
Proof. intros [H1 H2 H3 H4]. by split. Qed.

Lemma StepAt_trans k δ1 δ2 s1 s2 s3 : StepAt k δ1 s1 s2 → StepAt k δ2 s2 s3 → StepAt k (plus δ1 δ2) s1 s3.
Proof.
  intros [H1 H2 H3 H4] [H1' H2' H3' H4']. split; [congruence|by etrans|by eapply changed_trans|].
  intros k' Hk. specialize (H4 k' Hk). specialize (H4' k' Hk).
  destruct H4; inversion H4'; subst; constructor. by etrans.
Qed.

Lemma StepAt_ext k δ δ' s s' : (∀ q i a, δ q i a = δ' q i a) → StepAt k δ s s' → StepAt k δ' s s'.
Proof. intros Hd [H1 H2 H3 H4]. split; [done|done|by eapply changed_ext|done]. Qed.

Lemma StepAt_put i j e s : StepAt (KEY_OFFER i j) still s (put (KEY_OFFER i j) e s).
Proof.
  split; [done| | |].
  - intros id a v Hh. exists v. split; [|done]. apply holder_put_key; [apply offer_not_holder|done].
  - apply changed_other. intros id a. unfold put. simpl. rewrite lookup_insert_ne; [done|].
    apply offer_not_holder.
  - intros k' Hk. unfold put. simpl. by rewrite lookup_insert_ne by done.
Qed.

(** ** The exchange *)

Lemma zero_exchanged p ws wr ss sr b :
  amount ws → amount wr → amount ss → amount sr → Exchanged p ws wr ss sr (mkExchangeV10 0 0 b).
Proof.
  unfold amount. intros. split; cbn [numWheatReceived numSheepSend wheatStays]; [lia..|by destruct b].
Qed.

(** An exchange with an offer adjusted to the limits of its seller; a strict send
    needs an offer that is not empty. *)
Lemma exchange_adjusted p a wr ss sr round :
  priceOk p → amount a → amount wr → amount ss → amount sr → 0 < wr → 0 < ss →
  (adjusted p a sr).1 = a → (round = PATH_PAYMENT_STRICT_SEND → 0 < a) →
  ∃ r, exchangeV10 p a wr ss sr round = Ok r ∧ Exchanged p a wr ss sr r ∧
    (wheatStays r = false → numWheatReceived r = a).
Proof.
  intros Hp Ha Hwr Hss Hsr Hw Hs Hfix Hround. rewrite exchangeV10_eq by done.
  pose proof (exchangePure_ok p a wr ss sr round Hp Ha Hwr Hss Hsr) as Hex.
  pose proof (zero_exchanged p a wr ss sr) as Hz.
  set (r := exchangePure p a wr ss sr round) in *.
  destruct (decide (a = 0)) as [->|Ha0].
  - exists (mkExchangeV10 0 0 (wheatStays r)). split; [|split; [by apply Hz|done]].
    destruct Hex as [Hx _ _]. unfold thresholdPure.
    assert (numWheatReceived r = 0) as -> by (unfold amount in *; lia). cbn [Z.ltb Z.compare andb].
    destruct round; try done. by specialize (Hround eq_refl).
  - assert (0 < a) as Hpos by (unfold amount in *; lia). destruct (wheatStays r) eqn:Est.
    + assert (0 < sr).
      { pose proof (adjusted_full p a sr Hp Ha Hsr Hpos Hfix) as (_ & ? & _).
        pose proof (adjusted_bounds p a sr Hp Ha Hsr). lia. }
      destruct (decide (round = NORMAL)) as [->|Hn].
      * unfold thresholdPure. destruct (_ && _); [case_bool_decide|].
        all: eexists; split; [done|]; rewrite ?Est; split; [|done]; (exact Hex || by apply Hz).
      * exists r. split; [|by rewrite Est]. by apply stays_threshold.
    + exists r. pose proof (taken_threshold p a wr ss sr round Hp Ha Hsr Hpos Hfix Est) as [E1 E2]. done.
Qed.

(** ** The crossing, phase by phase *)

(** The liabilities of the offer are part of those of its seller. *)
Definition covered (o : OfferEntry) (vB vS : View) : Prop :=
  viewOf (λ x, buyLiab o ≤ hd_buying x) True vB ∧ viewOf (λ x, o_amount o ≤ hd_selling x) True vS ∧
  0 ≤ sendableOf vS.

(** What the seller can receive once the liabilities of the offer are released. *)
Definition room (o : OfferEntry) (vB : View) : Z :=
  match vB with Some (_, x) => receivable x + buyLiab o | None => INT64_MAX end.

Definition withAmount (x : Z) (o : OfferEntry) (le : LedgerEntry) : LedgerEntry :=
  set_data (OFFER (set_o_amount x o)) le.

Section Crossing.
Context (k : LedgerKey) (le : LedgerEntry) (o : OfferEntry).
Hypothesis Hp : priceOk (o_price o).
Hypothesis Hne : o_buying o ≠ o_selling o.

Lemma StepAt_amount s vB vS le' x :
  atOffer s k le' (set_o_amount x o) vB vS → ∀ e, StepAt k still s (put k e s).
Proof. intros [_ _ -> _] e. apply StepAt_put. Qed.

(** The liabilities are released and the offer is adjusted. *)
Lemma release_phase s vB vS :
  10 ≤ ledgerVersion (l_header s) → offerOk o → atOffer s k le o vB vS → covered o vB vS →
  ∃ s1 s2 vB1 vS1, let a := (adjusted (o_price o) (o_amount o) (room o vB)).1 in
    releaseLiabilities o s = Ok (tt, s1) ∧
    adjustLoadedOffer (l_header s) k s1 = Ok (set_o_amount a o, s2) ∧
    atOffer s2 k (withAmount a o le) (set_o_amount a o) vB1 vS1 ∧
    receivableOf vB1 = room o vB ∧ o_amount o ≤ sendableOf vS1 ∧
    StepAt k (atSeller o (only Buying (- buyLiab o)) (only Selling (- o_amount o))) s s2.
Proof using Hp Hne.
  intros Hv Ho Hat (Hc1 & Hc2 & Hc3). pose proof (buyLiab_bounds o Ho) as Hb.
  pose proof (oo_amount o Ho) as Ha. destruct Hat as [He Hd Hk Hs] eqn:Eat.
  assert (amount (receivableOf vB)) as Hr by (by eapply receivableOf_amount; apply Hs).
  destruct (liabilities_step s o vB vS false Hv Ho Hs) as (vB1 & vS1 & E & Hs1 & M1 & M2 & St).
  { destruct vB as [[]|]; simpl in *; [lia|done]. }
  { unfold amount in Hr. lia. }
  { done. }
  { destruct vS as [[]|]; simpl in *; [lia|done]. }
  { lia. }
  pose proof (atOffer_putSeller s k le o vB vS vB1 vS1 Hat Hs1) as Hat1.
  set (s1 := putSeller s o vB1 vS1) in *. pose proof (st_header _ _ _ St) as Hh.
  assert (receivableOf vB1 = room o vB) as Hroom.
  { destruct vB as [[? x]|], vB1 as [[? x1]|]; try done. destruct M1 as [-> _]. simpl. holding. lia. }
  assert (o_amount o ≤ sendableOf vS1) as Hsend.
  { destruct vS as [[? x]|], vS1 as [[? x1]|]; try done; simpl in *; [|lia].
    destruct M2 as [-> _]. holding. lia. }
  pose proof (adjust_step s1 k le o vB1 vS1 ltac:(by rewrite Hh) Hat1 Hp ltac:(unfold amount; lia)) as E2.
  assert (sellLimit o vS1 = o_amount o) as El by (unfold sellLimit; lia).
  rewrite El, Hroom, Hh in E2.
  eexists s1, _, vB1, vS1. split_and!; [exact E|exact E2|by apply atOffer_amount|done..|].
  eapply StepAt_ext; [|eapply StepAt_trans; [by eapply Step_at|subst k; apply StepAt_put]].
  intros. unfold plus, still. lia.
Qed.

(** The exchange and the trade. *)
Lemma trade_phase s a vB vS sheep wheat :
  10 ≤ ledgerVersion (l_header s) → atOffer s k (withAmount a o le) (set_o_amount a o) vB vS →
  0 ≤ a ≤ sendableOf vS → 0 ≤ sheep ≤ receivableOf vB → 0 ≤ wheat ≤ a →
  ∃ s' vB' vS',
    (credit (l_header s) (o_sellerID o) (o_buying o) sheep OverflowedSheepBalance ;;
     credit (l_header s) (o_sellerID o) (o_selling o) (- wheat) OverflowedWheatBalance) s = Ok (tt, s') ∧
    atOffer s' k (withAmount a o le) (set_o_amount a o) vB' vS' ∧ a - wheat ≤ sendableOf vS' ∧
    StepAt k (atSeller o (only Balance sheep) (only Balance (- wheat))) s s'.
Proof using Hp Hne.
  intros Hv Hat Ha Hs Hw.
  destruct (trade_step s k _ (set_o_amount a o) vB vS sheep wheat Hv Hat Hne Hs ltac:(lia))
    as (vB' & vS' & E & Hs' & M1 & M2 & St).
  eexists _, vB', vS'. split_and!; [exact E|by eapply atOffer_putSeller| |by apply Step_at].
  destruct vS as [[? x]|], vS' as [[? x']|]; try done; simpl in *; [|lia].
  destruct M2 as [-> _]. holding. lia.
Qed.

(** What is left of the offer is adjusted again. *)
Lemma rest_phase s a vB vS x :
  10 ≤ ledgerVersion (l_header s) → atOffer s k (withAmount a o le) (set_o_amount a o) vB vS →
  amount x → x ≤ sendableOf vS →
  ∃ s', let x' := (adjusted (o_price o) x (receivableOf vB)).1 in
    (setOfferAmount k x ;; adjustLoadedOffer (l_header s) k) s = Ok (set_o_amount x' o, s') ∧
    atOffer s' k (withAmount x' o le) (set_o_amount x' o) vB vS ∧ StepAt k still s s'.
Proof using Hp Hne.
  intros Hv Hat Hx Hxs. unfold amount in Hx. pose proof (setAmount_step s k _ _ vB vS x Hat) as E1.
  pose proof (atOffer_amount s k _ _ vB vS x Hat) as Hat1.
  change (set_data (OFFER (set_o_amount x (set_o_amount a o))) (withAmount a o le))
    with (withAmount x o le) in *.
  change (set_o_amount x (set_o_amount a o)) with (set_o_amount x o) in *.
  pose proof (adjust_step (put k (withAmount x o le) s) k _ (set_o_amount x o) vB vS Hv Hat1 Hp ltac:(unfold amount; simpl; lia)) as E2.
  assert (sellLimit (set_o_amount x o) vS = x) as El by (unfold sellLimit; simpl; lia).
  rewrite El in E2. eexists. split_and!; [by step E1|by apply (atOffer_amount _ _ _ _ _ _ _ Hat1)|].
  eapply StepAt_ext; [|eapply StepAt_trans; (eapply StepAt_amount; [done])]. done.
Qed.
End Crossing.

(** ** What a crossing leaves *)

(** The seller gets [sheep] for [wheat], and the liabilities of the offer become those
    of its new amount [x]. *)
Definition crossChange (o : OfferEntry) (x wheat sheep : Z) : Change :=
  atSeller o
    (λ q, match q with
          | Balance => sheep
          | Buying => buyLiab (set_o_amount x o) - buyLiab o
          | Selling => 0
          end)
    (λ q, match q with Balance => - wheat | Buying => 0 | Selling => x - o_amount o end).

(** The offer at [k] now has the amount [x]; it is gone when that is zero. *)
Record OfferCrossed (k : LedgerKey) (le : LedgerEntry) (o : OfferEntry) (x wheat sheep : Z) (s s' : Ltx)
  : Prop := {
  cd_header : l_header s' = l_header s;
  cd_evolves : evolves s s';
  cd_changed : changed (crossChange o x wheat sheep) s s';
  cd_offer : l_entries s' !! k = if x =? 0 then None else Some (withAmount x o le);
  cd_entries k' : k' ≠ k →
    option_Forall2 (if x =? 0 then shrunk (o_sellerID o) (sponsoringIDOf le) else kin)
      (l_entries s !! k') (l_entries s' !! k');
  cd_rest : x ≠ 0 → offerOk (set_o_amount x o)
}.

Lemma buyLiab_0 o : priceOk (o_price o) → buyLiab (set_o_amount 0 o) = 0.
Proof.
  intros Hp. unfold buyLiab, adjusted. simpl. by rewrite takenPure_0 by (try done; unfold INT64_MAX; lia).
Qed.

Lemma crossChange_sum o x wheat sheep q i a :
  plus (atSeller o (only Buying (- buyLiab o)) (only Selling (- o_amount o)))
    (plus (atSeller o (only Balance sheep) (only Balance (- wheat)))
       (atSeller o (only Buying (buyLiab (set_o_amount x o))) (only Selling x))) q i a =
  crossChange o x wheat sheep q i a.
Proof.
  unfold crossChange, atSeller, plus, at_holder, only. case_bool_decide; case_bool_decide; destruct q; simpl; lia.
Qed.

Lemma keyed_StepAt k δ s s' :
  keyed s → StepAt k δ s s' → (∀ e, l_entries s' !! k = Some e → LedgerEntryKey e = k) → keyed s'.
Proof.
  intros Hs St Hk k' e He. destruct (decide (k' = k)) as [->|Hne]; [by apply Hk|].
  pose proof (sa_entries _ _ _ _ St k' Hne) as Hf. rewrite He in Hf. inversion Hf as [e0 ? Hkin E0|]; subst.
  rewrite (proj1 Hkin). by apply Hs.
Qed.

Lemma account_StepAt i j δ s s' id c : StepAt (KEY_OFFER i j) δ s s' → account s id c → account s' id c.
Proof.
  intros St (e & He & Hc & Hid & Hok).
  pose proof (sa_entries _ _ _ _ St (KEY_ACCOUNT id) ltac:(done)) as Hf. rewrite He in Hf.
  inversion Hf as [? e' (_ & _ & _ & Hacc) E0 E1|]; subst.
  exists e'. rewrite Hacc, (sa_header _ _ _ _ St). done.
Qed.

Lemma removable_StepAt i j δ s s' id sponsor :
  StepAt (KEY_OFFER i j) δ s s' → removable s id sponsor → removable s' id sponsor.
Proof.
  intros St (c & Hc & Hn & Hsp). exists c. split; [by eapply account_StepAt|]. split; [done|].
  destruct sponsor as [p|]; [|done]. destruct Hsp as (? & ? & ? & c' & Hc' & ? & ?).
  rewrite (sa_header _ _ _ _ St). split_and!; [done..|]. exists c'. split; [by eapply account_StepAt|done].
Qed.

Lemma kin_shrunk id sponsor e e1 e2 : kin e e1 → shrunk id sponsor e1 e2 → shrunk id sponsor e e2.
Proof.
  intros (H1 & H2 & H3 & H4) (H1' & H2' & H3' & H4'). rewrite H4 in H4'. split_and!; [congruence..|done].
Qed.

(** An adjusted rest is an offer of the book. *)
Lemma rest_offerOk o x sr :
  priceOk (o_price o) → o_buying o ≠ o_selling o → 0 < x ≤ INT64_MAX → amount sr →
  (adjusted (o_price o) x sr).1 = x →
  offerOk (set_o_amount x o) ∧ buyLiab (set_o_amount x o) ≤ sr.
Proof.
  intros Hp Hne Hx Hsr Hfix. assert (amount x) as Hx' by (unfold amount; lia).
  pose proof (adjusted_liabilities _ x sr Hp Hx' Hsr (proj1 Hx) Hfix) as E.
  destruct (adjusted_full _ x sr Hp Hx' Hsr (proj1 Hx) Hfix) as (_ & Hpos & Herr).
  pose proof (adjusted_bounds _ x sr Hp Hx' Hsr) as Hb.
  assert (adjusted (o_price o) x INT64_MAX = adjusted (o_price o) x sr) as E'.
  { unfold adjusted at 1. rewrite E, Hfix, (proj2 (Z.ltb_lt 0 x)), (proj2 (Z.ltb_lt 0 _)) by lia.
    by rewrite bool_decide_true. }
  split; [split; simpl; [done|lia|done|by rewrite E']|]. unfold buyLiab. simpl. rewrite E'. lia.
Qed.

Section Settle.
Context (k : LedgerKey) (le : LedgerEntry) (o : OfferEntry).
Hypothesis Hp : priceOk (o_price o).
Hypothesis Hne : o_buying o ≠ o_selling o.

(** The last block of the crossing. *)
Definition settle (res : CrossOfferResult) (accountBID : AccountID) : LM unit :=
  nested
    (let! le := current k in
     (match res with
      | eOfferTaken =>
          removeEntryWithPossibleSponsorship le (KEY_ACCOUNT accountBID) ;;
          eraseEntry k
      | _ =>
          let! offer := lift (offerOf le) in
          acquireLiabilities offer
      end) ;;
     ret (tt, true)).

Lemma settle_partial s vB vS x :
  10 ≤ ledgerVersion (l_header s) → atOffer s k (withAmount x o le) (set_o_amount x o) vB vS →
  0 < x ≤ INT64_MAX → x ≤ sendableOf vS → (adjusted (o_price o) x (receivableOf vB)).1 = x →
  ∃ s', settle eOfferPartial (o_sellerID o) s = Ok (tt, s') ∧
    l_entries s' !! k = Some (withAmount x o le) ∧
    StepAt k (atSeller o (only Buying (buyLiab (set_o_amount x o))) (only Selling x)) s s'.
Proof using Hp Hne.
  intros Hv Hat Hx Hxs Hfix. pose proof Hat as [He Hd Hk [HB HS]].
  assert (amount (receivableOf vB)) as Hr by by eapply receivableOf_amount.
  destruct (rest_offerOk o x _ Hp Hne Hx Hr Hfix) as [Ho Hb].
  pose proof (buyLiab_bounds _ Ho) as Hb0.
  destruct (liabilities_step s (set_o_amount x o) vB vS true Hv Ho (conj HB HS))
    as (vB' & vS' & E & Hs' & _ & _ & St).
  { destruct HB as [|? y ? ? ? ? Hok]; simpl; [done|]. holding. lia. }
  { done. }
  { lia. }
  { destruct HS as [|? y ? ? ? ? Hok]; simpl; [done|]. holding. lia. }
  { done. }
  eexists. split; [|split; [|by apply Step_at]].
  - unfold settle, nested.
    rewrite (bind_ok (current k) _ s (withAmount x o le) s)
      by (unfold current, load, bind, gets; by rewrite He).
    unfold bind at 1, lift, offerOf. rewrite Hd. unfold bind at 1, acquireLiabilities. rewrite E. done.
  - by eapply (ao_entry _ _ _ _ vB' vS'), atOffer_putSeller.
Qed.

Lemma settle_taken s vB vS :
  10 ≤ ledgerVersion (l_header s) → keyed s → atOffer s k (withAmount 0 o le) (set_o_amount 0 o) vB vS →
  removable s (o_sellerID o) (sponsoringIDOf le) →
  ∃ s1 s', settle eOfferTaken (o_sellerID o) s = Ok (tt, s') ∧
    Removal (o_sellerID o) (sponsoringIDOf le) s s1 ∧ s' = set_l_entries (delete k (l_entries s1)) s1.
Proof using Hp Hne.
  intros Hv Hkey [He Hd Hk _] Hrm.
  destruct (remove_step s (withAmount 0 o le) (set_o_amount 0 o) _ Hv Hkey Hd eq_refl Hrm) as (le' & s1 & E & HR).
  exists s1. eexists. split; [|done]. unfold settle, nested.
  rewrite (bind_ok (current k) _ s (withAmount 0 o le) s)
    by (unfold current, load, bind, gets; by rewrite He).
  unfold bind at 1. unfold bind at 1. change (o_sellerID (set_o_amount 0 o)) with (o_sellerID o) in E.
  rewrite E. done.
Qed.

Lemma Crossed_partial s s1 s' x wheat sheep :
  0 < x → offerOk (set_o_amount x o) → l_entries s' !! k = Some (withAmount x o le) →
  StepAt k (plus (atSeller o (only Buying (- buyLiab o)) (only Selling (- o_amount o)))
              (atSeller o (only Balance sheep) (only Balance (- wheat)))) s s1 →
  StepAt k (atSeller o (only Buying (buyLiab (set_o_amount x o))) (only Selling x)) s1 s' →
  OfferCrossed k le o x wheat sheep s s'.
Proof using Hp Hne.
  intros Hx Ho He S1 S2. pose proof (StepAt_trans _ _ _ _ _ _ S1 S2) as [H1 H2 H3 H4].
  assert (x =? 0 = false) as E by (apply Z.eqb_neq; lia).
  split; rewrite ?E; try done. eapply changed_ext; [|done]. intros q i a.
  rewrite <- crossChange_sum. unfold plus. lia.
Qed.

Lemma Crossed_taken s s1 s2 wheat sheep :
  k = KEY_OFFER (o_sellerID o) (o_offerID o) →
  StepAt k (plus (atSeller o (only Buying (- buyLiab o)) (only Selling (- o_amount o)))
              (atSeller o (only Balance sheep) (only Balance (- wheat)))) s s1 →
  Removal (o_sellerID o) (sponsoringIDOf le) s1 s2 →
  OfferCrossed k le o 0 wheat sheep s (set_l_entries (delete k (l_entries s2)) s2).
Proof using Hp Hne.
  intros Hk [H1 H2 H3 H4] [R1 R2 R3 R4].
  assert (∀ i a, l_entries (set_l_entries (delete k (l_entries s2)) s2) !! holderKey i a =
    l_entries s2 !! holderKey i a) as Hold.
  { intros i a. simpl. rewrite lookup_delete_ne; [done|]. subst k. apply offer_not_holder. }
  split; cbn [Z.eqb].
  - simpl. congruence.
  - transitivity s1; [done|]. transitivity s2; [done|]. intros i a v Hh. exists v. split; [|done].
    destruct Hh; [by constructor|]. apply holder_entry; try done. by rewrite Hold.
  - intros q i a. unfold held at 1. rewrite Hold. fold (held q s2 i a). rewrite R3, H3.
    rewrite <- crossChange_sum, buyLiab_0 by done.
    destruct (held q s i a); simpl; [|done]. f_equal. unfold plus, still, atSeller, plus, at_holder, only.
    repeat case_bool_decide; repeat case_decide; simpl; lia.
  - simpl. by simplify_map_eq.
  - intros k' Hk'. simpl. rewrite lookup_delete_ne by done. specialize (H4 k' Hk'). specialize (R4 k').
    destruct H4; inversion R4; subst; constructor. by eapply kin_shrunk.
  - done.
Qed.
End Settle.

(** ** The whole crossing *)

Lemma bind_ok2 {S F A} (m1 m2 : M S F unit) (k : M S F A) s s' :
  (m1 ;; m2) s = Ok (tt, s') → (m1 ;; m2 ;; k) s = k s'.
Proof.
  unfold bind. destruct (m1 s) as [[[] s1]|]; [|done]. by destruct (m2 s1) as [[[] s2]|]; intros; simplify_eq.
Qed.

Lemma credit_neg h id a w f :
  (if negb (w =? 0) then let! ok := addHolderBalance h id a (- w) in check ok f else ret tt) =
  credit h id a (- w) f.
Proof. unfold credit. destruct (Z.eqb_spec w 0), (Z.eqb_spec (- w) 0); try lia; done. Qed.

(** The traded amounts, within the limits of both parties, with the rounding in
    favour of the offer that stays. *)
Record traded (o : OfferEntry) (maxWheatReceived maxSheepSend x : Z) (c : Crossing) : Prop := {
  td_wheat : 0 ≤ cr_wheatReceived c ≤ Z.min maxWheatReceived (o_amount o);
  td_sheep : 0 ≤ cr_sheepSend c ≤ maxSheepSend;
  td_favours :
    if cr_wheatStays c then cr_wheatReceived c * price_n (o_price o) ≤ cr_sheepSend c * price_d (o_price o)
    else cr_sheepSend c * price_d (o_price o) ≤ cr_wheatReceived c * price_n (o_price o);
  td_rest : 0 ≤ x ≤ o_amount o - cr_wheatReceived c;
  td_taken : cr_wheatStays c = false → x = 0;
  td_result : cr_result c = if x =? 0 then eOfferTaken else eOfferPartial;
  td_atom : cr_atom c =
    {| ca_sellerID := o_sellerID o; ca_offerID := o_offerID o; ca_assetSold := o_selling o;
       ca_amountSold := cr_wheatReceived c; ca_assetBought := o_buying o;
       ca_amountBought := cr_sheepSend c |}
}.

Section Cross.
Context (k : LedgerKey) (le : LedgerEntry) (o : OfferEntry) (vB vS : View) (s : Ltx).
Hypothesis Hv : 10 ≤ ledgerVersion (l_header s).
Hypothesis Hkey : keyed s.
Hypothesis Ho : offerOk o.
Hypothesis Hat : atOffer s k le o vB vS.
Hypothesis Hcov : covered o vB vS.
Hypothesis Hrm : removable s (o_sellerID o) (sponsoringIDOf le).

Lemma keyed_amount s' δ x vB' vS' :
  StepAt k δ s s' → atOffer s' k (withAmount x o le) (set_o_amount x o) vB' vS' → keyed s'.
Proof using Hkey Hat.
  intros St [He Hd Hk _]. eapply keyed_StepAt; [done..|]. intros e He'. simplify_eq. done.
Qed.

Lemma removable_at s' δ : StepAt k δ s s' → removable s' (o_sellerID o) (sponsoringIDOf le).
Proof using Hat Hrm. destruct Hat as [_ _ -> _]. intros. by eapply removable_StepAt. Qed.

(** The end of the crossing, from the state in which the trade is done. *)
Lemma finish s3 x wheat sheep vB3 vS3 :
  StepAt k (plus (atSeller o (only Buying (- buyLiab o)) (only Selling (- o_amount o)))
              (atSeller o (only Balance sheep) (only Balance (- wheat)))) s s3 →
  atOffer s3 k (withAmount x o le) (set_o_amount x o) vB3 vS3 →
  0 ≤ x ≤ INT64_MAX → x ≤ sendableOf vS3 → (x ≠ 0 → (adjusted (o_price o) x (receivableOf vB3)).1 = x) →
  ∃ s', settle k (if x =? 0 then eOfferTaken else eOfferPartial) (o_sellerID o) s3 = Ok (tt, s') ∧
    OfferCrossed k le o x wheat sheep s s'.
Proof using Hv Hkey Ho Hat Hrm.
  intros St Hat3 Hx Hxs Hfix. destruct Ho as [Hp Ha Hne _].
  assert (10 ≤ ledgerVersion (l_header s3)) as Hv3 by by rewrite (sa_header _ _ _ _ St).
  destruct (Z.eqb_spec x 0) as [->|Hx0].
  - destruct (settle_taken k le o Hp Hne s3 vB3 vS3) as (s4 & s' & E & HR & ->); [done| |done|..].
    { by eapply keyed_amount. }
    { by eapply removable_at. }
    eexists. split; [exact E|]. by eapply Crossed_taken; [..|apply Hat3| |].
  - destruct (settle_partial k le o Hp Hne s3 vB3 vS3 x) as (s' & E & He & St'); [done|done|lia|done|auto|].
    exists s'. split; [exact E|]. eapply Crossed_partial; try done; [lia|].
    destruct (rest_offerOk o x (receivableOf vB3)) as [? _]; try done; [lia|..|auto].
    eapply receivableOf_amount. apply Hat3.
Qed.

(** What is left of the offer after the trade. *)
Lemma amount_phase s3 a w (stays : bool) vB3 vS3 :
  10 ≤ ledgerVersion (l_header s3) → atOffer s3 k (withAmount a o le) (set_o_amount a o) vB3 vS3 →
  0 ≤ w ≤ a → a ≤ INT64_MAX → a - w ≤ sendableOf vS3 → (stays = false → w = a) →
  ∃ x s4,
    (if stays
     then setOfferAmount k (s64 (a - w)) ;;
          let! offer := adjustLoadedOffer (l_header s3) k in ret (o_amount offer)
     else setOfferAmount k 0 ;; ret 0) s3 = Ok (x, s4) ∧
    atOffer s4 k (withAmount x o le) (set_o_amount x o) vB3 vS3 ∧ StepAt k still s3 s4 ∧
    0 ≤ x ≤ a - w ∧ (x ≠ 0 → (adjusted (o_price o) x (receivableOf vB3)).1 = x) ∧ (stays = false → x = 0).
Proof using Ho.
  intros Hv3 Hat3 Hw Ha Hsend Htaken. destruct Ho as [Hp _ Hne _]. destruct stays.
  - rewrite s64_small by word.
    assert (amount (receivableOf vB3)) as Hr by (eapply receivableOf_amount; apply Hat3).
    destruct (rest_phase k le o Hp Hne s3 a vB3 vS3 (a - w) Hv3 Hat3) as (s4 & E & Hat4 & St);
      [unfold amount; lia|done|].
    set (x := (adjusted (o_price o) (a - w) (receivableOf vB3)).1) in *.
    exists x, s4. assert (0 ≤ x ≤ a - w) as Hx by (apply adjusted_bounds; [done|unfold amount; lia|done]).
    split_and!; try done; try lia.
    + revert E. unfold bind. destruct (setOfferAmount _ _ _) as [[[] sx]|]; [|done]. by intros ->.
    + intros _. unfold x. rewrite adjusted_stable; [done|done|unfold amount; lia|done].
  - exists 0. eexists. specialize (Htaken eq_refl). split_and!; try done; try lia.
    + by step (setAmount_step s3 k _ _ vB3 vS3 0 Hat3).
    + by apply (atOffer_amount s3 k _ _ vB3 vS3 0 Hat3).
    + rewrite (ao_key _ _ _ _ _ _ Hat3). apply StepAt_put.
Qed.

(** The statements of [crossOfferV10], run one after the other. *)
Lemma crossOfferV10_run maxW maxS round s1 s2 s3 s4 s' a r x :
  0 < maxW → 0 < maxS →
  releaseLiabilities o s = Ok (tt, s1) →
  adjustLoadedOffer (l_header s) k s1 = Ok (set_o_amount a o, s2) →
  exchangeWithOffer (l_header s) (set_o_amount a o) maxW maxS round s2 = Ok (r, s2) →
  (credit (l_header s) (o_sellerID o) (o_buying o) (numSheepSend r) OverflowedSheepBalance ;;
   credit (l_header s) (o_sellerID o) (o_selling o) (- numWheatReceived r) OverflowedWheatBalance) s2 =
    Ok (tt, s3) →
  (if wheatStays r
   then setOfferAmount k (s64 (a - numWheatReceived r)) ;;
        let! offer := adjustLoadedOffer (l_header s) k in ret (o_amount offer)
   else setOfferAmount k 0 ;; ret 0) s3 = Ok (x, s4) →
  settle k (if x =? 0 then eOfferTaken else eOfferPartial) (o_sellerID o) s4 = Ok (tt, s') →
  crossOfferV10 k maxW maxS round s =
    Ok ({| cr_result := if x =? 0 then eOfferTaken else eOfferPartial;
           cr_wheatReceived := numWheatReceived r; cr_sheepSend := numSheepSend r;
           cr_wheatStays := wheatStays r;
           cr_atom := {| ca_sellerID := o_sellerID o; ca_offerID := o_offerID o;
                         ca_assetSold := o_selling o; ca_amountSold := numWheatReceived r;
                         ca_assetBought := o_buying o; ca_amountBought := numSheepSend r |} |}, s').
Proof using Hat Hrm.
  intros HW HS E1 E2 E3 E4 E5 E6. destruct Hat as [He Hd Hk _].
  destruct Hrm as (c & (e & Hacc & _) & _). unfold crossOfferV10.
  rewrite (proj2 (Z.ltb_lt 0 maxW)), (proj2 (Z.ltb_lt 0 maxS)) by lia.
  rewrite !(bind_ok (check true _) _ s tt s) by done.
  rewrite (bind_ok loadHeader _ s (l_header s) s) by done.
  rewrite (bind_ok (current k) _ s le s) by (unfold current, load, bind, gets; by rewrite He).
  rewrite (bind_ok (lift (offerOf le)) _ s o s) by (unfold lift, offerOf; by rewrite Hd).
  rewrite (bind_ok (load _) _ s (Some e) s) by (unfold load, gets; by rewrite Hacc).
  rewrite (bind_ok (check true _) _ s tt s) by done.
  step E1. step E2. step E3. rewrite credit_neg. rewrite (bind_ok2 _ _ _ _ _ E4).
  step E5. step E6. done.
Qed.

Lemma crossOfferV10_step maxW maxS round :
  0 < maxW ≤ INT64_MAX → 0 < maxS ≤ INT64_MAX →
  (round = PATH_PAYMENT_STRICT_SEND → 0 < (adjusted (o_price o) (o_amount o) (room o vB)).1) →
  ∃ c s' x, crossOfferV10 k maxW maxS round s = Ok (c, s') ∧ traded o maxW maxS x c ∧
    OfferCrossed k le o x (cr_wheatReceived c) (cr_sheepSend c) s s'.
Proof using Hv Hkey Ho Hat Hcov Hrm.
  intros HW HS Hround. pose proof Ho as [Hp Ha Hne _].
  destruct (release_phase k le o Hp Hne s vB vS Hv Ho Hat Hcov)
    as (s1 & s2 & vB1 & vS1 & E1 & E2 & Hat2 & Hroom & Hsend & St2).
  set (a := (adjusted (o_price o) (o_amount o) (room o vB)).1) in *.
  assert (amount (room o vB)) as Hr.
  { rewrite <- Hroom. eapply receivableOf_amount. apply Hat2. }
  assert (0 ≤ a ≤ o_amount o) as Ha1 by (apply adjusted_bounds; try done; unfold amount; lia).
  assert (10 ≤ ledgerVersion (l_header s2)) as Hv2 by by rewrite (sa_header _ _ _ _ St2).
  destruct (exchange_adjusted (o_price o) a maxW maxS (room o vB) round) as (r & Er & [Xw Xs Xf] & Xt);
    try done; try (unfold amount; lia).
  { unfold a. rewrite adjusted_stable; [done|done|unfold amount; lia|done]. }
  destruct (trade_phase k le o Hp Hne s2 a vB1 vS1 (numSheepSend r) (numWheatReceived r) Hv2 Hat2)
    as (s3 & vB3 & vS3 & E3 & Hat3 & Hsend3 & St3); [lia..|].
  pose proof (StepAt_trans _ _ _ _ _ _ St2 St3) as St.
  assert (l_header s3 = l_header s) as Hh3 by apply St.
  destruct (amount_phase s3 a (numWheatReceived r) (wheatStays r) vB3 vS3)
    as (x & s4 & E4 & Hat4 & St4 & Hx & Hfix & Hx0); [by rewrite Hh3|done|lia|lia|lia|exact Xt|].
  pose proof (StepAt_trans _ _ _ _ _ _ St St4) as St'.
  destruct (finish s4 x (numWheatReceived r) (numSheepSend r) vB3 vS3) as (s' & E5 & HX);
    [|done|lia|lia|done|].
  { eapply StepAt_ext; [|exact St']. intros. unfold plus, still. lia. }
  rewrite Hh3 in E4. rewrite (sa_header _ _ _ _ St2) in E3.
  eexists _, s', x. split.
  { apply (crossOfferV10_run maxW maxS round s1 s2 s3 s4 s' a r x); try done; [lia..|].
    rewrite <- (sa_header _ _ _ _ St2). eapply exchange_step; [done|exact Hat2|].
    assert (sellLimit (set_o_amount a o) vS1 = a) as -> by (unfold sellLimit; simpl; lia).
    by rewrite Hroom. }
  split; [|exact HX]. split; simpl; try done; try lia.
Qed.
End Cross.
