(* ===== verification/Book.v ===== *)
(** * The order book and the accounts that back it

    The invariant of the ledger that the crossing of offers relies on and keeps: the
    liabilities of every holder are the sums over the offers of the book
    (src/invariant/LiabilitiesMatchOffers.cpp), the counters of every account count
    its offers and those it sponsors, and every offer is adjusted and backed by what
    its seller holds.  Under it, [crossOfferV10] and the loop [convertWithOffers]
    always complete, and move exactly the amounts they report. *)

From stdpp Require Import prelude list gmap.
From Stdlib Require Import ZArith Lia.
From S2P Require Import Prelude Numeric Exchange LedgerEntries Balances Sponsorship LedgerState.
From S2P Require Import CrossOffers Holders Reserves CrossSafety.
Local Open Scope Z_scope.

(** ** Sums over the entries *)

Definition sumMap (m : gmap LedgerKey Z) : Z := map_fold (λ _ z n, z + n) 0 m.

Lemma sumMap_delete m k z : m !! k = Some z → sumMap m = z + sumMap (delete k m).
Proof. intros H. unfold sumMap. rewrite (map_fold_delete_L _ _ k z m); [done|intros; lia|done]. Qed.

Lemma sumMap_nonneg m : (∀ k z, m !! k = Some z → 0 ≤ z) → 0 ≤ sumMap m.
Proof.
  intros H. unfold sumMap. induction m as [|k z m Hk Hfirst IH] using map_first_key_ind.
  - rewrite map_fold_empty. lia.
  - rewrite map_fold_insert_L by (try done; intros; lia).
    assert (0 ≤ z) by (apply (H k); by simplify_map_eq).
    assert (0 ≤ map_fold (λ _ z n, z + n) 0 m); [|lia]. apply IH. intros k' z' Hk'. apply (H k').
    rewrite lookup_insert_ne by congruence. done.
Qed.

(** A sum over the offers, with their sponsors *)
Definition ofOffer (F : OfferEntry → option AccountID → Z) (e : LedgerEntry) : Z :=
  match offerIn e with Some o => F o (sponsoringIDOf e) | None => 0 end.

Definition total (F : OfferEntry → option AccountID → Z) (s : Ltx) : Z :=
  sumMap (ofOffer F <$> l_entries s).

Definition offersDiffer (k : LedgerKey) (s s' : Ltx) : Prop :=
  ∀ k', k' ≠ k →
    option_Forall2 (λ e e', offerIn e' = offerIn e ∧ sponsoringIDOf e' = sponsoringIDOf e)
      (l_entries s !! k') (l_entries s' !! k').

Lemma sumMap_at m k : sumMap m = default 0 (m !! k) + sumMap (delete k m).
Proof.
  destruct (m !! k) as [z|] eqn:E; simpl; [by apply sumMap_delete|]. by rewrite delete_id.
Qed.

(** Two ledgers whose offers differ at one key only *)
Lemma total_differ F k s s' :
  offersDiffer k s s' →
  total F s' - default 0 (ofOffer F <$> l_entries s' !! k) =
  total F s - default 0 (ofOffer F <$> l_entries s !! k).
Proof.
  intros H. unfold total.
  rewrite (sumMap_at (_ <$> l_entries s') k), (sumMap_at (_ <$> l_entries s) k), !lookup_fmap.
  assert (delete k (ofOffer F <$> l_entries s') = delete k (ofOffer F <$> l_entries s)) as ->; [|lia].
  apply map_eq. intros k'. destruct (decide (k' = k)) as [->|Hne]; [by rewrite !lookup_delete_eq|].
  rewrite !lookup_delete_ne, !lookup_fmap by congruence. specialize (H k' Hne).
  destruct H as [e e' [H1 H2]|]; [|done]. simpl. f_equal. unfold ofOffer. by rewrite H1, H2.
Qed.

Section Positive.
Context (F : OfferEntry → option AccountID → Z) (s : Ltx).
Hypothesis HF : ∀ k e o, l_entries s !! k = Some e → offerIn e = Some o → 0 ≤ F o (sponsoringIDOf e).

Lemma ofOffer_nonneg k z : (ofOffer F <$> l_entries s) !! k = Some z → 0 ≤ z.
Proof using HF.
  rewrite lookup_fmap. destruct (_ !! k) as [e|] eqn:E; [|done]. intros [= <-]. unfold ofOffer.
  destruct (offerIn e) eqn:Eo; [by eapply HF|done].
Qed.

Lemma total_nonneg : 0 ≤ total F s.
Proof using HF. apply sumMap_nonneg. apply ofOffer_nonneg. Qed.

Lemma total_at k e o :
  l_entries s !! k = Some e → offerIn e = Some o → F o (sponsoringIDOf e) ≤ total F s.
Proof using HF.
  intros He Ho. unfold total.
  rewrite (sumMap_delete _ k (ofOffer F e)) by by rewrite lookup_fmap, He.
  assert (ofOffer F e = F o (sponsoringIDOf e)) as -> by (unfold ofOffer; by rewrite Ho).
  assert (0 ≤ sumMap (delete k (ofOffer F <$> l_entries s))); [|lia].
  apply sumMap_nonneg. intros k' z Hz. apply lookup_delete_Some in Hz as [_ Hz]. by eapply ofOffer_nonneg.
Qed.
End Positive.

(** ** The invariant *)

Definition ownedBy (i : AccountID) (o : OfferEntry) (sp : option AccountID) : Z := ind (o_sellerID o = i).
Definition sponsoredFor (i : AccountID) (o : OfferEntry) (sp : option AccountID) : Z :=
  ind (o_sellerID o = i ∧ sp ≠ None).
Definition unsponsoredOf (i : AccountID) (o : OfferEntry) (sp : option AccountID) : Z :=
  ind (o_sellerID o = i ∧ sp = None).
Definition sponsoredBy (i : AccountID) (o : OfferEntry) (sp : option AccountID) : Z := ind (sp = Some i).

Definition buys (i : AccountID) (a : Asset) (o : OfferEntry) (sp : option AccountID) : Z :=
  if decide (o_sellerID o = i ∧ o_buying o = a) then buyLiab o else 0.
Definition sells (i : AccountID) (a : Asset) (o : OfferEntry) (sp : option AccountID) : Z :=
  if decide (o_sellerID o = i ∧ o_selling o = a) then o_amount o else 0.

(** The counters of an account count its offers and those it sponsors. *)
Record counted (s : Ltx) (c : Counters) : Prop := {
  ct_owned : total (ownedBy (c_id c)) s ≤ c_subEntries c;
  ct_sponsored : total (sponsoredFor (c_id c)) s ≤ sponsored c;
  ct_unsponsored : total (unsponsoredOf (c_id c)) s + sponsored c ≤ 2 + c_subEntries c;
  ct_sponsoring : total (sponsoredBy (c_id c)) s ≤ sponsoring c
}.

(** An offer has a seller that can deliver, and its sponsor exists. *)
Record backed (s : Ltx) (e : LedgerEntry) (o : OfferEntry) : Prop := {
  bd_ok : offerOk o;
  bd_views : ∃ vB vS, seller s o vB vS ∧ 0 ≤ sendableOf vS;
  bd_owner : is_Some (l_entries s !! KEY_ACCOUNT (o_sellerID o));
  bd_sponsor p : sponsoringIDOf e = Some p →
    p ≠ o_sellerID o ∧ 14 ≤ ledgerVersion (l_header s) ∧ is_Some (l_entries s !! KEY_ACCOUNT p)
}.

Record book (s : Ltx) : Prop := {
  bk_version : 10 ≤ ledgerVersion (l_header s);
  bk_keyed : keyed s;
  bk_offers k e o : l_entries s !! k = Some e → offerIn e = Some o → backed s e o;
  bk_accounts i e : l_entries s !! KEY_ACCOUNT i = Some e →
    ∃ c, accountIn e = Some c ∧ countersOk (l_header s) c ∧ counted s c;
  bk_buying i a b : getIssuer a ≠ Some i → held Buying s i a = Some b → b = total (buys i a) s;
  bk_selling i a b : getIssuer a ≠ Some i → held Selling s i a = Some b → b = total (sells i a) s
}.

Section UseBook.
Context (s : Ltx).
Hypothesis Hb : book s.

Lemma book_account i :
  is_Some (l_entries s !! KEY_ACCOUNT i) → ∃ c, account s i c ∧ counted s c.
Proof using Hb.
  intros [e He]. destruct (bk_accounts s Hb i e He) as (c & Hc & Hok & Hn).
  exists c. split; [|done]. exists e. split_and!; try done.
  pose proof (bk_keyed s Hb _ _ He) as Hk. rewrite (accountIn_key e c Hc) in Hk. congruence.
Qed.

Lemma ind_nonneg P `{Decision P} : 0 ≤ ind P.
Proof. unfold ind. case_decide; lia. Qed.

Lemma counts_nonneg i :
  0 ≤ total (ownedBy i) s ∧ 0 ≤ total (sponsoredFor i) s ∧ 0 ≤ total (unsponsoredOf i) s ∧
  0 ≤ total (sponsoredBy i) s.
Proof using. split_and!; apply total_nonneg; intros; apply ind_nonneg. Qed.

Lemma book_removable k e o :
  l_entries s !! k = Some e → offerIn e = Some o → removable s (o_sellerID o) (sponsoringIDOf e).
Proof using Hb.
  intros He Ho. destruct (bk_offers s Hb k e o He Ho) as [_ _ Hown Hsp].
  assert (∀ F, (∀ o sp, 0 ≤ F o sp) → F o (sponsoringIDOf e) ≤ total F s) as Hat.
  { intros F HF. eapply total_at; [intros; apply HF|done..]. }
  destruct (book_account _ Hown) as (c & Hc & Hn). exists c. split; [done|].
  assert (c_id c = o_sellerID o) as Hid by (by destruct Hc as (? & _ & _ & ? & _)).
  destruct Hn as [N1 N2 N3 N4]. rewrite Hid in *.
  pose proof (Hat (ownedBy (o_sellerID o)) (λ _ _, ind_nonneg _)) as A1.
  pose proof (Hat (sponsoredFor (o_sellerID o)) (λ _ _, ind_nonneg _)) as A2.
  pose proof (Hat (unsponsoredOf (o_sellerID o)) (λ _ _, ind_nonneg _)) as A3.
  pose proof (counts_nonneg (o_sellerID o)) as (_ & _ & _ & Z4).
  unfold ownedBy at 1, ind in A1. rewrite decide_True in A1 by done. split; [lia|].
  destruct (sponsoringIDOf e) as [p|] eqn:Esp.
  - unfold sponsoredFor at 1, ind in A2. rewrite decide_True in A2 by done.
    destruct (Hsp p eq_refl) as (Hne & Hv & Hacc). split_and!; [done|done|lia|].
    destruct (book_account p Hacc) as (c' & Hc' & [N1' N2' N3' N4']). exists c'. split; [done|].
    assert (c_id c' = p) as Hid' by (by destruct Hc' as (? & _ & _ & ? & _)). rewrite Hid' in *.
    pose proof (Hat (sponsoredBy p) (λ _ _, ind_nonneg _)) as A4.
    unfold sponsoredBy at 1, ind in A4. rewrite decide_True in A4 by done.
    pose proof (counts_nonneg p) as (_ & _ & Z3 & _). unfold effective. lia.
  - unfold unsponsoredOf at 1, ind in A3. rewrite decide_True in A3 by done. unfold effective. lia.
Qed.

Lemma buys_nonneg i a k e o : l_entries s !! k = Some e → offerIn e = Some o → 0 ≤ buys i a o (sponsoringIDOf e).
Proof using Hb.
  intros He Ho. destruct (bk_offers s Hb k e o He Ho) as [Hok _ _ _]. pose proof (buyLiab_bounds o Hok).
  unfold buys. case_decide; lia.
Qed.

Lemma sells_nonneg i a k e o : l_entries s !! k = Some e → offerIn e = Some o → 0 ≤ sells i a o (sponsoringIDOf e).
Proof using Hb.
  intros He Ho. destruct (bk_offers s Hb k e o He Ho) as [[_ Ha _ _] _ _ _]. unfold sells. case_decide; lia.
Qed.

Lemma holder_held i a e x q : holder s i a (Some (e, x)) → held q s i a = Some (quantity q x).
Proof using.
  intros Hh. inversion Hh as [|? ? Hi He Hk Hx Hok]; subst. unfold held. rewrite He. simpl.
  by eapply holds_quantity.
Qed.

Lemma book_covered k e o vB vS :
  l_entries s !! k = Some e → offerIn e = Some o → seller s o vB vS → 0 ≤ sendableOf vS → covered o vB vS.
Proof using Hb.
  intros He Ho [HB HS] Hsend. split_and!; [| |done].
  - destruct vB as [[e' x]|]; [|done]. simpl. pose proof (holder_held _ _ _ _ Buying HB) as E.
    inversion HB as [|? ? Hi _ _ _ _]; subst. apply (bk_buying s Hb _ _ _ Hi) in E. simpl in E. rewrite E.
    pose proof (total_at (buys (o_sellerID o) (o_buying o)) s (buys_nonneg _ _) k e o He Ho) as Hle.
    unfold buys in Hle at 1. by rewrite decide_True in Hle.
  - destruct vS as [[e' x]|]; [|done]. simpl. pose proof (holder_held _ _ _ _ Selling HS) as E.
    inversion HS as [|? ? Hi _ _ _ _]; subst. apply (bk_selling s Hb _ _ _ Hi) in E. simpl in E. rewrite E.
    pose proof (total_at (sells (o_sellerID o) (o_selling o)) s (sells_nonneg _ _) k e o He Ho) as Hle.
    unfold sells in Hle at 1. by rewrite decide_True in Hle.
Qed.
End UseBook.

(** ** A crossing keeps it *)

Section KeepBook.
Context (s s' : Ltx) (k : LedgerKey) (le : LedgerEntry) (o : OfferEntry) (x wheat sheep : Z).
Hypothesis Hb : book s.
Hypothesis He : l_entries s !! k = Some le.
Hypothesis Ho : offerIn le = Some o.
Hypothesis HX : OfferCrossed k le o x wheat sheep s s'.

Notation sp := (sponsoringIDOf le).

Lemma Crossed_differ : offersDiffer k s s'.
Proof using HX.
  intros k' Hk. pose proof (cd_entries _ _ _ _ _ _ _ _ HX k' Hk) as H.
  destruct H as [e e' H|]; constructor. unfold sponsoringIDOf.
  destruct (x =? 0); destruct H as (_ & -> & -> & _); done.
Qed.

Lemma total_Crossed F :
  total F s' = total F s - F o sp + (if x =? 0 then 0 else F (set_o_amount x o) sp).
Proof using He Ho HX.
  pose proof (total_differ F k s s' Crossed_differ) as H.
  rewrite He, (cd_offer _ _ _ _ _ _ _ _ HX) in H. cbn [fmap option_fmap option_map default] in H.
  unfold ofOffer in H at 2. rewrite Ho in H. destruct (x =? 0); simpl in H; [lia|].
  change (ofOffer F (withAmount x o le)) with (F (set_o_amount x o) sp) in H. lia.
Qed.

(** Entries correspond. *)
Lemma Crossed_back k' e' :
  l_entries s' !! k' = Some e' →
  ∃ e, l_entries s !! k' = Some e ∧ LedgerEntryKey e' = LedgerEntryKey e ∧
    sponsoringIDOf e' = sponsoringIDOf e ∧
    (k' ≠ k → offerIn e' = offerIn e ∧
      if x =? 0 then option_Forall2 (released (o_sellerID o) sp) (accountIn e) (accountIn e')
      else accountIn e' = accountIn e).
Proof using He Ho HX.
  intros He'. destruct (decide (k' = k)) as [->|Hk].
  - rewrite (cd_offer _ _ _ _ _ _ _ _ HX) in He'. destruct (x =? 0); [done|]. simplify_eq.
    exists le. split_and!; try done. unfold LedgerEntryKey, offerIn in *.
    destruct (data le) as [?|?|y|?|?]; simplify_eq. done.
  - pose proof (cd_entries _ _ _ _ _ _ _ _ HX k' Hk) as H. rewrite He' in H.
    inversion H as [e ? Hrel E|]; subst. exists e. unfold sponsoringIDOf.
    destruct (x =? 0); destruct Hrel as (-> & -> & -> & Hacc); split_and!; done.
Qed.

Lemma Crossed_some k' : k' ≠ k → is_Some (l_entries s !! k') → is_Some (l_entries s' !! k').
Proof using HX.
  intros Hk [e E]. pose proof (cd_entries _ _ _ _ _ _ _ _ HX k' Hk) as H. rewrite E in H.
  inversion H; subst. by eexists.
Qed.

Lemma offer_key : k = KEY_OFFER (o_sellerID o) (o_offerID o).
Proof using Hb He Ho.
  rewrite <- (bk_keyed s Hb k le He). unfold LedgerEntryKey, offerIn in *.
  by destruct (data le) as [?|?|y|?|?]; simplify_eq.
Qed.

Lemma views_kept i a v :
  holder s i a v → 0 ≤ sendableOf v → ∃ v', holder s' i a v' ∧ 0 ≤ sendableOf v'.
Proof using HX.
  intros Hh Hs. destruct (cd_evolves _ _ _ _ _ _ _ _ HX i a v Hh) as (v' & ? & ?). eauto.
Qed.

Lemma backed_kept e e' o2 o2' :
  backed s e o2 → offerOk o2' → o_sellerID o2' = o_sellerID o2 → o_buying o2' = o_buying o2 →
  o_selling o2' = o_selling o2 → sponsoringIDOf e' = sponsoringIDOf e → backed s' e' o2'.
Proof using Hb He Ho HX.
  intros [_ (vB & vS & [HB HS] & Hs) Hown Hsp] Hok E1 E2 E3 E4.
  assert (∀ i, KEY_ACCOUNT i ≠ k) as Hk by (intros i; by rewrite offer_key).
  split; [done| | |].
  - destruct (cd_evolves _ _ _ _ _ _ _ _ HX _ _ vB HB) as (vB' & HB' & _).
    destruct (views_kept _ _ vS HS Hs) as (vS' & HS' & Hs'). exists vB', vS'.
    unfold seller. rewrite E1, E2, E3. done.
  - rewrite E1. by apply Crossed_some.
  - intros p Hp. rewrite E4 in Hp. destruct (Hsp p Hp) as (H1 & H2 & H3).
    rewrite E1, (cd_header _ _ _ _ _ _ _ _ HX). split_and!; [done..|]. by apply Crossed_some.
Qed.

Lemma offers_kept k' e' o2 : l_entries s' !! k' = Some e' → offerIn e' = Some o2 → backed s' e' o2.
Proof using Hb He Ho HX.
  intros He' Ho'. destruct (Crossed_back k' e' He') as (e & E & _ & Hsp & Hoth).
  destruct (decide (k' = k)) as [->|Hk].
  - rewrite (cd_offer _ _ _ _ _ _ _ _ HX) in He'. destruct (Z.eqb_spec x 0); simplify_eq.
    assert (o2 = set_o_amount x o) as -> by (cbn in Ho'; congruence).
    eapply backed_kept; [by apply (bk_offers s Hb k)|by apply HX|done..].
  - destruct (Hoth Hk) as [Ho2 _]. rewrite Ho2 in Ho'. pose proof (bk_offers s Hb k' e o2 E Ho') as Hbd.
    eapply backed_kept; [done|apply Hbd|done..].
Qed.

Lemma counted_kept c : x ≠ 0 → counted s c → counted s' c.
Proof using He Ho HX.
  intros Hx [N1 N2 N3 N4]. apply Z.eqb_neq in Hx.
  assert (∀ F, F (set_o_amount x o) sp = F o sp → total F s' = total F s) as E.
  { intros F HF. rewrite total_Crossed, Hx, HF. lia. }
  by split; rewrite E.
Qed.

Lemma counted_released c c' :
  x = 0 → counted s c → released (o_sellerID o) sp c c' → counted s' c'.
Proof using He Ho HX.
  intros Hx [N1 N2 N3 N4] (R1 & R2 & R3 & R4 & _). apply Z.eqb_eq in Hx.
  assert (∀ F, total F s' = total F s - F o sp) as E by (intros F; rewrite total_Crossed, Hx; lia).
  split; rewrite E, R1, ?R2, ?R3, ?R4; clear E R2 R3 R4; revert N1 N2 N3 N4;
    generalize (total (ownedBy (c_id c)) s), (total (sponsoredFor (c_id c)) s),
      (total (unsponsoredOf (c_id c)) s), (total (sponsoredBy (c_id c)) s), sp;
    unfold ownedBy, sponsoredFor, unsponsoredOf, sponsoredBy, ind; clear;
    intros ? ? ? ? [p|]; repeat case_decide; naive_solver lia.
Qed.

Lemma countersOk_released c c' :
  x = 0 → countersOk (l_header s) c → counted s c → released (o_sellerID o) sp c c' →
  countersOk (l_header s') c'.
Proof using Hb He Ho HX.
  intros Hx Hok Hn Hr. pose proof (counted_released c c' Hx Hn Hr) as [N1 N2 N3 N4].
  rewrite (cd_header _ _ _ _ _ _ _ _ HX). pose proof (counts_nonneg s' (c_id c')) as (Z1 & Z2 & Z3 & Z4).
  destruct Hr as (R1 & R2 & R3 & R4 & R5).
  pose proof (ind_nonneg (c_id c = o_sellerID o)). pose proof (ind_nonneg (sp = Some (c_id c))).
  pose proof (ind_nonneg (c_id c = o_sellerID o ∧ sp ≠ None)).
  assert (ind (c_id c = o_sellerID o ∧ sp ≠ None) ≤ ind (c_id c = o_sellerID o))
    by (unfold ind; repeat case_decide; naive_solver lia).
  apply (countersOk_less _ c); [done|lia..| |done]. unfold effective. lia.
Qed.

Lemma accounts_kept i e' : l_entries s' !! KEY_ACCOUNT i = Some e' →
  ∃ c, accountIn e' = Some c ∧ countersOk (l_header s') c ∧ counted s' c.
Proof using Hb He Ho HX.
  intros He'. destruct (Crossed_back _ e' He') as (e & E & _ & _ & Hoth).
  destruct Hoth as [_ Hacc]; [by rewrite offer_key|].
  destruct (bk_accounts s Hb i e E) as (c & Hc & Hok & Hn). rewrite Hc in Hacc.
  destruct (Z.eqb_spec x 0) as [Hx|Hx].
  - destruct (accountIn e') as [c'|]; [|by inversion Hacc].
    assert (released (o_sellerID o) sp c c') as Hr by by inversion Hacc. exists c'. split_and!; [done| |].
    + by eapply countersOk_released.
    + by eapply counted_released.
  - exists c. rewrite (cd_header _ _ _ _ _ _ _ _ HX). split_and!; [done..|by apply counted_kept].
Qed.

Lemma at_holder_entry id b d q i a :
  getIssuer a ≠ Some i → at_holder id b d q i a = if decide (id = i ∧ b = a) then d q else 0.
Proof using.
  intros Hi. unfold at_holder. destruct (decide (id = i ∧ b = a)) as [[-> ->]|H].
  - by rewrite bool_decide_true.
  - rewrite bool_decide_false; [done|]. intros (-> & -> & _). by apply H.
Qed.

Lemma liabilities_kept i a b :
  getIssuer a ≠ Some i →
  (held Buying s' i a = Some b → b = total (buys i a) s') ∧
  (held Selling s' i a = Some b → b = total (sells i a) s').
Proof using Hb He Ho HX.
  intros Hi. rewrite !total_Crossed, !(cd_changed _ _ _ _ _ _ _ _ HX).
  assert (x = 0 → buyLiab (set_o_amount x o) = 0) as Hz.
  { intros Hx. rewrite Hx. apply buyLiab_0. by apply (bk_offers s Hb k le o He Ho). }
  split; (destruct (held _ s i a) as [b0|] eqn:E; [|done]); intros [= <-];
    [apply (bk_buying s Hb) in E; [|done]|apply (bk_selling s Hb) in E; [|done]]; rewrite E.
  - unfold crossChange, atSeller, plus, buys at 3 4. rewrite !at_holder_entry by done.
    cbn [o_sellerID o_buying set_o_amount].
    repeat case_decide; destruct (Z.eqb_spec x 0) as [Hx|Hx]; try specialize (Hz Hx); lia.
  - unfold crossChange, atSeller, plus, sells at 3 4. rewrite !at_holder_entry by done.
    cbn [o_sellerID o_selling o_amount set_o_amount].
    repeat case_decide; destruct (Z.eqb_spec x 0) as [Hx|Hx]; lia.
Qed.

Lemma book_kept : book s'.
Proof using Hb He Ho HX.
  split.
  - rewrite (cd_header _ _ _ _ _ _ _ _ HX). apply Hb.
  - intros k' e' He'. destruct (Crossed_back k' e' He') as (e & E & -> & _). by apply (bk_keyed s Hb).
  - exact offers_kept.
  - exact accounts_kept.
  - intros i a b Hi. by apply liabilities_kept.
  - intros i a b Hi. by apply liabilities_kept.
Qed.
End KeepBook.
