(* ===== verification/LedgerExamples.v ===== *)
(** * A small ledger

    One seller with one offer: account 1 sells gold for dollars.  It satisfies the
    invariant of Book.v for every price and amount of the offer and every limit of
    the trust line that leaves room for its liabilities. *)

From stdpp Require Import prelude list gmap.
From Stdlib Require Import ZArith Lia.
From S2P Require Import Prelude Numeric Exchange LedgerEntries Balances Sponsorship LedgerState.
From S2P Require Import CrossOffers Holders Reserves CrossSafety Book.
Local Open Scope Z_scope.

Definition gold : Asset := ASSET_TYPE_CREDIT_ALPHANUM4 [71; 76; 68] 8.
Definition dollar : Asset := ASSET_TYPE_CREDIT_ALPHANUM4 [85; 83; 68] 9.

Definition smallHeader : LedgerHeader :=
  {| ledgerVersion := 15; ledgerSeq := 100; closeTime := 1000; totalCoins := 1000000; feePool := 0;
     inflationSeq := 0; idPool := 7; baseFee := 100; baseReserve := 5;
     maxTxSetSize := 100; previousLedgerHash := 0; bucketListHash := 0; skipList := [0; 0; 0; 0] |}.

Definition entryOf (d : LedgerEntryData) : LedgerEntry :=
  {| lastModifiedLedgerSeq := 99; data := d; le_ext := None |}.

Definition smallAccount : LedgerEntry :=
  entryOf (ACCOUNT {| a_accountID := 1; a_balance := 1000; seqNum := 1; numSubEntries := 3;
                      inflationDest := None; a_flags := 0; homeDomain := []; thresholds := [];
                      signers := []; a_extV1 := None |}).

Definition line (a : Asset) (balance limit : Z) (l : Liabilities) : LedgerEntry :=
  entryOf (TRUSTLINE {| tl_accountID := 1; tl_asset := a; tl_balance := balance; limit := limit;
                        tl_flags := 1; tl_extV1 := Some l |}).

Section Small.
Context (p : Price) (amt lim : Z).

Definition smallOffer : OfferEntry :=
  {| o_sellerID := 1; o_offerID := 7; o_selling := gold; o_buying := dollar; o_amount := amt;
     o_price := p; o_flags := 0 |}.

Definition dollarLine : LedgerEntry := line dollar 0 lim {| buying := buyLiab smallOffer; selling := 0 |}.
Definition goldLine : LedgerEntry := line gold amt amt {| buying := 0; selling := amt |}.

Definition smallLedger : Ltx :=
  {| l_header := smallHeader;
     l_entries := <[KEY_OFFER 1 7 := entryOf (OFFER smallOffer)]>
                    (<[KEY_ACCOUNT 1 := smallAccount]>
                       (<[KEY_TRUSTLINE 1 dollar := dollarLine]>
                          (<[KEY_TRUSTLINE 1 gold := goldLine]> ∅)));
     l_sponsorships := ∅;
     l_sponsorshipCounters := ∅ |}.

Hypothesis Hok : offerOk smallOffer.
Hypothesis Hlim : buyLiab smallOffer ≤ lim ≤ INT64_MAX.

Lemma small_lookup k e :
  l_entries smallLedger !! k = Some e →
  (k = KEY_OFFER 1 7 ∧ e = entryOf (OFFER smallOffer)) ∨ (k = KEY_ACCOUNT 1 ∧ e = smallAccount) ∨
  (k = KEY_TRUSTLINE 1 dollar ∧ e = dollarLine) ∨ (k = KEY_TRUSTLINE 1 gold ∧ e = goldLine).
Proof using.
  clear Hok Hlim.
  unfold smallLedger. simpl. intros H.
  repeat (apply lookup_insert_Some in H as [[<- <-]|[_ H]]; [tauto|]). by rewrite lookup_empty in H.
Qed.

Lemma small_total F : total F smallLedger = F smallOffer None.
Proof using.
  clear Hok Hlim.
  unfold total. rewrite (sumMap_delete _ (KEY_OFFER 1 7) (F smallOffer None)).
  - unfold smallLedger. simpl. rewrite !fmap_insert, fmap_empty, delete_insert_id by done.
    assert (sumMap (<[KEY_ACCOUNT 1 := 0]> (<[KEY_TRUSTLINE 1 dollar := 0]>
      (<[KEY_TRUSTLINE 1 gold := 0]> ∅))) = 0) as E by by vm_compute.
    change (sumMap _) with (sumMap (<[KEY_ACCOUNT 1 := 0]> (<[KEY_TRUSTLINE 1 dollar := 0]>
      (<[KEY_TRUSTLINE 1 gold := 0]> ∅)))). lia.
  - unfold smallLedger. rewrite lookup_fmap. simpl. by rewrite lookup_insert_eq.
Qed.

Lemma small_dollar : holder smallLedger 1 dollar
  (Some (dollarLine, {| hd_balance := 0; hd_buying := buyLiab smallOffer; hd_selling := 0; hd_floor := 0;
                        hd_limit := lim |})).
Proof using Hok Hlim.
  pose proof (buyLiab_bounds _ Hok). apply holder_entry; [done..| |holding; word].
  by apply (holds_line _ dollarLine {| tl_accountID := 1; tl_asset := dollar; tl_balance := 0;
    limit := lim; tl_flags := 1; tl_extV1 := Some {| buying := buyLiab smallOffer; selling := 0 |} |}
    {| buying := buyLiab smallOffer; selling := 0 |}).
Qed.

Lemma small_gold : holder smallLedger 1 gold
  (Some (goldLine, {| hd_balance := amt; hd_buying := 0; hd_selling := amt; hd_floor := 0;
                      hd_limit := amt |})).
Proof using Hok Hlim.
  destruct Hok as [_ Ha _ _]. simpl in Ha. apply holder_entry; [done..| |holding; word].
  by apply (holds_line _ goldLine {| tl_accountID := 1; tl_asset := gold; tl_balance := amt;
    limit := amt; tl_flags := 1; tl_extV1 := Some {| buying := 0; selling := amt |} |}
    {| buying := 0; selling := amt |}).
Qed.

Lemma small_held q i a b :
  held q smallLedger i a = Some b →
  i = 1 ∧ ((a = ASSET_TYPE_NATIVE ∧ quantityOf q smallAccount = Some b) ∨
           (a = dollar ∧ quantityOf q dollarLine = Some b) ∨ (a = gold ∧ quantityOf q goldLine = Some b)).
Proof using.
  clear Hok Hlim.
  unfold held. destruct (l_entries smallLedger !! holderKey i a) as [e|] eqn:E; [|done]. simpl. intros Hq.
  apply small_lookup in E. unfold holderKey in E.
  destruct (isNative a) eqn:En; destruct E as [[? ?]|[[? ?]|[[? ?]|[? ?]]]]; simplify_eq;
    try (rewrite (isNative_true a En)); tauto.
Qed.

Lemma small_book : book smallLedger.
Proof using Hok Hlim.
  split; [done| | | | |].
  - intros k e H. apply small_lookup in H as [[-> ->]|[[-> ->]|[[-> ->]|[-> ->]]]]; done.
  - intros k e o H Ho. apply small_lookup in H as [[-> ->]|[[-> ->]|[[-> ->]|[-> ->]]]]; try done.
    assert (o = smallOffer) as -> by (cbn in Ho; congruence). split; [exact Hok| |by eexists|done].
    eexists _, _. split; [split; [exact small_dollar|exact small_gold]|]. simpl. holding. lia.
  - intros i e H. apply small_lookup in H as [[? ?]|[[? ->]|[[? ?]|[? ?]]]]; simplify_eq.
    eexists. split; [done|]. split; [by unfold countersOk; vm_compute|].
    split; rewrite small_total; vm_compute; done.
  - intros i a b _ H. rewrite small_total. apply small_held in H as [-> [[-> H]|[[-> H]|[-> H]]]];
      simpl in H; simplify_eq; done.
  - intros i a b _ H. rewrite small_total. apply small_held in H as [-> [[-> H]|[[-> H]|[-> H]]]];
      simpl in H; simplify_eq; done.
Qed.
End Small.
