(* ===== verification/ConvertSafety.v ===== *)
(** * Crossing a whole book

    Under the invariant of Book.v, [crossOfferV10] completes on every offer and keeps
    the invariant, and the loop of [convertWithOffers] ends: every offer it goes on
    after is taken out of the book.  What the offer trail reports is what changes
    hands. *)

From stdpp Require Import prelude list gmap.
From Stdlib Require Import ZArith Lia.
From S2P Require Import Prelude Numeric Exchange LedgerEntries Balances Sponsorship LedgerState.
From S2P Require Import CrossOffers Holders Reserves CrossSafety Book LedgerExamples.
Local Open Scope Z_scope.

Lemma crossOfferV10_book s k le o maxW maxS round :
  book s → l_entries s !! k = Some le → offerIn le = Some o →
  0 < maxW ≤ INT64_MAX → 0 < maxS ≤ INT64_MAX → round ≠ PATH_PAYMENT_STRICT_SEND →
  ∃ c s' x, crossOfferV10 k maxW maxS round s = Ok (c, s') ∧ traded o maxW maxS x c ∧
    OfferCrossed k le o x (cr_wheatReceived c) (cr_sheepSend c) s s' ∧ book s'.
Proof.
  intros Hb He Ho HW HS Hr. destruct (bk_offers s Hb k le o He Ho) as [Hok (vB & vS & Hsel & Hsend) _ _].
  assert (data le = OFFER o) as Hd by (unfold offerIn in Ho; by destruct (data le); simplify_eq).
  destruct (crossOfferV10_step k le o vB vS s) with (maxW := maxW) (maxS := maxS) (round := round)
    as (c & s' & x & E & Ht & HX); try done; try apply Hb.
  - split; [done|done|by eapply offer_key|done].
  - by eapply book_covered.
  - by eapply book_removable.
  - exists c, s', x. split_and!; [done..|by eapply book_kept].
Qed.

(** ** The number of offers *)

Definition offers (s : Ltx) : Z := total (λ _ _, 1) s.

Lemma offerCount_eq s : Z.of_nat (offerCount s) = offers s.
Proof.
  unfold offerCount, offers, total, sumMap. rewrite map_fold_fmap, map_fold_foldr.
  induction (map_to_list (l_entries s)) as [|[k e] l IH]; [done|]. simpl.
  unfold ofOffer at 1, offerIn. destruct (data e); simpl length; rewrite ?Nat2Z.inj_succ, IH; simpl; lia.
Qed.

Lemma offers_nonneg s : 0 ≤ offers s.
Proof. apply total_nonneg. intros. lia. Qed.

(** ** The loop *)

(** What [loadBestOffer] promises: an offer of the ledger for these assets. *)
Class OrderBookLaws (B : OrderBook) : Prop := {
  bestOffer_offer s sheep wheat k :
    bestOffer s sheep wheat = Some k →
    ∃ e o, l_entries s !! k = Some e ∧ offerIn e = Some o ∧ o_buying o = sheep ∧ o_selling o = wheat
}.

(** Balances change by the claims of a trail. *)
Definition atomChange (x : ClaimOfferAtom) : Change :=
  plus (at_holder (ca_sellerID x) (ca_assetBought x) (only Balance (ca_amountBought x)))
    (at_holder (ca_sellerID x) (ca_assetSold x) (only Balance (- ca_amountSold x))).

Definition trailChange (l : list ClaimOfferAtom) (i : AccountID) (a : Asset) : Z :=
  foldr (λ x n, atomChange x Balance i a + n) 0 l.

Definition balancesChange (l : list ClaimOfferAtom) (s s' : Ltx) : Prop :=
  ∀ i a, held Balance s' i a = (λ z, z + trailChange l i a) <$> held Balance s i a.

Definition soldIn (l : list ClaimOfferAtom) : Z := foldr (λ x n, ca_amountSold x + n) 0 l.
Definition boughtIn (l : list ClaimOfferAtom) : Z := foldr (λ x n, ca_amountBought x + n) 0 l.

Lemma balancesChange_nil s : balancesChange [] s s.
Proof. intros i a. destruct (held Balance s i a); simpl; [|done]. f_equal. lia. Qed.

Lemma balancesChange_cons x l s s1 s' δ :
  changed δ s s1 → (∀ i a, δ Balance i a = atomChange x Balance i a) → balancesChange l s1 s' →
  balancesChange (x :: l) s s'.
Proof.
  intros H1 Hδ H2 i a. rewrite H2, H1, Hδ. destruct (held Balance s i a); simpl; [|done]. f_equal. lia.
Qed.

Section Loop.
Context {B : OrderBook} `{!OrderBookLaws B}.
Context (sheep wheat : Asset) (round : RoundingType).
Context (filter : option (LedgerEntry → OfferFilterResult)) (maxOffersToCross : Z).
Hypothesis Hround : round ≠ PATH_PAYMENT_STRICT_SEND.

Notation step_ := (convertStep sheep wheat round filter maxOffersToCross).
Notation loop_ := (convertLoop sheep wheat round filter maxOffersToCross).

(** Why the loop stops. *)
Definition stopped (s : Ltx) (trail : list ClaimOfferAtom) (r : ConvertResult) : Prop :=
  match r with
  | eOK => True
  | ePartial => bestOffer s sheep wheat = None
  | eFilterStop => ∃ f k e, filter = Some f ∧ bestOffer s sheep wheat = Some k ∧
      l_entries s !! k = Some e ∧ f e = eStop
  | eCrossedTooMany => u64 maxOffersToCross ≤ Z.of_nat (length trail)
  end.

Inductive Iterated (s s' : Ltx) (maxS maxW : Z) (trail : list ClaimOfferAtom) : Iteration → Prop :=
| it_none : s' = s → bestOffer s sheep wheat = None → Iterated s s' maxS maxW trail NoOffer
| it_stop r : s' = s → r ≠ eOK → r ≠ ePartial → stopped s trail r → Iterated s s' maxS maxW trail (Stop r)
| it_crossed k e o x c :
    l_entries s !! k = Some e → offerIn e = Some o → o_buying o = sheep → o_selling o = wheat →
    traded o maxW maxS x c → OfferCrossed k e o x (cr_wheatReceived c) (cr_sheepSend c) s s' → book s' →
    Iterated s s' maxS maxW trail (Crossed c).

Lemma convertStep_ok s maxS maxW trail :
  book s → 0 < maxS ≤ INT64_MAX → 0 < maxW ≤ INT64_MAX →
  ∃ it s', step_ maxS maxW trail s = Ok (it, s') ∧ Iterated s s' maxS maxW trail it.
Proof using Type* .
  intros Hb HS HW. unfold convertStep, nested, bind at 1, gets.
  destruct (bestOffer s sheep wheat) as [k|] eqn:Ebest; [|by eexists _, _; split; [done|constructor]].
  destruct (bestOffer_offer s sheep wheat k Ebest) as (e & o & He & Ho & Hbuy & Hsell).
  rewrite (bind_ok (current k) _ s e s) by (unfold current, load, bind, gets; by rewrite He).
  destruct (match filter with Some f => match f e with eStop => true | eKeep => false end | None => false end)
    eqn:Ef.
  { eexists _, _. split; [done|]. apply it_stop; [done|discriminate..|]. destruct filter as [f|] eqn:Ff; [|done].
    exists f, k, e. split_and!; try done. by destruct (f e). }
  destruct (Z.leb_spec (u64 maxOffersToCross) (Z.of_nat (length trail))) as [Hm|Hm].
  { eexists _, _. split; [done|]. by apply it_stop; [done|discriminate..|]. }
  rewrite (bind_ok loadHeader _ s (l_header s) s) by done.
  rewrite (version_le (l_header s) (bk_version s Hb)).
  destruct (crossOfferV10_book s k e o maxW maxS round Hb He Ho HW HS Hround)
    as (c & s' & x & E & Ht & HX & Hb').
  rewrite (bind_ok _ _ s (Some c) s') by (unfold bind; by rewrite E).
  pose proof (td_wheat _ _ _ _ _ Ht). pose proof (td_sheep _ _ _ _ _ Ht).
  rewrite !(proj2 (Z.leb_le _ _)) by lia. cbn [andb].
  rewrite (bind_ok (check true _) _ s' tt s') by done.
  eexists _, _. split; [done|]. by eapply it_crossed.
Qed.

(** The crossings [l], after [before] *)
Record Converts (s s' : Ltx) (maxS maxW : Z) (before l : list ClaimOfferAtom) (r : ConvertResult)
  : Prop := {
  cvt_book : book s';
  cvt_sheep : 0 ≤ boughtIn l ≤ maxS;
  cvt_wheat : 0 ≤ soldIn l ≤ maxW;
  cvt_balances : balancesChange l s s';
  cvt_assets : Forall (λ x, ca_assetBought x = sheep ∧ ca_assetSold x = wheat) l;
  cvt_stopped : stopped s' (before ++ l) r
}.

Lemma Converts_nil s maxS maxW before r :
  book s → 0 < maxS → 0 < maxW → stopped s before r → Converts s s maxS maxW before [] r.
Proof using.
  intros. split; simpl; try done; try lia; [apply balancesChange_nil|by rewrite app_nil_r].
Qed.

Section AfterCrossing.
Context (s s1 : Ltx) (k : LedgerKey) (e : LedgerEntry) (o : OfferEntry) (x maxS maxW : Z) (c : Crossing).
Hypothesis Ht : traded o maxW maxS x c.
Hypothesis HX : OfferCrossed k e o x (cr_wheatReceived c) (cr_sheepSend c) s s1.
Hypothesis Hbuy : o_buying o = sheep.
Hypothesis Hsell : o_selling o = wheat.

Lemma Converts_cons s' before l r :
  Converts s1 s' (maxS - cr_sheepSend c) (maxW - cr_wheatReceived c) (before ++ [cr_atom c]) l r →
  Converts s s' maxS maxW before (cr_atom c :: l) r.
Proof using Ht HX Hbuy Hsell.
  intros [H1 H2 H3 H4 H5 H6]. destruct Ht as [T1 T2 _ _ _ _ T3]. split; try done.
  - simpl. rewrite T3. simpl. lia.
  - simpl. rewrite T3. simpl. lia.
  - eapply balancesChange_cons; [apply HX| |done]. intros i a. rewrite T3.
    unfold crossChange, atomChange, atSeller, plus, at_holder, only. simpl. done.
  - constructor; [|done]. by rewrite T3.
  - by rewrite <- app_assoc in H6.
Qed.

Lemma taken_fewer : x = 0 → l_entries s !! k = Some e → offerIn e = Some o → offers s1 = offers s - 1.
Proof using HX.
  intros Hx He Ho. unfold offers. rewrite (total_Crossed s s1 k e o x _ _ He Ho HX).
  by rewrite Hx, Z.eqb_refl, Z.add_0_r.
Qed.
End AfterCrossing.

(** The new totals *)
Definition accumulated (acc : Converted) (l : list ClaimOfferAtom) : Converted :=
  {| cv_sheepSend := cv_sheepSend acc + boughtIn l; cv_wheatReceived := cv_wheatReceived acc + soldIn l;
     cv_offerTrail := cv_offerTrail acc ++ l |}.

Lemma accumulated_nil acc : accumulated acc [] = acc.
Proof using. destruct acc. unfold accumulated. simpl. by rewrite !Z.add_0_r, app_nil_r. Qed.

Lemma accumulated_cons o maxW maxS x c acc l :
  traded o maxW maxS x c → accumulated (addCrossing c acc) l = accumulated acc (cr_atom c :: l).
Proof using.
  intros [_ _ _ _ _ _ T]. unfold accumulated, addCrossing. simpl. rewrite T. simpl.
  f_equal; [lia..|]. by rewrite <- app_assoc.
Qed.

Lemma convertLoop_ok n : ∀ s maxS maxW acc,
  book s → offers s < Z.of_nat n → 0 < maxS ≤ INT64_MAX → 0 < maxW ≤ INT64_MAX →
  ∃ r l s', loop_ n maxS maxW acc s = Ok ((r, accumulated acc l), s') ∧
    Converts s s' maxS maxW (cv_offerTrail acc) l r.
Proof using Type* .
  induction n as [|n IH]; intros s maxS maxW acc Hb Hn HS HW; [pose proof (offers_nonneg s); lia|].
  destruct (convertStep_ok s maxS maxW (cv_offerTrail acc) Hb HS HW) as (it & s1 & E & Hit).
  cbn [convertLoop]. step E. destruct Hit as [Es Hnone|r Es H1 H2 Hstop|k e o x c He Ho Hbuy Hsell Ht HX Hb1].
  - rewrite Es. rewrite (bind_ok loadHeader _ s (l_header s) s) by done.
    rewrite (version_lt (l_header s) (bk_version s Hb)).
    exists ePartial, [], s. rewrite accumulated_nil. split; [done|]. apply Converts_nil; [done|lia..|done].
  - rewrite Es. exists r, [], s. rewrite accumulated_nil. split; [done|]. apply Converts_nil; [done|lia..|done].
  - destruct (negb (cr_wheatStays c) && _) eqn:Emore; cbn [negb].
    + apply andb_prop in Emore as [Est Emore]. apply negb_true_iff in Est.
      apply andb_prop in Emore as [Hw Hs]. apply Z.ltb_lt in Hw, Hs.
      pose proof (td_taken _ _ _ _ _ Ht Est) as Hx. rewrite (td_result _ _ _ _ _ Ht), Hx.
      pose proof (td_wheat _ _ _ _ _ Ht). pose proof (td_sheep _ _ _ _ _ Ht).
      pose proof (taken_fewer s s1 k e o x c HX Hx He Ho).
      destruct (IH s1 (maxS - cr_sheepSend c) (maxW - cr_wheatReceived c) (addCrossing c acc))
        as (r & l & s' & E' & HC); [done|lia..|].
      exists r, (cr_atom c :: l), s'. rewrite <- (accumulated_cons o maxW maxS x) by done.
      split; [exact E'|]. by eapply Converts_cons.
    + exists eOK, [cr_atom c], s1. rewrite <- (accumulated_cons o maxW maxS x), accumulated_nil by done.
      split; [done|]. eapply Converts_cons; try done. pose proof (td_wheat _ _ _ _ _ Ht).
      pose proof (td_sheep _ _ _ _ _ Ht).
      split; simpl; try done; try lia. apply balancesChange_nil.
Qed.
End Loop.

(** ** Claims *)

(** C9: In a ledger whose liabilities match its offers, crossing an offer always
    completes when the rounding is not that of a strict send: both parties' limits are
    respected, the rounding favours the offer that stays, balances and liabilities of
    the whole ledger change by the traded amounts and the offer's reduction only, the
    offer is gone or smaller, and the liabilities match the offers again. *)
Theorem crossOfferV10_safe s k le o maxWheatReceived maxSheepSend round :
  book s → l_entries s !! k = Some le → data le = OFFER o →
  0 < maxWheatReceived ≤ INT64_MAX → 0 < maxSheepSend ≤ INT64_MAX → round ≠ PATH_PAYMENT_STRICT_SEND →
  ∃ c s' x, crossOfferV10 k maxWheatReceived maxSheepSend round s = Ok (c, s') ∧
    traded o maxWheatReceived maxSheepSend x c ∧
    changed (crossChange o x (cr_wheatReceived c) (cr_sheepSend c)) s s' ∧
    l_entries s' !! k = (if x =? 0 then None else Some (withAmount x o le)) ∧ book s'.
Proof.
  intros Hb He Hd HW HS Hr. assert (offerIn le = Some o) as Ho by (unfold offerIn; by rewrite Hd).
  destruct (crossOfferV10_book s k le o _ _ round Hb He Ho HW HS Hr) as (c & s' & x & E & Ht & HX & Hb').
  exists c, s', x. split_and!; [done..|apply HX|apply HX|done].
Qed.

(** An offer of 100 gold at two dollars each *)
Definition exampleLedger : Ltx := smallLedger (mkPrice 2 1) 100 1000.

Lemma exampleOffer_ok : offerOk (smallOffer (mkPrice 2 1) 100).
Proof. split; [split; unfold INT32_MAX; simpl; lia|simpl; unfold INT64_MAX; lia|done|by vm_compute]. Qed.

Lemma exampleLedger_book : book exampleLedger.
Proof.
  apply small_book; [apply exampleOffer_ok|].
  assert (buyLiab (smallOffer (mkPrice 2 1) 100) = 200) as -> by by vm_compute. unfold INT64_MAX. lia.
Qed.

Lemma crossOfferV10_safe_witness :
  ∃ c s' x, crossOfferV10 (KEY_OFFER 1 7) 30 1000 NORMAL exampleLedger = Ok (c, s') ∧
    traded (smallOffer (mkPrice 2 1) 100) 30 1000 x c ∧ book s'.
Proof.
  destruct (crossOfferV10_safe exampleLedger (KEY_OFFER 1 7)
    (entryOf (OFFER (smallOffer (mkPrice 2 1) 100))) (smallOffer (mkPrice 2 1) 100) 30 1000 NORMAL)
    as (c & s' & x & E & Ht & _ & _ & Hb);
    [exact exampleLedger_book|reflexivity|reflexivity|unfold INT64_MAX; lia..|discriminate|].
  exists c, s', x. exact (conj E (conj Ht Hb)).
Defined.


(** An order book that returns the first matching offer *)
Definition sells_for (sheep wheat : Asset) (kv : LedgerKey * LedgerEntry) : bool :=
  match offerIn kv.2 with
  | Some o => bool_decide (o_buying o = sheep ∧ o_selling o = wheat)
  | None => false
  end.

Definition firstOffer : OrderBook :=
  {| bestOffer := λ s sheep wheat,
       fst <$> head (List.filter (sells_for sheep wheat) (map_to_list (l_entries s))) |}.

Lemma firstOffer_laws : OrderBookLaws firstOffer.
Proof.
  split. intros s sheep wheat k H. simpl in H.
  destruct (List.filter _ _) as [|[k' e] l] eqn:E; [done|]. simpl in H. injection H as ->.
  assert (In (k, e) (List.filter (sells_for sheep wheat) (map_to_list (l_entries s)))) as Hin
    by (rewrite E; by left).
  apply filter_In in Hin as [Hin Hf]. unfold sells_for in Hf. simpl in Hf.
  destruct (offerIn e) as [o|] eqn:Eo; [|done]. apply bool_decide_eq_true in Hf as [? ?].
  exists e, o. split_and!; try done. by apply elem_of_map_to_list, list_elem_of_In.
Qed.


