(* ===== verification/SponsoredCreation.v ===== *)
(** * Creating an entry under a sponsor

    What SponsorshipUtils.cpp promises about reserves: a sponsor pays for the entry
    and can afford it, the owner of the entry does not, and removing the entry gives
    everything back. *)

From stdpp Require Import prelude list gmap.
From Stdlib Require Import ZArith Lia.
From S2P Require Import Prelude Numeric Exchange LedgerEntries Balances Sponsorship LedgerState.
From S2P Require Import CrossOffers Holders Reserves.
Local Open Scope Z_scope.

Definition addSub (acc : AccountEntry) : AccountEntry :=
  set_numSubEntries (u32 (numSubEntries acc + 1)) acc.

Definition withSponsored (d : Z) (acc : AccountEntry) : AccountEntry :=
  let v2 := prepareAccountEntryExtensionV2 acc in
  set_extV2 {| numSponsored := u32 (numSponsored v2 + d); numSponsoring := numSponsoring v2;
               signerSponsoringIDs := signerSponsoringIDs v2 |} acc.

Definition withSponsoring (d : Z) (acc : AccountEntry) : AccountEntry :=
  let v2 := prepareAccountEntryExtensionV2 acc in
  set_extV2 {| numSponsored := numSponsored v2; numSponsoring := u32 (numSponsoring v2 + d);
               signerSponsoringIDs := signerSponsoringIDs v2 |} acc.

(** The extension V2 of an account without one counts nothing. *)
Lemma prepareV2_sponsored acc : numSponsored (prepareAccountEntryExtensionV2 acc) = sponsored (countersOf acc).
Proof.
  unfold prepareAccountEntryExtensionV2, prepareAccountEntryExtensionV1, sponsored, countersOf, accountExtV2.
  simpl. destruct (a_extV1 acc) as [v1|]; [|done]. by destruct (a_extV2 v1).
Qed.

Lemma prepareV2_sponsoring acc : numSponsoring (prepareAccountEntryExtensionV2 acc) = sponsoring (countersOf acc).
Proof.
  unfold prepareAccountEntryExtensionV2, prepareAccountEntryExtensionV1, sponsoring, countersOf, accountExtV2.
  simpl. destruct (a_extV1 acc) as [v1|]; [|done]. by destruct (a_extV2 v1).
Qed.

(** The liabilities are those before, in a new extension if there was none. *)
Lemma set_extV2_liabilitiesOf v2 acc e :
  data e = ACCOUNT acc → liabilitiesOf (setAccount (set_extV2 v2 acc) e) = liabilitiesOf e.
Proof.
  intros Hd. unfold liabilitiesOf. rewrite Hd. simpl. unfold prepareAccountEntryExtensionV1.
  by destruct (a_extV1 acc).
Qed.

Lemma holds_account_inv h e acc x :
  holds h e x → data e = ACCOUNT acc →
  ∃ l, liabilitiesOf e = Some l ∧ hd_balance x = a_balance acc ∧ hd_buying x = buying l ∧
    hd_selling x = selling l ∧ hd_limit x = INT64_MAX.
Proof. intros [acc0 l m Hd Hl _|tl l Hd] Ha; rewrite Ha in Hd; [injection Hd as <-; by exists l|done]. Qed.

Record counts (c : Counters) (sub sing sed : Z) : Prop := {
  cs_sub : c_subEntries c = sub;
  cs_sponsoring : sponsoring c = sing;
  cs_sponsored : sponsored c = sed
}.

Section Create.
Context (h : LedgerHeader) (le sp owner : LedgerEntry) (spAcc ownerAcc : AccountEntry) (x : Holding).
Hypothesis Hv : 14 ≤ ledgerVersion h.
Hypothesis Hres : baseReserve h ≤ UINT32_MAX.
Hypothesis Hsub : isSubentry le = true.
Hypothesis Hsp : data sp = ACCOUNT spAcc.
Hypothesis How : data owner = ACCOUNT ownerAcc.
Hypothesis Hcs : countersOk h (countersOf spAcc).
Hypothesis Hco : countersOk h (countersOf ownerAcc).
Hypothesis Hx : holds h sp x.
Hypothesis Hxok : holdingOk x.

Lemma subentry_multiplier : computeMultiplier le = 1.
Proof using Hsub. unfold isSubentry, computeMultiplier in *. by destruct (data le). Qed.

(** What a successful check has checked. *)
Lemma canCreate_success :
  canCreateEntryWithSponsorship h le sp (Some owner) = Ok SUCCESS →
  sponsoringIDOf le = None ∧ baseReserve h ≤ sendable x ∧ numSubEntries ownerAcc < 1000 ∧
  sponsoring (countersOf spAcc) < UINT32_MAX ∧ sponsored (countersOf ownerAcc) < UINT32_MAX.
Proof using Hv Hres Hsub Hsp How Hcs Hx Hxok.
  unfold canCreateEntryWithSponsorship, canEstablishEntrySponsorship, canEstablishSponsorshipHelper,
    fromVersion14, getNumSponsoring, getNumSponsored, accountOf, ACCOUNT_SUBENTRY_LIMIT.
  destruct (Z.ltb_spec (ledgerVersion h) 14); [lia|].
  rewrite Hsub, How, Hsp, subentry_multiplier. cbn [obind].
  destruct (Z.leb_spec 1000 (numSubEntries ownerAcc)); [done|].
  destruct (sponsoringIDOf le); [done|].
  rewrite (getAvailableBalance_eq h sp x) by (try done; lia). cbn [obind].
  destruct Hcs as (_ & _ & _ & Hr & He & Hm & _).
  rewrite s64_small by word.
  destruct (Z.ltb_spec (sendable x) (1 * baseReserve h)); [done|].
  change (match accountExtV2 spAcc with Some v2 => numSponsoring v2 | None => 0 end)
    with (sponsoring (countersOf spAcc)).
  change (match accountExtV2 ownerAcc with Some v2 => numSponsored v2 | None => 0 end)
    with (sponsored (countersOf ownerAcc)).
  change (u32 (UINT32_MAX - 1)) with (UINT32_MAX - 1).
  destruct (Z.ltb_spec (UINT32_MAX - 1) (sponsoring (countersOf spAcc))); [done|].
  destruct (Z.ltb_spec (UINT32_MAX - 1) (sponsored (countersOf ownerAcc))); [done|]. intros _.
  split_and!; try done; try lia.
Qed.

Definition reserved : Holding :=
  {| hd_balance := hd_balance x; hd_buying := hd_buying x; hd_selling := hd_selling x;
     hd_floor := hd_floor x + baseReserve h; hd_limit := hd_limit x |}.

Lemma floor_effective : hd_floor x = effective (countersOf spAcc) * baseReserve h.
Proof using Hv Hsp Hcs Hx.
  clear Hxok. destruct Hx as [acc l m Hd Hl Hm|tl l Hd]; [|congruence]. rewrite Hsp in Hd.
  injection Hd as <-. rewrite getMinBalance_eq in Hm by (try done; lia). by injection Hm as <-.
Qed.

Lemma withSponsoring_counts :
  sponsoring (countersOf spAcc) < UINT32_MAX →
  counts (countersOf (withSponsoring 1 spAcc)) (numSubEntries spAcc) (sponsoring (countersOf spAcc) + 1)
    (sponsored (countersOf spAcc)).
Proof using Hcs.
  intros Hlt. destruct Hcs as (_ & Hs & _).
  split; [done| |].
  - change (u32 (numSponsoring (prepareAccountEntryExtensionV2 spAcc) + 1) = sponsoring (countersOf spAcc) + 1).
    rewrite prepareV2_sponsoring, u32_small by word. done.
  - exact (prepareV2_sponsored spAcc).
Qed.

Lemma withSponsored_counts :
  numSubEntries ownerAcc < 1000 → sponsored (countersOf ownerAcc) < UINT32_MAX →
  counts (countersOf (withSponsored 1 (addSub ownerAcc))) (numSubEntries ownerAcc + 1)
    (sponsoring (countersOf ownerAcc)) (sponsored (countersOf ownerAcc) + 1).
Proof using Hco.
  intros Hlt Hlt'. destruct Hco as (Hn & _ & Hs & _). cbn [countersOf c_subEntries] in Hn.
  split.
  - unfold withSponsored, addSub. simpl. by rewrite u32_small by word.
  - exact (prepareV2_sponsoring (addSub ownerAcc)).
  - change (u32 (numSponsored (prepareAccountEntryExtensionV2 (addSub ownerAcc)) + 1) =
            sponsored (countersOf ownerAcc) + 1).
    rewrite (prepareV2_sponsored (addSub ownerAcc)).
    change (sponsored (countersOf (addSub ownerAcc))) with (sponsored (countersOf ownerAcc)).
    by rewrite u32_small by word.
Qed.

Notation sp' := (setAccount (withSponsoring 1 spAcc) sp).
Notation owner' := (setAccount (withSponsored 1 (addSub ownerAcc)) owner).
Notation le' := (set_le_ext (Some (Some (a_accountID spAcc))) le).

Lemma create_eq : createEntryWithSponsorship le sp (Some (SponsoredAccount owner)) =
  Ok (le', sp', Some (SponsoredAccount owner')).
Proof using Hsub Hsp How.
  unfold createEntryWithSponsorship, createEntryWithoutSponsorship. rewrite Hsub.
  unfold updateSponsored, accountOf. rewrite How. cbn [obind addNumSubEntries fst snd].
  unfold establishEntrySponsorship, updateAccount, accountOf. rewrite Hsp, subentry_multiplier.
  by cbn [obind addNumSponsoring].
Qed.

Lemma sponsor_pays :
  baseReserve h ≤ sendable x → sponsoring (countersOf spAcc) < UINT32_MAX →
  holds h sp' reserved ∧ holdingOk reserved ∧ sendable reserved = sendable x - baseReserve h.
Proof using Hv Hsp Hcs Hx Hxok.
  intros Hr Hlt. pose proof (withSponsoring_counts Hlt) as [C1 C2 C3]. pose proof floor_effective as Hf.
  pose proof Hcs as (H1 & H2 & H3 & H4 & H5 & H6 & H7).
  assert (effective (countersOf (withSponsoring 1 spAcc)) = effective (countersOf spAcc) + 1) as Eeff.
  { unfold effective. rewrite C1, C2, C3. simpl. lia. }
  assert (hd_floor x + baseReserve h ≤ INT64_MAX) as Hmax by (clear -Hxok Hr H4; holding; lia).
  split; [|split; [clear -Hxok Hmax H4; unfold reserved; holding; lia|unfold reserved, sendable; simpl; lia]].
  assert (getMinBalance h (withSponsoring 1 spAcc) = Ok (hd_floor x + baseReserve h)) as Em.
  { rewrite getMinBalance_eq; [rewrite Eeff, Hf; f_equal; lia|lia|]. unfold countersOk.
    rewrite C1, C2, C3, Eeff, Z.mul_add_distr_r, <- Hf. split_and!; try done; try lia; apply H1. }
  destruct (holds_account_inv h sp spAcc x Hx Hsp) as (l & Hl & B1 & B2 & B3 & B4).
  assert (reserved = {| hd_balance := a_balance (withSponsoring 1 spAcc); hd_buying := buying l;
    hd_selling := selling l; hd_floor := hd_floor x + baseReserve h; hd_limit := INT64_MAX |}) as ->.
  { unfold reserved. by rewrite B1, B2, B3, B4. }
  refine (holds_account h sp' (withSponsoring 1 spAcc) l _ eq_refl _ Em).
  rewrite <- Hl. by apply set_extV2_liabilitiesOf.
Qed.

Lemma owner_pays_nothing :
  numSubEntries ownerAcc < 1000 → sponsored (countersOf ownerAcc) < UINT32_MAX →
  getMinBalance h (withSponsored 1 (addSub ownerAcc)) = getMinBalance h ownerAcc.
Proof using Hv Hco.
  intros Hlt Hlt'. pose proof (withSponsored_counts Hlt Hlt') as [C1 C2 C3].
  pose proof Hco as (H1 & H2 & H3 & H4 & H5 & H6 & H7).
  assert (effective (countersOf (withSponsored 1 (addSub ownerAcc))) = effective (countersOf ownerAcc)) as Eeff.
  { unfold effective. rewrite C1, C2, C3. simpl. lia. }
  rewrite !getMinBalance_eq; [by rewrite Eeff|lia|done|lia|]. unfold countersOk.
  rewrite C1, C2, C3, Eeff. cbn [countersOf c_subEntries] in H1. unfold UINT32_MAX in *.
  split_and!; try done; lia.
Qed.

Lemma remove_eq :
  removeEntryWithSponsorship le' sp' (Some (SponsoredAccount owner')) =
    Ok (set_le_ext (Some None) le, setAccount (dropSponsoring (prepareAccountEntryExtensionV2 (withSponsoring 1 spAcc))
          (withSponsoring 1 spAcc)) sp,
        Some (SponsoredAccount (setAccount (dropSponsored (prepareAccountEntryExtensionV2 (withSponsored 1 (addSub ownerAcc)))
          (dropSub (withSponsored 1 (addSub ownerAcc)))) owner))).
Proof using Hsub Hsp How.
  unfold removeEntryWithSponsorship, removeEntryWithoutSponsorship.
  assert (isAccount le' = false) as ->.
  { unfold isSubentry in Hsub. unfold isAccount. simpl. by destruct (data le). }
  unfold updateSponsored, accountOf. cbn [data setAccount set_data obind addNumSubEntries fst snd].
  unfold removeEntrySponsorship, getSponsoringID, accountIsSponsor, accountOf.
  cbn [le_ext set_le_ext obind data setAccount set_data]. 
  change (a_accountID (withSponsoring 1 spAcc)) with (a_accountID spAcc). rewrite Z.eqb_refl. cbn [obind].
  unfold updateAccount, accountOf. cbn [data setAccount set_data obind].
  change (computeMultiplier (set_le_ext (Some None) le')) with (computeMultiplier le).
  rewrite subentry_multiplier. reflexivity.
Qed.

Lemma sponsor_restored :
  sponsoring (countersOf spAcc) < UINT32_MAX →
  counts (countersOf (dropSponsoring (prepareAccountEntryExtensionV2 (withSponsoring 1 spAcc))
                        (withSponsoring 1 spAcc)))
    (numSubEntries spAcc) (sponsoring (countersOf spAcc)) (sponsored (countersOf spAcc)).
Proof using Hcs.
  intros Hlt. pose proof (withSponsoring_counts Hlt) as [C1 C2 C3]. destruct Hcs as (_ & Hs & _).
  rewrite <- prepareV2_sponsoring in C2. rewrite <- prepareV2_sponsored in C3.
  set (acc := withSponsoring 1 spAcc) in *. split; [done| |exact C3].
  change (u32 (numSponsoring (prepareAccountEntryExtensionV2 acc) - 1) = sponsoring (countersOf spAcc)).
  rewrite C2, u32_small by word. lia.
Qed.

Lemma owner_restored :
  numSubEntries ownerAcc < 1000 → sponsored (countersOf ownerAcc) < UINT32_MAX →
  counts (countersOf (dropSponsored (prepareAccountEntryExtensionV2 (withSponsored 1 (addSub ownerAcc)))
                        (dropSub (withSponsored 1 (addSub ownerAcc)))))
    (numSubEntries ownerAcc) (sponsoring (countersOf ownerAcc)) (sponsored (countersOf ownerAcc)).
Proof using Hco.
  intros Hlt Hlt'. pose proof (withSponsored_counts Hlt Hlt') as [C1 C2 C3].
  destruct Hco as (Hn & _ & Hs & _). cbn [countersOf c_subEntries] in Hn.
  rewrite <- prepareV2_sponsoring in C2. rewrite <- prepareV2_sponsored in C3.
  set (acc := withSponsored 1 (addSub ownerAcc)) in *. cbn [countersOf c_subEntries] in C1.
  split; [|exact C2|].
  - change (u32 (numSubEntries acc + -1) = numSubEntries ownerAcc). rewrite C1, u32_small by word. lia.
  - change (u32 (numSponsored (prepareAccountEntryExtensionV2 acc) - 1) = sponsored (countersOf ownerAcc)).
    rewrite C3, u32_small by word. lia.
Qed.
End Create.

(** C34: When the check for a sponsored subentry succeeds, the entry is created under
    the sponsor, whose available balance drops by exactly one base reserve and stays
    non-negative, while the minimum balance of the owner does not change; removing the
    entry again succeeds and restores the counters of both accounts. *)
Theorem sponsored_creation h le sp owner spAcc ownerAcc x :
  14 ≤ ledgerVersion h → baseReserve h ≤ UINT32_MAX → isSubentry le = true →
  data sp = ACCOUNT spAcc → data owner = ACCOUNT ownerAcc →
  countersOk h (countersOf spAcc) → countersOk h (countersOf ownerAcc) → holds h sp x → holdingOk x →
  canCreateEntryWithSponsorship h le sp (Some owner) = Ok SUCCESS →
  ∃ le1 sp1 owner1 ownerAcc1 avail,
    createEntryWithSponsorship le sp (Some (SponsoredAccount owner)) =
      Ok (le1, sp1, Some (SponsoredAccount owner1)) ∧
    sponsoringIDOf le1 = Some (a_accountID spAcc) ∧
    getAvailableBalance h sp = Ok avail ∧ getAvailableBalance h sp1 = Ok (avail - baseReserve h) ∧
    0 ≤ avail - baseReserve h ∧
    data owner1 = ACCOUNT ownerAcc1 ∧ getMinBalance h ownerAcc1 = getMinBalance h ownerAcc ∧
    ∃ le2 sp2 owner2 c c',
      removeEntryWithSponsorship le1 sp1 (Some (SponsoredAccount owner1)) =
        Ok (le2, sp2, Some (SponsoredAccount owner2)) ∧ sponsoringIDOf le2 = None ∧
      accountIn sp2 = Some c ∧ accountIn owner2 = Some c' ∧
      counts c (numSubEntries spAcc) (sponsoring (countersOf spAcc)) (sponsored (countersOf spAcc)) ∧
      counts c' (numSubEntries ownerAcc) (sponsoring (countersOf ownerAcc)) (sponsored (countersOf ownerAcc)).
Proof.
  intros Hv Hres Hsub Hsp How Hcs Hco Hx Hxok Hcan.
  destruct (canCreate_success h le sp owner spAcc ownerAcc x Hv Hres Hsub Hsp How Hcs Hx Hxok Hcan)
    as (Hns & Hr & Hlt & Hl1 & Hl2).
  destruct (sponsor_pays h sp spAcc x Hv Hsp Hcs Hx Hxok Hr Hl1) as (Hx' & Hxok' & Es).
  eexists _, _, _, _, (sendable x). split; [by apply create_eq|]. split; [done|].
  split; [apply getAvailableBalance_eq; try done; lia|]. split.
  { rewrite <- Es. apply getAvailableBalance_eq; try done; lia. }
  split; [lia|]. split; [done|]. split; [by apply owner_pays_nothing|].
  eexists _, _, _, _, _. split; [by apply remove_eq|]. split; [done|]. split; [done|]. split; [done|].
  split; [by eapply sponsor_restored|by eapply owner_restored].
Qed.

Definition exampleHeader : LedgerHeader :=
  {| ledgerVersion := 15; ledgerSeq := 100; closeTime := 1000; totalCoins := 1000000; feePool := 0;
     inflationSeq := 0; idPool := 7; baseFee := 100; baseReserve := 5;
     maxTxSetSize := 100; previousLedgerHash := 0; bucketListHash := 0; skipList := [0; 0; 0; 0] |}.

Definition exampleAccount (id : AccountID) : AccountEntry :=
  {| a_accountID := id; a_balance := 100; seqNum := 1; numSubEntries := 1; inflationDest := None;
     a_flags := 0; homeDomain := []; thresholds := []; signers := []; a_extV1 := None |}.

Definition exampleEntry (d : LedgerEntryData) : LedgerEntry :=
  {| lastModifiedLedgerSeq := 99; data := d; le_ext := None |}.

Lemma sponsored_creation_witness :
  ∃ le1 sp1 owner1,
    createEntryWithSponsorship
      (exampleEntry (DATA {| d_accountID := 1; dataName := [110]; dataValue := [1] |}))
      (exampleEntry (ACCOUNT (exampleAccount 2)))
      (Some (SponsoredAccount (exampleEntry (ACCOUNT (exampleAccount 1))))) =
      Ok (le1, sp1, Some (SponsoredAccount owner1)) ∧
    getAvailableBalance exampleHeader sp1 = Ok 80.
Proof.
  assert (∀ i, countersOk exampleHeader (countersOf (exampleAccount i))) as Hc
    by (intros i; unfold countersOk; by vm_compute).
  destruct (sponsored_creation exampleHeader
    (exampleEntry (DATA {| d_accountID := 1; dataName := [110]; dataValue := [1] |}))
    (exampleEntry (ACCOUNT (exampleAccount 2))) (exampleEntry (ACCOUNT (exampleAccount 1)))
    (exampleAccount 2) (exampleAccount 1)
    {| hd_balance := 100; hd_buying := 0; hd_selling := 0; hd_floor := 15; hd_limit := INT64_MAX |})
    as (le1 & sp1 & owner1 & oa & avail & H1 & _ & H2 & H3 & _);
    [done|done|reflexivity|reflexivity|reflexivity|apply Hc|apply Hc| | |reflexivity|].
  - by refine (holds_account _ _ (exampleAccount 2) {| buying := 0; selling := 0 |} 15 _ _ _).
  - holding. unfold INT64_MAX. lia.
  - exists le1, sp1, owner1. split; [exact H1|]. rewrite H3. f_equal.
    assert (getAvailableBalance exampleHeader (exampleEntry (ACCOUNT (exampleAccount 2))) = Ok 85) as E
      by (vm_compute; reflexivity).
    rewrite E in H2. injection H2 as <-. reflexivity.
Defined.
