(* ===== verification/QuorumIntersection.v ===== *)
(** * Checking quorum intersection (src/herder/QuorumIntersectionCheckerImpl.cpp)

    The safety of a network rests on any two of its quorums having a node in common.
    The checker numbers the nodes whose quorum set is known, finds the strongly
    connected components of their dependency graph with Tarjan's algorithm, and
    searches the one component that has a quorum for a minimal quorum with a disjoint
    one.

    A [BitSet] (src/util/BitSet.h) is the ascending list of its bits, which is the
    order of [nextSet].  The cache of [isAQuorum] holds results of that function, the
    statistics and the interruption flag are left out, and the random choice of
    [pickSplitNode] is an oracle. *)

From stdpp Require Import prelude list.
From Stdlib Require Import ZArith Lia.
From S2P Require Import Prelude QuorumSet.
Local Open Scope Z_scope.

(** ** Bit sets *)

Notation BitSet := (list Z).

Definition bs_set (i : Z) (s : BitSet) : BitSet := set_insert Zcmp i s.
Definition bs_unset (i : Z) (s : BitSet) : BitSet := filter (λ j, j ≠ i) s.
Definition bs_get (s : BitSet) (i : Z) : bool := bool_decide (i ∈ s).
Definition bs_count (s : BitSet) : Z := Z.of_nat (length s).
Definition bs_empty (s : BitSet) : bool := match s with [] => true | _ => false end.
Definition bs_union (a b : BitSet) : BitSet := set_inserts Zcmp b a.
Definition bs_inter (a b : BitSet) : BitSet := filter (λ i, i ∈ b) a.
Definition bs_diff (a b : BitSet) : BitSet := filter (λ i, i ∉ b) a.
Definition bs_interCount (a b : BitSet) : Z := bs_count (bs_inter a b).
Definition bs_subsetEq (a b : BitSet) : bool := forallb (λ i, bool_decide (i ∈ b)) a.

(** ** The graph *)

Inductive QBitSet : Type :=
  mkQBitSet (mThreshold : Z) (mNodes : BitSet) (mInnerSets : list QBitSet) (mAllSuccessors : BitSet).

Definition mThreshold (q : QBitSet) : Z := let 'mkQBitSet t _ _ _ := q in t.
Definition mNodes (q : QBitSet) : BitSet := let 'mkQBitSet _ n _ _ := q in n.
Definition mInnerSets (q : QBitSet) : list QBitSet := let 'mkQBitSet _ _ i _ := q in i.
Definition mAllSuccessors (q : QBitSet) : BitSet := let 'mkQBitSet _ _ _ s := q in s.

Notation QGraph := (list QBitSet).

Definition getSuccessors (nodes : BitSet) (inner : QGraph) : BitSet :=
  foldl (λ out i, bs_union out (mAllSuccessors i)) nodes inner.

Definition QBitSet_new (threshold : Z) (nodes : BitSet) (innerSets : QGraph) : QBitSet :=
  mkQBitSet threshold nodes innerSets (getSuccessors nodes innerSets).

(** [QuorumTracker::QuorumMap], in the order it is iterated *)
Notation QuorumMap := (list (NodeID * option SCPQuorumSet)).

(** [assert] and the exceptions of [at] *)
Inductive QicError : Type :=
| QicAssertionFailed
| OutOfRange
| EmptyStack
| MissingNode
| InvalidRealloc
| OutOfFuel.

(** [set] on a set that was empty and inline and to which bits were only added: the
    inline word is enough up to bit 63, a bit above 64 moves the set out of line, and
    bit 64 of an inline set reallocates memory that was not allocated ([BitSets]). *)
Definition bs_add (i : Z) (s : BitSet) : outcome QicError BitSet :=
  if (i =? 64) && forallb (λ j, j <? 64) s then Fail InvalidRealloc else Ok (bs_set i s).

Fixpoint findBit (v : NodeID) (mPubKeyBitNums : list (NodeID * Z)) : option Z :=
  match mPubKeyBitNums with
  | [] => None
  | (k, i) :: l => if k =? v then Some i else findBit v l
  end.

Fixpoint convertSCPQuorumSet (mPubKeyBitNums : list (NodeID * Z)) (sqs : SCPQuorumSet) : QBitSet :=
  let 'QSet threshold validators innerSets := sqs in
  let nodeBits :=
    foldl (λ nodeBits v,
      match findBit v mPubKeyBitNums with
      | None => nodeBits (* a node without a quorum set is never in a quorum *)
      | Some i => bs_set i nodeBits
      end) [] validators in
  QBitSet_new threshold nodeBits (map (convertSCPQuorumSet mPubKeyBitNums) innerSets).

Record Checker : Type := {
  mBitNumPubKeys : list NodeID;
  mPubKeyBitNums : list (NodeID * Z);
  mGraph : QGraph
}.

(** The first loop of [buildGraph] numbers the nodes. *)
Definition numberNodes (qmap : QuorumMap) : list NodeID * list (NodeID * Z) :=
  foldl (λ '(keys, nums) pair,
    match pair.2 with
    | Some _ => (keys ++ [pair.1], nums ++ [(pair.1, Z.of_nat (length keys))])
    | None => (keys, nums)
    end) ([], []) qmap.

(** The second loop converts the quorum sets. *)
Fixpoint convertAll (mPubKeyBitNums : list (NodeID * Z)) (qmap : QuorumMap) (mGraph : QGraph)
  : outcome QicError QGraph :=
  match qmap with
  | [] => Ok mGraph
  | (n, Some qs) :: qmap =>
      match findBit n mPubKeyBitNums with
      | Some nodeNum =>
          if nodeNum =? Z.of_nat (length mGraph)
          then convertAll mPubKeyBitNums qmap (mGraph ++ [convertSCPQuorumSet mPubKeyBitNums qs])
          else Fail QicAssertionFailed
      | None => Fail QicAssertionFailed
      end
  | (_, None) :: qmap => convertAll mPubKeyBitNums qmap mGraph
  end.

Definition buildGraph (qmap : QuorumMap) : outcome QicError Checker :=
  let '(keys, nums) := numberNodes qmap in
  let? graph := convertAll nums qmap [] in
  Ok {| mBitNumPubKeys := keys; mPubKeyBitNums := nums; mGraph := graph |}.

(** [v.at(i)] *)
Definition at_ {A} (l : list A) (i : Z) : outcome QicError A :=
  match (if i <? 0 then None else l !! Z.to_nat i) with Some x => Ok x | None => Fail OutOfRange end.

(** ** Tarjan's algorithm *)

Record SCCNode : Type := { mIndex : Z; mLowLink : Z; mOnStack : bool }.

(** [mStack] has its back first. *)
Record TarjanSCCCalculator : Type := {
  mSCCNodes : list SCCNode;
  mStack : list Z;
  mNextIndex : Z;
  mSCCs : list BitSet
}.

Definition setNode (i : Z) (v : SCCNode) (nodes : list SCCNode) : list SCCNode :=
  <[Z.to_nat i := v]> nodes.

Definition set_mSCCNodes (x : list SCCNode) (t : TarjanSCCCalculator) : TarjanSCCCalculator :=
  {| mSCCNodes := x; mStack := mStack t; mNextIndex := mNextIndex t; mSCCs := mSCCs t |}.

Definition setLowLink (i : Z) (x : Z) (v : SCCNode) (t : TarjanSCCCalculator) : TarjanSCCCalculator :=
  set_mSCCNodes (setNode i {| mIndex := mIndex v; mLowLink := x; mOnStack := mOnStack v |} (mSCCNodes t)) t.

(** The first lines of [scc]: the node is numbered and pushed. *)
Definition visit (i : Z) (t : TarjanSCCCalculator) : TarjanSCCCalculator :=
  {| mSCCNodes := setNode i {| mIndex := mNextIndex t; mLowLink := mNextIndex t; mOnStack := true |}
                    (mSCCNodes t);
     mStack := i :: mStack t;
     mNextIndex := mNextIndex t + 1;
     mSCCs := mSCCs t |}.

(** The loop over the successors of [i], with the recursive call as an argument. *)
Fixpoint sccEdges (scc : Z → TarjanSCCCalculator → outcome QicError TarjanSCCCalculator) (i : Z)
  (succ : BitSet) (t : TarjanSCCCalculator) : outcome QicError TarjanSCCCalculator :=
  match succ with
  | [] => Ok t
  | j :: succ =>
      let? w := at_ (mSCCNodes t) j in
      let? t :=
        (if mIndex w =? -1 then
           let? t := scc j t in
           let? v := at_ (mSCCNodes t) i in
           let? w := at_ (mSCCNodes t) j in
           Ok (setLowLink i (Z.min (mLowLink v) (mLowLink w)) v t)
         else if mOnStack w then
           let? v := at_ (mSCCNodes t) i in
           Ok (setLowLink i (Z.min (mLowLink v) (mIndex w)) v t)
         else Ok t) in
      sccEdges scc i succ t
  end.

(** The do-while loop that pops a component. *)
Fixpoint popComponent (i : Z) (stack : list Z) (newScc : BitSet) (nodes : list SCCNode)
  : outcome QicError (list Z * BitSet * list SCCNode) :=
  match stack with
  | [] => Fail EmptyStack
  | j :: stack =>
      let? newScc := bs_add j newScc in
      let? w := at_ nodes j in
      let nodes := setNode j {| mIndex := mIndex w; mLowLink := mLowLink w; mOnStack := false |} nodes in
      if j =? i then Ok (stack, newScc, nodes) else popComponent i stack newScc nodes
  end.

(** The depth of the recursion is bounded by the number of nodes not yet visited. *)
Fixpoint scc (graph : QGraph) (fuel : nat) (i : Z) (t : TarjanSCCCalculator)
  : outcome QicError TarjanSCCCalculator :=
  match fuel with
  | O => Fail OutOfFuel
  | S fuel =>
      let? _ := at_ (mSCCNodes t) i in
      let t := visit i t in
      let? q := at_ graph i in
      let? t := sccEdges (scc graph fuel) i (mAllSuccessors q) t in
      let? v := at_ (mSCCNodes t) i in
      if mLowLink v =? mIndex v then
        let? newScc := bs_add i [] in
        let? r := popComponent i (mStack t) newScc (mSCCNodes t) in
        let '(stack, newScc, nodes) := r in
        Ok {| mSCCNodes := nodes; mStack := stack; mNextIndex := mNextIndex t;
              mSCCs := mSCCs t ++ [newScc] |}
      else Ok t
  end.

(** [for (size_t i = 0; i < mGraph.size(); ++i)] *)
Fixpoint sccRoots (graph : QGraph) (l : list nat) (t : TarjanSCCCalculator)
  : outcome QicError TarjanSCCCalculator :=
  match l with
  | [] => Ok t
  | i :: l =>
      let? v := at_ (mSCCNodes t) (Z.of_nat i) in
      let? t := (if mIndex v =? -1 then scc graph (S (length graph)) (Z.of_nat i) t else Ok t) in
      sccRoots graph l t
  end.

Definition calculateSCCs (graph : QGraph) : outcome QicError TarjanSCCCalculator :=
  sccRoots graph (seq 0 (length graph))
    {| mSCCNodes := replicate (length graph) {| mIndex := -1; mLowLink := -1; mOnStack := false |};
       mStack := []; mNextIndex := 0; mSCCs := [] |}.

(** ** Slices and quorums *)

Definition sliceLoop (contains : QBitSet → bool) :=
  fix go (inner : QGraph) (innerThreshold innerFailLimit : Z) : bool :=
    match inner with
    | [] => false
    | q :: inner =>
        if contains q then
          let innerThreshold := innerThreshold - 1 in
          if innerThreshold =? 0 then true else go inner innerThreshold innerFailLimit
        else
          let innerFailLimit := innerFailLimit - 1 in
          if innerFailLimit =? 0 then false else go inner innerThreshold innerFailLimit
    end.

Fixpoint containsQuorumSlice (bs : BitSet) (qbs : QBitSet) : bool :=
  let 'mkQBitSet threshold nodes innerSets allSuccessors := qbs in
  let intersecting := bs_interCount bs nodes in
  if threshold <=? intersecting then true
  else
    let innerThreshold := threshold - intersecting in
    if Z.of_nat (length innerSets) <? innerThreshold then false
    else if bs_interCount bs allSuccessors <? threshold then false
    else sliceLoop (containsQuorumSlice bs) innerSets innerThreshold
           (Z.of_nat (length innerSets) - innerThreshold + 1).

Section Checker.
Context (graph : QGraph).

Definition containsQuorumSliceForNode (bs : BitSet) (node : Z) : outcome QicError bool :=
  if negb (bs_get bs node) then Ok false
  else let? q := at_ graph node in Ok (containsQuorumSlice bs q).

(** One pass over the nodes: [filtered] shrinks while it is consulted. *)
Fixpoint contractPass (nodes : BitSet) (filtered : BitSet) : outcome QicError BitSet :=
  match nodes with
  | [] => Ok filtered
  | i :: nodes =>
      let? b := containsQuorumSliceForNode filtered i in
      contractPass nodes (if b then filtered else bs_unset i filtered)
  end.

Fixpoint contractLoop (fuel : nat) (nodes : BitSet) : outcome QicError BitSet :=
  match fuel with
  | O => Fail OutOfFuel
  | S fuel =>
      let? filtered := contractPass nodes nodes in
      if (bs_count filtered =? bs_count nodes) || bs_empty filtered then Ok filtered
      else contractLoop fuel filtered
  end.

(** Every pass but the last removes a node. *)
Definition contractToMaximalQuorum (nodes : BitSet) : outcome QicError BitSet :=
  contractLoop (S (length nodes)) nodes.

Definition isAQuorum (nodes : BitSet) : outcome QicError bool :=
  let? q := contractToMaximalQuorum nodes in Ok (negb (bs_empty q)).

Fixpoint minimalLoop (l : BitSet) (minQ : BitSet) : outcome QicError bool :=
  match l with
  | [] => Ok true
  | i :: l =>
      let minQ := bs_unset i minQ in
      let? b := isAQuorum minQ in
      if b then Ok false else minimalLoop l (bs_set i minQ)
  end.

Definition isMinimalQuorum (nodes : BitSet) : outcome QicError bool :=
  let? q := contractToMaximalQuorum nodes in
  if negb (bool_decide (q = nodes)) then Fail QicAssertionFailed
  else if bs_empty nodes then Ok false
  else minimalLoop nodes nodes.

(** ** The search *)

(** The state of the loops of [pickSplitNode]; [calls] counts the random numbers. *)
Record Split : Type := {
  inDegrees : list Z;
  maxNode : Z;
  maxCount : Z;
  maxDegree : Z;
  calls : nat
}.

Fixpoint splitInner (rand : nat → Z) (avail : BitSet) (x : Split) : outcome QicError Split :=
  match avail with
  | [] => Ok x
  | j :: avail =>
      let? d := at_ (inDegrees x) j in
      let currDegree := d + 1 in
      let degrees := <[Z.to_nat j := currDegree]> (inDegrees x) in
      let keep c n := {| inDegrees := degrees; maxNode := maxNode x; maxCount := c;
                         maxDegree := maxDegree x; calls := n |} in
      let switch c n := {| inDegrees := degrees; maxNode := j; maxCount := c;
                           maxDegree := currDegree; calls := n |} in
      splitInner rand avail
        (if maxDegree x <=? currDegree then
           if currDegree =? maxDegree x then
             (* replace it only probabilistically *)
             if rand (calls x) =? 0 then keep (maxCount x + 1) (S (calls x))
             else switch (maxCount x + 1) (S (calls x))
           else switch 1 (calls x)
         else keep (maxCount x) (calls x))
  end.

Fixpoint splitOuter (rand : nat → Z) (remaining l : BitSet) (x : Split) : outcome QicError Split :=
  match l with
  | [] => Ok x
  | i :: l =>
      let? q := at_ graph i in
      let? x := splitInner rand (bs_inter (mAllSuccessors q) remaining) x in
      splitOuter rand remaining l x
  end.

(** [rand] gives the values of [rand_uniform(0, maxCount)], one after the other. *)
Definition pickSplitNode (rand : nat → Z) (mRemaining : BitSet) : outcome QicError Z :=
  match last mRemaining with
  | None => Fail QicAssertionFailed
  | Some max =>
      let? x := splitOuter rand mRemaining mRemaining
                  {| inDegrees := replicate (length graph) 0; maxNode := max; maxCount := 1;
                     maxDegree := 0; calls := 0 |} in
      Ok (maxNode x)
  end.

(** The pair noted by [noteFoundDisjointQuorums], when there is one. *)
Definition hasDisjointQuorum (mScanSCC nodes : BitSet) : outcome QicError (option (BitSet * BitSet)) :=
  let? disj := contractToMaximalQuorum (bs_diff mScanSCC nodes) in
  Ok (if negb (bs_empty disj) then Some (nodes, disj) else None).

Definition maxCommit (mScanSCC : BitSet) : Z := bs_count mScanSCC `div` 2.

(** The search is at most once at a pair of sets, which therefore indexes the oracle.
    Every call removes a node from [mRemaining]. *)
Fixpoint anyMinQuorumHasDisjointQuorum (rand : BitSet → BitSet → nat → Z) (fuel : nat)
  (mCommitted mRemaining mScanSCC : BitSet) : outcome QicError (option (BitSet * BitSet)) :=
  match fuel with
  | O => Fail OutOfFuel
  | S fuel =>
      (* first early exit: more than half of the component is committed *)
      if maxCommit mScanSCC <? bs_count mCommitted then Ok None
      else
        let? committedQuorum := contractToMaximalQuorum mCommitted in
        if negb (bs_empty committedQuorum) then
          (* third early exit: no extension of a quorum is minimal *)
          let? b := isMinimalQuorum committedQuorum in
          if b then hasDisjointQuorum mScanSCC committedQuorum else Ok None
        else
          (* second early exit: no quorum extends the committed set *)
          let? extensionQuorum := contractToMaximalQuorum (bs_union mCommitted mRemaining) in
          if bs_empty extensionQuorum then Ok None
          else if negb (bs_subsetEq mCommitted extensionQuorum) then Ok None
          else if bs_empty mRemaining then Ok None
          else
            let? split := pickSplitNode (rand mCommitted mRemaining) mRemaining in
            let mRemaining := bs_unset split mRemaining in
            let? first := anyMinQuorumHasDisjointQuorum rand fuel mCommitted mRemaining mScanSCC in
            match first with
            | Some found => Ok (Some found)
            | None =>
                let? mCommitted := bs_add split mCommitted in
                anyMinQuorumHasDisjointQuorum rand fuel mCommitted mRemaining mScanSCC
            end
  end.

(** The first stage: the first component with a quorum is scanned, a second one already
    gives disjoint quorums. *)
Fixpoint scanSCCs (sccs : list BitSet) (scanSCC : BitSet)
  : outcome QicError (BitSet * option (BitSet * BitSet)) :=
  match sccs with
  | [] => Ok (scanSCC, None)
  | c :: sccs =>
      let? q := contractToMaximalQuorum c in
      if negb (bs_empty q) then
        if bs_empty scanSCC then scanSCCs sccs c
        else
          let? q0 := contractToMaximalQuorum scanSCC in
          Ok (scanSCC, Some (q0, q))
      else scanSCCs sccs scanSCC
  end.

(** The disjoint quorums that were found, if any *)
Definition findDisjointQuorums (rand : BitSet → BitSet → nat → Z) (sccs : list BitSet)
  : outcome QicError (option (BitSet * BitSet)) :=
  let? first := scanSCCs sccs [] in
  let '(scanSCC, found) := first in
  if bs_empty scanSCC then Ok None
  else
    match found with
    | Some _ => Ok found
    | None => anyMinQuorumHasDisjointQuorum rand (S (length scanSCC)) [] scanSCC scanSCC
    end.
End Checker.

(** [mBitNumPubKeys.at(i)] for every bit *)
Fixpoint nodeKeys (keys : list NodeID) (s : BitSet) : outcome QicError (list NodeID) :=
  match s with
  | [] => Ok []
  | i :: s =>
      let? k := at_ keys i in
      let? l := nodeKeys keys s in
      Ok (k :: l)
  end.

(** The checker on a quorum map: the verdict of [networkEnjoysQuorumIntersection], and
    [getPotentialSplit]. *)
Definition networkEnjoysQuorumIntersection (rand : BitSet → BitSet → nat → Z) (qmap : QuorumMap)
  : outcome QicError (bool * (list NodeID * list NodeID)) :=
  let? c := buildGraph qmap in
  let? t := calculateSCCs (mGraph c) in
  let? found := findDisjointQuorums (mGraph c) rand (mSCCs t) in
  match found with
  | None => Ok (true, ([], []))
  | Some (nodes, disj) =>
      let? a := nodeKeys (mBitNumPubKeys c) nodes in
      let? b := nodeKeys (mBitNumPubKeys c) disj in
      Ok (false, (a, b))
  end.

(** ** Groups that could split the network *)

Fixpoint pointsToCandidate (p : SCPQuorumSet) (candidate : NodeID) : bool :=
  let 'QSet _ v i := p in
  existsb (λ k, k =? candidate) v || existsb (λ q, pointsToCandidate q candidate) i.

(** [std::set<std::set<PublicKey>>] orders the sets lexicographically. *)
Definition setCmp : list NodeID → list NodeID → Z := intLexicographicalCompare Zcmp.

Fixpoint findCriticalityCandidates (p : SCPQuorumSet) (candidates : list (list NodeID)) (root : bool)
  : list (list NodeID) :=
  let 'QSet _ v i := p in
  let candidates := foldl (λ c k, set_insert setCmp [k] c) candidates v in
  let candidates :=
    if negb root && bool_decide (length i = 0)%nat
    then set_insert setCmp (set_inserts Zcmp v []) candidates else candidates in
  foldl (λ c q, findCriticalityCandidates q c false) candidates i.

(** [test_qmap[k] = q] *)
Fixpoint assignQSet (k : NodeID) (q : option SCPQuorumSet) (qmap : QuorumMap) : QuorumMap :=
  match qmap with
  | [] => [(k, q)]
  | (n, q0) :: qmap => if n =? k then (n, q) :: qmap else (n, q0) :: assignQSet k q qmap
  end.

Fixpoint findQSet (k : NodeID) (qmap : QuorumMap) : option (option SCPQuorumSet) :=
  match qmap with
  | [] => None
  | (n, q) :: qmap => if n =? k then Some q else findQSet k qmap
  end.

Definition installFickle (group : list NodeID) (q : SCPQuorumSet) (test_qmap : QuorumMap) : QuorumMap :=
  foldl (λ m candidate, assignQSet candidate (Some q) m) test_qmap group.

(** [test_qmap[candidate] = qmap.find(candidate)->second] *)
Fixpoint restoreQSets (group : list NodeID) (qmap test_qmap : QuorumMap) : outcome QicError QuorumMap :=
  match group with
  | [] => Ok test_qmap
  | candidate :: group =>
      match findQSet candidate qmap with
      | Some q => restoreQSets group qmap (assignQSet candidate q test_qmap)
      | None => Fail MissingNode
      end
  end.

(** The nodes outside of the group that depend on a member *)
Definition pointsToGroup (qmap : QuorumMap) (group : list NodeID) : list NodeID :=
  foldl (λ acc candidate,
    foldl (λ acc d,
      match d.2 with
      | Some q =>
          if negb (bool_decide (d.1 ∈ group)) && pointsToCandidate q candidate
          then set_insert Zcmp d.1 acc else acc
      | None => acc
      end) acc qmap) [] group.

Definition fickleQSet (qmap : QuorumMap) (group : list NodeID) : SCPQuorumSet :=
  QSet 2 [] [QSet (u32 (Z.of_nat (length group))) group []; QSet 1 (pointsToGroup qmap group) []].

(** The loop over the candidates: the fickle set is installed in [test_qmap] for every
    member of the group, the result is checked, and the map is restored. *)
Fixpoint criticalGroups (rand : BitSet → BitSet → nat → Z) (qmap test_qmap : QuorumMap)
  (candidates critical : list (list NodeID)) : outcome QicError (list (list NodeID)) :=
  match candidates with
  | [] => Ok critical
  | group :: candidates =>
      let test_qmap := installFickle group (fickleQSet qmap group) test_qmap in
      let? r := networkEnjoysQuorumIntersection rand test_qmap in
      let critical := if r.1 then critical else set_insert setCmp group critical in
      let? test_qmap := restoreQSets group qmap test_qmap in
      criticalGroups rand qmap test_qmap candidates critical
  end.

Definition getIntersectionCriticalGroups (rand : BitSet → BitSet → nat → Z) (qmap : QuorumMap)
  : outcome QicError (list (list NodeID)) :=
  let candidates :=
    foldl (λ c k, match k.2 with Some q => findCriticalityCandidates q c true | None => c end) [] qmap in
  criticalGroups rand qmap qmap candidates [].
