(* ===== verification/QicTarjan.v ===== *)
(** * Tarjan's algorithm is correct

    [calculateSCCs] completes, and its components partition the nodes in such a way
    that nodes which reach each other are in the same component: a component has no
    edge to a component found later. *)

From stdpp Require Import prelude list.
From Stdlib Require Import ZArith Lia Sorted.
From S2P Require Import Prelude QuorumSet QuorumIntersection.
Local Open Scope Z_scope.

(** ** Bit sets *)

Notation bsorted := (strictly_sorted Zcmp).

Lemma elem_of_bs_set i j s : j ∈ bs_set i s ↔ j = i ∨ j ∈ s.
Proof. apply (elem_of_set_insert Zcmp). Qed.

Lemma bs_set_sorted i s : bsorted s → bsorted (bs_set i s).
Proof. apply (set_insert_sorted Zcmp). Qed.

Lemma bs_add_small i s : i < 64 → bs_add i s = Ok (bs_set i s).
Proof. intros H. unfold bs_add. by destruct (Z.eqb_spec i 64); [lia|]. Qed.

Lemma elem_of_bs_union i a b : i ∈ bs_union a b ↔ i ∈ a ∨ i ∈ b.
Proof. unfold bs_union. rewrite (elem_of_set_inserts Zcmp). tauto. Qed.

Lemma bs_union_sorted a b : bsorted a → bsorted (bs_union a b).
Proof. apply (set_inserts_sorted Zcmp). Qed.

Lemma bsorted_NoDup s : bsorted s → NoDup s.
Proof.
  induction 1 as [|x l Hl IH Hx]; constructor; [|done]. intros Hin.
  rewrite Forall_forall in Hx. specialize (Hx x Hin). rewrite (cmp_refl Zcmp) in Hx. lia.
Qed.

Lemma bsorted_filter P `{∀ x : Z, Decision (P x)} s : bsorted s → bsorted (filter P s).
Proof.
  induction 1 as [|x l Hl IH Hx]; [constructor|]. rewrite filter_cons. case_decide; [|done].
  constructor; [done|]. rewrite Forall_forall in Hx |- *. intros y Hy. apply Hx.
  apply list_elem_of_filter in Hy. tauto.
Qed.

(** Sorted lists with the same elements are equal. *)
Lemma bsorted_eq a b : bsorted a → bsorted b → a ⊆ b → b ⊆ a → a = b.
Proof.
  intros H1 H2 Ha Hb. apply (sorted_perm_unique Zcmp).
  - by apply strictly_weakly_sorted.
  - by apply strictly_weakly_sorted.
  - apply NoDup_Permutation; try by apply bsorted_NoDup. set_solver.
Qed.

Lemma sorted_tail {A} (R : A → A → Prop) l1 l2 : StronglySorted R (l1 ++ l2) → StronglySorted R l2.
Proof. induction l1 as [|a l1 IH]; [done|]. intros [H _]%StronglySorted_inv. by apply IH. Qed.

(** ** Access *)

Definition inRange {A} (l : list A) (i : Z) : Prop := 0 ≤ i < Z.of_nat (length l).

Lemma at_ok {A} (l : list A) i x : at_ l i = Ok x ↔ 0 ≤ i ∧ l !! Z.to_nat i = Some x.
Proof.
  unfold at_. destruct (Z.ltb_spec i 0); [split; [done|lia]|].
  destruct (l !! Z.to_nat i); split; [by intros [= ->]|by intros [_ [= ->]]|done|by intros [_ ?]].
Qed.

Lemma at_inRange {A} (l : list A) i : inRange l i → ∃ x, at_ l i = Ok x.
Proof.
  intros [H1 H2]. destruct (lookup_lt_is_Some_2 l (Z.to_nat i)) as [x Hx]; [lia|].
  exists x. by apply at_ok.
Qed.

Lemma inRange_at {A} (l : list A) i x : at_ l i = Ok x → inRange l i.
Proof. intros [H1 H2]%at_ok. apply lookup_lt_Some in H2. unfold inRange. lia. Qed.

Lemma at_insert_eq {A} (l : list A) i x : inRange l i → at_ (<[Z.to_nat i := x]> l) i = Ok x.
Proof. intros [? ?]. apply at_ok. split; [done|]. apply list_lookup_insert_eq. lia. Qed.

Lemma at_insert_ne {A} (l : list A) i j x :
  0 ≤ i → i ≠ j → at_ (<[Z.to_nat i := x]> l) j = at_ l j.
Proof.
  intros Hi Hne. unfold at_. destruct (Z.ltb_spec j 0); [done|].
  by rewrite list_lookup_insert_ne by lia.
Qed.

(** ** The state during the search *)

Section Tarjan.
Context (graph : QGraph).

(** The edges stay in the graph. *)
Definition succOf (i j : Z) : Prop := ∃ q, at_ graph i = Ok q ∧ j ∈ mAllSuccessors q.

Hypothesis Hrange : ∀ i j, succOf i j → inRange graph j.

(** The components fit into inline bit sets. *)
Hypothesis Hwidth : (length graph ≤ 64)%nat.

Definition reach : Z → Z → Prop := rtc succOf.

(** No edge leads from a component to a later one. *)
Definition closedPrefix (sccs : list BitSet) : Prop :=
  ∀ l1 c l2, sccs = l1 ++ c :: l2 → ∀ i j, i ∈ c → succOf i j → j ∈ concat (l1 ++ [c]).

(** The members of a component reach each other. *)
Definition strong (c : BitSet) : Prop := ∀ i j, i ∈ c → j ∈ c → reach i j.

Definition nodeAt (t : TarjanSCCCalculator) (i : Z) : outcome QicError SCCNode := at_ (mSCCNodes t) i.

Definition seen (t : TarjanSCCCalculator) : list Z := mStack t ++ concat (mSCCs t).

Definition idx (t : TarjanSCCCalculator) (i : Z) : Z :=
  match nodeAt t i with Ok v => mIndex v | Fail _ => -1 end.
Definition low (t : TarjanSCCCalculator) (i : Z) : Z :=
  match nodeAt t i with Ok v => mLowLink v | Fail _ => -1 end.

Record TInv (t : TarjanSCCCalculator) : Prop := {
  ti_length : length (mSCCNodes t) = length graph;
  ti_nodup : NoDup (seen t);
  ti_range i : i ∈ seen t → inRange graph i;
  ti_seen i v : nodeAt t i = Ok v → mIndex v ≠ -1 ↔ i ∈ seen t;
  ti_onStack i v : nodeAt t i = Ok v → mOnStack v = true ↔ i ∈ mStack t;
  ti_index i : i ∈ mStack t → 0 ≤ idx t i < mNextIndex t;
  ti_next : 0 ≤ mNextIndex t;
  ti_order : StronglySorted (λ a b, idx t b < idx t a) (mStack t);
  ti_closed : closedPrefix (mSCCs t);
  ti_sorted : Forall bsorted (mSCCs t);
  ti_strong : Forall strong (mSCCs t)
}.

Lemma nodeAt_graph t i : TInv t → inRange graph i → ∃ v, nodeAt t i = Ok v.
Proof. intros Ht Hi. apply at_inRange. unfold inRange in *. by rewrite (ti_length t Ht). Qed.

Lemma seen_bound t : TInv t → (length (seen t) ≤ length graph)%nat.
Proof.
  intros Ht. rewrite <- (length_seq (length graph) 0), <- (length_map Z.of_nat).
  apply submseteq_length, NoDup_submseteq; [apply Ht|]. intros i Hi. apply (ti_range t Ht) in Hi.
  destruct Hi as [H1 H2]. rewrite <- (Z2Nat.id i) by done. apply list_elem_of_fmap_2. apply elem_of_seq. lia.
Qed.

(** Records of nodes seen before are the same. *)
Definition keeps (t t' : TarjanSCCCalculator) : Prop :=
  ∀ i, i ∈ seen t → nodeAt t' i = nodeAt t i.

Lemma keeps_idx t t' i : keeps t t' → i ∈ seen t → idx t' i = idx t i ∧ low t' i = low t i.
Proof. intros H Hi. unfold idx, low. by rewrite (H i Hi). Qed.

Lemma order_ext t t' l :
  (∀ j, j ∈ l → idx t' j = idx t j) → StronglySorted (λ a b, idx t b < idx t a) l →
  StronglySorted (λ a b, idx t' b < idx t' a) l.
Proof.
  intros He. induction 1 as [|a l Hs IH Hf]; constructor.
  - apply IH. intros j Hj. apply He. by right.
  - rewrite Forall_forall in Hf |- *. intros b Hb. rewrite (He a), (He b); [by apply Hf|by right|by left].
Qed.

(** What a call on [i] achieves: [seg] is what it leaves on the stack. *)
Record Explored (t t' : TarjanSCCCalculator) (i : Z) (seg : list Z) : Prop := {
  ex_inv : TInv t';
  ex_stack : mStack t' = seg ++ mStack t;
  ex_seen : seen t ⊆ seen t';
  ex_keeps : keeps t t';
  ex_here : i ∈ seen t';
  ex_total : (length (seen t) < length (seen t'))%nat;
  ex_succ u j : u ∈ seg → succOf u j → j ∈ seen t';
  ex_low u j : u ∈ seg → succOf u j → j ∈ mStack t → low t' i ≤ idx t j;
  ex_link : (seg = [] ∧ mNextIndex t ≤ low t' i) ∨ (∃ k, k ∈ mStack t ∧ low t' i = idx t k ∧ reach i k);
  ex_reach u : u ∈ seg → reach i u;
  ex_down u : u ∈ seg → ∃ k, k ∈ mStack t ∧ reach u k
}.

(** ** The first lines of [scc] *)

Lemma nodeAt_visit_eq t i :
  TInv t → inRange graph i →
  nodeAt (visit i t) i = Ok {| mIndex := mNextIndex t; mLowLink := mNextIndex t; mOnStack := true |}.
Proof.
  intros Ht Hi. apply at_insert_eq. unfold inRange in *. by rewrite (ti_length t Ht).
Qed.

Lemma nodeAt_visit_ne t i j : 0 ≤ i → i ≠ j → nodeAt (visit i t) j = nodeAt t j.
Proof. intros. by apply at_insert_ne. Qed.

Lemma visit_keeps t i : 0 ≤ i → i ∉ seen t → keeps t (visit i t).
Proof. intros Hi Hn j Hj. apply nodeAt_visit_ne; [done|]. by intros ->. Qed.

Lemma visit_inv t i : TInv t → inRange graph i → i ∉ seen t → TInv (visit i t).
Proof.
  intros Ht Hi Hn. pose proof (visit_keeps t i (proj1 Hi) Hn) as Hk.
  assert (∀ j, j ∈ mStack t → j ∈ seen t) as Hst by (intros j Hj; apply elem_of_app; by left).
  assert (idx (visit i t) i = mNextIndex t) as Ei by (unfold idx; by rewrite nodeAt_visit_eq).
  split.
  - simpl. unfold setNode. rewrite length_insert. apply Ht.
  - unfold seen. simpl. constructor; [done|apply Ht].
  - intros j [->|Hj]%elem_of_cons; [done|by apply Ht].
  - intros j v Hv. unfold seen. simpl. rewrite elem_of_cons. destruct (decide (j = i)) as [->|Hne].
    + rewrite nodeAt_visit_eq in Hv by done. simplify_eq/=. pose proof (ti_next t Ht). split; [by left|lia].
    + rewrite nodeAt_visit_ne in Hv by (try done; apply Hi). rewrite (ti_seen t Ht j v Hv).
      unfold seen. naive_solver.
  - intros j v Hv. simpl. rewrite elem_of_cons. destruct (decide (j = i)) as [->|Hne].
    + rewrite nodeAt_visit_eq in Hv by done. simplify_eq/=. split; [by left|done].
    + rewrite nodeAt_visit_ne in Hv by (try done; apply Hi). rewrite (ti_onStack t Ht j v Hv). naive_solver.
  - intros j [->|Hj]%elem_of_cons.
    + rewrite Ei. simpl. pose proof (ti_next t Ht). lia.
    + rewrite (proj1 (keeps_idx _ _ _ Hk (Hst j Hj))). pose proof (ti_index t Ht j Hj). simpl. lia.
  - pose proof (ti_next t Ht). simpl. lia.
  - simpl. constructor.
    + eapply order_ext; [|apply Ht]. intros j Hj. by apply keeps_idx; [|apply Hst].
    + apply Forall_forall. intros b Hb. rewrite Ei, (proj1 (keeps_idx _ _ _ Hk (Hst b Hb))).
      apply (ti_index t Ht b Hb).
  - apply Ht.
  - apply Ht.
  - apply Ht.
Qed.

(** ** The loop over the successors *)

Section SetLow.
Context (t : TarjanSCCCalculator) (i x : Z) (v : SCCNode).
Hypothesis Ht : TInv t.
Hypothesis Hv : nodeAt t i = Ok v.
Notation t' := (setLowLink i x v t).

Lemma setLow_eq : nodeAt t' i = Ok {| mIndex := mIndex v; mLowLink := x; mOnStack := mOnStack v |}.
Proof using Hv. clear Ht. apply at_insert_eq. by eapply inRange_at. Qed.

Lemma setLow_ne j : j ≠ i → nodeAt t' j = nodeAt t j.
Proof using Hv.
  intros Hne. apply at_insert_ne; [|done]. by apply at_ok in Hv as [? _].
Qed.

Lemma setLow_idx j : idx t' j = idx t j.
Proof using Hv.
  unfold idx. destruct (decide (j = i)) as [->|Hne]; [by rewrite setLow_eq, Hv|by rewrite setLow_ne].
Qed.

Lemma setLow_low : low t' i = x.
Proof using Hv. unfold low. by rewrite setLow_eq. Qed.

Lemma setLow_inv : TInv t'.
Proof using Ht Hv.
  assert (∀ j w', nodeAt t' j = Ok w' →
    ∃ w, nodeAt t j = Ok w ∧ mIndex w' = mIndex w ∧ mOnStack w' = mOnStack w) as Hw.
  { intros j w' Hw'. destruct (decide (j = i)) as [->|Hne].
    - rewrite setLow_eq in Hw'. simplify_eq. by exists v.
    - rewrite setLow_ne in Hw' by done. by exists w'. }
  split.
  - simpl. unfold setNode. rewrite length_insert. apply Ht.
  - apply (ti_nodup t Ht).
  - apply (ti_range t Ht).
  - intros j w' Hw'. destruct (Hw j w' Hw') as (w & H1 & -> & _). by apply Ht.
  - intros j w' Hw'. destruct (Hw j w' Hw') as (w & H1 & _ & ->). by apply Ht.
  - intros j Hj. rewrite setLow_idx. by apply Ht.
  - apply (ti_next t Ht).
  - apply (order_ext t); [|apply (ti_order t Ht)]. intros. apply setLow_idx.
  - apply (ti_closed t Ht).
  - apply (ti_sorted t Ht).
  - apply (ti_strong t Ht).
Qed.
End SetLow.

(** The state in the loop of the call on [i] that started at [t0]: [P] are the
    successors processed so far. *)
Record Looping (t0 t1 : TarjanSCCCalculator) (i : Z) (seg : list Z) (P : list Z) : Prop := {
  lp_inv : TInv t1;
  lp_stack : mStack t1 = seg ++ i :: mStack t0;
  lp_seen : seen t0 ⊆ seen t1;
  lp_keeps : keeps t0 t1;
  lp_total : (length (seen t0) < length (seen t1))%nat;
  lp_idx : idx t1 i = mNextIndex t0;
  lp_lowle : low t1 i ≤ idx t1 i;
  lp_link : low t1 i = idx t1 i ∨ ∃ k, k ∈ mStack t0 ∧ low t1 i = idx t0 k ∧ reach i k;
  lp_succ u j : u ∈ seg → succOf u j → j ∈ seen t1;
  lp_succi j : j ∈ P → j ∈ seen t1;
  lp_low u j : u ∈ seg → succOf u j → j ∈ mStack t0 → low t1 i ≤ idx t0 j;
  lp_lowi j : j ∈ P → j ∈ mStack t0 → low t1 i ≤ idx t0 j;
  lp_reach u : u ∈ seg → reach i u;
  lp_down u : u ∈ seg → reach u i ∨ ∃ k, k ∈ mStack t0 ∧ reach u k
}.

Lemma Looping_start t0 i :
  TInv t0 → inRange graph i → i ∉ seen t0 → Looping t0 (visit i t0) i [] [].
Proof.
  intros Ht Hi Hn.
  assert (idx (visit i t0) i = mNextIndex t0) as Ei by (unfold idx; by rewrite nodeAt_visit_eq).
  assert (low (visit i t0) i = mNextIndex t0) as El by (unfold low; by rewrite nodeAt_visit_eq).
  split; try done.
  - by apply visit_inv.
  - intros j Hj. by right.
  - apply visit_keeps; [apply Hi|done].
  - unfold seen. simpl. lia.
  - rewrite El, Ei. lia.
  - left. by rewrite El, Ei.
  - intros u j Hu. by apply elem_of_nil in Hu.
  - intros j Hj. by apply elem_of_nil in Hj.
  - intros u j Hu. by apply elem_of_nil in Hu.
  - intros j Hj. by apply elem_of_nil in Hj.
  - intros u Hu. by apply elem_of_nil in Hu.
  - intros u Hu. by apply elem_of_nil in Hu.
Qed.

Lemma stack_seen t j : j ∈ mStack t → j ∈ seen t.
Proof. intros. apply elem_of_app. by left. Qed.

(** On the stack, the nodes above [i] have larger numbers. *)
Lemma above_idx t seg i rest k :
  TInv t → mStack t = seg ++ i :: rest → k ∈ seg → idx t i < idx t k.
Proof.
  intros Ht Hs Hk. pose proof (ti_order t Ht) as Ho. rewrite Hs in Ho. clear Hs.
  apply list_elem_of_split in Hk as (l1 & l2 & ->). rewrite <- app_assoc in Ho. simpl in Ho.
  induction l1 as [|a l1 IH]; simpl in Ho; apply StronglySorted_inv in Ho as [Ho Hf]; [|by apply IH].
  rewrite Forall_forall in Hf. apply Hf. set_solver.
Qed.

Lemma Looping_low t0 t1 i seg P x v :
  Looping t0 t1 i seg P → nodeAt t1 i = Ok v → i ∉ seen t0 → x ≤ low t1 i →
  (x = low t1 i ∨ ∃ k, k ∈ mStack t0 ∧ x = idx t0 k ∧ reach i k) →
  Looping t0 (setLowLink i x v t1) i seg P.
Proof.
  intros HL Hv Hi Hx Hl. pose proof (lp_inv _ _ _ _ _ HL) as Ht.
  destruct HL as [H1 H2 H3 H4 H5 H6 H7 H8 H9 H10 H11 H12 H13 H14].
  assert (idx (setLowLink i x v t1) i = idx t1 i) as Ei by by apply setLow_idx.
  assert (low (setLowLink i x v t1) i = x) as El by by apply setLow_low.
  split; try done.
  - by apply setLow_inv.
  - intros j Hj. rewrite <- (H4 j Hj). apply setLow_ne; [done|]. by intros ->.
  - by rewrite Ei.
  - rewrite El, Ei. lia.
  - rewrite El, Ei. destruct Hl as [->|Hl]; [done|by right].
  - intros u j Hu Hs Hj. rewrite El. specialize (H11 u j Hu Hs Hj). lia.
  - intros j Hj Hs. rewrite El. specialize (H12 j Hj Hs). lia.
Qed.

Lemma Looping_skip t0 t1 i seg P j :
  Looping t0 t1 i seg P → j ∈ seen t1 → (j ∈ mStack t0 → low t1 i ≤ idx t0 j) →
  Looping t0 t1 i seg (j :: P).
Proof.
  intros [H1 H2 H3 H4 H5 H6 H7 H8 H9 H10 H11 H12 H13 H14] Hj Hl. split; try done.
  - intros k [->|Hk]%elem_of_cons; [done|by apply H10].
  - intros k [->|Hk]%elem_of_cons; [done|by apply H12].
Qed.

(** A successor on the stack that was there before [i] bounds the low link. *)
Lemma Looping_onStack t0 t1 i seg P j v w :
  Looping t0 t1 i seg P → i ∉ seen t0 → succOf i j →
  nodeAt t1 i = Ok v → nodeAt t1 j = Ok w → j ∈ mStack t1 →
  Looping t0 (setLowLink i (Z.min (mLowLink v) (mIndex w)) v t1) i seg (j :: P).
Proof.
  intros HL Hi Hs Hv Hw Hj. set (x := Z.min _ _).
  assert (low t1 i = mLowLink v) as Elow by (unfold low; by rewrite Hv).
  assert (idx t1 j = mIndex w) as Eidx by (unfold idx; by rewrite Hw).
  apply Looping_skip.
  - apply Looping_low; [done..|lia|]. rewrite Elow. unfold x.
    destruct (Z.min_spec (mLowLink v) (mIndex w)) as [[_ ->]|[Hle Hm]]; [by left|]. rewrite Hm.
    pose proof (lp_lowle _ _ _ _ _ HL) as Hlow. rewrite Elow in Hlow.
    rewrite (lp_stack _ _ _ _ _ HL) in Hj. apply elem_of_app in Hj as [Hj|[Hj|Hj]%elem_of_cons].
    + pose proof (above_idx t1 _ _ _ _ (lp_inv _ _ _ _ _ HL) (lp_stack _ _ _ _ _ HL) Hj). lia.
    + left. subst j. lia.
    + right. exists j. split_and!; [done| |by apply rtc_once]. rewrite <- Eidx.
      apply (keeps_idx t0 t1); [apply HL|]. by apply stack_seen.
  - by apply stack_seen.
  - intros Hj0. rewrite setLow_low by done.
    rewrite <- (proj1 (keeps_idx t0 t1 j (lp_keeps _ _ _ _ _ HL) (stack_seen _ _ Hj0))). lia.
Qed.

Lemma Looping_old t0 t1 i seg P k :
  Looping t0 t1 i seg P → k ∈ mStack t0 → k ∈ mStack t1 ∧ idx t1 k = idx t0 k.
Proof.
  intros HL Hk. split; [rewrite (lp_stack _ _ _ _ _ HL); set_solver|].
  apply (keeps_idx t0 t1); [apply HL|by apply stack_seen].
Qed.

(** A call on a successor: a smaller low link is the number of a node below [i]. *)
Lemma child_link t0 t1 t2 i seg P j seg2 :
  Looping t0 t1 i seg P → Explored t1 t2 j seg2 → low t2 j < low t1 i →
  ∃ k, k ∈ mStack t0 ∧ low t2 j = idx t0 k ∧ reach j k.
Proof.
  intros HL HE Hlt. pose proof (lp_inv _ _ _ _ _ HL) as Ht1.
  pose proof (lp_lowle _ _ _ _ _ HL) as Hle. pose proof (lp_stack _ _ _ _ _ HL) as Hst.
  assert (idx t1 i < mNextIndex t1) by (apply (ti_index t1 Ht1); rewrite Hst; set_solver).
  destruct (ex_link _ _ _ _ HE) as [[_ Hn]|(k & Hk1 & Ek & Hr)]; [lia|].
  rewrite Hst in Hk1. apply elem_of_app in Hk1 as [Hk1|[Hk1|Hk1]%elem_of_cons].
  - pose proof (above_idx t1 _ _ _ _ Ht1 Hst Hk1). lia.
  - subst k. lia.
  - exists k. split_and!; [done| |done]. rewrite <- (proj2 (Looping_old _ _ _ _ _ k HL Hk1)). lia.
Qed.

(** Every node above [i] leads to [i] or below. *)
Lemma child_down t0 t1 t2 i seg P j seg2 u :
  Looping t0 t1 i seg P → Explored t1 t2 j seg2 → u ∈ seg2 ++ seg →
  reach u i ∨ ∃ k, k ∈ mStack t0 ∧ reach u k.
Proof.
  intros HL HE [Hu|Hu]%elem_of_app; [|by apply (lp_down _ _ _ _ _ HL)].
  destruct (ex_down _ _ _ _ HE u Hu) as (k & Hk & Hr). rewrite (lp_stack _ _ _ _ _ HL) in Hk.
  apply elem_of_app in Hk as [Hk|[Hk|Hk]%elem_of_cons].
  - destruct (lp_down _ _ _ _ _ HL k Hk) as [H|(k' & H1 & H2)]; [left|right; exists k'; split; [done|]];
      by transitivity k.
  - left. by subst k.
  - right. by exists k.
Qed.

Lemma Looping_child t0 t1 t2 i seg P j seg2 v w :
  Looping t0 t1 i seg P → i ∉ seen t0 → succOf i j → j ∉ seen t1 → Explored t1 t2 j seg2 →
  nodeAt t2 i = Ok v → nodeAt t2 j = Ok w →
  Looping t0 (setLowLink i (Z.min (mLowLink v) (mLowLink w)) v t2) i (seg2 ++ seg) (j :: P).
Proof.
  intros HL Hi Hs Hj HE Hv Hw. set (x := Z.min _ _).
  assert (i ∈ mStack t1) as Hi1 by (rewrite (lp_stack _ _ _ _ _ HL); set_solver).
  destruct (keeps_idx t1 t2 i (ex_keeps _ _ _ _ HE) (stack_seen _ _ Hi1)) as [Ei El].
  assert (x = Z.min (low t1 i) (low t2 j)) as Exw by (rewrite <- El; unfold x, low; by rewrite Hv, Hw).
  pose proof (child_link _ _ _ _ _ _ _ _ HL HE) as Hsmall. pose proof (lp_lowle _ _ _ _ _ HL) as Hle.
  split; try rewrite (setLow_low t2 i x v Hv); try rewrite (setLow_idx t2 i x v Hv), ?Ei.
  - by apply setLow_inv; [apply HE|].
  - simpl. rewrite (ex_stack _ _ _ _ HE), (lp_stack _ _ _ _ _ HL). by rewrite <- app_assoc.
  - intros k Hk0. apply (ex_seen _ _ _ _ HE), (lp_seen _ _ _ _ _ HL), Hk0.
  - intros k Hk0. rewrite <- (lp_keeps _ _ _ _ _ HL k Hk0).
    rewrite <- (ex_keeps _ _ _ _ HE k (lp_seen _ _ _ _ _ HL k Hk0)). apply setLow_ne; [done|]. by intros ->.
  - pose proof (ex_total _ _ _ _ HE). pose proof (lp_total _ _ _ _ _ HL).
    change (seen (setLowLink i x v t2)) with (seen t2). lia.
  - apply HL.
  - lia.
  - destruct (decide (low t2 j < low t1 i)) as [Hlt|Hge].
    + right. replace x with (low t2 j) by lia. destruct (Hsmall Hlt) as (k & H1 & H2 & H3).
      exists k. split_and!; [done..|]. by apply rtc_l with j.
    + replace x with (low t1 i) by lia. apply HL.
  - intros u k [Hu|Hu]%elem_of_app Hs'; [by apply (ex_succ _ _ _ _ HE u)|].
    apply (ex_seen _ _ _ _ HE). by apply (lp_succ _ _ _ _ _ HL u).
  - intros k [->|Hk0]%elem_of_cons; [apply (ex_here _ _ _ _ HE)|]. apply (ex_seen _ _ _ _ HE). by apply (lp_succi _ _ _ _ _ HL).
  - intros u k [Hu|Hu]%elem_of_app Hs' Hk0.
    + destruct (Looping_old _ _ _ _ _ k HL Hk0) as [Hk1 <-].
      pose proof (ex_low _ _ _ _ HE u k Hu Hs' Hk1). lia.
    + pose proof (lp_low _ _ _ _ _ HL u k Hu Hs' Hk0). lia.
  - intros k [->|Hk0]%elem_of_cons Hk1.
    + destruct Hj. apply stack_seen. by apply (Looping_old _ _ _ _ _ j HL).
    + pose proof (lp_lowi _ _ _ _ _ HL k Hk0 Hk1). lia.
  - intros u [Hu|Hu]%elem_of_app; [|by apply HL]. apply rtc_l with j; [done|]. by apply (ex_reach _ _ _ _ HE).
  - intros u Hu. by apply (child_down t0 t1 t2 i seg P j seg2).
Qed.

(** What the recursive call is assumed to do while fuel lasts. *)
Definition sccSpec (n : nat) (call : Z → TarjanSCCCalculator → outcome QicError TarjanSCCCalculator) : Prop :=
  ∀ i t, TInv t → inRange graph i → i ∉ seen t → (length graph < n + length (seen t))%nat →
  ∃ t' seg, call i t = Ok t' ∧ Explored t t' i seg.

Lemma sccEdges_ok n call t0 i succ : sccSpec n call → i ∉ seen t0 → (∀ j, j ∈ succ → succOf i j) →
  ∀ seg P t1, Looping t0 t1 i seg P → (length graph < S n + length (seen t0))%nat →
  ∃ t2 seg', sccEdges call i succ t1 = Ok t2 ∧ Looping t0 t2 i seg' (rev succ ++ P).
Proof.
  intros Hcall Hi Hr. induction succ as [|j succ IH]; intros seg P t1 HL Hn; [by exists t1, seg|].
  pose proof (lp_inv _ _ _ _ _ HL) as Ht1. pose proof (lp_total _ _ _ _ _ HL) as Htot.
  assert (succOf i j) as Hs by (apply Hr; by left). pose proof (Hrange i j Hs) as Hj.
  assert (∀ seg' t', Looping t0 t' i seg' (j :: P) →
    ∃ t2 seg', sccEdges call i succ t' = Ok t2 ∧ Looping t0 t2 i seg' (rev (j :: succ) ++ P)) as Hgo.
  { intros seg' t' HL'. destruct (IH (λ k Hk, Hr k (list_elem_of_further _ _ _ Hk)) seg' (j :: P) t' HL' Hn)
      as (t2 & seg2 & E & HL2). exists t2, seg2. split; [done|]. simpl. by rewrite <- app_assoc. }
  assert (∀ t' seg', Looping t0 t' i seg' P → ∃ v, nodeAt t' i = Ok v) as Hgi.
  { intros t' seg' HL'. apply nodeAt_graph; [apply HL'|]. apply (ti_range t'); [apply HL'|].
    apply stack_seen. rewrite (lp_stack _ _ _ _ _ HL'). set_solver. }
  destruct (nodeAt_graph t1 j Ht1 Hj) as [w Hw]. unfold nodeAt in Hw. simpl. rewrite Hw. simpl.
  destruct (Z.eqb_spec (mIndex w) (-1)) as [Hm|Hm].
  - assert (j ∉ seen t1) as Hjs by (by rewrite <- (ti_seen t1 Ht1 j w Hw); intros []).
    destruct (Hcall j t1 Ht1 Hj Hjs) as (t2 & seg2 & -> & HE); [lia|]. simpl.
    assert (i ∈ seen t1) as Hi1 by (apply stack_seen; rewrite (lp_stack _ _ _ _ _ HL); set_solver).
    destruct (Hgi t1 seg HL) as [v Hv]. rewrite <- (ex_keeps _ _ _ _ HE i Hi1) in Hv.
    destruct (nodeAt_graph t2 j (ex_inv _ _ _ _ HE) Hj) as [w2 Hw2].
    unfold nodeAt in *. rewrite Hv. simpl. rewrite Hw2. simpl.
    eapply Hgo, Looping_child; eassumption.
  - assert (j ∈ seen t1) as Hjs by (by apply (ti_seen t1 Ht1 j w Hw)).
    destruct (mOnStack w) eqn:Ho; simpl.
    + destruct (Hgi t1 seg HL) as [v Hv]. unfold nodeAt in Hv. rewrite Hv. simpl.
      eapply Hgo, Looping_onStack; try eassumption. by apply (ti_onStack t1 Ht1 j w Hw).
    + eapply Hgo, Looping_skip; [eassumption..|]. intros Hj0.
      apply (Looping_old _ _ _ _ _ j HL) in Hj0 as [Hj0 _].
      apply (ti_onStack t1 Ht1 j w Hw) in Hj0. congruence.
Qed.

(** ** Popping a component *)

Definition unstack (l : list Z) (nodes nodes' : list SCCNode) : Prop :=
  length nodes' = length nodes ∧
  ∀ j w', at_ nodes' j = Ok w' → ∃ w, at_ nodes j = Ok w ∧
    mIndex w' = mIndex w ∧ mLowLink w' = mLowLink w ∧
    (j ∈ l → mOnStack w' = false) ∧ (j ∉ l → w' = w).

Lemma unstack_one j l w nodes nodes' :
  at_ nodes j = Ok w →
  unstack l (setNode j {| mIndex := mIndex w; mLowLink := mLowLink w; mOnStack := false |} nodes) nodes' →
  unstack (j :: l) nodes nodes'.
Proof using.
  clear Hrange Hwidth. intros Hw [Hl Hu]. unfold setNode in *. rewrite length_insert in Hl. split; [done|].
  intros k w' Hw'. destruct (Hu k w' Hw') as (w1 & H1 & E1 & E2 & H2 & H3).
  destruct (decide (k = j)) as [->|Hne].
  - rewrite at_insert_eq in H1 by (by eapply inRange_at). simplify_eq/=. exists w. split_and!; try done.
    + intros _. destruct (decide (j ∈ l)) as [Hj|Hj]; [by apply H2|]. by rewrite (H3 Hj).
    + intros Hn. destruct Hn. by left.
  - rewrite at_insert_ne in H1 by (try done; by apply at_ok in Hw as [? _]).
    exists w1. split_and!; [done..| |]; intros Hk; [apply H2|apply H3]; set_solver.
Qed.

Lemma popComponent_ok i rest seg : i ∉ seg → ∀ acc nodes,
  (∀ j, j ∈ seg ++ [i] → inRange nodes j ∧ j < 64) → bsorted acc →
  ∃ c nodes', popComponent i (seg ++ i :: rest) acc nodes = Ok (rest, c, nodes') ∧
    bsorted c ∧ (∀ j, j ∈ c ↔ j ∈ seg ++ [i] ∨ j ∈ acc) ∧
    unstack (seg ++ [i]) nodes nodes'.
Proof using.
  clear Hrange Hwidth. induction seg as [|a seg IH]; intros Hi acc nodes Hr Hs; simpl.
  - rewrite bs_add_small by (apply Hr; by left). simpl.
    destruct (at_inRange nodes i) as [w Hw]; [apply Hr; by left|]. rewrite Hw. simpl.
    rewrite Z.eqb_refl. eexists _, _. split; [done|]. split; [by apply bs_set_sorted|]. split.
    + intros j. rewrite elem_of_bs_set. set_solver.
    + apply (unstack_one i [] w); [done|]. split; [done|]. intros j w' Hw'. exists w'. set_solver.
  - rewrite bs_add_small by (apply Hr; by left). simpl.
    destruct (at_inRange nodes a) as [w Hw]; [apply Hr; by left|]. rewrite Hw. simpl.
    destruct (Z.eqb_spec a i) as [->|Hne]; [destruct Hi; by left|].
    edestruct (IH ltac:(set_solver) (bs_set a acc)) as (c & nodes' & E & H1 & H2 & H3);
      [| |exists c, nodes'; split; [exact E|split_and!]].
    + intros j Hj. unfold setNode, inRange. rewrite length_insert. apply Hr. by right.
    + by apply bs_set_sorted.
    + done.
    + intros j. rewrite H2. rewrite elem_of_bs_set. set_solver.
    + by apply (unstack_one a _ w).
Qed.

Lemma closedPrefix_snoc sccs c :
  closedPrefix sccs → (∀ i j, i ∈ c → succOf i j → j ∈ concat (sccs ++ [c])) →
  closedPrefix (sccs ++ [c]).
Proof.
  intros Hs Hc l1 d l2 E i j Hi Hj. destruct (decide (l2 = [])) as [->|Hne].
  - apply app_inj_tail in E as [-> ->]. by apply (Hc i).
  - destruct (exists_last Hne) as (l & x & ->). rewrite app_comm_cons, app_assoc in E.
    apply app_inj_tail in E as [E _]. by apply (Hs l1 d l E i).
Qed.

Lemma closed_concat sccs : closedPrefix sccs → ∀ i j, i ∈ concat sccs → succOf i j → j ∈ concat sccs.
Proof.
  intros Hc i j Hi Hj. apply list_elem_of_In, in_concat in Hi as (c & Hc1 & Hc2).
  apply list_elem_of_In in Hc1, Hc2. apply list_elem_of_split in Hc1 as (l1 & l2 & ->).
  specialize (Hc l1 c l2 eq_refl i j Hc2 Hj). rewrite !concat_app in *. simpl in *. set_solver.
Qed.

Lemma closed_reach sccs : closedPrefix sccs → ∀ i j, i ∈ concat sccs → reach i j → j ∈ concat sccs.
Proof.
  intros Hc i j Hi Hr. induction Hr as [|i k j Hs Hr IH]; [done|]. apply IH. by apply (closed_concat sccs Hc i).
Qed.

Lemma closedPrefix_prefix l1 l2 : closedPrefix (l1 ++ l2) → closedPrefix l1.
Proof. intros H a c b -> i j. apply (H a c (b ++ l2)). by rewrite <- app_assoc. Qed.

(** The call on [i] ends: the successors of the nodes from [i] upwards were seen, and none
    of them is below [i] if the low link of [i] is its number. *)
Section Done.
Context (t0 t1 : TarjanSCCCalculator) (i : Z) (seg : list Z) (v : SCCNode).
Hypothesis HL : ∃ P, Looping t0 t1 i seg P ∧ ∀ j, succOf i j → j ∈ P.
Hypothesis Ht0 : TInv t0.
Hypothesis Hi : i ∉ seen t0.
Hypothesis Hv : nodeAt t1 i = Ok v.

Lemma done_succ u j : u ∈ seg ++ [i] → succOf u j → j ∈ seen t1.
Proof.
  destruct HL as (P & H & HP). intros [Hu| ->%list_elem_of_singleton]%elem_of_app Hj.
  - by apply (lp_succ _ _ _ _ _ H u).
  - by apply (lp_succi _ _ _ _ _ H), HP.
Qed.

Lemma done_low u j : u ∈ seg ++ [i] → succOf u j → j ∈ mStack t0 → low t1 i ≤ idx t0 j.
Proof.
  destruct HL as (P & H & HP). intros [Hu| ->%list_elem_of_singleton]%elem_of_app Hj Hs.
  - by apply (lp_low _ _ _ _ _ H u).
  - apply (lp_lowi _ _ _ _ _ H); [by apply HP|done].
Qed.

Lemma done_kept : mLowLink v ≠ mIndex v → Explored t0 t1 i (seg ++ [i]).
Proof.
  intros Hne. pose proof done_succ as Hs. pose proof done_low as Hl. destruct HL as (P & H & _).
  pose proof (lp_link _ _ _ _ _ H) as Hlink.
  split.
  - apply (lp_inv _ _ _ _ _ H).
  - rewrite (lp_stack _ _ _ _ _ H). by rewrite <- app_assoc.
  - apply (lp_seen _ _ _ _ _ H).
  - apply (lp_keeps _ _ _ _ _ H).
  - apply stack_seen. rewrite (lp_stack _ _ _ _ _ H). set_solver.
  - apply (lp_total _ _ _ _ _ H).
  - exact Hs.
  - exact Hl.
  - destruct Hlink as [E|E]; [|by right]. unfold low, idx in E. by rewrite Hv in E.
  - intros u [Hu| ->%list_elem_of_singleton]%elem_of_app; [by apply (lp_reach _ _ _ _ _ H)|apply rtc_refl].
  - assert (∃ k, k ∈ mStack t0 ∧ reach i k) as (k & Hk & Hr).
    { destruct Hlink as [E|(k & Hk & _ & Hr)]; [|by exists k]. unfold low, idx in E. by rewrite Hv in E. }
    intros u [Hu| ->%list_elem_of_singleton]%elem_of_app; [|by exists k].
    destruct (lp_down _ _ _ _ _ H u Hu) as [Hui|]; [|done]. exists k. split; [done|]. by transitivity i.
Qed.

(** The stack below [i] is as before the call, and nothing above [i] was seen before. *)
Lemma done_stack : mStack t1 = (seg ++ [i]) ++ mStack t0 ∧ TInv t1 ∧ keeps t0 t1.
Proof.
  destruct HL as (P & H & _). split_and!; [|apply H..]. rewrite (lp_stack _ _ _ _ _ H). by rewrite <- app_assoc.
Qed.

Lemma done_new j : j ∈ seg ++ [i] → j ∉ mStack t0 ∧ j ∉ concat (mSCCs t1).
Proof.
  destruct done_stack as (Hs & Ht & _). pose proof (ti_nodup t1 Ht) as Hn. unfold seen in Hn.
  rewrite Hs, <- app_assoc in Hn. intros Hj. apply NoDup_app in Hn as (_ & Hd & _).
  specialize (Hd j Hj). set_solver.
Qed.

Lemma done_fresh j : j ∈ seg ++ [i] → j ∉ seen t0.
Proof.
  destruct done_stack as (Hs & Ht & Hk). intros Hj Hj0.
  destruct (done_new j Hj) as [Hn _]. apply Hn.
  assert (j ∈ mStack t1) as Hj1 by (rewrite Hs; set_solver).
  destruct (nodeAt_graph t1 j Ht) as [w Hw]; [by apply (ti_range t1 Ht), stack_seen|].
  apply (ti_onStack t1 Ht j w Hw) in Hj1.
  rewrite (Hk j Hj0) in Hw. by apply (ti_onStack t0 Ht0 j w Hw).
Qed.

(** No edge leads below [i] when its low link is its number. *)
Lemma done_closed u j :
  mLowLink v = mIndex v → u ∈ seg ++ [i] → succOf u j → j ∈ seg ++ [i] ∨ j ∈ concat (mSCCs t1).
Proof.
  intros E Hu Hj. destruct done_stack as (Hs & Ht & Hk). pose proof (done_succ u j Hu Hj) as Hseen.
  unfold seen in Hseen. rewrite Hs in Hseen. apply elem_of_app in Hseen as [[Hin|Hin]%elem_of_app|Hin];
    [by left| |by right].
  exfalso. pose proof (done_low u j Hu Hj Hin) as Hle.
  rewrite <- (proj1 (keeps_idx t0 t1 j Hk (stack_seen _ _ Hin))) in Hle.
  destruct (list_elem_of_split _ _ Hin) as (l1 & l2 & El). rewrite El, <- app_assoc in Hs.
  assert (i ∈ seg ++ [i] ++ l1) as Hil by set_solver.
  pose proof (above_idx t1 ((seg ++ [i]) ++ l1) j l2 i Ht ltac:(by rewrite Hs, <- !app_assoc)
    ltac:(by rewrite <- app_assoc)) as Hlt.
  assert (low t1 i = idx t1 i) by (unfold low, idx; by rewrite Hv). lia.
Qed.

Lemma done_closed_reach u j :
  mLowLink v = mIndex v → u ∈ seg ++ [i] → reach u j → j ∈ seg ++ [i] ∨ j ∈ concat (mSCCs t1).
Proof.
  intros E Hu Hr. destruct done_stack as (_ & Ht & _).
  assert (u ∈ seg ++ [i] ∨ u ∈ concat (mSCCs t1)) as H by by left. clear Hu.
  induction Hr as [u|u w j Hs Hr IH]; [done|]. apply IH. destruct H as [H|H]; [by apply (done_closed u)|right].
  by apply (closed_concat (mSCCs t1) (ti_closed t1 Ht) u).
Qed.

Lemma done_strong : mLowLink v = mIndex v → strong (seg ++ [i]).
Proof.
  intros E. assert (∀ u, u ∈ seg ++ [i] → reach u i ∧ reach i u) as H.
  { intros u Hu. destruct (proj1 (elem_of_app _ _ _) Hu) as [Hs| ->%list_elem_of_singleton]; [|split; apply rtc_refl].
    pose proof HL as (P & HP & _). split; [|by apply (lp_reach _ _ _ _ _ HP)].
    destruct (lp_down _ _ _ _ _ HP u Hs) as [?|(k & Hk & Hr)]; [done|exfalso].
    destruct done_stack as (Hst & Ht & _). destruct (done_closed_reach u k E Hu Hr) as [Hk'|Hk'].
    - destruct (done_new k Hk') as [Hno _]. by apply Hno.
    - pose proof (ti_nodup t1 Ht) as Hn. unfold seen in Hn. apply NoDup_app in Hn as (_ & Hn & _).
      apply (Hn k); [rewrite Hst; set_solver|done]. }
  intros a b Ha Hb. transitivity i; [by apply H|by apply H].
Qed.

(** The popped component *)
Context (c : BitSet) (nodes : list SCCNode).
Hypothesis Hc : bsorted c.
Hypothesis Hin : ∀ j, j ∈ c ↔ j ∈ seg ++ [i].
Hypothesis Hu : unstack (seg ++ [i]) (mSCCNodes t1) nodes.

Definition popped : TarjanSCCCalculator :=
  {| mSCCNodes := nodes; mStack := mStack t0; mNextIndex := mNextIndex t1; mSCCs := mSCCs t1 ++ [c] |}.

Lemma popped_seen : seen popped ≡ₚ seen t1.
Proof.
  destruct done_stack as (Hs & Ht & _). unfold seen. simpl. rewrite Hs, concat_app. simpl.
  assert (c ≡ₚ seg ++ [i]) as ->.
  { apply NoDup_Permutation; [by apply bsorted_NoDup| |done].
    pose proof (ti_nodup t1 Ht) as Hn. unfold seen in Hn. rewrite Hs, <- app_assoc in Hn.
    apply NoDup_app in Hn as [Hn _]. exact Hn. }
  solve_Permutation.
Qed.

Lemma popped_node j w' : nodeAt popped j = Ok w' → ∃ w, nodeAt t1 j = Ok w ∧
  mIndex w' = mIndex w ∧ mLowLink w' = mLowLink w ∧
  (j ∈ seg ++ [i] → mOnStack w' = false) ∧ (j ∉ seg ++ [i] → w' = w).
Proof. apply (proj2 Hu). Qed.

Lemma popped_idx j : idx popped j = idx t1 j ∧ low popped j = low t1 j.
Proof.
  unfold idx, low. destruct (nodeAt popped j) as [w'|] eqn:E.
  - destruct (popped_node j w' E) as (w & -> & -> & -> & _). done.
  - destruct (nodeAt t1 j) as [w|] eqn:E1; [|done]. exfalso. apply inRange_at in E1.
    assert (inRange nodes j) as Hr by (unfold inRange in *; by rewrite (proj1 Hu)).
    apply at_inRange in Hr as [x Hx]. unfold nodeAt in E. simpl in E. congruence.
Qed.

Lemma popped_keeps : keeps t0 popped.
Proof.
  destruct done_stack as (Hs & Ht & Hk). intros j Hj. rewrite <- (Hk j Hj).
  destruct (nodeAt_graph t0 j Ht0) as [w0 Hw0]; [by apply (ti_range t0 Ht0)|].
  rewrite <- (Hk j Hj) in Hw0. assert (inRange nodes j) as Hr.
  { apply inRange_at in Hw0. unfold inRange in *. by rewrite (proj1 Hu). }
  apply at_inRange in Hr as [x Hx]. change (nodeAt popped j = Ok x) in Hx.
  destruct (popped_node j x Hx) as (w & Hw & _ & _ & _ & Hsame). rewrite Hx, Hw. f_equal.
  apply Hsame. intros Hin'. by apply (done_fresh j Hin').
Qed.

Lemma popped_inv : mLowLink v = mIndex v → TInv popped.
Proof.
  intros E. destruct done_stack as (Hs & Ht & Hk). pose proof popped_seen as Hp.
  assert (∀ j, j ∈ mStack t0 → j ∈ mStack t1) as Hold by (intros j Hj; rewrite Hs; set_solver).
  split.
  - simpl. rewrite (proj1 Hu). apply Ht.
  - rewrite Hp. apply Ht.
  - intros j Hj. rewrite Hp in Hj. by apply (ti_range t1 Ht).
  - intros j w' Hw'. destruct (popped_node j w' Hw') as (w & Hw & -> & _). rewrite Hp.
    by apply (ti_seen t1 Ht).
  - intros j w' Hw'. destruct (popped_node j w' Hw') as (w & Hw & _ & _ & Hoff & Hsame). simpl.
    destruct (decide (j ∈ seg ++ [i])) as [Hj|Hj].
    + rewrite (Hoff Hj). pose proof (proj1 (done_new j Hj)). by split.
    + rewrite (Hsame Hj), (ti_onStack t1 Ht j w Hw), Hs. set_solver.
  - intros j Hj. rewrite (proj1 (popped_idx j)). by apply (ti_index t1 Ht), Hold.
  - apply (ti_next t1 Ht).
  - apply (order_ext t1); [intros j _; apply popped_idx|]. simpl.
    pose proof (ti_order t1 Ht) as Ho. rewrite Hs in Ho. by eapply sorted_tail.
  - apply closedPrefix_snoc; [apply (ti_closed t1 Ht)|]. intros u j Hu0 Hj. rewrite concat_app.
    simpl. rewrite app_nil_r, elem_of_app, (Hin j). rewrite Hin in Hu0.
    destruct (done_closed u j E Hu0 Hj); tauto.
  - apply Forall_app. split; [apply (ti_sorted t1 Ht)|]. by constructor.
  - apply Forall_app. split; [apply (ti_strong t1 Ht)|]. constructor; [|done].
    intros a b Ha Hb. rewrite Hin in Ha, Hb. by apply done_strong.
Qed.

Lemma popped_explored : mLowLink v = mIndex v → Explored t0 popped i [].
Proof.
  intros E. pose proof (popped_inv E) as Hinv. pose proof popped_seen as Hp.
  pose proof popped_keeps as Hk. pose proof (popped_idx i) as [_ El]. destruct HL as (P & H & _).
  split; try done.
  - intros j Hj. rewrite Hp. by apply (lp_seen _ _ _ _ _ H).
  - rewrite Hp. apply stack_seen. rewrite (lp_stack _ _ _ _ _ H). set_solver.
  - rewrite Hp. apply (lp_total _ _ _ _ _ H).
  - intros u j Hu0. by apply elem_of_nil in Hu0.
  - intros u j Hu0. by apply elem_of_nil in Hu0.
  - left. split; [done|]. rewrite El, <- (lp_idx _ _ _ _ _ H). unfold low, idx. rewrite Hv. lia.
  - intros u Hu0. by apply elem_of_nil in Hu0.
  - intros u Hu0. by apply elem_of_nil in Hu0.
Qed.
End Done.

Lemma scc_ok fuel : sccSpec fuel (scc graph fuel).
Proof.
  induction fuel as [|fuel IH]; intros i t Ht Hi Hn Hfuel; [pose proof (seen_bound t Ht); lia|].
  simpl. destruct (nodeAt_graph t i Ht Hi) as [v0 Hv0]. unfold nodeAt in Hv0. rewrite Hv0. simpl.
  destruct (at_inRange graph i Hi) as [q Hq]. rewrite Hq. simpl.
  assert (∀ j, succOf i j → j ∈ mAllSuccessors q) as Hsucc.
  { intros j (q' & Hq' & Hj). rewrite Hq in Hq'. by injection Hq' as <-. }
  destruct (sccEdges_ok fuel (scc graph fuel) t i (mAllSuccessors q) IH Hn) with
    (seg := @nil Z) (P := @nil Z) (t1 := visit i t) as (t1 & seg & -> & HL);
    [intros j Hj; by exists q|by apply Looping_start|lia|]. simpl.
  assert (∃ P, Looping t t1 i seg P ∧ ∀ j, succOf i j → j ∈ P) as HL'.
  { eexists. split; [exact HL|]. intros j Hj. rewrite app_nil_r, list_elem_of_In, <- in_rev, <- list_elem_of_In.
    by apply Hsucc. }
  destruct (done_stack t t1 i seg HL') as (Hs & Ht1 & _).
  destruct (nodeAt_graph t1 i Ht1 Hi) as [v Hv]. pose proof Hv as Hv'. unfold nodeAt in Hv'. rewrite Hv'. simpl.
  destruct (Z.eqb_spec (mLowLink v) (mIndex v)) as [E|E].
  - destruct (popComponent_ok i (mStack t) seg) with (acc := [i]) (nodes := mSCCNodes t1)
      as (c & nodes & Ep & Hc & Hin & Hu).
    + pose proof (ti_nodup t1 Ht1) as Hnd. unfold seen in Hnd. rewrite Hs, <- !app_assoc in Hnd.
      apply NoDup_app in Hnd as (_ & Hnd & _). intros Hx. apply (Hnd i Hx). set_solver.
    + intros j Hj. assert (inRange graph j) as Hjr.
      { apply (ti_range t1 Ht1), stack_seen. rewrite Hs. set_solver. }
      unfold inRange in *. rewrite (ti_length t1 Ht1). lia.
    + repeat constructor.
    + rewrite Hs, <- app_assoc. simpl. rewrite bs_add_small by (unfold inRange in Hi; lia). simpl. rewrite Ep. simpl. eexists _, []. split; [done|].
      apply (popped_explored t t1 i seg v HL' Ht Hn Hv c nodes Hc); [|done..].
      intros j. rewrite Hin. set_solver.
  - exists t1, (seg ++ [i]). split; [done|]. by apply (done_kept t t1 i seg v).
Qed.

(** ** All the roots *)

Lemma sccRoots_ok l t :
  TInv t → mStack t = [] → (∀ n, n ∈ l → (n < length graph)%nat) →
  ∃ t', sccRoots graph l t = Ok t' ∧ TInv t' ∧ mStack t' = [] ∧ seen t ⊆ seen t' ∧
    ∀ n, n ∈ l → Z.of_nat n ∈ seen t'.
Proof.
  revert t. induction l as [|n l IH]; intros t Ht Hs Hl; cbn [sccRoots].
  { exists t. split_and!; try done. intros n Hn. by apply elem_of_nil in Hn. }
  assert (inRange graph (Z.of_nat n)) as Hn by (specialize (Hl n ltac:(by left)); unfold inRange; lia).
  destruct (nodeAt_graph t _ Ht Hn) as [v Hv]. pose proof Hv as Hv'. unfold nodeAt in Hv'. rewrite Hv'. cbn [obind].
  assert (∃ t1, (if mIndex v =? -1 then scc graph (S (length graph)) (Z.of_nat n) t else Ok t) = Ok t1 ∧
    TInv t1 ∧ mStack t1 = [] ∧ seen t ⊆ seen t1 ∧ Z.of_nat n ∈ seen t1) as (t1 & E & Ht1 & Hs1 & Hsub & Hin).
  { destruct (Z.eqb_spec (mIndex v) (-1)) as [Hm|Hm].
    - destruct (scc_ok (S (length graph)) (Z.of_nat n) t Ht Hn) as (t1 & seg & E & HE); [|lia|].
      + by rewrite <- (ti_seen t Ht _ v Hv); intros [].
      + exists t1. split_and!; [done|apply HE| |apply HE|apply (ex_here _ _ _ _ HE)].
        destruct (ex_link _ _ _ _ HE) as [[-> _]|(k & Hk & _)]; [by rewrite (ex_stack _ _ _ _ HE)|].
        rewrite Hs in Hk. by apply elem_of_nil in Hk.
    - exists t. split_and!; try done. by apply (ti_seen t Ht _ v Hv). }
  rewrite E. cbn [obind]. destruct (IH t1 Ht1 Hs1) as (t2 & E2 & Ht2 & Hs2 & Hsub2 & Hin2); [set_solver|].
  exists t2. split_and!; try done; [set_solver|]. intros m [->|Hm]%elem_of_cons; [by apply Hsub2|by apply Hin2].
Qed.

Lemma start_inv : TInv
  {| mSCCNodes := replicate (length graph) {| mIndex := -1; mLowLink := -1; mOnStack := false |};
     mStack := []; mNextIndex := 0; mSCCs := [] |}.
Proof.
  split; unfold nodeAt, seen; simpl.
  - apply length_replicate.
  - constructor.
  - intros i Hi. by apply elem_of_nil in Hi.
  - intros i v [_ Hv]%at_ok. apply lookup_replicate in Hv as [-> _]. rewrite elem_of_nil. simpl. lia.
  - intros i v [_ Hv]%at_ok. apply lookup_replicate in Hv as [-> _]. by rewrite elem_of_nil.
  - intros i Hi. by apply elem_of_nil in Hi.
  - done.
  - constructor.
  - intros l1 c l2 E. by destruct l1.
  - constructor.
  - constructor.
Qed.

(** What the components are: a partition of the nodes into strongly connected sets,
    ordered so that no edge leads to a later component. *)
Record Components (sccs : list BitSet) : Prop := {
  co_nodup : NoDup (concat sccs);
  co_all i : i ∈ concat sccs ↔ inRange graph i;
  co_sorted : Forall bsorted sccs;
  co_strong : Forall strong sccs;
  co_closed : closedPrefix sccs
}.

Lemma calculateSCCs_ok : ∃ t, calculateSCCs graph = Ok t ∧ Components (mSCCs t).
Proof.
  destruct (sccRoots_ok (seq 0 (length graph)) _ start_inv) as (t & E & Ht & Hs & _ & Hall); [done| |].
  { intros n Hn%elem_of_seq. lia. }
  assert (seen t = concat (mSCCs t)) as Eseen by (unfold seen; by rewrite Hs).
  exists t. split; [exact E|]. split; [| |apply Ht..].
  - rewrite <- Eseen. apply (ti_nodup t Ht).
  - intros i. rewrite <- Eseen. split; [apply (ti_range t Ht)|]. intros [H1 H2].
    rewrite <- (Z2Nat.id i) by done. apply Hall, elem_of_seq. lia.
Qed.

(** The components are the classes of mutual reachability. *)
Lemma Components_exact sccs c i j :
  Components sccs → c ∈ sccs → i ∈ c → j ∈ c ↔ reach i j ∧ reach j i.
Proof.
  intros Hco Hc Hi. pose proof (co_strong _ Hco) as Hst. rewrite Forall_forall in Hst.
  split; [intros Hj; split; by apply (Hst c)|]. intros [Hij Hji].
  apply list_elem_of_split in Hc as (l1 & l2 & E). pose proof (co_closed _ Hco) as Hcl.
  pose proof (co_nodup _ Hco) as Hn. rewrite E in Hcl, Hn.
  assert (j ∈ concat (l1 ++ [c])) as Hj.
  { apply (closed_reach (l1 ++ [c])) with i; [|rewrite concat_app; set_solver|done].
    apply (closedPrefix_prefix _ l2). by rewrite <- app_assoc. }
  rewrite concat_app in Hj. simpl in Hj. rewrite app_nil_r in Hj.
  apply elem_of_app in Hj as [Hj|Hj]; [exfalso|done].
  assert (i ∈ concat l1) as Hi1 by (apply (closed_reach l1) with j; [by eapply closedPrefix_prefix|done..]).
  rewrite concat_app in Hn. apply NoDup_app in Hn as (_ & Hn & _). apply (Hn i Hi1). simpl. set_solver.
Qed.
End Tarjan.

(** ** The result *)

(** C29: on every graph of at most 64 nodes whose edges stay in the graph, Tarjan's algorithm
    completes without a failed access, and its components partition the nodes into the classes of mutual
    reachability. *)
Theorem calculateSCCs_correct graph :
  (∀ i j, succOf graph i j → inRange graph j) → (length graph ≤ 64)%nat →
  ∃ t, calculateSCCs graph = Ok t ∧ NoDup (concat (mSCCs t)) ∧
    (∀ i, i ∈ concat (mSCCs t) ↔ inRange graph i) ∧
    ∀ c i j, c ∈ mSCCs t → i ∈ c → j ∈ c ↔ reach graph i j ∧ reach graph j i.
Proof.
  intros Hr Hs. destruct (calculateSCCs_ok graph Hr Hs) as (t & E & Hco). exists t.
  split_and!; [done|apply Hco|apply Hco|]. intros c i j. by apply Components_exact.
Qed.

(** Two nodes that trust each other, and one that trusts the first of them *)
Definition exampleGraph : QGraph :=
  [QBitSet_new 1 [1] []; QBitSet_new 1 [0] []; QBitSet_new 1 [0] []].

Lemma calculateSCCs_correct_witness :
  calculateSCCs exampleGraph = Ok {| mSCCNodes := [{| mIndex := 0; mLowLink := 0; mOnStack := false |};
      {| mIndex := 1; mLowLink := 0; mOnStack := false |}; {| mIndex := 2; mLowLink := 2; mOnStack := false |}];
    mStack := []; mNextIndex := 3; mSCCs := [[0; 1]; [2]] |} ∧
  reach exampleGraph 0 1 ∧ reach exampleGraph 1 0.
Proof.
  destruct (calculateSCCs_correct exampleGraph) as (t & E & _ & _ & H).
  { intros i j (q & Hq & Hj). apply at_ok in Hq as [Hi Hq].
    destruct (Z.to_nat i) as [|[|[|n]]]; [| | |done]; injection Hq as <-; cbn in Hj;
      apply list_elem_of_singleton in Hj as ->; unfold inRange; simpl; lia. }
  { simpl. lia. }
  assert (calculateSCCs exampleGraph = Ok {| mSCCNodes := [{| mIndex := 0; mLowLink := 0; mOnStack := false |};
      {| mIndex := 1; mLowLink := 0; mOnStack := false |}; {| mIndex := 2; mLowLink := 2; mOnStack := false |}];
    mStack := []; mNextIndex := 3; mSCCs := [[0; 1]; [2]] |}) as E' by (vm_compute; reflexivity).
  split; [exact E'|]. rewrite E' in E. injection E as <-.
  apply (H [0; 1]); [by left|by left|by right; left].
Defined.
