(* ===== verification/QicSlices.v ===== *)
(** * The bit set form of the quorum sets

    [buildGraph] numbers the nodes and converts their quorum sets; on the converted
    sets [containsQuorumSlice] computes the reference meaning [sat]. *)

From stdpp Require Import prelude list.
From Stdlib Require Import ZArith Lia Sorted.
From S2P Require Import Prelude QuorumSet QuorumIntersection QicTarjan.
Local Open Scope Z_scope.

(** ** Numbering *)

(** The nodes whose quorum set is known, with it *)
Definition known (qmap : QuorumMap) : list (NodeID * SCPQuorumSet) :=
  omap (λ p, match p.2 with Some q => Some (p.1, q) | None => None end) qmap.

Definition numbered (n : nat) (keys : list NodeID) : list (NodeID * Z) :=
  imap (λ i k, (k, Z.of_nat (n + i))) keys.

Lemma numbered_snoc n keys k :
  numbered n (keys ++ [k]) = numbered n keys ++ [(k, Z.of_nat (n + length keys))].
Proof. unfold numbered. rewrite imap_app. simpl. do 3 f_equal. lia. Qed.

Lemma numberNodes_eq qmap :
  numberNodes qmap = ((known qmap).*1, numbered 0 (known qmap).*1).
Proof.
  unfold numberNodes. induction qmap as [|[n q] qmap IH] using rev_ind; [done|].
  rewrite foldl_app, IH. unfold known. rewrite omap_app, !fmap_app. simpl.
  destruct q as [q|]; simpl; [|by rewrite !app_nil_r]. by rewrite numbered_snoc.
Qed.

Lemma numbered_cons n k keys : numbered n (k :: keys) = (k, Z.of_nat n) :: numbered (S n) keys.
Proof.
  unfold numbered. simpl. f_equal; [do 2 f_equal; lia|]. apply imap_ext. intros. simpl. do 2 f_equal. lia.
Qed.

Lemma findBit_numbered keys v i n : NoDup keys →
  findBit v (numbered n keys) = Some i ↔ Z.of_nat n ≤ i ∧ keys !! (Z.to_nat i - n)%nat = Some v.
Proof.
  intros Hn. revert n. induction Hn as [|k keys Hk Hn IH]; intros n; [by split; [|intros [_ ?]]|].
  rewrite numbered_cons. simpl. destruct (Z.eqb_spec k v) as [->|Hne].
  - split; [intros [= <-]; split; [lia|]; by rewrite Nat2Z.id, Nat.sub_diag|].
    intros [H1 H2]. destruct (Z.to_nat i - n)%nat as [|m] eqn:E; [f_equal; lia|]. simpl in H2.
    destruct Hk. by eapply list_elem_of_lookup_2.
  - rewrite IH. split; intros [H1 H2].
    + split; [lia|]. by replace (Z.to_nat i - n)%nat with (S (Z.to_nat i - S n)) by lia.
    + destruct (Z.to_nat i - n)%nat as [|m] eqn:E; simpl in H2; [congruence|]. split; [lia|].
      by replace (Z.to_nat i - S n)%nat with m by lia.
Qed.

(** ** Conversion *)

Section Convert.
Context (nums : list (NodeID * Z)).

(** Different nodes have different bits. *)
Hypothesis Hinj : ∀ v w i, findBit v nums = Some i → findBit w nums = Some i → v = w.

(** The node belongs to the bit set. *)
Definition holds (bs : BitSet) (v : NodeID) : bool :=
  match findBit v nums with Some i => bs_get bs i | None => false end.

(** The bits of a list of nodes *)
Definition bitsOf (l : list NodeID) (s : BitSet) : Prop :=
  bsorted s ∧ ∀ i, i ∈ s ↔ ∃ v, v ∈ l ∧ findBit v nums = Some i.

Lemma bitsOf_fold v : bitsOf v (foldl (λ s v, match findBit v nums with
  | None => s | Some i => bs_set i s end) [] v).
Proof using.
  clear Hinj. induction v as [|x v IH] using rev_ind.
  { split; [constructor|]. intros i. split; [by intros ?%elem_of_nil|by intros (w & ?%elem_of_nil & _)]. }
  rewrite foldl_app. simpl. destruct IH as [Hs He]. destruct (findBit x nums) as [j|] eqn:E.
  - split; [by apply bs_set_sorted|]. intros i. rewrite elem_of_bs_set, He. set_solver.
  - split; [done|]. intros i. rewrite He. set_solver.
Qed.

Lemma bitsOf_union a b s s' : bitsOf a s → bitsOf b s' → bitsOf (a ++ b) (bs_union s s').
Proof using.
  clear Hinj. intros [H1 H2] [H3 H4]. split; [by apply bs_union_sorted|]. intros i.
  rewrite elem_of_bs_union, H2, H4. set_solver.
Qed.

Lemma convert_nodes t v i : bitsOf v (mNodes (convertSCPQuorumSet nums (QSet t v i))).
Proof using. apply bitsOf_fold. Qed.

Lemma convert_successors q : bitsOf (qset_nodes q) (mAllSuccessors (convertSCPQuorumSet nums q)).
Proof using.
  clear Hinj. induction q as [t v i IH] using qset_ind. simpl. unfold getSuccessors.
  generalize (bitsOf_fold v). generalize (foldl (λ s v, match findBit v nums with
    | None => s | Some i => bs_set i s end) [] v). revert v.
  induction IH as [|q i Hq _ IHi]; intros v s Hs; simpl; [by rewrite app_nil_r|].
  rewrite app_assoc. apply IHi. by apply bitsOf_union.
Qed.

Lemma NoDup_bits l : NoDup l → NoDup (omap (λ v, findBit v nums) l).
Proof.
  induction 1 as [|v l Hv Hl IH]; simpl; [constructor|]. destruct (findBit v nums) as [i|] eqn:E; [|done].
  constructor; [|done]. intros (w & Hw & Ew)%list_elem_of_omap. destruct Hv. by rewrite (Hinj v w i).
Qed.

Lemma length_bits l : (∀ v, v ∈ l → is_Some (findBit v nums)) →
  length (omap (λ v, findBit v nums) l) = length l.
Proof using.
  clear Hinj. induction l as [|v l IH]; intros H; simpl; [done|].
  destruct (H v) as [i ->]; [by left|]. simpl. f_equal. apply IH. intros w Hw. apply H. by right.
Qed.

Lemma holds_Some bs v : holds bs v = true ↔ ∃ i, findBit v nums = Some i ∧ i ∈ bs.
Proof using.
  clear Hinj. unfold holds, bs_get. destruct (findBit v nums) as [i|]; [|naive_solver].
  rewrite bool_decide_eq_true. naive_solver.
Qed.

(** The nodes of a list that belong to a bit set are counted by intersection. *)
Lemma count_bits bs l s :
  NoDup bs → NoDup l → bitsOf l s → bs_interCount bs s = countZ (holds bs) l.
Proof.
  intros Hbs Hl [_ Hs]. unfold bs_interCount, bs_count, countZ. f_equal.
  assert (∀ v, v ∈ List.filter (holds bs) l ↔ v ∈ l ∧ ∃ i, findBit v nums = Some i ∧ i ∈ bs) as Hf.
  { intros v. rewrite list_elem_of_In, filter_In, <- list_elem_of_In, holds_Some. done. }
  assert (bs_inter bs s ≡ₚ omap (λ v, findBit v nums) (List.filter (holds bs) l)) as ->.
  { apply NoDup_Permutation; [by apply NoDup_filter|apply NoDup_bits, NoDup_ListNoDup, List.NoDup_filter;
      by apply NoDup_ListNoDup|].
    intros i. unfold bs_inter. rewrite list_elem_of_filter, Hs, list_elem_of_omap. setoid_rewrite Hf.
    naive_solver. }
  apply length_bits. intros v (_ & i & Hi & _)%Hf. by exists i.
Qed.

(** ** Slices *)

Lemma sliceLoop_ok {f : QBitSet → bool} inner t fl :
  1 ≤ t → 1 ≤ fl → fl = Z.of_nat (length inner) - t + 1 →
  sliceLoop f inner t fl = (t <=? countZ f inner).
Proof using.
  clear Hinj. revert t fl. induction inner as [|q inner IH]; intros t fl Ht Hf E; simpl in *.
  { unfold countZ. simpl. destruct (Z.leb_spec t 0); lia. }
  rewrite countZ_cons. pose proof (countZ_nonneg f inner). pose proof (countZ_le f inner).
  destruct (f q).
  - destruct (Z.eqb_spec (t - 1) 0); [symmetry; apply Z.leb_le; lia|].
    rewrite IH by lia. apply eq_true_iff_eq. rewrite !Z.leb_le. lia.
  - destruct (Z.eqb_spec (fl - 1) 0); [symmetry; apply Z.leb_gt; lia|].
    rewrite IH by lia. apply eq_true_iff_eq. rewrite !Z.leb_le. lia.
Qed.

(** What the checker relies on: thresholds are positive, and no node is mentioned twice. *)
Definition plain (q : SCPQuorumSet) : Prop := at_levels (λ t _, 1 ≤ t) q ∧ NoDup (qset_nodes q).

Lemma plain_inner t v i q : plain (QSet t v i) → q ∈ i → plain q.
Proof using.
  clear Hinj. intros [[_ Hl] Hn] Hq. rewrite all_in_Forall, Forall_forall in Hl. split; [by apply Hl|].
  apply list_elem_of_split in Hq as (a & b & ->). simpl in Hn. rewrite map_app, concat_app in Hn. simpl in Hn.
  apply NoDup_app in Hn as (_ & _ & Hn). apply NoDup_app in Hn as (_ & _ & Hn). by apply NoDup_app in Hn as (? & _).
Qed.

(** A satisfied quorum set has as many of its nodes in the set as its threshold says. *)
Lemma sat_count S q : plain q → sat S q = true → threshold q ≤ countZ S (qset_nodes q).
Proof using.
  clear Hinj. induction q as [t v i IH] using qset_ind. intros Hp. simpl. rewrite Z.leb_le, countZ_app.
  intros H. enough (countZ (sat S) i ≤ countZ S (concat (map qset_nodes i))) by lia. clear H.
  assert (∀ q, q ∈ i → plain q) as Hi by (intros q; by apply (plain_inner t v i)).
  clear Hp. induction IH as [|q i Hq _ IHi]; [done|]. simpl. rewrite countZ_cons, countZ_app.
  specialize (IHi ltac:(set_solver)). pose proof (countZ_nonneg S (qset_nodes q)).
  assert (plain q) as Hp by (apply Hi; by left).
  destruct (sat S q) eqn:E; [|lia]. specialize (Hq Hp eq_refl).
  destruct q as [t' v' i'], Hp as [[? _] _]. simpl in *. lia.
Qed.

Lemma containsQuorumSlice_ok bs q : NoDup bs → plain q →
  containsQuorumSlice bs (convertSCPQuorumSet nums q) = sat (holds bs) q.
Proof.
  intros Hbs. induction q as [t v i IH] using qset_ind. intros Hp.
  assert (NoDup v) as Hnv by (destruct Hp as [_ (? & _)%NoDup_app]; done).
  pose proof (count_bits bs v _ Hbs Hnv (convert_nodes t v i)) as Hv.
  pose proof (count_bits bs _ _ Hbs (proj2 Hp) (convert_successors (QSet t v i))) as Hs.
  pose proof (sat_count (holds bs) _ Hp) as Hc.
  assert (countZ (containsQuorumSlice bs) (map (convertSCPQuorumSet nums) i) = countZ (sat (holds bs)) i) as Hi.
  { clear -IH Hp Hbs Hinj. assert (∀ q, q ∈ i → plain q) as Hi by (intros q; by apply (plain_inner t v i)).
    clear Hp. induction IH as [|q i Hq _ IHi]; [done|]. simpl. rewrite !countZ_cons, IHi, Hq by set_solver. done. }
  simpl in *. unfold QBitSet_new in *. simpl in *. rewrite Hv, length_map.
  pose proof (countZ_le (sat (holds bs)) i).
  destruct (Z.leb_spec t (countZ (holds bs) v)).
  { symmetry. apply Z.leb_le. pose proof (countZ_nonneg (sat (holds bs)) i). lia. }
  destruct (Z.ltb_spec (Z.of_nat (length i)) (t - countZ (holds bs) v)).
  { symmetry. apply Z.leb_gt. lia. }
  rewrite Hs. destruct (Z.ltb_spec (countZ (holds bs) (v ++ concat (map qset_nodes i))) t) as [Hlt|_].
  { symmetry. apply not_true_is_false. intros Ht%Hc. simpl in Ht. lia. }
  rewrite sliceLoop_ok by (rewrite ?length_map; lia). rewrite Hi. apply eq_true_iff_eq. rewrite !Z.leb_le. lia.
Qed.
End Convert.

(** ** The graph of a quorum map *)

Record qmapOk (qmap : QuorumMap) : Prop := {
  qo_keys : NoDup qmap.*1;
  qo_small : (length (known qmap) ≤ 64)%nat;
  qo_plain n q : (n, Some q) ∈ qmap → plain q
}.

Lemma known_app a b : known (a ++ b) = known a ++ known b.
Proof. apply omap_app. Qed.

Lemma elem_of_known qmap n q : (n, q) ∈ known qmap ↔ (n, Some q) ∈ qmap.
Proof.
  unfold known. rewrite list_elem_of_omap. split.
  - intros ([n' [q'|]] & H & [=]). by subst.
  - intros H. by exists (n, Some q).
Qed.

Lemma known_keys qmap : NoDup qmap.*1 → NoDup (known qmap).*1.
Proof.
  induction qmap as [|[n [q|]] qmap IH]; [done| |].
  - intros [H1 H2]%NoDup_cons. change (NoDup (n :: (known qmap).*1)). constructor; [|by apply IH].
    intros ([n' q'] & -> & Hin%elem_of_known)%list_elem_of_fmap. destruct H1. simpl.
    by apply (list_elem_of_fmap_2 fst) in Hin.
  - intros [H1 H2]%NoDup_cons. by apply IH.
Qed.

Lemma key_unique {A} (l : list (NodeID * A)) n x y :
  NoDup l.*1 → (n, x) ∈ l → (n, y) ∈ l → x = y.
Proof.
  induction l as [|[k z] l IH]; intros Hn Hx Hy; [by apply elem_of_nil in Hx|].
  apply NoDup_cons in Hn as [Hk Hn].
  assert (∀ w, (k, w) ∉ l) as Hno by (intros w Hw; apply Hk; by apply (list_elem_of_fmap_2 fst) in Hw).
  apply elem_of_cons in Hx as [Hx|Hx], Hy as [Hy|Hy]; simplify_eq; try done; [by destruct (Hno y)|
    by destruct (Hno x)|by apply IH].
Qed.

Section Graph.
Context (qmap : QuorumMap).
Hypothesis Hok : qmapOk qmap.
Notation keys := (known qmap).*1.
Notation nums := (numbered 0 keys).

Lemma findBit_keys v i : findBit v nums = Some i ↔ at_ keys i = Ok v.
Proof.
  rewrite findBit_numbered by apply known_keys, Hok. rewrite at_ok, Nat.sub_0_r. done.
Qed.

Lemma findBit_inj v w i : findBit v nums = Some i → findBit w nums = Some i → v = w.
Proof. rewrite !findBit_keys. congruence. Qed.

Lemma convertAll_ok pre rest :
  qmap = pre ++ rest →
  convertAll nums rest (map (convertSCPQuorumSet nums) (known pre).*2) =
  Ok (map (convertSCPQuorumSet nums) (known qmap).*2).
Proof.
  revert pre. induction rest as [|[n [q|]] rest IH]; intros pre E.
  - simpl. by rewrite E, app_nil_r.
  - simpl. assert (findBit n nums = Some (Z.of_nat (length (known pre)))) as ->.
    { apply findBit_keys, at_ok. split; [lia|]. rewrite Nat2Z.id, E, known_app, fmap_app.
      rewrite lookup_app_r by (by rewrite length_fmap). by rewrite length_fmap, Nat.sub_diag. }
    rewrite length_map, length_fmap, Z.eqb_refl.
    rewrite <- (IH (pre ++ [(n, Some q)])) by (by rewrite <- app_assoc).
    by rewrite known_app, fmap_app, map_app.
  - simpl. rewrite <- (IH (pre ++ [(n, None)])) by (by rewrite <- app_assoc).
    by rewrite known_app, app_nil_r.
Qed.

Definition graphOf : QGraph := map (convertSCPQuorumSet nums) (known qmap).*2.

Lemma buildGraph_ok :
  buildGraph qmap = Ok {| mBitNumPubKeys := keys; mPubKeyBitNums := nums; mGraph := graphOf |}.
Proof.
  unfold buildGraph. rewrite numberNodes_eq. pose proof (convertAll_ok [] qmap eq_refl) as E.
  simpl in E. by rewrite E.
Qed.

Lemma graph_at i b : at_ graphOf i = Ok b ↔
  ∃ n q, at_ keys i = Ok n ∧ (n, Some q) ∈ qmap ∧ b = convertSCPQuorumSet nums q.
Proof.
  unfold graphOf. rewrite at_ok, list_lookup_fmap, list_lookup_fmap. setoid_rewrite at_ok.
  setoid_rewrite list_lookup_fmap. split.
  - intros [Hi H]. destruct (known qmap !! Z.to_nat i) as [[n q]|] eqn:E; [|done]. simplify_eq/=.
    exists n, q. split_and!; [done..| |done]. apply elem_of_known. by eapply list_elem_of_lookup_2.
  - intros (n & q & [Hi H] & Hq & ->). split; [done|].
    destruct (known qmap !! Z.to_nat i) as [[n' q']|] eqn:E; [|done]. simplify_eq/=. do 2 f_equal.
    apply list_elem_of_lookup_2, elem_of_known in E.
    pose proof (key_unique qmap n _ _ (qo_keys _ Hok) E Hq). congruence.
Qed.
End Graph.
