(* ===== verification/QicSearch.v ===== *)
(** * The search for disjoint quorums is exact

    The graph enters through laws ([GraphOk]): its nodes fit into inline bit sets, edges
    stay in the graph, a larger set has the slices of a smaller one, and a slice depends on successors only.  Under
    these laws the contraction to a maximal quorum computes the greatest quorum of a
    set, the test for minimality is exact, and the branch-and-bound search finds disjoint
    quorums if and only if there are any. *)

From stdpp Require Import prelude list.
From Stdlib Require Import ZArith Lia Sorted.
From S2P Require Import Prelude QuorumSet QuorumIntersection QicTarjan.
Local Open Scope Z_scope.

Class GraphOk (graph : QGraph) : Prop := {
  go_small : (length graph ≤ 64)%nat;
  go_range i j : succOf graph i j → inRange graph j;
  go_mono i q a b : at_ graph i = Ok q → NoDup a → NoDup b → a ⊆ b →
    containsQuorumSlice a q = true → containsQuorumSlice b q = true;
  go_local i q a b : at_ graph i = Ok q → NoDup a → NoDup b →
    (∀ j, j ∈ mAllSuccessors q → j ∈ a ↔ j ∈ b) → containsQuorumSlice a q = containsQuorumSlice b q
}.

Lemma unset_absent i s : i ∉ s → bs_unset i s = s.
Proof.
  unfold bs_unset. induction s as [|x s IH]; intros H; [done|]. rewrite filter_cons_True by set_solver.
  rewrite IH; set_solver.
Qed.

Lemma bs_empty_iff s : bs_empty s = true ↔ s = [].
Proof. by destruct s. Qed.

Section Search.
Context (graph : QGraph) {Hgraph : GraphOk graph}.

(** ** Quorums *)

(** [i] has a slice in [s]. *)
Definition sliceIn (s : BitSet) (i : Z) : Prop :=
  ∃ q, at_ graph i = Ok q ∧ containsQuorumSlice s q = true.

Definition closedSet (s : BitSet) : Prop := bsorted s ∧ ∀ i, i ∈ s → sliceIn s i.
Definition quorum (s : BitSet) : Prop := closedSet s ∧ s ≠ [].
Definition minimal (s : BitSet) : Prop := quorum s ∧ ∀ u, quorum u → u ⊆ s → u = s.

(** A set of nodes of the graph *)
Definition nodeSet (s : BitSet) : Prop := bsorted s ∧ ∀ i, i ∈ s → inRange graph i.

Lemma sliceIn_mono a b i : bsorted a → bsorted b → a ⊆ b → sliceIn a i → sliceIn b i.
Proof.
  intros Ha Hb Hs (q & Hq & H). exists q. split; [done|].
  by apply (go_mono i q a b Hq (bsorted_NoDup _ Ha) (bsorted_NoDup _ Hb)).
Qed.

Lemma quorum_nodeSet s : quorum s → nodeSet s.
Proof. intros [[Hs Hc] _]. split; [done|]. intros i (q & Hq & _)%Hc. by eapply inRange_at. Qed.

Lemma nodeSet_unset i s : nodeSet s → nodeSet (bs_unset i s).
Proof.
  intros [Hs Hr]. split; [by apply bsorted_filter|]. intros j [_ Hj]%list_elem_of_filter. by apply Hr.
Qed.

(** ** Contraction *)

Lemma containsQuorumSliceForNode_ok s i : inRange graph i →
  ∃ b, containsQuorumSliceForNode graph s i = Ok b ∧ (b = true ↔ i ∈ s ∧ sliceIn s i).
Proof.
  intros Hi. unfold containsQuorumSliceForNode, bs_get. destruct (at_inRange graph i Hi) as [q Hq].
  case_bool_decide as Hin; simpl; [|exists false; split; [done|]; naive_solver].
  rewrite Hq. simpl. eexists. split; [done|]. split; [intros H; split; [done|by exists q]|].
  intros (_ & q' & Hq' & H). rewrite Hq in Hq'. by injection Hq' as <-.
Qed.

Lemma contractPass_ok nodes : ∀ s, (∀ i, i ∈ nodes → inRange graph i) → bsorted s →
  ∃ f, contractPass graph nodes s = Ok f ∧ bsorted f ∧ f ⊆ s ∧
    (∀ u, closedSet u → u ⊆ s → u ⊆ f) ∧
    (length f = length s → f = s ∧ ∀ i, i ∈ nodes → i ∈ s → sliceIn s i).
Proof.
  induction nodes as [|i nodes IH]; intros s Hr Hs; simpl.
  { exists s. split_and!; try done. intros _. split; [done|]. intros i Hi. by apply elem_of_nil in Hi. }
  destruct (containsQuorumSliceForNode_ok s i) as (b & -> & Hb); [apply Hr; by left|]. simpl.
  set (s' := if b then s else bs_unset i s).
  assert (bsorted s') as Hs' by (unfold s'; destruct b; [done|by apply bsorted_filter]).
  assert (s' ⊆ s) as Hsub.
  { unfold s'. destruct b; [done|]. intros j Hj. by apply list_elem_of_filter in Hj as [_ Hj]. }
  destruct (IH s') as (f & -> & Hf & Hfs & Hu & Hl); [intros j Hj; apply Hr; by right|done|].
  exists f. split_and!; [done|done|by etrans| |].
  - intros u Hcu Hus. apply Hu; [done|]. unfold s'. destruct b; [done|]. intros j Hj.
    apply list_elem_of_filter. split; [|by apply Hus]. intros ->. 
    enough (false = true) by done. apply Hb. split; [by apply Hus|].
    destruct Hcu as [Hcs Hcu]. by apply (sliceIn_mono u s); [done..|apply Hcu].
  - intros E. assert (length f ≤ length s')%nat as H1.
    { apply submseteq_length, NoDup_submseteq; [by apply bsorted_NoDup|done]. }
    destruct b; unfold s' in *.
    + destruct (Hl E) as [-> Hn]. split; [done|]. intros j [->|Hj]%elem_of_cons Hjs; [by apply Hb|by apply Hn].
    + destruct (decide (i ∈ s)) as [Hin|Hout].
      { pose proof (length_filter_lt (λ j, j ≠ i) s i Hin ltac:(auto)). unfold bs_unset in H1. lia. }
      rewrite unset_absent in Hl by done. destruct (Hl E) as [-> Hn]. split; [done|].
      intros j [->|Hj]%elem_of_cons Hjs; [done|by apply Hn].
Qed.

(** The greatest closed subset *)
Definition greatest (s f : BitSet) : Prop :=
  closedSet f ∧ f ⊆ s ∧ ∀ u, closedSet u → u ⊆ s → u ⊆ f.

Lemma contractLoop_ok fuel : ∀ s, nodeSet s → (length s < fuel)%nat →
  ∃ f, contractLoop graph fuel s = Ok f ∧ greatest s f.
Proof.
  induction fuel as [|fuel IH]; intros s [Hs Hr] Hfuel; [lia|]. simpl.
  destruct (contractPass_ok s s Hr Hs) as (f & -> & Hf & Hfs & Hu & Hl). simpl.
  assert (length f ≤ length s)%nat as Hle.
  { apply submseteq_length, NoDup_submseteq; [by apply bsorted_NoDup|done]. }
  unfold bs_count. destruct (Z.eqb_spec (Z.of_nat (length f)) (Z.of_nat (length s))) as [E|E]; simpl.
  { destruct (Hl ltac:(lia)) as [-> Hc]. exists s. split; [done|]. split_and!; [|done..].
    split; [done|]. intros i Hi. by apply Hc. }
  destruct (bs_empty f) eqn:Ee.
  { apply bs_empty_iff in Ee as ->. exists []. split; [done|]. split_and!; [|done..]. split; [done|].
    by intros i Hi%elem_of_nil. }
  destruct (IH f) as (g & Eg & Hg & Hgf & Hgu); [|lia|].
  { split; [done|]. intros i Hi. apply Hr. by apply Hfs. }
  exists g. split; [done|]. split_and!; [done|by etrans|]. intros u Hcu Hus. apply Hgu; [done|].
  by apply Hu.
Qed.

Lemma contractToMaximalQuorum_ok s : nodeSet s →
  ∃ f, contractToMaximalQuorum graph s = Ok f ∧ greatest s f.
Proof. intros Hs. apply contractLoop_ok; [done|lia]. Qed.

Lemma greatest_empty s f : greatest s f → f = [] → ∀ u, quorum u → ¬ u ⊆ s.
Proof.
  intros (_ & _ & Hg) -> u [Hc Hne] Hs. destruct u as [|x u]; [done|].
  specialize (Hg _ Hc Hs x ltac:(by left)). by apply elem_of_nil in Hg.
Qed.

Lemma isAQuorum_ok s : nodeSet s →
  ∃ b, isAQuorum graph s = Ok b ∧ (b = true ↔ ∃ u, quorum u ∧ u ⊆ s).
Proof.
  intros Hs. unfold isAQuorum. destruct (contractToMaximalQuorum_ok s Hs) as (f & -> & Hg). simpl.
  eexists. split; [done|]. destruct (bs_empty f) eqn:E; simpl.
  - apply bs_empty_iff in E. split; [done|]. intros (u & Hu & Hus). by destruct (greatest_empty s f Hg E u Hu).
  - split; [|done]. intros _. exists f. destruct Hg as (Hc & Hf & _). split; [|done]. split; [done|].
    intros ->. done.
Qed.

(** ** Minimality *)

Lemma bs_set_unset i s : bsorted s → i ∈ s → bs_set i (bs_unset i s) = s.
Proof.
  intros Hs Hi. apply bsorted_eq; [apply bs_set_sorted, bsorted_filter, Hs|done| |]; intros j;
    rewrite elem_of_bs_set; unfold bs_unset; rewrite list_elem_of_filter; [naive_solver|].
  intros Hj. destruct (decide (j = i)); auto.
Qed.

Lemma minimalLoop_ok l s : nodeSet s → l ⊆ s →
  ∃ b, minimalLoop graph l s = Ok b ∧
    if b then ∀ i, i ∈ l → ¬ ∃ u, quorum u ∧ u ⊆ bs_unset i s
    else ∃ i u, i ∈ l ∧ quorum u ∧ u ⊆ bs_unset i s.
Proof.
  intros Hs. induction l as [|i l IH]; intros Hl; simpl.
  { exists true. split; [done|]. by intros i Hi%elem_of_nil. }
  destruct (isAQuorum_ok (bs_unset i s)) as (b & -> & Hb); [by apply nodeSet_unset|]. simpl.
  destruct b.
  - destruct (proj1 Hb eq_refl) as (u & Hu & Hus). exists false. split; [done|]. exists i, u.
    split_and!; [by left|done..].
  - rewrite bs_set_unset; [|apply Hs|apply Hl; by left].
    destruct IH as (b & -> & Hb2); [set_solver|]. exists b. split; [done|]. destruct b.
    + intros j [->|Hj]%elem_of_cons; [|by apply Hb2]. intros H'%Hb. done.
    + destruct Hb2 as (j & u & Hj & Hu). exists j, u. split; [by right|done].
Qed.

Lemma closedSet_nodeSet s : closedSet s → nodeSet s.
Proof. intros [Hs Hc]. split; [done|]. intros i (q & Hq & _)%Hc. by eapply inRange_at. Qed.

Lemma unset_proper u i s : i ∈ s → u ⊆ bs_unset i s → u ⊆ s ∧ u ≠ s.
Proof.
  intros Hi Hu. split; [intros j Hj; by apply Hu, list_elem_of_filter in Hj as [_ ?]|].
  intros ->. by apply Hu, list_elem_of_filter in Hi as [[] _].
Qed.

Lemma isMinimalQuorum_ok s : quorum s →
  ∃ b, isMinimalQuorum graph s = Ok b ∧
    if b then minimal s else ∃ u, quorum u ∧ u ⊆ s ∧ u ≠ s.
Proof.
  intros [Hc Hne]. pose proof (closedSet_nodeSet s Hc) as Hs.
  unfold isMinimalQuorum. destruct (contractToMaximalQuorum_ok s Hs) as (f & -> & Hf & Hfs & Hg). simpl.
  rewrite bool_decide_eq_true_2 by (apply bsorted_eq; [apply Hf|apply Hc|done|by apply Hg]). simpl.
  destruct (bs_empty s) eqn:E; [by apply bs_empty_iff in E|].
  destruct (minimalLoop_ok s s Hs ltac:(done)) as (b & -> & Hb). exists b. split; [done|]. destruct b.
  - split; [done|]. intros u Hu Hus. apply bsorted_eq; [apply Hu|apply Hc|done|].
    intros i Hi. destruct (decide (i ∈ u)) as [|Hn]; [done|]. destruct (Hb i Hi). exists u. split; [done|].
    intros j Hj. apply list_elem_of_filter. split; [by intros ->|by apply Hus].
  - destruct Hb as (i & u & Hi & Hu & Hus). exists u. split; [done|]. by apply (unset_proper u i).
Qed.

Lemma minimal_exists s : quorum s → ∃ m, minimal m ∧ m ⊆ s.
Proof.
  remember (length s) as n eqn:En. revert s En.
  induction n as [n IH] using lt_wf_ind. intros s -> Hs.
  destruct (isMinimalQuorum_ok s Hs) as ([|] & _ & Hb); [by exists s|].
  destruct Hb as (u & Hu & Hus & Hne). destruct (IH (length u)) with (s := u) as (m & Hm & Hmu); [|done..|].
  - destruct (Nat.lt_ge_cases (length u) (length s)) as [|Hge]; [done|]. destruct Hne.
    assert (u ≡ₚ s) as Hp.
    { apply submseteq_length_Permutation; [|done].
      apply NoDup_submseteq; [apply bsorted_NoDup, Hu|done]. }
    apply bsorted_eq; [apply Hu|apply Hs|done|]. intros j. by rewrite Hp.
  - exists m. split; [done|]. by etrans.
Qed.

(** ** The split node *)

Section Split.
Context (remaining : BitSet).

Definition splitOk (x : Split) : Prop :=
  length (inDegrees x) = length graph ∧ maxNode x ∈ remaining.

Lemma splitInner_ok rand avail : ∀ x, splitOk x → (∀ j, j ∈ avail → j ∈ remaining ∧ inRange graph j) →
  ∃ x', splitInner rand avail x = Ok x' ∧ splitOk x'.
Proof.
  induction avail as [|j avail IH]; intros x [Hl Hm] Ha; simpl; [by exists x|].
  destruct (Ha j) as [Hj Hjr]; [by left|]. destruct (at_inRange (inDegrees x) j) as [d Hd].
  { unfold inRange in *. by rewrite Hl. }
  rewrite Hd. simpl. apply IH; [|intros k Hk; apply Ha; by right].
  repeat case_match; split; simpl; rewrite ?length_insert; done.
Qed.

Lemma splitOuter_ok rand l : ∀ x, splitOk x → (∀ i, i ∈ l → inRange graph i) →
  ∃ x', splitOuter graph rand remaining l x = Ok x' ∧ splitOk x'.
Proof.
  induction l as [|i l IH]; intros x Hx Hl; simpl; [by exists x|].
  destruct (at_inRange graph i) as [q Hq]; [apply Hl; by left|]. rewrite Hq. simpl.
  destruct (splitInner_ok rand (bs_inter (mAllSuccessors q) remaining) x Hx) as (x' & -> & Hx').
  { intros j [Hj1 Hj2]%list_elem_of_filter. split; [done|]. apply (go_range i). by exists q. }
  simpl. apply IH; [done|]. intros k Hk. apply Hl. by right.
Qed.

Lemma pickSplitNode_ok rand : nodeSet remaining → remaining ≠ [] →
  ∃ s, pickSplitNode graph rand remaining = Ok s ∧ s ∈ remaining.
Proof.
  intros [Hs Hr] Hne. unfold pickSplitNode. destruct (last remaining) as [m|] eqn:E.
  - destruct (splitOuter_ok rand remaining {| inDegrees := replicate (length graph) 0; maxNode := m;
      maxCount := 1; maxDegree := 0; calls := 0 |}) as (x & -> & _ & Hx); [|done|by exists (maxNode x)].
    split; simpl; [apply length_replicate|]. by apply last_Some_elem_of.
  - by apply last_None in E.
Qed.
End Split.

(** ** Branch and bound *)

(** Two quorums of [scan] without a common node *)
Definition disjointIn (scan : BitSet) (p : BitSet * BitSet) : Prop :=
  quorum p.1 ∧ quorum p.2 ∧ p.1 ⊆ scan ∧ p.2 ⊆ scan ∧ ∀ i, i ∈ p.1 → i ∉ p.2.

(** No minimal quorum between [c] and [c ∪ r], of at most half of [scan], has a disjoint
    quorum in [scan]. *)
Definition none (c r scan : BitSet) : Prop :=
  ∀ m u, minimal m → c ⊆ m → (∀ i, i ∈ m → i ∈ c ∨ i ∈ r) → (2 * length m ≤ length scan)%nat →
  ¬ (disjointIn scan (m, u)).

Definition resultOk (c r scan : BitSet) (o : option (BitSet * BitSet)) : Prop :=
  match o with Some p => disjointIn scan p | None => none c r scan end.

Lemma hasDisjointQuorum_ok scan q : nodeSet scan → quorum q → q ⊆ scan →
  ∃ o, hasDisjointQuorum graph scan q = Ok o ∧
    match o with Some p => disjointIn scan p | None => ∀ u, ¬ disjointIn scan (q, u) end.
Proof.
  intros [Hs Hr] Hq Hqs. unfold hasDisjointQuorum.
  destruct (contractToMaximalQuorum_ok (bs_diff scan q)) as (f & -> & Hg).
  { split; [by apply bsorted_filter|]. intros i [_ Hi]%list_elem_of_filter. by apply Hr. }
  simpl. eexists. split; [done|]. destruct (bs_empty f) eqn:E; simpl.
  - apply bs_empty_iff in E. intros u (_ & Hu & _ & Hus & Hd). apply (greatest_empty _ _ Hg E u Hu).
    intros i Hi. apply list_elem_of_filter. split; [|by apply Hus]. intros Hiq. by apply (Hd i).
  - destruct Hg as (Hc & Hf & _). split_and!; simpl; [done|split; [done|by intros ->]|done| |].
    + intros i Hi. by apply Hf, list_elem_of_filter in Hi as [_ ?].
    + intros i Hi Hif. by apply Hf, list_elem_of_filter in Hif as [[] _].
Qed.

(** The sets the search works on *)
Record Searching (c r scan : BitSet) : Prop := {
  se_c : nodeSet c;
  se_r : nodeSet r;
  se_scan : nodeSet scan;
  se_cs : c ⊆ scan;
  se_rs : r ⊆ scan
}.

Lemma Searching_drop c r scan s : Searching c r scan → Searching c (bs_unset s r) scan.
Proof.
  intros [H1 H2 H3 H4 H5]. split; try done; [by apply nodeSet_unset|].
  intros i [_ Hi]%list_elem_of_filter. by apply H5.
Qed.

Lemma Searching_commit c r scan s :
  Searching c r scan → s ∈ r → Searching (bs_set s c) (bs_unset s r) scan.
Proof.
  intros HS Hs. pose proof (Searching_drop c r scan s HS) as [H1 H2 H3 H4 H5]. destruct HS as [? Hr ? ? Hrs].
  split; try done.
  - split; [by apply bs_set_sorted, H1|]. intros i [->|Hi]%elem_of_bs_set; [by apply Hr|by apply H1].
  - intros i [->|Hi]%elem_of_bs_set; [by apply Hrs|by apply H4].
Qed.

(** The early exits. *)
Lemma exit_half c r scan : maxCommit scan < bs_count c → bsorted c → none c r scan.
Proof.
  unfold maxCommit, bs_count. intros Hlt Hc m u Hm Hcm _ Hl _.
  assert (length c ≤ length m)%nat by (apply submseteq_length, NoDup_submseteq; [by apply bsorted_NoDup|done]).
  pose proof (Z.mul_div_le (Z.of_nat (length scan)) 2). pose proof (Z.mod_pos_bound (Z.of_nat (length scan)) 2).
  pose proof (Z.div_mod (Z.of_nat (length scan)) 2). lia.
Qed.

Lemma exit_committed c r scan q : Searching c r scan → greatest c q → q ≠ [] →
  ∃ o, (let? b := isMinimalQuorum graph q in if b then hasDisjointQuorum graph scan q else Ok None) = Ok o ∧
    resultOk c r scan o.
Proof.
  intros HS (Hq & Hqc & _) Hne. assert (∀ m, minimal m → c ⊆ m → q = m) as Hall.
  { intros m [_ Hm] Hcm. apply Hm; [done|]. by etrans. }
  destruct (isMinimalQuorum_ok q) as (b & -> & Hb); [done|]. simpl. destruct b.
  - destruct (hasDisjointQuorum_ok scan q) as (o & -> & Ho); [apply HS|done|etrans; [done|apply HS]|].
    exists o. split; [done|]. destruct o as [p|]; [done|]. intros m u Hm Hcm _ _.
    rewrite <- (Hall m Hm Hcm). apply Ho.
  - exists None. split; [done|]. intros m u Hm Hcm. destruct Hb as (x & Hx & Hxq & Hxn). destruct Hxn.
    rewrite (Hall m Hm Hcm) in Hxq |- *. by apply Hm.
Qed.

Lemma exit_extension c r scan e : greatest (bs_union c r) e →
  e = [] ∨ ¬ c ⊆ e → none c r scan.
Proof.
  intros Hg He m u Hm Hcm Hmr _ _.
  assert (m ⊆ bs_union c r) as Hmu by (intros i Hi; apply elem_of_bs_union; by apply Hmr).
  destruct He as [He|He].
  - by apply (greatest_empty _ _ Hg He m); [apply Hm|].
  - destruct He. destruct Hg as (_ & _ & Hg). etrans; [exact Hcm|]. apply Hg; [apply Hm|done].
Qed.

Lemma none_split c r scan s : s ∈ r →
  none c (bs_unset s r) scan → none (bs_set s c) (bs_unset s r) scan → none c r scan.
Proof.
  intros Hs H1 H2 m u Hm Hcm Hmr Hl. destruct (decide (s ∈ m)) as [Hin|Hout].
  - apply H2; [done| | |done].
    + intros i [->|Hi]%elem_of_bs_set; [done|by apply Hcm].
    + intros i Hi. rewrite elem_of_bs_set. unfold bs_unset. rewrite list_elem_of_filter.
      destruct (Hmr i Hi), (decide (i = s)); auto.
  - apply H1; [done..| |done]. intros i Hi. unfold bs_unset. rewrite list_elem_of_filter.
    destruct (Hmr i Hi); [by left|]. right. split; [by intros ->|done].
Qed.

Lemma anyMinQuorumHasDisjointQuorum_ok rand fuel : ∀ c r scan,
  Searching c r scan → (length r < fuel)%nat →
  ∃ o, anyMinQuorumHasDisjointQuorum graph rand fuel c r scan = Ok o ∧ resultOk c r scan o.
Proof.
  induction fuel as [|fuel IH]; intros c r scan HS Hfuel; [lia|]. simpl.
  destruct (Z.ltb_spec (maxCommit scan) (bs_count c)) as [Hhalf|_].
  { exists None. split; [done|]. apply exit_half; [done|apply HS]. }
  destruct (contractToMaximalQuorum_ok c (se_c _ _ _ HS)) as (q & -> & Hq). simpl.
  destruct (bs_empty q) eqn:Eq; simpl.
  2: { apply exit_committed; [done..|]. intros ->. done. }
  apply bs_empty_iff in Eq.
  destruct (contractToMaximalQuorum_ok (bs_union c r)) as (e & -> & He).
  { split; [apply bs_union_sorted, HS|]. intros i [Hi|Hi]%elem_of_bs_union; by apply HS in Hi. }
  simpl. destruct (bs_empty e) eqn:Ee.
  { exists None. split; [done|]. apply bs_empty_iff in Ee. apply (exit_extension c r scan e He). by left. }
  destruct (bs_subsetEq c e) eqn:Esub; simpl.
  2: { exists None. split; [done|]. apply (exit_extension c r scan e He). right. intros Hce.
    enough (bs_subsetEq c e = true) by congruence. apply forallb_forall. intros i Hi%list_elem_of_In.
    apply bool_decide_eq_true. by apply Hce. }
  destruct (bs_empty r) eqn:Er.
  { apply bs_empty_iff in Er as ->. exists None. split; [done|]. intros m u Hm Hcm Hmr _ _.
    apply (greatest_empty c q Hq Eq m); [apply Hm|]. intros i Hi. destruct (Hmr i Hi) as [|Hn]; [done|].
    by apply elem_of_nil in Hn. }
  destruct (pickSplitNode_ok r (rand c r)) as (s & -> & Hs); [apply HS|by intros ->|]. simpl.
  pose proof (length_filter_lt (λ j, j ≠ s) r s Hs ltac:(auto)) as Hlen.
  destruct (IH c (bs_unset s r) scan) as ([p|] & -> & Ho); [by apply Searching_drop|unfold bs_unset; lia| |].
  { by exists (Some p). }
  simpl. rewrite bs_add_small.
  2: { destruct (se_r _ _ _ HS) as [_ Hr]. specialize (Hr s Hs). pose proof (go_small (graph := graph)).
    unfold inRange in Hr. lia. }
  simpl. destruct (IH (bs_set s c) (bs_unset s r) scan) as (o & -> & Ho');
    [by apply Searching_commit|unfold bs_unset; lia|].
  exists o. split; [done|]. destruct o as [p|]; [done|]. by apply (none_split c r scan s).
Qed.

(** ** The scan of the components *)

Lemma first_meeting (m : BitSet) (l : list BitSet) : (∃ i, i ∈ m ∧ i ∈ concat l) →
  ∃ l1 c l2, l = l1 ++ c :: l2 ∧ (∃ i, i ∈ m ∧ i ∈ c) ∧ ∀ i, i ∈ m → i ∉ concat l1.
Proof.
  induction l as [|c l IH]; intros (i & Hi & Hl); [by apply elem_of_nil in Hl|].
  destruct (decide (Exists (λ i, i ∈ c) m)) as [Hc|Hc].
  - exists [], c, l. split; [done|]. split; [by apply Exists_exists in Hc as (j & ? & ?); exists j|]. intros j _ Hj. by apply elem_of_nil in Hj.
  - assert (∀ j, j ∈ m → j ∉ c) as Hno by (intros j Hj Hjc; apply Hc, Exists_exists; by exists j).
    destruct IH as (l1 & d & l2 & -> & Hd & Hf).
    { exists i. split; [done|]. simpl in Hl. apply elem_of_app in Hl as [Hl|Hl]; [by destruct (Hno i)|done]. }
    exists (c :: l1), d, l2. split_and!; [done..|]. intros j Hj [Hj'|Hj']%elem_of_app; [by destruct (Hno j)|].
    by apply (Hf j).
Qed.

Section Scan.
Context (sccs : list BitSet).
Hypothesis Hco : Components graph sccs.

(** A minimal quorum lies in the first component it meets. *)
Lemma minimal_component m : minimal m → ∃ c, c ∈ sccs ∧ m ⊆ c.
Proof.
  intros Hm. assert (∃ l1 c l2, sccs = l1 ++ c :: l2 ∧ (∃ i, i ∈ m ∧ i ∈ c) ∧ ∀ i, i ∈ m → i ∉ concat l1)
    as (l1 & c & l2 & E & (i & Hi & Hic) & Hfirst).
  { apply first_meeting. destruct Hm as [[Hc Hne] _]. destruct m as [|i m]; [done|].
    exists i. split; [by left|]. apply (co_all _ _ Hco). apply closedSet_nodeSet in Hc as [_ Hc].
    apply Hc. by left. }
  exists c. split; [rewrite E; set_solver|].
  assert (bs_inter m c = m) as <-; [|intros j [? _]%list_elem_of_filter; done].
  apply (proj2 Hm); [|intros j [_ ?]%list_elem_of_filter; done].
  assert (bsorted (bs_inter m c)) as Hs by apply bsorted_filter, Hm.
  split; [|intros E0; assert (i ∈ bs_inter m c) as H by (by apply list_elem_of_filter); rewrite E0 in H;
    by apply elem_of_nil in H].
  split; [done|]. intros j [Hjc Hj]%list_elem_of_filter.
  destruct Hm as [[[Hms Hmc] _] _]. destruct (Hmc j Hj) as (q & Hq & Hsl). exists q. split; [done|].
  rewrite <- Hsl. apply (go_local j); [done|by apply bsorted_NoDup..|]. intros k Hk.
  unfold bs_inter. rewrite list_elem_of_filter. split; [by intros [_ ?]|]. intros Hkm. split; [|done].
  pose proof (co_closed _ _ Hco l1 c l2 E j k Hjc ltac:(by exists q)) as Hin.
  rewrite concat_app in Hin. simpl in Hin. rewrite app_nil_r in Hin.
  apply elem_of_app in Hin as [Hin|Hin]; [|done]. by destruct (Hfirst k Hkm).
Qed.

Definition apart (p : BitSet * BitSet) : Prop :=
  quorum p.1 ∧ quorum p.2 ∧ ∀ i, i ∈ p.1 → i ∉ p.2.

Lemma greatest_quorum s f : greatest s f → bs_empty f = false → quorum f ∧ f ⊆ s.
Proof. intros (Hf & Hs & _) E. split; [split; [done|by intros ->]|done]. Qed.

Lemma scanSCCs_ok l : ∀ s, Forall nodeSet l → nodeSet s → NoDup (concat l) →
  (∀ i, i ∈ s → i ∉ concat l) → (s = [] ∨ ∃ u, quorum u ∧ u ⊆ s) →
  ∃ s' o, scanSCCs graph l s = Ok (s', o) ∧ nodeSet s' ∧ (s = [] ∨ s' = s) ∧
    match o with
    | Some p => s' ≠ [] ∧ apart p
    | None => ∀ c u, c ∈ l → quorum u → u ⊆ c → u ⊆ s'
    end.
Proof.
  induction l as [|c l IH]; intros s Hl Hs Hn Hd Hq; simpl.
  { exists s, None. split_and!; [done|done|by right|]. by intros c u Hc%elem_of_nil. }
  apply Forall_cons in Hl as [Hc Hl]. simpl in Hn. apply NoDup_app in Hn as (_ & Hcl & Hn).
  destruct (contractToMaximalQuorum_ok c Hc) as (f & -> & Hf). simpl.
  destruct (bs_empty f) eqn:Ef; simpl.
  - destruct (IH s) as (s' & o & E & Hs' & Hor & Ho); [done..| |done|].
    { intros i Hi Hil. apply (Hd i Hi). simpl. set_solver. }
    exists s', o. split_and!; [done..|]. destruct o as [p|]; [done|]. apply bs_empty_iff in Ef.
    intros d u [->|Hd']%elem_of_cons Hu Hud; [by destruct (greatest_empty c f Hf Ef u Hu)|by apply (Ho d u)].
  - destruct (greatest_quorum c f Hf Ef) as [Hqf Hfc]. destruct (bs_empty s) eqn:Es.
    + apply bs_empty_iff in Es as ->.
      destruct (IH c) as (s' & o & E & Hs' & Hor & Ho); [done..| |].
      { right. by exists f. }
      exists s', o. split_and!; [done|done|by left|]. destruct o as [p|]; [done|].
      assert (s' = c) as -> by (destruct Hor as [->|]; [|done]; destruct f; [done|]; exfalso;
        specialize (Hfc z ltac:(by left)); by apply elem_of_nil in Hfc).
      intros d u [->|Hd']%elem_of_cons Hu Hud; [done|by apply (Ho d u)].
    + destruct (contractToMaximalQuorum_ok s Hs) as (g & -> & Hg). simpl.
      exists s, (Some (g, f)). split_and!; [done|done|by right|by intros ->|]. destruct (bs_empty g) eqn:Eg.
      { apply bs_empty_iff in Eg. destruct Hq as [->|(u & Hu & Hus)]; [done|].
        by destruct (greatest_empty s g Hg Eg u Hu). }
      destruct (greatest_quorum s g Hg Eg) as [Hqg Hgs]. split_and!; simpl; [done..|].
      intros i Hi Hif. apply (Hd i (Hgs i Hi)). simpl. apply elem_of_app. left. by apply Hfc.
Qed.

Lemma components_sets : Forall nodeSet sccs.
Proof.
  apply Forall_forall. intros c Hc. split.
  - pose proof (co_sorted _ _ Hco) as Hs. rewrite Forall_forall in Hs. by apply Hs.
  - intros i Hi. apply (co_all _ _ Hco), list_elem_of_In, in_concat. exists c. by rewrite <- !list_elem_of_In.
Qed.

(** If the minimal quorums lie in [s], and the search in [s] finds nothing, any two
    quorums intersect. *)
Lemma intersecting s : nodeSet s → (∀ m, minimal m → m ⊆ s) → none [] s s →
  ∀ a b, quorum a → quorum b → ∃ i, i ∈ a ∧ i ∈ b.
Proof.
  intros [Hs _] Hall Hnone a b Ha Hb.
  destruct (decide (Exists (λ i, i ∈ b) a)) as [He|He]; [by apply Exists_exists in He as (i & ? & ?); exists i|].
  exfalso. destruct (minimal_exists a Ha) as (m & Hm & Hma), (minimal_exists b Hb) as (n & Hn & Hnb).
  assert (∀ i, i ∈ m → i ∉ n) as Hd.
  { intros i Him Hin. apply He, Exists_exists. exists i. split; [by apply Hma|by apply Hnb]. }
  assert (length (m ++ n) ≤ length s)%nat as Hlen.
  { apply submseteq_length, NoDup_submseteq.
    - apply NoDup_app. split_and!; [apply bsorted_NoDup, Hm|done|apply bsorted_NoDup, Hn].
    - intros i [Hi|Hi]%elem_of_app; [by apply (Hall m)|by apply (Hall n)]. }
  rewrite length_app in Hlen.
  assert (∀ x y, minimal x → minimal y → (∀ i, i ∈ x → i ∉ y) → ¬ (2 * length x ≤ length s)%nat) as Hx.
  { intros x y Hmx Hmy Hxy Hl. apply (Hnone x y Hmx); [by intros ? ?%elem_of_nil| |done|].
    - intros i Hi. right. by apply (Hall x).
    - split_and!; simpl; [apply Hmx|apply Hmy|by apply Hall..|done]. }
  destruct (Nat.le_gt_cases (length m) (length n)); [apply (Hx m n)|apply (Hx n m)]; try done; try lia.
  intros i Hi Hi'. by apply (Hd i).
Qed.

Lemma findDisjointQuorums_ok rand : ∃ o, findDisjointQuorums graph rand sccs = Ok o ∧
  match o with
  | Some p => apart p
  | None => ∀ a b, quorum a → quorum b → ∃ i, i ∈ a ∧ i ∈ b
  end.
Proof.
  unfold findDisjointQuorums.
  destruct (scanSCCs_ok sccs []) as (s & o & -> & Hs & _ & Ho);
    [apply components_sets|by split; [constructor|intros i Hi%elem_of_nil]|apply (co_nodup _ _ Hco)|
     by intros i Hi%elem_of_nil|by left|]. cbn [obind].
  destruct (bs_empty s) eqn:Es.
  - apply bs_empty_iff in Es. exists None. split; [done|]. destruct o as [p|]; [by destruct Ho|].
    intros a b Ha _. exfalso. destruct (minimal_exists a Ha) as (m & Hm & _).
    destruct (minimal_component m Hm) as (c & Hc & Hmc). subst s.
    destruct Hm as [[Hcm Hne] _]. destruct m as [|i m]; [done|].
    specialize (Ho c _ Hc (conj Hcm Hne) Hmc i ltac:(by left)). by apply elem_of_nil in Ho.
  - destruct o as [p|]; [exists (Some p); split; [done|apply Ho]|].
    destruct (anyMinQuorumHasDisjointQuorum_ok rand (S (length s)) [] s s) as (o & E & Hr); [|lia|].
    { split; [split; [constructor|by intros i Hi%elem_of_nil]|done|done|by intros i Hi%elem_of_nil|done]. }
    exists o. split; [exact E|]. destruct o as [p|].
    + destruct Hr as (H1 & H2 & _ & _ & H3). by split_and!.
    + apply (intersecting s Hs); [|exact Hr]. intros m Hm.
      destruct (minimal_component m Hm) as (c & Hc & Hmc). by apply (Ho c); [|apply Hm|].
Qed.
End Scan.
End Search.
