(* ===== verification/QicNetwork.v ===== *)
(** * The verdict of the quorum intersection checker

    Quorums of the network, as sets of nodes with their announced quorum sets, are
    quorums of the graph and back; the checker answers whether any two of them
    intersect, and its report for a critical group tells whether the group could split
    the network. *)

From stdpp Require Import prelude list.
From Stdlib Require Import ZArith Lia Sorted.
From S2P Require Import Prelude QuorumSet QuorumIntersection QicTarjan QicSlices QicSearch.
Local Open Scope Z_scope.

(** ** The graph obeys the laws of the search *)

Section Network.
Context (qmap : QuorumMap).
Hypothesis Hok : qmapOk qmap.
Notation keys := (known qmap).*1.
Notation nums := (numbered 0 keys).
Notation graph := (graphOf qmap).

Lemma inRange_graph i : inRange graph i ↔ inRange keys i.
Proof using. clear Hok. unfold inRange, graphOf. by rewrite length_map, !length_fmap. Qed.

Lemma slice_sat s i n q : NoDup s → at_ keys i = Ok n → (n, Some q) ∈ qmap →
  sliceIn graph s i ↔ sat (holds nums s) q = true.
Proof.
  intros Hs Hi Hq. pose proof (qo_plain _ Hok n q Hq) as Hp. pose proof (findBit_inj qmap Hok) as Hinj.
  split.
  - intros (b & Hb & H). apply (graph_at qmap Hok) in Hb as (n' & q' & Hi' & Hq' & ->).
    rewrite Hi in Hi'. injection Hi' as <-. pose proof (key_unique _ _ _ _ (qo_keys _ Hok) Hq Hq') as [= <-].
    by rewrite <- (containsQuorumSlice_ok nums Hinj).
  - intros H. exists (convertSCPQuorumSet nums q). split; [apply graph_at; [done|]; by exists n, q|].
    by rewrite (containsQuorumSlice_ok nums Hinj).
Qed.

#[export] Instance graphOf_ok : GraphOk graph.
Proof.
  pose proof (findBit_inj qmap Hok) as Hinj. split.
  - unfold graphOf. rewrite length_map, length_fmap. apply Hok.
  - intros i j (b & (n & q & _ & _ & ->)%graph_at & Hj); [|done].
    apply (convert_successors nums q) in Hj as (v & _ & Hv). apply inRange_graph.
    apply findBit_keys in Hv; [|done]. by eapply inRange_at.
  - intros i b a a' (n & q & _ & Hq & ->)%graph_at Ha Ha' Hs; [|done]. pose proof (qo_plain _ Hok n q Hq).
    rewrite !(containsQuorumSlice_ok nums Hinj) by done. apply sat_mono. intros v (j & Hj & Hin)%holds_Some.
    apply holds_Some. exists j. split; [done|by apply Hs].
  - intros i b a a' (n & q & _ & Hq & ->)%graph_at Ha Ha' Hs; [|done]. pose proof (qo_plain _ Hok n q Hq).
    rewrite !(containsQuorumSlice_ok nums Hinj) by done. apply sat_ext. intros v Hv.
    apply eq_true_iff_eq. rewrite !holds_Some.
    assert (∀ j, findBit v nums = Some j → j ∈ a ↔ j ∈ a') as Hj.
    { intros j Hj. apply Hs, (convert_successors nums q). by exists v. }
    naive_solver.
Qed.

(** ** Quorums of the network *)

(** Every member announces a quorum set with a slice among the members. *)
Definition netQuorum (Q : list NodeID) : Prop :=
  Q ≠ [] ∧ ∀ n, n ∈ Q → ∃ q, (n, Some q) ∈ qmap ∧ sat (λ m, bool_decide (m ∈ Q)) q = true.

Lemma nodeKeys_ok s : (∀ i, i ∈ s → inRange keys i) →
  ∃ l, nodeKeys keys s = Ok l ∧ ∀ v, v ∈ l ↔ ∃ i, i ∈ s ∧ at_ keys i = Ok v.
Proof using.
  clear Hok. induction s as [|i s IH]; intros Hs; simpl.
  { exists []. split; [done|]. intros v. split; [by intros ?%elem_of_nil|by intros (i & ?%elem_of_nil & _)]. }
  destruct (at_inRange keys i) as [k Hk]; [apply Hs; by left|]. rewrite Hk. simpl.
  destruct IH as (l & -> & Hl); [set_solver|]. exists (k :: l). split; [done|]. intros v.
  rewrite elem_of_cons, Hl. setoid_rewrite elem_of_cons. naive_solver congruence.
Qed.

Lemma quorum_nodes s : quorum graph s → ∃ l, nodeKeys keys s = Ok l ∧ netQuorum l ∧
  ∀ v, v ∈ l ↔ ∃ i, i ∈ s ∧ at_ keys i = Ok v.
Proof.
  intros Hq. destruct (quorum_nodeSet graph s Hq) as [Hs Hr]. destruct Hq as [[_ Hc] Hne].
  destruct (nodeKeys_ok s) as (l & E & Hl); [intros i Hi; by apply inRange_graph, Hr|].
  exists l. split_and!; [done| |done]. split.
  - intros ->. destruct s as [|i s]; [done|]. destruct (at_inRange keys i) as [k Hk].
    { apply inRange_graph, Hr. by left. }
    enough (k ∈ []) by (by eapply elem_of_nil). apply Hl. exists i. split; [by left|done].
  - intros n (i & Hi & Hn)%Hl. pose proof (Hc i Hi) as Hsl. destruct Hsl as (b & Hb & H).
    pose proof Hb as (n' & q & Hn' & Hq & _)%graph_at; [|done]. rewrite Hn in Hn'. injection Hn' as <-.
    exists q. split; [done|]. rewrite <- (proj1 (slice_sat s i n q (bsorted_NoDup _ Hs) Hn Hq)) by by exists b.
    apply sat_ext. intros m _. apply eq_true_iff_eq. rewrite bool_decide_eq_true, Hl, holds_Some.
    setoid_rewrite findBit_keys; [|done]. naive_solver.
Qed.

Definition bitsFor (Q : list NodeID) : BitSet :=
  foldl (λ s v, match findBit v nums with None => s | Some i => bs_set i s end) [] Q.

Lemma nodes_quorum Q : netQuorum Q → quorum graph (bitsFor Q).
Proof.
  intros [Hne HQ]. destruct (bitsOf_fold nums Q) as [Hs Hb]. fold (bitsFor Q) in Hs, Hb.
  assert (∀ n, n ∈ Q → ∃ i, findBit n nums = Some i) as Hbit.
  { intros n (q & Hq%elem_of_known & _)%HQ. apply (list_elem_of_fmap_2 fst) in Hq.
    apply list_elem_of_lookup_1 in Hq as [i Hi]. exists (Z.of_nat i). apply findBit_keys; [done|].
    apply at_ok. rewrite Nat2Z.id. split; [lia|done]. }
  split.
  - split; [done|]. intros i (n & Hn & Hi)%Hb. apply findBit_keys in Hi; [|done].
    destruct (HQ n Hn) as (q & Hq & Hsat). apply (slice_sat _ i n q (bsorted_NoDup _ Hs) Hi Hq).
    revert Hsat. apply sat_mono. intros m Hm%bool_decide_eq_true. destruct (Hbit m Hm) as [j Hj].
    apply holds_Some. exists j. split; [done|]. apply Hb. by exists m.
  - destruct Q as [|n Q]; [done|]. destruct (Hbit n) as [i Hi]; [by left|]. intros E.
    enough (i ∈ []) by (by eapply elem_of_nil). rewrite <- E. apply Hb. exists n. split; [by left|done].
Qed.

Definition intersects : Prop := ∀ A B, netQuorum A → netQuorum B → ∃ n, n ∈ A ∧ n ∈ B.

Lemma checker_ok rand : ∃ b s, networkEnjoysQuorumIntersection rand qmap = Ok (b, s) ∧
  if b then s = ([], []) ∧ intersects
  else netQuorum s.1 ∧ netQuorum s.2 ∧ ∀ n, n ∈ s.1 → n ∉ s.2.
Proof.
  unfold networkEnjoysQuorumIntersection. rewrite (buildGraph_ok qmap Hok). cbn [obind mGraph].
  destruct (calculateSCCs_ok graph (go_range (graph := graph)) go_small) as (t & -> & Hco). cbn [obind].
  destruct (findDisjointQuorums_ok graph (mSCCs t) Hco rand) as ([[a b]|] & -> & Ho); cbn [obind mBitNumPubKeys].
  - destruct Ho as (Ha & Hb & Hd). simpl in Ha, Hb, Hd.
    destruct (quorum_nodes a Ha) as (A & -> & HA & HAe), (quorum_nodes b Hb) as (B & -> & HB & HBe).
    eexists false, _. split; [done|]. split_and!; [done..|].
    intros n (i & Hi & Hin)%HAe (j & Hj & Hjn)%HBe. simpl in *.
    apply findBit_keys in Hin, Hjn; [|done..]. rewrite Hin in Hjn. injection Hjn as <-. by apply (Hd i).
  - eexists true, _. split; [done|]. split; [done|]. intros A B HA HB.
    destruct (Ho _ _ (nodes_quorum A HA) (nodes_quorum B HB)) as (i & Hi & Hj).
    apply (bitsOf_fold nums) in Hi as (v & HvA & Hv), Hj as (w & HwB & Hw). exists v. split; [done|].
    by rewrite (findBit_inj qmap Hok v w i).
Qed.
End Network.

(** ** The verdict *)

(** C27: for a quorum map of at most 64 nodes whose quorum sets have positive thresholds and mention no node
    twice, as sane quorum sets do, the checker completes whatever random choices it
    makes; it answers [true] exactly when any two quorums of the network have a node in
    common, and otherwise the split it reports is a pair of quorums without one. *)
Theorem networkEnjoysQuorumIntersection_correct rand qmap :
  qmapOk qmap →
  ∃ b s, networkEnjoysQuorumIntersection rand qmap = Ok (b, s) ∧
    (b = true ↔ intersects qmap) ∧
    (b = false → netQuorum qmap s.1 ∧ netQuorum qmap s.2 ∧ ∀ n, n ∈ s.1 → n ∉ s.2).
Proof.
  intros Hok. destruct (checker_ok qmap Hok rand) as (b & s & E & H). exists b, s. split; [done|].
  destruct b; [by split; [|]; [tauto|]|]. split; [|done]. split; [done|]. intros Hi.
  destruct H as (HA & HB & Hd). destruct (Hi _ _ HA HB) as (n & H1 & H2). by destruct (Hd n).
Qed.

(** Three nodes of which any two agree, and a fourth whose quorum set is unknown *)
Definition exampleMap : QuorumMap :=
  [(1, Some (QSet 2 [1; 2; 3] [])); (2, Some (QSet 2 [1; 2; 3] []));
   (3, Some (QSet 2 [1] [QSet 1 [2; 4] []])); (4, None)].

Lemma networkEnjoysQuorumIntersection_correct_witness : intersects exampleMap.
Proof.
  destruct (networkEnjoysQuorumIntersection_correct (λ _ _ _, 1) exampleMap) as (b & s & E & [H _] & _).
  { split; [apply (bool_decide_unpack _); vm_compute; exact I|simpl; lia|]. intros n q Hq.
    repeat (apply elem_of_cons in Hq as [Hq|Hq]; [simplify_eq; (split;
      [simpl; lia|apply (bool_decide_unpack _); vm_compute; exact I])|]). by apply elem_of_nil in Hq. }
  assert (networkEnjoysQuorumIntersection (λ _ _ _, 1) exampleMap = Ok (true, ([], []))) as E'
    by (vm_compute; reflexivity).
  rewrite E' in E. apply H. by injection E as <- _.
Defined.

(** A network in which every node trusts two thirds of all of them *)
Definition flatNetwork (n : nat) : QuorumMap :=
  let nodes := seqZ 1 (Z.of_nat n) in
  map (λ k, (k, Some (QSet (Z.of_nat n * 2 `div` 3 + 1) nodes []))) nodes.

