(* ===== verification/QicCritical.v ===== *)
(** * Intersection-critical groups

    [getIntersectionCriticalGroups] tries, for every single node and for every innermost
    group of an organisation, the configuration in which the group goes along with
    anyone, and reports the groups with which the network could split. *)

From stdpp Require Import prelude list.
From Stdlib Require Import ZArith Lia Sorted.
From S2P Require Import Prelude QuorumSet QuorumIntersection QicTarjan QicSlices QicSearch QicNetwork.
Local Open Scope Z_scope.

(** ** The candidates *)

(** A set below the root without inner sets *)
Inductive leafOf : SCPQuorumSet → list NodeID → Prop :=
| leaf_here t v i t' v' : QSet t' v' [] ∈ i → leafOf (QSet t v i) v'
| leaf_below t v i q v' : q ∈ i → leafOf q v' → leafOf (QSet t v i) v'.

Definition isCandidate (q : SCPQuorumSet) (group : list NodeID) : Prop :=
  (∃ k, k ∈ qset_nodes q ∧ group = [k]) ∨ (∃ v, leafOf q v ∧ group = set_inserts Zcmp v []).

(** What [findCriticalityCandidates] adds: below the root a leaf counts itself. *)
Definition addsCandidate (root : bool) (q : SCPQuorumSet) (group : list NodeID) : Prop :=
  isCandidate q group ∨ (root = false ∧ innerSets q = [] ∧ group = set_inserts Zcmp (validators q) []).

Lemma elem_of_singles v c group :
  group ∈ foldl (λ c k, set_insert setCmp [k] c) c v ↔ (∃ k, k ∈ v ∧ group = [k]) ∨ group ∈ c.
Proof.
  revert c. induction v as [|k v IH]; intros c; simpl.
  { split; [by right|]. intros [(k & ?%elem_of_nil & _)|]; done. }
  rewrite IH, (elem_of_set_insert setCmp). setoid_rewrite elem_of_cons. naive_solver.
Qed.

Lemma elem_of_findCriticalityCandidates q : ∀ root c group,
  group ∈ findCriticalityCandidates q c root ↔ addsCandidate root q group ∨ group ∈ c.
Proof.
  induction q as [t v i IH] using qset_ind. intros root c group. simpl.
  set (c1 := foldl _ c v).
  set (c2 := if negb root && bool_decide (length i = 0)%nat then _ else c1).
  assert (group ∈ c2 ↔ (root = false ∧ i = [] ∧ group = set_inserts Zcmp v []) ∨
    (∃ k, k ∈ v ∧ group = [k]) ∨ group ∈ c) as H2.
  { unfold c2, c1. destruct root; simpl; [rewrite elem_of_singles; naive_solver|].
    destruct i; simpl; [rewrite (elem_of_set_insert setCmp)|]; rewrite elem_of_singles; naive_solver. }
  clearbody c2. clear c1. 
  assert (group ∈ foldl (λ c q, findCriticalityCandidates q c false) c2 i ↔
    (∃ q, q ∈ i ∧ addsCandidate false q group) ∨ group ∈ c2) as ->.
  { clear H2. revert c2. induction IH as [|q i Hq _ IHi]; intros c2; simpl.
    - split; [by right|]. intros [(q & ?%elem_of_nil & _)|]; done.
    - rewrite IHi, Hq. setoid_rewrite elem_of_cons. naive_solver. }
  rewrite H2. unfold addsCandidate, isCandidate. simpl. setoid_rewrite elem_of_app.
  setoid_rewrite elem_of_inner_nodes. split.
  - intros [(q & Hq & [[(k & Hk & ->)|(w & Hw & ->)]|(_ & E & ->)])|H]; [| | |naive_solver].
    + left. left. left. exists k. split; [right; by exists q|done].
    + left. left. right. exists w. split; [by eapply leaf_below|done].
    + left. left. right. exists (validators q). split; [|done]. destruct q as [t' v' i']. simpl in *. subst.
      by eapply leaf_here.
  - intros [[[(k & [Hk|(q & Hq & Hk)] & ->)|(w & Hw & ->)]|H]|H]; [naive_solver| | |naive_solver..].
    + left. exists q. split; [done|]. left. left. by exists k.
    + left. inversion Hw; subst.
      * eexists. split; [done|]. right. done.
      * eexists. split; [done|]. left. right. by exists w.
Qed.

(** ** The test map *)

(** The map with another quorum set for some nodes *)
Definition revised (f : NodeID → option SCPQuorumSet → option SCPQuorumSet) (qmap : QuorumMap) : QuorumMap :=
  map (λ p, (p.1, f p.1 p.2)) qmap.

Lemma revised_keys f qmap : (revised f qmap).*1 = qmap.*1.
Proof. unfold revised. by induction qmap as [|[n q] qmap IH]; simpl; [|f_equal]. Qed.

Lemma revised_ext f g qmap : (∀ n q, (n, q) ∈ qmap → f n q = g n q) → revised f qmap = revised g qmap.
Proof.
  unfold revised. induction qmap as [|[n q] qmap IH]; intros H; [done|]. simpl.
  rewrite (H n q), IH; [done| |by left]. intros m x Hm. apply H. by right.
Qed.

Lemma revised_id f qmap : (∀ n q, (n, q) ∈ qmap → f n q = q) → revised f qmap = qmap.
Proof.
  intros H. rewrite (revised_ext f (λ _ q, q)) by done. unfold revised.
  induction qmap as [|[n q] qmap IH]; simpl; [done|]. f_equal. apply IH. intros m x Hm. apply H. by right.
Qed.

Lemma revised_revised f g qmap : revised g (revised f qmap) = revised (λ n q, g n (f n q)) qmap.
Proof. unfold revised. by rewrite map_map. Qed.

Lemma assignQSet_revised k q qmap : k ∈ qmap.*1 → NoDup qmap.*1 →
  assignQSet k q qmap = revised (λ n x, if n =? k then q else x) qmap.
Proof.
  induction qmap as [|[n x] qmap IH]; intros Hk Hn; [by apply elem_of_nil in Hk|]. simpl.
  apply NoDup_cons in Hn as [Hno Hn]. destruct (Z.eqb_spec n k) as [->|Hne].
  - f_equal. symmetry. apply revised_id. intros m y Hm. destruct (Z.eqb_spec m k) as [->|]; [|done].
    destruct Hno. by apply (list_elem_of_fmap_2 fst) in Hm.
  - f_equal. apply IH; [|done]. apply elem_of_cons in Hk as [Hk|Hk]; [by simpl in Hk|done].
Qed.

Lemma installFickle_revised group q qmap : NoDup qmap.*1 → group ⊆ qmap.*1 →
  installFickle group q qmap = revised (λ n x, if decide (n ∈ group) then Some q else x) qmap.
Proof.
  unfold installFickle. revert qmap. induction group as [|k group IH]; intros qmap Hn Hg; simpl.
  { symmetry. apply revised_id. intros n x _. by destruct (decide (n ∈ [])) as [?%elem_of_nil|]. }
  rewrite assignQSet_revised by (try done; apply Hg; by left).
  rewrite IH; rewrite ?revised_keys; [|done|set_solver]. rewrite revised_revised. apply revised_ext.
  intros n x _. destruct (Z.eqb_spec n k) as [->|]; repeat case_decide; set_solver.
Qed.

Lemma findQSet_Some k q qmap : NoDup qmap.*1 → (k, q) ∈ qmap → findQSet k qmap = Some q.
Proof.
  induction qmap as [|[n x] qmap IH]; intros Hn Hk; [by apply elem_of_nil in Hk|].
  simpl. apply NoDup_cons in Hn as [Hno Hn]. apply elem_of_cons in Hk as [[= -> ->]|Hk]; [by rewrite Z.eqb_refl|].
  destruct (Z.eqb_spec n k) as [->|]; [|by apply IH]. destruct Hno. by apply (list_elem_of_fmap_2 fst) in Hk.
Qed.

Lemma keyed_eq {A} (m l : list (NodeID * A)) :
  m.*1 = l.*1 → NoDup l.*1 → (∀ n x, (n, x) ∈ m → (n, x) ∈ l) → m = l.
Proof.
  revert l. induction m as [|[n x] m IH]; intros [|[k y] l] E Hn H; simpl in E; [done|done|done|].
  injection E as -> E. apply NoDup_cons in Hn as [Hk Hn].
  assert (∀ z, (k, z) ∉ l) as Hno by (intros z Hz; apply Hk; by apply (list_elem_of_fmap_2 fst) in Hz).
  assert (x = y) as ->.
  { specialize (H k x ltac:(by left)). apply elem_of_cons in H as [[= ->]|H]; [done|by destruct (Hno x)]. }
  f_equal. apply IH; [done..|]. intros n z Hz. specialize (H n z ltac:(by right)).
  apply elem_of_cons in H as [[= -> ->]|H]; [|done]. destruct Hk.
  apply (list_elem_of_fmap_2 fst) in Hz. change (m.*1 = l.*1) in E. by rewrite E in Hz.
Qed.

Lemma restoreQSets_ok qmap group : NoDup qmap.*1 → group ⊆ qmap.*1 → ∀ m, m.*1 = qmap.*1 →
  (∀ n x, (n, x) ∈ m → n ∉ group → (n, x) ∈ qmap) → restoreQSets group qmap m = Ok qmap.
Proof.
  intros Hn. induction group as [|k group IH]; intros Hg m Hm Hsame; simpl.
  { f_equal. apply keyed_eq; [by rewrite Hm|done|]. intros n x Hx. apply Hsame; [done|apply not_elem_of_nil]. }
  assert (k ∈ qmap.*1) as Hk by (apply Hg; by left).
  pose proof Hk as ([k' q] & E & Hq)%list_elem_of_fmap. simpl in E. subst k'.
  rewrite (findQSet_Some k q) by done. rewrite assignQSet_revised by (by rewrite Hm).
  apply IH; [set_solver|by rewrite revised_keys|]. intros n x Hx Hng. unfold revised in Hx.
  apply list_elem_of_fmap in Hx as ([n' x'] & [= -> ->] & Hx). simpl.
  destruct (Z.eqb_spec n' k) as [->|Hne]; [done|]. apply Hsame; [done|]. set_solver.
Qed.

(** ** Fickle groups *)

Lemma length_known qmap : (length (known qmap) ≤ length qmap)%nat.
Proof.
  induction qmap as [|[n [q|]] qmap IH]; [done| |].
  - change (S (length (known qmap)) ≤ S (length qmap))%nat. lia.
  - change (length (known qmap) ≤ S (length qmap))%nat. lia.
Qed.

Lemma pointsToGroup_ok qmap group :
  strictly_sorted Zcmp (pointsToGroup qmap group) ∧ ∀ n, n ∈ pointsToGroup qmap group → n ∉ group.
Proof.
  unfold pointsToGroup. set (P := λ acc, strictly_sorted Zcmp acc ∧ ∀ n, n ∈ acc → n ∉ group).
  set (g := λ acc candidate, foldl _ acc qmap). change (P (foldl g [] group)).
  assert (∀ acc k, P acc → P (g acc k)) as Hg.
  { intros acc k. unfold g. revert acc. induction qmap as [|[n [q|]] l IH]; intros acc Ha; simpl; [done| |by apply IH].
    apply IH. case_bool_decide as Hn; simpl; [done|]. destruct (pointsToCandidate q k); [|done].
    destruct Ha as [Hs Hd]. split; [by apply bs_set_sorted|]. intros m [->|Hm]%elem_of_bs_set; [done|by apply Hd]. }
  assert (P []) as H0 by (split; [constructor|by intros n ?%elem_of_nil]).
  clearbody P g. revert H0. generalize (@nil Z). generalize group.
  intros l. induction l as [|k l IH]; intros acc Ha; simpl; [done|]. by apply IH, Hg.
Qed.

Lemma fickleQSet_plain qmap group : NoDup group → group ≠ [] → Z.of_nat (length group) < 2 ^ 32 →
  plain (fickleQSet qmap group).
Proof.
  intros Hn Hne Hl. destruct (pointsToGroup_ok qmap group) as [Hs Hd]. split; simpl.
  - assert (1 ≤ Z.of_nat (length group)) by (destruct group; [done|simpl; lia]).
    unfold u32. rewrite Z.mod_small by lia. split_and!; try done; lia.
  - rewrite !app_nil_r. apply NoDup_app. split_and!; [done| |by apply bsorted_NoDup].
    intros n Hn1 Hn2. by apply (Hd n).
Qed.

(** The map with the fickle quorum set for the group *)
Definition withFickle (qmap : QuorumMap) (group : list NodeID) : QuorumMap :=
  revised (λ n x, if decide (n ∈ group) then Some (fickleQSet qmap group) else x) qmap.

Lemma withFickle_ok qmap group : qmapOk qmap → (length qmap ≤ 64)%nat → NoDup group → group ≠ [] →
  Z.of_nat (length group) < 2 ^ 32 → qmapOk (withFickle qmap group).
Proof.
  intros Hok Hw Hn Hne Hl. split; [unfold withFickle; rewrite revised_keys; apply Hok| |].
  { etrans; [apply length_known|]. unfold withFickle, revised. by rewrite length_map. }
  intros n q Hq. apply list_elem_of_fmap in Hq as ([n' x] & [= -> E] & Hin).
  case_decide; simplify_eq; [by apply fickleQSet_plain|by apply (qo_plain _ Hok n')].
Qed.

(** ** All the groups *)

(** What the quorum tracker provides: sane quorum sets, and an entry for every node that
    is mentioned. *)
Record trackedMap (qmap : QuorumMap) : Prop := {
  tm_keys : NoDup qmap.*1;
  tm_small : (length qmap ≤ 64)%nat;
  tm_sane n q : (n, Some q) ∈ qmap → isQuorumSetSane q false = true;
  tm_closed n q k : (n, Some q) ∈ qmap → k ∈ qset_nodes q → k ∈ qmap.*1
}.

Lemma at_levels_mono (P Q : Z → Z → Prop) q : (∀ t n, P t n → Q t n) → at_levels P q → at_levels Q q.
Proof.
  intros H. induction q as [t v i IH] using qset_ind. simpl. rewrite !all_in_Forall. intros [Hp Hi].
  split; [by apply H|]. rewrite !Forall_forall in *. intros q Hq. by apply IH, Hi.
Qed.

Lemma trackedMap_ok qmap : trackedMap qmap → qmapOk qmap.
Proof.
  intros [H1 Hs H2 _]. split; [done|pose proof (length_known qmap); lia|]. intros n q Hq. apply H2, isQuorumSetSane_iff in Hq as (Hl & _ & Hn & _).
  split; [|done]. revert Hl. apply at_levels_mono. by intros t m [[? _] _].
Qed.

Lemma leafOf_nodes q v : leafOf q v → at_levels (level_ok false) q →
  v ≠ [] ∧ v ⊆ qset_nodes q ∧ (length v ≤ length (qset_nodes q))%nat.
Proof.
  induction 1 as [t v i t' v' Hin|t v i q v' Hin _ IH]; simpl; rewrite all_in_Forall, Forall_forall;
    intros [_ Hl]; specialize (Hl _ Hin).
  - destruct Hl as [[Hl _] _]. simpl in Hl. split; [intros ->; simpl in Hl; lia|].
    apply list_elem_of_split in Hin as (a & b & ->). rewrite map_app, concat_app. simpl.
    rewrite !length_app. split; [set_solver|lia].
  - destruct (IH Hl) as (H1 & H2 & H3). split; [done|].
    apply list_elem_of_split in Hin as (a & b & ->). rewrite map_app, concat_app. simpl.
    rewrite !length_app. split; [set_solver|lia].
Qed.

Lemma candidate_ok qmap n q group : trackedMap qmap → (n, Some q) ∈ qmap → isCandidate q group →
  NoDup group ∧ group ≠ [] ∧ group ⊆ qmap.*1 ∧ Z.of_nat (length group) < 2 ^ 32.
Proof.
  intros Ht Hq Hc. pose proof (tm_closed _ Ht n q) as Hcl.
  pose proof (tm_sane _ Ht n q Hq) as (Hl & _ & Hn & Hlen)%isQuorumSetSane_iff.
  destruct Hc as [(k & Hk & ->)|(v & Hv & ->)].
  - split_and!; [by apply NoDup_singleton|done| |simpl; lia]. intros m ->%list_elem_of_singleton. by apply Hcl.
  - destruct (leafOf_nodes q v Hv Hl) as (H1 & H2 & H3).
    assert (∀ m, m ∈ set_inserts Zcmp v [] ↔ m ∈ v) as Hm.
    { intros m. rewrite (elem_of_set_inserts Zcmp). set_solver. }
    assert (NoDup (set_inserts Zcmp v [])) as Hnd by (apply bsorted_NoDup, (set_inserts_sorted Zcmp); constructor).
    split_and!; [done| | |].
    + destruct v as [|k v]; [done|]. intros E. pose proof (proj2 (Hm k) ltac:(by left)) as Hk. rewrite E in Hk.
      by apply elem_of_nil in Hk.
    + intros m Hmv%Hm. by apply Hcl, H2.
    + assert (length (set_inserts Zcmp v []) ≤ length v)%nat; [|lia].
      apply submseteq_length, NoDup_submseteq; [done|]. intros m. by rewrite Hm.
Qed.

Lemma criticalGroups_ok rand qmap candidates : trackedMap qmap →
  (∀ group, group ∈ candidates → ∃ n q, (n, Some q) ∈ qmap ∧ isCandidate q group) →
  ∀ critical, ∃ r, criticalGroups rand qmap qmap candidates critical = Ok r ∧
    ∀ group, group ∈ r ↔ (group ∈ candidates ∧ ¬ intersects (withFickle qmap group)) ∨ group ∈ critical.
Proof.
  intros Ht. pose proof (trackedMap_ok _ Ht) as Hok.
  induction candidates as [|group l IH]; intros Hc critical; simpl.
  { exists critical. split; [done|]. intros group. rewrite elem_of_nil. naive_solver. }
  destruct (Hc group) as (n & q & Hq & Hg); [by left|].
  destruct (candidate_ok qmap n q group Ht Hq Hg) as (H1 & H2 & H3 & H4).
  rewrite installFickle_revised by (try done; apply Hok). fold (withFickle qmap group).
  destruct (checker_ok (withFickle qmap group) (withFickle_ok qmap group Hok (tm_small _ Ht) H1 H2 H4) rand) as (b & s & -> & Hb).
  simpl. rewrite (restoreQSets_ok qmap group); [|apply Hok|done|apply revised_keys|].
  2: { intros m x Hm Hno. apply list_elem_of_fmap in Hm as ([m' x'] & [= -> ->] & Hin). by rewrite decide_False. }
  simpl. destruct (IH ltac:(set_solver) (if b then critical else set_insert setCmp group critical))
    as (r & -> & Hr). exists r. split; [done|].
  assert (b = false ↔ ¬ intersects (withFickle qmap group)) as Hbi.
  { destruct b; [by split; [|intros []; apply Hb]|]. split; [|done]. intros _ Hi. destruct Hb as (HA & HB & Hd).
    destruct (Hi _ _ HA HB) as (m & Hm1 & Hm2). by apply (Hd m). }
  intros g. rewrite Hr. destruct b; [|rewrite (elem_of_set_insert setCmp)]; rewrite elem_of_cons; naive_solver.
Qed.

Lemma elem_of_candidates (qmap : QuorumMap) c group :
  group ∈ foldl (λ c k, match k.2 with Some q => findCriticalityCandidates q c true | None => c end) c qmap ↔
  (∃ n q, (n, Some q) ∈ qmap ∧ isCandidate q group) ∨ group ∈ c.
Proof.
  revert c. induction qmap as [|[k [x|]] qmap IH]; intros c; simpl.
  - split; [by right|]. intros [(n & q & ?%elem_of_nil & _)|]; done.
  - rewrite IH, elem_of_findCriticalityCandidates. unfold addsCandidate. setoid_rewrite elem_of_cons. naive_solver.
  - rewrite IH. setoid_rewrite elem_of_cons. naive_solver.
Qed.

Lemma candidates_ok rand qmap : trackedMap qmap →
  ∃ critical, getIntersectionCriticalGroups rand qmap = Ok critical ∧
    ∀ group, group ∈ critical ↔
      (∃ n q, (n, Some q) ∈ qmap ∧ isCandidate q group) ∧ ¬ intersects (withFickle qmap group).
Proof.
  intros Ht. unfold getIntersectionCriticalGroups. set (cs := foldl _ [] qmap).
  assert (∀ group, group ∈ cs ↔ ∃ n q, (n, Some q) ∈ qmap ∧ isCandidate q group) as Hcs.
  { intros group. unfold cs. clear cs Ht. rewrite elem_of_candidates. rewrite elem_of_nil. tauto. }
  destruct (criticalGroups_ok rand qmap cs Ht (λ g, proj1 (Hcs g)) []) as (r & E & Hr).
  exists r. split; [exact E|]. intros group. rewrite Hr, Hcs, elem_of_nil. tauto.
Qed.

Lemma criticalGroups_total rand qmap : trackedMap qmap → ∃ r, getIntersectionCriticalGroups rand qmap = Ok r.
Proof. intros Ht. destruct (candidates_ok rand qmap Ht) as (r & E & _). by exists r. Qed.

(** ** The report *)


(** Node 1 relies on node 2, which relies on node 3, which relies on itself. *)
Definition chainMap : QuorumMap :=
  [(1, Some (QSet 2 [1; 2] [])); (2, Some (QSet 2 [2; 3] [])); (3, Some (QSet 1 [3] []))].

