(* ===== verification/BitSets.v ===== *)
(** * Bit sets (src/util/BitSet.h and lib/util/cbitset)

    A set of small numbers as 64-bit words.  The first word is stored in the object
    itself until a larger bit is set; the words then move to the heap.  Reallocating the
    inline word is undefined behaviour and a failure of the model.

    The sets of the quorum intersection checker are ascending lists of bits; the theorems
    show when the operations on words implement them. *)

From stdpp Require Import prelude list.
From Stdlib Require Import ZArith Lia Sorted.
From S2P Require Import Prelude QuorumSet QuorumIntersection QicTarjan.
Local Open Scope Z_scope.

Inductive BitSetError : Type := ReallocOfInlineWord.

(** [*mPtr], with [mPtr == &mInlineBitset] as [isStoredInline]; the words past
    [arraysize] are not part of the state. *)
Record bitset_t : Type := {
  isStoredInline : bool;
  array : list Z;
  capacity : Z
}.

Definition arraysize (b : bitset_t) : Z := Z.of_nat (length (array b)).

Definition INLINE_NBITS : Z := 64.

Definition setToEmptyAndInline : bitset_t :=
  {| isStoredInline := true; array := [0]; capacity := 1 |}.

Definition wordsFor (nBits : Z) : Z := Z.shiftr (u64 (nBits + 63)) 6.

Definition zeros (n : Z) : list Z := replicate (Z.to_nat n) 0.

Definition bitset_create_with_capacity (size : Z) : bitset_t :=
  let n := u64 (size + 63) `div` 64 in
  {| isStoredInline := false; array := zeros n; capacity := n |}.

Definition setToEmptyWithCapacity (nBits : Z) : bitset_t :=
  if INLINE_NBITS <? nBits then bitset_create_with_capacity nBits else setToEmptyAndInline.

Definition bitset_copy (b : bitset_t) : bitset_t :=
  {| isStoredInline := false; array := array b; capacity := arraysize b |}.

(** [copyOther] copies the inline word or the heap words. *)
Definition copyOther (other : bitset_t) : bitset_t :=
  if isStoredInline other then other else bitset_copy other.

(** [realloc] when the capacity is too small *)
Definition reserve (b : bitset_t) (n : Z) : outcome BitSetError Z :=
  if capacity b <? n then
    if isStoredInline b then Fail ReallocOfInlineWord else Ok (n * 2)
  else Ok (capacity b).

(** [bitset_resize] with padding *)
Definition bitset_resize (b : bitset_t) (newarraysize : Z) : outcome BitSetError bitset_t :=
  let? c := reserve b newarraysize in
  Ok {| isStoredInline := isStoredInline b;
        array := take (Z.to_nat newarraysize) (array b) ++ zeros (newarraysize - arraysize b);
        capacity := c |}.

Definition bitset_grow (b : bitset_t) (newarraysize : Z) : outcome BitSetError bitset_t :=
  let? c := reserve b newarraysize in
  Ok {| isStoredInline := isStoredInline b;
        array := array b ++ zeros (newarraysize - arraysize b);
        capacity := c |}.

Definition ensureCapacity (nBits : Z) (b : bitset_t) : outcome BitSetError bitset_t :=
  let nWords := wordsFor nBits in
  if nWords <=? capacity b then Ok b
  else bitset_resize (if isStoredInline b then bitset_copy b else b) nWords.

Definition set_array (ws : list Z) (b : bitset_t) : bitset_t :=
  {| isStoredInline := isStoredInline b; array := ws; capacity := capacity b |}.

Definition word (b : bitset_t) (k : Z) : Z := nth (Z.to_nat k) (array b) 0.

Definition bitset_set (b : bitset_t) (i : Z) : outcome BitSetError bitset_t :=
  let shiftedi := Z.shiftr i 6 in
  let? b := (if arraysize b <=? shiftedi then bitset_grow b (shiftedi + 1) else Ok b) in
  Ok (set_array (<[Z.to_nat shiftedi := Z.lor (word b shiftedi) (Z.shiftl 1 (i mod 64))]> (array b)) b).

Definition bitset_unset (b : bitset_t) (i : Z) : bitset_t :=
  let shiftedi := Z.shiftr i 6 in
  if arraysize b <=? shiftedi then b
  else set_array (<[Z.to_nat shiftedi :=
         Z.land (word b shiftedi) (u64 (Z.lnot (Z.shiftl 1 (i mod 64))))]> (array b)) b.

Definition bitset_get (b : bitset_t) (i : Z) : bool :=
  let shiftedi := Z.shiftr i 6 in
  if arraysize b <=? shiftedi then false
  else negb (Z.land (word b shiftedi) (Z.shiftl 1 (i mod 64)) =? 0).

Definition set (i : Z) (b : bitset_t) : outcome BitSetError bitset_t :=
  let? b := ensureCapacity i b in bitset_set b i.

(** [BitSet(std::set<size_t> const& s)] *)
Definition BitSet_of (s : list Z) : outcome BitSetError bitset_t :=
  foldl (λ b i, let? b := b in set i b)
    (Ok (setToEmptyWithCapacity (default 0 (last s)))) s.

(** ** Words *)

Definition bits64 : list Z := seqZ 0 64.
Definition popcountll (w : Z) : Z := countZ (Z.testbit w) bits64.

(** The lowest bit of a word that is not zero *)
Definition ctzll (w : Z) : Z := default 64 (head (List.filter (Z.testbit w) bits64)).

(** Two arrays word by word; [rest1] and [rest2] are what becomes of the words that only
    one of them has. *)
Fixpoint zipWords (f : Z → Z → Z) (rest1 rest2 : list Z → list Z) (w1 w2 : list Z) : list Z :=
  match w1, w2 with
  | a :: w1, b :: w2 => f a b :: zipWords f rest1 rest2 w1 w2
  | [], w2 => rest2 w2
  | w1, [] => rest1 w1
  end.

Definition bitset_count (b : bitset_t) : Z := foldr (λ w n, popcountll w + n) 0 (array b).

(** [ensureCapacity] leaves room: the [bitset_resize] of the union does not reallocate an
    inline word. *)
Definition inplaceUnion (other b : bitset_t) : outcome BitSetError bitset_t :=
  let? b := ensureCapacity (arraysize other * 64) b in
  let? c := reserve b (arraysize other) in
  Ok {| isStoredInline := isStoredInline b;
        array := zipWords Z.lor id id (array b) (array other); capacity := c |}.

Definition inplaceSymmetricDifference (other b : bitset_t) : outcome BitSetError bitset_t :=
  let? b := ensureCapacity (arraysize other * 64) b in
  let? c := reserve b (arraysize other) in
  Ok {| isStoredInline := isStoredInline b;
        array := zipWords Z.lxor id id (array b) (array other); capacity := c |}.

Definition inplaceIntersection (other b : bitset_t) : bitset_t :=
  set_array (zipWords Z.land (map (λ _, 0)) (λ _, []) (array b) (array other)) b.

Definition inplaceDifference (other b : bitset_t) : bitset_t :=
  set_array (zipWords (λ x y, Z.land x (u64 (Z.lnot y))) id (λ _, []) (array b) (array other)) b.

Definition sumWords (ws : list Z) : Z := foldr (λ w n, popcountll w + n) 0 ws.

Definition unionCount (b other : bitset_t) : Z :=
  sumWords (zipWords Z.lor id id (array b) (array other)).
Definition intersectionCount (b other : bitset_t) : Z :=
  sumWords (zipWords Z.land (λ _, []) (λ _, []) (array b) (array other)).
Definition differenceCount (b other : bitset_t) : Z :=
  sumWords (zipWords (λ x y, Z.land x (u64 (Z.lnot y))) id (λ _, []) (array b) (array other)).
Definition symmetricDifferenceCount (b other : bitset_t) : Z :=
  sumWords (zipWords Z.lxor id id (array b) (array other)).

(** Both comparisons look at the words the two sets have in common. *)
Definition bitset_equal (b1 b2 : bitset_t) : bool :=
  forallb (λ '(x, y), x =? y) (zip (array b1) (array b2)).
Definition bitset_subseteq (b1 b2 : bitset_t) : bool :=
  forallb (λ '(x, y), Z.land x y =? x) (zip (array b1) (array b2)).

(** ** Iteration *)

Fixpoint nextWord (x : Z) (ws : list Z) : option Z :=
  match ws with
  | [] => None
  | w :: ws => if negb (w =? 0) then Some (x * 64 + ctzll w) else nextWord (x + 1) ws
  end.

Definition nextSetBit (b : bitset_t) (i : Z) : option Z :=
  let x := Z.shiftr i 6 in
  if arraysize b <=? x then None
  else
    let w := Z.shiftr (word b x) (Z.land i 63) in
    if negb (w =? 0) then Some (i + ctzll w)
    else nextWord (x + 1) (drop (Z.to_nat (x + 1)) (array b)).

Definition empty (b : bitset_t) : bool :=
  match nextSetBit b 0 with Some _ => false | None => true end.

(** [__builtin_clzll] of a word that is not zero *)
Definition clzll (w : Z) : Z := 63 - Z.log2 w.

(** [for (size_t k = bitset->arraysize; k > 0; k--)] *)
Fixpoint maximumFrom (ws : list Z) (k : nat) : Z :=
  match k with
  | O => 0
  | S k =>
      let w := nth k ws 0 in
      if negb (w =? 0) then 63 - clzll w + Z.of_nat k * 64 else maximumFrom ws k
  end.

Definition bitset_maximum (b : bitset_t) : Z := maximumFrom (array b) (length (array b)).

Definition clear (b : bitset_t) : bitset_t := set_array (map (λ _, 0) (array b)) b.

(** [for (size_t i = 0; bs.nextSet(i); ++i)] *)
Fixpoint iterate (fuel : nat) (b : bitset_t) (i : Z) : list Z :=
  match fuel with
  | O => []
  | S fuel =>
      match nextSetBit b i with
      | Some j => j :: iterate fuel b (j + 1)
      | None => []
      end
  end.

(** ** The set a sequence of words represents *)

Definition bitw (ws : list Z) (i : Z) : bool :=
  (0 <=? i) && Z.testbit (nth (Z.to_nat (i `div` 64)) ws 0) (i mod 64).

Definition elements (b : bitset_t) : list Z := filter (λ i, bitw (array b) i = true) (seqZ 0 (64 * arraysize b)).

Definition wordOk (w : Z) : Prop := 0 ≤ w < 2 ^ 64.

Record wf (b : bitset_t) : Prop := {
  wf_words : Forall wordOk (array b);
  wf_capacity : arraysize b ≤ capacity b;
  wf_inline : isStoredInline b = true → length (array b) = 1%nat ∧ capacity b = 1;
  wf_size : arraysize b ≤ 2 ^ 54 ∧ capacity b ≤ 2 ^ 55
}.

Lemma bitw_nil i : bitw [] i = false.
Proof. unfold bitw. destruct (Z.to_nat _); simpl; by rewrite Z.testbit_0_l, andb_false_r. Qed.

Lemma nth_word ws k : Forall wordOk ws → wordOk (nth k ws 0).
Proof.
  intros H. destruct (nth_in_or_default k ws 0) as [Hin| ->]; [|unfold wordOk; lia].
  rewrite Forall_forall in H. by apply H, list_elem_of_In.
Qed.

Lemma testbit_high w n : wordOk w → 64 ≤ n → Z.testbit w n = false.
Proof.
  intros [H1 H2] Hn. destruct (decide (w = 0)) as [->|Hne]; [by rewrite Z.testbit_0_l|].
  apply Z.bits_above_log2; [done|]. assert (Z.log2 w < 64) by (apply Z.log2_lt_pow2; lia). lia.
Qed.

Lemma bitw_past ws i : 64 * Z.of_nat (length ws) ≤ i → bitw ws i = false.
Proof.
  intros H. unfold bitw. rewrite nth_overflow; [by rewrite Z.testbit_0_l, andb_false_r|].
  assert (Z.of_nat (length ws) ≤ i `div` 64) by (apply Z.div_le_lower_bound; lia). lia.
Qed.

Lemma shiftr_6 i : Z.shiftr i 6 = i `div` 64.
Proof. by rewrite Z.shiftr_div_pow2. Qed.

Lemma testbit_mask k n : 0 ≤ k → Z.testbit (Z.shiftl 1 k) n = (n =? k).
Proof.
  intros Hk. destruct (Z.neg_nonneg_cases n) as [Hn|Hn].
  { rewrite Z.testbit_neg_r by done. symmetry. apply Z.eqb_neq. lia. }
  rewrite Z.shiftl_1_l, Z.pow2_bits_eqb by done. apply Z.eqb_sym.
Qed.

Lemma testbit_clear m n : 0 ≤ n < 64 → Z.testbit (u64 (Z.lnot m)) n = negb (Z.testbit m n).
Proof.
  intros Hn. unfold u64. change 18446744073709551616 with (2 ^ 64).
  rewrite Z.mod_pow2_bits_low by lia. apply Z.lnot_spec. lia.
Qed.

(** A word is determined by its 64 bits. *)
Lemma word_ext w w' : wordOk w → wordOk w' → (∀ n, 0 ≤ n < 64 → Z.testbit w n = Z.testbit w' n) → w = w'.
Proof.
  intros H1 H2 H. apply Z.bits_inj'. intros n Hn. destruct (decide (n < 64)); [apply H; lia|].
  rewrite !testbit_high by (done || lia). done.
Qed.

Lemma wordOk_bits w : 0 ≤ w → (∀ n, 64 ≤ n → Z.testbit w n = false) → wordOk w.
Proof.
  intros H0 H. split; [done|]. destruct (decide (w = 0)) as [->|Hne]; [lia|].
  apply Z.log2_lt_pow2; [lia|]. destruct (decide (Z.log2 w < 64)); [done|].
  specialize (H (Z.log2 w) ltac:(lia)). rewrite Z.bit_log2 in H by lia. done.
Qed.

Lemma wordOk_land w x : wordOk w → wordOk (Z.land w x).
Proof.
  intros H. apply wordOk_bits.
  - apply Z.land_nonneg. left. apply H.
  - intros n Hn. by rewrite Z.land_spec, testbit_high.
Qed.

Lemma wordOk_lor w x : wordOk w → wordOk x → wordOk (Z.lor w x).
Proof.
  intros H Hx. apply wordOk_bits.
  - apply Z.lor_nonneg. split; [apply H|apply Hx].
  - intros n Hn. by rewrite Z.lor_spec, !testbit_high.
Qed.

Lemma wordOk_lxor w x : wordOk w → wordOk x → wordOk (Z.lxor w x).
Proof.
  intros H Hx. apply wordOk_bits.
  - apply Z.lxor_nonneg. split; intros; [apply Hx|apply H].
  - intros n Hn. by rewrite Z.lxor_spec, !testbit_high.
Qed.

Lemma wordOk_mask k : 0 ≤ k < 64 → wordOk (Z.shiftl 1 k).
Proof.
  intros Hk. rewrite Z.shiftl_1_l. split; [apply Z.pow_nonneg; lia|]. apply Z.pow_lt_mono_r; lia.
Qed.

(** ** Reading and writing bits *)

Lemma bitw_cons w ws i : 0 ≤ i → bitw (w :: ws) i = if i <? 64 then Z.testbit w i else bitw ws (i - 64).
Proof.
  intros Hi. unfold bitw. rewrite (proj2 (Z.leb_le 0 i)) by done.
  destruct (Z.ltb_spec i 64).
  - rewrite Z.div_small, Z.mod_small by lia. done.
  - rewrite (proj2 (Z.leb_le 0 (i - 64))) by lia. replace i with (i - 64 + 1 * 64) at 1 2 by lia.
    rewrite Z.div_add, Z.mod_add by lia. pose proof (Z.div_pos (i - 64) 64).
    rewrite Z2Nat.inj_add by lia. rewrite Nat.add_comm. done.
Qed.

Lemma bitw_insert ws k w i : 0 ≤ i → (k < length ws)%nat →
  bitw (<[k := w]> ws) i = if i `div` 64 =? Z.of_nat k then Z.testbit w (i mod 64) else bitw ws i.
Proof.
  intros Hi Hk. unfold bitw. rewrite (proj2 (Z.leb_le 0 i)) by done. simpl.
  pose proof (Z.div_pos i 64 Hi eq_refl). rewrite !nth_lookup.
  destruct (Z.eqb_spec (i `div` 64) (Z.of_nat k)) as [->|Hne].
  - rewrite Nat2Z.id, list_lookup_insert_eq by done. done.
  - rewrite list_lookup_insert_ne by lia. done.
Qed.

Lemma bitw_app_zeros ws n i : bitw (ws ++ zeros n) i = bitw ws i.
Proof.
  unfold bitw. f_equal. rewrite !nth_lookup. unfold zeros.
  destruct (decide (Z.to_nat (i `div` 64) < length ws)%nat); [by rewrite lookup_app_l|].
  rewrite lookup_app_r, (lookup_ge_None_2 ws) by lia. simpl.
  destruct (replicate (Z.to_nat n) 0 !! _) eqn:E; [|done]. by apply lookup_replicate in E as [-> _].
Qed.

Lemma bitset_get_eq b i : 0 ≤ i → bitset_get b i = bitw (array b) i.
Proof.
  intros Hi. unfold bitset_get, word. rewrite shiftr_6. pose proof (Z.mod_pos_bound i 64).
  destruct (Z.leb_spec (arraysize b) (i `div` 64)) as [Hge|Hlt]; unfold arraysize in *.
  { symmetry. apply bitw_past. pose proof (Z.mul_div_le i 64). lia. }
  unfold bitw. rewrite (proj2 (Z.leb_le 0 i)) by done. simpl. set (w := nth _ _ _).
  destruct (Z.testbit w (i mod 64)) eqn:E.
  - destruct (Z.eqb_spec (Z.land w (Z.shiftl 1 (i mod 64))) 0) as [E0|]; [|done]. exfalso.
    assert (Z.testbit (Z.land w (Z.shiftl 1 (i mod 64))) (i mod 64) = true) as Hb.
    { rewrite Z.land_spec, E, testbit_mask, Z.eqb_refl by lia. done. }
    by rewrite E0, Z.testbit_0_l in Hb.
  - apply negb_false_iff, Z.eqb_eq. apply Z.bits_inj'. intros n Hn.
    rewrite Z.land_spec, testbit_mask, Z.testbit_0_l by lia.
    destruct (Z.eqb_spec n (i mod 64)) as [->|]; [by rewrite E|apply andb_false_r].
Qed.

Lemma div_mod_eq i j : i `div` 64 = j `div` 64 → (j mod 64 =? i mod 64) = (j =? i).
Proof.
  intros H. pose proof (Z.div_mod i 64). pose proof (Z.div_mod j 64).
  destruct (Z.eqb_spec (j mod 64) (i mod 64)), (Z.eqb_spec j i); try done; [lia|congruence].
Qed.

Lemma set_word_wf b k w : wf b → wordOk w → wf (set_array (<[k := w]> (array b)) b).
Proof.
  intros [Hw Hc Hin Hs] Hok. split; simpl; unfold arraysize in *; simpl; rewrite ?length_insert; try done.
  by apply Forall_insert.
Qed.

Lemma bitset_unset_ok b i : wf b → 0 ≤ i → wf (bitset_unset b i) ∧
  isStoredInline (bitset_unset b i) = isStoredInline b ∧ arraysize (bitset_unset b i) = arraysize b ∧
  ∀ j, 0 ≤ j → bitw (array (bitset_unset b i)) j = bitw (array b) j && negb (j =? i).
Proof.
  intros Hb Hi. unfold bitset_unset. rewrite shiftr_6. pose proof (Z.mod_pos_bound i 64).
  pose proof (Z.div_pos i 64 Hi eq_refl). pose proof (Z.mul_div_le i 64).
  destruct (Z.leb_spec (arraysize b) (i `div` 64)) as [Hge|Hlt].
  { split_and!; [done..|]. intros j Hj. destruct (Z.eqb_spec j i) as [->|]; [|by rewrite andb_true_r].
    rewrite andb_false_r. apply bitw_past. unfold arraysize in Hge. lia. }
  unfold arraysize in *. assert (Z.to_nat (i `div` 64) < length (array b))%nat by lia.
  split_and!; [|done|simpl; by rewrite length_insert|].
  - apply set_word_wf; [done|]. by apply wordOk_land, nth_word, Hb.
  - intros j Hj. simpl. rewrite bitw_insert by done. rewrite Z2Nat.id by done.
    destruct (Z.eqb_spec (j `div` 64) (i `div` 64)) as [E|E].
    + rewrite Z.land_spec, testbit_clear by (apply Z.mod_pos_bound; lia).
      rewrite testbit_mask by lia. rewrite div_mod_eq by done. unfold word, bitw.
      rewrite (proj2 (Z.leb_le 0 j)), E by done. done.
    + destruct (Z.eqb_spec j i) as [->|]; [done|by rewrite andb_true_r].
Qed.

(** ** Growing *)

Lemma wordsFor_eq n : 0 ≤ n ≤ 2 ^ 60 → wordsFor n = (n + 63) `div` 64 ∧ 0 ≤ wordsFor n ≤ 2 ^ 54.
Proof.
  intros Hn. unfold wordsFor. rewrite shiftr_6, u64_small by word. split; [done|].
  split; [apply Z.div_pos; lia|]. apply Z.lt_succ_r, Z.div_lt_upper_bound; lia.
Qed.

Lemma zeros_ok n : Forall wordOk (zeros n).
Proof. apply Forall_replicate. unfold wordOk. lia. Qed.

Lemma length_zeros n : length (zeros n) = Z.to_nat n.
Proof. apply length_replicate. Qed.

Lemma ensureCapacity_ok b n : wf b → 0 ≤ n ≤ 2 ^ 60 →
  ∃ b', ensureCapacity n b = Ok b' ∧ wf b' ∧ (∀ j, bitw (array b') j = bitw (array b) j) ∧
    wordsFor n ≤ capacity b' ∧ (wordsFor n ≤ capacity b → b' = b) ∧
    (capacity b < wordsFor n → isStoredInline b' = false ∧ capacity b' = wordsFor n * 2).
Proof.
  intros Hb Hn. destruct (wordsFor_eq n Hn) as [_ Hw]. unfold ensureCapacity.
  destruct (Z.leb_spec (wordsFor n) (capacity b)) as [Hle|Hlt]; [exists b; split_and!; try done; lia|].
  set (c := if isStoredInline b then bitset_copy b else b).
  assert (isStoredInline c = false ∧ array c = array b ∧ capacity c ≤ capacity b) as (H1 & H2 & H3).
  { unfold c. destruct (isStoredInline b) eqn:E; simpl; split_and!; try done. apply (wf_capacity b Hb). }
  destruct Hb as [Hww Hc _ _]. unfold bitset_resize, reserve. rewrite H1, H2.
  rewrite (proj2 (Z.ltb_lt (capacity c) (wordsFor n))) by lia. simpl.
  assert (arraysize c = arraysize b) as E by (unfold arraysize; by rewrite H2). rewrite E.
  rewrite take_ge by (unfold arraysize in Hc; lia).
  eexists. split; [done|]. split_and!; simpl; try done; try lia; [|intros j; apply bitw_app_zeros].
  split; simpl; try done; try lia.
  - apply Forall_app. split; [done|apply zeros_ok].
  - unfold arraysize in *. simpl. rewrite length_app, length_zeros. lia.
  - unfold arraysize in *. simpl. rewrite length_app, length_zeros. lia.
Qed.

Lemma inline_bit b i : wf b → 0 ≤ i < 2 ^ 60 → isStoredInline b = true →
  wordsFor i ≤ capacity b ↔ i ≤ 64.
Proof.
  intros Hb Hi Hin. destruct (wf_inline b Hb Hin) as [_ ->]. rewrite (proj1 (wordsFor_eq i ltac:(lia))).
  pose proof (Z.div_mod (i + 63) 64). pose proof (Z.mod_pos_bound (i + 63) 64). lia.
Qed.

Lemma bitset_grow_ok b n : wf b → 0 ≤ n ≤ 2 ^ 54 → arraysize b ≤ n → (isStoredInline b = true → n ≤ 1) →
  ∃ d, bitset_grow b n = Ok d ∧ wf d ∧ (∀ j, bitw (array d) j = bitw (array b) j) ∧
    isStoredInline d = isStoredInline b ∧ arraysize d = n.
Proof.
  intros [Hw Hc Hin Hs] Hn Hle Hone. unfold bitset_grow, reserve.
  assert (∀ c, n ≤ c ≤ 2 ^ 55 → (isStoredInline b = true → c = 1) → wf {| isStoredInline := isStoredInline b;
    array := array b ++ zeros (n - arraysize b); capacity := c |}) as Hwf.
  { intros c H1 H2. unfold arraysize in *. split; simpl; unfold arraysize; simpl; rewrite ?length_app, ?length_zeros.
    - apply Forall_app. split; [done|apply zeros_ok].
    - lia.
    - intros H. split; [|by apply H2]. destruct (Hin H). specialize (Hone H). lia.
    - lia. }
  assert (∀ c, arraysize {| isStoredInline := isStoredInline b; array := array b ++ zeros (n - arraysize b);
    capacity := c |} = n) as Hlen.
  { intros c. unfold arraysize in *. simpl. rewrite length_app, length_zeros. lia. }
  destruct (Z.ltb_spec (capacity b) n) as [Hlt|Hge].
  - destruct (isStoredInline b) eqn:E; [destruct (Hin eq_refl); specialize (Hone eq_refl); lia|]. simpl.
    eexists. split; [done|]. split_and!; [apply Hwf; [lia|done]|intros j; apply bitw_app_zeros|done|apply Hlen].
  - simpl. eexists. split; [done|]. split_and!; [apply Hwf; [lia|]|intros j; apply bitw_app_zeros|done|apply Hlen].
    intros H. by destruct (Hin H).
Qed.

Lemma bitset_set_ok b i : wf b → 0 ≤ i < 2 ^ 60 → (isStoredInline b = true → i < 64) →
  ∃ d, bitset_set b i = Ok d ∧ wf d ∧ isStoredInline d = isStoredInline b ∧
    ∀ j, 0 ≤ j → bitw (array d) j = bitw (array b) j || (j =? i).
Proof.
  intros Hb Hi Hin. unfold bitset_set. rewrite shiftr_6. pose proof (Z.mod_pos_bound i 64 eq_refl).
  pose proof (Z.div_mod i 64).
  assert (∃ d, (if arraysize b <=? i `div` 64 then bitset_grow b (i `div` 64 + 1) else Ok b) = Ok d ∧ wf d ∧
    (∀ j, bitw (array d) j = bitw (array b) j) ∧ isStoredInline d = isStoredInline b ∧ i `div` 64 < arraysize d)
    as (d & -> & Hd & Hbits & Hind & Hlt).
  { destruct (Z.leb_spec (arraysize b) (i `div` 64)) as [Hle|Hlt]; [|by exists b].
    destruct (bitset_grow_ok b (i `div` 64 + 1) Hb) as (d & E & Hd & Hbits & Hind & Hlen); [lia|lia| |].
    - intros H'. specialize (Hin H'). lia.
    - exists d. split_and!; try done. lia. }
  simpl. assert (wordOk (Z.lor (word d (i `div` 64)) (Z.shiftl 1 (i mod 64)))) as Hok.
  { apply wordOk_lor; [apply nth_word, Hd|by apply wordOk_mask]. }
  eexists. split; [done|]. split_and!; [by apply set_word_wf|done|]. intros j Hj. simpl.
  unfold arraysize in Hlt. rewrite bitw_insert by lia. rewrite Z2Nat.id by lia. rewrite Hbits.
  destruct (Z.eqb_spec (j `div` 64) (i `div` 64)) as [E|E].
  - rewrite Z.lor_spec, testbit_mask, div_mod_eq by (done || lia). rewrite <- (Hbits j). unfold word, bitw.
    by rewrite (proj2 (Z.leb_le 0 j)), E.
  - destruct (Z.eqb_spec j i) as [->|]; [done|by rewrite orb_false_r].
Qed.

(** [set] adds the bit, except for bit 64 of an inline set. *)
Lemma set_ok b i : wf b → 0 ≤ i < 2 ^ 60 → isStoredInline b && (i =? 64) = false →
  ∃ d, set i b = Ok d ∧ wf d ∧ isStoredInline d = isStoredInline b && (i <? 64) ∧
    ∀ j, 0 ≤ j → bitw (array d) j = bitw (array b) j || (j =? i).
Proof.
  intros Hb Hi Hno. destruct (ensureCapacity_ok b i Hb ltac:(lia)) as (c & E & Hc & Hbits & Hcap & Hsame & Hmove).
  unfold set. rewrite E. simpl.
  assert (isStoredInline c = isStoredInline b && (i <? 64) ∧ (isStoredInline c = true → i < 64)) as [Hin Hin'].
  { destruct (isStoredInline b) eqn:Eb; simpl in *.
    - apply Z.eqb_neq in Hno. pose proof (inline_bit b i Hb Hi Eb) as Hbit. destruct (Z.ltb_spec i 64) as [Hlt|Hge].
      + rewrite (Hsame ltac:(lia)), Eb. done.
      + destruct (Hmove ltac:(lia)) as [-> _]. done.
    - destruct (Z.le_gt_cases (wordsFor i) (capacity b)) as [Hle|Hgt].
      + rewrite (Hsame Hle), Eb. done.
      + destruct (Hmove Hgt) as [-> _]. done. }
  destruct (bitset_set_ok c i Hc Hi Hin') as (d & Ed & Hd & Hind & Hbd). exists d. split_and!; try done.
  - by rewrite Hind.
  - intros j Hj. by rewrite Hbd, Hbits.
Qed.

Lemma set_inline_64 b : wf b → isStoredInline b = true → set 64 b = Fail ReallocOfInlineWord.
Proof.
  intros Hb Hin. destruct (wf_inline b Hb Hin) as [H1 H2]. unfold set, ensureCapacity. rewrite H2. simpl.
  unfold bitset_set, arraysize. rewrite H1. simpl. unfold bitset_grow, reserve. by rewrite H2, Hin.
Qed.

(** ** Elements *)

Lemma seqZ_sorted m n : bsorted (seqZ m n).
Proof.
  destruct (Z.le_gt_cases n 0) as [Hn|Hn]; [by rewrite seqZ_nil by done; constructor|].
  rewrite <- (Z2Nat.id n) by lia. generalize (Z.to_nat n) as k. clear n Hn. intros k.
  revert m. induction k as [|k IH]; intros m; [constructor|].
  rewrite seqZ_cons by lia. replace (Z.pred (Z.of_nat (S k))) with (Z.of_nat k) by lia.
  constructor; [apply IH|]. apply Forall_forall. intros x Hx%elem_of_seqZ. unfold Zcmp.
  by rewrite (proj2 (Z.ltb_lt m x)) by lia.
Qed.

Lemma elements_sorted b : bsorted (elements b).
Proof. apply bsorted_filter, seqZ_sorted. Qed.

Lemma elem_of_elements b i : i ∈ elements b ↔ bitw (array b) i = true.
Proof.
  unfold elements. rewrite list_elem_of_filter, elem_of_seqZ. split; [tauto|]. intros H. split; [done|].
  split; [unfold bitw in H; destruct (Z.leb_spec 0 i); [lia|done]|].
  destruct (Z.lt_ge_cases i (64 * arraysize b)) as [|Hge]; [lia|]. unfold arraysize in Hge.
  by rewrite bitw_past in H.
Qed.

Lemma elem_of_elements_nonneg b i : i ∈ elements b → 0 ≤ i.
Proof. intros [_ [? _]%elem_of_seqZ]%list_elem_of_filter. done. Qed.

(** A set of bits is equal to a sorted list when it has its elements. *)
Lemma elements_eq b l : bsorted l → (∀ i, bitw (array b) i = true ↔ i ∈ l) → elements b = l.
Proof.
  intros Hl H. apply bsorted_eq; [apply elements_sorted|done| |]; intros i; rewrite elem_of_elements; apply H.
Qed.

(** ** Word by word *)

Section Zip.
Context (f : Z → Z → Z) (g : bool → bool → bool) (r1 r2 : list Z → list Z).
Hypothesis Hf : ∀ x y n, 0 ≤ n < 64 → Z.testbit (f x y) n = g (Z.testbit x n) (Z.testbit y n).
Hypothesis H1 : ∀ ws i, 0 ≤ i → bitw (r1 ws) i = g (bitw ws i) false.
Hypothesis H2 : ∀ ws i, 0 ≤ i → bitw (r2 ws) i = g false (bitw ws i).

Lemma bitw_zip w1 : ∀ w2 i, 0 ≤ i →
  bitw (zipWords f r1 r2 w1 w2) i = g (bitw w1 i) (bitw w2 i).
Proof.
  induction w1 as [|a w1 IH]; intros w2 i Hi; simpl; [rewrite H2, bitw_nil by done; by destruct w2|].
  destruct w2 as [|b w2]; [by rewrite H1, bitw_nil|].
  rewrite !bitw_cons by done. destruct (Z.ltb_spec i 64); [apply Hf; lia|]. apply IH. lia.
Qed.
End Zip.

Lemma zipWords_ok f r1 r2 w1 w2 : Forall wordOk w1 → Forall wordOk w2 →
  (∀ x y, wordOk x → wordOk y → wordOk (f x y)) →
  (∀ ws, Forall wordOk ws → Forall wordOk (r1 ws)) → (∀ ws, Forall wordOk ws → Forall wordOk (r2 ws)) →
  Forall wordOk (zipWords f r1 r2 w1 w2).
Proof.
  intros H1 H2 Hf Hr1 Hr2. revert w2 H2. induction H1 as [|a w1 Ha H1 IH]; intros w2 H2; simpl.
  { apply Hr2 in H2. by destruct w2. }
  destruct H2 as [|b w2 Hb H2]; [apply Hr1; by constructor|]. constructor; [by apply Hf|by apply IH].
Qed.

(** Population counts count the elements. *)
Lemma sumWords_eq ws : sumWords ws = countZ (bitw ws) (seqZ 0 (64 * Z.of_nat (length ws))).
Proof.
  induction ws as [|w ws IH]; [done|]. simpl length. rewrite Nat2Z.inj_succ.
  replace (64 * Z.succ (Z.of_nat (length ws))) with (64 + 64 * Z.of_nat (length ws)) by lia.
  rewrite seqZ_app by lia. rewrite countZ_app. cbn [sumWords foldr]. fold (sumWords ws). rewrite IH.
  unfold popcountll, bits64. apply (f_equal2 Z.add).
  - apply countZ_ext. intros i Hi%elem_of_seqZ. rewrite bitw_cons by lia.
    by rewrite (proj2 (Z.ltb_lt i 64)) by lia.
  - rewrite (Z.add_comm 0 64), <- (fmap_add_seqZ 64 0).
    etrans; [|symmetry; apply (countZ_map (Z.add 64))].
    apply countZ_ext. intros i Hi%elem_of_seqZ. rewrite bitw_cons by lia.
    rewrite (proj2 (Z.ltb_ge (64 + i) 64)) by lia. f_equal. lia.
Qed.

Lemma sumWords_length ws l : bsorted l → (∀ i, bitw ws i = true ↔ i ∈ l) → sumWords ws = bs_count l.
Proof.
  intros Hl H. pose proof (elements_eq {| isStoredInline := false; array := ws; capacity := 0 |} l Hl H) as E.
  rewrite <- E, sumWords_eq. unfold bs_count, elements, countZ, arraysize. simpl. f_equal.
  generalize (seqZ 0 (64 * Z.of_nat (length ws))). intros s. induction s as [|x s IH]; [done|].
  cbn [List.filter]. destruct (bitw ws x) eqn:Ex.
  - rewrite filter_cons_True by done. simpl. congruence.
  - rewrite filter_cons_False by (by rewrite Ex). done.
Qed.

(** ** Iteration *)

Lemma ctzll_ok w : wordOk w → w ≠ 0 →
  0 ≤ ctzll w < 64 ∧ Z.testbit w (ctzll w) = true ∧ ∀ n, 0 ≤ n < ctzll w → Z.testbit w n = false.
Proof.
  intros Hw Hne. unfold ctzll. assert (∀ m k, 0 ≤ m → (∀ n, 0 ≤ n < m → Z.testbit w n = false) →
    m + Z.of_nat k = 64 → let c := default 64 (head (List.filter (Z.testbit w) (seqZ m (Z.of_nat k)))) in
    0 ≤ c < 64 ∧ Z.testbit w c = true ∧ ∀ n, 0 ≤ n < c → Z.testbit w n = false) as H.
  { intros m k. revert m. induction k as [|k IH]; intros m Hm Hlow Hk.
    - destruct Hne. apply (word_ext w 0); [done|unfold wordOk; lia|]. intros n Hn. rewrite Z.testbit_0_l. apply Hlow. lia.
    - rewrite seqZ_cons by lia. replace (Z.pred (Z.of_nat (S k))) with (Z.of_nat k) by lia. simpl.
      destruct (Z.testbit w m) eqn:E; simpl; [split_and!; [lia|lia|done|done]|]. apply IH; [lia| |lia].
      intros n Hn. destruct (decide (n = m)) as [->|]; [done|]. apply Hlow. lia. }
  apply (H 0 64%nat); [done|lia|done].
Qed.

(** The least bit of the set from [i] on *)
Definition leastFrom (ws : list Z) (i : Z) (o : option Z) : Prop :=
  match o with
  | Some j => i ≤ j ∧ bitw ws j = true ∧ ∀ n, i ≤ n < j → bitw ws n = false
  | None => ∀ n, i ≤ n → bitw ws n = false
  end.

Lemma nextWord_ok ws : Forall wordOk ws → ∀ x, 
  match nextWord x ws with
  | Some j => leastFrom ws 0 (Some (j - x * 64))
  | None => leastFrom ws 0 None
  end.
Proof.
  induction 1 as [|w ws Hw Hws IH]; intros x; simpl.
  { intros n Hn. apply bitw_nil. }
  destruct (Z.eqb_spec w 0) as [->|Hne]; simpl.
  - specialize (IH (x + 1)). destruct (nextWord (x + 1) ws) as [j|]; simpl in *.
    + destruct IH as (H1 & H2 & H3). split_and!; [lia| |].
      * rewrite bitw_cons by lia. rewrite (proj2 (Z.ltb_ge _ 64)) by lia. rewrite <- H2. f_equal. lia.
      * intros n Hn. rewrite bitw_cons by lia. destruct (Z.ltb_spec n 64); [apply Z.testbit_0_l|]. apply H3. lia.
    + intros n Hn. rewrite bitw_cons by lia. destruct (Z.ltb_spec n 64); [apply Z.testbit_0_l|]. apply IH. lia.
  - destruct (ctzll_ok w Hw Hne) as (H1 & H2 & H3).
    replace (x * 64 + ctzll w - x * 64) with (ctzll w) by lia. split_and!; [lia| |].
    + rewrite bitw_cons by lia. by rewrite (proj2 (Z.ltb_lt _ 64)) by lia.
    + intros n Hn. rewrite bitw_cons by lia. rewrite (proj2 (Z.ltb_lt _ 64)) by lia. apply H3. lia.
Qed.

Lemma bitw_at ws q r : 0 ≤ q → 0 ≤ r < 64 → bitw ws (64 * q + r) = Z.testbit (nth (Z.to_nat q) ws 0) r.
Proof.
  intros Hq Hr. unfold bitw. rewrite (proj2 (Z.leb_le 0 _)) by lia. simpl.
  by rewrite (Z.mul_comm 64 q), Z.div_add_l, Z.div_small, Z.add_0_r, Z.add_comm, Z.mod_add, Z.mod_small by lia.
Qed.

Lemma bitw_drop k ws i : 0 ≤ i → bitw (drop k ws) i = bitw ws (i + 64 * Z.of_nat k).
Proof.
  revert ws. induction k as [|k IH]; intros ws Hi; [rewrite drop_0; f_equal; lia|].
  destruct ws as [|w ws]; [by rewrite !bitw_nil|]. cbn [drop]. rewrite IH by done. rewrite bitw_cons by lia.
  rewrite (proj2 (Z.ltb_ge _ 64)) by lia. f_equal. lia.
Qed.

Lemma nextSetBit_ok b i : wf b → 0 ≤ i → leastFrom (array b) i (nextSetBit b i).
Proof.
  intros Hb Hi. unfold nextSetBit. rewrite shiftr_6. change 63 with (Z.ones 6). rewrite Z.land_ones by lia.
  change (2 ^ 6) with 64. pose proof (Z.div_mod i 64 ltac:(lia)) as Hdm. pose proof (Z.mod_pos_bound i 64 eq_refl) as Hr.
  pose proof (Z.div_pos i 64 Hi eq_refl) as Hq. set (x := i `div` 64) in *. set (r := i mod 64) in *.
  destruct (Z.leb_spec (arraysize b) x) as [Hge|Hlt]; unfold arraysize in *.
  { intros n Hn. apply bitw_past. lia. }
  pose proof (nth_word (array b) (Z.to_nat x) (wf_words b Hb)) as Hw. unfold word. set (v := nth _ _ _) in *.
  assert (∀ n, 0 ≤ n → Z.testbit (Z.shiftr v r) n = Z.testbit v (n + r)) as Hs by (intros; apply Z.shiftr_spec; lia).
  assert (∀ n, 0 ≤ n < 64 → bitw (array b) (64 * x + n) = Z.testbit v n) as Hv by (intros; by apply bitw_at).
  destruct (Z.eqb_spec (Z.shiftr v r) 0) as [E|E]; simpl.
  - assert (∀ n, r ≤ n < 64 → Z.testbit v n = false) as Hz.
    { intros n Hn. replace n with (n - r + r) by lia. rewrite <- Hs, E by lia. apply Z.testbit_0_l. }
    pose proof (nextWord_ok (drop (Z.to_nat (x + 1)) (array b)) (Forall_drop _ _ _ (wf_words b Hb)) (x + 1)) as Hn.
    assert (∀ n, 64 * (x + 1) ≤ n → bitw (drop (Z.to_nat (x + 1)) (array b)) (n - 64 * (x + 1)) = bitw (array b) n) as Hd.
    { intros n Hn'. rewrite bitw_drop by lia. f_equal. lia. }
    assert (∀ n, i ≤ n < 64 * (x + 1) → bitw (array b) n = false) as Hlow.
    { intros n Hn'. replace n with (64 * x + (n - 64 * x)) by lia. rewrite Hv by lia. apply Hz. lia. }
    destruct (nextWord _ _) as [j|]; simpl in *.
    + destruct Hn as (H1 & H2 & H3). split_and!; [lia|rewrite <- Hd by lia; rewrite <- H2; f_equal; lia|].
      intros n Hn'. destruct (decide (n < 64 * (x + 1))); [apply Hlow; lia|]. rewrite <- Hd by lia. apply H3. lia.
    + intros n Hn'. destruct (decide (n < 64 * (x + 1))); [apply Hlow; lia|]. rewrite <- Hd by lia. apply Hn. lia.
  - destruct (ctzll_ok (Z.shiftr v r)) as (H1 & H2 & H3); [|done|].
    { apply wordOk_bits; [apply Z.shiftr_nonneg; apply Hw|]. intros n Hn. rewrite Hs by lia. apply testbit_high; [done|lia]. }
    set (c := ctzll _) in *. rewrite Hs in H2 by lia.
    assert (c + r < 64) as Hc by (destruct (Z.lt_ge_cases (c + r) 64); [done|by rewrite testbit_high in H2]).
    split_and!; [lia|replace (i + c) with (64 * x + (c + r)) by lia; by rewrite Hv by lia|].
    intros n Hn. replace n with (64 * x + (n - i + r)) by lia. rewrite Hv, <- Hs by lia. apply H3. lia.
Qed.

Definition elementsFrom (i : Z) (b : bitset_t) : list Z := filter (λ j, i ≤ j) (elements b).

Lemma iterate_ok b : wf b → ∀ fuel i, 0 ≤ i → (length (elementsFrom i b) < fuel)%nat →
  iterate fuel b i = elementsFrom i b.
Proof.
  intros Hb. pose proof (elements_sorted b) as Hs. induction fuel as [|fuel IH]; intros i Hi Hf; [lia|]. simpl.
  pose proof (nextSetBit_ok b i Hb Hi) as Hn. destruct (nextSetBit b i) as [j|]; simpl in Hn.
  - destruct Hn as (Hij & Hj & Hlow).
    assert (elementsFrom i b = j :: elementsFrom (j + 1) b) as E.
    { apply bsorted_eq; [by apply bsorted_filter| | |].
      - constructor; [by apply bsorted_filter|]. apply Forall_forall. intros k [Hk _]%list_elem_of_filter.
        unfold Zcmp. by rewrite (proj2 (Z.ltb_lt j k)) by lia.
      - intros k [Hk Hin]%list_elem_of_filter. apply elem_of_cons. destruct (decide (k = j)) as [|Hne]; [by left|].
        right. apply list_elem_of_filter. split; [|done]. apply elem_of_elements in Hin.
        destruct (decide (k < j)); [|lia]. rewrite Hlow in Hin by lia. done.
      - intros k [->|Hk]%elem_of_cons; apply list_elem_of_filter; [by rewrite elem_of_elements|].
        apply list_elem_of_filter in Hk as [Hk ?]. split; [lia|done]. }
    rewrite E in Hf |- *. simpl in Hf. f_equal. apply IH; lia.
  - symmetry. apply elem_of_nil_inv. intros k [Hk Hin]%list_elem_of_filter. apply elem_of_elements in Hin.
    by rewrite Hn in Hin.
Qed.

(** ** The operations on sets *)

Lemma elements_zip b c ws g : (∀ i, 0 ≤ i → bitw ws i = g (bitw (array b) i) (bitw (array c) i)) → g false false = false →
  ∀ i, bitw ws i = true ↔ g (bitw (array b) i) (bitw (array c) i) = true.
Proof.
  intros H Hg i. destruct (Z.le_gt_cases 0 i) as [Hi|Hi]; [by rewrite H|].
  unfold bitw. rewrite (proj2 (Z.leb_gt 0 i)) by done. simpl. by rewrite Hg.
Qed.

Lemma bitw_union w1 w2 i : 0 ≤ i → bitw (zipWords Z.lor id id w1 w2) i = bitw w1 i || bitw w2 i.
Proof.
  apply (bitw_zip Z.lor orb); [intros; apply Z.lor_spec| |]; intros; unfold id; [by rewrite orb_false_r|done].
Qed.

Lemma bitw_inter w1 w2 i : 0 ≤ i →
  bitw (zipWords Z.land (map (λ _, 0)) (λ _, []) w1 w2) i = bitw w1 i && bitw w2 i.
Proof.
  apply (bitw_zip Z.land andb); [intros; apply Z.land_spec| |]; intros ws n Hn; [|by rewrite bitw_nil].
  rewrite andb_false_r. revert n Hn. induction ws as [|w ws IH]; intros n Hn; [apply bitw_nil|].
  cbn [map]. rewrite bitw_cons by done. destruct (Z.ltb_spec n 64); [apply Z.testbit_0_l|]. apply IH. lia.
Qed.

Lemma bitw_diff w1 w2 i : 0 ≤ i →
  bitw (zipWords (λ x y, Z.land x (u64 (Z.lnot y))) id (λ _, []) w1 w2) i = bitw w1 i && negb (bitw w2 i).
Proof.
  apply (bitw_zip (λ x y, Z.land x (u64 (Z.lnot y))) (λ x y, x && negb y)).
  - intros x y n Hn. by rewrite Z.land_spec, testbit_clear.
  - intros. unfold id. by rewrite andb_true_r.
  - intros. by rewrite bitw_nil.
Qed.

Lemma bitw_interCount w1 w2 i : 0 ≤ i →
  bitw (zipWords Z.land (λ _, []) (λ _, []) w1 w2) i = bitw w1 i && bitw w2 i.
Proof.
  apply (bitw_zip Z.land andb); [intros; apply Z.land_spec| |]; intros; rewrite bitw_nil;
    [by rewrite andb_false_r|done].
Qed.

Lemma length_zipWords f r1 r2 w1 w2 :
  (∀ ws, length (r1 ws) = length ws) → (∀ ws, length (r2 ws) = length ws) →
  length (zipWords f r1 r2 w1 w2) = Nat.max (length w1) (length w2).
Proof.
  intros H1 H2. revert w2. induction w1 as [|a w1 IH]; intros w2; simpl; [rewrite H2; by destruct w2|].
  destruct w2 as [|b w2]; [by rewrite H1|]. simpl. by rewrite IH.
Qed.

Lemma set_array_wf b ws : wf b → Forall wordOk ws → length ws = length (array b) → wf (set_array ws b).
Proof. intros [H1 H2 H3 H4] Hw Hl. split; simpl; unfold arraysize in *; simpl; by rewrite ?Hl. Qed.

Lemma length_zip_left f r1 w1 w2 : (∀ ws, length (r1 ws) = length ws) →
  length (zipWords f r1 (λ _, []) w1 w2) = length w1.
Proof.
  intros Hr. revert w2. induction w1 as [|x l IH]; intros [|y w2]; simpl; [done|done|apply Hr|by rewrite IH].
Qed.

Lemma inplaceIntersection_wf b c : wf b → wf c → wf (inplaceIntersection c b).
Proof.
  intros Hb Hc. apply set_array_wf; [done| |apply length_zip_left; intros; apply length_map].
  apply zipWords_ok; [apply Hb|apply Hc|intros; by apply wordOk_land| |done].
  intros ws _. apply Forall_forall. intros x (y & -> & _)%list_elem_of_fmap. unfold wordOk. lia.
Qed.

Lemma inplaceDifference_wf b c : wf b → wf c → wf (inplaceDifference c b).
Proof.
  intros Hb Hc. apply set_array_wf; [done| |by apply length_zip_left].
  by apply zipWords_ok; [apply Hb|apply Hc|intros; apply wordOk_land| |].
Qed.

Lemma inplaceUnion_ok b c : wf b → wf c →
  ∃ u, inplaceUnion c b = Ok u ∧ wf u ∧ ∀ i, 0 ≤ i → bitw (array u) i = bitw (array b) i || bitw (array c) i.
Proof.
  intros Hb Hc. pose proof (wf_size c Hc) as [Hsc _].
  destruct (ensureCapacity_ok b (arraysize c * 64)) as (d & E & Hd & Hbits & Hcap & Hsame & Hmove);
    [done|unfold arraysize in *; lia|].
  unfold inplaceUnion. rewrite E. simpl.
  assert (wordsFor (arraysize c * 64) = arraysize c) as Hwf.
  { destruct (wordsFor_eq (arraysize c * 64)) as [-> _]; [unfold arraysize in *; lia|].
    rewrite Z.div_add_l, (Z.div_small 63) by lia. lia. }
  rewrite Hwf in Hcap. unfold reserve. rewrite (proj2 (Z.ltb_ge (capacity d) (arraysize c))) by done. simpl.
  eexists. split; [done|]. split; [|intros i Hi; simpl; by rewrite bitw_union, Hbits].
  destruct Hd as [H1 H2 H3 H4]. unfold arraysize in *.
  split; simpl; unfold arraysize; simpl; rewrite ?length_zipWords by done; try lia.
  - apply zipWords_ok; try done; [apply Hc|apply wordOk_lor].
  - intros Hin. destruct (H3 Hin) as [Ha Hcc]. split; [|done]. destruct Hc as [_ Hc1 _ _]. unfold arraysize in *. lia.
Qed.

(** ** Comparison *)

Lemma words_ext w1 w2 : length w1 = length w2 → Forall wordOk w1 → Forall wordOk w2 →
  (∀ i, bitw w1 i = bitw w2 i) → w1 = w2.
Proof.
  revert w2. induction w1 as [|a w1 IH]; intros [|b w2] Hl H1 H2 H; simpl in Hl; [done|done|done|].
  apply Forall_cons in H1 as [Ha H1], H2 as [Hb H2]. f_equal.
  - apply word_ext; [done..|]. intros n Hn. specialize (H n). rewrite !bitw_cons in H by lia.
    by rewrite (proj2 (Z.ltb_lt n 64)) in H by lia.
  - apply IH; [lia|done|done|]. intros i. destruct (Z.le_gt_cases 0 i) as [Hi|Hi].
    + specialize (H (i + 64)). rewrite !bitw_cons in H by lia.
      rewrite (proj2 (Z.ltb_ge (i + 64) 64)) in H by lia. by replace (i + 64 - 64) with i in H by lia.
    + unfold bitw. by rewrite (proj2 (Z.leb_gt 0 i)).
Qed.

Lemma elements_bits b c : elements b = elements c ↔ ∀ i, bitw (array b) i = bitw (array c) i.
Proof.
  split.
  - intros E i. apply eq_true_iff_eq. by rewrite <- !elem_of_elements, E.
  - intros H. apply elements_eq; [apply elements_sorted|]. intros i. by rewrite H, elem_of_elements.
Qed.

Lemma bitset_equal_ok b c : wf b → wf c → arraysize b = arraysize c →
  bitset_equal b c = true ↔ elements b = elements c.
Proof.
  intros Hb Hc Hs. rewrite elements_bits. unfold bitset_equal, arraysize in *.
  assert (length (array b) = length (array c)) as Hl by lia.
  assert (forallb (λ '(x, y), x =? y) (zip (array b) (array c)) = true ↔ array b = array c) as ->.
  { clear Hs Hb Hc. revert Hl. generalize (array c). induction (array b) as [|x l IH]; intros [|y l'] Hl; simpl in *; try done.
    rewrite andb_true_iff, IH, Z.eqb_eq by lia. split; [by intros [-> ->]|by intros [= -> ->]]. }
  split; [by intros ->|]. intros H. apply words_ext; [done|apply Hb|apply Hc|done].
Qed.

Lemma land_sub x y : wordOk x → Z.land x y = x ↔ ∀ n, 0 ≤ n < 64 → Z.testbit x n = true → Z.testbit y n = true.
Proof.
  intros Hx. split.
  - intros E n _ Hn. rewrite <- E, Z.land_spec in Hn. apply andb_true_iff in Hn. tauto.
  - intros H. apply word_ext; [by apply wordOk_land|done|]. intros n Hn. rewrite Z.land_spec.
    destruct (Z.testbit x n) eqn:E; [by rewrite (H n)|done].
Qed.

Lemma subset_words w1 w2 : length w1 = length w2 → Forall wordOk w1 →
  forallb (λ '(x, y), Z.land x y =? x) (zip w1 w2) = true ↔ ∀ i, bitw w1 i = true → bitw w2 i = true.
Proof.
  revert w2. induction w1 as [|a w1 IH]; intros [|b w2] Hl H1; simpl in Hl; try done.
  apply Forall_cons in H1 as [Ha H1]. cbn [zip zip_with forallb]. rewrite andb_true_iff, IH by (done || lia).
  rewrite Z.eqb_eq, land_sub by done. split.
  - intros [H2 H3] i. destruct (Z.le_gt_cases 0 i) as [Hi|Hi]; [|unfold bitw; by rewrite (proj2 (Z.leb_gt 0 i))].
    rewrite !bitw_cons by done. destruct (Z.ltb_spec i 64); [apply H2; lia|apply H3].
  - intros H. split.
    + intros n Hn. specialize (H n). rewrite !bitw_cons in H by lia. by rewrite (proj2 (Z.ltb_lt n 64)) in H by lia.
    + intros i. destruct (Z.le_gt_cases 0 i) as [Hi|Hi]; [|unfold bitw; by rewrite (proj2 (Z.leb_gt 0 i))].
      specialize (H (i + 64)). rewrite !bitw_cons in H by lia. rewrite (proj2 (Z.ltb_ge (i + 64) 64)) in H by lia.
      by replace (i + 64 - 64) with i in H by lia.
Qed.

Lemma bitset_subseteq_ok b c : wf b → wf c → arraysize b = arraysize c →
  bitset_subseteq b c = bs_subsetEq (elements b) (elements c).
Proof.
  intros Hb Hc Hs. apply eq_true_iff_eq. unfold bitset_subseteq, bs_subsetEq, arraysize in *.
  rewrite subset_words by (try lia; apply Hb). rewrite forallb_forall.
  setoid_rewrite <- list_elem_of_In. setoid_rewrite bool_decide_eq_true. setoid_rewrite elem_of_elements. done.
Qed.

(** ** Elements of the results *)

(** The elements of a combination, from its bits *)
Lemma combined b c d g l : (∀ i, 0 ≤ i → bitw (array d) i = g (bitw (array b) i) (bitw (array c) i)) →
  g false false = false → bsorted l → (∀ i, g (bitw (array b) i) (bitw (array c) i) = true ↔ i ∈ l) →
  elements d = l.
Proof.
  intros H Hg Hl Hin. apply elements_eq; [done|]. intros i. rewrite (elements_zip b c _ g H Hg). apply Hin.
Qed.

Lemma elements_unset b i : wf b → 0 ≤ i → elements (bitset_unset b i) = bs_unset i (elements b).
Proof.
  intros Hb Hi. destruct (bitset_unset_ok b i Hb Hi) as (_ & _ & _ & H).
  apply elements_eq; [apply bsorted_filter, elements_sorted|]. intros j. unfold bs_unset.
  rewrite list_elem_of_filter, elem_of_elements. destruct (Z.le_gt_cases 0 j) as [Hj|Hj].
  - rewrite H, andb_true_iff, negb_true_iff, Z.eqb_neq by done. tauto.
  - unfold bitw. rewrite (proj2 (Z.leb_gt 0 j)) by done. simpl. by split; [|intros [_ ?]].
Qed.

Lemma elements_union b c u : (∀ i, 0 ≤ i → bitw (array u) i = bitw (array b) i || bitw (array c) i) →
  elements u = bs_union (elements b) (elements c).
Proof.
  intros H. apply (combined b c u orb); [done|done|apply bs_union_sorted, elements_sorted|].
  intros i. by rewrite orb_true_iff, elem_of_bs_union, !elem_of_elements.
Qed.

Lemma elements_inter b c d : (∀ i, 0 ≤ i → bitw (array d) i = bitw (array b) i && bitw (array c) i) →
  elements d = bs_inter (elements b) (elements c).
Proof.
  intros H. apply (combined b c d andb); [done|done|apply bsorted_filter, elements_sorted|].
  intros i. unfold bs_inter. rewrite andb_true_iff, list_elem_of_filter, !elem_of_elements. tauto.
Qed.

Lemma elements_diff b c d : (∀ i, 0 ≤ i → bitw (array d) i = bitw (array b) i && negb (bitw (array c) i)) →
  elements d = bs_diff (elements b) (elements c).
Proof.
  intros H. apply (combined b c d (λ x y, x && negb y)); [done|done|apply bsorted_filter, elements_sorted|].
  intros i. unfold bs_diff. rewrite andb_true_iff, negb_true_iff, list_elem_of_filter, !elem_of_elements.
  destruct (bitw (array c) i); naive_solver.
Qed.

Lemma sumWords_elements b : sumWords (array b) = bs_count (elements b).
Proof. apply sumWords_length; [apply elements_sorted|]. intros i. by rewrite elem_of_elements. Qed.

Lemma intersectionCount_ok b c : intersectionCount b c = bs_interCount (elements b) (elements c).
Proof.
  unfold intersectionCount, bs_interCount.
  set (d := {| isStoredInline := false; capacity := 0;
    array := zipWords Z.land (λ _, []) (λ _, []) (array b) (array c) |}).
  rewrite <- (elements_inter b c d) by (intros; by apply bitw_interCount). apply (sumWords_elements d).
Qed.

Lemma empty_ok b : wf b → empty b = bs_empty (elements b).
Proof.
  intros Hb. unfold empty. pose proof (nextSetBit_ok b 0 Hb ltac:(done)) as H.
  destruct (nextSetBit b 0) as [j|]; simpl in H.
  - destruct H as (_ & Hj & _). rewrite <- elem_of_elements in Hj. destruct (elements b); [|done]. by apply elem_of_nil in Hj.
  - destruct (elements b) as [|x l] eqn:E; [done|]. exfalso. assert (x ∈ elements b) as Hx by (rewrite E; by left).
    pose proof (elem_of_elements_nonneg _ _ Hx). apply elem_of_elements in Hx. by rewrite H in Hx.
Qed.

Lemma iterate_all b : wf b → iterate (S (length (elements b))) b 0 = elements b.
Proof.
  intros Hb. assert (elementsFrom 0 b = elements b) as E.
  { unfold elementsFrom. apply bsorted_eq; [apply bsorted_filter, elements_sorted|apply elements_sorted| |]; intros i.
    - intros [_ ?]%list_elem_of_filter. done.
    - intros Hi. apply list_elem_of_filter. split; [by apply (elem_of_elements_nonneg b)|done]. }
  rewrite iterate_ok; rewrite ?E; [done|done|done|lia].
Qed.

Lemma maximumFrom_ok ws k : Forall wordOk ws →
  (maximumFrom ws k = 0 ∧ ∀ i, i < 64 * Z.of_nat k → bitw ws i = false) ∨
  (bitw ws (maximumFrom ws k) = true ∧ ∀ i, maximumFrom ws k < i < 64 * Z.of_nat k → bitw ws i = false).
Proof.
  intros Hws. induction k as [|k IH]; cbn [maximumFrom].
  { left. split; [done|]. intros i Hi. unfold bitw. by rewrite (proj2 (Z.leb_gt 0 i)) by lia. }
  pose proof (nth_word ws k Hws) as Hw. set (w := nth k ws 0) in *.
  assert (∀ i, 64 * Z.of_nat k ≤ i < 64 * Z.of_nat (S k) → bitw ws i = Z.testbit w (i - 64 * Z.of_nat k)) as Hk.
  { intros i Hi. replace i with (64 * Z.of_nat k + (i - 64 * Z.of_nat k)) at 1 by lia.
    rewrite bitw_at by lia. by rewrite Nat2Z.id. }
  destruct (Z.eqb_spec w 0) as [E|E]; simpl.
  - assert (∀ i, 64 * Z.of_nat k ≤ i < 64 * Z.of_nat (S k) → bitw ws i = false) as Hz.
    { intros i Hi. rewrite Hk by done. rewrite E. apply Z.testbit_0_l. }
    destruct IH as [[-> H]|[H1 H2]]; [left; split; [done|]|right; split; [done|]];
      intros i Hi; (destruct (decide (64 * Z.of_nat k ≤ i)); [apply Hz; lia|]); [apply H|apply H2]; lia.
  - right. destruct Hw as [Hw0 Hw1]. assert (0 ≤ Z.log2 w < 64) as Hl.
    { split; [apply Z.log2_nonneg|]. apply Z.log2_lt_pow2; lia. }
    unfold clzll. split.
    + rewrite Hk by lia. replace (63 - (63 - Z.log2 w) + Z.of_nat k * 64 - 64 * Z.of_nat k) with (Z.log2 w) by lia.
      apply Z.bit_log2. lia.
    + intros i Hi. rewrite Hk by lia. apply Z.bits_above_log2; lia.
Qed.

Lemma last_sorted l m : bsorted l → m ∈ l → (∀ i, i ∈ l → i ≤ m) → last l = Some m.
Proof.
  intros Hs Hm Hmax. apply list_elem_of_split in Hm as (l1 & l2 & ->). destruct l2 as [|x l2]; [apply last_snoc|].
  apply sorted_tail, StronglySorted_inv in Hs as [_ Hs]. apply Forall_cons in Hs as [Hs _].
  specialize (Hmax x ltac:(set_solver)). unfold Zcmp in Hs. by rewrite (proj2 (Z.ltb_ge m x)) in Hs by lia;
    destruct (x <? m).
Qed.

Lemma bitset_maximum_ok b : wf b → bitset_maximum b = default 0 (last (elements b)).
Proof.
  intros Hb. assert (∀ i, bitw (array b) i = true → i < 64 * Z.of_nat (length (array b))) as Hlt.
  { intros i Hi. destruct (Z.lt_ge_cases i (64 * Z.of_nat (length (array b)))); [done|]. by rewrite bitw_past in Hi. }
  unfold bitset_maximum. destruct (maximumFrom_ok (array b) (length (array b)) (wf_words b Hb)) as [[-> H]|[H1 H2]].
  - assert (elements b = []) as ->; [|done]. apply elem_of_nil_inv. intros i Hi%elem_of_elements.
    rewrite H in Hi; [done|]. by apply Hlt.
  - rewrite (last_sorted (elements b) (maximumFrom (array b) (length (array b)))); [done|apply elements_sorted| |].
    + by apply elem_of_elements.
    + intros i Hi%elem_of_elements. destruct (Z.le_gt_cases i (maximumFrom (array b) (length (array b)))); [done|].
      rewrite H2 in Hi; [done|]. split; [lia|by apply Hlt].
Qed.

(** ** The contract of the class *)

Lemma set_elements b i : wf b → 0 ≤ i < 2 ^ 60 →
  match set i b with
  | Ok d => wf d ∧ elements d = bs_set i (elements b) ∧
            isStoredInline d = isStoredInline b && (i <? 64)
  | Fail _ => isStoredInline b = true ∧ i = 64
  end.
Proof.
  intros Hb Hi. destruct (isStoredInline b && (i =? 64)) eqn:E.
  - apply andb_true_iff in E as [Hin ->%Z.eqb_eq]. by rewrite set_inline_64.
  - destruct (set_ok b i Hb Hi E) as (d & -> & Hd & Hin & Hbits). split_and!; [done| |done].
    apply elements_eq; [apply bs_set_sorted, elements_sorted|]. intros j. rewrite elem_of_bs_set, elem_of_elements.
    destruct (Z.le_gt_cases 0 j) as [Hj|Hj]; [rewrite Hbits, orb_true_iff, Z.eqb_eq by done; tauto|].
    unfold bitw. rewrite (proj2 (Z.leb_gt 0 j)) by done. simpl. split; [done|]. intros [->|]; [lia|done].
Qed.

(** A set to which bits are only added is inline as long as they are below 64: [bs_add]
    of the intersection checker fails when [set] does, and has its result otherwise. *)
Lemma set_bs_add b i :
  wf b → isStoredInline b = forallb (λ j, j <? 64) (elements b) → 0 ≤ i < 2 ^ 60 →
  match set i b, bs_add i (elements b) with
  | Ok d, Ok l => wf d ∧ elements d = l ∧ isStoredInline d = forallb (λ j, j <? 64) l
  | Fail _, Fail _ => True
  | _, _ => False
  end.
Proof.
  intros Hb Hin Hi. pose proof (set_elements b i Hb Hi) as H. unfold bs_add. rewrite <- Hin.
  destruct (Z.eqb_spec i 64) as [->|Hne]; simpl.
  - destruct (isStoredInline b) eqn:E; [by rewrite set_inline_64|].
    destruct (set 64 b) as [d|]; [|by destruct H]. destruct H as (Hd & -> & ->). split_and!; [done..|].
    symmetry. apply not_true_is_false. intros Hf. rewrite forallb_forall in Hf.
    specialize (Hf 64 ltac:(apply list_elem_of_In, elem_of_bs_set; by left)). done.
  - destruct (set i b) as [d|]; [|by destruct H]. destruct H as (Hd & -> & ->). split_and!; [done..|].
    rewrite Hin. apply eq_true_iff_eq. rewrite andb_true_iff, !forallb_forall.
    setoid_rewrite <- list_elem_of_In. setoid_rewrite elem_of_bs_set. naive_solver.
Qed.

(** Setting a bit of a well-formed set gives the set with the bit, in line while the
    bits stay below 64 and on the heap from bit 65 on.  It fails in one case only: bit
    64 of an inline set, for which the room is not reserved, so that the inline word
    itself would be reallocated. *)
Theorem BitSet_set_spec b i :
  wf b → 0 ≤ i < 2 ^ 60 →
  match set i b with
  | Ok d => wf d ∧ elements d = bs_set i (elements b) ∧
            isStoredInline d = isStoredInline b && (i <? 64)
  | Fail _ => isStoredInline b = true ∧ i = 64
  end.
Proof. apply set_elements. Qed.

Lemma BitSet_set_spec_witness :
  set 64 setToEmptyAndInline = Fail ReallocOfInlineWord ∧
  ∃ d, set 65 setToEmptyAndInline = Ok d ∧ elements d = [65].
Proof.
  assert (wf setToEmptyAndInline) as H0.
  { split; simpl; unfold arraysize; simpl; try lia. constructor; [unfold wordOk; lia|constructor]. }
  pose proof (BitSet_set_spec setToEmptyAndInline 65 H0 ltac:(lia)) as H.
  split; [reflexivity|]. destruct (set 65 setToEmptyAndInline) as [d|] eqn:E; [|by destruct H].
  exists d. split; [done|]. apply H.
Defined.

(** C37: on well-formed sets the operations on words are the operations on sets: clearing
    and reading a bit, union, intersection and difference, the population counts, the
    largest element, and the iteration by [nextSet], which visits the elements in ascending order and ends. *)
Theorem BitSet_implements_sets b c i :
  wf b → wf c → 0 ≤ i →
  elements (bitset_unset b i) = bs_unset i (elements b) ∧
  bitset_get b i = bs_get (elements b) i ∧
  (∃ u, inplaceUnion c b = Ok u ∧ wf u ∧ elements u = bs_union (elements b) (elements c)) ∧
  elements (inplaceIntersection c b) = bs_inter (elements b) (elements c) ∧
  elements (inplaceDifference c b) = bs_diff (elements b) (elements c) ∧
  bitset_count b = bs_count (elements b) ∧
  intersectionCount b c = bs_interCount (elements b) (elements c) ∧
  empty b = bs_empty (elements b) ∧
  bitset_maximum b = default 0 (last (elements b)) ∧
  iterate (S (length (elements b))) b 0 = elements b.
Proof.
  intros Hb Hc Hi. destruct (inplaceUnion_ok b c Hb Hc) as (u & E & Hu & Hbits). split_and!.
  - by apply elements_unset.
  - rewrite bitset_get_eq by done. unfold bs_get. apply eq_true_iff_eq. by rewrite bool_decide_eq_true, elem_of_elements.
  - exists u. split_and!; [done..|]. by apply elements_union.
  - apply elements_inter. intros. by apply bitw_inter.
  - apply elements_diff. intros. by apply bitw_diff.
  - apply sumWords_elements.
  - apply intersectionCount_ok.
  - by apply empty_ok.
  - by apply bitset_maximum_ok.
  - by apply iterate_all.
Qed.

(** Two inline sets *)
Definition inlineSet (w : Z) : bitset_t := {| isStoredInline := true; array := [w]; capacity := 1 |}.

Lemma inlineSet_wf w : wordOk w → wf (inlineSet w).
Proof. intros Hw. split; simpl; unfold arraysize; simpl; try lia. by constructor. Qed.

Lemma BitSet_implements_sets_witness :
  elements (inplaceDifference (inlineSet 6) (inlineSet 11)) = [0; 3] ∧
  iterate 4 (inlineSet 11) 0 = [0; 1; 3].
Proof.
  destruct (BitSet_implements_sets (inlineSet 11) (inlineSet 6) 1) as (_ & _ & _ & _ & H & _ & _ & _ & _ & Hi);
    [apply inlineSet_wf; unfold wordOk; lia|apply inlineSet_wf; unfold wordOk; lia|lia|].
  assert (elements (inlineSet 11) = [0; 1; 3]) as E1 by (vm_compute; reflexivity).
  assert (elements (inlineSet 6) = [1; 2]) as E2 by (vm_compute; reflexivity).
  rewrite E1 in Hi. split; [|exact Hi]. rewrite H, E1, E2. vm_compute. reflexivity.
Defined.

(** Equality and inclusion look at the words both sets have, and are right when the
    sets have the same number of words. *)
Theorem BitSet_comparison b c :
  wf b → wf c → arraysize b = arraysize c →
  (bitset_equal b c = true ↔ elements b = elements c) ∧
  bitset_subseteq b c = bs_subsetEq (elements b) (elements c).
Proof. intros Hb Hc Hs. split; [by apply bitset_equal_ok|by apply bitset_subseteq_ok]. Qed.

Lemma BitSet_comparison_witness : bitset_equal (inlineSet 6) (inlineSet 11) = false ∧ bitset_subseteq (inlineSet 2) (inlineSet 6) = true.
Proof.
  destruct (BitSet_comparison (inlineSet 2) (inlineSet 6)) as [_ H];
    [apply inlineSet_wf; unfold wordOk; lia|apply inlineSet_wf; unfold wordOk; lia|reflexivity|].
  split; [reflexivity|]. rewrite H. vm_compute. reflexivity.
Defined.

(** Sets with different numbers of words compare equal, and included in each other,
    although one of them has an element the other has not. *)
Theorem BitSet_comparison_ignores_tail :
  ∃ d, set 70 setToEmptyAndInline = Ok d ∧ elements d = [70] ∧ elements setToEmptyAndInline = [] ∧
    bitset_equal d setToEmptyAndInline = true ∧ bitset_subseteq d setToEmptyAndInline = true.
Proof. eexists. split_and!; vm_compute; reflexivity. Qed.
