(* ===== verification/QuorumTracker.v ===== *)
(** * Tracking the transitive quorum (src/herder/QuorumTracker.cpp)

    The tracker keeps the nodes that the local node depends on, directly or through the
    quorum sets of others, with their distance and with the validators of the local
    quorum set through which the shortest paths go.  [expand] extends it by one quorum
    set; [rebuild] explores the dependencies breadth first.  The theorems show that a
    rebuild never fails and computes exactly the reachable nodes, their distances and
    their closest validators. *)

From stdpp Require Import prelude list gmap.
From Stdlib Require Import ZArith Lia Sorted.
From S2P Require Import Prelude QuorumSet.
Local Open Scope Z_scope.

(** [std::shared_ptr<SCPQuorumSet>]: pointers are compared by address. *)
Record SCPQuorumSetPtr : Type := {
  address : Z;
  pointee : SCPQuorumSet
}.

Record NodeInfo : Type := {
  mQuorumSet : option SCPQuorumSetPtr;
  mDistance : Z;
  mClosestValidators : gset NodeID
}.

Notation QuorumMap := (gmap NodeID NodeInfo).

(** [releaseAssertOrThrow] and the exceptions of [rebuild] *)
Inductive TrackerError : Type :=
| AssertionFailed
| ExpandFailed
| NodeNotInMap
| TrackerOutOfFuel.

Definition isNodeDefinitelyInQuorum (id : NodeID) (mQuorum : QuorumMap) : bool :=
  bool_decide (is_Some (mQuorum !! id)).

(** The validators a dependency of [id] is reached through *)
Definition through (id qNode : NodeID) (newDist : Z) (mQuorum : QuorumMap) : gset NodeID :=
  if newDist =? 1 then {[qNode]}
  else match mQuorum !! id with Some nodeInfo => mClosestValidators nodeInfo | None => ∅ end.

(** The lambda of [expand] on one node of the quorum set *)
Definition expandNode (id qNode : NodeID) (newDist : Z) (mQuorum : QuorumMap)
  : outcome TrackerError (bool * QuorumMap) :=
  let add info :=
    Ok (true, <[qNode := {| mQuorumSet := mQuorumSet info; mDistance := mDistance info;
                            mClosestValidators := mClosestValidators info ∪ through id qNode newDist mQuorum |}]> mQuorum) in
  match mQuorum !! qNode with
  | None => add {| mQuorumSet := None; mDistance := newDist; mClosestValidators := ∅ |}
  | Some qNodeInfo =>
      if mDistance qNodeInfo <? newDist then
        (* there is already a shorter path *)
        Ok (true, mQuorum)
      else
        match mQuorumSet qNodeInfo with
        | Some _ => Ok (false, mQuorum) (* already expanded *)
        | None =>
            if newDist <? mDistance qNodeInfo
            then add {| mQuorumSet := None; mDistance := newDist; mClosestValidators := ∅ |}
            else if newDist =? mDistance qNodeInfo then add qNodeInfo
            else Fail AssertionFailed
        end
  end.

(** [LocalNode::forAllNodes] stops at the first [false]. *)
Fixpoint expandNodes (id : NodeID) (nodes : list NodeID) (newDist : Z) (mQuorum : QuorumMap)
  : outcome TrackerError (bool * QuorumMap) :=
  match nodes with
  | [] => Ok (true, mQuorum)
  | qNode :: nodes =>
      let? r := expandNode id qNode newDist mQuorum in
      if r.1 then expandNodes id nodes newDist r.2 else Ok r
  end.

Definition expand (id : NodeID) (qSet : option SCPQuorumSetPtr) (mQuorum : QuorumMap)
  : outcome TrackerError (bool * QuorumMap) :=
  match qSet with
  | None => Fail AssertionFailed
  | Some qSet =>
      match mQuorum !! id with
      | None => Ok (false, mQuorum)
      | Some nodeInfo =>
          match mQuorumSet nodeInfo with
          | Some old => Ok (address old =? address qSet, mQuorum)
          | None =>
              let newDist := mDistance nodeInfo + 1 in
              expandNodes id (qset_nodes (pointee qSet)) newDist
                (<[id := {| mQuorumSet := Some qSet; mDistance := mDistance nodeInfo;
                            mClosestValidators := mClosestValidators nodeInfo |}]> mQuorum)
          end
      end
  end.

(** The loop of [rebuild]; a step takes the front of the backlog. *)
Fixpoint rebuildLoop (lookup : NodeID → option SCPQuorumSetPtr) (fuel : nat) (backlog : list NodeID)
  (mQuorum : QuorumMap) : outcome TrackerError QuorumMap :=
  match fuel with
  | O => Fail TrackerOutOfFuel
  | S fuel =>
      match backlog with
      | [] => Ok mQuorum
      | node :: rest =>
          match mQuorum !! node with
          | None => Fail NodeNotInMap
          | Some info =>
              match mQuorumSet info, lookup node with
              | None, Some qSet =>
                  let? r := expand node (Some qSet) mQuorum in
                  if r.1 then rebuildLoop lookup fuel (rest ++ qset_nodes (pointee qSet)) r.2
                  else Fail ExpandFailed
              | _, _ => rebuildLoop lookup fuel rest mQuorum
              end
          end
      end
  end.

Definition rebuild (mLocalNodeID : NodeID) (lookup : NodeID → option SCPQuorumSetPtr) (fuel : nat)
  : outcome TrackerError QuorumMap :=
  rebuildLoop lookup fuel [mLocalNodeID]
    {[mLocalNodeID := {| mQuorumSet := None; mDistance := 0; mClosestValidators := ∅ |}]}.

Definition findClosestValidators (nodeOutsideQset : NodeID) (mQuorum : QuorumMap)
  : outcome TrackerError (gset NodeID) :=
  match mQuorum !! nodeOutsideQset with
  | Some info => Ok (mClosestValidators info)
  | None => Fail AssertionFailed
  end.

(** ** One expansion *)

Definition expanded (i : NodeInfo) : Prop := is_Some (mQuorumSet i).

(** What [expandNodes] makes of the entry of a node *)
Definition touched (nodes : list NodeID) (newDist : Z) (T : gset NodeID) (n : NodeID) (o : option NodeInfo)
  : option NodeInfo :=
  if decide (n ∈ nodes) then
    match o with
    | None => Some {| mQuorumSet := None; mDistance := newDist; mClosestValidators := T |}
    | Some i =>
        if mDistance i <? newDist then Some i
        else if newDist <? mDistance i
        then Some {| mQuorumSet := mQuorumSet i; mDistance := newDist; mClosestValidators := T |}
        else Some {| mQuorumSet := mQuorumSet i; mDistance := mDistance i;
                     mClosestValidators := mClosestValidators i ∪ T |}
    end
  else o.

(** The validators behind a successor of a node at distance [d] *)
Definition behind (d : Z) (C : gset NodeID) (n : NodeID) : gset NodeID := if d =? 0 then {[n]} else C.

Section ExpandNodes.
Context (id : NodeID) (d : Z) (C : gset NodeID).

(** [id] is at distance [d]. *)
Definition source (Q : QuorumMap) : Prop :=
  ∃ i, Q !! id = Some i ∧ mDistance i = d ∧ mClosestValidators i = C.

(** No node of the list is expanded further away. *)
Definition nearer (nodes : list NodeID) (Q : QuorumMap) : Prop :=
  ∀ n i, n ∈ nodes → Q !! n = Some i → expanded i → mDistance i < d + 1.

Lemma through_behind Q n : source Q → through id n (d + 1) Q = behind d C n.
Proof.
  intros (i & Hi & Hd & HC). unfold through, behind. rewrite Hi, HC.
  destruct (Z.eqb_spec (d + 1) 1), (Z.eqb_spec d 0); try lia; done.
Qed.

Lemma touched_source Q Q' nodes : source Q →
  (∀ m, Q' !! m = touched nodes (d + 1) (behind d C m) m (Q !! m)) → source Q'.
Proof.
  intros (i & Hi & Hd & HC) H. exists i. split; [|done]. rewrite H, Hi. unfold touched.
  rewrite (proj2 (Z.ltb_lt (mDistance i) (d + 1))) by lia. by case_decide.
Qed.

Lemma touched_expanded nodes T n o i : touched nodes (d + 1) T n o = Some i → expanded i →
  ∃ j, o = Some j ∧ expanded j ∧ (mDistance j < d + 1 → mDistance i < d + 1).
Proof.
  unfold touched, expanded. intros H [q Hq]. destruct (decide (n ∈ nodes)).
  - destruct o as [j|]; [|simplify_eq; done]. exists j.
    destruct (Z.ltb_spec (mDistance j) (d + 1)); [simplify_eq; split_and!; [done|by exists q|done]|].
    destruct (Z.ltb_spec (d + 1) (mDistance j)); simplify_eq/=; split_and!; [done|by exists q|lia|done|by exists q|lia].
  - exists i. split_and!; [done|by exists q|done].
Qed.

Lemma expandNode_ok Q n : source Q → nearer [n] Q →
  ∃ Q', expandNode id n (d + 1) Q = Ok (true, Q') ∧
    ∀ m, Q' !! m = touched [n] (d + 1) (behind d C m) m (Q !! m).
Proof.
  intros HQ Hnear. unfold expandNode. rewrite (through_behind Q n HQ).
  assert (∀ x, Some x = touched [n] (d + 1) (behind d C n) n (Q !! n) →
    ∀ m, <[n := x]> Q !! m = touched [n] (d + 1) (behind d C m) m (Q !! m)) as Hpt.
  { intros x Hx m. destruct (decide (m = n)) as [->|Hne]; [by rewrite lookup_insert_eq|].
    rewrite lookup_insert_ne by done. unfold touched. by rewrite decide_False by set_solver. }
  unfold touched in Hpt at 1. rewrite decide_True in Hpt by (by left).
  destruct (Q !! n) as [i|] eqn:En.
  2: { eexists. split; [done|]. apply Hpt. simpl. by rewrite (left_id_L ∅ (∪)). }
  destruct (Z.ltb_spec (mDistance i) (d + 1)) as [Hlt|Hge].
  { exists Q. split; [done|]. intros m. unfold touched. case_decide as Hm; [|done].
    apply list_elem_of_singleton in Hm as ->. rewrite En. by rewrite (proj2 (Z.ltb_lt _ _)). }
  destruct (mQuorumSet i) as [q|] eqn:Eq.
  { specialize (Hnear n i ltac:(by left) En ltac:(unfold expanded; rewrite Eq; by eexists)). lia. }
  destruct (Z.ltb_spec (d + 1) (mDistance i)) as [Hlt|Hle].
  - eexists. split; [done|]. apply Hpt. simpl. by rewrite (left_id_L ∅ (∪)).
  - rewrite (proj2 (Z.eqb_eq _ _)) by lia. eexists. split; [done|]. by apply Hpt.
Qed.

Lemma touched_touched n nodes T m o :
  touched nodes (d + 1) T m (touched [n] (d + 1) T m o) = touched (n :: nodes) (d + 1) T m o.
Proof.
  unfold touched. destruct (decide (m ∈ [n])) as [Hn|Hn], (decide (m ∈ nodes)) as [Hm|Hm],
    (decide (m ∈ n :: nodes)) as [Hc|Hc]; try done; try set_solver.
  destruct o as [i|]; [|simpl; by rewrite Z.ltb_irrefl, (idemp_L (∪))].
  destruct (mDistance i <? d + 1) eqn:E1; [by rewrite E1|].
  destruct (d + 1 <? mDistance i) eqn:E2; simpl.
  - by rewrite Z.ltb_irrefl, (idemp_L (∪)).
  - rewrite E1, E2. by rewrite <- (assoc_L (∪)), (idemp_L (∪)).
Qed.

Lemma expandNodes_ok nodes : ∀ Q, source Q → nearer nodes Q →
  ∃ Q', expandNodes id nodes (d + 1) Q = Ok (true, Q') ∧
    ∀ m, Q' !! m = touched nodes (d + 1) (behind d C m) m (Q !! m).
Proof.
  induction nodes as [|n nodes IH]; intros Q HQ Hnear; simpl.
  { exists Q. split; [done|]. intros m. unfold touched. by rewrite decide_False by set_solver. }
  destruct (expandNode_ok Q n HQ) as (Q1 & -> & H1).
  { intros m i ->%list_elem_of_singleton. apply Hnear. by left. }
  simpl. destruct (IH Q1) as (Q2 & -> & H2); [by apply (touched_source Q Q1 [n])| |].
  - intros m i Hm Hi He. rewrite H1 in Hi. destruct (touched_expanded _ _ _ _ _ Hi He) as (j & Hj & Hje & Hlt).
    apply Hlt, (Hnear m j); [by right|done..].
  - exists Q2. split; [done|]. intros m. rewrite H2, H1. apply touched_touched.
Qed.

(** Success means that no node of the list was expanded further away. *)
Lemma expandNodes_true nodes : ∀ Q Q', source Q → expandNodes id nodes (d + 1) Q = Ok (true, Q') → nearer nodes Q.
Proof.
  induction nodes as [|n nodes IH]; intros Q Q' HQ E; [by intros m i Hm%elem_of_nil|]. simpl in E.
  assert (nearer [n] Q) as Hn.
  { intros m i ->%list_elem_of_singleton Hi [q Hq]. unfold expandNode in E. rewrite Hi in E.
    destruct (Z.ltb_spec (mDistance i) (d + 1)); [done|]. by rewrite Hq in E. }
  destruct (expandNode_ok Q n HQ Hn) as (Q1 & E1 & H1). rewrite E1 in E. simpl in E.
  specialize (IH Q1 Q' (touched_source Q Q1 [n] HQ H1) E). intros m i [->|Hm]%elem_of_cons Hi He;
    [by apply (Hn n i); [left|..]|].
  destruct (decide (m = n)) as [->|Hne]; [by apply (Hn n i); [left|..]|].
  apply (IH m i Hm); [|done]. rewrite H1. unfold touched. by rewrite decide_False by set_solver.
Qed.
End ExpandNodes.

(** ** Breadth-first search *)

Section Rebuild.
Context (local : NodeID) (lookup : NodeID → option SCPQuorumSetPtr).

(** [n] depends on [m]. *)
Definition edge (n m : NodeID) : Prop := ∃ p, lookup n = Some p ∧ m ∈ qset_nodes (pointee p).

Lemma edge_known n m : edge n m → is_Some (lookup n).
Proof. intros (p & -> & _). by eexists. Qed.

(** The backlog, with the distance at which each entry was added: the entries are at
    two adjacent levels, the nearer ones first. *)
Record Searching (Q : QuorumMap) (bl : list (NodeID * Z)) (k : Z) : Prop := {
  se_local : ∃ i, Q !! local = Some i ∧ mDistance i = 0;
  se_walk n i : Q !! n = Some i → 0 ≤ mDistance i ∧ nsteps edge (Z.to_nat (mDistance i)) local n;
  se_qset n i p : Q !! n = Some i → mQuorumSet i = Some p → lookup n = Some p ∧ mDistance i ≤ k ∧
    ∀ m, edge n m → ∃ j, Q !! m = Some j ∧ mDistance j ≤ mDistance i + 1;
  se_level n i : Q !! n = Some i → mDistance i ≤ k + 1;
  se_backlog n a : (n, a) ∈ bl → k ≤ a ≤ k + 1 ∧ ∃ i, Q !! n = Some i ∧ mDistance i ≤ a;
  se_sorted : StronglySorted (λ x y, x.2 ≤ y.2) bl;
  se_pending n i : Q !! n = Some i → mQuorumSet i = None → is_Some (lookup n) → (n, mDistance i) ∈ bl;
  se_closest n i v : Q !! n = Some i → v ∈ mClosestValidators i ↔
    ∃ p j, Q !! p = Some j ∧ expanded j ∧ edge p n ∧ mDistance j + 1 = mDistance i ∧
      (if mDistance i =? 1 then v = n else v ∈ mClosestValidators j)
}.

(** The level can be taken to be the one of the front. *)
Lemma Searching_level Q n a bl k : Searching Q ((n, a) :: bl) k → Searching Q ((n, a) :: bl) a.
Proof.
  intros [H1 H2 H3 H4 H5 H6 H7 H8]. destruct (H5 n a) as [Hk _]; [by left|].
  apply StronglySorted_inv in H6 as Hs. destruct Hs as [_ Hs]. rewrite Forall_forall in Hs.
  split; try done.
  - intros m i p Hm Hp. destruct (H3 m i p Hm Hp) as (? & ? & ?). split_and!; [done|lia|done].
  - intros m i Hm. specialize (H4 m i Hm). lia.
  - intros m b Hb. destruct (H5 m b Hb) as [Hb' Hi]. split; [|done].
    apply elem_of_cons in Hb as [[= -> ->]|Hb]; [lia|]. specialize (Hs _ Hb). simpl in Hs. lia.
Qed.

(** Dropping an entry that is not to be expanded *)
Lemma Searching_pop Q n i a bl k : Searching Q ((n, a) :: bl) k → Q !! n = Some i →
  expanded i ∨ lookup n = None → Searching Q bl k.
Proof.
  intros [H1 H2 H3 H4 H5 H6 H7 H8] Hn Hno. split; try done.
  - intros m b Hb. apply H5. by right.
  - by apply StronglySorted_inv in H6 as [? _].
  - intros m j Hm Hq Hl. specialize (H7 m j Hm Hq Hl). apply elem_of_cons in H7 as [[= -> ->]|H7]; [|done].
    simplify_eq. unfold expanded in Hno. rewrite Hq in Hno. destruct Hno as [[? ?]|Hno]; [done|].
    rewrite Hno in Hl. by destruct Hl.
Qed.

(** Expanding the front of the backlog *)
Section Step.
Context (Q : QuorumMap) (n : NodeID) (a : Z) (bl : list (NodeID * Z)) (i : NodeInfo) (p : SCPQuorumSetPtr).
Hypothesis HS : Searching Q ((n, a) :: bl) a.
Hypothesis Hn : Q !! n = Some i.
Hypothesis Hnew : mQuorumSet i = None.
Hypothesis Hp : lookup n = Some p.
Notation nodes := (qset_nodes (pointee p)).

Definition marked : QuorumMap :=
  <[n := {| mQuorumSet := Some p; mDistance := mDistance i; mClosestValidators := mClosestValidators i |}]> Q.

Lemma front_distance : mDistance i = a.
Proof.
  destruct (se_backlog _ _ _ HS n a) as [_ (j & Hj & Hle)]; [by left|]. simplify_eq.
  pose proof (se_pending _ _ _ HS n i Hn Hnew ltac:(by rewrite Hp; eexists)) as Hin.
  apply (se_backlog _ _ _ HS) in Hin as [? _]. lia.
Qed.

Lemma marked_source : source n a (mClosestValidators i) marked.
Proof. eexists. unfold marked. rewrite lookup_insert_eq. split_and!; [done|apply front_distance|done]. Qed.

Lemma marked_nearer : nearer a nodes marked.
Proof.
  pose proof front_distance as Hd. intros m j _. unfold marked. rewrite lookup_insert_Some.
  intros [[-> <-]|[_ Hj]]; simpl; [lia|]. intros [q Hq].
  destruct (se_qset _ _ _ HS m j q Hj Hq) as (_ & ? & _). lia.
Qed.

Context (Q2 : QuorumMap).
Hypothesis HQ2 : ∀ m, Q2 !! m = touched nodes (a + 1) (behind a (mClosestValidators i) m) m (marked !! m).

(** The validators that a node gets from the expansion *)
Definition added (m : NodeID) (dist : Z) : gset NodeID :=
  if decide (m ∈ nodes ∧ dist = a + 1) then behind a (mClosestValidators i) m else ∅.

Lemma step_old m j : Q !! m = Some j → ∃ j', Q2 !! m = Some j' ∧ mDistance j' = mDistance j ∧
  mQuorumSet j' = (if decide (m = n) then Some p else mQuorumSet j) ∧
  mClosestValidators j' = mClosestValidators j ∪ added m (mDistance j).
Proof.
  intros Hm. pose proof front_distance as Hd. pose proof (se_level _ _ _ HS m j Hm) as Hl. rewrite HQ2. unfold marked, touched, added.
  destruct (decide (m = n)) as [->|Hne].
  - assert (j = i) as -> by congruence. rewrite lookup_insert_eq. simpl. rewrite (proj2 (Z.ltb_lt (mDistance i) (a + 1))) by lia.
    rewrite (decide_False (P := n ∈ nodes ∧ mDistance i = a + 1)) by lia.
    case_decide; eexists; split_and!; try done; simpl; by rewrite (right_id_L ∅ (∪)).
  - rewrite lookup_insert_ne, Hm by congruence. case_decide as Hin.
    + destruct (Z.ltb_spec (mDistance j) (a + 1)).
      * rewrite decide_False by lia. eexists. split_and!; try done. by rewrite (right_id_L ∅ (∪)).
      * rewrite (proj2 (Z.ltb_ge (a + 1) (mDistance j))) by lia.
        rewrite decide_True by (split; [done|lia]). by eexists.
    + rewrite decide_False by tauto. eexists. split_and!; try done. by rewrite (right_id_L ∅ (∪)).
Qed.

Lemma step_fresh m : Q !! m = None → Q2 !! m =
  if decide (m ∈ nodes) then Some {| mQuorumSet := None; mDistance := a + 1; mClosestValidators := added m (a + 1) |} else None.
Proof.
  intros Hm. rewrite HQ2. unfold marked, touched, added. rewrite lookup_insert_ne, Hm by congruence.
  case_decide; [|done]. by rewrite decide_True.
Qed.

Lemma step_inv m j' : Q2 !! m = Some j' →
  (∃ j, Q !! m = Some j ∧ mDistance j' = mDistance j ∧
    mQuorumSet j' = (if decide (m = n) then Some p else mQuorumSet j) ∧
    mClosestValidators j' = mClosestValidators j ∪ added m (mDistance j)) ∨
  (Q !! m = None ∧ m ∈ nodes ∧ mQuorumSet j' = None ∧ mDistance j' = a + 1 ∧ mClosestValidators j' = added m (a + 1)).
Proof.
  intros Hj. destruct (Q !! m) as [j|] eqn:E.
  - left. destruct (step_old m j E) as (j2 & H2 & H3 & H4 & H5). simplify_eq. by exists j.
  - right. rewrite (step_fresh m E) in Hj. case_decide; simplify_eq/=. done.
Qed.

Lemma edge_nodes m : edge n m ↔ m ∈ nodes.
Proof. unfold edge. rewrite Hp. split; [by intros (q & [= <-] & ?)|intros; by exists p]. Qed.

Lemma step_in_nodes m : m ∈ nodes → ∃ j, Q2 !! m = Some j ∧ mDistance j ≤ a + 1.
Proof.
  intros Hm. destruct (Q !! m) as [j|] eqn:E.
  - destruct (step_old m j E) as (j2 & H2 & H3 & _). exists j2. split; [done|].
    pose proof (se_level _ _ _ HS m j E). lia.
  - rewrite (step_fresh m E), decide_True by done. eexists. split; [done|]. simpl. lia.
Qed.

(** The nodes expanded afterwards are [n] and those expanded before, unchanged. *)
Lemma step_expanded m : (∃ j, Q2 !! m = Some j ∧ expanded j) ↔ m = n ∨ ∃ j, Q !! m = Some j ∧ expanded j.
Proof.
  unfold expanded. split.
  - intros (j & Hj & He). destruct (step_inv m j Hj) as [(j0 & H0 & _ & Hq & _)|(_ & _ & Hq & _)].
    + rewrite Hq in He. case_decide; [by left|right]. by exists j0.
    + rewrite Hq in He. by destruct He.
  - intros [->|(j & Hj & He)].
    + destruct (step_old n i Hn) as (j2 & H2 & _ & Hq & _). exists j2. split; [done|]. rewrite Hq, decide_True by done. by eexists.
    + destruct (step_old m j Hj) as (j2 & H2 & _ & Hq & _). exists j2. split; [done|]. rewrite Hq. case_decide; [by eexists|done].
Qed.

Lemma added_below m d : d ≤ a → added m d = ∅.
Proof. intros H. unfold added. rewrite decide_False; [done|lia]. Qed.

Lemma step_closest m j v : Q2 !! m = Some j → v ∈ mClosestValidators j ↔
  ∃ q k, Q2 !! q = Some k ∧ expanded k ∧ edge q m ∧ mDistance k + 1 = mDistance j ∧
    (if mDistance j =? 1 then v = m else v ∈ mClosestValidators k).
Proof.
  intros Hj. pose proof front_distance as Hd.
  (* predecessors: the old ones, and [n] *)
  assert ((∃ q k, Q2 !! q = Some k ∧ expanded k ∧ edge q m ∧ mDistance k + 1 = mDistance j ∧
      (if mDistance j =? 1 then v = m else v ∈ mClosestValidators k)) ↔
    (∃ q k, Q !! q = Some k ∧ expanded k ∧ edge q m ∧ mDistance k + 1 = mDistance j ∧
      (if mDistance j =? 1 then v = m else v ∈ mClosestValidators k)) ∨ v ∈ added m (mDistance j)) as ->.
  { unfold added, behind. split.
    - intros (q & k & Hq & He & Hqm & Hdist & Hv).
      destruct (proj1 (step_expanded q) ltac:(by exists k)) as [->|(k0 & Hk0 & He0)].
      + destruct (step_old n i Hn) as (k2 & H2 & H3 & _ & H4). simplify_eq. right.
        rewrite decide_True by (split; [by apply edge_nodes|lia]).
        rewrite added_below, (right_id_L ∅ (∪)) in H4 by lia. rewrite H4 in Hv.
        destruct (Z.eqb_spec (mDistance j) 1), (Z.eqb_spec a 0); try lia; [by apply elem_of_singleton|done].
      + left. destruct (step_old q k0 Hk0) as (k2 & H2 & H3 & _ & H4). simplify_eq. exists q, k0.
        destruct He0 as [q0 Hq0]. destruct (se_qset _ _ _ HS q k0 q0 Hk0 Hq0) as (_ & Hle & _).
        rewrite added_below, (right_id_L ∅ (∪)) in H4 by lia. rewrite <- H4.
        split_and!; try done; [by eexists|lia].
    - intros [(q & k & Hq & He & Hqm & Hdist & Hv)|Hv].
      + destruct (step_old q k Hq) as (k2 & H2 & H3 & Hqs & H4). destruct He as [q0 Hq0].
        exists q, k2. rewrite H3, H4. split_and!; try done.
        * unfold expanded. rewrite Hqs. case_decide; [by eexists|rewrite Hq0; by eexists].
        * destruct (mDistance j =? 1); [done|]. set_solver.
      + case_decide as Hc; [|set_solver]. destruct Hc as [Hin Hj1].
        destruct (step_old n i Hn) as (k2 & H2 & H3 & Hqs & H4). exists n, k2. rewrite H3, H4.
        split_and!; [done| |by apply edge_nodes|lia|].
        * unfold expanded. rewrite Hqs, decide_True by done. by eexists.
        * destruct (Z.eqb_spec (mDistance j) 1), (Z.eqb_spec a 0); try lia; [by apply elem_of_singleton in Hv|apply elem_of_union; by left]. }
  destruct (step_inv m j Hj) as [(j0 & H0 & Hd0 & _ & Hc)|(H0 & Hin & _ & Hd0 & Hc)]; rewrite Hc, Hd0.
  - rewrite elem_of_union, (se_closest _ _ _ HS m j0 v H0). done.
  - split; [by right|]. intros [(q & k & Hq & [q0 Hq0] & Hqm & _)|]; [|done].
    destruct (se_qset _ _ _ HS q k q0 Hq Hq0) as (_ & _ & Hs). destruct (Hs m Hqm) as (x & Hx & _). congruence.
Qed.

Lemma step_searching : Searching Q2 (bl ++ map (λ m, (m, a + 1)) nodes) a.
Proof.
  pose proof front_distance as Hd.
  assert (∀ m b, (m, b) ∈ bl → (m, b) ∈ (n, a) :: bl) as Htail by (intros; by right).
  split.
  - destruct (se_local _ _ _ HS) as (j & Hj & Hj0). destruct (step_old local j Hj) as (j2 & H2 & H3 & _).
    exists j2. split; [done|lia].
  - intros m j Hj. destruct (step_inv m j Hj) as [(j0 & H0 & -> & _)|(_ & Hin & _ & -> & _)].
    + by apply (se_walk _ _ _ HS m j0).
    + destruct (se_walk _ _ _ HS n i Hn) as [H1 H2]. split; [lia|].
      rewrite Z2Nat.inj_add, Nat.add_comm, Hd in * by lia. apply (nsteps_r _ local n m H2). by apply edge_nodes.
  - intros m j q Hj Hq. destruct (step_inv m j Hj) as [(j0 & H0 & -> & Hqs & _)|(_ & _ & Hqs & _)]; [|congruence].
    rewrite Hqs in Hq. case_decide as Hm.
    + subst m. injection Hq as <-. assert (j0 = i) as -> by congruence. split_and!; [done|lia|].
      intros m Hm%edge_nodes. destruct (step_in_nodes m Hm) as (k & Hk & Hkd). exists k. split; [done|lia].
    + destruct (se_qset _ _ _ HS m j0 q H0 Hq) as (H1 & H2 & H3). split_and!; [done..|].
      intros x Hx. destruct (H3 x Hx) as (k & Hk & Hkd). destruct (step_old x k Hk) as (k2 & Hk2 & Hk3 & _).
      exists k2. split; [done|lia].
  - intros m j Hj. destruct (step_inv m j Hj) as [(j0 & H0 & -> & _)|(_ & _ & _ & -> & _)]; [|lia].
    by apply (se_level _ _ _ HS m).
  - intros m b [Hb|Hb]%elem_of_app.
    + destruct (se_backlog _ _ _ HS m b (Htail m b Hb)) as [H1 (j & Hj & Hjb)]. split; [done|].
      destruct (step_old m j Hj) as (j2 & H2 & H3 & _). exists j2. split; [done|lia].
    + apply list_elem_of_fmap in Hb as (x & [= -> ->] & Hx). split; [lia|]. by apply step_in_nodes.
  - assert (∀ x, x ∈ bl → x.2 ≤ a + 1) as Hle.
    { intros [m b] Hx. destruct (se_backlog _ _ _ HS m b (Htail m b Hx)) as [? _]. simpl. lia. }
    pose proof (se_sorted _ _ _ HS) as [Hs _]%StronglySorted_inv. clear -Hs Hle.
    induction Hs as [|x l Hs IH Hf]; simpl.
    + clear Hle. induction nodes as [|x l IH]; constructor; [done|]. apply Forall_forall.
      intros y (z & -> & _)%list_elem_of_fmap. simpl. lia.
    + constructor; [apply IH; intros y Hy; apply Hle; by right|]. apply Forall_app. split; [done|].
      apply Forall_forall. intros y (z & -> & _)%list_elem_of_fmap. simpl. apply (Hle x). by left.
  - intros m j Hj Hq Hl. apply elem_of_app.
    destruct (step_inv m j Hj) as [(j0 & H0 & Hjd & Hqs & _)|(_ & Hin & _ & -> & _)].
    + left. rewrite Hqs in Hq. case_decide as Hm; [done|].
      pose proof (se_pending _ _ _ HS m j0 H0 Hq Hl) as Hin. rewrite Hjd.
      apply elem_of_cons in Hin as [[= -> _]|Hin]; [done|done].
    + right. by apply (list_elem_of_fmap_2 (λ m, (m, a + 1))).
  - apply step_closest.
Qed.
End Step.

(** ** Termination *)

Lemma fst_entries a (bl : list (NodeID * Z)) l : (bl ++ map (λ m, (m, a)) l).*1 = bl.*1 ++ l.
Proof using.
  rewrite fmap_app. f_equal. induction l as [|x l IH]; simpl; [done|]. by f_equal.
Qed.

(** A finite set of nodes that contains the local node and its dependencies *)
Context (universe : list NodeID).
Hypothesis Hlocal : local ∈ universe.
Hypothesis Hclosed : ∀ n m, n ∈ universe → edge n m → m ∈ universe.

Definition cost (n : NodeID) : nat :=
  match lookup n with Some p => length (qset_nodes (pointee p)) | None => 0 end.

Definition isExpanded (Q : QuorumMap) (n : NodeID) : bool :=
  match Q !! n with Some i => bool_decide (is_Some (mQuorumSet i)) | None => false end.

Definition ahead (Q : QuorumMap) (l : list NodeID) : nat :=
  foldr (λ n acc, ((if isExpanded Q n then 0 else cost n) + acc)%nat) 0%nat l.

Lemma isExpanded_true Q n : isExpanded Q n = true ↔ ∃ j, Q !! n = Some j ∧ expanded j.
Proof using.
  unfold isExpanded, expanded. destruct (Q !! n) as [j|]; [|naive_solver].
  rewrite bool_decide_eq_true. naive_solver.
Qed.

Lemma ahead_step Q Q2 n l :
  (∀ m, isExpanded Q2 m = true ↔ m = n ∨ isExpanded Q m = true) →
  (ahead Q2 l ≤ ahead Q l)%nat ∧ (n ∈ l → isExpanded Q n = false → ahead Q2 l + cost n ≤ ahead Q l)%nat.
Proof using.
  intros H. induction l as [|m l [IH1 IH2]]; simpl; [split; [done|by intros ?%elem_of_nil]|].
  assert ((if isExpanded Q2 m then 0 else cost m) ≤ (if isExpanded Q m then 0 else cost m))%nat as Hm.
  { destruct (isExpanded Q m) eqn:E; [by rewrite (proj2 (H m)); [|right]|]. destruct (isExpanded Q2 m); lia. }
  split; [lia|]. intros [->|Hin]%elem_of_cons Hn; [|specialize (IH2 Hin Hn); lia].
  rewrite Hn, (proj2 (H m)) by (by left). lia.
Qed.

Lemma rebuildLoop_ok fuel : ∀ Q bl k, Searching Q bl k → (∀ n i, Q !! n = Some i → n ∈ universe) →
  (length bl + ahead Q universe < fuel)%nat →
  ∃ Q' k', rebuildLoop lookup fuel bl.*1 Q = Ok Q' ∧ Searching Q' [] k'.
Proof.
  induction fuel as [|fuel IH]; intros Q bl k HS Hu Hf; [lia|]. destruct bl as [|[n a] bl]; [by exists Q, k|].
  apply Searching_level in HS. simpl. destruct (se_backlog _ _ _ HS n a) as [_ (i & Hi & _)]; [by left|].
  simpl in Hf. rewrite Hi. destruct (mQuorumSet i) as [q|] eqn:Eq.
  { apply (IH Q bl a); [|done|lia]. apply (Searching_pop Q n i a); [done..|left]. unfold expanded. by rewrite Eq. }
  destruct (lookup n) as [p|] eqn:Ep.
  2: { apply (IH Q bl a); [|done|lia]. apply (Searching_pop Q n i a); [done..|by right]. }
  pose proof (front_distance Q n a bl i p HS Hi Eq Ep) as Hd. fold (marked Q n i p). replace (mDistance i + 1) with (a + 1) by lia.
  destruct (expandNodes_ok n a (mClosestValidators i) (qset_nodes (pointee p)) (marked Q n i p)) as (Q2 & E & HQ2);
    [by apply (marked_source Q n a bl)|by apply (marked_nearer Q n a bl)|].
  rewrite E. simpl.
  pose proof (step_searching Q n a bl i p HS Hi Eq Ep Q2 HQ2) as HS2.
  rewrite <- (fst_entries (a + 1) bl).
  apply (IH Q2 _ a HS2).
  - intros m j Hj. destruct (step_inv Q n a bl i p HS Hi Eq Ep Q2 HQ2 m j Hj) as [(j0 & H0 & _)|(_ & Hin & _)].
    + by apply (Hu m j0).
    + apply (Hclosed n); [by apply (Hu n i)|]. by exists p.
  - pose proof (step_expanded Q n a bl i p HS Hi Eq Ep Q2 HQ2) as Hexp.
    destruct (ahead_step Q Q2 n universe) as [_ H].
    { intros m. by rewrite !isExpanded_true, Hexp. }
    specialize (H (Hu n i Hi)). rewrite length_app, length_map. unfold cost in H. rewrite Ep in H.
    assert (isExpanded Q n = false) as Hno.
    { unfold isExpanded. by rewrite Hi, Eq. }
    specialize (H Hno). lia.
Qed.

Definition enough : nat := S (1 + foldr (λ n acc, (cost n + acc)%nat) 0%nat universe).

Lemma start_searching : Searching
  {[local := {| mQuorumSet := None; mDistance := 0; mClosestValidators := ∅ |}]} [(local, 0)] 0.
Proof using.
  clear Hclosed Hlocal universe. split.
  - eexists. rewrite lookup_singleton_eq. done.
  - intros n i [<- <-]%lookup_singleton_Some. simpl. split; [done|constructor].
  - intros n i p [<- <-]%lookup_singleton_Some. done.
  - intros n i [<- <-]%lookup_singleton_Some. simpl. lia.
  - intros n a [= -> ->]%list_elem_of_singleton. split; [lia|]. eexists. by rewrite lookup_singleton_eq.
  - repeat constructor.
  - intros n i [<- <-]%lookup_singleton_Some. intros _ _. by left.
  - intros n i v [<- <-]%lookup_singleton_Some. simpl. split; [set_solver|].
    intros (p & j & [<- <-]%lookup_singleton_Some & [q Hq] & _). done.
Qed.

(** The state when the backlog is empty *)
Lemma finished_known Q k n i : Searching Q [] k → Q !! n = Some i → mQuorumSet i = lookup n.
Proof using.
  intros HS Hi. destruct (mQuorumSet i) as [p|] eqn:E; [by destruct (se_qset _ _ _ HS n i p Hi E) as [-> _]|].
  destruct (lookup n) as [p|] eqn:El; [|done].
  pose proof (se_pending _ _ _ HS n i Hi E ltac:(by rewrite El; eexists)) as H. by apply elem_of_nil in H.
Qed.

Lemma finished_distance Q k n j : Searching Q [] k → nsteps edge j local n →
  ∃ i, Q !! n = Some i ∧ mDistance i ≤ Z.of_nat j.
Proof using.
  intros HS. revert n. induction j as [|j IH]; intros n Hw.
  - inversion Hw; subst. destruct (se_local _ _ _ HS) as (i & Hi & Hd). exists i. split; [done|lia].
  - apply nsteps_inv_r in Hw as (m & Hm & Hmn). destruct (IH m Hm) as (i & Hi & Hd).
    pose proof (finished_known Q k m i HS Hi) as Hq. destruct (edge_known m n Hmn) as [p Hp]. rewrite Hp in Hq.
    destruct (se_qset _ _ _ HS m i p Hi Hq) as (_ & _ & Hs). destruct (Hs n Hmn) as (x & Hx & Hxd).
    exists x. split; [done|lia].
Qed.

(** The closest validators of a node are the members of the local quorum set at which
    shortest paths to it begin. *)
Lemma finished_closest Q k : Searching Q [] k → ∀ d n i v, Q !! n = Some i → mDistance i = Z.of_nat d →
  v ∈ mClosestValidators i ↔ (0 < d)%nat ∧ edge local v ∧ nsteps edge (d - 1) v n.
Proof using.
  clear Hclosed Hlocal universe. intros HS d. induction d as [|d IH]; intros n i v Hi Hd.
  { rewrite (se_closest _ _ _ HS n i v Hi). split; [|lia]. intros (p & j & Hp & _ & _ & Hj & _).
    destruct (se_walk _ _ _ HS p j Hp). lia. }
  rewrite (se_closest _ _ _ HS n i v Hi). replace (S d - 1)%nat with d by lia.
  assert (∀ m, edge m n → nsteps edge d local m → ∃ j, Q !! m = Some j ∧ expanded j ∧ mDistance j = Z.of_nat d) as Hpred.
  { intros m Hmn Hm. destruct (finished_distance Q k m d HS Hm) as (j & Hj & Hjd). exists j.
    pose proof (finished_known Q k m j HS Hj) as Hq. destruct (edge_known m n Hmn) as [p Hp]. rewrite Hp in Hq.
    destruct (se_qset _ _ _ HS m j p Hj Hq) as (_ & _ & Hs). destruct (Hs n Hmn) as (x & Hx & Hxd).
    assert (x = i) as -> by congruence. split_and!; [done|by exists p|lia]. }
  split.
  - intros (p & j & Hp & _ & Hpn & Hj & Hv). split; [lia|]. destruct (Z.eqb_spec (mDistance i) 1) as [E|E].
    + subst v. assert (d = 0%nat) as -> by lia. destruct (se_walk _ _ _ HS p j Hp) as [_ Hw].
      replace (mDistance j) with 0 in Hw by lia. simpl in Hw. inversion Hw; subst. split; [done|constructor].
    + apply (IH p j v Hp) in Hv as (H0 & Hlv & Hvp); [|lia]. split; [done|].
      replace d with (S (d - 1)) by lia. by apply (nsteps_r _ v p n).
  - intros (_ & Hlv & Hvn). destruct d as [|d].
    + inversion Hvn; subst. destruct (Hpred local Hlv ltac:(constructor)) as (j & Hj & He & Hjd).
      exists local, j. split_and!; try done; [lia|]. by rewrite (proj2 (Z.eqb_eq _ _)) by lia.
    + apply nsteps_inv_r in Hvn as (m & Hvm & Hmn).
      destruct (Hpred m Hmn) as (j & Hj & He & Hjd); [by apply nsteps_l with v|].
      exists m, j. split_and!; try done; [lia|]. rewrite (proj2 (Z.eqb_neq _ _)) by lia.
      apply (IH m j v Hj Hjd). replace (S d - 1)%nat with d by lia. split_and!; [lia|done..].
Qed.
End Rebuild.

(** ** The map as a record of the network *)

(** The quorum sets recorded in the map *)
Definition recorded (Q : QuorumMap) (n : NodeID) : option SCPQuorumSetPtr :=
  match Q !! n with Some i => mQuorumSet i | None => None end.

(** The map has the nodes that are reachable through the recorded quorum sets, with the
    length of the shortest path, and the members of the local quorum set at which the
    shortest paths begin. *)
Definition exact (local : NodeID) (Q : QuorumMap) : Prop :=
  (∀ n, is_Some (Q !! n) ↔ rtc (edge (recorded Q)) local n) ∧
  ∀ n i, Q !! n = Some i → ∃ d, mDistance i = Z.of_nat d ∧ nsteps (edge (recorded Q)) d local n ∧
    (∀ d', nsteps (edge (recorded Q)) d' local n → (d ≤ d')%nat) ∧
    ∀ v, v ∈ mClosestValidators i ↔
      (0 < d)%nat ∧ edge (recorded Q) local v ∧ nsteps (edge (recorded Q)) (d - 1) v n.

Lemma finished_exact local lookup Q k : Searching local lookup Q [] k →
  (∀ n, is_Some (Q !! n) ↔ rtc (edge lookup) local n) ∧
  ∀ n i, Q !! n = Some i → ∃ d, mDistance i = Z.of_nat d ∧ nsteps (edge lookup) d local n ∧
    (∀ d', nsteps (edge lookup) d' local n → (d ≤ d')%nat) ∧
    ∀ v, v ∈ mClosestValidators i ↔ (0 < d)%nat ∧ edge lookup local v ∧ nsteps (edge lookup) (d - 1) v n.
Proof.
  intros HS. split.
  - intros n. rewrite rtc_nsteps. split.
    + intros [i Hi]. destruct (se_walk _ _ _ _ _ HS n i Hi) as [_ Hw]. by eexists.
    + intros [d Hd]. destruct (finished_distance local lookup Q k n d HS Hd) as (i & Hi & _). by exists i.
  - intros n i Hi. destruct (se_walk _ _ _ _ _ HS n i Hi) as [H0 Hw]. exists (Z.to_nat (mDistance i)).
    split_and!; [lia|done| |].
    + intros d' Hd'. destruct (finished_distance local lookup Q k n d' HS Hd') as (j & Hj & Hjd).
      assert (j = i) as -> by congruence. lia.
    + intros v. apply (finished_closest local lookup Q k HS _ n i v Hi). lia.
Qed.

Lemma edge_recorded lookup Q n m :
  (∀ i, Q !! n = Some i → mQuorumSet i = lookup n) → is_Some (Q !! n) → edge (recorded Q) n m ↔ edge lookup n m.
Proof. intros H [i Hi]. unfold edge, recorded. by rewrite Hi, (H i Hi). Qed.

(** A completed search is exact for the quorum sets it recorded. *)
Lemma finished_recorded local lookup Q k : Searching local lookup Q [] k → Searching local (recorded Q) Q [] k.
Proof.
  intros HS. pose proof (finished_known local lookup Q k) as Hq.
  assert (∀ n m, is_Some (Q !! n) → edge (recorded Q) n m ↔ edge lookup n m) as He.
  { intros n m Hn. apply edge_recorded; [|done]. intros i. by apply Hq. }
  assert (∀ d n, nsteps (edge lookup) d local n → nsteps (edge (recorded Q)) d local n) as Hw.
  { induction d as [|d IH]; intros n H; [inversion H; subst; constructor|].
    apply nsteps_inv_r in H as (m & Hm & Hmn). apply (nsteps_r _ local m n); [by apply IH|]. apply He; [|done].
    destruct (finished_distance local lookup Q k m d HS Hm) as (i & Hi & _). by eexists. }
  destruct HS as [H1 H2 H3 H4 H5 H6 H7 H8]. split; try done.
  - intros n i Hi. destruct (H2 n i Hi). split; [done|by apply Hw].
  - intros n i p Hi Hp. destruct (H3 n i p Hi Hp) as (Hl & Hk & Hs). split_and!; [|done|].
    + unfold recorded. by rewrite Hi.
    + intros m Hm. apply Hs, He; [by eexists|done].
  - intros n i Hi Hn [p Hp]. unfold recorded in Hp. rewrite Hi in Hp. congruence.
  - intros n i v Hi. rewrite (H8 n i v Hi). split; intros (p & j & Hj & Hx & Hpn & H); exists p, j;
      (split_and!; [done|done| |apply H|apply H]); apply He; try done; by eexists.
Qed.

Lemma distances_bounded (Q : QuorumMap) : ∃ k, ∀ n i, Q !! n = Some i → mDistance i ≤ k.
Proof.
  induction Q as [|n i Q Hn [k IH]] using map_ind; [exists 0; intros n i; by rewrite lookup_empty|].
  exists (Z.max k (mDistance i)). intros m j. rewrite lookup_insert_Some. intros [[-> <-]|[_ Hj]]; [lia|].
  specialize (IH m j Hj). lia.
Qed.

Lemma exact_below local Q n d : exact local Q → nsteps (edge (recorded Q)) d local n →
  ∃ i, Q !! n = Some i ∧ mDistance i ≤ Z.of_nat d.
Proof.
  intros [Hdom Hinfo] Hd. destruct (proj2 (Hdom n)) as [i Hi]; [apply rtc_nsteps; by exists d|]. exists i. split; [done|].
  destruct (Hinfo n i Hi) as (d0 & -> & _ & Hmin & _). specialize (Hmin d Hd). lia.
Qed.

(** The closest validators of a node come from its predecessors on shortest paths. *)
Lemma exact_closest local Q n i v : exact local Q → Q !! n = Some i → v ∈ mClosestValidators i ↔
  ∃ p j, Q !! p = Some j ∧ expanded j ∧ edge (recorded Q) p n ∧ mDistance j + 1 = mDistance i ∧
    (if mDistance i =? 1 then v = n else v ∈ mClosestValidators j).
Proof.
  intros Hex Hi. pose proof Hex as [Hdom Hinfo]. destruct (Hinfo n i Hi) as (d & Hd & Hw & Hmin & ->).
  assert (∀ p, edge (recorded Q) p n → nsteps (edge (recorded Q)) (d - 1) local p → (0 < d)%nat →
    ∃ j, Q !! p = Some j ∧ expanded j ∧ mDistance j + 1 = mDistance i) as Hpred.
  { intros p Hp Hlp Hpos. destruct (exact_below local Q p _ Hex Hlp) as (j & Hj & Hjd). exists j.
    destruct (edge_known _ _ _ Hp) as [q Hq]. unfold recorded in Hq. rewrite Hj in Hq.
    destruct (Hinfo p j Hj) as (dp & Hdp & Hwp & _ & _).
    specialize (Hmin (S dp) (nsteps_r _ local p n Hwp Hp)). split_and!; [done|by exists q|lia]. }
  split.
  - intros (Hpos & Hlv & Hvn). destruct d as [|[|d]]; [lia| |].
    + simpl in Hvn. inversion Hvn; subst. destruct (Hpred local Hlv ltac:(constructor) Hpos) as (j & Hj & He & Hjd).
      exists local, j. split_and!; try done. by rewrite Hd.
    + simpl in Hvn. apply nsteps_inv_r in Hvn as (p & Hvp & Hpn).
      destruct (Hpred p Hpn) as (j & Hj & He & Hjd); [by apply nsteps_l with v|lia|].
      exists p, j. split_and!; try done. rewrite Hd. rewrite (proj2 (Z.eqb_neq _ _)) by lia.
      destruct (Hinfo p j Hj) as (dp & Hdp & _ & _ & Hcp). apply Hcp.
      split_and!; [lia|done|]. by replace (dp - 1)%nat with d by lia.
  - intros (p & j & Hj & _ & Hpn & Hjd & Hv). destruct (Hinfo p j Hj) as (dp & Hdp & Hwp & _ & Hcp).
    split; [lia|]. destruct (Z.eqb_spec (mDistance i) 1) as [E|E].
    + subst v. assert (dp = 0%nat) as E0 by lia. rewrite E0 in Hwp. inversion Hwp; subst. split; [done|].
      replace (d - 1)%nat with 0%nat by lia. constructor.
    + destruct (proj1 (Hcp v) Hv) as (Hpos & Hlv & Hvp). split; [done|].
      replace (d - 1)%nat with (S (dp - 1)) by lia. by apply (nsteps_r _ v p n).
Qed.

Lemma exact_searching local Q : exact local Q → ∃ k, Searching local (recorded Q) Q [] k.
Proof.
  intros Hex. pose proof (λ n d, exact_below local Q n d Hex) as Hle. pose proof Hex as [Hdom Hinfo].
  destruct (distances_bounded Q) as [k Hk]. exists k.
  split.
  - destruct (Hle local 0%nat ltac:(constructor)) as (i & Hi & Hd). exists i. split; [done|].
    destruct (Hinfo local i Hi) as (d0 & ? & _). lia.
  - intros n i Hi. destruct (Hinfo n i Hi) as (d & -> & Hd & _). rewrite Nat2Z.id. split; [lia|done].
  - intros n i p Hi Hp. split_and!; [unfold recorded; by rewrite Hi|by apply (Hk n)|].
    intros m Hm. destruct (Hinfo n i Hi) as (d & -> & Hd & _).
    destruct (Hle m (S d)) as (j & Hj & Hjd); [by apply (nsteps_r _ local n m)|]. exists j. split; [done|lia].
  - intros n i Hi. specialize (Hk n i Hi). lia.
  - by intros n a ?%elem_of_nil.
  - constructor.
  - intros n i Hi Hn [p Hp]. unfold recorded in Hp. rewrite Hi in Hp. congruence.
  - intros n i v. by apply (exact_closest local).
Qed.

(** ** Incremental updates *)

Section Incremental.
Context (local id : NodeID) (p : SCPQuorumSetPtr) (Q Q2 : QuorumMap) (i : NodeInfo) (k : Z).
Hypothesis HS : Searching local (recorded Q) Q [] k.
Hypothesis Hid : Q !! id = Some i.
Hypothesis Hleaf : mQuorumSet i = None.
Notation d := (mDistance i).
Notation nodes := (qset_nodes (pointee p)).
Notation Q1 := (marked Q id i p).
Hypothesis Hnear : nearer d nodes Q1.
Hypothesis HQ2 : ∀ m, Q2 !! m = touched nodes (d + 1) (behind d (mClosestValidators i) m) m (Q1 !! m).

Lemma inc_positive : 0 ≤ d.
Proof. by destruct (se_walk _ _ _ _ _ HS id i Hid). Qed.

Lemma inc_id : ∃ j, Q2 !! id = Some j ∧ mDistance j = d ∧ mQuorumSet j = Some p ∧ mClosestValidators j = mClosestValidators i.
Proof.
  rewrite HQ2. unfold marked, touched. rewrite lookup_insert_eq. simpl.
  rewrite (proj2 (Z.ltb_lt d (d + 1))) by lia. case_decide; by eexists.
Qed.

(** Entries nearer than the new distance, and entries not mentioned, stay; the others
    are leaves. *)
Lemma inc_other m : m ≠ id →
  (Q2 !! m = Q !! m ∧ (m ∉ nodes ∨ ∃ j, Q !! m = Some j ∧ mDistance j < d + 1)) ∨
  (m ∈ nodes ∧ ∃ j, Q2 !! m = Some j ∧ mDistance j = d + 1 ∧ mQuorumSet j = None ∧
    ((Q !! m = None ∧ mClosestValidators j = behind d (mClosestValidators i) m) ∨
     ∃ j0, Q !! m = Some j0 ∧ mQuorumSet j0 = None ∧ d + 1 ≤ mDistance j0 ∧
       mClosestValidators j = if mDistance j0 =? d + 1 then mClosestValidators j0 ∪ behind d (mClosestValidators i) m
                              else behind d (mClosestValidators i) m)).
Proof.
  intros Hne. assert (Q1 !! m = Q !! m) as E1 by (unfold marked; by rewrite lookup_insert_ne by congruence).
  rewrite HQ2, E1. unfold touched. case_decide as Hin; [|left; tauto].
  destruct (Q !! m) as [j|] eqn:E; [|right; split; [done|]; eexists; split_and!; [done..|by left]].
  destruct (Z.ltb_spec (mDistance j) (d + 1)) as [Hlt|Hge]; [left; split; [done|right; by exists j]|].
  right. split; [done|]. assert (mQuorumSet j = None) as Hj.
  { destruct (mQuorumSet j) as [q|] eqn:Eq; [|done].
    specialize (Hnear m j Hin ltac:(by rewrite E1) ltac:(unfold expanded; rewrite Eq; by eexists)). lia. }
  destruct (Z.ltb_spec (d + 1) (mDistance j)) as [Hlt|Hle]; eexists; (split_and!; [done|simpl; lia|done|]); right; exists j;
    (split_and!; [done..|]); simpl.
  - by rewrite (proj2 (Z.eqb_neq _ _)) by lia.
  - by rewrite (proj2 (Z.eqb_eq _ _)) by lia.
Qed.

Lemma inc_recorded n : recorded Q2 n = if decide (n = id) then Some p else recorded Q n.
Proof.
  unfold recorded. case_decide as E.
  - subst n. destruct inc_id as (j & -> & _ & -> & _). done.
  - destruct (inc_other n E) as [[-> _]|(_ & j & -> & _ & -> & [[-> _]|(j0 & -> & -> & _)])]; done.
Qed.

Lemma inc_edge n m : edge (recorded Q2) n m ↔ (n = id ∧ m ∈ nodes) ∨ edge (recorded Q) n m.
Proof.
  unfold edge. rewrite inc_recorded. case_decide as E.
  - subst n. assert (recorded Q id = None) as -> by (unfold recorded; by rewrite Hid, Hleaf). naive_solver.
  - naive_solver.
Qed.

(** Distances do not grow. *)
Lemma inc_closer m j : Q !! m = Some j → ∃ j', Q2 !! m = Some j' ∧ mDistance j' ≤ mDistance j.
Proof.
  intros Hj. destruct (decide (m = id)) as [->|Hne].
  - destruct inc_id as (j' & H1 & H2 & _). exists j'. split; [done|]. assert (j = i) as -> by congruence. lia.
  - destruct (inc_other m Hne) as [[-> _]|(_ & j' & Hj' & Hd & _ & [[? _]|(j0 & ? & _ & ? & _)])]; [by exists j|congruence|].
    exists j'. split; [done|]. assert (j0 = j) as -> by congruence. lia.
Qed.

Lemma inc_predecessors m dist v :
  (∃ q j, Q2 !! q = Some j ∧ expanded j ∧ edge (recorded Q2) q m ∧ mDistance j + 1 = dist ∧
    (if dist =? 1 then v = m else v ∈ mClosestValidators j)) ↔
  (∃ q j, Q !! q = Some j ∧ expanded j ∧ edge (recorded Q) q m ∧ mDistance j + 1 = dist ∧
    (if dist =? 1 then v = m else v ∈ mClosestValidators j)) ∨
  (m ∈ nodes ∧ dist = d + 1 ∧ v ∈ behind d (mClosestValidators i) m).
Proof.
  assert (∀ q j, q ≠ id → Q !! q = Some j → expanded j → Q2 !! q = Some j) as Hkeep.
  { intros q j Hne Hj [x Hx]. destruct (inc_other q Hne) as [[-> _]|(_ & j' & _ & _ & _ & [[? _]|(j0 & ? & ? & _)])]; congruence. }
  destruct inc_id as (ji & Hji & Hdi & Hqi & Hci). unfold behind. split.
  - intros (q & j & Hj & He & Hqm & Hd & Hv). apply inc_edge in Hqm as [[-> Hin]|Hqm].
    + right. assert (j = ji) as -> by congruence. split_and!; [done|lia|]. rewrite Hci in Hv.
      destruct (Z.eqb_spec dist 1), (Z.eqb_spec d 0); try lia; [by apply elem_of_singleton|done].
    + left. destruct (edge_known _ _ _ Hqm) as [x Hx]. unfold recorded in Hx.
      destruct (Q !! q) as [j0|] eqn:Ej; [|done].
      assert (q ≠ id) as Hne by (intros ->; congruence).
      rewrite (Hkeep q j0 Hne Ej ltac:(by exists x)) in Hj. injection Hj as <-. by exists q, j0.
  - intros [(q & j & Hj & He & Hqm & Hd & Hv)|(Hin & Hd & Hv)].
    + exists q, j. assert (q ≠ id) as Hne.
      { intros ->. assert (j = i) as -> by congruence. destruct He. congruence. }
      split_and!; [by apply Hkeep|done|apply inc_edge; by right|done..].
    + exists id, ji. split_and!; [done|by exists p|apply inc_edge; by left|lia|]. rewrite Hci.
      destruct (Z.eqb_spec dist 1), (Z.eqb_spec d 0); try lia; [by apply elem_of_singleton in Hv|done].
Qed.

Lemma inc_closest m j v : Q2 !! m = Some j → v ∈ mClosestValidators j ↔
  ∃ q x, Q2 !! q = Some x ∧ expanded x ∧ edge (recorded Q2) q m ∧ mDistance x + 1 = mDistance j ∧
    (if mDistance j =? 1 then v = m else v ∈ mClosestValidators x).
Proof.
  intros Hj. rewrite inc_predecessors.
  assert (∀ q x y, edge (recorded Q) q m → Q !! q = Some x → Q !! m = Some y → mDistance y ≤ mDistance x + 1) as Hle.
  { intros q x y Hq Hx Hy. destruct (edge_known _ _ _ Hq) as [z Hz]. unfold recorded in Hz. rewrite Hx in Hz.
    destruct (se_qset _ _ _ _ _ HS q x z Hx Hz) as (_ & _ & Hs). destruct (Hs m Hq) as (y' & Hy' & ?). congruence. }
  destruct (decide (m = id)) as [->|Hne].
  - destruct inc_id as (j' & Hj' & Hd & _ & Hc). assert (j' = j) as -> by congruence. rewrite Hc, Hd.
    rewrite (se_closest _ _ _ _ _ HS id i v Hid). split; [by left|]. intros [?|(_ & ? & _)]; [done|lia].
  - destruct (inc_other m Hne) as [[E Hcase]|(Hin & j' & Hj' & Hd & _ & Hold)].
    + rewrite E in Hj. rewrite (se_closest _ _ _ _ _ HS m j v Hj). split; [by left|].
      intros [?|(Hin & Hd & _)]; [done|]. destruct Hcase as [?|(j0 & Hj0 & ?)]; [done|].
      assert (j0 = j) as -> by congruence. lia.
    + assert (j' = j) as -> by congruence. rewrite Hd. destruct Hold as [[HQ ->]|(j0 & Hj0 & Hl & Hge & ->)].
      * split; [by right|]. intros [(q & x & Hx & [z Hz] & Hq & _)|(_ & _ & ?)]; [|done].
        destruct (se_qset _ _ _ _ _ HS q x z Hx Hz) as (_ & _ & Hs). destruct (Hs m Hq) as (y & Hy & _). congruence.
      * destruct (Z.eqb_spec (mDistance j0) (d + 1)) as [E|E].
        -- rewrite elem_of_union, (se_closest _ _ _ _ _ HS m j0 v Hj0), E. tauto.
        -- split; [by right|]. intros [(q & x & Hx & _ & Hq & Hdx & _)|(_ & _ & ?)]; [|done].
           specialize (Hle q x j0 Hq Hx Hj0). lia.
Qed.

Lemma inc_walk n j : Q2 !! n = Some j → 0 ≤ mDistance j ∧ nsteps (edge (recorded Q2)) (Z.to_nat (mDistance j)) local n.
Proof.
  pose proof inc_positive as Hpos.
  assert (∀ l x y, nsteps (edge (recorded Q)) l x y → nsteps (edge (recorded Q2)) l x y) as Hmono.
  { induction 1 as [|l x y z H _ IH]; [constructor|]. apply nsteps_l with y; [|done]. apply inc_edge. by right. }
  assert (nsteps (edge (recorded Q2)) (Z.to_nat d) local id) as Hwid by (apply Hmono, (se_walk _ _ _ _ _ HS id i Hid)).
  intros Hj. destruct (decide (n = id)) as [->|Hne].
  - destruct inc_id as (j' & Hj' & Hd & _). assert (j' = j) as -> by congruence. by rewrite Hd.
  - destruct (inc_other n Hne) as [[E _]|(Hin & j' & Hj' & Hd & _)].
    + rewrite E in Hj. destruct (se_walk _ _ _ _ _ HS n j Hj). split; [done|by apply Hmono].
    + assert (j' = j) as -> by congruence. rewrite Hd. split; [lia|].
      rewrite Z2Nat.inj_add, Nat.add_comm by lia. apply (nsteps_r _ local id n Hwid). apply inc_edge. by left.
Qed.

Lemma inc_qset n j q : Q2 !! n = Some j → mQuorumSet j = Some q →
  ∀ m, edge (recorded Q2) n m → ∃ x, Q2 !! m = Some x ∧ mDistance x ≤ mDistance j + 1.
Proof.
  intros Hj Hq m Hm. apply inc_edge in Hm as [[-> Hin]|Hm].
  - destruct inc_id as (j' & Hj' & Hd & _). assert (j' = j) as -> by congruence. rewrite Hd.
    destruct (decide (m = id)) as [->|Hne]; [exists j; split; [done|lia]|].
    destruct (inc_other m Hne) as [[-> [?|(x & Hx & ?)]]|(_ & x & Hx & ? & _)]; [done|exists x; split; [done|lia]..].
  - destruct (edge_known _ _ _ Hm) as [z Hz]. unfold recorded in Hz. destruct (Q !! n) as [j0|] eqn:E; [|done].
    assert (n ≠ id) as Hne by (intros ->; congruence).
    destruct (se_qset _ _ _ _ _ HS n j0 z E Hz) as (_ & _ & Hs). destruct (Hs m Hm) as (x & Hx & Hxd).
    destruct (inc_closer m x Hx) as (x' & Hx' & Hle). exists x'. split; [done|].
    destruct (inc_other n Hne) as [[E2 _]|(_ & j' & _ & _ & _ & [[? _]|(j1 & ? & ? & _)])]; [|congruence..].
    assert (j = j0) as -> by congruence. lia.
Qed.

Lemma inc_searching : ∃ k', Searching local (recorded Q2) Q2 [] k'.
Proof.
  pose proof inc_positive as Hpos. destruct (distances_bounded Q2) as [k' Hk']. exists k'. split.
  - destruct (se_local _ _ _ _ _ HS) as (j & Hj & Hd). destruct (inc_closer local j Hj) as (j' & Hj' & Hle).
    exists j'. split; [done|]. destruct (inc_walk local j' Hj'). lia.
  - apply inc_walk.
  - intros n j q Hj Hq. split_and!; [unfold recorded; by rewrite Hj|by apply (Hk' n)|by apply (inc_qset n j q)].
  - intros n j Hj. specialize (Hk' n j Hj). lia.
  - by intros n a ?%elem_of_nil.
  - constructor.
  - intros n j Hj Hn [q Hq]. unfold recorded in Hq. rewrite Hj in Hq. congruence.
  - apply inc_closest.
Qed.
End Incremental.

Lemma rebuild_ok local lookup universe fuel :
  local ∈ universe → (∀ n m, n ∈ universe → edge lookup n m → m ∈ universe) →
  (enough lookup universe ≤ fuel)%nat →
  ∃ Q, rebuild local lookup fuel = Ok Q ∧ exact local Q ∧
    (∀ n, is_Some (Q !! n) ↔ rtc (edge lookup) local n) ∧
    ∀ n i, Q !! n = Some i → mQuorumSet i = lookup n.
Proof.
  intros Hl Hc Hf.
  destruct (rebuildLoop_ok local lookup universe Hc fuel _ _ _ (start_searching local lookup)) as (Q & k & E & HS).
  { by intros n i [<- <-]%lookup_singleton_Some. }
  { unfold enough in Hf. simpl in *.
    enough (ahead lookup {[local := {| mQuorumSet := None; mDistance := 0; mClosestValidators := ∅ |}]} universe ≤
      foldr (λ n acc, (cost lookup n + acc)%nat) 0%nat universe)%nat by lia.
    clear. induction universe as [|n l IH]; simpl; [done|]. case_match; lia. }
  exists Q. split; [done|]. destruct (finished_exact _ _ _ _ HS) as [Hdom _].
  split; [|split; [done|intros n i; by apply (finished_known local lookup Q k)]].
  by apply (finished_exact local (recorded Q) Q k), (finished_recorded local lookup).
Qed.

(** ** The result *)

(** C31: when the nodes that the local node depends on form a finite set, a rebuild with
    fuel for every entry of the backlog completes.  It tracks exactly the nodes
    reachable from the local node, records for each the quorum set that was looked up
    and the length of the shortest path, and its closest validators are the members of
    the local quorum set at which the shortest paths begin. *)
Theorem rebuild_correct local lookup universe fuel :
  local ∈ universe → (∀ n m, n ∈ universe → edge lookup n m → m ∈ universe) →
  (enough lookup universe ≤ fuel)%nat →
  ∃ Q, rebuild local lookup fuel = Ok Q ∧ exact local Q ∧
    (∀ n, is_Some (Q !! n) ↔ rtc (edge lookup) local n) ∧
    ∀ n i, Q !! n = Some i → mQuorumSet i = lookup n.
Proof. apply rebuild_ok. Qed.

(** Node 1 trusts itself and node 2, which trusts node 3. *)
Definition exampleLookup (n : NodeID) : option SCPQuorumSetPtr :=
  if n =? 1 then Some {| address := 100; pointee := QSet 2 [1; 2] [] |}
  else if n =? 2 then Some {| address := 200; pointee := QSet 1 [] [QSet 1 [3] []] |}
  else None.

Lemma exampleLookup_closed n m : edge exampleLookup n m → n ∈ [1; 2; 3] → m ∈ [1; 2; 3].
Proof.
  intros (p & Hp & Hm) _. unfold exampleLookup in Hp. repeat case_match; simplify_eq/=; set_solver.
Qed.

Lemma rebuild_correct_witness : ∃ Q, rebuild 1 exampleLookup 5 = Ok Q ∧ exact 1 Q ∧
  findClosestValidators 3 Q = Ok {[2]}.
Proof.
  destruct (rebuild_correct 1 exampleLookup [1; 2; 3] 5) as (Q & E & Hex & _).
  { by left. }
  { intros n m Hn He. by apply (exampleLookup_closed n m). }
  { vm_compute. lia. }
  exists Q. split; [exact E|]. split; [exact Hex|].
  assert (match rebuild 1 exampleLookup 5 with Ok Q => findClosestValidators 3 Q | Fail e => Fail e end = Ok {[2]}) as H
    by (vm_compute; reflexivity).
  rewrite E in H. exact H.
Defined.

(** An incremental update that succeeds leaves the map exact: the nodes, distances
    and closest validators are those of the recorded quorum sets, the new one included,
    so that a rebuild would give the same. *)
Theorem expand_keeps_exact local id qSet Q Q' :
  exact local Q → expand id (Some qSet) Q = Ok (true, Q') →
  exact local Q' ∧ is_Some (recorded Q' id).
Proof.
  intros Hex E. unfold expand in E. destruct (Q !! id) as [i|] eqn:Hid; [|done].
  destruct (mQuorumSet i) as [old|] eqn:Eq.
  { injection E as _ <-. split; [done|]. unfold recorded. rewrite Hid, Eq. by eexists. }
  destruct (exact_searching local Q Hex) as [k HS]. fold (marked Q id i qSet) in E.
  assert (source id (mDistance i) (mClosestValidators i) (marked Q id i qSet)) as Hsrc.
  { eexists. unfold marked. by rewrite lookup_insert_eq. }
  pose proof (expandNodes_true id (mDistance i) (mClosestValidators i) _ _ _ Hsrc E) as Hnear.
  destruct (expandNodes_ok id (mDistance i) (mClosestValidators i) _ _ Hsrc Hnear) as (Q2 & E2 & HQ2).
  rewrite E2 in E. injection E as <-.
  destruct (inc_searching local id qSet Q Q2 i k HS Hid Eq Hnear HQ2) as [k' HS'].
  split; [by apply (finished_exact local (recorded Q2) Q2 k')|].
  rewrite (inc_recorded id qSet Q Q2 i Hnear HQ2), decide_True by done. by eexists.
Qed.

(** The tracker that knows the quorum set of node 1 only *)
Definition onlyFirst (n : NodeID) : option SCPQuorumSetPtr := if n =? 1 then exampleLookup 1 else None.

Lemma expand_keeps_exact_witness : ∃ Q Q', rebuild 1 onlyFirst 4 = Ok Q ∧
  expand 2 (exampleLookup 2) Q = Ok (true, Q') ∧ exact 1 Q'.
Proof.
  destruct (rebuild_ok 1 onlyFirst [1; 2] 4) as (Q & E & Hex & _).
  { by left. }
  { intros n m _ (p & Hp & Hm). unfold onlyFirst in Hp. case_match; [|done]. cbn in Hp. injection Hp as <-. exact Hm. }
  { vm_compute. lia. }
  assert (match rebuild 1 onlyFirst 4 with
    | Ok Q => match expand 2 (exampleLookup 2) Q with Ok (b, _) => b | Fail _ => false end
    | Fail _ => false end = true) as H by (vm_compute; reflexivity).
  rewrite E in H. destruct (expand 2 (exampleLookup 2) Q) as [[b Q']|] eqn:E2; [|done]. subst b.
  exists Q, Q'. split; [exact E|]. split; [exact E2|].
  exact (proj1 (expand_keeps_exact 1 2 _ Q Q' Hex E2)).
Defined.
