(* ===== verification/TrackedNetwork.v ===== *)
(** * Checking the tracked network

    The herder gives the map of the quorum tracker to the intersection checker
    (HerderImpl::checkAndMaybeReanalyzeQuorumMap).  Here the two components meet: a
    rebuilt map satisfies what the checker relies on, and the verdict speaks about the
    quorums of the nodes that the local node depends on. *)

From stdpp Require Import prelude list gmap.
From Stdlib Require Import ZArith Lia.
From S2P Require Import Prelude QuorumSet QuorumTracker.
From S2P Require Import QuorumIntersection QicTarjan QicSlices QicSearch QicNetwork QicCritical.
Local Open Scope Z_scope.

(** The map as the checker iterates over it *)
Definition quorumMapOf (Q : gmap NodeID NodeInfo) : list (NodeID * option SCPQuorumSet) :=
  (λ '(n, i), (n, pointee <$> mQuorumSet i)) <$> map_to_list Q.

Lemma quorumMapOf_keys Q : (quorumMapOf Q).*1 = (map_to_list Q).*1.
Proof. unfold quorumMapOf. rewrite <- list_fmap_compose. apply list_fmap_ext. by intros ? [n i] _. Qed.

Lemma elem_of_quorumMapOf Q n o : (n, o) ∈ quorumMapOf Q ↔ ∃ i, Q !! n = Some i ∧ o = pointee <$> mQuorumSet i.
Proof.
  unfold quorumMapOf. rewrite list_elem_of_fmap. split.
  - intros ([m i] & [= -> ->] & Hi%elem_of_map_to_list). by exists i.
  - intros (i & Hi & ->). exists (n, i). split; [done|by apply elem_of_map_to_list].
Qed.

Section Tracked.
Context (local : NodeID) (lookup : NodeID → option SCPQuorumSetPtr) (universe : list NodeID).
Hypothesis Hlocal : local ∈ universe.
Hypothesis Hclosed : ∀ n m, n ∈ universe → edge lookup n m → m ∈ universe.
Hypothesis Hsize : (length universe ≤ 64)%nat.
Hypothesis Hsane : ∀ n p, lookup n = Some p → isQuorumSetSane (pointee p) false = true.

Context (Q : gmap NodeID NodeInfo).
Hypothesis Hdom : ∀ n, is_Some (Q !! n) ↔ rtc (edge lookup) local n.
Hypothesis Hq : ∀ n i, Q !! n = Some i → mQuorumSet i = lookup n.

Lemma tracked_in_universe n i : Q !! n = Some i → n ∈ universe.
Proof.
  intros Hi. assert (rtc (edge lookup) local n) as Hr by (apply Hdom; by eexists).
  revert n Hi Hr. intros n _. apply (rtc_ind_r (λ n, n ∈ universe) local Hlocal). intros m o _ H IH. by apply (Hclosed m).
Qed.

Lemma tracked_map : trackedMap (quorumMapOf Q).
Proof.
  split.
  - rewrite quorumMapOf_keys. apply NoDup_fst_map_to_list.
  - etrans; [|exact Hsize]. rewrite <- (length_fmap fst), quorumMapOf_keys.
    apply submseteq_length, NoDup_submseteq; [apply NoDup_fst_map_to_list|].
    intros n ([m i] & -> & Hi%elem_of_map_to_list)%list_elem_of_fmap. by apply (tracked_in_universe m i).
  - intros n q (i & Hi & E)%elem_of_quorumMapOf. rewrite (Hq n i Hi) in E.
    destruct (lookup n) as [p|] eqn:Ep; [|done]. injection E as ->. by apply (Hsane n).
  - intros n q m (i & Hi & E)%elem_of_quorumMapOf Hm. rewrite (Hq n i Hi) in E.
    destruct (lookup n) as [p|] eqn:Ep; [|done]. injection E as ->.
    destruct (proj2 (Hdom m)) as [j Hj].
    { apply rtc_r with n; [apply Hdom; by eexists|]. by exists p. }
    rewrite quorumMapOf_keys. apply list_elem_of_fmap. exists (m, j). split; [done|by apply elem_of_map_to_list].
Qed.

(** A quorum of the nodes that [local] depends on *)
Definition transitiveQuorum (A : list NodeID) : Prop :=
  A ≠ [] ∧ ∀ n, n ∈ A → rtc (edge lookup) local n ∧
    ∃ p, lookup n = Some p ∧ sat (λ m, bool_decide (m ∈ A)) (pointee p) = true.

Lemma tracked_quorum A : netQuorum (quorumMapOf Q) A ↔ transitiveQuorum A.
Proof.
  unfold netQuorum, transitiveQuorum. apply and_iff_compat_l. split; intros H n Hn.
  - destruct (H n Hn) as (q & (i & Hi & E)%elem_of_quorumMapOf & Hs). split; [apply Hdom; by eexists|].
    rewrite (Hq n i Hi) in E. destruct (lookup n) as [p|]; [|done]. injection E as ->. by exists p.
  - destruct (H n Hn) as (Hr & p & Hp & Hs). apply Hdom in Hr as [i Hi]. exists (pointee p). split; [|done].
    apply elem_of_quorumMapOf. exists i. split; [done|]. by rewrite (Hq n i Hi), Hp.
Qed.
End Tracked.

(** C30: on a network of at most 64 nodes with sane quorum sets, rebuilding the tracker
    and checking its map always answers, and the answer is whether any two quorums of
    the nodes that the local node depends on intersect; the search for critical groups
    on the same map completes too. *)
Theorem tracked_network_verdict local lookup universe fuel rand :
  local ∈ universe → (∀ n m, n ∈ universe → edge lookup n m → m ∈ universe) →
  (length universe ≤ 64)%nat → (enough lookup universe ≤ fuel)%nat →
  (∀ n p, lookup n = Some p → isQuorumSetSane (pointee p) false = true) →
  ∃ Q b s critical, rebuild local lookup fuel = Ok Q ∧
    networkEnjoysQuorumIntersection rand (quorumMapOf Q) = Ok (b, s) ∧
    (b = true ↔ ∀ A B, transitiveQuorum local lookup A → transitiveQuorum local lookup B → ∃ n, n ∈ A ∧ n ∈ B) ∧
    getIntersectionCriticalGroups rand (quorumMapOf Q) = Ok critical.
Proof.
  intros Hl Hc Hs Hf Hsane. destruct (rebuild_ok local lookup universe fuel Hl Hc Hf) as (Q & E & _ & Hdom & Hq).
  pose proof (tracked_map local lookup universe Hl Hc Hs Hsane Q Hdom Hq) as Ht.
  destruct (checker_ok _ (trackedMap_ok _ Ht) rand) as (b & s & Eb & Hb).
  destruct (criticalGroups_total rand _ Ht) as [r Er]. exists Q, b, s, r. split_and!; [done|done| |done].
  pose proof (tracked_quorum local lookup Q Hdom Hq) as Hquorum. unfold intersects in Hb.
  setoid_rewrite <- Hquorum. destruct b; [by split; [intros _; apply Hb|]|]. split; [done|]. intros Hi.
  destruct Hb as (HA & HB & Hd). destruct (Hi _ _ HA HB) as (n & H1 & H2). by destruct (Hd n).
Qed.

(** Node 1 relies on node 2, which relies on node 3. *)
Definition chainLookup (n : NodeID) : option SCPQuorumSetPtr :=
  if n =? 1 then Some {| address := 100; pointee := QSet 2 [1; 2] [] |}
  else if n =? 2 then Some {| address := 200; pointee := QSet 2 [2; 3] [] |}
  else if n =? 3 then Some {| address := 300; pointee := QSet 1 [3] [] |}
  else None.

Lemma tracked_network_verdict_witness : ∃ Q, rebuild 1 chainLookup 7 = Ok Q ∧
  ∀ A B, transitiveQuorum 1 chainLookup A → transitiveQuorum 1 chainLookup B → ∃ n, n ∈ A ∧ n ∈ B.
Proof.
  destruct (tracked_network_verdict 1 chainLookup [1; 2; 3] 7 (λ _ _ _, 0)) as (Q & b & s & r & E & Eb & H & _).
  { by left. }
  { intros n m _ (p & Hp & Hm). unfold chainLookup in Hp. repeat case_match; simplify_eq/=; set_solver. }
  { simpl. lia. }
  { vm_compute. lia. }
  { intros n p Hp. unfold chainLookup in Hp. repeat case_match; simplify_eq/=; reflexivity. }
  exists Q. split; [exact E|]. apply H.
  assert (match rebuild 1 chainLookup 7 with
    | Ok Q => match networkEnjoysQuorumIntersection (λ _ _ _, 0) (quorumMapOf Q) with Ok (b, _) => b | Fail _ => false end
    | Fail _ => false end = true) as Hc by (vm_compute; reflexivity).
  rewrite E in Hc. rewrite Eb in Hc. exact Hc.
Defined.
