(* ===== verification/Buckets.v ===== *)
(** * Buckets (src/bucket/Bucket.cpp, LedgerCmp.h, BucketInputIterator.cpp,
      BucketOutputIterator.cpp, BucketApplicator.cpp)

    A bucket is the sequence of records of its file; the empty bucket has no
    file.  Here are the order of the entries, the two iterators, the creation
    of a fresh bucket, the merge of two buckets under shadows, and the
    application of a bucket to the database.  The merge counters are not
    kept. *)

From stdpp Require Import prelude list gmap.
From Stdlib Require Import ZArith Lia.
From S2P Require Import Prelude Numeric Exchange LedgerEntries.
Local Open Scope Z_scope.

(** ** Entries and their order *)

Inductive BucketEntry : Type :=
| LIVEENTRY (liveEntry : LedgerEntry)
| INITENTRY (liveEntry : LedgerEntry)
| DEADENTRY (deadEntry : LedgerKey)
| METAENTRY (ledgerVersion : Z).

Notation Bucket := (list BucketEntry) (only parsing).

Inductive BucketError : Type :=
| UnsupportedEntryType
| MultipleMeta
| MetaAfterOther
| MetaAfterInitial
| EntriesOutOfOrder
| DuplicateKeys
| VersionExceedsMax
| ShadowsNotSupported
| OldNonDeadNewInit
| OldInitNewNonDead
| BucketManagerShutdown
| UnexpectedMeta
| BucketNullDeref
| BucketAssert
| FutureShadowsNotSupported
| UnexpectedFutureState
| ClearFutureWithOldSnap
| MissingBucketFiles
| InvariantDoesNotHold
| BucketOutOfFuel.

Notation BE := (outcome BucketError).

Definition FIRST_PROTOCOL_SUPPORTING_INITENTRY_AND_METAENTRY : Z := 11.
Definition FIRST_PROTOCOL_SHADOWS_REMOVED : Z := 12.

(** [operator<] of the XDR types: unions by their discriminant, structures by
    their fields in order, opaque values and strings lexicographically. *)
Definition bytesLt (a b : list Z) : bool := intLexicographicalCompare Zcmp a b <? 0.

Definition lexCompare {A B} (ltA : A → A → bool) (ltB : B → B → bool) (lhs1 rhs1 : A) (lhs2 rhs2 : B) : bool :=
  if ltA lhs1 rhs1 then true else if ltA rhs1 lhs1 then false else ltB lhs2 rhs2.

Definition assetType (a : Asset) : Z :=
  match a with
  | ASSET_TYPE_NATIVE => 0
  | ASSET_TYPE_CREDIT_ALPHANUM4 _ _ => 1
  | ASSET_TYPE_CREDIT_ALPHANUM12 _ _ => 2
  end.

Definition assetLt (a b : Asset) : bool :=
  if assetType a <? assetType b then true
  else if assetType b <? assetType a then false
  else
    match a, b with
    | ASSET_TYPE_CREDIT_ALPHANUM4 c i, ASSET_TYPE_CREDIT_ALPHANUM4 c' i'
    | ASSET_TYPE_CREDIT_ALPHANUM12 c i, ASSET_TYPE_CREDIT_ALPHANUM12 c' i' =>
        lexCompare bytesLt Z.ltb c c' i i'
    | _, _ => false
    end.

Definition keyType (k : LedgerKey) : Z :=
  match k with
  | KEY_ACCOUNT _ => 0
  | KEY_TRUSTLINE _ _ => 1
  | KEY_OFFER _ _ => 2
  | KEY_DATA _ _ => 3
  | KEY_CLAIMABLE_BALANCE _ => 4
  end.

(** The comparison reads the identifying fields of an entry or a key, which
    are those of the key. *)
Definition LedgerEntryIdCmp (a b : LedgerKey) : bool :=
  if keyType a <? keyType b then true
  else if keyType b <? keyType a then false
  else
    match a, b with
    | KEY_ACCOUNT x, KEY_ACCOUNT y => x <? y
    | KEY_TRUSTLINE x t, KEY_TRUSTLINE y u => lexCompare Z.ltb assetLt x y t u
    | KEY_OFFER x i, KEY_OFFER y j => lexCompare Z.ltb Z.ltb x y i j
    | KEY_DATA x n, KEY_DATA y m => lexCompare Z.ltb bytesLt x y n m
    | KEY_CLAIMABLE_BALANCE x, KEY_CLAIMABLE_BALANCE y => x <? y
    | _, _ => false
    end.

Definition entryType (e : BucketEntry) : Z :=
  match e with METAENTRY _ => -1 | LIVEENTRY _ => 0 | DEADENTRY _ => 1 | INITENTRY _ => 2 end.

Definition isMeta (e : BucketEntry) : bool := match e with METAENTRY _ => true | _ => false end.
Definition isInit (e : BucketEntry) : bool := match e with INITENTRY _ => true | _ => false end.
Definition isDead (e : BucketEntry) : bool := match e with DEADENTRY _ => true | _ => false end.

Definition BucketEntryIdCmp (a b : BucketEntry) : bool :=
  match a, b with
  | METAENTRY _, _ | _, METAENTRY _ => entryType a <? entryType b
  | LIVEENTRY x, LIVEENTRY y | LIVEENTRY x, INITENTRY y
  | INITENTRY x, LIVEENTRY y | INITENTRY x, INITENTRY y =>
      LedgerEntryIdCmp (LedgerEntryKey x) (LedgerEntryKey y)
  | LIVEENTRY x, DEADENTRY k | INITENTRY x, DEADENTRY k => LedgerEntryIdCmp (LedgerEntryKey x) k
  | DEADENTRY k, LIVEENTRY y | DEADENTRY k, INITENTRY y => LedgerEntryIdCmp k (LedgerEntryKey y)
  | DEADENTRY k, DEADENTRY l => LedgerEntryIdCmp k l
  end.

Definition checkProtocolLegality (entry : BucketEntry) (protocolVersion : Z) : BE unit :=
  if (protocolVersion <? FIRST_PROTOCOL_SUPPORTING_INITENTRY_AND_METAENTRY) && (isInit entry || isMeta entry)
  then Fail UnsupportedEntryType else Ok tt.

(** ** Reading: [BucketInputIterator] *)

Record BucketInputIterator : Type := {
  mIn : list BucketEntry; (* the records not read yet *)
  mEntryPtr : option BucketEntry;
  mMetadata : Z;
  mSeenMetadata : bool;
  mSeenOtherEntries : bool
}.

Fixpoint loadEntry (mIn : list BucketEntry) (mMetadata : Z) (mSeenMetadata mSeenOtherEntries : bool)
  : BE BucketInputIterator :=
  match mIn with
  | METAENTRY v :: mIn =>
      if mSeenMetadata then Fail MultipleMeta
      else if mSeenOtherEntries then Fail MetaAfterOther
      else loadEntry mIn v true mSeenOtherEntries
  | e :: mIn =>
      let? _ := (if mSeenMetadata then checkProtocolLegality e mMetadata else Ok tt) in
      Ok {| mIn := mIn; mEntryPtr := Some e; mMetadata := mMetadata;
            mSeenMetadata := mSeenMetadata; mSeenOtherEntries := true |}
  | [] =>
      Ok {| mIn := []; mEntryPtr := None; mMetadata := mMetadata;
            mSeenMetadata := mSeenMetadata; mSeenOtherEntries := mSeenOtherEntries |}
  end.

(** The constructor; without metadata a bucket counts as one of protocol 0. *)
Definition openBucket (b : Bucket) : BE BucketInputIterator := loadEntry b 0 false false.

(** [operator++] *)
Definition nextEntry (it : BucketInputIterator) : BE BucketInputIterator :=
  loadEntry (mIn it) (mMetadata it) (mSeenMetadata it) (mSeenOtherEntries it).

Definition getBucketVersion (b : Bucket) : BE Z :=
  let? it := openBucket b in Ok (mMetadata it).

Fixpoint containsLoop (fuel : nat) (id : BucketEntry) (iter : BucketInputIterator) : BE bool :=
  match mEntryPtr iter with
  | None => Ok false
  | Some e =>
      if negb (BucketEntryIdCmp e id || BucketEntryIdCmp id e) then Ok true
      else match fuel with
           | O => Fail BucketOutOfFuel
           | S fuel => let? iter := nextEntry iter in containsLoop fuel id iter
           end
  end.

Definition containsBucketIdentity (b : Bucket) (id : BucketEntry) : BE bool :=
  let? iter := openBucket b in containsLoop (length b) id iter.

(** ** Writing: [BucketOutputIterator] *)

Record BucketOutputIterator : Type := {
  mOut : list BucketEntry; (* the records written *)
  mBuf : option BucketEntry;
  mKeepDeadEntries : bool;
  mMeta : Z;
  mPutMeta : bool
}.

Definition put (e : BucketEntry) (o : BucketOutputIterator) : BE BucketOutputIterator :=
  let? _ := checkProtocolLegality e (mMeta o) in
  if isMeta e && mPutMeta o then Fail MetaAfterInitial
  else if negb (mKeepDeadEntries o) && isDead e then Ok o
  else
    let? out := (match mBuf o with
                 | Some buf =>
                     if BucketEntryIdCmp e buf then Fail EntriesOutOfOrder
                     else if BucketEntryIdCmp buf e then Ok (mOut o ++ [buf]) else Ok (mOut o)
                 | None => Ok (mOut o)
                 end) in
    Ok {| mOut := out; mBuf := Some e; mKeepDeadEntries := mKeepDeadEntries o;
          mMeta := mMeta o; mPutMeta := mPutMeta o |}.

(** The constructor *)
Definition openOutput (keepDeadEntries : bool) (ledgerVersion : Z) : BE BucketOutputIterator :=
  let o := {| mOut := []; mBuf := None; mKeepDeadEntries := keepDeadEntries;
              mMeta := ledgerVersion; mPutMeta := false |} in
  if FIRST_PROTOCOL_SUPPORTING_INITENTRY_AND_METAENTRY <=? ledgerVersion then
    let? o := put (METAENTRY ledgerVersion) o in
    Ok {| mOut := mOut o; mBuf := mBuf o; mKeepDeadEntries := mKeepDeadEntries o;
          mMeta := mMeta o; mPutMeta := true |}
  else Ok o.

Definition getBucket (o : BucketOutputIterator) : Bucket :=
  match mBuf o with Some buf => mOut o ++ [buf] | None => mOut o end.

(** ** Fresh buckets *)

(** [std::sort] with [BucketEntryIdCmp] *)
Definition idCmp (a b : BucketEntry) : Z :=
  if BucketEntryIdCmp a b then -1 else if BucketEntryIdCmp b a then 1 else 0.

Fixpoint allIncreasing (l : list BucketEntry) : bool :=
  match l with
  | lhs :: ((rhs :: _) as l') => BucketEntryIdCmp lhs rhs && allIncreasing l'
  | _ => true
  end.

Definition convertToBucketEntry (useInit : bool) (initEntries liveEntries : list LedgerEntry)
  (deadEntries : list LedgerKey) : BE (list BucketEntry) :=
  let bucket := ((if useInit then INITENTRY else LIVEENTRY) <$> initEntries)
                ++ (LIVEENTRY <$> liveEntries) ++ (DEADENTRY <$> deadEntries) in
  let bucket := std_sort idCmp bucket in
  if allIncreasing bucket then Ok bucket else Fail DuplicateKeys.

Fixpoint putAll (entries : list BucketEntry) (o : BucketOutputIterator) : BE BucketOutputIterator :=
  match entries with
  | [] => Ok o
  | e :: entries => let? o := put e o in putAll entries o
  end.

Definition fresh (protocolVersion : Z) (initEntries liveEntries : list LedgerEntry)
  (deadEntries : list LedgerKey) : BE Bucket :=
  let useInit := FIRST_PROTOCOL_SUPPORTING_INITENTRY_AND_METAENTRY <=? protocolVersion in
  let? entries := convertToBucketEntry useInit initEntries liveEntries deadEntries in
  let? out := openOutput true protocolVersion in
  let? out := putAll entries out in
  Ok (getBucket out).

(** ** Merging *)

(** The inner loop of [maybePut]: step a shadow forward while it is less than
    the entry. *)
Fixpoint advanceShadow (fuel : nat) (entry : BucketEntry) (si : BucketInputIterator)
  : BE BucketInputIterator :=
  match mEntryPtr si with
  | None => Ok si
  | Some s =>
      if BucketEntryIdCmp s entry then
        match fuel with
        | O => Fail BucketOutOfFuel
        | S fuel => let? si := nextEntry si in advanceShadow fuel entry si
        end
      else Ok si
  end.

(** The loop over the shadows: is the entry shadowed? *)
Fixpoint scanShadows (entry : BucketEntry) (shadowIterators : list BucketInputIterator)
  : BE (bool * list BucketInputIterator) :=
  match shadowIterators with
  | [] => Ok (false, [])
  | si :: rest =>
      let? si := advanceShadow (S (length (mIn si))) entry si in
      if match mEntryPtr si with Some s => negb (BucketEntryIdCmp entry s) | None => false end
      then Ok (true, si :: rest)
      else let? r := scanShadows entry rest in Ok (r.1, si :: r.2)
  end.

Definition maybePut (entry : BucketEntry) (keepShadowedLifecycleEntries : bool)
  (out : BucketOutputIterator) (shadowIterators : list BucketInputIterator)
  : BE (BucketOutputIterator * list BucketInputIterator) :=
  if keepShadowedLifecycleEntries && (isInit entry || isDead entry) then
    let? out := put entry out in Ok (out, shadowIterators)
  else
    let? r := scanShadows entry shadowIterators in
    if r.1 then Ok (out, r.2)
    else let? out := put entry out in Ok (out, r.2).

Definition calculateMergeProtocolVersion (maxProtocolVersion : Z) (oi ni : BucketInputIterator)
  (shadowIterators : list BucketInputIterator) : BE (Z * bool) :=
  let protocolVersion := Z.max (mMetadata oi) (mMetadata ni) in
  let protocolVersion :=
    foldl (λ v si, let version := mMetadata si in
                   if version <? FIRST_PROTOCOL_SHADOWS_REMOVED then Z.max version v else v)
      protocolVersion shadowIterators in
  if maxProtocolVersion <? protocolVersion then Fail VersionExceedsMax
  else
    let keepShadowedLifecycleEntries :=
      negb (protocolVersion <? FIRST_PROTOCOL_SUPPORTING_INITENTRY_AND_METAENTRY) in
    if protocolVersion <? FIRST_PROTOCOL_SHADOWS_REMOVED
    then Ok (protocolVersion, keepShadowedLifecycleEntries)
    else match shadowIterators with
         | [] => Ok (protocolVersion, keepShadowedLifecycleEntries)
         | _ => Fail ShadowsNotSupported
         end.

(** What the loop of [merge] changes *)
Record MergeState : Type := {
  oi : BucketInputIterator;
  ni : BucketInputIterator;
  out : BucketOutputIterator;
  shadowIterators : list BucketInputIterator
}.

Definition deref (it : BucketInputIterator) : BE BucketEntry :=
  match mEntryPtr it with Some e => Ok e | None => Fail BucketNullDeref end.

Definition valid (it : BucketInputIterator) : bool := bool_decide (is_Some (mEntryPtr it)).

(** [cmp( *a, *b )] of two iterators that point to entries *)
Definition itersLt (a b : BucketInputIterator) : bool :=
  match mEntryPtr a, mEntryPtr b with
  | Some x, Some y => BucketEntryIdCmp x y
  | _, _ => false
  end.

Definition mergeCasesWithDefaultAcceptance (protocolVersion : Z) (keepShadowedLifecycleEntries : bool)
  (st : MergeState) : BE (bool * MergeState) :=
  if negb (valid (ni st)) || (valid (oi st) && valid (ni st) && itersLt (oi st) (ni st)) then
    let? e := deref (oi st) in
    let? _ := checkProtocolLegality e protocolVersion in
    let? r := maybePut e keepShadowedLifecycleEntries (out st) (shadowIterators st) in
    let? oi := nextEntry (oi st) in
    Ok (true, {| oi := oi; ni := ni st; out := r.1; shadowIterators := r.2 |})
  else if negb (valid (oi st)) || (valid (oi st) && valid (ni st) && itersLt (ni st) (oi st)) then
    let? e := deref (ni st) in
    let? _ := checkProtocolLegality e protocolVersion in
    let? r := maybePut e keepShadowedLifecycleEntries (out st) (shadowIterators st) in
    let? ni := nextEntry (ni st) in
    Ok (true, {| oi := oi st; ni := ni; out := r.1; shadowIterators := r.2 |})
  else Ok (false, st).

(** The entry to put for two entries with the same key; [None] when they
    annihilate. *)
Definition mergedEntry (oldEntry newEntry : BucketEntry) : BE (option BucketEntry) :=
  match newEntry with
  | INITENTRY x => if isDead oldEntry then Ok (Some (LIVEENTRY x)) else Fail OldNonDeadNewInit
  | _ =>
      if isInit oldEntry then
        match newEntry with
        | LIVEENTRY y => Ok (Some (INITENTRY y))
        | DEADENTRY _ => Ok None
        | _ => Fail OldInitNewNonDead
        end
      else Ok (Some newEntry)
  end.

Definition mergeCasesWithEqualKeys (protocolVersion : Z) (keepShadowedLifecycleEntries : bool)
  (st : MergeState) : BE MergeState :=
  let? oldEntry := deref (oi st) in
  let? newEntry := deref (ni st) in
  let? _ := checkProtocolLegality oldEntry protocolVersion in
  let? _ := checkProtocolLegality newEntry protocolVersion in
  let? m := mergedEntry oldEntry newEntry in
  let? r := (match m with
             | Some e => maybePut e keepShadowedLifecycleEntries (out st) (shadowIterators st)
             | None => Ok (out st, shadowIterators st)
             end) in
  let? oi := nextEntry (oi st) in
  let? ni := nextEntry (ni st) in
  Ok {| oi := oi; ni := ni; out := r.1; shadowIterators := r.2 |}.

(** The loop of [merge].  The bucket manager is asked every thousand entries
    whether it is shut down; [isShutdown] answers by the steps that are left. *)
Fixpoint mergeLoop (isShutdown : nat → bool) (protocolVersion : Z) (keepShadowedLifecycleEntries : bool)
  (fuel : nat) (iter : Z) (st : MergeState) : BE MergeState :=
  if negb (valid (oi st) || valid (ni st)) then Ok st
  else
    match fuel with
    | O => Fail BucketOutOfFuel
    | S fuel =>
        let iter := iter + 1 in
        if (1000 <=? iter) && isShutdown fuel then Fail BucketManagerShutdown
        else
          let iter := if 1000 <=? iter then 0 else iter in
          let? r := mergeCasesWithDefaultAcceptance protocolVersion keepShadowedLifecycleEntries st in
          let? st := (if r.1 then Ok r.2
                      else mergeCasesWithEqualKeys protocolVersion keepShadowedLifecycleEntries r.2) in
          mergeLoop isShutdown protocolVersion keepShadowedLifecycleEntries fuel iter st
    end.

Fixpoint openAll (bs : list Bucket) : BE (list BucketInputIterator) :=
  match bs with
  | [] => Ok []
  | b :: bs => let? it := openBucket b in let? its := openAll bs in Ok (it :: its)
  end.

Definition merge (isShutdown : nat → bool) (maxProtocolVersion : Z) (oldBucket newBucket : Bucket)
  (shadows : list Bucket) (keepDeadEntries : bool) : BE Bucket :=
  let? oi := openBucket oldBucket in
  let? ni := openBucket newBucket in
  let? shadowIterators := openAll shadows in
  let? v := calculateMergeProtocolVersion maxProtocolVersion oi ni shadowIterators in
  let? out := openOutput keepDeadEntries v.1 in
  let? st := mergeLoop isShutdown v.1 v.2 (length oldBucket + length newBucket) 0
               {| oi := oi; ni := ni; out := out; shadowIterators := shadowIterators |} in
  Ok (getBucket (Buckets.out st)).

(** ** Applying a bucket to the database: [BucketApplicator] *)

Definition LEDGER_ENTRY_BATCH_COMMIT_SIZE : Z := 4095.

Notation LedgerMap := (gmap LedgerKey LedgerEntry).

Definition applyEntry (e : BucketEntry) (ltx : LedgerMap) : BE LedgerMap :=
  match e with
  | LIVEENTRY x | INITENTRY x => Ok (<[LedgerEntryKey x := x]> ltx)
  | DEADENTRY k => Ok (delete k ltx)
  | METAENTRY _ => Fail UnexpectedMeta
  end.

(** [advance]: one batch.  Leaving the loop by [break] does not step the
    iterator: the last entry of a batch is the first of the next one. *)
Fixpoint advanceBatch (mMaxProtocolVersion : Z) (fuel : nat) (count : Z) (iter : BucketInputIterator)
  (ltx : LedgerMap) : BE (BucketInputIterator * LedgerMap) :=
  match mEntryPtr iter with
  | None => Ok (iter, ltx)
  | Some e =>
      let? _ := checkProtocolLegality e mMaxProtocolVersion in
      let? ltx := applyEntry e ltx in
      let count := count + 1 in
      if LEDGER_ENTRY_BATCH_COMMIT_SIZE <? count then Ok (iter, ltx)
      else match fuel with
           | O => Fail BucketOutOfFuel
           | S fuel =>
               let? iter := nextEntry iter in
               advanceBatch mMaxProtocolVersion fuel count iter ltx
           end
  end.

(** The applicator is advanced until its iterator is exhausted. *)
Fixpoint applyBatches (mMaxProtocolVersion : Z) (fuel : nat) (iter : BucketInputIterator) (root : LedgerMap)
  : BE LedgerMap :=
  match mEntryPtr iter with
  | None => Ok root
  | Some _ =>
      match fuel with
      | O => Fail BucketOutOfFuel
      | S fuel =>
          let? r := advanceBatch mMaxProtocolVersion (length (mIn iter) + 1) 0 iter root in
          applyBatches mMaxProtocolVersion fuel r.1 r.2
      end
  end.

Definition applyBucket (maxProtocolVersion : Z) (b : Bucket) (root : LedgerMap) : BE LedgerMap :=
  let? iter := openBucket b in
  if maxProtocolVersion <? mMetadata iter then Fail VersionExceedsMax
  else applyBatches maxProtocolVersion (S (length b)) iter root.
