(* ===== verification/BucketMerge.v ===== *)
(** * What a merge of buckets computes

    A well-formed bucket is a strictly sorted sequence of entries behind its
    metadata.  The merge of two well-formed buckets is total when the life cycles
    of the keys fit together, its result is well-formed, and for each key it
    holds the combination of what the inputs hold, unless a shadow or the lowest
    level elides it. *)

From stdpp Require Import prelude list gmap sorting.
From Stdlib Require Import ZArith Lia.
From S2P Require Import Prelude Numeric Exchange LedgerEntries Buckets.
Local Open Scope Z_scope.

(** ** The order of the keys *)

Lemma cmp_preimage {A B} (f : A → B) (cmp : B → B → Z) :
  (∀ x y, f x = f y → x = y) → CmpOk cmp → CmpOk (λ x y, cmp (f x) (f y)).
Proof.
  intros Hf Hc. split.
  - intros x y. rewrite (cmp_eq cmp). split; [apply Hf|by intros ->].
  - intros x y. apply (cmp_opp cmp).
  - intros x y z. apply (cmp_lt_trans cmp).
Qed.

Definition assetCode (a : Asset) : list Z * Z :=
  match a with
  | ASSET_TYPE_NATIVE => ([], 0)
  | ASSET_TYPE_CREDIT_ALPHANUM4 c i | ASSET_TYPE_CREDIT_ALPHANUM12 c i => (c, i)
  end.

(** A key as a tuple compared lexicographically *)
Definition keyTuple (k : LedgerKey) : Z * (Z * (Z * (list Z * Z))) :=
  (keyType k,
   match k with
   | KEY_ACCOUNT a | KEY_CLAIMABLE_BALANCE a => (a, (0, ([], 0)))
   | KEY_TRUSTLINE a t => (a, (assetType t, assetCode t))
   | KEY_OFFER s i => (s, (i, ([], 0)))
   | KEY_DATA a n => (a, (0, (n, 0)))
   end).

Notation tupleCmp :=
  (pairCmp Zcmp (pairCmp Zcmp (pairCmp Zcmp (pairCmp (intLexicographicalCompare Zcmp) Zcmp)))).

Definition keyCmp (a b : LedgerKey) : Z := tupleCmp (keyTuple a) (keyTuple b).

Lemma keyTuple_inj a b : keyTuple a = keyTuple b → a = b.
Proof.
  unfold keyTuple. intros H. injection H as Ht H. destruct a, b; try discriminate Ht; injection H; intros; subst; try done.
  by destruct asset, asset0; simplify_eq/=.
Qed.

#[export] Instance keyCmp_ok : CmpOk keyCmp.
Proof. apply (cmp_preimage keyTuple tupleCmp keyTuple_inj _). Qed.

Lemma Zcmp_ltb x y : (Zcmp x y <? 0) = (x <? y).
Proof. unfold Zcmp. destruct (Z.ltb_spec x y); [done|]. by destruct (Z.ltb_spec y x). Qed.

Lemma lexCompare_spec {A B C} (ca : A → A → Z) (cb : C → C → Z) (f : B → C) ltA ltB (a a' : A) (b b' : B) :
  CmpOk ca → (∀ x y, ltA x y = (ca x y <? 0)) → (∀ x y, ltB x y = (cb (f x) (f y) <? 0)) →
  lexCompare ltA ltB a a' b b' = (pairCmp ca cb (a, f b) (a', f b') <? 0).
Proof.
  intros Ha HA HB. unfold lexCompare, pairCmp. rewrite !HA, HB, (cmp_opp ca a a'). simpl.
  destruct (Z.ltb_spec (ca a a') 0), (Z.ltb_spec (- ca a a') 0), (Z.eqb_spec (ca a a') 0); try lia; try done; zcases; lia.
Qed.

Lemma pairCmp_type {B} (cb : B → B → Z) (t t' : Z) (b b' : B) (X : bool) :
  (t = t' → X = (cb b b' <? 0)) →
  (if t <? t' then true else if t' <? t then false else X) = (pairCmp Zcmp cb (t, b) (t', b') <? 0).
Proof.
  intros H. unfold pairCmp, Zcmp. simpl. destruct (Z.ltb_spec t t'), (Z.ltb_spec t' t); try lia; try done.
  simpl. apply H. lia.
Qed.

Lemma assetLt_spec a b :
  assetLt a b = (pairCmp Zcmp (pairCmp (intLexicographicalCompare Zcmp) Zcmp)
                   (assetType a, assetCode a) (assetType b, assetCode b) <? 0).
Proof.
  apply pairCmp_type. intros E. destruct a, b; try discriminate E; [done|..];
    apply (lexCompare_spec (intLexicographicalCompare Zcmp) Zcmp id); try apply _; intros; by rewrite ?Zcmp_ltb.
Qed.

Lemma single_lt x y (r : Z * (list Z * Z)) : (x <? y) = (pairCmp Zcmp (pairCmp Zcmp (pairCmp (intLexicographicalCompare Zcmp) Zcmp)) (x, r) (y, r) <? 0).
Proof.
  unfold pairCmp at 1. simpl. destruct (Z.eqb_spec (Zcmp x y) 0) as [->%(cmp_eq Zcmp)|]; [|by rewrite Zcmp_ltb].
  rewrite (cmp_refl _). apply Z.ltb_irrefl.
Qed.

Lemma LedgerEntryIdCmp_spec a b : LedgerEntryIdCmp a b = (keyCmp a b <? 0).
Proof.
  apply pairCmp_type. intros E. destruct a, b; try discriminate E; [apply single_lt|..|apply single_lt].
  - apply (lexCompare_spec Zcmp _ (λ t, (assetType t, assetCode t))); [apply _|intros; by rewrite Zcmp_ltb|].
    intros. apply assetLt_spec.
  - apply (lexCompare_spec Zcmp _ (λ i, (i, ([], 0)))); [apply _|intros; by rewrite Zcmp_ltb|].
    intros x y. unfold pairCmp. simpl.
    destruct (Z.eqb_spec (Zcmp x y) 0) as [->%(cmp_eq Zcmp)|]; [apply Z.ltb_irrefl|by rewrite Zcmp_ltb].
  - apply (lexCompare_spec Zcmp _ (λ n, (0, (n, 0)))); [apply _|intros; by rewrite Zcmp_ltb|].
    intros x y. unfold pairCmp, bytesLt. simpl.
    by destruct (Z.eqb_spec (intLexicographicalCompare Zcmp x y) 0) as [->|].
Qed.

(** ** Well-formed buckets *)

(** The key of an entry; the metadata has none. *)
Definition keyOf (e : BucketEntry) : LedgerKey :=
  match e with
  | LIVEENTRY x | INITENTRY x => LedgerEntryKey x
  | DEADENTRY k => k
  | METAENTRY _ => KEY_ACCOUNT 0
  end.

Notation plain e := (isMeta e = false).

Lemma BucketEntryIdCmp_spec a b :
  plain a → plain b → BucketEntryIdCmp a b = (keyCmp (keyOf a) (keyOf b) <? 0).
Proof. intros Ha Hb. destruct a, b; try discriminate; apply LedgerEntryIdCmp_spec. Qed.

Lemma meta_first v e : plain e → BucketEntryIdCmp (METAENTRY v) e = true ∧ BucketEntryIdCmp e (METAENTRY v) = false.
Proof. by destruct e. Qed.

Definition keyLt (a b : BucketEntry) : Prop := keyCmp (keyOf a) (keyOf b) < 0.

(** What a bucket, or a part of it, holds for a key *)
Fixpoint getEntry (k : LedgerKey) (l : list BucketEntry) : option BucketEntry :=
  match l with
  | [] => None
  | e :: l => if negb (isMeta e) && bool_decide (keyOf e = k) then Some e else getEntry k l
  end.

Record bodyOk (v : Z) (l : list BucketEntry) : Prop := {
  body_sorted : StronglySorted keyLt l;
  body_plain : Forall (λ e, plain e) l;
  body_legal : v < FIRST_PROTOCOL_SUPPORTING_INITENTRY_AND_METAENTRY → Forall (λ e, isInit e = false) l
}.

(** The bucket with the entries [l], written at version [v] *)
Definition bucketOf (v : Z) (l : list BucketEntry) : list BucketEntry :=
  if FIRST_PROTOCOL_SUPPORTING_INITENTRY_AND_METAENTRY <=? v then METAENTRY v :: l else l.

(** A bucket without metadata counts as one of version 0. *)
Definition versionOk (v : Z) : Prop := v = 0 ∨ FIRST_PROTOCOL_SUPPORTING_INITENTRY_AND_METAENTRY ≤ v.

Lemma getEntry_key k l e : getEntry k l = Some e → e ∈ l ∧ plain e ∧ keyOf e = k.
Proof.
  induction l as [|x l IH]; simpl; [done|]. destruct (isMeta x) eqn:Em; simpl.
  { intros H. destruct (IH H). split; [by right|done]. }
  case_bool_decide as Hk; [|intros H; destruct (IH H); by split; [right|]]. intros [= <-]. split; [left|done].
Qed.

Lemma getEntry_None k l : (∀ e, e ∈ l → plain e → keyOf e ≠ k) → getEntry k l = None.
Proof.
  intros H. destruct (getEntry k l) as [e|] eqn:E; [|done]. apply getEntry_key in E as (H1 & H2 & H3). by destruct (H e H1 H2).
Qed.

Lemma getEntry_app k l l' : getEntry k (l ++ l') = match getEntry k l with Some e => Some e | None => getEntry k l' end.
Proof. induction l as [|e l IH]; simpl; [done|]. by destruct (negb (isMeta e) && bool_decide (keyOf e = k)). Qed.

Lemma getEntry_elem k l e : StronglySorted keyLt l → e ∈ l → plain e → keyOf e = k → getEntry k l = Some e.
Proof.
  induction 1 as [|x l Hl IH Hx]; intros He Hp Hk; [by apply elem_of_nil in He|]. simpl.
  apply elem_of_cons in He as [->|He].
  { rewrite Hp. simpl. by rewrite bool_decide_true. }
  rewrite Forall_forall in Hx. specialize (Hx e He). unfold keyLt in Hx. rewrite Hk in Hx.
  rewrite (bool_decide_false (keyOf x = k)), andb_false_r; [by apply IH|].
  intros E. rewrite E, (cmp_refl keyCmp) in Hx. lia.
Qed.

(** The entries of the keys determine a sorted body. *)
Lemma sorted_ext l l' :
  StronglySorted keyLt l → StronglySorted keyLt l' → Forall (λ e, plain e) l → Forall (λ e, plain e) l' →
  (∀ k, getEntry k l = getEntry k l') → l = l'.
Proof.
  intros Hl. revert l'. induction Hl as [|e l Hl IH He]; intros l' Hl' Hp Hp' H.
  - destruct l' as [|f l']; [done|]. specialize (H (keyOf f)). inversion Hp'; subst. simpl in H.
    rewrite H2, bool_decide_true in H by done. done.
  - destruct Hl' as [|f l' Hl' Hf]; inversion Hp as [|? ? Hpe Hpl]; subst.
    { specialize (H (keyOf e)). simpl in H. rewrite Hpe, bool_decide_true in H by done. done. }
    inversion Hp' as [|? ? Hpf Hpl']; subst. rewrite Forall_forall in He, Hf.
    assert (∀ x m, (∀ y, y ∈ m → keyLt x y) → ∀ y, y ∈ x :: m → keyCmp (keyOf x) (keyOf y) ≤ 0) as Hmin.
    { intros x m Hx y [->|Hy]%elem_of_cons; [by rewrite (cmp_refl keyCmp)|]. specialize (Hx y Hy). unfold keyLt in Hx. lia. }
    assert (∀ x m m', plain x → getEntry (keyOf x) (x :: m) = getEntry (keyOf x) m' → x ∈ m') as Hin.
    { intros x m m' Hx E. simpl in E. rewrite Hx, bool_decide_true in E by done. symmetry in E. by apply getEntry_key in E as (? & _ & _). }
    assert (e = f) as ->.
    { pose proof (Hin e l (f :: l') Hpe (H (keyOf e))) as H1. pose proof (Hin f l' (e :: l) Hpf (eq_sym (H (keyOf f)))) as H2.
      assert (keyOf e = keyOf f) as Ek by (apply (cmp_le_antisym keyCmp); [by apply (Hmin e l He)|by apply (Hmin f l' Hf)]).
      specialize (H (keyOf e)). simpl in H. rewrite Hpe, Hpf, !bool_decide_true in H by done. simpl in H. congruence. }
    f_equal. apply IH; try done. intros k. specialize (H k). simpl in H. rewrite Hpf in H. simpl in H. case_bool_decide as Hk; [|done].
    rewrite !getEntry_None; [done|..]; intros x Hx _ Ex; [specialize (Hf x Hx)|specialize (He x Hx)]; unfold keyLt in *;
      rewrite Hk, Ex, (cmp_refl keyCmp) in *; lia.
Qed.

Lemma getEntry_bucketOf k v l : getEntry k (bucketOf v l) = getEntry k l.
Proof. unfold bucketOf. by destruct (_ <=? v). Qed.

Lemma bodyOk_cons v e l : bodyOk v (e :: l) → bodyOk v l ∧ plain e ∧ Forall (keyLt e) l.
Proof.
  intros [Hs Hp Hi]. inversion Hs; subst. inversion Hp; subst. split_and!; try done. split; try done.
  intros Hv. specialize (Hi Hv). by inversion Hi.
Qed.

Lemma legal_entry v e l : bodyOk v (e :: l) → checkProtocolLegality e v = Ok tt.
Proof.
  intros [_ Hp Hi]. inversion Hp as [|? ? He _]; subst. unfold checkProtocolLegality. rewrite He, orb_false_r.
  destruct (Z.ltb_spec v FIRST_PROTOCOL_SUPPORTING_INITENTRY_AND_METAENTRY) as [H|]; [|done].
  specialize (Hi H). inversion Hi as [|? ? Hn]; subst. by rewrite Hn.
Qed.

Lemma legal_newer v w e : checkProtocolLegality e v = Ok tt → v ≤ w → checkProtocolLegality e w = Ok tt.
Proof.
  unfold checkProtocolLegality. intros H Hw.
  destruct (Z.ltb_spec w FIRST_PROTOCOL_SUPPORTING_INITENTRY_AND_METAENTRY); [|done].
  rewrite (proj2 (Z.ltb_lt v _)) in H by lia. done.
Qed.

(** ** Iterators over well-formed buckets *)

Record iterAt (v : Z) (l : list BucketEntry) (it : BucketInputIterator) : Prop := {
  at_entry : mEntryPtr it = head l;
  at_rest : mIn it = tail l;
  at_version : mMetadata it = v;
  at_seen : mSeenMetadata it = (FIRST_PROTOCOL_SUPPORTING_INITENTRY_AND_METAENTRY <=? v)
}.

Lemma load_body v l seenOther :
  bodyOk v l → ∃ it, loadEntry l v (FIRST_PROTOCOL_SUPPORTING_INITENTRY_AND_METAENTRY <=? v) seenOther = Ok it ∧ iterAt v l it.
Proof.
  intros H. destruct l as [|e l]; [by eexists|]. pose proof (legal_entry v e l H) as Hl.
  apply bodyOk_cons in H as (_ & He & _). cbn [loadEntry].
  destruct e; try discriminate; rewrite Hl; destruct (_ <=? v) eqn:Ev; cbn [obind]; eexists; split; try done; by rewrite <- Ev.
Qed.

Lemma open_body v l : versionOk v → bodyOk v l → ∃ it, openBucket (bucketOf v l) = Ok it ∧ iterAt v l it.
Proof.
  intros Hv Hl. pose proof (load_body v l false Hl) as H. unfold openBucket, bucketOf.
  destruct (Z.leb_spec FIRST_PROTOCOL_SUPPORTING_INITENTRY_AND_METAENTRY v) as [|Hlt]; [exact H|].
  destruct Hv as [->|]; [exact H|lia].
Qed.

Lemma next_body v e l it : iterAt v (e :: l) it → bodyOk v (e :: l) → ∃ it', nextEntry it = Ok it' ∧ iterAt v l it'.
Proof.
  intros [_ Hr Hv Hs] Hb. apply bodyOk_cons in Hb as (Hb & _). unfold nextEntry. rewrite Hr, Hv, Hs. by apply load_body.
Qed.

Lemma getBucketVersion_of v l : versionOk v → bodyOk v l → getBucketVersion (bucketOf v l) = Ok v.
Proof. intros Hv Hl. unfold getBucketVersion. destruct (open_body v l Hv Hl) as (it & -> & []). cbn. congruence. Qed.

Lemma valid_at v l it : iterAt v l it → valid it = match l with [] => false | _ => true end.
Proof. intros [He _ _ _]. unfold valid. rewrite He. by destruct l. Qed.

Lemma itersLt_at v w e f l l' a b :
  iterAt v (e :: l) a → iterAt w (f :: l') b → plain e → plain f →
  itersLt a b = (keyCmp (keyOf e) (keyOf f) <? 0).
Proof. intros [Ha _ _ _] [Hb _ _ _] He Hf. unfold itersLt. rewrite Ha, Hb. by apply BucketEntryIdCmp_spec. Qed.

(** ** Putting entries in order *)

(** The entry as it is written: tombstones are dropped at the lowest level. *)
Definition written (keepDead : bool) (e : BucketEntry) : option BucketEntry :=
  if negb keepDead && isDead e then None else Some e.

Definition after (o : BucketOutputIterator) (e : BucketEntry) : Prop :=
  Forall (λ x, BucketEntryIdCmp x e = true ∧ BucketEntryIdCmp e x = false) (getBucket o).

Lemma put_spec e o :
  plain e → checkProtocolLegality e (mMeta o) = Ok tt → after o e →
  ∃ o', put e o = Ok o' ∧ getBucket o' = getBucket o ++ option_list (written (mKeepDeadEntries o) e) ∧
    mKeepDeadEntries o' = mKeepDeadEntries o ∧ mMeta o' = mMeta o.
Proof.
  intros He Hl Ha. unfold put, written. rewrite Hl, He. cbn [obind andb].
  destruct (negb (mKeepDeadEntries o) && isDead e).
  { exists o. simpl. by rewrite app_nil_r. }
  unfold after, getBucket in *. destruct (mBuf o) as [buf|]; cbn [obind].
  - apply Forall_app in Ha as [_ Ha]. inversion Ha as [|? ? [H1 H2] _]; subst. rewrite H1, H2. cbn [obind].
    eexists. split; [done|]. simpl. done.
  - by eexists.
Qed.

Lemma open_output keep v :
  ∃ o, openOutput keep v = Ok o ∧ getBucket o = bucketOf v [] ∧ mKeepDeadEntries o = keep ∧ mMeta o = v.
Proof.
  unfold openOutput, bucketOf. destruct (Z.leb_spec FIRST_PROTOCOL_SUPPORTING_INITENTRY_AND_METAENTRY v) as [H|H].
  - unfold put, checkProtocolLegality. cbn [mMeta isMeta isInit orb andb].
    rewrite (proj2 (Z.ltb_ge _ _)) by done. cbn. rewrite andb_false_r. cbn. by eexists.
  - by eexists.
Qed.

(** The entries of a bucket under construction are below [e]. *)
Lemma after_body o v l e :
  getBucket o = bucketOf v l → Forall (λ x, plain x ∧ keyLt x e) l → plain e → after o e.
Proof.
  intros E H He. unfold after. rewrite E. assert (Forall (λ x, BucketEntryIdCmp x e = true ∧ BucketEntryIdCmp e x = false) l).
  { eapply Forall_impl; [exact H|]. intros x [Hx Hlt]. unfold keyLt in Hlt. rewrite !BucketEntryIdCmp_spec by done.
    rewrite (cmp_opp keyCmp (keyOf x)). split; [lia|apply Z.ltb_ge; lia]. }
  unfold bucketOf. destruct (_ <=? v); [constructor; [by apply meta_first|done]|done].
Qed.

(** ** Shadows *)

Definition shadowed (ss : list (list BucketEntry)) (k : LedgerKey) : bool :=
  existsb (λ s, bool_decide (is_Some (getEntry k s))) ss.

(** [it] reads the shadow [s] and has passed only entries below the keys that
    are still to come. *)
Record shadowAt (K : LedgerKey → Prop) (s : list BucketEntry) (it : BucketInputIterator) : Prop := {
  shadow_at : ∃ v d r, s = d ++ r ∧ iterAt v r it ∧ bodyOk v s ∧ (∀ e k, e ∈ d → K k → keyCmp (keyOf e) k < 0)
}.

Lemma shadowAt_mono (K K' : LedgerKey → Prop) s it : (∀ k, K' k → K k) → shadowAt K s it → shadowAt K' s it.
Proof. intros H [(v & d & r & E & Hi & Hb & Hd)]. split. exists v, d, r. split_and!; auto. Qed.

Lemma sorted_suffix (d r : list BucketEntry) : StronglySorted keyLt (d ++ r) → StronglySorted keyLt r.
Proof. induction d as [|e d IH]; simpl; [done|]. intros H. apply IH. by inversion H. Qed.

Lemma bodyOk_suffix v d r : bodyOk v (d ++ r) → bodyOk v r.
Proof.
  intros [H1 H2 H3]. split; [by apply sorted_suffix in H1|by apply Forall_app in H2 as []|].
  intros Hv. specialize (H3 Hv). by apply Forall_app in H3 as [].
Qed.

Lemma advanceShadow_spec entry fuel v r si :
  iterAt v r si → bodyOk v r → (length r ≤ fuel)%nat → plain entry →
  ∃ si' d r', advanceShadow fuel entry si = Ok si' ∧ r = d ++ r' ∧ iterAt v r' si' ∧ Forall (λ x, keyLt x entry) d ∧
    (∀ x, head r' = Some x → keyCmp (keyOf entry) (keyOf x) ≤ 0).
Proof.
  revert r si. induction fuel as [|fuel IH]; intros r si Hat Hb Hf He; destruct r as [|x r]; try (simpl in Hf; lia).
  1,2: pose proof (at_entry _ _ _ Hat) as E; simpl in E; simpl; rewrite E; exists si, [], []; by split_and!.
  pose proof (at_entry _ _ _ Hat) as E. simpl in E. cbn [advanceShadow]. rewrite E.
  pose proof (bodyOk_cons _ _ _ Hb) as (Hb' & Hx & Hlt). rewrite BucketEntryIdCmp_spec by done.
  destruct (Z.ltb_spec (keyCmp (keyOf x) (keyOf entry)) 0) as [H|H].
  - destruct (next_body _ _ _ _ Hat Hb) as (si' & -> & Hat'). cbn [obind].
    destruct (IH r si' Hat' Hb' ltac:(simpl in Hf; lia) He) as (si'' & d & r' & -> & -> & ? & ? & ?).
    exists si'', (x :: d), r'. split_and!; try done. by constructor.
  - exists si, [], (x :: r). split_and!; try done. intros y [= <-]. apply (cmp_nlt keyCmp). lia.
Qed.

(** Where the scan of one shadow stops tells whether it holds the key. *)
Lemma shadow_hit v (d r : list BucketEntry) (entry : BucketEntry) :
  bodyOk v (d ++ r) → plain entry → Forall (λ x, keyLt x entry) d →
  (∀ x, head r = Some x → keyCmp (keyOf entry) (keyOf x) ≤ 0) →
  match head r with Some x => negb (BucketEntryIdCmp entry x) | None => false end =
  bool_decide (is_Some (getEntry (keyOf entry) (d ++ r))).
Proof.
  intros Hb He Hd Hr. rewrite getEntry_app, (getEntry_None _ d).
  2: { rewrite Forall_forall in Hd. intros e H _ E. specialize (Hd e H). unfold keyLt in Hd. rewrite E, (cmp_refl keyCmp) in Hd. lia. }
  apply bodyOk_suffix in Hb. destruct r as [|x r]; [done|]. apply bodyOk_cons in Hb as (Hb & Hx & Hlt).
  specialize (Hr x eq_refl). cbn [head getEntry]. rewrite BucketEntryIdCmp_spec, Hx by done. cbn [negb andb].
  destruct (Z.ltb_spec (keyCmp (keyOf entry) (keyOf x)) 0) as [H|H]; cbn [negb].
  - rewrite (bool_decide_false (keyOf x = keyOf entry)).
    2: { intros E. rewrite E, (cmp_refl keyCmp) in H. lia. }
    rewrite (getEntry_None _ r), bool_decide_false; [done|by intros [? [=]]|].
    rewrite Forall_forall in Hlt. intros e Hin _ E. specialize (Hlt e Hin). unfold keyLt in Hlt. rewrite E in Hlt.
    pose proof (cmp_lt_trans keyCmp _ _ _ H Hlt) as Hc. rewrite (cmp_refl keyCmp) in Hc. lia.
  - assert (keyOf entry = keyOf x) as -> by (apply (cmp_eq keyCmp); lia).
    rewrite (bool_decide_true (keyOf x = keyOf x)) by done. by rewrite bool_decide_true by (by eexists).
Qed.

Lemma scanShadows_spec (K K' : LedgerKey → Prop) entry ss sis :
  Forall2 (shadowAt K) ss sis → plain entry → K (keyOf entry) →
  (∀ k, K' k → K k ∧ keyCmp (keyOf entry) k < 0) →
  ∃ sis', scanShadows entry sis = Ok (shadowed ss (keyOf entry), sis') ∧ Forall2 (shadowAt K') ss sis'.
Proof.
  intros H He HK HK'. induction H as [|s si ss sis Hs H IH]; [by exists []|].
  destruct IH as (sis' & Hscan & IH). cbn [scanShadows]. destruct Hs as [(v & d & r & -> & Hat & Hb & Hd)].
  destruct (advanceShadow_spec entry (S (length (mIn si))) v r si Hat (bodyOk_suffix _ _ _ Hb)) as
    (si' & d' & r' & -> & -> & Hat' & Hd' & Hr'); [|done|].
  { rewrite (at_rest _ _ _ Hat). destruct r; simpl; lia. }
  cbn [obind]. rewrite (at_entry _ _ _ Hat'). rewrite app_assoc in Hb.
  assert (Forall (λ x, keyLt x entry) (d ++ d')) as Hdd.
  { apply Forall_app. split; [|done]. apply Forall_forall. intros e Hin. by apply Hd. }
  rewrite (shadow_hit v (d ++ d') r' entry Hb He Hdd Hr'). cbn [shadowed existsb]. rewrite app_assoc.
  assert (shadowAt K' ((d ++ d') ++ r') si') as Hs'.
  { split. exists v, (d ++ d'), r'. split_and!; try done. intros e k Hin Hk. destruct (HK' k Hk) as [_ Hlt].
    rewrite Forall_forall in Hdd. apply (cmp_lt_trans keyCmp _ (keyOf entry)); [by apply Hdd|done]. }
  case_bool_decide; cbn [orb].
  - eexists. split; [done|]. constructor; [done|]. eapply Forall2_impl; [exact H|]. intros. eapply shadowAt_mono; [|done].
    intros k Hk. by apply HK'.
  - rewrite Hscan. cbn [obind fst snd]. eexists. split; [done|]. by constructor.
Qed.

(** ** The combination of two entries of a key *)

(** An INIT entry says that the key did not exist before it. *)
Definition compatible (o n : option BucketEntry) : Prop :=
  match n with
  | Some (INITENTRY _) => match o with None | Some (DEADENTRY _) => True | _ => False end
  | _ => True
  end.

Definition combine (o n : option BucketEntry) : option BucketEntry :=
  match o, n with
  | None, _ => n
  | _, None => o
  | Some (DEADENTRY _), Some (INITENTRY x) => Some (LIVEENTRY x)
  | Some (INITENTRY _), Some (LIVEENTRY y) => Some (INITENTRY y)
  | Some (INITENTRY _), Some (DEADENTRY _) => None
  | _, _ => n
  end.

(** What the merge writes for a combined entry *)
Definition emit (lifecycle keepDead : bool) (ss : list (list BucketEntry)) (e : BucketEntry) : option BucketEntry :=
  if (lifecycle && (isInit e || isDead e)) || negb (shadowed ss (keyOf e)) then written keepDead e else None.

Lemma combine_None_r o : combine o None = o.
Proof. by destruct o as [[]|]. Qed.

Lemma mergedEntry_combine o n :
  plain o → plain n → compatible (Some o) (Some n) → mergedEntry o n = Ok (combine (Some o) (Some n)).
Proof. by destruct o, n. Qed.

Lemma combine_key o n e k :
  (∀ x, o = Some x → plain x ∧ keyOf x = k) → (∀ x, n = Some x → plain x ∧ keyOf x = k) →
  combine o n = Some e → plain e ∧ keyOf e = k.
Proof.
  intros Ho Hn E. destruct o as [[x|x|x|x]|], n as [[y|y|y|y]|]; simpl in E; simplify_eq; auto;
    try apply (Hn _ eq_refl); try apply (Ho _ eq_refl); by split; [|apply (Hn _ eq_refl)].
Qed.

Lemma combine_legal v o n e :
  (∀ x, o = Some x → checkProtocolLegality x v = Ok tt) → (∀ x, n = Some x → checkProtocolLegality x v = Ok tt) →
  combine o n = Some e → checkProtocolLegality e v = Ok tt.
Proof.
  intros Ho Hn E. destruct o as [[x|x|x|x]|], n as [[y|y|y|y]|]; simpl in E; simplify_eq;
    try apply (Hn _ eq_refl); try apply (Ho _ eq_refl); unfold checkProtocolLegality; simpl; by rewrite ?andb_false_r.
Qed.

Lemma emit_some lc keep ss e x : emit lc keep ss e = Some x → x = e.
Proof. unfold emit, written. intros. repeat case_match; by simplify_eq. Qed.

Lemma bucketOf_app v l l' : bucketOf v l ++ l' = bucketOf v (l ++ l').
Proof. unfold bucketOf. by destruct (_ <=? v). Qed.

Lemma maybePut_spec (K K' : LedgerKey → Prop) v lc e d o ss sis :
  plain e → checkProtocolLegality e v = Ok tt → mMeta o = v → getBucket o = bucketOf v d →
  Forall (λ x, plain x ∧ keyLt x e) d → Forall2 (shadowAt K) ss sis → K (keyOf e) →
  (∀ k, K' k → K k ∧ keyCmp (keyOf e) k < 0) →
  ∃ o' sis', maybePut e lc o sis = Ok (o', sis') ∧
    getBucket o' = bucketOf v (d ++ option_list (emit lc (mKeepDeadEntries o) ss e)) ∧
    mKeepDeadEntries o' = mKeepDeadEntries o ∧ mMeta o' = v ∧ Forall2 (shadowAt K') ss sis'.
Proof.
  intros He Hl Hv Ho Hd Hs HK HK'. unfold maybePut, emit.
  destruct (put_spec e o He) as (o' & Hput & Hg & Hk & Hm); [by rewrite Hv|by eapply after_body|].
  rewrite Ho, bucketOf_app in Hg. rewrite Hv in Hm.
  destruct (lc && (isInit e || isDead e)); cbn [orb].
  - rewrite Hput. cbn [obind]. exists o', sis. split_and!; try done. eapply Forall2_impl; [exact Hs|].
    intros. eapply shadowAt_mono; [|done]. intros k Hk'. by apply HK'.
  - destruct (scanShadows_spec K K' e ss sis Hs He HK HK') as (sis' & -> & Hs'). cbn [obind fst snd].
    destruct (shadowed ss (keyOf e)); cbn [negb].
    + exists o, sis'. simpl. rewrite app_nil_r. done.
    + rewrite Hput. cbn [obind]. by exists o', sis'.
Qed.

(** ** The loop *)

(** The loop still has [o] and [n] to read and has written [d]. *)
Record Merging (v : Z) (keep : bool) (ss : list (list BucketEntry)) (vo vn : Z)
  (o n d : list BucketEntry) (st : MergeState) : Prop := {
  mg_old : iterAt vo o (oi st);
  mg_new : iterAt vn n (ni st);
  mg_oldOk : bodyOk vo o;
  mg_newOk : bodyOk vn n;
  mg_oldVersion : vo ≤ v;
  mg_newVersion : vn ≤ v;
  mg_out : getBucket (out st) = bucketOf v d;
  mg_meta : mMeta (out st) = v;
  mg_keep : mKeepDeadEntries (out st) = keep;
  mg_plain : Forall (λ x, plain x) d;
  mg_after : ∀ x y, x ∈ d → y ∈ o ++ n → keyLt x y;
  mg_shadow : Forall2 (shadowAt (λ k, ∃ e, e ∈ o ++ n ∧ keyOf e = k)) ss (shadowIterators st);
  mg_fit : ∀ k, compatible (getEntry k o) (getEntry k n)
}.

(** The entries [eo] and [en] of the least key [k] leave [o] and [n]. *)
Record Least (k : LedgerKey) (eo en : option BucketEntry) (o n o' n' : list BucketEntry) : Prop := {
  ls_old : o = option_list eo ++ o';
  ls_new : n = option_list en ++ n';
  ls_some : is_Some eo ∨ is_Some en;
  ls_oldKey : ∀ e, eo = Some e → plain e ∧ keyOf e = k;
  ls_newKey : ∀ e, en = Some e → plain e ∧ keyOf e = k;
  ls_rest : ∀ e, e ∈ o' ++ n' → keyCmp k (keyOf e) < 0
}.

Lemma getEntry_least (k k' : LedgerKey) (eo : option BucketEntry) (o' : list BucketEntry) :
  (∀ e, eo = Some e → plain e ∧ keyOf e = k) → (∀ e, e ∈ o' → keyCmp k (keyOf e) < 0) →
  getEntry k' (option_list eo ++ o') = if bool_decide (k' = k) then eo else getEntry k' o'.
Proof.
  intros He Ho. case_bool_decide as E.
  - subst k'. rewrite getEntry_app. rewrite (getEntry_None k o').
    2: { intros e Hin _ E. specialize (Ho e Hin). rewrite E, (cmp_refl keyCmp) in Ho. lia. }
    destruct eo as [e|]; [|done]. simpl. destruct (He e eq_refl) as [-> Hk]. simpl. by rewrite bool_decide_true.
  - destruct eo as [e|]; [|done]. simpl. destruct (He e eq_refl) as [-> Hk]. simpl. rewrite bool_decide_false; [done|congruence].
Qed.

Section Step.
Context (v : Z) (lc keep : bool) (ss : list (list BucketEntry)) (vo vn : Z).
Context (k : LedgerKey) (eo en : option BucketEntry) (o n o' n' d : list BucketEntry) (st : MergeState).
Hypothesis M : Merging v keep ss vo vn o n d st.
Hypothesis L : Least k eo en o n o' n'.

Lemma least_old : eo = getEntry k o.
Proof.
  rewrite (ls_old _ _ _ _ _ _ _ L). rewrite (getEntry_least k); [by rewrite bool_decide_true|apply L|].
  intros e He. apply L. set_solver.
Qed.

Lemma least_new : en = getEntry k n.
Proof.
  rewrite (ls_new _ _ _ _ _ _ _ L). rewrite (getEntry_least k); [by rewrite bool_decide_true|apply L|].
  intros e He. apply L. set_solver.
Qed.

Lemma least_compatible : compatible eo en.
Proof. rewrite least_old, least_new. apply M. Qed.

Lemma rest_compatible k' : compatible (getEntry k' o') (getEntry k' n').
Proof.
  pose proof (mg_fit _ _ _ _ _ _ _ _ _ M k') as H. rewrite (ls_old _ _ _ _ _ _ _ L), (ls_new _ _ _ _ _ _ _ L) in H.
  rewrite !(getEntry_least k) in H; try apply L; try (intros e He; apply L; set_solver).
  case_bool_decide; [|done]. subst k'. rewrite (getEntry_None k o'), (getEntry_None k n'); [done|..];
    intros e He _ E; pose proof (ls_rest _ _ _ _ _ _ _ L e ltac:(set_solver)) as Hlt; rewrite E, (cmp_refl keyCmp) in Hlt; lia.
Qed.

Lemma old_legal e : eo = Some e → checkProtocolLegality e v = Ok tt.
Proof.
  intros ->. pose proof (mg_oldOk _ _ _ _ _ _ _ _ _ M) as H. rewrite (ls_old _ _ _ _ _ _ _ L) in H.
  apply (legal_newer vo); [by apply (legal_entry vo e o')|apply M].
Qed.

Lemma new_legal e : en = Some e → checkProtocolLegality e v = Ok tt.
Proof.
  intros ->. pose proof (mg_newOk _ _ _ _ _ _ _ _ _ M) as H. rewrite (ls_new _ _ _ _ _ _ _ L) in H.
  apply (legal_newer vn); [by apply (legal_entry vn e n')|apply M].
Qed.

Lemma rest_in e : e ∈ o' ++ n' → e ∈ o ++ n.
Proof. rewrite (ls_old _ _ _ _ _ _ _ L), (ls_new _ _ _ _ _ _ _ L). set_solver. Qed.

Lemma least_in : ∃ e, e ∈ o ++ n ∧ keyOf e = k.
Proof using L.
  clear M.
  rewrite (ls_old _ _ _ _ _ _ _ L), (ls_new _ _ _ _ _ _ _ L).
  destruct (ls_some _ _ _ _ _ _ _ L) as [[e He]|[e He]]; exists e.
  - split; [rewrite He; set_solver|apply (ls_oldKey _ _ _ _ _ _ _ L e He)].
  - split; [rewrite He; set_solver|apply (ls_newKey _ _ _ _ _ _ _ L e He)].
Qed.

(** Writing the combination of the two entries *)
Lemma put_least :
  ∃ out' sis', (match combine eo en with
                | Some e => maybePut e lc (out st) (shadowIterators st)
                | None => Ok (out st, shadowIterators st)
                end) = Ok (out', sis') ∧
    getBucket out' = bucketOf v (d ++ option_list (combine eo en ≫= emit lc keep ss)) ∧
    mKeepDeadEntries out' = keep ∧ mMeta out' = v ∧
    Forall2 (shadowAt (λ k, ∃ e, e ∈ o' ++ n' ∧ keyOf e = k)) ss sis'.
Proof.
  destruct (combine eo en) as [e|] eqn:E; cbn [mbind option_bind].
  - destruct (combine_key _ _ _ k (ls_oldKey _ _ _ _ _ _ _ L) (ls_newKey _ _ _ _ _ _ _ L) E) as [He Hk].
    rewrite <- (mg_keep _ _ _ _ _ _ _ _ _ M). eapply maybePut_spec; try apply M; try done.
    + eapply combine_legal; [apply old_legal|apply new_legal|done].
    + apply Forall_forall. intros x Hx. pose proof (mg_plain _ _ _ _ _ _ _ _ _ M) as Hp. rewrite Forall_forall in Hp.
      split; [by apply Hp|]. destruct least_in as (y & Hy & Hyk). unfold keyLt. rewrite Hk, <- Hyk. by apply (mg_after _ _ _ _ _ _ _ _ _ M).
    + rewrite Hk. apply least_in.
    + intros k' (y & Hy & <-). split; [exists y; split; [by apply rest_in|done]|]. rewrite Hk. by apply L.
  - exists (out st), (shadowIterators st). simpl. rewrite app_nil_r. split_and!; try apply M; [done|].
    eapply Forall2_impl; [apply M|]. intros s it Hs. eapply shadowAt_mono; [|exact Hs]. intros k' (y & Hy & <-). exists y. split; [by apply rest_in|done].
Qed.

(** The state after the step *)
Lemma merging_next oi' ni' out' sis' :
  iterAt vo o' oi' → iterAt vn n' ni' →
  getBucket out' = bucketOf v (d ++ option_list (combine eo en ≫= emit lc keep ss)) →
  mKeepDeadEntries out' = keep → mMeta out' = v →
  Forall2 (shadowAt (λ k, ∃ e, e ∈ o' ++ n' ∧ keyOf e = k)) ss sis' →
  Merging v keep ss vo vn o' n' (d ++ option_list (combine eo en ≫= emit lc keep ss))
    {| oi := oi'; ni := ni'; out := out'; shadowIterators := sis' |}.
Proof.
  intros Ho Hn Hout Hkeep Hmeta Hs.
  assert (∀ x, x ∈ option_list (combine eo en ≫= emit lc keep ss) → plain x ∧ keyOf x = k) as Hx.
  { intros x Hx. destruct (combine eo en) as [e|] eqn:E; simpl in Hx; [|by apply elem_of_nil in Hx].
    destruct (emit lc keep ss e) as [y|] eqn:Ey; simpl in Hx; [|by apply elem_of_nil in Hx].
    apply list_elem_of_singleton in Hx as ->. apply emit_some in Ey as ->.
    by apply (combine_key _ _ _ k (ls_oldKey _ _ _ _ _ _ _ L) (ls_newKey _ _ _ _ _ _ _ L)). }
  split; try done; simpl.
  - pose proof (mg_oldOk _ _ _ _ _ _ _ _ _ M) as H. rewrite (ls_old _ _ _ _ _ _ _ L) in H. by apply bodyOk_suffix in H.
  - pose proof (mg_newOk _ _ _ _ _ _ _ _ _ M) as H. rewrite (ls_new _ _ _ _ _ _ _ L) in H. by apply bodyOk_suffix in H.
  - apply M.
  - apply M.
  - apply Forall_app. split; [apply M|]. apply Forall_forall. intros x H. by apply Hx.
  - intros x y [H|H]%elem_of_app Hy; [apply M; [done|by apply rest_in]|]. unfold keyLt. destruct (Hx x H) as [_ ->]. by apply L.
  - apply rest_compatible.
Qed.
End Step.

(** One turn of the loop *)
Definition turn (v : Z) (lc : bool) (st : MergeState) : BE MergeState :=
  let? r := mergeCasesWithDefaultAcceptance v lc st in
  if r.1 then Ok r.2 else mergeCasesWithEqualKeys v lc r.2.

Definition turns (v : Z) (lc keep : bool) ss vo vn o n d st : Prop :=
  ∃ k eo en o' n' st', Least k eo en o n o' n' ∧ turn v lc st = Ok st' ∧
    Merging v keep ss vo vn o' n' (d ++ option_list (combine eo en ≫= emit lc keep ss)) st'.

Section Turn.
Context (v : Z) (lc keep : bool) (ss : list (list BucketEntry)) (vo vn : Z) (d : list BucketEntry) (st : MergeState).

Lemma above_all e f l : Forall (keyLt f) l → keyCmp (keyOf e) (keyOf f) < 0 → ∀ x, x ∈ f :: l → keyCmp (keyOf e) (keyOf x) < 0.
Proof.
  intros Hl H x [->|Hx]%elem_of_cons; [done|]. rewrite Forall_forall in Hl.
  apply (cmp_lt_trans keyCmp _ (keyOf f)); [done|by apply Hl].
Qed.

Lemma turn_old e o' n :
  Merging v keep ss vo vn (e :: o') n d st → (∀ x, x ∈ n → keyCmp (keyOf e) (keyOf x) < 0) →
  negb (valid (ni st)) || (valid (oi st) && valid (ni st) && itersLt (oi st) (ni st)) = true →
  turns v lc keep ss vo vn (e :: o') n d st.
Proof.
  intros HM Hn Hc. pose proof (mg_oldOk _ _ _ _ _ _ _ _ _ HM) as Hb. pose proof (mg_old _ _ _ _ _ _ _ _ _ HM) as Hat.
  pose proof (bodyOk_cons _ _ _ Hb) as (_ & He & Hlt).
  assert (Least (keyOf e) (Some e) None (e :: o') n o' n) as HL.
  { split; try done; [by left; eexists|by intros ? [= <-]|]. intros x [Hx|Hx]%elem_of_app; [|by apply Hn].
    rewrite Forall_forall in Hlt. by apply Hlt. }
  destruct (put_least v lc keep ss vo vn _ _ _ _ _ _ _ d st HM HL) as (out' & sis' & Hput & H1 & H2 & H3 & H4).
  destruct (next_body _ _ _ _ Hat Hb) as (oi' & Hnext & Hat').
  eexists _, _, _, _, _, _. split; [exact HL|]. split; [|eapply (merging_next v lc keep ss vo vn); try done; apply HM].
  unfold turn, mergeCasesWithDefaultAcceptance. rewrite Hc. unfold deref. rewrite (at_entry _ _ _ Hat). cbn [head obind].
  rewrite (old_legal v keep ss vo vn _ _ _ _ _ _ _ _ _ HM HL e eq_refl). rewrite combine_None_r in Hput. cbn [obind]. rewrite Hput. cbn [obind].
  rewrite Hnext. by cbn.
Qed.

Lemma turn_new f o n' :
  Merging v keep ss vo vn o (f :: n') d st → (∀ x, x ∈ o → keyCmp (keyOf f) (keyOf x) < 0) →
  negb (valid (ni st)) || (valid (oi st) && valid (ni st) && itersLt (oi st) (ni st)) = false →
  negb (valid (oi st)) || (valid (oi st) && valid (ni st) && itersLt (ni st) (oi st)) = true →
  turns v lc keep ss vo vn o (f :: n') d st.
Proof.
  intros HM Ho Hc1 Hc2. pose proof (mg_newOk _ _ _ _ _ _ _ _ _ HM) as Hb. pose proof (mg_new _ _ _ _ _ _ _ _ _ HM) as Hat.
  pose proof (bodyOk_cons _ _ _ Hb) as (_ & He & Hlt).
  assert (Least (keyOf f) None (Some f) o (f :: n') o n') as HL.
  { split; try done; [by right; eexists|by intros ? [= <-]|]. intros x [Hx|Hx]%elem_of_app; [by apply Ho|].
    rewrite Forall_forall in Hlt. by apply Hlt. }
  destruct (put_least v lc keep ss vo vn _ _ _ _ _ _ _ d st HM HL) as (out' & sis' & Hput & H1 & H2 & H3 & H4).
  destruct (next_body _ _ _ _ Hat Hb) as (ni' & Hnext & Hat').
  eexists _, _, _, _, _, _. split; [exact HL|]. split; [|eapply (merging_next v lc keep ss vo vn); try done; apply HM].
  unfold turn, mergeCasesWithDefaultAcceptance. rewrite Hc1, Hc2. unfold deref. rewrite (at_entry _ _ _ Hat). cbn [head obind].
  rewrite (new_legal v keep ss vo vn _ _ _ _ _ _ _ _ _ HM HL f eq_refl). simpl in Hput. cbn [obind]. rewrite Hput. cbn [obind].
  rewrite Hnext. by cbn.
Qed.

Lemma turn_equal e f o' n' :
  Merging v keep ss vo vn (e :: o') (f :: n') d st → keyOf e = keyOf f →
  turns v lc keep ss vo vn (e :: o') (f :: n') d st.
Proof.
  intros HM Ek. pose proof (mg_oldOk _ _ _ _ _ _ _ _ _ HM) as Hbo. pose proof (mg_old _ _ _ _ _ _ _ _ _ HM) as Hao.
  pose proof (mg_newOk _ _ _ _ _ _ _ _ _ HM) as Hbn. pose proof (mg_new _ _ _ _ _ _ _ _ _ HM) as Han.
  pose proof (bodyOk_cons _ _ _ Hbo) as (_ & He & Hlto). pose proof (bodyOk_cons _ _ _ Hbn) as (_ & Hf & Hltn).
  assert (Least (keyOf e) (Some e) (Some f) (e :: o') (f :: n') o' n') as HL.
  { split; try done; [by left; eexists|by intros ? [= <-]|by intros ? [= <-]|]. rewrite Forall_forall in Hlto, Hltn.
    intros x [Hx|Hx]%elem_of_app; [by apply Hlto|]. rewrite Ek. by apply Hltn. }
  destruct (put_least v lc keep ss vo vn _ _ _ _ _ _ _ d st HM HL) as (out' & sis' & Hput & H1 & H2 & H3 & H4).
  destruct (next_body _ _ _ _ Hao Hbo) as (oi' & Hno & Hao'). destruct (next_body _ _ _ _ Han Hbn) as (ni' & Hnn & Han').
  eexists _, _, _, _, _, _. split; [exact HL|]. split; [|eapply (merging_next v lc keep ss vo vn); try done; apply HM].
  unfold turn, mergeCasesWithDefaultAcceptance.
  rewrite (valid_at _ _ _ Hao), (valid_at _ _ _ Han), (itersLt_at _ _ _ _ _ _ _ _ Hao Han He Hf), (itersLt_at _ _ _ _ _ _ _ _ Han Hao Hf He).
  rewrite Ek, (cmp_refl keyCmp). cbn [negb orb andb Z.ltb Z.compare obind fst snd].
  unfold mergeCasesWithEqualKeys, deref. rewrite (at_entry _ _ _ Hao), (at_entry _ _ _ Han). cbn [head obind].
  rewrite (old_legal v keep ss vo vn _ _ _ _ _ _ _ _ _ HM HL e eq_refl), (new_legal v keep ss vo vn _ _ _ _ _ _ _ _ _ HM HL f eq_refl).
  cbn [obind]. rewrite mergedEntry_combine by (try done; apply (least_compatible v keep ss vo vn _ _ _ _ _ _ _ _ _ HM HL)).
  cbn [obind]. rewrite Hput. cbn [obind]. rewrite Hno, Hnn. by cbn.
Qed.

Lemma turn_ok o n : Merging v keep ss vo vn o n d st → o ++ n ≠ [] → turns v lc keep ss vo vn o n d st.
Proof.
  intros HM Hne. pose proof (mg_old _ _ _ _ _ _ _ _ _ HM) as Hao. pose proof (mg_new _ _ _ _ _ _ _ _ _ HM) as Han.
  pose proof (mg_oldOk _ _ _ _ _ _ _ _ _ HM) as Hbo. pose proof (mg_newOk _ _ _ _ _ _ _ _ _ HM) as Hbn.
  pose proof (valid_at _ _ _ Hao) as Vo. pose proof (valid_at _ _ _ Han) as Vn.
  destruct n as [|f n'].
  { destruct o as [|e o']; [done|]. apply turn_old; [done|by intros ? ?%elem_of_nil|by rewrite Vn]. }
  destruct o as [|e o'].
  { apply turn_new; [done|by intros ? ?%elem_of_nil|by rewrite Vo, Vn|by rewrite Vo]. }
  pose proof (bodyOk_cons _ _ _ Hbo) as (_ & He & Hlto). pose proof (bodyOk_cons _ _ _ Hbn) as (_ & Hf & Hltn).
  pose proof (itersLt_at _ _ _ _ _ _ _ _ Hao Han He Hf) as I1. pose proof (itersLt_at _ _ _ _ _ _ _ _ Han Hao Hf He) as I2.
  destruct (Z.ltb_spec (keyCmp (keyOf e) (keyOf f)) 0) as [H|H].
  { apply turn_old; [done|by apply above_all|by rewrite Vo, Vn, I1]. }
  destruct (Z.ltb_spec (keyCmp (keyOf f) (keyOf e)) 0) as [H'|H'].
  { apply turn_new; [done|by apply above_all|by rewrite Vo, Vn, I1|by rewrite Vo, Vn, I2]. }
  apply turn_equal; [done|]. apply (cmp_le_antisym keyCmp); [by apply (cmp_le_flip keyCmp)|by apply (cmp_le_flip keyCmp)].
Qed.
End Turn.

(** [r] is what merging [o] and [n] adds to a bucket of version [v]. *)
Record mergedBody (v : Z) (lc keep : bool) (ss : list (list BucketEntry)) (o n r : list BucketEntry) : Prop := {
  mb_get : ∀ k, getEntry k r = combine (getEntry k o) (getEntry k n) ≫= emit lc keep ss;
  mb_sorted : StronglySorted keyLt r;
  mb_plain : Forall (λ e, plain e) r;
  mb_legal : Forall (λ e, checkProtocolLegality e v = Ok tt) r;
  mb_keys : ∀ x, x ∈ r → ∃ y, y ∈ o ++ n ∧ keyOf x = keyOf y
}.

Lemma mergedBody_step v lc keep ss k eo en o n o' n' r :
  Least k eo en o n o' n' → mergedBody v lc keep ss o' n' r →
  (∀ e, eo = Some e → checkProtocolLegality e v = Ok tt) → (∀ e, en = Some e → checkProtocolLegality e v = Ok tt) →
  mergedBody v lc keep ss o n (option_list (combine eo en ≫= emit lc keep ss) ++ r).
Proof.
  intros L [Hg Hs Hp Hl Hk] Lo Ln.
  assert (∀ x, combine eo en ≫= emit lc keep ss = Some x → combine eo en = Some x) as Hx.
  { intros x E. destruct (combine eo en) as [e|]; [|done]. simpl in E. by apply emit_some in E as ->. }
  assert (∀ x, combine eo en ≫= emit lc keep ss = Some x → plain x ∧ keyOf x = k) as Hxk.
  { intros x E%Hx. by apply (combine_key eo en x k (ls_oldKey _ _ _ _ _ _ _ L) (ls_newKey _ _ _ _ _ _ _ L)). }
  assert (∀ x, x ∈ r → keyCmp k (keyOf x) < 0) as Hr.
  { intros x H. destruct (Hk x H) as (y & Hy & ->). by apply L. }
  rewrite (ls_old _ _ _ _ _ _ _ L), (ls_new _ _ _ _ _ _ _ L). split.
  - intros k'. rewrite !(getEntry_least k); try apply L; try done; try (intros e He; apply L; set_solver).
    case_bool_decide; [done|apply Hg].
  - destruct (combine eo en ≫= emit lc keep ss) as [x|]; [|done]. simpl. constructor; [done|]. apply Forall_forall.
    intros y Hy. unfold keyLt. destruct (Hxk x eq_refl) as [_ ->]. by apply Hr.
  - apply Forall_app. split; [|done]. destruct (combine eo en ≫= emit lc keep ss) as [x|]; [|by constructor].
    simpl. constructor; [|by constructor]. by apply Hxk.
  - apply Forall_app. split; [|done]. destruct (combine eo en ≫= emit lc keep ss) as [x|]; [|by constructor].
    simpl. constructor; [|by constructor]. by apply (combine_legal v eo en); [..|apply Hx].
  - intros x [H|H]%elem_of_app.
    + destruct (combine eo en ≫= emit lc keep ss) as [y|]; simpl in H; [|by apply elem_of_nil in H].
      apply list_elem_of_singleton in H as ->. destruct (Hxk y eq_refl) as [_ ->].
      rewrite <- (ls_old _ _ _ _ _ _ _ L), <- (ls_new _ _ _ _ _ _ _ L).
      edestruct least_in as (z & Hz & Ez); [exact L|]. by exists z.
    + destruct (Hk x H) as (y & Hy & E). exists y. split; [|done]. set_solver.
Qed.

Lemma mergeLoop_turn sh v lc fuel iter st :
  mergeLoop sh v lc (S fuel) iter st =
  if negb (valid (oi st) || valid (ni st)) then Ok st
  else if (1000 <=? iter + 1) && sh fuel then Fail BucketManagerShutdown
  else let? st := turn v lc st in mergeLoop sh v lc fuel (if 1000 <=? iter + 1 then 0 else iter + 1) st.
Proof. unfold turn. cbn [mergeLoop]. do 2 (case_match; [done|]). by destruct (mergeCasesWithDefaultAcceptance v lc st). Qed.

Lemma mergeLoop_spec v lc keep ss vo vn fuel iter o n d st :
  Merging v keep ss vo vn o n d st → (length o + length n ≤ fuel)%nat →
  ∃ st' r, mergeLoop (λ _, false) v lc fuel iter st = Ok st' ∧ getBucket (out st') = bucketOf v (d ++ r) ∧
    mergedBody v lc keep ss o n r.
Proof.
  revert iter o n d st. induction fuel as [|fuel IH]; intros iter o n d st M Hf.
  all: pose proof (valid_at _ _ _ (mg_old _ _ _ _ _ _ _ _ _ M)) as Vo; pose proof (valid_at _ _ _ (mg_new _ _ _ _ _ _ _ _ _ M)) as Vn.
  1: assert (o = []) as -> by (destruct o; simpl in Hf; [done|lia]); assert (n = []) as -> by (destruct n; simpl in Hf; [done|lia]).
  2: destruct (decide (o ++ n = [])) as [[-> ->]%app_nil|Hne].
  1,2: exists st, []; cbn [mergeLoop]; rewrite Vo, Vn, app_nil_r; split_and!; [done|apply M|];
    split; [done|by constructor..|by intros ? ?%elem_of_nil].
  destruct (turn_ok v lc keep ss vo vn d st o n M Hne) as (k & eo & en & o' & n' & st' & L & Ht & M').
  destruct (IH (if 1000 <=? iter + 1 then 0 else iter + 1) o' n' _ st' M') as (st'' & r & E & Hout & Hr).
  { rewrite (ls_old _ _ _ _ _ _ _ L), (ls_new _ _ _ _ _ _ _ L), !length_app in Hf.
    destruct (ls_some _ _ _ _ _ _ _ L) as [[? ->]|[? ->]]; simpl in Hf; lia. }
  exists st'', (option_list (combine eo en ≫= emit lc keep ss) ++ r). rewrite mergeLoop_turn, andb_false_r, Ht. cbn [obind].
  split_and!.
  - rewrite Vo, Vn, E. by destruct o, n.
  - by rewrite Hout, app_assoc.
  - apply (mergedBody_step v lc keep ss k eo en o n o' n' r L Hr).
    + by apply (old_legal v keep ss vo vn _ _ _ _ _ _ _ _ _ M L).
    + by apply (new_legal v keep ss vo vn _ _ _ _ _ _ _ _ _ M L).
Qed.

(** ** The merge *)

(** The version of a merge: shadows of versions without shadows do not count. *)
Definition mergeVersion (vo vn : Z) (svs : list (Z * list BucketEntry)) : Z :=
  foldl (λ v s, if s.1 <? FIRST_PROTOCOL_SHADOWS_REMOVED then Z.max s.1 v else v) (Z.max vo vn) svs.

Definition wellFormed (s : Z * list BucketEntry) : Prop := versionOk s.1 ∧ bodyOk s.1 s.2.

Notation bucketsOf svs := ((λ s, bucketOf s.1 s.2) <$> svs).

Lemma openAll_spec svs :
  Forall wellFormed svs → ∃ its, openAll (bucketsOf svs) = Ok its ∧ Forall2 (λ s it, iterAt s.1 s.2 it) svs its.
Proof.
  induction 1 as [|s svs [Hv Hb] _ (its & E & IH)]; [by exists []|]. rewrite fmap_cons. cbn [openAll].
  destruct (open_body _ _ Hv Hb) as (it & -> & Hat). cbn [obind].
  rewrite E. cbn [obind].
  eexists. split; [done|]. by constructor.
Qed.

Lemma mergeVersion_ok vo vn svs :
  versionOk vo → versionOk vn → Forall wellFormed svs → versionOk (mergeVersion vo vn svs) ∧ vo ≤ mergeVersion vo vn svs ∧ vn ≤ mergeVersion vo vn svs.
Proof.
  unfold mergeVersion, versionOk. intros Ho Hn Hs.
  assert (Z.max vo vn = 0 ∨ FIRST_PROTOCOL_SUPPORTING_INITENTRY_AND_METAENTRY ≤ Z.max vo vn) as Hm by (destruct Ho, Hn; lia).
  assert (vo ≤ Z.max vo vn ∧ vn ≤ Z.max vo vn) as [H1 H2] by lia. clear Ho Hn. revert Hm H1 H2. generalize (Z.max vo vn).
  induction Hs as [|s svs [Hv _] _ IH]; intros w Hm H1 H2; [done|]. simpl. apply IH.
  - destruct (s.1 <? _); [|done]. destruct Hv as [Hv|Hv], Hm; lia.
  - destruct (s.1 <? _); lia.
  - destruct (s.1 <? _); lia.
Qed.

Lemma calculate_spec max vo vn o n svs oi ni its :
  iterAt vo o oi → iterAt vn n ni → Forall2 (λ s it, iterAt s.1 s.2 it) svs its →
  mergeVersion vo vn svs ≤ max → (FIRST_PROTOCOL_SHADOWS_REMOVED ≤ mergeVersion vo vn svs → svs = []) →
  calculateMergeProtocolVersion max oi ni its =
    Ok (mergeVersion vo vn svs, FIRST_PROTOCOL_SUPPORTING_INITENTRY_AND_METAENTRY <=? mergeVersion vo vn svs).
Proof.
  intros Ho Hn Hs Hmax Hsh. unfold calculateMergeProtocolVersion. rewrite (at_version _ _ _ Ho), (at_version _ _ _ Hn).
  assert (foldl (λ v si, if mMetadata si <? FIRST_PROTOCOL_SHADOWS_REMOVED then Z.max (mMetadata si) v else v) (Z.max vo vn) its
          = mergeVersion vo vn svs) as E.
  { unfold mergeVersion. clear - Hs. generalize (Z.max vo vn). induction Hs as [|s it svs its H _ IH]; intros w; [done|].
    simpl. rewrite (at_version _ _ _ H). apply IH. }
  cbv zeta. rewrite E. rewrite (proj2 (Z.ltb_ge _ _)) by lia. rewrite <- Z.leb_antisym.
  destruct (Z.ltb_spec (mergeVersion vo vn svs) FIRST_PROTOCOL_SHADOWS_REMOVED) as [|H]; [done|].
  rewrite (Hsh H) in Hs. by inversion Hs.
Qed.

Theorem merge_spec max vo vn o n svs keep :
  wellFormed (vo, o) → wellFormed (vn, n) → Forall wellFormed svs →
  mergeVersion vo vn svs ≤ max → (FIRST_PROTOCOL_SHADOWS_REMOVED ≤ mergeVersion vo vn svs → svs = []) →
  (∀ k, compatible (getEntry k o) (getEntry k n)) →
  ∃ r, merge (λ _, false) max (bucketOf vo o) (bucketOf vn n) (bucketsOf svs) keep = Ok (bucketOf (mergeVersion vo vn svs) r) ∧
    wellFormed (mergeVersion vo vn svs, r) ∧
    ∀ k, getEntry k r = combine (getEntry k o) (getEntry k n) ≫=
           emit (FIRST_PROTOCOL_SUPPORTING_INITENTRY_AND_METAENTRY <=? mergeVersion vo vn svs) keep svs.*2.
Proof.
  intros [Hvo Ho] [Hvn Hn] Hs Hmax Hsh Hfit. simpl in *. unfold merge.
  destruct (mergeVersion_ok vo vn svs Hvo Hvn Hs) as (Hv & Hle1 & Hle2).
  destruct (open_body _ _ Hvo Ho) as (oi & -> & Hao). destruct (open_body _ _ Hvn Hn) as (ni & -> & Han). cbn [obind].
  destruct (openAll_spec svs Hs) as (its & -> & Hits). cbn [obind].
  rewrite (calculate_spec max vo vn o n svs oi ni its) by done. cbn [obind fst snd].
  destruct (open_output keep (mergeVersion vo vn svs)) as (out & -> & Hout & Hkeep & Hmeta). cbn [obind].
  destruct (mergeLoop_spec (mergeVersion vo vn svs) (FIRST_PROTOCOL_SUPPORTING_INITENTRY_AND_METAENTRY <=? mergeVersion vo vn svs)
    keep svs.*2 vo vn (length (bucketOf vo o) + length (bucketOf vn n)) 0 o n []
    {| Buckets.oi := oi; Buckets.ni := ni; Buckets.out := out; shadowIterators := its |}) as (st & r & -> & Hr & [Hg Hso Hp Hl _]).
  { split; try done; [by intros ? ? ?%elem_of_nil|]. simpl. clear - Hits Hs. induction Hits as [|s it svs its H _ IH]; [constructor|].
    inversion Hs as [|? ? [Hv Hb] Hs']; subst. constructor; [|by apply IH]. split. exists s.1, [], s.2. split_and!; try done.
    by intros ? ? ?%elem_of_nil. }
  { unfold bucketOf. destruct (_ <=? vo), (_ <=? vn); simpl; lia. }
  exists r. cbn [obind]. split; [by rewrite Hr|]. split; [|done]. split; [done|]. simpl. split; try done.
  intros Hlt. eapply Forall_impl; [exact Hl|]. intros e H. simpl in H. unfold checkProtocolLegality in H.
  rewrite (proj2 (Z.ltb_lt _ _)) in H by done. by destruct (isInit e).
Qed.

(** ** Fresh buckets *)

Definition batchEntries (useInit : bool) (initEntries liveEntries : list LedgerEntry) (deadEntries : list LedgerKey) :=
  ((if useInit then INITENTRY else LIVEENTRY) <$> initEntries) ++ (LIVEENTRY <$> liveEntries) ++ (DEADENTRY <$> deadEntries).

Lemma batchEntries_plain u i l d : Forall (λ e, plain e) (batchEntries u i l d).
Proof.
  unfold batchEntries. rewrite !Forall_app, !Forall_fmap. split_and!; apply Forall_true; [|done..]. by destruct u.
Qed.

Lemma idCmp_spec a b : plain a → plain b → (idCmp a b <=? 0) = (keyCmp (keyOf a) (keyOf b) <=? 0).
Proof.
  intros Ha Hb. unfold idCmp. rewrite !BucketEntryIdCmp_spec by done. rewrite (cmp_opp keyCmp (keyOf a)).
  destruct (Z.ltb_spec (keyCmp (keyOf a) (keyOf b)) 0), (Z.ltb_spec (- keyCmp (keyOf a) (keyOf b)) 0); simpl; symmetry; lia.
Qed.

Definition keyLe (a b : BucketEntry) : Prop := keyCmp (keyOf a) (keyOf b) ≤ 0.

Lemma sort_entries l : Forall (λ e, plain e) l → StronglySorted keyLe (std_sort idCmp l).
Proof.
  induction 1 as [|x l Hx Hl IH]; simpl; [constructor|].
  assert (Forall (λ e, plain e) (std_sort idCmp l)) as Hp by (by rewrite std_sort_perm).
  clear Hl. unfold std_sort in *. revert Hp. induction IH as [|y s Hs IHs Hy]; intros Hp; simpl; [by repeat constructor|].
  inversion Hp as [|? ? Hyp Hsp]; subst. rewrite idCmp_spec by done.
  destruct (Z.leb_spec (keyCmp (keyOf x) (keyOf y)) 0) as [H|H].
  - constructor; [by constructor|]. constructor; [done|]. eapply Forall_impl; [exact Hy|]. intros z Hz.
    by apply (cmp_le_trans keyCmp _ (keyOf y)).
  - constructor; [by apply IHs|]. rewrite sort_insert_perm. constructor; [|done].
    apply (cmp_le_flip keyCmp). lia.
Qed.

Lemma sorted_distinct l : StronglySorted keyLe l → NoDup (keyOf <$> l) → StronglySorted keyLt l.
Proof.
  induction 1 as [|x l Hl IH Hx]; intros Hn; [constructor|]. rewrite fmap_cons in Hn. apply NoDup_cons in Hn as [Hnx Hn].
  constructor; [by apply IH|]. rewrite Forall_forall in Hx |- *. intros y Hy. specialize (Hx y Hy).
  unfold keyLe, keyLt in *. assert (keyCmp (keyOf x) (keyOf y) ≠ 0); [|lia]. intros E%(cmp_eq keyCmp).
  apply Hnx. rewrite E. by apply list_elem_of_fmap_2.
Qed.

Lemma allIncreasing_sorted l : StronglySorted keyLt l → Forall (λ e, plain e) l → allIncreasing l = true.
Proof.
  induction 1 as [|x l Hl IH Hx]; [done|]. intros Hp. inversion Hp as [|? ? Hxp Hlp]; subst. specialize (IH Hlp).
  destruct l as [|y l]; [done|]. cbn [allIncreasing] in *. rewrite IH, andb_true_r.
  inversion Hx; subst. inversion Hlp; subst. rewrite BucketEntryIdCmp_spec by done. by apply Z.ltb_lt.
Qed.

Lemma putAll_spec v d l o :
  mMeta o = v → mKeepDeadEntries o = true → getBucket o = bucketOf v d → StronglySorted keyLt (d ++ l) →
  Forall (λ e, plain e) (d ++ l) → Forall (λ e, checkProtocolLegality e v = Ok tt) l →
  ∃ o', putAll l o = Ok o' ∧ getBucket o' = bucketOf v (d ++ l).
Proof.
  revert d o. induction l as [|e l IH]; intros d o Hm Hk Hg Hs Hp Hl; [exists o; by rewrite app_nil_r|].
  inversion Hl as [|? ? He Hl']; subst. cbn [putAll].
  assert (plain e) as Hpe by (rewrite Forall_app in Hp; destruct Hp as [_ Hp]; by inversion Hp).
  destruct (put_spec e o Hpe) as (o' & -> & Hg' & Hk' & Hm'); [done| |].
  { eapply after_body; [exact Hg| |done]. apply Forall_forall. intros x Hx. rewrite Forall_app, !Forall_forall in Hp.
    split; [by apply (proj1 Hp)|]. clear - Hs Hx. induction d as [|y d IHd]; [by apply elem_of_nil in Hx|]. inversion Hs; subst.
    apply elem_of_cons in Hx as [->|Hx]; [|by apply IHd]. rewrite Forall_forall in H2. apply H2. set_solver. }
  cbn [obind]. rewrite Hk, Hg, bucketOf_app in Hg'. simpl in Hg'. destruct (IH (d ++ [e]) o') as (o'' & E & Hg'').
  - done.
  - congruence.
  - done.
  - by rewrite <- app_assoc.
  - by rewrite <- app_assoc.
  - done.
  - exists o''. split; [done|]. by rewrite Hg'', <- app_assoc.
Qed.

Definition freshVersion (v : Z) : Z := if FIRST_PROTOCOL_SUPPORTING_INITENTRY_AND_METAENTRY <=? v then v else 0.

Lemma bucketOf_fresh v l : bucketOf (freshVersion v) l = bucketOf v l.
Proof. unfold bucketOf, freshVersion. by destruct (FIRST_PROTOCOL_SUPPORTING_INITENTRY_AND_METAENTRY <=? v) eqn:E; rewrite ?E. Qed.

Theorem fresh_spec v i l d :
  let B := batchEntries (FIRST_PROTOCOL_SUPPORTING_INITENTRY_AND_METAENTRY <=? v) i l d in
  NoDup (keyOf <$> B) →
  ∃ r, fresh v i l d = Ok (bucketOf (freshVersion v) r) ∧ wellFormed (freshVersion v, r) ∧ r ≡ₚ B.
Proof.
  intros B Hn. pose proof (batchEntries_plain (FIRST_PROTOCOL_SUPPORTING_INITENTRY_AND_METAENTRY <=? v) i l d) as Hp. fold B in Hp.
  set (r := std_sort idCmp B). assert (r ≡ₚ B) as Hperm by apply std_sort_perm.
  assert (Forall (λ e, plain e) r) as Hpr by (by rewrite Hperm).
  assert (StronglySorted keyLt r) as Hs by (apply sorted_distinct; [by apply sort_entries|by rewrite Hperm]).
  assert (v < FIRST_PROTOCOL_SUPPORTING_INITENTRY_AND_METAENTRY → Forall (λ e, isInit e = false) r) as Hi.
  { intros Hv. rewrite Hperm. unfold B, batchEntries. rewrite (proj2 (Z.leb_gt _ _)) by done.
    rewrite !Forall_app, !Forall_fmap. split_and!; by apply Forall_true. }
  exists r. split_and!; [|split|done].
  - rewrite bucketOf_fresh. unfold fresh, convertToBucketEntry. fold (batchEntries (FIRST_PROTOCOL_SUPPORTING_INITENTRY_AND_METAENTRY <=? v) i l d).
    fold B r. rewrite allIncreasing_sorted by done. cbn [obind].
    destruct (open_output true v) as (o & -> & Hg & Hk & Hm). cbn [obind].
    destruct (putAll_spec v [] r o) as (o' & -> & E); try done; [|cbn [obind]; by rewrite E].
    apply Forall_forall. intros e He. unfold checkProtocolLegality. rewrite Forall_forall in Hpr. rewrite (Hpr e He), orb_false_r.
    destruct (Z.ltb_spec v FIRST_PROTOCOL_SUPPORTING_INITENTRY_AND_METAENTRY) as [H|]; [|done]. specialize (Hi H).
    rewrite Forall_forall in Hi. by rewrite (Hi e He).
  - unfold versionOk, freshVersion. simpl. destruct (Z.leb_spec FIRST_PROTOCOL_SUPPORTING_INITENTRY_AND_METAENTRY v); [by right|by left].
  - split; [exact Hs|exact Hpr|]. cbn [fst]. intros H. apply Hi. unfold freshVersion in H.
    destruct (Z.leb_spec FIRST_PROTOCOL_SUPPORTING_INITENTRY_AND_METAENTRY v); lia.
Qed.
