(* ===== verification/BucketChain.v ===== *)
(** * The history of a key through the buckets

    The entries of a key in the buckets, newest first, form its chain.  In a
    valid chain an INIT entry stands on nothing or on a tombstone.  Merging two
    neighbours keeps a chain valid and shows a reader the same state. *)

From stdpp Require Import prelude list gmap sorting.
From Stdlib Require Import ZArith Lia.
From S2P Require Import Prelude Numeric Exchange LedgerEntries Buckets BucketMerge.
Local Open Scope Z_scope.

(** The state a reader sees *)
Definition entryState (e : BucketEntry) : option LedgerEntry :=
  match e with LIVEENTRY x | INITENTRY x => Some x | _ => None end.

Definition stateOf (c : list BucketEntry) : option LedgerEntry := head c ≫= entryState.

(** Nothing, or a tombstone, comes next. *)
Definition absent (c : list BucketEntry) : Prop :=
  match c with [] => True | e :: _ => isDead e = true end.

Fixpoint lifeOk (c : list BucketEntry) : Prop :=
  match c with
  | [] => True
  | e :: c => plain e ∧ (isInit e = true → absent c) ∧ lifeOk c
  end.

Lemma absent_state c : lifeOk c → absent c ↔ stateOf c = None.
Proof. destruct c as [|[] c]; simpl; try done. by intros [? _]. Qed.

(** Replacing a part of the chain by one that serves the newer entries as well *)
Lemma lifeOk_replace c1 c2 c2' :
  (absent c2 → absent c2') → lifeOk c2' → lifeOk (c1 ++ c2) → lifeOk (c1 ++ c2').
Proof.
  intros Ha H2. induction c1 as [|e c1 IH]; simpl; [done|]. intros (He & Hi & H). split_and!; [done| |by apply IH].
  intros H'. specialize (Hi H'). destruct c1; [by apply Ha|done].
Qed.

Lemma stateOf_app c1 c2 c2' : stateOf c2 = stateOf c2' → stateOf (c1 ++ c2) = stateOf (c1 ++ c2').
Proof. by destruct c1. Qed.

Lemma lifeOk_suffix c1 c2 : lifeOk (c1 ++ c2) → lifeOk c2.
Proof. induction c1 as [|e c1 IH]; simpl; [done|]. intros (_ & _ & H). by apply IH. Qed.

(** Neighbours of a valid chain can be merged. *)
Lemma lifeOk_compatible n o c : lifeOk (option_list n ++ option_list o ++ c) → compatible o n.
Proof.
  destruct n as [[| | |]|]; simpl; try done. intros (_ & H & _). specialize (H eq_refl).
  destruct o as [[]|]; simpl in *; try done.
Qed.

(** The merged entry of the lowest level may lose its tombstone. *)
Lemma merge_neighbours keep n o c :
  (keep = false → c = []) → lifeOk (option_list n ++ option_list o ++ c) →
  let c' := option_list (combine o n ≫= emit true keep []) ++ c in
  lifeOk c' ∧ (absent (option_list n ++ option_list o ++ c) → absent c') ∧
  stateOf c' = stateOf (option_list n ++ option_list o ++ c).
Proof.
  intros Hk H. destruct keep.
  - destruct n as [[x|x|x|x]|], o as [[y|y|y|y]|]; cbn in *; try done; try tauto; try (by destruct H as (_ & H & _); specialize (H eq_refl)).
    destruct H as (_ & _ & _ & H & Hc). specialize (H eq_refl). split_and!; [done|done|]. by apply absent_state.
  - rewrite (Hk eq_refl) in *. clear Hk. destruct n as [[x|x|x|x]|], o as [[y|y|y|y]|]; cbn in *; try done; try tauto;
      by destruct H as (_ & H & _); specialize (H eq_refl).
Qed.

(** The merge of neighbours inside a chain *)
Lemma chain_merge keep c1 n o c2 :
  (keep = false → c2 = []) → lifeOk (c1 ++ option_list n ++ option_list o ++ c2) →
  lifeOk (c1 ++ option_list (combine o n ≫= emit true keep []) ++ c2) ∧
  stateOf (c1 ++ option_list (combine o n ≫= emit true keep []) ++ c2) = stateOf (c1 ++ option_list n ++ option_list o ++ c2).
Proof.
  intros Hk H. destruct (merge_neighbours keep n o c2 Hk (lifeOk_suffix _ _ H)) as (H1 & H2 & H3).
  split; [by eapply lifeOk_replace|]. by apply stateOf_app.
Qed.

(** A new entry on top of a chain *)
Lemma chain_push e c :
  plain e → (isInit e = true → stateOf c = None) → lifeOk c → lifeOk (e :: c) ∧ stateOf (e :: c) = entryState e.
Proof. intros He Hi Hc. split; [|done]. simpl. split_and!; [done| |done]. intros H. apply absent_state; auto. Qed.

(** A merge with shadows, which are newer buckets: a shadowed LIVE entry is
    dropped, and before protocol 11 every shadowed entry. *)
Lemma chain_merge_shadows lc keep ss k c1 n o c2 :
  (keep = false → c2 = []) → lifeOk (c1 ++ option_list n ++ option_list o ++ c2) →
  (∀ e, o = Some e → plain e ∧ keyOf e = k) → (∀ e, n = Some e → plain e ∧ keyOf e = k) → (shadowed ss k = true → c1 ≠ []) →
  let c' := c1 ++ option_list (combine o n ≫= emit lc keep ss) ++ c2 in
  stateOf c' = stateOf (c1 ++ option_list n ++ option_list o ++ c2) ∧ (lc = true → lifeOk c').
Proof.
  intros Hk H Ho Hn Hs. pose proof (chain_merge keep c1 n o c2 Hk H) as [H1 H2].
  assert (∀ e, combine o n = Some e → keyOf e = k) as Hkey by (intros e E; by apply (combine_key o n e k)).
  destruct (shadowed ss k) eqn:Es.
  - specialize (Hs eq_refl). split; [destruct c1; done|]. intros ->. destruct (combine o n) as [e|] eqn:E; [|done]. cbn [mbind option_bind] in *.
    unfold emit in *. rewrite (Hkey e eq_refl), Es in *. cbn [shadowed existsb negb] in H1. rewrite orb_true_r in H1. cbn [negb]. rewrite orb_false_r. cbn [andb].
    destruct (isInit e || isDead e) eqn:Ei; [done|]. simpl.
    eapply lifeOk_replace; [|do 2 apply lifeOk_suffix in H; exact (lifeOk_suffix _ _ H)|exact H].
    destruct n as [[x|x|x|x]|], o as [[y|y|y|y]|]; simplify_eq/=; done.
  - destruct (combine o n) as [e|] eqn:E; [|done]. cbn [mbind option_bind] in *. unfold emit in *. rewrite (Hkey e eq_refl), Es in *.
    cbn [shadowed existsb negb] in *. rewrite orb_true_r in *. done.
Qed.
