(* ===== verification/BucketList.v ===== *)
(** * The bucket list (src/bucket/BucketList.cpp, FutureBucket.cpp)

    Levels of buckets with the merges that run between them.  A future is the
    outcome of its merge, which the code computes on another thread: it is looked
    at when the future is resolved.  Hashes of buckets are a parameter; a hash
    string is [None] when it is empty.  The table in which the bucket manager
    shares equal merges is left out: a merge that is found there has the same
    inputs. *)

From stdpp Require Import prelude list gmap.
From Stdlib Require Import ZArith Lia.
From S2P Require Import Prelude Numeric Exchange LedgerEntries Buckets.
Local Open Scope Z_scope.

Definition kNumLevels : Z := 11.

Definition assertB (b : bool) : BE unit := if b then Ok tt else Fail BucketAssert.

(** ** Sizes of levels *)

Definition levelSize (level : Z) : BE Z :=
  let? _ := assertB (level <? kNumLevels) in Ok (u32 (Z.shiftl 1 (2 * (level + 1)))).

Definition levelHalf (level : Z) : BE Z :=
  let? size := levelSize level in Ok (Z.shiftr size 1).

Definition mask (v m : Z) : Z := Z.land v (u32 (Z.lnot (u32 (m - 1)))).

Definition levelShouldSpill (ledger level : Z) : BE bool :=
  if level =? kNumLevels - 1 then Ok false
  else
    let? half := levelHalf level in
    let? size := levelSize level in
    Ok ((ledger =? mask ledger half) || (ledger =? mask ledger size)).

Definition shouldMergeWithEmptyCurr (ledger level : Z) : BE bool :=
  if negb (level =? 0) then
    let? half := levelHalf (level - 1) in
    let mergeStartLedger := mask ledger half in
    let nextChangeLedger := u32 (mergeStartLedger + half) in
    levelShouldSpill nextChangeLedger level
  else Ok false.

Definition keepDeadEntries (level : Z) : bool := level <? kNumLevels - 1.

(** [sizeOfCurr] and [sizeOfSnap] call each other on lower levels, and
    [sizeOfCurr] calls itself on an earlier ledger.  [lower] is the sum of both
    over the levels below. *)
Fixpoint sizeOfCurr (fuel : nat) (ledger level : Z) : BE Z :=
  match fuel with
  | O => Fail BucketOutOfFuel
  | S fuel =>
      let? _ := assertB (negb (ledger =? 0)) in
      let? _ := assertB (level <? kNumLevels) in
      if level =? 0 then Ok (if ledger =? 1 then 1 else u32 (1 + ledger `mod` 2))
      else
        let? size := levelSize level in
        let? half := levelHalf level in
        if negb (level =? kNumLevels - 1) && negb (mask ledger half =? 0) then
          let sizeDelta := u32 (Z.shiftl 1 (2 * level - 1)) in
          if (mask ledger half =? ledger) || (mask ledger size =? ledger) then Ok sizeDelta
          else
            let? prevSize := levelSize (level - 1) in
            let? prevHalf := levelHalf (level - 1) in
            let previousRelevantLedger :=
              Z.max (Z.max (mask (ledger - 1) prevHalf) (mask (ledger - 1) prevSize))
                (Z.max (mask (ledger - 1) half) (mask (ledger - 1) size)) in
            let? previous := sizeOfCurr fuel previousRelevantLedger level in
            if (mask ledger prevHalf =? ledger) || (mask ledger prevSize =? ledger)
            then Ok (u32 (previous + sizeDelta)) else Ok previous
        else
          let? blsize := sizeBelow fuel ledger (Z.to_nat level) in
          Ok (u32 (ledger - blsize))
  end
with sizeOfSnap (fuel : nat) (ledger level : Z) : BE Z :=
  match fuel with
  | O => Fail BucketOutOfFuel
  | S fuel =>
      let? _ := assertB (negb (ledger =? 0)) in
      let? _ := assertB (level <? kNumLevels) in
      if level =? kNumLevels - 1 then Ok 0
      else
        let? levSize := levelSize level in
        if negb (mask ledger levSize =? 0) then levelHalf level
        else
          let? size := sizeBelow fuel ledger (Z.to_nat level) in
          let? curr := sizeOfCurr fuel ledger level in
          Ok (u32 (ledger - u32 (size + curr)))
  end
with sizeBelow (fuel : nat) (ledger : Z) (levels : nat) : BE Z :=
  match fuel with
  | O => Fail BucketOutOfFuel
  | S fuel =>
      match levels with
      | O => Ok 0
      | S l =>
          let? below := sizeBelow fuel ledger l in
          let? curr := sizeOfCurr fuel ledger (Z.of_nat l) in
          let? snap := sizeOfSnap fuel ledger (Z.of_nat l) in
          Ok (u32 (u32 (below + curr) + snap))
      end
  end.

Definition oldestLedgerInCurr (fuel : nat) (ledger level : Z) : BE Z :=
  let? _ := assertB (negb (ledger =? 0)) in
  let? _ := assertB (level <? kNumLevels) in
  let? curr := sizeOfCurr fuel ledger level in
  if curr =? 0 then Ok UINT32_MAX
  else
    let? below := sizeBelow fuel ledger (Z.to_nat level) in
    Ok (u32 (u32 (u32 (ledger - below) - curr) + 1)).

Definition oldestLedgerInSnap (fuel : nat) (ledger level : Z) : BE Z :=
  let? _ := assertB (negb (ledger =? 0)) in
  let? _ := assertB (level <? kNumLevels) in
  let? snap := sizeOfSnap fuel ledger level in
  if snap =? 0 then Ok UINT32_MAX
  else
    let? below := sizeBelow fuel ledger (Z.to_nat (level + 1)) in
    Ok (u32 (u32 (ledger - below) + 1)).

(** ** Futures *)

Inductive FutureState : Type :=
| FB_CLEAR
| FB_HASH_OUTPUT
| FB_HASH_INPUTS
| FB_LIVE_OUTPUT
| FB_LIVE_INPUTS.

#[export] Instance FutureState_eq_dec : EqDecision FutureState.
Proof. solve_decision. Defined.

Record FutureBucket : Type := {
  mState : FutureState;
  mInputCurrBucket : option (list BucketEntry);
  mInputSnapBucket : option (list BucketEntry);
  mInputShadowBuckets : list (list BucketEntry);
  mOutputBucket : option (list BucketEntry);
  mOutputBucketFuture : option (BE (list BucketEntry));
  mInputCurrBucketHash : option Z;
  mInputSnapBucketHash : option Z;
  mInputShadowBucketHashes : list Z;
  mOutputBucketHash : option Z
}.

Record BucketLevel : Type := {
  mLevel : Z;
  mNextCurr : FutureBucket;
  mCurr : list BucketEntry;
  mSnap : list BucketEntry
}.

(** [clear], which is also the default constructor *)
Definition clearFuture : FutureBucket :=
  {| mState := FB_CLEAR; mInputCurrBucket := None; mInputSnapBucket := None; mInputShadowBuckets := [];
     mOutputBucket := None; mOutputBucketFuture := None; mInputCurrBucketHash := None;
     mInputSnapBucketHash := None; mInputShadowBucketHashes := []; mOutputBucketHash := None |}.

Definition isLive (f : FutureBucket) : bool :=
  match mState f with FB_LIVE_INPUTS | FB_LIVE_OUTPUT => true | _ => false end.
Definition isMerging (f : FutureBucket) : bool :=
  match mState f with FB_LIVE_INPUTS => true | _ => false end.
Definition hasHashes (f : FutureBucket) : bool :=
  match mState f with FB_HASH_INPUTS | FB_HASH_OUTPUT => true | _ => false end.
Definition isClear (f : FutureBucket) : bool :=
  match mState f with FB_CLEAR => true | _ => false end.

(** [ready]: has the merge run to its end? *)
Definition mergeComplete (ready : bool) (f : FutureBucket) : BE bool :=
  let? _ := assertB (isLive f) in
  match mOutputBucket f with Some _ => Ok true | None => Ok ready end.

Definition isSome {A} (o : option A) : bool := match o with Some _ => true | None => false end.
Definition isNone {A} (o : option A) : bool := negb (isSome o).
Definition isEmpty {A} (l : list A) : bool := match l with [] => true | _ => false end.

Section Merges.
Context (hash : list BucketEntry → Z) (isShutdown : nat → bool).

Definition checkHashEq (b : list BucketEntry) (h : option Z) : BE unit :=
  assertB (match h with Some h => hash b =? h | None => false end).

Fixpoint checkShadowHashes (bs : list (list BucketEntry)) (hs : list Z) : BE unit :=
  match bs, hs with
  | b :: bs, h :: hs => let? _ := checkHashEq b (Some h) in checkShadowHashes bs hs
  | [], _ => Ok tt
  | _, [] => Fail BucketAssert
  end.

Definition checkHashesMatch (f : FutureBucket) : BE unit :=
  let? _ := (match mInputShadowBuckets f with
             | [] => Ok tt
             | bs => let? _ := assertB (Nat.eqb (length bs) (length (mInputShadowBucketHashes f))) in
                     checkShadowHashes bs (mInputShadowBucketHashes f)
             end) in
  let? _ := (match mInputSnapBucket f with Some b => checkHashEq b (mInputSnapBucketHash f) | None => Ok tt end) in
  let? _ := (match mInputCurrBucket f with Some b => checkHashEq b (mInputCurrBucketHash f) | None => Ok tt end) in
  match mOutputBucketHash f with
  | None => Ok tt
  | h => match mOutputBucket f with Some b => checkHashEq b h | None => Ok tt end
  end.

Definition checkState (f : FutureBucket) : BE unit :=
  match mState f with
  | FB_CLEAR =>
      assertB (isEmpty (mInputShadowBuckets f) && isNone (mInputSnapBucket f) && isNone (mInputCurrBucket f)
               && isNone (mOutputBucket f) && isNone (mOutputBucketFuture f)
               && isEmpty (mInputShadowBucketHashes f) && isNone (mInputSnapBucketHash f)
               && isNone (mInputCurrBucketHash f) && isNone (mOutputBucketHash f))
  | FB_LIVE_INPUTS =>
      let? _ := assertB (isSome (mInputSnapBucket f) && isSome (mInputCurrBucket f)
                         && isSome (mOutputBucketFuture f) && isNone (mOutputBucket f)
                         && isNone (mOutputBucketHash f)) in
      checkHashesMatch f
  | FB_LIVE_OUTPUT =>
      let? _ := assertB (isSome (mOutputBucket f) && isNone (mOutputBucketFuture f)
                         && isSome (mOutputBucketHash f)) in
      checkHashesMatch f
  | FB_HASH_INPUTS =>
      assertB (isNone (mInputSnapBucket f) && isNone (mInputCurrBucket f) && isNone (mOutputBucket f)
               && isNone (mOutputBucketFuture f) && isSome (mInputSnapBucketHash f)
               && isSome (mInputCurrBucketHash f) && isNone (mOutputBucketHash f))
  | FB_HASH_OUTPUT =>
      assertB (isNone (mInputSnapBucket f) && isNone (mInputCurrBucket f) && isNone (mOutputBucket f)
               && isNone (mOutputBucketFuture f) && isNone (mInputSnapBucketHash f)
               && isNone (mInputCurrBucketHash f) && isSome (mOutputBucketHash f))
  end.

Definition startMerge (maxProtocolVersion level : Z) (f : FutureBucket) : BE FutureBucket :=
  let? _ := assertB (isMerging f) in
  match mInputCurrBucket f, mInputSnapBucket f with
  | Some curr, Some snap =>
      let? _ := assertB (isNone (mOutputBucketFuture f) && isNone (mOutputBucket f)) in
      let task := merge isShutdown maxProtocolVersion curr snap (mInputShadowBuckets f) (keepDeadEntries level) in
      let f := {| mState := mState f; mInputCurrBucket := mInputCurrBucket f; mInputSnapBucket := mInputSnapBucket f;
                  mInputShadowBuckets := mInputShadowBuckets f; mOutputBucket := mOutputBucket f;
                  mOutputBucketFuture := Some task; mInputCurrBucketHash := mInputCurrBucketHash f;
                  mInputSnapBucketHash := mInputSnapBucketHash f;
                  mInputShadowBucketHashes := mInputShadowBucketHashes f; mOutputBucketHash := mOutputBucketHash f |} in
      let? _ := checkState f in Ok f
  | _, _ => Fail BucketAssert
  end.

(** The constructor with inputs *)
Definition newFuture (curr snap : list BucketEntry) (shadows : list (list BucketEntry))
  (maxProtocolVersion level : Z) : BE FutureBucket :=
  let? version := getBucketVersion snap in
  if (FIRST_PROTOCOL_SHADOWS_REMOVED <=? version) && negb (isEmpty shadows) then Fail FutureShadowsNotSupported
  else
    startMerge maxProtocolVersion level
      {| mState := FB_LIVE_INPUTS; mInputCurrBucket := Some curr; mInputSnapBucket := Some snap;
         mInputShadowBuckets := shadows; mOutputBucket := None; mOutputBucketFuture := None;
         mInputCurrBucketHash := Some (hash curr); mInputSnapBucketHash := Some (hash snap);
         mInputShadowBucketHashes := hash <$> shadows; mOutputBucketHash := None |}.

Definition setLiveOutput (output : list BucketEntry) (f : FutureBucket) : BE FutureBucket :=
  let f := {| mState := FB_LIVE_OUTPUT; mInputCurrBucket := mInputCurrBucket f; mInputSnapBucket := mInputSnapBucket f;
              mInputShadowBuckets := mInputShadowBuckets f; mOutputBucket := Some output;
              mOutputBucketFuture := mOutputBucketFuture f; mInputCurrBucketHash := mInputCurrBucketHash f;
              mInputSnapBucketHash := mInputSnapBucketHash f;
              mInputShadowBucketHashes := mInputShadowBucketHashes f; mOutputBucketHash := Some (hash output) |} in
  let? _ := checkState f in Ok f.

(** [resolve] waits for the merge; an exception of the merge is raised here. *)
Definition resolve (f : FutureBucket) : BE (list BucketEntry * FutureBucket) :=
  let? _ := checkState f in
  let? _ := assertB (isLive f) in
  match mState f, mOutputBucket f with
  | FB_LIVE_OUTPUT, Some b => Ok (b, f)
  | FB_LIVE_OUTPUT, None => Fail BucketNullDeref
  | _, o =>
      let? b := (match o with
                 | Some b => Ok b
                 | None => match mOutputBucketFuture f with Some r => r | None => Fail BucketNullDeref end
                 end) in
      let f := {| mState := FB_LIVE_OUTPUT; mInputCurrBucket := None; mInputSnapBucket := None; mInputShadowBuckets := [];
                  mOutputBucket := Some b; mOutputBucketFuture := None; mInputCurrBucketHash := None;
                  mInputSnapBucketHash := None; mInputShadowBucketHashes := []; mOutputBucketHash := Some (hash b) |} in
      let? _ := checkState f in Ok (b, f)
  end.

Definition hasOutputHash (f : FutureBucket) : BE bool :=
  match mState f with
  | FB_LIVE_OUTPUT | FB_HASH_OUTPUT => let? _ := assertB (isSome (mOutputBucketHash f)) in Ok true
  | _ => Ok false
  end.

Fixpoint allByHash (getBucketByHash : Z → option (list BucketEntry)) (hs : list Z) : BE (list (list BucketEntry)) :=
  match hs with
  | [] => Ok []
  | h :: hs =>
      match getBucketByHash h with
      | Some b => let? bs := allByHash getBucketByHash hs in Ok (b :: bs)
      | None => Fail BucketAssert
      end
  end.

Definition byHash (getBucketByHash : Z → option (list BucketEntry)) (h : option Z) : option (list BucketEntry) :=
  match h with Some h => getBucketByHash h | None => None end.

Definition makeLive (getBucketByHash : Z → option (list BucketEntry)) (maxProtocolVersion level : Z)
  (f : FutureBucket) : BE FutureBucket :=
  let? _ := checkState f in
  let? _ := assertB (negb (isLive f)) in
  let? _ := assertB (hasHashes f) in
  let? h := hasOutputHash f in
  if h then
    match byHash getBucketByHash (mOutputBucketHash f) with
    | Some b => setLiveOutput b f
    | None => Fail BucketNullDeref
    end
  else
    let? _ := assertB (isEmpty (mInputShadowBuckets f)) in
    let? shadows := allByHash getBucketByHash (mInputShadowBucketHashes f) in
    let? f := startMerge maxProtocolVersion level
      {| mState := FB_LIVE_INPUTS; mInputCurrBucket := byHash getBucketByHash (mInputCurrBucketHash f);
         mInputSnapBucket := byHash getBucketByHash (mInputSnapBucketHash f); mInputShadowBuckets := shadows;
         mOutputBucket := mOutputBucket f; mOutputBucketFuture := mOutputBucketFuture f;
         mInputCurrBucketHash := mInputCurrBucketHash f; mInputSnapBucketHash := mInputSnapBucketHash f;
         mInputShadowBucketHashes := mInputShadowBucketHashes f; mOutputBucketHash := mOutputBucketHash f |} in
    let? _ := assertB (isLive f) in Ok f.

(** A future as it is stored in a history archive state *)
Inductive ArchivedFuture : Type :=
| AR_CLEAR
| AR_OUTPUT (output : option Z)
| AR_INPUTS (curr snap : option Z) (shadow : list Z)
| AR_LIVE. (* a state that [save] does not write *)

Definition save (f : FutureBucket) : BE ArchivedFuture :=
  let? _ := checkState f in
  Ok (match mState f with
      | FB_LIVE_INPUTS | FB_HASH_INPUTS =>
          AR_INPUTS (mInputCurrBucketHash f) (mInputSnapBucketHash f) (mInputShadowBucketHashes f)
      | FB_LIVE_OUTPUT | FB_HASH_OUTPUT => AR_OUTPUT (mOutputBucketHash f)
      | FB_CLEAR => AR_CLEAR
      end).

Definition load (ar : ArchivedFuture) : BE FutureBucket :=
  let? f := (match ar with
             | AR_CLEAR => Ok clearFuture
             | AR_OUTPUT output =>
                 Ok {| mState := FB_HASH_OUTPUT; mInputCurrBucket := None; mInputSnapBucket := None;
                       mInputShadowBuckets := []; mOutputBucket := None; mOutputBucketFuture := None;
                       mInputCurrBucketHash := None; mInputSnapBucketHash := None;
                       mInputShadowBucketHashes := []; mOutputBucketHash := output |}
             | AR_INPUTS curr snap shadow =>
                 Ok {| mState := FB_HASH_INPUTS; mInputCurrBucket := None; mInputSnapBucket := None;
                       mInputShadowBuckets := []; mOutputBucket := None; mOutputBucketFuture := None;
                       mInputCurrBucketHash := curr; mInputSnapBucketHash := snap;
                       mInputShadowBucketHashes := shadow; mOutputBucketHash := None |}
             | AR_LIVE => Fail UnexpectedFutureState
             end) in
  let? _ := checkState f in Ok f.

(** ** Levels *)

Definition newLevel (i : Z) : BucketLevel :=
  {| mLevel := i; mNextCurr := clearFuture; mCurr := []; mSnap := [] |}.

Definition setCurr (b : list BucketEntry) (l : BucketLevel) : BucketLevel :=
  {| mLevel := mLevel l; mNextCurr := clearFuture; mCurr := b; mSnap := mSnap l |}.

Definition setNext (f : FutureBucket) (l : BucketLevel) : BucketLevel :=
  {| mLevel := mLevel l; mNextCurr := f; mCurr := mCurr l; mSnap := mSnap l |}.

Definition setSnap (b : list BucketEntry) (l : BucketLevel) : BucketLevel :=
  {| mLevel := mLevel l; mNextCurr := mNextCurr l; mCurr := mCurr l; mSnap := b |}.

Definition commit (l : BucketLevel) : BE BucketLevel :=
  let? l := (if isLive (mNextCurr l)
             then let? r := resolve (mNextCurr l) in Ok (setCurr r.1 l)
             else Ok l) in
  let? _ := assertB (negb (isMerging (mNextCurr l))) in Ok l.

Definition prepare (currLedger currLedgerProtocol : Z) (snap : list BucketEntry)
  (shadows : list (list BucketEntry)) (l : BucketLevel) : BE BucketLevel :=
  let? _ := assertB (negb (isMerging (mNextCurr l))) in
  let? withEmpty := shouldMergeWithEmptyCurr currLedger (mLevel l) in
  let curr := if withEmpty then [] else mCurr l in
  let? version := getBucketVersion snap in
  let shadowsBasedOnProtocol := if FIRST_PROTOCOL_SHADOWS_REMOVED <=? version then [] else shadows in
  let? f := newFuture curr snap shadowsBasedOnProtocol currLedgerProtocol (mLevel l) in
  let? _ := assertB (isMerging f) in
  Ok (setNext f l).

(** [snap]: the current bucket becomes the snapshot, which is returned. *)
Definition snapLevel (l : BucketLevel) : list BucketEntry * BucketLevel :=
  (mCurr l, {| mLevel := mLevel l; mNextCurr := mNextCurr l; mCurr := []; mSnap := mCurr l |}).

(** ** The list *)

Definition newBucketList : list BucketLevel := newLevel <$> seqZ 0 kNumLevels.

(** [getHash] of a level and of the list, for a digest [sha] of concatenated
    hashes *)
Definition levelHash (sha : list Z → Z) (l : BucketLevel) : Z := sha [hash (mCurr l); hash (mSnap l)].

Definition getHash (sha : list Z → Z) (mLevels : list BucketLevel) : Z := sha (levelHash sha <$> mLevels).

(** [mLevels[i]] *)
Definition levelAt (i : nat) (mLevels : list BucketLevel) : BE BucketLevel :=
  match mLevels !! i with Some l => Ok l | None => Fail BucketAssert end.

(** [pop_back] twice, after the assertion on the size *)
Definition popTwo (shadows : list (list BucketEntry)) : BE (list (list BucketEntry)) :=
  let? _ := assertB (2 <=? Z.of_nat (length shadows)) in
  Ok (take (length shadows - 2) shadows).

(** Level [i - 1] spills into level [i]. *)
Definition spillInto (currLedger currLedgerProtocol : Z) (shadows : list (list BucketEntry)) (i : nat)
  (mLevels : list BucketLevel) : BE (list BucketLevel) :=
  let? prev := levelAt (i - 1) mLevels in
  let s := snapLevel prev in
  let mLevels := <[(i - 1)%nat := s.2]> mLevels in
  let? l := levelAt i mLevels in
  let? l := commit l in
  let? l := prepare currLedger currLedgerProtocol s.1 shadows l in
  Ok (<[i := l]> mLevels).

(** The loop of [addBatch], from the oldest level to level 1 *)
Fixpoint spillLevels (currLedger currLedgerProtocol : Z) (i : nat) (shadows : list (list BucketEntry))
  (mLevels : list BucketLevel) : BE (list (list BucketEntry) * list BucketLevel) :=
  match i with
  | O => Ok (shadows, mLevels)
  | S j =>
      let? shadows := popTwo shadows in
      let? spill := levelShouldSpill currLedger (Z.of_nat j) in
      let? mLevels := (if spill then spillInto currLedger currLedgerProtocol shadows i mLevels else Ok mLevels) in
      spillLevels currLedger currLedgerProtocol j shadows mLevels
  end.

(** [ready] tells which merges have run to their end. *)
Fixpoint resolveAnyReadyFutures (ready : Z → bool) (mLevels : list BucketLevel) : BE (list BucketLevel) :=
  match mLevels with
  | [] => Ok []
  | l :: mLevels =>
      let? l := (if isMerging (mNextCurr l) then
                   let? c := mergeComplete (ready (mLevel l)) (mNextCurr l) in
                   if c then let? r := resolve (mNextCurr l) in Ok (setNext r.2 l) else Ok l
                 else Ok l) in
      let? mLevels := resolveAnyReadyFutures ready mLevels in
      Ok (l :: mLevels)
  end.

(** [pessimize] is the configuration ARTIFICIALLY_PESSIMIZE_MERGES_FOR_TESTING. *)
Definition addBatch (pessimize : bool) (ready : Z → bool) (currLedger currLedgerProtocol : Z)
  (initEntries liveEntries : list LedgerEntry) (deadEntries : list LedgerKey) (mLevels : list BucketLevel)
  : BE (list BucketLevel) :=
  let? _ := assertB (0 <? currLedger) in
  let shadows := concat ((λ l, [mCurr l; mSnap l]) <$> mLevels) in
  let? shadows := popTwo shadows in
  let? r := spillLevels currLedger currLedgerProtocol (length mLevels - 1) shadows mLevels in
  let? _ := assertB (isEmpty r.1) in
  let? b := fresh currLedgerProtocol initEntries liveEntries deadEntries in
  let? l := levelAt 0 r.2 in
  let? l := prepare currLedger currLedgerProtocol b r.1 l in
  let? l := commit l in
  let mLevels := <[0%nat := l]> r.2 in
  if pessimize then Ok mLevels else resolveAnyReadyFutures ready mLevels.

(** The loop of [restartMerges] from level [i] *)
Fixpoint restartLevels (getBucketByHash : Z → option (list BucketEntry)) (maxProtocolVersion ledger : Z)
  (fuel i : nat) (mLevels : list BucketLevel) : BE (list BucketLevel) :=
  match fuel with
  | O => Ok mLevels
  | S fuel =>
      let? level := levelAt i mLevels in
      let next := mNextCurr level in
      if hasHashes next && negb (isLive next) then
        let? next := makeLive getBucketByHash maxProtocolVersion (Z.of_nat i) next in
        restartLevels getBucketByHash maxProtocolVersion ledger fuel (S i) (<[i := setNext next level]> mLevels)
      else if isClear next && (0 <? Z.of_nat i) then
        let? prev := levelAt (i - 1) mLevels in
        let snap := mSnap prev in
        if hash snap =? 0 then Ok mLevels
        else
          let? version := getBucketVersion snap in
          if version <? FIRST_PROTOCOL_SHADOWS_REMOVED then Fail ClearFutureWithOldSnap
          else
            let? half := levelHalf (Z.of_nat i - 1) in
            let mergeStartLedger := mask ledger half in
            let? level := prepare mergeStartLedger version snap [] level in
            restartLevels getBucketByHash maxProtocolVersion ledger fuel (S i) (<[i := level]> mLevels)
      else restartLevels getBucketByHash maxProtocolVersion ledger fuel (S i) mLevels
  end.

Definition restartMerges (getBucketByHash : Z → option (list BucketEntry)) (maxProtocolVersion ledger : Z)
  (mLevels : list BucketLevel) : BE (list BucketLevel) :=
  restartLevels getBucketByHash maxProtocolVersion ledger (length mLevels) 0 mLevels.
End Merges.

Definition futuresAllResolved (maxLevel : nat) (mLevels : list BucketLevel) : BE bool :=
  let? _ := assertB (Nat.ltb maxLevel (length mLevels)) in
  Ok (forallb (λ l, negb (isMerging (mNextCurr l))) (take (S maxLevel) mLevels)).

Fixpoint maxMergeLoop (currLedger : Z) (fuel i : nat) : BE Z :=
  match fuel with
  | O => Ok (Z.of_nat i)
  | S fuel =>
      let? spill := levelShouldSpill currLedger (Z.of_nat i) in
      if spill then maxMergeLoop currLedger fuel (S i) else Ok (Z.of_nat i)
  end.

Definition getMaxMergeLevel (currLedger : Z) (mLevels : list BucketLevel) : BE Z :=
  maxMergeLoop currLedger (length mLevels - 1) 0.
