(* ===== verification/BucketLevels.v ===== *)
(** * The schedule of the bucket list

    When the levels spill and which merges start from an empty bucket, as
    arithmetic on ledger numbers. *)

From stdpp Require Import prelude list gmap.
From Stdlib Require Import ZArith Lia.
From S2P Require Import Prelude Buckets BucketList.
Local Open Scope Z_scope.

(** [half l] is the number of ledgers after which level [l] spills. *)
Definition half (level : Z) : Z := 2 ^ (2 * level + 1).

Lemma half_pos level : 0 ≤ level → 0 < half level.
Proof. intros H. unfold half. apply Z.pow_pos_nonneg; lia. Qed.

Lemma half_next level : 0 ≤ level → half (level + 1) = 4 * half level.
Proof. intros H. unfold half. replace (2 * (level + 1) + 1) with (2 + (2 * level + 1)) by lia. rewrite Z.pow_add_r; lia. Qed.

Lemma half_small level : 0 ≤ level < kNumLevels → half level ≤ 2097152.
Proof. unfold kNumLevels. intros H. unfold half. change 2097152 with (2 ^ 21). apply Z.pow_le_mono_r; lia. Qed.

Lemma mask_spec v k : in_u32 v → 0 ≤ k ≤ 31 → mask v (2 ^ k) = v - v `mod` 2 ^ k.
Proof.
  intros Hv Hk. unfold mask. assert (0 < 2 ^ k ≤ 2 ^ 31) as Hp.
  { split; [apply Z.pow_pos_nonneg; lia|apply Z.pow_le_mono_r; lia]. }
  rewrite (u32_small (2 ^ k - 1)) by word.
  transitivity (Z.ldiff v (Z.ones k)).
  - apply Z.bits_inj'. intros i Hi. rewrite Z.land_spec, Z.ldiff_spec, Z.ones_equiv. unfold u32. change 4294967296 with (2 ^ 32).
    destruct (Z.ltb_spec i 32) as [H|H].
    + rewrite Z.mod_pow2_bits_low, Z.lnot_spec by lia. by rewrite Z.sub_1_r.
    + rewrite Z.mod_pow2_bits_high by lia. rewrite andb_false_r. symmetry. apply andb_false_intro1.
      destruct (decide (v = 0)) as [->|]; [apply Z.bits_0|]. apply Z.bits_above_log2; [word|].
      assert (Z.log2 v < 32); [|lia]. apply Z.log2_lt_pow2; word.
  - rewrite Z.ldiff_ones_r, Z.shiftl_mul_pow2, Z.shiftr_div_pow2 by lia. pose proof (Z.div_mod v (2 ^ k)). lia.
Qed.

Lemma levelSize_ok level : 0 ≤ level < kNumLevels → levelSize level = Ok (2 ^ (2 * level + 2)).
Proof.
  unfold kNumLevels. intros H. unfold levelSize, kNumLevels, assertB. rewrite (proj2 (Z.ltb_lt _ _)) by lia. cbn [obind].
  rewrite Z.shiftl_1_l. replace (2 * (level + 1)) with (2 * level + 2) by lia. rewrite u32_small; [done|].
  assert (0 < 2 ^ (2 * level + 2) ≤ 2 ^ 22); [|word]. split; [apply Z.pow_pos_nonneg; lia|apply Z.pow_le_mono_r; lia].
Qed.

Lemma levelHalf_ok level : 0 ≤ level < kNumLevels → levelHalf level = Ok (half level).
Proof.
  intros H. unfold levelHalf. rewrite levelSize_ok by done. cbn [obind]. f_equal. unfold half.
  rewrite Z.shiftr_div_pow2 by lia. replace (2 * level + 2) with (2 * level + 1 + 1) by lia.
  rewrite Z.pow_add_r by lia. apply Z.div_mul. lia.
Qed.

Lemma mask_half v level : in_u32 v → 0 ≤ level < kNumLevels → mask v (half level) = v - v `mod` half level.
Proof. unfold kNumLevels. intros Hv Hl. apply mask_spec; [done|lia]. Qed.

(** Does level [level] spill at this ledger? *)
Definition spills (ledger level : Z) : bool := (level <? kNumLevels - 1) && (ledger `mod` half level =? 0).

Lemma levelShouldSpill_ok ledger level :
  in_u32 ledger → 0 ≤ level < kNumLevels → levelShouldSpill ledger level = Ok (spills ledger level).
Proof.
  intros Hv Hl. unfold levelShouldSpill, spills. destruct (Z.eqb_spec level (kNumLevels - 1)) as [->|Hne]; [done|].
  rewrite (proj2 (Z.ltb_lt level (kNumLevels - 1))) by lia. rewrite levelHalf_ok, levelSize_ok by done. cbn [obind andb]. f_equal.
  rewrite mask_half by done. unfold kNumLevels in Hl. rewrite (mask_spec ledger (2 * level + 2)) by (done || lia).
  destruct (Z.eqb_spec (ledger `mod` half level) 0) as [E|E].
  - rewrite E, Z.sub_0_r, Z.eqb_refl. done.
  - rewrite (proj2 (Z.eqb_neq ledger _)) by lia. cbn [orb]. apply Z.eqb_neq. intros H.
    assert (ledger `mod` 2 ^ (2 * level + 2) = 0) as H0 by lia. apply Z.mod_divide in H0; [|apply Z.pow_nonzero; lia].
    destruct E. apply Z.mod_divide; [unfold half; apply Z.pow_nonzero; lia|]. apply Z.divide_trans with (2 ^ (2 * level + 2)); [|done].
    unfold half. exists 2. replace (2 * level + 2) with (1 + (2 * level + 1)) by lia. rewrite Z.pow_add_r; lia.
Qed.

(** Does the merge that runs at this ledger into level [level] ignore the
    current bucket? *)
Definition fromEmpty (ledger level : Z) : bool :=
  if level =? 0 then false
  else spills (u32 (ledger - ledger `mod` half (level - 1) + half (level - 1))) level.

Lemma shouldMergeWithEmptyCurr_ok ledger level :
  in_u32 ledger → 0 ≤ level < kNumLevels → shouldMergeWithEmptyCurr ledger level = Ok (fromEmpty ledger level).
Proof.
  intros Hv Hl. unfold shouldMergeWithEmptyCurr, fromEmpty. destruct (Z.eqb_spec level 0) as [->|Hne]; [done|]. cbn [negb].
  rewrite levelHalf_ok by lia. cbn [obind]. rewrite mask_half by (done || lia). apply levelShouldSpill_ok; [apply u32_range|done].
Qed.

(** A level that spills lets the levels below it spill too. *)
Lemma spills_below ledger level : 0 ≤ level → spills ledger (level + 1) = true → spills ledger level = true.
Proof.
  unfold spills. rewrite !andb_true_iff, !Z.ltb_lt, !Z.eqb_eq. intros Hl [H1 H2]. split; [lia|].
  rewrite half_next in H2 by lia. pose proof (half_pos level Hl). apply Z.mod_divide in H2; [|lia].
  apply Z.mod_divide; [lia|]. destruct H2 as [q ->]. exists (q * 4). lia.
Qed.

(** Between two spills of the level below, the running merge does not change. *)
Lemma fromEmpty_stable ledger level :
  1 ≤ level → 0 ≤ ledger → ledger `mod` half (level - 1) ≠ 0 → fromEmpty ledger level = fromEmpty (ledger - 1) level.
Proof.
  intros Hl Hn Hm. unfold fromEmpty. rewrite (proj2 (Z.eqb_neq level 0)) by lia. do 2 f_equal.
  pose proof (half_pos (level - 1) ltac:(lia)) as Hp. pose proof (Z.div_mod ledger (half (level - 1))) as Hd.
  pose proof (Z.mod_pos_bound ledger (half (level - 1)) Hp) as Hb.
  rewrite <- (Z.mod_unique (ledger - 1) (half (level - 1)) (ledger `div` half (level - 1)) (ledger `mod` half (level - 1) - 1)); lia.
Qed.

(** At a spill of the level below, the merge that ends had ignored the current
    bucket exactly when the level spills as well. *)
Lemma fromEmpty_before ledger level :
  1 ≤ level < kNumLevels → in_u32 ledger → 0 < ledger → ledger `mod` half (level - 1) = 0 →
  fromEmpty (ledger - 1) level = spills ledger level.
Proof.
  intros Hl Hu Hn Hm. unfold fromEmpty. rewrite (proj2 (Z.eqb_neq level 0)) by lia. f_equal.
  pose proof (half_pos (level - 1) ltac:(lia)) as Hp. pose proof (half_small (level - 1) ltac:(lia)) as Hs.
  pose proof (Z.div_mod ledger (half (level - 1))) as Hd.
  assert (2 ≤ half (level - 1)) as H2. { unfold half. change 2 with (2 ^ 1) at 1. apply Z.pow_le_mono_r; lia. }
  rewrite <- (Z.mod_unique (ledger - 1) (half (level - 1)) (ledger `div` half (level - 1) - 1) (half (level - 1) - 1)) by lia.
  replace (ledger - 1 - (half (level - 1) - 1) + half (level - 1)) with ledger by lia. by apply u32_small.
Qed.
