(* ===== verification/BucketSizes.v ===== *)
(** * How many ledgers a bucket spans

    The sizes that BucketList.cpp computes ([sizeOfCurr], [sizeOfSnap]) in
    closed form, how they evolve from one ledger to the next, and that the
    computations of the code are total and equal to them. *)

From stdpp Require Import prelude list gmap.
From Stdlib Require Import ZArith Lia.
From S2P Require Import Prelude Buckets BucketList BucketLevels.
Local Open Scope Z_scope.

Notation hf j := (half (Z.of_nat j)).

Lemma hf_pos j : 2 ≤ hf j.
Proof. unfold half. change 2 with (2 ^ 1) at 1. apply Z.pow_le_mono_r; lia. Qed.

Lemma hf_next j : hf (S j) = 4 * hf j.
Proof. rewrite <- half_next by lia. f_equal. lia. Qed.

(** A positive multiple of [d] is [d] or at least twice [d]. *)
Lemma multiple_cases t d : 0 < d → 1 ≤ t → t `mod` d = 0 → t = d ∨ 2 * d ≤ t.
Proof. intros Hd Ht H. apply Z.mod_divide in H as [q ->]; [|lia]. destruct (decide (q = 1)) as [->|]; [lia|right]. nia. Qed.

(** ** Closed forms; [b] is the number of ledgers in the levels below *)

Notation top := 10%nat.

Definition currSizeOf (n : Z) (j : nat) (b : Z) : Z :=
  match j with
  | O => if n <=? 1 then n else 1 + n `mod` 2
  | S i => if Nat.ltb j top && (hf j <=? n) then hf i * (1 + (n `mod` hf j) `div` hf i) else n - b
  end.

Definition snapSizeOf (n : Z) (j : nat) (b c : Z) : Z :=
  if Nat.eqb j top then 0 else if 2 * hf j <=? n then hf j else n - b - c.

Fixpoint belowSize (n : Z) (j : nat) : Z :=
  match j with
  | O => 0
  | S i => let b := belowSize n i in let c := currSizeOf n i b in b + c + snapSizeOf n i b c
  end.

Definition currSize (n : Z) (j : nat) : Z := currSizeOf n j (belowSize n j).
Definition snapSize (n : Z) (j : nat) : Z := snapSizeOf n j (belowSize n j) (currSize n j).

Lemma belowSize_S n j : belowSize n (S j) = belowSize n j + currSize n j + snapSize n j.
Proof. done. Qed.

(** ** From one ledger to the next *)

(** The ledgers that enter level [j] at ledger [t] *)
Definition enters (t : Z) (j : nat) : Z :=
  match j with O => 1 | S i => if t `mod` hf i =? 0 then snapSize (t - 1) i else 0 end.

(** The sizes of level [j] at ledger [t] from those before; a level that
    spills moves its current bucket to its snapshot. *)
Record sizeStep (t : Z) (j : nat) : Prop := {
  st_curr : currSize t j = (if (Nat.ltb j top) && (t `mod` hf j =? 0) then 0 else currSize (t - 1) j) + enters t j;
  st_snap : snapSize t j = (if (Nat.ltb j top) && (t `mod` hf j =? 0) then currSize (t - 1) j else snapSize (t - 1) j)
}.

(** What the levels below [j] hold *)
Definition belowStep (t : Z) (j : nat) : Prop := belowSize t j = belowSize (t - 1) j + 1 - enters t j.

Section Step.
Context (t : Z).
Hypothesis Ht : 1 ≤ t.

(** Division with remainder at the next number *)
Lemma next_mod d : 0 < d → (t `mod` d = 0 ∧ (t - 1) `mod` d = d - 1) ∨ (t `mod` d ≠ 0 ∧ (t - 1) `mod` d = t `mod` d - 1).
Proof.
  intros Hd. pose proof (Z.div_mod t d) as Hdm. pose proof (Z.mod_pos_bound t d Hd) as Hb. destruct (decide (t `mod` d = 0)) as [E|E].
  - left. split; [done|]. symmetry. apply (Z.mod_unique _ _ (t `div` d - 1)); lia.
  - right. split; [done|]. symmetry. apply (Z.mod_unique _ _ (t `div` d)); lia.
Qed.

(** The position of [t] in the cycle of a level whose parts have size [p] *)
Lemma cycle p :
  0 < p →
  (t `mod` (4 * p) = 0 ∧ t `mod` p = 0 ∧ (t - 1) `mod` (4 * p) `div` p = 3) ∨
  (t `mod` (4 * p) ≠ 0 ∧ t `mod` p = 0 ∧ t `mod` (4 * p) `div` p = (t - 1) `mod` (4 * p) `div` p + 1) ∨
  (t `mod` (4 * p) ≠ 0 ∧ t `mod` p ≠ 0 ∧ t `mod` (4 * p) `div` p = (t - 1) `mod` (4 * p) `div` p).
Proof.
  intros Hp. assert (t `mod` (4 * p) `mod` p = t `mod` p) as Em.
  { rewrite Z.mul_comm, Z.rem_mul_r by lia. rewrite Z.mul_comm, Z.mod_add by lia. apply Z.mod_mod. lia. }
  set (x := t `mod` (4 * p)) in *. pose proof (Z.mod_pos_bound t (4 * p) ltac:(lia)) as Hx. fold x in Hx.
  destruct (next_mod (4 * p) ltac:(lia)) as [[E1 E2]|[E1 E2]]; fold x in E1, E2 |- *; rewrite E2.
  - left. split; [done|]. split; [rewrite <- Em, E1; apply Z.mod_0_l; lia|].
    symmetry. apply (Z.div_unique _ _ _ (p - 1)); lia.
  - right. pose proof (Z.div_mod x p) as Hd. pose proof (Z.mod_pos_bound x p Hp) as Hb. rewrite Em in Hd, Hb.
    destruct (decide (t `mod` p = 0)) as [E|E]; [left|right]; (split; [done|]; split; [done|]).
    + rewrite <- (Z.div_unique (x - 1) p (x `div` p - 1) (p - 1)); lia.
    + rewrite <- (Z.div_unique (x - 1) p (x `div` p) (t `mod` p - 1)); lia.
Qed.

Lemma sizeStep_0 : sizeStep t 0.
Proof.
  destruct (decide (t ≤ 4)) as [Hs|Hs].
  { assert (t = 1 ∨ t = 2 ∨ t = 3 ∨ t = 4) as [E|[E|[E|E]]] by lia; rewrite E; split; vm_compute; reflexivity. }
  split; unfold snapSize, currSize, enters, snapSizeOf, currSizeOf; cbn [belowSize Nat.ltb Nat.leb Nat.eqb andb]; change (hf 0) with 2;
    rewrite ?(proj2 (Z.leb_gt t 1)), ?(proj2 (Z.leb_gt (t - 1) 1)), ?(proj2 (Z.leb_le (2 * 2) t)), ?(proj2 (Z.leb_le (2 * 2) (t - 1))) by lia.
  - destruct (next_mod 2 ltac:(lia)) as [[E1 E2]|[E1 E2]]; pose proof (Z.mod_pos_bound t 2).
    + rewrite E1, Z.eqb_refl. lia.
    + rewrite (proj2 (Z.eqb_neq _ _)) by done. lia.
  - destruct (next_mod 2 ltac:(lia)) as [[E1 E2]|[E1 E2]]; pose proof (Z.mod_pos_bound t 2).
    + rewrite E1. cbn [Z.eqb]. lia.
    + by rewrite (proj2 (Z.eqb_neq _ _)) by done.
Qed.

Lemma belowStep_0 : belowStep t 0.
Proof. unfold belowStep. simpl. lia. Qed.

Lemma belowStep_S j : (j < top)%nat → belowStep t j → sizeStep t j → belowStep t (S j).
Proof.
  unfold belowStep. intros Hj Hb [Hc Hs]. rewrite !belowSize_S, Hc, Hs, Hb. rewrite (proj2 (Nat.ltb_lt j top)) by done. cbn [andb enters].
  destruct (t `mod` hf j =? 0); lia.
Qed.

(** A full level gives its snapshot of [hf j] ledgers away. *)
Lemma enters_full j : (S j ≤ top)%nat → 2 * hf j ≤ t - 1 → enters t (S j) = if t `mod` hf j =? 0 then hf j else 0.
Proof.
  intros Hj Hn. cbn [enters]. destruct (t `mod` hf j =? 0); [|done]. unfold snapSize, snapSizeOf.
  destruct (Nat.eqb_spec j top); [lia|]. by rewrite (proj2 (Z.leb_le _ _)).
Qed.

Lemma sizeStep_S j : (S j ≤ top)%nat → belowStep t (S j) → sizeStep t (S j).
Proof.
  intros Hj Hb. unfold belowStep in Hb. pose proof (hf_pos j) as Hp. pose proof (hf_next j) as Hh.
  destruct (Nat.ltb_spec (S j) top) as [Hlt|Hge].
  2: { (* the last level keeps everything *)
       assert (Nat.eqb (S j) top = true) as He by (apply Nat.eqb_eq; lia). assert (Nat.ltb (S j) top = false) as Hf by (apply Nat.ltb_ge; lia).
       split; unfold currSize, snapSize, snapSizeOf, currSizeOf; rewrite ?He, ?Hf; cbn [andb]; lia. }
  assert (Nat.ltb (S j) top = true) as Hl by (by apply Nat.ltb_lt). assert (Nat.eqb (S j) top = false) as He by (apply Nat.eqb_neq; lia).
  assert (∀ n, currSize n (S j) = if hf (S j) <=? n then hf j * (1 + (n `mod` hf (S j)) `div` hf j) else n - belowSize n (S j)) as Ec.
  { intros n. unfold currSize, currSizeOf. by rewrite Hl. }
  assert (∀ n, snapSize n (S j) = if 2 * hf (S j) <=? n then hf (S j) else n - belowSize n (S j) - currSize n (S j)) as Es.
  { intros n. unfold snapSize, snapSizeOf. by rewrite He. }
  assert (currSize t (S j) = (if t `mod` hf (S j) =? 0 then 0 else currSize (t - 1) (S j)) + enters t (S j) ∧
          snapSize t (S j) = (if t `mod` hf (S j) =? 0 then currSize (t - 1) (S j) else snapSize (t - 1) (S j))) as [H1 H2].
  2: { split; rewrite Hl; [exact H1|exact H2]. }
  rewrite !Es, !Ec, Hh in *. destruct (Z.lt_trichotomy t (4 * hf j)) as [Hc|[Hc|Hc]].
  - rewrite (Z.mod_small t), (proj2 (Z.eqb_neq t 0)) by lia. rewrite !(proj2 (Z.leb_gt (4 * hf j) _)), !(proj2 (Z.leb_gt (2 * (4 * hf j)) _)) by lia. lia.
  - rewrite enters_full in Hb |- * by lia. rewrite Hc in Hb |- *. rewrite (Z.mod_same (4 * hf j)) by lia.
    rewrite (Z.mod_mul 4 (hf j)) in Hb |- * by lia. cbn [Z.eqb] in *. rewrite Z.div_0_l by lia.
    rewrite (proj2 (Z.leb_le (4 * hf j) (4 * hf j))), (proj2 (Z.leb_gt (4 * hf j) (4 * hf j - 1))), (proj2 (Z.leb_gt (2 * (4 * hf j)) (4 * hf j))) by lia. lia.
  - rewrite enters_full in Hb |- * by lia. rewrite !(proj2 (Z.leb_le (4 * hf j) _)) by lia.
    destruct (cycle (hf j) ltac:(lia)) as [(E1 & E2 & E3)|[(E1 & E2 & E3)|(E1 & E2 & E3)]].
    + rewrite E1, E2, E3 in *. cbn [Z.eqb]. rewrite Z.div_0_l by lia. destruct (multiple_cases t (4 * hf j)); [lia..|].
      rewrite (proj2 (Z.leb_le (2 * (4 * hf j)) t)) by lia. lia.
    + rewrite (proj2 (Z.eqb_neq (t `mod` (4 * hf j)) 0)) by done. rewrite E2, E3 in *. cbn [Z.eqb] in *.
      assert (t ≠ 2 * (4 * hf j)) by (intros E; apply E1; rewrite E; apply Z.mod_mul; lia).
      destruct (Z.leb_spec (2 * (4 * hf j)) t), (Z.leb_spec (2 * (4 * hf j)) (t - 1)); lia.
    + rewrite (proj2 (Z.eqb_neq (t `mod` (4 * hf j)) 0)) by done. rewrite (proj2 (Z.eqb_neq (t `mod` hf j) 0)) in * by done. rewrite E3.
      assert (t ≠ 2 * (4 * hf j)) by (intros E; apply E1; rewrite E; apply Z.mod_mul; lia).
      destruct (Z.leb_spec (2 * (4 * hf j)) t), (Z.leb_spec (2 * (4 * hf j)) (t - 1)); lia.
Qed.

Lemma steps_ok j : (j ≤ top)%nat → belowStep t j ∧ sizeStep t j.
Proof.
  induction j as [|j IH]; intros Hj; [split; [apply belowStep_0|apply sizeStep_0]|].
  destruct (IH ltac:(lia)) as [H1 H2]. assert (belowStep t (S j)) by (apply belowStep_S; [lia|done..]). split; [done|by apply sizeStep_S].
Qed.
End Step.

(** ** Bounds *)

Lemma mod_of_multiple n d : 0 < d → 2 * d ≤ n → 2 * d + n `mod` d ≤ n.
Proof. intros Hd Hn. pose proof (Z.div_mod n d). assert (2 ≤ n `div` d) by (apply Z.div_le_lower_bound; lia). nia. Qed.

Lemma mod_of_part n d : 0 < d → d ≤ n → d + n `mod` d ≤ n.
Proof. intros Hd Hn. pose proof (Z.div_mod n d). assert (1 ≤ n `div` d) by (apply Z.div_le_lower_bound; lia). nia. Qed.

Section Bounds.
Context (n : Z).
Hypothesis Hn : 1 ≤ n.

Record belowOk (j : nat) : Prop := {
  bo_range : 0 ≤ belowSize n j ≤ n;
  bo_full : hf j ≤ n → 3 * belowSize n j ≤ 2 * hf j
}.

(** A part of a level that is full *)
Lemma part_bounds j :
  let x := (n `mod` hf (S j)) `div` hf j in 0 ≤ x ≤ 3 ∧ hf j * x ≤ n `mod` hf (S j).
Proof.
  pose proof (hf_pos j). rewrite hf_next. pose proof (Z.mod_pos_bound n (4 * hf j) ltac:(lia)).
  pose proof (Z.div_mod (n `mod` (4 * hf j)) (hf j)). pose proof (Z.mod_pos_bound (n `mod` (4 * hf j)) (hf j) ltac:(lia)).
  assert (0 ≤ n `mod` (4 * hf j) `div` hf j) by (apply Z.div_pos; lia). simpl. split; [split; [done|]|lia].
  enough (n `mod` (4 * hf j) `div` hf j < 4) by lia. apply Z.div_lt_upper_bound; lia.
Qed.

Lemma currSize_bounds j :
  (j ≤ top)%nat → belowOk j →
  0 ≤ currSize n j ∧ belowSize n j + currSize n j ≤ n ∧
  ((j < top)%nat → hf j ≤ n → currSize n j ≤ hf j ∧ 4 * currSize n j ≤ hf j + 4 * (n `mod` hf j) + 2 ).
Proof.
  intros Hj [Hb Hf]. destruct j as [|i].
  - unfold currSize, currSizeOf. simpl. change (hf 0) with 2. pose proof (Z.mod_pos_bound n 2). zcases; lia.
  - unfold currSize, currSizeOf. destruct (part_bounds i) as [Hx1 Hx2]. pose proof (hf_pos i) as Hp. pose proof (hf_next i) as Hh.
    destruct (Nat.ltb_spec (S i) top) as [Hl|Hl]; cbn [andb]; [|lia].
    destruct (Z.leb_spec (hf (S i)) n) as [Hle|]; [|lia]. specialize (Hf Hle).
    pose proof (mod_of_part n (hf (S i)) ltac:(lia) Hle). nia.
Qed.

Lemma snapSize_bounds j :
  (j ≤ top)%nat → belowOk j →
  0 ≤ snapSize n j ∧ belowSize n j + currSize n j + snapSize n j ≤ n ∧ ((j < top)%nat → 2 * hf j ≤ n → snapSize n j = hf j).
Proof.
  intros Hj H. destruct (currSize_bounds j Hj H) as (Hc1 & Hc2 & Hc3). destruct H as [Hb Hf]. unfold snapSize, snapSizeOf.
  destruct (Nat.eqb_spec j top) as [->|]; [lia|]. destruct (Z.leb_spec (2 * hf j) n) as [Hle|]; [|lia].
  pose proof (hf_pos j). specialize (Hc3 ltac:(lia) ltac:(lia)). specialize (Hf ltac:(lia)).
  pose proof (mod_of_multiple n (hf j) ltac:(lia) Hle). split; [lia|]. split; [|done].
  destruct j as [|i]; [|pose proof (hf_next i); pose proof (hf_pos i); lia].
  change (hf 0) with 2 in *. unfold currSize, currSizeOf. simpl in *. pose proof (Z.mod_pos_bound n 2). zcases; lia.
Qed.

Lemma belowOk_all j : (j ≤ S top)%nat → 0 ≤ belowSize n j ≤ n ∧ ((j ≤ top)%nat → belowOk j).
Proof.
  induction j as [|j IH]; intros Hj.
  { simpl. split; [lia|]. intros _. split; [simpl; lia|]. intros _. pose proof (hf_pos 0). simpl. lia. }
  destruct (IH ltac:(lia)) as [_ Ho]. specialize (Ho ltac:(lia)). pose proof Ho as [Hb Hf].
  destruct (currSize_bounds j ltac:(lia) Ho) as (Hc1 & Hc2 & Hc3). destruct (snapSize_bounds j ltac:(lia) Ho) as (Hs1 & Hs2 & Hs3).
  rewrite belowSize_S. split; [lia|]. intros Hj'. split; [rewrite belowSize_S; lia|]. rewrite belowSize_S, hf_next. intros Hle.
  pose proof (hf_pos j). specialize (Hc3 ltac:(lia) ltac:(lia)). specialize (Hs3 ltac:(lia) ltac:(lia)). specialize (Hf ltac:(lia)). lia.
Qed.
End Bounds.

(** ** The code computes the closed forms *)

Lemma mod_mod_multiple a p q : 0 < p → 0 < q → (a `mod` (q * p)) `mod` p = a `mod` p.
Proof. intros Hp Hq. rewrite (Z.mul_comm q p), Z.rem_mul_r by lia. rewrite Z.mul_comm, Z.mod_add by lia. apply Z.mod_mod. lia. Qed.

(** Masking with a greater power leaves less. *)
Lemma mod_le_multiple a p q : 0 < p → 0 < q → a `mod` p ≤ a `mod` (q * p).
Proof.
  intros Hp Hq. rewrite <- (mod_mod_multiple a p q) by done. apply Z.mod_le; [|done].
  apply Z.mod_pos_bound. nia.
Qed.

Section Code.
Context (n : Z).
Hypothesis Hn : 1 ≤ n.
Hypothesis Hmax : n ≤ UINT32_MAX.

Lemma in_u32_below k : 0 ≤ k ≤ n → in_u32 k.
Proof using Hmax. word. Qed.

Lemma mask_full k j : 0 ≤ k ≤ n → (j ≤ top)%nat → mask k (2 ^ (2 * Z.of_nat j + 2)) = k - k `mod` (2 * hf j).
Proof using Hmax.
  intros Hk Hj. rewrite mask_spec by (apply in_u32_below || idtac; lia). unfold half. do 2 f_equal.
  replace (2 * Z.of_nat j + 2) with (1 + (2 * Z.of_nat j + 1)) by lia. rewrite Z.pow_add_r; lia.
Qed.

Lemma mask_hf k j : 0 ≤ k ≤ n → (j ≤ top)%nat → mask k (hf j) = k - k `mod` hf j.
Proof using Hmax. intros Hk Hj. apply mask_half; [by apply in_u32_below|unfold kNumLevels; lia]. Qed.

(** One unfolding of the loop for the current bucket of a full level *)
Lemma sizeOfCurr_step fuel k i :
  (S i < top)%nat → hf (S i) ≤ k ≤ n →
  sizeOfCurr (S fuel) k (Z.of_nat (S i)) =
  if k `mod` hf (S i) =? 0 then Ok (hf i)
  else
    let? previous := sizeOfCurr fuel (k - 1 - (k - 1) `mod` hf i) (Z.of_nat (S i)) in
    if k `mod` hf i =? 0 then Ok (u32 (previous + hf i)) else Ok previous.
Proof using Hmax Hn.
  intros Hi Hk. pose proof (hf_pos i) as Hp. pose proof (hf_next i) as Hh. cbn [sizeOfCurr]. unfold assertB.
  rewrite (proj2 (Z.eqb_neq k 0)) by lia. rewrite (proj2 (Z.ltb_lt _ kNumLevels)) by (unfold kNumLevels; lia). cbn [negb obind].
  rewrite (proj2 (Z.eqb_neq (Z.of_nat (S i)) 0)) by lia.
  rewrite levelSize_ok, levelHalf_ok by (unfold kNumLevels; lia). cbn [obind].
  rewrite (proj2 (Z.eqb_neq (Z.of_nat (S i)) (kNumLevels - 1))) by (unfold kNumLevels; lia). cbn [negb andb].
  replace (Z.of_nat (S i) - 1) with (Z.of_nat i) by lia.
  rewrite levelSize_ok, levelHalf_ok by (unfold kNumLevels; lia). cbn [obind].
  rewrite !mask_full, !mask_hf by lia.
  pose proof (mod_of_part k (hf (S i)) ltac:(lia) ltac:(lia)) as Hm. rewrite (proj2 (Z.eqb_neq _ 0)) by lia. cbn [negb].
  assert (∀ a d, (a - a `mod` d =? a) = (a `mod` d =? 0)) as Em.
  { intros a d. destruct (Z.eqb_spec (a `mod` d) 0), (Z.eqb_spec (a - a `mod` d) a); lia || done. }
  assert (∀ a d, 0 < d → (a `mod` d =? 0) || (a `mod` (2 * d) =? 0) = (a `mod` d =? 0)) as Eo.
  { intros a d Hd. destruct (Z.eqb_spec (a `mod` d) 0) as [|H]; [done|]. cbn [orb]. apply Z.eqb_neq. intros H2. apply H.
    rewrite <- (mod_mod_multiple a d 2), H2 by lia. apply Z.mod_0_l. lia. }
  rewrite !Em, !Eo by lia.
  replace (u32 (Z.shiftl 1 (2 * Z.of_nat (S i) - 1))) with (hf i).
  2:{ rewrite Z.shiftl_1_l. pose proof (half_small (Z.of_nat i) ltac:(unfold kNumLevels; lia)). unfold half in *.
      replace (2 * Z.of_nat (S i) - 1) with (2 * Z.of_nat i + 1) by lia. rewrite u32_small; [done|word]. }
  case_match; [done|].
  replace (Z.max _ _) with (k - 1 - (k - 1) `mod` hf i); [done|].
  pose proof (mod_le_multiple (k - 1) (hf i) 2 ltac:(lia) ltac:(lia)). pose proof (mod_le_multiple (k - 1) (hf i) 4 ltac:(lia) ltac:(lia)).
  pose proof (mod_le_multiple (k - 1) (hf i) 8 ltac:(lia) ltac:(lia)). rewrite Hh. replace (2 * (4 * hf i)) with (8 * hf i) by lia. lia.
Qed.

Lemma small_part i x : (i < top)%nat → 0 ≤ x ≤ 4 → u32 (hf i * x) = hf i * x.
Proof using.
  intros Hi Hx. pose proof (half_small (Z.of_nat i) ltac:(unfold kNumLevels; lia)). pose proof (hf_pos i). assert (0 ≤ hf i * x ≤ 2097152 * 4) by nia.
  apply u32_small. word.
Qed.

Lemma mod_sub_part k p h s : 0 < p → 0 < h → 0 ≤ s → k `mod` h = p * (s + 1) → (k - p) `mod` h = p * s.
Proof using.
  intros Hp Hh Hs E. symmetry. apply Z.mod_unique with (k `div` h); [left|].
  - pose proof (Z.mod_pos_bound k h Hh). nia.
  - pose proof (Z.div_mod k h). lia.
Qed.

(** The ledgers at which the level below spills *)
Lemma sizeOfCurr_aligned i : (S i < top)%nat → ∀ s fuel k,
  hf (S i) ≤ k ≤ n → k `mod` hf (S i) = hf i * Z.of_nat s → (s < fuel)%nat →
  sizeOfCurr fuel k (Z.of_nat (S i)) = Ok (hf i * (1 + Z.of_nat s)).
Proof using Hmax Hn.
  intros Hi. pose proof (hf_pos i) as Hp. pose proof (hf_next i) as Hh.
  induction s as [|s IH]; intros [|fuel] k Hk Hs Hf; try lia; rewrite sizeOfCurr_step by lia.
  { rewrite Hs. rewrite (proj2 (Z.eqb_eq _ 0)) by lia. f_equal. lia. }
  pose proof (Z.mod_pos_bound k (hf (S i)) ltac:(lia)) as Hb.
  assert (k `mod` hf i = 0) as Ha.
  { rewrite <- (mod_mod_multiple k (hf i) 4), <- Hh, Hs by lia. rewrite Z.mul_comm. apply Z.mod_mul. lia. }
  rewrite Hs, Ha, (proj2 (Z.eqb_neq (_ * _) 0)) by lia. cbn [Z.eqb].
  assert ((k - 1) `mod` hf i = hf i - 1) as ->.
  { symmetry. apply Z.mod_unique with (k `div` hf i - 1); [left; lia|]. pose proof (Z.div_mod k (hf i)). lia. }
  replace (k - 1 - (hf i - 1)) with (k - hf i) by lia.
  pose proof (mod_of_part k (hf (S i)) ltac:(lia) ltac:(lia)). rewrite IH; cycle 1.
  - nia.
  - apply mod_sub_part; lia.
  - lia.
  - cbn [obind]. rewrite <- (small_part i (1 + Z.of_nat (S s))) by nia. do 2 f_equal. lia.
Qed.

Lemma sizeOfCurr_full i fuel k :
  (S i < top)%nat → hf (S i) ≤ k ≤ n → (5 ≤ fuel)%nat →
  sizeOfCurr fuel k (Z.of_nat (S i)) = Ok (hf i * (1 + (k `mod` hf (S i)) `div` hf i)).
Proof using Hmax Hn.
  intros Hi Hk Hf. pose proof (hf_pos i) as Hp. pose proof (hf_next i) as Hh.
  pose proof (Z.mod_pos_bound k (hf (S i)) ltac:(lia)) as Hb. destruct (part_bounds k i) as [Hx1 Hx2].
  set (s := k `mod` hf (S i) `div` hf i) in *. pose proof (Z.div_mod (k `mod` hf (S i)) (hf i) ltac:(lia)) as Hd. fold s in Hd.
  assert (k `mod` hf (S i) `mod` hf i = k `mod` hf i) as Hm by (rewrite Hh; apply mod_mod_multiple; lia). rewrite Hm in Hd.
  assert (Z.of_nat (Z.to_nat s) = s) as Es by lia.
  destruct (decide (k `mod` hf i = 0)) as [E|E].
  { rewrite <- Es. apply sizeOfCurr_aligned; [done|done|lia|lia]. }
  destruct fuel as [|fuel]; [lia|]. rewrite sizeOfCurr_step by lia. pose proof (Z.mod_pos_bound k (hf i) ltac:(lia)).
  rewrite (proj2 (Z.eqb_neq (k `mod` hf (S i)) 0)) by nia.
  assert ((k - 1) `mod` hf i = k `mod` hf i - 1) as ->.
  { symmetry. apply Z.mod_unique with (k `div` hf i); [left; lia|]. pose proof (Z.div_mod k (hf i)). lia. }
  replace (k - 1 - (k `mod` hf i - 1)) with (k - k `mod` hf i) by lia.
  pose proof (mod_of_part k (hf (S i)) ltac:(lia) ltac:(lia)).
  rewrite <- Es. rewrite (sizeOfCurr_aligned i Hi (Z.to_nat s)); cycle 1.
  - nia.
  - rewrite Es. symmetry. apply Z.mod_unique with (k `div` hf (S i)); [left; nia|]. pose proof (Z.div_mod k (hf (S i))). lia.
  - lia.
  - cbn [obind]. by rewrite (proj2 (Z.eqb_neq (k `mod` hf i) 0)).
Qed.

Definition belowIs (j : nat) : Prop := ∀ fuel, (8 + 3 * j ≤ fuel)%nat → sizeBelow fuel n j = Ok (belowSize n j).

Lemma mask_zero j : (j ≤ top)%nat → (mask n (2 ^ (2 * Z.of_nat j + 2)) =? 0) = negb (2 * hf j <=? n).
Proof using Hmax Hn.
  intros Hj. rewrite mask_full by lia. pose proof (hf_pos j).
  destruct (Z.leb_spec (2 * hf j) n) as [H1|H1]; cbn [negb].
  - apply Z.eqb_neq. pose proof (mod_of_part n (2 * hf j)). lia.
  - apply Z.eqb_eq. rewrite Z.mod_small; lia.
Qed.

Lemma sizeOfCurr_below j fuel :
  (j ≤ top)%nat → belowIs j → (9 + 3 * j ≤ fuel)%nat → sizeOfCurr fuel n (Z.of_nat j) = Ok (currSize n j).
Proof using Hmax Hn.
  intros Hj Hb Hf. destruct (belowOk_all n Hn j ltac:(lia)) as [Hr _]. destruct j as [|i].
  - destruct fuel; [lia|]. unfold currSize, currSizeOf. cbn [sizeOfCurr]. unfold assertB.
    rewrite (proj2 (Z.eqb_neq n 0)) by lia. change (Z.of_nat 0 <? kNumLevels) with true. change (Z.of_nat 0 =? 0) with true. cbn [obind negb].
    rewrite u32_small by (pose proof (Z.mod_pos_bound n 2 ltac:(lia)); word). f_equal. zcases; lia.
  - unfold currSize, currSizeOf. pose proof (hf_next i) as Hh. pose proof (hf_pos i).
    destruct (Nat.ltb (S i) top && (hf (S i) <=? n)) eqn:E.
    { apply andb_true_iff in E as [E1%Nat.ltb_lt E2%Z.leb_le]. apply sizeOfCurr_full; lia. }
    destruct fuel as [|fuel]; [lia|]. cbn [sizeOfCurr]. unfold assertB. rewrite (proj2 (Z.eqb_neq n 0)) by lia.
    rewrite (proj2 (Z.ltb_lt _ kNumLevels)) by (unfold kNumLevels; lia). cbn [negb obind].
    rewrite (proj2 (Z.eqb_neq (Z.of_nat (S i)) 0)) by lia. rewrite levelSize_ok, levelHalf_ok by (unfold kNumLevels; lia). cbn [obind].
    rewrite mask_hf, Nat2Z.id by lia.
    replace (negb _ && negb _) with false.
    2:{ unfold kNumLevels. symmetry. apply andb_false_iff in E as [E|E].
        - apply Nat.ltb_ge in E. replace (Z.of_nat (S i)) with (11 - 1) by lia. done.
        - apply Z.leb_gt in E. rewrite Z.mod_small, Z.sub_diag by lia. apply andb_false_r. }
    rewrite Hb by lia. cbn [obind]. rewrite u32_small; [done|word].
Qed.

Lemma sizeOfSnap_below j fuel :
  (j ≤ top)%nat → belowIs j → (10 + 3 * j ≤ fuel)%nat → sizeOfSnap fuel n (Z.of_nat j) = Ok (snapSize n j).
Proof using Hmax Hn.
  intros Hj Hb Hf. destruct (belowOk_all n Hn j ltac:(lia)) as [Hr Ho]. specialize (Ho Hj).
  destruct (currSize_bounds n Hn j Hj Ho) as (Hc1 & Hc2 & _).
  destruct fuel as [|fuel]; [lia|]. cbn [sizeOfSnap]. unfold assertB. rewrite (proj2 (Z.eqb_neq n 0)) by lia.
  rewrite (proj2 (Z.ltb_lt _ kNumLevels)) by (unfold kNumLevels; lia). cbn [negb obind]. unfold snapSize, snapSizeOf.
  destruct (Nat.eqb_spec j top) as [->|Hne]; [done|].
  rewrite (proj2 (Z.eqb_neq (Z.of_nat j) (kNumLevels - 1))) by (unfold kNumLevels; lia).
  rewrite levelSize_ok by (unfold kNumLevels; lia). cbn [obind]. rewrite mask_zero, negb_involutive by done.
  destruct (2 * hf j <=? n); [apply levelHalf_ok; unfold kNumLevels; lia|].
  rewrite Nat2Z.id, Hb by lia. cbn [obind]. rewrite sizeOfCurr_below by (done || lia). cbn [obind].
  rewrite (u32_small (_ + _)) by word. rewrite u32_small by word. f_equal. lia.
Qed.

Lemma sizeBelow_ok j : (j ≤ S top)%nat → belowIs j.
Proof using Hmax Hn.
  induction j as [|j IH]; intros Hj fuel Hf; (destruct fuel as [|fuel]; [lia|]); [done|]. specialize (IH ltac:(lia)).
  destruct (belowOk_all n Hn j ltac:(lia)) as [Hr Ho]. specialize (Ho ltac:(lia)).
  destruct (currSize_bounds n Hn j ltac:(lia) Ho) as (Hc1 & Hc2 & _). destruct (snapSize_bounds n Hn j ltac:(lia) Ho) as (Hs1 & Hs2 & _).
  cbn [sizeBelow]. rewrite IH by lia. cbn [obind]. rewrite sizeOfCurr_below by (done || lia). cbn [obind].
  rewrite sizeOfSnap_below by (done || lia). cbn [obind]. rewrite belowSize_S. rewrite (u32_small (belowSize n j + _)) by word.
  by rewrite u32_small by word.
Qed.

Lemma sizeOfCurr_ok j fuel :
  (j ≤ top)%nat → (39 ≤ fuel)%nat → sizeOfCurr fuel n (Z.of_nat j) = Ok (currSize n j).
Proof using Hmax Hn. intros Hj Hf. apply sizeOfCurr_below; [done|apply sizeBelow_ok; lia|lia]. Qed.

Lemma sizeOfSnap_ok j fuel :
  (j ≤ top)%nat → (40 ≤ fuel)%nat → sizeOfSnap fuel n (Z.of_nat j) = Ok (snapSize n j).
Proof using Hmax Hn. intros Hj Hf. apply sizeOfSnap_below; [done|apply sizeBelow_ok; lia|lia]. Qed.
End Code.

(** Every ledger is in exactly one bucket. *)
Lemma belowSize_all n : belowSize n (S top) = n.
Proof.
  rewrite belowSize_S. unfold snapSize, snapSizeOf, currSize, currSizeOf. cbn [Nat.ltb Nat.leb Nat.eqb andb]. lia.
Qed.

(** ** The newest ledgers of the buckets *)

Definition newestCurr (n : Z) (j : nat) : Z := n - belowSize n j.
Definition newestSnap (n : Z) (j : nat) : Z := newestCurr n j - currSize n j.

Lemma newestCurr_S n j : newestCurr n (S j) = newestSnap n j - snapSize n j.
Proof. unfold newestSnap, newestCurr. rewrite belowSize_S. lia. Qed.

Lemma spills_level t j : (j ≤ top)%nat → spills t (Z.of_nat j) = Nat.ltb j top && (t `mod` hf j =? 0).
Proof.
  intros Hj. unfold spills, kNumLevels. f_equal.
  destruct (Nat.ltb_spec j top); [apply Z.ltb_lt|apply Z.ltb_ge]; lia.
Qed.

Section Boundaries.
Context (t : Z).
Hypothesis Ht : 1 ≤ t.

Lemma newestSnap_step j :
  (j ≤ top)%nat → newestSnap t j = if spills t (Z.of_nat j) then newestCurr (t - 1) j else newestSnap (t - 1) j.
Proof using Ht.
  intros Hj. destruct (steps_ok t Ht j Hj) as [Hb [Hc _]]. unfold belowStep in Hb. rewrite spills_level by done.
  unfold newestSnap, newestCurr. rewrite Hb, Hc. destruct (Nat.ltb j top && _); lia.
Qed.

Lemma newestCurr_step j :
  (S j ≤ top)%nat →
  newestCurr t (S j) = if spills t (Z.of_nat j) then newestSnap (t - 1) j else newestCurr (t - 1) (S j).
Proof using Ht.
  intros Hj. destruct (steps_ok t Ht (S j) Hj) as [Hb _]. unfold belowStep in Hb. rewrite spills_level by lia.
  rewrite (proj2 (Nat.ltb_lt j top)) by lia. cbn [andb enters] in *. rewrite (newestCurr_S (t - 1)). unfold newestSnap, newestCurr in *.
  rewrite Hb, belowSize_S. destruct (t `mod` hf j =? 0); lia.
Qed.
End Boundaries.

Lemma newestCurr_last n : newestCurr n (S top) = 0.
Proof. unfold newestCurr. rewrite belowSize_all. lia. Qed.

Lemma newestSnap_last n : newestSnap n top = 0.
Proof. pose proof (newestCurr_S n top) as E. rewrite newestCurr_last in E. change (snapSize n top) with 0 in E. lia. Qed.

Lemma newest_start j : newestCurr 0 j = 0 ∧ newestSnap 0 j = 0.
Proof.
  assert (∀ i, currSizeOf 0 i 0 = 0 ∧ snapSizeOf 0 i 0 0 = 0) as H0.
  { intros i. unfold currSizeOf, snapSizeOf. pose proof (hf_pos i). rewrite (proj2 (Z.leb_gt (hf i) 0)), (proj2 (Z.leb_gt (2 * hf i) 0)) by lia.
    destruct i; rewrite ?andb_false_r; by destruct (Nat.eqb _ _). }
  assert (belowSize 0 j = 0) as Hb.
  { induction j as [|j IH]; [done|]. cbn [belowSize]. rewrite IH. destruct (H0 j) as [-> H2]. rewrite H2. done. }
  unfold newestSnap, newestCurr, currSize. rewrite Hb. by destruct (H0 j) as [-> _].
Qed.

(** ** Buckets that are not empty span ledgers *)

Lemma snapSize_pos n j : (j < top)%nat → hf j ≤ n → 0 < snapSize n j.
Proof.
  intros Hj Hn. pose proof (hf_pos j) as Hp. destruct (belowOk_all n ltac:(lia) j ltac:(lia)) as [Hr Ho]. specialize (Ho ltac:(lia)).
  pose proof (bo_full _ _ Ho Hn) as Hb. unfold snapSize, snapSizeOf. destruct (Nat.eqb_spec j top); [lia|].
  destruct (Z.leb_spec (2 * hf j) n); [lia|].
  destruct (currSize_bounds n ltac:(lia) j ltac:(lia) Ho) as (Hc1 & Hc2 & Hc3). destruct (Hc3 ltac:(lia) Hn) as [_ Hc4].
  destruct j as [|i].
  - change (hf 0) with 2 in *. assert (n = 2 ∨ n = 3) as [-> | ->] by lia; vm_compute; reflexivity.
  - pose proof (mod_of_part n (hf (S i)) ltac:(lia) Hn). pose proof (hf_next i). pose proof (hf_pos i). lia.
Qed.

Lemma currSize_pos n j : (j ≤ top)%nat → match j with O => 1 | S i => 2 * hf i end ≤ n → 0 < currSize n j.
Proof.
  intros Hj Hn. destruct j as [|i].
  { unfold currSize, currSizeOf. pose proof (Z.mod_pos_bound n 2). zcases; lia. }
  pose proof (hf_pos i) as Hp. unfold currSize, currSizeOf. destruct (part_bounds n i) as [Hx1 Hx2].
  destruct (Nat.ltb (S i) top && (hf (S i) <=? n)); [nia|].
  destruct (belowOk_all n ltac:(lia) i ltac:(lia)) as [Hr Ho]. specialize (Ho ltac:(lia)). pose proof (bo_full _ _ Ho ltac:(lia)) as Hb.
  destruct (currSize_bounds n ltac:(lia) i ltac:(lia) Ho) as (Hc1 & Hc2 & Hc3). destruct (Hc3 ltac:(lia) ltac:(lia)) as [_ Hc4].
  destruct (snapSize_bounds n ltac:(lia) i ltac:(lia) Ho) as (_ & _ & Hs). rewrite belowSize_S, Hs by lia.
  pose proof (mod_of_multiple n (hf i) ltac:(lia) Hn). destruct i as [|i].
  - change (hf 0) with 2 in *. change (belowSize n 0) with 0 in *. pose proof (Z.mod_pos_bound n 2 ltac:(lia)). lia.
  - pose proof (hf_next i). pose proof (hf_pos i). lia.
Qed.

Lemma newest_bounds n j : 1 ≤ n → (j ≤ top)%nat → 0 ≤ newestCurr n (S j) ≤ newestSnap n j ∧ newestSnap n j ≤ newestCurr n j ≤ n.
Proof.
  intros Hn Hj. destruct (belowOk_all n Hn j ltac:(lia)) as [Hr Ho]. specialize (Ho Hj).
  destruct (currSize_bounds n Hn j Hj Ho) as (Hc1 & Hc2 & _). destruct (snapSize_bounds n Hn j Hj Ho) as (Hs1 & Hs2 & _).
  rewrite newestCurr_S. unfold newestSnap, newestCurr. lia.
Qed.

Section Oldest.
Context (n : Z) (j : nat).
Hypothesis Hn : 1 ≤ n.
Hypothesis Hmax : n ≤ UINT32_MAX.
Hypothesis Hj : (j ≤ top)%nat.

Lemma level_asserts {A} (k : BE A) :
  (let? _ := assertB (negb (n =? 0)) in let? _ := assertB (Z.of_nat j <? kNumLevels) in k) = k.
Proof using Hn Hj.
  unfold assertB. rewrite (proj2 (Z.eqb_neq n 0)) by lia. rewrite (proj2 (Z.ltb_lt _ kNumLevels)) by (unfold kNumLevels; lia). done.
Qed.

(** The oldest ledger of a bucket; [UINT32_MAX] when it spans none *)
Lemma oldestLedgerInCurr_ok fuel :
  (44 ≤ fuel)%nat → oldestLedgerInCurr fuel n (Z.of_nat j) = Ok (if currSize n j =? 0 then UINT32_MAX else newestSnap n j + 1).
Proof using Hn Hmax Hj.
  intros Hf. unfold oldestLedgerInCurr. rewrite level_asserts. rewrite (sizeOfCurr_ok n Hn Hmax j) by lia. cbn [obind].
  destruct (Z.eqb_spec (currSize n j) 0) as [|Hc]; [done|]. rewrite Nat2Z.id, (sizeBelow_ok n Hn Hmax j) by lia. cbn [obind].
  pose proof (newest_bounds n j Hn Hj) as H. unfold newestSnap, newestCurr in *. rewrite (u32_small (n - _)) by word.
  rewrite (u32_small (n - _ - _)) by word. by rewrite u32_small by word.
Qed.

Lemma oldestLedgerInSnap_ok fuel :
  (44 ≤ fuel)%nat → oldestLedgerInSnap fuel n (Z.of_nat j) = Ok (if snapSize n j =? 0 then UINT32_MAX else newestCurr n (S j) + 1).
Proof using Hn Hmax Hj.
  intros Hf. unfold oldestLedgerInSnap. rewrite level_asserts. rewrite (sizeOfSnap_ok n Hn Hmax j) by lia. cbn [obind].
  destruct (Z.eqb_spec (snapSize n j) 0) as [|Hs]; [done|]. replace (Z.to_nat (Z.of_nat j + 1)) with (S j) by lia.
  rewrite (sizeBelow_ok n Hn Hmax (S j)) by lia. cbn [obind].
  pose proof (newest_bounds n j Hn Hj) as H. rewrite newestCurr_S in *. unfold newestSnap, newestCurr in *. rewrite belowSize_S.
  rewrite (u32_small (n - _)) by word. rewrite u32_small by word. f_equal. lia.
Qed.
End Oldest.
