(* ===== verification/BucketListSafety.v ===== *)
(** * The bucket list represents the ledger

    From protocol 12 on, when merges have no shadows: adding the batches of
    consecutive ledgers never fails, and after each of them the newest entry of
    every key in the list is the state of the key in the ledger. *)

From stdpp Require Import prelude list gmap functions sorting.
From Stdlib Require Import ZArith Lia.
From S2P Require Import Prelude Numeric Exchange LedgerEntries Buckets BucketMerge BucketChain BucketList BucketLevels BucketSizes.
Local Open Scope Z_scope.

Notation VB := (Z * list BucketEntry)%type.

(** ** Buckets as versions and bodies; [None] is the empty bucket *)

Definition vb (x : option VB) : VB := default (0, []) x.
Definition concrete (x : option VB) : list BucketEntry := bucketOf (vb x).1 (vb x).2.
Definition get (k : LedgerKey) (x : option VB) : option BucketEntry := getEntry k (vb x).2.

Record goodVB (P : Z) (s : VB) : Prop := {
  good_low : FIRST_PROTOCOL_SHADOWS_REMOVED ≤ s.1;
  good_high : s.1 ≤ P;
  good_body : bodyOk s.1 s.2
}.

Definition good (P : Z) (x : option VB) : Prop := match x with Some s => goodVB P s | None => True end.

Lemma bodyOk_nil v : bodyOk v [].
Proof. split; [constructor..|]. intros _. constructor. Qed.

Lemma good_wellFormed P x : good P x → wellFormed (vb x).
Proof.
  destruct x as [[v l]|]; simpl; [|split; [by left|apply bodyOk_nil]]. intros [H1 H2 H3]. split; [|done]. right.
  unfold FIRST_PROTOCOL_SHADOWS_REMOVED, FIRST_PROTOCOL_SUPPORTING_INITENTRY_AND_METAENTRY in *. simpl in *. lia.
Qed.

Lemma good_le P P' x : good P x → P ≤ P' → good P' x.
Proof. destruct x as [s|]; [|done]. intros [H1 H2 H3] H. split; [done|lia|done]. Qed.

Lemma concrete_version P s : goodVB P s → getBucketVersion (concrete (Some s)) = Ok s.1.
Proof. intros H. destruct (good_wellFormed P (Some s) H). by apply getBucketVersion_of. Qed.

(** [r] is the merge of the older bucket [c] and the newer [s]. *)
Record isMerge (keep : bool) (c s : option VB) (r : VB) : Prop := {
  im_version : r.1 = Z.max (vb c).1 (vb s).1;
  im_body : bodyOk r.1 r.2;
  im_get : ∀ k, getEntry k r.2 = combine (get k c) (get k s) ≫= emit true keep []
}.

Lemma isMerge_good P keep c s r : good P c → goodVB P s → isMerge keep c (Some s) r → goodVB P r.
Proof.
  intros Hc [H1 H2 H3] [E Hb _]. simpl in E. unfold vb in E. destruct c as [c|]; simpl in *.
  - destruct Hc. split; [lia|lia|done].
  - unfold FIRST_PROTOCOL_SHADOWS_REMOVED in *. split; [unfold FIRST_PROTOCOL_SHADOWS_REMOVED|..]; [lia|lia|done].
Qed.

Lemma isMerge_unique keep c s r r' : isMerge keep c s r → isMerge keep c s r' → r = r'.
Proof.
  intros [E1 B1 G1] [E2 B2 G2]. destruct r as [v l], r' as [v' l']. simpl in *. f_equal; [congruence|].
  apply sorted_ext; try apply B1; try apply B2. intros k. by rewrite G1, G2.
Qed.

Lemma merge_good P keep c s :
  good P c → goodVB P s → (∀ k, compatible (get k c) (get k (Some s))) →
  ∃ r, merge (λ _, false) P (concrete c) (concrete (Some s)) [] keep = Ok (concrete (Some r)) ∧
    goodVB P r ∧ isMerge keep c (Some s) r.
Proof.
  intros Hc Hs Hk. pose proof (good_wellFormed P c Hc) as Wc. pose proof (good_wellFormed P (Some s) Hs) as Ws.
  assert ((vb c).1 ≤ P) as Hle. { destruct c as [c|]; simpl; [apply Hc|]. destruct Hs. unfold FIRST_PROTOCOL_SHADOWS_REMOVED in *. lia. }
  pose proof (good_low _ _ Hs) as Hlow. pose proof (good_high _ _ Hs) as Hhigh.
  destruct (vb c) as [vc lc] eqn:Ec. destruct s as [vs ls]. simpl in *.
  destruct (merge_spec P vc vs lc ls [] keep) as (r & E & [Wv Wb] & Hg); try done; [unfold mergeVersion; simpl; lia| |].
  { intros k. specialize (Hk k). unfold get in Hk. by rewrite Ec in Hk. }
  unfold mergeVersion in *. simpl in *. exists (Z.max vc vs, r).
  assert (isMerge keep c (Some (vs, ls)) (Z.max vc vs, r)) as Hm.
  { split; [by rewrite Ec|done|]. intros k. simpl. rewrite (Hg k). unfold get. rewrite Ec. simpl.
    rewrite (proj2 (Z.leb_le _ _)); [done|]. unfold FIRST_PROTOCOL_SUPPORTING_INITENTRY_AND_METAENTRY, FIRST_PROTOCOL_SHADOWS_REMOVED in *. lia. }
  split_and!; [|by apply (isMerge_good P) in Hm|done]. unfold concrete. rewrite Ec. simpl. exact E.
Qed.

(** ** What a bucket says about the ledgers it spans *)

Section Covers.

(** The ledger after each ledger number, and whether the entries carry the
    number of the ledger that wrote them *)
Context (St : Z → gmap LedgerKey LedgerEntry) (stamps : Prop).

Definition inSpan (lo hi : Z) (x : LedgerEntry) : Prop := stamps → lo < lastModifiedLedgerSeq x ≤ hi.

(** The entry of a key in a bucket that spans the ledgers after [lo] up to [hi] *)
Definition coversKey (lo hi : Z) (before after : option LedgerEntry) (e : option BucketEntry) : Prop :=
  match e with
  | None => after = before
  | Some (INITENTRY x) => before = None ∧ after = Some x ∧ inSpan lo hi x
  | Some (LIVEENTRY x) => after = Some x ∧ inSpan lo hi x
  | Some (DEADENTRY _) => after = None
  | Some (METAENTRY _) => False
  end.

(** The bucket leads from the ledger [lo] to the ledger [hi]. *)
Definition covers (lo hi : Z) (x : option VB) : Prop :=
  lo ≤ hi ∧ ∀ k, coversKey lo hi (St lo !! k) (St hi !! k) (get k x).

Lemma covers_refl n : covers n n None.
Proof. by split. Qed.

Lemma inSpan_mono lo hi lo' hi' x : lo' ≤ lo → hi ≤ hi' → inSpan lo hi x → inSpan lo' hi' x.
Proof. unfold inSpan. intros H1 H2 H Hs. specialize (H Hs). lia. Qed.

(** Neighbouring spans; the lowest level, which drops tombstones, begins with
    the empty ledger. *)
Lemma coversKey_combine keep lo mid hi b m a o n :
  lo ≤ mid ≤ hi → coversKey lo mid b m o → coversKey mid hi m a n → (keep = false → b = None) →
  coversKey lo hi b a (combine o n ≫= emit true keep []).
Proof.
  intros Hl Ho Hn Hk. pose proof (λ x, inSpan_mono lo mid lo hi x ltac:(lia) ltac:(lia)) as H1.
  pose proof (λ x, inSpan_mono mid hi lo hi x ltac:(lia) ltac:(lia)) as H2.
  destruct keep; [|specialize (Hk eq_refl)];
    destruct o as [[x|x|x|x]|], n as [[y|y|y|y]|]; cbn in *; try done; try naive_solver.
Qed.

Lemma covers_merge keep lo mid hi c s r :
  covers lo mid c → covers mid hi s → isMerge keep c s r → (keep = false → St lo = ∅) → covers lo hi (Some r).
Proof.
  intros [Lc Hc] [Ls Hs] [_ _ Hg] Hk. split; [lia|]. intros k. unfold get at 1. simpl. rewrite Hg.
  apply (coversKey_combine keep lo mid hi _ (St mid !! k)); [lia|apply Hc|apply Hs|]. intros E. by rewrite Hk.
Qed.

Lemma covers_None lo mid hi c : covers lo mid c → covers mid hi None → covers lo hi c.
Proof.
  intros [Lc Hc] [Ls Hs]. split; [lia|]. intros k. specialize (Hc k). rewrite (Hs k).
  pose proof (λ x, inSpan_mono lo mid lo hi x ltac:(lia) ltac:(lia)) as H1. destruct (get k c) as [[x|x|x|x]|]; cbn in *; naive_solver.
Qed.
End Covers.

(** ** Futures *)

Section Futures.
Context (hash : list BucketEntry → Z).
Notation sd := (λ _ : nat, false).

(** The future is clear, or resolves to the bucket [x]. *)
Definition futureIs (f : FutureBucket) (x : option VB) : Prop :=
  match x with
  | None => f = clearFuture
  | Some _ => isLive f = true ∧ hasHashes f = false ∧ ∃ f', resolve hash f = Ok (concrete x, f')
  end.

Lemma checkHashEq_refl b : checkHashEq hash b (Some (hash b)) = Ok tt.
Proof. unfold checkHashEq. by rewrite Z.eqb_refl. Qed.

Lemma newFuture_ok P level curr snap v b :
  getBucketVersion snap = Ok v → merge sd P curr snap [] (keepDeadEntries level) = Ok b →
  ∃ f f', newFuture hash sd curr snap [] P level = Ok f ∧ isMerging f = true ∧ isLive f = true ∧ hasHashes f = false ∧
    resolve hash f = Ok (b, f').
Proof.
  intros Hv Hm. unfold newFuture. rewrite Hv. cbn [obind isEmpty negb]. rewrite andb_false_r. unfold startMerge. cbn -[merge].
  rewrite !checkHashEq_refl, Hm. cbn. eexists _, _. split; [done|]. split_and!; try done.
  unfold resolve, checkState, checkHashesMatch. cbn. rewrite !checkHashEq_refl. done.
Qed.

Lemma resolve_again f b f' :
  resolve hash f = Ok (b, f') → isLive f' = true ∧ hasHashes f' = false ∧ resolve hash f' = Ok (b, f') ∧ isMerging f' = false.
Proof.
  unfold resolve. destruct (checkState hash f) as [[]|] eqn:Ec; [|done]. cbn [obind]. destruct (isLive f) eqn:El; [|done]. cbn [obind assertB].
  assert (∀ x, (let? _ := checkState hash {| mState := FB_LIVE_OUTPUT; mInputCurrBucket := None; mInputSnapBucket := None;
     mInputShadowBuckets := []; mOutputBucket := Some x; mOutputBucketFuture := None; mInputCurrBucketHash := None;
     mInputSnapBucketHash := None; mInputShadowBucketHashes := []; mOutputBucketHash := Some (hash x) |} in
     Ok (x, {| mState := FB_LIVE_OUTPUT; mInputCurrBucket := None; mInputSnapBucket := None;
     mInputShadowBuckets := []; mOutputBucket := Some x; mOutputBucketFuture := None; mInputCurrBucketHash := None;
     mInputSnapBucketHash := None; mInputShadowBucketHashes := []; mOutputBucketHash := Some (hash x) |})) = Ok (b, f') →
     isLive f' = true ∧ hasHashes f' = false ∧ resolve hash f' = Ok (b, f') ∧ isMerging f' = false) as Hnew.
  { intros x H. cbn in H. rewrite checkHashEq_refl in H. cbn in H. injection H as <- <-.
    split_and!; try done. unfold resolve, checkState, checkHashesMatch. cbn. by rewrite checkHashEq_refl. }
  destruct (mState f) eqn:Es; unfold isLive in El; rewrite Es in El; try discriminate El.
  - destruct (mOutputBucket f) as [x|] eqn:Eo; [|done]. intros [= <- <-]. rewrite Ec, Eo, Es. unfold hasHashes, isMerging, isLive. rewrite Es. done.
  - destruct (mOutputBucket f) as [x|]; [apply Hnew|]. destruct (mOutputBucketFuture f) as [[x|]|]; cbn [obind]; [apply Hnew|done..].
Qed.

Lemma futureIs_resolved f x f' : resolve hash f = Ok (concrete (Some x), f') → futureIs f' (Some x) ∧ isMerging f' = false.
Proof. intros H. apply resolve_again in H as (? & ? & ? & ?). split; [|done]. split_and!; eauto. Qed.
End Futures.

(** ** The list as levels of versions and bodies *)

Record AbsLevel : Type := { ac : option VB; asn : option VB; an : option VB }.

Definition levelRep (hash : list BucketEntry → Z) (l : BucketLevel) (j : nat) (a : AbsLevel) : Prop :=
  mLevel l = Z.of_nat j ∧ mCurr l = concrete (ac a) ∧ mSnap l = concrete (asn a) ∧ futureIs hash (mNextCurr l) (an a).

Notation levels := 11%nat.

Definition rep (hash : list BucketEntry → Z) (ls : list BucketLevel) (A : nat → AbsLevel) : Prop :=
  length ls = levels ∧ ∀ j l, ls !! j = Some l → levelRep hash l j (A j).

Section Levels.
Context (hash : list BucketEntry → Z).
Notation sd := (λ _ : nat, false).

Lemma rep_at ls A j : rep hash ls A → (j < levels)%nat → ∃ l, ls !! j = Some l ∧ levelAt j ls = Ok l ∧ levelRep hash l j (A j).
Proof.
  intros [Hl H] Hj. destruct (lookup_lt_is_Some_2 ls j ltac:(lia)) as [l El]. exists l. unfold levelAt. rewrite El. auto.
Qed.

Lemma rep_set ls A j l a : rep hash ls A → (j < levels)%nat → levelRep hash l j a → rep hash (<[j := l]> ls) (<[j := a]> A).
Proof.
  intros [Hl H] Hj Ha. split; [by rewrite length_insert|]. intros i m. destruct (decide (i = j)) as [->|Hne].
  - rewrite list_lookup_insert_eq by lia. rewrite fn_lookup_insert. by intros [= <-].
  - rewrite list_lookup_insert_ne, fn_lookup_insert_ne by done. apply H.
Qed.

(** The bucket that a level commits *)
Definition committed (a : AbsLevel) : option VB := match an a with Some r => Some r | None => ac a end.

Lemma commit_ok l j a :
  levelRep hash l j a →
  ∃ l', commit hash l = Ok l' ∧ levelRep hash l' j {| ac := committed a; asn := asn a; an := None |}.
Proof.
  intros (Hj & Hc & Hs & Hn). unfold commit, committed. destruct (an a) as [r|]; simpl in Hn.
  - destruct Hn as (-> & _ & f' & ->). cbn. by eexists.
  - rewrite Hn. cbn. rewrite Hn. cbn. by exists l.
Qed.

Lemma prepare_ok P ledger shadows l j a s r :
  levelRep hash l j a → an a = None → (j < levels)%nat → in_u32 ledger → good P (ac a) → goodVB P s →
  (∀ k, compatible (get k (if fromEmpty ledger (Z.of_nat j) then None else ac a)) (get k (Some s))) →
  isMerge (keepDeadEntries (Z.of_nat j)) (if fromEmpty ledger (Z.of_nat j) then None else ac a) (Some s) r →
  ∃ l', prepare hash sd ledger P (concrete (Some s)) shadows l = Ok l' ∧
    levelRep hash l' j {| ac := ac a; asn := asn a; an := Some r |}.
Proof.
  intros (Hj & Hc & Hs & Hn) Ha Hlt Hu Hg Hgs Hk Him. rewrite Ha in Hn. simpl in Hn. unfold prepare. rewrite Hn, Hj, Hc. cbn [isMerging mState clearFuture negb assertB obind].
  rewrite shouldMergeWithEmptyCurr_ok by (unfold kNumLevels; lia || done). cbn [obind]. rewrite (concrete_version P s Hgs). cbn [obind].
  rewrite (proj2 (Z.leb_le FIRST_PROTOCOL_SHADOWS_REMOVED s.1)) by apply Hgs.
  set (c := if fromEmpty ledger (Z.of_nat j) then None else ac a) in *.
  assert ((if fromEmpty ledger (Z.of_nat j) then [] else concrete (ac a)) = concrete c) as -> by (unfold c; by destruct (fromEmpty _ _)).
  destruct (merge_good P (keepDeadEntries (Z.of_nat j)) c s) as (r' & E & Hr & Hm); [unfold c; by destruct (fromEmpty _ _)|done|done|].
  rewrite <- (isMerge_unique _ _ _ _ _ Him Hm) in E.
  destruct (newFuture_ok hash P (Z.of_nat j) _ _ _ _ (concrete_version P s Hgs) E) as (f & f' & -> & Hmg & Hl & Hh & Hf).
  cbn [obind]. rewrite Hmg. cbn [assertB obind]. eexists. split; [done|].
  split; [done|]. split; [done|]. split; [done|]. simpl. split_and!; [done|done|by exists f'].
Qed.

(** Level [S j] after level [j] has spilled into it *)
Definition spilled (j : nat) (A : nat → AbsLevel) (r : VB) : nat → AbsLevel :=
  <[S j := {| ac := committed (A (S j)); asn := asn (A (S j)); an := Some r |}]>
    (<[j := {| ac := None; asn := ac (A j); an := an (A j) |}]> A).

Lemma spillInto_ok P ledger shadows ls A j c r :
  rep hash ls A → (S j < levels)%nat → in_u32 ledger → ac (A j) = Some c → goodVB P c → good P (committed (A (S j))) →
  (∀ k, compatible (get k (if fromEmpty ledger (Z.of_nat (S j)) then None else committed (A (S j)))) (get k (Some c))) →
  isMerge (keepDeadEntries (Z.of_nat (S j))) (if fromEmpty ledger (Z.of_nat (S j)) then None else committed (A (S j))) (Some c) r →
  ∃ ls', spillInto hash sd ledger P shadows (S j) ls = Ok ls' ∧ rep hash ls' (spilled j A r).
Proof.
  intros Hrep Hj Hu Hc Hgc Hgn Hk Him. unfold spillInto. replace (S j - 1)%nat with j by lia.
  destruct (rep_at ls A j Hrep ltac:(lia)) as (p & Ep & -> & Hp). cbn [obind snapLevel fst snd].
  destruct Hp as (Pj & Pc & Ps & Pn). rewrite Hc in Pc. rewrite Pc.
  set (p' := {| mLevel := mLevel p; mNextCurr := mNextCurr p; mCurr := []; mSnap := concrete (Some c) |}).
  assert (levelRep hash p' j {| ac := None; asn := ac (A j); an := an (A j) |}) as Hp' by (split_and!; try done; simpl; by rewrite Hc).
  pose proof (rep_set ls A j p' _ Hrep ltac:(lia) Hp') as Hrep1.
  destruct (rep_at _ _ (S j) Hrep1 Hj) as (l & El & -> & Hl). rewrite fn_lookup_insert_ne in Hl by lia. cbn [obind].
  destruct (commit_ok l (S j) _ Hl) as (l1 & -> & Hl1). cbn [obind].
  destruct (prepare_ok P ledger shadows l1 (S j) _ c r Hl1) as (l2 & -> & Hl2); try done.
  cbn [obind]. eexists. split; [done|]. by apply rep_set.
Qed.

(** Resolving a finished merge changes the form of the future only. *)
Lemma resolveReady_ok ready l j a :
  levelRep hash l j a →
  ∃ l', (if isMerging (mNextCurr l) then
           let? c := mergeComplete (ready (mLevel l)) (mNextCurr l) in
           if c then let? r := resolve hash (mNextCurr l) in Ok (setNext r.2 l) else Ok l
         else Ok l) = Ok l' ∧ levelRep hash l' j a.
Proof.
  intros H. destruct (isMerging (mNextCurr l)) eqn:Em; [|by exists l]. pose proof H as (Hj & Hc & Hs & Hn).
  destruct (an a) as [r|] eqn:Ea; simpl in Hn; [|by rewrite Hn in Em]. destruct Hn as (Hlive & Hh & f' & Hf).
  assert (levelRep hash (setNext f' l) j a) as Hset.
  { split_and!; try done. rewrite Ea. by apply (futureIs_resolved hash) in Hf as [? _]. }
  unfold mergeComplete. rewrite Hlive, Hf. cbn [assertB obind snd].
  destruct (mOutputBucket (mNextCurr l)); cbn [obind]; [by eexists|]. destruct (ready (mLevel l)); by eexists.
Qed.

Lemma resolveAny_from ready b ls A :
  (∀ j l, ls !! j = Some l → levelRep hash l (b + j) (A (b + j)%nat)) →
  ∃ ls', resolveAnyReadyFutures hash ready ls = Ok ls' ∧ length ls' = length ls ∧
    ∀ j l, ls' !! j = Some l → levelRep hash l (b + j) (A (b + j)%nat).
Proof.
  revert b. induction ls as [|l ls IH]; intros b H; [by exists []|]. cbn [resolveAnyReadyFutures].
  destruct (IH (S b)) as (ls' & E & Hl & H').
  { intros j m Hm. specialize (H (S j) m Hm). by replace (S b + j)%nat with (b + S j)%nat by lia. }
  destruct (resolveReady_ok ready l _ _ (H 0%nat l eq_refl)) as (l' & -> & Hl'). cbn [obind]. rewrite E. cbn [obind].
  eexists. split; [done|]. split; [simpl; lia|]. intros [|j] m Hm.
  - by injection Hm as <-.
  - specialize (H' j m Hm). by replace (b + S j)%nat with (S b + j)%nat by lia.
Qed.

Lemma resolveAny_ok ready ls A : rep hash ls A → ∃ ls', resolveAnyReadyFutures hash ready ls = Ok ls' ∧ rep hash ls' A.
Proof.
  intros [Hl H]. destruct (resolveAny_from ready 0 ls A H) as (ls' & E & Hl' & H'). exists ls'. split; [done|].
  split; [congruence|exact H'].
Qed.
End Levels.

(** ** What the whole list represents *)

Definition flatRange (A : nat → AbsLevel) (lo n : nat) : list (option VB) :=
  concat ((λ j, [ac (A j); asn (A j)]) <$> seq lo n).

(** The buckets, newest first *)
Definition flat (A : nat → AbsLevel) : list (option VB) := flatRange A 0 levels.

Definition chainOf (k : LedgerKey) (xs : list (option VB)) : list BucketEntry := omap (get k) xs.
Definition versOf (xs : list (option VB)) : list Z := fst <$> omap id xs.

Record Global (P : Z) (db : gmap LedgerKey LedgerEntry) (xs : list (option VB)) : Prop := {
  g_good : Forall (good P) xs;
  g_vers : StronglySorted (λ a b, b ≤ a) (versOf xs);
  g_life : ∀ k, lifeOk (chainOf k xs);
  g_state : ∀ k, stateOf (chainOf k xs) = db !! k
}.

Lemma chainOf_app k xs ys : chainOf k (xs ++ ys) = chainOf k xs ++ chainOf k ys.
Proof. apply omap_app. Qed.

Lemma chainOf_cons k x xs : chainOf k (x :: xs) = option_list (get k x) ++ chainOf k xs.
Proof. unfold chainOf. simpl. by destruct (get k x). Qed.

Lemma versOf_app xs ys : versOf (xs ++ ys) = versOf xs ++ versOf ys.
Proof. unfold versOf. by rewrite omap_app, fmap_app. Qed.

Lemma versOf_cons x xs : versOf (x :: xs) = option_list (fst <$> x) ++ versOf xs.
Proof. unfold versOf. by destruct x. Qed.

Lemma sorted_app_replace (R : Z → Z → Prop) l1 l2 l2' :
  StronglySorted R (l1 ++ l2) → StronglySorted R l2' → (∀ x, x ∈ l2' → x ∈ l2) → StronglySorted R (l1 ++ l2').
Proof.
  intros H H2 Hin. induction l1 as [|y l1 IH]; simpl in *; [done|]. inversion H as [|? ? Hs Hf]; subst. constructor; [by apply IH|].
  rewrite Forall_forall in Hf |- *. intros x [Hx|Hx]%elem_of_app; apply Hf; set_solver.
Qed.

Lemma sorted_app_r (R : Z → Z → Prop) l1 l2 : StronglySorted R (l1 ++ l2) → StronglySorted R l2.
Proof. induction l1 as [|y l1 IH]; simpl; [done|]. intros H. apply IH. by inversion H. Qed.

(** The newer bucket [s] and the older [ci] are replaced by their merge. *)
Lemma global_merge P db xs1 xs2 keep s ci r :
  Global P db (xs1 ++ s :: ci :: xs2) → isMerge keep ci s r → is_Some s ∨ is_Some ci →
  (keep = false → ∀ k, chainOf k xs2 = []) → Global P db (xs1 ++ Some r :: xs2).
Proof.
  intros [Hg Hv Hl Hs] [Ev Hb Hget] Hsome Hk. rewrite Forall_app, !Forall_cons in Hg. destruct Hg as (Hg1 & Hgs & Hgc & Hg2).
  assert (∀ k, option_list (combine (get k ci) (get k s) ≫= emit true keep []) = option_list (get k (Some r))) as Er.
  { intros k. unfold get at 3. simpl. by rewrite Hget. }
  assert (r.1 ∈ option_list (fst <$> s) ++ option_list (fst <$> ci)) as Hr.
  { rewrite Ev. unfold vb. destruct s as [s|], ci as [c|]; simpl.
    - destruct (Z.max_spec c.1 s.1) as [[_ ->]|[_ ->]]; set_solver.
    - rewrite Z.max_r; [set_solver|]. destruct Hgs. unfold FIRST_PROTOCOL_SHADOWS_REMOVED in *. lia.
    - rewrite Z.max_l; [set_solver|]. destruct Hgc. unfold FIRST_PROTOCOL_SHADOWS_REMOVED in *. lia.
    - by destruct Hsome as [[? [=]]|[? [=]]]. }
  rewrite versOf_app, !versOf_cons in Hv.
  assert (∀ (x : option VB) v, good P x → v ∈ option_list (fst <$> x) → FIRST_PROTOCOL_SHADOWS_REMOVED ≤ v ≤ P) as Hrange.
  { intros [x|] v Hx Hin; simpl in Hin; [|by apply elem_of_nil in Hin]. apply list_elem_of_singleton in Hin as ->. by destruct Hx. }
  split.
  - rewrite Forall_app, Forall_cons. split_and!; [done| |done]. assert (FIRST_PROTOCOL_SHADOWS_REMOVED ≤ r.1 ≤ P) as [H1 H2].
    { apply elem_of_app in Hr as [Hr|Hr]; [by apply (Hrange s)|by apply (Hrange ci)]. }
    by split.
  - rewrite versOf_app, versOf_cons. simpl. eapply sorted_app_replace; [exact Hv| |].
    + apply sorted_app_r in Hv. apply elem_of_app in Hr as [Hr|Hr].
      * destruct s as [s|]; simpl in *; [|by apply elem_of_nil in Hr]. apply list_elem_of_singleton in Hr as ->.
        inversion Hv as [|? ? H1 H2]; subst. apply sorted_app_r in H1. constructor; [done|]. by apply Forall_app in H2 as [_ H2].
      * apply sorted_app_r in Hv. destruct ci as [c|]; simpl in *; [|by apply elem_of_nil in Hr]. by apply list_elem_of_singleton in Hr as ->.
    + intros x [->|Hx]%elem_of_cons; set_solver.
  - intros k. specialize (Hl k). rewrite chainOf_app, !chainOf_cons in Hl. rewrite chainOf_app, chainOf_cons, <- Er.
    apply (chain_merge keep); [intros E; by apply Hk|done].
  - intros k. specialize (Hl k). rewrite <- (Hs k). rewrite !chainOf_app, !chainOf_cons in *. rewrite <- Er.
    apply (chain_merge keep); [intros E; by apply Hk|done].
Qed.

Lemma global_None P db xs1 xs2 : Global P db (xs1 ++ None :: xs2) ↔ Global P db (xs1 ++ xs2).
Proof.
  assert (∀ k, chainOf k (xs1 ++ None :: xs2) = chainOf k (xs1 ++ xs2)) as Hc by (intros k; by rewrite !chainOf_app, chainOf_cons).
  assert (versOf (xs1 ++ None :: xs2) = versOf (xs1 ++ xs2)) as Hv by (by rewrite !versOf_app, versOf_cons).
  split; intros [H1 H2 H3 H4]; split; try (rewrite Hv in *; done); try (intros k; specialize (H3 k); specialize (H4 k); rewrite Hc in *; done).
  - rewrite Forall_app in *. destruct H1 as [? H1]. by inversion H1.
  - rewrite Forall_app in *. destruct H1 as [? H1]. split; [done|]. by constructor.
Qed.

(** ** The state of each level at a ledger *)

Section History.

(** The ledger after each ledger number, and whether its entries are stamped *)
Context (St : Z → gmap LedgerKey LedgerEntry) (stamps : Prop).
Hypothesis St_start : St 0 = ∅.

(** The merge that runs into level [S j] at ledger [n] *)
Definition nextOk (P n : Z) (j : nat) (A : nat → AbsLevel) : Prop :=
  if hf j <=? n
  then ∃ r, an (A (S j)) = Some r ∧ goodVB P r ∧
         isMerge (keepDeadEntries (Z.of_nat (S j))) (if fromEmpty n (Z.of_nat (S j)) then None else ac (A (S j))) (asn (A j)) r
  else an (A (S j)) = None.

(** From which ledger on a level has a current bucket *)
Definition currFrom (j : nat) : Z := match j with O => 1 | S i => 2 * hf i end.

Definition nextAt (P n : Z) (j : nat) (A : nat → AbsLevel) : Prop :=
  match j with O => an (A 0%nat) = None | S i => nextOk P n i A end.

Definition snapAt (n : Z) (j : nat) (A : nat → AbsLevel) : Prop :=
  is_Some (asn (A j)) ↔ Z.of_nat j < kNumLevels - 1 ∧ hf j ≤ n.

Record levelAtLedger (P n : Z) (j : nat) (A : nat → AbsLevel) : Prop := {
  lv_curr : is_Some (ac (A j)) ↔ currFrom j ≤ n;
  lv_snap : snapAt n j A;
  lv_next : nextAt P n j A;
  lv_curr_span : covers St stamps (newestSnap n j) (newestCurr n j) (ac (A j));
  lv_snap_span : covers St stamps (newestCurr n (S j)) (newestSnap n j) (asn (A j))
}.

(** While the batch of ledger [t] is added and level [i] is the next to
    receive a spill: the levels above are done, the ones below are not touched,
    and level [i] may have given its current bucket away. *)
Record Mid (P t : Z) (db : gmap LedgerKey LedgerEntry) (i : nat) (A : nat → AbsLevel) : Prop := {
  mid_global : Global P db (flat A);
  mid_above : ∀ j, (i < j < levels)%nat → levelAtLedger P t j A;
  mid_below : ∀ j, (j < i)%nat → levelAtLedger P (t - 1) j A;
  mid_curr : if spills t (Z.of_nat i) then ac (A i) = None else is_Some (ac (A i)) ↔ currFrom i ≤ t - 1;
  mid_snap : snapAt t i A;
  mid_next : nextAt P (t - 1) i A;
  mid_curr_span : spills t (Z.of_nat i) = false → covers St stamps (newestSnap (t - 1) i) (newestCurr (t - 1) i) (ac (A i));
  mid_snap_span : covers St stamps (newestCurr t (S i)) (newestSnap t i) (asn (A i))
}.

Lemma nextOk_ext P n j A B :
  A (S j) = B (S j) → asn (A j) = asn (B j) → nextOk P n j A → nextOk P n j B.
Proof. unfold nextOk. intros -> ->. done. Qed.

Lemma levelAtLedger_ext P n j A B :
  A j = B j → (∀ i, j = S i → asn (A i) = asn (B i)) → levelAtLedger P n j A → levelAtLedger P n j B.
Proof.
  intros E Ei [H1 H2 H3 H4 H5]. split; [by rewrite <- E|unfold snapAt; by rewrite <- E| |by rewrite <- E..].
  destruct j as [|i]; simpl in *; [by rewrite <- E|]. apply (nextOk_ext P n i A B); auto.
Qed.

Lemma flatRange_ext A B lo n : (∀ i, (lo ≤ i < lo + n)%nat → A i = B i) → flatRange A lo n = flatRange B lo n.
Proof.
  intros H. unfold flatRange. f_equal. apply list_fmap_ext. intros i x Hx. apply lookup_seq in Hx as [-> Hlt]. rewrite H by lia. done.
Qed.

Lemma flatRange_app A lo n m : flatRange A lo (n + m) = flatRange A lo n ++ flatRange A (lo + n) m.
Proof. unfold flatRange. by rewrite seq_app, fmap_app, concat_app. Qed.

Lemma flat_split A j :
  (S j < levels)%nat →
  flat A = flatRange A 0 j ++ ac (A j) :: asn (A j) :: ac (A (S j)) :: asn (A (S j)) :: flatRange A (S (S j)) (levels - S (S j)).
Proof.
  intros Hj. unfold flat. replace levels with (j + (2 + (levels - S (S j))))%nat at 1 by lia. rewrite !flatRange_app.
  by replace (0 + j + 2)%nat with (S (S j)) by lia.
Qed.

Lemma spilled_self j A r : spilled j A r j = {| ac := None; asn := ac (A j); an := an (A j) |}.
Proof. unfold spilled. rewrite fn_lookup_insert_ne by lia. by rewrite fn_lookup_insert. Qed.

Lemma spilled_next j A r :
  spilled j A r (S j) = {| ac := committed (A (S j)); asn := asn (A (S j)); an := Some r |}.
Proof. unfold spilled. by rewrite fn_lookup_insert. Qed.

Lemma spilled_other j A r i : i ≠ j → i ≠ S j → spilled j A r i = A i.
Proof. intros H1 H2. unfold spilled. by rewrite !fn_lookup_insert_ne by done. Qed.

Lemma flat_spilled A j r :
  (S j < levels)%nat →
  flat (spilled j A r) = flatRange A 0 j ++ None :: ac (A j) :: committed (A (S j)) :: asn (A (S j)) :: flatRange A (S (S j)) (levels - S (S j)).
Proof.
  intros Hj. rewrite (flat_split _ j), spilled_self, spilled_next by done. simpl.
  rewrite (flatRange_ext (spilled j A r) A 0 j), (flatRange_ext (spilled j A r) A (S (S j))); [done|..];
    intros; apply spilled_other; lia.
Qed.

Lemma spills_mod t j : (S j < levels)%nat → spills t (Z.of_nat j) = (t `mod` hf j =? 0).
Proof. intros Hj. unfold spills. rewrite (proj2 (Z.ltb_lt _ _)); [done|]. unfold kNumLevels. lia. Qed.

Lemma spills_down t j : spills t (Z.of_nat (S j)) = true → spills t (Z.of_nat j) = true.
Proof. intros H. apply spills_below; [lia|]. by replace (Z.of_nat j + 1) with (Z.of_nat (S j)) by lia. Qed.

Section Spill.
Context (hash : list BucketEntry → Z) (P t : Z) (db : gmap LedgerKey LedgerEntry).
Hypothesis Ht : in_u32 t.
Hypothesis Hpos : 1 ≤ t.
Notation sd := (λ _ : nat, false).

Lemma mid_skip j A :
  (S j < levels)%nat → spills t (Z.of_nat j) = false → Mid P t db (S j) A → Mid P t db j A.
Proof.
  intros Hj Hsp [Hg Hab Hbe Hc Hs Hn Hcs Hss]. assert (t `mod` hf j ≠ 0) as Hm.
  { rewrite spills_mod in Hsp by done. by apply Z.eqb_neq in Hsp. }
  pose proof (hf_pos j) as Hh. assert (t ≠ hf j ∧ t ≠ 2 * hf j) as [H1 H2].
  { split; intros E; apply Hm; rewrite E; [apply Z.mod_same|apply Z.mod_mul]; lia. }
  destruct (spills t (Z.of_nat (S j))) eqn:Es; [apply spills_down in Es; congruence|].
  destruct (Hbe j ltac:(lia)) as [Bc Bs Bn Bcs Bss].
  assert (newestCurr t (S j) = newestCurr (t - 1) (S j) ∧ newestSnap t j = newestSnap (t - 1) j ∧
    newestSnap t (S j) = newestSnap (t - 1) (S j)) as (N1 & N2 & N3).
  { rewrite (newestCurr_step t Hpos), !(newestSnap_step t Hpos), Hsp, Es by lia. done. }
  split; try done.
  - intros i Hi. destruct (decide (i = S j)) as [->|]; [|apply Hab; lia].
    split; [simpl in *; rewrite Hc; lia|done| |rewrite N1, N3; by apply Hcs|done].
    simpl in *. unfold nextOk in *. rewrite (fromEmpty_stable t) by (try lia; by replace (Z.of_nat (S j) - 1) with (Z.of_nat j) by lia).
    destruct (Z.leb_spec (hf j) t), (Z.leb_spec (hf j) (t - 1)); try lia; done.
  - intros i Hi. apply Hbe. lia.
  - by rewrite Hsp.
  - unfold snapAt in *. rewrite Bs. lia.
  - by rewrite N1, N2.
Qed.

(** The merge that level [S j] commits is that of its current bucket and the
    old snapshot of level [j]. *)
Lemma global_spilled j A r :
  (S j < levels)%nat → spills t (Z.of_nat j) = true → Mid P t db (S j) A → Global P db (flat (spilled j A r)).
Proof.
  intros Hj Hsp [Hg _ Hbe Hc Hs Hn _ _]. rewrite spills_mod in Hsp by done. apply Z.eqb_eq in Hsp.
  destruct (Hbe j ltac:(lia)) as [_ Bs _ _ _]. rewrite (flat_split _ j) in Hg by done. rewrite flat_spilled by done. apply global_None.
  unfold nextAt, nextOk in Hn. unfold committed. destruct (Z.leb_spec (hf j) (t - 1)) as [Hle|Hlt].
  - destruct Hn as (r0 & -> & _ & Hm).
    assert ((if fromEmpty (t - 1) (Z.of_nat (S j)) then None else ac (A (S j))) = ac (A (S j))) as Ein.
    { rewrite fromEmpty_before; [|unfold kNumLevels; lia|done|lia|by replace (Z.of_nat (S j) - 1) with (Z.of_nat j) by lia].
      destruct (spills t (Z.of_nat (S j))); [by rewrite Hc|done]. }
    rewrite Ein in Hm. rewrite cons_middle, app_assoc in Hg |- *. eapply global_merge; [exact Hg|exact Hm| |].
    + left. apply Bs. unfold kNumLevels. lia.
    + intros Hk k. assert (S j = 10)%nat as Ej by (unfold keepDeadEntries, kNumLevels in Hk; apply Z.ltb_ge in Hk; lia).
      rewrite Ej in *. replace j with 9%nat by lia. rewrite chainOf_cons. unfold flatRange. simpl.
      destruct (asn (A 10%nat)) eqn:E; [|done]. unfold snapAt in Hs. rewrite E in Hs. destruct (proj1 Hs) as [H _]; [by eexists|done].
  - rewrite Hn. assert (asn (A j) = None) as Ea.
    { destruct (asn (A j)) eqn:E; [|done]. unfold snapAt in Bs. rewrite E in Bs. destruct (proj1 Bs) as [_ H]; [by eexists|lia]. }
    rewrite Ea in Hg. rewrite cons_middle, app_assoc in Hg |- *. exact (proj1 (global_None P db _ _) Hg).
Qed.

Lemma below_has_curr j A :
  (S j < levels)%nat → spills t (Z.of_nat j) = true → Mid P t db (S j) A → ∃ c, ac (A j) = Some c ∧ goodVB P c.
Proof.
  intros Hj Hsp M. pose proof (mid_below _ _ _ _ _ M j ltac:(lia)) as [Bc _ _ _ _]. rewrite spills_mod in Hsp by done. apply Z.eqb_eq in Hsp.
  pose proof (hf_pos j) as Hh. destruct (proj2 Bc) as [c Ec].
  { destruct (multiple_cases t (hf j)); try done; [lia| |]; (destruct j as [|i]; simpl; [lia|]; rewrite hf_next in *; pose proof (hf_pos i); lia). }
  exists c. split; [done|]. pose proof (g_good _ _ _ (mid_global _ _ _ _ _ M)) as Hg. rewrite (flat_split _ j) in Hg by done.
  rewrite Ec in Hg. apply Forall_app in Hg as [_ Hg]. by inversion Hg.
Qed.
Lemma compatible_None n : compatible None n.
Proof. by destruct n as [[]|]. Qed.

Lemma spilled_curr j A :
  (S j < levels)%nat → spills t (Z.of_nat j) = true → Mid P t db (S j) A → is_Some (committed (A (S j))) ↔ 2 * hf j ≤ t.
Proof.
  intros Hj Hsp [_ _ _ Hc _ Hn _ _]. rewrite spills_mod in Hsp by done. apply Z.eqb_eq in Hsp. pose proof (hf_pos j) as Hh.
  unfold committed. simpl in Hn, Hc. unfold nextOk in Hn. destruct (multiple_cases t (hf j)) as [Ht1|Ht1]; [lia|done|done|..].
  - rewrite (proj2 (Z.leb_gt _ _)) in Hn by lia. rewrite Hn.
    destruct (spills t (Z.of_nat (S j))); rewrite Hc; [|lia]. split; [by intros [? ?]|lia].
  - rewrite (proj2 (Z.leb_le _ _)) in Hn by lia. destruct Hn as (r & -> & _). split; [done|by eexists].
Qed.

(** What level [S j] gets spans the ledgers of its current bucket and of the
    snapshot below. *)
Lemma spilled_span j A :
  (S j < levels)%nat → spills t (Z.of_nat j) = true → Mid P t db (S j) A →
  covers St stamps (newestSnap t (S j)) (newestCurr t (S j)) (committed (A (S j))).
Proof.
  intros Hj Hsp [_ _ Hbe Hc Hs Hn Hcs _]. pose proof (lv_snap_span _ _ _ _ (Hbe j ltac:(lia))) as Hbelow.
  rewrite (newestCurr_step t Hpos), Hsp by lia.
  assert (covers St stamps (newestSnap t (S j)) (newestCurr (t - 1) (S j)) (ac (A (S j)))) as Hcur.
  { rewrite (newestSnap_step t Hpos) by lia. destruct (spills t (Z.of_nat (S j))); [rewrite Hc; apply covers_refl|by apply Hcs]. }
  assert (t `mod` hf j = 0) as Hmod by (rewrite spills_mod in Hsp by done; by apply Z.eqb_eq in Hsp).
  unfold nextAt, nextOk in Hn. unfold committed. destruct (Z.leb_spec (hf j) (t - 1)) as [Hle|Hlt].
  - destruct Hn as (r0 & -> & _ & Hm). rewrite fromEmpty_before in Hm; [|unfold kNumLevels; lia|done|lia|by replace (Z.of_nat (S j) - 1) with (Z.of_nat j) by lia].
    eapply covers_merge; [|exact Hbelow|exact Hm|].
    + destruct (spills t (Z.of_nat (S j))) eqn:E; [by rewrite Hc in Hcur|done].
    + intros Hk. assert (S j = 10)%nat as Ej by (unfold keepDeadEntries, kNumLevels in Hk; apply Z.ltb_ge in Hk; lia). rewrite Ej.
      by rewrite newestSnap_last.
  - rewrite Hn. assert (asn (A j) = None) as Ea.
    { pose proof (lv_snap _ _ _ _ (Hbe j ltac:(lia))) as Bs. unfold snapAt in Bs. destruct (asn (A j)) eqn:E; [|done].
      destruct (proj1 Bs) as [_ H]; [by eexists|lia]. }
    rewrite Ea in Hbelow. by eapply covers_None.
Qed.

Lemma spilled_mid j A c r :
  (S j < levels)%nat → spills t (Z.of_nat j) = true → Mid P t db (S j) A → ac (A j) = Some c → goodVB P r →
  isMerge (keepDeadEntries (Z.of_nat (S j))) (if fromEmpty t (Z.of_nat (S j)) then None else committed (A (S j))) (Some c) r →
  Mid P t db j (spilled j A r).
Proof.
  intros Hj Hsp M Ec Hr Hm. pose proof M as [_ Hab Hbe Hcur Hsn Hn Hcs Hss]. pose proof (hf_pos j) as Hh.
  assert (t `mod` hf j = 0) as Hmod by (rewrite spills_mod in Hsp by done; by apply Z.eqb_eq in Hsp).
  assert (hf j ≤ t) as Hle by (destruct (multiple_cases t (hf j)); lia).
  split.
  - by apply (global_spilled j A r).
  - intros i Hi. destruct (decide (i = S j)) as [->|Hne].
    + split.
      * rewrite spilled_next. by apply spilled_curr.
      * unfold snapAt in *. by rewrite spilled_next.
      * simpl. unfold nextOk. rewrite (proj2 (Z.leb_le _ _)) by lia. rewrite spilled_next, spilled_self. simpl. rewrite Ec. by exists r.
      * rewrite spilled_next. by apply spilled_span.
      * by rewrite spilled_next.
    + apply (levelAtLedger_ext P t i A); [symmetry; apply spilled_other; lia| |apply Hab; lia].
      intros i' ->. destruct (decide (i' = S j)) as [->|]; [by rewrite spilled_next|]. by rewrite spilled_other by lia.
  - intros i Hi. apply (levelAtLedger_ext P (t - 1) i A); [symmetry; apply spilled_other; lia| |apply Hbe; lia].
    intros i' ->. by rewrite spilled_other by lia.
  - by rewrite Hsp, spilled_self.
  - unfold snapAt. rewrite spilled_self. simpl. rewrite Ec. split; [intros _; unfold kNumLevels; lia|by eexists].
  - pose proof (lv_next _ _ _ _ (Hbe j ltac:(lia))) as Bn. destruct j as [|i]; cbn [nextAt] in *; [by rewrite spilled_self|].
    unfold nextOk in *. rewrite spilled_self. simpl. rewrite spilled_other by lia. destruct (Z.leb_spec (hf i) (t - 1)); [|done].
    destruct Bn as (r0 & E & Hr0 & Hm0). exists r0. split_and!; [done|done|].
    assert (fromEmpty (t - 1) (Z.of_nat (S i)) = true) as Ef.
    { rewrite fromEmpty_before; [done|unfold kNumLevels; lia|done|lia|]. replace (Z.of_nat (S i) - 1) with (Z.of_nat i) by lia.
      apply spills_down in Hsp. rewrite spills_mod in Hsp by lia. by apply Z.eqb_eq in Hsp. }
    rewrite Ef in Hm0 |- *. done.
  - by rewrite Hsp.
  - rewrite spilled_self, (newestCurr_step t Hpos), (newestSnap_step t Hpos), Hsp by lia. apply (lv_curr_span _ _ _ _ (Hbe j ltac:(lia))).
Qed.

(** The levels after the spill do not depend on how the futures are stored. *)
Lemma mid_spill j A :
  (S j < levels)%nat → spills t (Z.of_nat j) = true → Mid P t db (S j) A →
  ∃ A', Mid P t db j A' ∧
    ∀ shadows ls, rep hash ls A → ∃ ls', spillInto hash sd t P shadows (S j) ls = Ok ls' ∧ rep hash ls' A'.
Proof.
  intros Hj Hsp M. destruct (below_has_curr j A Hj Hsp M) as (c & Ec & Hc).
  pose proof (global_spilled j A (0, []) Hj Hsp M) as G0. rewrite flat_spilled in G0 by done.
  assert (good P (committed (A (S j)))) as Hcom.
  { pose proof (g_good _ _ _ G0) as H. rewrite Forall_app, !Forall_cons in H. apply H. }
  set (ci := if fromEmpty t (Z.of_nat (S j)) then None else committed (A (S j))).
  assert (∀ k, compatible (get k ci) (get k (Some c))) as Hk.
  { intros k. unfold ci. destruct (fromEmpty t (Z.of_nat (S j))); [apply compatible_None|].
    pose proof (g_life _ _ _ G0 k) as Hl. rewrite Ec, chainOf_app, !chainOf_cons in Hl. do 2 apply lifeOk_suffix in Hl.
    by eapply lifeOk_compatible. }
  destruct (merge_good P (keepDeadEntries (Z.of_nat (S j))) ci c) as (r & _ & Hr & Hm); [unfold ci; by destruct (fromEmpty _ _)|done|done|].
  exists (spilled j A r). split; [by eapply spilled_mid|]. intros shadows ls Hrep. by apply (spillInto_ok hash P t shadows ls A j c r).
Qed.

Lemma popTwo_ok (shadows : list (list BucketEntry)) : (2 ≤ length shadows)%nat →
  ∃ shadows', popTwo shadows = Ok shadows' ∧ length shadows' = (length shadows - 2)%nat.
Proof.
  intros H. unfold popTwo, assertB. rewrite (proj2 (Z.leb_le _ _)) by lia. eexists. split; [done|]. rewrite length_take. lia.
Qed.

Lemma spillLevels_ok i A :
  (i < levels)%nat → Mid P t db i A →
  ∃ A', Mid P t db 0 A' ∧
    ∀ shadows ls, length shadows = (2 * i)%nat → rep hash ls A →
      ∃ ls', spillLevels hash sd t P i shadows ls = Ok ([], ls') ∧ rep hash ls' A'.
Proof.
  revert A. induction i as [|j IH]; intros A Hi M.
  { exists A. split; [done|]. intros shadows ls Hsh Hrep. apply nil_length_inv in Hsh as ->. by exists ls. }
  assert (∃ A1, Mid P t db j A1 ∧ ∀ shadows ls, rep hash ls A → ∃ ls',
    (if spills t (Z.of_nat j) then spillInto hash sd t P shadows (S j) ls else Ok ls) = Ok ls' ∧ rep hash ls' A1) as (A1 & M1 & H1).
  { destruct (spills t (Z.of_nat j)) eqn:Hsp; [by apply mid_spill|]. exists A. split; [by apply mid_skip|]. intros shadows ls Hrep. by exists ls. }
  destruct (IH A1 ltac:(lia) M1) as (A' & M' & H'). exists A'. split; [done|]. intros shadows ls Hsh Hrep.
  cbn [spillLevels]. destruct (popTwo_ok shadows) as (sh & -> & Hl); [lia|]. cbn [obind].
  rewrite levelShouldSpill_ok by (try done; unfold kNumLevels; lia). cbn [obind].
  destruct (H1 sh ls Hrep) as (ls1 & -> & Hrep1). cbn [obind]. apply H'; [lia|done].
Qed.
End Spill.

(** ** Adding a batch *)

(** The ledger after an entry *)
Definition afterEntry (db : gmap LedgerKey LedgerEntry) (e : BucketEntry) : gmap LedgerKey LedgerEntry :=
  match entryState e with Some x => <[keyOf e := x]> db | None => delete (keyOf e) db end.

(** The ledger after a batch *)
Definition afterBatch (db : gmap LedgerKey LedgerEntry) (initEntries liveEntries : list LedgerEntry)
  (deadEntries : list LedgerKey) : gmap LedgerKey LedgerEntry :=
  foldl afterEntry db (batchEntries true initEntries liveEntries deadEntries).

(** Every key occurs once, and the created entries did not exist. *)
Definition batchOk (db : gmap LedgerKey LedgerEntry) (initEntries liveEntries : list LedgerEntry)
  (deadEntries : list LedgerKey) : Prop :=
  NoDup (keyOf <$> batchEntries true initEntries liveEntries deadEntries) ∧
  ∀ x, x ∈ initEntries → db !! LedgerEntryKey x = None.

Lemma afterEntry_eq db e : afterEntry db e !! keyOf e = entryState e.
Proof. unfold afterEntry. destruct (entryState e); [apply lookup_insert_eq|apply lookup_delete_eq]. Qed.

Lemma afterEntry_ne db e k : keyOf e ≠ k → afterEntry db e !! k = db !! k.
Proof. intros H. unfold afterEntry. destruct (entryState e); [by apply lookup_insert_ne|by apply lookup_delete_ne]. Qed.

Lemma afterEntries_get db B k :
  NoDup (keyOf <$> B) → Forall (λ e, plain e) B →
  foldl afterEntry db B !! k = match getEntry k B with Some e => entryState e | None => db !! k end.
Proof.
  revert db. induction B as [|e B IH]; intros db Hn Hp; [done|]. rewrite fmap_cons in Hn. apply NoDup_cons in Hn as [Hnot Hn].
  inversion Hp as [|? ? He Hp']; subst. simpl. rewrite IH by done. rewrite He. simpl. case_bool_decide as Hk.
  - rewrite (getEntry_None k B); [subst k; apply afterEntry_eq|]. intros x Hx _ E. apply Hnot. rewrite Hk, <- E. by apply list_elem_of_fmap_2.
  - destruct (getEntry k B); [done|by apply afterEntry_ne].
Qed.

Lemma getEntry_perm k r B :
  StronglySorted keyLt r → Forall (λ e, plain e) r → r ≡ₚ B → NoDup (keyOf <$> B) → getEntry k r = getEntry k B.
Proof.
  intros Hs Hp Hr Hn. destruct (getEntry k B) as [e|] eqn:E.
  - apply getEntry_key in E as (H1 & H2 & H3). apply getEntry_elem; try done. by rewrite Hr.
  - apply getEntry_None. intros e He Hpe Hk. rewrite Hr in He. clear - E He Hpe Hk. induction B as [|x B IH]; [by apply elem_of_nil in He|].
    simpl in E. destruct (negb (isMeta x) && bool_decide (keyOf x = k)) eqn:Eb; [done|]. apply elem_of_cons in He as [->|He]; [|by apply IH].
    by rewrite Hpe, bool_decide_true in Eb.
Qed.

Lemma global_le P P' db xs : Global P db xs → P ≤ P' → Global P' db xs.
Proof. intros [H1 H2 H3 H4] Hle. split; try done. eapply Forall_impl; [exact H1|]. intros x Hx. by apply (good_le P). Qed.

Lemma levelAtLedger_le P P' n j A : levelAtLedger P n j A → P ≤ P' → levelAtLedger P' n j A.
Proof.
  intros [H1 H2 H3 H4 H5] Hle. split; try done. destruct j as [|i]; [done|]. simpl in *. unfold nextOk in *.
  destruct (_ <=? n); [|done]. destruct H3 as (r & ? & Hr & ?). exists r. split_and!; try done. by apply (good_le P P' (Some r)).
Qed.

(** What the bucket of a batch holds for a key *)
Lemma batch_get P i l d r k :
  bodyOk P r → r ≡ₚ batchEntries true i l d → NoDup (keyOf <$> batchEntries true i l d) →
  get k (Some (P, r)) = getEntry k (batchEntries true i l d).
Proof. intros [Hs Hp _] Hr Hn. unfold get. simpl. by apply getEntry_perm. Qed.

(** The entries of the batch carry the number of the ledger. *)
Definition stamped (t : Z) (initEntries liveEntries : list LedgerEntry) : Prop :=
  ∀ x, x ∈ initEntries ++ liveEntries → lastModifiedLedgerSeq x = t.

Lemma covers_batch P t i l d r :
  batchOk (St (t - 1)) i l d → bodyOk P r → r ≡ₚ batchEntries true i l d → St t = afterBatch (St (t - 1)) i l d →
  (stamps → stamped t i l) → covers St stamps (t - 1) t (Some (P, r)).
Proof.
  intros [Hn Hi] Hb Hr Hst Hs. split; [lia|]. intros k. rewrite Hst. rewrite (batch_get P i l d r k Hb Hr Hn). unfold afterBatch. rewrite afterEntries_get by (done || apply batchEntries_plain).
  destruct (getEntry k (batchEntries true i l d)) as [e|] eqn:E; [|done]. apply getEntry_key in E as (H1 & H2 & <-).
  unfold batchEntries in H1. rewrite !elem_of_app, !list_elem_of_fmap in H1.
  assert (∀ x, x ∈ i ++ l → inSpan stamps (t - 1) t x) as Hspan. { intros x Hx H. specialize (Hs H x Hx). lia. }
  destruct H1 as [(y & -> & Hy)|[(y & -> & Hy)|(y & -> & Hy)]]; simpl; split_and?; try done; [by apply Hi|apply Hspan; set_solver..].
Qed.

(** A batch on top of the list *)
Lemma global_push P db xs i l d r :
  Global P db xs → batchOk db i l d → goodVB P (P, r) → r ≡ₚ batchEntries true i l d →
  Global P (afterBatch db i l d) (Some (P, r) :: xs).
Proof.
  intros [Hg Hv Hl Hs] [Hn Hi] Hr Hp. pose proof (good_body _ _ Hr) as [Hsr Hpr _]. simpl in *.
  assert (∀ k, get k (Some (P, r)) = getEntry k (batchEntries true i l d)) as Eg.
  { intros k. unfold get. simpl. by apply getEntry_perm. }
  assert (∀ k e, get k (Some (P, r)) = Some e → plain e ∧ (isInit e = true → stateOf (chainOf k xs) = None)) as Hpush.
  { intros k e E. rewrite Eg in E. apply getEntry_key in E as (H1 & H2 & <-). split; [done|]. intros Hini. rewrite Hs.
    unfold batchEntries in H1. rewrite !elem_of_app, !list_elem_of_fmap in H1.
    destruct H1 as [(x & -> & Hx)|[(x & -> & Hx)|(x & -> & Hx)]]; try discriminate Hini. by apply Hi. }
  assert (∀ k, lifeOk (chainOf k (Some (P, r) :: xs)) ∧ stateOf (chainOf k (Some (P, r) :: xs)) = afterBatch db i l d !! k) as Hk.
  { intros k. rewrite chainOf_cons. unfold afterBatch. rewrite afterEntries_get by (done || apply batchEntries_plain). rewrite <- Eg.
    destruct (get k (Some (P, r))) as [e|] eqn:E; simpl; [|by split; [apply Hl|apply Hs]].
    destruct (Hpush k e E) as [H1 H2]. by apply chain_push. }
  split; [by constructor| |intros k; apply Hk|intros k; apply Hk].
  rewrite versOf_cons. simpl. constructor; [done|]. apply Forall_forall. intros v Hin. unfold versOf in Hin.
  apply list_elem_of_fmap in Hin as ([w b] & -> & Hin). apply list_elem_of_omap in Hin as (x & Hx & E). simpl in E. subst x.
  rewrite Forall_forall in Hg. specialize (Hg _ Hx). simpl. by apply good_high in Hg.
Qed.

(** What the list guarantees after the batch of ledger [n] *)
Record ListInv (P n : Z) (db : gmap LedgerKey LedgerEntry) (A : nat → AbsLevel) : Prop := {
  inv_global : Global P db (flat A);
  inv_level : ∀ j, (j < levels)%nat → levelAtLedger P n j A
}.

Lemma mid_start P0 P t db A : P0 ≤ P → ListInv P0 (t - 1) db A → Mid P t db 10 A.
Proof.
  intros Hle [Hg Hl]. assert (∀ j, (j < levels)%nat → levelAtLedger P (t - 1) j A) as Hl' by (intros; by apply (levelAtLedger_le P0), Hle; apply Hl).
  destruct (Hl' 10%nat ltac:(lia)) as [Hc Hs Hn Hcs Hss]. split.
  - by apply (global_le P0).
  - lia.
  - intros j Hj. apply Hl'. lia.
  - done.
  - unfold snapAt in *. rewrite Hs. unfold kNumLevels. lia.
  - done.
  - intros _. exact Hcs.
  - by rewrite newestCurr_last, newestSnap_last in *.
Qed.

Lemma flat_head A : flat A = ac (A 0%nat) :: asn (A 0%nat) :: flatRange A 1 10.
Proof. done. Qed.

Section AddBatch.
Context (hash : list BucketEntry → Z).
Notation sd := (λ _ : nat, false).

(** Level 0 takes the batch. *)
Lemma add_to_level0 P t db A i l d :
  in_u32 t → 1 ≤ t → FIRST_PROTOCOL_SHADOWS_REMOVED ≤ P → St (t - 1) = db → St t = afterBatch db i l d →
  (stamps → stamped t i l) → Mid P t db 0 A → batchOk db i l d →
  ∃ b A', fresh P i l d = Ok b ∧ ListInv P t (afterBatch db i l d) A' ∧
    ∀ ls, rep hash ls A → ∃ l0 l1 l2, levelAt 0 ls = Ok l0 ∧ prepare hash sd t P b [] l0 = Ok l1 ∧ commit hash l1 = Ok l2 ∧
      rep hash (<[0%nat := l2]> ls) A'.
Proof.
  intros Hu Ht HP Hdb Hnew Hstamp [Hg Hab _ Hc Hs Hn Hcs Hss] Hb.
  assert (FIRST_PROTOCOL_SUPPORTING_INITENTRY_AND_METAENTRY ≤ P) as H11 by (unfold FIRST_PROTOCOL_SUPPORTING_INITENTRY_AND_METAENTRY, FIRST_PROTOCOL_SHADOWS_REMOVED in *; lia).
  destruct (fresh_spec P i l d) as (r & E & [_ Hw] & Hperm).
  { rewrite (proj2 (Z.leb_le _ _)) by done. apply Hb. }
  unfold freshVersion in *. rewrite (proj2 (Z.leb_le _ _)) in * by done. simpl in Hw.
  assert (goodVB P (P, r)) as Hr by (split; [done|simpl; lia|done]).
  pose proof (global_push P db _ i l d r Hg Hb Hr Hperm) as G. rewrite flat_head in G. simpl in Hn.
  assert (good P (ac (A 0%nat))) as Hga. { pose proof (g_good _ _ _ G) as H. rewrite !Forall_cons in H. apply H. }
  assert (∀ k, compatible (get k (ac (A 0%nat))) (get k (Some (P, r)))) as Hk.
  { intros k. pose proof (g_life _ _ _ G k) as Hl. rewrite !chainOf_cons in Hl. by apply lifeOk_compatible in Hl. }
  destruct (merge_good P true (ac (A 0%nat)) (P, r) Hga Hr Hk) as (m & _ & Hm & Him).
  eexists _, (<[0%nat := {| ac := Some m; asn := asn (A 0%nat); an := None |}]> A). split; [exact E|]. split.
  - split.
    + rewrite flat_head, fn_lookup_insert. simpl. rewrite (flatRange_ext _ A) by (intros j Hj; apply fn_lookup_insert_ne; lia).
      eapply (global_merge P _ [] _ true); [exact G|exact Him|by left; eexists|done].
    + intros [|j] Hj.
      * split; [|unfold snapAt in *; by rewrite fn_lookup_insert|cbn [nextAt]; by rewrite fn_lookup_insert|..].
        { rewrite fn_lookup_insert. simpl. split; [done|by eexists]. }
        { rewrite fn_lookup_insert. cbn [ac]. replace (newestCurr t 0) with t by (unfold newestCurr; simpl; lia).
          eapply covers_merge; [|apply (covers_batch P t i l d r); by rewrite ?Hdb|exact Him|done].
          rewrite (newestSnap_step t Ht) by lia. assert (newestCurr (t - 1) 0 = t - 1) as E1 by (unfold newestCurr; simpl; lia).
          rewrite E1 in *.
          destruct (spills t (Z.of_nat 0)); [rewrite Hc; apply covers_refl|by apply Hcs]. }
        { by rewrite fn_lookup_insert. }
      * apply (levelAtLedger_ext P t (S j) A); [by rewrite fn_lookup_insert_ne by lia| |apply Hab; lia].
        intros i' [= <-]. destruct (decide (j = 0)%nat) as [->|]; [by rewrite fn_lookup_insert|by rewrite fn_lookup_insert_ne by lia].
  - intros ls Hrep. destruct (rep_at hash ls A 0 Hrep ltac:(lia)) as (l0 & _ & E0 & R0).
    destruct (prepare_ok hash P t [] l0 0 _ (P, r) m R0 Hn ltac:(lia) Hu Hga Hr Hk Him) as (l1 & E1 & R1).
    destruct (commit_ok hash l1 0 _ R1) as (l2 & E2 & R2). exists l0, l1, l2. split_and!; [done|exact E1|done|]. by apply rep_set; [|lia|].
Qed.

Lemma addBatch_ok P0 P t db A i l d :
  in_u32 t → 1 ≤ t → FIRST_PROTOCOL_SHADOWS_REMOVED ≤ P → P0 ≤ P → St (t - 1) = db → St t = afterBatch db i l d →
  (stamps → stamped t i l) → ListInv P0 (t - 1) db A → batchOk db i l d →
  ∃ A', ListInv P t (afterBatch db i l d) A' ∧
    ∀ pess ready ls, rep hash ls A → ∃ ls', addBatch hash sd pess ready t P i l d ls = Ok ls' ∧ rep hash ls' A'.
Proof.
  intros Hu Ht HP HP0 Hdb Hnew Hstamp Hinv Hb.
  destruct (spillLevels_ok hash P t db Hu Ht 10 A) as (A1 & M1 & H1); [lia|by apply (mid_start P0)|].
  destruct (add_to_level0 P t db A1 i l d) as (b & A2 & Eb & Hinv2 & H2); try done.
  exists A2. split; [done|]. intros pess ready ls Hrep. unfold addBatch, assertB. rewrite (proj2 (Z.ltb_lt _ _)) by lia. cbn [obind].
  assert (length (concat ((λ l, [mCurr l; mSnap l]) <$> ls)) = (2 * length ls)%nat) as Hsh.
  { clear. induction ls as [|x ls IH]; [done|]. rewrite fmap_cons. cbn [concat]. rewrite length_app, IH. simpl. lia. }
  rewrite (proj1 Hrep) in Hsh |- *. destruct (popTwo_ok (concat ((λ l, [mCurr l; mSnap l]) <$> ls))) as (sh & -> & Hl); [lia|]. cbn [obind].
  change (levels - 1)%nat with 10%nat. destruct (H1 sh ls) as (ls1 & -> & Hrep1); [lia|done|]. cbn [obind isEmpty fst snd].
  rewrite Eb. cbn [obind]. destruct (H2 ls1 Hrep1) as (l0 & l1 & l2 & -> & E1 & E2 & Hrep2).
  cbn [obind]. rewrite E1. cbn [obind]. rewrite E2. cbn [obind]. destruct pess; [by exists (<[0%nat := l2]> ls1)|].
  by apply resolveAny_ok.
Qed.

(** ** Sequences of batches *)

Record Batch : Type := {
  b_protocol : Z;
  b_init : list LedgerEntry;
  b_live : list LedgerEntry;
  b_dead : list LedgerKey
}.

(** What happens to the list of a node: a ledger closes, with the
    configuration and the merges that are ready at that moment, or the node
    restarts. *)
Inductive NodeEvent : Type :=
| CloseLedger (pessimize : bool) (ready : Z → bool) (b : Batch)
| Restart (getBucketByHash : Z → option (list BucketEntry)) (maxProtocolVersion : Z).

(** The levels as a restart finds them: buckets without their merges *)
Definition dropFutures (ls : list BucketLevel) : list BucketLevel := setNext clearFuture <$> ls.

Fixpoint runNode (n : Z) (evs : list NodeEvent) (ls : list BucketLevel) : BE (list BucketLevel) :=
  match evs with
  | [] => Ok ls
  | CloseLedger pess ready b :: evs =>
      let? ls := addBatch hash sd pess ready (n + 1) (b_protocol b) (b_init b) (b_live b) (b_dead b) ls in
      runNode (n + 1) evs ls
  | Restart getBucketByHash maxProtocolVersion :: evs =>
      let? ls := restartMerges hash sd getBucketByHash maxProtocolVersion n (dropFutures ls) in
      runNode n evs ls
  end.

Definition batchOf (ev : NodeEvent) : option Batch :=
  match ev with CloseLedger _ _ b => Some b | Restart _ _ => None end.

Definition ledgerAfter (db : gmap LedgerKey LedgerEntry) (bs : list Batch) : gmap LedgerKey LedgerEntry :=
  foldl (λ db b, afterBatch db (b_init b) (b_live b) (b_dead b)) db bs.

(** Protocols do not decrease, and each batch fits the ledger before it. *)
Fixpoint batchesOk (P : Z) (db : gmap LedgerKey LedgerEntry) (bs : list Batch) : Prop :=
  match bs with
  | [] => True
  | b :: bs =>
      P ≤ b_protocol b ∧ batchOk db (b_init b) (b_live b) (b_dead b) ∧
      batchesOk (b_protocol b) (afterBatch db (b_init b) (b_live b) (b_dead b)) bs
  end.

(** The protocol after the batches *)
Definition lastProtocol (P : Z) (bs : list Batch) : Z := foldl (λ _ b, b_protocol b) P bs.

(** The batches after ledger [n] are stamped. *)
Fixpoint batchesStamped (n : Z) (bs : list Batch) : Prop :=
  match bs with
  | [] => True
  | b :: bs => stamped (n + 1) (b_init b) (b_live b) ∧ batchesStamped (n + 1) bs
  end.

(** Reading a key: the newest entry in the buckets of the list *)
Definition readKey (k : LedgerKey) (ls : list BucketLevel) : option LedgerEntry :=
  stateOf (omap (getEntry k) (concat ((λ l, [mCurr l; mSnap l]) <$> ls))).

Lemma rep_range ls A b :
  (∀ j l, ls !! j = Some l → levelRep hash l (b + j) (A (b + j)%nat)) →
  concat ((λ l, [mCurr l; mSnap l]) <$> ls) = concrete <$> flatRange A b (length ls).
Proof.
  revert b. induction ls as [|l ls IH]; intros b H; [done|]. cbn [length]. change (S (length ls)) with (1 + length ls)%nat.
  rewrite flatRange_app, fmap_cons, fmap_app. cbn [concat]. rewrite (IH (b + 1)%nat).
  - destruct (H 0%nat l eq_refl) as (_ & -> & -> & _). rewrite Nat.add_0_r. done.
  - intros j m Hm. specialize (H (S j) m Hm). by replace (b + 1 + j)%nat with (b + S j)%nat by lia.
Qed.

Lemma rep_buckets ls A : rep hash ls A → concat ((λ l, [mCurr l; mSnap l]) <$> ls) = concrete <$> flat A.
Proof. intros [Hlen H]. unfold flat. rewrite <- Hlen. by apply rep_range. Qed.

Lemma readKey_rep k ls A P n db : rep hash ls A → ListInv P n db A → readKey k ls = db !! k.
Proof.
  intros Hrep [Hg _]. unfold readKey. rewrite (rep_buckets ls A Hrep), <- (g_state _ _ _ Hg k). f_equal. unfold chainOf.
  generalize (flat A) as xs. induction xs as [|x xs IH]; [done|].
  change (match getEntry k (concrete x) with Some y => y :: omap (getEntry k) (concrete <$> xs) | None => omap (getEntry k) (concrete <$> xs) end
    = match get k x with Some y => y :: omap (get k) xs | None => omap (get k) xs end).
  rewrite IH. unfold concrete. by rewrite getEntry_bucketOf.
Qed.

(** ** Restarting *)

(** The merges of the levels below [i] run again. *)
Definition resumed (i : nat) (A : nat → AbsLevel) : nat → AbsLevel :=
  λ j, if Nat.ltb j i then A j else {| ac := ac (A j); asn := asn (A j); an := None |}.

Lemma resumed_curr i A j : ac (resumed i A j) = ac (A j).
Proof. unfold resumed. by destruct (Nat.ltb j i). Qed.

Lemma resumed_snap i A j : asn (resumed i A j) = asn (A j).
Proof. unfold resumed. by destruct (Nat.ltb j i). Qed.

Lemma rep_drop ls A : rep hash ls A → rep hash (dropFutures ls) (resumed 0 A).
Proof.
  intros [Hl H]. split; [unfold dropFutures; by rewrite length_fmap|]. intros j l Hj. unfold dropFutures in Hj.
  rewrite list_lookup_fmap in Hj. destruct (ls !! j) as [m|] eqn:E; [|done]. injection Hj as <-.
  destruct (H j m E) as (H1 & H2 & H3 & _). done.
Qed.

Lemma rep_eq ls A B : (∀ j, (j < levels)%nat → A j = B j) → rep hash ls A → rep hash ls B.
Proof. intros E [Hl H]. split; [done|]. intros j l Hj. rewrite <- E; [by apply H|]. rewrite <- Hl. by apply lookup_lt_Some in Hj. Qed.

Lemma fromEmpty_masked n level :
  1 ≤ level → fromEmpty (n - n `mod` half (level - 1)) level = fromEmpty n level.
Proof.
  intros Hl. unfold fromEmpty. rewrite (proj2 (Z.eqb_neq level 0)) by lia. do 2 f_equal.
  pose proof (half_pos (level - 1) ltac:(lia)) as Hp.
  rewrite Zminus_mod_idemp_r, Z.sub_diag, Z.mod_0_l by lia. lia.
Qed.

(** Older buckets do not have newer versions. *)
Lemma neighbour_versions P db A j s :
  (S j < levels)%nat → Global P db (flat A) → asn (A j) = Some s → goodVB s.1 s ∧ good s.1 (ac (A (S j))).
Proof.
  intros Hj [Hg Hv _ _] Es. rewrite (flat_split _ j) in * by done. rewrite Es in *.
  rewrite Forall_app, !Forall_cons in Hg. destruct Hg as (_ & _ & [S1 S2 S3] & Hc & _). split; [by split|].
  destruct (ac (A (S j))) as [c|]; [|done]. destruct Hc as [C1 C2 C3]. split; try done.
  rewrite versOf_app, !versOf_cons in Hv. do 2 apply sorted_app_r in Hv. simpl in Hv. inversion Hv as [|? ? _ Hf]; subst.
  simpl in Hf. by inversion Hf.
Qed.

Section Restart.
Hypothesis Hempty : hash [] = 0.
Hypothesis Hnonempty : ∀ b, b ≠ [] → hash b ≠ 0.
Context (getBucketByHash : Z → option (list BucketEntry)) (maxVersion P n : Z) (db : gmap LedgerKey LedgerEntry) (A : nat → AbsLevel).
Hypothesis Hn : in_u32 n.
Hypothesis Hinv : ListInv P n db A.

Lemma nothing_above j :
  (S j < levels)%nat → asn (A j) = None → ∀ i, (S j ≤ i < levels)%nat → an (A i) = None.
Proof.
  intros Hj Ea i Hi. pose proof (lv_snap _ _ _ _ (inv_level _ _ _ _ Hinv j ltac:(lia))) as Hs. unfold snapAt in Hs. rewrite Ea in Hs.
  assert (n < hf j) as Hlt.
  { destruct (Z.lt_ge_cases n (hf j)); [done|]. destruct (proj2 Hs) as [? [=]]. unfold kNumLevels. lia. }
  pose proof (lv_next _ _ _ _ (inv_level _ _ _ _ Hinv i ltac:(lia))) as Hnx. destruct i as [|i']; [lia|]. simpl in Hnx. unfold nextOk in Hnx.
  rewrite (proj2 (Z.leb_gt _ _)) in Hnx; [done|]. unfold half in *. eapply Z.lt_le_trans; [exact Hlt|]. apply Z.pow_le_mono_r; lia.
Qed.

(** One level: its merge starts again from the buckets of the list. *)
Lemma resume_level j l s :
  (S j < levels)%nat → asn (A j) = Some s → levelRep hash l (S j) {| ac := ac (A (S j)); asn := asn (A (S j)); an := None |} →
  ∃ l', prepare hash sd (mask n (hf j)) s.1 (concrete (Some s)) [] l = Ok l' ∧ levelRep hash l' (S j) (A (S j)).
Proof.
  intros Hj Es Hl. destruct (neighbour_versions P db A j s Hj (inv_global _ _ _ _ Hinv) Es) as [Hs Hc].
  pose proof (lv_next _ _ _ _ (inv_level _ _ _ _ Hinv (S j) Hj)) as Hnx. simpl in Hnx. unfold nextOk in Hnx.
  pose proof (lv_snap _ _ _ _ (inv_level _ _ _ _ Hinv j ltac:(lia))) as Hsn. unfold snapAt in Hsn. rewrite Es in Hsn.
  destruct (proj1 Hsn ltac:(by eexists)) as [_ Hle]. rewrite (proj2 (Z.leb_le _ _)) in Hnx by done.
  destruct Hnx as (r & Er & Hr & Hm). rewrite Es in Hm. rewrite mask_half by (try done; unfold kNumLevels; lia).
  assert (fromEmpty (n - n `mod` hf j) (Z.of_nat (S j)) = fromEmpty n (Z.of_nat (S j))) as Ef.
  { rewrite <- (fromEmpty_masked n (Z.of_nat (S j))) by lia. by replace (Z.of_nat (S j) - 1) with (Z.of_nat j) by lia. }
  assert (in_u32 (n - n `mod` hf j)) as Hu.
  { pose proof (hf_pos j). pose proof (Z.mod_pos_bound n (hf j)). pose proof (Z.mod_le n (hf j)). word. }
  destruct (prepare_ok hash s.1 (n - n `mod` hf j) [] l (S j) {| ac := ac (A (S j)); asn := asn (A (S j)); an := None |} s r) as (l' & E & Hl');
    try done; simpl; rewrite ?Ef; [|done|].
  - intros k. destruct (fromEmpty n (Z.of_nat (S j))); [apply compatible_None|].
    pose proof (g_life _ _ _ (inv_global _ _ _ _ Hinv) k) as Hk. rewrite (flat_split _ j), Es, chainOf_app, !chainOf_cons in Hk by done.
    do 2 apply lifeOk_suffix in Hk. by apply lifeOk_compatible in Hk.
  - exists l'. split; [done|]. simpl in Hl'. rewrite <- Er in Hl'. by destruct (A (S j)).
Qed.

Lemma restartLevels_ok fuel i ls :
  (i + fuel = levels)%nat → rep hash ls (resumed i A) →
  ∃ ls', restartLevels hash sd getBucketByHash maxVersion n fuel i ls = Ok ls' ∧ rep hash ls' A.
Proof.
  revert i ls. induction fuel as [|fuel IH]; intros i ls Hi Hrep.
  { exists ls. split; [done|]. eapply rep_eq; [|exact Hrep]. intros j Hj. unfold resumed. by rewrite (proj2 (Nat.ltb_lt j i)) by lia. }
  cbn [restartLevels]. destruct (rep_at hash ls _ i Hrep ltac:(lia)) as (l & El & -> & Hl). cbn [obind].
  assert (resumed i A i = {| ac := ac (A i); asn := asn (A i); an := None |}) as Ei by (unfold resumed; by rewrite Nat.ltb_irrefl).
  rewrite Ei in Hl. pose proof Hl as (_ & _ & _ & Hf). simpl in Hf. rewrite Hf. cbn [hasHashes isLive isClear clearFuture mState andb negb].
  assert (∀ m, levelRep hash m i (A i) → rep hash (<[i := m]> ls) (resumed (S i) A)) as Hset.
  { intros m Hm. eapply rep_eq; [|apply (rep_set hash ls (resumed i A) i m (A i) Hrep ltac:(lia) Hm)]. intros j Hj. unfold resumed.
    destruct (decide (j = i)) as [->|Hne]; [rewrite fn_lookup_insert; by rewrite (proj2 (Nat.ltb_lt i (S i))) by lia|].
    rewrite fn_lookup_insert_ne by done. destruct (Nat.ltb_spec j i), (Nat.ltb_spec j (S i)); try lia; done. }
  destruct i as [|j]; cbn [Z.of_nat].
  - cbn [Z.ltb Z.compare]. apply IH; [lia|]. rewrite <- (list_insert_id ls 0%nat l El). apply Hset.
    pose proof (lv_next _ _ _ _ (inv_level _ _ _ _ Hinv 0%nat ltac:(lia))) as Hnx. simpl in Hnx. rewrite <- Hnx in Hl. by destruct (A 0%nat).
  - change (0 <? Z.of_nat (S j)) with true. cbn [Z.of_nat]. replace (S j - 1)%nat with j by lia.
    destruct (rep_at hash ls _ j Hrep ltac:(lia)) as (p & _ & -> & (_ & _ & Hp & _)). cbn [obind]. rewrite Hp, resumed_snap.
    destruct (asn (A j)) as [s|] eqn:Es.
    + pose proof (neighbour_versions P db A j s ltac:(lia) (inv_global _ _ _ _ Hinv) Es) as [Hs _].
      rewrite (proj2 (Z.eqb_neq (hash _) 0)).
      2: { apply Hnonempty. unfold concrete, bucketOf. simpl. destruct Hs as [Hs _ _].
           rewrite (proj2 (Z.leb_le _ _)); [done|]. unfold FIRST_PROTOCOL_SHADOWS_REMOVED, FIRST_PROTOCOL_SUPPORTING_INITENTRY_AND_METAENTRY in *. lia. }
      rewrite (concrete_version _ s Hs). cbn [obind]. rewrite (proj2 (Z.ltb_ge _ _)) by apply Hs.
      change (Z.pos (Pos.of_succ_nat j)) with (Z.of_nat (S j)). replace (Z.of_nat (S j) - 1) with (Z.of_nat j) by lia.
      rewrite levelHalf_ok by (unfold kNumLevels; lia). cbn [obind].
      destruct (resume_level j l s ltac:(lia) Es Hl) as (l' & -> & Hl'). cbn [obind]. apply IH; [lia|by apply Hset].
    + change (concrete None) with (@nil BucketEntry). rewrite Hempty. cbn [Z.eqb]. exists ls. split; [done|].
      eapply rep_eq; [|exact Hrep]. intros i Hi'. unfold resumed. destruct (Nat.ltb_spec i (S j)) as [|Hge]; [done|].
      pose proof (nothing_above j ltac:(lia) Es i ltac:(lia)) as Hnone. by destruct (A i); simpl in *; subst.
Qed.
End Restart.

(** ** Runs *)

Section Runs.
Hypothesis Hempty : hash [] = 0.
Hypothesis Hnonempty : ∀ b, b ≠ [] → hash b ≠ 0.

Lemma restart_ok getBucketByHash maxVersion P n db A ls :
  in_u32 n → ListInv P n db A → rep hash ls A →
  ∃ ls', restartMerges hash sd getBucketByHash maxVersion n (dropFutures ls) = Ok ls' ∧ rep hash ls' A.
Proof.
  intros Hn Hinv Hrep. unfold restartMerges. apply rep_drop in Hrep as Hd. rewrite (proj1 Hd).
  by apply (restartLevels_ok Hempty Hnonempty getBucketByHash maxVersion P n db A Hn Hinv).
Qed.

(** The batches alone determine the levels of the list. *)
Lemma run_ok bs P n db A :
  FIRST_PROTOCOL_SHADOWS_REMOVED ≤ P → 0 ≤ n → n + Z.of_nat (length bs) ≤ UINT32_MAX →
  (∀ k, (k ≤ length bs)%nat → St (n + Z.of_nat k) = ledgerAfter db (take k bs)) →
  (stamps → batchesStamped n bs) → ListInv P n db A → batchesOk P db bs →
  ∃ A', ListInv (lastProtocol P bs) (n + Z.of_nat (length bs)) (ledgerAfter db bs) A' ∧
    ∀ evs ls, omap batchOf evs = bs → rep hash ls A → ∃ ls', runNode n evs ls = Ok ls' ∧ rep hash ls' A'.
Proof.
  revert P n db A. induction bs as [|b bs IH]; intros P n db A HP Hn Hmax HSt Hstamp Hinv Hok.
  - exists A. split; [by rewrite Z.add_0_r|]. intros evs. induction evs as [|ev evs IHe]; intros ls Hb Hrep; [by exists ls|].
    destruct ev as [pess ready b|g m]; [done|]. cbn [runNode].
    destruct (restart_ok g m P n db A ls) as (ls' & -> & Hrep'); [word|done|done|]. by apply IHe.
  - destruct Hok as (H1 & H2 & H3). simpl in Hmax.
    destruct (addBatch_ok P (b_protocol b) (n + 1) db A (b_init b) (b_live b) (b_dead b)) as (A1 & Hinv1 & Hadd);
      [word|lia|lia|done| | |intros H; by destruct (Hstamp H)|by rewrite Z.add_simpl_r|done|].
    { specialize (HSt 0%nat ltac:(lia)). by replace (n + 1 - 1) with (n + Z.of_nat 0) by lia. }
    { exact (HSt 1%nat ltac:(simpl; lia)). }
    destruct (IH (b_protocol b) (n + 1) (afterBatch db (b_init b) (b_live b) (b_dead b)) A1) as (A' & Hinv' & Hrun); [lia|lia|lia| |intros H; by destruct (Hstamp H)|done|done|].
    { intros k Hk. replace (n + 1 + Z.of_nat k) with (n + Z.of_nat (S k)) by lia. by rewrite HSt by (simpl; lia). }
    exists A'. split; [cbn [length ledgerAfter lastProtocol foldl]; by replace (n + Z.of_nat (S (length bs))) with (n + 1 + Z.of_nat (length bs)) by lia|].
    intros evs. induction evs as [|ev evs IHe]; intros ls Hb Hrep; [done|]. destruct ev as [pess ready b'|g m]; cbn [runNode].
    + injection Hb as -> Hb. destruct (Hadd pess ready ls Hrep) as (ls1 & -> & Hrep1). cbn [obind]. by apply Hrun.
    + destruct (restart_ok g m P n db A ls) as (ls' & -> & Hrep'); [word|done|done|]. by apply IHe.
Qed.

Definition emptyLevels : nat → AbsLevel := λ _, {| ac := None; asn := None; an := None |}.

Lemma new_list_rep : rep hash newBucketList emptyLevels.
Proof.
  split; [done|]. intros j l Hj. unfold newBucketList in Hj. rewrite list_lookup_fmap in Hj.
  destruct (seqZ 0 kNumLevels !! j) as [i|] eqn:E; [|done]. apply lookup_seqZ in E as [-> _]. by injection Hj as <-.
Qed.

Lemma new_list_inv P : ListInv P 0 ∅ emptyLevels.
Proof.
  split.
  - split; [by repeat constructor|constructor|done|done].
  - intros j Hj. split; simpl.
    + split; [by intros [? ?]|]. destruct j as [|i]; simpl; [lia|]. pose proof (hf_pos i). lia.
    + unfold snapAt. split; [by intros [? ?]|]. intros [_ H]. pose proof (hf_pos j). lia.
    + destruct j as [|i]; [done|]. simpl. unfold nextOk. rewrite (proj2 (Z.leb_gt _ _)); [done|]. pose proof (hf_pos i). lia.
    + destruct (newest_start j) as [-> ->]. apply covers_refl.
    + destruct (newest_start j) as [_ ->], (newest_start (S j)) as [-> _]. apply covers_refl.
Qed.
End Runs.
End AddBatch.
End History.
