(* ===== verification/BucketApply.v ===== *)
(** * Catching up from buckets (BucketApplicator.cpp, src/catchup/ApplyBucketsWork.cpp)

    Applying a bucket writes its entries to the database in batches; applying
    the buckets of a list from the oldest to the newest rebuilds the ledger that
    the list represents. *)

From stdpp Require Import prelude list gmap functions sorting.
From Stdlib Require Import ZArith Lia.
From S2P Require Import Prelude Numeric Exchange LedgerEntries Buckets BucketMerge BucketChain BucketList BucketLevels BucketListSafety.
Local Open Scope Z_scope.

Lemma applyEntry_after e ltx : plain e → applyEntry e ltx = Ok (afterEntry ltx e).
Proof. by destruct e. Qed.

Lemma afterEntry_twice db e : afterEntry (afterEntry db e) e = afterEntry db e.
Proof. unfold afterEntry. destruct (entryState e); [apply insert_insert_eq|apply delete_delete_eq]. Qed.

(** A batch stops at the end of the bucket or at an entry it has applied. *)
Lemma advanceBatch_spec maxV v fuel count r iter ltx :
  iterAt v r iter → bodyOk v r → v ≤ maxV → (length r ≤ fuel)%nat → 0 ≤ count < LEDGER_ENTRY_BATCH_COMMIT_SIZE →
  ∃ iter' d r', advanceBatch maxV fuel count iter ltx = Ok (iter', foldl afterEntry ltx (d ++ option_list (head r'))) ∧
    r = d ++ r' ∧ iterAt v r' iter' ∧ (r = [] ∨ d ≠ []).
Proof.
  revert count r iter ltx. induction fuel as [|fuel IH]; intros count r iter ltx Hat Hb Hv Hf Hc; (destruct r as [|e r]; [|try (simpl in Hf; lia)]).
  1,2: exists iter, [], []; simpl; rewrite (at_entry _ _ _ Hat); simpl; split_and!; auto.
  cbn [advanceBatch]. rewrite (at_entry _ _ _ Hat). cbn [head].
  rewrite (legal_newer v maxV e (legal_entry v e r Hb) Hv). cbn [obind].
  pose proof (bodyOk_cons _ _ _ Hb) as (Hb' & He & _). rewrite applyEntry_after by done. cbn [obind].
  rewrite (proj2 (Z.ltb_ge _ _)) by lia. destruct (next_body _ _ _ _ Hat Hb) as (it' & -> & Hat'). cbn [obind].
  destruct (decide (count + 1 < LEDGER_ENTRY_BATCH_COMMIT_SIZE)) as [Hlt|Hge].
  - destruct (IH (count + 1) r it' (afterEntry ltx e) Hat' Hb' Hv ltac:(simpl in Hf; lia) ltac:(lia)) as (it'' & d & r' & -> & -> & Hat'' & _).
    exists it'', (e :: d), r'. split_and!; auto.
  - assert (count + 1 = LEDGER_ENTRY_BATCH_COMMIT_SIZE) as -> by lia. exists it', [e], r.
    destruct r as [|f r]; [destruct fuel; simpl; rewrite (at_entry _ _ _ Hat'); split_and!; auto|].
    destruct fuel as [|fuel]; [simpl in Hf; lia|]. cbn [advanceBatch]. rewrite (at_entry _ _ _ Hat'). cbn [head].
    rewrite (legal_newer v maxV f (legal_entry v f r Hb') Hv). cbn [obind]. pose proof (bodyOk_cons _ _ _ Hb') as (_ & Hpf & _).
    rewrite applyEntry_after by done. cbn [obind]. rewrite (proj2 (Z.ltb_lt _ _)) by lia. split_and!; auto.
Qed.

Lemma applyBatches_spec maxV v fuel r iter root :
  iterAt v r iter → bodyOk v r → v ≤ maxV → (length r ≤ fuel)%nat →
  applyBatches maxV fuel iter root = Ok (foldl afterEntry root r).
Proof.
  revert r iter root. induction fuel as [|fuel IH]; intros r iter root Hat Hb Hv Hf; (destruct r as [|e r]; [|try (simpl in Hf; lia)]).
  1,2: simpl; by rewrite (at_entry _ _ _ Hat).
  cbn [applyBatches]. rewrite (at_entry _ _ _ Hat). cbn [head].
  destruct (advanceBatch_spec maxV v (length (mIn iter) + 1) 0 (e :: r) iter root Hat Hb Hv) as (it' & d & r' & -> & E & Hat' & [|Hd]).
  { rewrite (at_rest _ _ _ Hat). simpl. lia. }
  { unfold LEDGER_ENTRY_BATCH_COMMIT_SIZE. lia. }
  { done. }
  cbn [obind fst snd]. rewrite E in Hb, Hf |- *. rewrite (IH r'); try done.
  - f_equal. rewrite !foldl_app. destruct r' as [|f r']; [done|]. simpl. by rewrite afterEntry_twice.
  - by apply bodyOk_suffix in Hb.
  - rewrite length_app in Hf. destruct d; [done|]. simpl in Hf. lia.
Qed.

Lemma applyBucket_spec maxV v l root :
  wellFormed (v, l) → v ≤ maxV → applyBucket maxV (bucketOf v l) root = Ok (foldl afterEntry root l).
Proof.
  intros [Hv Hb] Hle. simpl in *. unfold applyBucket. destruct (open_body _ _ Hv Hb) as (it & -> & Hat). cbn [obind].
  rewrite (at_version _ _ _ Hat), (proj2 (Z.ltb_ge _ _)) by lia. apply (applyBatches_spec maxV v); try done.
  unfold bucketOf. destruct (_ <=? v); simpl; lia.
Qed.

(** What a key is after a sorted body has been applied *)
Lemma applied_get v l root k :
  bodyOk v l → foldl afterEntry root l !! k = match getEntry k l with Some e => entryState e | None => root !! k end.
Proof.
  intros [Hs Hp _]. apply afterEntries_get; [|done]. clear Hp. induction Hs as [|e l Hs IH He]; [constructor|]. rewrite fmap_cons. constructor; [|done].
  intros (f & E & Hf)%list_elem_of_fmap. rewrite Forall_forall in He. specialize (He f Hf). unfold keyLt in He.
  rewrite E, (cmp_refl keyCmp) in He. lia.
Qed.
