(* ===== verification/HistoryArchive.v ===== *)
(** * History archive states (src/history/HistoryArchive.cpp)

    A state names the buckets of a list by their hashes.  It is made from the
    list of a node, prepared for publishing, compared with the state of another
    node to find the buckets to fetch, and checked before it is applied. *)

From stdpp Require Import prelude list gmap.
From Stdlib Require Import ZArith Lia.
From S2P Require Import Prelude Numeric Exchange LedgerEntries Buckets BucketList.
Local Open Scope Z_scope.

Record HistoryStateBucket : Type := {
  hsb_curr : Z;
  hsb_next : FutureBucket;
  hsb_snap : Z
}.

Record HistoryArchiveState : Type := {
  currentLedger : Z;
  currentBuckets : list HistoryStateBucket
}.

(** [currentBuckets[i]] *)
Definition hsbAt (i : nat) (bs : list HistoryStateBucket) : BE HistoryStateBucket :=
  match bs !! i with Some b => Ok b | None => Fail BucketAssert end.

Definition withNext (f : FutureBucket) (b : HistoryStateBucket) : HistoryStateBucket :=
  {| hsb_curr := hsb_curr b; hsb_next := f; hsb_snap := hsb_snap b |}.

(** ** Futures of a state *)

Definition hasFuturesAllResolved (has : HistoryArchiveState) : bool :=
  forallb (λ b, negb (isMerging (hsb_next b))) (currentBuckets has).

Definition futuresAllClear (has : HistoryArchiveState) : bool :=
  forallb (λ b, isClear (hsb_next b)) (currentBuckets has).

Definition getOutputHash (f : FutureBucket) : BE Z :=
  let? _ := assertB (match mState f with FB_LIVE_OUTPUT | FB_HASH_OUTPUT => true | _ => false end) in
  match mOutputBucketHash f with Some h => Ok h | None => Fail BucketAssert end.

Definition getHashes (f : FutureBucket) : list Z :=
  option_list (mInputCurrBucketHash f) ++ option_list (mInputSnapBucketHash f) ++ mInputShadowBucketHashes f ++
  option_list (mOutputBucketHash f).

(** The default constructor: eleven levels of empty buckets *)
Definition emptyArchiveState : HistoryArchiveState :=
  {| currentLedger := 0; currentBuckets := replicate (Z.to_nat kNumLevels) {| hsb_curr := 0; hsb_next := clearFuture; hsb_snap := 0 |} |}.

Section States.
Context (hash : list BucketEntry → Z) (isShutdown : nat → bool).

(** The constructor from a bucket list *)
Definition newArchiveState (ledgerSeq : Z) (mLevels : list BucketLevel) : HistoryArchiveState :=
  {| currentLedger := ledgerSeq;
     currentBuckets := (λ l, {| hsb_curr := hash (mCurr l); hsb_next := mNextCurr l; hsb_snap := hash (mSnap l) |}) <$> mLevels |}.

Fixpoint resolveFutures (complete : FutureBucket → BE bool) (bs : list HistoryStateBucket) : BE (list HistoryStateBucket) :=
  match bs with
  | [] => Ok []
  | b :: bs =>
      let? b := (if isMerging (hsb_next b) then
                   let? c := complete (hsb_next b) in
                   if c then let? r := resolve hash (hsb_next b) in Ok (withNext r.2 b) else Ok b
                 else Ok b) in
      let? bs := resolveFutures complete bs in
      Ok (b :: bs)
  end.

Definition resolveAllFutures (has : HistoryArchiveState) : BE HistoryArchiveState :=
  let? bs := resolveFutures (λ _, Ok true) (currentBuckets has) in
  Ok {| currentLedger := currentLedger has; currentBuckets := bs |}.

(** [ready]: which merges have run to their end *)
Definition hasResolveAnyReadyFutures (ready : FutureBucket → bool) (has : HistoryArchiveState) : BE HistoryArchiveState :=
  let? bs := resolveFutures (λ f, mergeComplete (ready f) f) (currentBuckets has) in
  Ok {| currentLedger := currentLedger has; currentBuckets := bs |}.

(** The hash of the bucket list, from the hashes of the buckets *)
Definition getBucketListHash (sha : list Z → Z) (has : HistoryArchiveState) : Z :=
  sha ((λ b, sha [hsb_curr b; hsb_snap b]) <$> currentBuckets has).

(** ** Which buckets to fetch *)

Fixpoint inhibited (bs : list HistoryStateBucket) (inhibit : gset Z) : BE (gset Z) :=
  match bs with
  | [] => Ok inhibit
  | b :: bs =>
      let inhibit := {[ hsb_curr b ]} ∪ inhibit in
      let? next := (if isLive (hsb_next b)
                    then let? r := resolve hash (hsb_next b) in Ok r.2 else Ok (hsb_next b)) in
      let? has := hasOutputHash next in
      let? inhibit := (if has then let? h := getOutputHash next in Ok ({[ h ]} ∪ inhibit) else Ok inhibit) in
      inhibited bs ({[ hsb_snap b ]} ∪ inhibit)
  end.

(** The hashes of a level that are not yet in the set *)
Fixpoint takeNew (bs : list Z) (inhibit : gset Z) (ret : list Z) : gset Z * list Z :=
  match bs with
  | [] => (inhibit, ret)
  | j :: bs =>
      if bool_decide (j ∈ inhibit) then takeNew bs inhibit ret
      else takeNew bs ({[ j ]} ∪ inhibit) (ret ++ [j])
  end.

(** The loop from the level [i - 1] down *)
Fixpoint differing (currentBuckets : list HistoryStateBucket) (i : nat) (inhibit : gset Z) (ret : list Z) : BE (list Z) :=
  match i with
  | O => Ok ret
  | S i =>
      let? b := hsbAt i currentBuckets in
      let s := hsb_snap b in
      let? has := hasOutputHash (hsb_next b) in
      let? n := (if has then getOutputHash (hsb_next b) else Ok s) in
      let r := takeNew [s; n; hsb_curr b] inhibit ret in
      differing currentBuckets i r.1 r.2
  end.

Definition differingBuckets (has other : HistoryArchiveState) : BE (list Z) :=
  let? _ := assertB (hasFuturesAllResolved has) in
  let? inhibit := inhibited (currentBuckets other) {[ 0 ]} in
  differing (currentBuckets has) (Z.to_nat kNumLevels) inhibit [].

Definition allBuckets (has : HistoryArchiveState) : list Z :=
  elements (list_to_set (concat ((λ b, hsb_curr b :: hsb_snap b :: getHashes (hsb_next b)) <$> currentBuckets has)) : gset Z).

(** ** Checking and publishing *)

Section Stored.
Context (getBucketByHash : Z → option (list BucketEntry)).

(** The loop over the levels from [i] on *)
Fixpoint validBuckets (fuel i : nat) (bs : list HistoryStateBucket) : BE bool :=
  match fuel with
  | O => Ok true
  | S fuel =>
      let? level := hsbAt i bs in
      let? prev := hsbAt (i - 1) bs in
      match getBucketByHash (hsb_snap prev) with
      | None => Fail BucketAssert
      | Some snap =>
          if hash snap =? 0 then validBuckets fuel (S i) bs
          else
            let? v := getBucketVersion snap in
            if FIRST_PROTOCOL_SHADOWS_REMOVED <=? v
            then if negb (isClear (hsb_next level)) then Ok false else validBuckets fuel (S i) bs
            else
              let? o := hasOutputHash (hsb_next level) in
              if negb o then Ok false else validBuckets fuel (S i) bs
      end
  end.

Definition containsValidBuckets (has : HistoryArchiveState) : BE bool :=
  let? b := hsbAt 0 (currentBuckets has) in
  let? _ := assertB (isClear (hsb_next b)) in
  validBuckets (Z.to_nat kNumLevels - 1) 1 (currentBuckets has).

Fixpoint prepareLevels (protocol : Z) (fuel i : nat) (bs : list HistoryStateBucket) : BE (list HistoryStateBucket) :=
  match fuel with
  | O => Ok bs
  | S fuel =>
      let? level := hsbAt i bs in
      let? prev := hsbAt (i - 1) bs in
      let next := hsb_next level in
      let? removed := (if negb (isClear next) then
                         match getBucketByHash (hsb_snap prev) with
                         | Some snap => let? v := getBucketVersion snap in Ok (FIRST_PROTOCOL_SHADOWS_REMOVED <=? v)
                         | None => Fail BucketNullDeref
                         end
                       else Ok false) in
      let? next := (if removed then Ok clearFuture
                    else if hasHashes next && negb (isLive next)
                         then makeLive hash isShutdown getBucketByHash protocol (Z.of_nat i) next
                         else Ok next) in
      prepareLevels protocol fuel (S i) (<[i := withNext next level]> bs)
  end.

(** [protocol] is Config::CURRENT_LEDGER_PROTOCOL_VERSION. *)
Definition prepareForPublish (protocol : Z) (has : HistoryArchiveState) : BE HistoryArchiveState :=
  let? b := hsbAt 0 (currentBuckets has) in
  let? _ := assertB (isClear (hsb_next b)) in
  let? bs := prepareLevels protocol (Z.to_nat kNumLevels - 1) 1 (currentBuckets has) in
  Ok {| currentLedger := currentLedger has; currentBuckets := bs |}.
End Stored.
End States.
