(* ===== verification/ApplyBuckets.v ===== *)
(** * Catching up from buckets (src/catchup/ApplyBucketsWork.cpp)

    The work that brings the database of a node to the state of a history
    archive: from the highest level down, the first bucket that differs from the
    node's own and all newer ones are applied, after the entries modified since
    that bucket began have been deleted.  With it the check that runs after each
    bucket (src/invariant/BucketListIsConsistentWithDatabase.cpp) and the bucket
    manager's [assumeState]. *)

From stdpp Require Import prelude list gmap functions.
From Stdlib Require Import ZArith Lia.
From S2P Require Import Prelude Numeric Exchange LedgerEntries Buckets BucketList HistoryArchive.
Local Open Scope Z_scope.

(** Enough for the recursion of the size functions at every level *)
Definition sizeFuel : nat := 44.

(** ** The database *)

Definition deleteObjectsModifiedOnOrAfterLedger (ledger : Z) (db : LedgerMap) : LedgerMap :=
  filter (λ ke, lastModifiedLedgerSeq ke.2 < ledger) db.

Record LedgerRange : Type := { mFirst : Z; mCount : Z }.

Definition newLedgerRange (first count : Z) : BE LedgerRange :=
  let? _ := assertB ((count =? 0) || (0 <? first)) in Ok {| mFirst := first; mCount := count |}.

Definition inclusive (first last : Z) : BE LedgerRange :=
  let? _ := assertB (last <? UINT32_MAX) in newLedgerRange first (u32 (u32 (last - first) + 1)).

Definition rangeLimit (r : LedgerRange) : Z := u32 (mFirst r + mCount r).

(** A cast to [int] *)
Definition i32 (x : Z) : Z := if x <? 2147483648 then x else x - 4294967296.

(** [data.type()] of an entry *)
Definition dataType (e : LedgerEntry) : Z := keyType (LedgerEntryKey e).

Definition countObjects (let_ : Z) (ledgers : LedgerRange) (db : LedgerMap) : Z :=
  Z.of_nat (length (filter
    (λ e, dataType e = let_ ∧ i32 (mFirst ledgers) ≤ lastModifiedLedgerSeq e ∧ lastModifiedLedgerSeq e < i32 (rangeLimit ledgers))
    (snd <$> map_to_list db))).

(** ** The check of an applied bucket *)

(** The entries of the bucket, in order, against the database; the result is the
    entries counted by type. *)
Fixpoint checkEntries (fuel : nat) (oldestLedger newestLedger : Z) (db : LedgerMap) (previousEntry : option BucketEntry)
  (iter : BucketInputIterator) (counts : Z → Z) : BE (Z → Z) :=
  match mEntryPtr iter with
  | None => Ok counts
  | Some e =>
      match fuel with
      | O => Fail BucketOutOfFuel
      | S fuel =>
          if (match previousEntry with Some p => negb (BucketEntryIdCmp p e) | None => false end) then Fail InvariantDoesNotHold
          else
            let? counts := (match e with
              | LIVEENTRY x | INITENTRY x =>
                  if (lastModifiedLedgerSeq x <? oldestLedger) || (newestLedger <? lastModifiedLedgerSeq x)
                  then Fail InvariantDoesNotHold
                  else if bool_decide (db !! LedgerEntryKey x = Some x)
                       then Ok (<[dataType x := counts (dataType x) + 1]> counts)
                       else Fail InvariantDoesNotHold
              | DEADENTRY k => if bool_decide (db !! k = None) then Ok counts else Fail InvariantDoesNotHold
              | METAENTRY _ => Ok counts
              end) in
            let? iter := nextEntry iter in
            checkEntries fuel oldestLedger newestLedger db (Some e) iter counts
      end
  end.

(** The types in the order in which they are counted: ACCOUNT, TRUSTLINE, OFFER,
    DATA, CLAIMABLE_BALANCE *)
Definition countedTypes : list Z := [0; 1; 2; 3; 4].

(** BucketListIsConsistentWithDatabase::checkOnBucketApply *)
Definition consistentWithDatabase (bucket : list BucketEntry) (oldestLedger newestLedger : Z) (db : LedgerMap) : BE unit :=
  let? iter := openBucket bucket in
  let? counts := checkEntries (S (length bucket)) oldestLedger newestLedger db None iter (λ _, 0) in
  let? range := inclusive oldestLedger newestLedger in
  if forallb (λ t, countObjects t range db =? counts t) countedTypes then Ok tt else Fail InvariantDoesNotHold.

(** InvariantManagerImpl::checkOnBucketApply; [enabled]: is the check above
    configured? *)
Definition checkOnBucketApply (enabled : bool) (bucket : list BucketEntry) (ledger level : Z) (isCurr : bool) (db : LedgerMap)
  : BE unit :=
  let? oldestLedger := (if isCurr then oldestLedgerInCurr sizeFuel ledger level else oldestLedgerInSnap sizeFuel ledger level) in
  let? size := (if isCurr then sizeOfCurr sizeFuel ledger level else sizeOfSnap sizeFuel ledger level) in
  let newestLedger := u32 (u32 (oldestLedger - 1) + size) in
  if enabled then consistentWithDatabase bucket oldestLedger newestLedger db else Ok tt.

(** ** The work *)

Inductive WorkState : Type :=
| WORK_RUNNING
| WORK_WAITING
| WORK_SUCCESS
| WORK_FAILURE
| WORK_ABORTED.

Record ApplyBucketsWork : Type := {
  mHaveCheckedApplyStateValidity : bool;
  mApplying : bool;
  mTotalSize : Z;
  mWorkLevel : Z;
  mSnapBucket : option (list BucketEntry);
  mCurrBucket : option (list BucketEntry);
  mSnapApplicator : option BucketInputIterator;
  mCurrApplicator : option BucketInputIterator
}.

(** The node the work runs on *)
Record Node : Type := {
  database : LedgerMap;
  bucketList : list BucketLevel
}.

Section Work.
Context (hash : list BucketEntry → Z) (isShutdown : nat → bool).

(** The size of the file of a bucket *)
Context (getSize : list BucketEntry → Z).

(** The fetched buckets, and those of the bucket manager *)
Context (mBuckets : gmap Z (list BucketEntry)) (getBucketByHash : Z → option (list BucketEntry)).

(** The configuration: MODE_USES_IN_MEMORY_LEDGER, and the check of buckets *)
Context (inMemory invariantEnabled : bool).

Context (mApplyState : HistoryArchiveState) (mMaxProtocolVersion : Z).

Definition fetchBucket (h : Z) : BE (list BucketEntry) :=
  match mBuckets !! h with
  | Some b => Ok b
  | None => match getBucketByHash h with Some b => Ok b | None => Fail BucketAssert end
  end.

Definition addBucketSize (h : Z) (total : Z) : BE Z :=
  let? b := fetchBucket h in
  Ok (if 0 <? getSize b then u64 (total + getSize b) else total).

Fixpoint totalSize (bs : list HistoryStateBucket) (total : Z) : BE Z :=
  match bs with
  | [] => Ok total
  | b :: bs =>
      let? total := addBucketSize (hsb_snap b) total in
      let? total := addBucketSize (hsb_curr b) total in
      totalSize bs total
  end.

Definition onReset (checked : bool) : BE ApplyBucketsWork :=
  let? total := totalSize (currentBuckets mApplyState) 0 in
  Ok {| mHaveCheckedApplyStateValidity := checked; mApplying := false; mTotalSize := total; mWorkLevel := kNumLevels - 1;
        mSnapBucket := None; mCurrBucket := None; mSnapApplicator := None; mCurrApplicator := None |}.

Definition isLevelComplete (w : ApplyBucketsWork) : bool :=
  negb (mApplying w) || negb (isSome (mSnapApplicator w) || isSome (mCurrApplicator w)).

(** The constructor of BucketApplicator *)
Definition newApplicator (bucket : list BucketEntry) : BE BucketInputIterator :=
  let? iter := openBucket bucket in
  if mMaxProtocolVersion <? mMetadata iter then Fail VersionExceedsMax else Ok iter.

Definition startSnap (b : list BucketEntry) (it : BucketInputIterator) (w : ApplyBucketsWork) : ApplyBucketsWork :=
  {| mHaveCheckedApplyStateValidity := mHaveCheckedApplyStateValidity w; mApplying := true; mTotalSize := mTotalSize w;
     mWorkLevel := mWorkLevel w; mSnapBucket := Some b; mCurrBucket := mCurrBucket w;
     mSnapApplicator := Some it; mCurrApplicator := mCurrApplicator w |}.

Definition startCurr (b : list BucketEntry) (it : BucketInputIterator) (w : ApplyBucketsWork) : ApplyBucketsWork :=
  {| mHaveCheckedApplyStateValidity := mHaveCheckedApplyStateValidity w; mApplying := true; mTotalSize := mTotalSize w;
     mWorkLevel := mWorkLevel w; mSnapBucket := mSnapBucket w; mCurrBucket := Some b;
     mSnapApplicator := mSnapApplicator w; mCurrApplicator := Some it |}.

Definition startLevel (w : ApplyBucketsWork) (node : Node) : BE (ApplyBucketsWork * Node) :=
  let? _ := assertB (isLevelComplete w) in
  let? level := levelAt (Z.to_nat (mWorkLevel w)) (bucketList node) in
  let? i := hsbAt (Z.to_nat (mWorkLevel w)) (currentBuckets mApplyState) in
  let applySnap := negb (hsb_snap i =? hash (mSnap level)) in
  let applyCurr := negb (hsb_curr i =? hash (mCurr level)) in
  let? node := (if negb (mApplying w) && negb inMemory && (applySnap || applyCurr) then
                  let? oldestLedger := (if applySnap
                                        then oldestLedgerInSnap sizeFuel (currentLedger mApplyState) (mWorkLevel w)
                                        else oldestLedgerInCurr sizeFuel (currentLedger mApplyState) (mWorkLevel w)) in
                  Ok {| database := deleteObjectsModifiedOnOrAfterLedger oldestLedger (database node);
                        bucketList := bucketList node |}
                else Ok node) in
  let? w := (if mApplying w || applySnap then
               let? b := fetchBucket (hsb_snap i) in
               let? it := newApplicator b in Ok (startSnap b it w)
             else Ok w) in
  let? w := (if mApplying w || applyCurr then
               let? b := fetchBucket (hsb_curr i) in
               let? it := newApplicator b in Ok (startCurr b it w)
             else Ok w) in
  Ok (w, node).

Definition setSnapApplicator (b : option (list BucketEntry)) (it : option BucketInputIterator) (w : ApplyBucketsWork)
  : ApplyBucketsWork :=
  {| mHaveCheckedApplyStateValidity := mHaveCheckedApplyStateValidity w; mApplying := mApplying w;
     mTotalSize := mTotalSize w; mWorkLevel := mWorkLevel w; mSnapBucket := b; mCurrBucket := mCurrBucket w;
     mSnapApplicator := it; mCurrApplicator := mCurrApplicator w |}.

Definition setCurrApplicator (b : option (list BucketEntry)) (it : option BucketInputIterator) (w : ApplyBucketsWork)
  : ApplyBucketsWork :=
  {| mHaveCheckedApplyStateValidity := mHaveCheckedApplyStateValidity w; mApplying := mApplying w;
     mTotalSize := mTotalSize w; mWorkLevel := mWorkLevel w; mSnapBucket := mSnapBucket w; mCurrBucket := b;
     mSnapApplicator := mSnapApplicator w; mCurrApplicator := it |}.

(** One batch of the applicator *)
Definition advanceWork (w : ApplyBucketsWork) (it : BucketInputIterator) (db : LedgerMap) : BE (BucketInputIterator * LedgerMap) :=
  let? _ := assertB (isSome (mEntryPtr it)) in
  let? _ := assertB (negb (mTotalSize w =? 0)) in
  advanceBatch mMaxProtocolVersion (length (mIn it) + 1) 0 it db.

Definition lowerLevel (w : ApplyBucketsWork) : ApplyBucketsWork :=
  {| mHaveCheckedApplyStateValidity := mHaveCheckedApplyStateValidity w; mApplying := mApplying w;
     mTotalSize := mTotalSize w; mWorkLevel := mWorkLevel w - 1; mSnapBucket := mSnapBucket w; mCurrBucket := mCurrBucket w;
     mSnapApplicator := mSnapApplicator w; mCurrApplicator := mCurrApplicator w |}.

Definition markChecked (w : ApplyBucketsWork) : ApplyBucketsWork :=
  {| mHaveCheckedApplyStateValidity := true; mApplying := mApplying w; mTotalSize := mTotalSize w;
     mWorkLevel := mWorkLevel w; mSnapBucket := mSnapBucket w; mCurrBucket := mCurrBucket w;
     mSnapApplicator := mSnapApplicator w; mCurrApplicator := mCurrApplicator w |}.

(** BucketManagerImpl::assumeState: the loop over the levels from [i] on *)
Fixpoint assumeLevels (fuel i : nat) (mLevels : list BucketLevel) : BE (list BucketLevel) :=
  match fuel with
  | O => Ok mLevels
  | S fuel =>
      let? h := hsbAt i (currentBuckets mApplyState) in
      match getBucketByHash (hsb_curr h), getBucketByHash (hsb_snap h) with
      | Some curr, Some snap =>
          let? l := levelAt i mLevels in
          assumeLevels fuel (S i) (<[i := setNext (hsb_next h) (setSnap snap (setCurr curr l))]> mLevels)
      | _, _ => Fail MissingBucketFiles
      end
  end.

Definition assumeState (mLevels : list BucketLevel) : BE (list BucketLevel) :=
  let? mLevels := assumeLevels (Z.to_nat kNumLevels) 0 mLevels in
  restartMerges hash isShutdown getBucketByHash mMaxProtocolVersion (currentLedger mApplyState) mLevels.

(** The end of [onRun]: the level is done. *)
Definition finishLevel (w : ApplyBucketsWork) (node : Node) : BE (WorkState * ApplyBucketsWork * Node) :=
  if negb (mWorkLevel w =? 0) then Ok (WORK_RUNNING, lowerLevel w, node)
  else
    let? ls := assumeState (bucketList node) in
    Ok (WORK_SUCCESS, w, {| database := database node; bucketList := ls |}).

(** The part of [onRun] after the applicator of the snapshot is done *)
Definition runCurr (w : ApplyBucketsWork) (node : Node) : BE (WorkState * ApplyBucketsWork * Node) :=
  match mCurrApplicator w with
  | Some it =>
      if isSome (mEntryPtr it) then
        let? r := advanceWork w it (database node) in
        Ok (WORK_RUNNING, setCurrApplicator (mCurrBucket w) (Some r.1) w, {| database := r.2; bucketList := bucketList node |})
      else
        match mCurrBucket w with
        | Some b =>
            let? _ := checkOnBucketApply invariantEnabled b (currentLedger mApplyState) (mWorkLevel w) true (database node) in
            finishLevel (setCurrApplicator None None w) node
        | None => Fail BucketNullDeref
        end
  | None => finishLevel w node
  end.

Definition runSnap (w : ApplyBucketsWork) (node : Node) : BE (WorkState * ApplyBucketsWork * Node) :=
  match mSnapApplicator w with
  | Some it =>
      if isSome (mEntryPtr it) then
        let? r := advanceWork w it (database node) in
        Ok (WORK_RUNNING, setSnapApplicator (mSnapBucket w) (Some r.1) w, {| database := r.2; bucketList := bucketList node |})
      else
        match mSnapBucket w with
        | Some b =>
            let? _ := checkOnBucketApply invariantEnabled b (currentLedger mApplyState) (mWorkLevel w) false (database node) in
            runCurr (setSnapApplicator None None w) node
        | None => Fail BucketNullDeref
        end
  | None => runCurr w node
  end.

Definition onRun (w : ApplyBucketsWork) (node : Node) : BE (WorkState * ApplyBucketsWork * Node) :=
  let? v := (if negb (mHaveCheckedApplyStateValidity w) && (mWorkLevel w =? kNumLevels - 1) then
               let? valid := containsValidBuckets hash getBucketByHash mApplyState in
               Ok (if valid then Some (markChecked w) else None)
             else Ok (Some w)) in
  match v with
  | None => Ok (WORK_FAILURE, w, node)
  | Some w =>
      let? r := (if isLevelComplete w then startLevel w node else Ok (w, node)) in
      runSnap r.1 r.2
  end.

(** The work is run until it succeeds or fails. *)
Fixpoint runWork (fuel : nat) (w : ApplyBucketsWork) (node : Node) : BE (WorkState * Node) :=
  match fuel with
  | O => Fail BucketOutOfFuel
  | S fuel =>
      let? r := onRun w node in
      match r.1.1 with
      | WORK_RUNNING => runWork fuel r.1.2 r.2
      | s => Ok (s, r.2)
      end
  end.

Definition applyBuckets (fuel : nat) (node : Node) : BE (WorkState * Node) :=
  let? w := onReset false in runWork fuel w node.
End Work.
