(* ===== verification/BucketCheck.v ===== *)
(** * Applying the buckets of a history, and the check of each of them

    The database between the application of two buckets: it agrees with the
    ledger at the boundary of the buckets, except that an entry from before the
    first of them that a later bucket replaces may be missing.  In such a
    database the check of
    src/invariant/BucketListIsConsistentWithDatabase.cpp passes. *)

From stdpp Require Import prelude list gmap functions sorting.
From Stdlib Require Import ZArith Lia.
From S2P Require Import Prelude Numeric Exchange LedgerEntries Buckets BucketMerge BucketChain BucketList BucketLevels BucketSizes.
From S2P Require Import BucketListSafety BucketApply HistoryArchive ApplyBuckets.
Local Open Scope Z_scope.

Section Between.
Context (St : Z → LedgerMap) (n : Z).

(** An entry carries the number of the ledger that wrote it, and stays until the
    next change. *)
Definition stampsOk : Prop :=
  ∀ m k e, 0 ≤ m ≤ n → St m !! k = Some e →
    LedgerEntryKey e = k ∧ 1 ≤ lastModifiedLedgerSeq e ≤ m ∧ ∀ m', lastModifiedLedgerSeq e ≤ m' ≤ m → St m' !! k = Some e.

Hypothesis Hst : stampsOk.

(** After the buckets that span the ledgers after [o] up to [hi] *)
Definition between (o hi : Z) (db : LedgerMap) : Prop :=
  ∀ k, db !! k = St hi !! k ∨
       db !! k = None ∧ ∃ e, St hi !! k = Some e ∧ lastModifiedLedgerSeq e ≤ o ∧ St n !! k ≠ Some e.

Lemma between_apply v o lo hi x db :
  bodyOk v (vb x).2 → covers St True lo hi x → between o lo db → between o hi (foldl afterEntry db (vb x).2).
Proof using.
  intros Hb [_ Hc] H k. rewrite (applied_get v) by done. specialize (Hc k). unfold get in Hc.
  destruct (getEntry k (vb x).2) as [[y|y|y|y]|]; cbn in *; try done; try (left; by destruct_and?).
  rewrite Hc. apply H.
Qed.

Lemma between_end o db : between o n db → db = St n.
Proof using.
  intros H. apply map_eq. intros k. destruct (H k) as [E|(_ & e & E & _ & Hne)]; done.
Qed.

(** The entries of a ledger that were modified in a span are those of its bucket. *)
Lemma modified_in_bucket o lo hi x db k e :
  0 ≤ lo → hi ≤ n → covers St True lo hi x → between o hi db → db !! k = Some e → lo < lastModifiedLedgerSeq e →
  ∃ b, get k x = Some b ∧ entryState b = Some e.
Proof using Hst.
  intros Hlo Hhi [Hle Hc] H Ek Hlt. destruct (H k) as [E|(E & _)]; [|congruence]. rewrite Ek in E. symmetry in E.
  specialize (Hc k). rewrite E in Hc. destruct (get k x) as [[y|y|y|y]|]; cbn in *; try done.
  - destruct Hc as [[= ->] _]. by eexists.
  - destruct Hc as (_ & [= ->] & _). by eexists.
  - destruct (Hst lo k e) as (_ & Hr & _); [lia|done|]. lia.
Qed.
End Between.

(** ** The entries of a bucket against the database *)

Definition liveOf (l : list BucketEntry) : list LedgerEntry := omap entryState l.

(** A sorted body that has been applied *)
Record appliedBody (lo hi : Z) (db : LedgerMap) (l : list BucketEntry) : Prop := {
  ab_live : ∀ e, e ∈ liveOf l → lo < lastModifiedLedgerSeq e ≤ hi;
  ab_state : ∀ b, b ∈ l → db !! keyOf b = entryState b
}.

Lemma appliedBody_cons lo hi db b l : appliedBody lo hi db (b :: l) → appliedBody lo hi db l.
Proof.
  intros [H1 H2]. split; [|intros x Hx; apply H2; set_solver]. intros e He. apply H1. unfold liveOf in *. simpl.
  destruct (entryState b); [by right|done].
Qed.

Definition typeCount (t : Z) (es : list LedgerEntry) : Z := Z.of_nat (length (filter (λ e, dataType e = t) es)).

Lemma typeCount_cons t e es : typeCount t (e :: es) = (if dataType e =? t then 1 else 0) + typeCount t es.
Proof.
  unfold typeCount. rewrite filter_cons. destruct (Z.eqb_spec (dataType e) t); [rewrite decide_True by done|rewrite decide_False by done]; simpl; lia.
Qed.

Lemma checkEntries_spec lo hi db v fuel l iter prev counts :
  iterAt v l iter → bodyOk v l → appliedBody lo hi db l → (length l < fuel)%nat →
  match prev with Some p => plain p ∧ Forall (keyLt p) l | None => True end →
  ∃ counts', checkEntries fuel (lo + 1) hi db prev iter counts = Ok counts' ∧ ∀ t, counts' t = counts t + typeCount t (liveOf l).
Proof.
  revert l iter prev counts. induction fuel as [|fuel IH]; intros l iter prev counts Hat Hb Ha Hf Hp; [lia|].
  cbn [checkEntries]. rewrite (at_entry _ _ _ Hat). destruct l as [|b l]; cbn [head].
  { exists counts. split; [done|]. intros t. unfold typeCount. simpl. lia. }
  pose proof (bodyOk_cons _ _ _ Hb) as (Hb' & Hpl & Hlt). pose proof (appliedBody_cons _ _ _ _ _ Ha) as Ha'.
  destruct (next_body _ _ _ _ Hat Hb) as (it' & Hnext & Hat').
  assert ((match prev with Some p => negb (BucketEntryIdCmp p b) | None => false end) = false) as ->.
  { destruct prev as [p|]; [|done]. destruct Hp as [Hpp Hpl']. rewrite BucketEntryIdCmp_spec by done. inversion Hpl' as [|? ? Hk _]; subst.
    unfold keyLt in Hk. by rewrite (proj2 (Z.ltb_lt _ _)). }
  pose proof (ab_state _ _ _ _ Ha b ltac:(set_solver)) as Hs.
  assert (∀ e, entryState b = Some e → lo + 1 ≤ lastModifiedLedgerSeq e ≤ hi) as Hr.
  { intros e He. enough (lo < lastModifiedLedgerSeq e ≤ hi) by lia. apply (ab_live _ _ _ _ Ha). unfold liveOf. simpl. rewrite He. by left. }
  assert (∀ c, ∃ counts', (let? iter := nextEntry iter in checkEntries fuel (lo + 1) hi db (Some b) iter c) = Ok counts' ∧
    ∀ t, counts' t = c t + typeCount t (liveOf l)) as Hrest.
  { intros c. rewrite Hnext. cbn [obind]. apply IH; try done. simpl in Hf. lia. }
  destruct b as [x|x|k|m]; try done; cbn [keyOf entryState] in *.
  1,2: specialize (Hr x eq_refl); rewrite (proj2 (Z.ltb_ge _ _)), (proj2 (Z.ltb_ge hi _)), bool_decide_true by (done || lia); cbn [orb obind];
    destruct (Hrest (<[dataType x := counts (dataType x) + 1]> counts)) as (c' & Ec & Hc'); exists c'; (split; [done|]);
    intros t; rewrite Hc'; change (liveOf (_ :: l)) with (x :: liveOf l); rewrite typeCount_cons; destruct (Z.eqb_spec (dataType x) t) as [<-|Hne];
    [rewrite fn_lookup_insert; lia|rewrite fn_lookup_insert_ne by done; lia].
  rewrite bool_decide_true by done. cbn [obind]. destruct (Hrest counts) as (c' & Ec & Hc'). by exists c'.
Qed.

(** ** The counts *)

Lemma plain_live_key b e : plain b → entryState b = Some e → LedgerEntryKey e = keyOf b.
Proof. destruct b; try done; intros _ [= ->]; done. Qed.

Lemma liveOf_NoDup v l : bodyOk v l → NoDup (liveOf l).
Proof.
  intros [Hs Hp _]. unfold liveOf. induction Hs as [|b l Hs IH Hlt]; [constructor|]. inversion Hp as [|? ? Hb Hp']; subst. simpl.
  destruct (entryState b) as [e|] eqn:E; [|by apply IH]. constructor; [|by apply IH].
  intros (b' & Hin & E')%list_elem_of_omap. rewrite Forall_forall in Hlt, Hp'. specialize (Hlt b' Hin). unfold keyLt in Hlt.
  rewrite <- (plain_live_key b e Hb E), <- (plain_live_key b' e (Hp' b' Hin) E'), (cmp_refl keyCmp) in Hlt. lia.
Qed.

Section Check.
Context (St : Z → LedgerMap) (n o lo hi : Z) (x : option VB) (db : LedgerMap) (v : Z).
Hypothesis Hst : stampsOk St n.
Hypothesis Hlo : 0 ≤ lo.
Hypothesis Hhi : hi ≤ n.
Hypothesis Hcov : covers St True lo hi x.
Hypothesis Hbody : bodyOk v (vb x).2.
Hypothesis Hbet : between St n o hi db.
Hypothesis Happ : ∀ k b, get k x = Some b → db !! k = entryState b.

Lemma bucket_get b : b ∈ (vb x).2 → get (keyOf b) x = Some b.
Proof using Hbody.
  intros Hb. destruct Hbody as [Hs Hp _]. unfold get. apply getEntry_elem; try done. rewrite Forall_forall in Hp. by apply Hp.
Qed.

Lemma body_applied : appliedBody lo hi db (vb x).2.
Proof using Hcov Hbody Happ.
  split; [|intros b Hb; by apply Happ, bucket_get].
  intros e (b & Hb & E)%list_elem_of_omap. destruct Hcov as [_ Hc]. specialize (Hc (keyOf b)). rewrite (bucket_get b Hb) in Hc.
  destruct b as [y|y|y|y]; simplify_eq/=; [destruct Hc as [_ Hc]|destruct Hc as (_ & _ & Hc)]; by apply Hc.
Qed.

(** The entries modified in the span are those of the bucket. *)
Lemma modified_entries :
  filter (λ e, lo < lastModifiedLedgerSeq e ≤ hi) (snd <$> map_to_list db) ≡ₚ liveOf (vb x).2.
Proof using Hst Hlo Hhi Hcov Hbody Hbet Happ.
  assert (∀ k e, db !! k = Some e → LedgerEntryKey e = k) as Hkey.
  { intros k e E. destruct (Hbet k) as [E'|(E' & _)]; [|congruence]. rewrite E in E'. destruct Hcov as [Hle _].
    apply (Hst hi k e); [lia|done]. }
  apply NoDup_Permutation.
  - apply NoDup_filter, NoDup_fmap_2_strong; [|apply NoDup_map_to_list].
    intros [k e] [k' e'] H1%elem_of_map_to_list H2%elem_of_map_to_list. simpl. intros ->. f_equal. rewrite <- (Hkey k e' H1). by apply Hkey.
  - by apply (liveOf_NoDup v).
  - intros e. rewrite list_elem_of_filter, list_elem_of_fmap. split.
    + intros [[H1 H2] ([k e'] & -> & Hin%elem_of_map_to_list)]. simpl in *.
      destruct (modified_in_bucket St n Hst o lo hi x db k e' Hlo Hhi Hcov Hbet Hin H1) as (b & Hb & E).
      unfold get in Hb. apply getEntry_key in Hb as (Hb & _). apply list_elem_of_omap. eauto.
    + intros He. pose proof (ab_live _ _ _ _ body_applied e He) as Hr. split; [done|].
      apply list_elem_of_omap in He as (b & Hb & E). exists (keyOf b, e). split; [done|]. apply elem_of_map_to_list.
      rewrite <- E. by apply Happ, bucket_get.
Qed.

Lemma checkEntries_bucket a b it :
  iterAt v (vb x).2 it → appliedBody a b db (vb x).2 → (length (vb x).2 < length (concrete x) + 1)%nat →
  ∃ counts, checkEntries (S (length (concrete x))) (a + 1) b db None it (λ _, 0) = Ok counts ∧ ∀ t, counts t = typeCount t (liveOf (vb x).2).
Proof using Hbody.
  intros Hat Ha Hf. destruct (checkEntries_spec a b db v (S (length (concrete x))) (vb x).2 it None (λ _, 0)) as (c & E & Hc); try done; [lia|].
  exists c. split; [done|]. intros t. rewrite Hc. lia.
Qed.

(** The check of a bucket that spans ledgers *)
Lemma consistent_span it :
  lo < hi → n + 1 < 2147483648 → openBucket (concrete x) = Ok it → iterAt v (vb x).2 it →
  (length (vb x).2 < length (concrete x) + 1)%nat → consistentWithDatabase (concrete x) (lo + 1) hi db = Ok tt.
Proof using Hst Hlo Hhi Hcov Hbody Hbet Happ.
  intros Hlt Hn E Hat Hf. unfold consistentWithDatabase. rewrite E. cbn [obind].
  destruct (checkEntries_bucket lo hi it Hat body_applied Hf) as (c & -> & Hc). cbn [obind].
  unfold inclusive, newLedgerRange, assertB. rewrite (proj2 (Z.ltb_lt hi _)) by word. cbn [obind].
  rewrite (proj2 (Z.ltb_lt 0 (lo + 1))), orb_true_r by lia. cbn [obind].
  rewrite (u32_small (hi - _)) by word. rewrite u32_small by word.
  replace (forallb _ countedTypes) with true; [done|]. symmetry. apply forallb_forall. intros t _. apply Z.eqb_eq. rewrite Hc.
  unfold countObjects, rangeLimit. cbn [mFirst mCount]. rewrite u32_small by word. unfold i32.
  rewrite !(proj2 (Z.ltb_lt _ 2147483648)) by lia. unfold typeCount. rewrite <- modified_entries. rewrite list_filter_filter.
  do 2 f_equal. apply list_filter_iff. intros e. lia.
Qed.

(** The check of a bucket that spans no ledger *)
Lemma consistent_empty it :
  lo = hi → openBucket (concrete x) = Ok it → iterAt v (vb x).2 it →
  (length (vb x).2 < length (concrete x) + 1)%nat → consistentWithDatabase (concrete x) UINT32_MAX (UINT32_MAX - 1) db = Ok tt.
Proof using Hcov Hbody Happ.
  intros Heq E Hat Hf. unfold consistentWithDatabase. rewrite E. cbn [obind].
  assert (liveOf (vb x).2 = []) as Hnil.
  { destruct (liveOf (vb x).2) as [|e es] eqn:El; [done|]. pose proof (ab_live _ _ _ _ body_applied e) as H. rewrite El in H.
    specialize (H ltac:(by left)). lia. }
  destruct (checkEntries_bucket (UINT32_MAX - 1) (UINT32_MAX - 1) it Hat) as (c & Ec & Hc); [|done|].
  { split; [rewrite Hnil; intros e He; by apply elem_of_nil in He|apply body_applied]. }
  change (UINT32_MAX - 1 + 1) with UINT32_MAX in Ec. rewrite Ec. cbn [obind].
  change (inclusive UINT32_MAX (UINT32_MAX - 1)) with (Ok {| mFirst := UINT32_MAX; mCount := 0 |} : BE LedgerRange). cbn [obind].
  replace (forallb _ countedTypes) with true; [done|]. symmetry. apply forallb_forall. intros t _. apply Z.eqb_eq. rewrite Hc, Hnil.
  unfold countObjects, typeCount. simpl. change (i32 (rangeLimit _)) with (-1). change (i32 UINT32_MAX) with (-1).
  rewrite (list_filter_iff _ (λ _, False)) by lia. f_equal. induction (snd <$> map_to_list db) as [|e es IH]; [done|]. by rewrite filter_cons.
Qed.
End Check.
