(* ===== verification/CatchupSafety.v ===== *)
(** * Catching up rebuilds the ledger

    The work of src/catchup/ApplyBucketsWork.cpp on a node whose ledger is
    behind that of a history archive, or empty: it succeeds, no check of a bucket
    fails, the database becomes the ledger of the archive, and the bucket list
    becomes its bucket list with the merges running again. *)

From stdpp Require Import prelude list gmap functions sorting.
From Stdlib Require Import ZArith Lia.
From S2P Require Import Prelude Numeric Exchange LedgerEntries Buckets BucketMerge BucketChain BucketList BucketLevels BucketSizes.
From S2P Require Import BucketListSafety BucketApply HistoryArchive ApplyBuckets BucketCheck.
Local Open Scope Z_scope.

(** ** The buckets of the archive *)

Lemma elem_flat A j x : (j < 11)%nat → x = ac (A j) ∨ x = asn (A j) → x ∈ flat A.
Proof.
  intros Hj Hx. unfold flat, flatRange. apply list_elem_of_In, in_concat. exists [ac (A j); asn (A j)]. split; apply list_elem_of_In.
  - apply list_elem_of_fmap. exists j. split; [done|]. apply elem_of_seq. lia.
  - destruct Hx as [-> | ->]; set_solver.
Qed.

Lemma bucketOf_length v l : (length l < length (bucketOf v l) + 1)%nat.
Proof. unfold bucketOf. destruct (_ <=? v); simpl; lia. Qed.

Lemma archive_good St stamps P n db A j x : ListInv St stamps P n db A → (j < 11)%nat → x = ac (A j) ∨ x = asn (A j) → good P x.
Proof.
  intros Hinv Hj Hx. pose proof (g_good _ _ _ (inv_global _ _ _ _ _ _ Hinv)) as H. rewrite Forall_forall in H. apply H. by apply (elem_flat A j).
Qed.

Section Archive.
Context (St : Z → LedgerMap) (P n : Z) (A : nat → AbsLevel).
Hypothesis Hn : 1 ≤ n.
Hypothesis Hmax : n + 1 < 2147483648.
Hypothesis Hst : stampsOk St n.
Hypothesis Hinv : ListInv St True P n (St n) A.

Lemma archive_open j x :
  (j < 11)%nat → x = ac (A j) ∨ x = asn (A j) →
  ∃ it, openBucket (concrete x) = Ok it ∧ iterAt (vb x).1 (vb x).2 it ∧ bodyOk (vb x).1 (vb x).2 ∧ (vb x).1 ≤ Z.max 0 P.
Proof using Hinv.
  intros Hj Hx. pose proof (archive_good _ _ _ _ _ _ j x Hinv Hj Hx) as Hg. destruct (good_wellFormed P x Hg) as [Hv Hb].
  destruct (open_body _ _ Hv Hb) as (it & E & Hat). exists it. split_and!; try done.
  destruct x as [s|]; simpl in *; [|lia]. destruct Hg. lia.
Qed.

(** The check after a bucket of the archive has been applied *)
Lemma check_bucket enabled j (isCurr : bool) x db o :
  (j < 11)%nat → x = (if isCurr then ac (A j) else asn (A j)) →
  between St n o (if isCurr then newestCurr n j else newestSnap n j) db →
  (∀ k b, get k x = Some b → db !! k = entryState b) →
  checkOnBucketApply enabled (concrete x) n (Z.of_nat j) isCurr db = Ok tt.
Proof using Hn Hmax Hst Hinv.
  intros Hj Hx Hb Happ. pose proof (inv_level _ _ _ _ _ _ Hinv j Hj) as L. pose proof (newest_bounds n j Hn ltac:(lia)) as [B1 B2].
  assert (n ≤ UINT32_MAX) as Hu by word.
  destruct (archive_open j x Hj) as (it & Eo & Hat & Hbody & _); [destruct isCurr; auto|]. pose proof (bucketOf_length (vb x).1 (vb x).2) as Hlen.
  unfold checkOnBucketApply. destruct isCurr.
  - rewrite (oldestLedgerInCurr_ok n j), (sizeOfCurr_ok n Hn Hu j) by (unfold sizeFuel; lia). cbn [obind].
    destruct enabled; [|done]. destruct (Z.eqb_spec (currSize n j) 0) as [E|E].
    + rewrite E. eapply (consistent_empty St (newestSnap n j) (newestCurr n j) x db); try done; [subst x; apply L|unfold newestSnap; lia].
    + assert (0 < currSize n j) by (unfold newestSnap in B2; lia).
      rewrite Z.add_simpl_r, (u32_small (newestSnap n j)) by word. replace (newestSnap n j + currSize n j) with (newestCurr n j) by (unfold newestSnap; lia).
      rewrite u32_small by word. eapply (consistent_span St n o (newestSnap n j) (newestCurr n j) x db); try done; try lia; [subst x; apply L|unfold newestSnap; lia].
  - rewrite (oldestLedgerInSnap_ok n j), (sizeOfSnap_ok n Hn Hu j) by (unfold sizeFuel; lia). cbn [obind]. pose proof (newestCurr_S n j) as Es.
    destruct enabled; [|done]. destruct (Z.eqb_spec (snapSize n j) 0) as [E|E].
    + rewrite E. eapply (consistent_empty St (newestCurr n (S j)) (newestSnap n j) x db); try done; [subst x; apply L|lia].
    + rewrite Z.add_simpl_r, (u32_small (newestCurr n (S j))) by word. replace (newestCurr n (S j) + snapSize n j) with (newestSnap n j) by lia.
      rewrite u32_small by word. eapply (consistent_span St n o (newestCurr n (S j)) (newestSnap n j) x db); try done; try lia. subst x. apply L.
Qed.
End Archive.

(** ** Runs of the work *)

(** The state of the archive: the hashes of the buckets, without merges *)
Definition archivedLevel (hash : list BucketEntry → Z) (a : AbsLevel) : HistoryStateBucket :=
  {| hsb_curr := hash (concrete (ac a)); hsb_next := clearFuture; hsb_snap := hash (concrete (asn a)) |}.

Definition archived (hash : list BucketEntry → Z) (n : Z) (A : nat → AbsLevel) : HistoryArchiveState :=
  {| currentLedger := n; currentBuckets := (λ j, archivedLevel hash (A j)) <$> seq 0 11 |}.

Lemma hsbAt_archived hash n A j : (j < 11)%nat → hsbAt j (currentBuckets (archived hash n A)) = Ok (archivedLevel hash (A j)).
Proof. intros Hj. unfold hsbAt, archived. cbn [currentBuckets]. rewrite list_lookup_fmap, lookup_seq_lt by done. done. Qed.

(** ** Publishing *)

Section Publish.
Context (hash : list BucketEntry → Z) (getBucketByHash : Z → option (list BucketEntry)) (protocol : Z).
Context (St : Z → LedgerMap) (P n : Z) (A : nat → AbsLevel) (stamps : Prop).
Hypothesis Hinv : ListInv St stamps P n (St n) A.
Hypothesis Hstored : ∀ j x, (j < 11)%nat → x = ac (A j) ∨ x = asn (A j) → getBucketByHash (hash (concrete x)) = Some (concrete x).
Hypothesis Hempty : hash [] = 0.
Notation sd := (λ _ : nat, false).

Lemma snap_version j s : (j < 11)%nat → asn (A j) = Some s → getBucketVersion (concrete (asn (A j))) = Ok s.1 ∧ FIRST_PROTOCOL_SHADOWS_REMOVED ≤ s.1.
Proof.
  intros Hj Es. pose proof (archive_good _ _ _ _ _ _ j (asn (A j)) Hinv Hj ltac:(by right)) as Hg. rewrite Es in *.
  split; [by apply (concrete_version P)|apply Hg].
Qed.

Lemma validBuckets_ok fuel i :
  (i + fuel = 11)%nat → (1 ≤ i)%nat → validBuckets hash getBucketByHash fuel i (currentBuckets (archived hash n A)) = Ok true.
Proof.
  revert i. induction fuel as [|fuel IH]; intros i Hi H1; [done|]. cbn [validBuckets]. rewrite !hsbAt_archived by lia.
  cbn [obind archivedLevel hsb_snap hsb_next]. rewrite (Hstored (i - 1)%nat (asn (A (i - 1)%nat))) by (lia || auto).
  destruct (Z.eqb_spec (hash (concrete (asn (A (i - 1)%nat)))) 0) as [|Hne]; [apply IH; lia|].
  destruct (asn (A (i - 1)%nat)) as [s|] eqn:Es; [|done]. destruct (snap_version (i - 1)%nat s ltac:(lia) Es) as [Ev Hv].
  rewrite Es in Ev. rewrite Ev. cbn [obind]. rewrite (proj2 (Z.leb_le _ _)) by done. cbn [isClear clearFuture mState negb]. apply IH; lia.
Qed.

Lemma valid_ok : containsValidBuckets hash getBucketByHash (archived hash n A) = Ok true.
Proof.
  unfold containsValidBuckets. rewrite hsbAt_archived by lia. cbn [obind archivedLevel hsb_next isClear clearFuture mState assertB].
  by apply validBuckets_ok.
Qed.

Definition published (l : BucketLevel) : HistoryStateBucket :=
  {| hsb_curr := hash (mCurr l); hsb_next := mNextCurr l; hsb_snap := hash (mSnap l) |}.

(** The states of the levels while the archive state is prepared *)
Definition prepared (i : nat) (ls : list BucketLevel) (bs : list HistoryStateBucket) : Prop :=
  length bs = 11%nat ∧ ∀ j l, ls !! j = Some l → bs !! j = Some (if Nat.ltb j i then archivedLevel hash (A j) else published l).

Lemma future_live f x : futureIs hash f (Some x) → isClear f = false.
Proof. intros (H & _). unfold isLive, isClear in *. by destruct (mState f). Qed.

Lemma prepareLevels_ok ls fuel i bs :
  rep hash ls A → (i + fuel = 11)%nat → (1 ≤ i)%nat → prepared i ls bs →
  prepareLevels hash sd getBucketByHash protocol fuel i bs = Ok (currentBuckets (archived hash n A)).
Proof.
  intros Hrep. revert i bs. induction fuel as [|fuel IH]; intros i bs Hi H1 [Hl Hb].
  { cbn [prepareLevels]. f_equal. apply list_eq. intros j. unfold archived. cbn [currentBuckets]. rewrite list_lookup_fmap.
    destruct (decide (j < 11)%nat) as [Hj|Hj].
    - destruct (rep_at hash ls A j Hrep Hj) as (l & El & _ & _). rewrite (Hb j l El), lookup_seq_lt by done. cbn [fmap option_fmap option_map].
      by rewrite (proj2 (Nat.ltb_lt j i)) by lia.
    - rewrite (proj2 (lookup_ge_None _ _)), lookup_seq_ge by lia. done. }
  destruct (rep_at hash ls A i Hrep ltac:(lia)) as (l & El & _ & (_ & Hc & Hs & Hf)).
  destruct (rep_at hash ls A (i - 1) Hrep ltac:(lia)) as (p & Ep & _ & (_ & Pc & Ps & _)).
  assert (hsbAt i bs = Ok (published l)) as E1. { unfold hsbAt. rewrite (Hb i l El). by rewrite Nat.ltb_irrefl. }
  assert (hsbAt (i - 1) bs = Ok (archivedLevel hash (A (i - 1)%nat))) as E2.
  { unfold hsbAt. rewrite (Hb _ p Ep). by rewrite (proj2 (Nat.ltb_lt _ _)) by lia. }
  cbn [prepareLevels]. rewrite E1, E2. cbn [obind published hsb_next archivedLevel hsb_snap].
  assert (prepared (S i) ls (<[i := withNext clearFuture (published l)]> bs)) as Hprep.
  { split; [by rewrite length_insert|]. intros j m Em. destruct (decide (j = i)) as [->|Hne].
    - rewrite El in Em. injection Em as <-. rewrite list_lookup_insert_eq, (proj2 (Nat.ltb_lt i (S i))) by lia.
      unfold withNext, published, archivedLevel. cbn. by rewrite Hc, Hs.
    - rewrite list_lookup_insert_ne by done. rewrite (Hb j m Em). destruct (Nat.ltb_spec j i), (Nat.ltb_spec j (S i)); lia || done. }
  destruct (an (A i)) as [r|] eqn:Ea.
  - rewrite (future_live _ _ Hf). cbn [negb]. rewrite (Hstored (i - 1)%nat (asn (A (i - 1)%nat))) by (lia || auto).
    pose proof (lv_next _ _ _ _ _ _ (inv_level _ _ _ _ _ _ Hinv i ltac:(lia))) as Hnx. destruct i as [|i']; [lia|]. cbn [nextAt] in Hnx.
    replace (S i' - 1)%nat with i' in * by lia. unfold nextOk in Hnx. destruct (Z.leb_spec (hf i') n) as [Hle|]; [|congruence].
    destruct (proj2 (lv_snap _ _ _ _ _ _ (inv_level _ _ _ _ _ _ Hinv i' ltac:(lia)))) as [s Es]; [unfold kNumLevels; lia|].
    pose proof (g_good _ _ _ (inv_global _ _ _ _ _ _ Hinv)) as Hg. rewrite Forall_forall in Hg.
    specialize (Hg (asn (A i')) ltac:(apply (elem_flat A i'); [lia|by right])). rewrite Es in Hg |- *. rewrite (concrete_version P s Hg). cbn [obind].
    rewrite (proj2 (Z.leb_le _ _)) by apply Hg. cbn [obind]. apply IH; [lia|lia|done].
  - simpl in Hf. rewrite Hf. cbn [isClear clearFuture mState negb hasHashes andb obind]. apply IH; [lia|lia|done].
Qed.

Lemma publish_ok ls :
  rep hash ls A → prepareForPublish hash sd getBucketByHash protocol (newArchiveState hash n ls) = Ok (archived hash n A).
Proof.
  intros Hrep. unfold prepareForPublish. destruct (rep_at hash ls A 0 Hrep ltac:(lia)) as (l & El & _ & (_ & _ & _ & Hf)).
  pose proof (lv_next _ _ _ _ _ _ (inv_level _ _ _ _ _ _ Hinv 0%nat ltac:(lia))) as Hnx. cbn [nextAt] in Hnx. rewrite Hnx in Hf. simpl in Hf.
  assert (prepared 1 ls (currentBuckets (newArchiveState hash n ls))) as Hprep.
  { unfold newArchiveState. cbn [currentBuckets]. split; [rewrite length_fmap; apply Hrep|]. intros j m Em. rewrite list_lookup_fmap, Em. cbn [fmap option_fmap option_map].
    destruct j as [|j]; [|done]. rewrite El in Em. injection Em as <-. simpl. destruct (proj2 Hrep 0%nat l El) as (_ & Hc & Hs & _).
    unfold archivedLevel. by rewrite Hc, Hs, Hf. }
  assert (hsbAt 0 (currentBuckets (newArchiveState hash n ls)) = Ok (archivedLevel hash (A 0%nat))) as ->.
  { unfold hsbAt. by rewrite (proj2 Hprep 0%nat l El). }
  cbn [obind archivedLevel hsb_next isClear clearFuture mState assertB]. change (Z.to_nat kNumLevels - 1)%nat with 10%nat.
  rewrite (prepareLevels_ok ls 10 1) by done. done.
Qed.
End Publish.

Section Runs.
Context (hash : list BucketEntry → Z) (getSize : list BucketEntry → Z) (mBuckets : gmap Z (list BucketEntry))
  (getBucketByHash : Z → option (list BucketEntry)) (inMemory enabled : bool) (maxVersion : Z).
Context (St : Z → LedgerMap) (P n : Z) (A : nat → AbsLevel).
Hypothesis Hn : 1 ≤ n.
Hypothesis Hmax : n + 1 < 2147483648.
Hypothesis Hst : stampsOk St n.
Hypothesis Hinv : ListInv St True P n (St n) A.
Hypothesis HP : Z.max 0 P ≤ maxVersion.

(** The buckets of the archive can be found by their hashes. *)
Hypothesis Hstored : ∀ j x, (j < 11)%nat → x = ac (A j) ∨ x = asn (A j) → getBucketByHash (hash (concrete x)) = Some (concrete x).
Hypothesis Hfetched : ∀ j x b, (j < 11)%nat → x = ac (A j) ∨ x = asn (A j) → mBuckets !! hash (concrete x) = Some b → b = concrete x.

Hypothesis Hsize : ∀ b, b ≠ [] → 0 < getSize b.
Hypothesis Hsmall : ∀ b, getSize b ≤ 2 ^ 59.

Notation sd := (λ _ : nat, false).
Notation has := (archived hash n A).
Notation run := (runWork hash sd mBuckets getBucketByHash inMemory enabled has maxVersion).
Notation run1 := (onRun hash sd mBuckets getBucketByHash inMemory enabled has maxVersion).
Notation snap1 := (runSnap hash sd getBucketByHash enabled has maxVersion).
Notation curr1 := (runCurr hash sd getBucketByHash enabled has maxVersion).
Notation finish1 := (finishLevel hash sd getBucketByHash has maxVersion).

Lemma fetch_ok j x : (j < 11)%nat → x = ac (A j) ∨ x = asn (A j) → fetchBucket mBuckets getBucketByHash (hash (concrete x)) = Ok (concrete x).
Proof.
  intros Hj Hx. unfold fetchBucket. destruct (mBuckets !! _) as [b|] eqn:E; [by rewrite (Hfetched j x b Hj Hx E)|]. by rewrite (Hstored j x).
Qed.

(** ** The total size *)

Lemma addSize_ok j x total :
  (j < 11)%nat → x = ac (A j) ∨ x = asn (A j) → 0 ≤ total → total + 2 ^ 59 ≤ UINT64_MAX →
  ∃ t, addBucketSize getSize mBuckets getBucketByHash (hash (concrete x)) total = Ok t ∧ total ≤ t ≤ total + 2 ^ 59 ∧ (concrete x ≠ [] → 0 < t).
Proof.
  intros Hj Hx H0 H1. unfold addBucketSize. rewrite (fetch_ok j x Hj Hx). cbn [obind]. eexists. split; [done|].
  pose proof (Hsize (concrete x)) as Hs. pose proof (Hsmall (concrete x)).
  destruct (Z.ltb_spec 0 (getSize (concrete x))) as [Hl|Hl].
  - rewrite u64_small by word. lia.
  - split; [lia|]. intros Hne. specialize (Hs Hne). lia.
Qed.

Lemma totalSize_ok js total :
  Forall (λ j, (j < 11)%nat) js → 0 ≤ total → total + Z.of_nat (length js) * 2 ^ 60 ≤ UINT64_MAX →
  ∃ t, totalSize getSize mBuckets getBucketByHash ((λ j, archivedLevel hash (A j)) <$> js) total = Ok t ∧ total ≤ t ∧
    ∀ j x, j ∈ js → x = ac (A j) ∨ x = asn (A j) → concrete x ≠ [] → 0 < t.
Proof.
  revert total. induction js as [|j js IH]; intros total Hf H0 H1.
  { exists total. split; [done|]. split; [lia|]. intros j x Hj. by apply elem_of_nil in Hj. }
  inversion Hf as [|? ? Hj Hf']; subst. rewrite fmap_cons. cbn [totalSize archivedLevel hsb_snap hsb_curr]. simpl in H1.
  destruct (addSize_ok j (asn (A j)) total) as (t1 & -> & B1 & P1); [done|by right|done|lia|]. cbn [obind].
  destruct (addSize_ok j (ac (A j)) t1) as (t2 & -> & B2 & P2); [done|by left|lia|lia|]. cbn [obind].
  destruct (IH t2) as (t & -> & B3 & P3); [done|lia|lia|]. exists t. split; [done|]. split; [lia|].
  intros i x [->|Hi]%elem_of_cons Hx Hne; [|by eapply P3]. destruct Hx as [-> | ->]; [specialize (P2 Hne)|specialize (P1 Hne)]; lia.
Qed.

Lemma onReset_ok :
  ∃ w, onReset getSize mBuckets getBucketByHash has false = Ok w ∧ mApplying w = false ∧ mHaveCheckedApplyStateValidity w = false ∧
    mWorkLevel w = 10 ∧ mSnapApplicator w = None ∧ mCurrApplicator w = None ∧
    ∀ j x, (j < 11)%nat → x = ac (A j) ∨ x = asn (A j) → concrete x ≠ [] → mTotalSize w ≠ 0.
Proof.
  unfold onReset, archived. cbn [currentBuckets]. destruct (totalSize_ok (seq 0 11) 0) as (t & -> & _ & Ht); [|lia|vm_compute; discriminate|].
  { apply Forall_forall. intros j Hj. apply elem_of_seq in Hj. lia. }
  cbn [obind]. eexists. split; [done|]. split_and!; try done. intros j x Hj Hx Hne. cbn [mTotalSize].
  enough (0 < t) by lia. apply (Ht j x); [apply elem_of_seq; lia|done..].
Qed.

(** ** One level *)

Definition resume (fuel : nat) (r : WorkState * ApplyBucketsWork * Node) : BE (WorkState * Node) :=
  match r.1.1 with WORK_RUNNING => run fuel r.1.2 r.2 | s => Ok (s, r.2) end.

Notation contSnap fuel w node := (let? r := snap1 w node in resume fuel r).
Notation contCurr fuel w node := (let? r := curr1 w node in resume fuel r).
Notation contFinish fuel w node := (let? r := finish1 w node in resume fuel r).

Lemma run_S fuel w node : run (S fuel) w node = let? r := run1 w node in resume fuel r.
Proof. done. Qed.

(** A run goes on with the applicators of the level. *)
Lemma run_applying fuel w node :
  mHaveCheckedApplyStateValidity w = true → isLevelComplete w = false → run (S fuel) w node = contSnap fuel w node.
Proof. intros H1 H2. rewrite run_S. unfold onRun. rewrite H1. cbn [negb andb obind]. rewrite H2. done. Qed.

Lemma run_starting fuel w node :
  mHaveCheckedApplyStateValidity w = true → isLevelComplete w = true →
  run (S fuel) w node =
  let? r := startLevel hash mBuckets getBucketByHash inMemory has maxVersion w node in contSnap fuel r.1 r.2.
Proof.
  intros H1 H2. rewrite run_S. unfold onRun. rewrite H1. cbn [negb andb obind]. rewrite H2.
  by destruct (startLevel _ _ _ _ _ _ w node).
Qed.

Lemma snap_phase v b : v ≤ maxVersion → ∀ m r it w db ls,
  (length r ≤ m)%nat → iterAt v r it → bodyOk v r → mSnapApplicator w = Some it → mSnapBucket w = Some b → mApplying w = true →
  mHaveCheckedApplyStateValidity w = true → (r ≠ [] → mTotalSize w ≠ 0) →
  ∃ k it', iterAt v [] it' ∧ ∀ fuel,
    contSnap (k + fuel) w {| database := db; bucketList := ls |} =
    contSnap fuel (setSnapApplicator (Some b) (Some it') w) {| database := foldl afterEntry db r; bucketList := ls |}.
Proof.
  intros Hv. induction m as [|m IH]; intros r it w db ls Hm Hat Hb Hs Hbk Hap Hck Ht.
  1: destruct r; [|simpl in Hm; lia]. 2: destruct (decide (r = [])) as [->|Hne].
  1,2: exists 0%nat, it; (split; [done|]); intros fuel; by replace (setSnapApplicator (Some b) (Some it) w) with w
    by (destruct w; simpl in *; subst; done).
  destruct (advanceBatch_spec maxVersion v (length (mIn it) + 1) 0 r it db Hat Hb Hv) as (it1 & d & r' & Ea & -> & Hat1 & [|Hd]); [| |done|].
  { rewrite (at_rest _ _ _ Hat). destruct r; simpl; lia. }
  { unfold LEDGER_ENTRY_BATCH_COMMIT_SIZE. lia. }
  destruct (IH r' it1 (setSnapApplicator (Some b) (Some it1) w) (foldl afterEntry db (d ++ option_list (head r'))) ls) as (k & it' & Hit & Hrun); try done.
  { rewrite length_app in Hm. destruct d; [done|]. simpl in Hm. lia. }
  { by apply bodyOk_suffix in Hb. }
  { intros _. by apply Ht. }
  exists (S k), it'. split; [done|]. intros fuel. replace (S k + fuel)%nat with (S (k + fuel)) by lia.
  unfold runSnap at 1. rewrite Hs. rewrite (at_entry _ _ _ Hat). assert (isSome (head (d ++ r')) = true) as -> by (by destruct d). unfold advanceWork.
  rewrite (at_entry _ _ _ Hat). assert (isSome (head (d ++ r')) = true) as -> by (by destruct d). cbn [assertB obind].
  rewrite (proj2 (Z.eqb_neq _ _)) by (by apply Ht). cbn [negb assertB obind database]. rewrite Ea. cbn [obind fst snd resume bucketList].
  rewrite Hbk, run_applying by (done || (unfold isLevelComplete; simpl; by rewrite Hap)). rewrite Hrun.
  assert (∀ y, setSnapApplicator (Some b) (Some y) (setSnapApplicator (Some b) (Some it1) w) = setSnapApplicator (Some b) (Some y) w) as -> by done.
  do 3 f_equal.
  rewrite !foldl_app. destruct r' as [|f r']; [done|]. simpl. by rewrite afterEntry_twice.
Qed.

Lemma curr_phase v b : v ≤ maxVersion → ∀ m r it w db ls,
  (length r ≤ m)%nat → iterAt v r it → bodyOk v r → mSnapApplicator w = None → mCurrApplicator w = Some it → mCurrBucket w = Some b →
  mApplying w = true → mHaveCheckedApplyStateValidity w = true → (r ≠ [] → mTotalSize w ≠ 0) →
  ∃ k it', iterAt v [] it' ∧ ∀ fuel,
    contCurr (k + fuel) w {| database := db; bucketList := ls |} =
    contCurr fuel (setCurrApplicator (Some b) (Some it') w) {| database := foldl afterEntry db r; bucketList := ls |}.
Proof.
  intros Hv. induction m as [|m IH]; intros r it w db ls Hm Hat Hb Hsn Hs Hbk Hap Hck Ht.
  1: destruct r; [|simpl in Hm; lia]. 2: destruct (decide (r = [])) as [->|Hne].
  1,2: exists 0%nat, it; (split; [done|]); intros fuel; by replace (setCurrApplicator (Some b) (Some it) w) with w
    by (destruct w; simpl in *; subst; done).
  destruct (advanceBatch_spec maxVersion v (length (mIn it) + 1) 0 r it db Hat Hb Hv) as (it1 & d & r' & Ea & -> & Hat1 & [|Hd]); [| |done|].
  { rewrite (at_rest _ _ _ Hat). destruct r; simpl; lia. }
  { unfold LEDGER_ENTRY_BATCH_COMMIT_SIZE. lia. }
  destruct (IH r' it1 (setCurrApplicator (Some b) (Some it1) w) (foldl afterEntry db (d ++ option_list (head r'))) ls) as (k & it' & Hit & Hrun); try done.
  { rewrite length_app in Hm. destruct d; [done|]. simpl in Hm. lia. }
  { by apply bodyOk_suffix in Hb. }
  { intros _. by apply Ht. }
  exists (S k), it'. split; [done|]. intros fuel. replace (S k + fuel)%nat with (S (k + fuel)) by lia.
  unfold runCurr at 1. rewrite Hs. rewrite (at_entry _ _ _ Hat). assert (isSome (head (d ++ r')) = true) as -> by (by destruct d). unfold advanceWork.
  rewrite (at_entry _ _ _ Hat). assert (isSome (head (d ++ r')) = true) as -> by (by destruct d). cbn [assertB obind].
  rewrite (proj2 (Z.eqb_neq _ _)) by (by apply Ht). cbn [negb assertB obind database]. rewrite Ea. cbn [obind fst snd resume bucketList].
  rewrite Hbk, run_applying by (done || (unfold isLevelComplete; simpl; by rewrite Hap, orb_true_r)).
  assert (∀ node, snap1 (setCurrApplicator (Some b) (Some it1) w) node = curr1 (setCurrApplicator (Some b) (Some it1) w) node) as ->.
  { intros node. unfold runSnap. cbn [setCurrApplicator mSnapApplicator]. by rewrite Hsn. }
  rewrite Hrun.
  assert (∀ y, setCurrApplicator (Some b) (Some y) (setCurrApplicator (Some b) (Some it1) w) = setCurrApplicator (Some b) (Some y) w) as -> by done.
  do 3 f_equal. rewrite !foldl_app. destruct r' as [|f r']; [done|]. simpl. by rewrite afterEntry_twice.
Qed.

(** What the work of a level relies on *)
Record atLevel (j : nat) (w : ApplyBucketsWork) : Prop := {
  wl_level : mWorkLevel w = Z.of_nat j;
  wl_range : (j < 11)%nat;
  wl_checked : mHaveCheckedApplyStateValidity w = true;
  wl_total : ∀ i x, (i < 11)%nat → x = ac (A i) ∨ x = asn (A i) → concrete x ≠ [] → mTotalSize w ≠ 0
}.

Lemma body_nonempty x : (vb x).2 ≠ [] → concrete x ≠ [].
Proof. intros H E. apply H. unfold concrete, bucketOf in E. destruct (_ <=? _); [done|]. done. Qed.

(** The current bucket of a level *)
Lemma run_curr j w it db ls o :
  atLevel j w → mApplying w = true → mSnapApplicator w = None → mCurrApplicator w = Some it → mCurrBucket w = Some (concrete (ac (A j))) →
  openBucket (concrete (ac (A j))) = Ok it → between St n o (newestSnap n j) db →
  ∃ k db', between St n o (newestCurr n j) db' ∧ ∀ fuel,
    contCurr (k + fuel) w {| database := db; bucketList := ls |} =
    contFinish fuel (setCurrApplicator None None w) {| database := db'; bucketList := ls |}.
Proof.
  intros W Hap Hsn Hcu Hbk Ho Hbet. destruct (archive_open St P n A Hinv j (ac (A j)) (wl_range _ _ W)) as (it0 & E0 & Hat & Hb & Hver); [by left|].
  rewrite Ho in E0. injection E0 as <-. set (x := ac (A j)) in *.
  destruct (curr_phase (vb x).1 (concrete x) ltac:(lia) _ (vb x).2 it w db ls (le_n _) Hat Hb Hsn Hcu Hbk Hap (wl_checked _ _ W)) as (k & it' & Hat' & Hrun).
  { intros Hne. apply (wl_total _ _ W j x (wl_range _ _ W)); [by left|by apply body_nonempty]. }
  pose proof (inv_level _ _ _ _ _ _ Hinv j (wl_range _ _ W)) as L.
  exists k, (foldl afterEntry db (vb x).2).
  assert (between St n o (newestCurr n j) (foldl afterEntry db (vb x).2)) as Hbet'.
  { eapply between_apply; [exact Hb|apply L|done]. }
  split; [done|]. intros fuel. rewrite Hrun. unfold runCurr. cbn [setCurrApplicator mCurrApplicator mCurrBucket mWorkLevel database].
  rewrite (at_entry _ _ _ Hat'). cbn [head isSome]. rewrite (wl_level _ _ W). cbn [currentLedger archived].
  rewrite (check_bucket St P n A Hn Hmax Hst Hinv enabled j true x _ o (wl_range _ _ W)); [done|done|done|].
  intros k' b Hg. rewrite (applied_get (vb x).1) by done. unfold get in Hg. by rewrite Hg.
Qed.

(** The snapshot of a level *)
Lemma run_snap j w it db ls o :
  atLevel j w → mApplying w = true → mSnapApplicator w = Some it → mSnapBucket w = Some (concrete (asn (A j))) →
  openBucket (concrete (asn (A j))) = Ok it → between St n o (newestCurr n (S j)) db →
  ∃ k db', between St n o (newestSnap n j) db' ∧ ∀ fuel,
    contSnap (k + fuel) w {| database := db; bucketList := ls |} =
    contCurr fuel (setSnapApplicator None None w) {| database := db'; bucketList := ls |}.
Proof.
  intros W Hap Hsn Hbk Ho Hbet. destruct (archive_open St P n A Hinv j (asn (A j)) (wl_range _ _ W)) as (it0 & E0 & Hat & Hb & Hver); [by right|].
  rewrite Ho in E0. injection E0 as <-. set (x := asn (A j)) in *.
  destruct (snap_phase (vb x).1 (concrete x) ltac:(lia) _ (vb x).2 it w db ls (le_n _) Hat Hb Hsn Hbk Hap (wl_checked _ _ W)) as (k & it' & Hat' & Hrun).
  { intros Hne. apply (wl_total _ _ W j x (wl_range _ _ W)); [by right|by apply body_nonempty]. }
  pose proof (inv_level _ _ _ _ _ _ Hinv j (wl_range _ _ W)) as L.
  exists k, (foldl afterEntry db (vb x).2).
  assert (between St n o (newestSnap n j) (foldl afterEntry db (vb x).2)) as Hbet'.
  { eapply between_apply; [exact Hb|apply L|done]. }
  split; [done|]. intros fuel. rewrite Hrun. unfold runSnap. cbn [setSnapApplicator mSnapApplicator mSnapBucket mWorkLevel database].
  rewrite (at_entry _ _ _ Hat'). cbn [head isSome]. rewrite (wl_level _ _ W). cbn [currentLedger archived].
  rewrite (check_bucket St P n A Hn Hmax Hst Hinv enabled j false x _ o (wl_range _ _ W)); [done|done|done|].
  intros k' b Hg. rewrite (applied_get (vb x).1) by done. unfold get in Hg. by rewrite Hg.
Qed.

(** ** The levels of the node *)

(** The list of the node has its eleven levels. *)
Definition numbered (ls : list BucketLevel) : Prop :=
  length ls = 11%nat ∧ ∀ i l, ls !! i = Some l → mLevel l = Z.of_nat i.

Lemma numbered_at ls j : numbered ls → (j < 11)%nat → ∃ l, ls !! j = Some l ∧ levelAt j ls = Ok l ∧ mLevel l = Z.of_nat j.
Proof.
  intros [Hl H] Hj. destruct (lookup_lt_is_Some_2 ls j ltac:(lia)) as [l El]. exists l. unfold levelAt. rewrite El. auto.
Qed.

Lemma assumeLevels_ok fuel i ls :
  (i + fuel = 11)%nat → numbered ls → (∀ j l, (j < i)%nat → ls !! j = Some l → levelRep hash l j (resumed 0 A j)) →
  ∃ ls', assumeLevels getBucketByHash has fuel i ls = Ok ls' ∧ rep hash ls' (resumed 0 A).
Proof.
  revert i ls. induction fuel as [|fuel IH]; intros i ls Hi Hnum Hdone.
  { exists ls. split; [done|]. destruct Hnum as [Hl _]. split; [done|]. intros j l Hj. apply Hdone; [|done]. apply lookup_lt_Some in Hj. lia. }
  cbn [assumeLevels]. rewrite hsbAt_archived by lia. cbn [obind archivedLevel hsb_curr hsb_snap hsb_next].
  rewrite (Hstored i (ac (A i))), (Hstored i (asn (A i))) by (lia || auto).
  destruct (numbered_at ls i Hnum ltac:(lia)) as (l & El & -> & Hlv). cbn [obind]. apply IH; [lia| |].
  - destruct Hnum as [Hl H]. split; [by rewrite length_insert|]. intros j m. destruct (decide (j = i)) as [->|Hne].
    + rewrite list_lookup_insert_eq by lia. by intros [= <-].
    + rewrite list_lookup_insert_ne by done. apply H.
  - intros j m Hj. destruct (decide (j = i)) as [->|Hne].
    + rewrite list_lookup_insert_eq by (destruct Hnum; lia). by intros [= <-].
    + rewrite list_lookup_insert_ne by done. apply Hdone. lia.
Qed.

Hypothesis Hempty : hash [] = 0.
Hypothesis Hnonempty : ∀ b, b ≠ [] → hash b ≠ 0.

Lemma assumeState_ok ls :
  numbered ls → ∃ ls', assumeState hash sd getBucketByHash has maxVersion ls = Ok ls' ∧ rep hash ls' A.
Proof.
  intros Hnum. destruct (assumeLevels_ok 11 0 ls) as (ls1 & E & Hrep); [lia|done|lia|]. unfold assumeState.
  change (Z.to_nat kNumLevels) with 11%nat. rewrite E. cbn [obind]. unfold restartMerges. rewrite (proj1 Hrep).
  apply (restartLevels_ok St True hash Hempty Hnonempty getBucketByHash maxVersion P n (St n) A); [word|done|done|done].
Qed.

(** ** All levels *)

Definition idle (w : ApplyBucketsWork) : Prop := mSnapApplicator w = None ∧ mCurrApplicator w = None.

Lemma open_applicator j x :
  (j < 11)%nat → x = ac (A j) ∨ x = asn (A j) → ∃ it, openBucket (concrete x) = Ok it ∧ newApplicator maxVersion (concrete x) = Ok it.
Proof.
  intros Hj Hx. destruct (archive_open St P n A Hinv j x Hj Hx) as (it & E & Hat & _ & Hv). exists it. split; [done|].
  unfold newApplicator. rewrite E. cbn [obind]. rewrite (at_version _ _ _ Hat), (proj2 (Z.ltb_ge _ _)) by lia. done.
Qed.

(** The end of the work, from the last level *)
Definition succeeds (ls : list BucketLevel) (k : nat) (w : ApplyBucketsWork) (db : LedgerMap) : Prop :=
  ∃ ls', rep hash ls' A ∧ ∀ fuel, run (k + fuel) w {| database := db; bucketList := ls |} = Ok (WORK_SUCCESS, {| database := St n; bucketList := ls' |}).

Lemma numbered_finish ls w :
  numbered ls → mWorkLevel w = 0 →
  ∃ ls', rep hash ls' A ∧ ∀ fuel, contFinish fuel w {| database := St n; bucketList := ls |} = Ok (WORK_SUCCESS, {| database := St n; bucketList := ls' |}).
Proof.
  intros Hnum Hl. destruct (assumeState_ok ls Hnum) as (ls' & E & Hrep). exists ls'. split; [done|]. intros fuel.
  unfold finishLevel. rewrite Hl. cbn [Z.eqb negb bucketList]. rewrite E. done.
Qed.

(** Both buckets of a level are applied. *)
Lemma both_started j w itS itC db ls o :
  atLevel j w → openBucket (concrete (asn (A j))) = Ok itS → openBucket (concrete (ac (A j))) = Ok itC →
  between St n o (newestCurr n (S j)) db →
  ∃ k db' w', between St n o (newestCurr n j) db' ∧ atLevel j w' ∧ mApplying w' = true ∧ idle w' ∧ ∀ fuel,
    contSnap (k + fuel) (startCurr (concrete (ac (A j))) itC (startSnap (concrete (asn (A j))) itS w)) {| database := db; bucketList := ls |} =
    contFinish fuel w' {| database := db'; bucketList := ls |}.
Proof.
  intros W HS HC Hbet. set (w1 := startCurr _ _ _).
  assert (atLevel j w1) as W1 by (destruct W; by split).
  destruct (run_snap j w1 itS db ls o W1 eq_refl eq_refl eq_refl HS Hbet) as (k1 & db1 & Hb1 & R1).
  assert (atLevel j (setSnapApplicator None None w1)) as W2 by (destruct W; by split).
  destruct (run_curr j (setSnapApplicator None None w1) itC db1 ls o W2 eq_refl eq_refl eq_refl eq_refl HC Hb1) as (k2 & db2 & Hb2 & R2).
  exists (k1 + k2)%nat, db2, (setCurrApplicator None None (setSnapApplicator None None w1)).
  split; [done|]. split; [destruct W; by split|]. split; [done|]. split; [done|].
  intros fuel. rewrite <- Nat.add_assoc, R1. apply R2.
Qed.

(** Only the current bucket of a level is applied. *)
Lemma curr_started j w itC db ls o :
  atLevel j w → idle w → openBucket (concrete (ac (A j))) = Ok itC → between St n o (newestSnap n j) db →
  ∃ k db' w', between St n o (newestCurr n j) db' ∧ atLevel j w' ∧ mApplying w' = true ∧ idle w' ∧ ∀ fuel,
    contSnap (k + fuel) (startCurr (concrete (ac (A j))) itC w) {| database := db; bucketList := ls |} =
    contFinish fuel w' {| database := db'; bucketList := ls |}.
Proof.
  intros W [I1 I2] HC Hbet. set (w1 := startCurr _ _ _).
  assert (atLevel j w1) as W1 by (destruct W; by split).
  destruct (run_curr j w1 itC db ls o W1 eq_refl I1 eq_refl eq_refl HC Hbet) as (k2 & db2 & Hb2 & R2).
  exists k2, db2, (setCurrApplicator None None w1).
  split; [done|]. split; [destruct W; by split|]. split; [done|]. split; [done|].
  intros fuel. rewrite <- R2. unfold runSnap. subst w1. cbn [startCurr mSnapApplicator]. by rewrite I1.
Qed.

Section Node.
Context (ls : list BucketLevel) (db0 : LedgerMap).
Hypothesis Hnum : numbered ls.

(** From a finished level on, when the rest is known to succeed *)
Lemma finish_ok j w db o :
  atLevel j w → mApplying w = true → idle w → between St n o (newestCurr n j) db →
  (∀ i w db, j = S i → atLevel i w → mApplying w = true → idle w → between St n o (newestCurr n (S i)) db → ∃ k, succeeds ls k w db) →
  ∃ k ls', rep hash ls' A ∧ ∀ fuel,
    contFinish (k + fuel) w {| database := db; bucketList := ls |} = Ok (WORK_SUCCESS, {| database := St n; bucketList := ls' |}).
Proof.
  intros W Hap Hid Hbet IH. destruct j as [|i].
  - replace (newestCurr n 0) with n in Hbet by (unfold newestCurr; simpl; lia). apply between_end in Hbet as ->.
    destruct (numbered_finish ls w Hnum (wl_level _ _ W)) as (ls' & Hrep & H). exists 0%nat, ls'. split; [done|]. intros fuel. apply H.
  - destruct (IH i (lowerLevel w) db eq_refl) as (k & ls' & Hrep & H); [|done|done|done|].
    { destruct W as [W1 W2 W3 W4]. split; [simpl; lia|lia|done|done]. }
    exists k, ls'. split; [done|]. intros fuel. rewrite <- (H fuel). unfold finishLevel. rewrite (wl_level _ _ W).
    rewrite (proj2 (Z.eqb_neq _ _)) by lia. done.
Qed.

Lemma idle_complete w : idle w → isLevelComplete w = true.
Proof. intros [H1 H2]. unfold isLevelComplete. rewrite H1, H2. apply orb_true_r. Qed.

(** The start of a level whose two buckets are applied *)
Lemma start_both j w itS itC db l :
  atLevel j w → idle w → levelAt j ls = Ok l → mApplying w = true →
  openBucket (concrete (asn (A j))) = Ok itS → newApplicator maxVersion (concrete (asn (A j))) = Ok itS →
  openBucket (concrete (ac (A j))) = Ok itC → newApplicator maxVersion (concrete (ac (A j))) = Ok itC →
  startLevel hash mBuckets getBucketByHash inMemory has maxVersion w {| database := db; bucketList := ls |} =
  Ok (startCurr (concrete (ac (A j))) itC (startSnap (concrete (asn (A j))) itS w), {| database := db; bucketList := ls |}).
Proof.
  intros W Hid El Hap HS HS' HC HC'. unfold startLevel. rewrite (idle_complete w Hid), (wl_level _ _ W), Nat2Z.id. cbn [assertB obind bucketList].
  rewrite El. cbn [obind]. rewrite hsbAt_archived by apply W. cbn [obind archivedLevel hsb_snap hsb_curr]. rewrite Hap. cbn [negb andb orb obind].
  rewrite (fetch_ok j (asn (A j))) by (apply W || auto). cbn [obind]. rewrite HS'. cbn [obind startSnap mApplying orb].
  rewrite (fetch_ok j (ac (A j))) by (apply W || auto). cbn [obind]. rewrite HC'. done.
Qed.

(** A run that starts a level *)
Lemma start_run j w db w1 db1 k ls' :
  atLevel j w → idle w →
  startLevel hash mBuckets getBucketByHash inMemory has maxVersion w {| database := db; bucketList := ls |} = Ok (w1, {| database := db1; bucketList := ls |}) →
  rep hash ls' A → (∀ fuel, contSnap (k + fuel) w1 {| database := db1; bucketList := ls |} = Ok (WORK_SUCCESS, {| database := St n; bucketList := ls' |})) →
  succeeds ls (S k) w db.
Proof.
  intros W Hid E Hrep R. exists ls'. split; [done|]. intros fuel. rewrite <- (R fuel). cbn [Nat.add].
  rewrite run_starting by (apply W || by apply idle_complete). rewrite E. done.
Qed.

(** The levels from the first on that has been applied *)
Definition appliedFrom (o : Z) (j : nat) : Prop :=
  ∀ w db, atLevel j w → mApplying w = true → idle w → between St n o (newestCurr n (S j)) db → ∃ k, succeeds ls k w db.

Lemma both_then o j w itS itC db :
  (∀ i, j = S i → appliedFrom o i) → atLevel j w → openBucket (concrete (asn (A j))) = Ok itS → openBucket (concrete (ac (A j))) = Ok itC →
  between St n o (newestCurr n (S j)) db →
  ∃ k ls', rep hash ls' A ∧ ∀ fuel,
    contSnap (k + fuel) (startCurr (concrete (ac (A j))) itC (startSnap (concrete (asn (A j))) itS w)) {| database := db; bucketList := ls |} =
    Ok (WORK_SUCCESS, {| database := St n; bucketList := ls' |}).
Proof.
  intros IH W HS HC Hbet. destruct (both_started j w itS itC db ls o W HS HC Hbet) as (k1 & db' & w' & Hb' & W' & Hap' & Hid' & R).
  destruct (finish_ok j w' db' o W' Hap' Hid' Hb') as (k2 & ls' & Hrep & R2); [intros i w2 db2 E; by apply IH|].
  exists (k1 + k2)%nat, ls'. split; [done|]. intros fuel. by rewrite <- Nat.add_assoc, R.
Qed.

Lemma levels_applying o j : appliedFrom o j.
Proof.
  induction j as [j IH] using lt_wf_ind. intros w db W Hap Hid Hbet.
  destruct (numbered_at ls j Hnum (wl_range _ _ W)) as (l & _ & El & _).
  destruct (open_applicator j (asn (A j)) (wl_range _ _ W) (or_intror eq_refl)) as (itS & HS & HS').
  destruct (open_applicator j (ac (A j)) (wl_range _ _ W) (or_introl eq_refl)) as (itC & HC & HC').
  destruct (both_then o j w itS itC db) as (k & ls' & Hrep & R); try done; [intros i ->; apply IH; lia|].
  exists (S k). eapply start_run; [done|done|by eapply start_both|done|exact R].
Qed.

(** ** Until the first bucket that differs *)

Definition sameSnap (j : nat) (l : BucketLevel) : Prop := hash (concrete (asn (A j))) = hash (mSnap l).
Definition sameCurr (j : nat) (l : BucketLevel) : Prop := hash (concrete (ac (A j))) = hash (mCurr l).

(** The node has the buckets of the archive from level [j] on. *)
Definition sameAbove (j : nat) : Prop := ∀ i l, (j ≤ i < 11)%nat → ls !! i = Some l → sameSnap i l ∧ sameCurr i l.

(** The database when the first bucket is applied, which begins after [o] *)
Definition startDb (o : Z) : LedgerMap := if inMemory then db0 else deleteObjectsModifiedOnOrAfterLedger (o + 1) db0.

Definition startsAt (o : Z) : Prop := between St n o o (startDb o).

Hypothesis Hsnap : ∀ j l, (j < 11)%nat → ls !! j = Some l → sameAbove (S j) → ¬ sameSnap j l →
  snapSize n j ≠ 0 ∧ startsAt (newestCurr n (S j)).
Hypothesis Hcurr : ∀ j l, (j < 11)%nat → ls !! j = Some l → sameAbove (S j) → sameSnap j l → ¬ sameCurr j l →
  currSize n j ≠ 0 ∧ startsAt (newestSnap n j).
Hypothesis Hall : sameAbove 0 → db0 = St n.

Notation node0 := {| database := db0; bucketList := ls |}.
Notation start := (startLevel hash mBuckets getBucketByHash inMemory has maxVersion).

Lemma start_differs_snap j w itS itC l :
  atLevel j w → idle w → ls !! j = Some l → mApplying w = false → ¬ sameSnap j l → snapSize n j ≠ 0 →
  newApplicator maxVersion (concrete (asn (A j))) = Ok itS → newApplicator maxVersion (concrete (ac (A j))) = Ok itC →
  start w node0 = Ok (startCurr (concrete (ac (A j))) itC (startSnap (concrete (asn (A j))) itS w), {| database := startDb (newestCurr n (S j)); bucketList := ls |}).
Proof.
  intros W Hid El Hap Hne Hsz HS' HC'. unfold startLevel. rewrite (idle_complete w Hid), (wl_level _ _ W), Nat2Z.id. cbn [assertB obind bucketList].
  unfold levelAt. rewrite El. cbn [obind]. rewrite hsbAt_archived by apply W. cbn [obind archivedLevel hsb_snap hsb_curr]. rewrite Hap.
  rewrite (proj2 (Z.eqb_neq _ _) Hne). cbn [negb andb orb obind].
  rewrite (oldestLedgerInSnap_ok n j Hn ltac:(word) ltac:(pose proof (wl_range _ _ W); lia)) by (unfold sizeFuel; lia).
  rewrite (proj2 (Z.eqb_neq _ _) Hsz). unfold startDb.
  rewrite (fetch_ok j (asn (A j))), (fetch_ok j (ac (A j))) by (apply W || auto). cbn [obind]. rewrite HS'. cbn [obind startSnap mApplying orb]. rewrite HC'.
  by destruct inMemory.
Qed.

Lemma start_differs_curr j w itC l :
  atLevel j w → idle w → ls !! j = Some l → mApplying w = false → sameSnap j l → ¬ sameCurr j l → currSize n j ≠ 0 →
  newApplicator maxVersion (concrete (ac (A j))) = Ok itC →
  start w node0 = Ok (startCurr (concrete (ac (A j))) itC w, {| database := startDb (newestSnap n j); bucketList := ls |}).
Proof.
  intros W Hid El Hap He Hne Hsz HC'. unfold startLevel. rewrite (idle_complete w Hid), (wl_level _ _ W), Nat2Z.id. cbn [assertB obind bucketList].
  unfold levelAt. rewrite El. cbn [obind]. rewrite hsbAt_archived by apply W. cbn [obind archivedLevel hsb_snap hsb_curr]. rewrite Hap.
  rewrite (proj2 (Z.eqb_neq _ _) Hne), (proj2 (Z.eqb_eq _ _) He). cbn [negb andb orb obind].
  rewrite (oldestLedgerInCurr_ok n j Hn ltac:(word) ltac:(pose proof (wl_range _ _ W); lia)) by (unfold sizeFuel; lia).
  rewrite (proj2 (Z.eqb_neq _ _) Hsz). unfold startDb. rewrite (fetch_ok j (ac (A j))) by (apply W || auto).
  destruct inMemory; cbn [negb andb obind]; rewrite Hap; cbn [orb obind]; rewrite HC'; done.
Qed.

Lemma start_same j w l :
  atLevel j w → idle w → ls !! j = Some l → mApplying w = false → sameSnap j l → sameCurr j l → start w node0 = Ok (w, node0).
Proof.
  intros W Hid El Hap He1 He2. unfold startLevel. rewrite (idle_complete w Hid), (wl_level _ _ W), Nat2Z.id. cbn [assertB obind bucketList].
  unfold levelAt. rewrite El. cbn [obind]. rewrite hsbAt_archived by apply W. cbn [obind archivedLevel hsb_snap hsb_curr]. rewrite Hap.
  rewrite (proj2 (Z.eqb_eq _ _) He1), (proj2 (Z.eqb_eq _ _) He2). cbn [negb andb orb]. rewrite andb_false_r. cbn [obind]. rewrite Hap. done.
Qed.

Lemma levels_waiting j : ∀ w,
  atLevel j w → mApplying w = false → idle w → sameAbove (S j) → ∃ k, succeeds ls k w db0.
Proof.
  induction j as [j IH] using lt_wf_ind. intros w W Hap Hid Habove.
  destruct (numbered_at ls j Hnum (wl_range _ _ W)) as (l & El & _ & _).
  destruct (open_applicator j (asn (A j)) (wl_range _ _ W) (or_intror eq_refl)) as (itS & HS & HS').
  destruct (open_applicator j (ac (A j)) (wl_range _ _ W) (or_introl eq_refl)) as (itC & HC & HC').
  destruct (decide (hash (concrete (asn (A j))) = hash (mSnap l))) as [Es|Es].
  2: { destruct (Hsnap j l (wl_range _ _ W) El Habove Es) as [Hsz Hbet].
       destruct (both_then (newestCurr n (S j)) j w itS itC (startDb (newestCurr n (S j)))) as (k & ls' & Hrep & R); try done; [intros; apply levels_applying|].
       exists (S k). eapply start_run; [done|done|by eapply start_differs_snap|done|exact R]. }
  destruct (decide (hash (concrete (ac (A j))) = hash (mCurr l))) as [Ec|Ec].
  2: { destruct (Hcurr j l (wl_range _ _ W) El Habove Es Ec) as [Hsz Hbet].
       destruct (curr_started j w itC (startDb (newestSnap n j)) ls (newestSnap n j) W Hid HC Hbet) as (k1 & db' & w' & Hb' & W' & Hap' & Hid' & R).
       destruct (finish_ok j w' db' _ W' Hap' Hid' Hb') as (k2 & ls' & Hrep & R2); [intros; by eapply levels_applying|].
       exists (S (k1 + k2)). eapply start_run; [done|done|by eapply start_differs_curr|done|]. intros fuel. by rewrite <- Nat.add_assoc, R. }
  assert (sameAbove j) as Hj.
  { intros i m Hi Em. destruct (decide (i = j)) as [->|]; [rewrite El in Em; by injection Em as <-|apply Habove; [lia|done]]. }
  assert (∀ fuel, contSnap fuel w node0 = contFinish fuel w node0) as Eskip.
  { intros fuel. destruct Hid as [I1 I2]. unfold runSnap, runCurr. by rewrite I1, I2. }
  destruct j as [|i].
  - destruct (numbered_finish ls w Hnum (wl_level _ _ W)) as (ls' & Hrep & R).
    exists 1%nat. eapply (start_run _ _ _ w _ 0); [done|done|by eapply start_same|done|]. intros fuel. rewrite Eskip, (Hall Hj). apply R.
  - destruct (IH i ltac:(lia) (lowerLevel w)) as (k & ls' & Hrep & R); [|done|done|done|].
    { destruct W as [W1 W2 W3 W4]. split; [simpl; lia|lia|done|done]. }
    exists (S k). eapply start_run; [done|done|by eapply start_same|done|]. intros fuel. rewrite Eskip, <- (R fuel). unfold finishLevel.
    rewrite (wl_level _ _ W), (proj2 (Z.eqb_neq _ _)) by lia. done.
Qed.

(** ** The whole work *)

Lemma apply_ok :
  ∃ k ls', rep hash ls' A ∧ ∀ fuel,
    applyBuckets hash sd getSize mBuckets getBucketByHash inMemory enabled has maxVersion (k + fuel) node0 =
    Ok (WORK_SUCCESS, {| database := St n; bucketList := ls' |}).
Proof.
  destruct onReset_ok as (w & E & Hap & Hck & Hl & I1 & I2 & Ht).
  destruct (levels_waiting 10 (markChecked w)) as (k & ls' & Hrep & R).
  { by split; [|lia|..]. }
  { done. }
  { done. }
  { intros i l Hi. lia. }
  exists (S k), ls'. split; [done|]. intros fuel. unfold applyBuckets. rewrite E. cbn [obind].
  replace (Ok _) with (run (k + S fuel) (markChecked w) node0) by apply R. replace (k + S fuel)%nat with (S k + fuel)%nat by lia.
  cbn [Nat.add runWork]. f_equal. unfold onRun. rewrite Hck, Hl. cbn [negb andb]. change (10 =? kNumLevels - 1) with true. rewrite (valid_ok hash getBucketByHash St P n A True Hinv Hstored Hempty). done.
Qed.
End Node.
End Runs.
