(* ===== verification/Catchup.v ===== *)
(** * Publishing and catching up

    A node that has closed the ledgers of a history publishes its bucket list;
    another node, new or behind, applies the archive and has the ledger of the
    history and the bucket list of the publisher. *)

From stdpp Require Import prelude list gmap functions sorting.
From Stdlib Require Import ZArith Lia.
From S2P Require Import Prelude Numeric Exchange LedgerEntries Buckets BucketMerge BucketChain BucketList BucketLevels BucketSizes.
From S2P Require Import BucketListSafety BucketApply HistoryArchive ApplyBuckets BucketCheck CatchupSafety.
Local Open Scope Z_scope.

(** ** The ledgers of a history *)

(** The ledger after the first [m] batches *)
Definition ledgerAt (bs : list Batch) (m : Z) : LedgerMap := ledgerAfter ∅ (take (Z.to_nat m) bs).

Lemma ledgerAt_start bs : ledgerAt bs 0 = ∅.
Proof. done. Qed.

Lemma ledgerAt_nat bs m : ledgerAt bs (Z.of_nat m) = ledgerAfter ∅ (take m bs).
Proof. unfold ledgerAt. by rewrite Nat2Z.id. Qed.

Lemma ledgerAt_next bs m b :
  bs !! m = Some b → ledgerAt bs (Z.of_nat (S m)) = afterBatch (ledgerAt bs (Z.of_nat m)) (b_init b) (b_live b) (b_dead b).
Proof. intros E. rewrite !ledgerAt_nat, (take_S_r _ _ _ E). unfold ledgerAfter. by rewrite foldl_app. Qed.

Lemma batchesOk_lookup P db bs m b :
  batchesOk P db bs → bs !! m = Some b → batchOk (ledgerAfter db (take m bs)) (b_init b) (b_live b) (b_dead b).
Proof.
  revert P db m. induction bs as [|c bs IH]; intros P db m; [done|]. intros (_ & H2 & H3). destruct m as [|m]; simpl; [by intros [= ->]|].
  intros E. by apply (IH _ _ m H3).
Qed.

Lemma batchesStamped_lookup n bs m b : batchesStamped n bs → bs !! m = Some b → stamped (n + Z.of_nat (S m)) (b_init b) (b_live b).
Proof.
  revert n m. induction bs as [|c bs IH]; intros n m; [done|]. intros [H1 H2]. destruct m as [|m]; cbn [lookup list_lookup].
  - by intros [= ->].
  - intros E. replace (n + Z.of_nat (S (S m))) with (n + 1 + Z.of_nat (S m)) by lia. by apply IH.
Qed.

(** What a key is after a batch *)
Lemma afterBatch_get db i l d k :
  NoDup (keyOf <$> batchEntries true i l d) →
  afterBatch db i l d !! k = match getEntry k (batchEntries true i l d) with Some e => entryState e | None => db !! k end.
Proof. intros Hn. unfold afterBatch. apply afterEntries_get; [done|apply batchEntries_plain]. Qed.

Lemma ledgerAt_stamps P bs :
  batchesOk P ∅ bs → batchesStamped 0 bs → stampsOk (ledgerAt bs) (Z.of_nat (length bs)).
Proof.
  intros Hok Hst m k e Hm. rewrite <- (Z2Nat.id m) by lia. assert (Z.to_nat m ≤ length bs)%nat as Hle by lia. clear Hm.
  revert k e. generalize dependent (Z.to_nat m). intros x Hle. induction x as [|x IH]; intros k e; [by rewrite ledgerAt_nat|].
  destruct (lookup_lt_is_Some_2 bs x ltac:(lia)) as [b Eb]. rewrite (ledgerAt_next _ _ _ Eb). pose proof (batchesOk_lookup _ _ _ _ _ Hok Eb) as [Hn _].
  rewrite afterBatch_get by done. destruct (getEntry k _) as [c|] eqn:Ec.
  - intros E. pose proof (getEntry_key _ _ _ Ec) as (Hin & Hp & Hk). split; [rewrite <- Hk; by apply plain_live_key|].
    assert (lastModifiedLedgerSeq e = Z.of_nat (S x)) as El.
    { apply (batchesStamped_lookup _ _ _ _ Hst Eb). unfold batchEntries in Hin. rewrite !elem_of_app, !list_elem_of_fmap in Hin.
      destruct Hin as [(y & -> & Hy)|[(y & -> & Hy)|(y & -> & Hy)]]; simplify_eq/=; set_solver. }
    split; [lia|]. intros m' Hm'. assert (m' = Z.of_nat (S x)) as -> by lia. rewrite (ledgerAt_next _ _ _ Eb), afterBatch_get, Ec by done. done.
  - intros E. destruct (IH ltac:(lia) k e E) as (H1 & H2 & H3). split; [done|]. split; [lia|]. intros m' Hm'.
    destruct (decide (m' = Z.of_nat (S x))) as [->|]; [|apply H3; lia]. rewrite (ledgerAt_next _ _ _ Eb), afterBatch_get, Ec by done. done.
Qed.

(** ** Nodes that have closed ledgers of the history *)

Section History.
Context (hash : list BucketEntry → Z).
Hypothesis Hempty : hash [] = 0.
Hypothesis Hnonempty : ∀ b, b ≠ [] → hash b ≠ 0.
Context (bs : list Batch) (stamps : Prop).
Hypothesis Hok : batchesOk FIRST_PROTOCOL_SHADOWS_REMOVED ∅ bs.
Hypothesis Hlen : Z.of_nat (length bs) ≤ UINT32_MAX.
Hypothesis Hstamps : stamps → batchesStamped 0 bs.
Notation protocolAt m := (lastProtocol FIRST_PROTOCOL_SHADOWS_REMOVED (take m bs)).

Lemma batchesOk_take P db cs m : batchesOk P db cs → batchesOk P db (take m cs).
Proof using. revert P db m. induction cs as [|c cs IH]; intros P db [|m]; simpl; try done. intros (H1 & H2 & H3). split_and!; auto. Qed.

Lemma batchesStamped_take n cs m : batchesStamped n cs → batchesStamped n (take m cs).
Proof using. revert n m. induction cs as [|c cs IH]; intros n [|m]; simpl; try done. intros (H1 & H2). split; auto. Qed.

(** The list after the first [m] ledgers depends on the batches alone. *)
Lemma history_run m :
  (m ≤ length bs)%nat →
  ∃ A, ListInv (ledgerAt bs) stamps (protocolAt m) (Z.of_nat m) (ledgerAt bs (Z.of_nat m)) A ∧
    ∀ evs, omap batchOf evs = take m bs → ∃ ls, runNode hash 0 evs newBucketList = Ok ls ∧ rep hash ls A.
Proof using Hempty Hnonempty Hok Hlen Hstamps.
  intros Hm. assert (length (take m bs) = m) as Hl by (rewrite length_take; lia).
  destruct (run_ok (ledgerAt bs) stamps (ledgerAt_start bs) hash Hempty Hnonempty (take m bs) FIRST_PROTOCOL_SHADOWS_REMOVED 0 ∅ emptyLevels)
    as (A & Hinv & Hrun); [done|lia|lia| |intros H; by apply batchesStamped_take, Hstamps|apply new_list_inv|by apply batchesOk_take|].
  { intros k Hk. rewrite Z.add_0_l, ledgerAt_nat, take_take. f_equal. f_equal. lia. }
  rewrite Hl, Z.add_0_l in Hinv. exists A. split; [by rewrite ledgerAt_nat|]. intros evs E. apply (Hrun evs newBucketList E). apply new_list_rep.
Qed.
End History.

(** ** What a new node and a node behind start from *)

Lemma covers_none_eq St stamps lo hi : covers St stamps lo hi None → St hi = St lo.
Proof. intros [_ H]. apply map_eq. intros k. apply (H k). Qed.

Lemma bucket_empty P x : good P x → concrete x = [] → x = None.
Proof.
  destruct x as [[v l]|]; [|done]. intros [H _ _]. unfold concrete, bucketOf. simpl in *.
  rewrite (proj2 (Z.leb_le _ _)); [done|]. unfold FIRST_PROTOCOL_SHADOWS_REMOVED, FIRST_PROTOCOL_SUPPORTING_INITENTRY_AND_METAENTRY in *. lia.
Qed.

Section Start.
Context (hash : list BucketEntry → Z).
Hypothesis Hempty : hash [] = 0.
Hypothesis Hnonempty : ∀ b, b ≠ [] → hash b ≠ 0.
Context (St : Z → LedgerMap) (P n : Z) (A : nat → AbsLevel).
Hypothesis Hn : 1 ≤ n.
Hypothesis Hst : stampsOk St n.
Hypothesis Hst0 : St 0 = ∅.
Hypothesis Hinv : ListInv St True P n (St n) A.

(** A bucket of the archive that differs from the node's spans ledgers. *)
Lemma snap_spans j : (j < 11)%nat → is_Some (asn (A j)) → snapSize n j ≠ 0.
Proof using Hn Hinv.
  intros Hj H. apply (lv_snap _ _ _ _ _ _ (inv_level _ _ _ _ _ _ Hinv j Hj)) in H as [H1 H2]. unfold kNumLevels in H1.
  pose proof (snapSize_pos n j ltac:(lia) H2). lia.
Qed.

Lemma curr_spans j : (j < 11)%nat → is_Some (ac (A j)) → currSize n j ≠ 0.
Proof using Hn Hinv.
  intros Hj H. apply (lv_curr _ _ _ _ _ _ (inv_level _ _ _ _ _ _ Hinv j Hj)) in H. pose proof (currSize_pos n j ltac:(lia) H). lia.
Qed.

(** The ledger before the buckets that are not empty is empty. *)
Lemma empty_above j :
  (j ≤ 11)%nat → (∀ i, (j ≤ i < 11)%nat → ac (A i) = None ∧ asn (A i) = None) → St (newestCurr n j) = ∅.
Proof using Hst0 Hinv.
  intros Hj. remember (11 - j)%nat as d eqn:Ed. revert j Hj Ed. induction d as [|d IH]; intros j Hj Ed H.
  { replace j with 11%nat by lia. by rewrite newestCurr_last. }
  destruct (H j ltac:(lia)) as [Ec Es]. destruct (inv_level _ _ _ _ _ _ Hinv j ltac:(lia)) as [_ _ _ Hc Hs]. rewrite Ec in Hc. rewrite Es in Hs.
  rewrite (covers_none_eq _ _ _ _ Hc), (covers_none_eq _ _ _ _ Hs). apply IH; [lia|lia|]. intros i Hi. apply H. lia.
Qed.

(** *** A new node *)

Lemma delete_nothing o : deleteObjectsModifiedOnOrAfterLedger o ∅ = ∅.
Proof using. apply map_filter_empty. Qed.

Lemma newBucketList_at j l : newBucketList !! j = Some l → mCurr l = [] ∧ mSnap l = [] ∧ mLevel l = Z.of_nat j.
Proof using.
  unfold newBucketList. rewrite list_lookup_fmap. destruct (seqZ 0 kNumLevels !! j) as [i|] eqn:E; [|done]. apply lookup_seqZ in E as [-> _].
  by intros [= <-].
Qed.

Lemma same_empty j x : (j < 11)%nat → x = ac (A j) ∨ x = asn (A j) → hash (concrete x) = hash [] ↔ x = None.
Proof using Hempty Hnonempty Hinv.
  intros Hj Hx. split; [|by intros ->]. intros E. apply (bucket_empty P); [by apply (archive_good _ _ _ _ _ _ j x Hinv)|].
  destruct (concrete x) as [|b l] eqn:Ex; [done|]. exfalso. rewrite Hempty in E. by apply (Hnonempty (b :: l)).
Qed.

Lemma new_above j : (j ≤ 11)%nat → sameAbove hash A newBucketList j → St (newestCurr n j) = ∅.
Proof using Hempty Hnonempty Hst0 Hinv.
  intros Hj H. apply empty_above; [done|]. intros i Hi. destruct (lookup_lt_is_Some_2 newBucketList i) as [l El]; [done || (change (length newBucketList) with 11%nat; lia)|].
  destruct (H i l Hi El) as [H1 H2]. destruct (newBucketList_at i l El) as (Ec & Es & _). unfold sameSnap, sameCurr in *. rewrite Ec in H2. rewrite Es in H1.
  split; [apply (same_empty i); [lia|by left|done]|apply (same_empty i); [lia|by right|done]].
Qed.

Lemma new_starts inMemory o : St o = ∅ → startsAt inMemory St n ∅ o.
Proof using. intros E k. left. unfold startDb. rewrite delete_nothing, E. by destruct inMemory. Qed.

Lemma new_snap inMemory j l :
  (j < 11)%nat → newBucketList !! j = Some l → sameAbove hash A newBucketList (S j) → ¬ sameSnap hash A j l →
  snapSize n j ≠ 0 ∧ startsAt inMemory St n ∅ (newestCurr n (S j)).
Proof using Hempty Hnonempty Hst0 Hinv Hn.
  intros Hj El Hab Hne. destruct (newBucketList_at j l El) as (_ & Es & _). split; [|apply new_starts, new_above; [lia|done]].
  apply snap_spans; [done|]. unfold sameSnap in Hne. rewrite Es in Hne. destruct (asn (A j)); [by eexists|done].
Qed.

Lemma new_curr inMemory j l :
  (j < 11)%nat → newBucketList !! j = Some l → sameAbove hash A newBucketList (S j) → sameSnap hash A j l → ¬ sameCurr hash A j l →
  currSize n j ≠ 0 ∧ startsAt inMemory St n ∅ (newestSnap n j).
Proof using Hempty Hnonempty Hst0 Hinv Hn.
  intros Hj El Hab Hs Hne. destruct (newBucketList_at j l El) as (Ec & Es & _). unfold sameSnap, sameCurr in *. rewrite Es in Hs. rewrite Ec in Hne.
  split; [apply curr_spans; [done|]; destruct (ac (A j)); [by eexists|done]|]. apply new_starts.
  apply (same_empty j) in Hs as Hs'; [|done|by right]. destruct (inv_level _ _ _ _ _ _ Hinv j Hj) as [_ _ _ _ Hcov]. rewrite Hs' in Hcov.
  rewrite (covers_none_eq _ _ _ _ Hcov). apply new_above; [lia|done].
Qed.

Lemma new_all : sameAbove hash A newBucketList 0 → ∅ = St n.
Proof using Hempty Hnonempty Hst0 Hinv.
  intros H. rewrite <- (new_above 0 ltac:(lia) H). f_equal. unfold newestCurr. simpl. lia.
Qed.

Lemma new_numbered : numbered newBucketList.
Proof using. split; [done|]. intros i l E. by apply newBucketList_at in E as (_ & _ & E). Qed.

(** *** A node behind *)

Section Behind.
Context (P0 n0 : Z) (A0 : nat → AbsLevel) (ls : list BucketLevel).
Hypothesis Hn0 : 0 ≤ n0 ≤ n.
Hypothesis Hinv0 : ListInv St True P0 n0 (St n0) A0.
Hypothesis Hrep0 : rep hash ls A0.

(** The hash tells the buckets of a level of the archive from those of the node. *)
Hypothesis Hsnaps : ∀ j, (j < 11)%nat → hash (concrete (asn (A j))) = hash (concrete (asn (A0 j))) → concrete (asn (A j)) = concrete (asn (A0 j)).
Hypothesis Hcurrs : ∀ j, (j < 11)%nat → hash (concrete (ac (A j))) = hash (concrete (ac (A0 j))) → concrete (ac (A j)) = concrete (ac (A0 j)).

(** The node has closed the ledger [o], or has the same entries. *)
Definition closed (o : Z) : Prop := o ≤ n0 ∨ St n0 = St o.

Lemma behind_numbered : numbered ls.
Proof using Hrep0. destruct Hrep0 as [Hl H]. split; [done|]. intros i l E. apply (H i l E). Qed.

Lemma behind_at j l : ls !! j = Some l → mSnap l = concrete (asn (A0 j)) ∧ mCurr l = concrete (ac (A0 j)).
Proof using Hrep0. intros E. by destruct (proj2 Hrep0 j l E) as (_ & ? & ? & _). Qed.

Lemma delete_get o k : deleteObjectsModifiedOnOrAfterLedger (o + 1) (St n0) !! k =
  match St n0 !! k with Some e => if decide (lastModifiedLedgerSeq e ≤ o) then Some e else None | None => None end.
Proof using.
  unfold deleteObjectsModifiedOnOrAfterLedger. rewrite map_lookup_filter. destruct (St n0 !! k) as [e|]; [|done]. simpl.
  destruct (decide (lastModifiedLedgerSeq e ≤ o)); [rewrite option_guard_True by (simpl; lia)|rewrite option_guard_False by (simpl; lia)]; done.
Qed.

Lemma behind_starts o : 0 ≤ o ≤ n → closed o → startsAt false St n (St n0) o.
Proof using Hst Hn0.
  clear Hn. intros Ho Hc k. unfold startDb. rewrite delete_get. destruct (St n0 !! k) as [e|] eqn:E.
  - destruct (Hst n0 k e ltac:(lia) E) as (_ & Hr & Hkeep). destruct (decide (lastModifiedLedgerSeq e ≤ o)) as [Hle|Hgt].
    + left. destruct (decide (o ≤ n0)) as [H1|H1]; [symmetry; apply Hkeep; lia|]. destruct Hc as [|Hc]; [lia|]. by rewrite <- Hc.
    + destruct (St o !! k) as [e'|] eqn:E'; [|by left]. right. split; [done|]. exists e'. split; [done|].
      destruct (Hst o k e' ltac:(lia) E') as (_ & Hr' & _). split; [lia|]. intros Hend.
      destruct (Hst n k e' ltac:(lia) Hend) as (_ & _ & Hk). rewrite (Hk n0) in E by lia. injection E as ->. lia.
  - destruct (St o !! k) as [e'|] eqn:E'; [|by left]. right. split; [done|]. exists e'. split; [done|].
    destruct (Hst o k e' ltac:(lia) E') as (_ & Hr' & _). split; [lia|]. intros Hend.
    destruct (Hst n k e' ltac:(lia) Hend) as (_ & _ & Hk). destruct (decide (o ≤ n0)) as [H1|H1]; [rewrite Hk in E by lia; done|].
    destruct Hc as [|Hc]; [lia|]. rewrite Hc in E. congruence.
Qed.

Lemma behind_snap j l :
  (j < 11)%nat → ls !! j = Some l → (¬ sameSnap hash A j l → closed (newestCurr n (S j))) → ¬ sameSnap hash A j l →
  snapSize n j ≠ 0 ∧ startsAt false St n (St n0) (newestCurr n (S j)).
Proof using Hst Hn0 Hinv Hinv0 Hrep0 Hn.
  intros Hj El Hc Hne. destruct (behind_at j l El) as [Es _]. pose proof (newest_bounds n j Hn ltac:(lia)). split; [|apply behind_starts; [lia|by apply Hc]].
  apply snap_spans; [done|]. destruct (asn (A j)) as [s|] eqn:E; [by eexists|]. exfalso. apply Hne. unfold sameSnap. rewrite E, Es.
  destruct (asn (A0 j)) as [s|] eqn:E0; [|done]. exfalso. destruct (lv_snap _ _ _ _ _ _ (inv_level _ _ _ _ _ _ Hinv0 j Hj)) as [H1 _].
  destruct (H1 ltac:(by rewrite E0; eexists)) as [H2 H3]. destruct (lv_snap _ _ _ _ _ _ (inv_level _ _ _ _ _ _ Hinv j Hj)) as [_ H4].
  destruct (H4 ltac:(lia)) as [? H5]. congruence.
Qed.

Lemma behind_curr j l :
  (j < 11)%nat → ls !! j = Some l → (¬ sameCurr hash A j l → closed (newestSnap n j)) → ¬ sameCurr hash A j l →
  currSize n j ≠ 0 ∧ startsAt false St n (St n0) (newestSnap n j).
Proof using Hst Hn0 Hinv Hinv0 Hrep0 Hn.
  intros Hj El Hc Hne. destruct (behind_at j l El) as [_ Es]. pose proof (newest_bounds n j Hn ltac:(lia)). split; [|apply behind_starts; [lia|by apply Hc]].
  apply curr_spans; [done|]. destruct (ac (A j)) as [s|] eqn:E; [by eexists|]. exfalso. apply Hne. unfold sameCurr. rewrite E, Es.
  destruct (ac (A0 j)) as [s|] eqn:E0; [|done]. exfalso. destruct (lv_curr _ _ _ _ _ _ (inv_level _ _ _ _ _ _ Hinv0 j Hj)) as [H1 _].
  specialize (H1 ltac:(by rewrite E0; eexists)). destruct (lv_curr _ _ _ _ _ _ (inv_level _ _ _ _ _ _ Hinv j Hj)) as [_ H4].
  destruct (H4 ltac:(lia)) as [? H5]. congruence.
Qed.

(** Equal buckets represent equal ledgers. *)
Lemma behind_all : sameAbove hash A ls 0 → St n0 = St n.
Proof using Hinv Hinv0 Hrep0 Hsnaps Hcurrs.
  intros H. apply map_eq. intros k. rewrite <- (g_state _ _ _ (inv_global _ _ _ _ _ _ Hinv) k), <- (g_state _ _ _ (inv_global _ _ _ _ _ _ Hinv0) k).
  f_equal. assert (∀ x y, concrete x = concrete y → get k x = get k y) as Hget.
  { intros x y E. unfold get. rewrite <- (getEntry_bucketOf k (vb x).1 (vb x).2), <- (getEntry_bucketOf k (vb y).1 (vb y).2). unfold concrete in E. by rewrite E. }
  unfold chainOf, flat, flatRange. assert (∀ js, Forall (λ j, (j < 11)%nat) js →
    omap (get k) (concat ((λ j, [ac (A0 j); asn (A0 j)]) <$> js)) = omap (get k) (concat ((λ j, [ac (A j); asn (A j)]) <$> js))) as Hjs.
  2: { apply Hjs. apply Forall_forall. intros j Hj. apply elem_of_seq in Hj. lia. }
  intros js Hf. induction Hf as [|j js Hj Hf IH]; [done|]. rewrite !fmap_cons. cbn [concat]. rewrite !omap_app, IH. f_equal.
  destruct (rep_at hash ls A0 j Hrep0 Hj) as (l & El & _ & _). destruct (H j l ltac:(lia) El) as [H1 H2]. unfold sameSnap, sameCurr in *.
  destruct (behind_at j l El) as [E1 E2]. rewrite E1 in H1. rewrite E2 in H2.
  cbn. by rewrite (Hget _ _ (Hsnaps j Hj H1)), (Hget _ _ (Hcurrs j Hj H2)).
Qed.
End Behind.
End Start.

(** ** Statements about lists of levels *)

Definition bucketsOfList (ls : list BucketLevel) : list (list BucketEntry * list BucketEntry) := (λ l, (mCurr l, mSnap l)) <$> ls.

(** The bucket manager finds the buckets of the list by their hashes. *)
Definition stores (hash : list BucketEntry → Z) (getBucketByHash : Z → option (list BucketEntry)) (ls : list BucketLevel) : Prop :=
  ∀ l, l ∈ ls → getBucketByHash (hash (mCurr l)) = Some (mCurr l) ∧ getBucketByHash (hash (mSnap l)) = Some (mSnap l).

(** Fetched buckets are what they claim to be. *)
Definition agrees (hash : list BucketEntry → Z) (mBuckets : gmap Z (list BucketEntry)) (ls : list BucketLevel) : Prop :=
  ∀ l b, l ∈ ls → (mBuckets !! hash (mCurr l) = Some b → b = mCurr l) ∧ (mBuckets !! hash (mSnap l) = Some b → b = mSnap l).

Lemma rep_bucketsOfList hash ls ls' A : rep hash ls A → rep hash ls' A → bucketsOfList ls = bucketsOfList ls'.
Proof.
  intros [H1 H2] [H3 H4]. apply list_eq. intros j. unfold bucketsOfList. rewrite !list_lookup_fmap.
  destruct (ls !! j) as [l|] eqn:E.
  - destruct (lookup_lt_is_Some_2 ls' j) as [l' E']; [apply lookup_lt_Some in E; lia|]. rewrite E'. simpl. f_equal.
    destruct (H2 j l E) as (_ & -> & -> & _), (H4 j l' E') as (_ & -> & -> & _). done.
  - apply lookup_ge_None in E. by rewrite (proj2 (lookup_ge_None ls' j)) by lia.
Qed.

Lemma rep_position hash ls A j x :
  rep hash ls A → (j < 11)%nat → x = ac (A j) ∨ x = asn (A j) → ∃ l, l ∈ ls ∧ (concrete x = mCurr l ∨ concrete x = mSnap l).
Proof.
  intros Hrep Hj Hx. destruct (rep_at hash ls A j Hrep Hj) as (l & El & _ & (_ & Hc & Hs & _)). exists l.
  split; [by apply list_elem_of_lookup_2 in El|]. destruct Hx as [-> | ->]; [left|right]; done.
Qed.

Lemma stores_rep hash getBucketByHash ls A :
  rep hash ls A → stores hash getBucketByHash ls →
  ∀ j x, (j < 11)%nat → x = ac (A j) ∨ x = asn (A j) → getBucketByHash (hash (concrete x)) = Some (concrete x).
Proof. intros Hrep H j x Hj Hx. destruct (rep_position hash ls A j x Hrep Hj Hx) as (l & Hl & [-> | ->]); by apply H. Qed.

Lemma agrees_rep hash mBuckets ls A :
  rep hash ls A → agrees hash mBuckets ls →
  ∀ j x b, (j < 11)%nat → x = ac (A j) ∨ x = asn (A j) → mBuckets !! hash (concrete x) = Some b → b = concrete x.
Proof. intros Hrep H j x b Hj Hx. destruct (rep_position hash ls A j x Hrep Hj Hx) as (l & Hl & [-> | ->]); by apply H. Qed.

(** The lists have the same buckets, by their hashes, from level [j] on. *)
Definition sameFrom (hash : list BucketEntry → Z) (ls ls' : list BucketLevel) (j : nat) : Prop :=
  ∀ i l l', (j ≤ i)%nat → ls !! i = Some l → ls' !! i = Some l' → hash (mSnap l) = hash (mSnap l') ∧ hash (mCurr l) = hash (mCurr l').

(** The hash tells the buckets of the two lists apart. *)
Definition distinguishes (hash : list BucketEntry → Z) (ls ls' : list BucketLevel) : Prop :=
  ∀ i l l', ls !! i = Some l → ls' !! i = Some l' →
    (hash (mSnap l) = hash (mSnap l') → mSnap l = mSnap l') ∧ (hash (mCurr l) = hash (mCurr l') → mCurr l = mCurr l').

(** The node that is at ledger [n0] has closed the ledgers, or has the entries,
    before the oldest bucket in which its list [ls'] differs from [ls]. *)
Definition hasClosed (hash : list BucketEntry → Z) (bs : list Batch) (n0 : Z) (ls ls' : list BucketLevel) : Prop :=
  let n := Z.of_nat (length bs) in
  ∀ j l l', ls !! j = Some l → ls' !! j = Some l' → sameFrom hash ls ls' (S j) →
    (hash (mSnap l) ≠ hash (mSnap l') → closed (ledgerAt bs) n0 (newestCurr n (S j))) ∧
    (hash (mSnap l) = hash (mSnap l') → hash (mCurr l) ≠ hash (mCurr l') → closed (ledgerAt bs) n0 (newestSnap n j)).

Lemma sameAbove_sameFrom hash A ls ls' j : rep hash ls A → sameAbove hash A ls' j → sameFrom hash ls ls' j.
Proof.
  intros Hrep H i l l' Hi El El'. destruct (proj2 Hrep i l El) as (_ & -> & -> & _).
  apply (H i l'); [|done]. apply lookup_lt_Some in El. destruct Hrep as [Hlen _]. lia.
Qed.

Lemma getHash_buckets hash sha ls ls' : bucketsOfList ls = bucketsOfList ls' → getHash hash sha ls = getHash hash sha ls'.
Proof.
  intros E. unfold getHash. f_equal.
  assert (∀ xs, levelHash hash sha <$> xs = (λ cs : list BucketEntry * list BucketEntry, sha [hash cs.1; hash cs.2]) <$> bucketsOfList xs) as H.
  { intros xs. unfold bucketsOfList. by rewrite <- list_fmap_compose. }
  by rewrite !H, E.
Qed.

(** Protocols do not decrease. *)
Lemma lastProtocol_from P db bs : batchesOk P db bs → P ≤ lastProtocol P bs.
Proof.
  revert P db. induction bs as [|b bs IH]; intros P db; [cbn; lia|]. intros (H1 & _ & H3). specialize (IH _ _ H3).
  change (lastProtocol P (b :: bs)) with (lastProtocol (b_protocol b) bs). lia.
Qed.

(** The entries of a bucket are those of its span. *)
Lemma covered_span St P lo hi x b e :
  good P x → covers St True lo hi x → b ∈ concrete x → entryState b = Some e → lo < lastModifiedLedgerSeq e ≤ hi.
Proof.
  intros Hg [_ Hc] Hb He. destruct (good_wellFormed P x Hg) as [_ Hbody].
  assert (b ∈ (vb x).2) as Hin. { unfold concrete, bucketOf in Hb. destruct (_ <=? _); [apply elem_of_cons in Hb as [->|Hb]; [done|]|]; done. }
  specialize (Hc (keyOf b)). destruct Hbody as [Hs Hp _]. rewrite Forall_forall in Hp.
  unfold get in Hc. rewrite (getEntry_elem (keyOf b) _ b Hs Hin (Hp b Hin) eq_refl) in Hc.
  destruct b; simplify_eq/=; [destruct Hc as [_ Hc]|destruct Hc as (_ & _ & Hc)]; by apply Hc.
Qed.

(** The hash of the state is that of the list. *)
Lemma archived_hash hash sha n ls A : rep hash ls A → getBucketListHash sha (archived hash n A) = getHash hash sha ls.
Proof.
  intros [Hl H]. unfold getBucketListHash, getHash, archived. cbn [currentBuckets]. f_equal. rewrite <- list_fmap_compose. apply list_eq. intros j.
  rewrite !list_lookup_fmap. destruct (ls !! j) as [l|] eqn:E.
  - rewrite lookup_seq_lt by (apply lookup_lt_Some in E; lia). simpl. destruct (H j l E) as (_ & Hc & Hs & _). unfold levelHash. by rewrite Hc, Hs.
  - apply lookup_ge_None in E. by rewrite lookup_seq_ge by lia.
Qed.
