(* ===== verification/BucketExamples.v ===== *)
(** * A small history

    Three ledgers in which entries are created, changed and deleted again; it
    shows that the assumptions of the theorems on buckets can be met. *)

From stdpp Require Import prelude list gmap functions sorting.
From Stdlib Require Import ZArith Lia.
From S2P Require Import Prelude Numeric Exchange LedgerEntries Buckets BucketMerge BucketChain BucketList BucketLevels BucketSizes.
From S2P Require Import BucketListSafety BucketApply HistoryArchive ApplyBuckets BucketCheck CatchupSafety Catchup.
Local Open Scope Z_scope.

Definition exampleEntry (name seq : Z) : LedgerEntry :=
  {| lastModifiedLedgerSeq := seq; data := DATA {| d_accountID := 1; dataName := [name]; dataValue := [] |}; le_ext := None |}.

Definition exampleBatch (i l : list LedgerEntry) (d : list LedgerKey) : Batch :=
  {| b_protocol := 12; b_init := i; b_live := l; b_dead := d |}.

(** Entry 3 is created in ledger 2 and deleted in ledger 3. *)
Definition exampleBatches : list Batch :=
  [exampleBatch [exampleEntry 1 1; exampleEntry 2 1] [] [];
   exampleBatch [exampleEntry 3 2] [exampleEntry 1 2] [];
   exampleBatch [] [] [KEY_DATA 1 [3]]].

Definition exampleClose (b : Batch) : NodeEvent := CloseLedger false (λ _, true) b.

(** The publisher restarts once. *)
Definition exampleEvents : list NodeEvent :=
  match exampleBatches with
  | b :: bs => exampleClose b :: Restart (λ _, None) 12 :: (exampleClose <$> bs)
  | [] => []
  end.

(** The other node has closed two of the ledgers. *)
Definition exampleBehind : list NodeEvent := exampleClose <$> take 2 exampleBatches.

Definition exampleWeight (e : BucketEntry) : Z :=
  match e with LIVEENTRY _ => 1 | INITENTRY _ => 2 | DEADENTRY _ => 3 | METAENTRY _ => 4 end.

Definition exampleHash (b : list BucketEntry) : Z := foldr (λ e acc, 7 * acc + exampleWeight e) 0 b.

Lemma exampleHash_nonneg b : 0 ≤ exampleHash b.
Proof. induction b as [|e b IH]; simpl; [lia|]. destruct e; simpl; lia. Qed.

Lemma exampleHash_nonempty b : b ≠ [] → exampleHash b ≠ 0.
Proof. destruct b as [|e b]; [done|]. intros _. simpl. pose proof (exampleHash_nonneg b). destruct e; simpl; lia. Qed.

(** The size of a bucket file, bounded *)
Definition exampleSize (b : list BucketEntry) : Z := match b with [] => 0 | _ => 1 end.

Lemma exampleSize_pos b : b ≠ [] → 0 < exampleSize b.
Proof. by destruct b. Qed.

Lemma exampleSize_small b : exampleSize b ≤ 2 ^ 59.
Proof. by destruct b. Qed.

Lemma example_batches : omap batchOf exampleEvents = exampleBatches.
Proof. done. Qed.

Ltac each_element :=
  intros x Hx; simpl in Hx; repeat (apply elem_of_cons in Hx as [->|Hx]; [vm_compute; reflexivity|]); by apply elem_of_nil in Hx.

Lemma example_ok : batchesOk FIRST_PROTOCOL_SHADOWS_REMOVED ∅ (omap batchOf exampleEvents).
Proof.
  rewrite example_batches. unfold exampleBatches. cbn [batchesOk]. unfold batchOk.
  split_and!; first [done|each_element|apply (bool_decide_unpack _); vm_compute; exact I].
Qed.

Lemma example_stamped : batchesStamped 0 (omap batchOf exampleEvents).
Proof.
  rewrite example_batches. unfold exampleBatches. cbn [batchesStamped]. split_and!; first [done|each_element].
Qed.

Definition listOf (r : BE (list BucketLevel)) : list BucketLevel := match r with Ok ls => ls | Fail _ => [] end.
Definition exampleList : list BucketLevel := listOf (runNode exampleHash 0 exampleEvents newBucketList).
Definition exampleBehindList : list BucketLevel := listOf (runNode exampleHash 0 exampleBehind newBucketList).

(** A bucket manager that holds the buckets of a list *)
Definition storeOf (ls : list BucketLevel) (h : Z) : option (list BucketEntry) :=
  List.find (λ b, exampleHash b =? h) (concat ((λ l, [mCurr l; mSnap l]) <$> ls)).

#[export] Instance BucketEntry_eq_dec : EqDecision BucketEntry.
Proof. solve_decision. Defined.

Lemma example_stores : stores exampleHash (storeOf exampleList) exampleList.
Proof.
  assert (Forall (λ l, storeOf exampleList (exampleHash (mCurr l)) = Some (mCurr l) ∧ storeOf exampleList (exampleHash (mSnap l)) = Some (mSnap l)) exampleList) as H.
  { apply (bool_decide_unpack _). vm_compute. exact I. }
  rewrite Forall_forall in H. exact H.
Qed.

Lemma example_agrees : agrees exampleHash ∅ exampleList.
Proof. intros l b _. by rewrite !lookup_empty. Qed.

Lemma example_distinguishes : distinguishes exampleHash exampleList exampleBehindList.
Proof.
  assert (Forall (λ p, (exampleHash (mSnap p.1) = exampleHash (mSnap p.2) → mSnap p.1 = mSnap p.2) ∧
    (exampleHash (mCurr p.1) = exampleHash (mCurr p.2) → mCurr p.1 = mCurr p.2)) (zip exampleList exampleBehindList)) as H.
  { apply (bool_decide_unpack _). vm_compute. exact I. }
  rewrite Forall_forall in H. intros i l l' E E'. apply (H (l, l')). apply (list_elem_of_lookup_2 _ i), lookup_zip_Some. split; [exact E|exact E'].
Qed.

Lemma example_closed : hasClosed exampleHash exampleBatches 2 exampleList exampleBehindList.
Proof.
  intros j l l' E _ _. apply lookup_lt_Some in E. assert (length exampleList = 11%nat) as El by (vm_compute; reflexivity). rewrite El in E.
  assert (∀ i, (i < 12)%nat → newestCurr 3 (S i) ≤ 2 ∧ newestSnap 3 i ≤ 2) as H.
  { intros i Hi. do 12 (destruct i as [|i]; [split; vm_compute; discriminate|]). lia. }
  split; [intros _|intros _ _]; left; apply (H j); lia.
Qed.
