(* ===== verification/BucketTheorems.v ===== *)
(** * Theorems on bucket lists, archives and catching up

    Merging, the archive of a running merge, the list of a node, catching up, the
    ledgers of a bucket, publishing, and the buckets to fetch. *)

From stdpp Require Import prelude list gmap functions sorting.
From Stdlib Require Import ZArith Lia.
From S2P Require Import Prelude Numeric Exchange LedgerEntries Buckets BucketMerge BucketChain BucketList BucketLevels BucketSizes.
From S2P Require Import BucketListSafety BucketApply HistoryArchive ApplyBuckets BucketCheck CatchupSafety Catchup BucketExamples.
Local Open Scope Z_scope.

Notation sd := (λ _ : nat, false).

(** ** Merging *)

(** C25: Merging two neighbouring buckets of a list, with newer buckets of it as
    shadows, succeeds and gives a sorted bucket of the version the protocol asks
    for.  A reader of the list sees the same state of every key, and from
    protocol 11 on an INIT entry still stands on nothing or on a tombstone. *)
Theorem merge_preserves_reader max vo vn o n svs keep (newer older : LedgerKey → list BucketEntry) :
  wellFormed (vo, o) → wellFormed (vn, n) → Forall wellFormed svs → mergeVersion vo vn svs ≤ max →
  (FIRST_PROTOCOL_SHADOWS_REMOVED ≤ mergeVersion vo vn svs → svs = []) →
  (∀ k, lifeOk (newer k ++ option_list (getEntry k n) ++ option_list (getEntry k o) ++ older k)) →
  (keep = false → ∀ k, older k = []) → (∀ k, shadowed svs.*2 k = true → newer k ≠ []) →
  ∃ r, merge sd max (bucketOf vo o) (bucketOf vn n) (bucketsOf svs) keep = Ok (bucketOf (mergeVersion vo vn svs) r) ∧
    wellFormed (mergeVersion vo vn svs, r) ∧
    ∀ k, stateOf (newer k ++ option_list (getEntry k r) ++ older k)
           = stateOf (newer k ++ option_list (getEntry k n) ++ option_list (getEntry k o) ++ older k) ∧
         (FIRST_PROTOCOL_SUPPORTING_INITENTRY_AND_METAENTRY ≤ mergeVersion vo vn svs →
          lifeOk (newer k ++ option_list (getEntry k r) ++ older k)).
Proof.
  intros Wo Wn Ws Hmax Hsh Hlife Hkeep Hshadow.
  destruct (merge_spec max vo vn o n svs keep Wo Wn Ws Hmax Hsh) as (r & E & Wr & Hg).
  { intros k. specialize (Hlife k). apply lifeOk_suffix in Hlife. by apply lifeOk_compatible in Hlife. }
  exists r. split; [done|]. split; [done|]. intros k.
  destruct (chain_merge_shadows (FIRST_PROTOCOL_SUPPORTING_INITENTRY_AND_METAENTRY <=? mergeVersion vo vn svs) keep svs.*2 k (newer k)
    (getEntry k n) (getEntry k o) (older k)) as [H1 H2]; auto.
  { intros e He. by apply getEntry_key in He as (_ & ? & ?). }
  { intros e He. by apply getEntry_key in He as (_ & ? & ?). }
  rewrite <- Hg in H1, H2. split; [done|]. intros Hv. apply H2. by apply Z.leb_le.
Qed.

(** ** Futures *)

Lemma checkShadowHashes_refl hash bs : checkShadowHashes hash bs (hash <$> bs) = Ok tt.
Proof. induction bs as [|b bs IH]; [done|]. rewrite fmap_cons. cbn [checkShadowHashes]. rewrite checkHashEq_refl. done. Qed.

Lemma allByHash_stored hash getBucketByHash bs :
  (∀ b, b ∈ bs → getBucketByHash (hash b) = Some b) → allByHash getBucketByHash (hash <$> bs) = Ok bs.
Proof.
  induction bs as [|b bs IH]; intros H; [done|]. rewrite fmap_cons. cbn [allByHash]. rewrite (H b) by set_solver. rewrite IH; [done|].
  intros x Hx. apply H. set_solver.
Qed.

(** A running merge of these inputs, with its result *)
Definition runningMerge (hash : list BucketEntry → Z) (curr snap : list BucketEntry) (shadows : list (list BucketEntry))
  (b : list BucketEntry) : FutureBucket :=
  {| mState := FB_LIVE_INPUTS; mInputCurrBucket := Some curr; mInputSnapBucket := Some snap; mInputShadowBuckets := shadows;
     mOutputBucket := None; mOutputBucketFuture := Some (Ok b); mInputCurrBucketHash := Some (hash curr);
     mInputSnapBucketHash := Some (hash snap); mInputShadowBucketHashes := hash <$> shadows; mOutputBucketHash := None |}.

Lemma runningMerge_check hash curr snap shadows b : checkState hash (runningMerge hash curr snap shadows b) = Ok tt.
Proof.
  unfold checkState, checkHashesMatch, runningMerge. cbn [mState mInputSnapBucket mInputCurrBucket mOutputBucketFuture mOutputBucket mOutputBucketHash
    mInputShadowBuckets mInputSnapBucketHash mInputCurrBucketHash mInputShadowBucketHashes isSome isNone andb negb assertB obind].
  rewrite !checkHashEq_refl. destruct shadows as [|s ss]; [done|]. rewrite length_fmap, Nat.eqb_refl, checkShadowHashes_refl. done.
Qed.

Lemma startMerge_running hash curr snap shadows protocol level b :
  merge sd protocol curr snap shadows (keepDeadEntries level) = Ok b →
  startMerge hash sd protocol level
    {| mState := FB_LIVE_INPUTS; mInputCurrBucket := Some curr; mInputSnapBucket := Some snap; mInputShadowBuckets := shadows;
       mOutputBucket := None; mOutputBucketFuture := None; mInputCurrBucketHash := Some (hash curr);
       mInputSnapBucketHash := Some (hash snap); mInputShadowBucketHashes := hash <$> shadows; mOutputBucketHash := None |}
  = Ok (runningMerge hash curr snap shadows b).
Proof.
  intros E. unfold startMerge. cbn [isMerging mState assertB obind mInputCurrBucket mInputSnapBucket mOutputBucketFuture mOutputBucket isNone isSome negb andb
    mInputShadowBuckets mInputCurrBucketHash mInputSnapBucketHash mInputShadowBucketHashes mOutputBucketHash]. rewrite E.
  pose proof (runningMerge_check hash curr snap shadows b) as H. unfold runningMerge in H. rewrite H. done.
Qed.

Definition resolvedMerge (hash : list BucketEntry → Z) (b : list BucketEntry) : FutureBucket :=
  {| mState := FB_LIVE_OUTPUT; mInputCurrBucket := None; mInputSnapBucket := None; mInputShadowBuckets := []; mOutputBucket := Some b;
     mOutputBucketFuture := None; mInputCurrBucketHash := None; mInputSnapBucketHash := None; mInputShadowBucketHashes := [];
     mOutputBucketHash := Some (hash b) |}.

Lemma resolvedMerge_check hash b : checkState hash (resolvedMerge hash b) = Ok tt.
Proof. unfold checkState, checkHashesMatch. cbn. by rewrite checkHashEq_refl. Qed.

Lemma running_resolves hash curr snap shadows b : resolve hash (runningMerge hash curr snap shadows b) = Ok (b, resolvedMerge hash b).
Proof.
  unfold resolve. rewrite runningMerge_check. cbn [obind runningMerge isLive mState assertB mOutputBucket mOutputBucketFuture].
  pose proof (resolvedMerge_check hash b) as H. unfold resolvedMerge in H. rewrite H. done.
Qed.

(** A merge that is stored in a history archive state, while it runs or when
    it has a result, comes back after loading and being made live, and resolves
    to the same bucket. *)
Theorem future_survives_archive hash getBucketByHash protocol level curr snap shadows v b :
  getBucketVersion snap = Ok v → (FIRST_PROTOCOL_SHADOWS_REMOVED ≤ v → shadows = []) →
  merge sd protocol curr snap shadows (keepDeadEntries level) = Ok b →
  (∀ x, x ∈ curr :: snap :: b :: shadows → getBucketByHash (hash x) = Some x) →
  ∃ f f', newFuture hash sd curr snap shadows protocol level = Ok f ∧ resolve hash f = Ok (b, f') ∧
    ∀ g, g = f ∨ g = f' →
      ∃ ar g0 g1 g2, save hash g = Ok ar ∧ load hash ar = Ok g0 ∧ makeLive hash sd getBucketByHash protocol level g0 = Ok g1 ∧
        resolve hash g1 = Ok (b, g2).
Proof.
  intros Hv Hs Hm Hst. exists (runningMerge hash curr snap shadows b), (resolvedMerge hash b). split.
  { unfold newFuture. rewrite Hv. cbn [obind]. replace (_ && _) with false; [by apply startMerge_running|]. symmetry. apply andb_false_iff.
    destruct (Z.leb_spec FIRST_PROTOCOL_SHADOWS_REMOVED v) as [H|H]; [right; by rewrite (Hs H)|by left]. }
  split; [apply running_resolves|]. intros g [-> | ->].
  - eexists _, _, (runningMerge hash curr snap shadows b), _. split; [unfold save; by rewrite runningMerge_check|]. split; [done|].
    split; [|apply running_resolves]. unfold makeLive. cbn [checkState mState mInputSnapBucket mInputCurrBucket mOutputBucket mOutputBucketFuture
      mInputSnapBucketHash mInputCurrBucketHash mOutputBucketHash isNone isSome negb andb assertB obind isLive hasHashes hasOutputHash mInputShadowBuckets
      isEmpty mInputShadowBucketHashes runningMerge]. rewrite (allByHash_stored hash) by set_solver. cbn [obind byHash].
    rewrite (Hst curr), (Hst snap) by set_solver. rewrite (startMerge_running _ _ _ _ _ _ b Hm). done.
  - eexists _, _, (resolvedMerge hash b), _. split; [unfold save; by rewrite resolvedMerge_check|]. split; [done|]. split.
    + unfold makeLive. cbn. rewrite (Hst b) by set_solver. unfold setLiveOutput, checkState, checkHashesMatch. cbn. by rewrite checkHashEq_refl.
    + unfold resolve. rewrite resolvedMerge_check. done.
Qed.

(** ** The list *)



(** ** Catching up *)

(** C22: A node that has closed the ledgers of a history publishes a state with
    which a new node catches up: the work succeeds, no check of a bucket fails,
    the database becomes the ledger of the history and the bucket list the
    publisher's. *)
Theorem catchup_new_node hash getSize evs maxVersion :
  hash [] = 0 → (∀ b, b ≠ [] → hash b ≠ 0) → (∀ b, b ≠ [] → 0 < getSize b) → (∀ b, getSize b ≤ 2 ^ 59) →
  let bs := omap batchOf evs in
  let n := Z.of_nat (length bs) in
  1 ≤ n → n + 1 < 2147483648 → batchesOk FIRST_PROTOCOL_SHADOWS_REMOVED ∅ bs → batchesStamped 0 bs →
  lastProtocol FIRST_PROTOCOL_SHADOWS_REMOVED bs ≤ maxVersion →
  ∃ ls, runNode hash 0 evs newBucketList = Ok ls ∧
    ∀ mBuckets getBucketByHash protocol inMemory enabled,
      stores hash getBucketByHash ls → agrees hash mBuckets ls →
      ∃ has k ls', prepareForPublish hash sd getBucketByHash protocol (newArchiveState hash n ls) = Ok has ∧
        bucketsOfList ls' = bucketsOfList ls ∧
        ∀ fuel, applyBuckets hash sd getSize mBuckets getBucketByHash inMemory enabled has maxVersion (k + fuel)
                  {| database := ∅; bucketList := newBucketList |}
                = Ok (WORK_SUCCESS, {| database := ledgerAfter ∅ bs; bucketList := ls' |}).
Proof.
  intros He Hne Hsz Hsm bs n Hn1 Hmax Hok Hst Hv.
  assert (n ≤ UINT32_MAX) as Hu by word. fold bs in Hok.
  destruct (history_run hash He Hne bs True Hok Hu (λ _, Hst) (length bs) ltac:(done)) as (A & Hinv & Hrun). fold n in Hinv.
  destruct (Hrun evs) as (ls & E & Hrep); [by rewrite take_ge|]. exists ls. split; [done|]. intros mB gB protocol inMemory enabled Hs Ha.
  rewrite take_ge in Hinv by done. set (P := lastProtocol _ bs) in *.
  destruct (apply_ok hash getSize mB gB inMemory enabled maxVersion (ledgerAt bs) P n A Hn1 Hmax (ledgerAt_stamps _ bs Hok Hst) Hinv
    ltac:(pose proof (lastProtocol_from _ _ bs Hok); unfold FIRST_PROTOCOL_SHADOWS_REMOVED in *; lia) (stores_rep _ _ _ _ Hrep Hs) (agrees_rep _ _ _ _ Hrep Ha) Hsz Hsm He Hne
    newBucketList ∅ new_numbered) as (k & ls' & Hrep' & R).
  - intros j l. by apply (new_snap hash He Hne (ledgerAt bs) P).
  - intros j l. by apply (new_curr hash He Hne (ledgerAt bs) P).
  - by apply (new_all hash He Hne (ledgerAt bs) P).
  - exists (archived hash n A), k, ls'. split; [by apply (publish_ok hash gB protocol (ledgerAt bs) P n A True Hinv (stores_rep _ _ _ _ Hrep Hs))|].
    split; [by apply (rep_bucketsOfList hash _ _ A)|]. intros fuel. rewrite R. unfold ledgerAt, n. by rewrite Nat2Z.id, take_ge.
Qed.


(** ** The ledgers of a bucket *)

(** The sizes of the buckets that the code computes recursively are defined
    for every ledger number and level, and the buckets of all levels together
    span exactly the ledgers up to the current one. *)
Theorem level_sizes_total n :
  1 ≤ n ≤ UINT32_MAX →
  (∀ level, 0 ≤ level < kNumLevels → ∃ curr snap, sizeOfCurr sizeFuel n level = Ok curr ∧ sizeOfSnap sizeFuel n level = Ok snap ∧
     0 ≤ curr ∧ 0 ≤ snap) ∧
  sizeBelow sizeFuel n (Z.to_nat kNumLevels) = Ok n.
Proof.
  intros [Hn Hu]. split.
  - intros level Hl. unfold kNumLevels in Hl. rewrite <- (Z2Nat.id level) by lia. set (j := Z.to_nat level).
    assert (j ≤ 10)%nat as Hj by lia. destruct (belowOk_all n Hn j ltac:(lia)) as [_ Ho]. specialize (Ho Hj).
    exists (currSize n j), (snapSize n j). rewrite (sizeOfCurr_ok n Hn Hu j), (sizeOfSnap_ok n Hn Hu j) by (unfold sizeFuel; lia).
    split_and!; [done|done|apply (currSize_bounds n Hn j Hj Ho)|apply (snapSize_bounds n Hn j Hj Ho)].
  - change (Z.to_nat kNumLevels) with 11%nat. rewrite (sizeBelow_ok n Hn Hu 11) by (unfold sizeFuel; lia). by rewrite belowSize_all.
Qed.

(** C26: Every entry in a bucket of the list was written by a ledger of the span
    that the code computes for the bucket from the current ledger and the
    level. *)
Theorem bucket_spans hash evs :
  hash [] = 0 → (∀ b, b ≠ [] → hash b ≠ 0) →
  let bs := omap batchOf evs in
  let n := Z.of_nat (length bs) in
  1 ≤ n ≤ UINT32_MAX → batchesOk FIRST_PROTOCOL_SHADOWS_REMOVED ∅ bs → batchesStamped 0 bs →
  ∃ ls, runNode hash 0 evs newBucketList = Ok ls ∧
    ∀ j l, ls !! j = Some l →
      (∃ oldest size, oldestLedgerInCurr sizeFuel n (Z.of_nat j) = Ok oldest ∧ sizeOfCurr sizeFuel n (Z.of_nat j) = Ok size ∧
         ∀ b e, b ∈ mCurr l → entryState b = Some e → oldest ≤ lastModifiedLedgerSeq e < oldest + size) ∧
      (∃ oldest size, oldestLedgerInSnap sizeFuel n (Z.of_nat j) = Ok oldest ∧ sizeOfSnap sizeFuel n (Z.of_nat j) = Ok size ∧
         ∀ b e, b ∈ mSnap l → entryState b = Some e → oldest ≤ lastModifiedLedgerSeq e < oldest + size).
Proof.
  intros He Hne bs n [Hn Hu] Hok Hst.
  destruct (history_run hash He Hne bs True Hok Hu (λ _, Hst) (length bs) ltac:(done)) as (A & Hinv & Hrun). fold n in Hinv.
  destruct (Hrun evs) as (ls & E & Hrep); [by rewrite take_ge|]. exists ls. split; [done|]. intros j l El.
  assert (j < 11)%nat as Hj by (rewrite <- (proj1 Hrep); by apply lookup_lt_Some in El).
  destruct (proj2 Hrep j l El) as (_ & Ec & Es & _). destruct (inv_level _ _ _ _ _ _ Hinv j Hj) as [_ _ _ Lc Ls].
  rewrite (oldestLedgerInCurr_ok n j Hn Hu ltac:(lia)), (oldestLedgerInSnap_ok n j Hn Hu ltac:(lia)), (sizeOfCurr_ok n Hn Hu j),
    (sizeOfSnap_ok n Hn Hu j) by (unfold sizeFuel; lia).
  split; do 2 eexists; (split; [done|]); (split; [done|]); intros b e Hb Hl.
  - rewrite Ec in Hb. pose proof (covered_span _ _ _ _ _ b e (archive_good _ _ _ _ _ _ j _ Hinv Hj ltac:(by left)) Lc Hb Hl) as Hr.
    unfold newestSnap in *. rewrite (proj2 (Z.eqb_neq (currSize n j) 0)) by lia. lia.
  - rewrite Es in Hb. pose proof (covered_span _ _ _ _ _ b e (archive_good _ _ _ _ _ _ j _ Hinv Hj ltac:(by right)) Ls Hb Hl) as Hr.
    rewrite newestCurr_S in *. rewrite (proj2 (Z.eqb_neq (snapSize n j) 0)) by lia. lia.
Qed.

(** ** Publishing *)

(** The state that a node publishes has the hash of its bucket list, no
    merges, and is accepted as valid. *)
Theorem published_state_valid hash sha evs :
  hash [] = 0 → (∀ b, b ≠ [] → hash b ≠ 0) →
  let bs := omap batchOf evs in
  let n := Z.of_nat (length bs) in
  n ≤ UINT32_MAX → batchesOk FIRST_PROTOCOL_SHADOWS_REMOVED ∅ bs →
  ∃ ls, runNode hash 0 evs newBucketList = Ok ls ∧
    ∀ getBucketByHash protocol, stores hash getBucketByHash ls →
      ∃ has, prepareForPublish hash sd getBucketByHash protocol (newArchiveState hash n ls) = Ok has ∧
        currentLedger has = n ∧ getBucketListHash sha has = getHash hash sha ls ∧ futuresAllClear has = true ∧
        containsValidBuckets hash getBucketByHash has = Ok true.
Proof.
  intros He Hne bs n Hu Hok.
  destruct (history_run hash He Hne bs False Hok Hu ltac:(done) (length bs) ltac:(done)) as (A & Hinv & Hrun). fold n in Hinv.
  destruct (Hrun evs) as (ls & E & Hrep); [by rewrite take_ge|]. exists ls. split; [done|]. intros gB protocol Hs.
  exists (archived hash n A). pose proof (stores_rep _ _ _ _ Hrep Hs) as Hst.
  split; [by apply (publish_ok hash gB protocol (ledgerAt bs) _ n A False Hinv Hst)|]. split; [done|].
  split; [by apply (archived_hash hash sha n ls A)|]. split; [done|]. by eapply (valid_ok hash gB (ledgerAt bs)).
Qed.

(** ** Which buckets to fetch *)

(** The hash of the result of a merge, when there is one *)
Definition outputHash (f : FutureBucket) : option Z :=
  match mState f with FB_LIVE_OUTPUT | FB_HASH_OUTPUT => mOutputBucketHash f | _ => None end.

(** The same after a live merge has been resolved *)
Definition settledOutput (hash : list BucketEntry → Z) (f : FutureBucket) : option Z :=
  if isLive f then match resolve hash f with Ok r => outputHash r.2 | Fail _ => None end else outputHash f.

Lemma check_output hash f :
  checkState hash f = Ok tt → hasOutputHash f = Ok (isSome (outputHash f)) ∧ ∀ h, outputHash f = Some h → getOutputHash f = Ok h.
Proof.
  unfold checkState, hasOutputHash, getOutputHash, outputHash, assertB. destruct (mState f); try done; intros H;
    (destruct (mOutputBucketHash f) as [h|]; [split; [done|]; by intros ? [= ->]|]); rewrite ?andb_false_r in H; simpl in H; done.
Qed.

Lemma resolve_check hash f b f' : resolve hash f = Ok (b, f') → checkState hash f' = Ok tt.
Proof.
  unfold resolve. destruct (checkState hash f) as [[]|] eqn:Ec; [|done]. cbn [obind]. destruct (isLive f); [|done]. cbn [assertB obind].
  assert (∀ o : BE (list BucketEntry), (let? x := o in let? _ := checkState hash (resolvedMerge hash x) in Ok (x, resolvedMerge hash x)) = Ok (b, f') →
    checkState hash f' = Ok tt) as H.
  { intros [x|]; [|done]. cbn [obind]. rewrite resolvedMerge_check. cbn [obind]. intros [= <- <-]. apply resolvedMerge_check. }
  destruct (mState f); try (apply H). destruct (mOutputBucket f); [|done]. by intros [= <- <-].
Qed.

Lemma takeNew_spec bs inhibit0 ret :
  NoDup ret → (∀ h, h ∈ ret → h ∉ inhibit0) →
  ∃ ret', takeNew bs (inhibit0 ∪ list_to_set ret) ret = (inhibit0 ∪ list_to_set ret', ret') ∧ NoDup ret' ∧
    ∀ h, h ∈ ret' ↔ h ∈ ret ∨ h ∈ bs ∧ h ∉ inhibit0.
Proof.
  revert ret. induction bs as [|j bs IH]; intros ret Hn Hd; cbn [takeNew]; [exists ret; set_solver|]. case_bool_decide as Hj.
  - destruct (IH ret Hn Hd) as (ret' & E & Hn' & H'). exists ret'. split; [done|]. split; [done|]. intros h. rewrite H'. set_solver.
  - destruct (IH (ret ++ [j])) as (ret' & E & Hn' & H').
    + apply NoDup_app. split; [done|]. split; [set_solver|apply NoDup_singleton].
    + set_solver.
    + exists ret'. split; [|split; [done|]]; [|intros h; rewrite H'; set_solver]. rewrite <- E. f_equal. rewrite list_to_set_app_L. set_solver.
Qed.

Lemma differing_spec hash bs inhibit0 i ret :
  (i ≤ length bs)%nat → Forall (λ b, checkState hash (hsb_next b) = Ok tt) bs → NoDup ret → (∀ h, h ∈ ret → h ∉ inhibit0) →
  ∃ ret', differing bs i (inhibit0 ∪ list_to_set ret) ret = Ok ret' ∧ NoDup ret' ∧
    ∀ h, h ∈ ret' ↔ h ∈ ret ∨ h ∉ inhibit0 ∧ ∃ b, b ∈ take i bs ∧ (h = hsb_curr b ∨ h = hsb_snap b ∨ outputHash (hsb_next b) = Some h).
Proof.
  revert ret. induction i as [|i IH]; intros ret Hi Hf Hn Hd; [exists ret; split; [done|]; split; [done|]; set_solver|].
  destruct (lookup_lt_is_Some_2 bs i ltac:(lia)) as [b Eb]. cbn [differing]. unfold hsbAt. rewrite Eb. cbn [obind].
  rewrite (take_S_r _ _ _ Eb). rewrite Forall_forall in Hf. destruct (check_output hash _ (Hf b (list_elem_of_lookup_2 _ _ _ Eb))) as [-> Ho]. cbn [obind].
  set (nh := default (hsb_snap b) (outputHash (hsb_next b))).
  assert ((if isSome (outputHash (hsb_next b)) then getOutputHash (hsb_next b) else Ok (hsb_snap b)) = Ok nh) as ->.
  { unfold nh. destruct (outputHash (hsb_next b)) as [h|]; [by rewrite (Ho h)|done]. }
  cbn [obind]. destruct (takeNew_spec [hsb_snap b; nh; hsb_curr b] inhibit0 ret Hn Hd) as (ret1 & -> & Hn1 & H1). cbn [fst snd].
  destruct (IH ret1) as (ret' & E & Hn' & H'); [lia|by apply Forall_forall|done|intros h; rewrite H1; naive_solver|].
  exists ret'. split; [done|]. split; [done|]. intros h. rewrite H', H1. clear. setoid_rewrite elem_of_app. setoid_rewrite list_elem_of_singleton.
  assert (h ∈ [hsb_snap b; nh; hsb_curr b] ↔ h = hsb_curr b ∨ h = hsb_snap b ∨ outputHash (hsb_next b) = Some h) as ->.
  { rewrite !elem_of_cons, elem_of_nil. unfold nh. destruct (outputHash (hsb_next b)); simpl; naive_solver. }
  split.
  - intros [[H|[H1 H2]]|[H1 (b0 & H2 & H3)]]; [by left|right; split; [done|]; exists b; auto|right; split; [done|]; exists b0; auto].
  - intros [H|[H1 (b0 & [H2 | ->] & H3)]]; [auto|right; eauto|left; auto].
Qed.

(** The futures of a state whose buckets are known *)
Definition settled (hash : list BucketEntry → Z) (b : HistoryStateBucket) : Prop :=
  checkState hash (hsb_next b) = Ok tt ∧ (isLive (hsb_next b) = true → ∃ r, resolve hash (hsb_next b) = Ok r).

Lemma exists_cons {X} (P : X → Prop) x l : (∃ y, y ∈ x :: l ∧ P y) ↔ P x ∨ ∃ y, y ∈ l ∧ P y.
Proof. setoid_rewrite elem_of_cons. naive_solver. Qed.

Lemma inhibited_spec hash bs inhibit :
  Forall (settled hash) bs →
  ∃ s, inhibited hash bs inhibit = Ok s ∧
    ∀ h, h ∈ s ↔ h ∈ inhibit ∨ ∃ b, b ∈ bs ∧ (h = hsb_curr b ∨ h = hsb_snap b ∨ settledOutput hash (hsb_next b) = Some h).
Proof.
  intros Hf. revert inhibit. induction Hf as [|b bs [Hc Hl] _ IH]; intros inhibit; [exists inhibit; split; [done|]; set_solver|]. cbn [inhibited].
  assert (∃ next, (if isLive (hsb_next b) then let? r := resolve hash (hsb_next b) in Ok r.2 else Ok (hsb_next b)) = Ok next ∧
    checkState hash next = Ok tt ∧ settledOutput hash (hsb_next b) = outputHash next) as (next & -> & Hcn & Eset).
  { unfold settledOutput. destruct (isLive (hsb_next b)); [|by eexists]. destruct (Hl eq_refl) as [[x f'] E]. rewrite E. cbn [obind snd].
    exists f'. split; [done|]. split; [by apply (resolve_check hash (hsb_next b) x)|done]. }
  cbn [obind]. destruct (check_output hash next Hcn) as [-> Ho]. cbn [obind].
  destruct (outputHash next) as [o|] eqn:Eo; cbn [isSome]; [rewrite (Ho o eq_refl)|]; cbn [obind];
    match goal with |- ∃ s, inhibited hash bs ?i = Ok s ∧ _ => destruct (IH i) as (s & E & Hs) end; exists s; (split; [done|]);
    intros h; rewrite Hs, exists_cons, Eset; rewrite !elem_of_union, !elem_of_singleton.
  - assert (Some o = Some h ↔ h = o) as -> by (split; [by intros [= ->]|by intros ->]). tauto.
  - assert ((None : option Z) = Some h ↔ False) as -> by done. tauto.
Qed.

(** The buckets that a state needs and another does not have: each hash of
    the first state, results of merges included, is listed once, unless it is
    that of the empty bucket or one of the second state. *)
Theorem differingBuckets_complete hash has other :
  length (currentBuckets has) = 11%nat → hasFuturesAllResolved has = true →
  Forall (λ b, checkState hash (hsb_next b) = Ok tt) (currentBuckets has) → Forall (settled hash) (currentBuckets other) →
  ∃ ret, differingBuckets hash has other = Ok ret ∧ NoDup ret ∧
    ∀ h, h ∈ ret ↔
      h ≠ 0 ∧ (∃ b, b ∈ currentBuckets has ∧ (h = hsb_curr b ∨ h = hsb_snap b ∨ outputHash (hsb_next b) = Some h)) ∧
      ¬ (∃ b, b ∈ currentBuckets other ∧ (h = hsb_curr b ∨ h = hsb_snap b ∨ settledOutput hash (hsb_next b) = Some h)).
Proof.
  intros Hlen Hres Hc Hs. unfold differingBuckets. rewrite Hres. cbn [assertB obind].
  destruct (inhibited_spec hash (currentBuckets other) {[ 0 ]} Hs) as (inh & -> & Hinh). cbn [obind].
  destruct (differing_spec hash (currentBuckets has) inh 11 []) as (ret & E & Hn & Hr); [lia|done|apply NoDup_nil_2|by intros h Hh%elem_of_nil|].
  cbn [list_to_set] in E. rewrite union_empty_r_L in E. change (Z.to_nat kNumLevels) with 11%nat. exists ret. split; [done|]. split; [done|].
  intros h. rewrite Hr, Hinh, take_ge, elem_of_singleton, elem_of_nil by lia. tauto.
Qed.

(** ** Instances *)

Lemma example_length : Z.of_nat (length (omap batchOf exampleEvents)) = 3.
Proof. done. Qed.



Lemma catchup_new_node_witness :
  ∃ has k ls', prepareForPublish exampleHash sd (storeOf exampleList) 12 (newArchiveState exampleHash 3 exampleList) = Ok has ∧
    bucketsOfList ls' = bucketsOfList exampleList ∧
    ∀ fuel, applyBuckets exampleHash sd exampleSize ∅ (storeOf exampleList) false true has 12 (k + fuel)
              {| database := ∅; bucketList := newBucketList |}
            = Ok (WORK_SUCCESS, {| database := ledgerAfter ∅ exampleBatches; bucketList := ls' |}).
Proof.
  destruct (catchup_new_node exampleHash exampleSize exampleEvents 12) as (ls & E & H);
    [reflexivity|exact exampleHash_nonempty|exact exampleSize_pos|exact exampleSize_small|vm_compute; discriminate|vm_compute; reflexivity
    |exact example_ok|exact example_stamped|vm_compute; discriminate|].
  assert (exampleList = ls) as <- by (unfold exampleList; rewrite E; reflexivity).
  exact (H ∅ (storeOf exampleList) 12 false true example_stores example_agrees).
Defined.


Lemma level_sizes_total_witness : sizeBelow sizeFuel 100 (Z.to_nat kNumLevels) = Ok 100.
Proof. apply (level_sizes_total 100). split; vm_compute; discriminate. Defined.

Lemma bucket_spans_witness :
  ∃ l oldest size, exampleList !! 0%nat = Some l ∧ oldestLedgerInCurr sizeFuel 3 0 = Ok oldest ∧ sizeOfCurr sizeFuel 3 0 = Ok size ∧
    ∀ b e, b ∈ mCurr l → entryState b = Some e → oldest ≤ lastModifiedLedgerSeq e < oldest + size.
Proof.
  destruct (bucket_spans exampleHash exampleEvents) as (ls & E & H);
    [reflexivity|exact exampleHash_nonempty|split; vm_compute; discriminate|exact example_ok|exact example_stamped|].
  assert (exampleList = ls) as <- by (unfold exampleList; rewrite E; reflexivity).
  destruct (exampleList !! 0%nat) as [l|] eqn:El; [|vm_compute in El; discriminate El].
  destruct (H 0%nat l El) as [(o & s & H1 & H2 & H3) _]. exists l, o, s. exact (conj eq_refl (conj H1 (conj H2 H3))).
Defined.

Lemma published_state_valid_witness :
  ∃ has, prepareForPublish exampleHash sd (storeOf exampleList) 12 (newArchiveState exampleHash 3 exampleList) = Ok has ∧
    currentLedger has = 3 ∧ getBucketListHash (foldr Z.add 0) has = getHash exampleHash (foldr Z.add 0) exampleList ∧
    futuresAllClear has = true ∧ containsValidBuckets exampleHash (storeOf exampleList) has = Ok true.
Proof.
  destruct (published_state_valid exampleHash (foldr Z.add 0) exampleEvents) as (ls & E & H);
    [reflexivity|exact exampleHash_nonempty|vm_compute; discriminate|exact example_ok|].
  assert (exampleList = ls) as <- by (unfold exampleList; rewrite E; reflexivity). exact (H (storeOf exampleList) 12 example_stores).
Defined.

(** Three versions of an entry; the newest bucket is a shadow of the merge. *)
Lemma merge_preserves_reader_witness :
  let old := [LIVEENTRY (exampleEntry 1 1)] in
  let new := [LIVEENTRY (exampleEntry 1 2)] in
  let shadow := [LIVEENTRY (exampleEntry 1 3)] in
  ∃ r, merge sd 11 (bucketOf 11 old) (bucketOf 11 new) [bucketOf 11 shadow] true = Ok (bucketOf 11 r) ∧
    stateOf (option_list (getEntry (KEY_DATA 1 [1]) shadow) ++ option_list (getEntry (KEY_DATA 1 [1]) r)) = Some (exampleEntry 1 3).
Proof.
  intros old new shadow.
  assert (∀ e, plain (LIVEENTRY e) → wellFormed (11, [LIVEENTRY e])) as Hw.
  { intros e He. split; [by right|]. split; [by repeat constructor|by repeat constructor|by repeat constructor]. }
  destruct (merge_preserves_reader 11 11 11 old new [(11, shadow)] true (λ k, option_list (getEntry k shadow)) (λ _, [])) as (r & E & _ & H);
    [by apply Hw|by apply Hw|constructor; [by apply Hw|constructor]|vm_compute; discriminate|by intros []| |done| |].
  - intros k. unfold old, new, shadow. simpl. repeat case_bool_decide; simpl; split_and?; done.
  - intros k Hk. unfold shadowed in Hk. simpl in Hk. rewrite orb_false_r in Hk. apply bool_decide_eq_true in Hk as [x Hx]. unfold shadow. simpl. rewrite Hx. done.
  - exists r. split; [exact E|]. destruct (H (KEY_DATA 1 [1])) as [H1 _]. rewrite app_nil_r in H1. rewrite H1. reflexivity.
Defined.

Definition exampleSnap : list BucketEntry := bucketOf 12 [INITENTRY (exampleEntry 1 1)].

Lemma future_survives_archive_witness :
  ∃ f f', newFuture exampleHash sd [] exampleSnap [] 12 1 = Ok f ∧ resolve exampleHash f = Ok (exampleSnap, f') ∧
    ∀ g, g = f ∨ g = f' →
      ∃ ar g0 g1 g2, save exampleHash g = Ok ar ∧ load exampleHash ar = Ok g0 ∧
        makeLive exampleHash sd (λ h, if h =? 0 then Some [] else Some exampleSnap) 12 1 g0 = Ok g1 ∧ resolve exampleHash g1 = Ok (exampleSnap, g2).
Proof.
  apply (future_survives_archive exampleHash (λ h, if h =? 0 then Some [] else Some exampleSnap) 12 1 [] exampleSnap [] 12 exampleSnap);
    [reflexivity|reflexivity|reflexivity|].
  intros x Hx. repeat (apply elem_of_cons in Hx as [->|Hx]; [reflexivity|]). by apply elem_of_nil in Hx.
Defined.

(** A state with one level of buckets and a finished merge *)
Definition exampleState : HistoryArchiveState :=
  {| currentLedger := 8;
     currentBuckets := <[1%nat := {| hsb_curr := 5; hsb_next := resolvedMerge exampleHash exampleSnap; hsb_snap := 6 |}]>
                         (currentBuckets emptyArchiveState) |}.

Lemma differingBuckets_complete_witness :
  ∃ ret, differingBuckets exampleHash exampleState emptyArchiveState = Ok ret ∧ NoDup ret ∧ exampleHash exampleSnap ∈ ret.
Proof.
  destruct (differingBuckets_complete exampleHash exampleState emptyArchiveState) as (ret & E & Hn & H);
    [reflexivity|reflexivity|by repeat constructor| |].
  - repeat (constructor; [split; [reflexivity|done]|]). constructor.
  - exists ret. split; [exact E|]. split; [exact Hn|]. apply H. split; [vm_compute; discriminate|]. split.
    + exists {| hsb_curr := 5; hsb_next := resolvedMerge exampleHash exampleSnap; hsb_snap := 6 |}. split; [right; left|right; right; reflexivity].
    + intros (b & Hb & Hc). unfold emptyArchiveState in Hb. cbn [currentBuckets] in Hb. apply elem_of_replicate in Hb as [-> _].
      destruct Hc as [Hc|[Hc|Hc]]; vm_compute in Hc; discriminate Hc.
Defined.
