(* ===== verification/OfferOrder.v ===== *)
(** * The order of offers (src/ledger/LedgerTxnOfferSQL.cpp)

    Offers of an asset pair are ordered by their price as a double, and by their
    number where the doubles are equal.  Doubles are those of the specification of
    IEEE 754 in the standard library; the order is total on offers that have
    different numbers and a price. *)

From stdpp Require Import prelude list gmap.
From Stdlib Require Import ZArith Lia SpecFloat.
From S2P Require Import Prelude Numeric Exchange LedgerEntries.
Local Open Scope Z_scope.

Record OfferDescriptor : Type := {
  price : Price;
  offerID : Z
}.

Record AssetPair : Type := {
  buying : Asset;
  selling : Asset
}.

#[export] Instance AssetPair_eq_dec : EqDecision AssetPair.
Proof. solve_decision. Defined.

#[export] Instance AssetPair_countable : Countable AssetPair.
Proof.
  refine (inj_countable' (λ p, (buying p, selling p)) (λ x, {| buying := x.1; selling := x.2 |}) _). by intros [].
Defined.

(** ** Prices as doubles *)

(** [double(x)] of an integer *)
Definition toDouble (x : Z) : spec_float := binary_normalize 53 1024 x 0 false.

Definition priceDouble (p : Price) : spec_float := SFdiv 53 1024 (toDouble (price_n p)) (toDouble (price_d p)).

Definition isBetterOffer (lhs rhs : OfferDescriptor) : bool :=
  let lhsPrice := priceDouble (price lhs) in
  let rhsPrice := priceDouble (price rhs) in
  if SFltb lhsPrice rhsPrice then true
  else if SFeqb lhsPrice rhsPrice then offerID lhs <? offerID rhs
  else false.

(** ** The order is total *)

Definition isNan (f : spec_float) : bool := match f with S754_nan => true | _ => false end.

(** A double that is a number, as a sign class, an exponent and a mantissa *)
Definition rank (f : spec_float) : Z * (Z * Z) :=
  match f with
  | S754_infinity true => (-2, (0, 0))
  | S754_finite true m e => (-1, (- e, Zneg m))
  | S754_zero _ | S754_nan => (0, (0, 0))
  | S754_finite false m e => (1, (e, Zpos m))
  | S754_infinity false => (2, (0, 0))
  end.

Definition rankCmp : Z * (Z * Z) → Z * (Z * Z) → Z := pairCmp Zcmp (pairCmp Zcmp Zcmp).

Lemma Zcmp_compare x y : Zcmp x y = match x ?= y with Lt => -1 | Eq => 0 | Gt => 1 end.
Proof. unfold Zcmp. destruct (Z.compare_spec x y), (Z.ltb_spec x y), (Z.ltb_spec y x); lia. Qed.

Lemma compare_rank f g :
  isNan f = false → isNan g = false →
  SFcompare f g = Some (if rankCmp (rank f) (rank g) <? 0 then Lt else if rankCmp (rank f) (rank g) =? 0 then Eq else Gt).
Proof.
  intros Hf Hg. unfold rankCmp, pairCmp. rewrite !Zcmp_compare.
  destruct f as [sf|[]| |[] mf ef], g as [sg|[]| |[] mg eg]; try done; cbn [rank fst snd];
    change (-1 ?= -1) with Eq; change (1 ?= 1) with Eq; cbn.
  - rewrite (Z.compare_opp ef eg), (Z.compare_antisym ef eg). destruct (ef ?= eg); simpl; try done.
    change (PosDef.Pos.compare_cont Eq mf mg) with (mf ?= mg)%positive. by destruct (mf ?= mg)%positive.
  - destruct (ef ?= eg); simpl; try done. change (PosDef.Pos.compare_cont Eq mf mg) with (mf ?= mg)%positive. by destruct (mf ?= mg)%positive.
Qed.

(** An offer is placed by its price and its number. *)
Definition place (o : OfferDescriptor) : Z * (Z * Z) * Z := (rank (priceDouble (price o)), offerID o).

#[global] Arguments place : simpl never.

Definition placeCmp : Z * (Z * Z) * Z → Z * (Z * Z) * Z → Z := pairCmp rankCmp Zcmp.

#[export] Instance placeCmp_ok : CmpOk placeCmp.
Proof. unfold placeCmp, rankCmp. apply _. Qed.

(** The price is a number. *)
Definition priced (p : Price) : Prop := isNan (priceDouble p) = false.

Lemma isBetterOffer_place a b : priced (price a) → priced (price b) → isBetterOffer a b = (placeCmp (place a) (place b) <? 0).
Proof.
  intros Ha Hb. unfold isBetterOffer, SFltb, SFeqb. rewrite (compare_rank _ _ Ha Hb). unfold placeCmp, place, pairCmp at 1. cbn [fst snd].
  rewrite (Zcmp_compare (offerID a)).
  destruct (Z.ltb_spec (rankCmp (rank (priceDouble (price a))) (rank (priceDouble (price b)))) 0),
    (Z.eqb_spec (rankCmp (rank (priceDouble (price a))) (rank (priceDouble (price b)))) 0); try lia; try done.
  destruct (Z.compare_spec (offerID a) (offerID b)), (Z.ltb_spec (offerID a) (offerID b)); done || lia.
Qed.

(** ** Prices of positive integers are numbers *)

Lemma iter_nonneg p r : 0 ≤ shr_m r → 0 ≤ shr_m (iter_pos shr_1 p r).
Proof.
  assert (∀ r, 0 ≤ shr_m r → 0 ≤ shr_m (shr_1 r)) as H1. { intros [[|[q|q|]|q] b s] H; simpl in *; lia. }
  revert r. induction p as [p IH|p IH|]; intros r H; cbn [iter_pos]; auto.
Qed.

Lemma shr_nonneg m e l : 0 ≤ m → 0 ≤ shr_m (shr_fexp 53 1024 m e l).1.
Proof.
  intros H. assert (0 ≤ shr_m (shr_record_of_loc m l)) as Hr by (by destruct l as [|[]]).
  unfold shr_fexp, shr. destruct (_ - e); simpl; auto using iter_nonneg.
Qed.

Lemma round_number s m e l : 0 ≤ m → isNan (binary_round_aux 53 1024 s m e l) = false.
Proof.
  intros H. unfold binary_round_aux. pose proof (shr_nonneg m e l H) as H1. destruct (shr_fexp 53 1024 m e l) as [r e']. simpl in H1.
  set (m2 := round_nearest_even (shr_m r) (loc_of_shr_record r)).
  assert (0 ≤ m2) as Hm2. { subst m2. unfold round_nearest_even. destruct (loc_of_shr_record r) as [|[]]; try lia. destruct (IntDef.Z.even _); lia. }
  pose proof (shr_nonneg m2 e' loc_Exact Hm2) as H2. destruct (shr_fexp 53 1024 m2 e' loc_Exact) as [r' e'']. simpl in H2.
  destruct (shr_m r'); [done| |lia]. by case_match.
Qed.

Lemma digits_iter p d : Zpos (digits2_pos (Pos.iter xO p d)) = Zpos (digits2_pos p) + Zpos d.
Proof.
  induction d as [|d IH] using Pos.peano_ind; [simpl; lia|]. rewrite Pos.iter_succ. cbn [digits2_pos]. lia.
Qed.

Lemma digits_pow p k : 0 ≤ k → Zpos p < 2 ^ k → Zpos (digits2_pos p) ≤ k.
Proof.
  revert k. induction p as [p IH|p IH|]; intros k Hk H; cbn [digits2_pos]; rewrite ?Pos2Z.inj_succ.
  - destruct (Z.eq_dec k 0) as [->|]; [simpl in H; lia|]. replace k with (Z.succ (k - 1)) in H by lia. rewrite Z.pow_succ_r in H by lia.
    specialize (IH (k - 1) ltac:(lia) ltac:(lia)). lia.
  - destruct (Z.eq_dec k 0) as [->|]; [simpl in H; lia|]. replace k with (Z.succ (k - 1)) in H by lia. rewrite Z.pow_succ_r in H by lia.
    specialize (IH (k - 1) ltac:(lia) ltac:(lia)). lia.
  - destruct (Z.eq_dec k 0) as [->|]; [simpl in H; lia|lia].
Qed.

Lemma toDouble_finite x : 0 < x < 2 ^ 52 → ∃ m e, toDouble x = S754_finite false m e.
Proof.
  intros [H0 H]. destruct x as [|p|p]; try lia. unfold toDouble, binary_normalize, binary_round.
  pose proof (digits_pow p 52 ltac:(lia) H) as Hd. unfold shl_align, fexp. change (emin 53 1024) with (-1074).
  set (k := 53 - Zpos (digits2_pos p)). replace (IntDef.Z.max (Zpos (digits2_pos p) + 0 - 53) (-1074)) with (- k)
    by (change IntDef.Z.max with Z.max; lia).
  destruct k as [|q|q] eqn:Ek; try lia. replace (- Zpos q - 0) with (Zneg q) by lia.
  unfold binary_round_aux, shr_fexp, fexp. cbn [Zdigits2]. rewrite digits_iter. change (emin 53 1024) with (-1074).
  replace (IntDef.Z.max (Zpos (digits2_pos p) + Zpos q + - Zpos q - 53) (-1074) - - Zpos q) with 0 by (change IntDef.Z.max with Z.max; lia).
  cbn [shr shr_record_of_loc shr_m round_nearest_even loc_of_shr_record shr_r shr_s]. cbn [Zdigits2]. rewrite digits_iter.
  replace (IntDef.Z.max (Zpos (digits2_pos p) + Zpos q + - Zpos q - 53) (-1074) - - Zpos q) with 0 by (change IntDef.Z.max with Z.max; lia).
  cbn [shr shr_record_of_loc shr_m]. rewrite (proj2 (Z.leb_le (- Zpos q) _)) by lia. eauto.
Qed.

(** A price with a positive denominator is a number. *)
Lemma priced_positive p : 0 < price_n p < 2 ^ 31 → 0 < price_d p < 2 ^ 31 → priced p.
Proof.
  intros Hn Hd. unfold priced, priceDouble.
  destruct (toDouble_finite (price_n p)) as (m1 & e1 & ->); [lia|]. destruct (toDouble_finite (price_d p)) as (m2 & e2 & ->); [lia|].
  unfold SFdiv. destruct (SFdiv_core_binary 53 1024 (Zpos m1) e1 (Zpos m2) e2) as [[q e] l] eqn:E. apply round_number.
  unfold SFdiv_core_binary in E. revert E. match goal with |- context [IntDef.Z.div_eucl ?m _] => set (m' := m) end. intros E.
  assert (0 ≤ m') as Hm.
  { subst m'. destruct (e1 - e2 - _); [lia| |lia]. change IntDef.Z.shiftl with Z.shiftl. apply Z.shiftl_nonneg. lia. }
  change IntDef.Z.div_eucl with Z.div_eucl in E. pose proof (Z.div_pos m' (Zpos m2) Hm ltac:(lia)) as Hq. unfold Z.div in Hq.
  destruct (Z.div_eucl m' (Zpos m2)) as [q' r']. by injection E as <- <- <-.
Qed.

#[global] Opaque priceDouble.
