(* ===== verification/LedgerTxn.v ===== *)
(** * Nested ledger transactions (src/ledger/LedgerTxn.cpp, LedgerTxnEntry.cpp,
      LedgerTxnHeader.cpp, InternalLedgerEntry.h)

    A [LedgerTxn] records the entries that were loaded, changed or erased in it; what
    it has not recorded is looked up in its parent, down to the root.  Recorded offers
    that nobody holds are indexed by asset pair in the order of [isBetterOffer].  The
    chain of transactions is a value of type [Ledger] with the innermost one outside.
    The maps that the code keeps are hash tables, whose order of iteration is an
    oracle [iter].  An exception ends a run: states after one are not modelled. *)

From stdpp Require Import prelude list gmap.
From Stdlib Require Import ZArith Lia.
From S2P Require Import Prelude Numeric Exchange LedgerEntries OfferOrder.
Local Open Scope Z_scope.

(** ** Keys and entries *)

Inductive InternalLedgerKey : Type :=
| LEDGER_KEY (k : LedgerKey)
| SPONSORSHIP_KEY (sponsoredID : AccountID)
| SPONSORSHIP_COUNTER_KEY (sponsoringID : AccountID).

#[export] Instance InternalLedgerKey_eq_dec : EqDecision InternalLedgerKey.
Proof. solve_decision. Defined.

#[export] Instance InternalLedgerKey_countable : Countable InternalLedgerKey.
Proof.
  refine (inj_countable'
    (λ k, match k with LEDGER_KEY k => inl k | SPONSORSHIP_KEY a => inr (inl a) | SPONSORSHIP_COUNTER_KEY a => inr (inr a) end)
    (λ x, match x with inl k => LEDGER_KEY k | inr (inl a) => SPONSORSHIP_KEY a | inr (inr a) => SPONSORSHIP_COUNTER_KEY a end) _).
  by intros [].
Defined.

Inductive InternalLedgerEntry : Type :=
| LEDGER_ENTRY (e : LedgerEntry)
| SPONSORSHIP (sponsoredID sponsoringID : AccountID)
| SPONSORSHIP_COUNTER (sponsoringID : AccountID) (numSponsoring : Z).

Definition toKey (e : InternalLedgerEntry) : InternalLedgerKey :=
  match e with
  | LEDGER_ENTRY e => LEDGER_KEY (LedgerEntryKey e)
  | SPONSORSHIP a _ => SPONSORSHIP_KEY a
  | SPONSORSHIP_COUNTER a _ => SPONSORSHIP_COUNTER_KEY a
  end.

(** The exceptions of the code, and the fatal errors *)
Inductive LtxError : Type :=
| HasChild
| IsSealed
| NotSealed
| NotExactConsistency
| KeyAlreadyExists
| KeyDoesNotExist
| KeyIsActive
| KeyIsNotActive
| EntryNotActive
| HeaderIsActive
| HeaderIsNotActive
| ActiveEntriesWhenGettingBestOffer
| InvalidOrderBookState
| WrongArm
| LtxAssertion
| CouldNotUpdateSQL
| NativeAssetInQuery
| NoTransaction
| InvalidTrustLine
| MaximumOfferID
| NotInCache
| LtxOutOfFuel.

Notation LT := (outcome LtxError).

Definition checkT (b : bool) (f : LtxError) : LT unit := if b then Ok tt else Fail f.

(** [data.offer()] of a ledger entry *)
Definition offerArm (e : InternalLedgerEntry) : LT OfferEntry :=
  match e with
  | LEDGER_ENTRY e => match data e with OFFER o => Ok o | _ => Fail WrongArm end
  | _ => Fail WrongArm
  end.

Definition descriptorOf (o : OfferEntry) : OfferDescriptor := {| price := o_price o; offerID := o_offerID o |}.
Definition pairOf (o : OfferEntry) : AssetPair := {| buying := o_buying o; selling := o_selling o |}.

(** ** Order books

    A [std::multimap] ordered by [isBetterOffer] is a list in that order. *)

Notation OrderBook := (list (OfferDescriptor * LedgerKey)).

(** [insert]: behind the equivalent elements *)
Fixpoint obInsert (desc : OfferDescriptor) (k : LedgerKey) (ob : OrderBook) : OrderBook :=
  match ob with
  | [] => [(desc, k)]
  | x :: ob => if isBetterOffer desc x.1 then (desc, k) :: x :: ob else x :: obInsert desc k ob
  end.

(** [find]: the position of the first equivalent element *)
Fixpoint obFind (desc : OfferDescriptor) (ob : OrderBook) : option nat :=
  match ob with
  | [] => None
  | x :: ob =>
      if isBetterOffer x.1 desc then S <$> obFind desc ob
      else if isBetterOffer desc x.1 then None else Some 0%nat
  end.

(** [upper_bound]: the first element that is worse *)
Fixpoint obUpperBound (desc : OfferDescriptor) (ob : OrderBook) : option (OfferDescriptor * LedgerKey) :=
  match ob with
  | [] => None
  | x :: ob => if isBetterOffer desc x.1 then Some x else obUpperBound desc ob
  end.

(** ** The state of a transaction *)

Inductive LedgerTxnConsistency : Type := EXACT | EXTRA_DELETES.

#[export] Instance LedgerTxnConsistency_eq_dec : EqDecision LedgerTxnConsistency.
Proof. solve_decision. Defined.

(** What an active key is held by: a [LedgerTxnEntry], which refers to the recorded
    entry, or a [ConstLedgerTxnEntry], which has a copy. *)
Inductive EntryHandle : Type :=
| EntryImpl
| ConstEntryImpl (mCurrent : InternalLedgerEntry).

Record Impl : Type := {
  mChild : bool;
  mHeader : LedgerHeader;
  mActiveHeader : bool;
  mEntry : gmap InternalLedgerKey (option InternalLedgerEntry);
  mActive : gmap InternalLedgerKey EntryHandle;
  mShouldUpdateLastModified : bool;
  mIsSealed : bool;
  mConsistency : LedgerTxnConsistency;
  mMultiOrderBook : gmap AssetPair OrderBook;
  mWorstBestOffer : gmap AssetPair (option OfferDescriptor)
}.

(** The root keeps the database. *)
Record LedgerTxnRoot : Type := {
  r_child : bool;
  r_header : LedgerHeader;
  r_database : gmap LedgerKey LedgerEntry
}.

Inductive Ledger : Type :=
| Root (r : LedgerTxnRoot)
| Nested (t : Impl) (mParent : Ledger).

Definition set_mChild (x : bool) (t : Impl) : Impl :=
  {| mChild := x; mHeader := mHeader t; mActiveHeader := mActiveHeader t; mEntry := mEntry t; mActive := mActive t;
     mShouldUpdateLastModified := mShouldUpdateLastModified t; mIsSealed := mIsSealed t; mConsistency := mConsistency t;
     mMultiOrderBook := mMultiOrderBook t; mWorstBestOffer := mWorstBestOffer t |}.
Definition set_mHeader (x : LedgerHeader) (t : Impl) : Impl :=
  {| mChild := mChild t; mHeader := x; mActiveHeader := mActiveHeader t; mEntry := mEntry t; mActive := mActive t;
     mShouldUpdateLastModified := mShouldUpdateLastModified t; mIsSealed := mIsSealed t; mConsistency := mConsistency t;
     mMultiOrderBook := mMultiOrderBook t; mWorstBestOffer := mWorstBestOffer t |}.
Definition set_mActiveHeader (x : bool) (t : Impl) : Impl :=
  {| mChild := mChild t; mHeader := mHeader t; mActiveHeader := x; mEntry := mEntry t; mActive := mActive t;
     mShouldUpdateLastModified := mShouldUpdateLastModified t; mIsSealed := mIsSealed t; mConsistency := mConsistency t;
     mMultiOrderBook := mMultiOrderBook t; mWorstBestOffer := mWorstBestOffer t |}.
Definition set_mEntry (x : gmap InternalLedgerKey (option InternalLedgerEntry)) (t : Impl) : Impl :=
  {| mChild := mChild t; mHeader := mHeader t; mActiveHeader := mActiveHeader t; mEntry := x; mActive := mActive t;
     mShouldUpdateLastModified := mShouldUpdateLastModified t; mIsSealed := mIsSealed t; mConsistency := mConsistency t;
     mMultiOrderBook := mMultiOrderBook t; mWorstBestOffer := mWorstBestOffer t |}.
Definition set_mActive (x : gmap InternalLedgerKey EntryHandle) (t : Impl) : Impl :=
  {| mChild := mChild t; mHeader := mHeader t; mActiveHeader := mActiveHeader t; mEntry := mEntry t; mActive := x;
     mShouldUpdateLastModified := mShouldUpdateLastModified t; mIsSealed := mIsSealed t; mConsistency := mConsistency t;
     mMultiOrderBook := mMultiOrderBook t; mWorstBestOffer := mWorstBestOffer t |}.
Definition set_mIsSealed (x : bool) (t : Impl) : Impl :=
  {| mChild := mChild t; mHeader := mHeader t; mActiveHeader := mActiveHeader t; mEntry := mEntry t; mActive := mActive t;
     mShouldUpdateLastModified := mShouldUpdateLastModified t; mIsSealed := x; mConsistency := mConsistency t;
     mMultiOrderBook := mMultiOrderBook t; mWorstBestOffer := mWorstBestOffer t |}.
Definition set_mConsistency (x : LedgerTxnConsistency) (t : Impl) : Impl :=
  {| mChild := mChild t; mHeader := mHeader t; mActiveHeader := mActiveHeader t; mEntry := mEntry t; mActive := mActive t;
     mShouldUpdateLastModified := mShouldUpdateLastModified t; mIsSealed := mIsSealed t; mConsistency := x;
     mMultiOrderBook := mMultiOrderBook t; mWorstBestOffer := mWorstBestOffer t |}.
Definition set_mMultiOrderBook (x : gmap AssetPair OrderBook) (t : Impl) : Impl :=
  {| mChild := mChild t; mHeader := mHeader t; mActiveHeader := mActiveHeader t; mEntry := mEntry t; mActive := mActive t;
     mShouldUpdateLastModified := mShouldUpdateLastModified t; mIsSealed := mIsSealed t; mConsistency := mConsistency t;
     mMultiOrderBook := x; mWorstBestOffer := mWorstBestOffer t |}.
Definition set_mWorstBestOffer (x : gmap AssetPair (option OfferDescriptor)) (t : Impl) : Impl :=
  {| mChild := mChild t; mHeader := mHeader t; mActiveHeader := mActiveHeader t; mEntry := mEntry t; mActive := mActive t;
     mShouldUpdateLastModified := mShouldUpdateLastModified t; mIsSealed := mIsSealed t; mConsistency := mConsistency t;
     mMultiOrderBook := mMultiOrderBook t; mWorstBestOffer := x |}.

(** A new transaction *)
Definition newImpl (shouldUpdateLastModified : bool) (header : LedgerHeader) : Impl :=
  {| mChild := false; mHeader := header; mActiveHeader := false; mEntry := ∅; mActive := ∅;
     mShouldUpdateLastModified := shouldUpdateLastModified; mIsSealed := false; mConsistency := EXACT;
     mMultiOrderBook := ∅; mWorstBestOffer := ∅ |}.

(** ** Lookups *)

(** [getNewestVersion]; the root has ledger entries only. *)
Fixpoint getNewestVersion (l : Ledger) (key : InternalLedgerKey) : option InternalLedgerEntry :=
  match l with
  | Root r => match key with LEDGER_KEY k => LEDGER_ENTRY <$> r_database r !! k | _ => None end
  | Nested t mParent =>
      match mEntry t !! key with
      | Some entry => entry
      | None => getNewestVersion mParent key
      end
  end.

Definition getHeader (l : Ledger) : LedgerHeader :=
  match l with Root r => r_header r | Nested t _ => mHeader t end.

Definition throwIfSealed (t : Impl) : LT unit := checkT (negb (mIsSealed t)) IsSealed.
Definition throwIfChild (t : Impl) : LT unit := checkT (negb (mChild t)) HasChild.
Definition throwIfNotExactConsistency (t : Impl) : LT unit := checkT (bool_decide (mConsistency t = EXACT)) NotExactConsistency.

Fixpoint foldT {A S : Type} (f : A → S → LT S) (l : list A) (s : S) : LT S :=
  match l with
  | [] => Ok s
  | x :: l => let? s := f x s in foldT f l s
  end.

(** ** Recording an entry *)

(** [findInOrderBook]: the book of the offer's pair, if there is one, and the offer's
    position in it *)
Definition findInOrderBook (e : InternalLedgerEntry) (t : Impl) : LT (option (AssetPair * option nat)) :=
  let? oe := offerArm e in
  Ok (match mMultiOrderBook t !! pairOf oe with
      | Some ob => Some (pairOf oe, obFind (descriptorOf oe) ob)
      | None => None
      end).

Definition offerKey (key : InternalLedgerKey) : option LedgerKey :=
  match key with LEDGER_KEY (KEY_OFFER s i) => Some (KEY_OFFER s i) | _ => None end.

Definition recordEntry (key : InternalLedgerKey) (lePtr : option InternalLedgerEntry) (eraseIfNull : bool) (t : Impl) : Impl :=
  set_mEntry (if eraseIfNull then delete key (mEntry t) else <[key := lePtr]> (mEntry t)) t.

Definition addToOrderBook (oe : OfferEntry) (k : LedgerKey) (t : Impl) : Impl :=
  set_mMultiOrderBook
    (<[pairOf oe := match mMultiOrderBook t !! pairOf oe with
                    | Some ob => obInsert (descriptorOf oe) k ob
                    | None => [(descriptorOf oe, k)]
                    end]> (mMultiOrderBook t)) t.

Definition removeFromOrderBook (old : option (AssetPair * option nat)) (t : Impl) : Impl :=
  match old with
  | Some (assets, Some i) => set_mMultiOrderBook (alter (delete i) assets (mMultiOrderBook t)) t
  | _ => t
  end.

(** [updateEntry] with all its arguments.  The code inserts the new offer before it
    erases the old one, to be safe against exceptions; iterators stay valid, so that
    the book is the same as when the old offer goes first. *)
Definition updateEntry (key : InternalLedgerKey) (lePtr : option InternalLedgerEntry) (effectiveActive eraseIfNull : bool)
  (t : Impl) : LT Impl :=
  match offerKey key with
  | None => Ok (recordEntry key lePtr eraseIfNull t)
  | Some k =>
      let? old := (match mEntry t !! key with
                   | Some (Some e) => findInOrderBook e t
                   | _ => Ok None
                   end) in
      let t := removeFromOrderBook old t in
      match lePtr with
      | Some e =>
          if effectiveActive then Ok (recordEntry key lePtr eraseIfNull t)
          else
            let? oe := offerArm e in
            Ok (recordEntry key lePtr eraseIfNull (addToOrderBook oe k t))
      | None => Ok (recordEntry key lePtr eraseIfNull t)
      end
  end.

Definition isNull {A} (x : option A) : bool := match x with None => true | Some _ => false end.

(** [updateEntry] that asks the parent whether to keep a null entry *)
Definition updateEntryActive (mParent : Ledger) (key : InternalLedgerKey) (lePtr : option InternalLedgerEntry)
  (effectiveActive : bool) (t : Impl) : LT Impl :=
  updateEntry key lePtr effectiveActive (isNull lePtr && isNull (getNewestVersion mParent key)) t.

(** [updateEntry] with the key and the entry only *)
Definition updateEntryOf (mParent : Ledger) (key : InternalLedgerKey) (lePtr : option InternalLedgerEntry) (t : Impl) : LT Impl :=
  updateEntryActive mParent key lePtr (negb (isNull (mActive t !! key))) t.

Definition updateEntryIfRecorded (mParent : Ledger) (key : InternalLedgerKey) (effectiveActive : bool) (t : Impl) : LT Impl :=
  match mEntry t !! key with
  | Some lePtr => updateEntryActive mParent key lePtr effectiveActive t
  | None => Ok t
  end.

(** ** The worst best offer *)

Definition isWorseThan (lhs rhs : option OfferDescriptor) : bool :=
  match rhs with
  | None => false
  | Some r => match lhs with None => true | Some l => isBetterOffer r l end
  end.

Definition updateWorstBestOffer (assets : AssetPair) (offerDesc : option OfferDescriptor) (t : Impl) : Impl :=
  match mWorstBestOffer t !! assets with
  | Some w => if isWorseThan offerDesc w then set_mWorstBestOffer (<[assets := offerDesc]> (mWorstBestOffer t)) t else t
  | None => set_mWorstBestOffer (<[assets := offerDesc]> (mWorstBestOffer t)) t
  end.

(** ** The best offer *)

(** The comparison of two entries asserts that their assets are the same. *)
Definition isBetterEntry (lhs rhs : OfferEntry) : LT bool :=
  let? _ := checkT (bool_decide (o_buying lhs = o_buying rhs)) LtxAssertion in
  let? _ := checkT (bool_decide (o_selling lhs = o_selling rhs)) LtxAssertion in
  Ok (isBetterOffer (descriptorOf lhs) (descriptorOf rhs)).

(** The entry of an element of the order book *)
Definition bookEntry (t : Impl) (x : option (OfferDescriptor * LedgerKey)) : LT (option InternalLedgerEntry) :=
  match x with
  | None => Ok None
  | Some (_, k) =>
      match mEntry t !! LEDGER_KEY k with
      | Some (Some e) => Ok (Some e)
      | _ => Fail InvalidOrderBookState
      end
  end.

(** The loop at the end of [getBestOffer]; [next] asks the parent for its best offer
    that is worse than a given one. *)
Fixpoint bestOfferLoop (t : Impl) (next : OfferDescriptor → LT (option InternalLedgerEntry)) (selfBest : option InternalLedgerEntry)
  (fuel : nat) (parentBest : option InternalLedgerEntry) : LT (option InternalLedgerEntry) :=
  match fuel with
  | O => Fail LtxOutOfFuel
  | S fuel =>
      match parentBest with
      | None => Ok selfBest
      | Some e =>
          let? oe := offerArm e in
          let? better := (match selfBest with
                          | None => Ok true
                          | Some s => let? os := offerArm s in isBetterEntry oe os
                          end) in
          if (better : bool) then
            match mEntry t !! toKey e with
            | None => Ok parentBest
            | Some _ => let? parentBest := next (descriptorOf oe) in bestOfferLoop t next selfBest fuel parentBest
            end
          else Ok selfBest
      end
  end.

Definition throwIfActive (t : Impl) : LT unit := checkT (bool_decide (mActive t = ∅)) ActiveEntriesWhenGettingBestOffer.

(** The queries of the root go to the table of offers, ordered by price and number. *)
Definition rootEntries (db : gmap LedgerKey LedgerEntry) : gmap InternalLedgerKey InternalLedgerEntry :=
  kmap LEDGER_KEY (LEDGER_ENTRY <$> db).

(** An offer of the pair that is worse than [worseThan] *)
Definition offerIn (assets : AssetPair) (worseThan : option OfferDescriptor) (e : InternalLedgerEntry) : bool :=
  match offerArm e with
  | Ok o => bool_decide (pairOf o = assets) &&
            match worseThan with Some w => isBetterOffer w (descriptorOf o) | None => true end
  | Fail _ => false
  end.

Definition pickBetter (e : InternalLedgerEntry) (best : option InternalLedgerEntry) : option InternalLedgerEntry :=
  match best with
  | None => Some e
  | Some b =>
      match offerArm e, offerArm b with
      | Ok oe, Ok ob => if isBetterOffer (descriptorOf oe) (descriptorOf ob) then Some e else best
      | _, _ => best
      end
  end.

(** The best offer among entries *)
Definition bestOfferIn (v : gmap InternalLedgerKey InternalLedgerEntry) (assets : AssetPair) (worseThan : option OfferDescriptor)
  : option InternalLedgerEntry :=
  foldr pickBetter None (filter (λ e, offerIn assets worseThan e = true) (map_to_list v).*2).

(** [getBestOffer(buying, selling, worseThan)] *)
Fixpoint getBestOfferWorse (fuel : nat) (l : Ledger) (assets : AssetPair) (worseThan : OfferDescriptor)
  : LT (option InternalLedgerEntry) :=
  match l with
  | Root r => Ok (bestOfferIn (rootEntries (r_database r)) assets (Some worseThan))
  | Nested t mParent =>
      let? _ := throwIfActive t in
      let? selfBest := bookEntry t (match mMultiOrderBook t !! assets with
                                    | Some offers => obUpperBound worseThan offers
                                    | None => None
                                    end) in
      let? parentBest := getBestOfferWorse fuel mParent assets worseThan in
      bestOfferLoop t (getBestOfferWorse fuel mParent assets) selfBest fuel parentBest
  end.

(** [getBestOffer(buying, selling)] *)
Fixpoint getBestOffer (fuel : nat) (l : Ledger) (assets : AssetPair) : LT (option InternalLedgerEntry) :=
  match l with
  | Root r => Ok (bestOfferIn (rootEntries (r_database r)) assets None)
  | Nested t mParent =>
      let? _ := throwIfActive t in
      let? selfBest := bookEntry t (match mMultiOrderBook t !! assets with Some offers => head offers | None => None end) in
      let? parentBest := (match mWorstBestOffer t !! assets with
                          | Some (Some w) => getBestOfferWorse fuel mParent assets w
                          | Some None => Ok None
                          | None => getBestOffer fuel mParent assets
                          end) in
      bestOfferLoop t (getBestOfferWorse fuel mParent assets) selfBest fuel parentBest
  end.

(** ** Opening and closing transactions *)

Section Iteration.
(** The order in which hash tables are iterated *)
Context (iter : ∀ A : Type, list A → list A).

(** [Impl::addChild]; the handles expire. *)
Definition addChild (mParent : Ledger) (t : Impl) : LT Impl :=
  let? _ := throwIfSealed t in
  let? _ := throwIfChild t in
  let? t := foldT (λ kv, updateEntryIfRecorded mParent kv.1 false) (iter _ (map_to_list (mActive t))) (set_mChild true t) in
  Ok (set_mActiveHeader false (set_mActive ∅ t)).

(** [LedgerTxn child(parent)] *)
Definition newLedgerTxn (shouldUpdateLastModified : bool) (l : Ledger) : LT Ledger :=
  match l with
  | Root r =>
      let? _ := checkT (negb (r_child r)) HasChild in
      Ok (Nested (newImpl shouldUpdateLastModified (r_header r))
            (Root {| r_child := true; r_header := r_header r; r_database := r_database r |}))
  | Nested t mParent =>
      let? t' := addChild mParent t in
      Ok (Nested (newImpl shouldUpdateLastModified (mHeader t)) (Nested t' mParent))
  end.

Definition joinConsistencyLevels (c1 c2 : LedgerTxnConsistency) : LedgerTxnConsistency :=
  match c1 with EXACT => c2 | EXTRA_DELETES => EXTRA_DELETES end.

(** One row of the database; a deletion has to find its row unless extra ones are
    expected. *)
Definition applyRow (cons : LedgerTxnConsistency) (kv : InternalLedgerKey * option InternalLedgerEntry)
  (db : gmap LedgerKey LedgerEntry) : LT (gmap LedgerKey LedgerEntry) :=
  match kv.1 with
  | LEDGER_KEY k =>
      match kv.2 with
      | Some (LEDGER_ENTRY e) => Ok (<[k := e]> db)
      | Some _ => Fail WrongArm
      | None =>
          let? _ := checkT (negb (isNull (db !! k)) || bool_decide (cons = EXTRA_DELETES)) CouldNotUpdateSQL in
          Ok (delete k db)
      end
  | _ => Ok db
  end.

(** [commitChild]: the child is gone when it returns. *)
Definition commitChild (child : Impl) (entries : gmap InternalLedgerKey (option InternalLedgerEntry)) (l : Ledger) : LT Ledger :=
  match l with
  | Root r =>
      let? db := foldT (applyRow (mConsistency child)) (iter _ (map_to_list entries)) (r_database r) in
      Ok (Root {| r_child := false; r_header := mHeader child; r_database := db |})
  | Nested t mParent =>
      let t := set_mConsistency (joinConsistencyLevels (mConsistency t) (mConsistency child)) t in
      let? t := foldT (λ kv, updateEntryOf mParent kv.1 kv.2) (iter _ (map_to_list entries)) t in
      let t := foldl (λ t kv, updateWorstBestOffer kv.1 kv.2 t) t (iter _ (map_to_list (mWorstBestOffer child))) in
      Ok (Nested (set_mChild false (set_mHeader (mHeader child) t)) mParent)
  end.

(** The entries with the number of the ledger that modified them *)
Definition stamp (seq : Z) (e : InternalLedgerEntry) : InternalLedgerEntry :=
  match e with
  | LEDGER_ENTRY e => LEDGER_ENTRY {| lastModifiedLedgerSeq := seq; data := data e; le_ext := le_ext e |}
  | _ => e
  end.

Definition stampedEntries (t : Impl) : gmap InternalLedgerKey (option InternalLedgerEntry) :=
  fmap (M := option) (λ e, if mShouldUpdateLastModified t then stamp (ledgerSeq (mHeader t)) e else e) <$> mEntry t.

Definition maybeUpdateLastModified (t : Impl) : LT (gmap InternalLedgerKey (option InternalLedgerEntry)) :=
  let? _ := throwIfSealed t in
  let? _ := throwIfChild t in
  Ok (stampedEntries t).

Definition seal (entries : gmap InternalLedgerKey (option InternalLedgerEntry)) (t : Impl) : Impl :=
  set_mIsSealed true (set_mActiveHeader false (set_mActive ∅ (set_mMultiOrderBook ∅ (set_mEntry entries t)))).

(** [maybeUpdateLastModifiedThenInvokeThenSeal] *)
Definition invokeThenSeal {A} (f : gmap InternalLedgerKey (option InternalLedgerEntry) → LT A) (t : Impl) : LT (A * Impl) :=
  if negb (mIsSealed t) then
    let? entries := maybeUpdateLastModified t in
    let? a := f entries in
    Ok (a, seal entries t)
  else
    let? a := f (mEntry t) in
    Ok (a, t).

(** [commit], which destroys the transaction *)
Definition commit (l : Ledger) : LT Ledger :=
  match l with
  | Root _ => Fail NoTransaction
  | Nested t mParent =>
      let? r := invokeThenSeal (λ entries, commitChild t entries mParent) t in
      Ok r.1
  end.

Definition rollbackChild (l : Ledger) : Ledger :=
  match l with
  | Root r => Root {| r_child := false; r_header := r_header r; r_database := r_database r |}
  | Nested t mParent => Nested (set_mChild false t) mParent
  end.

(** [rollback] of the innermost transaction, which destroys it *)
Definition rollback (l : Ledger) : LT Ledger :=
  match l with
  | Root _ => Fail NoTransaction
  | Nested _ mParent => Ok (rollbackChild mParent)
  end.

(** ** Entries *)

Definition emplace {V} (key : InternalLedgerKey) (v : V) (m : gmap InternalLedgerKey V) : gmap InternalLedgerKey V :=
  match m !! key with Some _ => m | None => <[key := v]> m end.

Definition create (entry : InternalLedgerEntry) (t : Impl) (mParent : Ledger) : LT Impl :=
  let? _ := throwIfSealed t in
  let? _ := throwIfChild t in
  let key := toKey entry in
  let? _ := checkT (isNull (getNewestVersion (Nested t mParent) key)) KeyAlreadyExists in
  updateEntryOf mParent key (Some entry) (set_mActive (emplace key EntryImpl (mActive t)) t).

Definition createOrUpdateWithoutLoading (entry : InternalLedgerEntry) (t : Impl) (mParent : Ledger) : LT Impl :=
  let? _ := throwIfSealed t in
  let? _ := throwIfChild t in
  let key := toKey entry in
  let? _ := checkT (isNull (mActive t !! key)) KeyIsActive in
  updateEntryOf mParent key (Some entry) t.

Definition deactivate (key : InternalLedgerKey) (t : Impl) (mParent : Ledger) : LT Impl :=
  let? _ := checkT (negb (isNull (mActive t !! key))) KeyIsNotActive in
  let? t := updateEntryIfRecorded mParent key false t in
  Ok (set_mActive (delete key (mActive t)) t).

Definition erase (key : InternalLedgerKey) (t : Impl) (mParent : Ledger) : LT Impl :=
  let? _ := throwIfSealed t in
  let? _ := throwIfChild t in
  let? _ := checkT (negb (isNull (getNewestVersion (Nested t mParent) key))) KeyDoesNotExist in
  let? t := updateEntryActive mParent key None false t in
  Ok (set_mActive (delete key (mActive t)) t).

Definition eraseWithoutLoading (key : InternalLedgerKey) (t : Impl) (mParent : Ledger) : LT Impl :=
  let? _ := throwIfSealed t in
  let? _ := throwIfChild t in
  let? t := updateEntry key None false false t in
  Ok (set_mConsistency EXTRA_DELETES (set_mActive (delete key (mActive t)) t)).

Definition load (key : InternalLedgerKey) (t : Impl) (mParent : Ledger) : LT (option InternalLedgerEntry * Impl) :=
  let? _ := throwIfSealed t in
  let? _ := throwIfChild t in
  let? _ := checkT (isNull (mActive t !! key)) KeyIsActive in
  match getNewestVersion (Nested t mParent) key with
  | None => Ok (None, t)
  | Some newest =>
      let? t := updateEntryOf mParent key (Some newest) (set_mActive (emplace key EntryImpl (mActive t)) t) in
      Ok (Some newest, t)
  end.

Definition loadWithoutRecord (key : InternalLedgerKey) (t : Impl) (mParent : Ledger) : LT (option InternalLedgerEntry * Impl) :=
  let? _ := throwIfSealed t in
  let? _ := throwIfChild t in
  let? _ := checkT (isNull (mActive t !! key)) KeyIsActive in
  match getNewestVersion (Nested t mParent) key with
  | None => Ok (None, t)
  | Some newest =>
      let? t := updateEntryIfRecorded mParent key true (set_mActive (emplace key (ConstEntryImpl newest) (mActive t)) t) in
      Ok (Some newest, t)
  end.

(** ** Handles of entries *)

(** [current()] *)
Definition current (key : InternalLedgerKey) (t : Impl) : LT InternalLedgerEntry :=
  match mActive t !! key with
  | None => Fail EntryNotActive
  | Some EntryImpl => match mEntry t !! key with Some (Some e) => Ok e | _ => Fail EntryNotActive end
  | Some (ConstEntryImpl e) => Ok e
  end.

(** An assignment through [current()] changes the recorded entry behind the back of
    the transaction. *)
Definition assignCurrent (key : InternalLedgerKey) (f : InternalLedgerEntry → InternalLedgerEntry) (t : Impl) : LT Impl :=
  match mActive t !! key, mEntry t !! key with
  | Some EntryImpl, Some (Some e) => Ok (set_mEntry (<[key := Some (f e)]> (mEntry t)) t)
  | _, _ => Fail EntryNotActive
  end.

(** [deactivate()], also run when a handle is destroyed *)
Definition deactivateHandle (key : InternalLedgerKey) (t : Impl) (mParent : Ledger) : LT Impl :=
  let? e := current key t in deactivate (toKey e) t mParent.

(** [erase()] of a [LedgerTxnEntry] *)
Definition eraseHandle (key : InternalLedgerKey) (t : Impl) (mParent : Ledger) : LT Impl :=
  match mActive t !! key with
  | Some EntryImpl => let? e := current key t in erase (toKey e) t mParent
  | _ => Fail EntryNotActive
  end.

(** ** The header *)

Definition loadHeader (t : Impl) : LT Impl :=
  let? _ := throwIfSealed t in
  let? _ := throwIfChild t in
  let? _ := checkT (negb (mActiveHeader t)) HeaderIsActive in
  Ok (set_mActiveHeader true t).

Definition assignHeader (f : LedgerHeader → LedgerHeader) (t : Impl) : LT Impl :=
  let? _ := checkT (mActiveHeader t) HeaderIsNotActive in
  Ok (set_mHeader (f (mHeader t)) t).

Definition deactivateHeader (t : Impl) : LT Impl :=
  let? _ := checkT (mActiveHeader t) HeaderIsNotActive in
  Ok (set_mActiveHeader false t).

(** The handle that [unsealHeader] makes is destroyed at its end. *)
Definition unsealHeader (f : LedgerHeader → LedgerHeader) (t : Impl) : LT Impl :=
  let? _ := checkT (mIsSealed t) NotSealed in
  let? _ := checkT (negb (mActiveHeader t)) HeaderIsActive in
  let t := set_mActiveHeader true t in
  let? t := assignHeader f t in
  deactivateHeader t.

(** ** Offers *)

Definition loadBestOffer (fuel : nat) (assets : AssetPair) (t : Impl) (mParent : Ledger) : LT (option InternalLedgerEntry * Impl) :=
  let? _ := throwIfSealed t in
  let? _ := throwIfChild t in
  let? le := getBestOffer fuel (Nested t mParent) assets in
  match le with
  | Some e =>
      let? oe := offerArm e in
      let? r := load (toKey e) t mParent in
      Ok (r.1, updateWorstBestOffer assets (Some (descriptorOf oe)) r.2)
  | None => Ok (None, updateWorstBestOffer assets None t)
  end.

(** [getAllOffers] and [getOffersByAccountAndAsset] differ in the offers they want. *)
Definition overlayOffers (wanted : OfferEntry → bool) (kv : InternalLedgerKey * option InternalLedgerEntry)
  (offers : gmap LedgerKey LedgerEntry) : LT (gmap LedgerKey LedgerEntry) :=
  match offerKey kv.1 with
  | None => Ok offers
  | Some k =>
      match kv.2 with
      | None => Ok (delete k offers)
      | Some (LEDGER_ENTRY e) =>
          let? oe := offerArm (LEDGER_ENTRY e) in
          Ok (if wanted oe then <[k := e]> offers else delete k offers)
      | Some _ => Fail WrongArm
      end
  end.

Definition isWanted (wanted : OfferEntry → bool) (e : LedgerEntry) : bool :=
  match data e with OFFER o => wanted o | _ => false end.

(** The query by asset does not work for the native one. *)
Fixpoint getOffers (queryOk : bool) (wanted : OfferEntry → bool) (l : Ledger) : LT (gmap LedgerKey LedgerEntry) :=
  match l with
  | Root r =>
      let? _ := checkT queryOk NativeAssetInQuery in
      Ok (filter (λ kv, isWanted wanted kv.2 = true) (r_database r))
  | Nested t mParent =>
      let? offers := getOffers queryOk wanted mParent in
      foldT (overlayOffers wanted) (iter _ (map_to_list (mEntry t))) offers
  end.

Definition loadOffers (queryOk : bool) (wanted : OfferEntry → bool) (t : Impl) (mParent : Ledger) : LT (list LedgerKey * Impl) :=
  let? _ := throwIfSealed t in
  let? _ := throwIfChild t in
  let? offers := getOffers queryOk wanted (Nested t mParent) in
  let keys := (iter _ (map_to_list offers)).*1 in
  let? t := foldT (λ k t, let? r := load (LEDGER_KEY k) t mParent in Ok r.2) keys t in
  Ok (keys, t).

Definition ofAccountAndAsset (accountID : AccountID) (asset : Asset) (oe : OfferEntry) : bool :=
  (o_sellerID oe =? accountID) && (bool_decide (o_selling oe = asset) || bool_decide (o_buying oe = asset)).

Definition loadAllOffers : Impl → Ledger → LT (list LedgerKey * Impl) := loadOffers true (λ _, true).
Definition loadOffersByAccountAndAsset (accountID : AccountID) (asset : Asset) : Impl → Ledger → LT (list LedgerKey * Impl) :=
  loadOffers (bool_decide (asset ≠ ASSET_TYPE_NATIVE)) (ofAccountAndAsset accountID asset).

(** ** What a transaction has changed *)

Inductive LedgerEntryChange : Type :=
| LEDGER_ENTRY_CREATED (created : LedgerEntry)
| LEDGER_ENTRY_UPDATED (updated : LedgerEntry)
| LEDGER_ENTRY_REMOVED (removed : LedgerKey)
| LEDGER_ENTRY_STATE (state : LedgerEntry).

Definition ledgerEntryArm (e : InternalLedgerEntry) : LT LedgerEntry :=
  match e with LEDGER_ENTRY e => Ok e | _ => Fail WrongArm end.

Definition changesOf (mParent : Ledger) (kv : InternalLedgerKey * option InternalLedgerEntry) (changes : list LedgerEntryChange)
  : LT (list LedgerEntryChange) :=
  match kv.1 with
  | LEDGER_KEY k =>
      match getNewestVersion mParent kv.1, kv.2 with
      | Some previous, Some entry =>
          let? previous := ledgerEntryArm previous in
          let? entry := ledgerEntryArm entry in
          Ok (changes ++ [LEDGER_ENTRY_STATE previous; LEDGER_ENTRY_UPDATED entry])
      | Some previous, None =>
          let? previous := ledgerEntryArm previous in
          Ok (changes ++ [LEDGER_ENTRY_STATE previous; LEDGER_ENTRY_REMOVED k])
      | None, Some entry =>
          let? entry := ledgerEntryArm entry in
          Ok (changes ++ [LEDGER_ENTRY_CREATED entry])
      | None, None => Fail LtxAssertion
      end
  | _ => Ok changes
  end.

Definition getChanges (t : Impl) (mParent : Ledger) : LT (list LedgerEntryChange * Impl) :=
  let? _ := throwIfNotExactConsistency t in
  invokeThenSeal (λ entries, foldT (changesOf mParent) (iter _ (map_to_list entries)) []) t.

(** The entries with their previous versions, and the header with its previous one *)
Definition LedgerTxnDelta : Type :=
  gmap InternalLedgerKey (option InternalLedgerEntry * option InternalLedgerEntry) * (LedgerHeader * LedgerHeader).

Definition getDelta (t : Impl) (mParent : Ledger) : LT (LedgerTxnDelta * Impl) :=
  let? _ := throwIfNotExactConsistency t in
  invokeThenSeal (λ entries,
    Ok (map_imap (λ key entry, Some (entry, getNewestVersion mParent key)) entries, (mHeader t, getHeader mParent))) t.

Definition allEntriesOf (mParent : Ledger) (kv : InternalLedgerKey * option InternalLedgerEntry)
  (res : list LedgerEntry * list LedgerEntry * list LedgerKey) : LT (list LedgerEntry * list LedgerEntry * list LedgerKey) :=
  match kv.1 with
  | LEDGER_KEY k =>
      match kv.2 with
      | Some entry =>
          let? entry := ledgerEntryArm entry in
          match getNewestVersion mParent kv.1 with
          | Some _ => Ok (res.1.1, res.1.2 ++ [entry], res.2)
          | None => Ok (res.1.1 ++ [entry], res.1.2, res.2)
          end
      | None => Ok (res.1.1, res.1.2, res.2 ++ [k])
      end
  | _ => Ok res
  end.

(** [getAllEntries]: the new entries, the changed ones and the keys of the erased ones *)
Definition getAllEntries (t : Impl) (mParent : Ledger) : LT ((list LedgerEntry * list LedgerEntry * list LedgerKey) * Impl) :=
  invokeThenSeal (λ entries, foldT (allEntriesOf mParent) (iter _ (map_to_list entries)) ([], [], [])) t.
End Iteration.
