(* ===== verification/LedgerTxnBook.v ===== *)
(** * The order book of a transaction

    The index of offers that a transaction keeps holds exactly the offers that it has
    recorded and that nobody holds, in the order of [isBetterOffer]. *)

From stdpp Require Import prelude list gmap sorting.
From Stdlib Require Import ZArith Lia.
From S2P Require Import Prelude Numeric Exchange LedgerEntries OfferOrder LedgerTxn.
Local Open Scope Z_scope.

(** ** Sorted books *)

Notation placeOf := (λ x : OfferDescriptor * LedgerKey, place x.1).
Notation before := (λ x y : OfferDescriptor * LedgerKey, placeCmp (placeOf x) (placeOf y) < 0).

Definition sortedBook (ob : OrderBook) : Prop := Forall (λ x, priced (price x.1)) ob ∧ StronglySorted before ob.

Lemma better_place a b : priced (price a) → priced (price b) → isBetterOffer a b = true ↔ placeCmp (place a) (place b) < 0.
Proof. intros Ha Hb. rewrite isBetterOffer_place by done. apply Z.ltb_lt. Qed.

Lemma not_better_place a b : priced (price a) → priced (price b) → isBetterOffer a b = false ↔ 0 ≤ placeCmp (place a) (place b).
Proof. intros Ha Hb. rewrite isBetterOffer_place by done. apply Z.ltb_ge. Qed.

Lemma placeCmp_refl x : placeCmp x x = 0.
Proof. by apply (cmp_eq placeCmp). Qed.

Lemma placeCmp_flip x y : placeCmp y x = - placeCmp x y.
Proof. apply (cmp_opp placeCmp). Qed.

Lemma place_lt_trans x y z : placeCmp x y < 0 → placeCmp y z < 0 → placeCmp x z < 0.
Proof. apply (cmp_lt_trans placeCmp). Qed.

Lemma obInsert_perm d k ob : obInsert d k ob ≡ₚ (d, k) :: ob.
Proof.
  induction ob as [|x ob IH]; cbn [obInsert]; [done|]. destruct (isBetterOffer d x.1); [done|]. rewrite IH. apply Permutation_swap.
Qed.

Lemma obInsert_sorted d k ob :
  priced (price d) → sortedBook ob → (∀ x, x ∈ ob → place x.1 ≠ place d) → sortedBook (obInsert d k ob).
Proof.
  intros Hd [Hp Hs] Hne. split. { rewrite obInsert_perm. by constructor. }
  induction Hs as [|x ob Hs IH Hx]; cbn [obInsert]; [repeat constructor|]. apply Forall_cons in Hp as [Hpx Hp].
  destruct (isBetterOffer d x.1) eqn:E.
  - apply better_place in E; [|done..]. constructor; [by constructor|]. constructor; [done|]. eapply Forall_impl; [exact Hx|]. intros y Hy.
    by eapply place_lt_trans.
  - apply not_better_place in E; [|done..]. constructor; [apply IH; [done|]; intros y Hy; apply Hne; by right|]. rewrite obInsert_perm. constructor; [|done]. simpl.
    assert (placeCmp (place d) (place x.1) ≠ 0) as H. { intros H%(cmp_eq placeCmp). apply (Hne x); [by left|done]. }
    rewrite (placeCmp_flip (place d)). lia.
Qed.

Lemma obFind_spec d ob :
  priced (price d) → sortedBook ob →
  match obFind d ob with
  | Some i => ∃ x, ob !! i = Some x ∧ place x.1 = place d
  | None => ∀ x, x ∈ ob → place x.1 ≠ place d
  end.
Proof.
  intros Hd [Hp Hs]. induction Hs as [|x ob Hs IH Hx]; cbn [obFind]; [set_solver|]. apply Forall_cons in Hp as [Hpx Hp].
  destruct (isBetterOffer x.1 d) eqn:E1.
  - apply better_place in E1; [|done..]. specialize (IH Hp). destruct (obFind d ob) as [i|]; cbn.
    + destruct IH as (y & Hy & Ey). by exists y.
    + intros y [->|Hy]%elem_of_cons; [|by apply IH]. intros H. rewrite H, placeCmp_refl in E1. lia.
  - apply not_better_place in E1; [|done..]. destruct (isBetterOffer d x.1) eqn:E2.
    + apply better_place in E2; [|done..]. intros y Hy H. rewrite <- H in E2. apply elem_of_cons in Hy as [->|Hy].
      { rewrite placeCmp_refl in E2. lia. } rewrite Forall_forall in Hx. specialize (Hx y Hy). simpl in Hx.
      rewrite (placeCmp_flip (place x.1)) in E2. lia.
    + apply not_better_place in E2; [|done..]. exists x. split; [done|]. apply (cmp_eq placeCmp). rewrite (placeCmp_flip (place d)) in *. lia.
Qed.

Lemma sorted_inj ob i j x y : sortedBook ob → ob !! i = Some x → ob !! j = Some y → place x.1 = place y.1 → i = j.
Proof.
  intros [_ Hs]. revert i j. induction Hs as [|z ob Hs IH Hz]; intros [|i] [|j] Hi Hj E; cbn in Hi, Hj; try done.
  - injection Hi as <-. rewrite Forall_forall in Hz. specialize (Hz y (list_elem_of_lookup_2 _ _ _ Hj)). simpl in Hz. rewrite E, placeCmp_refl in Hz. lia.
  - injection Hj as <-. rewrite Forall_forall in Hz. specialize (Hz x (list_elem_of_lookup_2 _ _ _ Hi)). simpl in Hz. rewrite E, placeCmp_refl in Hz. lia.
  - f_equal. by eapply IH.
Qed.

Lemma sorted_delete ob i : sortedBook ob → sortedBook (delete i ob).
Proof.
  intros [Hp Hs]. split.
  - rewrite Forall_forall in *. intros x Hx. apply Hp. apply list_elem_of_lookup in Hx as [j Hj]. destruct (decide (j < i)%nat).
    + rewrite list_lookup_delete_lt in Hj by done. by eapply list_elem_of_lookup_2.
    + rewrite list_lookup_delete_ge in Hj by lia. by eapply list_elem_of_lookup_2.
  - revert i. induction Hs as [|x ob Hs IH Hx]; intros [|i]; simpl; [constructor..|done|].
    apply Forall_cons in Hp as [_ Hp]. constructor; [by apply IH|]. by apply Forall_delete.
Qed.

Lemma obUpperBound_spec d ob :
  priced (price d) → sortedBook ob →
  match obUpperBound d ob with
  | Some x => x ∈ ob ∧ isBetterOffer d x.1 = true ∧ ∀ y, y ∈ ob → isBetterOffer d y.1 = true → y = x ∨ isBetterOffer x.1 y.1 = true
  | None => ∀ y, y ∈ ob → isBetterOffer d y.1 = false
  end.
Proof.
  intros Hd [Hp Hs]. induction Hs as [|x ob Hs IH Hx]; cbn [obUpperBound]; [set_solver|]. apply Forall_cons in Hp as [Hpx Hp].
  destruct (isBetterOffer d x.1) eqn:E.
  - split; [by left|]. split; [done|]. intros y [->|Hy]%elem_of_cons _; [by left|right]. rewrite Forall_forall in Hx, Hp.
    apply better_place; [done|by apply Hp|by apply Hx].
  - specialize (IH Hp). destruct (obUpperBound d ob) as [z|].
    + destruct IH as (H1 & H2 & H3). split; [by right|]. split; [done|]. intros y [->|Hy]%elem_of_cons Hb; [congruence|by apply H3].
    + intros y [->|Hy]%elem_of_cons; [done|by apply IH].
Qed.

Lemma head_spec ob :
  sortedBook ob →
  match head ob with
  | Some x => x ∈ ob ∧ ∀ y, y ∈ ob → y = x ∨ isBetterOffer x.1 y.1 = true
  | None => ob = []
  end.
Proof.
  intros [Hp Hs]. destruct Hs as [|x ob Hs Hx]; [done|]. simpl. split; [by left|]. intros y [->|Hy]%elem_of_cons; [by left|right].
  apply Forall_cons in Hp as [Hpx Hp]. rewrite Forall_forall in Hx, Hp. apply better_place; [done|by apply Hp|by apply Hx].
Qed.

(** ** Entries *)

Section Owners.
(** Numbers of offers are not used twice: the number of an offer determines its
    seller. *)
Context (owner : Z → AccountID).

Definition goodEntry (key : InternalLedgerKey) (e : InternalLedgerEntry) : Prop :=
  toKey e = key ∧ ∀ o, offerArm e = Ok o → priced (o_price o) ∧ o_sellerID o = owner (o_offerID o).

Lemma offerArm_key e o : offerArm e = Ok o → toKey e = LEDGER_KEY (KEY_OFFER (o_sellerID o) (o_offerID o)).
Proof. destruct e as [e| |]; simpl; try done. unfold LedgerEntryKey. destruct (data e); try done. by intros [= <-]. Qed.

Lemma key_offerArm e s i : toKey e = LEDGER_KEY (KEY_OFFER s i) → ∃ o, offerArm e = Ok o ∧ o_sellerID o = s ∧ o_offerID o = i.
Proof. destruct e as [e| |]; simpl; try done. unfold LedgerEntryKey. destruct (data e); try done. intros [= <- <-]. eauto. Qed.

(** Offers that are entries of good keys are the same when they have the same
    place. *)
Lemma place_key k k' e e' o o' :
  goodEntry k e → goodEntry k' e' → offerArm e = Ok o → offerArm e' = Ok o' → place (descriptorOf o) = place (descriptorOf o') → k = k'.
Proof.
  intros [<- G] [<- G'] E E' H. rewrite (offerArm_key _ _ E), (offerArm_key _ _ E'). destruct (G o E) as [_ ->], (G' o' E') as [_ ->].
  injection H as _ H. simpl in H. by rewrite H.
Qed.

(** ** The index *)

Definition indexed (mob : gmap AssetPair OrderBook) (ent : gmap InternalLedgerKey (option InternalLedgerEntry))
  (idx : InternalLedgerKey → Prop) : Prop :=
  ∀ P, sortedBook (default [] (mob !! P)) ∧
    ∀ d k, (d, k) ∈ default [] (mob !! P) ↔
      idx (LEDGER_KEY k) ∧ ∃ e o, ent !! LEDGER_KEY k = Some (Some e) ∧ offerArm e = Ok o ∧ pairOf o = P ∧ descriptorOf o = d.

Definition goodEntries (ent : gmap InternalLedgerKey (option InternalLedgerEntry)) : Prop :=
  ∀ k e, ent !! k = Some (Some e) → goodEntry k e.

Lemma indexed_iff mob ent idx idx' :
  (∀ k e o, ent !! LEDGER_KEY k = Some (Some e) → offerArm e = Ok o → idx (LEDGER_KEY k) ↔ idx' (LEDGER_KEY k)) →
  indexed mob ent idx → indexed mob ent idx'.
Proof. intros Hi H P. destruct (H P) as [Hs Hc]. split; [done|]. intros d k. rewrite Hc. naive_solver. Qed.

(** Entries that are not indexed may change. *)
Lemma indexed_other mob ent ent' idx key :
  (∀ k, k ≠ key → ent' !! k = ent !! k) → ¬ idx key → indexed mob ent idx → indexed mob ent' idx.
Proof.
  intros He Hk H P. destruct (H P) as [Hs Hc]. split; [done|]. intros d k. rewrite Hc.
  destruct (decide (LEDGER_KEY k = key)) as [->|Hne]; [tauto|]. by rewrite (He _ Hne).
Qed.

Lemma set_book_eta t : set_mMultiOrderBook (mMultiOrderBook t) t = t.
Proof. by destruct t. Qed.

Lemma sorted_elem_delete ob i x y : sortedBook ob → ob !! i = Some x → y ∈ delete i ob ↔ y ∈ ob ∧ y ≠ x.
Proof.
  intros Hs Hi. rewrite !list_elem_of_lookup. split.
  - intros [j Hj]. destruct (decide (j < i)%nat).
    + rewrite list_lookup_delete_lt in Hj by done. split; [eauto|]. intros ->. pose proof (sorted_inj ob j i x x Hs Hj Hi eq_refl). lia.
    + rewrite list_lookup_delete_ge in Hj by lia. split; [eauto|]. intros ->. pose proof (sorted_inj ob (S j) i x x Hs Hj Hi eq_refl). lia.
  - intros [[j Hj] Hne]. destruct (decide (j < i)%nat).
    + exists j. by rewrite list_lookup_delete_lt.
    + destruct j as [|j]; [assert (i = 0)%nat as -> by lia; congruence|]. destruct (decide (S j = i)) as [<-|]; [congruence|].
      exists j. by rewrite list_lookup_delete_ge by lia.
Qed.

Lemma remove_indexed t key e idx :
  indexed (mMultiOrderBook t) (mEntry t) idx → goodEntries (mEntry t) → mEntry t !! key = Some (Some e) → (∃ k, offerKey key = Some k) →
  ∃ old mob, findInOrderBook e t = Ok old ∧ removeFromOrderBook old t = set_mMultiOrderBook mob t ∧
    indexed mob (mEntry t) (λ k, k ≠ key ∧ idx k).
Proof.
  intros H Hg He [k Hk]. destruct key as [[| |s i| |]| |]; try done. pose proof (Hg _ _ He) as [Ht Go].
  destruct (key_offerArm _ _ _ Ht) as (o & Eo & Es & Ei). destruct (Go o Eo) as [Hp _].
  unfold findInOrderBook. rewrite Eo. cbn [obind]. set (key := LEDGER_KEY (KEY_OFFER s i)) in *.
  assert (∀ d k P, (d, k) ∈ default [] (mMultiOrderBook t !! P) → place d = place (descriptorOf o) →
    LEDGER_KEY k = key ∧ P = pairOf o ∧ d = descriptorOf o) as Huniq.
  { intros d k' P Hin Hpl. apply (H P) in Hin as (_ & e' & o' & H1 & H2 & H3 & H4). subst d.
    assert (LEDGER_KEY k' = key) as <- by (eapply place_key; [by apply Hg, H1|by apply Hg, He|done..]).
    rewrite H1 in He. injection He as ->. rewrite H2 in Eo. by injection Eo as ->. }
  assert (∀ P d k, (d, k) ∈ default [] (mMultiOrderBook t !! P) → LEDGER_KEY k = key → P = pairOf o ∧ d = descriptorOf o) as Hself.
  { intros P d k' Hin Ek. apply (H P) in Hin as (_ & e' & o' & H1 & H2 & H3 & H4). rewrite Ek, He in H1. injection H1 as <-.
    rewrite Eo in H2. injection H2 as <-. done. }
  destruct (mMultiOrderBook t !! pairOf o) as [ob|] eqn:Eb.
  - destruct (H (pairOf o)) as [Hs Hc]. rewrite Eb in Hs. simpl in Hs. pose proof (obFind_spec (descriptorOf o) ob Hp Hs) as Hf.
    destruct (obFind (descriptorOf o) ob) as [j|].
    + destruct Hf as ([d k'] & Hj & Hpl). simpl in Hpl. destruct (Huniq d k' (pairOf o)) as (Ek & _ & ->); [rewrite Eb; by eapply list_elem_of_lookup_2|done|].
      eexists _, _. split; [done|]. split; [done|]. intros P. destruct (H P) as [HsP HcP]. destruct (decide (P = pairOf o)) as [->|HP].
      * rewrite lookup_alter, decide_True, Eb by done. simpl. split; [by apply sorted_delete|]. intros d k''. rewrite (sorted_elem_delete _ _ _ _ Hs Hj).
        rewrite Eb in HcP. simpl in HcP. rewrite HcP. split; [|].
        -- intros [[H1 H2] H3]. split_and!; [|done|done]. intros H4. apply H3. destruct (Hself (pairOf o) d k'') as [_ ->]; [rewrite Eb; by apply HcP|done|].
           f_equal. rewrite <- Ek in H4. by injection H4.
        -- intros [[H1 H2] H3]. split; [done|]. intros [= -> ->]. by apply H1.
      * rewrite lookup_alter, decide_False by done. split; [done|]. intros d k''. rewrite HcP. split; [|tauto]. intros [H1 H2]. split_and!; [|done|done].
        intros H3. destruct (Hself P d k'') as [-> _]; [by apply HcP|done|done].
    + eexists _, (mMultiOrderBook t). split; [done|]. split; [by rewrite set_book_eta|]. eapply indexed_iff; [|exact H]. intros k' e' o' H1 H2.
      split; [|tauto]. intros Hi. split; [|done]. intros Ek. rewrite Ek, He in H1. injection H1 as <-. rewrite Eo in H2. injection H2 as <-.
      apply (Hf (descriptorOf o, k')); [|done]. specialize (Hc (descriptorOf o) k'). rewrite Eb in Hc. apply Hc. rewrite Ek. split; [by rewrite <- Ek|eauto 6].
  - eexists _, (mMultiOrderBook t). split; [done|]. split; [by rewrite set_book_eta|]. eapply indexed_iff; [|exact H]. intros k' e' o' H1 H2.
    split; [|tauto]. intros Hi. split; [|done]. intros Ek. destruct (H (pairOf o)) as [_ Hc]. rewrite Eb in Hc. simpl in Hc.
    apply (not_elem_of_nil (descriptorOf o, k')), Hc. split; [done|]. rewrite Ek. eauto 6.
Qed.

Lemma add_indexed mob ent idx key k e o :
  indexed mob ent (λ k, k ≠ key ∧ idx k) → goodEntries ent → key = LEDGER_KEY k → ent !! key = Some (Some e) → offerArm e = Ok o →
  indexed (<[pairOf o := match mob !! pairOf o with
                         | Some ob => obInsert (descriptorOf o) k ob
                         | None => [(descriptorOf o, k)]
                         end]> mob) ent (λ k, k = key ∨ idx k).
Proof.
  intros H Hg -> He Eo P. destruct (H P) as [Hs Hc]. destruct (proj2 (Hg _ _ He) o Eo) as [Hp _].
  assert (match mob !! pairOf o with Some ob => obInsert (descriptorOf o) k ob | None => [(descriptorOf o, k)] end
    = obInsert (descriptorOf o) k (default [] (mob !! pairOf o))) as -> by (by destruct (mob !! pairOf o)).
  assert (∀ x, x ∈ default [] (mob !! pairOf o) → place x.1 ≠ place (descriptorOf o)) as Hne.
  { intros [d k'] Hin Hpl. apply (H (pairOf o)) in Hin as ((Hk & _) & e' & o' & H1 & H2 & _ & H4). subst d. apply Hk.
    eapply place_key; [by apply Hg, H1|by apply Hg, He|done..]. }
  destruct (decide (P = pairOf o)) as [->|HP].
  - rewrite lookup_insert_eq. simpl. split; [by apply obInsert_sorted|]. intros d k'. rewrite obInsert_perm, elem_of_cons, Hc. split.
    + intros [[= -> ->]|[[H1 H2] H3]]; [|eauto]. split; [by left|eauto 6].
    + intros [H1 (e' & o' & H2 & H3 & H4 & H5)]. destruct (decide (k' = k)) as [->|Hk].
      * left. rewrite He in H2. injection H2 as <-. rewrite Eo in H3. injection H3 as <-. by rewrite H5.
      * right. split; [split; [congruence|]|eauto 6]. destruct H1 as [[= ->]|H1]; done.
  - rewrite lookup_insert_ne by done. split; [done|]. intros d k'. rewrite Hc. split; [naive_solver|].
    intros [H1 (e' & o' & H2 & H3 & H4 & H5)]. split; [|eauto 6]. destruct (decide (k' = k)) as [->|Hk].
    + rewrite He in H2. injection H2 as <-. rewrite Eo in H3. injection H3 as <-. congruence.
    + split; [congruence|]. destruct H1 as [[= ->]|H1]; done.
Qed.

Definition recorded (key : InternalLedgerKey) (lePtr : option InternalLedgerEntry) (eraseIfNull : bool)
  (ent : gmap InternalLedgerKey (option InternalLedgerEntry)) : gmap InternalLedgerKey (option InternalLedgerEntry) :=
  if eraseIfNull then delete key ent else <[key := lePtr]> ent.

Lemma recorded_ne key lePtr er ent k : k ≠ key → recorded key lePtr er ent !! k = ent !! k.
Proof. intros H. unfold recorded. destruct er; [by rewrite lookup_delete_ne|by rewrite lookup_insert_ne]. Qed.

Lemma recorded_good key lePtr er ent :
  goodEntries ent → (∀ e, lePtr = Some e → goodEntry key e) → (er = true → lePtr = None) → goodEntries (recorded key lePtr er ent).
Proof.
  intros Hg Hle Her k e. destruct (decide (k = key)) as [->|Hk]; [|rewrite recorded_ne by done; apply Hg].
  unfold recorded. destruct er; [by rewrite lookup_delete_eq|]. rewrite lookup_insert_eq. intros [= ->]. by apply Hle.
Qed.

(** Recording an entry keeps the index: the key is indexed when nobody holds it. *)
Lemma updateEntry_spec key lePtr eff er t idx :
  indexed (mMultiOrderBook t) (mEntry t) idx → goodEntries (mEntry t) → (∀ e, lePtr = Some e → goodEntry key e) → (er = true → lePtr = None) →
  ∃ mob, updateEntry key lePtr eff er t = Ok (set_mMultiOrderBook mob (set_mEntry (recorded key lePtr er (mEntry t)) t)) ∧
    indexed mob (recorded key lePtr er (mEntry t)) (λ k, if decide (k = key) then eff = false else idx k).
Proof.
  intros H Hg Hle Her. pose proof (recorded_good key lePtr er _ Hg Hle Her) as Hg'. unfold updateEntry.
  destruct (offerKey key) as [k|] eqn:Ek.
  - assert (key = LEDGER_KEY k ∧ ∃ s i, k = KEY_OFFER s i) as (-> & s & i & ->) by (destruct key as [[]| |]; naive_solver).
    set (key := LEDGER_KEY (KEY_OFFER s i)) in *.
    assert (∃ old mob, match mEntry t !! key with Some (Some e) => findInOrderBook e t | _ => Ok None end = Ok old ∧
      removeFromOrderBook old t = set_mMultiOrderBook mob t ∧ indexed mob (mEntry t) (λ k, k ≠ key ∧ idx k)) as (old & mob & -> & Hr & Hi).
    { destruct (mEntry t !! key) as [[e|]|] eqn:Ee; [by apply (remove_indexed t key e idx); eauto| |];
        (exists None, (mMultiOrderBook t); split; [done|]; split; [by rewrite set_book_eta|]); eapply indexed_iff; try exact H;
        intros k e o H1 _; (split; [|tauto]; intros Hk; split; [|done]; intros E; rewrite E in H1; congruence). }
    cbn [obind]. rewrite Hr. clear Hr old.
    apply (indexed_other _ _ (recorded key lePtr er (mEntry t)) _ key) in Hi; [|intros; by apply recorded_ne|tauto].
    destruct lePtr as [e|].
    + assert (er = false) as -> by (destruct er; [by discriminate Her|done]). destruct eff.
      * exists mob. split; [by destruct t|]. eapply indexed_iff; [|exact Hi]. intros k e' o' _ _. case_decide; naive_solver.
      * destruct (Hle e eq_refl) as [Ht Go]. destruct (key_offerArm _ _ _ Ht) as (o & Eo & _ & _). rewrite Eo. cbn [obind].
        eexists. split; [by destruct t|]. simpl. eapply indexed_iff; [|eapply (add_indexed _ _ idx key); try done].
        -- intros k e' o' _ _. case_decide; naive_solver.
        -- unfold recorded. by rewrite lookup_insert_eq.
    + exists mob. split; [by destruct t|]. eapply indexed_iff; [|exact Hi]. intros k e' o' H1 _. case_decide as Hk; [|naive_solver].
      subst. unfold recorded in H1. destruct er; [by rewrite Hk, lookup_delete_eq in H1|by rewrite Hk, lookup_insert_eq in H1].
  - exists (mMultiOrderBook t). split; [by destruct t|]. intros P. destruct (H P) as [Hs Hc]. split; [done|]. intros d k. rewrite Hc.
    case_decide as Hk; [|by rewrite recorded_ne].
    split; intros (_ & e & o & H1 & H2 & _); exfalso.
    + destruct (Hg _ _ H1) as [Ht _]. rewrite (offerArm_key _ _ H2), Hk in Ht. by rewrite <- Ht in Ek.
    + destruct (Hg' _ _ H1) as [Ht _]. rewrite (offerArm_key _ _ H2), Hk in Ht. by rewrite <- Ht in Ek.
Qed.
End Owners.

#[global] Arguments recorded : simpl never.
