(* ===== verification/LedgerTxnBest.v ===== *)
(** * The best offer of a chain of transactions

    The entries that a transaction shows are those it has recorded, over those that
    its parent shows.  [getBestOffer] combines the index of each transaction with the
    best offers of its parent and skips what it knows to be recorded; it finds the
    best of the offers that the transaction shows. *)

From stdpp Require Import prelude list gmap sorting.
From Stdlib Require Import ZArith Lia.
From S2P Require Import Prelude Numeric Exchange LedgerEntries OfferOrder LedgerTxn LedgerTxnBook.
Local Open Scope Z_scope.

(** ** What a transaction shows *)

Notation Entries := (gmap InternalLedgerKey InternalLedgerEntry).

Definition overlay (ent : gmap InternalLedgerKey (option InternalLedgerEntry)) (v : Entries) : Entries :=
  merge (λ r o, match r with Some x => x | None => o end) ent v.

Lemma overlay_lookup ent v k : overlay ent v !! k = match ent !! k with Some x => x | None => v !! k end.
Proof. unfold overlay. rewrite lookup_merge. by destruct (ent !! k), (v !! k). Qed.

Fixpoint view (l : Ledger) : Entries :=
  match l with
  | Root r => rootEntries (r_database r)
  | Nested t mParent => overlay (mEntry t) (view mParent)
  end.

#[export] Instance LEDGER_KEY_inj : Inj eq eq LEDGER_KEY.
Proof. by intros x y [= ->]. Qed.

Lemma rootEntries_lookup db key :
  rootEntries db !! key = match key with LEDGER_KEY k => LEDGER_ENTRY <$> db !! k | _ => None end.
Proof.
  unfold rootEntries. destruct key as [k| |].
  - by rewrite (lookup_kmap LEDGER_KEY), lookup_fmap.
  - apply (lookup_kmap_None LEDGER_KEY). naive_solver.
  - apply (lookup_kmap_None LEDGER_KEY). naive_solver.
Qed.

Lemma getNewestVersion_view l k : getNewestVersion l k = view l !! k.
Proof.
  induction l as [r|t p IH]; simpl; [by rewrite rootEntries_lookup|]. rewrite overlay_lookup. by destruct (mEntry t !! k).
Qed.

(** ** The best of a set of entries *)

Definition after (w : option OfferDescriptor) (o : OfferEntry) : Prop :=
  match w with Some w => isBetterOffer w (descriptorOf o) = true | None => True end.

Definition isOffer (v : Entries) (P : AssetPair) (w : option OfferDescriptor) (k : InternalLedgerKey) (e : InternalLedgerEntry)
  (o : OfferEntry) : Prop := v !! k = Some e ∧ offerArm e = Ok o ∧ pairOf o = P ∧ after w o.

Notation better o o' := (isBetterOffer (descriptorOf o) (descriptorOf o') = true).

Definition IsBest (v : Entries) (P : AssetPair) (w : option OfferDescriptor) (r : option InternalLedgerEntry) : Prop :=
  match r with
  | None => ∀ k e o, ¬ isOffer v P w k e o
  | Some e => ∃ k o, isOffer v P w k e o ∧ ∀ k' e' o', isOffer v P w k' e' o' → k' = k ∨ better o o'
  end.

Section Owners.
Context (owner : Z → AccountID).

Definition goodView (v : Entries) : Prop := ∀ k e, v !! k = Some e → goodEntry owner k e.

Lemma goodView_overlay ent v : goodEntries owner ent → goodView v → goodView (overlay ent v).
Proof.
  intros He Hv k e. rewrite overlay_lookup. destruct (ent !! k) as [x|] eqn:E; [|apply Hv]. intros ->. by apply He.
Qed.

Lemma good_priced v P w k e o : goodView v → isOffer v P w k e o → priced (price (descriptorOf o)).
Proof. intros Hv (H1 & H2 & _). by destruct (proj2 (Hv _ _ H1) o H2). Qed.

Lemma better_trans a b c : priced (price a) → priced (price b) → priced (price c) →
  isBetterOffer a b = true → isBetterOffer b c = true → isBetterOffer a c = true.
Proof. intros Ha Hb Hc. rewrite !better_place by done. apply place_lt_trans. Qed.

Lemma better_irrefl a : priced (price a) → isBetterOffer a a = false.
Proof. intros Ha. rewrite not_better_place by done. rewrite placeCmp_refl. lia. Qed.

Lemma better_asym a b : priced (price a) → priced (price b) → isBetterOffer a b = true → isBetterOffer b a = false.
Proof. intros Ha Hb. rewrite better_place, not_better_place by done. rewrite (placeCmp_flip (place a)). lia. Qed.

(** Offers under different keys are comparable. *)
Lemma better_total v v' P P' w w' k k' e e' o o' :
  goodView v → goodView v' → isOffer v P w k e o → isOffer v' P' w' k' e' o' → k ≠ k' → isBetterOffer (descriptorOf o) (descriptorOf o') = false → better o' o.
Proof.
  intros Hv Hv' H H' Hk. pose proof (good_priced _ _ _ _ _ _ Hv H) as Hp. pose proof (good_priced _ _ _ _ _ _ Hv' H') as Hp'.
  rewrite not_better_place, better_place by done. rewrite (placeCmp_flip (place (descriptorOf o))).
  destruct (Z.eq_dec (placeCmp (place (descriptorOf o)) (place (descriptorOf o'))) 0) as [E|]; [|lia]. apply (cmp_eq placeCmp) in E.
  destruct H as (H1 & H2 & _), H' as (H1' & H2' & _). destruct Hk. eapply place_key; [by apply Hv|by apply Hv'|done..].
Qed.

Lemma IsBest_unique v P w r r' : goodView v → IsBest v P w r → IsBest v P w r' → r = r'.
Proof.
  intros Hv H H'. destruct r as [e|], r' as [e'|]; try done; simpl in H, H'.
  - destruct H as (k & o & Ho & Hb), H' as (k' & o' & Ho' & Hb'). destruct (Hb _ _ _ Ho') as [->|B1].
    { destruct Ho as [H _], Ho' as [H' _]. congruence. }
    destruct (Hb' _ _ _ Ho) as [->|B2]. { destruct Ho as [H _], Ho' as [H' _]. congruence. }
    rewrite (better_asym _ _ (good_priced _ _ _ _ _ _ Hv Ho) (good_priced _ _ _ _ _ _ Hv Ho') B1) in B2. done.
  - destruct H as (k & o & Ho & _). by destruct (H' _ _ _ Ho).
  - destruct H' as (k & o & Ho & _). by destruct (H _ _ _ Ho).
Qed.

Lemma offerIn_iff P w e : offerIn P w e = true ↔ ∃ o, offerArm e = Ok o ∧ pairOf o = P ∧ after w o.
Proof.
  unfold offerIn, after. destruct (offerArm e) as [o|f]; [|by split; [|intros (o & ? & _)]]. rewrite andb_true_iff, bool_decide_eq_true.
  split; [intros [H1 H2]; exists o; by destruct w|]. intros (o' & [= <-] & H1 & H2). split; [done|]. by destruct w.
Qed.

Lemma pick_spec v P w (l : list InternalLedgerEntry) :
  goodView v → (∀ e, e ∈ l → ∃ k o, isOffer v P w k e o) →
  match foldr pickBetter None l with
  | None => l = []
  | Some e => e ∈ l ∧ ∀ k o, isOffer v P w k e o → ∀ k' e' o', e' ∈ l → isOffer v P w k' e' o' → k' = k ∨ better o o'
  end.
Proof.
  intros Hv. induction l as [|x l IH]; intros Hl; [done|]. cbn [foldr]. specialize (IH (λ e He, Hl e (list_elem_of_further _ _ _ He))).
  assert (∀ e k k' o o', isOffer v P w k e o → isOffer v P w k' e o' → k' = k ∧ o' = o) as Hfun.
  { intros e k k' o o' (H1 & H2 & _) (H1' & H2' & _). rewrite H2 in H2'. injection H2' as ->.
    destruct (Hv _ _ H1) as [<- _], (Hv _ _ H1') as [<- _]. done. }
  destruct (foldr pickBetter None l) as [b|]; cbn [pickBetter].
  - destruct IH as [Hb IH]. destruct (Hl x ltac:(by left)) as (kx & ox & Hx). destruct (Hl b ltac:(by right)) as (kb & ob & Hbo).
    rewrite (proj1 (proj2 Hx)), (proj1 (proj2 Hbo)). destruct (isBetterOffer (descriptorOf ox) (descriptorOf ob)) eqn:E.
    + split; [by left|]. intros k o Ho k' e' o' He' Ho'. destruct (Hfun _ _ _ _ _ Hx Ho) as [-> ->].
      apply elem_of_cons in He' as [->|He']; [left; by destruct (Hfun _ _ _ _ _ Hx Ho') as [-> _]|].
      right. destruct (IH _ _ Hbo _ _ _ He' Ho') as [->|Hbet].
      * assert (e' = b) as -> by (destruct Ho' as [H _], Hbo as [H' _]; congruence). by destruct (Hfun _ _ _ _ _ Hbo Ho') as [_ ->].
      * eapply better_trans; [..|exact E|exact Hbet]; by eapply good_priced.
    + split; [by right|]. intros k o Ho k' e' o' He' Ho'. destruct (Hfun _ _ _ _ _ Hbo Ho) as [-> ->].
      apply elem_of_cons in He' as [->|He']; [|by eapply IH]. destruct (Hfun _ _ _ _ _ Hx Ho') as [-> ->].
      destruct (decide (kx = kb)) as [->|Hne]; [by left|right]. by eapply better_total.
  - subst l. split; [by left|]. intros k o Ho k' e' o' He' Ho'. apply list_elem_of_singleton in He' as ->.
    destruct (Hfun _ _ _ _ _ Ho Ho') as [-> _]. by left.
Qed.

Lemma bestOfferIn_spec v P w : goodView v → IsBest v P w (bestOfferIn v P w).
Proof.
  intros Hv. unfold bestOfferIn. set (l := filter (λ e, offerIn P w e = true) (map_to_list v).*2).
  assert (∀ e, e ∈ l ↔ ∃ k o, isOffer v P w k e o) as Hl.
  { intros e. subst l. rewrite list_elem_of_filter, list_elem_of_fmap, offerIn_iff. split.
    - intros ((o & H1 & H2 & H3) & [k x] & -> & Hk%elem_of_map_to_list). by exists k, o.
    - intros (k & o & H1 & H2 & H3 & H4). split; [eauto|]. exists (k, e). split; [done|by apply elem_of_map_to_list]. }
  pose proof (pick_spec v P w l Hv (λ e He, proj1 (Hl e) He)) as Hp. destruct (foldr pickBetter None l) as [e|]; simpl.
  - destruct Hp as [He Hp]. apply Hl in He as (k & o & Ho). exists k, o. split; [done|]. intros k' e' o' Ho'. eapply Hp; try done. apply Hl. eauto.
  - intros k e o Ho. eapply (not_elem_of_nil e). rewrite <- Hp. apply Hl. eauto.
Qed.
(** ** The loop over the offers of the parent *)

Definition live (ent : gmap InternalLedgerKey (option InternalLedgerEntry)) : Entries := omap id ent.

Lemma live_lookup ent k : live ent !! k = match ent !! k with Some x => x | None => None end.
Proof. unfold live. rewrite lookup_omap. by destruct (ent !! k). Qed.

(** The offers of the parent that come after a descriptor *)
Definition remaining (v : Entries) (P : AssetPair) (d : OfferDescriptor) : nat :=
  length (filter (λ e, offerIn P (Some d) e = true) (map_to_list v).*2).

Lemma remaining_size v P d : (remaining v P d ≤ size v)%nat.
Proof. unfold remaining. etrans; [apply length_filter|]. by rewrite length_fmap, length_map_to_list. Qed.

Lemma filter_length_le {A} (P Q : A → Prop) `{∀ x, Decision (P x)} `{∀ x, Decision (Q x)} (l : list A) :
  (∀ x, x ∈ l → P x → Q x) → (length (filter P l) ≤ length (filter Q l))%nat.
Proof.
  induction l as [|x l IH]; intros Himp; [done|]. rewrite !filter_cons. specialize (IH (λ y Hy, Himp y (list_elem_of_further _ _ _ Hy))).
  destruct (decide (P x)) as [HP|], (decide (Q x)) as [|HQ]; simpl; try lia. destruct HQ. apply Himp; [by left|done].
Qed.

Lemma filter_length_lt {A} (P Q : A → Prop) `{∀ x, Decision (P x)} `{∀ x, Decision (Q x)} (l : list A) y :
  (∀ x, x ∈ l → P x → Q x) → y ∈ l → Q y → ¬ P y → (length (filter P l) < length (filter Q l))%nat.
Proof.
  intros HPQ Hy HQ HP. induction l as [|x l IH]; [by apply elem_of_nil in Hy|]. rewrite !filter_cons.
  assert (∀ z, z ∈ l → P z → Q z) as HPQ' by (intros z Hz; apply HPQ; by right).
  pose proof (filter_length_le P Q l HPQ') as Hle. apply elem_of_cons in Hy as [->|Hy].
  - rewrite decide_False, decide_True by done. simpl. lia.
  - specialize (IH HPQ' Hy). destruct (decide (P x)) as [HPx|], (decide (Q x)) as [|HQx]; simpl; try lia. destruct HQx. apply HPQ; [by left|done].
Qed.

Lemma remaining_next v P d k e o :
  goodView v → priced (price d) → isOffer v P (Some d) k e o → (remaining v P (descriptorOf o) < remaining v P d)%nat.
Proof.
  intros Hv Hd H. pose proof (good_priced _ _ _ _ _ _ Hv H) as Hp. destruct H as (H1 & H2 & H3 & H4). simpl in H4.
  apply (filter_length_lt _ _ _ e).
  - intros x Hx. rewrite !offerIn_iff. intros (o' & E & EP & Ha). exists o'. split; [done|]. split; [done|]. simpl in *.
    apply list_elem_of_fmap in Hx as ([k' e'] & -> & Hk%elem_of_map_to_list). destruct (proj2 (Hv _ _ Hk) o' E) as [Hp' _].
    by apply (better_trans d (descriptorOf o)).
  - apply list_elem_of_fmap. exists (k, e). split; [done|]. by apply elem_of_map_to_list.
  - apply offerIn_iff. eauto.
  - rewrite offerIn_iff. intros (o' & E & _ & Ha). rewrite H2 in E. injection E as <-. simpl in Ha. rewrite better_irrefl in Ha; done.
Qed.

Section Loop.
Context (t : Impl) (v : Entries) (P : AssetPair) (w : option OfferDescriptor).
Context (next : OfferDescriptor → LT (option InternalLedgerEntry)) (selfBest : option InternalLedgerEntry).
Hypothesis Hent : goodEntries owner (mEntry t).
Hypothesis Hv : goodView v.
Hypothesis Hw : ∀ d, w = Some d → priced (price d).
Hypothesis Hnext : ∀ d, priced (price d) → ∃ r, next d = Ok r ∧ IsBest v P (Some d) r.
Hypothesis Hself : IsBest (live (mEntry t)) P w selfBest.

(** What [parentBest] is: no offer of the parent that is not recorded is better. *)
Definition parentOk (parentBest : option InternalLedgerEntry) : Prop :=
  match parentBest with
  | None => ∀ k e o, isOffer v P w k e o → mEntry t !! k ≠ None
  | Some b => ∃ kb ob, isOffer v P w kb b ob ∧ ∀ k e o, isOffer v P w k e o → mEntry t !! k = None → k = kb ∨ better ob o
  end.

Lemma good_live : goodView (live (mEntry t)).
Proof. intros k e. rewrite live_lookup. destruct (mEntry t !! k) as [x|] eqn:E; [|done]. intros ->. by apply Hent. Qed.

(** An offer that the transaction shows is recorded, or an offer of the parent. *)
Lemma shown_cases k e o :
  isOffer (overlay (mEntry t) v) P w k e o → isOffer (live (mEntry t)) P w k e o ∨ mEntry t !! k = None ∧ isOffer v P w k e o.
Proof.
  intros (H1 & H2). rewrite overlay_lookup in H1. destruct (mEntry t !! k) as [x|] eqn:E; [left|right]; [|done]. split; [|done].
  by rewrite live_lookup, E.
Qed.

Lemma live_shown k e o : isOffer (live (mEntry t)) P w k e o → isOffer (overlay (mEntry t) v) P w k e o.
Proof. intros (H1 & H2). split; [|done]. rewrite live_lookup in H1. rewrite overlay_lookup. by destruct (mEntry t !! k). Qed.

Lemma parent_shown k e o : isOffer v P w k e o → mEntry t !! k = None → isOffer (overlay (mEntry t) v) P w k e o.
Proof. intros (H1 & H2) H. split; [|done]. by rewrite overlay_lookup, H. Qed.

(** The recorded best is the best when it is better than the parent's. *)
Lemma self_wins parentBest :
  parentOk parentBest →
  (∀ b ob kb, parentBest = Some b → isOffer v P w kb b ob →
     ∃ s os ks, selfBest = Some s ∧ isOffer (live (mEntry t)) P w ks s os ∧ isBetterOffer (descriptorOf ob) (descriptorOf os) = false) →
  IsBest (overlay (mEntry t) v) P w selfBest.
Proof.
  intros Hp Hb. destruct parentBest as [b|].
  - destruct Hp as (kb & ob & Hbo & Hp). destruct (Hb b ob kb eq_refl Hbo) as (s & os & ks & -> & Hs & Hns). destruct Hself as (k' & o' & Hs' & Hmin).
    assert (ks = k' ∧ os = o') as [-> ->].
    { destruct Hs as (H1 & H2 & _), Hs' as (H1' & H2' & _). rewrite H2 in H2'. injection H2' as ->.
      destruct (good_live _ _ H1) as [<- _], (good_live _ _ H1') as [<- _]. done. }
    exists k', o'. split; [by apply live_shown|]. intros k e o [Ho|[Hn Ho]]%shown_cases; [by eapply Hmin|]. right.
    assert (∀ k0, mEntry t !! k0 = None → k' ≠ k0) as Hrec.
    { intros k0 H0 ->. destruct Hs as [Hs _]. by rewrite live_lookup, H0 in Hs. }
    destruct (Hp k e o Ho Hn) as [->|Hbet].
    + assert (o = ob) as -> by (destruct Ho as (H1 & H2 & _), Hbo as (H1' & H2' & _); congruence).
      by eapply (better_total v (live (mEntry t))); [exact Hv|exact good_live|exact Hbo|exact Hs|apply not_eq_sym, Hrec, Hn|].
    + assert (priced (price (descriptorOf o')) ∧ priced (price (descriptorOf ob)) ∧ priced (price (descriptorOf o))) as (P1 & P2 & P3)
        by (split_and!; [by eapply (good_priced _ _ _ _ _ _ good_live)|by eapply (good_priced v)..]).
      rewrite better_place in Hbet |- * by done. rewrite not_better_place in Hns by done.
      destruct (Z.eq_dec (placeCmp (place (descriptorOf ob)) (place (descriptorOf o'))) 0) as [E%(cmp_eq placeCmp)|]; [by rewrite <- E|].
      eapply place_lt_trans; [|exact Hbet]. rewrite (placeCmp_flip (place (descriptorOf ob))). lia.
  - assert (∀ k e o, isOffer (overlay (mEntry t) v) P w k e o → isOffer (live (mEntry t)) P w k e o) as Hall.
    { intros k e o [Ho|[Hn Ho]]%shown_cases; [done|]. by destruct (Hp _ _ _ Ho). }
    destruct selfBest as [s|]; simpl in *.
    + destruct Hself as (k & o & Hs & Hmin). exists k, o. split; [by apply live_shown|]. intros k' e' o' Ho. by eapply Hmin, Hall.
    + intros k e o Ho. by eapply Hself, Hall.
Qed.

Lemma bestOfferLoop_ok fuel parentBest :
  parentOk parentBest →
  (1 ≤ fuel)%nat → (∀ b ob, parentBest = Some b → offerArm b = Ok ob → (remaining v P (descriptorOf ob) + 1 < fuel)%nat) →
  ∃ r, bestOfferLoop t next selfBest fuel parentBest = Ok r ∧ IsBest (overlay (mEntry t) v) P w r.
Proof.
  revert parentBest. induction fuel as [|fuel IH]; intros parentBest Hp Hf Hr; [lia|]. cbn [bestOfferLoop].
  destruct parentBest as [b|]; [|exists selfBest; split; [done|]; by eapply self_wins].
  pose proof Hp as (kb & ob & Hbo & Hmin). pose proof Hbo as (Hk & Eb & EP & Ha). rewrite Eb. cbn [obind].
  specialize (Hr b ob eq_refl Eb). assert (toKey b = kb) as -> by apply (Hv _ _ Hk).
  pose proof (good_priced _ _ _ _ _ _ Hv Hbo) as Hpb.
  assert ((∀ s, selfBest = Some s → ∃ ks os, isOffer (live (mEntry t)) P w ks s os ∧ ∀ k' e' o', isOffer (live (mEntry t)) P w k' e' o' → k' = ks ∨ better os o')) as Hs.
  { intros s ->. destruct Hself as (ks & os & H1 & H2). eauto. }
  set (isBest := match selfBest with None => true | Some s => match offerArm s with Ok os => isBetterOffer (descriptorOf ob) (descriptorOf os) | _ => false end end).
  assert ((match selfBest with None => Ok true | Some s => let? os := offerArm s in isBetterEntry ob os end) = Ok isBest) as ->.
  { subst isBest. destruct selfBest as [s|]; [|done]. destruct (Hs s eq_refl) as (ks & os & (H1 & H2 & H3 & H4) & _). rewrite H2. cbn [obind].
    unfold isBetterEntry. rewrite <- EP in H3. injection H3 as H3 H3'. unfold checkT. by rewrite !bool_decide_eq_true_2. }
  cbn [obind]. destruct isBest eqn:Ebest; subst isBest.
  - destruct (mEntry t !! kb) as [x|] eqn:Ex.
    + destruct (Hnext (descriptorOf ob) Hpb) as (r & -> & Hbest). cbn [obind]. apply IH; [|lia|].
      * destruct r as [r|]; simpl in Hbest |- *.
        -- destruct Hbest as (kr & or & Hro & Hrm). exists kr, or. pose proof Hro as (R1 & R2 & R3 & R4). split.
           { split_and!; try done. destruct w as [d|]; [|done]. simpl in Ha, R4 |- *. apply (better_trans d (descriptorOf ob)); [by apply Hw|exact Hpb|by eapply good_priced|done..]. }
           intros k e o Ho Hn. destruct (Hmin k e o Ho Hn) as [->|Hbet]; [congruence|]. apply (Hrm k e o). destruct Ho as (O1 & O2 & O3 & O4). done.
        -- intros k e o Ho Hn. destruct (Hmin k e o Ho Hn) as [->|Hbet]; [congruence|]. apply (Hbest k e o). destruct Ho as (O1 & O2 & O3 & O4). done.
      * intros r' or -> Er. destruct Hbest as (kr & or' & Hro & _). pose proof (remaining_next v P _ kr r' or' Hv Hpb Hro) as Hlt.
        destruct Hro as (_ & R2 & _). rewrite Er in R2. injection R2 as <-. lia.
    + exists (Some b). split; [done|]. exists kb, ob. split; [by apply parent_shown|]. intros k e o [Ho|[Hn Ho]]%shown_cases; [|by apply (Hmin k e o)].
      right. destruct selfBest as [s|]; [|by destruct (Hself _ _ _ Ho)]. destruct (Hs s eq_refl) as (ks & os & Hso & Hsm).
      rewrite (proj1 (proj2 Hso)) in Ebest. destruct (Hsm _ _ _ Ho) as [->|Hbet].
      * assert (o = os) as -> by (destruct Ho as (H1 & H2 & _), Hso as (H1' & H2' & _); congruence). done.
      * apply (better_trans _ (descriptorOf os)); [exact Hpb|by eapply (good_priced _ _ _ _ _ _ good_live)..|exact Ebest|exact Hbet].
  - exists selfBest. split; [done|]. apply (self_wins (Some b) Hp). intros b' ob' kb' [= <-] Hbo'.
    assert (ob' = ob) as -> by (destruct Hbo' as (_ & E & _); congruence). destruct selfBest as [s|]; [|done].
    destruct (Hs s eq_refl) as (ks & os & Hso & _). exists s, os, ks. split_and!; try done. by rewrite (proj1 (proj2 Hso)) in Ebest.
Qed.
End Loop.
End Owners.
