(* ===== verification/LedgerTxnInv.v ===== *)
(** * The invariant of a chain of transactions

    What holds of each transaction of a chain relative to the entries that its parent
    shows, and the best offer under the invariant. *)

From stdpp Require Import prelude list gmap sorting.
From Stdlib Require Import ZArith Lia.
From S2P Require Import Prelude Numeric Exchange LedgerEntries OfferOrder LedgerTxn LedgerTxnBook LedgerTxnBest.
Local Open Scope Z_scope.

Section Owners.
Context (owner : Z → AccountID).

Definition notAfter (w : option OfferDescriptor) (o : OfferEntry) : Prop :=
  match w with Some w => isBetterOffer w (descriptorOf o) = false | None => True end.

(** The worst best offers: the offers of the parent that are not worse are recorded. *)
Definition worstOk (wbo : gmap AssetPair (option OfferDescriptor)) (ent : gmap InternalLedgerKey (option InternalLedgerEntry))
  (v : Entries) : Prop :=
  ∀ P w, wbo !! P = Some w → (∀ d, w = Some d → priced (price d)) ∧
    ∀ k e o, isOffer v P None k e o → notAfter w o → ent !! k ≠ None.

(** A transaction over a parent that shows [v] *)
Record TInv (t : Impl) (v : Entries) : Prop := {
  inv_good : goodEntries owner (mEntry t);
  inv_exact : mConsistency t = EXACT → ∀ k, mEntry t !! k = Some None → v !! k ≠ None;
  inv_worst : worstOk (mWorstBestOffer t) (mEntry t) v;
  inv_active : ∀ k, mActive t !! k = Some EntryImpl → ∃ e, mEntry t !! k = Some (Some e);
  inv_const : ∀ k e, mActive t !! k = Some (ConstEntryImpl e) → overlay (mEntry t) v !! k = Some e;
  inv_book : mIsSealed t = false → indexed (mMultiOrderBook t) (mEntry t) (λ k, mActive t !! k = None);
  inv_sealed : mIsSealed t = true → mActive t = ∅ ∧ mActiveHeader t = false
}.

Definition isParent (l : Ledger) : Prop :=
  match l with
  | Root r => r_child r = true
  | Nested t _ => mChild t = true ∧ mIsSealed t = false ∧ mActive t = ∅ ∧ mActiveHeader t = false
  end.

Fixpoint LInv (l : Ledger) : Prop :=
  match l with
  | Root r => goodView owner (rootEntries (r_database r))
  | Nested t mParent => TInv t (view mParent) ∧ isParent mParent ∧ LInv mParent
  end.

(** The innermost transaction has no child. *)
Definition isTop (l : Ledger) : Prop :=
  match l with Root r => r_child r = false | Nested t _ => mChild t = false end.

Definition Inv (l : Ledger) : Prop := LInv l ∧ isTop l.

Lemma LInv_good l : LInv l → goodView owner (view l).
Proof.
  induction l as [r|t p IH]; simpl; [done|]. intros (H1 & _ & H3). apply goodView_overlay; [apply H1|auto].
Qed.

(** ** The index and the recorded offers *)

Lemma book_live mob ent P k e o :
  indexed mob ent (λ _, True) → goodEntries owner ent →
  isOffer (live ent) P None k e o ↔
  ∃ lk, k = LEDGER_KEY lk ∧ (descriptorOf o, lk) ∈ default [] (mob !! P) ∧ ent !! k = Some (Some e) ∧ offerArm e = Ok o.
Proof.
  intros H Hg. destruct (H P) as [_ Hc]. unfold isOffer. rewrite live_lookup. split.
  - intros (H1 & H2 & H3 & _). destruct (ent !! k) as [x|] eqn:E; [|done]. subst x. destruct (Hg _ _ E) as [Hk _]. rewrite (offerArm_key _ _ H2) in Hk.
    exists (KEY_OFFER (o_sellerID o) (o_offerID o)). split_and!; try done. apply Hc. split; [done|]. rewrite Hk. eauto 7.
  - intros (lk & -> & H1 & H2 & H3). rewrite H2. split_and!; try done. apply Hc in H1 as (_ & e' & o' & H4 & H5 & H6 & H7).
    rewrite H2 in H4. injection H4 as <-. rewrite H3 in H5. by injection H5 as <-.
Qed.

Lemma indexed_all t : mActive t = ∅ → indexed (mMultiOrderBook t) (mEntry t) (λ k, mActive t !! k = None) →
  indexed (mMultiOrderBook t) (mEntry t) (λ _, True).
Proof. intros E. apply indexed_iff. intros. by rewrite E, lookup_empty. Qed.

Lemma bookEntry_elem t P x :
  indexed (mMultiOrderBook t) (mEntry t) (λ _, True) → x ∈ default [] (mMultiOrderBook t !! P) →
  ∃ e o, bookEntry t (Some x) = Ok (Some e) ∧ mEntry t !! LEDGER_KEY x.2 = Some (Some e) ∧ offerArm e = Ok o ∧ pairOf o = P ∧ descriptorOf o = x.1.
Proof.
  intros H Hx. destruct x as [d k]. apply (H P) in Hx as (_ & e & o & H1 & H2 & H3 & H4). exists e, o. simpl. by rewrite H1.
Qed.

Lemma book_best t P w x :
  indexed (mMultiOrderBook t) (mEntry t) (λ _, True) → goodEntries owner (mEntry t) →
  match x with
  | Some x => x ∈ default [] (mMultiOrderBook t !! P) ∧ (∀ d, w = Some d → isBetterOffer d x.1 = true) ∧
      ∀ y, y ∈ default [] (mMultiOrderBook t !! P) → (∀ d, w = Some d → isBetterOffer d y.1 = true) → y = x ∨ isBetterOffer x.1 y.1 = true
  | None => ∀ y, y ∈ default [] (mMultiOrderBook t !! P) → ¬ (∀ d, w = Some d → isBetterOffer d y.1 = true)
  end →
  ∃ r, bookEntry t x = Ok r ∧ IsBest (live (mEntry t)) P w r.
Proof.
  intros H Hg Hx.
  assert (∀ k e o, isOffer (live (mEntry t)) P w k e o → isOffer (live (mEntry t)) P None k e o ∧ (∀ d, w = Some d → isBetterOffer d (descriptorOf o) = true)) as Hw.
  { intros k e o (H1 & H2 & H3 & H4). split; [done|]. by intros d ->. }
  destruct x as [x|].
  - destruct Hx as (Hin & Hb & Hmin). destruct (bookEntry_elem t P x H Hin) as (e & o & -> & H1 & H2 & H3 & H4). eexists. split; [done|].
    exists (LEDGER_KEY x.2), o. split.
    { split; [by rewrite live_lookup, H1|]. split_and!; try done. destruct w as [d|]; [|done]. simpl. rewrite H4. by apply Hb. }
    intros k' e' o' [Ho' Hb']%Hw. apply (book_live _ _ _ _ _ _ H Hg) in Ho' as (lk & -> & H5 & _). destruct (Hmin _ H5 Hb') as [<-|?]; [by left|right].
    by rewrite H4.
  - exists None. split; [done|]. intros k e o [Ho Hb]%Hw. apply (book_live _ _ _ _ _ _ H Hg) in Ho as (lk & -> & H5 & _). by apply (Hx _ H5).
Qed.

Lemma selfBest_worse t P d :
  indexed (mMultiOrderBook t) (mEntry t) (λ _, True) → goodEntries owner (mEntry t) → priced (price d) →
  ∃ r, bookEntry t (match mMultiOrderBook t !! P with Some offers => obUpperBound d offers | None => None end) = Ok r ∧
    IsBest (live (mEntry t)) P (Some d) r.
Proof.
  intros H Hg Hd. apply book_best; [done|done|]. destruct (H P) as [Hs _]. pose proof (obUpperBound_spec d _ Hd Hs) as Hu.
  replace (match mMultiOrderBook t !! P with Some offers => obUpperBound d offers | None => None end)
    with (obUpperBound d (default [] (mMultiOrderBook t !! P))) by (by destruct (mMultiOrderBook t !! P)).
  destruct (obUpperBound d _) as [x|].
  - destruct Hu as (H1 & H2 & H3). split_and!; [done|by intros ? [= <-]|]. intros y Hy Hb. apply H3; [done|by apply Hb].
  - intros y Hy Hb. specialize (Hb d eq_refl). by rewrite (Hu y Hy) in Hb.
Qed.

Lemma selfBest_first t P :
  indexed (mMultiOrderBook t) (mEntry t) (λ _, True) → goodEntries owner (mEntry t) →
  ∃ r, bookEntry t (match mMultiOrderBook t !! P with Some offers => head offers | None => None end) = Ok r ∧
    IsBest (live (mEntry t)) P None r.
Proof.
  intros H Hg. apply book_best; [done|done|]. destruct (H P) as [Hs _]. pose proof (head_spec _ Hs) as Hu.
  replace (match mMultiOrderBook t !! P with Some offers => head offers | None => None end)
    with (head (default [] (mMultiOrderBook t !! P))) by (by destruct (mMultiOrderBook t !! P)).
  destruct (head _) as [x|].
  - destruct Hu as [H1 H2]. split_and!; [done|done|]. intros y Hy _. by apply H2.
  - intros y Hy. rewrite Hu in Hy. by apply elem_of_nil in Hy.
Qed.

(** ** The best offer *)

(** Enough fuel for the loops over the offers of each parent *)
Fixpoint bookFuel (l : Ledger) : nat :=
  match l with
  | Root _ => 0
  | Nested _ mParent => 3 + size (view mParent) + bookFuel mParent
  end.

Definition quiet (l : Ledger) : Prop :=
  match l with Root _ => True | Nested t _ => mIsSealed t = false ∧ mActive t = ∅ end.

Lemma parent_quiet l : isParent l → quiet l.
Proof. destruct l; simpl; [done|tauto]. Qed.

Lemma getBestOfferWorse_ok l P fuel : LInv l → quiet l → (bookFuel l ≤ fuel)%nat →
  ∀ d, priced (price d) → ∃ r, getBestOfferWorse fuel l P d = Ok r ∧ IsBest (view l) P (Some d) r.
Proof.
  induction l as [r|t p IH]; intros HL Hq Hf d Hd.
  - eexists. split; [done|]. by apply (bestOfferIn_spec owner).
  - destruct HL as (Ht & Hp & HL), Hq as [Hs Ha]. simpl in Hf. specialize (IH HL (parent_quiet _ Hp) ltac:(lia)).
    pose proof (indexed_all t Ha (inv_book _ _ Ht Hs)) as Hi. pose proof (inv_good _ _ Ht) as Hg. pose proof (LInv_good _ HL) as Hv.
    destruct (selfBest_worse t P d Hi Hg Hd) as (s & Es & Hself). destruct (IH d Hd) as (b & Eb & Hb).
    cbn [getBestOfferWorse]. unfold throwIfActive, checkT. rewrite bool_decide_eq_true_2 by done. cbn [obind]. rewrite Es. cbn [obind]. rewrite Eb. cbn [obind view].
    apply (bestOfferLoop_ok owner t (view p) P (Some d)); try done.
    + by intros d' [= <-].
    + destruct b as [b|]; simpl in Hb |- *; [|by intros k e o Ho; destruct (Hb k e o)]. destruct Hb as (kb & ob & H1 & H2). exists kb, ob. split; [done|].
      intros k e o Ho _. by apply (H2 k e o).
    + lia.
    + intros. pose proof (remaining_size (view p) P (descriptorOf ob)). lia.
Qed.

Lemma getBestOffer_ok l P fuel : LInv l → quiet l → (bookFuel l ≤ fuel)%nat →
  ∃ r, getBestOffer fuel l P = Ok r ∧ IsBest (view l) P None r.
Proof.
  induction l as [r|t p IH]; intros HL Hq Hf.
  - eexists. split; [done|]. by apply (bestOfferIn_spec owner).
  - destruct HL as (Ht & Hp & HL), Hq as [Hs Ha]. simpl in Hf. specialize (IH HL (parent_quiet _ Hp) ltac:(lia)).
    pose proof (indexed_all t Ha (inv_book _ _ Ht Hs)) as Hi. pose proof (inv_good _ _ Ht) as Hg. pose proof (LInv_good _ HL) as Hv.
    pose proof (getBestOfferWorse_ok p P fuel HL (parent_quiet _ Hp) ltac:(lia)) as Hworse.
    destruct (selfBest_first t P Hi Hg) as (s & Es & Hself).
    cbn [getBestOffer]. unfold throwIfActive, checkT. rewrite bool_decide_eq_true_2 by done. cbn [obind]. rewrite Es. cbn [obind view].
    assert (∃ b, (match mWorstBestOffer t !! P with Some (Some w) => getBestOfferWorse fuel p P w | Some None => Ok None | None => getBestOffer fuel p P end) = Ok b
      ∧ parentOk t (view p) P None b) as (b & -> & Hpo).
    { destruct (mWorstBestOffer t !! P) as [[d|]|] eqn:Ew.
      - destruct (inv_worst _ _ Ht P _ Ew) as [Hd Hrec]. destruct (Hworse d (Hd d eq_refl)) as (b & -> & Hb). exists b. split; [done|].
        assert (∀ k e o, isOffer (view p) P None k e o → mEntry t !! k = None → isOffer (view p) P (Some d) k e o) as Hun.
        { intros k e o Ho Hn. destruct Ho as (H1 & H2 & H3 & _). split_and!; try done. simpl. destruct (isBetterOffer d (descriptorOf o)) eqn:E; [done|].
          by destruct (Hrec k e o). }
        destruct b as [b|]; simpl in Hb |- *.
        + destruct Hb as (kb & ob & (H1 & H2 & H3 & _) & H5). exists kb, ob. split; [done|]. intros k e o Ho Hn. by apply (H5 k e o), Hun.
        + intros k e o Ho Hn. by apply (Hb k e o), Hun.
      - destruct (inv_worst _ _ Ht P _ Ew) as [_ Hrec]. exists None. split; [done|]. intros k e o Ho. by apply (Hrec k e o).
      - destruct IH as (b & -> & Hb). exists b. split; [done|]. destruct b as [b|]; simpl in Hb |- *; [|by intros k e o Ho; destruct (Hb k e o)].
        destruct Hb as (kb & ob & H1 & H2). exists kb, ob. split; [done|]. intros k e o Ho _. by apply (H2 k e o). }
    cbn [obind]. apply (bestOfferLoop_ok owner t (view p) P None); try done.
    + lia.
    + intros. pose proof (remaining_size (view p) P (descriptorOf ob)). lia.
Qed.

Lemma getBestOffer_best l P : LInv l → quiet l → getBestOffer (bookFuel l) l P = Ok (bestOfferIn (view l) P None).
Proof.
  intros HL Hq. destruct (getBestOffer_ok l P (bookFuel l) HL Hq ltac:(done)) as (r & -> & Hr). f_equal.
  eapply (IsBest_unique owner); [by apply LInv_good|exact Hr|]. apply (bestOfferIn_spec owner). by apply LInv_good.
Qed.
End Owners.
