(* ===== verification/LedgerTxnSpec.v ===== *)
(** * Nested transactions as copies of a map

    The contract of LedgerTxn.cpp: a transaction is a copy of all the entries that its
    parent shows, which it changes and gives back when it commits; the best offer is
    found by looking at all of them.  A transaction remembers which keys it has
    recorded, because their entries are stamped with the number of the ledger.  Events
    are the calls that a client makes; the same ones drive the code
    ([step]) and the contract ([sstep]). *)

From stdpp Require Import prelude list gmap.
From Stdlib Require Import ZArith Lia.
From S2P Require Import Prelude Numeric Exchange LedgerEntries OfferOrder LedgerTxn LedgerTxnBook LedgerTxnBest LedgerTxnInv.
Local Open Scope Z_scope.

(** ** Events *)

Inductive LtxEvent : Type :=
| EvOpen (iter : ∀ A : Type, list A → list A) (shouldUpdateLastModified : bool)
| EvCommit (iter : ∀ A : Type, list A → list A)
| EvRollback (inner : nat)
| EvCreate (e : InternalLedgerEntry)
| EvCreateOrUpdate (e : InternalLedgerEntry)
| EvErase (key : InternalLedgerKey)
| EvEraseWithoutLoading (key : InternalLedgerKey)
| EvLoad (key : InternalLedgerKey)
| EvLoadWithoutRecord (key : InternalLedgerKey)
| EvCurrent (key : InternalLedgerKey)
| EvAssign (key : InternalLedgerKey) (f : InternalLedgerEntry → InternalLedgerEntry)
| EvDeactivate (key : InternalLedgerKey)
| EvEraseHandle (key : InternalLedgerKey)
| EvHeader
| EvLoadHeader
| EvAssignHeader (f : LedgerHeader → LedgerHeader)
| EvDeactivateHeader
| EvUnsealHeader (f : LedgerHeader → LedgerHeader)
| EvLoadBestOffer (assets : AssetPair)
| EvLoadAllOffers (iter : ∀ A : Type, list A → list A)
| EvLoadOffersByAccountAndAsset (iter : ∀ A : Type, list A → list A) (accountID : AccountID) (asset : Asset)
| EvGetChanges (iter : ∀ A : Type, list A → list A)
| EvGetDelta
| EvGetAllEntries (iter : ∀ A : Type, list A → list A).

Inductive Reply : Type :=
| RDone
| REntry (e : option InternalLedgerEntry)
| RHeader (h : LedgerHeader)
| RKeys (ks : gset LedgerKey).

(** ** The code *)

Definition onTop {A} (reply : A → Reply) (f : Impl → Ledger → LT (A * Impl)) (l : Ledger) : LT (Reply * Ledger) :=
  match l with
  | Root _ => Fail NoTransaction
  | Nested t mParent => let? r := f t mParent in Ok (reply r.1, Nested r.2 mParent)
  end.

Definition change (f : Impl → Ledger → LT Impl) (t : Impl) (mParent : Ledger) : LT (unit * Impl) :=
  let? t := f t mParent in Ok (tt, t).

Notation rdone := (λ _ : unit, RDone).

(** [rollback] of a transaction with [inner] transactions in it: they go first. *)
Fixpoint rollbackInner (inner : nat) (l : Ledger) : LT Ledger :=
  let? l := rollback l in
  match inner with O => Ok l | S inner => rollbackInner inner l end.

Definition step (ev : LtxEvent) (l : Ledger) : LT (Reply * Ledger) :=
  match ev with
  | EvOpen iter upd => let? l := newLedgerTxn iter upd l in Ok (RDone, l)
  | EvCommit iter => let? l := commit iter l in Ok (RDone, l)
  | EvRollback inner => let? l := rollbackInner inner l in Ok (RDone, l)
  | EvCreate e => onTop rdone (change (create e)) l
  | EvCreateOrUpdate e => onTop rdone (change (createOrUpdateWithoutLoading e)) l
  | EvErase key => onTop rdone (change (erase key)) l
  | EvEraseWithoutLoading key => onTop rdone (change (eraseWithoutLoading key)) l
  | EvLoad key => onTop REntry (load key) l
  | EvLoadWithoutRecord key => onTop REntry (loadWithoutRecord key) l
  | EvCurrent key => onTop (λ e, REntry (Some e)) (λ t _, let? e := current key t in Ok (e, t)) l
  | EvAssign key f => onTop rdone (change (λ t _, assignCurrent key f t)) l
  | EvDeactivate key => onTop rdone (change (deactivateHandle key)) l
  | EvEraseHandle key => onTop rdone (change (eraseHandle key)) l
  | EvHeader => onTop RHeader (λ t _, Ok (mHeader t, t)) l
  | EvLoadHeader => onTop rdone (change (λ t _, loadHeader t)) l
  | EvAssignHeader f => onTop rdone (change (λ t _, assignHeader f t)) l
  | EvDeactivateHeader => onTop rdone (change (λ t _, deactivateHeader t)) l
  | EvUnsealHeader f => onTop rdone (change (λ t _, unsealHeader f t)) l
  | EvLoadBestOffer assets => onTop REntry (λ t mParent, loadBestOffer (bookFuel (Nested t mParent)) assets t mParent) l
  | EvLoadAllOffers iter => onTop (λ ks, RKeys (list_to_set ks)) (loadAllOffers iter) l
  | EvLoadOffersByAccountAndAsset iter a x => onTop (λ ks, RKeys (list_to_set ks)) (loadOffersByAccountAndAsset iter a x) l
  | EvGetChanges iter => onTop (λ _, RDone) (getChanges iter) l
  | EvGetDelta => onTop (λ _, RDone) getDelta l
  | EvGetAllEntries iter => onTop (λ _, RDone) (getAllEntries iter) l
  end.

(** ** The contract *)

Record STxn : Type := {
  s_view : Entries;
  s_recorded : gset InternalLedgerKey;
  s_active : gmap InternalLedgerKey EntryHandle;
  s_header : LedgerHeader;
  s_activeHeader : bool;
  s_update : bool;
  s_sealed : bool;
  s_consistency : LedgerTxnConsistency
}.

Inductive SLedger : Type :=
| SRoot (header : LedgerHeader) (db : gmap LedgerKey LedgerEntry)
| SNested (t : STxn) (parent : SLedger).

Definition sview (l : SLedger) : Entries :=
  match l with SRoot _ db => rootEntries db | SNested t _ => s_view t end.

Definition sheader (l : SLedger) : LedgerHeader :=
  match l with SRoot h _ => h | SNested t _ => s_header t end.

Definition withActive (a : gmap InternalLedgerKey EntryHandle) (t : STxn) : STxn :=
  {| s_view := s_view t; s_recorded := s_recorded t; s_active := a; s_header := s_header t; s_activeHeader := s_activeHeader t;
     s_update := s_update t; s_sealed := s_sealed t; s_consistency := s_consistency t |}.
Definition withHeader (h : LedgerHeader) (t : STxn) : STxn :=
  {| s_view := s_view t; s_recorded := s_recorded t; s_active := s_active t; s_header := h; s_activeHeader := s_activeHeader t;
     s_update := s_update t; s_sealed := s_sealed t; s_consistency := s_consistency t |}.
Definition withActiveHeader (b : bool) (t : STxn) : STxn :=
  {| s_view := s_view t; s_recorded := s_recorded t; s_active := s_active t; s_header := s_header t; s_activeHeader := b;
     s_update := s_update t; s_sealed := s_sealed t; s_consistency := s_consistency t |}.
Definition withConsistency (c : LedgerTxnConsistency) (t : STxn) : STxn :=
  {| s_view := s_view t; s_recorded := s_recorded t; s_active := s_active t; s_header := s_header t; s_activeHeader := s_activeHeader t;
     s_update := s_update t; s_sealed := s_sealed t; s_consistency := c |}.
Definition withEntries (v : Entries) (r : gset InternalLedgerKey) (t : STxn) : STxn :=
  {| s_view := v; s_recorded := r; s_active := s_active t; s_header := s_header t; s_activeHeader := s_activeHeader t;
     s_update := s_update t; s_sealed := s_sealed t; s_consistency := s_consistency t |}.
Definition withSeal (t : STxn) : STxn :=
  {| s_view := s_view t; s_recorded := s_recorded t; s_active := ∅; s_header := s_header t; s_activeHeader := false;
     s_update := s_update t; s_sealed := true; s_consistency := s_consistency t |}.

(** An entry is set and recorded. *)
Definition put (key : InternalLedgerKey) (e : InternalLedgerEntry) (t : STxn) : STxn :=
  withEntries (<[key := e]> (s_view t)) ({[key]} ∪ s_recorded t) t.

(** An entry is removed, which is only recorded when the parent shows it, unless the
    caller does not know. *)
Definition remove (key : InternalLedgerKey) (record : bool) (t : STxn) : STxn :=
  withEntries (delete key (s_view t)) (if record then {[key]} ∪ s_recorded t else s_recorded t ∖ {[key]}) t.

Definition stampEntries (t : STxn) : Entries :=
  if s_update t && negb (s_sealed t)
  then map_imap (λ k e, Some (if bool_decide (k ∈ s_recorded t) then stamp (ledgerSeq (s_header t)) e else e)) (s_view t)
  else s_view t.

(** Sponsorships are not kept in the database. *)
Definition ledgerEntries (v : Entries) : gmap LedgerKey LedgerEntry :=
  list_to_map (omap (λ kv, match kv with (LEDGER_KEY k, LEDGER_ENTRY e) => Some (k, e) | _ => None end) (map_to_list v)).

Definition sopen (upd : bool) (l : SLedger) : LT SLedger :=
  let? p := (match l with
             | SRoot _ _ => Ok l
             | SNested t p => let? _ := checkT (negb (s_sealed t)) IsSealed in Ok (SNested (withActiveHeader false (withActive ∅ t)) p)
             end) in
  Ok (SNested {| s_view := sview l; s_recorded := ∅; s_active := ∅; s_header := sheader l; s_activeHeader := false; s_update := upd;
                 s_sealed := false; s_consistency := EXACT |} p).

(** The parent takes the entries over, and records what the child has recorded, unless
    it is gone and the parent's parent does not show it either. *)
Definition scommit (l : SLedger) : LT SLedger :=
  match l with
  | SNested t (SRoot _ _) => Ok (SRoot (s_header t) (ledgerEntries (stampEntries t)))
  | SNested t (SNested p pp) =>
      let v := stampEntries t in
      let kept := filter (λ k, is_Some (v !! k) ∨ is_Some (sview pp !! k)) (s_recorded t) in
      Ok (SNested (withConsistency (joinConsistencyLevels (s_consistency p) (s_consistency t))
                     (withHeader (s_header t) (withEntries v ((s_recorded p ∖ s_recorded t) ∪ kept) p))) pp)
  | SRoot _ _ => Fail NoTransaction
  end.

Fixpoint srollback (inner : nat) (l : SLedger) : LT SLedger :=
  match l with
  | SRoot _ _ => Fail NoTransaction
  | SNested _ p => match inner with O => Ok p | S inner => srollback inner p end
  end.

Definition sOnTop {A} (reply : A → Reply) (f : STxn → Entries → LT (A * STxn)) (l : SLedger) : LT (Reply * SLedger) :=
  match l with
  | SRoot _ _ => Fail NoTransaction
  | SNested t p => let? r := f t (sview p) in Ok (reply r.1, SNested r.2 p)
  end.

Definition notSealed (t : STxn) : LT unit := checkT (negb (s_sealed t)) IsSealed.

Definition screate (e : InternalLedgerEntry) (t : STxn) (v : Entries) : LT (unit * STxn) :=
  let? _ := notSealed t in
  let? _ := checkT (isNull (s_view t !! toKey e)) KeyAlreadyExists in
  Ok (tt, withActive (<[toKey e := EntryImpl]> (s_active t)) (put (toKey e) e t)).

Definition screateOrUpdate (e : InternalLedgerEntry) (t : STxn) (v : Entries) : LT (unit * STxn) :=
  let? _ := notSealed t in
  let? _ := checkT (isNull (s_active t !! toKey e)) KeyIsActive in
  Ok (tt, put (toKey e) e t).

Definition serase (key : InternalLedgerKey) (t : STxn) (v : Entries) : LT (unit * STxn) :=
  let? _ := notSealed t in
  let? _ := checkT (negb (isNull (s_view t !! key))) KeyDoesNotExist in
  Ok (tt, withActive (delete key (s_active t)) (remove key (negb (isNull (v !! key))) t)).

Definition seraseWithoutLoading (key : InternalLedgerKey) (t : STxn) (v : Entries) : LT (unit * STxn) :=
  let? _ := notSealed t in
  Ok (tt, withConsistency EXTRA_DELETES (withActive (delete key (s_active t)) (remove key true t))).

Definition sload (key : InternalLedgerKey) (t : STxn) (v : Entries) : LT (option InternalLedgerEntry * STxn) :=
  let? _ := notSealed t in
  let? _ := checkT (isNull (s_active t !! key)) KeyIsActive in
  Ok (match s_view t !! key with
      | None => (None, t)
      | Some e => (Some e, withActive (<[key := EntryImpl]> (s_active t)) (put key e t))
      end).

Definition sloadWithoutRecord (key : InternalLedgerKey) (t : STxn) (v : Entries) : LT (option InternalLedgerEntry * STxn) :=
  let? _ := notSealed t in
  let? _ := checkT (isNull (s_active t !! key)) KeyIsActive in
  Ok (match s_view t !! key with
      | None => (None, t)
      | Some e => (Some e, withActive (<[key := ConstEntryImpl e]> (s_active t)) t)
      end).

(** A handle shows the entry. *)
Definition scurrent (key : InternalLedgerKey) (t : STxn) (v : Entries) : LT (InternalLedgerEntry * STxn) :=
  match s_active t !! key, s_view t !! key with
  | Some _, Some e => Ok (e, t)
  | _, _ => Fail EntryNotActive
  end.

Definition sassign (key : InternalLedgerKey) (f : InternalLedgerEntry → InternalLedgerEntry) (t : STxn) (v : Entries) : LT (unit * STxn) :=
  match s_active t !! key, s_view t !! key with
  | Some EntryImpl, Some e => Ok (tt, withEntries (<[key := f e]> (s_view t)) (s_recorded t) t)
  | _, _ => Fail EntryNotActive
  end.

Definition sdeactivate (key : InternalLedgerKey) (t : STxn) (v : Entries) : LT (unit * STxn) :=
  match s_active t !! key with
  | Some _ => Ok (tt, withActive (delete key (s_active t)) t)
  | None => Fail EntryNotActive
  end.

Definition seraseHandle (key : InternalLedgerKey) (t : STxn) (v : Entries) : LT (unit * STxn) :=
  match s_active t !! key with
  | Some EntryImpl => serase key t v
  | _ => Fail EntryNotActive
  end.

Definition sloadHeader (t : STxn) : LT (unit * STxn) :=
  let? _ := notSealed t in
  let? _ := checkT (negb (s_activeHeader t)) HeaderIsActive in
  Ok (tt, withActiveHeader true t).

Definition sassignHeader (f : LedgerHeader → LedgerHeader) (t : STxn) : LT (unit * STxn) :=
  let? _ := checkT (s_activeHeader t) HeaderIsNotActive in Ok (tt, withHeader (f (s_header t)) t).

Definition sdeactivateHeader (t : STxn) : LT (unit * STxn) :=
  let? _ := checkT (s_activeHeader t) HeaderIsNotActive in Ok (tt, withActiveHeader false t).

Definition sunsealHeader (f : LedgerHeader → LedgerHeader) (t : STxn) : LT (unit * STxn) :=
  let? _ := checkT (s_sealed t) NotSealed in Ok (tt, withHeader (f (s_header t)) t).

(** The best offer of all the entries *)
Definition sloadBestOffer (assets : AssetPair) (t : STxn) (v : Entries) : LT (option InternalLedgerEntry * STxn) :=
  let? _ := notSealed t in
  let? _ := checkT (bool_decide (s_active t = ∅)) ActiveEntriesWhenGettingBestOffer in
  match bestOfferIn (s_view t) assets None with
  | Some e => sload (toKey e) t v
  | None => Ok (None, t)
  end.

Definition offersOf (wanted : OfferEntry → bool) (v : Entries) : gmap LedgerKey LedgerEntry :=
  filter (λ kv, isWanted wanted kv.2 = true) (ledgerEntries v).

(** The offers that are wanted; none of them may be held. *)
Definition sloadOffers (queryOk : bool) (wanted : OfferEntry → bool) (t : STxn) (v : Entries) : LT (gset LedgerKey * STxn) :=
  let? _ := notSealed t in
  let? _ := checkT queryOk NativeAssetInQuery in
  let ks := dom (offersOf wanted (s_view t)) in
  let? _ := checkT (bool_decide (set_Forall (λ k, s_active t !! LEDGER_KEY k = None) ks)) KeyIsActive in
  let keys : gset InternalLedgerKey := set_map LEDGER_KEY ks in
  Ok (ks, withActive (gset_to_gmap EntryImpl keys ∪ s_active t) (withEntries (s_view t) (keys ∪ s_recorded t) t)).

Definition sseal (exact : bool) (t : STxn) : LT (unit * STxn) :=
  let? _ := checkT (negb exact || bool_decide (s_consistency t = EXACT)) NotExactConsistency in
  Ok (tt, withSeal (withEntries (stampEntries t) (s_recorded t) t)).

Definition sstep (ev : LtxEvent) (l : SLedger) : LT (Reply * SLedger) :=
  match ev with
  | EvOpen _ upd => let? l := sopen upd l in Ok (RDone, l)
  | EvCommit _ => let? l := scommit l in Ok (RDone, l)
  | EvRollback inner => let? l := srollback inner l in Ok (RDone, l)
  | EvCreate e => sOnTop rdone (screate e) l
  | EvCreateOrUpdate e => sOnTop rdone (screateOrUpdate e) l
  | EvErase key => sOnTop rdone (serase key) l
  | EvEraseWithoutLoading key => sOnTop rdone (seraseWithoutLoading key) l
  | EvLoad key => sOnTop REntry (sload key) l
  | EvLoadWithoutRecord key => sOnTop REntry (sloadWithoutRecord key) l
  | EvCurrent key => sOnTop (λ e, REntry (Some e)) (scurrent key) l
  | EvAssign key f => sOnTop rdone (sassign key f) l
  | EvDeactivate key => sOnTop rdone (sdeactivate key) l
  | EvEraseHandle key => sOnTop rdone (seraseHandle key) l
  | EvHeader => sOnTop RHeader (λ t _, Ok (s_header t, t)) l
  | EvLoadHeader => sOnTop rdone (λ t _, sloadHeader t) l
  | EvAssignHeader f => sOnTop rdone (λ t _, sassignHeader f t) l
  | EvDeactivateHeader => sOnTop rdone (λ t _, sdeactivateHeader t) l
  | EvUnsealHeader f => sOnTop rdone (λ t _, sunsealHeader f t) l
  | EvLoadBestOffer assets => sOnTop REntry (sloadBestOffer assets) l
  | EvLoadAllOffers _ => sOnTop RKeys (sloadOffers true (λ _, true)) l
  | EvLoadOffersByAccountAndAsset _ a x =>
      sOnTop RKeys (sloadOffers (bool_decide (x ≠ ASSET_TYPE_NATIVE)) (ofAccountAndAsset a x)) l
  | EvGetChanges _ => sOnTop rdone (λ t _, sseal true t) l
  | EvGetDelta => sOnTop rdone (λ t _, sseal true t) l
  | EvGetAllEntries _ => sOnTop rdone (λ t _, sseal false t) l
  end.
