(* ===== verification/LedgerTxnRefine.v ===== *)
(** * Transactions keep their contract: operations on the innermost one

    Each operation of the code does what the contract says on the entries that the
    transaction shows, fails when and how the contract says, and keeps the
    invariant. *)

From stdpp Require Import prelude list gmap sorting.
From Stdlib Require Import ZArith Lia.
From S2P Require Import Prelude Numeric Exchange LedgerEntries OfferOrder LedgerTxn LedgerTxnBook LedgerTxnBest LedgerTxnInv LedgerTxnSpec.
Local Open Scope Z_scope.

Definition absT (t : Impl) (v : Entries) : STxn :=
  {| s_view := overlay (mEntry t) v; s_recorded := dom (mEntry t); s_active := mActive t; s_header := mHeader t;
     s_activeHeader := mActiveHeader t; s_update := mShouldUpdateLastModified t; s_sealed := mIsSealed t;
     s_consistency := mConsistency t |}.

Fixpoint abs (l : Ledger) : SLedger :=
  match l with
  | Root r => SRoot (r_header r) (r_database r)
  | Nested t mParent => SNested (absT t (view mParent)) (abs mParent)
  end.

Lemma sview_abs l : sview (abs l) = view l.
Proof. by destruct l. Qed.

Lemma sheader_abs l : sheader (abs l) = getHeader l.
Proof. by destruct l. Qed.

(** ** Recording *)

Lemma overlay_recorded key le er ent v :
  (er = true → le = None ∧ v !! key = None) →
  overlay (recorded key le er ent) v = match le with Some e => <[key := e]> (overlay ent v) | None => delete key (overlay ent v) end.
Proof.
  intros Her. apply map_eq. intros k. rewrite overlay_lookup. destruct (decide (k = key)) as [->|Hk].
  - unfold recorded. destruct er.
    + destruct (Her eq_refl) as [-> Hv]. by rewrite !lookup_delete_eq.
    + rewrite lookup_insert_eq. destruct le; [by rewrite lookup_insert_eq|by rewrite lookup_delete_eq].
  - rewrite recorded_ne by done. destruct le; [rewrite lookup_insert_ne by done|rewrite lookup_delete_ne by done]; by rewrite overlay_lookup.
Qed.

Lemma dom_recorded key le er ent :
  dom (recorded key le er ent) = if er then dom ent ∖ {[key]} else {[key]} ∪ dom ent.
Proof. unfold recorded. destruct er; [apply dom_delete_L|apply dom_insert_L]. Qed.

Section Owners.
Context (owner : Z → AccountID).
Notation TInv := (TInv owner).
Notation LInv := (LInv owner).
Notation Inv := (Inv owner).

Definition afterRecord (key : InternalLedgerKey) (le : option InternalLedgerEntry) (er : bool) (mob : gmap AssetPair OrderBook) (t : Impl) : Impl :=
  set_mMultiOrderBook mob (set_mEntry (recorded key le er (mEntry t)) t).

(** The handles and the consistency may be set before or after the entry. *)
Lemma record_ok t v key le eff er act act0 cons :
  TInv t v → mIsSealed t = false → (∀ e, le = Some e → goodEntry owner key e) → (er = true → le = None ∧ v !! key = None) →
  (∀ k, k ≠ key → act !! k = mActive t !! k) → (eff = false ↔ act !! key = None) →
  (∀ h, act !! key = Some h → ∃ e, le = Some e ∧ (h = EntryImpl ∨ h = ConstEntryImpl e)) →
  (cons = EXACT → mConsistency t = EXACT ∧ (le = None → er = true ∨ v !! key ≠ None)) →
  ∃ mob, updateEntry key le eff er (set_mActive act0 t) = Ok (afterRecord key le er mob (set_mActive act0 t)) ∧
    TInv (set_mConsistency cons (set_mActive act (afterRecord key le er mob t))) v.
Proof.
  intros [Hg He Hw Ha Hc Hb Hs] Hns Hle Her Hact Heff Hh Hcons.
  destruct (updateEntry_spec owner key le eff er (set_mActive act0 t) _ (Hb Hns) Hg Hle (λ H, proj1 (Her H))) as (mob & E & Hi).
  exists mob. split; [exact E|]. simpl in Hi. split; simpl.
  - apply recorded_good; [done|done|]. by intros [? _]%Her.
  - intros Ec k Hk. destruct (Hcons Ec) as [Ec' Hn]. destruct (decide (k = key)) as [->|Hne].
    + unfold recorded in Hk. destruct er; [by rewrite lookup_delete_eq in Hk|]. rewrite lookup_insert_eq in Hk. injection Hk as ->. by destruct (Hn eq_refl).
    + rewrite recorded_ne in Hk by done. by apply He.
  - intros P w Hw'. destruct (Hw P w Hw') as [H1 H2]. split; [done|]. intros k e o Ho Hna. destruct (decide (k = key)) as [->|Hne].
    + unfold recorded. destruct er; [|by rewrite lookup_insert_eq]. destruct (Her eq_refl) as [_ Hv]. destruct Ho as [Ho _]. congruence.
    + rewrite recorded_ne by done. by apply (H2 k e o).
  - intros k Hk. destruct (decide (k = key)) as [->|Hne].
    + destruct (Hh _ Hk) as (e & -> & _). exists e. unfold recorded. destruct er; [by destruct (Her eq_refl) as [? _]|]. by rewrite lookup_insert_eq.
    + rewrite Hact in Hk by done. rewrite recorded_ne by done. by apply Ha.
  - intros k e Hk. rewrite overlay_recorded by done. destruct (decide (k = key)) as [->|Hne].
    + destruct (Hh _ Hk) as (e' & -> & [[=]|[= ->]]). by rewrite lookup_insert_eq.
    + rewrite Hact in Hk by done. destruct le; [rewrite lookup_insert_ne by done|rewrite lookup_delete_ne by done]; by apply Hc.
  - intros _. eapply indexed_iff; [|exact Hi]. intros k e o _ _. cbn beta. case_decide as Hk; [by rewrite Hk|]. by rewrite Hact.
  - intros H. congruence.
Qed.

Lemma set_active_eta t : set_mActive (mActive t) t = t.
Proof. by destruct t. Qed.

Lemma set_consistency_eta t : set_mConsistency (mConsistency t) t = t.
Proof. by destruct t. Qed.

(** ** Operations *)

(** [f] implements [g] on the innermost transaction. *)
Definition implements {A B} (ra : A → Reply) (rb : B → Reply) (f : Impl → Ledger → LT (A * Impl)) (g : STxn → Entries → LT (B * STxn)) : Prop :=
  ∀ t p, TInv t (view p) → mChild t = false → isParent p → LInv p →
    match f t p with
    | Ok (a, t') => ∃ b, g (absT t (view p)) (view p) = Ok (b, absT t' (view p)) ∧ ra a = rb b ∧ TInv t' (view p) ∧ mChild t' = false
    | Fail e => g (absT t (view p)) (view p) = Fail e
    end.

Lemma onTop_ok {A B} (ra : A → Reply) (rb : B → Reply) f g l :
  implements ra rb f g → Inv l →
  match onTop ra f l with
  | Ok (r, l') => sOnTop rb g (abs l) = Ok (r, abs l') ∧ Inv l'
  | Fail e => sOnTop rb g (abs l) = Fail e
  end.
Proof.
  intros H [HL Ht]. destruct l as [r|t p]; [done|]. destruct HL as (H1 & H2 & H3). simpl in Ht. specialize (H t p H1 Ht H2 H3).
  cbn [onTop sOnTop abs]. rewrite sview_abs. destruct (f t p) as [[a t']|e]; cbn [obind].
  - destruct H as (b & -> & Hr & H4 & H5). cbn [obind fst snd]. rewrite Hr. done.
  - by rewrite H.
Qed.
(** *** Entries *)

Lemma active_shown t v k : TInv t v → mActive t !! k ≠ None → overlay (mEntry t) v !! k ≠ None.
Proof.
  intros HT. destruct (mActive t !! k) as [[|e]|] eqn:E; [| |done]; intros _.
  - destruct (inv_active _ _ _ HT k E) as [e He]. by rewrite overlay_lookup, He.
  - by rewrite (inv_const _ _ _ HT k e E).
Qed.

Lemma emplace_None {V} key (x : V) m : m !! key = None → emplace key x m = <[key := x]> m.
Proof. unfold emplace. by intros ->. Qed.

Lemma after_eta act key le er mob t :
  afterRecord key le er mob (set_mActive act t) = set_mConsistency (mConsistency t) (set_mActive act (afterRecord key le er mob t)).
Proof. by destruct t. Qed.

Lemma newest_shown t p k : getNewestVersion (Nested t p) k = overlay (mEntry t) (view p) !! k.
Proof. apply (getNewestVersion_view (Nested t p)). Qed.

Lemma shown_good t p k e : TInv t (view p) → LInv p → overlay (mEntry t) (view p) !! k = Some e → goodEntry owner k e.
Proof. intros HT HL. apply (goodView_overlay owner); [apply HT|by apply (LInv_good owner)]. Qed.

(** The contract's view of a recorded entry *)
Lemma abs_put key e mob act t v :
  absT (set_mConsistency (mConsistency t) (set_mActive act (afterRecord key (Some e) false mob t))) v = withActive act (put key e (absT t v)).
Proof. unfold absT, withActive, put, withEntries. simpl. by rewrite overlay_recorded, dom_recorded. Qed.

Lemma abs_remove key er mob act cons t v :
  (er = true → v !! key = None) →
  absT (set_mConsistency cons (set_mActive act (afterRecord key None er mob t))) v =
  withConsistency cons (withActive act (remove key (negb er) (absT t v))).
Proof.
  intros Her. unfold absT, withActive, withConsistency, remove, withEntries. simpl. rewrite overlay_recorded, dom_recorded by auto. by destruct er.
Qed.

(** Recording an entry that exists, and holding it *)
Lemma put_ok t p key e act :
  TInv t (view p) → mIsSealed t = false → goodEntry owner key e →
  (∀ k, k ≠ key → act !! k = mActive t !! k) → (∀ h, act !! key = Some h → h = EntryImpl) →
  ∃ t', updateEntryOf p key (Some e) (set_mActive act t) = Ok t' ∧ absT t' (view p) = withActive act (put key e (absT t (view p))) ∧
    TInv t' (view p) ∧ mChild t' = mChild t ∧ mIsSealed t' = false ∧ mActive t' = act ∧ mWorstBestOffer t' = mWorstBestOffer t.
Proof.
  intros HT Hs Hg Hact Hh. unfold updateEntryOf, updateEntryActive. simpl.
  destruct (record_ok t (view p) key (Some e) (negb (isNull (act !! key))) false act act (mConsistency t)) as (mob & E & HT'); try done.
  - by intros x [= <-].
  - by destruct (act !! key).
  - intros h Eh. rewrite (Hh h Eh). eauto.
  - rewrite E, after_eta. eexists. split; [done|]. split; [apply abs_put|]. done.
Qed.

Ltac start t p HT Hc Hp HL :=
  intros t p HT Hc Hp HL; unfold change, notSealed, throwIfSealed, throwIfChild, checkT;
  rewrite ?Hc; cbn [absT s_sealed s_view s_active s_activeHeader s_header s_consistency negb];
  destruct (mIsSealed t) eqn:Hs; cbn [negb obind]; [by auto|].

Lemma create_ok e : goodEntry owner (toKey e) e → implements rdone rdone (change (create e)) (screate e).
Proof.
  intros Hg. unfold create, screate. start t p HT Hc Hp HL. rewrite newest_shown.
  destruct (overlay (mEntry t) (view p) !! toKey e) eqn:Ek; cbn [isNull obind]; [done|].
  assert (mActive t !! toKey e = None) as Hna. { destruct (mActive t !! toKey e) eqn:E; [|done]. by destruct (active_shown t (view p) (toKey e) HT); rewrite ?E. }
  rewrite emplace_None by done.
  destruct (put_ok t p (toKey e) e (<[toKey e := EntryImpl]> (mActive t)) HT Hs Hg) as (t' & -> & Ha & HT' & Hc' & _).
  - intros k Hk. by rewrite lookup_insert_ne.
  - rewrite lookup_insert_eq. by intros h [= <-].
  - cbn [obind]. eexists. rewrite Ha. split_and!; try done. congruence.
Qed.

Lemma createOrUpdate_ok e : goodEntry owner (toKey e) e → implements rdone rdone (change (createOrUpdateWithoutLoading e)) (screateOrUpdate e).
Proof.
  intros Hg. unfold createOrUpdateWithoutLoading, screateOrUpdate. start t p HT Hc Hp HL.
  destruct (mActive t !! toKey e) eqn:Ek; cbn [isNull obind]; [done|].
  destruct (put_ok t p (toKey e) e (mActive t) HT Hs Hg) as (t' & E & Ha & HT' & Hc' & _); [done|by rewrite Ek|].
  rewrite set_active_eta in E. rewrite E. cbn [obind]. eexists. rewrite Ha. split_and!; try done. congruence.
Qed.

Lemma delete_active {V} (m : gmap InternalLedgerKey V) key :
  (∀ k, k ≠ key → delete key m !! k = m !! k) ∧ delete key m !! key = None.
Proof. split; [intros k Hk; by rewrite lookup_delete_ne|apply lookup_delete_eq]. Qed.

Lemma erase_ok key : implements rdone rdone (change (erase key)) (serase key).
Proof.
  unfold erase, serase. start t p HT Hc Hp HL. rewrite newest_shown.
  destruct (overlay (mEntry t) (view p) !! key) eqn:Ek; cbn [isNull negb obind]; [|done].
  destruct (delete_active (mActive t) key) as [D1 D2]. unfold updateEntryActive. rewrite getNewestVersion_view. cbn [isNull andb].
  destruct (record_ok t (view p) key None false (isNull (view p !! key)) (delete key (mActive t)) (mActive t) (mConsistency t)) as (mob & E & HT'); try done.
  - by destruct (view p !! key).
  - intros h Eh. congruence.
  - intros Hx. split; [done|]. intros _. destruct (view p !! key); [by right|by left].
  - rewrite set_active_eta in E. rewrite E. cbn [obind].
    assert (set_mActive (delete key (mActive (afterRecord key None (isNull (view p !! key)) mob t))) (afterRecord key None (isNull (view p !! key)) mob t) =
      set_mConsistency (mConsistency t) (set_mActive (delete key (mActive t)) (afterRecord key None (isNull (view p !! key)) mob t))) as -> by (by destruct t).
    eexists. rewrite abs_remove by (by destruct (view p !! key)). split_and!; done.
Qed.

Lemma eraseWithoutLoading_ok key : implements rdone rdone (change (eraseWithoutLoading key)) (seraseWithoutLoading key).
Proof.
  unfold eraseWithoutLoading, seraseWithoutLoading. start t p HT Hc Hp HL. destruct (delete_active (mActive t) key) as [D1 D2].
  destruct (record_ok t (view p) key None false false (delete key (mActive t)) (mActive t) EXTRA_DELETES) as (mob & E & HT'); try done.
  { intros h Eh. congruence. }
  rewrite set_active_eta in E. rewrite E. cbn [obind]. eexists. split; [|split_and!; [done|exact HT'|by destruct t]].
  change (delete key (mActive (afterRecord key None false mob t))) with (delete key (mActive t)). by rewrite abs_remove.
Qed.

Lemma load_ok key : implements REntry REntry (load key) (sload key).
Proof.
  unfold load, sload. start t p HT Hc Hp HL. destruct (mActive t !! key) eqn:Ek; cbn [isNull obind]; [done|]. rewrite newest_shown.
  destruct (overlay (mEntry t) (view p) !! key) as [e|] eqn:Ee; [|eauto 6]. rewrite emplace_None by done.
  destruct (put_ok t p key e (<[key := EntryImpl]> (mActive t)) HT Hs (shown_good t p key e HT HL Ee)) as (t' & -> & Ha & HT' & Hc' & _).
  - intros k Hk. by rewrite lookup_insert_ne.
  - rewrite lookup_insert_eq. by intros h [= <-].
  - cbn [obind]. eexists. rewrite Ha. split_and!; try done. congruence.
Qed.
(** *** Handles *)

Lemma recorded_same key le ent : ent !! key = Some le → recorded key le false ent = ent.
Proof. apply insert_id. Qed.

(** Changing who holds a key that is shown *)
Lemma rehold_ok t p key e eff act act0 :
  TInv t (view p) → mIsSealed t = false → overlay (mEntry t) (view p) !! key = Some e → goodEntry owner key e →
  (∀ k, k ≠ key → act !! k = mActive t !! k) → (eff = false ↔ act !! key = None) → (∀ h, act !! key = Some h → h = ConstEntryImpl e) →
  ∃ mob, updateEntryIfRecorded p key eff (set_mActive act0 t) = Ok (set_mMultiOrderBook mob (set_mActive act0 t)) ∧
    TInv (set_mActive act (set_mMultiOrderBook mob t)) (view p).
Proof.
  intros HT Hs Hsh Hg Hact Heff Hh. unfold updateEntryIfRecorded, updateEntryActive. cbn [mEntry set_mActive].
  destruct (mEntry t !! key) as [le|] eqn:El.
  - rewrite overlay_lookup, El in Hsh. subst le. cbn [isNull andb].
    destruct (record_ok t (view p) key (Some e) eff false act act0 (mConsistency t)) as (mob & E & HT'); try done.
    + by intros x [= <-].
    + intros h Eh. rewrite (Hh h Eh). eauto.
    + exists mob. unfold afterRecord in E, HT'. cbn [mEntry set_mActive] in E, HT'. rewrite (recorded_same _ _ _ El) in E, HT'.
      rewrite E. split; [by destruct t|]. by destruct t.
  - exists (mMultiOrderBook t). split; [by destruct t|]. destruct HT as [H1 H2 H3 H4 H5 H6 H7]. split; simpl; try done.
    + intros k Hk. destruct (decide (k = key)) as [->|Hne]; [by specialize (Hh _ Hk)|]. rewrite Hact in Hk by done. auto.
    + intros k e' Hk. destruct (decide (k = key)) as [->|Hne]; [specialize (Hh _ Hk); congruence|]. rewrite Hact in Hk by done. auto.
    + intros _. eapply indexed_iff; [|by apply H6]. intros k e' o Hk _. rewrite Hact; [done|]. congruence.
    + congruence.
Qed.

Lemma loadWithoutRecord_ok key : implements REntry REntry (loadWithoutRecord key) (sloadWithoutRecord key).
Proof.
  unfold loadWithoutRecord, sloadWithoutRecord. start t p HT Hc Hp HL. destruct (mActive t !! key) eqn:Ek; cbn [isNull obind]; [done|].
  rewrite newest_shown. destruct (overlay (mEntry t) (view p) !! key) as [e|] eqn:Ee; [|eauto 6]. rewrite emplace_None by done.
  destruct (rehold_ok t p key e true (<[key := ConstEntryImpl e]> (mActive t)) (<[key := ConstEntryImpl e]> (mActive t)) HT Hs Ee
    (shown_good t p key e HT HL Ee)) as (mob & -> & HT').
  - intros k Hk. by rewrite lookup_insert_ne.
  - by rewrite lookup_insert_eq.
  - rewrite lookup_insert_eq. by intros h [= <-].
  - cbn [obind]. eexists. split; [done|]. split_and!; [done| |by destruct t]. by destruct t.
Qed.

(** The entry that a handle shows *)
Lemma current_shown t p key :
  TInv t (view p) → LInv p →
  match current key t with
  | Ok e => mActive t !! key ≠ None ∧ overlay (mEntry t) (view p) !! key = Some e ∧ goodEntry owner key e
  | Fail f => mActive t !! key = None ∧ f = EntryNotActive
  end.
Proof.
  intros HT HL. unfold current. destruct (mActive t !! key) as [[|e]|] eqn:E; [| |done].
  - destruct (inv_active _ _ _ HT key E) as [e He]. rewrite He. split; [done|]. rewrite overlay_lookup, He. split; [done|]. by apply HT.
  - split; [done|]. pose proof (inv_const _ _ _ HT key e E) as Hsh. split; [done|]. by apply (shown_good t p).
Qed.

Lemma current_ok key : implements (λ e, REntry (Some e)) (λ e, REntry (Some e)) (λ t _, let? e := current key t in Ok (e, t)) (scurrent key).
Proof.
  intros t p HT Hc Hp HL. pose proof (current_shown t p key HT HL) as H. unfold scurrent. cbn [absT s_active s_view].
  destruct (current key t) as [e|f]; cbn [obind].
  - destruct H as (H1 & H2 & _). rewrite H2. destruct (mActive t !! key); [|done]. eauto 6.
  - destruct H as [-> ->]. done.
Qed.

Lemma assign_ok key f : (∀ e, goodEntry owner key e → goodEntry owner key (f e)) →
  implements rdone rdone (change (λ t _, assignCurrent key f t)) (sassign key f).
Proof.
  intros Hf t p HT Hc Hp HL. unfold change, assignCurrent, sassign. cbn [absT s_active s_view].
  destruct (mActive t !! key) as [[|e]|] eqn:E; [| |done].
  - destruct (inv_active _ _ _ HT key E) as [e He]. rewrite overlay_lookup, He. cbn [obind]. exists tt.
    assert (overlay (<[key := Some (f e)]> (mEntry t)) (view p) = <[key := f e]> (overlay (mEntry t) (view p))) as Hov.
    { rewrite <- (overlay_recorded key (Some (f e)) false) by done. done. }
    split; [|split_and!; [done| |done]].
    + unfold absT, withEntries. simpl. rewrite Hov. do 3 f_equal. rewrite dom_insert_L. apply elem_of_dom_2 in He. set_solver.
    + destruct HT as [H1 H2 H3 H4 H5 H6 H7]. split; simpl; try done.
      * intros k e'. destruct (decide (k = key)) as [->|Hne]; [rewrite lookup_insert_eq; intros [= <-]; by apply Hf, H1|rewrite lookup_insert_ne by done; apply H1].
      * intros Hx k. destruct (decide (k = key)) as [->|Hne]; [by rewrite lookup_insert_eq|rewrite lookup_insert_ne by done; by apply H2].
      * intros P w Hw. destruct (H3 P w Hw) as [Hp1 Hp2]. split; [done|]. intros k e' o Ho Hn. destruct (decide (k = key)) as [->|Hne];
          [by rewrite lookup_insert_eq|rewrite lookup_insert_ne by done; by apply (Hp2 k e' o)].
      * intros k Hk. destruct (decide (k = key)) as [->|Hne]; [rewrite lookup_insert_eq; eauto|rewrite lookup_insert_ne by done; by apply H4].
      * intros k e' Hk. rewrite Hov. rewrite lookup_insert_ne by congruence. by apply H5.
      * intros Hs. eapply (indexed_other _ _ _ _ key); [| |by apply H6]; [intros k Hk; apply lookup_insert_ne; congruence|cbn beta; congruence].
  - by destruct (mEntry t !! key) as [[]|].
Qed.

Lemma deactivate_ok key : implements rdone rdone (change (deactivateHandle key)) (sdeactivate key).
Proof.
  intros t p HT Hc Hp HL. pose proof (current_shown t p key HT HL) as H. unfold change, deactivateHandle, sdeactivate. cbn [absT s_active s_view].
  destruct (current key t) as [e|f]; cbn [obind]; [|by destruct H as [-> ->]].
  destruct H as (H1 & H2 & H3). rewrite (proj1 H3). unfold deactivate, checkT. destruct (mActive t !! key) as [h|] eqn:Ek; [|done]. cbn [isNull negb obind].
  assert (mIsSealed t = false) as Hs. { destruct (mIsSealed t) eqn:Hs; [|done]. destruct (inv_sealed _ _ _ HT Hs) as [Ha _]. by rewrite Ha in Ek. }
  destruct (delete_active (mActive t) key) as [D1 D2].
  destruct (rehold_ok t p key e false (delete key (mActive t)) (mActive t) HT Hs H2 H3 D1) as (mob & E & HT'); [done|intros; congruence|].
  rewrite set_active_eta in E. rewrite E. cbn [obind]. eexists. split; [done|]. split_and!; [done| |by destruct t]. by destruct t.
Qed.

Lemma eraseHandle_ok key : implements rdone rdone (change (eraseHandle key)) (seraseHandle key).
Proof.
  intros t p HT Hc Hp HL. pose proof (current_shown t p key HT HL) as H. unfold seraseHandle. cbn [absT s_active].
  pose proof (erase_ok key t p HT Hc Hp HL) as He. unfold change, eraseHandle in *. destruct (mActive t !! key) as [[|]|] eqn:Ek; [|done|done].
  destruct (current key t) as [e|f]; [|by destruct H]. cbn [obind]. destruct H as (_ & _ & H3). rewrite (proj1 H3). exact He.
Qed.

(** *** The header *)

Lemma header_tinv t v b h : TInv t v → (mIsSealed t = true → b = false) → TInv (set_mActiveHeader b (set_mHeader h t)) v.
Proof. intros [H1 H2 H3 H4 H5 H6 H7] Hb. split; simpl; try done. intros Hs. split; [by apply H7|auto]. Qed.

Lemma set_header_eta t : set_mHeader (mHeader t) t = t.
Proof. by destruct t. Qed.

Lemma set_activeHeader_eta t : set_mActiveHeader (mActiveHeader t) t = t.
Proof. by destruct t. Qed.

Lemma header_ok : implements RHeader RHeader (λ t _, Ok (mHeader t, t)) (λ t _, Ok (s_header t, t)).
Proof. intros t p HT Hc Hp HL. eauto 6. Qed.

Lemma loadHeader_ok : implements rdone rdone (change (λ t _, loadHeader t)) (λ t _, sloadHeader t).
Proof.
  unfold loadHeader, sloadHeader. start t p HT Hc Hp HL. destruct (mActiveHeader t) eqn:Ea; cbn [negb obind]; [done|]. exists tt.
  split; [done|]. split_and!; [done| |done]. rewrite <- (set_header_eta t) at 1. apply header_tinv; [done|congruence].
Qed.

Lemma assignHeader_ok f : implements rdone rdone (change (λ t _, assignHeader f t)) (λ t _, sassignHeader f t).
Proof.
  intros t p HT Hc Hp HL. unfold change, assignHeader, sassignHeader, checkT. cbn [absT s_activeHeader s_header].
  destruct (mActiveHeader t) eqn:Ea; cbn [obind]; [|done]. exists tt. split; [done|]. split_and!; [done| |done].
  rewrite <- (set_activeHeader_eta (set_mHeader _ t)). apply header_tinv; [done|]. intros Hs. by destruct (inv_sealed _ _ _ HT Hs).
Qed.

Lemma deactivateHeader_ok : implements rdone rdone (change (λ t _, deactivateHeader t)) (λ t _, sdeactivateHeader t).
Proof.
  intros t p HT Hc Hp HL. unfold change, deactivateHeader, sdeactivateHeader, checkT. cbn [absT s_activeHeader].
  destruct (mActiveHeader t) eqn:Ea; cbn [obind]; [|done]. exists tt. split; [done|]. split_and!; [done| |done].
  rewrite <- (set_header_eta t) at 1. by apply header_tinv.
Qed.

Lemma unsealHeader_ok f : implements rdone rdone (change (λ t _, unsealHeader f t)) (λ t _, sunsealHeader f t).
Proof.
  intros t p HT Hc Hp HL. unfold change, unsealHeader, sunsealHeader, assignHeader, deactivateHeader, checkT. cbn [absT s_sealed s_header].
  destruct (mIsSealed t) eqn:Hs; cbn [obind]; [|done]. destruct (inv_sealed _ _ _ HT Hs) as [_ Ha]. rewrite Ha. cbn. exists tt.
  split; [by rewrite <- Ha|]. split_and!; [done| |done]. apply (header_tinv t (view p) false); done.
Qed.
End Owners.
