(* ===== verification/LedgerTxnOffers.v ===== *)
(** * Transactions keep their contract: offers

    Loading the best offer and the offers of an account. *)

From stdpp Require Import prelude list gmap sorting.
From Stdlib Require Import ZArith Lia.
From S2P Require Import Prelude Numeric Exchange LedgerEntries OfferOrder LedgerTxn LedgerTxnBook LedgerTxnBest LedgerTxnInv LedgerTxnSpec LedgerTxnRefine.
Local Open Scope Z_scope.

Section Owners.
Context (owner : Z → AccountID).
Notation TInv := (TInv owner).
Notation LInv := (LInv owner).
Notation implements := (implements owner).

Lemma Ok_pair_inj {F A B} (a c : A) (b d : B) : (Ok (a, b) : outcome F (A * B)) = Ok (c, d) → a = c ∧ b = d.
Proof. by intros [= -> ->]. Qed.

(** ** The best offer *)

Lemma worst_update t v P w :
  TInv t v → (∀ d, w = Some d → priced (price d)) → (∀ k e o, isOffer v P None k e o → notAfter w o → mEntry t !! k ≠ None) →
  TInv (updateWorstBestOffer P w t) v ∧ absT (updateWorstBestOffer P w t) v = absT t v ∧ mChild (updateWorstBestOffer P w t) = mChild t.
Proof.
  intros HT Hd Hr. assert (TInv (set_mWorstBestOffer (<[P := w]> (mWorstBestOffer t)) t) v) as HT'.
  { destruct HT as [H1 H2 H3 H4 H5 H6 H7]. split; simpl; try done. intros Q u. destruct (decide (P = Q)) as [<-|Hne].
    - rewrite lookup_insert_eq. intros [= <-]. done.
    - rewrite lookup_insert_ne by done. apply H3. }
  unfold updateWorstBestOffer. destruct (mWorstBestOffer t !! P) as [u|]; [destruct (isWorseThan w u)|]; done.
Qed.

Lemma loadBestOffer_ok P :
  implements REntry REntry (λ t p, loadBestOffer (bookFuel (Nested t p)) P t p) (sloadBestOffer P).
Proof.
  intros t p HT Hc Hp HL. pose proof (λ k, load_ok owner k t p HT Hc Hp HL) as Hload.
  unfold loadBestOffer, sloadBestOffer, notSealed, throwIfSealed, throwIfChild, checkT.
  rewrite Hc. cbn [absT s_sealed s_view s_active negb]. destruct (mIsSealed t) eqn:Hs; cbn [negb obind]; [done|].
  destruct (decide (mActive t = ∅)) as [Ha|Ha].
  2:{ cbn [getBestOffer]. unfold throwIfActive, checkT. by rewrite bool_decide_eq_false_2. }
  rewrite (getBestOffer_best owner (Nested t p) P) by done. cbn [obind]. rewrite bool_decide_eq_true_2 by done. cbn [obind].
  pose proof (bestOfferIn_spec owner (view (Nested t p)) P None (LInv_good owner (Nested t p) (conj HT (conj Hp HL)))) as Hbest.
  cbn [view] in *. destruct (bestOfferIn (overlay (mEntry t) (view p)) P None) as [e|]; simpl in Hbest.
  - destruct Hbest as (kb & o & Ho & Hmin). pose proof Ho as (Hsh & Eo & _). rewrite Eo. cbn [obind].
    assert (toKey e = kb) as -> by apply (shown_good owner t p kb e HT HL Hsh). specialize (Hload kb). revert Hload.
    unfold sload, notSealed, checkT. cbn [absT s_sealed s_view s_active]. rewrite Hs, Ha, lookup_empty, Hsh. cbn [negb isNull obind].
    destruct (load kb t p) as [[a t']|f]; [|done]. intros (b & Eb & Hr & HT' & Hc'). apply Ok_pair_inj in Eb as [<- Eabs]. cbn [obind fst snd].
    destruct (worst_update t' (view p) P (Some (descriptorOf o)) HT') as (W1 & W2 & W3).
    + intros d [= <-]. by eapply (good_priced owner); [apply (LInv_good owner (Nested t p) (conj HT (conj Hp HL)))|exact Ho].
    + intros k e' o' Ho' Hna. assert (dom (mEntry t') = {[kb]} ∪ dom (mEntry t)) as Hdom by (exact (eq_sym (f_equal s_recorded Eabs))).
      apply not_eq_None_Some, elem_of_dom. rewrite Hdom. destruct (mEntry t !! k) as [x|] eqn:Ek; [apply elem_of_dom_2 in Ek; set_solver|].
      destruct (Hmin k e' o') as [->|Hb]; [|set_solver|simpl in Hna; congruence]. destruct Ho' as (O1 & O2). split; [|done]. by rewrite overlay_lookup, Ek.
    + eexists. rewrite Eabs, W2. split_and!; try done. congruence.
  - destruct (worst_update t (view p) P None HT) as (W1 & W2 & W3); [done| |].
    + intros k e' o' Ho' _ Hn. apply (Hbest k e' o'). destruct Ho' as (O1 & O2). split; [|done]. by rewrite overlay_lookup, Hn.
    + eexists. rewrite W2. split_and!; try done. congruence.
Qed.

(** ** The offers of an account *)

Lemma ledgerEntries_lookup v k : ledgerEntries v !! k = match v !! LEDGER_KEY k with Some (LEDGER_ENTRY e) => Some e | _ => None end.
Proof.
  unfold ledgerEntries. set (g := λ kv : InternalLedgerKey * InternalLedgerEntry, match kv with (LEDGER_KEY k, LEDGER_ENTRY e) => Some (k, e) | _ => None end).
  assert (NoDup (omap g (map_to_list v)).*1) as Hn.
  { pose proof (NoDup_fst_map_to_list v) as H. induction (map_to_list v) as [|[k' e'] l IH]; [constructor|]. rewrite fmap_cons in H.
    apply NoDup_cons in H as [H1 H2]. cbn [omap list_omap]. destruct (g (k', e')) as [[k1 e1]|] eqn:Eg; [|by apply IH]. rewrite fmap_cons. apply NoDup_cons. split; [|by apply IH].
    intros ([k2 e2] & E & ([k3 e3] & H3 & H4)%list_elem_of_omap)%list_elem_of_fmap. simpl in E. subst k2. apply H1. apply list_elem_of_fmap. exists (k3, e3). split; [|done].
    unfold g in Eg, H4. destruct k', e'; try done. destruct k3, e3; try done. simpl. congruence. }
  apply option_eq. intros e. rewrite <- elem_of_list_to_map by done. rewrite list_elem_of_omap. split.
  - intros ([k' e'] & H1%elem_of_map_to_list & H2). unfold g in H2. destruct k', e'; try done. injection H2 as <- <-. by rewrite H1.
  - intros H. destruct (v !! LEDGER_KEY k) as [[e'| |]|] eqn:E; try done. injection H as <-. exists (LEDGER_KEY k, LEDGER_ENTRY e'). split; [by apply elem_of_map_to_list|done].
Qed.

Lemma root_ledgerEntries db : ledgerEntries (rootEntries db) = db.
Proof. apply map_eq. intros k. rewrite ledgerEntries_lookup, rootEntries_lookup. by destruct (db !! k). Qed.
(** *** Folding over recorded entries *)

Definition setView (k : InternalLedgerKey) (x : option InternalLedgerEntry) (v : Entries) : Entries :=
  match x with Some e => <[k := e]> v | None => delete k v end.

Lemma setView_eq k x v : setView k x v !! k = x.
Proof. destruct x; [apply lookup_insert_eq|apply lookup_delete_eq]. Qed.

Lemma setView_ne k k' x v : k ≠ k' → setView k x v !! k' = v !! k'.
Proof. intros H. destruct x; [by apply lookup_insert_ne|by apply lookup_delete_ne]. Qed.

Lemma setView_good k x v : goodView owner v → (∀ e, x = Some e → goodEntry owner k e) → goodView owner (setView k x v).
Proof.
  intros Hv Hx k' e. destruct (decide (k = k')) as [<-|Hne]; [rewrite setView_eq; apply Hx|rewrite setView_ne by done; apply Hv].
Qed.

Lemma overlay_cons k x l v : k ∉ l.*1 → overlay (list_to_map ((k, x) :: l)) v = overlay (list_to_map l) (setView k x v).
Proof.
  intros Hk. apply map_eq. intros k'. rewrite !overlay_lookup. cbn [list_to_map foldr fst snd]. destruct (decide (k = k')) as [<-|Hne].
  - rewrite lookup_insert_eq, (proj1 (not_elem_of_list_to_map l k) Hk). by rewrite setView_eq.
  - rewrite lookup_insert_ne by done. destruct (list_to_map l !! k') as [y|]; [done|]. by rewrite setView_ne.
Qed.

(** A function that follows the view entry by entry *)
Lemma fold_view {S} (f : InternalLedgerKey * option InternalLedgerEntry → S → LT S) (G : Entries → S)
  (C : InternalLedgerKey → option InternalLedgerEntry → option InternalLedgerEntry → Prop) l v :
  NoDup l.*1 → goodView owner v → (∀ k x, (k, x) ∈ l → (∀ e, x = Some e → goodEntry owner k e) ∧ C k x (v !! k)) →
  (∀ k x v, goodView owner v → (∀ e, x = Some e → goodEntry owner k e) → C k x (v !! k) → f (k, x) (G v) = Ok (G (setView k x v))) →
  foldT f l (G v) = Ok (G (overlay (list_to_map l) v)).
Proof.
  intros Hn Hv Hl Hf. revert v Hv Hl. induction l as [|[k x] l IH]; intros v Hv Hl.
  - cbn. do 2 f_equal. apply map_eq. intros k. by rewrite overlay_lookup, lookup_empty.
  - rewrite fmap_cons in Hn. apply NoDup_cons in Hn as [Hk Hn]. destruct (Hl k x) as [Hg HC]; [by left|]. cbn [foldT].
    rewrite (Hf k x v Hv Hg HC). cbn [obind]. rewrite overlay_cons by done. apply IH; [done|by apply setView_good|].
    intros k' x' Hin. rewrite setView_ne; [apply Hl; by right|]. intros <-. apply Hk. apply list_elem_of_fmap. by exists (k, x').
Qed.

Section Iterate.
Context (iter : ∀ A : Type, list A → list A) (Hiter : ∀ A l, iter A l ≡ₚ l).

Lemma iter_keys {V} (m : gmap InternalLedgerKey V) : NoDup (iter _ (map_to_list m)).*1.
Proof. rewrite (Hiter _ (map_to_list m)). apply NoDup_fst_map_to_list. Qed.

Lemma iter_elem {V} (m : gmap InternalLedgerKey V) k x : (k, x) ∈ iter _ (map_to_list m) ↔ m !! k = Some x.
Proof. rewrite (Hiter _ (map_to_list m)). apply elem_of_map_to_list. Qed.

Lemma iter_map {V} (m : gmap InternalLedgerKey V) : list_to_map (iter _ (map_to_list m)) = m.
Proof. apply map_eq. intros k. apply option_eq. intros x. rewrite <- elem_of_list_to_map by apply iter_keys. apply iter_elem. Qed.

(** *** The offers that are wanted *)

Definition wantedIn (wanted : OfferEntry → bool) (v : Entries) : gmap LedgerKey LedgerEntry :=
  filter (λ kv, isWanted wanted kv.2 = true) (ledgerEntries v).

Lemma wantedIn_lookup wanted v k :
  wantedIn wanted v !! k = match v !! LEDGER_KEY k with Some (LEDGER_ENTRY e) => if isWanted wanted e then Some e else None | _ => None end.
Proof.
  unfold wantedIn. rewrite map_lookup_filter, ledgerEntries_lookup. destruct (v !! LEDGER_KEY k) as [[e| |]|]; try done. simpl.
  destruct (isWanted wanted e) eqn:E; case_guard; done.
Qed.

Lemma isWanted_key wanted k e : goodEntry owner (LEDGER_KEY k) (LEDGER_ENTRY e) → offerKey (LEDGER_KEY k) = None → isWanted wanted e = false.
Proof.
  intros [[= <-] _]. unfold LedgerEntryKey, isWanted. by destruct (data e).
Qed.

Lemma overlayOffers_view wanted k x v :
  goodView owner v → (∀ e, x = Some e → goodEntry owner k e) → overlayOffers wanted (k, x) (wantedIn wanted v) = Ok (wantedIn wanted (setView k x v)).
Proof.
  intros Hv Hx. unfold overlayOffers. cbn [fst snd]. destruct (offerKey k) as [lk|] eqn:Ek.
  - assert (k = LEDGER_KEY lk) as -> by (destruct k as [[]| |]; naive_solver).
    assert (∀ y, (∀ e, y = Some e → isWanted wanted e = true ∧ x = Some (LEDGER_ENTRY e)) → (y = None → ∀ e, x = Some (LEDGER_ENTRY e) → isWanted wanted e = false) →
      partial_alter (λ _, y) lk (wantedIn wanted v) = wantedIn wanted (setView (LEDGER_KEY lk) x v)) as Hset.
    { intros y Hy1 Hy2. apply map_eq. intros k'. rewrite lookup_partial_alter. case_decide as Hk.
      - subst k'. rewrite wantedIn_lookup, setView_eq. destruct y as [e|]; [destruct (Hy1 e eq_refl) as [E ->]; by rewrite E|].
        destruct x as [[e| |]|]; try done. by rewrite (Hy2 eq_refl e).
      - rewrite !wantedIn_lookup, setView_ne by congruence. done. }
    destruct x as [e|]; [|f_equal; by apply (Hset None)]. destruct (Hx e eq_refl) as [Hk _]. destruct lk as [| |s i| |]; try done.
    destruct (key_offerArm e s i Hk) as (o & Eo & _). destruct e as [e| |]; try done. rewrite Eo. cbn [obind]. simpl in Eo.
    assert (isWanted wanted e = wanted o) as Ew by (unfold isWanted; destruct (data e); try done; by injection Eo as ->).
    f_equal. destruct (wanted o); [apply (Hset (Some e))|apply (Hset None)]; try done.
    + intros e' [= <-]. done.
    + by intros _ e' [= <-].
  - f_equal. apply map_eq. intros lk. rewrite !wantedIn_lookup. destruct (decide (k = LEDGER_KEY lk)) as [->|Hne]; [|by rewrite setView_ne].
    rewrite setView_eq. assert (∀ y, (∀ e, y = Some e → goodEntry owner (LEDGER_KEY lk) e) →
      match y with Some (LEDGER_ENTRY e) => if isWanted wanted e then Some e else None | _ => None end = None) as Hnone.
    { intros [[e| |]|] Hy; try done. by rewrite (isWanted_key wanted lk e (Hy _ eq_refl) Ek). }
    rewrite !Hnone; auto.
Qed.

Lemma getOffers_ok q wanted l : LInv l → getOffers iter q wanted l = if q then Ok (wantedIn wanted (view l)) else Fail NativeAssetInQuery.
Proof.
  induction l as [r|t p IH]; intros HL.
  - cbn [getOffers view]. unfold wantedIn, checkT. rewrite root_ledgerEntries. by destruct q.
  - destruct HL as (HT & Hp & HL). cbn [getOffers view]. rewrite (IH HL). destruct q; [|done]. cbn [obind].
    rewrite (fold_view _ (wantedIn wanted) (λ _ _ _, True)).
    + by rewrite iter_map.
    + apply iter_keys.
    + by apply (LInv_good owner).
    + intros k x Hin%iter_elem. split; [|done]. intros e ->. by apply (inv_good _ _ _ HT).
    + intros. by apply overlayOffers_view.
Qed.

(** *** Loading them *)

Notation loadAll p := (foldT (λ k t, let? r := load (LEDGER_KEY k) t p in Ok r.2)).

Lemma loads_ok ks t p :
  TInv t (view p) → mChild t = false → isParent p → LInv p → mIsSealed t = false → NoDup ks →
  (∀ k, k ∈ ks → is_Some (overlay (mEntry t) (view p) !! LEDGER_KEY k)) →
  match loadAll p ks t with
  | Ok t' => (∀ k, k ∈ ks → mActive t !! LEDGER_KEY k = None) ∧ TInv t' (view p) ∧ mChild t' = false ∧
      absT t' (view p) = withActive (gset_to_gmap EntryImpl (set_map LEDGER_KEY (list_to_set ks :> gset LedgerKey) :> gset InternalLedgerKey) ∪ mActive t)
        (withEntries (overlay (mEntry t) (view p)) (set_map LEDGER_KEY (list_to_set ks :> gset LedgerKey) ∪ dom (mEntry t)) (absT t (view p)))
  | Fail f => f = KeyIsActive ∧ ∃ k, k ∈ ks ∧ mActive t !! LEDGER_KEY k ≠ None
  end.
Proof.
  revert t. induction ks as [|k ks IH]; intros t HT Hc Hp HL Hs Hn Hsh.
  - cbn. split_and!; try done; [set_solver|]. unfold absT, withActive, withEntries. simpl. f_equal; [set_solver|].
    rewrite set_map_empty, gset_to_gmap_empty. by rewrite (left_id_L ∅ (∪)).
  - apply NoDup_cons in Hn as [Hk Hn]. cbn [foldT]. pose proof (load_ok owner (LEDGER_KEY k) t p HT Hc Hp HL) as Hl.
    unfold sload, notSealed, checkT in Hl. cbn [absT s_sealed s_active s_view] in Hl. rewrite Hs in Hl. cbn [negb obind] in Hl.
    destruct (Hsh k ltac:(by left)) as [e He]. rewrite He in Hl. destruct (mActive t !! LEDGER_KEY k) as [h|] eqn:Ea; cbn [isNull obind] in Hl.
    { destruct (load (LEDGER_KEY k) t p) as [[a t']|f]; [by destruct Hl as (b & ? & _)|]. injection Hl as <-. split; [done|]. exists k. split; [by left|congruence]. }
    destruct (load (LEDGER_KEY k) t p) as [[a t1]|f]; [|done]. destruct Hl as (b & Eb & _ & HT1 & Hc1). apply Ok_pair_inj in Eb as [_ Eabs]. cbn [obind snd].
    assert (mActive t1 = <[LEDGER_KEY k := EntryImpl]> (mActive t)) as Ha1 by exact (eq_sym (f_equal s_active Eabs)).
    assert (overlay (mEntry t1) (view p) = overlay (mEntry t) (view p)) as Hv1 by (rewrite <- (insert_id _ _ _ He); exact (eq_sym (f_equal s_view Eabs))).
    assert (dom (mEntry t1) = {[LEDGER_KEY k]} ∪ dom (mEntry t)) as Hd1 by exact (eq_sym (f_equal s_recorded Eabs)).
    assert (mIsSealed t1 = false) as Hs1 by (etrans; [exact (eq_sym (f_equal s_sealed Eabs))|done]).
    specialize (IH t1 HT1 Hc1 Hp HL Hs1 Hn). rewrite Hv1 in IH. specialize (IH (λ x Hx, Hsh x (list_elem_of_further _ _ _ Hx))).
    assert (∀ x, x ∈ ks → mActive t1 !! LEDGER_KEY x = mActive t !! LEDGER_KEY x) as Hrest.
    { intros x Hx. rewrite Ha1. apply lookup_insert_ne. intros [= ->]. done. }
    destruct (loadAll p ks t1) as [t'|f].
    + destruct IH as (I1 & I2 & I3 & I4). split_and!; try done.
      * intros x [->|Hx]%elem_of_cons; [done|]. rewrite <- Hrest by done. by apply I1.
      * rewrite I4, Ha1, Hd1, <- Eabs. unfold withActive, withEntries, put. simpl. f_equal; [set_solver|].
        apply map_eq. intros x. rewrite !lookup_union, !lookup_gset_to_gmap. destruct (decide (x = LEDGER_KEY k)) as [->|Hx].
        -- rewrite lookup_insert_eq. rewrite (option_guard_False (LEDGER_KEY k ∈ _)) by set_solver. rewrite option_guard_True by set_solver. by rewrite Ea.
        -- rewrite lookup_insert_ne by done. f_equal. repeat case_guard; set_solver.
    + destruct IH as (-> & x & Hx & Hax). split; [done|]. exists x. split; [by right|]. by rewrite <- Hrest.
Qed.
Lemma loadOffers_ok queryOk wanted :
  implements (λ ks, RKeys (list_to_set ks)) RKeys (loadOffers iter queryOk wanted) (sloadOffers queryOk wanted).
Proof.
  intros t p HT Hc Hp HL. unfold loadOffers, sloadOffers, notSealed, throwIfSealed, throwIfChild, checkT.
  rewrite Hc. cbn [absT s_sealed s_view s_active s_recorded negb]. destruct (mIsSealed t) eqn:Hs; cbn [negb obind]; [done|].
  rewrite (getOffers_ok _ _ (Nested t p)) by done. cbn [view]. destruct queryOk; cbn [obind]; [|done].
  change (offersOf wanted (overlay (mEntry t) (view p))) with (wantedIn wanted (overlay (mEntry t) (view p))).
  set (m := wantedIn wanted (overlay (mEntry t) (view p))). set (ks := (iter _ (map_to_list m)).*1).
  assert (∀ k, k ∈ ks ↔ k ∈ dom m) as Hks.
  { intros k. unfold ks. rewrite elem_of_dom, list_elem_of_fmap. setoid_rewrite (Hiter _ (map_to_list m)). split.
    - intros ([k' e] & -> & H%elem_of_map_to_list). by exists e.
    - intros [e He]. exists (k, e). split; [done|by apply elem_of_map_to_list]. }
  assert (list_to_set ks = dom m) as Hset by (apply set_eq; intros k; by rewrite elem_of_list_to_set).
  pose proof (loads_ok ks t p HT Hc Hp HL Hs) as Hl. destruct (loadAll p ks t) as [t'|f]; cbn [obind].
  - destruct Hl as (H1 & H2 & H3 & H4).
    + unfold ks. rewrite (Hiter _ (map_to_list m)). apply NoDup_fst_map_to_list.
    + intros k Hk%Hks. apply elem_of_dom in Hk as [e He]. unfold m in He. rewrite wantedIn_lookup in He.
      by destruct (overlay (mEntry t) (view p) !! LEDGER_KEY k) as [y|].
    + rewrite bool_decide_eq_true_2 by (intros k Hk%Hks; by apply H1). cbn [obind]. eexists. rewrite H4, Hset. done.
  - destruct Hl as (-> & k & Hk & Hak).
    + unfold ks. rewrite (Hiter _ (map_to_list m)). apply NoDup_fst_map_to_list.
    + intros k Hk%Hks. apply elem_of_dom in Hk as [e He]. unfold m in He. rewrite wantedIn_lookup in He.
      by destruct (overlay (mEntry t) (view p) !! LEDGER_KEY k) as [y|].
    + rewrite bool_decide_eq_false_2; [done|]. intros H. apply Hak, H. by apply Hks.
Qed.
End Iterate.
End Owners.
