(* ===== verification/LedgerTxnSeal.v ===== *)
(** * Transactions keep their contract: sealing

    The queries that seal a transaction stamp its entries with the number of the
    ledger; what they report, applied to the parent's entries, gives the
    transaction's. *)

From stdpp Require Import prelude list gmap.
From Stdlib Require Import ZArith Lia.
From S2P Require Import Prelude Numeric Exchange LedgerEntries OfferOrder LedgerTxn LedgerTxnBook LedgerTxnBest LedgerTxnInv LedgerTxnSpec LedgerTxnRefine LedgerTxnOffers.
Local Open Scope Z_scope.

Section Owners.
Context (owner : Z → AccountID).
Notation TInv := (TInv owner).
Notation LInv := (LInv owner).
Notation implements := (implements owner).

(** ** Sealing *)

Lemma stamp_good key seq e : goodEntry owner key e → goodEntry owner key (stamp seq e).
Proof. intros [Hk Ho]. destruct e as [e| |]; done. Qed.

Lemma stamped_lookup t k :
  stampedEntries t !! k = fmap (M := option) (λ e, if mShouldUpdateLastModified t then stamp (ledgerSeq (mHeader t)) e else e) <$> mEntry t !! k.
Proof. unfold stampedEntries. apply lookup_fmap. Qed.

Lemma stamped_good t : goodEntries owner (mEntry t) → goodEntries owner (stampedEntries t).
Proof.
  intros Hg k e. rewrite stamped_lookup. destruct (mEntry t !! k) as [[e'|]|] eqn:E; simpl; try done. intros [= <-].
  destruct (mShouldUpdateLastModified t); [apply stamp_good|]; by apply Hg.
Qed.

Lemma stamped_None t k : stampedEntries t !! k = None ↔ mEntry t !! k = None.
Proof. rewrite stamped_lookup. by destruct (mEntry t !! k). Qed.

Lemma stamped_null t k : stampedEntries t !! k = Some None ↔ mEntry t !! k = Some None.
Proof. rewrite stamped_lookup. by destruct (mEntry t !! k) as [[]|]. Qed.

Lemma stamped_dom t : dom (stampedEntries t) = dom (mEntry t).
Proof. unfold stampedEntries. apply dom_fmap_L. Qed.

(** The entries that are committed *)
Definition finalEntries (t : Impl) : gmap InternalLedgerKey (option InternalLedgerEntry) := if mIsSealed t then mEntry t else stampedEntries t.

Lemma final_good t : goodEntries owner (mEntry t) → goodEntries owner (finalEntries t).
Proof. unfold finalEntries. destruct (mIsSealed t); [done|apply stamped_good]. Qed.

Lemma final_None t k : finalEntries t !! k = None ↔ mEntry t !! k = None.
Proof. unfold finalEntries. destruct (mIsSealed t); [done|apply stamped_None]. Qed.

Lemma final_null t k : finalEntries t !! k = Some None ↔ mEntry t !! k = Some None.
Proof. unfold finalEntries. destruct (mIsSealed t); [done|apply stamped_null]. Qed.

Lemma final_dom t : dom (finalEntries t) = dom (mEntry t).
Proof. unfold finalEntries. destruct (mIsSealed t); [done|apply stamped_dom]. Qed.

Lemma final_view t v : overlay (finalEntries t) v = stampEntries (absT t v).
Proof.
  unfold finalEntries, stampEntries. cbn [absT s_update s_sealed s_view s_header s_recorded].
  destruct (mIsSealed t); [by rewrite andb_false_r|]. rewrite andb_true_r. apply map_eq. intros k. rewrite overlay_lookup, stamped_lookup.
  destruct (mShouldUpdateLastModified t).
  - rewrite map_lookup_imap, overlay_lookup. destruct (mEntry t !! k) as [x|] eqn:E; simpl.
    + rewrite bool_decide_eq_true_2 by (by apply elem_of_dom_2 in E). by destruct x.
    + rewrite bool_decide_eq_false_2 by (by apply not_elem_of_dom). by destruct (v !! k).
  - rewrite overlay_lookup. by destruct (mEntry t !! k) as [[]|].
Qed.

Lemma invokeThenSeal_final {A} (f : gmap InternalLedgerKey (option InternalLedgerEntry) → LT A) t :
  mChild t = false →
  invokeThenSeal f t = let? a := f (finalEntries t) in Ok (a, if mIsSealed t then t else seal (stampedEntries t) t).
Proof.
  intros Hc. unfold invokeThenSeal, maybeUpdateLastModified, throwIfSealed, throwIfChild, checkT, finalEntries. rewrite Hc.
  by destruct (mIsSealed t).
Qed.

Lemma seal_ok {A} (F : Impl → Ledger → gmap InternalLedgerKey (option InternalLedgerEntry) → LT A) (exact : bool) :
  (∀ t p, TInv t (view p) → LInv p → (exact = true → mConsistency t = EXACT) → ∃ a, F t p (finalEntries t) = Ok a) →
  implements (λ _, RDone) rdone
    (λ t p, let? _ := (if exact then throwIfNotExactConsistency t else Ok tt) in invokeThenSeal (F t p) t) (λ t _, sseal exact t).
Proof.
  intros Hok t p HT Hc Hp HL. specialize (Hok t p HT HL). unfold sseal, throwIfNotExactConsistency, checkT. cbn [absT s_consistency].
  destruct (decide (exact = true → mConsistency t = EXACT)) as [Hex|Hex].
  2:{ destruct exact; [|by destruct Hex]. rewrite bool_decide_eq_false_2 by auto. done. }
  destruct (Hok Hex) as [a Ea].
  assert ((if exact then if bool_decide (mConsistency t = EXACT) then Ok tt else Fail NotExactConsistency else Ok tt) = (Ok tt : LT unit)) as ->.
  { destruct exact; [|done]. by rewrite bool_decide_eq_true_2 by auto. }
  assert (negb exact || bool_decide (mConsistency t = EXACT) = true) as ->.
  { destruct exact; [|done]. by rewrite bool_decide_eq_true_2 by auto. }
  cbn [obind]. rewrite invokeThenSeal_final, Ea by done. cbn [obind]. exists tt. destruct (mIsSealed t) eqn:Hs.
  - split; [|done]. do 2 f_equal. destruct (inv_sealed _ _ _ HT Hs) as [Ha Hh]. unfold withSeal, withEntries, stampEntries. cbn.
    rewrite Hs, andb_false_r. unfold absT. by rewrite Ha, Hh, Hs.
  - split_and!; try done.
    + do 2 f_equal. unfold withSeal, withEntries. rewrite <- final_view. unfold finalEntries. rewrite Hs. unfold absT. cbn. by rewrite stamped_dom.
    + destruct HT as [H1 H2 H3 H4 H5 H6 H7]. split; cbn; try done.
      * by apply stamped_good.
      * intros Hx k Hk. apply H2; [done|]. by apply stamped_null.
      * intros P w Hw. destruct (H3 P w Hw) as [Hd Hr]. split; [done|]. intros k e o Ho Hn. rewrite stamped_None. by apply (Hr k e o).
Qed.

(** ** The changes *)

(** What a change does to the entries of the ledger: a state has to be there, a created
    entry must not, and a changed or removed one must. *)
Definition applyChange (c : LedgerEntryChange) (db : gmap LedgerKey LedgerEntry) : LT (gmap LedgerKey LedgerEntry) :=
  match c with
  | LEDGER_ENTRY_CREATED e => let? _ := checkT (isNull (db !! LedgerEntryKey e)) LtxAssertion in Ok (<[LedgerEntryKey e := e]> db)
  | LEDGER_ENTRY_UPDATED e => let? _ := checkT (negb (isNull (db !! LedgerEntryKey e))) LtxAssertion in Ok (<[LedgerEntryKey e := e]> db)
  | LEDGER_ENTRY_REMOVED k => let? _ := checkT (negb (isNull (db !! k))) LtxAssertion in Ok (delete k db)
  | LEDGER_ENTRY_STATE e => let? _ := checkT (bool_decide (db !! LedgerEntryKey e = Some e)) LtxAssertion in Ok db
  end.

(** What is reported of a key whose entry was [old] *)
Definition changesAt (old : option InternalLedgerEntry) (kv : InternalLedgerKey * option InternalLedgerEntry) : list LedgerEntryChange :=
  match kv.1, old, kv.2 with
  | LEDGER_KEY _, Some (LEDGER_ENTRY previous), Some (LEDGER_ENTRY entry) => [LEDGER_ENTRY_STATE previous; LEDGER_ENTRY_UPDATED entry]
  | LEDGER_KEY k, Some (LEDGER_ENTRY previous), None => [LEDGER_ENTRY_STATE previous; LEDGER_ENTRY_REMOVED k]
  | LEDGER_KEY _, None, Some (LEDGER_ENTRY entry) => [LEDGER_ENTRY_CREATED entry]
  | _, _, _ => []
  end.

Lemma foldT_app {A S} (f : A → S → LT S) l l' s : foldT f (l ++ l') s = let? s := foldT f l s in foldT f l' s.
Proof. revert s. induction l as [|x l IH]; intros s; [done|]. cbn. destruct (f x s); [apply IH|done]. Qed.

Lemma foldT_concat {A B S} (f : A → S → LT S) (g : B → list A) l s :
  foldT f (concat (g <$> l)) s = foldT (λ x, foldT f (g x)) l s.
Proof.
  revert s. induction l as [|x l IH]; intros s; [done|]. cbn. rewrite foldT_app. destruct (foldT f (g x) s); [apply IH|done].
Qed.

(** A fold that appends *)
Lemma foldT_append {A B} (f : A → list B → LT (list B)) (g : A → list B) l acc :
  (∀ x acc, x ∈ l → f x acc = Ok (acc ++ g x)) → foldT f l acc = Ok (acc ++ concat (g <$> l)).
Proof.
  revert acc. induction l as [|x l IH]; intros acc H; cbn; [by rewrite app_nil_r|]. rewrite H by (by left). cbn [obind].
  rewrite IH by (intros; apply H; by right). by rewrite (assoc_L (++)).
Qed.

Lemma good_ledger_arm k e : goodEntry owner (LEDGER_KEY k) e → ∃ x, e = LEDGER_ENTRY x ∧ LedgerEntryKey x = k.
Proof. intros [Hk _]. destruct e as [x| |]; try done. injection Hk as <-. by exists x. Qed.

(** The entry of a key in the changed transaction, and in its parent *)
Definition legal (x old : option InternalLedgerEntry) : Prop := x = None → old ≠ None.

Lemma changesOf_ok p k x acc :
  LInv p → (∀ e, x = Some e → goodEntry owner k e) → legal x (view p !! k) →
  changesOf p (k, x) acc = Ok (acc ++ changesAt (view p !! k) (k, x)).
Proof.
  intros HL Hx Hleg. unfold changesOf, changesAt. cbn [fst snd]. rewrite getNewestVersion_view. destruct k as [k|a|a]; [|by rewrite app_nil_r..].
  destruct (view p !! LEDGER_KEY k) as [old|] eqn:Eold, x as [e|]; cbn [obind].
  - destruct (good_ledger_arm k old (LInv_good owner _ HL _ _ Eold)) as (xo & -> & _), (good_ledger_arm k e (Hx e eq_refl)) as (xe & -> & _). done.
  - destruct (good_ledger_arm k old (LInv_good owner _ HL _ _ Eold)) as (xo & -> & _). done.
  - destruct (good_ledger_arm k e (Hx e eq_refl)) as (xe & -> & _). done.
  - by destruct (Hleg eq_refl).
Qed.

Lemma applyChanges_at k x v :
  goodView owner v → (∀ e, x = Some e → goodEntry owner k e) → legal x (v !! k) →
  foldT applyChange (changesAt (v !! k) (k, x)) (ledgerEntries v) = Ok (ledgerEntries (setView k x v)).
Proof.
  intros Hv Hx Hleg. unfold changesAt. cbn [fst snd]. destruct k as [k|a|a].
  2,3: cbn; f_equal; apply map_eq; intros k'; by rewrite !ledgerEntries_lookup, setView_ne.
  assert (∀ e, ledgerEntries (setView (LEDGER_KEY k) (Some (LEDGER_ENTRY e)) v) = <[k := e]> (ledgerEntries v)) as Hset.
  { intros e. apply map_eq. intros k'. rewrite ledgerEntries_lookup. destruct (decide (k = k')) as [<-|Hne]; [by rewrite setView_eq, lookup_insert_eq|].
    by rewrite setView_ne, lookup_insert_ne, ledgerEntries_lookup by congruence. }
  assert (ledgerEntries (setView (LEDGER_KEY k) None v) = delete k (ledgerEntries v)) as Hdel.
  { apply map_eq. intros k'. rewrite ledgerEntries_lookup. destruct (decide (k = k')) as [<-|Hne]; [by rewrite setView_eq, lookup_delete_eq|].
    by rewrite setView_ne, lookup_delete_ne, ledgerEntries_lookup by congruence. }
  pose proof (ledgerEntries_lookup v k) as Hk. unfold applyChange, checkT. destruct (v !! LEDGER_KEY k) as [old|] eqn:Eold.
  - destruct (good_ledger_arm k old (Hv _ _ Eold)) as (xo & -> & Ko). destruct x as [e|].
    + destruct (good_ledger_arm k e (Hx e eq_refl)) as (xe & -> & Ke). rewrite Hset. cbn [foldT].
      rewrite Ko, Hk, bool_decide_eq_true_2 by done. cbn [obind]. by rewrite Ke, Hk.
    + rewrite Hdel. cbn [foldT]. rewrite Ko, Hk, bool_decide_eq_true_2 by done. cbn [obind]. by rewrite Hk.
  - destruct x as [e|]; [|by destruct (Hleg eq_refl)]. destruct (good_ledger_arm k e (Hx e eq_refl)) as (xe & -> & Ke). cbn [foldT].
    rewrite Ke, Hk. by rewrite Hset.
Qed.

(** ** All entries *)

Definition initAt (v : Entries) (kv : InternalLedgerKey * option InternalLedgerEntry) : option LedgerEntry :=
  match kv.1, kv.2, v !! kv.1 with LEDGER_KEY _, Some (LEDGER_ENTRY e), None => Some e | _, _, _ => None end.
Definition liveAt (v : Entries) (kv : InternalLedgerKey * option InternalLedgerEntry) : option LedgerEntry :=
  match kv.1, kv.2, v !! kv.1 with LEDGER_KEY _, Some (LEDGER_ENTRY e), Some _ => Some e | _, _, _ => None end.
Definition deadAt (kv : InternalLedgerKey * option InternalLedgerEntry) : option LedgerKey :=
  match kv.1, kv.2 with LEDGER_KEY k, None => Some k | _, _ => None end.

Lemma allEntries_fold p l i j d :
  (∀ k x e, (k, x) ∈ l → x = Some e → goodEntry owner k e) →
  foldT (allEntriesOf p) l (i, j, d) = Ok (i ++ omap (initAt (view p)) l, j ++ omap (liveAt (view p)) l, d ++ omap deadAt l).
Proof.
  revert i j d. induction l as [|[k x] l IH]; intros i j d Hl; cbn [foldT omap list_omap].
  { by rewrite !app_nil_r. }
  assert (∀ k x e, (k, x) ∈ l → x = Some e → goodEntry owner k e) as Hl' by (intros ???; intros; eapply Hl; [by right|done]).
  unfold allEntriesOf at 1. unfold initAt at 1, liveAt at 1, deadAt at 1. cbn [fst snd]. rewrite getNewestVersion_view.
  destruct k as [k|a|a]; cbn [obind]; [|by apply IH..]. destruct x as [e|]; cbn [obind].
  - destruct (good_ledger_arm k e) as (x & -> & _); [by eapply Hl; [left|]|]. cbn [ledgerEntryArm obind].
    destruct (view p !! LEDGER_KEY k); cbn [obind]; rewrite IH by done; by rewrite <- ?(assoc_L (++)).
  - rewrite IH by done. by rewrite <- ?(assoc_L (++)).
Qed.

Section Iterate.
Context (iter : ∀ A : Type, list A → list A) (Hiter : ∀ A l, iter A l ≡ₚ l).

(** What holds of the entries that are reported *)
Lemma final_elem t p k x :
  TInv t (view p) → (k, x) ∈ iter _ (map_to_list (finalEntries t)) →
  (∀ e, x = Some e → goodEntry owner k e) ∧ (mConsistency t = EXACT → legal x (view p !! k)).
Proof.
  intros HT Hin. apply (iter_elem iter Hiter) in Hin. split.
  - intros e ->. exact (final_good t (inv_good _ _ _ HT) k e Hin).
  - intros Hex ->. apply (inv_exact _ _ _ HT Hex). by apply final_null.
Qed.

Lemma changes_ok t p :
  TInv t (view p) → LInv p → mConsistency t = EXACT →
  ∃ cs, foldT (changesOf p) (iter _ (map_to_list (finalEntries t))) [] = Ok cs ∧
    foldT applyChange cs (ledgerEntries (view p)) = Ok (ledgerEntries (overlay (finalEntries t) (view p))).
Proof.
  intros HT HL Hex. set (l := iter _ (map_to_list (finalEntries t))).
  assert (∀ k x, (k, x) ∈ l → (∀ e, x = Some e → goodEntry owner k e) ∧ legal x (view p !! k)) as Hl.
  { intros k x Hin. destruct (final_elem t p k x HT Hin). auto. }
  rewrite (foldT_append _ (λ kx, changesAt (view p !! kx.1) kx)).
  2:{ intros [k x] acc Hin. destruct (Hl k x Hin). by apply changesOf_ok. }
  eexists. split; [done|]. cbn [app]. rewrite foldT_concat, <- (iter_map iter Hiter (finalEntries t)).
  apply (fold_view owner _ ledgerEntries (λ k x old, old = view p !! k ∧ legal x old)).
  - apply (iter_keys iter Hiter).
  - by apply (LInv_good owner).
  - intros k x Hin. destruct (Hl k x Hin). auto.
  - intros k x v Hv Hx [E Hleg]. cbn [fst]. rewrite <- E. by apply applyChanges_at.
Qed.

Lemma getChanges_ok : implements (λ _, RDone) rdone (getChanges iter) (λ t _, sseal true t).
Proof.
  apply (seal_ok (λ t p entries, foldT (changesOf p) (iter _ (map_to_list entries)) []) true). intros t p HT HL Hex.
  destruct (changes_ok t p HT HL (Hex eq_refl)) as (cs & -> & _). by exists cs.
Qed.

Lemma getDelta_ok : implements (λ _, RDone) rdone getDelta (λ t _, sseal true t).
Proof.
  apply (seal_ok (λ t p entries, Ok (map_imap (λ key entry, Some (entry, getNewestVersion p key)) entries, (mHeader t, getHeader p))) true). eauto.
Qed.

Lemma allEntries_ok t p :
  TInv t (view p) →
  let l := iter _ (map_to_list (finalEntries t)) in
  foldT (allEntriesOf p) l ([], [], []) = Ok (omap (initAt (view p)) l, omap (liveAt (view p)) l, omap deadAt l).
Proof. intros HT l. apply allEntries_fold. intros k x e Hin. by apply (final_elem t p k x). Qed.

Lemma getAllEntries_ok : implements (λ _, RDone) rdone (getAllEntries iter) (λ t _, sseal false t).
Proof.
  apply (seal_ok (λ t p entries, foldT (allEntriesOf p) (iter _ (map_to_list entries)) ([], [], [])) false). intros t p HT HL _.
  rewrite (allEntries_ok t p HT). eauto.
Qed.
End Iterate.
End Owners.
