(* ===== verification/LedgerTxnCommit.v ===== *)
(** * Transactions keep their contract: opening, committing and rolling back *)

From stdpp Require Import prelude list gmap.
From Stdlib Require Import ZArith Lia.
From S2P Require Import Prelude Numeric Exchange LedgerEntries OfferOrder LedgerTxn LedgerTxnBook LedgerTxnBest LedgerTxnInv LedgerTxnSpec LedgerTxnRefine LedgerTxnOffers LedgerTxnSeal.
Local Open Scope Z_scope.

Section Owners.
Context (owner : Z → AccountID).
Notation TInv := (TInv owner).
Notation LInv := (LInv owner).
Notation Inv := (Inv owner).

Lemma child_tinv t v b : TInv t v → TInv (set_mChild b t) v.
Proof. intros [H1 H2 H3 H4 H5 H6 H7]. by split. Qed.

(** ** Opening *)

(** All the handles expire, one after another. *)
Lemma release_all p act0 l t :
  TInv t (view p) → LInv p → mIsSealed t = false → NoDup l.*1 → (∀ k, mActive t !! k ≠ None ↔ k ∈ l.*1) →
  ∃ mob, foldT (λ kv : InternalLedgerKey * EntryHandle, updateEntryIfRecorded p kv.1 false) l (set_mActive act0 t) = Ok (set_mMultiOrderBook mob (set_mActive act0 t)) ∧
    TInv (set_mActive ∅ (set_mMultiOrderBook mob t)) (view p).
Proof.
  revert t. induction l as [|[k h] l IH]; intros t HT HL Hs Hn Hl.
  - exists (mMultiOrderBook t). split; [by destruct t|]. assert (mActive t = ∅) as <-; [|by destruct t].
    apply map_eq. intros k. rewrite lookup_empty. destruct (mActive t !! k) eqn:E; [|done].
    assert (k ∈ ([] : list (InternalLedgerKey * EntryHandle)).*1) as []%elem_of_nil. apply Hl. by rewrite E.
  - rewrite fmap_cons in Hn, Hl. cbn [fst] in Hn, Hl. apply NoDup_cons in Hn as [Hk Hn].
    assert (mActive t !! k ≠ None) as Hak by (apply Hl; by left).
    pose proof (active_shown owner t (view p) k HT Hak) as Hsh. destruct (overlay (mEntry t) (view p) !! k) as [e|] eqn:Ee; [|done].
    destruct (delete_active (mActive t) k) as [D1 D2].
    destruct (rehold_ok owner t p k e false (delete k (mActive t)) act0 HT Hs Ee (shown_good owner t p k e HT HL Ee) D1) as (mob & E & HT'); [done|intros; congruence|].
    cbn [foldT fst]. rewrite E. cbn [obind].
    destruct (IH (set_mActive (delete k (mActive t)) (set_mMultiOrderBook mob t)) HT' HL) as (mob' & E' & HT''); [done|done| |].
    + intros k'. cbn [mActive set_mActive]. destruct (decide (k' = k)) as [->|Hne]; [by rewrite D2|]. rewrite D1 by done. rewrite Hl, elem_of_cons. naive_solver.
    + exists mob'. split; [|by destruct t]. replace (set_mMultiOrderBook mob (set_mActive act0 t))
        with (set_mActive act0 (set_mActive (delete k (mActive t)) (set_mMultiOrderBook mob t))) by (by destruct t). rewrite E'. by destruct t.
Qed.

Lemma overlay_empty v : overlay ∅ v = v.
Proof. apply map_eq. intros k. by rewrite overlay_lookup, lookup_empty. Qed.

Lemma new_tinv upd h v : TInv (newImpl upd h) v.
Proof.
  split; cbn; try done; try (intros ? ? ?%lookup_empty_Some; done).
  intros _ P. cbn. rewrite lookup_empty. cbn. split; [by repeat constructor|]. intros d k. split; [by intros ?%elem_of_nil|].
  intros (_ & e & o & H & _). by rewrite lookup_empty in H.
Qed.

Section Iterate.
Context (iter : ∀ A : Type, list A → list A) (Hiter : ∀ A l, iter A l ≡ₚ l).

Lemma open_ok upd l :
  Inv l →
  match newLedgerTxn iter upd l with
  | Ok l' => sopen upd (abs l) = Ok (abs l') ∧ Inv l'
  | Fail e => sopen upd (abs l) = Fail e
  end.
Proof.
  intros [HL Ht]. destruct l as [r|t p]; simpl in Ht; unfold newLedgerTxn, checkT.
  - rewrite Ht. cbn [negb obind]. split; [|by split; [split; [apply new_tinv|]|]]. unfold sopen. cbn. do 2 f_equal. unfold absT. cbn. by rewrite overlay_empty.
  - destruct HL as (HT & Hp & HL). unfold addChild, throwIfSealed, throwIfChild, checkT, sopen. rewrite Ht. cbn [abs absT s_sealed].
    destruct (mIsSealed t) eqn:Hs; cbn [negb obind]; [done|].
    destruct (release_all p (mActive t) (iter _ (map_to_list (mActive t))) (set_mChild true t)) as (mob & E & HT'); try done.
    + by apply child_tinv.
    + apply (iter_keys iter Hiter).
    + intros k. cbn [mActive set_mChild]. rewrite list_elem_of_fmap. split.
      * destruct (mActive t !! k) as [h|] eqn:Ek; [|done]. intros _. exists (k, h). split; [done|]. by apply (iter_elem iter Hiter).
      * intros ([k' h] & -> & H%(iter_elem iter Hiter)). simpl. by rewrite H.
    + change (mActive t) with (mActive (set_mChild true t)) in E at 2. rewrite set_active_eta in E. rewrite E. cbn [obind]. split.
      * unfold checkT. cbn [obind abs]. do 2 f_equal. unfold absT. cbn. by rewrite overlay_empty.
      * split; [|done]. split; [apply new_tinv|]. split; [done|]. split; [|done]. rewrite <- (set_header_eta (set_mActive ∅ _)). by apply header_tinv.
Qed.

(** ** Committing to the root *)

(** A row either is found or need not be. *)
Definition rowOk (cons : LedgerTxnConsistency) (x old : option InternalLedgerEntry) : Prop := cons = EXACT → legal x old.

Lemma ledgerEntries_set k x v :
  ledgerEntries (setView (LEDGER_KEY k) (LEDGER_ENTRY <$> x) v) = match x with Some e => <[k := e]> (ledgerEntries v) | None => delete k (ledgerEntries v) end.
Proof.
  apply map_eq. intros k'. rewrite ledgerEntries_lookup. destruct (decide (k = k')) as [<-|Hne].
  - rewrite setView_eq. destruct x; [by rewrite lookup_insert_eq|by rewrite lookup_delete_eq].
  - rewrite setView_ne by congruence. destruct x; [rewrite lookup_insert_ne by done|rewrite lookup_delete_ne by done]; by rewrite ledgerEntries_lookup.
Qed.

Lemma ledgerEntries_other k x v : (∀ lk, k ≠ LEDGER_KEY lk) → ledgerEntries (setView k x v) = ledgerEntries v.
Proof. intros Hk. apply map_eq. intros lk. by rewrite !ledgerEntries_lookup, setView_ne. Qed.

Lemma applyRow_ok cons k x v :
  goodView owner v → (∀ e, x = Some e → goodEntry owner k e) → rowOk cons x (v !! k) →
  applyRow cons (k, x) (ledgerEntries v) = Ok (ledgerEntries (setView k x v)).
Proof.
  intros Hv Hx Hr. unfold applyRow, checkT. cbn [fst snd]. destruct k as [k|a|a]; [|by rewrite ledgerEntries_other..]. destruct x as [e|].
  - destruct (good_ledger_arm owner k e (Hx e eq_refl)) as (y & -> & _). by rewrite (ledgerEntries_set k (Some y)).
  - rewrite (ledgerEntries_set k None). rewrite ledgerEntries_lookup. destruct cons; [|by rewrite orb_true_r].
    destruct (v !! LEDGER_KEY k) as [old|] eqn:E; [|by destruct (Hr eq_refl eq_refl)].
    by destruct (good_ledger_arm owner k old (Hv _ _ E)) as (y & -> & _).
Qed.

Lemma root_good v : goodView owner v → goodView owner (rootEntries (ledgerEntries v)).
Proof.
  intros Hv k e. rewrite rootEntries_lookup. destruct k as [k|a|a]; try done. rewrite ledgerEntries_lookup.
  destruct (v !! LEDGER_KEY k) as [[y| |]|] eqn:E; try done. intros [= <-]. by apply Hv.
Qed.

Lemma commit_root c r :
  TInv c (rootEntries (r_database r)) → goodView owner (rootEntries (r_database r)) →
  foldT (applyRow (mConsistency c)) (iter _ (map_to_list (finalEntries c))) (r_database r) =
  Ok (ledgerEntries (overlay (finalEntries c) (rootEntries (r_database r)))).
Proof.
  intros HT Hg. rewrite <- (root_ledgerEntries (r_database r)) at 1. rewrite <- (iter_map iter Hiter (finalEntries c)) at 2.
  apply (fold_view owner (applyRow (mConsistency c)) ledgerEntries (λ _, rowOk (mConsistency c))); [apply (iter_keys iter Hiter)|done| |].
  - intros k x Hin. destruct (final_elem owner iter Hiter c (Root r) k x HT Hin). auto.
  - intros. by apply applyRow_ok.
Qed.

(** ** Committing to another transaction *)

(** What the parent has recorded when it has taken over the entries [entries] *)
Definition takenOver (entries ent : gmap InternalLedgerKey (option InternalLedgerEntry)) (v : Entries) (k : InternalLedgerKey)
  : option (option InternalLedgerEntry) :=
  match entries !! k with
  | Some (Some e) => Some (Some e)
  | Some None => if isNull (v !! k) then None else Some None
  | None => ent !! k
  end.

Lemma take_over p l t :
  TInv t (view p) → mIsSealed t = false → mActive t = ∅ → NoDup l.*1 → (∀ k x e, (k, x) ∈ l → x = Some e → goodEntry owner k e) →
  ∃ mob ent, foldT (λ kv, updateEntryOf p kv.1 kv.2) l t = Ok (set_mMultiOrderBook mob (set_mEntry ent t)) ∧
    TInv (set_mMultiOrderBook mob (set_mEntry ent t)) (view p) ∧ ∀ k, ent !! k = takenOver (list_to_map l) (mEntry t) (view p) k.
Proof.
  revert t. induction l as [|[k x] l IH]; intros t HT Hs Ha Hn Hl.
  - exists (mMultiOrderBook t), (mEntry t). split; [by destruct t|]. by destruct t.
  - rewrite fmap_cons in Hn. apply NoDup_cons in Hn as [Hk Hn]. cbn [foldT fst snd].
    unfold updateEntryOf at 1, updateEntryActive. rewrite Ha, lookup_empty, getNewestVersion_view. cbn [isNull negb].
    set (er := isNull x && isNull (view p !! k)).
    assert (er = true → x = None ∧ view p !! k = None) as Her by (unfold er; by destruct x, (view p !! k)).
    destruct (record_ok owner t (view p) k x false er (mActive t) (mActive t) (mConsistency t)) as (mob & E & HT'); try done.
    { intros e ->. by apply (Hl k (Some e) e); [left|]. } { by rewrite Ha. } { intros h. by rewrite Ha. }
    { intros Hex. split; [done|]. intros ->. unfold er. destruct (view p !! k); auto. }
    rewrite set_active_eta in E. rewrite E. cbn [obind]. destruct (IH (afterRecord k x er mob t)) as (mob' & ent & E' & HT'' & Hent); try done.
    { intros k' x' e Hin. apply (Hl k' x' e). by right. }
    exists mob', ent. split; [rewrite E'; by destruct t|]. split; [by destruct t|]. intros k'. rewrite Hent. unfold takenOver, afterRecord. cbn [mEntry set_mMultiOrderBook set_mEntry list_to_map foldr fst snd].
    destruct (decide (k = k')) as [<-|Hne].
    + rewrite lookup_insert_eq, (proj1 (not_elem_of_list_to_map l k) Hk). unfold recorded, er.
      destruct x; cbn [isNull andb]; [by rewrite lookup_insert_eq|]. destruct (isNull (view p !! k)); [by rewrite lookup_delete_eq|by rewrite lookup_insert_eq].
    + rewrite lookup_insert_ne by done. destruct (list_to_map l !! k') as [[]|]; try done. by rewrite recorded_ne.
Qed.

Lemma worst_fold l t v :
  TInv t v → (∀ P w, (P, w) ∈ l → (∀ d, w = Some d → priced (price d)) ∧ ∀ k e o, isOffer v P None k e o → notAfter w o → mEntry t !! k ≠ None) →
  ∃ wbo, foldl (λ t kv, updateWorstBestOffer kv.1 kv.2 t) t l = set_mWorstBestOffer wbo t ∧ TInv (set_mWorstBestOffer wbo t) v.
Proof.
  revert t. induction l as [|[P w] l IH]; intros t HT Hl; cbn [foldl].
  { exists (mWorstBestOffer t). split; by destruct t. }
  destruct (Hl P w ltac:(by left)) as [Hd Hr]. destruct (worst_update owner t v P w HT Hd Hr) as (HT' & _).
  assert (∃ wbo, updateWorstBestOffer P w t = set_mWorstBestOffer wbo t) as [wbo E].
  { unfold updateWorstBestOffer. destruct (mWorstBestOffer t !! P) as [u|]; [destruct (isWorseThan w u)|]; try by eexists. exists (mWorstBestOffer t). by destruct t. }
  cbn [fst snd]. rewrite E in *. destruct (IH (set_mWorstBestOffer wbo t) HT') as (wbo' & E' & HT''); [intros ???; eapply Hl; by right|].
  exists wbo'. rewrite E'. split; by destruct t.
Qed.

Lemma takenOver_view entries ent (ent' : gmap InternalLedgerKey (option InternalLedgerEntry)) v :
  (∀ k, ent' !! k = takenOver entries ent v k) → overlay ent' v = overlay entries (overlay ent v).
Proof.
  intros H. apply map_eq. intros k. rewrite !overlay_lookup, H. unfold takenOver.
  destruct (entries !! k) as [[e|]|]; [done| |done]. by destruct (v !! k).
Qed.

Lemma takenOver_dom entries ent (ent' : gmap InternalLedgerKey (option InternalLedgerEntry)) v :
  (∀ k, ent' !! k = takenOver entries ent v k) →
  dom ent' = (dom ent ∖ dom entries) ∪
    filter (λ k, is_Some (overlay entries (overlay ent v) !! k) ∨ is_Some (v !! k)) (dom entries).
Proof.
  intros H. apply set_eq. intros k. rewrite elem_of_union, elem_of_difference, elem_of_filter, !elem_of_dom, H, overlay_lookup. unfold takenOver.
  destruct (entries !! k) as [[e|]|]; [|destruct (v !! k)|]; simpl; naive_solver eauto using is_Some_None.
Qed.

(** The worst best offers of the child hold for the parent's parent. *)
Lemma takenOver_worst c t p (ent' : gmap InternalLedgerKey (option InternalLedgerEntry)) :
  TInv c (view (Nested t p)) → (∀ k, ent' !! k = takenOver (finalEntries c) (mEntry t) (view p) k) →
  worstOk (mWorstBestOffer c) ent' (view p).
Proof.
  intros HT Hent P w Hw. destruct (inv_worst _ _ _ HT P w Hw) as [Hd Hr]. split; [done|]. intros k e o (Hv & Ho) Hna. rewrite Hent.
  unfold takenOver. destruct (finalEntries c !! k) as [[x|]|] eqn:Ef; [done|by rewrite Hv|]. apply final_None in Ef. intros Et.
  apply (Hr k e o); [|done|done]. split; [|done]. cbn [view]. by rewrite overlay_lookup, Et.
Qed.

Lemma commit_nested c t p :
  TInv c (view (Nested t p)) → LInv (Nested t p) → isParent (Nested t p) →
  ∃ l', commitChild iter c (finalEntries c) (Nested t p) = Ok l' ∧
    scommit (abs (Nested c (Nested t p))) = Ok (abs l') ∧ Inv l'.
Proof.
  intros HTc (HT & Hp & HL) (Hc & Hs & Ha & Hh). cbn [commitChild]. set (cons := joinConsistencyLevels (mConsistency t) (mConsistency c)).
  assert (TInv (set_mConsistency cons t) (view p)) as HT0.
  { destruct HT as [H1 H2 H3 H4 H5 H6 H7]. split; try done. cbn. intros Hj. apply H2. unfold cons in Hj. by destruct (mConsistency t). }
  destruct (take_over p (iter _ (map_to_list (finalEntries c))) (set_mConsistency cons t) HT0 Hs Ha) as (mob & ent & E & HT1 & Hent).
  { apply (iter_keys iter Hiter). }
  { intros k x e Hin. by apply (final_elem owner iter Hiter c (Nested t p) k x HTc Hin). }
  rewrite (iter_map iter Hiter) in Hent. rewrite E. cbn [obind].
  destruct (worst_fold (iter _ (map_to_list (mWorstBestOffer c))) _ _ HT1) as (wbo & -> & HT2).
  { intros P w Hin. rewrite (Hiter _ (map_to_list _)) in Hin. apply elem_of_map_to_list in Hin. by apply (takenOver_worst c t p ent HTc Hent). }
  eexists. split; [done|]. split.
  - cbn [abs scommit]. rewrite <- final_view. cbn [absT s_recorded s_header s_consistency view]. rewrite sview_abs. do 3 f_equal.
    change (mEntry (set_mConsistency cons t)) with (mEntry t) in Hent.
    by rewrite <- (final_dom c), <- (takenOver_dom _ _ _ _ Hent), <- (takenOver_view _ _ _ _ Hent).
  - split; [|done]. split; [|done]. apply child_tinv.
    rewrite <- (set_activeHeader_eta (set_mHeader _ _)). by apply header_tinv.
Qed.

Lemma ltxCommit_ok l :
  Inv l →
  match commit iter l with
  | Ok l' => scommit (abs l) = Ok (abs l') ∧ Inv l'
  | Fail e => scommit (abs l) = Fail e
  end.
Proof.
  intros [HL Ht]. destruct l as [r|c p]; [done|]. destruct HL as (HTc & Hp & HL). cbn [commit]. rewrite invokeThenSeal_final by done.
  destruct p as [r|t pp].
  - cbn [commitChild]. rewrite commit_root by done. cbn [obind fst]. split; [cbn [abs scommit]; by rewrite <- final_view|]. split; [|done].
    cbn. apply root_good, goodView_overlay; [|done]. apply final_good, HTc.
  - destruct (commit_nested c t pp HTc HL Hp) as (l' & E & H). by rewrite E.
Qed.
End Iterate.

(** ** Rolling back *)

Lemma rollback_parent p : isParent p → LInv p → abs (rollbackChild p) = abs p ∧ Inv (rollbackChild p).
Proof.
  destruct p as [r|t p]; [done|]. intros _ (HT & Hp & HL). split; [done|]. split; [|done]. split; [|done]. by apply child_tinv.
Qed.

Lemma rollback_ok inner l :
  Inv l →
  match rollbackInner inner l with
  | Ok l' => srollback inner (abs l) = Ok (abs l') ∧ Inv l'
  | Fail e => srollback inner (abs l) = Fail e
  end.
Proof.
  revert l. induction inner as [|inner IH]; intros l [HL Ht]; (destruct l as [r|t p]; [done|]); destruct HL as (_ & Hp & HL);
    destruct (rollback_parent p Hp HL) as [Ha Hi]; cbn [rollbackInner rollback obind abs srollback]; rewrite <- Ha.
  - done.
  - by apply IH.
Qed.
End Owners.
