(* ===== verification/LedgerTxnRun.v ===== *)
(** * Runs of nested transactions

    Every event keeps the contract, and so do the runs of a client from the root. *)

From stdpp Require Import prelude list gmap.
From Stdlib Require Import ZArith Lia.
From S2P Require Import Prelude Numeric Exchange LedgerEntries OfferOrder LedgerTxn LedgerTxnBook LedgerTxnBest LedgerTxnInv LedgerTxnSpec LedgerTxnRefine LedgerTxnOffers LedgerTxnSeal LedgerTxnCommit.
Local Open Scope Z_scope.

Definition root (h : LedgerHeader) (db : gmap LedgerKey LedgerEntry) : Ledger :=
  Root {| r_child := false; r_header := h; r_database := db |}.

Fixpoint runLtx (evs : list LtxEvent) (l : Ledger) : LT (list Reply * Ledger) :=
  match evs with
  | [] => Ok ([], l)
  | ev :: evs => let? r := step ev l in let? s := runLtx evs r.2 in Ok (r.1 :: s.1, s.2)
  end.

Fixpoint srun (evs : list LtxEvent) (l : SLedger) : LT (list Reply * SLedger) :=
  match evs with
  | [] => Ok ([], l)
  | ev :: evs => let? r := sstep ev l in let? s := srun evs r.2 in Ok (r.1 :: s.1, s.2)
  end.

Lemma srun_app evs evs' l :
  srun (evs ++ evs') l = let? r := srun evs l in let? s := srun evs' r.2 in Ok (r.1 ++ s.1, s.2).
Proof.
  revert l. induction evs as [|ev evs IH]; intros l; cbn [app srun obind fst snd].
  - by destruct (srun evs' l) as [[]|].
  - destruct (sstep ev l) as [[r l1]|]; cbn [obind fst snd]; [|done]. rewrite IH. destruct (srun evs l1) as [[rs l2]|]; cbn [obind fst snd]; [|done].
    by destruct (srun evs' l2) as [[]|].
Qed.

Section Owners.
Context (owner : Z → AccountID).

(** What a client has to respect: offers have a price and the seller that their number
    belongs to, and an entry is not assigned one of another key.  Hash tables list each
    entry once. *)
Definition evOk (ev : LtxEvent) : Prop :=
  match ev with
  | EvOpen iter _ | EvCommit iter | EvLoadAllOffers iter | EvLoadOffersByAccountAndAsset iter _ _ | EvGetChanges iter | EvGetAllEntries iter =>
      ∀ A l, iter A l ≡ₚ l
  | EvCreate e | EvCreateOrUpdate e => goodEntry owner (toKey e) e
  | EvAssign key f => ∀ e, goodEntry owner key e → goodEntry owner key (f e)
  | _ => True
  end.

Lemma step_ok ev l :
  evOk ev → Inv owner l →
  match step ev l with
  | Ok (r, l') => sstep ev (abs l) = Ok (r, abs l') ∧ Inv owner l'
  | Fail e => sstep ev (abs l) = Fail e
  end.
Proof.
  intros Hev HI. destruct ev; cbn [evOk] in Hev; cbn [step sstep];
    [ pose proof (open_ok owner iter Hev shouldUpdateLastModified l HI) as H
    | pose proof (ltxCommit_ok owner iter Hev l HI) as H
    | pose proof (rollback_ok owner inner l HI) as H
    |..].
  1: destruct (newLedgerTxn _ _ _) as [l'|e].
  3: destruct (commit _ _) as [l'|e].
  5: destruct (rollbackInner _ _) as [l'|e].
  1,3,5: destruct H as [-> H]; done.
  1-3: by rewrite H.
  all: eapply (onTop_ok owner); [|done].
  all: eauto using create_ok, createOrUpdate_ok, erase_ok, eraseWithoutLoading_ok, load_ok, loadWithoutRecord_ok, current_ok, assign_ok,
    deactivate_ok, eraseHandle_ok, header_ok, loadHeader_ok, assignHeader_ok, deactivateHeader_ok, unsealHeader_ok, loadBestOffer_ok,
    loadOffers_ok, getChanges_ok, getDelta_ok, getAllEntries_ok.
Qed.

Lemma runLtx_ok evs l :
  Forall evOk evs → Inv owner l →
  match runLtx evs l with
  | Ok (rs, l') => srun evs (abs l) = Ok (rs, abs l') ∧ Inv owner l'
  | Fail e => srun evs (abs l) = Fail e
  end.
Proof.
  intros Hev. revert l. induction Hev as [|ev evs Hev _ IH]; intros l HI; [done|]. cbn [runLtx srun].
  pose proof (step_ok ev l Hev HI) as Hs. destruct (step ev l) as [[r l1]|e]; cbn [obind]; [|by rewrite Hs].
  destruct Hs as [-> HI1]. cbn [obind fst snd]. specialize (IH l1 HI1). destruct (runLtx evs l1) as [[rs l2]|e]; cbn [obind]; [|by rewrite IH].
  destruct IH as [-> ?]. done.
Qed.

Lemma root_inv h db : goodView owner (rootEntries db) → Inv owner (root h db).
Proof. done. Qed.
End Owners.
