(* ===== verification/LedgerClose.v ===== *)
(** * Closing a ledger (src/ledger/LedgerManagerImpl.cpp, src/bucket/BucketManagerImpl.cpp)

    The genesis and the fee ledger, and the closing of further ones: what happens in a
    ledger are the events of a client of the ledger transaction; the entries then go to
    the bucket list, the header gets the hash of the list and the skip list, and the
    transaction is committed to the database.  Charging fees, applying transactions and
    upgrades are the events; the history and the metadata that are stored along the way
    are not modelled. *)

From stdpp Require Import prelude list gmap.
From Stdlib Require Import ZArith Lia.
From S2P Require Import Prelude Numeric Exchange LedgerEntries Buckets BucketList BucketListSafety.
From S2P Require Import OfferOrder LedgerTxn LedgerTxnSpec LedgerTxnRun.
Local Open Scope Z_scope.

(** ** The skip list *)

Definition SKIP_1 : Z := 50.
Definition SKIP_2 : Z := 5000.
Definition SKIP_3 : Z := 50000.
Definition SKIP_4 : Z := 500000.

Definition skipAt (l : list Z) (i : nat) : Z := default 0 (l !! i).

(** [calculateSkipValues]: differences are computed on 32 bits without sign and read
    with a sign. *)
Definition calculateSkipValues (ledgerSeq bucketListHash : Z) (skipList : list Z) : list Z :=
  if ledgerSeq mod SKIP_1 =? 0 then
    let v := s32 (ledgerSeq - SKIP_1) in
    let skipList :=
      if (0 <? v) && (Z.rem v SKIP_2 =? 0) then
        let v := s32 (ledgerSeq - SKIP_2 - SKIP_1) in
        let skipList :=
          if (0 <? v) && (Z.rem v SKIP_3 =? 0) then
            let v := s32 (ledgerSeq - SKIP_3 - SKIP_2 - SKIP_1) in
            let skipList := if (0 <? v) && (Z.rem v SKIP_4 =? 0) then <[3%nat := skipAt skipList 2]> skipList else skipList in
            <[2%nat := skipAt skipList 1]> skipList
          else skipList in
        <[1%nat := skipAt skipList 0]> skipList
      else skipList in
    <[0%nat := bucketListHash]> skipList
  else skipList.

(** ** Headers *)

Definition setSnapshot (hash : Z) (skip : list Z) (h : LedgerHeader) : LedgerHeader :=
  {| ledgerVersion := ledgerVersion h; ledgerSeq := ledgerSeq h; closeTime := closeTime h; totalCoins := totalCoins h;
     feePool := feePool h; inflationSeq := inflationSeq h; idPool := idPool h; baseFee := baseFee h; baseReserve := baseReserve h;
     maxTxSetSize := maxTxSetSize h; previousLedgerHash := previousLedgerHash h; bucketListHash := hash; skipList := skip |}.

Definition setPreviousLedgerHash (hash : Z) (h : LedgerHeader) : LedgerHeader :=
  {| ledgerVersion := ledgerVersion h; ledgerSeq := ledgerSeq h; closeTime := closeTime h; totalCoins := totalCoins h;
     feePool := feePool h; inflationSeq := inflationSeq h; idPool := idPool h; baseFee := baseFee h; baseReserve := baseReserve h;
     maxTxSetSize := maxTxSetSize h; previousLedgerHash := hash; bucketListHash := bucketListHash h; skipList := skipList h |}.

Definition setLedgerSeq (seq : Z) (h : LedgerHeader) : LedgerHeader :=
  {| ledgerVersion := ledgerVersion h; ledgerSeq := seq; closeTime := closeTime h; totalCoins := totalCoins h;
     feePool := feePool h; inflationSeq := inflationSeq h; idPool := idPool h; baseFee := baseFee h; baseReserve := baseReserve h;
     maxTxSetSize := maxTxSetSize h; previousLedgerHash := previousLedgerHash h; bucketListHash := bucketListHash h; skipList := skipList h |}.

Definition setCloseTime (time : Z) (h : LedgerHeader) : LedgerHeader :=
  {| ledgerVersion := ledgerVersion h; ledgerSeq := ledgerSeq h; closeTime := time; totalCoins := totalCoins h;
     feePool := feePool h; inflationSeq := inflationSeq h; idPool := idPool h; baseFee := baseFee h; baseReserve := baseReserve h;
     maxTxSetSize := maxTxSetSize h; previousLedgerHash := previousLedgerHash h; bucketListHash := bucketListHash h; skipList := skipList h |}.

Definition GENESIS_LEDGER_SEQ : Z := 1.
Definition GENESIS_LEDGER_VERSION : Z := 0.
Definition GENESIS_LEDGER_BASE_FEE : Z := 100.
Definition GENESIS_LEDGER_BASE_RESERVE : Z := 100000000.
Definition GENESIS_LEDGER_MAX_TX_SIZE : Z := 100.
Definition GENESIS_LEDGER_TOTAL_COINS : Z := 200000000000000000.

Definition genesisLedger : LedgerHeader :=
  {| ledgerVersion := GENESIS_LEDGER_VERSION; ledgerSeq := GENESIS_LEDGER_SEQ; closeTime := 0; totalCoins := GENESIS_LEDGER_TOTAL_COINS;
     feePool := 0; inflationSeq := 0; idPool := 0; baseFee := GENESIS_LEDGER_BASE_FEE; baseReserve := GENESIS_LEDGER_BASE_RESERVE;
     maxTxSetSize := GENESIS_LEDGER_MAX_TX_SIZE; previousLedgerHash := 0; bucketListHash := 0; skipList := [0; 0; 0; 0] |}.

Definition feeLedger : LedgerHeader := setLedgerSeq 2 genesisLedger.

(** The configuration for the genesis: [USE_CONFIG_FOR_GENESIS] with the values of the
    upgrades *)
Record GenesisConfig : Type := {
  LEDGER_PROTOCOL_VERSION : Z;
  TESTING_UPGRADE_DESIRED_FEE : Z;
  TESTING_UPGRADE_RESERVE : Z;
  TESTING_UPGRADE_MAX_TX_SET_SIZE : Z
}.

Definition configured (cfg : option GenesisConfig) (h : LedgerHeader) : LedgerHeader :=
  match cfg with
  | None => h
  | Some c =>
      {| ledgerVersion := LEDGER_PROTOCOL_VERSION c; ledgerSeq := ledgerSeq h; closeTime := closeTime h; totalCoins := totalCoins h;
         feePool := feePool h; inflationSeq := inflationSeq h; idPool := idPool h; baseFee := TESTING_UPGRADE_DESIRED_FEE c;
         baseReserve := TESTING_UPGRADE_RESERVE c; maxTxSetSize := TESTING_UPGRADE_MAX_TX_SET_SIZE c;
         previousLedgerHash := previousLedgerHash h; bucketListHash := bucketListHash h; skipList := skipList h |}
  end.

(** The account of a key with a balance *)
Definition newAccountEntry (id balance seq : Z) : LedgerEntry :=
  {| lastModifiedLedgerSeq := seq;
     data := ACCOUNT {| a_accountID := id; a_balance := balance; seqNum := 0; numSubEntries := 0; inflationDest := None; a_flags := 0;
                        homeDomain := []; thresholds := [1; 0; 0; 0]; signers := []; a_extV1 := None |};
     le_ext := None |}.

(** ** The ledger manager *)

Inductive CloseError : Type :=
| CloseLtx (e : LtxError)
| CloseBucket (e : BucketError)
| UnsupportedVersion
| TxSetMismatch
| CorruptTransactionSet
| OpenTransaction
| TransactionClosed.

Notation CE := (outcome CloseError).

Definition ofLtx {A} (x : LT A) : CE A := match x with Ok a => Ok a | Fail e => Fail (CloseLtx e) end.
Definition ofBucket {A} (x : BE A) : CE A := match x with Ok a => Ok a | Fail e => Fail (CloseBucket e) end.
Definition checkC (b : bool) (f : CloseError) : CE unit := if b then Ok tt else Fail f.

(** What happens in a transaction that its owner keeps open: nobody else may close it. *)
Fixpoint runInside (evs : list LtxEvent) (l : Ledger) : CE Ledger :=
  match evs with
  | [] => Ok l
  | ev :: evs =>
      let? r := ofLtx (step ev l) in
      match r.2 with
      | Root _ => Fail TransactionClosed
      | Nested _ _ => runInside evs r.2
      end
  end.

Record LedgerHeaderHistoryEntry : Type := { lh_hash : Z; lh_header : LedgerHeader }.

Record Node : Type := {
  nd_root : LedgerTxnRoot;
  nd_buckets : list BucketLevel;
  mLastClosedLedger : LedgerHeaderHistoryEntry
}.

(** How the hash tables are iterated and which merges are ready when a ledger closes *)
Record CloseEnv : Type := {
  ce_iter : ∀ A : Type, list A → list A;
  ce_pessimize : bool;
  ce_ready : Z → bool
}.

Record LedgerCloseData : Type := {
  lcd_previousLedgerHash : Z;
  lcd_contentsHash : Z;
  lcd_txSetHash : Z;
  lcd_closeTime : Z
}.

Section Manager.
(** The hashes of buckets, of the list and of headers *)
Context (hash : list BucketEntry → Z) (sha : list Z → Z) (headerHash : LedgerHeader → Z).
Context (MODE_ENABLES_BUCKETLIST : bool).
Notation sd := (λ _ : nat, false).

Definition snapshotLedger (bl : list BucketLevel) (h : LedgerHeader) : LedgerHeader :=
  let x := if MODE_ENABLES_BUCKETLIST then getHash hash sha bl else 0 in
  setSnapshot x (calculateSkipValues (ledgerSeq h) x (skipList h)) h.

Definition advanceLedgerPointers (h : LedgerHeader) : LedgerHeaderHistoryEntry := {| lh_hash := headerHash h; lh_header := h |}.

(** [ltx.loadHeader().current()]: the handle is destroyed at the end of the statement. *)
Definition readHeader (t : Impl) : LT (LedgerHeader * Impl) :=
  let? t := LedgerTxn.loadHeader t in
  let? t' := deactivateHeader t in
  Ok (mHeader t, t').

Definition writeHeader (f : LedgerHeader → LedgerHeader) (t : Impl) : LT Impl :=
  let? t := LedgerTxn.loadHeader t in
  let? t := assignHeader f t in
  deactivateHeader t.

Definition transferLedgerEntriesToBucketList (env : CloseEnv) (seq vers : Z) (t : Impl) (mParent : Ledger) (bl : list BucketLevel)
  : CE (Impl * list BucketLevel) :=
  let? r := ofLtx (getAllEntries (ce_iter env) t mParent) in
  let? bl := (if MODE_ENABLES_BUCKETLIST
              then ofBucket (addBatch hash sd (ce_pessimize env) (ce_ready env) seq vers r.1.1.1 r.1.1.2 r.1.2 bl)
              else Ok bl) in
  Ok (r.2, bl).

Definition ledgerClosed (env : CloseEnv) (t : Impl) (mParent : Ledger) (bl : list BucketLevel)
  : CE (Impl * list BucketLevel * LedgerHeaderHistoryEntry) :=
  let? r := ofLtx (readHeader t) in
  let seq := ledgerSeq r.1 in
  let? r := ofLtx (readHeader r.2) in
  let vers := ledgerVersion r.1 in
  let? r := transferLedgerEntriesToBucketList env seq vers r.2 mParent bl in
  let? t := ofLtx (unsealHeader (snapshotLedger r.2) r.1) in
  Ok (t, r.2, advanceLedgerPointers (mHeader t)).

(** [ledgerClosed] and the commit to the root *)
Definition finishLedger (env : CloseEnv) (l : Ledger) (bl : list BucketLevel) : CE Node :=
  match l with
  | Nested t (Root r) =>
      let? x := ledgerClosed env t (Root r) bl in
      let? l := ofLtx (LedgerTxn.commit (ce_iter env) (Nested x.1.1 (Root r))) in
      match l with
      | Root r => Ok {| nd_root := r; nd_buckets := x.1.2; mLastClosedLedger := x.2 |}
      | Nested _ _ => Fail OpenTransaction
      end
  | _ => Fail OpenTransaction
  end.

(** [startNewLedger]; [rootID] is the public key made from the network's name. *)
Definition startNewLedger (env : CloseEnv) (genesis : LedgerHeader) (rootID : AccountID) (nd : Node) : CE Node :=
  let? r := ofLtx (runLtx
    [EvOpen (ce_iter env) false; EvLoadHeader; EvAssignHeader (λ _, genesis); EvDeactivateHeader;
     EvCreate (LEDGER_ENTRY (newAccountEntry rootID (totalCoins genesis) 1)); EvDeactivate (LEDGER_KEY (KEY_ACCOUNT rootID))] (Root (nd_root nd))) in
  finishLedger env r.2 (nd_buckets nd).

Definition startFeeLedger (env : CloseEnv) (fee : LedgerHeader) (feePoolID : AccountID) (nd : Node) : CE Node :=
  let? r := ofLtx (runLtx
    [EvOpen (ce_iter env) false; EvLoadHeader; EvAssignHeader (λ _, fee); EvDeactivateHeader;
     EvLoadHeader; EvAssignHeader (setPreviousLedgerHash (lh_hash (mLastClosedLedger nd))); EvDeactivateHeader;
     EvCreate (LEDGER_ENTRY (newAccountEntry feePoolID 100 2)); EvDeactivate (LEDGER_KEY (KEY_ACCOUNT feePoolID))] (Root (nd_root nd))) in
  finishLedger env r.2 (nd_buckets nd).

(** How [closeLedger] begins: the header's handle stays until the first transaction
    inside is opened. *)
Definition openEvents (env : CloseEnv) (lclHash : Z) : list LtxEvent :=
  [EvOpen (ce_iter env) true; EvLoadHeader; EvAssignHeader (λ h, setLedgerSeq (u32 (ledgerSeq h + 1)) h);
   EvAssignHeader (setPreviousLedgerHash lclHash)].

(** [closeLedger]; [body] is what happens in the ledger. *)
Definition closeLedger (env : CloseEnv) (supported : Z) (lcd : LedgerCloseData) (body : list LtxEvent) (nd : Node) : CE Node :=
  let lcl := lh_hash (mLastClosedLedger nd) in
  let? r := ofLtx (runLtx (openEvents env lcl) (Root (nd_root nd))) in
  let? _ := checkC (ledgerVersion (getHeader r.2) <=? supported) UnsupportedVersion in
  let? _ := checkC (lcd_previousLedgerHash lcd =? lcl) TxSetMismatch in
  let? _ := checkC (lcd_contentsHash lcd =? lcd_txSetHash lcd) CorruptTransactionSet in
  let? l := runInside (EvAssignHeader (setCloseTime (lcd_closeTime lcd)) :: body) r.2 in
  finishLedger env l (nd_buckets nd).

(** A restart: the buckets are there, their merges are started again. *)
Definition restartNode (getBucketByHash : Z → option (list BucketEntry)) (nd : Node) : CE Node :=
  let h := r_header (nd_root nd) in
  let? bl := ofBucket (restartMerges hash sd getBucketByHash (ledgerVersion h) (ledgerSeq h) (dropFutures (nd_buckets nd))) in
  Ok {| nd_root := nd_root nd; nd_buckets := bl; mLastClosedLedger := advanceLedgerPointers h |}.
End Manager.
