(* ===== verification/LedgerCloseSafety.v ===== *)
(** * A closed ledger is in the database and in the bucket list

    The entries of the transaction that is committed to the database are a batch that
    fits the bucket list and is stamped with the number of the ledger. *)

From stdpp Require Import prelude list gmap.
From Stdlib Require Import ZArith Lia.
From S2P Require Import Prelude Numeric Exchange LedgerEntries Buckets BucketMerge BucketChain BucketList BucketListSafety Catchup.
From S2P Require Import OfferOrder LedgerTxn LedgerTxnBook LedgerTxnBest LedgerTxnInv LedgerTxnSpec LedgerTxnRefine LedgerTxnOffers LedgerTxnSeal LedgerTxnCommit LedgerTxnRun LedgerClose.
Local Open Scope Z_scope.

(** ** The batch of a transaction *)

Definition ledgerKeyAt (kv : InternalLedgerKey * option InternalLedgerEntry) : option LedgerKey :=
  match kv.1 with LEDGER_KEY k => Some k | _ => None end.

Lemma ledgerKeys_nodup (L : list (InternalLedgerKey * option InternalLedgerEntry)) : NoDup L.*1 → NoDup (omap ledgerKeyAt L).
Proof.
  induction L as [|[k x] L IH]; intros Hn; [constructor|]. rewrite fmap_cons in Hn. apply NoDup_cons in Hn as [Hk Hn]. cbn [omap list_omap].
  unfold ledgerKeyAt at 1. cbn [fst]. destruct k as [k|a|a]; [|by apply IH..]. constructor; [|by apply IH].
  rewrite list_elem_of_omap. intros ([k' x'] & Hin & E). unfold ledgerKeyAt in E. cbn [fst] in E. destruct k' as [k'|a|a]; try done. injection E as ->.
  apply Hk. apply list_elem_of_fmap. by exists (LEDGER_KEY k, x').
Qed.

Section Owners.
Context (owner : Z → AccountID).

Section Batch.
Context (v : Entries) (L : list (InternalLedgerKey * option InternalLedgerEntry)).
Hypothesis Hkeys : NoDup L.*1.
Hypothesis Hgood : ∀ k x e, (k, x) ∈ L → x = Some e → goodEntry owner k e.
Notation inits := (omap (initAt v) L).
Notation lives := (omap (liveAt v) L).
Notation deads := (omap deadAt L).

(** The bucket entry of a key *)
Definition batchAt (kv : InternalLedgerKey * option InternalLedgerEntry) : option BucketEntry :=
  match kv.1, kv.2 with
  | LEDGER_KEY _, Some (LEDGER_ENTRY e) => Some (if isNull (v !! kv.1) then INITENTRY e else LIVEENTRY e)
  | LEDGER_KEY k, None => Some (DEADENTRY k)
  | _, _ => None
  end.

Lemma batch_perm (L' : list (InternalLedgerKey * option InternalLedgerEntry)) : batchEntries true (omap (initAt v) L') (omap (liveAt v) L') (omap deadAt L') ≡ₚ omap batchAt L'.
Proof using.
  unfold batchEntries. induction L' as [|[k x] L' IH]; [done|]. cbn [omap list_omap]. unfold initAt at 1, liveAt at 1, deadAt at 1, batchAt at 1. cbn [fst snd].
  destruct k as [k|a|a]; [|done..]. destruct x as [[e|a b|a b]|]; try done.
  - destruct (v !! LEDGER_KEY k); cbn [isNull fmap list_fmap]; rewrite <- IH; [|done]. by rewrite <- app_comm_cons, <- Permutation_middle.
  - cbn [fmap list_fmap]. rewrite <- IH. by rewrite !app_assoc, <- Permutation_middle.
Qed.

Lemma batchAt_key (L' : list (InternalLedgerKey * option InternalLedgerEntry)) : (∀ k x e, (k, x) ∈ L' → x = Some e → goodEntry owner k e) → keyOf <$> omap batchAt L' = omap ledgerKeyAt L'.
Proof using.
  induction L' as [|[k x] L' IH]; intros Hg; [done|]. cbn [omap list_omap]. unfold batchAt at 1, ledgerKeyAt at 1. cbn [fst snd].
  assert (∀ k x e, (k, x) ∈ L' → x = Some e → goodEntry owner k e) as Hg' by (intros; eapply Hg; [by right|done]).
  destruct k as [k|a|a]; [|by apply IH..]. destruct x as [e|]; [|rewrite fmap_cons; f_equal; auto].
  destruct (good_ledger_arm owner k e) as (y & -> & <-); [by eapply Hg; [left|]|]. rewrite fmap_cons. f_equal; [by destruct (isNull _)|auto].
Qed.

Lemma batch_nodup : NoDup (keyOf <$> batchEntries true inits lives deads).
Proof using Hkeys Hgood. rewrite (batch_perm L), (batchAt_key L Hgood). by apply ledgerKeys_nodup. Qed.

Lemma batch_fits : batchOk (ledgerEntries v) inits lives deads.
Proof using Hkeys Hgood.
  split; [apply batch_nodup|]. intros x. rewrite list_elem_of_omap. intros ([k y] & Hin & E). unfold initAt in E. cbn [fst snd] in E.
  destruct k as [k|a|a]; try done. destruct y as [[e|a b|a b]|]; try done. destruct (v !! LEDGER_KEY k) eqn:Ev; [done|]. injection E as ->.
  destruct (Hgood _ _ _ Hin eq_refl) as [[= Hk] _]. by rewrite ledgerEntries_lookup, Hk, Ev.
Qed.

Lemma batch_elem k x b : (LEDGER_KEY k, x) ∈ L → batchAt (LEDGER_KEY k, x) = Some b → getEntry k (batchEntries true inits lives deads) = Some b.
Proof using Hkeys Hgood.
  intros Hin Hb. assert (b ∈ batchEntries true inits lives deads) as Hbin by (rewrite batch_perm; apply list_elem_of_omap; eauto).
  assert (keyOf b = k) as Hk.
  { unfold batchAt in Hb. cbn [fst snd] in Hb. destruct x as [e|]; [|by injection Hb as <-].
    destruct (good_ledger_arm owner k e) as (y & -> & <-); [by eapply Hgood|]. injection Hb as <-. by destruct (isNull _). }
  pose proof (batchEntries_plain true inits lives deads) as Hp. rewrite Forall_forall in Hp.
  destruct (getEntry k (batchEntries true inits lives deads)) as [b'|] eqn:E.
  - apply getEntry_key in E as (H1 & _ & H3). f_equal. apply list_elem_of_lookup in Hbin as [j Hj], H1 as [j' Hj'].
    assert (j' = j) as ->; [|congruence]. eapply (NoDup_lookup _ _ _ k batch_nodup); rewrite list_lookup_fmap; [by rewrite Hj', <- H3|by rewrite Hj, <- Hk].
  - exfalso. revert E. generalize (batchEntries true inits lives deads) Hp Hbin. intros B HB Hin'. induction B as [|c B IH]; [by apply elem_of_nil in Hin'|].
    simpl. apply elem_of_cons in Hin' as [<-|Hin'].
    + by rewrite (HB b) by (by left); rewrite bool_decide_eq_true_2.
    + destruct (negb (isMeta c) && _); [done|]. apply IH; [intros; apply HB; by right|done].
Qed.

(** The ledger after the batch is the transaction's. *)
Lemma batch_after : afterBatch (ledgerEntries v) inits lives deads = ledgerEntries (overlay (list_to_map L) v).
Proof using Hkeys Hgood.
  apply map_eq. intros k. rewrite afterBatch_get by apply batch_nodup. rewrite !ledgerEntries_lookup, overlay_lookup.
  destruct (list_to_map L !! LEDGER_KEY k) as [x|] eqn:E.
  - apply elem_of_list_to_map in E; [|done]. destruct x as [e|].
    + destruct (good_ledger_arm owner k e) as (y & -> & _); [by eapply Hgood|].
      rewrite (batch_elem k _ _ E eq_refl). by destruct (isNull _).
    + by rewrite (batch_elem k _ _ E eq_refl).
  - apply not_elem_of_list_to_map in E. rewrite getEntry_None; [done|]. intros b Hb _ <-. apply E.
    rewrite batch_perm in Hb. assert (keyOf b ∈ omap ledgerKeyAt L) as Hk by (rewrite <- (batchAt_key L Hgood); by apply list_elem_of_fmap_2).
    apply list_elem_of_omap in Hk as ([k' x] & Hin & Hk). unfold ledgerKeyAt in Hk. cbn [fst] in Hk. destruct k'; try done. injection Hk as ->.
    apply list_elem_of_fmap. by exists (LEDGER_KEY (keyOf b), x).
Qed.

Lemma batch_stamped n :
  (∀ k e, (LEDGER_KEY k, Some (LEDGER_ENTRY e)) ∈ L → lastModifiedLedgerSeq e = n) → stamped n inits lives.
Proof using.
  intros H x. rewrite elem_of_app, !list_elem_of_omap. intros [([k y] & Hin & E)|([k y] & Hin & E)]; unfold initAt, liveAt in E; cbn [fst snd] in E;
    destruct k as [k|a|a]; try done; destruct y as [[e|a b|a b]|]; try done; destruct (v !! LEDGER_KEY k); try done; injection E as ->; by apply (H k).
Qed.
End Batch.

(** ** Histories *)

Section Hashes.
Context (hash : list BucketEntry → Z) (sha : list Z → Z) (headerHash : LedgerHeader → Z).
Hypothesis Hempty : hash [] = 0.
Hypothesis Hnonempty : ∀ b, b ≠ [] → hash b ≠ 0.
Notation sd := (λ _ : nat, false).
Notation finishLedger := (finishLedger hash sha headerHash true).

Lemma runNode_app n evs evs' ls :
  runNode hash n (evs ++ evs') ls = let? ls := runNode hash n evs ls in runNode hash (n + Z.of_nat (length (omap batchOf evs))) evs' ls.
Proof using.
  revert n ls. induction evs as [|ev evs IH]; intros n ls; cbn [app runNode omap list_omap length obind]; [by rewrite Z.add_0_r|].
  destruct ev as [pess ready b|g m]; cbn [batchOf].
  - destruct (addBatch _ _ _ _ _ _ _ _ _ _); cbn [obind]; [|done]. rewrite IH. cbn [length].
    by replace (n + 1 + Z.of_nat (length (omap batchOf evs))) with (n + Z.of_nat (S (length (omap batchOf evs)))) by lia.
  - destruct (restartMerges _ _ _ _ _ _); cbn [obind]; [apply IH|done].
Qed.

Lemma batchesOk_snoc P db bs b :
  batchesOk P db bs → lastProtocol P bs ≤ b_protocol b → batchOk (ledgerAfter db bs) (b_init b) (b_live b) (b_dead b) → batchesOk P db (bs ++ [b]).
Proof using.
  revert P db. induction bs as [|c bs IH]; intros P db; cbn; [done|]. intros (H1 & H2 & H3) Hp Hb. split_and!; try done. by apply IH.
Qed.

Lemma batchesStamped_snoc n bs b :
  batchesStamped n bs → stamped (n + Z.of_nat (length bs) + 1) (b_init b) (b_live b) → batchesStamped n (bs ++ [b]).
Proof using.
  revert n. induction bs as [|c bs IH]; intros n; cbn [batchesStamped app length].
  - intros _ H. by rewrite Z.add_0_r in H.
  - intros [H1 H2] H. split; [done|]. apply IH; [done|]. by replace (n + 1 + Z.of_nat (length bs) + 1) with (n + Z.of_nat (S (length bs)) + 1) by lia.
Qed.

(** A bucket list and a database that have come from the same batches *)
Record Hist (evs : list NodeEvent) (bl : list BucketLevel) (db : gmap LedgerKey LedgerEntry) : Prop := {
  hist_run : runNode hash 0 evs newBucketList = Ok bl;
  hist_ok : batchesOk FIRST_PROTOCOL_SHADOWS_REMOVED ∅ (omap batchOf evs);
  hist_stamped : batchesStamped 0 (omap batchOf evs);
  hist_db : db = ledgerAfter ∅ (omap batchOf evs)
}.
Notation ledgers evs := (Z.of_nat (length (omap batchOf evs))).
Notation protocolOf evs := (lastProtocol FIRST_PROTOCOL_SHADOWS_REMOVED (omap batchOf evs)).

Lemma hist_read evs bl db : Hist evs bl db → ledgers evs ≤ UINT32_MAX → ∀ k, readKey k bl = db !! k.
Proof using Hempty Hnonempty.
  intros [Hr Hok Hst ->] Hlen k.
  destruct (history_run hash Hempty Hnonempty (omap batchOf evs) False Hok Hlen ltac:(done) (length (omap batchOf evs)) ltac:(done)) as (A & Hinv & Hrun).
  destruct (Hrun evs) as (ls & E & Hrep); [by rewrite take_ge|]. rewrite Hr in E. injection E as <-.
  rewrite (readKey_rep (ledgerAt (omap batchOf evs)) False hash k bl A _ _ _ Hrep Hinv). by rewrite ledgerAt_nat, take_ge.
Qed.

(** Another batch that fits is taken. *)
Lemma hist_close evs bl db pess ready b :
  Hist evs bl db → ledgers evs + 1 ≤ UINT32_MAX → protocolOf evs ≤ b_protocol b → batchOk db (b_init b) (b_live b) (b_dead b) →
  stamped (ledgers evs + 1) (b_init b) (b_live b) →
  ∃ bl', addBatch hash sd pess ready (ledgers evs + 1) (b_protocol b) (b_init b) (b_live b) (b_dead b) bl = Ok bl' ∧
    Hist (evs ++ [CloseLedger pess ready b]) bl' (afterBatch db (b_init b) (b_live b) (b_dead b)).
Proof using Hempty Hnonempty.
  intros [Hr Hok Hst ->] Hlen Hp Hb Hs. set (evs' := evs ++ [CloseLedger pess ready b]).
  assert (omap batchOf evs' = omap batchOf evs ++ [b]) as Ebs by (unfold evs'; by rewrite omap_app).
  assert (batchesOk FIRST_PROTOCOL_SHADOWS_REMOVED ∅ (omap batchOf evs')) as Hok' by (rewrite Ebs; by apply batchesOk_snoc).
  assert (ledgers evs' ≤ UINT32_MAX) as Hlen' by (rewrite Ebs, length_app; cbn [length]; lia).
  destruct (history_run hash Hempty Hnonempty (omap batchOf evs') False Hok' Hlen' ltac:(done) (length (omap batchOf evs')) ltac:(done)) as (A & _ & Hrun).
  destruct (Hrun evs') as (bl' & E & _); [by rewrite take_ge|]. pose proof E as E'. unfold evs' in E. rewrite runNode_app, Hr in E. cbn [obind runNode] in E.
  rewrite Z.add_0_l in E. destruct (addBatch _ _ _ _ _ _ _ _ _ _) as [x|]; [|done]. cbn [obind] in E. injection E as ->. exists bl'. split; [done|].
  split; [done|done| |]; rewrite Ebs; [by apply batchesStamped_snoc|]. unfold ledgerAfter. by rewrite foldl_app.
Qed.

(** A restart keeps the history. *)
Lemma hist_restart evs bl db g m :
  Hist evs bl db → ledgers evs ≤ UINT32_MAX →
  ∃ bl', restartMerges hash sd g m (ledgers evs) (dropFutures bl) = Ok bl' ∧ Hist (evs ++ [Restart g m]) bl' db.
Proof using Hempty Hnonempty.
  intros [Hr Hok Hst ->] Hlen. set (evs' := evs ++ [Restart g m]).
  assert (omap batchOf evs' = omap batchOf evs) as Ebs by (unfold evs'; by rewrite omap_app, app_nil_r).
  destruct (history_run hash Hempty Hnonempty (omap batchOf evs) False Hok Hlen ltac:(done) (length (omap batchOf evs)) ltac:(done)) as (A & _ & Hrun).
  destruct (Hrun evs') as (bl' & E & _); [by rewrite take_ge|]. pose proof E as E'. unfold evs' in E. rewrite runNode_app, Hr in E. cbn [obind runNode] in E.
  rewrite Z.add_0_l in E. destruct (restartMerges _ _ _ _ _ _) as [x|]; [|done]. cbn [obind] in E. injection E as ->. exists bl'. split; [done|].
  by split; rewrite ?Ebs.
Qed.

(** ** Finishing a ledger *)

Lemma readHeader_ok t : mIsSealed t = false → mChild t = false → mActiveHeader t = false → readHeader t = Ok (mHeader t, t).
Proof using.
  intros Hs Hc Hh. unfold readHeader, LedgerTxn.loadHeader, deactivateHeader, throwIfSealed, throwIfChild, checkT. rewrite Hs, Hc, Hh. cbn. rewrite <- Hh. by destruct t.
Qed.

(** The sealed transaction with the header [h] *)
Definition closed (h : LedgerHeader) (t : Impl) : Impl := set_mHeader h (seal (stampedEntries t) t).

Lemma closed_tinv env t r h :
  (∀ A l, ce_iter env A l ≡ₚ l) → TInv owner t (view (Root r)) → isParent (Root r) → LInv owner (Root r) → mIsSealed t = false → mChild t = false →
  TInv owner (closed h t) (view (Root r)).
Proof using.
  intros Hi HT Hp HL Hs Hc. pose proof (getAllEntries_ok owner (ce_iter env) Hi t (Root r) HT Hc Hp HL) as H. unfold getAllEntries in H.
  rewrite invokeThenSeal_final in H by done. rewrite (allEntries_ok owner (ce_iter env) Hi t (Root r) HT) in H. cbn [obind] in H. rewrite Hs in H.
  destruct H as (_ & _ & _ & HT' & _). apply (header_tinv owner _ _ false h) in HT'; [|done]. by destruct t.
Qed.

Definition stampsEntries (t : Impl) : Prop :=
  mShouldUpdateLastModified t = true ∨
  ∀ k e, mEntry t !! LEDGER_KEY k = Some (Some (LEDGER_ENTRY e)) → lastModifiedLedgerSeq e = ledgerSeq (mHeader t).

Lemma stamped_elem env t k e :
  (∀ A l, ce_iter env A l ≡ₚ l) → stampsEntries t → mIsSealed t = false →
  (LEDGER_KEY k, Some (LEDGER_ENTRY e)) ∈ ce_iter env _ (map_to_list (finalEntries t)) → lastModifiedLedgerSeq e = ledgerSeq (mHeader t).
Proof using.
  intros Hi Hst Hs Hin. apply (iter_elem (ce_iter env) Hi) in Hin. unfold finalEntries in Hin. rewrite Hs, stamped_lookup in Hin.
  destruct (mEntry t !! LEDGER_KEY k) as [[x|]|] eqn:E; try done. cbn in Hin. destruct Hst as [Hu|Ha].
  - rewrite Hu in Hin. destruct x; try done. by injection Hin as <-.
  - destruct (mShouldUpdateLastModified t); [destruct x; try done; by injection Hin as <-|]. injection Hin as ->. by apply (Ha k e).
Qed.

(** The entries that [getAllEntries] finds *)
Definition reported (env : CloseEnv) (t : Impl) : list (InternalLedgerKey * option InternalLedgerEntry) :=
  ce_iter env _ (map_to_list (finalEntries t)).

Definition batchOfTxn (env : CloseEnv) (t : Impl) (v : Entries) : Batch :=
  {| b_protocol := ledgerVersion (mHeader t); b_init := omap (initAt v) (reported env t); b_live := omap (liveAt v) (reported env t);
     b_dead := omap deadAt (reported env t) |}.

Definition closedDb (t : Impl) (r : LedgerTxnRoot) : gmap LedgerKey LedgerEntry :=
  ledgerEntries (stampEntries (absT t (rootEntries (r_database r)))).

Lemma closing_batch env t r evs bl :
  (∀ A l, ce_iter env A l ≡ₚ l) → TInv owner t (rootEntries (r_database r)) → Hist evs bl (r_database r) →
  mIsSealed t = false → stampsEntries t →
  ledgerSeq (mHeader t) = ledgers evs + 1 → ledgers evs + 1 ≤ UINT32_MAX → protocolOf evs ≤ ledgerVersion (mHeader t) →
  let b := batchOfTxn env t (rootEntries (r_database r)) in
  ∃ bl', addBatch hash sd (ce_pessimize env) (ce_ready env) (ledgerSeq (mHeader t)) (ledgerVersion (mHeader t)) (b_init b) (b_live b) (b_dead b) bl = Ok bl' ∧
    Hist (evs ++ [CloseLedger (ce_pessimize env) (ce_ready env) b]) bl' (closedDb t r).
Proof using Hempty Hnonempty.
  intros Hi HT HH Hs Hst Hseq Hlen Hver b.
  assert (∀ k x e, (k, x) ∈ reported env t → x = Some e → goodEntry owner k e) as Hg.
  { intros k x e Hin. by apply (final_elem owner (ce_iter env) Hi t (Root r) k x HT Hin). }
  pose proof (iter_keys (ce_iter env) Hi (finalEntries t)) as Hkeys. fold (reported env t) in Hkeys.
  pose proof (batch_fits (rootEntries (r_database r)) _ Hkeys Hg) as Hfit. pose proof (batch_after (rootEntries (r_database r)) _ Hkeys Hg) as Hafter.
  rewrite root_ledgerEntries in Hfit, Hafter.
  assert (list_to_map (reported env t) = finalEntries t) as Em by apply (iter_map (ce_iter env) Hi). rewrite Em, final_view in Hafter. fold (closedDb t r) in Hafter.
  destruct (hist_close evs bl (r_database r) (ce_pessimize env) (ce_ready env) b HH Hlen Hver Hfit) as (bl' & Eb & HH').
  { apply batch_stamped. intros k e Hin. rewrite <- Hseq. by apply (stamped_elem env t k e Hi Hst Hs). }
  exists bl'. rewrite Hseq. split; [exact Eb|]. rewrite <- Hafter. exact HH'.
Qed.

Lemma finishLedger_ok env t r evs bl :
  (∀ A l, ce_iter env A l ≡ₚ l) → Inv owner (Nested t (Root r)) → Hist evs bl (r_database r) →
  mIsSealed t = false → mActiveHeader t = false → stampsEntries t →
  ledgerSeq (mHeader t) = ledgers evs + 1 → ledgers evs + 1 ≤ UINT32_MAX → protocolOf evs ≤ ledgerVersion (mHeader t) →
  ∃ b bl', let h := snapshotLedger hash sha true bl' (mHeader t) in
    finishLedger env (Nested t (Root r)) bl =
      Ok {| nd_root := {| r_child := false; r_header := h; r_database := closedDb t r |}; nd_buckets := bl';
            mLastClosedLedger := advanceLedgerPointers headerHash h |} ∧
    Hist (evs ++ [CloseLedger (ce_pessimize env) (ce_ready env) b]) bl' (closedDb t r) ∧ b_protocol b = ledgerVersion (mHeader t) ∧
    goodView owner (rootEntries (closedDb t r)).
Proof using Hempty Hnonempty.
  intros Hi [(HT & Hp & HL) Hc] HH Hs Hh Hst Hseq Hlen Hver. cbn [isTop] in Hc.
  destruct (closing_batch env t r evs bl Hi HT HH Hs Hst Hseq Hlen Hver) as (bl' & Eb & HH').
  exists (batchOfTxn env t (rootEntries (r_database r))), bl'. cbn zeta. set (h := snapshotLedger hash sha true bl' (mHeader t)). split_and!; [|exact HH'|done|].
  2:{ apply (root_good owner). rewrite <- final_view. apply (goodView_overlay owner); [by apply final_good, HT|done]. }
  cbn [LedgerClose.finishLedger]. unfold ledgerClosed. rewrite readHeader_ok by done. cbn [ofLtx obind fst snd]. rewrite readHeader_ok by done. cbn [ofLtx obind fst snd].
  unfold transferLedgerEntriesToBucketList, getAllEntries. rewrite invokeThenSeal_final by done. rewrite (allEntries_ok owner (ce_iter env) Hi t (Root r) HT).
  cbn [obind ofLtx fst snd view]. unfold batchOfTxn, reported in Eb. cbn [b_init b_live b_dead] in Eb. rewrite Eb. cbn [ofBucket obind fst snd]. rewrite Hs.
  assert (unsealHeader (snapshotLedger hash sha true bl') (seal (stampedEntries t) t) = Ok (closed h t)) as -> by done.
  cbn [ofLtx obind fst snd LedgerTxn.commit]. rewrite invokeThenSeal_final by done. cbn [commitChild].
  rewrite (commit_root owner (ce_iter env) Hi (closed h t) r (closed_tinv env t r h Hi HT Hp HL Hs Hc) HL). cbn [obind fst ofLtx].
  unfold closedDb. rewrite <- final_view. unfold finalEntries. cbn [mIsSealed closed set_mHeader seal set_mIsSealed]. rewrite Hs. done.
Qed.
End Hashes.
End Owners.
