(* ===== verification/LedgerNode.v ===== *)
(** * The nodes that close ledgers

    What holds of a node after the genesis, and that closing a ledger and restarting
    keep it. *)

From stdpp Require Import prelude list gmap.
From Stdlib Require Import ZArith Lia.
From S2P Require Import Prelude Numeric Exchange LedgerEntries Buckets BucketMerge BucketChain BucketList BucketListSafety Catchup.
From S2P Require Import OfferOrder LedgerTxn LedgerTxnBook LedgerTxnBest LedgerTxnInv LedgerTxnSpec LedgerTxnRefine LedgerTxnOffers LedgerTxnSeal LedgerTxnCommit LedgerTxnRun LedgerClose LedgerCloseSafety.
Local Open Scope Z_scope.

(** The events of a ledger by the contract *)
Fixpoint srunInside (evs : list LtxEvent) (l : SLedger) : CE SLedger :=
  match evs with
  | [] => Ok l
  | ev :: evs =>
      let? r := ofLtx (sstep ev l) in
      match r.2 with
      | SRoot _ _ => Fail TransactionClosed
      | SNested _ _ => srunInside evs r.2
      end
  end.

(** The root below a transaction, and whether the outermost transaction stamps its
    entries *)
Fixpoint sbase (l : SLedger) : option (LedgerHeader * gmap LedgerKey LedgerEntry * bool) :=
  match l with
  | SRoot _ _ => None
  | SNested t (SRoot h db) => Some (h, db, s_update t)
  | SNested _ p => sbase p
  end.

Definition snested (l : SLedger) : Prop := match l with SRoot _ _ => False | SNested _ _ => True end.

Definition keepsUpdate {B} (g : STxn → Entries → LT (B * STxn)) : Prop := ∀ t v b t', g t v = Ok (b, t') → s_update t' = s_update t.

Ltac keeps_update :=
  clear; intros t v b t'; unfold screate, screateOrUpdate, serase, seraseWithoutLoading, sload, sloadWithoutRecord, scurrent, sassign, sdeactivate,
    seraseHandle, sloadHeader, sassignHeader, sdeactivateHeader, sunsealHeader, sloadBestOffer, sloadOffers, sseal, notSealed, checkT;
  intros E; repeat (case_match; cbn [obind] in E; try done); apply Ok_pair_inj in E as [_ <-]; done.

Lemma serase_update key : keepsUpdate (serase key).
Proof. keeps_update. Qed.

Lemma sload_update key : keepsUpdate (sload key).
Proof. keeps_update. Qed.

Lemma sloadBestOffer_update P : keepsUpdate (sloadBestOffer P).
Proof.
  intros t v b t' E. unfold sloadBestOffer, notSealed, checkT in E. repeat (case_match; cbn [obind] in E; try done).
  - by eapply sload_update.
  - by apply Ok_pair_inj in E as [_ <-].
Qed.

Lemma seraseHandle_update key : keepsUpdate (seraseHandle key).
Proof. intros t v b t' E. unfold seraseHandle in E. repeat (case_match; try done). by eapply serase_update. Qed.

Lemma sOnTop_base {B} (rb : B → Reply) g t p r l' : keepsUpdate g → sOnTop rb g (SNested t p) = Ok (r, l') → sbase l' = sbase (SNested t p).
Proof.
  intros Hg. cbn [sOnTop]. destruct (g t (sview p)) as [[b t']|] eqn:E; cbn [obind snd]; [|done]. intros [= _ <-]. cbn [sbase]. by rewrite (Hg _ _ _ _ E).
Qed.

Lemma srollback_base inner l l' : srollback inner l = Ok l' → snested l' → sbase l' = sbase l.
Proof.
  revert l. induction inner as [|inner IH]; intros [h db|t p]; cbn [srollback]; try done.
  - intros [= ->] Hn. by destruct l'.
  - intros E Hn. rewrite (IH p E Hn). destruct p; [by destruct inner|done].
Qed.

Lemma sstep_base ev l r l' : sstep ev l = Ok (r, l') → snested l → snested l' → sbase l' = sbase l.
Proof.
  intros E Hl Hl'. destruct l as [h db|t p]; [done|]. destruct ev; cbn [sstep] in E;
    try (eapply sOnTop_base; [|exact E]; first [apply sloadBestOffer_update|apply seraseHandle_update|keeps_update]).
  - unfold sopen, checkT in E. destruct (s_sealed t); cbn [negb obind] in E; [done|]. by injection E as _ <-.
  - unfold scommit in E. destruct p as [h db|t' p]; cbn [obind] in E; injection E as _ <-; [done|]. by destruct p.
  - destruct (srollback inner (SNested t p)) as [l1|] eqn:Er; cbn [obind] in E; [|done]. injection E as _ <-. by apply (srollback_base _ _ _ Er).
Qed.

Lemma sinside_base evs l l' : srunInside evs l = Ok l' → snested l → snested l' ∧ sbase l' = sbase l.
Proof.
  revert l. induction evs as [|ev evs IH]; intros l; cbn [srunInside]; [by intros [= <-]|].
  destruct (sstep ev l) as [[r l1]|] eqn:E; cbn [ofLtx obind snd]; [|done]. destruct l1 as [h db|t p]; [done|]. intros E' Hl.
  destruct (IH _ E' I) as [H1 H2]. split; [done|]. rewrite H2. by apply (sstep_base ev l r).
Qed.

Section Node.
Context (owner : Z → AccountID).
Context (hash : list BucketEntry → Z) (sha : list Z → Z) (headerHash : LedgerHeader → Z).
Hypothesis Hempty : hash [] = 0.
Hypothesis Hnonempty : ∀ b, b ≠ [] → hash b ≠ 0.
Notation ledgers evs := (Z.of_nat (length (omap batchOf evs))).
Notation protocolOf evs := (lastProtocol FIRST_PROTOCOL_SHADOWS_REMOVED (omap batchOf evs)).
Notation finishLedger := (finishLedger hash sha headerHash true).
Notation Hist := (Hist hash).

Lemma inside_refines evs l :
  Forall (evOk owner) evs → Inv owner l →
  match runInside evs l with
  | Ok l' => srunInside evs (abs l) = Ok (abs l') ∧ Inv owner l'
  | Fail e => srunInside evs (abs l) = Fail e
  end.
Proof using.
  intros Hev. revert l. induction Hev as [|ev evs Hev _ IH]; intros l HI; cbn [runInside srunInside]; [done|].
  pose proof (step_ok owner ev l Hev HI) as Hs. destruct (step ev l) as [[r l1]|]; cbn [ofLtx obind snd]; [|by rewrite Hs].
  destruct Hs as [-> HI1]. cbn [ofLtx obind snd]. destruct l1 as [r1|t1 p1]; cbn [abs]; [done|]. by apply IH.
Qed.

Record NodeInv (nd : Node) (evs : list NodeEvent) : Prop := {
  node_hist : Hist evs (nd_buckets nd) (r_database (nd_root nd));
  node_seq : ledgerSeq (r_header (nd_root nd)) = ledgers evs;
  node_bound : ledgers evs ≤ UINT32_MAX;
  node_protocol : protocolOf evs ≤ ledgerVersion (r_header (nd_root nd));
  node_good : goodView owner (rootEntries (r_database (nd_root nd)));
  node_child : r_child (nd_root nd) = false;
  node_lcl : mLastClosedLedger nd = advanceLedgerPointers headerHash (r_header (nd_root nd));
  node_listHash : bucketListHash (r_header (nd_root nd)) = getHash hash sha (nd_buckets nd)
}.

Lemma finish_inv env t r evs bl :
  (∀ A l, ce_iter env A l ≡ₚ l) → Inv owner (Nested t (Root r)) → Hist evs bl (r_database r) →
  mIsSealed t = false → mActiveHeader t = false → stampsEntries t →
  ledgerSeq (mHeader t) = ledgers evs + 1 → ledgers evs + 1 ≤ UINT32_MAX → protocolOf evs ≤ ledgerVersion (mHeader t) →
  ∃ nd evs', finishLedger env (Nested t (Root r)) bl = Ok nd ∧ NodeInv nd evs' ∧ r_database (nd_root nd) = closedDb t r ∧
    r_header (nd_root nd) = snapshotLedger hash sha true (nd_buckets nd) (mHeader t).
Proof using Hempty Hnonempty.
  intros Hi HI HH Hs Hh Hst Hseq Hlen Hver.
  destruct (finishLedger_ok owner hash sha headerHash Hempty Hnonempty env t r evs bl Hi HI HH Hs Hh Hst Hseq Hlen Hver) as (b & bl' & E & HH' & Hb & Hg).
  eexists _, _. split; [exact E|]. split; [|done].
  assert (omap batchOf (evs ++ [CloseLedger (ce_pessimize env) (ce_ready env) b]) = omap batchOf evs ++ [b]) as Ebs by (by rewrite omap_app).
  assert (ledgers (evs ++ [CloseLedger (ce_pessimize env) (ce_ready env) b]) = ledgers evs + 1) as El by (rewrite Ebs, length_app; cbn [length]; lia).
  split; cbn [nd_root nd_buckets r_header r_database r_child mLastClosedLedger]; try done.
  - by rewrite El.
  - by rewrite El.
  - rewrite Ebs. unfold lastProtocol. rewrite foldl_app. cbn. by rewrite Hb.
Qed.

(** Nodes with the same history have the same list. *)
Lemma hist_hash evs evs' bl bl' db db' :
  Hist evs bl db → Hist evs' bl' db' → omap batchOf evs' = omap batchOf evs → ledgers evs ≤ UINT32_MAX → getHash hash sha bl' = getHash hash sha bl.
Proof using Hempty Hnonempty.
  intros [Hr Hok _ _] [Hr' _ _ _] Eb Hlen.
  destruct (history_run hash Hempty Hnonempty (omap batchOf evs) False Hok Hlen ltac:(done) (length (omap batchOf evs)) ltac:(done)) as (A & _ & Hrun).
  destruct (Hrun evs) as (ls & E & Hrep); [by rewrite take_ge|]. destruct (Hrun evs') as (ls' & E' & Hrep'); [by rewrite take_ge|].
  rewrite Hr in E. rewrite Hr' in E'. injection E as <-. injection E' as <-. apply (getHash_buckets hash sha). by apply (rep_bucketsOfList hash bl' bl A).
Qed.

Lemma restart_inv g nd evs :
  NodeInv nd evs → ∃ nd', restartNode hash headerHash g nd = Ok nd' ∧ NodeInv nd' (evs ++ [Restart g (ledgerVersion (r_header (nd_root nd)))]) ∧ nd_root nd' = nd_root nd.
Proof using Hempty Hnonempty.
  intros [HH Hseq Hb Hp Hg Hc Hl Hx]. unfold restartNode. rewrite Hseq.
  destruct (hist_restart hash Hempty Hnonempty evs _ _ g (ledgerVersion (r_header (nd_root nd))) HH Hb) as (bl' & E & HH'). rewrite E. cbn [ofBucket obind].
  eexists. split; [done|]. split; [|done].
  assert (omap batchOf (evs ++ [Restart g (ledgerVersion (r_header (nd_root nd)))]) = omap batchOf evs) as Ebs by (by rewrite omap_app, app_nil_r).
  split; cbn [nd_root nd_buckets mLastClosedLedger]; rewrite ?Ebs; try done. rewrite Hx. symmetry. by eapply hist_hash.
Qed.

(** ** Closing a ledger *)

(** The transaction of a new ledger *)
Definition openedLedger (lcl : Z) (h : LedgerHeader) (db : gmap LedgerKey LedgerEntry) : SLedger :=
  SNested {| s_view := rootEntries db; s_recorded := ∅; s_active := ∅;
             s_header := setPreviousLedgerHash lcl (setLedgerSeq (u32 (ledgerSeq h + 1)) h); s_activeHeader := true;
             s_update := true; s_sealed := false; s_consistency := EXACT |} (SRoot h db).

Lemma opened env lcl h db : srun (openEvents env lcl) (SRoot h db) = Ok ([RDone; RDone; RDone; RDone], openedLedger lcl h db).
Proof using. done. Qed.

(** By the contract, what happens in the ledger leaves its transaction open, neither
    sealed nor with a handle of the header, with the ledger's number and a protocol
    that is not older. *)
Record BodyOk (nd : Node) (lcd : LedgerCloseData) (body : list LtxEvent) (s : STxn) : Prop := {
  body_events : Forall (evOk owner) body;
  body_run :
    let h := r_header (nd_root nd) in let db := r_database (nd_root nd) in
    srunInside (EvAssignHeader (setCloseTime (lcd_closeTime lcd)) :: body) (openedLedger (lh_hash (mLastClosedLedger nd)) h db) = Ok (SNested s (SRoot h db));
  body_open : s_sealed s = false ∧ s_activeHeader s = false;
  body_seq : ledgerSeq (s_header s) = ledgerSeq (r_header (nd_root nd)) + 1;
  body_protocol : ledgerVersion (r_header (nd_root nd)) ≤ ledgerVersion (s_header s)
}.

(** The transaction set belongs to the ledger. *)
Definition lcdOk (supported : Z) (nd : Node) (lcd : LedgerCloseData) : Prop :=
  ledgerVersion (r_header (nd_root nd)) ≤ supported ∧ lcd_previousLedgerHash lcd = lh_hash (mLastClosedLedger nd) ∧
  lcd_contentsHash lcd = lcd_txSetHash lcd.

Lemma abs_top l s h db :
  abs l = SNested s (SRoot h db) → ∃ t r, l = Nested t (Root r) ∧ s = absT t (rootEntries (r_database r)) ∧ r_header r = h ∧ r_database r = db.
Proof using. destruct l as [r|t [r|t' p]]; cbn [abs]; try done. intros [= <- <- <-]. by exists t, r. Qed.

Lemma close_inv env supported lcd body nd evs s :
  (∀ A l, ce_iter env A l ≡ₚ l) → NodeInv nd evs → lcdOk supported nd lcd → BodyOk nd lcd body s →
  ledgerSeq (r_header (nd_root nd)) + 1 ≤ UINT32_MAX →
  ∃ nd' evs', closeLedger hash sha headerHash true env supported lcd body nd = Ok nd' ∧ NodeInv nd' evs' ∧
    r_database (nd_root nd') = ledgerEntries (stampEntries s) ∧ r_header (nd_root nd') = snapshotLedger hash sha true (nd_buckets nd') (s_header s).
Proof using Hempty Hnonempty.
  intros Hi [HH Hseq Hb Hp Hg Hc Hl Hx] (Hsup & Hprev & Htx) [Hev Hrun [Hns Hnh] Hbs Hbp] Hlen. unfold closeLedger.
  assert (Inv owner (Root (nd_root nd))) as HI0 by done.
  pose proof (runLtx_ok owner (openEvents env (lh_hash (mLastClosedLedger nd))) (Root (nd_root nd)) ltac:(repeat constructor; done) HI0) as H1.
  cbn [abs] in H1. rewrite opened in H1. destruct (runLtx _ _) as [[rs l1]|]; [|done]. destruct H1 as [H1 HI1]. apply Ok_pair_inj in H1 as [_ H1].
  cbn [ofLtx obind snd]. rewrite <- sheader_abs, <- H1. cbn [openedLedger sheader s_header]. unfold checkC.
  rewrite (proj2 (Z.leb_le _ _)) by done. rewrite Hprev, Z.eqb_refl, Htx, Z.eqb_refl. cbn [obind].
  pose proof (inside_refines (EvAssignHeader (setCloseTime (lcd_closeTime lcd)) :: body) l1 ltac:(by constructor) HI1) as H2. rewrite <- H1, Hrun in H2.
  destruct (runInside _ l1) as [l2|]; [|done]. destruct H2 as [H2 HI2]. injection H2 as H2. symmetry in H2. cbn [obind].
  destruct (sinside_base _ _ _ Hrun I) as [_ Hbase]. destruct (abs_top _ _ _ _ H2) as (t & r & -> & -> & Er & Ed).
  assert (mShouldUpdateLastModified t = true) as Hupd by (cbn in Hbase; congruence). cbn [absT s_sealed s_activeHeader s_header] in Hns, Hnh, Hbs, Hbp.
  destruct (finish_inv env t r evs (nd_buckets nd) Hi HI2) as (nd' & evs' & E & HN & H3 & H4); try done.
  - by rewrite Ed.
  - by left.
  - by rewrite Hbs, Hseq.
  - by rewrite <- Hseq.
  - lia.
  - exists nd', evs'. rewrite H3. done.
Qed.

(** ** The first two ledgers *)

(** The ledger in which an account is created *)
Lemma account_inv env g id balance seq h db evs bl l :
  (∀ A l, ce_iter env A l ≡ₚ l) → Inv owner l → Hist evs bl db → rootEntries db !! LEDGER_KEY (KEY_ACCOUNT id) = None →
  ledgerSeq g = seq → seq = ledgers evs + 1 → ledgers evs + 1 ≤ UINT32_MAX → protocolOf evs ≤ ledgerVersion g →
  let e := newAccountEntry id balance seq in let k := LEDGER_KEY (KEY_ACCOUNT id) in
  abs l = SNested {| s_view := <[k := LEDGER_ENTRY e]> (rootEntries db); s_recorded := {[k]} ∪ ∅; s_active := delete k (<[k := EntryImpl]> ∅); s_header := g;
                     s_activeHeader := false; s_update := false; s_sealed := false; s_consistency := EXACT |} (SRoot h db) →
  ∃ nd evs', finishLedger env l bl = Ok nd ∧ NodeInv nd evs' ∧ r_database (nd_root nd) = <[KEY_ACCOUNT id := e]> db ∧
    r_header (nd_root nd) = snapshotLedger hash sha true (nd_buckets nd) g.
Proof using Hempty Hnonempty.
  intros Hi HI HH Hk Hg -> Hlen Hver e k Ha. destruct (abs_top _ _ _ _ Ha) as (t & r & -> & Es & Er & Ed).
  pose proof (f_equal s_header Es) as Eh. pose proof (f_equal s_sealed Es) as Ese. pose proof (f_equal s_activeHeader Es) as Eah.
  pose proof (f_equal s_update Es) as Eu. pose proof (f_equal s_view Es) as Ev. pose proof (f_equal s_recorded Es) as Erec.
  cbn [absT s_header s_sealed s_activeHeader s_update s_view s_recorded] in Eh, Ese, Eah, Eu, Ev, Erec.
  destruct (finish_inv env t r evs bl Hi HI) as (nd & evs' & E & HN & H3 & H4); try (by rewrite <- ?Eh, ?Ed).
  - right. intros lk x Hx. assert (LEDGER_KEY lk = k) as Ek.
    { apply elem_of_dom_2 in Hx. rewrite <- Erec in Hx. set_solver. }
    pose proof (f_equal (lookup (LEDGER_KEY lk)) Ev) as Hv. rewrite overlay_lookup, Hx, Ek, lookup_insert_eq in Hv. injection Hv as <-. by rewrite <- Eh.
  - exists nd, evs'. split; [done|]. split; [done|]. split; [|by rewrite H4, <- Eh]. rewrite H3. unfold closedDb, stampEntries. rewrite <- Es. cbn [s_update s_sealed andb s_view].
    apply map_eq. intros k'. rewrite ledgerEntries_lookup. destruct (decide (k' = KEY_ACCOUNT id)) as [->|Hne]; [by rewrite !lookup_insert_eq|].
    rewrite !lookup_insert_ne by (unfold k; congruence). rewrite rootEntries_lookup. by destruct (db !! k').
Qed.

Definition accountEvents (id balance seq : Z) : list LtxEvent :=
  [EvCreate (LEDGER_ENTRY (newAccountEntry id balance seq)); EvDeactivate (LEDGER_KEY (KEY_ACCOUNT id))].

Lemma srun_account id balance seq db h g :
  let k := LEDGER_KEY (KEY_ACCOUNT id) in
  rootEntries db !! k = None →
  srun (accountEvents id balance seq)
    (SNested {| s_view := rootEntries db; s_recorded := ∅; s_active := ∅; s_header := g; s_activeHeader := false; s_update := false; s_sealed := false;
                s_consistency := EXACT |} (SRoot h db)) =
  Ok ([RDone; RDone],
    SNested {| s_view := <[k := LEDGER_ENTRY (newAccountEntry id balance seq)]> (rootEntries db); s_recorded := {[k]} ∪ ∅;
               s_active := delete k (<[k := EntryImpl]> ∅); s_header := g; s_activeHeader := false; s_update := false; s_sealed := false;
               s_consistency := EXACT |} (SRoot h db)).
Proof using.
  intros k Hk. cbn [accountEvents srun sstep sOnTop]. unfold screate, notSealed, checkT. cbn [s_sealed negb obind s_view].
  change (toKey (LEDGER_ENTRY (newAccountEntry id balance seq))) with k. rewrite Hk. cbn [isNull obind fst snd sOnTop]. unfold sdeactivate.
  cbn [s_active withActive put withEntries]. by rewrite lookup_insert_eq.
Qed.

(** The ledger that begins with the header [g] *)
Definition begun (g h : LedgerHeader) (db : gmap LedgerKey LedgerEntry) : SLedger :=
  SNested {| s_view := rootEntries db; s_recorded := ∅; s_active := ∅; s_header := g; s_activeHeader := false; s_update := false; s_sealed := false;
             s_consistency := EXACT |} (SRoot h db).

Lemma srun_begin iter g h db :
  srun [EvOpen iter false; EvLoadHeader; EvAssignHeader (λ _, g); EvDeactivateHeader] (SRoot h db) = Ok ([RDone; RDone; RDone; RDone], begun g h db).
Proof using. done. Qed.

Lemma srun_header f g h db : srun [EvLoadHeader; EvAssignHeader f; EvDeactivateHeader] (begun g h db) = Ok ([RDone; RDone; RDone], begun (f g) h db).
Proof using. done. Qed.

Lemma account_good id balance seq : goodEntry owner (LEDGER_KEY (KEY_ACCOUNT id)) (LEDGER_ENTRY (newAccountEntry id balance seq)).
Proof using. split; [done|]. by intros o. Qed.

Lemma runLtx_srun evs l rs s : Forall (evOk owner) evs → Inv owner l → srun evs (abs l) = Ok (rs, s) → ∃ l', runLtx evs l = Ok (rs, l') ∧ abs l' = s ∧ Inv owner l'.
Proof using.
  intros Hev HI E. pose proof (runLtx_ok owner evs l Hev HI) as H. destruct (runLtx evs l) as [[rs' l']|]; [|congruence]. destruct H as [H HI'].
  rewrite E in H. apply Ok_pair_inj in H as [-> ->]. by exists l'.
Qed.

(** A node without ledgers *)
Definition emptyNode (h : LedgerHeader) (lcl : LedgerHeaderHistoryEntry) : Node :=
  {| nd_root := {| r_child := false; r_header := h; r_database := ∅ |}; nd_buckets := newBucketList; mLastClosedLedger := lcl |}.

Lemma startNew_inv env g rootID h lcl :
  (∀ A l, ce_iter env A l ≡ₚ l) → ledgerSeq g = 1 → FIRST_PROTOCOL_SHADOWS_REMOVED ≤ ledgerVersion g →
  ∃ nd evs, startNewLedger hash sha headerHash true env g rootID (emptyNode h lcl) = Ok nd ∧ NodeInv nd evs ∧
    r_database (nd_root nd) = <[KEY_ACCOUNT rootID := newAccountEntry rootID (totalCoins g) 1]> ∅ ∧
    r_header (nd_root nd) = snapshotLedger hash sha true (nd_buckets nd) g.
Proof using Hempty Hnonempty.
  intros Hi Hg Hv. unfold startNewLedger. pose proof (account_good rootID (totalCoins g) 1) as Ha.
  edestruct (runLtx_srun ([EvOpen (ce_iter env) false; EvLoadHeader; EvAssignHeader (λ _, g); EvDeactivateHeader] ++ accountEvents rootID (totalCoins g) 1)
    (Root (nd_root (emptyNode h lcl)))) as (l & E & Habs & HI).
  - repeat constructor; done.
  - split; [|done]. intros k e. rewrite rootEntries_lookup. destruct k; [|done..]. cbn [nd_root emptyNode r_database]. by rewrite lookup_empty.
  - cbn [abs]. rewrite srun_app, srun_begin. cbn [obind fst snd]. unfold begun. rewrite srun_account; [done|]. by rewrite rootEntries_lookup.
  - unfold accountEvents in E. cbn [app] in E. rewrite E. cbn [ofLtx obind snd].
    destruct (account_inv env g rootID (totalCoins g) 1 h ∅ [] newBucketList l Hi HI) as (nd & evs' & E' & HN & H3 & H4); try done.
    exists nd, evs'. done.
Qed.

Lemma startFee_inv env g feeID nd evs :
  (∀ A l, ce_iter env A l ≡ₚ l) → NodeInv nd evs → ledgerSeq (r_header (nd_root nd)) = 1 → r_database (nd_root nd) !! KEY_ACCOUNT feeID = None →
  ledgerSeq g = 2 → ledgerVersion (r_header (nd_root nd)) ≤ ledgerVersion g →
  ∃ nd' evs', startFeeLedger hash sha headerHash true env g feeID nd = Ok nd' ∧ NodeInv nd' evs' ∧
    r_database (nd_root nd') = <[KEY_ACCOUNT feeID := newAccountEntry feeID 100 2]> (r_database (nd_root nd)) ∧
    r_header (nd_root nd') = snapshotLedger hash sha true (nd_buckets nd') (setPreviousLedgerHash (lh_hash (mLastClosedLedger nd)) g).
Proof using Hempty Hnonempty.
  intros Hi HN Hs Hk Hg Hv. unfold startFeeLedger. pose proof (account_good feeID 100 2) as Ha. destruct HN as [HH Hseq Hb Hp Hgood Hc Hl Hx].
  set (f := setPreviousLedgerHash (lh_hash (mLastClosedLedger nd))).
  assert (rootEntries (r_database (nd_root nd)) !! LEDGER_KEY (KEY_ACCOUNT feeID) = None) as Hk' by (by rewrite rootEntries_lookup, Hk).
  edestruct (runLtx_srun ([EvOpen (ce_iter env) false; EvLoadHeader; EvAssignHeader (λ _, g); EvDeactivateHeader] ++
    [EvLoadHeader; EvAssignHeader f; EvDeactivateHeader] ++ accountEvents feeID 100 2) (Root (nd_root nd))) as (l & E & Habs & HI).
  - repeat constructor; done.
  - done.
  - cbn [abs]. rewrite srun_app, srun_begin. cbn [obind fst snd]. rewrite srun_app, srun_header. cbn [obind fst snd]. unfold begun. by rewrite srun_account.
  - unfold accountEvents in E. cbn [app] in E. rewrite E. cbn [ofLtx obind snd].
    destruct (account_inv env (f g) feeID 100 2 (r_header (nd_root nd)) (r_database (nd_root nd)) evs (nd_buckets nd) l Hi HI HH Hk') as (nd' & evs' & E' & HN & H3 & H4); try done; try lia.
    + unfold UINT32_MAX. lia.
    + cbn. lia.
    + exists nd', evs'. done.
Qed.
End Node.
