(* ===== verification/LedgerTheorems.v ===== *)
(** * Theorems on ledger transactions and closed ledgers *)

From stdpp Require Import prelude list gmap.
From Stdlib Require Import ZArith Lia.
From S2P Require Import Prelude Numeric Exchange LedgerEntries Buckets BucketMerge BucketChain BucketList BucketListSafety Catchup BucketExamples.
From S2P Require Import OfferOrder LedgerTxn LedgerTxnBook LedgerTxnBest LedgerTxnInv LedgerTxnSpec LedgerTxnRefine LedgerTxnOffers LedgerTxnSeal LedgerTxnCommit LedgerTxnRun LedgerClose LedgerCloseSafety LedgerNode.
Local Open Scope Z_scope.

(** ** Depth *)

Fixpoint depth (l : Ledger) : nat := match l with Root _ => 0 | Nested _ p => S (depth p) end.

Fixpoint sdepth (l : SLedger) : nat := match l with SRoot _ _ => 0 | SNested _ p => S (sdepth p) end.

Lemma depth_abs l : sdepth (abs l) = depth l.
Proof. induction l; simpl; congruence. Qed.

(** The transactions up to depth [d] *)
Fixpoint sbelow (d : nat) (l : SLedger) : SLedger :=
  match l with
  | SRoot _ _ => l
  | SNested _ p => if decide (sdepth p < d)%nat then l else sbelow d p
  end.

Lemma sbelow_self d l : (sdepth l ≤ d)%nat → sbelow d l = l.
Proof. destruct l as [h db|t p]; simpl; [done|]. intros H. by rewrite decide_True by lia. Qed.

Lemma sbelow_nested d t p : (d ≤ sdepth p)%nat → sbelow d (SNested t p) = sbelow d p.
Proof. intros H. simpl. by rewrite decide_False by lia. Qed.

Lemma sOnTop_below {B} (rb : B → Reply) g t p r l' d :
  sOnTop rb g (SNested t p) = Ok (r, l') → (d ≤ sdepth p)%nat → sbelow d l' = sbelow d (SNested t p).
Proof.
  cbn [sOnTop]. destruct (g t (sview p)) as [[b t']|]; cbn [obind snd]; [|done]. intros [= _ <-] H. by rewrite !sbelow_nested.
Qed.

Lemma srollback_below inner l l' d : srollback inner l = Ok l' → (d ≤ sdepth l')%nat → sbelow d l' = sbelow d l ∧ (d < sdepth l)%nat.
Proof.
  revert l. induction inner as [|inner IH]; intros [h db|t p]; cbn [srollback]; try done.
  - intros [= ->] H. rewrite sbelow_nested by done. simpl. split; [done|lia].
  - intros E H. destruct (IH p E H) as [-> Hd]. rewrite sbelow_nested by lia. simpl. split; [done|lia].
Qed.

(** A step between deeper transactions leaves the others alone. *)
Lemma sstep_below ev l r l' d : sstep ev l = Ok (r, l') → (d < sdepth l)%nat → (d < sdepth l')%nat → sbelow d l' = sbelow d l.
Proof.
  intros E Hl Hl'. destruct l as [h db|t p]; simpl in Hl; [lia|]. destruct ev; cbn [sstep] in E; try (eapply sOnTop_below; [exact E|lia]).
  - unfold sopen, checkT in E. destruct (s_sealed t); cbn [negb obind] in E; [done|]. injection E as _ <-. rewrite sbelow_nested by (simpl; lia).
    by rewrite !sbelow_nested by lia.
  - unfold scommit in E. destruct p as [h db|t' p]; cbn [obind] in E; injection E as _ <-; simpl in Hl'; [lia|].
    rewrite !sbelow_nested by (simpl; lia). done.
  - destruct (srollback inner (SNested t p)) as [l1|] eqn:Er; cbn [obind] in E; [|done]. injection E as _ <-.
    apply (srollback_below _ _ _ _ Er). lia.
Qed.

(** Every state of the run has more than [d] transactions. *)
Fixpoint staysAbove (d : nat) (evs : list LtxEvent) (l : Ledger) : bool :=
  match evs with
  | [] => true
  | ev :: evs => match step ev l with Ok r => bool_decide (d < depth r.2)%nat && staysAbove d evs r.2 | Fail _ => true end
  end.

Lemma run_below owner d evs l rs l' :
  Forall (evOk owner) evs → Inv owner l → (d < depth l)%nat → staysAbove d evs l = true → runLtx evs l = Ok (rs, l') →
  sbelow d (abs l') = sbelow d (abs l) ∧ (d < depth l')%nat ∧ Inv owner l'.
Proof.
  intros Hev. revert l rs. induction Hev as [|ev evs Hev _ IH]; intros l rs HI Hd Hs; cbn [runLtx]; [by intros [= _ <-]|].
  cbn [staysAbove] in Hs. pose proof (step_ok owner ev l Hev HI) as H. destruct (step ev l) as [[r l1]|]; cbn [obind fst snd] in *; [|done].
  destruct H as [H HI1]. apply andb_true_iff in Hs as [Hd1%bool_decide_eq_true Hs].
  destruct (runLtx evs l1) as [[rs1 l2]|] eqn:E; cbn [obind fst snd]; [|done]. intros [= _ <-].
  destruct (IH l1 rs1 HI1 Hd1 Hs E) as (H1 & H2 & H3). split_and!; try done. rewrite H1. apply (sstep_below ev _ r); rewrite ?depth_abs; done.
Qed.

(** The innermost transaction without its handles *)
Definition released (l : SLedger) : SLedger :=
  match l with SRoot _ _ => l | SNested t p => SNested (withActiveHeader false (withActive ∅ t)) p end.

Lemma runLtx_app evs evs' l :
  runLtx (evs ++ evs') l = let? r := runLtx evs l in let? s := runLtx evs' r.2 in Ok (r.1 ++ s.1, s.2).
Proof.
  revert l. induction evs as [|ev evs IH]; intros l; cbn [app runLtx obind fst snd].
  - by destruct (runLtx evs' l) as [[]|].
  - destruct (step ev l) as [[r l1]|]; cbn [obind fst snd]; [|done]. rewrite IH. destruct (runLtx evs l1) as [[rs l2]|]; cbn [obind fst snd]; [|done].
    by destruct (runLtx evs' l2) as [[]|].
Qed.

(** ** Transactions *)


(** C17: In every state that a client reaches the transactions are well-formed: entries
    are recorded under their keys, every recorded offer that nobody holds is in the
    book of its pair, in the order of prices and numbers, handles show the entries of
    their keys, the offers of the parent up to the worst best offer are recorded, and
    only the innermost transaction can be used. *)
Theorem ltx_well_formed owner h db evs rs l :
  goodView owner (rootEntries db) → Forall (evOk owner) evs → runLtx evs (root h db) = Ok (rs, l) → Inv owner l.
Proof.
  intros Hg Hev E. pose proof (runLtx_ok owner evs (root h db) Hev (root_inv owner h db Hg)) as H. rewrite E in H. apply H.
Qed.



(** C19: The changes that a transaction reports, applied in their order to the entries
    that its parent shows, are legal and give the entries that it commits: each state
    is the parent's, what is created was not there and what is changed or removed
    was. *)
Theorem changes_lead_to_commit owner h db evs iter rs t p cs t' :
  goodView owner (rootEntries db) → Forall (evOk owner) evs → (∀ A l, iter A l ≡ₚ l) →
  runLtx evs (root h db) = Ok (rs, Nested t p) → getChanges iter t p = Ok (cs, t') →
  foldT applyChange cs (ledgerEntries (view p)) = Ok (ledgerEntries (stampEntries (absT t (view p)))) ∧ finalEntries t = mEntry t'.
Proof.
  intros Hg Hev Hi E Ec. pose proof (runLtx_ok owner evs (root h db) Hev (root_inv owner h db Hg)) as H. rewrite E in H. destruct H as [_ [(HT & Hp & HL) Hc]].
  cbn [isTop] in Hc. unfold getChanges, throwIfNotExactConsistency, checkT in Ec. case_bool_decide as Hex; cbn [obind] in Ec; [|done].
  rewrite invokeThenSeal_final in Ec by done. destruct (changes_ok owner iter Hi t p HT HL Hex) as (cs' & E' & Happ). rewrite E' in Ec. cbn [obind] in Ec.
  apply Ok_pair_inj in Ec as [<- <-]. rewrite <- final_view. split; [done|]. unfold finalEntries. by destruct (mIsSealed t).
Qed.

(** ** Closing ledgers *)

Section Nodes.
Context (owner : Z → AccountID).
Context (hash : list BucketEntry → Z) (sha : list Z → Z) (headerHash : LedgerHeader → Z).

(** The nodes that begin with the genesis and the fee ledger of a configuration with a
    protocol from 12 on, close ledgers and restart *)
Inductive reachable : Node → Prop :=
| reach_start env env' cfg rootID feeID h lcl nd nd' :
    (∀ A l, ce_iter env A l ≡ₚ l) → (∀ A l, ce_iter env' A l ≡ₚ l) → FIRST_PROTOCOL_SHADOWS_REMOVED ≤ LEDGER_PROTOCOL_VERSION cfg → rootID ≠ feeID →
    startNewLedger hash sha headerHash true env (configured (Some cfg) genesisLedger) rootID (emptyNode h lcl) = Ok nd →
    startFeeLedger hash sha headerHash true env' (configured (Some cfg) feeLedger) feeID nd = Ok nd' →
    reachable nd'
| reach_close env supported lcd body s nd nd' :
    reachable nd → (∀ A l, ce_iter env A l ≡ₚ l) → lcdOk supported nd lcd → BodyOk owner nd lcd body s →
    ledgerSeq (r_header (nd_root nd)) + 1 ≤ UINT32_MAX →
    closeLedger hash sha headerHash true env supported lcd body nd = Ok nd' →
    reachable nd'
| reach_restart getBucketByHash nd nd' :
    reachable nd → restartNode hash headerHash getBucketByHash nd = Ok nd' → reachable nd'.

Lemma node_start_inv env env' cfg rootID feeID h lcl :
  hash [] = 0 → (∀ b, b ≠ [] → hash b ≠ 0) →
  (∀ A l, ce_iter env A l ≡ₚ l) → (∀ A l, ce_iter env' A l ≡ₚ l) → FIRST_PROTOCOL_SHADOWS_REMOVED ≤ LEDGER_PROTOCOL_VERSION cfg → rootID ≠ feeID →
  ∃ nd nd' evs, startNewLedger hash sha headerHash true env (configured (Some cfg) genesisLedger) rootID (emptyNode h lcl) = Ok nd ∧
    startFeeLedger hash sha headerHash true env' (configured (Some cfg) feeLedger) feeID nd = Ok nd' ∧ NodeInv owner hash sha headerHash nd' evs.
Proof.
  intros He Hne Hi Hi' Hv Hid.
  destruct (startNew_inv owner hash sha headerHash He Hne env (configured (Some cfg) genesisLedger) rootID h lcl Hi eq_refl Hv) as (nd & evs & E & HN & Hdb & Hh).
  destruct (startFee_inv owner hash sha headerHash He Hne env' (configured (Some cfg) feeLedger) feeID nd evs Hi' HN) as (nd' & evs' & E' & HN' & _).
  - by rewrite Hh.
  - rewrite Hdb. rewrite lookup_insert_ne by congruence. apply lookup_empty.
  - done.
  - by rewrite Hh.
  - eauto 7.
Qed.

Lemma node_reachable_inv nd : hash [] = 0 → (∀ b, b ≠ [] → hash b ≠ 0) → reachable nd → ∃ evs, NodeInv owner hash sha headerHash nd evs.
Proof.
  intros He Hne. induction 1 as [env env' cfg rootID feeID h lcl nd nd' Hi Hi' Hv Hid E E'|env supported lcd body s nd nd' _ [evs IH] Hi Hl Hb Hlen E|g nd nd' _ [evs IH] E].
  - destruct (node_start_inv env env' cfg rootID feeID h lcl He Hne Hi Hi' Hv Hid) as (n1 & n2 & evs & E1 & E2 & HN). rewrite E in E1. injection E1 as <-.
    rewrite E' in E2. injection E2 as <-. eauto.
  - destruct (close_inv owner hash sha headerHash He Hne env supported lcd body nd evs s Hi IH Hl Hb Hlen) as (n1 & evs' & E1 & HN & _). rewrite E in E1. injection E1 as <-. eauto.
  - destruct (restart_inv owner hash sha headerHash He Hne g nd evs IH) as (n1 & E1 & HN & _). rewrite E in E1. injection E1 as <-. eauto.
Qed.
End Nodes.



(** ** The skip list *)

(** The skip list after [n] ledgers with the hashes [H] *)
Fixpoint skipAfter (H : Z → Z) (n : nat) : list Z :=
  match n with
  | O => [0; 0; 0; 0]
  | S m => calculateSkipValues (Z.of_nat n) (H (Z.of_nat n)) (skipAfter H m)
  end.

(** The hash of the last multiple of [m] that is at least [off] ledgers back *)
Definition skipSlot (H : Z → Z) (n m off : Z) : Z := let k := (n - off) / m * m in if 0 <? k then H k else 0.

Lemma skipSlot_next H n m off :
  0 < m → skipSlot H (n + 1) m off = if (0 <? n + 1 - off) && ((n + 1 - off) mod m =? 0) then H (n + 1 - off) else skipSlot H n m off.
Proof.
  intros Hm. unfold skipSlot. set (a := n - off). replace (n + 1 - off) with (a + 1) by lia. destruct (Z.eqb_spec ((a + 1) mod m) 0) as [E|E].
  - assert ((a + 1) / m * m = a + 1) as ->. { pose proof (Z.div_mod (a + 1) m ltac:(lia)). lia. }
    rewrite andb_true_r. destruct (Z.ltb_spec 0 (a + 1)); [done|]. destruct (Z.ltb_spec 0 (a / m * m)) as [H1|]; [|done].
    assert (a / m < 0) by (apply Z.div_lt_upper_bound; lia). nia.
  - rewrite andb_false_r. replace ((a + 1) / m) with (a / m); [done|].
    pose proof (Z.mod_pos_bound (a + 1) m Hm). pose proof (Z.div_mod (a + 1) m ltac:(lia)). symmetry. apply Z.div_unique with (r := (a + 1) mod m - 1); lia.
Qed.

Lemma skipSlot_prev H n m off :
  0 < m → (n + 1 - off) mod m = 0 → 0 < n + 1 - off - m → skipSlot H n m off = H (n + 1 - off - m).
Proof.
  intros Hm E Hp. unfold skipSlot. assert ((n - off) / m * m = n + 1 - off - m) as ->; [|by rewrite (proj2 (Z.ltb_lt _ _))].
  pose proof (Z.div_mod (n + 1 - off) m ltac:(lia)) as Hd. rewrite E in Hd.
  assert ((n + 1 - off) / m - 1 = (n - off) / m) as <-; [|lia]. apply Z.div_unique with (r := m - 1); lia.
Qed.

(** The ledgers at which a slot moves on *)
Definition skipMoves (n m off : Z) : bool := (0 <? n - off) && ((n - off) mod m =? 0).

Lemma skipMoves_true n m off : skipMoves n m off = true ↔ 0 < n - off ∧ (n - off) mod m = 0.
Proof. unfold skipMoves. by rewrite andb_true_iff, Z.ltb_lt, Z.eqb_eq. Qed.

Lemma skipMoves_code n m off : 0 < m → 0 ≤ n < 2147483648 → 0 ≤ off < 2147483648 → (0 <? s32 (n - off)) && (Z.rem (s32 (n - off)) m =? 0) = skipMoves n m off.
Proof.
  intros Hm Hn Ho. rewrite s32_small by lia. unfold skipMoves. destruct (Z.ltb_spec 0 (n - off)); [|done]. cbn [andb]. by rewrite Z.rem_mod_nonneg by lia.
Qed.

Lemma calculateSkipValues_moves n h a b c d :
  0 < n < 2147483648 →
  calculateSkipValues n h [a; b; c; d] =
  [if skipMoves n SKIP_1 0 then h else a; if skipMoves n SKIP_2 SKIP_1 then a else b;
   if skipMoves n SKIP_3 (SKIP_2 + SKIP_1) then b else c; if skipMoves n SKIP_4 (SKIP_3 + SKIP_2 + SKIP_1) then c else d].
Proof.
  intros Hn. unfold calculateSkipValues. rewrite <- !Z.sub_add_distr, (Z.add_assoc SKIP_3).
  rewrite !skipMoves_code by (unfold SKIP_1, SKIP_2, SKIP_3, SKIP_4; lia).
  assert ((n mod SKIP_1 =? 0) = skipMoves n SKIP_1 0) as ->.
  { unfold skipMoves. by rewrite Z.sub_0_r, (proj2 (Z.ltb_lt _ _)) by lia. }
  destruct (skipMoves n SKIP_4 _) eqn:E4, (skipMoves n SKIP_3 _) eqn:E3, (skipMoves n SKIP_2 _) eqn:E2, (skipMoves n SKIP_1 0) eqn:E1; try done; exfalso;
    rewrite ?skipMoves_true, <- ?not_true_iff_false, ?skipMoves_true in *; unfold SKIP_1, SKIP_2, SKIP_3, SKIP_4 in *;
    Z.to_euclidean_division_equations; lia.
Qed.

(** Below 2^31 ledgers the four slots of the skip list hold the list's hash at the
    last multiple of 50, and at the multiples of 5000, 50000 and 500000 that are at
    least 50, 5050 and 55050 ledgers back. *)
Theorem skip_list_slots H n :
  Z.of_nat n < 2147483648 →
  skipAfter H n = [skipSlot H (Z.of_nat n) SKIP_1 0; skipSlot H (Z.of_nat n) SKIP_2 SKIP_1;
                   skipSlot H (Z.of_nat n) SKIP_3 (SKIP_2 + SKIP_1); skipSlot H (Z.of_nat n) SKIP_4 (SKIP_3 + SKIP_2 + SKIP_1)].
Proof.
  induction n as [|n IH]; intros Hn; [done|]. cbn [skipAfter]. rewrite IH by lia. rewrite calculateSkipValues_moves by lia. clear IH.
  replace (Z.of_nat (S n)) with (Z.of_nat n + 1) in * by lia. assert (0 ≤ Z.of_nat n) as Hz by lia. generalize dependent (Z.of_nat n). intros z Hn Hz.
  rewrite !skipSlot_next by done. unfold skipMoves. f_equal; [|f_equal; [|f_equal; [|f_equal]]]; [by rewrite Z.sub_0_r|..];
    (case_match eqn:E; [|done]); apply andb_true_iff in E as [E1%Z.ltb_lt E2%Z.eqb_eq]; 
    unfold SKIP_1, SKIP_2, SKIP_3, SKIP_4 in *; (rewrite skipSlot_prev; [f_equal; lia|lia|Z.to_euclidean_division_equations; lia|lia]).
Qed.

(** ** Examples *)

Definition anyOrder (A : Type) (l : list A) : list A := rev l.

Lemma anyOrder_perm A l : anyOrder A l ≡ₚ l.
Proof. apply Permutation_sym, Permutation_rev. Qed.

Definition exampleAsset : Asset := ASSET_TYPE_CREDIT_ALPHANUM4 [71; 76; 68] 8.
Definition examplePair : AssetPair := {| OfferOrder.buying := ASSET_TYPE_NATIVE; OfferOrder.selling := exampleAsset |}.
Definition exampleOffer (id n : Z) : LedgerEntry :=
  {| lastModifiedLedgerSeq := 1;
     data := OFFER {| o_sellerID := 1; o_offerID := id; o_selling := exampleAsset; o_buying := ASSET_TYPE_NATIVE; o_amount := 10;
                      o_price := mkPrice n 1; o_flags := 0 |};
     le_ext := None |}.
Definition exampleOwner (id : Z) : AccountID := 1.

(** Offers 1 and 2 *)
Definition exampleDb : gmap LedgerKey LedgerEntry := <[KEY_OFFER 1 1 := exampleOffer 1 2]> (<[KEY_OFFER 1 2 := exampleOffer 2 1]> ∅).

Lemma exampleOffer_good id n : 0 < n < 2 ^ 31 → goodEntry exampleOwner (LEDGER_KEY (KEY_OFFER 1 id)) (LEDGER_ENTRY (exampleOffer id n)).
Proof. intros Hn. split; [done|]. intros o [= <-]. split; [|done]. apply priced_positive; cbn; lia. Qed.

Lemma exampleDb_good : goodView exampleOwner (rootEntries exampleDb).
Proof.
  intros k e. rewrite rootEntries_lookup. destruct k as [k| |]; [|done..]. unfold exampleDb.
  destruct (decide (k = KEY_OFFER 1 1)) as [->|]; [rewrite lookup_insert_eq; intros [= <-]; by apply exampleOffer_good|]. rewrite lookup_insert_ne by done.
  destruct (decide (k = KEY_OFFER 1 2)) as [->|]; [rewrite lookup_insert_eq; intros [= <-]; by apply exampleOffer_good|]. by rewrite lookup_insert_ne.
Qed.

(** The best offer is removed in a transaction; in one inside it another offer is
    created and a third one changes its price and is the best one then. *)
Definition exampleOuter : list LtxEvent :=
  [EvOpen anyOrder true; EvLoadBestOffer examplePair; EvEraseHandle (LEDGER_KEY (KEY_OFFER 1 2))].
Definition exampleInner : list LtxEvent :=
  [EvCreate (LEDGER_ENTRY (exampleOffer 3 3)); EvDeactivate (LEDGER_KEY (KEY_OFFER 1 3)); EvLoadBestOffer examplePair;
   EvAssign (LEDGER_KEY (KEY_OFFER 1 1)) (λ _, LEDGER_ENTRY (exampleOffer 1 4)); EvDeactivate (LEDGER_KEY (KEY_OFFER 1 1)); EvLoadBestOffer examplePair].
Definition exampleTxn : list LtxEvent := exampleOuter ++ EvOpen anyOrder true :: exampleInner.

Lemma exampleTxn_ok : Forall (evOk exampleOwner) exampleTxn.
Proof.
  repeat constructor; try exact anyOrder_perm; intros; try (by injection H as <-; apply priced_positive; cbn; lia);
    try (by injection H as <-); try (by injection H0 as <-; apply priced_positive; cbn; lia); by injection H0 as <-.
Qed.


(** The innermost transaction of a run has no handles. *)
Definition endsQuiet (x : LT (list Reply * Ledger)) : bool :=
  match x with Ok (_, Nested t _) => negb (mIsSealed t) && bool_decide (mActive t = ∅) | _ => false end.

Lemma endsQuiet_spec x : endsQuiet x = true → ∃ rs t p, x = Ok (rs, Nested t p) ∧ quiet (Nested t p).
Proof.
  destruct x as [[rs [r|t p]]|]; try done. intros [H1%negb_true_iff H2%bool_decide_eq_true]%andb_true_iff. by exists rs, t, p.
Qed.

Lemma ltx_well_formed_witness :
  ∃ rs l, runLtx exampleTxn (root genesisLedger exampleDb) = Ok (rs, l) ∧ Inv exampleOwner l.
Proof.
  assert ((match runLtx exampleTxn (root genesisLedger exampleDb) with Ok _ => true | Fail _ => false end) = true) as E by (vm_compute; reflexivity).
  destruct (runLtx exampleTxn (root genesisLedger exampleDb)) as [[rs l]|] eqn:E0; [|discriminate]. exists rs, l. split; [reflexivity|].
  exact (ltx_well_formed exampleOwner genesisLedger exampleDb exampleTxn rs l exampleDb_good exampleTxn_ok E0).
Defined.


(** The outer transaction, the inner one and its roll-back *)
Definition exampleRollback (x : LT (list Reply * Ledger)) : bool :=
  match x with
  | Ok (_, l) =>
      match newLedgerTxn anyOrder true l with
      | Ok l1 =>
          staysAbove (depth l) exampleInner l1 &&
          match runLtx (exampleInner ++ [EvRollback 0]) l1 with Ok (_, l') => bool_decide (depth l' = depth l) | Fail _ => false end
      | Fail _ => false
      end
  | Fail _ => false
  end.


Lemma changes_lead_to_commit_witness :
  ∃ rs t p cs t', runLtx exampleTxn (root genesisLedger exampleDb) = Ok (rs, Nested t p) ∧ getChanges anyOrder t p = Ok (cs, t') ∧ length cs = 3%nat ∧
    foldT applyChange cs (ledgerEntries (view p)) = Ok (ledgerEntries (stampEntries (absT t (view p)))) ∧ finalEntries t = mEntry t'.
Proof.
  assert ((match runLtx exampleTxn (root genesisLedger exampleDb) with
           | Ok (_, Nested t p) => match getChanges anyOrder t p with Ok (cs, _) => bool_decide (length cs = 3%nat) | Fail _ => false end
           | _ => false end) = true) as E by (vm_compute; reflexivity).
  destruct (runLtx exampleTxn (root genesisLedger exampleDb)) as [[rs [r|t p]]|] eqn:E0; [discriminate| |discriminate].
  destruct (getChanges anyOrder t p) as [[cs t']|] eqn:E1; [|discriminate]. apply bool_decide_eq_true in E.
  exists rs, t, p, cs, t'. split; [reflexivity|]. split; [exact E1|]. split; [exact E|].
  exact (changes_lead_to_commit exampleOwner genesisLedger exampleDb exampleTxn anyOrder rs t p cs t' exampleDb_good exampleTxn_ok anyOrder_perm E0 E1).
Defined.

(** *** A node *)

Definition exampleEnv : CloseEnv := {| ce_iter := anyOrder; ce_pessimize := false; ce_ready := λ _, true |}.
Definition exampleConfig : GenesisConfig :=
  {| LEDGER_PROTOCOL_VERSION := 15; TESTING_UPGRADE_DESIRED_FEE := 100; TESTING_UPGRADE_RESERVE := 5; TESTING_UPGRADE_MAX_TX_SET_SIZE := 100 |}.
Definition exampleHeaderHash (h : LedgerHeader) : Z := 1 + ledgerSeq h.
Notation exampleReachable := (reachable exampleOwner exampleHash (foldr Z.add 0) exampleHeaderHash).

Lemma example_started :
  ∃ nd, exampleReachable nd ∧ ledgerSeq (r_header (nd_root nd)) = 2 ∧ ledgerVersion (r_header (nd_root nd)) = 15.
Proof.
  destruct (startNew_inv exampleOwner exampleHash (foldr Z.add 0) exampleHeaderHash eq_refl exampleHash_nonempty exampleEnv
    (configured (Some exampleConfig) genesisLedger) 5 genesisLedger {| lh_hash := 0; lh_header := genesisLedger |} anyOrder_perm) as (nd & evs & E & HN & Hdb & Hh);
    [done..|].
  destruct (startFee_inv exampleOwner exampleHash (foldr Z.add 0) exampleHeaderHash eq_refl exampleHash_nonempty exampleEnv
    (configured (Some exampleConfig) feeLedger) 6 nd evs anyOrder_perm HN) as (nd' & evs' & E' & HN' & Hdb' & Hh'); [by rewrite Hh|by rewrite Hdb|done|by rewrite Hh|].
  exists nd'. rewrite Hh'. split; [|split; reflexivity]. by eapply (reach_start _ _ _ _ exampleEnv exampleEnv exampleConfig 5 6); try exact anyOrder_perm; try exact E; try exact E'.
Qed.

(** An entry is stored in a transaction inside the ledger's. *)
Definition exampleBody : list LtxEvent := [EvOpen anyOrder true; EvCreateOrUpdate (LEDGER_ENTRY (exampleEntry 1 0)); EvCommit anyOrder].

Definition exampleLcd (nd : Node) : LedgerCloseData :=
  {| lcd_previousLedgerHash := lh_hash (mLastClosedLedger nd); lcd_contentsHash := 1; lcd_txSetHash := 1; lcd_closeTime := 7 |}.

Lemma example_body nd : ledgerSeq (r_header (nd_root nd)) = 2 → ∃ s, BodyOk exampleOwner nd (exampleLcd nd) exampleBody s.
Proof.
  intros Hs. eexists. split; [| |split|..]; cbn zeta; [|reflexivity|reflexivity|reflexivity|cbn; by rewrite Hs|done].
  constructor; [exact anyOrder_perm|]. constructor; [split; [done|by intros o]|]. constructor; [exact anyOrder_perm|constructor].
Qed.



Lemma skip_list_slots_witness : skipAfter id 5123 = [5100; 5000; 0; 0].
Proof. rewrite skip_list_slots by done. reflexivity. Defined.
