(* ===== verification/LedgerBook.v ===== *)
(** * The book that trades use

    The loop that crosses offers ([convertWithOffers]) asks an interface for the best
    offer; here the order of the ledger transaction implements it. *)

From stdpp Require Import prelude list gmap.
From Stdlib Require Import ZArith Lia.
From S2P Require Import Prelude Numeric Exchange LedgerEntries LedgerState CrossOffers CrossSafety Book ConvertSafety.
From S2P Require Import OfferOrder LedgerTxn LedgerTxnBook LedgerTxnBest.
Local Open Scope Z_scope.

(** The key under which an entry is stored *)
Definition keyStored (entries : gmap LedgerKey LedgerEntry) (e : LedgerEntry) : option LedgerKey :=
  fst <$> find (λ kv, bool_decide (kv.2 = e)) (map_to_list entries).

#[export] Instance ltxOrderBook : CrossOffers.OrderBook := {|
  bestOffer s sheep wheat :=
    match bestOfferIn (rootEntries (l_entries s)) {| OfferOrder.buying := sheep; OfferOrder.selling := wheat |} None with
    | Some (LEDGER_ENTRY e) => keyStored (l_entries s) e
    | _ => None
    end
|}.

Lemma keyStored_lookup entries e k : keyStored entries e = Some k → entries !! k = Some e.
Proof.
  unfold keyStored. destruct (find _ _) as [[k' e']|] eqn:E; [|done]. intros [= ->]. apply find_some in E as [Hin He%bool_decide_eq_true].
  simpl in He. subst e'. apply elem_of_map_to_list. by apply list_elem_of_In.
Qed.

(** What is picked satisfies what all candidates satisfy. *)
Lemma foldr_pick l e : foldr pickBetter None l = Some e → e ∈ l.
Proof.
  induction l as [|x l IH]; [done|]. cbn [foldr]. unfold pickBetter at 1. destruct (foldr pickBetter None l) as [b|].
  - destruct (offerArm x) as [ox|], (offerArm b) as [ob|]; try (intros [= <-]; right; by apply IH).
    destruct (isBetterOffer _ _); intros [= <-]; [by left|right; by apply IH].
  - intros [= <-]. by left.
Qed.

#[export] Instance ltxOrderBook_laws : OrderBookLaws ltxOrderBook.
Proof.
  split. intros s sheep wheat k. cbn [bestOffer ltxOrderBook].
  destruct (bestOfferIn _ _ None) as [[e|a b|a b]|] eqn:E; try done. intros Hk%keyStored_lookup.
  unfold bestOfferIn in E. apply foldr_pick, list_elem_of_filter in E as [E _]. exists e. unfold LedgerTxn.offerIn in E. cbn [offerArm] in E.
  unfold Holders.offerIn. destruct (data e) as [|  |o| |]; try done. apply andb_true_iff in E as [[= <- <-]%bool_decide_eq_true _]. by exists o.
Qed.


(** An offer that sells 10 for 2 *)
Definition bookedOffer : LedgerEntry :=
  {| lastModifiedLedgerSeq := 1;
     data := OFFER {| o_sellerID := 1; o_offerID := 7; o_selling := ASSET_TYPE_NATIVE; o_buying := ASSET_TYPE_CREDIT_ALPHANUM4 [71] 8; o_amount := 10;
                      o_price := mkPrice 1 5; o_flags := 0 |};
     le_ext := None |}.

Definition bookedHeader : LedgerHeader :=
  {| ledgerVersion := 15; ledgerSeq := 100; closeTime := 1000; totalCoins := 1000000; feePool := 0; inflationSeq := 0; idPool := 7; baseFee := 100;
     baseReserve := 5; maxTxSetSize := 100; previousLedgerHash := 0; bucketListHash := 0; skipList := [0; 0; 0; 0] |}.

Definition bookedLedger : Ltx :=
  {| l_header := bookedHeader; l_entries := {[KEY_OFFER 1 7 := bookedOffer]}; l_sponsorships := ∅; l_sponsorshipCounters := ∅ |}.

