(* ===== verification/RandomEvictionCache.v ===== *)
(** * A cache with random eviction (src/util/RandomEvictionCache.h)

    A bounded map: when it grows over its size, two of its elements are drawn and the
    one that was used less recently goes.  The vector of pointers to the elements is
    the list of their keys.  The numbers drawn are a function of the generation, which
    grows with each use of the cache: any sequence of draws is one of these. *)

From stdpp Require Import prelude list gmap.
From Stdlib Require Import ZArith Lia.
From S2P Require Import Prelude.
Local Open Scope Z_scope.

Module EvictionCache.

Record CacheValue (V : Type) : Type := { mLastAccess : Z; mValue : V }.
Arguments mLastAccess {V} _.
Arguments mValue {V} _.

Record Counters : Type := { mHits : Z; mMisses : Z; mInserts : Z; mUpdates : Z; mEvicts : Z }.

Record RandomEvictionCache (K V : Type) `{Countable K} : Type := {
  mMaxSize : nat;
  mGeneration : Z;
  mValueMap : gmap K (CacheValue V);
  mValuePtrs : list K;
  mCounters : Counters
}.
Arguments mMaxSize {K V _ _} _.
Arguments mGeneration {K V _ _} _.
Arguments mValueMap {K V _ _} _.
Arguments mValuePtrs {K V _ _} _.
Arguments mCounters {K V _ _} _.

Section Cache.
Context {K V : Type} `{Countable K}.
Notation Cache := (RandomEvictionCache K V).

Definition count (hits misses inserts updates evicts : Z) (c : Counters) : Counters :=
  {| mHits := u64 (mHits c + hits); mMisses := u64 (mMisses c + misses); mInserts := u64 (mInserts c + inserts);
     mUpdates := u64 (mUpdates c + updates); mEvicts := u64 (mEvicts c + evicts) |}.

Definition newCache (maxSize : nat) : Cache :=
  {| mMaxSize := maxSize; mGeneration := 0; mValueMap := ∅; mValuePtrs := [];
     mCounters := {| mHits := 0; mMisses := 0; mInserts := 0; mUpdates := 0; mEvicts := 0 |} |}.

Definition size (c : Cache) : nat := base.size (mValueMap c).

(** [std::swap(v[i], v.back()); v.pop_back()] *)
Definition swapPop (i : nat) (l : list K) : list K :=
  match last l with
  | Some x => take (length l - 1) (<[i := x]> l)
  | None => l
  end.

Definition lastAccess (c : Cache) (i : nat) : Z :=
  match mValuePtrs c !! i with
  | Some k => match mValueMap c !! k with Some x => mLastAccess x | None => 0 end
  | None => 0
  end.

(** The element at [i] goes. *)
Definition evictAt (i : nat) (c : Cache) : Cache :=
  {| mMaxSize := mMaxSize c; mGeneration := mGeneration c;
     mValueMap := match mValuePtrs c !! i with Some k => delete k (mValueMap c) | None => mValueMap c end;
     mValuePtrs := swapPop i (mValuePtrs c); mCounters := mCounters c |}.

Definition setCounters (x : Counters) (c : Cache) : Cache :=
  {| mMaxSize := mMaxSize c; mGeneration := mGeneration c; mValueMap := mValueMap c; mValuePtrs := mValuePtrs c; mCounters := x |}.

(** [draw] is the generator of random numbers: the numbers drawn below the size *)
Definition evictOne (draw : Z → nat → nat * nat) (c : Cache) : Cache :=
  let sz := length (mValuePtrs c) in
  if (sz =? 0)%nat then c
  else
    let '(i1, i2) := draw (mGeneration c) sz in
    let victim := if lastAccess c i1 <? lastAccess c i2 then i1 else i2 in
    let c := evictAt victim c in
    setCounters (count 0 0 0 0 1 (mCounters c)) c.

Definition put (draw : Z → nat → nat * nat) (k : K) (v : V) (c : Cache) : Cache :=
  let generation := u64 (mGeneration c + 1) in
  let newValue := {| mLastAccess := generation; mValue := v |} in
  match mValueMap c !! k with
  | None =>
      let c := {| mMaxSize := mMaxSize c; mGeneration := generation; mValueMap := <[k := newValue]> (mValueMap c);
                  mValuePtrs := mValuePtrs c ++ [k]; mCounters := count 0 0 1 0 0 (mCounters c) |} in
      if (mMaxSize c <? length (mValuePtrs c))%nat then evictOne draw c else c
  | Some _ =>
      {| mMaxSize := mMaxSize c; mGeneration := generation; mValueMap := <[k := newValue]> (mValueMap c);
         mValuePtrs := mValuePtrs c; mCounters := count 0 0 0 1 0 (mCounters c) |}
  end.

Definition exists_ (k : K) (countMisses : bool) (c : Cache) : bool * Cache :=
  match mValueMap c !! k with
  | None => (false, if countMisses then setCounters (count 0 1 0 0 0 (mCounters c)) c else c)
  | Some _ => (true, c)
  end.

Definition clear (c : Cache) : Cache :=
  {| mMaxSize := mMaxSize c; mGeneration := mGeneration c; mValueMap := ∅; mValuePtrs := []; mCounters := mCounters c |}.

Definition maybeGet (k : K) (c : Cache) : option V * Cache :=
  match mValueMap c !! k with
  | Some x =>
      let generation := u64 (mGeneration c + 1) in
      (Some (mValue x),
       {| mMaxSize := mMaxSize c; mGeneration := generation;
          mValueMap := <[k := {| mLastAccess := generation; mValue := mValue x |}]> (mValueMap c);
          mValuePtrs := mValuePtrs c; mCounters := count 1 0 0 0 0 (mCounters c) |})
  | None => (None, setCounters (count 0 1 0 0 0 (mCounters c)) c)
  end.

(** The object that a cached pointer refers to changes. *)
Definition assign (k : K) (v : V) (c : Cache) : Cache :=
  {| mMaxSize := mMaxSize c; mGeneration := mGeneration c;
     mValueMap := alter (λ x, {| mLastAccess := mLastAccess x; mValue := v |}) k (mValueMap c);
     mValuePtrs := mValuePtrs c; mCounters := mCounters c |}.

(** [f(vp->second.mValue)] for the element at [i] *)
Definition holdsAt (f : V → bool) (i : nat) (c : Cache) : bool :=
  match mValuePtrs c !! i with
  | Some k => match mValueMap c !! k with Some x => f (mValue x) | None => false end
  | None => false
  end.

(** The two loops of [erase_if]: an element that goes is replaced by the last one,
    which is looked at next. *)
Fixpoint eraseLoop (f : V → bool) (fuel i : nat) (c : Cache) : Cache :=
  match fuel with
  | O => c
  | S fuel =>
      if (i <? length (mValuePtrs c))%nat then
        if holdsAt f i c then eraseLoop f fuel i (evictAt i c) else eraseLoop f fuel (S i) c
      else c
  end.

Definition erase_if (f : V → bool) (c : Cache) : Cache := eraseLoop f (length (mValuePtrs c)) 0 c.

(** ** What is in the cache *)

Definition contents (c : Cache) : gmap K V := mValue <$> mValueMap c.

Definition CacheOk (c : Cache) : Prop :=
  NoDup (mValuePtrs c) ∧ (∀ k, k ∈ mValuePtrs c ↔ mValueMap c !! k ≠ None) ∧ (length (mValuePtrs c) ≤ mMaxSize c)%nat.

Lemma swapPop_perm i l k : l !! i = Some k → k :: swapPop i l ≡ₚ l.
Proof.
  intros Hi. unfold swapPop. destruct l as [|x l] using rev_ind; [done|]. clear IHl. rewrite last_snoc, length_app. cbn [length].
  replace (length l + 1 - 1)%nat with (length l) by lia. destruct (decide (i < length l)%nat) as [Hlt|Hge].
  - rewrite lookup_app_l in Hi by done. rewrite insert_app_l, take_app_length' by (rewrite ?length_insert; lia).
    destruct (list_elem_of_split_length l i k Hi) as (a & b & -> & Ha). rewrite Ha. rewrite insert_app_r_alt, Nat.sub_diag by lia. cbn.
    rewrite <- app_assoc. cbn. rewrite <- (Permutation_middle a b x), <- (Permutation_middle a (b ++ [x]) k), (assoc_L (++) a b [x]).
    by rewrite (Permutation_app_comm (a ++ b) [x]).
  - assert (i = length l) as -> by (apply lookup_lt_Some in Hi; rewrite length_app in Hi; cbn in Hi; lia).
    rewrite lookup_app_r, Nat.sub_diag in Hi by lia. injection Hi as <-. rewrite insert_app_r_alt, Nat.sub_diag by lia. cbn.
    rewrite take_app_length. by rewrite (Permutation_app_comm l [x]).
Qed.

(** The keys of the vector are those of the map. *)
Definition Keyed (c : Cache) : Prop := NoDup (mValuePtrs c) ∧ ∀ k, k ∈ mValuePtrs c ↔ mValueMap c !! k ≠ None.

Lemma contents_lookup c k : contents c !! k = mValue <$> mValueMap c !! k.
Proof. apply lookup_fmap. Qed.

Lemma evictAt_keyed i k c :
  Keyed c → mValuePtrs c !! i = Some k →
  Keyed (evictAt i c) ∧ contents (evictAt i c) = delete k (contents c) ∧ length (mValuePtrs c) = S (length (mValuePtrs (evictAt i c))).
Proof.
  intros [Hn Hk] Hi. pose proof (swapPop_perm i _ k Hi) as Hp. unfold evictAt, Keyed, contents. cbn. rewrite Hi, fmap_delete.
  pose proof (Permutation_length Hp) as Hl. rewrite <- Hp in Hn. apply NoDup_cons in Hn as [Hnk Hn]. split_and!; [done| |done|done].
  intros k'. destruct (decide (k = k')) as [<-|Hne].
  - rewrite lookup_delete_eq. split; [done|]. by intros [].
  - rewrite lookup_delete_ne by done. assert (k' ∈ mValuePtrs c ↔ k' ∈ k :: swapPop i (mValuePtrs c)) as E by (by rewrite Hp).
    rewrite <- Hk, E, elem_of_cons. naive_solver.
Qed.

Definition drawOk (draw : Z → nat → nat * nat) : Prop := ∀ g n, (0 < n)%nat → ((draw g n).1 < n)%nat ∧ ((draw g n).2 < n)%nat.

(** One element goes, and one that was drawn was not used before it. *)
Lemma evictOne_ok draw c :
  drawOk draw → Keyed c → (0 < length (mValuePtrs c))%nat →
  ∃ k, Keyed (evictOne draw c) ∧ contents (evictOne draw c) = delete k (contents c) ∧
    length (mValuePtrs c) = S (length (mValuePtrs (evictOne draw c))) ∧ mMaxSize (evictOne draw c) = mMaxSize c.
Proof.
  intros Hd HK Hl. unfold evictOne. rewrite (proj2 (Nat.eqb_neq _ _)) by lia. destruct (Hd (mGeneration c) _ Hl) as [H1 H2]. destruct (draw _ _) as [i1 i2]. cbn [fst snd] in H1, H2.
  set (victim := if lastAccess c i1 <? lastAccess c i2 then i1 else i2).
  assert (victim < length (mValuePtrs c))%nat as Hv by (unfold victim; by destruct (_ <? _)). apply lookup_lt_is_Some in Hv as [k Hk].
  destruct (evictAt_keyed victim k c HK Hk) as (E1 & E2 & E3). by exists k.
Qed.

Lemma cachePut_ok draw k v c :
  drawOk draw → CacheOk c →
  CacheOk (put draw k v c) ∧ contents (put draw k v c) ⊆ <[k := v]> (contents c) ∧ mMaxSize (put draw k v c) = mMaxSize c.
Proof.
  intros Hd (Hn & Hk & Hl). unfold put. set (g := u64 (mGeneration c + 1)). destruct (mValueMap c !! k) as [x|] eqn:Ex.
  - split_and!; [|unfold contents; cbn; by rewrite fmap_insert|done]. unfold CacheOk. cbn. split_and!; [done| |done].
    intros k'. rewrite Hk. destruct (decide (k = k')) as [<-|Hne]; [by rewrite lookup_insert_eq, Ex|by rewrite lookup_insert_ne].
  - set (c' := {| mMaxSize := mMaxSize c; mGeneration := g; mValueMap := _; mValuePtrs := _; mCounters := _ |}).
    assert (Keyed c') as HK.
    { split; cbn.
      - apply NoDup_app. split_and!; [done| |apply NoDup_singleton]. intros k' Hk' ->%list_elem_of_singleton. by apply Hk in Hk'.
      - intros k'. rewrite elem_of_app, list_elem_of_singleton, Hk. destruct (decide (k = k')) as [<-|Hne]; [rewrite lookup_insert_eq; naive_solver|].
        rewrite lookup_insert_ne by done. naive_solver. }
    assert (contents c' = <[k := v]> (contents c)) as Hc by (unfold contents; cbn; by rewrite fmap_insert).
    assert (length (mValuePtrs c') = S (length (mValuePtrs c))) as Hl' by (cbn; rewrite length_app; cbn; lia). rewrite <- Hc.
    destruct (Nat.ltb_spec (mMaxSize c') (length (mValuePtrs c'))) as [Hlt|Hge].
    + destruct (evictOne_ok draw c' Hd HK ltac:(lia)) as (k' & [E1 E2] & E3 & E4 & E5). rewrite E3. split_and!; [|apply delete_subseteq|done].
      split_and!; [done|done|]. rewrite E5. cbn [mMaxSize c']. lia.
    + destruct HK. done.
Qed.

Lemma maybeGet_ok k c :
  CacheOk c → (maybeGet k c).1 = contents c !! k ∧ CacheOk (maybeGet k c).2 ∧ contents (maybeGet k c).2 = contents c ∧
    mMaxSize (maybeGet k c).2 = mMaxSize c.
Proof.
  intros (Hn & Hk & Hl). rewrite contents_lookup. unfold maybeGet. destruct (mValueMap c !! k) as [x|] eqn:E; [|done]. split_and!; try done.
  - split_and!; cbn; try done. intros k'. rewrite Hk. destruct (decide (k = k')) as [<-|Hne]; [by rewrite lookup_insert_eq, E|by rewrite lookup_insert_ne].
  - unfold contents. cbn. rewrite fmap_insert. cbn. apply insert_id. by rewrite lookup_fmap, E.
Qed.

Lemma cacheAssign_ok k v c :
  CacheOk c → CacheOk (assign k v c) ∧ contents (assign k v c) = alter (λ _, v) k (contents c) ∧ mMaxSize (assign k v c) = mMaxSize c.
Proof.
  intros (Hn & Hk & Hl). split_and!; [..|done].
  - split_and!; cbn; try done. intros k'. rewrite Hk, lookup_alter. case_decide; [subst|done]. by destruct (mValueMap c !! _).
  - apply map_eq. intros k'. rewrite contents_lookup, lookup_alter, contents_lookup. cbn. rewrite lookup_alter.
    case_decide; [by destruct (mValueMap c !! k)|by rewrite contents_lookup].
Qed.

Lemma exists_ok k b c :
  CacheOk c → (exists_ k b c).1 = bool_decide (contents c !! k ≠ None) ∧ CacheOk (exists_ k b c).2 ∧ contents (exists_ k b c).2 = contents c ∧
    mMaxSize (exists_ k b c).2 = mMaxSize c.
Proof.
  intros Hc. rewrite contents_lookup. unfold exists_. destruct (mValueMap c !! k); cbn [fst snd]; [by rewrite bool_decide_eq_true_2|].
  rewrite bool_decide_eq_false_2 by (intros Hn; by apply Hn). by destruct b.
Qed.

Lemma clear_ok c : CacheOk (clear c) ∧ contents (clear c) = ∅.
Proof.
  split; [|apply fmap_empty]. split_and!; cbn; [constructor| |lia]. intros k. rewrite lookup_empty. split; [by intros ?%elem_of_nil|done].
Qed.

Lemma newCache_ok n : CacheOk (newCache n) ∧ contents (newCache n) = ∅.
Proof. split; [|apply fmap_empty]. split_and!; cbn; [constructor| |lia]. intros k. rewrite lookup_empty. split; [by intros ?%elem_of_nil|done]. Qed.

Lemma swapPop_before i j l : (j < i < length l)%nat → swapPop i l !! j = l !! j.
Proof.
  intros Hj. unfold swapPop. destruct l as [|x l] using rev_ind; [cbn in Hj; lia|]. clear IHl. rewrite last_snoc, length_app in *. cbn [length] in *.
  rewrite lookup_take_lt by lia. rewrite list_lookup_insert_ne by lia. done.
Qed.

Lemma eraseLoop_ok f fuel i c :
  Keyed c → (length (mValuePtrs c) - i ≤ fuel)%nat → (∀ j, (j < i)%nat → holdsAt f j c = false) →
  Keyed (eraseLoop f fuel i c) ∧ contents (eraseLoop f fuel i c) = filter (λ kv, f kv.2 = false) (contents c) ∧
  (length (mValuePtrs (eraseLoop f fuel i c)) ≤ length (mValuePtrs c))%nat ∧ mMaxSize (eraseLoop f fuel i c) = mMaxSize c.
Proof.
  assert (∀ c, Keyed c → (∀ j, (j < length (mValuePtrs c))%nat → holdsAt f j c = false) → contents c = filter (λ kv, f kv.2 = false) (contents c)) as Hdone.
  { intros d [Hn Hk] Hj. apply map_eq. intros k. rewrite map_lookup_filter, contents_lookup. destruct (mValueMap d !! k) as [x|] eqn:E; [|done]. cbn.
    assert (k ∈ mValuePtrs d) as [j Hlj]%list_elem_of_lookup by (apply Hk; by rewrite E). pose proof (lookup_lt_Some _ _ _ Hlj) as Hlt.
    specialize (Hj j Hlt). unfold holdsAt in Hj. rewrite Hlj, E in Hj. by case_guard. }
  revert i c. induction fuel as [|fuel IH]; intros i c HK Hf Hb; cbn [eraseLoop].
  { split_and!; try done. apply Hdone; [done|]. intros j Hj. apply Hb. lia. }
  destruct (Nat.ltb_spec i (length (mValuePtrs c))) as [Hi|Hi].
  2:{ split_and!; try done. apply Hdone; [done|]. intros j Hj. apply Hb. lia. }
  destruct (holdsAt f i c) eqn:Eh.
  - destruct (lookup_lt_is_Some_2 _ _ Hi) as [k Hk]. destruct (evictAt_keyed i k c HK Hk) as (E1 & E2 & E3).
    destruct (IH i (evictAt i c) E1) as (F1 & F2 & F3 & F4); [lia| |].
    { intros j Hj. specialize (Hb j Hj). unfold holdsAt in Hb |- *. cbn. rewrite swapPop_before by lia.
      destruct (mValuePtrs c !! j) as [kj|] eqn:Ej; [|done]. rewrite Hk, lookup_delete_ne; [done|]. intros <-.
      assert (i = j) by (eapply NoDup_lookup; [apply HK|done|done]). lia. }
    split_and!; [done| |lia|done]. rewrite F2, E2. apply map_eq. intros k'. rewrite !map_lookup_filter. destruct (decide (k = k')) as [<-|Hne]; [|by rewrite lookup_delete_ne].
    rewrite lookup_delete_eq, contents_lookup. unfold holdsAt in Eh. rewrite Hk in Eh. destruct (mValueMap c !! k) as [x|]; [|done]. cbn. case_guard as Hg; [cbn in Hg; congruence|done].
  - apply IH; [done|lia|]. intros j Hj. destruct (decide (j = i)) as [->|]; [done|]. apply Hb. lia.
Qed.

(** What passes the test is removed, and nothing else. *)
Lemma erase_if_ok f c : CacheOk c → CacheOk (erase_if f c) ∧ contents (erase_if f c) = filter (λ kv, f kv.2 = false) (contents c).
Proof.
  intros (Hn & Hk & Hl). destruct (eraseLoop_ok f (length (mValuePtrs c)) 0 c) as ([H1 H2] & H3 & H4 & H5); [done|lia|lia|]. split; [|done].
  split_and!; [done|done|]. unfold erase_if. lia.
Qed.
End Cache.
Arguments RandomEvictionCache K V {_ _}.
End EvictionCache.
