(* ===== verification/LedgerTables.v ===== *)
(** * The tables of the ledger (src/ledger/LedgerTxn*SQL.cpp, src/util/types.cpp)

    The database keeps the entries in a table for each type, under their primary
    keys: an offer by its number alone, a trust line by the text of its asset code and
    the issuer.  A table is a finite map from primary keys to entries, a query is a
    function of it.  Tables that hold legal entries are the map of entries by their
    ledger keys that LedgerTxn.v has as the root. *)

From stdpp Require Import prelude list gmap sorting.
From Stdlib Require Import ZArith Lia SpecFloat.
From S2P Require Import Prelude Numeric Exchange LedgerEntries Buckets HistoryArchive ApplyBuckets OfferOrder LedgerTxn LedgerTxnBook LedgerTxnBest.
Local Open Scope Z_scope.

(** ** Assets *)

(** [std::isalnum] of the classic locale *)
Definition isalnum (b : Z) : bool :=
  ((48 <=? b) && (b <=? 57)) || ((65 <=? b) && (b <=? 90)) || ((97 <=? b) && (b <=? 122)).

(** The loop over an asset code: the number of characters before the zeros, if the
    code is valid *)
Fixpoint codeChars (zeros : bool) (code : list Z) (count : Z) : option Z :=
  match code with
  | [] => Some count
  | b :: code =>
      if b =? 0 then codeChars true code count
      else if zeros then None
      else if (127 <? b) || negb (isalnum b) then None
      else codeChars false code (count + 1)
  end.

Definition isAssetValid (cur : Asset) : bool :=
  match cur with
  | ASSET_TYPE_NATIVE => true
  | ASSET_TYPE_CREDIT_ALPHANUM4 code _ => match codeChars false code 0 with Some n => 0 <? n | None => false end
  | ASSET_TYPE_CREDIT_ALPHANUM12 code _ => match codeChars false code 0 with Some n => 4 <? n | None => false end
  end.

Fixpoint assetCodeToStr (code : list Z) : list Z :=
  match code with
  | [] => []
  | c :: code => if c =? 0 then [] else c :: assetCodeToStr code
  end.

(** The issuer and the code of a trust line; the account is its own text. *)
Definition getTrustLineStrings (accountID : AccountID) (asset : Asset) (ledgerVersion : Z) : LT (AccountID * list Z) :=
  if (15 <=? ledgerVersion) && negb (isAssetValid asset) then Fail InvalidTrustLine
  else match asset with
       | ASSET_TYPE_NATIVE => Fail InvalidTrustLine
       | ASSET_TYPE_CREDIT_ALPHANUM4 code issuer | ASSET_TYPE_CREDIT_ALPHANUM12 code issuer =>
           if accountID =? issuer then Fail InvalidTrustLine else Ok (issuer, assetCodeToStr code)
       end.

(** ** Tables *)

Inductive PrimaryKey : Type :=
| PK_ACCOUNT (accountid : AccountID)
| PK_TRUSTLINE (accountid issuer : AccountID) (assetcode : list Z)
| PK_OFFER (offerid : Z)
| PK_DATA (accountid : AccountID) (dataname : list Z)
| PK_CLAIMABLE_BALANCE (balanceid : Z).

#[export] Instance PrimaryKey_eq_dec : EqDecision PrimaryKey.
Proof. solve_decision. Defined.

#[export] Instance PrimaryKey_countable : Countable PrimaryKey.
Proof.
  refine (inj_countable'
    (λ k, match k with
          | PK_ACCOUNT a => inl (inl (inl (inl a)))
          | PK_TRUSTLINE a b c => inl (inl (inl (inr (a, b, c))))
          | PK_OFFER a => inl (inl (inr a))
          | PK_DATA a b => inl (inr (a, b))
          | PK_CLAIMABLE_BALANCE a => inr a
          end)
    (λ x, match x with
          | inl (inl (inl (inl a))) => PK_ACCOUNT a
          | inl (inl (inl (inr (a, b, c)))) => PK_TRUSTLINE a b c
          | inl (inl (inr a)) => PK_OFFER a
          | inl (inr (a, b)) => PK_DATA a b
          | inr a => PK_CLAIMABLE_BALANCE a
          end) _); by intros [].
Defined.

Notation Tables := (gmap PrimaryKey LedgerEntry).

(** The primary key that a statement is given *)
Definition rowKey (ledgerVersion : Z) (k : LedgerKey) : LT PrimaryKey :=
  match k with
  | KEY_ACCOUNT a => Ok (PK_ACCOUNT a)
  | KEY_TRUSTLINE a x => let? s := getTrustLineStrings a x ledgerVersion in Ok (PK_TRUSTLINE a s.1 s.2)
  | KEY_OFFER _ i => Ok (PK_OFFER i)
  | KEY_DATA a n => Ok (PK_DATA a n)
  | KEY_CLAIMABLE_BALANCE i => Ok (PK_CLAIMABLE_BALANCE i)
  end.

(** *** Loading one entry *)

Definition loadTrustLine (ledgerVersion : Z) (a : AccountID) (x : Asset) (T : Tables) : LT (option LedgerEntry) :=
  let? s := getTrustLineStrings a x ledgerVersion in
  match T !! PK_TRUSTLINE a s.1 s.2 with
  | None => Ok None
  | Some e =>
      match data e with
      | TRUSTLINE t =>
          Ok (Some {| lastModifiedLedgerSeq := lastModifiedLedgerSeq e;
                      data := TRUSTLINE {| tl_accountID := a; tl_asset := x; tl_balance := tl_balance t; limit := limit t;
                                           tl_flags := tl_flags t; tl_extV1 := tl_extV1 t |};
                      le_ext := le_ext e |})
      | _ => Fail WrongArm
      end
  end.

Definition loadOffer (sellerID : AccountID) (offerID : Z) (T : Tables) : option LedgerEntry :=
  if offerID <? 0 then None
  else match T !! PK_OFFER offerID with
       | Some e => match data e with OFFER o => if o_sellerID o =? sellerID then Some e else None | _ => None end
       | None => None
       end.

(** The switch over the type of a key in [getNewestVersion] *)
Definition loadFromDatabase (ledgerVersion : Z) (k : LedgerKey) (T : Tables) : LT (option LedgerEntry) :=
  match k with
  | KEY_ACCOUNT a => Ok (T !! PK_ACCOUNT a)
  | KEY_DATA a n => Ok (T !! PK_DATA a n)
  | KEY_OFFER s i => Ok (loadOffer s i T)
  | KEY_TRUSTLINE a x => loadTrustLine ledgerVersion a x T
  | KEY_CLAIMABLE_BALANCE i => Ok (T !! PK_CLAIMABLE_BALANCE i)
  end.

(** *** Loading many *)

Definition populateLoadedEntries (keys : gset LedgerKey) (entries : list LedgerEntry) : LT (gmap LedgerKey (option LedgerEntry)) :=
  let? res := foldT (λ le (res : gmap LedgerKey (option LedgerEntry)),
                 let? _ := checkT (isNull (res !! LedgerEntryKey le)) LtxAssertion in
                 Ok (if decide (LedgerEntryKey le ∈ keys) then <[LedgerEntryKey le := Some le]> res else res)) entries ∅ in
  Ok (foldr (λ key res, match res !! key with None => <[key := None]> res | Some _ => res end) res (elements keys)).

(** The primary keys of the constructors of the bulk loads: a native trust line is an
    assertion, an offer with a negative number is not asked for. *)
Definition bulkKey (k : LedgerKey) : LT (option PrimaryKey) :=
  match k with
  | KEY_ACCOUNT a => Ok (Some (PK_ACCOUNT a))
  | KEY_TRUSTLINE a x =>
      match x with
      | ASSET_TYPE_NATIVE => Fail LtxAssertion
      | ASSET_TYPE_CREDIT_ALPHANUM4 code issuer | ASSET_TYPE_CREDIT_ALPHANUM12 code issuer =>
          Ok (Some (PK_TRUSTLINE a issuer (assetCodeToStr code)))
      end
  | KEY_OFFER _ i => Ok (if 0 <=? i then Some (PK_OFFER i) else None)
  | KEY_DATA a n => Ok (Some (PK_DATA a n))
  | KEY_CLAIMABLE_BALANCE i => Ok (Some (PK_CLAIMABLE_BALANCE i))
  end.

(** [bulkLoadAccounts] and the like; the rows come in some order. *)
Definition bulkLoad (iter : ∀ A : Type, list A → list A) (keys : gset LedgerKey) (T : Tables) : LT (gmap LedgerKey (option LedgerEntry)) :=
  if decide (keys = ∅) then Ok ∅
  else
    let? wanted := foldT (λ k (s : gset PrimaryKey),
                      let? p := bulkKey k in
                      Ok (match p with Some p => {[p]} ∪ s | None => s end)) (elements keys) ∅ in
    populateLoadedEntries keys (iter _ (map_to_list (filter (λ pe, pe.1 ∈ wanted) T))).*2.

(** *** Queries for offers *)

(** The price column and the number of an offer *)
Definition sqlPlace (e : LedgerEntry) : Z * (Z * Z) * Z :=
  match data e with OFFER o => place (descriptorOf o) | _ => ((0, (0, 0)), 0) end.

Definition sqlOrder (e e' : LedgerEntry) : Prop := placeCmp (sqlPlace e) (sqlPlace e') ≤ 0.

#[export] Instance sqlOrder_dec : RelDecision sqlOrder.
Proof. unfold sqlOrder. intros e e'. apply _. Defined.

(** [ORDER BY price, offerid] *)
Definition orderBy (rows : list LedgerEntry) : list LedgerEntry := merge_sort sqlOrder rows.

(** [SELECT ... FROM offers WHERE ...] *)
Definition selectOffers (where_ : OfferEntry → bool) (T : Tables) : list LedgerEntry :=
  filter (λ e, isWanted where_ e = true) (map_to_list T).*2.

Definition ofPair (assets : AssetPair) (o : OfferEntry) : bool := bool_decide (pairOf o = assets).

Definition loadBestOffers (assets : AssetPair) (numOffers : nat) (T : Tables) : list LedgerEntry :=
  take numOffers (orderBy (selectOffers (ofPair assets) T)).

(** The conditions of the query with a bound: a higher price, or the same price and at
    least the number *)
Definition priceAbove (assets : AssetPair) (worseThanPrice : spec_float) (o : OfferEntry) : bool :=
  ofPair assets o && SFltb worseThanPrice (priceDouble (o_price o)).

Definition samePrice (assets : AssetPair) (worseThanPrice : spec_float) (worseThanOfferID : Z) (o : OfferEntry) : bool :=
  ofPair assets o && SFeqb (priceDouble (o_price o)) worseThanPrice && (worseThanOfferID <=? o_offerID o).

(** The two sets of offers are looked up one after the other. *)
Definition loadBestOffersWorse (assets : AssetPair) (worseThan : OfferDescriptor) (numOffers : nat) (T : Tables) : LT (list LedgerEntry) :=
  let? _ := checkT (negb (offerID worseThan =? INT64_MAX)) MaximumOfferID in
  let worseThanPrice := priceDouble (price worseThan) in
  let worseThanOfferID := s64 (offerID worseThan + 1) in
  let r1 := take numOffers (orderBy (selectOffers (priceAbove assets worseThanPrice) T)) in
  let r2 := take numOffers (orderBy (selectOffers (samePrice assets worseThanPrice worseThanOfferID) T)) in
  Ok (take numOffers (orderBy (r1 ++ r2))).

(** *** Writing *)

(** The constraints of the tables *)
Definition tableCheck (e : LedgerEntry) : bool :=
  match data e with
  | ACCOUNT a => (0 <=? a_balance a) && (0 <=? numSubEntries a)
  | TRUSTLINE t => (0 <? limit t) && (0 <=? tl_balance t)
  | OFFER o => (0 <=? o_offerID o) && (0 <=? o_amount o)
  | _ => true
  end.

Notation Row := (InternalLedgerKey * option InternalLedgerEntry)%type.

(** One row of [INSERT ... ON CONFLICT DO UPDATE] *)
Definition upsertRow (ledgerVersion : Z) (row : Row) (T : Tables) : LT Tables :=
  match row.2 with
  | Some (LEDGER_ENTRY e) =>
      let? p := rowKey ledgerVersion (LedgerEntryKey e) in
      let? _ := checkT (tableCheck e) CouldNotUpdateSQL in
      Ok (<[p := e]> T)
  | _ => Fail LtxAssertion
  end.

(** [bulkUpsertAccounts] and the like; each row counts as affected. *)
Definition bulkUpsert (ledgerVersion : Z) (rows : list Row) (T : Tables) : LT Tables := foldT (upsertRow ledgerVersion) rows T.

Definition deleteRow (ledgerVersion : Z) (row : Row) (s : nat * Tables) : LT (nat * Tables) :=
  match row with
  | (LEDGER_KEY k, None) =>
      let? p := rowKey ledgerVersion k in
      Ok (match s.2 !! p with Some _ => S s.1 | None => s.1 end, delete p s.2)
  | _ => Fail LtxAssertion
  end.

(** [bulkDeleteAccounts] and the like; the affected rows are counted. *)
Definition bulkDelete (ledgerVersion : Z) (cons : LedgerTxnConsistency) (rows : list Row) (T : Tables) : LT Tables :=
  let? s := foldT (deleteRow ledgerVersion) rows (0%nat, T) in
  let? _ := checkT ((s.1 =? length rows)%nat || bool_decide (cons = EXTRA_DELETES)) CouldNotUpdateSQL in
  Ok s.2.

(** ** Legal entries *)

(** The width of the codes of XDR *)
Definition codeWidth (x : Asset) : Prop :=
  match x with
  | ASSET_TYPE_NATIVE => True
  | ASSET_TYPE_CREDIT_ALPHANUM4 code _ => length code = 4%nat
  | ASSET_TYPE_CREDIT_ALPHANUM12 code _ => length code = 12%nat
  end.

(** A trust line of a valid asset that the account does not issue *)
Definition legalLine (a : AccountID) (x : Asset) : Prop :=
  codeWidth x ∧ isAssetValid x = true ∧ x ≠ ASSET_TYPE_NATIVE ∧ getIssuer x ≠ Some a.

(** The primary key; a native trust line has none. *)
Definition primaryKey (k : LedgerKey) : PrimaryKey :=
  match k with
  | KEY_ACCOUNT a => PK_ACCOUNT a
  | KEY_TRUSTLINE a x =>
      match x with
      | ASSET_TYPE_NATIVE => PK_TRUSTLINE a a []
      | ASSET_TYPE_CREDIT_ALPHANUM4 code issuer | ASSET_TYPE_CREDIT_ALPHANUM12 code issuer => PK_TRUSTLINE a issuer (assetCodeToStr code)
      end
  | KEY_OFFER _ i => PK_OFFER i
  | KEY_DATA a n => PK_DATA a n
  | KEY_CLAIMABLE_BALANCE i => PK_CLAIMABLE_BALANCE i
  end.

Lemma code_padded code count n :
  codeChars false code count = Some n →
  n = count + Z.of_nat (length (assetCodeToStr code)) ∧
  code = assetCodeToStr code ++ replicate (length code - length (assetCodeToStr code)) 0.
Proof.
  assert (∀ code count n, codeChars true code count = Some n → n = count ∧ code = replicate (length code) 0) as Hz.
  { clear. induction code as [|b code IH]; intros count n; cbn [codeChars]; [by intros [= <-]|].
    destruct (Z.eqb_spec b 0) as [->|]; [|done]. intros [-> H]%IH. split; [done|]. cbn. by f_equal. }
  revert count. induction code as [|b code IH]; intros count; cbn [codeChars assetCodeToStr].
  { intros [= <-]. cbn. split; [lia|done]. }
  destruct (Z.eqb_spec b 0) as [->|Hb].
  - intros [-> H]%Hz. split; [cbn; lia|]. cbn. by f_equal.
  - destruct (_ || _); [done|]. intros [-> H]%IH. cbn [length app]. split; [lia|]. cbn. by f_equal.
Qed.

Lemma str_le code : (length (assetCodeToStr code) ≤ length code)%nat.
Proof. induction code as [|c code IH]; cbn; [done|]. destruct (c =? 0); cbn; lia. Qed.

Lemma padded_eq code code' n n' :
  codeChars false code 0 = Some n → codeChars false code' 0 = Some n' → length code = length code' →
  assetCodeToStr code = assetCodeToStr code' → code = code'.
Proof. intros [_ E]%code_padded [_ E']%code_padded Hl Hs. by rewrite E, E', Hl, Hs. Qed.

Lemma codes_differ code code' n n' :
  codeChars false code 0 = Some n → codeChars false code' 0 = Some n' → (length code ≤ 4)%nat → 4 < n' →
  assetCodeToStr code = assetCodeToStr code' → False.
Proof. intros [-> _]%code_padded [-> _]%code_padded Hl Hn Hs. pose proof (str_le code). rewrite Hs in *. lia. Qed.

(** Asset codes of valid assets can be told apart by their text. *)
Lemma line_key_inj a x x' :
  legalLine a x → legalLine a x' → primaryKey (KEY_TRUSTLINE a x) = primaryKey (KEY_TRUSTLINE a x') → x = x'.
Proof.
  intros (Hw & Hv & Hn & _) (Hw' & Hv' & Hn' & _). destruct x as [|c i|c i], x' as [|c' i'|c' i']; try done; cbn [primaryKey]; intros [= <- Hs];
    cbn in Hw, Hw', Hv, Hv'; destruct (codeChars false c 0) as [n|] eqn:E; try done; destruct (codeChars false c' 0) as [n'|] eqn:E'; try done.
  - f_equal. eapply padded_eq; [done|done|lia|done].
  - apply Z.ltb_lt in Hv'. destruct (codes_differ c c' n n'); [done|done|lia|done|done].
  - apply Z.ltb_lt in Hv. destruct (codes_differ c' c n' n); [done|done|lia|done|done].
  - f_equal. eapply padded_eq; [done|done|lia|done].
Qed.

Lemma strings_legal v a x : legalLine a x → ∃ s, getTrustLineStrings a x v = Ok s ∧ PK_TRUSTLINE a s.1 s.2 = primaryKey (KEY_TRUSTLINE a x).
Proof.
  intros (_ & Hv & Hn & Hi). unfold getTrustLineStrings. rewrite Hv, andb_false_r.
  destruct x as [|c i|c i]; [done|..]; cbn in Hi; (destruct (Z.eqb_spec a i) as [->|]; [done|]); by eexists.
Qed.

Section Owners.
Context (owner : Z → AccountID).

Definition legalKey (k : LedgerKey) : Prop :=
  match k with
  | KEY_TRUSTLINE a x => legalLine a x
  | KEY_OFFER s i => 0 ≤ i < INT64_MAX ∧ s = owner i
  | _ => True
  end.

Definition legalEntry (e : LedgerEntry) : Prop :=
  legalKey (LedgerEntryKey e) ∧ tableCheck e = true ∧ ∀ o, data e = OFFER o → priced (o_price o).

Lemma primaryKey_inj k k' : legalKey k → legalKey k' → primaryKey k = primaryKey k' → k = k'.
Proof.
  destruct k as [a|a x|s i|a n|i], k' as [a'|a' x'|s' i'|a' n'|i']; cbn [legalKey]; intros H H'; try (cbn [primaryKey]; congruence);
    try (by destruct x); try (by destruct x').
  - intros E. assert (a = a') as <- by (destruct x, x'; cbn in E; congruence). f_equal. by eapply line_key_inj.
  - cbn. intros [= <-]. destruct H as [_ ->], H' as [_ ->]. done.
Qed.

Lemma rowKey_legal v k : legalKey k → rowKey v k = Ok (primaryKey k).
Proof. destruct k as [a|a x|s i|a n|i]; cbn [legalKey rowKey]; intros H; try done. destruct (strings_legal v a x H) as (s & -> & <-). done. Qed.

(** ** The entries in the tables *)

Definition TablesOk (T : Tables) : Prop := ∀ p e, T !! p = Some e → legalEntry e ∧ p = primaryKey (LedgerEntryKey e).

Definition entriesOf (T : Tables) : gmap LedgerKey LedgerEntry := list_to_map ((λ e, (LedgerEntryKey e, e)) <$> (map_to_list T).*2).

Lemma rows_elem T e : TablesOk T → e ∈ (map_to_list T).*2 ↔ T !! primaryKey (LedgerEntryKey e) = Some e.
Proof.
  intros HT. rewrite list_elem_of_fmap. split.
  - intros ([p e'] & -> & Hp%elem_of_map_to_list). cbn. by destruct (HT _ _ Hp) as [_ <-].
  - intros H. exists (primaryKey (LedgerEntryKey e), e). split; [done|]. by apply elem_of_map_to_list.
Qed.

Lemma rows_keys T : TablesOk T → NoDup ((λ e, (LedgerEntryKey e, e)) <$> (map_to_list T).*2).*1.
Proof.
  intros HT. rewrite <- list_fmap_compose, <- list_fmap_compose.
  assert (NoDup (primaryKey <$> ((λ x : PrimaryKey * LedgerEntry, LedgerEntryKey x.2) <$> map_to_list T))) as Hn;
    [|by apply NoDup_fmap_1 in Hn].
  rewrite <- list_fmap_compose. rewrite (list_fmap_ext _ fst (map_to_list T)); [apply NoDup_fst_map_to_list|].
  intros i [p e] Hi. cbn. symmetry. apply (HT p e). apply elem_of_map_to_list. by eapply list_elem_of_lookup_2.
Qed.

Lemma entriesOf_lookup T k e : TablesOk T → entriesOf T !! k = Some e ↔ LedgerEntryKey e = k ∧ T !! primaryKey k = Some e.
Proof.
  intros HT. unfold entriesOf. rewrite <- elem_of_list_to_map by (by apply rows_keys). rewrite list_elem_of_fmap. split.
  - intros (e' & [= -> ->] & He). split; [done|]. by apply rows_elem.
  - intros [<- He]. exists e. split; [done|]. by apply rows_elem.
Qed.

Lemma entriesOf_legal T k : TablesOk T → legalKey k → entriesOf T !! k = T !! primaryKey k.
Proof.
  intros HT Hk. apply option_eq. intros e. rewrite entriesOf_lookup by done. split; [tauto|]. intros H. split; [|done].
  destruct (HT _ _ H) as [[He _] Hp]. symmetry. by apply primaryKey_inj.
Qed.

Lemma legal_good e : legalEntry e → goodEntry owner (LEDGER_KEY (LedgerEntryKey e)) (LEDGER_ENTRY e).
Proof.
  intros (Hk & _ & Hp). split; [done|]. unfold offerArm. intros o. destruct (data e) eqn:E; try done. intros [= ->]. split; [by apply Hp|].
  unfold LedgerEntryKey in Hk. rewrite E in Hk. cbn in Hk. tauto.
Qed.

Lemma entriesOf_good T : TablesOk T → goodView owner (rootEntries (entriesOf T)).
Proof.
  intros HT k e. rewrite rootEntries_lookup. destruct k as [k|a|a]; try done. destruct (entriesOf T !! k) as [x|] eqn:E; [|done]. intros [= <-].
  apply entriesOf_lookup in E as [<- E]; [|done]. apply legal_good. by destruct (HT _ _ E).
Qed.

(** ** Writing *)

Lemma insert_tables T e : TablesOk T → legalEntry e →
  TablesOk (<[primaryKey (LedgerEntryKey e) := e]> T) ∧
  entriesOf (<[primaryKey (LedgerEntryKey e) := e]> T) = <[LedgerEntryKey e := e]> (entriesOf T).
Proof.
  intros HT He. assert (TablesOk (<[primaryKey (LedgerEntryKey e) := e]> T)) as HT'.
  { intros p x. rewrite lookup_insert_Some. intros [[<- <-]|[_ H]]; [done|by apply HT]. }
  split; [done|]. apply map_eq. intros k. apply option_eq. intros x. rewrite entriesOf_lookup by done. rewrite !lookup_insert_Some, entriesOf_lookup by done.
  split.
  - intros [<- [[Hp <-]|[Hp H]]]; [by left|right]. split; [congruence|done].
  - intros [[<- <-]|[Hk [<- H]]]; [naive_solver|]. split; [done|]. right. split; [|done]. intros E. apply Hk.
    apply primaryKey_inj; [apply He|apply (HT _ _ H)|done].
Qed.

Lemma delete_tables T k : TablesOk T → legalKey k →
  TablesOk (delete (primaryKey k) T) ∧ entriesOf (delete (primaryKey k) T) = delete k (entriesOf T).
Proof.
  intros HT Hk. assert (TablesOk (delete (primaryKey k) T)) as HT'. { intros p x. rewrite lookup_delete_Some. intros [_ H]. by apply HT. }
  split; [done|]. apply map_eq. intros k'. apply option_eq. intros x. rewrite entriesOf_lookup by done. rewrite !lookup_delete_Some, entriesOf_lookup by done.
  split.
  - intros [<- [Hp H]]. split_and!; [congruence|done|done].
  - intros [Hne [<- H]]. split_and!; [done| |done]. intros E. apply Hne. apply primaryKey_inj; [done|apply (HT _ _ H)|done].
Qed.

(** ** Loading *)

(** What a query may ask for: the code rejects other trust lines. *)
Definition queryKey (k : LedgerKey) : Prop := match k with KEY_TRUSTLINE a x => legalLine a x | _ => True end.

Lemma loadOffer_ok T s i : TablesOk T → loadOffer s i T = entriesOf T !! KEY_OFFER s i.
Proof.
  intros HT. apply option_eq. intros e. rewrite entriesOf_lookup by done. unfold loadOffer. cbn [primaryKey].
  destruct (Z.ltb_spec i 0) as [Hi|Hi].
  - split; [done|]. intros [Hk H]. destruct (HT _ _ H) as [[Hl _] _]. rewrite Hk in Hl. cbn in Hl. lia.
  - destruct (T !! PK_OFFER i) as [x|] eqn:E; [|naive_solver]. destruct (HT _ _ E) as [[Hl _] Hp]. unfold LedgerEntryKey in Hp |- *.
    destruct (data x) as [|t|o| |] eqn:Ed; try (by destruct (tl_asset t)); try done. cbn in Hp. injection Hp as ->.
    destruct (Z.eqb_spec (o_sellerID o) s) as [<-|Hne]; split; try done.
    + intros [= <-]. by rewrite Ed.
    + by intros [_ [= <-]].
    + intros [H [= <-]]. rewrite Ed in H. congruence.
Qed.

Lemma loadTrustLine_ok v T a x : TablesOk T → legalLine a x → loadTrustLine v a x T = Ok (entriesOf T !! KEY_TRUSTLINE a x).
Proof.
  intros HT Hl. unfold loadTrustLine. destruct (strings_legal v a x Hl) as (s & -> & Hs). cbn [obind]. rewrite Hs.
  rewrite (entriesOf_legal T (KEY_TRUSTLINE a x)) by done. destruct (T !! primaryKey (KEY_TRUSTLINE a x)) as [e|] eqn:E; [|done].
  destruct (HT _ _ E) as [[Hk _] Hp]. apply primaryKey_inj in Hp; [|done|done]. unfold LedgerEntryKey in Hp.
  destruct e as [seq d ext]. cbn in *. destruct d as [|t| | |]; try done. injection Hp as -> ->. by destruct t.
Qed.

Lemma loadFromDatabase_ok v T k : TablesOk T → queryKey k → loadFromDatabase v k T = Ok (entriesOf T !! k).
Proof.
  intros HT Hk. destruct k as [a|a x|s i|a n|i]; cbn [loadFromDatabase]; [|by apply loadTrustLine_ok|by rewrite loadOffer_ok|..]; by rewrite entriesOf_legal.
Qed.

(** *** Loading many *)

Definition askable (k : LedgerKey) : Prop := match k with KEY_TRUSTLINE _ ASSET_TYPE_NATIVE => False | _ => True end.

Lemma bulkKey_ok k : askable k → ∃ p, bulkKey k = Ok p ∧ (p = None ∨ p = Some (primaryKey k)) ∧ (legalKey k → p = Some (primaryKey k)).
Proof.
  destruct k as [a|a x|s i|a n|i]; cbn [askable bulkKey legalKey primaryKey]; try by eauto.
  - destruct x; [done|..]; by eauto.
  - intros _. eexists. split; [done|]. destruct (Z.leb_spec 0 i); [by eauto|]. split; [by left|lia].
Qed.

Lemma wanted_ok l s0 :
  Forall askable l →
  ∃ s, foldT (λ k (s : gset PrimaryKey), let? p := bulkKey k in Ok (match p with Some p => {[p]} ∪ s | None => s end)) l s0 = Ok s ∧
    (∀ p, p ∈ s0 → p ∈ s) ∧ ∀ k, k ∈ l → legalKey k → primaryKey k ∈ s.
Proof.
  intros Hl. revert s0. induction Hl as [|k l Hk _ IH]; intros s0; cbn [foldT].
  { exists s0. split_and!; [done|done|]. by intros k ?%elem_of_nil. }
  destruct (bulkKey_ok k Hk) as (p & -> & _ & Hp). cbn [obind].
  destruct (IH (match p with Some p => {[p]} ∪ s0 | None => s0 end)) as (s & -> & H1 & H2). exists s. split_and!; [done| |].
  - intros q Hq. apply H1. destruct p; set_solver.
  - intros k' [->|Hk']%elem_of_cons Hlk; [|by apply H2]. rewrite (Hp Hlk) in H1. apply H1. set_solver.
Qed.

Lemma populate_first (keys : gset LedgerKey) l (res : gmap LedgerKey (option LedgerEntry)) :
  NoDup (LedgerEntryKey <$> l) → (∀ e, e ∈ l → res !! LedgerEntryKey e = None) →
  ∃ res', foldT (λ le (res : gmap LedgerKey (option LedgerEntry)),
                 let? _ := checkT (isNull (res !! LedgerEntryKey le)) LtxAssertion in
                 Ok (if decide (LedgerEntryKey le ∈ keys) then <[LedgerEntryKey le := Some le]> res else res)) l res = Ok res' ∧
    ∀ k x, res' !! k = Some x ↔ res !! k = Some x ∨ ∃ e, x = Some e ∧ e ∈ l ∧ LedgerEntryKey e = k ∧ k ∈ keys.
Proof.
  revert res. induction l as [|e l IH]; intros res Hn Hres; cbn [foldT].
  { exists res. split; [done|]. intros k x. split; [by left|]. intros [H|(e & _ & []%elem_of_nil & _)]. done. }
  rewrite fmap_cons in Hn. apply NoDup_cons in Hn as [Hne Hn]. rewrite (Hres e) by left. cbn [isNull checkT obind].
  assert (∀ e', e' ∈ l → LedgerEntryKey e' ≠ LedgerEntryKey e) as Hdiff. { intros e' He' E. apply Hne. rewrite <- E. by apply list_elem_of_fmap_2. }
  destruct (IH (if decide (LedgerEntryKey e ∈ keys) then <[LedgerEntryKey e := Some e]> res else res) Hn) as (res' & -> & Hr).
  { intros e' He'. case_decide; [|apply Hres; by right]. rewrite lookup_insert_ne by (intros E; by apply (Hdiff e' He')). apply Hres. by right. }
  exists res'. split; [done|]. intros k x. rewrite Hr. case_decide as Hd; [rewrite lookup_insert_Some|]; split.
  - intros [[[<- <-]|[_ H]]|(e' & -> & He' & H)]; [right; exists e; split_and!; try done; by left|by left|right; exists e'; split_and!; try tauto; by right].
  - intros [H|(e' & -> & [->|He']%elem_of_cons & <- & Hk)]; [left|by left; left|by right; exists e'].
    right. split; [|done]. intros <-. rewrite Hres in H by left. done.
  - intros [H|(e' & -> & He' & H)]; [by left|right; exists e'; split_and!; try tauto; by right].
  - intros [H|(e' & -> & [->|He']%elem_of_cons & <- & Hk)]; [by left|done|by right; exists e'].
Qed.

Lemma populate_rest (l : list LedgerKey) (res : gmap LedgerKey (option LedgerEntry)) k :
  foldr (λ key res, match res !! key with None => <[key := None]> res | Some _ => res end) res l !! k =
  match res !! k with Some x => Some x | None => if decide (k ∈ l) then Some None else None end.
Proof.
  induction l as [|key l IH]; cbn [foldr].
  { rewrite decide_False by (by intros ?%elem_of_nil). by destruct (res !! k). }
  set (r := foldr _ res l) in *. destruct (decide (key = k)) as [->|Hne].
  - rewrite IH. rewrite (decide_True (P := k ∈ k :: l)) by left. destruct (res !! k) eqn:E; [by rewrite IH|]. case_decide; [by rewrite IH|]. by rewrite lookup_insert_eq.
  - assert ((match r !! key with None => <[key := None]> r | Some _ => r end) !! k = r !! k) as ->.
    { destruct (r !! key); [done|]. by rewrite lookup_insert_ne. }
    rewrite IH. destruct (res !! k); [done|].
    case_decide as H1; case_decide as H2; try done; exfalso; [apply H2; by right|]. apply elem_of_cons in H2 as [->|]; done.
Qed.

Section Iterate.
Context (iter : ∀ A : Type, list A → list A) (Hiter : ∀ A l, iter A l ≡ₚ l).

Lemma filtered_rows T (wanted : gset PrimaryKey) :
  TablesOk T → NoDup (LedgerEntryKey <$> (iter _ (map_to_list (filter (λ pe, pe.1 ∈ wanted) T))).*2) ∧
  ∀ e, e ∈ (iter _ (map_to_list (filter (λ pe, pe.1 ∈ wanted) T))).*2 ↔
    T !! primaryKey (LedgerEntryKey e) = Some e ∧ primaryKey (LedgerEntryKey e) ∈ wanted.
Proof.
  intros HT. set (F := filter (λ pe, pe.1 ∈ wanted) T). assert (TablesOk F) as HF. { intros p e [H _]%map_lookup_filter_Some. by apply HT. } split.
  - rewrite Hiter. pose proof (rows_keys F HF) as Hn. by rewrite <- (list_fmap_compose _ fst) in Hn.
  - intros e. rewrite Hiter, rows_elem by done. unfold F. by rewrite map_lookup_filter_Some.
Qed.

Lemma bulkLoad_ok keys T :
  TablesOk T → (∀ k, k ∈ keys → askable k) →
  ∃ m, bulkLoad iter keys T = Ok m ∧ ∀ k, m !! k = if decide (k ∈ keys) then Some (entriesOf T !! k) else None.
Proof.
  intros HT Hk. unfold bulkLoad. case_decide as He.
  { exists ∅. split; [done|]. intros k. rewrite decide_False by set_solver. apply lookup_empty. }
  destruct (wanted_ok (elements keys) ∅) as (wanted & -> & _ & Hw). { apply Forall_forall. intros k Hin. apply Hk. by apply elem_of_elements. }
  cbn [obind]. unfold populateLoadedEntries. destruct (filtered_rows T wanted HT) as [Hn He'].
  destruct (populate_first keys _ ∅ Hn) as (res & -> & Hres); [intros; apply lookup_empty|]. cbn [obind]. eexists. split; [done|].
  intros k. rewrite populate_rest. destruct (res !! k) as [x|] eqn:E.
  - apply Hres in E as [[]%lookup_empty_Some|(e & -> & Hin & <- & Hke)]. rewrite decide_True by done. do 2 f_equal. symmetry.
    apply entriesOf_lookup; [done|]. apply He' in Hin as [? _]. done.
  - case_decide as H1; case_decide as H2; try done; try (by apply elem_of_elements in H1); try (by destruct H1; apply elem_of_elements).
    do 2 f_equal. symmetry. apply eq_None_not_Some. intros [e [Hke HTe]%entriesOf_lookup]; [|done]. rewrite <- Hke in HTe.
    assert (res !! k = Some (Some e)); [|congruence]. apply Hres. right. exists e. split_and!; try done. apply He'. split; [done|].
    rewrite Hke. apply Hw; [done|]. rewrite <- Hke. apply (HT _ _ HTe).
Qed.
End Iterate.
End Owners.
