(* ===== verification/LedgerTxnRoot.v ===== *)
(** * The root of the ledger transactions (class [LedgerTxnRoot::Impl] of
      src/ledger/LedgerTxn.cpp)

    The root answers from the database and keeps two caches: entries by their keys,
    null ones included, and for each asset pair a beginning of its list of offers, which
    grows in batches as worse offers are asked for.  A commit writes the entries in
    batches by type.  The numbers drawn by the caches and the order of hash tables are
    oracles.  A [BestOffersCacheEntry] is shared with the cache that it was taken from:
    what is loaded into it is seen there, unless it was evicted. *)

From Stdlib Require Import ZArith Lia SpecFloat.
From stdpp Require Import functions prelude list gmap.
From S2P Require Import Prelude Numeric Exchange LedgerEntries Buckets HistoryArchive ApplyBuckets OfferOrder LedgerTxn RandomEvictionCache LedgerTables.
Local Open Scope Z_scope.

Module RootImpl.
Import EvictionCache.

(** ** State *)

Inductive LoadType : Type := IMMEDIATE | PREFETCH.

Record CacheEntry : Type := { ce_entry : option LedgerEntry; ce_type : LoadType }.

Record BestOffersCacheEntry : Type := { bestOffers : list LedgerEntry; allLoaded : bool }.

Notation EntryCache := (RandomEvictionCache LedgerKey CacheEntry).
Notation BestOffersCache := (RandomEvictionCache AssetPair BestOffersCacheEntry).

(** [mTransaction]: the tables as they were when it began *)
Record Impl : Type := {
  mDatabase : Tables;
  mHeader : LedgerHeader;
  mEntryCache : EntryCache;
  mBestOffersCache : BestOffersCache;
  mPrefetchHits : Z;
  mPrefetchMisses : Z;
  mMaxCacheSize : nat;
  mBulkLoadBatchSize : nat;
  mTransaction : option Tables;
  mChild : bool
}.

Definition MIN_BEST_OFFERS_BATCH_SIZE : nat := 5.
Definition LEDGER_ENTRY_BATCH_COMMIT_SIZE : nat := 4095.
(** The double 0.5 *)
Definition ENTRY_CACHE_FILL_RATIO : spec_float := SFdiv 53 1024 (toDouble 1) (toDouble 2).

Definition newRoot (db : Tables) (header : LedgerHeader) (entryCacheSize bestOfferCacheSize prefetchBatchSize : nat) : Impl :=
  {| mDatabase := db; mHeader := header; mEntryCache := newCache entryCacheSize; mBestOffersCache := newCache bestOfferCacheSize;
     mPrefetchHits := 0; mPrefetchMisses := 0; mMaxCacheSize := entryCacheSize; mBulkLoadBatchSize := prefetchBatchSize;
     mTransaction := None; mChild := false |}.

Definition set_mEntryCache (x : EntryCache) (r : Impl) : Impl :=
  {| mDatabase := mDatabase r; mHeader := mHeader r; mEntryCache := x; mBestOffersCache := mBestOffersCache r;
     mPrefetchHits := mPrefetchHits r; mPrefetchMisses := mPrefetchMisses r; mMaxCacheSize := mMaxCacheSize r;
     mBulkLoadBatchSize := mBulkLoadBatchSize r; mTransaction := mTransaction r; mChild := mChild r |}.
Definition set_mBestOffersCache (x : BestOffersCache) (r : Impl) : Impl :=
  {| mDatabase := mDatabase r; mHeader := mHeader r; mEntryCache := mEntryCache r; mBestOffersCache := x;
     mPrefetchHits := mPrefetchHits r; mPrefetchMisses := mPrefetchMisses r; mMaxCacheSize := mMaxCacheSize r;
     mBulkLoadBatchSize := mBulkLoadBatchSize r; mTransaction := mTransaction r; mChild := mChild r |}.
Definition set_prefetch (hits misses : Z) (r : Impl) : Impl :=
  {| mDatabase := mDatabase r; mHeader := mHeader r; mEntryCache := mEntryCache r; mBestOffersCache := mBestOffersCache r;
     mPrefetchHits := hits; mPrefetchMisses := misses; mMaxCacheSize := mMaxCacheSize r;
     mBulkLoadBatchSize := mBulkLoadBatchSize r; mTransaction := mTransaction r; mChild := mChild r |}.
Definition set_child (t : option Tables) (b : bool) (r : Impl) : Impl :=
  {| mDatabase := mDatabase r; mHeader := mHeader r; mEntryCache := mEntryCache r; mBestOffersCache := mBestOffersCache r;
     mPrefetchHits := mPrefetchHits r; mPrefetchMisses := mPrefetchMisses r; mMaxCacheSize := mMaxCacheSize r;
     mBulkLoadBatchSize := mBulkLoadBatchSize r; mTransaction := t; mChild := b |}.
Definition set_mHeader (h : LedgerHeader) (r : Impl) : Impl :=
  {| mDatabase := mDatabase r; mHeader := h; mEntryCache := mEntryCache r; mBestOffersCache := mBestOffersCache r;
     mPrefetchHits := mPrefetchHits r; mPrefetchMisses := mPrefetchMisses r; mMaxCacheSize := mMaxCacheSize r;
     mBulkLoadBatchSize := mBulkLoadBatchSize r; mTransaction := mTransaction r; mChild := mChild r |}.
Definition set_mDatabase (T : Tables) (r : Impl) : Impl :=
  {| mDatabase := T; mHeader := mHeader r; mEntryCache := mEntryCache r; mBestOffersCache := mBestOffersCache r;
     mPrefetchHits := mPrefetchHits r; mPrefetchMisses := mPrefetchMisses r; mMaxCacheSize := mMaxCacheSize r;
     mBulkLoadBatchSize := mBulkLoadBatchSize r; mTransaction := mTransaction r; mChild := mChild r |}.

Definition clearCaches (r : Impl) : Impl := set_mEntryCache (clear (mEntryCache r)) (set_mBestOffersCache (clear (mBestOffersCache r)) r).

Section Oracles.
Context (iter : ∀ A : Type, list A → list A).
Context (draw : Z → nat → nat * nat).

(** ** Entries *)

Definition putInEntryCache (key : LedgerKey) (entry : option LedgerEntry) (type : LoadType) (r : Impl) : Impl :=
  set_mEntryCache (put draw key {| ce_entry := entry; ce_type := type |} (mEntryCache r)) r.

Definition getFromEntryCache (key : LedgerKey) (r : Impl) : LT (option InternalLedgerEntry * Impl) :=
  match maybeGet key (mEntryCache r) with
  | (Some cached, c) =>
      let r := set_mEntryCache c r in
      let r := match ce_type cached with PREFETCH => set_prefetch (u64 (mPrefetchHits r + 1)) (mPrefetchMisses r) r | IMMEDIATE => r end in
      Ok (LEDGER_ENTRY <$> ce_entry cached, r)
  | (None, _) => Fail NotInCache
  end.

(** An exception of the database is fatal; that of an invalid trust line is rethrown
    from protocol 15 on and fatal before. *)
Definition getNewestVersion (gkey : InternalLedgerKey) (r : Impl) : LT (option InternalLedgerEntry * Impl) :=
  match gkey with
  | LEDGER_KEY key =>
      let '(b, c) := exists_ key true (mEntryCache r) in
      let r := set_mEntryCache c r in
      if b then getFromEntryCache key r
      else
        let r := set_prefetch (mPrefetchHits r) (u64 (mPrefetchMisses r + 1)) r in
        let? entry := loadFromDatabase (ledgerVersion (mHeader r)) key (mDatabase r) in
        Ok (LEDGER_ENTRY <$> entry, putInEntryCache key entry IMMEDIATE r)
  | _ => Ok (None, r)
  end.

(** ** Prefetching *)

Definition cacheResult (res : gmap LedgerKey (option LedgerEntry)) (s : Z * Impl) : Z * Impl :=
  foldl (λ s item, (u32 (s.1 + 1), putInEntryCache item.1 item.2 PREFETCH s.2)) s (iter _ (map_to_list res)).

Definition loadBatch (keys : gset LedgerKey) (s : Z * Impl) : LT (Z * Impl) :=
  let? res := bulkLoad iter keys (mDatabase s.2) in
  Ok (cacheResult res s).

(** The entry cache is filling up. *)
Definition fillsUp (r : Impl) : bool :=
  SFleb ENTRY_CACHE_FILL_RATIO
    (SFdiv 53 1024 (toDouble (Z.of_nat (EvictionCache.size (mEntryCache r)))) (toDouble (Z.of_nat (mMaxCacheSize r)))).

(** The loop over the keys; [sets] has the keys of each type that wait for their
    batch.  What remains is loaded by type in the order of the code. *)
Fixpoint prefetchLoop (keys : list LedgerKey) (sets : Z → gset LedgerKey) (s : Z * Impl) : LT (Z * Impl) :=
  match keys with
  | [] => foldT (λ t, loadBatch (sets t)) [0; 2; 1; 3; 4] s
  | key :: keys =>
      if fillsUp s.2 then Ok s
      else
        let t := keyType key in
        let set_ := if (exists_ key false (mEntryCache s.2)).1 then sets t else {[key]} ∪ sets t in
        if (base.size set_ =? mBulkLoadBatchSize s.2)%nat then
          let? s := loadBatch set_ s in
          prefetchLoop keys (<[t := ∅]> sets) s
        else prefetchLoop keys (<[t := set_]> sets) s
  end.

Definition prefetch (keys : gset LedgerKey) (r : Impl) : LT (Z * Impl) := prefetchLoop (iter _ (elements keys)) (λ _, ∅) (0, r).

(** ** The best offers *)

Definition getFromBestOffersCache (assets : AssetPair) (r : Impl) : LT (BestOffersCacheEntry * Impl) :=
  let '(b, c) := exists_ assets true (mBestOffersCache r) in
  if b then
    match maybeGet assets c with
    | (Some cached, c) => Ok (cached, set_mBestOffersCache c r)
    | (None, _) => Fail NotInCache
    end
  else
    let emptyPtr := {| bestOffers := []; allLoaded := false |} in
    Ok (emptyPtr, set_mBestOffersCache (put draw assets emptyPtr c) r).

(** [isBetterOffer] of a descriptor and an entry *)
Definition isBetterThanEntry (lhs : OfferDescriptor) (rhsEntry : LedgerEntry) : bool :=
  match data rhsEntry with OFFER rhs => isBetterOffer lhs (descriptorOf rhs) | _ => false end.

(** [std::upper_bound]: the number of offers in front of the first one that is worse *)
Fixpoint upperBound (worseThan : OfferDescriptor) (offers : list LedgerEntry) : nat :=
  match offers with
  | [] => 0
  | e :: offers => if isBetterThanEntry worseThan e then 0 else S (upperBound worseThan offers)
  end.

(** Iterators are positions. *)
Definition findIncludedOffer (i : nat) (offers : list LedgerEntry) (worseThan : option OfferDescriptor) : nat :=
  match worseThan with
  | Some w => i + upperBound w (drop i offers)
  | None => i
  end.

Definition batchSize (mBulkLoadBatchSize numOffers : nat) : nat :=
  Nat.min (Nat.max mBulkLoadBatchSize MIN_BEST_OFFERS_BATCH_SIZE) (Nat.max MIN_BEST_OFFERS_BATCH_SIZE numOffers).

Definition loadNextBestOffersIntoCache (cached : BestOffersCacheEntry) (assets : AssetPair) (r : Impl) : LT (nat * BestOffersCacheEntry) :=
  let offers := bestOffers cached in
  if allLoaded cached then Ok (length offers, cached)
  else
    let BATCH_SIZE := batchSize (mBulkLoadBatchSize r) (length offers) in
    let? loaded := (match last offers with
                    | None => Ok (loadBestOffers assets BATCH_SIZE (mDatabase r))
                    | Some e =>
                        match data e with
                        | OFFER oe => loadBestOffersWorse assets (descriptorOf oe) BATCH_SIZE (mDatabase r)
                        | _ => Fail WrongArm
                        end
                    end) in
    Ok (length offers, {| bestOffers := offers ++ loaded; allLoaded := (length loaded <? BATCH_SIZE)%nat |}).

(** The loop of [getBestOffer] *)
Fixpoint bestOffersLoop (fuel : nat) (assets : AssetPair) (worseThan : option OfferDescriptor) (r : Impl) (i : nat)
  (cached : BestOffersCacheEntry) : LT (nat * BestOffersCacheEntry) :=
  if (i =? length (bestOffers cached))%nat && negb (allLoaded cached) then
    match fuel with
    | O => Fail LtxOutOfFuel
    | S fuel =>
        let? x := loadNextBestOffersIntoCache cached assets r in
        bestOffersLoop fuel assets worseThan r (findIncludedOffer x.1 (bestOffers x.2) worseThan) x.2
    end
  else Ok (i, cached).

(** The keys of [populateEntryCacheFromBestOffers] *)
Definition offerKeys (e : LedgerEntry) : gset LedgerKey :=
  match data e with
  | OFFER oe =>
      {[KEY_ACCOUNT (o_sellerID oe)]}
      ∪ (if isNative (o_buying oe) then ∅ else {[KEY_TRUSTLINE (o_sellerID oe) (o_buying oe)]})
      ∪ (if isNative (o_selling oe) then ∅ else {[KEY_TRUSTLINE (o_sellerID oe) (o_selling oe)]})
  | _ => ∅
  end.

Definition populateEntryCacheFromBestOffers (offers : list LedgerEntry) (r : Impl) : LT (Z * Impl) :=
  prefetch (⋃ (offerKeys <$> offers)) r.

Definition getBestOffer (fuel : nat) (assets : AssetPair) (worseThan : option OfferDescriptor) (r : Impl)
  : LT (option InternalLedgerEntry * Impl) :=
  let? x := getFromBestOffersCache assets r in
  let cached := x.1 in
  let r := x.2 in
  let initialBestOffersSize := length (bestOffers cached) in
  let? y := bestOffersLoop fuel assets worseThan r (findIncludedOffer 0 (bestOffers cached) worseThan) cached in
  let i := y.1 in
  let offers := bestOffers y.2 in
  let r := set_mBestOffersCache (assign assets y.2 (mBestOffersCache r)) r in
  let? r := (if (length offers =? initialBestOffersSize)%nat then Ok r
             else let? s := populateEntryCacheFromBestOffers (drop i offers) r in Ok s.2) in
  match offers !! i with
  | None => Ok (None, r)
  | Some e =>
      let? _ := checkT (match worseThan with Some w => isBetterThanEntry w e | None => true end) LtxAssertion in
      Ok (Some (LEDGER_ENTRY e), putInEntryCache (LedgerEntryKey e) (Some e) IMMEDIATE r)
  end.

Definition byKey (offers : list LedgerEntry) : gmap LedgerKey LedgerEntry := list_to_map ((λ e, (LedgerEntryKey e, e)) <$> offers).

Definition getAllOffers (r : Impl) : gmap LedgerKey LedgerEntry := byKey (selectOffers (λ _, true) (mDatabase r)).

Definition getOffersByAccountAndAsset (account : AccountID) (asset : Asset) (r : Impl) : LT (gmap LedgerKey LedgerEntry) :=
  let? _ := checkT (negb (isNative asset)) NativeAssetInQuery in
  Ok (byKey (selectOffers (λ o, (o_sellerID o =? account) && (bool_decide (o_selling o = asset) || bool_decide (o_buying o = asset)))
               (mDatabase r))).

(** ** Children *)

Definition addChild (r : Impl) : LT Impl :=
  let? _ := checkT (negb (mChild r)) HasChild in
  Ok (set_child (Some (mDatabase r)) true r).

(** The buffers of a commit: rows to upsert and to delete, by type *)
Record BulkLedgerEntryChangeAccumulator : Type := { toUpsert : Z → list Row; toDelete : Z → list Row }.

Definition emptyAccumulator : BulkLedgerEntryChangeAccumulator := {| toUpsert := λ _, []; toDelete := λ _, [] |}.

Definition accumulate (row : Row) (b : BulkLedgerEntryChangeAccumulator) : BulkLedgerEntryChangeAccumulator :=
  match row.1 with
  | LEDGER_KEY k =>
      let t := keyType k in
      match row.2 with
      | Some _ => {| toUpsert := <[t := toUpsert b t ++ [row]]> (toUpsert b); toDelete := toDelete b |}
      | None => {| toUpsert := toUpsert b; toDelete := <[t := toDelete b t ++ [row]]> (toDelete b) |}
      end
  | _ => b
  end.

(** The statements for the rows of type [t], when there are enough of them *)
Definition flushUpserts (version : Z) (bufferThreshold : nat) (t : Z) (s : BulkLedgerEntryChangeAccumulator * Tables)
  : LT (BulkLedgerEntryChangeAccumulator * Tables) :=
  let '(b, T) := s in
  if (bufferThreshold <? length (toUpsert b t))%nat then
    let? T := bulkUpsert version (toUpsert b t) T in
    Ok ({| toUpsert := <[t := []]> (toUpsert b); toDelete := toDelete b |}, T)
  else Ok (b, T).

Definition flushDeletes (version : Z) (bufferThreshold : nat) (cons : LedgerTxnConsistency) (t : Z)
  (s : BulkLedgerEntryChangeAccumulator * Tables) : LT (BulkLedgerEntryChangeAccumulator * Tables) :=
  let '(b, T) := s in
  if (bufferThreshold <? length (toDelete b t))%nat then
    let? T := bulkDelete version cons (toDelete b t) T in
    Ok ({| toUpsert := toUpsert b; toDelete := <[t := []]> (toDelete b) |}, T)
  else Ok (b, T).

Definition bulkApplyType (version : Z) (bufferThreshold : nat) (cons : LedgerTxnConsistency) (t : Z)
  (s : BulkLedgerEntryChangeAccumulator * Tables) : LT (BulkLedgerEntryChangeAccumulator * Tables) :=
  let? s := flushUpserts version bufferThreshold t s in
  flushDeletes version bufferThreshold cons t s.

Definition bulkApply (version : Z) (bufferThreshold : nat) (cons : LedgerTxnConsistency)
  (s : BulkLedgerEntryChangeAccumulator * Tables) : LT (BulkLedgerEntryChangeAccumulator * Tables) :=
  foldT (bulkApplyType version bufferThreshold cons) [0; 1; 2; 3; 4] s.

Fixpoint commitLoop (version : Z) (cons : LedgerTxnConsistency) (rows : list Row) (bleca : BulkLedgerEntryChangeAccumulator) (T : Tables)
  : LT Tables :=
  match rows with
  | [] => Ok T
  | row :: rows =>
      let bufferThreshold := match rows with [] => 0%nat | _ => LEDGER_ENTRY_BATCH_COMMIT_SIZE end in
      let? s := bulkApply version bufferThreshold cons (accumulate row bleca, T) in
      commitLoop version cons rows s.1 s.2
  end.

Definition commitChild (childHeader : LedgerHeader) (cons : LedgerTxnConsistency) (entries : gmap InternalLedgerKey (option InternalLedgerEntry))
  (r : Impl) : LT Impl :=
  let? T := commitLoop (ledgerVersion (mHeader r)) cons (iter _ (map_to_list entries)) emptyAccumulator (mDatabase r) in
  Ok (set_prefetch 0 0 (set_child None false (set_mHeader childHeader (clearCaches (set_mDatabase T r))))).

Definition rollbackChild (r : Impl) : Impl :=
  set_prefetch 0 0 (set_child None false (set_mDatabase (default (mDatabase r) (mTransaction r)) r)).

(** ** The whole database *)

Definition throwIfChild (r : Impl) : LT unit := checkT (negb (mChild r)) HasChild.

Definition countAll (let_ : Z) (r : Impl) : LT Z :=
  let? _ := throwIfChild r in
  Ok (Z.of_nat (base.size (filter (λ pe, dataType pe.2 = let_) (mDatabase r)))).

Definition countRange (let_ : Z) (ledgers : LedgerRange) (r : Impl) : LT Z :=
  let? _ := throwIfChild r in
  Ok (Z.of_nat (base.size (filter (λ pe, dataType pe.2 = let_ ∧ i32 (mFirst ledgers) ≤ lastModifiedLedgerSeq pe.2 ∧
                                         lastModifiedLedgerSeq pe.2 < i32 (rangeLimit ledgers)) (mDatabase r)))).

Definition deleteModified (ledger : Z) (r : Impl) : LT Impl :=
  let? _ := throwIfChild r in
  Ok (set_mDatabase (filter (λ pe, lastModifiedLedgerSeq pe.2 < ledger) (mDatabase r)) (clearCaches r)).

(** [dropAccounts] and the like *)
Definition dropTable (let_ : Z) (r : Impl) : LT Impl :=
  let? _ := throwIfChild r in
  Ok (set_mDatabase (filter (λ pe, dataType pe.2 ≠ let_) (mDatabase r)) (clearCaches r)).
End Oracles.
End RootImpl.
