(* ===== verification/LedgerRootOffers.v ===== *)
(** * The best offers of the root

    The offers of a pair in the order of the queries are one list, [ordered].  A batch
    continues it where the cached list ends, so that a cached list is a beginning of it;
    the first offer in it that is worse than a given one is the best of these. *)

From Stdlib Require Import ZArith Lia SpecFloat.
From stdpp Require Import prelude list gmap sorting.
From S2P Require Import Prelude Numeric Exchange LedgerEntries Buckets HistoryArchive ApplyBuckets OfferOrder LedgerTxn LedgerTxnBook LedgerTxnBest RandomEvictionCache LedgerTables LedgerTxnRoot.
Import RootImpl.
Local Open Scope Z_scope.

(** ** Sorting *)

#[export] Instance sqlOrder_total : Total sqlOrder.
Proof. intros x y. unfold sqlOrder. rewrite (placeCmp_flip (sqlPlace x)). lia. Qed.

#[export] Instance sqlOrder_trans : Transitive sqlOrder.
Proof.
  intros x y z. unfold sqlOrder. intros H1 H2.
  destruct (Z.eq_dec (placeCmp (sqlPlace x) (sqlPlace y)) 0) as [->%(cmp_eq placeCmp)|]; [done|].
  destruct (Z.eq_dec (placeCmp (sqlPlace y) (sqlPlace z)) 0) as [<-%(cmp_eq placeCmp)|]; [done|].
  apply Z.lt_le_incl, (place_lt_trans _ (sqlPlace y)); lia.
Qed.

#[export] Instance rankCmp_ok : CmpOk rankCmp.
Proof. unfold rankCmp. apply _. Qed.

(** Different rows have different places. *)
Definition apart (rows : list LedgerEntry) : Prop := ∀ x y, x ∈ rows → y ∈ rows → sqlPlace x = sqlPlace y → x = y.

Lemma sqlOrder_anti x y : sqlOrder x y → sqlOrder y x → sqlPlace x = sqlPlace y.
Proof. unfold sqlOrder. rewrite (placeCmp_flip (sqlPlace x)). intros. apply (cmp_eq placeCmp). lia. Qed.

Lemma orderBy_eq rows l : apart rows → StronglySorted sqlOrder l → l ≡ₚ rows → orderBy rows = l.
Proof.
  intros Ha Hs Hp. apply (StronglySorted_unique_strong sqlOrder).
  - intros x y Hx Hy H1 H2. apply Ha; [by rewrite <- (merge_sort_Permutation sqlOrder)|by rewrite <- Hp|by apply sqlOrder_anti].
  - apply (StronglySorted_merge_sort _).
  - done.
  - by rewrite Hp; apply merge_sort_Permutation.
Qed.

Lemma orderBy_perm rows : orderBy rows ≡ₚ rows.
Proof. apply merge_sort_Permutation. Qed.

Lemma orderBy_sorted rows : StronglySorted sqlOrder (orderBy rows).
Proof. apply (StronglySorted_merge_sort _). Qed.

Lemma apart_sub rows rows' : apart rows → rows' ⊆ rows → apart rows'.
Proof. intros Ha Hs x y Hx Hy. apply Ha; by apply Hs. Qed.

Lemma sorted_take n l : StronglySorted sqlOrder l → StronglySorted sqlOrder (take n l).
Proof. intros H. rewrite <- (take_drop n l) in H. by eapply StronglySorted_app_1_l. Qed.

Lemma sorted_drop n l : StronglySorted sqlOrder l → StronglySorted sqlOrder (drop n l).
Proof. intros H. rewrite <- (take_drop n l) in H. by eapply StronglySorted_app_1_r. Qed.

Lemma filter_split {A} (f g h : A → bool) (l : list A) :
  (∀ x, x ∈ l → h x = f x || g x) → (∀ x, x ∈ l → f x = true → g x = false) →
  filter (λ x, f x = true) l ++ filter (λ x, g x = true) l ≡ₚ filter (λ x, h x = true) l.
Proof.
  induction l as [|x l IH]; intros Hh Hd; [done|]. specialize (IH (λ y Hy, Hh y (list_elem_of_further _ _ _ Hy)) (λ y Hy, Hd y (list_elem_of_further _ _ _ Hy))).
  rewrite !filter_cons. rewrite (Hh x) by left. pose proof (Hd x ltac:(by left)) as Hx. destruct (f x), (g x); cbn [orb].
  1: by specialize (Hx eq_refl).
  all: repeat case_decide; try done; cbn [app].
  - by rewrite IH.
  - rewrite <- IH. symmetry. apply Permutation_middle.
Qed.

Lemma filter_none {A} (f : A → bool) (l : list A) : (∀ x, x ∈ l → f x = false) → filter (λ x, f x = true) l = [].
Proof.
  induction l as [|x l IH]; intros H; [done|]. rewrite filter_cons_False by (rewrite H; [done|by left]). apply IH. intros y Hy. apply H. by right.
Qed.

Lemma filter_all {A} (f : A → bool) (l : list A) : (∀ x, x ∈ l → f x = true) → filter (λ x, f x = true) l = l.
Proof.
  induction l as [|x l IH]; intros H; [done|]. rewrite filter_cons_True by (apply H; by left). f_equal. apply IH. intros y Hy. apply H. by right.
Qed.

Lemma elem_of_take_sub {A} n (l : list A) x : x ∈ take n l → x ∈ l.
Proof. intros H. rewrite <- (take_drop n l). apply elem_of_app. by left. Qed.

Lemma take_both {A} n (a b : list A) : take n (take n a ++ take n b) = take n (a ++ b).
Proof.
  destruct (decide (n ≤ length a)%nat) as [H|H].
  - rewrite !take_app_le by (rewrite ?length_take; lia). rewrite take_take. f_equal. lia.
  - rewrite (take_ge a) by lia. rewrite !take_app_ge by lia. rewrite take_take. do 2 f_equal. lia.
Qed.

(** ** The queries *)

Section Owners.
Context (owner : Z → AccountID).

Definition ordered (P : AssetPair) (T : Tables) : list LedgerEntry := orderBy (selectOffers (ofPair P) T).

Definition included (w : option OfferDescriptor) (e : LedgerEntry) : bool :=
  match w with Some w => isBetterThanEntry w e | None => true end.

Lemma select_elem f T e : TablesOk owner T → e ∈ selectOffers f T ↔ isWanted f e = true ∧ T !! primaryKey (LedgerEntryKey e) = Some e.
Proof. intros HT. unfold selectOffers. rewrite list_elem_of_filter. by rewrite (rows_elem owner). Qed.

Lemma wanted_offer f e : isWanted f e = true → ∃ o, data e = OFFER o ∧ f o = true.
Proof. unfold isWanted. destruct (data e); try done. eauto. Qed.

Lemma row_priced T e o : TablesOk owner T → T !! primaryKey (LedgerEntryKey e) = Some e → data e = OFFER o → priced (price (descriptorOf o)).
Proof. intros HT He Ho. by apply (HT _ _ He). Qed.

Lemma select_apart f T : TablesOk owner T → apart (selectOffers f T).
Proof.
  intros HT x y [Wx Hx]%select_elem [Wy Hy]%select_elem; [|done..]. destruct (wanted_offer _ _ Wx) as (o & Eo & _), (wanted_offer _ _ Wy) as (o' & Eo' & _).
  unfold sqlPlace. rewrite Eo, Eo'. intros [= _ H]. unfold LedgerEntryKey in Hx, Hy. rewrite Eo in Hx. rewrite Eo' in Hy. cbn in Hx, Hy. congruence.
Qed.

Lemma select_filter f (g : LedgerEntry → bool) h T :
  (∀ e, isWanted f e && g e = isWanted h e) → filter (λ e, g e = true) (selectOffers f T) = selectOffers h T.
Proof.
  intros H. unfold selectOffers. rewrite list_filter_filter. apply list_filter_iff. intros e. rewrite <- H, andb_true_iff. tauto.
Qed.

Lemma price_order p q : priced p → priced q →
  SFltb (priceDouble p) (priceDouble q) = (rankCmp (rank (priceDouble p)) (rank (priceDouble q)) <? 0) ∧
  SFeqb (priceDouble p) (priceDouble q) = (rankCmp (rank (priceDouble p)) (rank (priceDouble q)) =? 0).
Proof.
  intros Hp Hq. unfold SFltb, SFeqb. rewrite (compare_rank _ _ Hp Hq).
  destruct (Z.ltb_spec (rankCmp (rank (priceDouble p)) (rank (priceDouble q))) 0), (Z.eqb_spec (rankCmp (rank (priceDouble p)) (rank (priceDouble q))) 0); done || lia.
Qed.

(** An offer worse than [w] *)
Definition worseThanBy (P : AssetPair) (w : OfferDescriptor) (o : OfferEntry) : bool := ofPair P o && isBetterOffer w (descriptorOf o).

Section Bound.
Context (P : AssetPair) (w : OfferDescriptor) (T : Tables).
Context (HT : TablesOk owner T) (Hw : priced (price w)).
Notation above := (priceAbove P (priceDouble (price w))).
Notation same := (samePrice P (priceDouble (price w)) (offerID w + 1)).

Lemma worse_cases e :
  e ∈ (map_to_list T).*2 →
  isWanted (worseThanBy P w) e = isWanted same e || isWanted above e ∧ (isWanted same e = true → isWanted above e = false).
Proof.
  intros He%(rows_elem owner); [|done]. unfold isWanted. destruct (data e) as [| |o| |] eqn:Eo; try done.
  unfold worseThanBy, samePrice, priceAbove. destruct (ofPair P o); [|done]. cbn [andb]. unfold isBetterOffer. cbn [price offerID descriptorOf].
  pose proof (row_priced T e o HT He Eo) as Hp. cbn in Hp. destruct (price_order (price w) (o_price o) Hw Hp) as [-> ->].
  destruct (price_order (o_price o) (price w) Hp Hw) as [_ ->]. rewrite (cmp_opp rankCmp (rank (priceDouble (price w)))).
  set (c := rankCmp _ _).
  destruct (Z.ltb_spec c 0), (Z.eqb_spec c 0), (Z.eqb_spec (- c) 0), (Z.ltb_spec (offerID w) (o_offerID o)), (Z.leb_spec (offerID w + 1) (o_offerID o));
    try lia; done.
Qed.

Lemma same_above_sorted : StronglySorted sqlOrder (orderBy (selectOffers same T) ++ orderBy (selectOffers above T)).
Proof.
  apply StronglySorted_app_2; [|apply orderBy_sorted..]. intros x y. rewrite !orderBy_perm. intros [Wx Hx]%select_elem [Wy Hy]%select_elem; [|done..].
  destruct (wanted_offer _ _ Wx) as (o & Eo & Fo), (wanted_offer _ _ Wy) as (o' & Eo' & Fo'). unfold samePrice in Fo. unfold priceAbove in Fo'.
  apply andb_true_iff in Fo as [[_ F1]%andb_true_iff _], Fo' as [_ F2].
  pose proof (row_priced T x o HT Hx Eo) as Hp. pose proof (row_priced T y o' HT Hy Eo') as Hp'. cbn in Hp, Hp'.
  rewrite (proj2 (price_order _ _ Hp Hw)) in F1. rewrite (proj1 (price_order _ _ Hw Hp')) in F2. apply Z.eqb_eq, (cmp_eq rankCmp) in F1.
  unfold sqlOrder, sqlPlace, place, placeCmp. rewrite Eo, Eo'. unfold pairCmp at 1. cbn. rewrite F1.
  apply Z.ltb_lt in F2. destruct (Z.eqb_spec (rankCmp (rank (priceDouble (price w))) (rank (priceDouble (o_price o')))) 0); lia.
Qed.

Lemma same_above_perm : orderBy (selectOffers same T) ++ orderBy (selectOffers above T) ≡ₚ selectOffers (worseThanBy P w) T.
Proof. rewrite !orderBy_perm. apply filter_split; intros e He; by destruct (worse_cases e He). Qed.

(** The query with a bound finds the offers that are worse, in order. *)
Lemma loadBestOffersWorse_ok n :
  0 ≤ offerID w < INT64_MAX → loadBestOffersWorse P w n T = Ok (take n (orderBy (selectOffers (worseThanBy P w) T))).
Proof.
  intros Hid. unfold loadBestOffersWorse, checkT. rewrite (proj2 (Z.eqb_neq _ _)) by lia. cbn [negb obind]. f_equal.
  replace (s64 (offerID w + 1)) with (offerID w + 1) by (symmetry; apply s64_small; unfold in_s64, INT64_MAX, INT64_MIN in *; lia).
  pose proof same_above_perm as Hp. pose proof same_above_sorted as Hs. pose proof (select_apart (worseThanBy P w) T HT) as Ha.
  rewrite (orderBy_eq (selectOffers (worseThanBy P w) T) _ Ha Hs Hp), <- take_both. set (A := orderBy (selectOffers same T)) in *.
  set (B := orderBy (selectOffers above T)) in *. f_equal. apply orderBy_eq.
  - eapply apart_sub; [exact Ha|]. intros e. rewrite <- Hp, !elem_of_app. intros [He|He]; [right|left]; by eapply elem_of_take_sub.
  - apply StronglySorted_app in Hs as (H1 & H2 & H3). apply StronglySorted_app_2; [|by apply sorted_take..]. intros x y Hx Hy.
    apply H1; by eapply elem_of_take_sub.
  - apply Permutation_app_comm.
Qed.
End Bound.

(** ** The ordered offers of a pair *)

Section Pair.
Context (P : AssetPair) (T : Tables) (HT : TablesOk owner T).
Notation L := (ordered P T).

Lemma ordered_elem e : e ∈ L ↔ T !! primaryKey (LedgerEntryKey e) = Some e ∧ ∃ o, data e = OFFER o ∧ pairOf o = P.
Proof.
  unfold ordered. rewrite orderBy_perm, select_elem by done. unfold isWanted, ofPair. split.
  - intros [H ?]. split; [done|]. destruct (data e); try done. apply bool_decide_eq_true in H. eauto.
  - intros (? & o & -> & ?). split; [|done]. by apply bool_decide_eq_true.
Qed.

Lemma ordered_nodup : NoDup L.
Proof.
  unfold ordered. rewrite orderBy_perm. apply NoDup_filter. pose proof (rows_keys owner T HT) as Hn. rewrite <- list_fmap_compose in Hn. by apply NoDup_fmap_1 in Hn.
Qed.

Lemma better_entry e x o : e ∈ L → x ∈ L → data e = OFFER o → isBetterThanEntry (descriptorOf o) x = true ↔ placeCmp (sqlPlace e) (sqlPlace x) < 0.
Proof.
  rewrite !ordered_elem. intros [He _] [Hx (o' & Eo' & _)] Eo. unfold isBetterThanEntry, sqlPlace. rewrite Eo, Eo'.
  apply better_place; [exact (row_priced T e o HT He Eo)|exact (row_priced T x o' HT Hx Eo')].
Qed.

(** The list is strictly ordered. *)
Lemma ordered_split l1 e l2 x :
  L = l1 ++ e :: l2 → (x ∈ l1 → placeCmp (sqlPlace x) (sqlPlace e) < 0) ∧ (x ∈ l2 → placeCmp (sqlPlace e) (sqlPlace x) < 0).
Proof.
  intros HL. pose proof (orderBy_sorted (selectOffers (ofPair P) T)) as Hs. change (StronglySorted sqlOrder L) in Hs. pose proof ordered_nodup as Hn.
  assert (apart L) as Ha. { intros a b. unfold ordered. rewrite orderBy_perm. by apply select_apart. }
  rewrite HL in Hs, Hn, Ha. apply StronglySorted_app in Hs as (H1 & _ & H2). apply StronglySorted_cons in H2 as [H2 _]. rewrite Forall_forall in H2.
  apply NoDup_app in Hn as (_ & N1 & N2). apply NoDup_cons in N2 as [N2 _]. split; intros Hx.
  - specialize (H1 x e Hx ltac:(by left)). unfold sqlOrder in H1. destruct (Z.eq_dec (placeCmp (sqlPlace x) (sqlPlace e)) 0) as [E%(cmp_eq placeCmp)|]; [|lia].
    assert (x = e) as -> by (apply Ha; [set_solver|set_solver|done]). destruct (N1 e Hx). by left.
  - specialize (H2 x Hx). unfold sqlOrder in H2. destruct (Z.eq_dec (placeCmp (sqlPlace e) (sqlPlace x)) 0) as [E%(cmp_eq placeCmp)|]; [|lia].
    assert (e = x) as -> by (apply Ha; [set_solver|set_solver|done]). done.
Qed.

Lemma filter_later l1 e l2 o : L = l1 ++ e :: l2 → data e = OFFER o → filter (λ x, isBetterThanEntry (descriptorOf o) x = true) L = l2.
Proof.
  intros HL Eo. assert (∀ x, x ∈ L → isBetterThanEntry (descriptorOf o) x = true ↔ placeCmp (sqlPlace e) (sqlPlace x) < 0) as Hb.
  { intros x Hx. apply better_entry; [|done|done]. rewrite HL. set_solver. }
  pose proof (λ x, ordered_split l1 e l2 x HL) as Hsp. rewrite HL in Hb |- *. rewrite filter_app.
  assert (∀ x, x ∈ l1 ++ e :: l2 → 0 ≤ placeCmp (sqlPlace e) (sqlPlace x) → isBetterThanEntry (descriptorOf o) x = false) as Hf.
  { intros x Hx Hp. apply not_true_is_false. rewrite Hb by done. lia. }
  rewrite filter_none, app_nil_l, filter_cons_False, filter_all; [done|..].
  - intros x Hx. apply Hb; [set_solver|]. by apply Hsp.
  - rewrite Hf; [done|set_solver|]. rewrite placeCmp_refl. lia.
  - intros x Hx. apply Hf; [set_solver|]. rewrite (placeCmp_flip (sqlPlace x)). pose proof (proj1 (Hsp x) Hx). lia.
Qed.

(** The batch after a beginning of the list *)
Lemma next_batch m n e o :
  last (take m L) = Some e → data e = OFFER o →
  take n (orderBy (selectOffers (worseThanBy P (descriptorOf o)) T)) = take n (drop m L).
Proof.
  intros Hl Eo. apply last_Some in Hl as [l1 Hl]. assert (L = l1 ++ e :: drop m L) as HL. { rewrite <- (take_drop m L) at 1. by rewrite Hl, <- app_assoc. }
  f_equal. apply orderBy_eq; [by apply select_apart|by apply sorted_drop, orderBy_sorted|].
  rewrite <- (filter_later l1 e (drop m L) o HL Eo).
  rewrite <- (select_filter (ofPair P) (isBetterThanEntry (descriptorOf o)) (worseThanBy P (descriptorOf o))).
  - unfold ordered. by rewrite orderBy_perm.
  - intros x. unfold isWanted, isBetterThanEntry, worseThanBy. by destruct (data x).
Qed.

(** ** Cached offers *)

(** A cached list is a beginning of the list of offers. *)
Definition BestOk (c : BestOffersCacheEntry) : Prop :=
  bestOffers c = take (length (bestOffers c)) L ∧ (allLoaded c = true → bestOffers c = L).

Lemma ordered_legal e : e ∈ L → ∃ o, data e = OFFER o ∧ priced (price (descriptorOf o)) ∧ 0 ≤ offerID (descriptorOf o) < INT64_MAX.
Proof.
  rewrite ordered_elem. intros (He & o & Eo & _). exists o. split_and!; [done|by eapply row_priced| |]; destruct (HT _ _ He) as [[Hk _] _];
    unfold LedgerEntryKey in Hk; rewrite Eo in Hk; cbn in Hk |- *; lia.
Qed.

(** A batch after the cached list *)
Definition batch (n : nat) (c : BestOffersCacheEntry) : BestOffersCacheEntry :=
  {| bestOffers := bestOffers c ++ take n (drop (length (bestOffers c)) L);
     allLoaded := (length (take n (drop (length (bestOffers c)) L)) <? n)%nat |}.

Lemma batch_ok n c : (0 < n)%nat → BestOk c → BestOk (batch n c) ∧ (allLoaded (batch n c) = true ∨ length (bestOffers c) < length (bestOffers (batch n c)))%nat.
Proof.
  intros Hn [Hc _]. set (m := length (bestOffers c)) in *. assert (bestOffers (batch n c) = take (m + n) L) as Hb.
  { cbn. rewrite Hc at 1. fold m. by rewrite take_take_drop. }
  assert (m ≤ length L)%nat as Hm by (apply (f_equal length) in Hc; rewrite length_take in Hc; lia).
  split; [split|].
  - rewrite Hb, length_take. destruct (Nat.min_spec (m + n) (length L)) as [[_ ->]|[? ->]]; [done|]. by rewrite !take_ge by lia.
  - rewrite Hb. cbn. fold m. rewrite length_take, length_drop. intros H%Nat.ltb_lt. apply take_ge. lia.
  - rewrite Hb. cbn [allLoaded batch]. fold m. rewrite !length_take, length_drop. destruct (Nat.ltb_spec (Nat.min n (length L - m)) n); [by left|right]. lia.
Qed.

Lemma batchSize_pos a b : (0 < batchSize a b)%nat.
Proof. unfold batchSize, MIN_BEST_OFFERS_BATCH_SIZE. lia. Qed.

Lemma loadNext_ok r c :
  mDatabase r = T → BestOk c → allLoaded c = false →
  loadNextBestOffersIntoCache c P r = Ok (length (bestOffers c), batch (batchSize (mBulkLoadBatchSize r) (length (bestOffers c))) c).
Proof.
  intros HrT [Hc _] Ha. unfold loadNextBestOffersIntoCache. rewrite Ha, HrT. set (n := batchSize _ _).
  assert (match last (bestOffers c) with
          | None => Ok (loadBestOffers P n T)
          | Some e => match data e with OFFER oe => loadBestOffersWorse P (descriptorOf oe) n T | _ => Fail WrongArm end
          end = Ok (take n (drop (length (bestOffers c)) L))) as ->; [|done].
  destruct (last (bestOffers c)) as [e|] eqn:El.
  - assert (e ∈ L) as He. { apply (elem_of_take_sub (length (bestOffers c))). rewrite <- Hc. by apply last_Some_elem_of. }
    destruct (ordered_legal e He) as (o & Eo & Hp & Hid). rewrite Eo, loadBestOffersWorse_ok by done. f_equal. apply (next_batch _ n e o); [|done]. by rewrite <- Hc.
  - apply last_None in El. by rewrite El.
Qed.

(** ** The search *)

(** No offer in front of [i] is worse than [w]; the one at [i] is. *)
Definition frontier (w : option OfferDescriptor) (offers : list LedgerEntry) (i : nat) : Prop :=
  (i ≤ length offers)%nat ∧ (∀ e, e ∈ take i offers → included w e = false) ∧ ∀ e, offers !! i = Some e → included w e = true.

Lemma upperBound_ok w offers : frontier (Some w) offers (upperBound w offers).
Proof.
  induction offers as [|e offers (H1 & H2 & H3)]; cbn [upperBound].
  { split_and!; [done|by intros e ?%elem_of_nil|done]. }
  destruct (isBetterThanEntry w e) eqn:E.
  - split_and!; [cbn; lia|by intros x ?%elem_of_nil|by intros x [= <-]].
  - split_and!; [cbn; lia| |done]. cbn [take]. intros x [->|Hx]%elem_of_cons; [done|by apply H2].
Qed.

(** The search goes on behind offers that are not worse. *)
Lemma findIncluded_ok w offers i :
  (i ≤ length offers)%nat → (∀ e, e ∈ take i offers → included w e = false) → frontier w offers (findIncludedOffer i offers w).
Proof.
  intros Hi Hn. destruct w as [w|]; cbn [findIncludedOffer]; [|by split_and!].
  destruct (upperBound_ok w (drop i offers)) as (H1 & H2 & H3). rewrite length_drop in H1. split_and!; [lia| |].
  - intros e. rewrite <- (take_take_drop offers i), elem_of_app. intros [He|He]; [by apply Hn|by apply H2].
  - intros e. rewrite <- lookup_drop. apply H3.
Qed.

Lemma bestOffersLoop_ok r fuel w i c :
  mDatabase r = T → BestOk c → frontier w (bestOffers c) i → (S (length L - length (bestOffers c)) ≤ fuel)%nat →
  ∃ i' c', bestOffersLoop fuel P w r i c = Ok (i', c') ∧ BestOk c' ∧ frontier w (bestOffers c') i' ∧ (bestOffers c' !! i' = None → allLoaded c' = true).
Proof.
  intros HrT. revert i c. induction fuel as [|fuel IH]; intros i c Hc (H1 & H2 & H3) Hf; [lia|]. cbn [bestOffersLoop].
  destruct ((i =? length (bestOffers c))%nat && negb (allLoaded c)) eqn:E.
  - apply andb_true_iff in E as [->%Nat.eqb_eq Ha%negb_true_iff]. rewrite (loadNext_ok r c HrT Hc Ha). cbn [obind fst snd].
    set (n := batchSize _ _). destruct (batch_ok n c (batchSize_pos _ _) Hc) as [Hb Hgrow].
    assert (bestOffers (batch n c) = bestOffers c ++ take n (drop (length (bestOffers c)) L)) as Eb by done.
    assert (frontier w (bestOffers (batch n c)) (findIncludedOffer (length (bestOffers c)) (bestOffers (batch n c)) w)) as Hfr.
    { apply findIncluded_ok; rewrite Eb; [rewrite length_app; lia|]. rewrite take_app_length. by rewrite firstn_all in H2. }
    destruct Hgrow as [Hall|Hlt].
    + destruct fuel as [|fuel']; cbn [bestOffersLoop]; rewrite Hall, andb_false_r; by eauto 6.
    + apply IH; [done|done|]. destruct Hb as [Hb _]. apply (f_equal length) in Hb. rewrite length_take in Hb. lia.
  - exists i, c. split_and!; try done. intros Hn%lookup_ge_None. apply andb_false_iff in E as [E%Nat.eqb_neq|E%negb_false_iff]; [lia|done].
Qed.

(** The offers of the pair that are shown *)
Lemma shown_offer w k x o :
  isOffer (rootEntries (entriesOf T)) P w k x o →
  ∃ e, x = LEDGER_ENTRY e ∧ k = LEDGER_KEY (LedgerEntryKey e) ∧ e ∈ L ∧ data e = OFFER o ∧ included w e = true.
Proof.
  intros (Hx & Ho & Hp & Ha). rewrite rootEntries_lookup in Hx. destruct k as [k| |]; try done.
  destruct (entriesOf T !! k) as [e|] eqn:Ek; [|done]. injection Hx as <-. apply (entriesOf_lookup owner) in Ek as [<- Ek]; [|done].
  cbn in Ho. destruct (data e) as [| |o'| |] eqn:Ed; try done. injection Ho as ->. exists e. split_and!; try done; [by apply ordered_elem; eauto|].
  unfold included, isBetterThanEntry. destruct w; [by rewrite Ed|done].
Qed.

(** What was found is the best of the offers in the database. *)
Lemma frontier_best w i c :
  BestOk c → frontier w (bestOffers c) i → (bestOffers c !! i = None → allLoaded c = true) →
  IsBest (rootEntries (entriesOf T)) P w (LEDGER_ENTRY <$> bestOffers c !! i).
Proof.
  intros [Hc Hall] (H1 & H2 & H3) Hend.
  destruct (bestOffers c !! i) as [e|] eqn:Ei; cbn [fmap option_fmap option_map IsBest].
  - assert (L !! i = Some e) as HLi. { rewrite Hc in Ei. by apply lookup_take_Some in Ei as [? _]. }
    assert (e ∈ L) as He by (by eapply list_elem_of_lookup_2). pose proof He as (HTe & o & Eo & Ep)%ordered_elem.
    exists (LEDGER_KEY (LedgerEntryKey e)), o. split.
    { split_and!; [|cbn; by rewrite Eo|done|].
      - rewrite rootEntries_lookup. replace (entriesOf T !! LedgerEntryKey e) with (Some e); [done|]. symmetry. by apply (entriesOf_lookup owner).
      - specialize (H3 e eq_refl). unfold after. unfold included, isBetterThanEntry in H3. destruct w; [by rewrite Eo in H3|done]. }
    intros k' x' o' (e' & -> & -> & He' & Eo' & Hinc)%shown_offer. rewrite <- (take_drop_middle L i e HLi) in He'.
    apply elem_of_app in He' as [Hb|[->|Hl]%elem_of_cons]; [|by left|right].
    + exfalso. enough (included w e' = false) by congruence. apply H2. rewrite Hc, take_take. replace (i `min` length (bestOffers c))%nat with i by lia. done.
    + pose proof (proj2 (ordered_split (take i L) e (drop (S i) L) e' (eq_sym (take_drop_middle L i e HLi))) Hl) as Hlt.
      assert (e' ∈ L) as He'L by (rewrite <- (take_drop_middle L i e HLi); set_solver).
      apply (better_entry e e' o He He'L Eo) in Hlt. unfold isBetterThanEntry in Hlt. by rewrite Eo' in Hlt.
  - intros k x o (e & -> & -> & He & Eo & Hinc)%shown_offer. specialize (Hend eq_refl). apply Hall in Hend. apply lookup_ge_None in Ei.
    enough (included w e = false) by congruence. apply H2. rewrite take_ge by lia. by rewrite Hend.
Qed.
End Pair.
End Owners.
