(* ===== verification/LedgerRootCommit.v ===== *)
(** * Committing in batches

    The root collects the rows of a commit by type and writes each collection when it is
    large enough, upserts before deletions.  Rows have different keys: whatever the order
    and the batches, the tables are those that the rows lead to one after another, and a
    missing row is noticed in the same commits. *)

From Stdlib Require Import ZArith Lia SpecFloat.
From stdpp Require Import functions prelude list gmap.
From S2P Require Import Prelude Numeric Exchange LedgerEntries Buckets HistoryArchive ApplyBuckets OfferOrder LedgerTxn LedgerTxnBook LedgerTxnBest RandomEvictionCache LedgerTables LedgerTxnRoot.
Import RootImpl.
Local Open Scope Z_scope.

Section Owners.
Context (owner : Z → AccountID).
Notation TablesOk := (TablesOk owner).

Definition legalRow (row : Row) : Prop :=
  match row.1 with
  | LEDGER_KEY k =>
      match row.2 with
      | Some y => ∃ e, y = LEDGER_ENTRY e ∧ LedgerEntryKey e = k ∧ legalEntry owner e
      | None => legalKey owner k
      end
  | _ => True
  end.

Definition legalRows (rows : list Row) : Prop := NoDup rows.*1 ∧ ∀ row, row ∈ rows → legalRow row.

(** What rows make of entries *)
Definition written (rows : list Row) (db : gmap LedgerKey LedgerEntry) (k : LedgerKey) : option LedgerEntry :=
  match (list_to_map rows : gmap InternalLedgerKey (option InternalLedgerEntry)) !! LEDGER_KEY k with
  | Some (Some (LEDGER_ENTRY e)) => Some e
  | Some _ => None
  | None => db !! k
  end.

Section Consistency.
Context (cons : LedgerTxnConsistency).

(** Every row that is deleted is there, where that is required. *)
Definition rowsFound (rows : list Row) (db : gmap LedgerKey LedgerEntry) : Prop :=
  cons = EXTRA_DELETES ∨ ∀ k, (LEDGER_KEY k, None) ∈ rows → db !! k ≠ None.

(** The outcome [o] is that of writing the rows. *)
Definition Writes (rows : list Row) (db : gmap LedgerKey LedgerEntry) (o : LT (gmap LedgerKey LedgerEntry)) : Prop :=
  match o with
  | Ok db' => rowsFound rows db ∧ ∀ k, db' !! k = written rows db k
  | Fail e => e = CouldNotUpdateSQL ∧ ¬ rowsFound rows db
  end.

(** The same of tables *)
Definition Applies (rows : list Row) (T : Tables) (o : LT Tables) : Prop :=
  match o with
  | Ok T' => TablesOk T' ∧ Writes rows (entriesOf T) (Ok (entriesOf T'))
  | Fail e => Writes rows (entriesOf T) (Fail e)
  end.

Lemma legalRows_perm rows rows' : rows ≡ₚ rows' → legalRows rows → legalRows rows'.
Proof. intros Hp [H1 H2]. split; [by rewrite <- Hp|]. intros row. rewrite <- Hp. apply H2. Qed.

Lemma legalRows_app a b : legalRows (a ++ b) → legalRows a ∧ legalRows b ∧ ∀ k, k ∈ a.*1 → k ∉ b.*1.
Proof.
  intros [H1 H2]. rewrite fmap_app in H1. apply NoDup_app in H1 as (N1 & N2 & N3).
  split_and!; [split; [done|]; intros; apply H2; set_solver..|done].
Qed.

Lemma Writes_perm rows rows' db o : NoDup rows.*1 → rows ≡ₚ rows' → Writes rows db o → Writes rows' db o.
Proof.
  intros Hn Hp. assert (rowsFound rows db ↔ rowsFound rows' db) as Hf.
  { unfold rowsFound. apply or_iff_compat_l. split; intros H k Hk; apply H; [by rewrite Hp|by rewrite <- Hp]. }
  destruct o as [db'|e]; cbn; rewrite Hf; [|done]. unfold written. by rewrite (list_to_map_proper rows rows' Hn Hp).
Qed.

Lemma written_app a b db k :
  (∀ key, key ∈ a.*1 → key ∉ b.*1) →
  written (a ++ b) db k = if decide (LEDGER_KEY k ∈ b.*1) then written b db k else written a db k.
Proof.
  intros Hd. unfold written. rewrite list_to_map_app, lookup_union. case_decide as Hb.
  - assert ((list_to_map a : gmap InternalLedgerKey (option InternalLedgerEntry)) !! LEDGER_KEY k = None) as ->.
    { apply not_elem_of_list_to_map. intros Ha. by apply (Hd (LEDGER_KEY k)). }
    by destruct (list_to_map b !! LEDGER_KEY k).
  - rewrite (not_elem_of_list_to_map_1 b) by done. by destruct (list_to_map a !! LEDGER_KEY k).
Qed.

Lemma written_other a db k : LEDGER_KEY k ∉ a.*1 → written a db k = db !! k.
Proof. intros Ha. unfold written. by rewrite (not_elem_of_list_to_map_1 a) by done. Qed.

Lemma Writes_app a b db db1 o : legalRows (a ++ b) → Writes a db (Ok db1) → Writes b db1 o → Writes (a ++ b) db o.
Proof.
  intros (_ & _ & Hd)%legalRows_app (Hfa & Ha) Hb.
  assert (∀ k, LEDGER_KEY k ∈ b.*1 → db1 !! k = db !! k) as Hsame.
  { intros k Hk. rewrite Ha. apply written_other. intros Hka. by apply (Hd (LEDGER_KEY k)). }
  assert (rowsFound b db1 ↔ rowsFound b db) as Hfb.
  { unfold rowsFound. apply or_iff_compat_l. split; intros H k Hk; specialize (H k Hk);
      [rewrite <- Hsame|rewrite Hsame]; try done; by apply (list_elem_of_fmap_2 fst _ (LEDGER_KEY k, None)). }
  assert (rowsFound (a ++ b) db ↔ rowsFound b db) as Hf.
  { unfold rowsFound in *. split; [intros [?|H]; [by left|right; intros k Hk; apply H; set_solver]|].
    intros [?|H]; [by left|]. destruct Hfa as [?|Hfa]; [by left|right]. intros k [Hk|Hk]%elem_of_app; auto. }
  destruct o as [db2|e]; cbn in Hb |- *; rewrite Hf, <- Hfb; [|done]. destruct Hb as (Hbf & Hb). split; [done|].
  intros k. rewrite Hb, written_app by done. case_decide as Hk; [|by rewrite written_other, Ha].
  unfold written. destruct (list_to_map b !! LEDGER_KEY k) eqn:E; [done|]. by apply not_elem_of_list_to_map_2 in E.
Qed.

Lemma Writes_fail a b db e : Writes a db (Fail e) → Writes (a ++ b) db (Fail e).
Proof.
  intros [-> Hf]. split; [done|]. intros H. apply Hf. destruct H as [?|H]; [by left|right]. intros k Hk. apply H. set_solver.
Qed.

(** Rows that are not of the ledger are not written. *)
Lemma Writes_skip row rows db o : (∀ k, row.1 ≠ LEDGER_KEY k) → Writes rows db o → Writes (row :: rows) db o.
Proof.
  intros Hr. assert (rowsFound (row :: rows) db ↔ rowsFound rows db) as Hf.
  { unfold rowsFound. apply or_iff_compat_l. split; intros H k Hk; apply H; [by right|].
    apply elem_of_cons in Hk as [<-|]; [|done]. by destruct (Hr k). }
  destruct o as [db'|e]; cbn; rewrite Hf; [|done]. intros (H1 & H2). split; [done|]. intros k. rewrite H2. unfold written.
  destruct row as [k' x]. cbn. by rewrite lookup_insert_ne by (apply Hr).
Qed.

Lemma Writes_nil db : Writes [] db (Ok db).
Proof. split; [right; by intros k ?%elem_of_nil|done]. Qed.

Lemma Writes_unique rows db o o' : Writes rows db o → Writes rows db o' → o = o'.
Proof.
  destruct o as [a|e], o' as [b|e']; cbn; [|naive_solver..]. intros [_ Ha] [_ Hb]. f_equal. apply map_eq. intros k. by rewrite Ha, Hb.
Qed.

(** One row after another *)
Lemma applyRow_writes row db : legalRow row → Writes [row] db (applyRow cons row db).
Proof.
  destruct row as [[k| |] x]; intros Hl; [|by apply (Writes_skip (_, _)), Writes_nil..]. unfold applyRow. cbn [fst snd]. destruct x as [y|].
  - destruct Hl as (e & -> & _). split; [right; by intros k' ?%list_elem_of_singleton|]. intros k'. unfold written. cbn.
    destruct (decide (k = k')) as [<-|Hne]; [by rewrite !lookup_insert_eq|]. by rewrite !lookup_insert_ne by congruence.
  - unfold checkT. destruct (negb (isNull (db !! k)) || bool_decide (cons = EXTRA_DELETES)) eqn:E; cbn [obind].
    + split.
      * apply orb_true_iff in E as [E|E%bool_decide_eq_true]; [right|by left]. intros k' [= ->]%list_elem_of_singleton. by destruct (db !! k).
      * intros k'. unfold written. cbn. destruct (decide (k = k')) as [<-|Hne]; [by rewrite lookup_insert_eq, lookup_delete_eq|].
        rewrite lookup_insert_ne by congruence. by rewrite lookup_delete_ne.
    + apply orb_false_iff in E as [E E'%bool_decide_eq_false]. split; [done|]. intros [?|H]; [done|]. specialize (H k ltac:(by left)). by destruct (db !! k).
Qed.

Lemma applyRows_writes rows db : legalRows rows → Writes rows db (foldT (applyRow cons) rows db).
Proof.
  revert db. induction rows as [|row rows IH]; intros db Hl; [apply Writes_nil|]. cbn [foldT].
  pose proof (applyRow_writes row db (proj2 Hl row ltac:(by left))) as Hw. destruct (applyRow cons row db) as [db1|e]; cbn [obind].
  - apply (Writes_app [row] rows db db1); [done|done|]. apply IH. by apply (legalRows_app [row] rows).
  - by apply (Writes_fail [row] rows).
Qed.

Lemma Applies_app a b T T1 o : legalRows (a ++ b) → Applies a T (Ok T1) → Applies b T1 o → Applies (a ++ b) T o.
Proof. intros Hl [_ Ha] Hb. destruct o as [T2|e]; [destruct Hb as [? Hb]; split; [done|]|]; by eapply Writes_app. Qed.

Lemma Applies_perm rows rows' T o : NoDup rows.*1 → rows ≡ₚ rows' → Applies rows T o → Applies rows' T o.
Proof. intros Hn Hp Ha. destruct o as [T2|e]; [destruct Ha as [? Ha]; split; [done|]|]; by eapply Writes_perm. Qed.

Lemma Applies_skip row rows T o : (∀ k, row.1 ≠ LEDGER_KEY k) → Applies rows T o → Applies (row :: rows) T o.
Proof. intros Hr Ha. destruct o as [T2|e]; [destruct Ha as [? Ha]; split; [done|]|]; by apply Writes_skip. Qed.

Lemma Applies_nil T : TablesOk T → Applies [] T (Ok T).
Proof. intros HT. split; [done|apply Writes_nil]. Qed.

(** ** One statement *)

Definition isUpsert (row : Row) : Prop := ∃ k y, row = (LEDGER_KEY k, Some y).
Definition isDelete (row : Row) : Prop := ∃ k, row = (LEDGER_KEY k, None).

Lemma upsertRow_ok v row T :
  TablesOk T → legalRow row → isUpsert row → ∃ T', upsertRow v row T = Ok T' ∧ Applies [row] T (Ok T').
Proof.
  intros HT Hl (k & y & ->). destruct Hl as (e & -> & <- & He). unfold upsertRow. cbn [snd]. pose proof He as (Hk & Hc & _).
  rewrite (rowKey_legal owner) by done. cbn [obind]. rewrite Hc. cbn [checkT obind]. eexists. split; [done|].
  destruct (insert_tables owner T e HT He) as [H1 H2]. split; [done|]. split; [right; by intros k ?%list_elem_of_singleton|].
  intros k. rewrite H2. unfold written. cbn. destruct (decide (LedgerEntryKey e = k)) as [<-|Hne]; [by rewrite !lookup_insert_eq|].
  rewrite !lookup_insert_ne by congruence. by rewrite lookup_empty.
Qed.

Lemma bulkUpsert_ok v rows T :
  TablesOk T → legalRows rows → (∀ row, row ∈ rows → isUpsert row) → Applies rows T (bulkUpsert v rows T).
Proof.
  revert T. induction rows as [|row rows IH]; intros T HT Hl Hu; [by apply Applies_nil|]. cbn [bulkUpsert foldT].
  destruct (upsertRow_ok v row T HT) as (T' & E & Ha); [apply Hl; by left|apply Hu; by left|]. unfold bulkUpsert. cbn [foldT]. rewrite E. cbn [obind].
  apply (Applies_app [row] rows T T'); [done|done|]. apply IH; [by destruct Ha| |intros; apply Hu; by right]. by apply (legalRows_app [row] rows).
Qed.

Lemma deleteRows_ok v rows T c :
  TablesOk T → legalRows rows → (∀ row, row ∈ rows → isDelete row) →
  ∃ n T', foldT (deleteRow v) rows (c, T) = Ok ((c + n)%nat, T') ∧ TablesOk T' ∧ (∀ k, entriesOf T' !! k = written rows (entriesOf T) k) ∧
    (n ≤ length rows)%nat ∧ (n = length rows ↔ ∀ k, (LEDGER_KEY k, None) ∈ rows → entriesOf T !! k ≠ None).
Proof.
  revert T c. induction rows as [|row rows IH]; intros T c HT Hl Hd; cbn [foldT].
  { exists 0%nat, T. rewrite Nat.add_0_r. split_and!; try done. split; [|done]. by intros _ k ?%elem_of_nil. }
  destruct (Hd row ltac:(by left)) as [k ->]. assert (legalKey owner k) as Hk by (by apply (proj2 Hl (LEDGER_KEY k, None)); left).
  cbn [deleteRow]. rewrite (rowKey_legal owner) by done. cbn [obind fst snd]. rewrite <- (entriesOf_legal owner T k HT Hk).
  destruct (delete_tables owner T k HT Hk) as [HT' Eq]. pose proof (legalRows_app [_] rows Hl) as (_ & Hl' & Hdis).
  assert (LEDGER_KEY k ∉ rows.*1) as Hnk by (apply Hdis; set_solver).
  destruct (IH (delete (primaryKey k) T) (match entriesOf T !! k with Some _ => S c | None => c end) HT' Hl') as (n & T2 & E & H1 & H2 & H3 & H4);
    [intros; apply Hd; by right|]. rewrite E.
  assert (∀ k', (LEDGER_KEY k', None) ∈ rows → delete k (entriesOf T) !! k' = entriesOf T !! k') as Hsame.
  { intros k' Hk'. apply lookup_delete_ne. intros ->. apply Hnk. by apply (list_elem_of_fmap_2 fst _ (LEDGER_KEY k', None)). }
  exists (match entriesOf T !! k with Some _ => S n | None => n end), T2. split_and!; [by destruct (entriesOf T !! k); do 2 f_equal; lia|done|..].
  - intros k'. rewrite H2, Eq. unfold written. cbn. destruct (decide (k = k')) as [<-|Hne].
    + rewrite lookup_insert_eq. by rewrite (not_elem_of_list_to_map_1 rows), lookup_delete_eq.
    + rewrite lookup_insert_ne by congruence. by rewrite lookup_delete_ne.
  - cbn. destruct (entriesOf T !! k); lia.
  - rewrite Eq in H4. split.
    + cbn. intros Hn. destruct (entriesOf T !! k) eqn:Ek; [|lia]. intros k' [[= ->]|Hk']%elem_of_cons; [by rewrite Ek|].
      rewrite <- Hsame by done. apply H4; [lia|done].
    + intros Hall. destruct (entriesOf T !! k) eqn:Ek; [|by destruct (Hall k ltac:(by left))]. cbn. f_equal. apply H4. intros k' Hk'.
      rewrite Hsame by done. apply Hall. by right.
Qed.

Lemma bulkDelete_ok v rows T :
  TablesOk T → legalRows rows → (∀ row, row ∈ rows → isDelete row) → Applies rows T (bulkDelete v cons rows T).
Proof.
  intros HT Hl Hd. unfold bulkDelete. destruct (deleteRows_ok v rows T 0 HT Hl Hd) as (n & T' & -> & H1 & H2 & H3 & H4). cbn [obind fst snd Nat.add].
  unfold checkT. destruct ((n =? length rows)%nat || bool_decide (cons = EXTRA_DELETES)) eqn:E; cbn [obind Applies].
  - split; [done|]. split; [|done]. apply orb_true_iff in E as [E%Nat.eqb_eq|E%bool_decide_eq_true]; [right; by apply H4|by left].
  - apply orb_false_iff in E as [E%Nat.eqb_neq E'%bool_decide_eq_false]. split; [done|]. intros [?|Hf]; [done|]. by apply E, H4.
Qed.

(** ** The buffers *)

Definition types : list Z := [0; 1; 2; 3; 4].
Definition pendingOf (b : BulkLedgerEntryChangeAccumulator) (t : Z) : list Row := toUpsert b t ++ toDelete b t.
Definition pending (b : BulkLedgerEntryChangeAccumulator) : list Row := mjoin (pendingOf b <$> types).

Definition BuffersOk (b : BulkLedgerEntryChangeAccumulator) : Prop :=
  ∀ t row, (row ∈ toUpsert b t → isUpsert row) ∧ (row ∈ toDelete b t → isDelete row).

Lemma pending_update b b' t a :
  t ∈ types → (∀ t', t' ≠ t → pendingOf b' t' = pendingOf b t') → pendingOf b t ≡ₚ a ++ pendingOf b' t → pending b ≡ₚ a ++ pending b'.
Proof.
  intros Ht Ho Hp. unfold pending. assert (NoDup types) as Hn by (by repeat constructor; set_solver).
  destruct (list_elem_of_split _ _ Ht) as (l1 & l2 & El). rewrite El in Hn |- *. apply NoDup_app in Hn as (_ & H1 & [H2 _]%NoDup_cons).
  assert (∀ l : list Z, t ∉ l → pendingOf b' <$> l = pendingOf b <$> l) as Hl.
  { intros l Hl. apply list_fmap_ext. intros i t' Hi. apply Ho. intros ->. apply Hl. by eapply list_elem_of_lookup_2. }
  rewrite !fmap_app, !fmap_cons, !join_app. cbn [mjoin list_join]. rewrite (Hl l1), (Hl l2) by (try done; intros Ht'; by destruct (H1 t Ht' ltac:(by left))).
  rewrite Hp, <- app_assoc. apply Permutation_app_swap_app.
Qed.

Lemma keyType_types k : keyType k ∈ types.
Proof. destruct k; cbn; set_solver. Qed.

Lemma accumulate_ok row k b : row.1 = LEDGER_KEY k → pending (accumulate row b) ≡ₚ [row] ++ pending b.
Proof.
  intros Hk. apply (pending_update _ _ (keyType k)); [apply keyType_types| |]; unfold accumulate; rewrite Hk; destruct (row.2); unfold pendingOf; cbn [toUpsert toDelete].
  - intros t' Hne. by rewrite fn_lookup_insert_ne.
  - intros t' Hne. by rewrite fn_lookup_insert_ne.
  - rewrite fn_lookup_insert. rewrite <- app_assoc. cbn. symmetry. apply Permutation_middle.
  - rewrite fn_lookup_insert. rewrite app_assoc. apply Permutation_app_comm.
Qed.

Lemma accumulate_buffers row b : BuffersOk b → BuffersOk (accumulate row b).
Proof.
  intros Hb t row'. unfold accumulate. destruct row as [[k| |] [y|]]; cbn [fst snd]; try apply Hb; cbn [toUpsert toDelete].
  - split; [|apply Hb]. destruct (decide (keyType k = t)) as [<-|Hne]; [|rewrite fn_lookup_insert_ne by done; apply Hb].
    rewrite fn_lookup_insert, elem_of_app, list_elem_of_singleton. intros [?| ->]; [by apply (Hb (keyType k))|]. by exists k, y.
  - split; [apply Hb|]. destruct (decide (keyType k = t)) as [<-|Hne]; [|rewrite fn_lookup_insert_ne by done; apply Hb].
    rewrite fn_lookup_insert, elem_of_app, list_elem_of_singleton. intros [?| ->]; [by apply (Hb (keyType k))|]. by exists k.
Qed.

(** ** Emptying the buffers *)

(** Some of the pending rows are written. *)
Definition Progress (b : BulkLedgerEntryChangeAccumulator) (T : Tables) (o : LT (BulkLedgerEntryChangeAccumulator * Tables)) : Prop :=
  match o with
  | Ok (b', T') => BuffersOk b' ∧ ∃ a, pending b ≡ₚ a ++ pending b' ∧ Applies a T (Ok T')
  | Fail e => ∃ a rest, pending b ≡ₚ a ++ rest ∧ Applies a T (Fail e)
  end.

Lemma Progress_refl b T : BuffersOk b → TablesOk T → Progress b T (Ok (b, T)).
Proof. intros Hb HT. split; [done|]. exists []. split; [done|by apply Applies_nil]. Qed.

Lemma Progress_trans b T b1 T1 o : legalRows (pending b) → Progress b T (Ok (b1, T1)) → Progress b1 T1 o → Progress b T o.
Proof.
  intros Hl (_ & a & Hp & Ha) Ho. destruct o as [[b2 T2]|e]; cbn [Progress] in Ho |- *.
  - destruct Ho as (Hb2 & a2 & Hp2 & Ha2). split; [done|]. exists (a ++ a2). split; [by rewrite Hp, Hp2, app_assoc|]. eapply Applies_app; [|done|done].
    rewrite Hp2, app_assoc in Hp. apply (legalRows_perm _ _ Hp), legalRows_app in Hl. tauto.
  - destruct Ho as (a2 & rest & Hp2 & Ha2). exists (a ++ a2), rest. split; [by rewrite Hp, Hp2, app_assoc|]. eapply Applies_app; [|done|done].
    rewrite Hp2, app_assoc in Hp. apply (legalRows_perm _ _ Hp), legalRows_app in Hl. tauto.
Qed.

(** Buffers that [o] leaves empty *)
Definition empties (ts : list Z) (b : BulkLedgerEntryChangeAccumulator) (o : LT (BulkLedgerEntryChangeAccumulator * Tables)) : Prop :=
  match o with
  | Ok (b', _) => ∀ t, t ∈ ts ∨ pendingOf b t = [] → pendingOf b' t = []
  | Fail _ => True
  end.

Section Flush.
Context (b : BulkLedgerEntryChangeAccumulator) (T : Tables) (t : Z).
Context (Hb : BuffersOk b) (HT : TablesOk T) (Hl : legalRows (pending b)) (Ht : t ∈ types).

Lemma pending_part a b' :
  (∀ t', t' ≠ t → pendingOf b' t' = pendingOf b t') → pendingOf b t ≡ₚ a ++ pendingOf b' t → pending b ≡ₚ a ++ pending b' ∧ legalRows a.
Proof.
  intros Ho Hp. pose proof (pending_update b b' t a Ht Ho Hp) as Hpb. split; [done|]. apply (legalRows_perm _ _ Hpb), legalRows_app in Hl. tauto.
Qed.

Lemma flushUpserts_ok v th :
  Progress b T (flushUpserts v th t (b, T)) ∧
  match flushUpserts v th t (b, T) with
  | Ok (b', _) => (th = 0%nat → toUpsert b' t = []) ∧ ∀ t', pendingOf b t' = [] → pendingOf b' t' = []
  | Fail _ => True
  end.
Proof.
  unfold flushUpserts. destruct (Nat.ltb_spec th (length (toUpsert b t))) as [Hlt|Hge].
  2:{ split; [by apply Progress_refl|]. split; [|done]. intros ->. by apply length_zero_iff_nil; lia. }
  set (b' := {| toUpsert := <[t := []]> (toUpsert b); toDelete := toDelete b |}).
  destruct (pending_part (toUpsert b t) b') as [Hp Hla].
  { intros t' Hne. unfold pendingOf. cbn. by rewrite fn_lookup_insert_ne. } { unfold pendingOf. cbn. by rewrite fn_lookup_insert. }
  pose proof (bulkUpsert_ok v (toUpsert b t) T HT Hla (λ row, proj1 (Hb t row))) as Ha.
  destruct (bulkUpsert v (toUpsert b t) T) as [T'|e]; cbn [obind]; [|split; [by exists (toUpsert b t), (pending b')|done]]. split.
  - split; [|by exists (toUpsert b t)]. intros t' row. cbn. split; [|apply Hb].
    destruct (decide (t = t')) as [<-|Hne]; [rewrite fn_lookup_insert; by intros ?%elem_of_nil|rewrite fn_lookup_insert_ne by done; apply Hb].
  - split; [intros _; apply fn_lookup_insert|]. intros t' Ht'. unfold pendingOf in Ht' |- *. cbn. apply app_eq_nil in Ht' as [E1 ->]. rewrite app_nil_r.
    destruct (decide (t = t')) as [<-|Hne]; [apply fn_lookup_insert|by rewrite fn_lookup_insert_ne].
Qed.

Lemma flushDeletes_ok v th :
  Progress b T (flushDeletes v th cons t (b, T)) ∧
  match flushDeletes v th cons t (b, T) with
  | Ok (b', _) => (th = 0%nat → toDelete b' t = []) ∧ (toUpsert b t = [] → toUpsert b' t = []) ∧ ∀ t', pendingOf b t' = [] → pendingOf b' t' = []
  | Fail _ => True
  end.
Proof.
  unfold flushDeletes. destruct (Nat.ltb_spec th (length (toDelete b t))) as [Hlt|Hge].
  2:{ split; [by apply Progress_refl|]. split; [|done]. intros ->. by apply length_zero_iff_nil; lia. }
  set (b' := {| toUpsert := toUpsert b; toDelete := <[t := []]> (toDelete b) |}).
  destruct (pending_part (toDelete b t) b') as [Hp Hla].
  { intros t' Hne. unfold pendingOf. cbn. by rewrite fn_lookup_insert_ne. } { unfold pendingOf. cbn. rewrite fn_lookup_insert, app_nil_r. apply Permutation_app_comm. }
  pose proof (bulkDelete_ok v (toDelete b t) T HT Hla (λ row, proj2 (Hb t row))) as Ha.
  destruct (bulkDelete v cons (toDelete b t) T) as [T'|e]; cbn [obind]; [|split; [by exists (toDelete b t), (pending b')|done]]. split.
  - split; [|by exists (toDelete b t)]. intros t' row. cbn. split; [apply Hb|].
    destruct (decide (t = t')) as [<-|Hne]; [rewrite fn_lookup_insert; by intros ?%elem_of_nil|rewrite fn_lookup_insert_ne by done; apply Hb].
  - split; [intros _; apply fn_lookup_insert|]. split; [done|]. intros t' Ht'. unfold pendingOf in Ht' |- *. cbn. apply app_eq_nil in Ht' as [-> E1].
    destruct (decide (t = t')) as [<-|Hne]; [apply fn_lookup_insert|by rewrite fn_lookup_insert_ne].
Qed.
End Flush.

Lemma Progress_legal b T b' T' : legalRows (pending b) → Progress b T (Ok (b', T')) → BuffersOk b' ∧ TablesOk T' ∧ legalRows (pending b').
Proof. intros Hl (Hb & a & Hp & HT & _). split_and!; [done|done|]. apply (legalRows_perm _ _ Hp), legalRows_app in Hl. tauto. Qed.

Lemma bulkApplyType_ok v th b T t :
  BuffersOk b → TablesOk T → legalRows (pending b) → t ∈ types →
  Progress b T (bulkApplyType v th cons t (b, T)) ∧ (th = 0%nat → empties [t] b (bulkApplyType v th cons t (b, T))).
Proof.
  intros Hb HT Hl Ht. unfold bulkApplyType. destruct (flushUpserts_ok b T t Hb HT Hl Ht v th) as [Hp He].
  destruct (flushUpserts v th t (b, T)) as [[b1 T1]|e]; cbn [obind]; [|by split]. destruct (Progress_legal _ _ _ _ Hl Hp) as (Hb1 & HT1 & Hl1).
  destruct (flushDeletes_ok b1 T1 t Hb1 HT1 Hl1 Ht v th) as [Hp1 He1]. split; [by eapply Progress_trans|]. intros Hth.
  destruct (flushDeletes v th cons t (b1, T1)) as [[b2 T2]|e]; [|done]. destruct He as [E1 E2], He1 as (F1 & F2 & F3). cbn.
  intros t' [->%list_elem_of_singleton|Hnil]; [|by apply F3, E2]. unfold pendingOf. by rewrite F1, F2 by auto.
Qed.

Lemma bulkApply_fold v th ts b T :
  BuffersOk b → TablesOk T → legalRows (pending b) → (∀ t, t ∈ ts → t ∈ types) →
  Progress b T (foldT (bulkApplyType v th cons) ts (b, T)) ∧ (th = 0%nat → empties ts b (foldT (bulkApplyType v th cons) ts (b, T))).
Proof.
  revert b T. induction ts as [|t ts IH]; intros b T Hb HT Hl Hts; cbn [foldT].
  { split; [by apply Progress_refl|]. intros _ t [[]%elem_of_nil|Ht]. done. }
  destruct (bulkApplyType_ok v th b T t Hb HT Hl (Hts t ltac:(by left))) as [Hp He].
  destruct (bulkApplyType v th cons t (b, T)) as [[b1 T1]|e]; cbn [obind]; [|by split]. destruct (Progress_legal _ _ _ _ Hl Hp) as (Hb1 & HT1 & Hl1).
  destruct (IH b1 T1 Hb1 HT1 Hl1) as [Hp1 He1]; [intros; apply Hts; by right|]. split; [by eapply Progress_trans|]. intros Hth.
  specialize (He Hth). specialize (He1 Hth). destruct (foldT _ ts (b1, T1)) as [[b2 T2]|e]; [|done]. cbn in He, He1 |- *.
  intros t' [[->|Ht']%elem_of_cons|Hnil]; apply He1; [right; apply He; left; by left|by left|right; apply He; by right].
Qed.

Lemma bulkApply_ok v th b T :
  BuffersOk b → TablesOk T → legalRows (pending b) →
  Progress b T (bulkApply v th cons (b, T)) ∧ (th = 0%nat → ∀ b' T', bulkApply v th cons (b, T) = Ok (b', T') → pending b' = []).
Proof.
  intros Hb HT Hl. destruct (bulkApply_fold v th types b T Hb HT Hl) as [Hp He]; [done|]. unfold bulkApply. split; [done|]. intros Hth b' T' E.
  specialize (He Hth). change types with [0; 1; 2; 3; 4] in He. rewrite E in He. cbn in He. unfold pending. cbn. by rewrite !He by (left; set_solver).
Qed.

(** A row that is accumulated waits with the others. *)
Lemma accumulate_rows row rows b T :
  legalRows (pending b ++ row :: rows) →
  legalRows (pending (accumulate row b) ++ rows) ∧
  ∀ o, Applies (pending (accumulate row b) ++ rows) T o → Applies (pending b ++ row :: rows) T o.
Proof.
  intros Hl. pose proof (Permutation_middle (pending b) rows row) as Hm. pose proof (legalRows_perm _ _ (Permutation_sym Hm) Hl) as Hl'.
  destruct row as [[k|a|a] x].
  2,3: cbn [accumulate fst]; split; [by destruct (legalRows_app [_] _ Hl') as (_ & ? & _)|]; intros o Ho; (eapply Applies_perm; [|exact Hm|by apply Applies_skip]); apply Hl'.
  assert (pending (accumulate (LEDGER_KEY k, x) b) ++ rows ≡ₚ pending b ++ (LEDGER_KEY k, x) :: rows) as Hp by (by rewrite (accumulate_ok _ k)).
  split; [by apply (legalRows_perm _ _ (Permutation_sym Hp))|]. intros o Ho. eapply Applies_perm; [|exact Hp|exact Ho]. rewrite Hp. apply Hl.
Qed.

(** The rows that wait and those to come are written. *)
Lemma commitLoop_ok v rows b T :
  BuffersOk b → TablesOk T → legalRows (pending b ++ rows) → (rows = [] → pending b = []) →
  Applies (pending b ++ rows) T (commitLoop v cons rows b T).
Proof.
  revert b T. induction rows as [|row rows IH]; intros b T Hb HT Hl Hnil; cbn [commitLoop].
  { rewrite Hnil by done. by apply Applies_nil. }
  set (b1 := accumulate row b). set (th := match rows with [] => 0%nat | _ => LEDGER_ENTRY_BATCH_COMMIT_SIZE end).
  destruct (accumulate_rows row rows b T Hl) as [Hl1 Hred].
  apply Hred. pose proof (accumulate_buffers row b Hb) as Hb1. destruct (legalRows_app _ _ Hl1) as (Hlp & _ & _).
  destruct (bulkApply_ok v th b1 T Hb1 HT Hlp) as [Hp He]. destruct (bulkApply v th cons (b1, T)) as [[b2 T2]|e] eqn:E; cbn [obind fst snd].
  - destruct (Progress_legal _ _ _ _ Hlp Hp) as (Hb2 & HT2 & _). destruct Hp as (_ & a & Hp & Ha).
    assert (pending b1 ++ rows ≡ₚ a ++ (pending b2 ++ rows)) as Hpr by (by rewrite Hp, app_assoc).
    pose proof (legalRows_perm _ _ Hpr Hl1) as Hla. eapply Applies_perm; [apply Hla|by symmetry|]. eapply Applies_app; [done|done|].
    apply IH; [done|done|by destruct (legalRows_app _ _ Hla) as (_ & ? & _)|]. intros ->. by eapply He.
  - destruct Hp as (a & rest & Hp & Ha). assert (pending b1 ++ rows ≡ₚ a ++ (rest ++ rows)) as Hpr by (by rewrite Hp, app_assoc).
    eapply (Applies_perm (a ++ (rest ++ rows))); [rewrite <- Hpr; apply Hl1|by symmetry|]. by apply Writes_fail.
Qed.
End Consistency.
End Owners.
