(* ===== verification/LedgerRootSafety.v ===== *)
(** * The caches of the root are not seen

    The invariant of the root: its tables hold legal entries, what the entry cache has
    for a key is what the tables have, and a cached list of offers is a beginning of the
    list of its pair.  Every operation answers as the root of LedgerTxn.v, which has
    the entries only, and keeps the invariant. *)

From Stdlib Require Import ZArith Lia SpecFloat.
From stdpp Require Import functions prelude list gmap.
From S2P Require Import Prelude Numeric Exchange LedgerEntries Buckets HistoryArchive ApplyBuckets OfferOrder LedgerTxn LedgerTxnBook LedgerTxnBest RandomEvictionCache LedgerTables LedgerTxnRoot LedgerRootOffers LedgerRootCommit.
Import RootImpl EvictionCache.
Local Open Scope Z_scope.

Section Owners.
Context (owner : Z → AccountID).

(** ** The invariant *)

Definition EntriesOk (c : RandomEvictionCache LedgerKey CacheEntry) (T : Tables) : Prop :=
  CacheOk c ∧ ∀ k x, contents c !! k = Some x → ce_entry x = entriesOf T !! k.

Definition OffersOk (c : RandomEvictionCache AssetPair BestOffersCacheEntry) (T : Tables) : Prop :=
  CacheOk c ∧ ∀ P x, contents c !! P = Some x → BestOk P T x.

Record RootInv (r : Impl) : Prop := {
  inv_tables : TablesOk owner (mDatabase r);
  inv_entries : EntriesOk (mEntryCache r) (mDatabase r);
  inv_offers : OffersOk (mBestOffersCache r) (mDatabase r);
  inv_transaction : mTransaction r = if mChild r then Some (mDatabase r) else None
}.

(** A query leaves everything but the caches and their counters as it is. *)
Definition sameBase (r r' : Impl) : Prop :=
  mDatabase r' = mDatabase r ∧ mHeader r' = mHeader r ∧ mChild r' = mChild r ∧ mTransaction r' = mTransaction r.

Definition Query (r r' : Impl) : Prop := RootInv r' ∧ sameBase r r'.

Lemma Query_refl r : RootInv r → Query r r.
Proof. by split. Qed.

Lemma Query_trans r1 r2 r3 : Query r1 r2 → Query r2 r3 → Query r1 r3.
Proof. intros [_ (E1 & E2 & E3 & E4)] [H (F1 & F2 & F3 & F4)]. split; [done|]. unfold sameBase. by rewrite F1, F2, F3, F4. Qed.

Lemma entries_query r c : RootInv r → EntriesOk c (mDatabase r) → Query r (set_mEntryCache c r).
Proof. intros [H1 H2 H3 H4] Hc. by split; [split|]. Qed.

Lemma offers_query r c : RootInv r → OffersOk c (mDatabase r) → Query r (set_mBestOffersCache c r).
Proof. intros [H1 H2 H3 H4] Hc. by split; [split|]. Qed.

Lemma prefetch_query r hits misses : RootInv r → Query r (set_prefetch hits misses r).
Proof. intros [H1 H2 H3 H4]. by split; [split|]. Qed.

Section Oracles.
Context (iter : ∀ A : Type, list A → list A) (Hiter : ∀ A l, iter A l ≡ₚ l).
Context (draw : Z → nat → nat * nat) (Hdraw : drawOk draw).

(** ** Entries *)

Lemma put_query key entry ty r : RootInv r → entry = entriesOf (mDatabase r) !! key → Query r (putInEntryCache draw key entry ty r).
Proof.
  intros Hr ->. apply entries_query; [done|]. destruct (inv_entries r Hr) as [Hc He].
  destruct (cachePut_ok draw key {| ce_entry := entriesOf (mDatabase r) !! key; ce_type := ty |} _ Hdraw Hc) as (Hc' & Hsub & _).
  split; [done|]. intros k x Hx. apply (lookup_weaken _ _ _ _ Hx) in Hsub. apply lookup_insert_Some in Hsub as [[<- <-]|[_ Hsub]]; [done|]. by apply He.
Qed.

Lemma getNewestVersion_ok key r :
  RootInv r → (∀ k, key = LEDGER_KEY k → queryKey k) →
  ∃ r', getNewestVersion draw key r = Ok (rootEntries (entriesOf (mDatabase r)) !! key, r') ∧ Query r r'.
Proof.
  intros Hr Hk. rewrite rootEntries_lookup. unfold getNewestVersion. destruct key as [k| |]; try by eauto using Query_refl.
  destruct (inv_entries r Hr) as [Hc He]. destruct (exists_ok k true _ Hc) as (Eb & Hc1 & Ec1 & _).
  destruct (exists_ k true (mEntryCache r)) as [b c] eqn:Ex. cbn [fst snd] in Eb, Hc1, Ec1.
  assert (Query r (set_mEntryCache c r)) as HQ. { apply entries_query; [done|]. split; [done|]. by rewrite Ec1. }
  destruct b.
  - destruct (contents (mEntryCache r) !! k) as [x|] eqn:Ek; [|by symmetry in Eb; apply bool_decide_eq_true in Eb]. unfold getFromEntryCache. cbn [mEntryCache set_mEntryCache].
    destruct (maybeGet_ok k c Hc1) as (Eg & Hc2 & Ec2 & _). destruct (maybeGet k c) as [o c2]. cbn [fst snd] in Eg, Hc2, Ec2. rewrite Ec1, Ek in Eg. subst o.
    rewrite (He k x Ek). eexists. split; [done|]. assert (Query r (set_mEntryCache c2 (set_mEntryCache c r))) as HQ2.
    { eapply Query_trans; [exact HQ|]. apply entries_query; [apply HQ|]. split; [done|]. rewrite Ec2, Ec1. apply He. }
    destruct (ce_type x); [done|]. eapply Query_trans; [exact HQ2|]. apply prefetch_query. apply HQ2.
  - cbn [mDatabase set_mEntryCache set_prefetch mHeader mPrefetchHits]. rewrite (loadFromDatabase_ok owner) by (try apply Hr; by apply Hk). cbn [obind].
    eexists. split; [done|]. eapply Query_trans; [exact HQ|]. eapply Query_trans; [apply prefetch_query, HQ|]. apply put_query; [|done]. apply prefetch_query, HQ.
Qed.

(** ** Prefetching *)

Lemma cacheResult_ok l s :
  RootInv s.2 → (∀ k x, (k, x) ∈ l → x = entriesOf (mDatabase s.2) !! k) →
  Query s.2 (foldl (λ s item, (u32 (s.1 + 1), putInEntryCache draw item.1 item.2 PREFETCH s.2)) s l).2.
Proof.
  revert s. induction l as [|[k x] l IH]; intros s Hs Hl; cbn [foldl]; [by apply Query_refl|].
  pose proof (put_query k x PREFETCH s.2 Hs (Hl k x ltac:(by left))) as HQ. eapply Query_trans; [exact HQ|]. apply IH; [apply HQ|].
  intros k' x' Hin. cbn [fst snd]. destruct HQ as [_ (-> & _)]. apply Hl. by right.
Qed.

Lemma loadBatch_ok keys s :
  RootInv s.2 → (∀ k, k ∈ keys → askable k) → ∃ s', loadBatch iter draw keys s = Ok s' ∧ Query s.2 s'.2.
Proof.
  intros Hs Hk. unfold loadBatch. destruct (bulkLoad_ok owner iter Hiter keys (mDatabase s.2) (inv_tables _ Hs) Hk) as (m & -> & Hm). cbn [obind].
  eexists. split; [done|]. apply cacheResult_ok; [done|]. intros k x. rewrite Hiter, elem_of_map_to_list, Hm. case_decide; [|done]. by intros [= <-].
Qed.

Lemma prefetchLoop_ok keys sets s :
  RootInv s.2 → (∀ k, k ∈ keys → askable k) → (∀ t k, k ∈ sets t → askable k) →
  ∃ s', prefetchLoop iter draw keys sets s = Ok s' ∧ Query s.2 s'.2.
Proof.
  revert sets s. induction keys as [|key keys IH]; intros sets s Hs Hk Hsets; cbn [prefetchLoop].
  - generalize [0; 2; 1; 3; 4]. intros ts. revert s Hs. induction ts as [|t ts IHt]; intros s Hs; cbn [foldT]; [by eauto using Query_refl|].
    destruct (loadBatch_ok (sets t) s Hs (Hsets t)) as (s1 & -> & HQ). cbn [obind]. destruct (IHt s1) as (s2 & -> & HQ2); [apply HQ|].
    eexists. split; [done|]. by eapply Query_trans.
  - destruct (fillsUp s.2); [by eauto using Query_refl|]. set (set_ := if (exists_ _ _ _).1 then _ else _).
    assert (∀ k, k ∈ set_ → askable k) as Hset.
    { intros k Hin. subst set_. destruct (exists_ _ _ _).1; [by eapply Hsets|]. apply elem_of_union in Hin as [->%elem_of_singleton|Hin]; [apply Hk; by left|by eapply Hsets]. }
    assert (∀ x : gset LedgerKey, (∀ k, k ∈ x → askable k) → ∀ t k, k ∈ (<[keyType key := x]> sets) t → askable k) as Hins.
    { intros x Hx t k. destruct (decide (keyType key = t)) as [<-|Hne]; [rewrite fn_lookup_insert; apply Hx|rewrite fn_lookup_insert_ne by done; apply Hsets]. }
    destruct (_ =? _)%nat.
    + destruct (loadBatch_ok set_ s Hs Hset) as (s1 & -> & HQ). cbn [obind].
      destruct (IH (<[keyType key := ∅]> sets) s1) as (s2 & -> & HQ2); [apply HQ|intros; apply Hk; by right|apply Hins; set_solver|].
      eexists. split; [done|]. by eapply Query_trans.
    + apply IH; [done|intros; apply Hk; by right|by apply Hins].
Qed.

Lemma prefetch_ok keys r : RootInv r → (∀ k, k ∈ keys → askable k) → ∃ s, prefetch iter draw keys r = Ok s ∧ Query r s.2.
Proof.
  intros Hr Hk. destruct (prefetchLoop_ok (iter _ (elements keys)) (λ _, ∅) (0, r)) as (s & E & HQ); [done| |set_solver|by exists s].
  intros k. rewrite Hiter, elem_of_elements. apply Hk.
Qed.

(** ** Offers *)

Lemma empty_best P T : BestOk P T {| bestOffers := []; allLoaded := false |}.
Proof. by split. Qed.

Lemma getFromBestOffersCache_ok P r :
  RootInv r → ∃ c r', getFromBestOffersCache draw P r = Ok (c, r') ∧ BestOk P (mDatabase r) c ∧ Query r r'.
Proof.
  intros Hr. unfold getFromBestOffersCache. destruct (inv_offers r Hr) as [Hc Hb]. destruct (exists_ok P true _ Hc) as (Eb & Hc1 & Ec1 & _).
  destruct (exists_ P true (mBestOffersCache r)) as [b c] eqn:Ex. cbn [fst snd] in Eb, Hc1, Ec1. destruct b.
  - destruct (contents (mBestOffersCache r) !! P) as [x|] eqn:Ek; [|by symmetry in Eb; apply bool_decide_eq_true in Eb].
    destruct (maybeGet_ok P c Hc1) as (Eg & Hc2 & Ec2 & _). destruct (maybeGet P c) as [o c2]. cbn [fst snd] in Eg, Hc2, Ec2. rewrite Ec1, Ek in Eg. subst o.
    exists x, (set_mBestOffersCache c2 r). split_and!; [done|by apply Hb|]. apply offers_query; [done|]. split; [done|]. rewrite Ec2, Ec1. apply Hb.
  - eexists _, _. split_and!; [done|apply empty_best|]. apply offers_query; [done|].
    destruct (cachePut_ok draw P {| bestOffers := []; allLoaded := false |} c Hdraw Hc1) as (Hc' & Hsub & _). split; [done|]. intros P' x Hx.
    apply (lookup_weaken _ _ _ _ Hx) in Hsub. apply lookup_insert_Some in Hsub as [[<- <-]|[_ Hsub]]; [apply empty_best|]. rewrite Ec1 in Hsub. by apply Hb.
Qed.

Lemma assign_query P c r : RootInv r → BestOk P (mDatabase r) c → Query r (set_mBestOffersCache (assign P c (mBestOffersCache r)) r).
Proof.
  intros Hr Hc. apply offers_query; [done|]. destruct (inv_offers r Hr) as [Hok Hb]. destruct (cacheAssign_ok P c _ Hok) as (Hok' & E & _). split; [done|].
  intros P' x. rewrite E, lookup_alter. case_decide as Hd; [subst P'|apply Hb]. destruct (contents (mBestOffersCache r) !! P); [|done]. by intros [= <-].
Qed.

Lemma offerKeys_askable l k : k ∈ ⋃ (offerKeys <$> l) → askable k.
Proof.
  intros (X & (e & -> & _)%list_elem_of_fmap & Hk)%elem_of_union_list.
  unfold offerKeys in Hk. destruct (data e); try set_solver.
  rewrite !elem_of_union in Hk. destruct Hk as [[Hk|Hk]|Hk]; [by apply elem_of_singleton in Hk as ->|..];
    [destruct (o_buying offer) eqn:E|destruct (o_selling offer) eqn:E]; cbn [isNative] in Hk; (by apply elem_of_empty in Hk) || by apply elem_of_singleton in Hk as ->.
Qed.

Lemma ordered_size P T : (length (ordered P T) ≤ base.size T)%nat.
Proof. unfold ordered. rewrite orderBy_perm. unfold selectOffers. etrans; [apply length_filter|]. by rewrite length_fmap, length_map_to_list. Qed.

Lemma rootBestOffer_ok fuel P w r :
  RootInv r → (base.size (mDatabase r) < fuel)%nat →
  ∃ r', getBestOffer iter draw fuel P w r = Ok (bestOfferIn (rootEntries (entriesOf (mDatabase r))) P w, r') ∧ Query r r'.
Proof.
  intros Hr Hf. pose proof (inv_tables r Hr) as HT. unfold getBestOffer. destruct (getFromBestOffersCache_ok P r Hr) as (c & r1 & -> & Hc & HQ1). cbn [obind fst snd].
  pose proof (ordered_size P (mDatabase r)) as Hsz. destruct HQ1 as [Hr1 Hb1]. pose proof Hb1 as (ET & _).
  destruct (bestOffersLoop_ok owner P _ HT r1 fuel w (findIncludedOffer 0 (bestOffers c) w) c ET Hc) as (i & c' & -> & Hc' & Hfr & Hend).
  { apply findIncluded_ok; [lia|]. cbn. by intros e ?%elem_of_nil. } { lia. }
  cbn [obind fst snd]. pose proof (frontier_best owner P _ HT w i c' Hc' Hfr Hend) as Hbest.
  rewrite (IsBest_unique owner _ P w _ _ (entriesOf_good owner _ HT) (bestOfferIn_spec owner _ P w (entriesOf_good owner _ HT)) Hbest).
  rewrite <- ET in Hc'. pose proof (assign_query P c' r1 Hr1 Hc') as HQ2. set (r2 := set_mBestOffersCache _ r1) in *.
  assert (∃ r3, (if (length (bestOffers c') =? length (bestOffers c))%nat then Ok r2
                 else let? s := populateEntryCacheFromBestOffers iter draw (drop i (bestOffers c')) r2 in Ok s.2) = Ok r3 ∧ Query r r3) as (r3 & -> & HQ3).
  { assert (Query r r2) as HQ by (eapply Query_trans; [by split|done]). destruct (_ =? _)%nat; [by eauto|].
    destruct (prefetch_ok (⋃ (offerKeys <$> drop i (bestOffers c'))) r2) as (s & E & HQs); [apply HQ|intros k; apply offerKeys_askable|].
    unfold populateEntryCacheFromBestOffers. rewrite E. cbn [obind]. eexists. split; [done|]. by eapply Query_trans. }
  cbn [obind]. destruct (bestOffers c' !! i) as [e|] eqn:Ei; [|by eauto]. destruct Hfr as (_ & _ & Hinc). specialize (Hinc e Ei). unfold checkT. unfold included in Hinc.
  replace (match w with Some w => isBetterThanEntry w e | None => true end) with true by (by destruct w). cbn [obind]. eexists. split; [done|].
  eapply Query_trans; [exact HQ3|]. apply put_query; [apply HQ3|]. destruct HQ3 as [_ (-> & _)]. symmetry. apply (entriesOf_lookup owner); [done|]. split; [done|].
  rewrite ET in Hc'. assert (e ∈ ordered P (mDatabase r)) as He. { apply (elem_of_take_sub (length (bestOffers c'))). destruct Hc' as [<- _]. by eapply list_elem_of_lookup_2. }
  apply (ordered_elem owner) in He; [|done]. apply He.
Qed.

Lemma byKey_ok f T : TablesOk owner T → byKey (selectOffers f T) = filter (λ kv, isWanted f kv.2 = true) (entriesOf T).
Proof.
  intros HT. apply map_eq. intros k. apply option_eq. intros e. unfold byKey. rewrite map_lookup_filter_Some, (entriesOf_lookup owner) by done. rewrite <- elem_of_list_to_map.
  - rewrite list_elem_of_fmap. split.
    + intros (e' & [= -> ->] & He). apply (select_elem owner) in He; [|done]. tauto.
    + intros [[<- He] Hw]. exists e. split; [done|]. by apply (select_elem owner).
  - unfold selectOffers. rewrite <- list_fmap_compose. pose proof (rows_keys owner T HT) as Hn. rewrite <- (list_fmap_compose _ fst) in Hn.
    rewrite <- (filter_app_complement (λ e, isWanted f e = true) (map_to_list T).*2), fmap_app in Hn. by apply NoDup_app in Hn as [? _].
Qed.


(** ** Children *)

(** The root as LedgerTxn.v has it *)
Definition absRoot (r : Impl) : LedgerTxnRoot :=
  {| r_child := mChild r; r_header := mHeader r; r_database := entriesOf (mDatabase r) |}.

Lemma Query_abs r r' : Query r r' → absRoot r' = absRoot r.
Proof. intros [_ (E1 & E2 & E3 & _)]. unfold absRoot. by rewrite E1, E2, E3. Qed.

Lemma cleared_entries (c : RandomEvictionCache LedgerKey CacheEntry) T : EntriesOk (clear c) T.
Proof. destruct (clear_ok c) as [Hc E]. split; [done|]. intros k x. by rewrite E, lookup_empty. Qed.

Lemma cleared_offers (c : RandomEvictionCache AssetPair BestOffersCacheEntry) T : OffersOk (clear c) T.
Proof. destruct (clear_ok c) as [Hc E]. split; [done|]. intros k x. by rewrite E, lookup_empty. Qed.

Lemma commitChild_ok (child : LedgerTxn.Impl) entries r :
  RootInv r → (∀ k x, entries !! k = Some x → legalRow owner (k, x)) →
  match commitChild iter (LedgerTxn.mHeader child) (mConsistency child) entries r with
  | Ok r' => LedgerTxn.commitChild iter child entries (Root (absRoot r)) = Ok (Root (absRoot r')) ∧ RootInv r'
  | Fail e => LedgerTxn.commitChild iter child entries (Root (absRoot r)) = Fail e
  end.
Proof.
  intros Hr Hl. assert (legalRows owner (iter _ (map_to_list entries))) as Hrows.
  { split; [rewrite Hiter; apply NoDup_fst_map_to_list|]. intros [k x]. rewrite Hiter, elem_of_map_to_list. apply Hl. }
  unfold commitChild, LedgerTxn.commitChild. pose proof (applyRows_writes owner (mConsistency child) _ (entriesOf (mDatabase r)) Hrows) as Hw.
  cbn [r_database absRoot].
  assert (Applies owner (mConsistency child) (iter _ (map_to_list entries)) (mDatabase r)
            (commitLoop (ledgerVersion (mHeader r)) (mConsistency child) (iter _ (map_to_list entries)) emptyAccumulator (mDatabase r))) as Happ.
  { apply (commitLoop_ok owner (mConsistency child) _ _ emptyAccumulator); [|apply Hr|done|done]. intros t row. split; by intros ?%elem_of_nil. }
  destruct (commitLoop _ _ _ _ _) as [T'|e]; cbn [obind].
  - destruct Happ as [HT' Hw']. rewrite (Writes_unique _ _ _ _ _ Hw Hw'). cbn [obind]. split; [done|]. split; cbn; [done|apply cleared_entries|apply cleared_offers|done].
  - by rewrite (Writes_unique _ _ _ _ _ Hw Happ).
Qed.

Lemma rollbackChild_ok r : RootInv r → RootInv (rollbackChild r) ∧ Root (absRoot (rollbackChild r)) = LedgerTxn.rollbackChild (Root (absRoot r)).
Proof.
  intros [H1 H2 H3 H4]. assert (default (mDatabase r) (mTransaction r) = mDatabase r) as E by (rewrite H4; by destruct (mChild r)).
  unfold rollbackChild, absRoot. cbn. rewrite E. by split.
Qed.

(** ** The whole database *)

Lemma entriesOf_filter (Q : LedgerEntry → Prop) `{∀ e, Decision (Q e)} T :
  TablesOk owner T →
  TablesOk owner (filter (λ pe, Q pe.2) T) ∧ entriesOf (filter (λ pe, Q pe.2) T) = filter (λ ke, Q ke.2) (entriesOf T).
Proof.
  intros HT. assert (TablesOk owner (filter (λ pe, Q pe.2) T)) as HF. { intros p e [He _]%map_lookup_filter_Some. by apply HT. }
  split; [done|]. apply map_eq. intros k. apply option_eq. intros e. rewrite (entriesOf_lookup owner) by done.
  rewrite !map_lookup_filter_Some, (entriesOf_lookup owner) by done. cbn. tauto.
Qed.

Lemma entriesOf_size T : TablesOk owner T → base.size (entriesOf T) = base.size T.
Proof.
  intros HT. unfold entriesOf. rewrite map_size_list_to_map by (by apply (rows_keys owner)). by rewrite !length_fmap, length_map_to_list.
Qed.

Lemma count_entries (Q : LedgerEntry → Prop) `{∀ e, Decision (Q e)} T :
  TablesOk owner T →
  Z.of_nat (base.size (filter (λ pe, Q pe.2) T)) = Z.of_nat (length (filter Q (snd <$> map_to_list (entriesOf T)))).
Proof.
  intros HT. destruct (entriesOf_filter Q T HT) as [HF E]. rewrite <- (entriesOf_size _ HF), E. f_equal. rewrite map_filter_alt, map_size_list_to_map.
  - generalize (map_to_list (entriesOf T)). intros l. induction l as [|[k e] l IH]; [done|]. rewrite fmap_cons, !filter_cons. cbn [snd]. case_decide; cbn; by rewrite IH.
  - pose proof (NoDup_fst_map_to_list (entriesOf T)) as Hn. rewrite <- (filter_app_complement (λ ke, Q ke.2) (map_to_list (entriesOf T))), fmap_app in Hn. by apply NoDup_app in Hn as [? _].
Qed.

Lemma cleared_inv T r : TablesOk owner T → mChild r = false → RootInv r → RootInv (set_mDatabase T (clearCaches r)).
Proof. intros HT Hc [H1 H2 H3 H4]. split; cbn; [done|apply cleared_entries|apply cleared_offers|]. rewrite H4, Hc. done. Qed.
End Oracles.
End Owners.
