(* ===== verification/LedgerRootTheorems.v ===== *)
(** * The root: theorems

    Calls of the root, by its child or by the rest of the node, run on the root with its
    tables, caches and batches ([rootStep]) and on the root of LedgerTxn.v ([plainStep]),
    which has the entries only. *)

From Stdlib Require Import ZArith Lia SpecFloat.
From stdpp Require Import functions prelude list gmap.
From S2P Require Import Prelude Numeric Exchange LedgerEntries Buckets HistoryArchive ApplyBuckets OfferOrder LedgerTxn LedgerTxnBook LedgerTxnBest RandomEvictionCache LedgerTables LedgerTxnRoot LedgerRootOffers LedgerRootCommit LedgerRootSafety.
Import RootImpl EvictionCache.
Local Open Scope Z_scope.

(** ** Calls *)

Inductive RootEvent : Type :=
| REvGetNewestVersion (key : InternalLedgerKey)
| REvGetBestOffer (assets : AssetPair) (worseThan : option OfferDescriptor)
| REvGetAllOffers
| REvGetOffersByAccountAndAsset (account : AccountID) (asset : Asset)
| REvGetHeader
| REvPrefetch (keys : gset LedgerKey)
| REvAddChild
| REvCommitChild (child : LedgerTxn.Impl) (entries : gmap InternalLedgerKey (option InternalLedgerEntry))
| REvRollbackChild
| REvCountObjects (let_ : Z)
| REvCountObjectsIn (let_ : Z) (ledgers : LedgerRange)
| REvDeleteObjects (ledger : Z)
| REvDrop (let_ : Z).

(** A call with the order of hash tables and the numbers that are drawn during it *)
Record RootCall : Type := {
  c_iter : ∀ A : Type, list A → list A;
  c_draw : Z → nat → nat * nat;
  c_event : RootEvent
}.

Inductive RootReply : Type :=
| RRDone
| RREntry (e : option InternalLedgerEntry)
| RROffers (offers : gmap LedgerKey LedgerEntry)
| RRHeader (h : LedgerHeader)
| RRCount (n : Z).

Definition rootStep (c : RootCall) (r : Impl) : LT (RootReply * Impl) :=
  match c_event c with
  | REvGetNewestVersion key => let? x := getNewestVersion (c_draw c) key r in Ok (RREntry x.1, x.2)
  | REvGetBestOffer assets w => let? x := getBestOffer (c_iter c) (c_draw c) (S (base.size (mDatabase r))) assets w r in Ok (RREntry x.1, x.2)
  | REvGetAllOffers => Ok (RROffers (getAllOffers r), r)
  | REvGetOffersByAccountAndAsset a x => let? o := getOffersByAccountAndAsset a x r in Ok (RROffers o, r)
  | REvGetHeader => Ok (RRHeader (mHeader r), r)
  | REvPrefetch keys => let? x := prefetch (c_iter c) (c_draw c) keys r in Ok (RRDone, x.2)
  | REvAddChild => let? r := addChild r in Ok (RRDone, r)
  | REvCommitChild child entries =>
      let? r := commitChild (c_iter c) (LedgerTxn.mHeader child) (mConsistency child) entries r in Ok (RRDone, r)
  | REvRollbackChild => Ok (RRDone, rollbackChild r)
  | REvCountObjects t => let? n := countAll t r in Ok (RRCount n, r)
  | REvCountObjectsIn t ledgers => let? n := countRange t ledgers r in Ok (RRCount n, r)
  | REvDeleteObjects ledger => let? r := deleteModified ledger r in Ok (RRDone, r)
  | REvDrop t => let? r := dropTable t r in Ok (RRDone, r)
  end.

Fixpoint rootRun (cs : list RootCall) (r : Impl) : LT (list RootReply * Impl) :=
  match cs with
  | [] => Ok ([], r)
  | c :: cs => let? x := rootStep c r in let? y := rootRun cs x.2 in Ok (x.1 :: y.1, y.2)
  end.

(** ** The root without caches *)

Definition withDatabase (db : gmap LedgerKey LedgerEntry) (r : LedgerTxnRoot) : LedgerTxnRoot :=
  {| r_child := r_child r; r_header := r_header r; r_database := db |}.

Definition noChild (r : LedgerTxnRoot) : LT unit := checkT (negb (r_child r)) HasChild.

(** What is left of a chain that is the root *)
Definition rootOf (l : Ledger) : LT LedgerTxnRoot := match l with Root r => Ok r | Nested _ _ => Fail HasChild end.

Definition plainStep (c : RootCall) (r : LedgerTxnRoot) : LT (RootReply * LedgerTxnRoot) :=
  match c_event c with
  | REvGetNewestVersion key => Ok (RREntry (LedgerTxn.getNewestVersion (Root r) key), r)
  | REvGetBestOffer assets w =>
      let? e := (match w with
                 | Some w => getBestOfferWorse 0 (Root r) assets w
                 | None => LedgerTxn.getBestOffer 0 (Root r) assets
                 end) in
      Ok (RREntry e, r)
  | REvGetAllOffers => let? o := getOffers (c_iter c) true (λ _, true) (Root r) in Ok (RROffers o, r)
  | REvGetOffersByAccountAndAsset a x =>
      let? o := getOffers (c_iter c) (bool_decide (x ≠ ASSET_TYPE_NATIVE)) (ofAccountAndAsset a x) (Root r) in Ok (RROffers o, r)
  | REvGetHeader => Ok (RRHeader (LedgerTxn.getHeader (Root r)), r)
  | REvPrefetch _ => Ok (RRDone, r)
  | REvAddChild => let? _ := noChild r in Ok (RRDone, {| r_child := true; r_header := r_header r; r_database := r_database r |})
  | REvCommitChild child entries =>
      let? l := LedgerTxn.commitChild (c_iter c) child entries (Root r) in let? r := rootOf l in Ok (RRDone, r)
  | REvRollbackChild => let? r := rootOf (LedgerTxn.rollbackChild (Root r)) in Ok (RRDone, r)
  | REvCountObjects t =>
      let? _ := noChild r in Ok (RRCount (Z.of_nat (length (filter (λ e, dataType e = t) (snd <$> map_to_list (r_database r))))), r)
  | REvCountObjectsIn t ledgers => let? _ := noChild r in Ok (RRCount (countObjects t ledgers (r_database r)), r)
  | REvDeleteObjects ledger =>
      let? _ := noChild r in Ok (RRDone, withDatabase (deleteObjectsModifiedOnOrAfterLedger ledger (r_database r)) r)
  | REvDrop t => let? _ := noChild r in Ok (RRDone, withDatabase (filter (λ ke, dataType ke.2 ≠ t) (r_database r)) r)
  end.

Fixpoint plainRun (cs : list RootCall) (r : LedgerTxnRoot) : LT (list RootReply * LedgerTxnRoot) :=
  match cs with
  | [] => Ok ([], r)
  | c :: cs => let? x := plainStep c r in let? y := plainRun cs x.2 in Ok (x.1 :: y.1, y.2)
  end.

Section Owners.
Context (owner : Z → AccountID).

(** What a caller has to respect: single trust lines are asked for only if the asset is
    valid and not the account's own, native ones never; the entries that are committed
    are legal; the offer to be worse than has a price. *)
Definition eventOk (ev : RootEvent) : Prop :=
  match ev with
  | REvGetNewestVersion key => ∀ k, key = LEDGER_KEY k → queryKey k
  | REvGetBestOffer _ w => ∀ d, w = Some d → priced (price d)
  | REvPrefetch keys => ∀ k, k ∈ keys → askable k
  | REvCommitChild _ entries => ∀ k x, entries !! k = Some x → legalRow owner (k, x)
  | _ => True
  end.

Definition callOk (c : RootCall) : Prop := (∀ A l, c_iter c A l ≡ₚ l) ∧ drawOk (c_draw c) ∧ eventOk (c_event c).

Notation Step c r :=
  (match rootStep c r with
   | Ok (x, r') => plainStep c (absRoot r) = Ok (x, absRoot r') ∧ RootInv owner r'
   | Fail e => plainStep c (absRoot r) = Fail e
   end).

Definition usesCaches (ev : RootEvent) : bool :=
  match ev with REvGetNewestVersion _ | REvGetBestOffer _ _ | REvPrefetch _ => true | _ => false end.

Lemma query_step iter draw ev r :
  callOk {| c_iter := iter; c_draw := draw; c_event := ev |} → RootInv owner r → usesCaches ev = true →
  Step {| c_iter := iter; c_draw := draw; c_event := ev |} r.
Proof.
  intros (Hi & Hd & He) Hr. cbn in Hi, Hd. intros Hev. destruct ev as [key|assets w| | | |keys| | | | | | |]; try done; unfold rootStep, plainStep; cbn [c_event c_iter c_draw]; cbn in He.
  - destruct (getNewestVersion_ok owner draw Hd key r Hr He) as (r' & -> & HQ). cbn [obind fst snd]. rewrite (Query_abs owner _ _ HQ). split; [|apply HQ].
    by rewrite getNewestVersion_view.
  - destruct (rootBestOffer_ok owner iter Hi draw Hd (S (base.size (mDatabase r))) assets w r Hr) as (r' & -> & HQ); [lia|]. cbn [obind fst snd].
    rewrite (Query_abs owner _ _ HQ). split; [|apply HQ]. by destruct w.
  - destruct (prefetch_ok owner iter Hi draw Hd keys r Hr He) as (s & -> & HQ). cbn [obind fst snd]. rewrite (Query_abs owner _ _ HQ). split; [done|apply HQ].
Qed.

Lemma rootStep_ok c r : callOk c → RootInv owner r → Step c r.
Proof.
  intros Hc Hr. destruct c as [iter draw ev].
  destruct ev; try (by apply query_step); try (destruct Hc as (Hi & Hd & He); cbn in Hi, Hd, He); unfold rootStep, plainStep; cbn [c_event c_iter c_draw].
  all: pose proof (inv_tables owner r Hr) as HT.
  - cbn [getOffers checkT obind r_database absRoot]. split; [|done]. unfold getAllOffers. by rewrite (byKey_ok owner).
  - unfold getOffersByAccountAndAsset, checkT. destruct asset; cbn [isNative negb obind getOffers checkT r_database absRoot]; [done|..];
      (split; [|done]); by rewrite (byKey_ok owner).
  - done.
  - unfold addChild, checkT, noChild. cbn [r_child absRoot]. destruct (mChild r) eqn:Ec; cbn [negb obind checkT]; [done|]. split; [done|].
    destruct Hr. by split.
  - pose proof (commitChild_ok owner iter Hi child entries r Hr He) as H. destruct (commitChild iter _ _ entries r) as [r'|e]; cbn [obind]; [|by rewrite H].
    destruct H as [-> ?]. done.
  - destruct (rollbackChild_ok owner r Hr) as [H1 H2]. split; [|done]. rewrite <- H2. done.
  - unfold countAll, throwIfChild, noChild. cbn [r_child absRoot]. destruct (mChild r); cbn [negb obind checkT]; [done|]. split; [|done].
    do 3 f_equal. symmetry. exact (count_entries owner (λ e, dataType e = let_) (mDatabase r) HT).
  - unfold countRange, throwIfChild, noChild. cbn [r_child absRoot]. destruct (mChild r); cbn [negb obind checkT]; [done|]. split; [|done].
    do 3 f_equal. symmetry.
    exact (count_entries owner (λ e, dataType e = let_ ∧ i32 (mFirst ledgers) ≤ lastModifiedLedgerSeq e ∧ lastModifiedLedgerSeq e < i32 (rangeLimit ledgers))
      (mDatabase r) HT).
  - unfold deleteModified, throwIfChild, noChild. cbn [r_child absRoot]. destruct (mChild r) eqn:Ec; cbn [negb obind checkT]; [done|].
    destruct (entriesOf_filter owner (λ e, lastModifiedLedgerSeq e < ledger) (mDatabase r) HT) as [HF E]. split; [|by apply cleared_inv].
    unfold absRoot, withDatabase, deleteObjectsModifiedOnOrAfterLedger. cbn. by rewrite E.
  - unfold dropTable, throwIfChild, noChild. cbn [r_child absRoot]. destruct (mChild r) eqn:Ec; cbn [negb obind checkT]; [done|].
    destruct (entriesOf_filter owner (λ e, dataType e ≠ let_) (mDatabase r) HT) as [HF E]. split; [|by apply cleared_inv].
    unfold absRoot, withDatabase. cbn. by rewrite E.
Qed.

(** ** Theorems *)


(** C15: Committing in batches by type is committing row by row: for rows with different
    keys that are legal entries of the ledger or keys to delete, in any order, the tables
    end up with the entries that inserting and deleting one row after another leads to,
    and the commit fails for a missing row exactly when that does. *)
Theorem commit_in_batches version cons rows T :
  TablesOk owner T → legalRows owner rows →
  match commitLoop version cons rows emptyAccumulator T with
  | Ok T' => foldT (applyRow cons) rows (entriesOf T) = Ok (entriesOf T') ∧ TablesOk owner T'
  | Fail e => foldT (applyRow cons) rows (entriesOf T) = Fail e
  end.
Proof.
  intros HT Hl. pose proof (applyRows_writes owner cons rows (entriesOf T) Hl) as Hw.
  assert (Applies owner cons rows T (commitLoop version cons rows emptyAccumulator T)) as Ha.
  { apply (commitLoop_ok owner cons _ _ emptyAccumulator); [|done|done|done]. intros t row. split; by intros ?%elem_of_nil. }
  destruct (commitLoop version cons rows emptyAccumulator T) as [T'|e]; [destruct Ha as [HT' Ha]; split; [|done]|]; by eapply Writes_unique.
Qed.
End Owners.

(** ** Examples *)

Lemma newRoot_inv owner T h n m b : TablesOk owner T → RootInv owner (newRoot T h n m b).
Proof.
  intros HT. destruct (newCache_ok (K := LedgerKey) (V := CacheEntry) n) as [H1 E1], (newCache_ok (K := AssetPair) (V := BestOffersCacheEntry) m) as [H2 E2].
  split; cbn; [done|split; [done|]|split; [done|]|done]; intros k x; [rewrite E1|rewrite E2]; by rewrite lookup_empty.
Qed.

Definition tablesOf (l : list LedgerEntry) : Tables := list_to_map ((λ e, (primaryKey (LedgerEntryKey e), e)) <$> l).

Lemma tablesOf_ok owner l : Forall (legalEntry owner) l → TablesOk owner (tablesOf l).
Proof.
  intros Hl p e Hp%elem_of_list_to_map_2. apply list_elem_of_fmap in Hp as (e' & [= -> ->] & He'). split; [|done]. rewrite Forall_forall in Hl. by apply Hl.
Qed.

Definition soldAsset : Asset := ASSET_TYPE_CREDIT_ALPHANUM4 [71; 76; 68; 0] 8.
Definition soldPair : AssetPair := {| OfferOrder.buying := ASSET_TYPE_NATIVE; OfferOrder.selling := soldAsset |}.
Definition soldOffer (id n : Z) : LedgerEntry :=
  {| lastModifiedLedgerSeq := 1;
     data := OFFER {| o_sellerID := 1; o_offerID := id; o_selling := soldAsset; o_buying := ASSET_TYPE_NATIVE; o_amount := 10;
                      o_price := mkPrice n 1; o_flags := 0 |};
     le_ext := None |}.
Definition soldLine : LedgerEntry :=
  {| lastModifiedLedgerSeq := 1;
     data := TRUSTLINE {| tl_accountID := 1; tl_asset := soldAsset; tl_balance := 70; limit := 100; tl_flags := 1; tl_extV1 := None |};
     le_ext := None |}.
Definition soldOwner (id : Z) : AccountID := 1.

Lemma soldOffer_legal id n : 0 ≤ id < INT64_MAX → 0 < n < 2 ^ 31 → legalEntry soldOwner (soldOffer id n).
Proof.
  intros Hi Hn. split_and!; [done| |intros o [= <-]; apply priced_positive; cbn; lia].
  cbn. rewrite (proj2 (Z.leb_le 0 id)) by lia. done.
Qed.

(** Seven offers, two of them with the same price, and a trust line *)
Definition soldEntries : list LedgerEntry := soldLine :: ((λ id, soldOffer id (1 + id `div` 2)) <$> [7; 6; 5; 4; 3; 2; 1]).

Lemma soldEntries_legal : Forall (legalEntry soldOwner) soldEntries.
Proof.
  unfold soldEntries. constructor; [by split_and!|]. rewrite Forall_fmap.
  repeat (apply Forall_cons_2; [apply soldOffer_legal; vm_compute; (split; reflexivity) || (split; [discriminate|reflexivity])|]). apply Forall_nil_2.
Qed.

(** Room for three entries and one list of offers; batches of five *)
Definition smallRoot (h : LedgerHeader) : Impl := newRoot (tablesOf soldEntries) h 3 1 2.

Definition backwards (A : Type) (l : list A) : list A := rev l.
Definition drawn (g : Z) (n : nat) : nat * nat := (Z.to_nat (g mod Z.of_nat n), 0%nat).

Lemma drawn_ok : drawOk drawn.
Proof. intros g n Hn. unfold drawn. cbn [fst snd]. split; [|done]. pose proof (Z.mod_pos_bound g (Z.of_nat n)). lia. Qed.

Definition call (ev : RootEvent) : RootCall := {| c_iter := backwards; c_draw := drawn; c_event := ev |}.

Lemma call_ok ev : eventOk soldOwner ev → callOk soldOwner (call ev).
Proof. intros He. split_and!; [|apply drawn_ok|done]. intros A l. apply Permutation_sym, Permutation_rev. Qed.

Definition soldChanges : gmap InternalLedgerKey (option InternalLedgerEntry) :=
  <[LEDGER_KEY (KEY_OFFER 1 1) := None]> (<[LEDGER_KEY (KEY_OFFER 1 8) := Some (LEDGER_ENTRY (soldOffer 8 1))]> (<[SPONSORSHIP_KEY 4 := None]> ∅)).

Lemma soldChanges_legal k x : soldChanges !! k = Some x → legalRow soldOwner (k, x).
Proof.
  unfold soldChanges. rewrite !lookup_insert_Some, lookup_empty. intros [[<- <-]|[_ [[<- <-]|[_ [[<- <-]|[_ ?]]]]]]; try done.
  exists (soldOffer 8 1). split_and!; [done|done|]. apply soldOffer_legal; unfold INT64_MAX; lia.
Qed.

(** The sixth offer is in the second batch; the entries of the first answers are evicted;
    after a commit the caches are filled anew. *)
Definition soldCalls (h : LedgerHeader) : list RootCall :=
  call <$> [REvAddChild; REvGetBestOffer soldPair None; REvGetBestOffer soldPair (Some {| price := mkPrice 3 1; offerID := 5 |});
            REvGetNewestVersion (LEDGER_KEY (KEY_TRUSTLINE 1 soldAsset)); REvGetNewestVersion (LEDGER_KEY (KEY_OFFER 1 1));
            REvPrefetch {[KEY_OFFER 1 2; KEY_TRUSTLINE 8 soldAsset]}; REvCommitChild (newImpl true h) soldChanges;
            REvGetBestOffer soldPair None; REvGetNewestVersion (LEDGER_KEY (KEY_OFFER 1 1)); REvCountObjects 2; REvGetAllOffers].

Lemma soldCalls_ok h : Forall (callOk soldOwner) (soldCalls h).
Proof.
  apply Forall_fmap. eapply Forall_impl; [|intros ev; apply call_ok]. repeat apply Forall_cons_2; try exact I; try apply Forall_nil_2.
  - by intros d.
  - intros d [= <-]. by apply priced_positive.
  - by intros k [= <-].
  - by intros k [= <-].
  - intros k. rewrite elem_of_union, !elem_of_singleton. by intros [-> | ->].
  - exact soldChanges_legal.
  - by intros d.
  - by intros k [= <-].
Qed.

Definition rootHeader : LedgerHeader :=
  {| ledgerVersion := 15; ledgerSeq := 7; closeTime := 0; totalCoins := 1000; feePool := 0; inflationSeq := 0; idPool := 8; baseFee := 1;
     baseReserve := 1; maxTxSetSize := 1; previousLedgerHash := 0; bucketListHash := 0; skipList := [0; 0; 0; 0] |}.

(** The numbers of the offers in the answers *)
Definition answered (x : RootReply) : option Z :=
  match x with RREntry (Some (LEDGER_ENTRY e)) => match data e with OFFER o => Some (o_offerID o) | _ => None end | _ => None end.

Definition soldAnswers (x : LT (list RootReply * Impl)) : bool :=
  match x with Ok (xs, _) => bool_decide (omap answered xs = [1; 6; 1; 8]) | Fail _ => false end.

Lemma smallRoot_inv h : RootInv soldOwner (smallRoot h).
Proof. apply newRoot_inv, tablesOf_ok, soldEntries_legal. Qed.


Lemma commit_in_batches_witness :
  ∃ T', commitLoop 15 EXACT (map_to_list soldChanges) emptyAccumulator (tablesOf soldEntries) = Ok T' ∧
    foldT (applyRow EXACT) (map_to_list soldChanges) (entriesOf (tablesOf soldEntries)) = Ok (entriesOf T').
Proof.
  assert ((match commitLoop 15 EXACT (map_to_list soldChanges) emptyAccumulator (tablesOf soldEntries) with Ok _ => true | Fail _ => false end) = true) as E
    by (vm_compute; reflexivity).
  assert (legalRows soldOwner (map_to_list soldChanges)) as Hl.
  { split; [apply NoDup_fst_map_to_list|]. intros [k x] Hin%elem_of_map_to_list. by apply soldChanges_legal. }
  pose proof (commit_in_batches soldOwner 15 EXACT (map_to_list soldChanges) (tablesOf soldEntries) (tablesOf_ok _ _ soldEntries_legal) Hl) as H.
  destruct (commitLoop 15 EXACT (map_to_list soldChanges) emptyAccumulator (tablesOf soldEntries)) as [T'|e].
  2: discriminate E.
  exists T'. split; [reflexivity|]. exact (proj1 H).
Defined.
